(* ===== verification/_CoqProject ===== *)
-Q . S2P
Prelude.v
RustStd.v
Utf8.v
Lsp.v
LineIndex.v
Order.v
Paths.v
JdwpCommands.v
JdwpCodec.v
JdwpVm.v
JdwpClient.v
DapProtocol.v
DapPure.v
DapSession.v
DapExample.v
DapSteps.v
DapInvariants.v
DapHandlers.v
SuspendLedger.v
LaunchWalk.v
Launch.v
JTypes.v
Subtyping.v
JvmSignature.v
Zip.v
Pom.v
Resolve.v
Repo.v
Jdk.v
Degraded.v
ClassInfo.v
Index.v
ModuleDirs.v
Classpath.v
Project.v
FsScan.v
WorkspaceIndex.v
Rebuild.v
Backend.v
Symbols.v
JavacOutput.v
JavacRun.v
Checks.v
SyntaxTree.v
Outline.v
Signatures.v
Dfs.v
SourceModel.v
TypeRefs.v
Lombok.v
SourceClass.v
BodyEdits.v
Structural.v
Members.v
Bindings.v
Hygiene.v
Overload.v
TextEdits.v
Refactor.v
