(* ===== verification/Prelude.v ===== *)
(** * java-vsix-lite: a verification library for the Rust language server

    java-vsix-lite is a Java editor backend in five Rust crates under
    [src/crates]: [types] (Java types and JVM signatures), [classpath] (JDK,
    archives and build files), [syntax] (analysis over tree-sitter trees),
    [server] (the language server) and [debug] (a debug adapter: DAP towards
    the editor, JDWP towards the debuggee).  This library models [types],
    [classpath] and [debug] whole, the parts of [server] that keep state or
    decide something, and of [syntax] the declarations, names, types, overload
    choice and the checks that need no type of an expression.

    ** The program

    The language server keeps the open documents, an index of the workspace, a
    classpath and caches behind locks; requests, file events, the driver of
    classpath rebuilds and the runs of [javac] are tasks that interleave where
    they await.  A request builds the type table of the open documents and asks
    layers of symbol sources (open documents, workspace files, archives) for
    the rest.  The debug adapter is one event loop: the editor's requests, the
    debuggee's packets, its output and its exit are messages on one channel,
    handled one at a time, beside the JDWP client's reader task.

    ** Shared files

    - [Prelude] (this file): notations, tactics, generic lemmas.  [RustStd]:
      integers at their widths, strings as UTF-8 bytes, the [core]/[std]
      functions the sources call.  [Utf8]: text as characters.  [Order]:
      comparators, stable sorting, prefix ranges.  [Paths]: [std::path].
      [Lsp]: the protocol's data.  [SyntaxTree]: parse trees and places in
      them, going down and over a tree.  [Dfs]: walks over a hierarchy.

    ** The debugger ([src/crates/debug])

    - [JdwpCommands], [JdwpCodec] ([jdwp/commands.rs], [jdwp/codec.rs]): the
      constants, the bounds-checked [Reader] (an error monad over position and
      bytes), the [Writer], tagged values, ID sizes, Composite packets.
      Parsing inverts the wire format, accepts no proper prefix, and yields
      only values in range.
    - [JdwpVm], [JdwpClient] ([jdwp/mod.rs]): every typed request; the client
      as a transition system of callers and reader.  Replies reach the call
      with their id, and no call is left hanging in any interleaving.
    - [DapProtocol] ([dap/protocol.rs]): framing and messages.  [DapPure]: the
      pure parts of [dap/session.rs].  [DapSession]: the [Session] record and
      every handler, in a state monad over session, writer and wire log.
      [DapExample]: a concrete debuggee, client and operating system, at which
      the theorems over the interfaces are instantiated.
    - [DapSteps]: the abstract machine of micro-steps and the proof that every
      handler refines a sequence of them.  [DapInvariants], [DapHandlers],
      [SuspendLedger]: what follows for whole runs and handler by handler
      (a handle from before a stop the client is told of, or from before an
      answered continue or step, never denotes anything again; one response per
      request, breakpoints well formed, [setBreakpoints] exact, and the suspend depth against the count
      of a JVM that sees the same commands).
    - [LaunchWalk], [Launch] ([launch.rs]): directory walks, classpath
      assembly, the argument file, [javac]'s supervision; [Project]: the
      interface [ClasspathCrate] of [Launch] implemented by the model of
      [classpath].

    ** Types and archives ([src/crates/types], [src/crates/classpath])

    - [JTypes], [JvmSignature]: the type algebra; the signature parser in both
      forms and its round trip with the JVMS grammar.
    - [Zip]: the archive reader, its round trip with the ZIP layout and bounds
      on hostile archives.  [ClassInfo]: members of a class file.
    - [Pom], [Resolve], [Repo], [Degraded]: effective POMs, nearest-wins
      resolution with exclusions, where artifacts lie, and the record of what
      was not found.  [Jdk]: JDK discovery.  [ModuleDirs]: output directories.
      [Index]: the type-name index.  [Classpath]: archives, lookups and caches;
      every query agrees with every other, whatever was asked before.

    ** The server ([src/crates/server])

    - [FsScan] ([fs_scan.rs], [references.rs]), [WorkspaceIndex], [Rebuild]
      and [Backend] ([backend.rs], [main.rs]), [Symbols]
      ([project_symbols.rs], [external.rs]): the bounded walk reads each
      directory once and offers each of its Java files under every name it has
      there, the index is never stale, rebuilds coalesce without losing a
      change, as long as no rebuild command finishes among them.
    - [JavacOutput], [JavacRun] ([javac.rs]): the compiler's output read back
      where its text is unambiguous; the process, its pipes and its slot as
      interleaving steps.
    - [Checks] ([diagnostics.rs] and the handlers of [main.rs]): a superseded
      refresh publishes nothing, another only what it computed from the
      documents as they still are, and compiler results that are kept are those
      of the text they are shown on.

    ** The analysis ([src/crates/syntax])

    - [LineIndex], [Outline] ([lib.rs]): positions, edits, syntax errors,
      symbols, folds, selections, semantic tokens.  [Signatures]
      ([signature.rs]): rendered declarations and their parameters.
    - [SourceModel] ([imports.rs], [model.rs]): imports, declarations, members,
      the type table, and what a type name means: the rules of the language
      over the declarations ([means]), which the code implements for names that
      are [plain]; what these leave out is listed there, with programs that
      show the difference.
      [TypeRefs] ([typeref.rs]), [Lombok] ([lombok.rs]), [SourceClass]
      ([srcclass.rs]): declared types, generated members, a document's class
      in the shape of a class file.  [BodyEdits]: edits inside bodies change
      nothing of it.
    - [Subtyping] ([resolve.rs]): assignability over the class [Classes], with
      a proved yes, a proved no and an unknown.  For types without wildcards
      (the expected one may have them for arguments) both are right against JLS
      4.10, 5.1 and 5.2 in every world that completes the known classes; the
      engine has no capture conversion, and examples show where it matters.
      [Members] ([resolve.rs]): types of places, the facts that make the
      project's classes an instance of [Classes], and all names of a type.
    - [Structural] ([structural.rs]), [Bindings], [Hygiene]
      ([diagnostics.rs], [resolve.rs]): the checks.  Structural diagnostics
      are exactly the violations of rules stated over the tree, and two kinds
      of report made on the spelling alone; a name is not reported as undeclared
      when it is in scope where the check looks ([in_scope] has the rules, and
      a flag for the places where it does not look); the reported statement is
      the first that no execution reaches; what is reported as unused occurs
      nowhere else.
    - [Overload] ([call.rs]): the candidates of a call, function types, lambda
      bodies, the three phases and the most specific method, over the class
      [Project].  The choice, an error included, is what the phases and the
      preference for the more specific method make of the answers about single
      arguments, and where these have answers it does not depend on the order of
      the candidates; the candidates miss no method.
    - [TextEdits], [Refactor] ([generate.rs], the word search of
      [codeaction.rs]): what an editor does with the edits of an answer, and
      the refactorings.  The text after extracting a variable, a constant or a
      method, inlining a variable and generating members is given in full,
      with the conditions under which each is offered, which are textual: that
      the program means the same is not shown, and examples show where it does
      not.  The search for names is the only thing that can panic.

    ** Interfaces

    What a component promises another is a type class or a record of
    operations: [SerdeJson], [Debuggee], [Serde], [LaunchSupport], [Env],
    [ClasspathCrate], [Locator], [FsView], [SymbolSource], [Classes],
    [Project].  Third-party code (the parser, [serde], [cafebabe],
    [roxmltree], [inflate], Unicode tables, the operating system) is always
    behind one of them or an argument.

    ** Fuel and bounds

    Loops that consume input run on its length, and lemmas show a larger bound
    changes nothing ([JvmSignature.signature_loops_progress],
    [Zip.cd_loop_fuel], [LaunchWalk.collect_loop_spec]).  Loops over a tree run
    on its size ([SyntaxTree.walk_visited], [descend_eq]).  Loops with a
    counter in the source run on that counter (the depth guards, the 50000
    directories, [SUPER_CHAIN_CAP], [MAX_NODES], the poll loop).  The scan of
    the workspace runs on one round per directory ([FsScan.visits_known]).  The
    assignability engine has no bound in the source: it runs on fuel, out of
    fuel is an outcome of its own, [Subtyping.assignable_terminates] says when
    some fuel is enough and two lemmas show programs where none is.  The walk
    for candidates always ends ([Overload.candidates_exact]).

    ** Modelling choices

    The counters [seq], [next_handle] and [suspend_depth] are unbounded (the
    sources use integers no session exhausts); the JDWP packet id wraps.  Hash
    maps are finite maps; where the source iterates one, the order is that of
    the finite map and no theorem depends on it.  Paths are UTF-8 strings with
    Unix separators.  In [SuspendLedger] the debuggee raises events between two
    messages, not between two commands of one handler.  A directory tree is a
    snapshot, a query's.  Parse trees are arbitrary trees; a theorem that needs
    more of them (identities of their own, bytes that fit the source) says so.

    ** Not modelled

    The tree-sitter parser and grammar; JSON-RPC plumbing, thread pools and
    locks as such; the VS Code extension.  Of [syntax]: the types of
    expressions ([resolve.rs], [resolve_receiver_depth] and what it calls), the
    resolution of method references and the inference of type arguments
    ([call.rs]), the checks that need them ([diagnostics.rs]: members,
    invocations, returns, assignments), and the features that present what is
    resolved (completion, hover, definition, references, rename, hierarchy,
    signature help, the other code actions, documentation rendering).  They
    are one recursion over every form of expression; its inputs, the table,
    types, members, assignability and overload choice, are the modelled part. *)

From stdpp Require Export base numbers list gmap strings pretty.
From Stdlib Require Export ZArith Lia.
From Stdlib Require List.

Open Scope string_scope.
Open Scope list_scope.
Open Scope Z_scope.

(** stdpp blocks the reduction of [+:+]; our strings are concrete. *)
Global Arguments String.append : simpl nomatch.

(** ** Results

    [Result<T, E>] of the sources; the error type comes first so that
    [Result E] is a monad for stdpp's [x ← m; k] notation, which plays the
    part of Rust's [?] operator. *)
Inductive Result (E A : Type) : Type :=
| Ok (a : A)
| Err (e : E).
Arguments Ok {E A} a.
Arguments Err {E A} e.

Global Instance Result_ret {E} : MRet (Result E) := λ A a, Ok a.
Global Instance Result_bind {E} : MBind (Result E) := λ A B f m,
  match m with Ok a => f a | Err e => Err e end.
Global Instance Result_fmap {E} : FMap (Result E) := λ A B f m,
  match m with Ok a => Ok (f a) | Err e => Err e end.

(** [Result::ok], [Result::is_ok], [Result::unwrap_or] and
    [Result::map_err]. *)
Definition res_ok {E A} (r : Result E A) : option A :=
  match r with Ok a => Some a | Err _ => None end.
Definition is_ok {E A} (r : Result E A) : bool :=
  match r with Ok _ => true | Err _ => false end.
Definition res_unwrap_or {E A} (d : A) (r : Result E A) : A :=
  match r with Ok a => a | Err _ => d end.
Definition map_err {E F A} (f : E → F) (r : Result E A) : Result F A :=
  match r with Ok a => Ok a | Err e => Err (f e) end.
(** [Option::ok_or]. *)
Definition ok_or {E A} (o : option A) (e : E) : Result E A :=
  match o with Some a => Ok a | None => Err e end.

Lemma res_bind_ok {E A B} (r : Result E A) (f : A → Result E B) b :
  (r ≫= f) = Ok b → ∃ a, r = Ok a ∧ f a = Ok b.
Proof. destruct r; cbn; [eauto | discriminate]. Qed.

(** ** Automation *)

Create HintDb jvl.
Create Rewrite HintDb jvlr.

(** Split hypotheses that say a chain of fallible steps succeeded. *)
Ltac inv_ok :=
  repeat match goal with
  | H : Ok _ = Ok _ |- _ => injection H as H; subst
  | H : Err _ = Ok _ |- _ => discriminate H
  | H : Ok _ = Err _ |- _ => discriminate H
  | H : Some _ = Some _ |- _ => injection H as H; subst
  | H : None = Some _ |- _ => discriminate H
  | H : (_, _) = (_, _) |- _ => injection H as H; subst
  | H : (_ ≫= _) = Ok _ |- _ =>
      let a := fresh "a" in let Ha := fresh "Ha" in
      apply res_bind_ok in H as (a & Ha & H)
  end.

(** Case analysis on the scrutinee of a visible conditional. *)
Ltac case_if :=
  match goal with
  | |- context [if ?b then _ else _] => let E := fresh "E" in destruct b eqn:E
  | H : context [if ?b then _ else _] |- _ => let E := fresh "E" in destruct b eqn:E
  end.

(** ** Generic list lemmas *)

Lemma drop_take_app {A} (n : nat) (l k : list A) :
  length l = n → take n (l ++ k) = l ∧ drop n (l ++ k) = k.
Proof. intros <-. by rewrite take_app_length, drop_app_length. Qed.

(** A buffer that keeps what fits, chunk by chunk, keeps a prefix. *)
Lemma take_fill {A} (n : nat) (acc b rest : list A) : (length acc ≤ n)%nat →
  take n ((acc ++ take (n - length acc) b) ++ rest) = take n (acc ++ b ++ rest).
Proof.
  intros Ha. destruct (decide (length b ≤ n - length acc)%nat).
  - by rewrite (take_ge b), <-app_assoc by lia.
  - rewrite (take_app_le (acc ++ _)) by (rewrite length_app, length_take; lia).
    rewrite !(take_app_ge acc) by lia. rewrite take_take, (take_app_le b) by lia. by rewrite Nat.min_id.
Qed.
Lemma elem_of_rev {A} (x : A) l : x ∈ rev l ↔ x ∈ l.
Proof. rewrite !list_elem_of_In. symmetry. apply in_rev. Qed.

(** [Iterator::find_map] *)
Fixpoint find_map {A B} (f : A → option B) (l : list A) : option B :=
  match l with
  | [] => None
  | x :: l' => match f x with Some y => Some y | None => find_map f l' end
  end.

Lemma find_map_is_Some {A B} (f : A → option B) l x : x ∈ l → is_Some (f x) → is_Some (find_map f l).
Proof.
  intros Hx [y Hy]. induction l as [|z l IH]; [by apply elem_of_nil in Hx|]. cbn.
  destruct (f z) eqn:E; [by eexists|]. apply elem_of_cons in Hx as [->|Hx]; [congruence|auto].
Qed.
Lemma find_map_None {A B} (f : A → option B) l : find_map f l = None ↔ ∀ x, x ∈ l → f x = None.
Proof.
  induction l as [|z l IH]; cbn; [split; [by intros _ x Hx%elem_of_nil|done]|]. destruct (f z) eqn:E.
  - split; [done|]. intros H. by rewrite <-E, (H z) by (by left).
  - rewrite IH. split; [intros H x [->|Hx]%elem_of_cons; auto|]. intros H x Hx. apply H. by right.
Qed.
Lemma find_map_app {A B} (f : A → option B) l k :
  find_map f (l ++ k) = match find_map f l with Some y => Some y | None => find_map f k end.
Proof. induction l as [|z l IH]; cbn; [done|]. by destruct (f z). Qed.
Lemma find_map_Some {A B} (f : A → option B) l y : find_map f l = Some y → ∃ pre x post,
  l = pre ++ x :: post ∧ f x = Some y ∧ ∀ z, z ∈ pre → f z = None.
Proof.
  induction l as [|z l IH]; [done|]. cbn. destruct (f z) eqn:E.
  - intros [= ->]. exists [], z, l. split; [done|]. split; [done|]. by intros x Hx%elem_of_nil.
  - intros (pre & x & post & -> & Hx & Hp)%IH. exists (z :: pre), x, post. split; [done|]. split; [done|].
    intros w [->|Hw]%elem_of_cons; auto.
Qed.
