(* ===== verification/RustStd.v ===== *)
(** * Fixed-width integers, bytes and strings of the Rust standard library

    The part of [core]/[std] the modelled crates use.  Unsigned and signed
    machine integers are [Z] together with explicit wrap-around functions for
    the [as] casts; bytes are [Z] in [0..256); [str]/[String] are Rocq
    [string]s read as the UTF-8 bytes of the Rust value. *)
From S2P Require Import Prelude.
From Stdlib Require Import Ascii.

(** ** Integer casts *)

(** [x as uN]: the low [w] bits. *)
Definition as_u (w : Z) (z : Z) : Z := z mod 2 ^ w.
(** [x as iN]: the low [w] bits read in two's complement. *)
Definition as_i (w : Z) (z : Z) : Z :=
  let m := z mod 2 ^ w in
  if m <? 2 ^ (w - 1) then m else m - 2 ^ w.

Definition as_u8 := as_u 8.
Definition as_u16 := as_u 16.
Definition as_u32 := as_u 32.
Definition as_u64 := as_u 64.
Definition as_i8 := as_i 8.
Definition as_i16 := as_i 16.
Definition as_i32 := as_i 32.
Definition as_i64 := as_i 64.

(** [u32::saturating_sub] and [u64::checked_add]. *)
Definition saturating_sub (a b : Z) : Z := Z.max 0 (a - b).
Definition checked_add_u64 (a b : Z) : option Z :=
  if a + b <? 2 ^ 64 then Some (a + b) else None.

Definition is_u (w z : Z) : Prop := 0 ≤ z < 2 ^ w.
Definition is_byte (z : Z) : Prop := 0 ≤ z < 256.

(** ** Byte order *)

(** [uN::from_be_bytes] and [uN::from_le_bytes] on the bytes of [l]. *)
Definition from_be_bytes (l : list Z) : Z :=
  fold_left (λ v b, v * 256 + b) l 0.
Definition from_le_bytes (l : list Z) : Z := from_be_bytes (rev l).

(** [uN::to_be_bytes] for an integer of [n] bytes. *)
Fixpoint to_be_bytes (n : nat) (v : Z) : list Z :=
  match n with
  | O => []
  | S k => as_u8 (Z.shiftr v (8 * Z.of_nat k)) :: to_be_bytes k v
  end.

(** ** Bytes and strings *)

Definition byte_of_ascii (a : ascii) : Z := Z.of_N (N_of_ascii a).
Definition ascii_of_byte (z : Z) : ascii := ascii_of_N (Z.to_N z).

(** [str::as_bytes] *)
Fixpoint as_bytes (s : string) : list Z :=
  match s with
  | EmptyString => []
  | String a s' => byte_of_ascii a :: as_bytes s'
  end.

Fixpoint string_of_bytes (l : list Z) : string :=
  match l with
  | [] => EmptyString
  | b :: l' => String (ascii_of_byte b) (string_of_bytes l')
  end.

(** [str::len]: bytes, not characters. *)
Definition str_len (s : string) : Z := Z.of_nat (String.length s).

(** ** UTF-8

    One step of [core::str::lossy::Utf8Chunks]: the byte length of the valid
    scalar at the front of [l], or of the maximal invalid subpart there.  A
    read past the end yields 0, which is no continuation byte. *)
Inductive utf8_step := U8Valid (n : nat) | U8Invalid (n : nat).

Definition byte_at (l : list Z) (i : nat) : Z := default 0 (l !! i).
Definition in_range (lo hi b : Z) : bool := (lo <=? b) && (b <=? hi).
Definition is_cont (b : Z) : bool := in_range 128 191 b.

Definition utf8_first4 (b0 b1 b2 b3 : Z) : utf8_step :=
  if b0 <? 128 then U8Valid 1
  else if in_range 194 223 b0 then
    if is_cont b1 then U8Valid 2 else U8Invalid 1
  else if in_range 224 239 b0 then
    if ((b0 =? 224) && in_range 160 191 b1)
       || (in_range 225 236 b0 && in_range 128 191 b1)
       || ((b0 =? 237) && in_range 128 159 b1)
       || (in_range 238 239 b0 && in_range 128 191 b1)
    then if is_cont b2 then U8Valid 3 else U8Invalid 2
    else U8Invalid 1
  else if in_range 240 244 b0 then
    if ((b0 =? 240) && in_range 144 191 b1)
       || (in_range 241 243 b0 && in_range 128 191 b1)
       || ((b0 =? 244) && in_range 128 143 b1)
    then if is_cont b2 then
           if is_cont b3 then U8Valid 4 else U8Invalid 3
         else U8Invalid 2
    else U8Invalid 1
  else U8Invalid 1.
Definition utf8_first (l : list Z) : utf8_step :=
  utf8_first4 (byte_at l 0) (byte_at l 1) (byte_at l 2) (byte_at l 3).

(** U+FFFD *)
Definition replacement_char : list Z := [239; 191; 189].

(** [String::from_utf8_lossy]; every step consumes at least one byte, so the
    length of the input is enough fuel. *)
Fixpoint utf8_lossy_go (fuel : nat) (l : list Z) : list Z :=
  match fuel, l with
  | _, [] => []
  | O, _ => []
  | S f, _ =>
      match utf8_first l with
      | U8Valid n => take n l ++ utf8_lossy_go f (drop n l)
      | U8Invalid n => replacement_char ++ utf8_lossy_go f (drop n l)
      end
  end.
Definition utf8_lossy_bytes (l : list Z) : list Z := utf8_lossy_go (length l) l.
Definition from_utf8_lossy (l : list Z) : string :=
  string_of_bytes (utf8_lossy_bytes l).

Fixpoint utf8_valid_go (fuel : nat) (l : list Z) : bool :=
  match fuel, l with
  | _, [] => true
  | O, _ => false
  | S f, _ =>
      match utf8_first l with
      | U8Valid n => utf8_valid_go f (drop n l)
      | U8Invalid _ => false
      end
  end.
Definition utf8_valid (l : list Z) : bool := utf8_valid_go (length l) l.

(** [std::str::from_utf8] *)
Definition from_utf8 (l : list Z) : option string :=
  if utf8_valid l then Some (string_of_bytes l) else None.

(** A Rocq string that is a Rust [str]. *)
Definition is_str (s : string) : Prop := utf8_valid (as_bytes s) = true.

(** ** String slices

    Every character pattern the sources use is ASCII, and an ASCII byte never
    occurs inside a multi-byte UTF-8 sequence, so these work bytewise. *)

(** [str::strip_prefix] *)
Fixpoint strip_prefix (p s : string) : option string :=
  match p, s with
  | EmptyString, _ => Some s
  | String a p', String b s' => if Ascii.eqb a b then strip_prefix p' s' else None
  | String _ _, EmptyString => None
  end.
(** [str::starts_with] *)
Definition starts_with (p s : string) : bool := bool_decide (is_Some (strip_prefix p s)).

Fixpoint str_rev (s : string) : string :=
  match s with
  | EmptyString => EmptyString
  | String a s' => str_rev s' +:+ String a EmptyString
  end.
(** [str::strip_suffix], [str::ends_with] *)
Definition strip_suffix (p s : string) : option string :=
  str_rev <$> strip_prefix (str_rev p) (str_rev s).
Definition ends_with (p s : string) : bool := bool_decide (is_Some (strip_suffix p s)).

(** [str::contains(char)] and [str::contains(&str)]. *)
Fixpoint contains_char (c : ascii) (s : string) : bool :=
  match s with
  | EmptyString => false
  | String a s' => Ascii.eqb a c || contains_char c s'
  end.
(** [str::find(&str)]: byte offset of the first occurrence. *)
Fixpoint str_find (p s : string) : option nat :=
  if starts_with p s then Some 0%nat
  else match s with
       | EmptyString => None
       | String _ s' => S <$> str_find p s'
       end.
Definition contains_str (p s : string) : bool := bool_decide (is_Some (str_find p s)).

(** [&s[..n]] and [&s[n..]]. *)
Fixpoint str_take (n : nat) (s : string) : string :=
  match n, s with
  | S n', String a s' => String a (str_take n' s')
  | _, _ => EmptyString
  end.
Fixpoint str_drop (n : nat) (s : string) : string :=
  match n, s with
  | S n', String _ s' => str_drop n' s'
  | _, _ => s
  end.

(** [str::split(char)]: always at least one piece. *)
Fixpoint split_char (c : ascii) (s : string) : list string :=
  match s with
  | EmptyString => [EmptyString]
  | String a s' =>
      if Ascii.eqb a c then EmptyString :: split_char c s'
      else match split_char c s' with
           | [] => [String a EmptyString]
           | w :: ws => String a w :: ws
           end
  end.
(** [s.split(c).next().unwrap_or(s)] and [s.rsplit(c).next().unwrap_or(s)]. *)
Definition split_first (c : ascii) (s : string) : string := default s (head (split_char c s)).
Definition split_last (c : ascii) (s : string) : string := default s (last (split_char c s)).

(** [str::rsplit_once(char)] *)
Fixpoint rsplit_once (c : ascii) (s : string) : option (string * string) :=
  match s with
  | EmptyString => None
  | String a s' =>
      match rsplit_once c s' with
      | Some (x, y) => Some (String a x, y)
      | None => if Ascii.eqb a c then Some (EmptyString, s') else None
      end
  end.

(** [str::replace] for a one-character pattern (or a set of them). *)
Fixpoint replace_chars (p : ascii → bool) (r s : string) : string :=
  match s with
  | EmptyString => EmptyString
  | String a s' =>
      if p a then r +:+ replace_chars p r s' else String a (replace_chars p r s')
  end.
Definition replace_char (c : ascii) (r s : string) : string := replace_chars (Ascii.eqb c) r s.

(** [str::replace] of every non-overlapping occurrence of a non-empty
    pattern, from the left. *)
Fixpoint str_replace_go (fuel : nat) (p r s : string) : string :=
  match fuel with
  | O => s
  | S f =>
      match strip_prefix p s with
      | Some rest => r +:+ str_replace_go f p r rest
      | None => match s with
                | EmptyString => EmptyString
                | String a s' => String a (str_replace_go f p r s')
                end
      end
  end.
Definition str_replace (p r s : string) : string := str_replace_go (String.length s) p r s.

(** [u8::to_ascii_lowercase], [str::to_ascii_lowercase] and
    [str::eq_ignore_ascii_case]. *)
Definition ascii_lower (a : ascii) : ascii :=
  let b := byte_of_ascii a in if in_range 65 90 b then ascii_of_byte (b + 32) else a.
Fixpoint to_ascii_lowercase (s : string) : string :=
  match s with EmptyString => EmptyString | String a s' => String (ascii_lower a) (to_ascii_lowercase s') end.
Definition eq_ignore_ascii_case (s t : string) : bool :=
  bool_decide (to_ascii_lowercase s = to_ascii_lowercase t).

(** [s.chars().take_while(p)] and [skip_while(p)] for a test that only
    accepts (or only skips over) ASCII and bytes of whole characters alike. *)
Fixpoint str_take_while (p : Z → bool) (s : string) : string :=
  match s with
  | EmptyString => EmptyString
  | String a s' => if p (byte_of_ascii a) then String a (str_take_while p s') else EmptyString
  end.
Fixpoint str_skip_while (p : Z → bool) (s : string) : string :=
  match s with
  | EmptyString => EmptyString
  | String a s' => if p (byte_of_ascii a) then str_skip_while p s' else s
  end.

(** [str::lines]: split at line feeds, a final empty piece dropped, a
    carriage return before the line feed dropped. *)
Definition str_lines (s : string) : list string :=
  let ps := split_char (ascii_of_N 10) s in
  let ps := match last ps with Some EmptyString => removelast ps | _ => ps end in
  (λ l, default l (strip_suffix (String (ascii_of_N 13) EmptyString) l)) <$> ps.

(** [s.chars().filter(p).collect()] for a test that only accepts ASCII. *)
Fixpoint filter_chars (p : ascii → bool) (s : string) : string :=
  match s with
  | EmptyString => EmptyString
  | String a s' => if p a then String a (filter_chars p s') else filter_chars p s'
  end.

(** [[T]::join(&str)] and [str::repeat]. *)
Fixpoint str_join (sep : string) (l : list string) : string :=
  match l with
  | [] => EmptyString
  | [x] => x
  | x :: l' => x +:+ sep +:+ str_join sep l'
  end.
Fixpoint str_repeat (n : nat) (s : string) : string :=
  match n with O => EmptyString | S k => s +:+ str_repeat k s end.

(** The UTF-8 encodings of the Unicode [White_Space] characters. *)
Definition white_space : list string :=
  string_of_bytes <$>
  ([[9]; [10]; [11]; [12]; [13]; [32]; [194; 133]; [194; 160]; [225; 154; 128];
    [226; 128; 168]; [226; 128; 169]; [226; 128; 175]; [226; 129; 159]; [227; 128; 128]]
   ++ ((λ k, [226; 128; 128 + k]) <$> [0; 1; 2; 3; 4; 5; 6; 7; 8; 9; 10])).

(** Strip one pattern of [ps] from the front, if one is there. *)
Fixpoint strip_any (ps : list string) (s : string) : option string :=
  match ps with
  | [] => None
  | p :: ps' => match strip_prefix p s with Some r => Some r | None => strip_any ps' s end
  end.
Fixpoint strip_all (fuel : nat) (ps : list string) (s : string) : string :=
  match fuel with
  | O => s
  | S f => match strip_any ps s with Some r => strip_all f ps r | None => s end
  end.
(** [str::trim_start], [str::trim_end], [str::trim]. *)
Definition trim_start (s : string) : string := strip_all (String.length s) white_space s.
Definition trim_end (s : string) : string :=
  str_rev (strip_all (String.length s) (str_rev <$> white_space) (str_rev s)).
Definition trim (s : string) : string := trim_end (trim_start s).

(** The characters of a string, each as a string. *)
Fixpoint chars_go (fuel : nat) (l : list Z) : list string :=
  match fuel, l with
  | _, [] | O, _ => []
  | S f, _ =>
      match utf8_first l with
      | U8Valid n | U8Invalid n => string_of_bytes (take n l) :: chars_go f (drop n l)
      end
  end.
Definition chars (s : string) : list string := chars_go (String.length s) (as_bytes s).

(** [s.split_whitespace().collect::<String>()] *)
Fixpoint concat_words (fuel : nat) (s : string) : string :=
  match fuel with
  | O => ""
  | S f =>
      match strip_any white_space s, s with
      | Some rest, _ => concat_words f rest
      | None, String a rest => String a (concat_words f rest)
      | None, EmptyString => ""
      end
  end.
Definition without_white_space (s : string) : string := concat_words (S (String.length s)) s.
Definition starts_with_white_space (s : string) : bool := bool_decide (is_Some (strip_any white_space s)).

(** Whether [&s[..n]] is a string; it panics otherwise. *)
Definition is_char_boundary (n : nat) (s : string) : bool :=
  bool_decide (n = O) || bool_decide (n = String.length s)
  || ((n <? String.length s)%nat && negb (is_cont (byte_at (as_bytes s) n))).

(** [u8::is_ascii_digit], [is_ascii_alphabetic], [is_ascii_alphanumeric]. *)
Definition is_ascii_digit (b : Z) : bool := in_range 48 57 b.
Definition is_ascii_alphabetic (b : Z) : bool := in_range 65 90 b || in_range 97 122 b.
Definition is_ascii_alphanumeric (b : Z) : bool := is_ascii_digit b || is_ascii_alphabetic b.

(** [str::parse::<uN>()]: an optional [+], at least one digit, no overflow. *)
Fixpoint parse_digits (acc : Z) (l : list Z) : option Z :=
  match l with
  | [] => Some acc
  | b :: l' => if is_ascii_digit b then parse_digits (acc * 10 + (b - 48)) l' else None
  end.
Definition parse_uint (w : Z) (s : string) : option Z :=
  let digits := match strip_prefix "+" s with Some r => r | None => s end in
  match as_bytes digits with
  | [] => None
  | l => match parse_digits 0 l with
         | Some v => if v <? 2 ^ w then Some v else None
         | None => None
         end
  end.

Definition quote : string := String (ascii_of_N 34) EmptyString.
Definition newline : string := String (ascii_of_N 10) EmptyString.
Definition crlf : string := String (ascii_of_N 13) newline.
Definition backslash : string := String (ascii_of_N 92) EmptyString.

(** ** Characters *)

(** [char::from_u32(u32::from(v))] for a [u16], as UTF-8. *)
Definition char_of_u16 (v : Z) : option string :=
  if (55296 <=? v) && (v <=? 57343) then None
  else Some (string_of_bytes
    (if v <? 128 then [v]
     else if v <? 2048 then [192 + v / 64; 128 + v mod 64]
     else [224 + v / 4096; 128 + v / 64 mod 64; 128 + v mod 64])).

(** [{v:04x}] *)
Definition hex_digit (d : Z) : ascii := ascii_of_byte (if d <? 10 then 48 + d else 87 + d).
Definition hex4 (v : Z) : string :=
  String (hex_digit (v / 4096 mod 16)) (String (hex_digit (v / 256 mod 16))
    (String (hex_digit (v / 16 mod 16)) (String (hex_digit (v mod 16)) EmptyString))).

(** [s.chars().take(n).collect()], on the UTF-8 bytes. *)
Fixpoint take_chars (n : nat) (l : list Z) : list Z :=
  match n with
  | O => []
  | S k =>
      match l with
      | [] => []
      | _ => match utf8_first l with
             | U8Valid m | U8Invalid m => take m l ++ take_chars k (drop m l)
             end
      end
  end.

Definition ellipsis : string := "…".

Example trim_ex : trim ("  a b " +:+ crlf) = "a b".
Proof. vm_compute. reflexivity. Qed.
Example split_ex : split_char "/" "a/bc//d" = ["a"; "bc"; ""; "d"].
Proof. reflexivity. Qed.
Example rsplit_once_ex : rsplit_once "/" "a/b/c" = Some ("a/b", "c").
Proof. reflexivity. Qed.
Example parse_ex : parse_uint 16 "5005" = Some 5005 ∧ parse_uint 16 "70000" = None.
Proof. split; reflexivity. Qed.

(** ** Lemmas: integers and byte order *)

Lemma as_u_range w z : 0 ≤ w → is_u w (as_u w z).
Proof. intros. apply Z.mod_pos_bound. by apply Z.pow_pos_nonneg. Qed.

Lemma as_u_small w z : is_u w z → as_u w z = z.
Proof. apply Z.mod_small. Qed.

Lemma as_i_range w z : 0 < w → - 2 ^ (w - 1) ≤ as_i w z < 2 ^ (w - 1).
Proof.
  intros Hw. unfold as_i.
  pose proof (Z.mod_pos_bound z (2 ^ w) ltac:(apply Z.pow_pos_nonneg; lia)) as Hm.
  assert (2 ^ w = 2 * 2 ^ (w - 1)) as Hp.
  { rewrite <- Z.pow_succ_r by lia. f_equal. lia. }
  destruct (Z.ltb_spec (z mod 2 ^ w) (2 ^ (w - 1))); lia.
Qed.

(** A signed value survives the cast to unsigned and back. *)
Lemma as_i_as_u w z : 0 < w → - 2 ^ (w - 1) ≤ z < 2 ^ (w - 1) → as_i w (as_u w z) = z.
Proof.
  intros Hw Hz. unfold as_i, as_u.
  assert (2 ^ w = 2 * 2 ^ (w - 1)) as Hp.
  { rewrite <- Z.pow_succ_r by lia. f_equal. lia. }
  rewrite Z.mod_mod by lia.
  destruct (Z.lt_ge_cases z 0).
  - replace (z mod 2 ^ w) with (z + 2 ^ w).
    + destruct (Z.ltb_spec (z + 2 ^ w) (2 ^ (w - 1))); lia.
    + apply Z.mod_unique_pos with (q := -1); lia.
  - rewrite Z.mod_small by lia.
    destruct (Z.ltb_spec z (2 ^ (w - 1))); lia.
Qed.

Lemma from_be_fold l : ∀ acc,
  fold_left (λ v b, v * 256 + b) l acc = acc * 256 ^ Z.of_nat (length l) + from_be_bytes l.
Proof.
  unfold from_be_bytes. induction l as [|b l IH]; intros acc; cbn [fold_left length].
  - rewrite Z.pow_0_r. lia.
  - rewrite (IH (acc * 256 + b)), (IH (0 * 256 + b)).
    rewrite Nat2Z.inj_succ, Z.pow_succ_r by lia. lia.
Qed.

Lemma from_be_cons b l :
  from_be_bytes (b :: l) = b * 256 ^ Z.of_nat (length l) + from_be_bytes l.
Proof. unfold from_be_bytes at 1. cbn [fold_left]. rewrite from_be_fold. lia. Qed.

Lemma from_be_snoc l b : from_be_bytes (l ++ [b]) = from_be_bytes l * 256 + b.
Proof. unfold from_be_bytes. by rewrite fold_left_app. Qed.

Lemma from_be_range l :
  Forall is_byte l → 0 ≤ from_be_bytes l < 256 ^ Z.of_nat (length l).
Proof.
  induction 1 as [|b l Hb Hl IH]; [cbn; lia|].
  rewrite from_be_cons. cbn [length].
  rewrite Nat2Z.inj_succ, Z.pow_succ_r by lia.
  unfold is_byte in Hb. nia.
Qed.

Lemma length_to_be_bytes n v : length (to_be_bytes n v) = n.
Proof. induction n; cbn; congruence. Qed.

Lemma to_be_bytes_byte n v : Forall is_byte (to_be_bytes n v).
Proof.
  induction n; constructor; [|done]. apply (as_u_range 8). lia.
Qed.

(** Encoding keeps the low [n] bytes. *)
Lemma from_to_be_bytes n v :
  from_be_bytes (to_be_bytes n v) = v mod 256 ^ Z.of_nat n.
Proof.
  induction n as [|n IH]; [cbn; by rewrite Z.mod_1_r|].
  cbn [to_be_bytes]. rewrite from_be_cons, IH, length_to_be_bytes.
  unfold as_u8, as_u. rewrite Z.shiftr_div_pow2 by lia.
  rewrite Nat2Z.inj_succ, Z.pow_succ_r by lia.
  replace (2 ^ (8 * Z.of_nat n)) with (256 ^ Z.of_nat n)
    by (rewrite Z.pow_mul_r by lia; done).
  change (2 ^ 8) with 256.
  rewrite (Z.mul_comm 256 (256 ^ Z.of_nat n)).
  rewrite Z.rem_mul_r by lia. lia.
Qed.

Lemma from_to_be_bytes_small n v :
  0 ≤ v < 256 ^ Z.of_nat n → from_be_bytes (to_be_bytes n v) = v.
Proof. intros. rewrite from_to_be_bytes. by apply Z.mod_small. Qed.

Lemma to_be_bytes_mod n v : ∀ k : nat, (n ≤ k)%nat →
  to_be_bytes n (v mod 256 ^ Z.of_nat k) = to_be_bytes n v.
Proof.
  induction n as [|n IH]; intros k Hk; cbn [to_be_bytes]; [done|].
  f_equal; [|apply IH; lia].
  unfold as_u8, as_u. rewrite !Z.shiftr_div_pow2 by lia.
  replace (2 ^ (8 * Z.of_nat n)) with (256 ^ Z.of_nat n)
    by (rewrite Z.pow_mul_r by lia; done).
  change (2 ^ 8) with 256.
  replace (Z.of_nat k) with (Z.of_nat n + (1 + Z.of_nat (k - S n))) by lia.
  rewrite Z.pow_add_r by lia.
  rewrite Z.rem_mul_r by (try apply Z.pow_nonzero; try apply Z.pow_pos_nonneg; lia).
  rewrite Z.add_comm, Z.mul_comm, Z.div_add_l by (apply Z.pow_nonzero; lia).
  rewrite (Z.div_small (v mod _)) by (apply Z.mod_pos_bound, Z.pow_pos_nonneg; lia).
  rewrite Z.add_0_r, Z.pow_add_r, Z.pow_1_r by lia.
  rewrite Z.rem_mul_r by (try apply Z.pow_pos_nonneg; lia).
  rewrite Z.mul_comm, Z.mod_add by lia. by rewrite Z.mod_mod by lia.
Qed.

(** Decoding then re-encoding the right number of bytes is the identity. *)
Lemma to_from_be_bytes l :
  Forall is_byte l → to_be_bytes (length l) (from_be_bytes l) = l.
Proof.
  induction 1 as [|b l Hb Hl IH]; [done|].
  cbn [length to_be_bytes]. rewrite from_be_cons.
  pose proof (from_be_range l Hl) as Hr. f_equal.
  - unfold as_u8, as_u. rewrite Z.shiftr_div_pow2 by lia.
    replace (2 ^ (8 * Z.of_nat (length l))) with (256 ^ Z.of_nat (length l))
      by (rewrite Z.pow_mul_r by lia; done).
    rewrite Z.div_add_l by lia. rewrite Z.div_small by lia.
    rewrite Z.add_0_r. apply Z.mod_small. exact Hb.
  - rewrite <- (to_be_bytes_mod _ _ (length l)) by lia.
    rewrite Z.add_comm, Z.mod_add by lia. by rewrite Z.mod_small.
Qed.

#[export] Hint Rewrite @length_app @length_to_be_bytes : jvlr.
#[export] Hint Resolve to_be_bytes_byte as_u_range : jvl.

(** ** Lemmas: bytes and strings *)

Lemma byte_of_ascii_byte a : is_byte (byte_of_ascii a).
Proof.
  unfold byte_of_ascii, is_byte. pose proof (N_ascii_bounded a). lia.
Qed.

Lemma as_bytes_byte s : Forall is_byte (as_bytes s).
Proof. induction s; constructor; auto using byte_of_ascii_byte. Qed.

Lemma length_as_bytes s : length (as_bytes s) = String.length s.
Proof. induction s; simpl; f_equal; auto. Qed.

Lemma ascii_of_byte_of_ascii a : ascii_of_byte (byte_of_ascii a) = a.
Proof. unfold ascii_of_byte, byte_of_ascii. rewrite N2Z.id. apply ascii_N_embedding. Qed.

Lemma byte_of_ascii_of_byte z : is_byte z → byte_of_ascii (ascii_of_byte z) = z.
Proof.
  intros Hz. unfold ascii_of_byte, byte_of_ascii, is_byte in *.
  rewrite N_ascii_embedding by lia. lia.
Qed.

Lemma string_of_as_bytes s : string_of_bytes (as_bytes s) = s.
Proof. induction s; cbn; by rewrite ?ascii_of_byte_of_ascii, ?IHs. Qed.

Lemma as_bytes_of_bytes l : Forall is_byte l → as_bytes (string_of_bytes l) = l.
Proof. induction 1; cbn; by rewrite ?byte_of_ascii_of_byte, ?IHForall. Qed.

Lemma as_bytes_app s t : as_bytes (s +:+ t) = as_bytes s ++ as_bytes t.
Proof. induction s; simpl; f_equal; auto. Qed.

Lemma string_of_bytes_app l k :
  string_of_bytes (l ++ k) = string_of_bytes l +:+ string_of_bytes k.
Proof. induction l; simpl; f_equal; auto. Qed.

Lemma as_bytes_inj s t : as_bytes s = as_bytes t → s = t.
Proof.
  intros H. rewrite <- (string_of_as_bytes s), <- (string_of_as_bytes t). by rewrite H.
Qed.

Lemma str_app_assoc (s t u : string) : (s +:+ t) +:+ u = s +:+ (t +:+ u).
Proof. induction s; simpl; f_equal; auto. Qed.

Lemma str_app_nil_r (s : string) : s +:+ "" = s.
Proof. induction s; simpl; f_equal; auto. Qed.

Lemma strip_prefix_app p s : strip_prefix p (p +:+ s) = Some s.
Proof. induction p; cbn; [done|]. by rewrite Ascii.eqb_refl. Qed.

Lemma strip_prefix_Some p s r : strip_prefix p s = Some r → s = p +:+ r.
Proof.
  revert s. induction p as [|a p IH]; intros [|b s]; cbn; intros H; inv_ok; try done.
  destruct (Ascii.eqb_spec a b) as [<-|]; [|done]. f_equal. auto.
Qed.

Lemma str_rev_app s t : str_rev (s +:+ t) = str_rev t +:+ str_rev s.
Proof.
  induction s as [|a s IH]; cbn; [by rewrite str_app_nil_r|].
  by rewrite IH, str_app_assoc.
Qed.

Lemma str_rev_involutive s : str_rev (str_rev s) = s.
Proof. induction s; cbn; [done|]. rewrite str_rev_app. cbn. congruence. Qed.

Lemma strip_suffix_app p s : strip_suffix p (s +:+ p) = Some s.
Proof.
  unfold strip_suffix. rewrite str_rev_app, strip_prefix_app. cbn.
  by rewrite str_rev_involutive.
Qed.

Lemma strip_suffix_Some p s r : strip_suffix p s = Some r → s = r +:+ p.
Proof.
  unfold strip_suffix. destruct (strip_prefix _ _) as [t|] eqn:E; cbn; [|done].
  intros [= <-]. apply strip_prefix_Some in E.
  rewrite <- (str_rev_involutive s), E, str_rev_app. by rewrite !str_rev_involutive.
Qed.

Lemma starts_with_spec p s : starts_with p s = true ↔ ∃ r, s = p +:+ r.
Proof.
  unfold starts_with. rewrite bool_decide_eq_true. split.
  - intros [r Hr]. exists r. by apply strip_prefix_Some.
  - intros [r ->]. rewrite strip_prefix_app. eauto.
Qed.

Lemma contains_char_app c s t :
  contains_char c (s +:+ t) = contains_char c s || contains_char c t.
Proof. induction s; cbn; [done|]. by rewrite IHs, orb_assoc. Qed.

Lemma replace_chars_none p r s :
  (∀ a, p a = true → contains_char a s = false) → replace_chars p r s = s.
Proof.
  induction s as [|a s IH]; cbn; intros H; [done|].
  destruct (p a) eqn:E.
  - specialize (H a E). rewrite Ascii.eqb_refl in H. discriminate.
  - f_equal. apply IH. intros b Hb. specialize (H b Hb).
    by apply orb_false_elim in H as [_ ?].
Qed.

(** ** Lemmas: UTF-8 *)

Lemma byte_at_ge l i : (length l ≤ i)%nat → byte_at l i = 0.
Proof. intros H. unfold byte_at. by rewrite lookup_ge_None_2. Qed.

Lemma byte_at_take l k n i : (i < n)%nat → (n ≤ length l)%nat →
  byte_at (take n l ++ k) i = byte_at l i.
Proof.
  intros Hi Hn. unfold byte_at. rewrite lookup_app_l by (rewrite length_take; lia).
  by rewrite lookup_take, decide_True by lia.
Qed.

Lemma is_cont_lt l i : is_cont (byte_at l i) = true → (i < length l)%nat.
Proof.
  intros H. destruct (Nat.lt_ge_cases i (length l)); [done|].
  by rewrite byte_at_ge in H.
Qed.

(** A valid step of [n] bytes does not look past them, and its last byte is
    a continuation byte unless it is the only one. *)
Lemma utf8_first4_valid b0 b1 b2 b3 n :
  utf8_first4 b0 b1 b2 b3 = U8Valid n →
  (n = 1%nat ∧ ∀ c1 c2 c3, utf8_first4 b0 c1 c2 c3 = U8Valid 1)
  ∨ (n = 2%nat ∧ is_cont b1 = true ∧ ∀ c2 c3, utf8_first4 b0 b1 c2 c3 = U8Valid 2)
  ∨ (n = 3%nat ∧ is_cont b2 = true ∧ ∀ c3, utf8_first4 b0 b1 b2 c3 = U8Valid 3)
  ∨ (n = 4%nat ∧ is_cont b3 = true).
Proof.
  unfold utf8_first4.
  destruct (b0 <? 128); [intros [= <-]; left; done|].
  destruct (in_range 194 223 b0).
  { destruct (is_cont b1); [|done]. intros [= <-]. right; left; done. }
  destruct (in_range 224 239 b0).
  { case_match; [|done]. destruct (is_cont b2); [|done]. intros [= <-].
    right; right; left; done. }
  destruct (in_range 240 244 b0); [|done].
  case_match; [|done]. destruct (is_cont b2); [|done]. destruct (is_cont b3); [|done].
  intros [= <-]. right; right; right; done.
Qed.

Lemma utf8_first_valid l n :
  l ≠ [] → utf8_first l = U8Valid n →
  (1 ≤ n ≤ length l)%nat ∧ ∀ k, utf8_first (take n l ++ k) = U8Valid n.
Proof.
  intros Hl H. assert (1 ≤ length l)%nat as Hlen by (destruct l; [done|simpl; lia]).
  unfold utf8_first in *. pose proof H as H'.
  apply utf8_first4_valid in H as [(->&Hf)|[(->&Hc&Hf)|[(->&Hc&Hf)|(->&Hc)]]];
    try apply is_cont_lt in Hc; (split; [lia|]); intros k;
    rewrite ?(byte_at_take l k) by lia; auto.
Qed.

Lemma utf8_first_invalid l n : utf8_first l = U8Invalid n → (1 ≤ n)%nat.
Proof.
  unfold utf8_first, utf8_first4. repeat case_match; intros [= <-]; auto with arith.
Qed.

Lemma utf8_valid_go_fuel l : ∀ f g, (length l ≤ f)%nat → (length l ≤ g)%nat →
  utf8_valid_go f l = utf8_valid_go g l.
Proof.
  intros f. revert l. induction f as [|f IH]; intros l [|g] Hf Hg;
    try (destruct l; simpl in *; [done|lia]).
  destruct l as [|b l]; [done|]. cbn [utf8_valid_go].
  destruct (utf8_first (b :: l)) eqn:E; [|done].
  apply utf8_first_valid in E as [[H1 H2] _]; [|done].
  apply IH; rewrite length_drop; lia.
Qed.

Lemma utf8_valid_step l n : l ≠ [] → utf8_first l = U8Valid n →
  utf8_valid l = utf8_valid (drop n l).
Proof.
  intros Hl E. pose proof (utf8_first_valid l n Hl E) as [[H1 H2] _].
  unfold utf8_valid at 1. destruct l as [|b l]; [done|].
  cbn [length utf8_valid_go]. rewrite E. unfold utf8_valid.
  apply utf8_valid_go_fuel; rewrite length_drop; simpl in *; lia.
Qed.

(** Lossy decoding leaves valid text alone... *)
Lemma utf8_lossy_go_valid f : ∀ l, (length l ≤ f)%nat → utf8_valid l = true →
  utf8_lossy_go f l = l.
Proof.
  induction f as [|f IH]; intros [|b l] Hf Hv; try done; [simpl in Hf; lia|].
  cbn [utf8_lossy_go]. destruct (utf8_first (b :: l)) as [n|n] eqn:E.
  - pose proof (utf8_first_valid (b :: l) n ltac:(done) E) as [[H1 H2] _].
    rewrite (utf8_valid_step (b :: l) n) in Hv by done.
    rewrite IH; [apply take_drop| |done]. rewrite length_drop; simpl in *; lia.
  - unfold utf8_valid in Hv. cbn [length utf8_valid_go] in Hv. by rewrite E in Hv.
Qed.

Lemma from_utf8_lossy_str s : is_str s → from_utf8_lossy (as_bytes s) = s.
Proof.
  intros Hs. unfold from_utf8_lossy, utf8_lossy_bytes.
  rewrite utf8_lossy_go_valid by done. apply string_of_as_bytes.
Qed.

Lemma utf8_valid_cons_step l n k : l ≠ [] → utf8_first l = U8Valid n →
  utf8_valid (take n l ++ k) = utf8_valid k.
Proof.
  intros Hl E. destruct (utf8_first_valid l n Hl E) as [[H1 H2] H3].
  rewrite (utf8_valid_step _ n); [|destruct l, n; simpl in *; (done || lia)|apply H3].
  by rewrite drop_app_length' by (rewrite length_take; lia).
Qed.

(** ...and always produces valid text. *)
Lemma utf8_lossy_go_is_valid f : ∀ l, utf8_valid (utf8_lossy_go f l) = true.
Proof.
  induction f as [|f IH]; intros [|b l]; try done. cbn [utf8_lossy_go].
  destruct (utf8_first (b :: l)) as [n|n] eqn:E.
  - by rewrite (utf8_valid_cons_step (b :: l) n).
  - by rewrite (utf8_valid_cons_step replacement_char 3 (utf8_lossy_go f _)).
Qed.

Lemma utf8_lossy_go_byte f : ∀ l, Forall is_byte l → Forall is_byte (utf8_lossy_go f l).
Proof.
  induction f as [|f IH]; intros [|b l] Hl; try done; [constructor..|].
  cbn [utf8_lossy_go]. destruct (utf8_first (b :: l)) as [n|n]; apply Forall_app; split;
    try (apply IH; by apply Forall_drop); [by apply Forall_take|].
  unfold replacement_char, is_byte. repeat constructor; lia.
Qed.

Lemma from_utf8_lossy_is_str l : Forall is_byte l → is_str (from_utf8_lossy l).
Proof.
  intros Hl. unfold is_str, from_utf8_lossy.
  rewrite as_bytes_of_bytes by (by apply utf8_lossy_go_byte).
  apply utf8_lossy_go_is_valid.
Qed.

Lemma utf8_valid_ascii l : Forall (λ b, b < 128) l → utf8_valid l = true.
Proof.
  induction 1 as [|b l Hb Hl IH]; [done|].
  rewrite (utf8_valid_step (b :: l) 1); [done..|].
  unfold utf8_first, utf8_first4. cbn. by rewrite (proj2 (Z.ltb_lt b 128)).
Qed.

(** ** Lemmas: decimal numbers *)

Definition all_digits (s : string) : Prop :=
  Forall (λ b, is_ascii_digit b = true) (as_bytes s).

Lemma pretty_N_char_digit (x : N) : (x < 10)%N →
  byte_of_ascii (pretty_N_char x) = 48 + Z.of_N x.
Proof.
  intros Hx. assert (x = 0 ∨ x = 1 ∨ x = 2 ∨ x = 3 ∨ x = 4 ∨ x = 5 ∨ x = 6
    ∨ x = 7 ∨ x = 8 ∨ x = 9)%N as Hc by lia.
  by repeat (destruct Hc as [->|Hc]; [done|]); subst.
Qed.

Lemma digit_of_lt10 d : 0 ≤ d < 10 → is_ascii_digit (48 + d) = true.
Proof. intros. unfold is_ascii_digit, in_range. lia. Qed.

Lemma pretty_N_go_spec (x : N) : ∀ s, all_digits s →
  all_digits (pretty_N_go x s)
  ∧ parse_digits 0 (as_bytes (pretty_N_go x s)) = parse_digits (Z.of_N x) (as_bytes s).
Proof.
  induction (N.lt_wf_0 x) as [x _ IH]; intros s Hs.
  assert (x = 0 ∨ 0 < x)%N as [->|Hx] by lia; [by rewrite pretty_N_go_0|].
  rewrite pretty_N_go_step by done.
  assert (x `mod` 10 < 10)%N as Hm by (by apply N.mod_lt).
  assert (all_digits (String (pretty_N_char (x `mod` 10)) s)) as Hs'.
  { constructor; [|done]. rewrite pretty_N_char_digit by done. apply digit_of_lt10.
    split; [apply N2Z.is_nonneg|by apply (N2Z.inj_lt _ 10)]. }
  destruct (IH (x / 10)%N ltac:(by apply N.div_lt) _ Hs') as [H1 H2].
  split; [done|]. rewrite H2. cbn [as_bytes parse_digits].
  rewrite pretty_N_char_digit by done.
  rewrite digit_of_lt10 by (split; [apply N2Z.is_nonneg|by apply (N2Z.inj_lt _ 10)]). f_equal.
  rewrite (N.div_mod x 10) at 3 by done. lia.
Qed.

Lemma pretty_N_spec (x : N) :
  all_digits (pretty x) ∧ parse_digits 0 (as_bytes (pretty x)) = Some (Z.of_N x)
  ∧ pretty x ≠ "".
Proof.
  unfold pretty, pretty_N. case_decide as Hx; [subst; split; [repeat constructor|done]|].
  destruct (pretty_N_go_spec x "") as [H1 H2]; [constructor|].
  repeat split; [done|by rewrite H2|]. intros H. rewrite H in H2. cbn in H2.
  injection H2 as H2. lia.
Qed.

Lemma pretty_Z_nonneg (n : Z) : 0 ≤ n → pretty n = pretty (Z.to_N n).
Proof. by destruct n. Qed.

Lemma pretty_digits (n : Z) : 0 ≤ n → all_digits (pretty n) ∧ pretty n ≠ "".
Proof. intros Hn. rewrite pretty_Z_nonneg by done. split; apply (pretty_N_spec (Z.to_N n)). Qed.

Lemma strip_prefix_digit c s :
  is_ascii_digit (byte_of_ascii c) = false → all_digits s →
  strip_prefix (String c "") s = None.
Proof.
  intros Hc Hs. destruct s as [|a s]; [done|]. cbn. inversion Hs as [|? ? Ha]; subst.
  destruct (Ascii.eqb_spec c a) as [->|]; [congruence|done].
Qed.

(** Printing then parsing a number that fits the width. *)
Lemma parse_uint_pretty w n : 0 ≤ n < 2 ^ w → parse_uint w (pretty n) = Some n.
Proof.
  intros Hn. destruct (pretty_N_spec (Z.to_N n)) as (H1 & H2 & H3).
  rewrite pretty_Z_nonneg by lia. unfold parse_uint.
  rewrite strip_prefix_digit by done.
  destruct (as_bytes (pretty (Z.to_N n))) eqn:E.
  { destruct H3. by apply (as_bytes_inj _ ""). }
  rewrite H2, Z2N.id by lia. destruct (Z.ltb_spec n (2 ^ w)); [done|lia].
Qed.

(** ** Lemmas: trimming around digits *)

Lemma strip_any_cons ps a s :
  forallb (λ p, match p with String b _ => negb (Ascii.eqb b a) | _ => false end) ps = true →
  strip_any ps (String a s) = None.
Proof.
  induction ps as [|p ps IH]; cbn; [done|]. intros H. apply andb_prop in H as [H1 H2].
  destruct p as [|b p]; [done|]. cbn. destruct (Ascii.eqb b a); [done|]. auto.
Qed.

Lemma ws_digit a :
  is_ascii_digit (byte_of_ascii a) = true →
  forallb (λ p, match p with String b _ => negb (Ascii.eqb b a) | _ => false end)
    white_space = true
  ∧ forallb (λ p, match p with String b _ => negb (Ascii.eqb b a) | _ => false end)
    (str_rev <$> white_space) = true.
Proof. destruct a as [[] [] [] [] [] [] [] []]; vm_compute; (done || discriminate). Qed.

Lemma strip_all_stop f ps a s :
  strip_any ps (String a s) = None → strip_all f ps (String a s) = String a s.
Proof. intros H. destruct f; cbn [strip_all]; [done|]. by rewrite H. Qed.

Lemma all_digits_rev s : all_digits s → all_digits (str_rev s).
Proof.
  unfold all_digits. induction s as [|a s IH]; cbn; [done|].
  intros H. inversion H; subst. rewrite as_bytes_app. apply Forall_app; split; [auto|].
  by repeat constructor.
Qed.

Lemma trim_start_digits s t : all_digits s → s ≠ "" → trim_start (s +:+ t) = s +:+ t.
Proof.
  intros Hs Hne. destruct s as [|a s]; [done|]. inversion Hs; subst. unfold trim_start.
  cbn [String.append]. apply strip_all_stop, strip_any_cons. by apply ws_digit.
Qed.

Lemma strip_all_rev_digits f s t : all_digits s → s ≠ "" →
  strip_all f (str_rev <$> white_space) (str_rev (t +:+ s)) = str_rev (t +:+ s).
Proof.
  intros Hs Hne. rewrite str_rev_app. apply all_digits_rev in Hs.
  destruct (str_rev s) as [|a r] eqn:E.
  { destruct Hne. by rewrite <- (str_rev_involutive s), E. }
  inversion Hs; subst. cbn [String.append]. apply strip_all_stop, strip_any_cons.
  by apply ws_digit.
Qed.

Lemma trim_end_digits s t : all_digits s → s ≠ "" → trim_end (t +:+ s) = t +:+ s.
Proof.
  intros. unfold trim_end. rewrite strip_all_rev_digits by done. apply str_rev_involutive.
Qed.

Lemma str_length_app s t : String.length (s +:+ t) = (String.length s + String.length t)%nat.
Proof. rewrite <- !length_as_bytes, as_bytes_app. apply length_app. Qed.

(** A line that ends in digits loses exactly its line terminator. *)
Lemma trim_end_digits_crlf s t : all_digits s → s ≠ "" →
  trim_end (t +:+ s +:+ crlf) = t +:+ s.
Proof.
  intros Hs Hne. unfold trim_end. rewrite !str_length_app.
  replace (String.length t + (String.length s + String.length crlf))%nat
    with (S (S (String.length t + String.length s))) by (cbn; lia).
  rewrite <- str_app_assoc, str_rev_app. cbn [strip_all].
  change (strip_any (str_rev <$> white_space) (str_rev crlf +:+ str_rev (t +:+ s)))
    with (Some (String (ascii_of_N 13) (str_rev (t +:+ s)))).
  cbn [strip_all].
  change (strip_any (str_rev <$> white_space) (String (ascii_of_N 13) (str_rev (t +:+ s))))
    with (Some (str_rev (t +:+ s))).
  cbn iota beta. rewrite strip_all_rev_digits by done. apply str_rev_involutive.
Qed.

Lemma rsplit_once_None c s : rsplit_once c s = None ↔ contains_char c s = false.
Proof.
  induction s as [|a s IH]; [done|]. cbn [rsplit_once contains_char]. rewrite orb_false_iff, <- IH.
  destruct (rsplit_once c s) as [[x y]|]; [by split; [|intros []]|].
  destruct (Ascii.eqb a c); split; [done|by intros []|done..].
Qed.
Lemma rsplit_once_Some c s a b :
  rsplit_once c s = Some (a, b) → s = a +:+ String c b ∧ contains_char c b = false.
Proof.
  revert a. induction s as [|x s IH]; intros a; cbn [rsplit_once]; [done|].
  destruct (rsplit_once c s) as [[p q]|] eqn:E.
  - intros [= <- <-]. by destruct (IH p eq_refl) as [-> ?].
  - destruct (Ascii.eqb_spec x c) as [->|]; [|done]. intros [= <- <-].
    split; [done|]. by apply rsplit_once_None.
Qed.

Lemma split_first_cons c a s :
  split_first c (String a s) = if Ascii.eqb a c then "" else String a (split_first c s).
Proof.
  unfold split_first. cbn [split_char]. destruct (Ascii.eqb a c); [done|].
  destruct (split_char c s) as [|p ps] eqn:E; [|done].
  exfalso. revert E. clear. destruct s as [|b s]; cbn; [done|]. destruct (Ascii.eqb b c); [done|].
  by destruct (split_char c s).
Qed.
(** The part before the first separator, or everything. *)
Lemma split_first_iff c s seg :
  split_first c s = seg ↔
  contains_char c seg = false ∧ ∃ rest, s = seg +:+ rest ∧ (rest = "" ∨ ∃ r, rest = String c r).
Proof.
  revert seg. induction s as [|a s IH]; intros seg.
  - change (split_first c "") with "". split.
    + intros <-. split; [done|]. exists "". auto.
    + intros (_ & rest & E & _). by destruct seg.
  - rewrite split_first_cons. destruct (Ascii.eqb_spec a c) as [->|Hac].
    + split.
      * intros <-. split; [done|]. exists (String c s). eauto.
      * intros (Hc & rest & E & _). destruct seg as [|b seg]; [done|]. injection E as <- _.
        cbn in Hc. by rewrite Ascii.eqb_refl in Hc.
    + split.
      * intros <-. destruct (proj1 (IH _) eq_refl) as (Hc & rest & E & Hr). split.
        -- cbn. rewrite Hc. by destruct (Ascii.eqb_spec a c).
        -- exists rest. split; [cbn; by f_equal|done].
      * intros (Hc & rest & E & Hr). destruct seg as [|b seg].
        -- cbn in E. destruct Hr as [->|[r ->]]; [done|]. injection E as -> _. done.
        -- injection E as <- E. cbn in Hc. apply orb_false_iff in Hc as [_ Hc]. f_equal.
           apply IH. split; [done|]. by exists rest.
Qed.

(** [str::rfind(&str)] for a non-empty pattern, as the parts around the last
    occurrence. *)
Fixpoint rsplit_str (p s : string) : option (string * string) :=
  match s with
  | EmptyString => None
  | String a s' =>
      match rsplit_str p s' with
      | Some (x, y) => Some (String a x, y)
      | None => (λ r, (EmptyString, r)) <$> strip_prefix p s
      end
  end.

Lemma rsplit_str_None p s : contains_str p s = false → rsplit_str p s = None.
Proof.
  unfold contains_str. induction s as [|a s IH]; [done|]. cbn [rsplit_str str_find].
  intros H. apply bool_decide_eq_false in H. unfold starts_with in H.
  destruct (strip_prefix p (String a s)) eqn:E;
    [exfalso; apply H; by rewrite bool_decide_true|].
  rewrite bool_decide_false in H by (by intros [? ?]).
  rewrite IH; [done|]. apply bool_decide_eq_false. intros Hx. by apply H, fmap_is_Some.
Qed.
Lemma rsplit_str_app p s t x y : rsplit_str p t = Some (x, y) → rsplit_str p (s +:+ t) = Some (s +:+ x, y).
Proof. intros H. induction s as [|a s IH]; [done|]. cbn. by rewrite IH. Qed.

(** Replacing a character by one that does not occur, and back. *)
Lemma replace_char_back a b s : contains_char b s = false →
  replace_char b (String a "") (replace_char a (String b "") s) = s.
Proof.
  unfold replace_char. induction s as [|x s IH]; [done|]. cbn [contains_char]. intros [Hx Hs]%orb_false_iff.
  cbn [replace_chars]. destruct (Ascii.eqb_spec a x) as [<-|].
  - change (String b "" +:+ ?t) with (String b t). cbn [replace_chars]. rewrite Ascii.eqb_refl.
    change (String a "" +:+ ?t) with (String a t). by rewrite IH.
  - cbn [replace_chars]. rewrite Ascii.eqb_sym, Hx. by rewrite IH.
Qed.
Lemma replace_char_app c r s t : replace_char c r (s +:+ t) = replace_char c r s +:+ replace_char c r t.
Proof.
  unfold replace_char. induction s as [|x s IH]; [done|]. cbn [String.append replace_chars]. rewrite IH.
  destruct (Ascii.eqb c x); [by rewrite str_app_assoc|done].
Qed.
Lemma replace_char_none c r s : contains_char c s = false → replace_char c r s = s.
Proof. intros Hc. apply replace_chars_none. by intros a ->%Ascii.eqb_eq. Qed.

(** ** Characters *)

Definition str_concat (l : list string) : string := foldr String.append "" l.

Lemma utf8_first_pos l n : l ≠ [] → utf8_first l = U8Valid n ∨ utf8_first l = U8Invalid n → (1 ≤ n)%nat.
Proof.
  intros Hl [E|E]; [|by apply utf8_first_invalid in E].
  unfold utf8_first in E. apply utf8_first4_valid in E. naive_solver lia.
Qed.

Lemma chars_go_concat f : ∀ l, (length l ≤ f)%nat → str_concat (chars_go f l) = string_of_bytes l.
Proof.
  induction f as [|f IH]; intros l Hf; destruct (decide (l = [])) as [->|Hl]; try done.
  { destruct l; [done | simpl in Hf; lia]. }
  assert (G : ∀ n, (1 ≤ n)%nat →
    str_concat (string_of_bytes (take n l) :: chars_go f (drop n l)) = string_of_bytes l).
  { intros n Hp. simpl. fold (str_concat (chars_go f (drop n l))).
    rewrite IH by (rewrite length_drop; destruct l; [done|]; simpl in *; lia).
    by rewrite <-string_of_bytes_app, take_drop. }
  pose proof (utf8_first_pos l) as P. destruct l as [|b l]; [done|]. cbn [chars_go].
  destruct (utf8_first (b :: l)) as [n|n] eqn:E; apply G, P; auto.
Qed.

Lemma chars_concat s : str_concat (chars s) = s.
Proof.
  unfold chars. rewrite chars_go_concat by (by rewrite length_as_bytes). apply string_of_as_bytes.
Qed.

(** ** ASCII case *)

Lemma ascii_lower_idemp a : ascii_lower (ascii_lower a) = ascii_lower a.
Proof. by destruct a as [[] [] [] [] [] [] [] []]. Qed.
Lemma to_ascii_lowercase_idemp s : to_ascii_lowercase (to_ascii_lowercase s) = to_ascii_lowercase s.
Proof. induction s as [|a s IH]; simpl; [done|]. by rewrite ascii_lower_idemp, IH. Qed.
Lemma length_to_ascii_lowercase s : String.length (to_ascii_lowercase s) = String.length s.
Proof. induction s as [|a s IH]; simpl; [done|]. by rewrite IH. Qed.

(** Comparing the first bytes without case is a prefix test without case. *)
Lemma prefix_ignore_case needle s : (String.length needle ≤ String.length s)%nat →
  eq_ignore_ascii_case (str_take (String.length needle) s) (to_ascii_lowercase needle)
  = starts_with (to_ascii_lowercase needle) (to_ascii_lowercase s).
Proof.
  unfold eq_ignore_ascii_case, starts_with. rewrite to_ascii_lowercase_idemp.
  revert s. induction needle as [|a n IH]; intros s Hl; simpl.
  { by destruct s. }
  destruct s as [|b s]; [simpl in Hl; lia|]. simpl in *.
  specialize (IH s ltac:(lia)).
  destruct (Ascii.eqb_spec (ascii_lower a) (ascii_lower b)) as [->|Hne].
  - rewrite <-IH. apply bool_decide_ext. split; congruence.
  - rewrite !bool_decide_eq_false_2; [done | by intros [??] | congruence].
Qed.

(** ** [str::split_once] *)

Fixpoint split_once (c : ascii) (s : string) : option (string * string) :=
  match s with
  | EmptyString => None
  | String a s' =>
      if Ascii.eqb a c then Some (EmptyString, s')
      else match split_once c s' with Some (x, y) => Some (String a x, y) | None => None end
  end.

Lemma split_once_app c a b : contains_char c a = false → split_once c (a +:+ String c b) = Some (a, b).
Proof.
  induction a as [|x a IH]; simpl; [by rewrite Ascii.eqb_refl|].
  intros [-> Ha]%orb_false_iff. by rewrite IH.
Qed.
Lemma split_once_none c s : contains_char c s = false → split_once c s = None.
Proof. induction s as [|x s IH]; simpl; [done|]. intros [-> Hs]%orb_false_iff. by rewrite IH. Qed.
Lemma rsplit_once_app c a b : contains_char c b = false → rsplit_once c (a +:+ String c b) = Some (a, b).
Proof.
  intros Hb. induction a as [|x a IH]; simpl.
  - apply rsplit_once_None in Hb. by rewrite Hb, Ascii.eqb_refl.
  - by rewrite IH.
Qed.
