(* ===== verification/Utf8.v ===== *)
(** * Characters of a string

    Valid UTF-8 text as a sequence of characters: an induction principle,
    cutting at character boundaries, and what a character's bytes can be. *)
From Stdlib Require Import Ascii.
From S2P Require Import Prelude RustStd.

Definition is_char (c : string) : Prop := c ≠ "" ∧ utf8_first (as_bytes c) = U8Valid (String.length c).

Lemma as_bytes_nil s : as_bytes s = [] ↔ s = "".
Proof. by destruct s. Qed.

Lemma utf8_first_le4 l n : utf8_first l = U8Valid n → (n ≤ 4)%nat.
Proof.
  unfold utf8_first. intros H. apply utf8_first4_valid in H. naive_solver lia.
Qed.
Lemma char_length c : is_char c → (1 ≤ String.length c ≤ 4)%nat.
Proof.
  intros [Hc E]. pose proof (utf8_first_le4 _ _ E). destruct c; [done|]. simpl in *. lia.
Qed.

(** The bytes after a character's first are continuation bytes; the first is
    not. *)
Lemma utf8_first_cont l n i : utf8_first l = U8Valid n → (1 ≤ i < n)%nat → is_cont (byte_at l i) = true.
Proof.
  unfold utf8_first, utf8_first4, in_range, is_cont. intros H Hi.
  repeat case_match; try discriminate; injection H as <-;
    destruct i as [|[|[|[|i]]]]; try lia; unfold in_range in *; lia.
Qed.
Lemma utf8_first_head l n : utf8_first l = U8Valid n → is_cont (byte_at l 0) = false.
Proof.
  unfold utf8_first, utf8_first4, in_range, is_cont. intros H.
  repeat case_match; try discriminate; unfold in_range in *; lia.
Qed.
(** ASCII bytes stand for themselves. *)
Lemma utf8_first_ascii l n i : utf8_first l = U8Valid n → (i < n)%nat → byte_at l i < 128 → i = 0%nat ∧ n = 1%nat.
Proof.
  intros H Hi Hb. destruct i as [|i].
  - split; [done|]. unfold utf8_first, utf8_first4 in H. apply Z.ltb_lt in Hb. rewrite Hb in H. by injection H.
  - exfalso. pose proof (utf8_first_cont l n (S i) H ltac:(lia)) as Hc. unfold is_cont, in_range in Hc. lia.
Qed.

Lemma utf8_first_char c t : is_char c → utf8_first (as_bytes (c +:+ t)) = U8Valid (String.length c).
Proof.
  intros [Hc E]. rewrite as_bytes_app.
  destruct (utf8_first_valid (as_bytes c) (String.length c)) as [_ H]; [by rewrite as_bytes_nil|done|].
  specialize (H (as_bytes t)). rewrite <-length_as_bytes in H at 1. by rewrite firstn_all in H.
Qed.

Lemma is_str_char c t : is_char c → is_str (c +:+ t) ↔ is_str t.
Proof.
  intros Hc. pose proof (char_length c Hc). unfold is_str.
  assert (Hne : as_bytes (c +:+ t) ≠ []) by (rewrite as_bytes_nil; destruct c; [by destruct Hc|done]).
  rewrite (utf8_valid_step _ _ Hne (utf8_first_char c t Hc)).
  rewrite as_bytes_app, drop_app_length' by (by rewrite length_as_bytes). done.
Qed.

Lemma str_ind (P : string → Prop) :
  P "" → (∀ c t, is_char c → is_str t → P t → P (c +:+ t)) → ∀ s, is_str s → P s.
Proof.
  intros H0 Hc s. remember (String.length s) as n eqn:En. revert s En.
  induction (lt_wf n) as [n _ IH]. intros s -> Hs. destruct (decide (s = "")) as [->|Hne]; [done|].
  destruct (utf8_first (as_bytes s)) as [k|k] eqn:E.
  2:{ unfold is_str, utf8_valid in Hs. destruct (as_bytes s) eqn:Eb; [by apply as_bytes_nil in Eb|].
      cbn [length utf8_valid_go] in Hs. by rewrite E in Hs. }
  assert (Hne' : as_bytes s ≠ []) by by rewrite as_bytes_nil.
  destruct (utf8_first_valid _ _ Hne' E) as [Hk Ht].
  set (c := string_of_bytes (take k (as_bytes s))). set (t := string_of_bytes (drop k (as_bytes s))).
  assert (Es : s = c +:+ t).
  { subst c t. rewrite <-string_of_bytes_app, take_drop. by rewrite string_of_as_bytes. }
  assert (Ebc : as_bytes c = take k (as_bytes s)).
  { subst c. rewrite as_bytes_of_bytes; [done|]. apply Forall_take, as_bytes_byte. }
  assert (Elc : String.length c = k) by (rewrite <-length_as_bytes, Ebc, length_take; lia).
  assert (Hic : is_char c).
  { split; [intros ->; simpl in Elc; lia|]. rewrite Ebc, Elc. specialize (Ht []). by rewrite app_nil_r in Ht. }
  rewrite Es. rewrite Es in Hs. apply is_str_char in Hs; [|done]. apply Hc; [done..|].
  eapply IH; [|reflexivity|done]. rewrite Es, str_length_app. lia.
Qed.

Lemma chars_go_fuel l : ∀ f g, (length l ≤ f)%nat → (length l ≤ g)%nat → chars_go f l = chars_go g l.
Proof.
  intros f. revert l. induction f as [|f IH]; intros l [|g] Hf Hg;
    try (destruct l; simpl in *; [done|lia]).
  destruct l as [|b l]; [done|]. cbn [chars_go]. pose proof (utf8_first_pos (b :: l)) as Hp.
  destruct (utf8_first (b :: l)) as [n|n] eqn:E; f_equal; apply IH; rewrite length_drop; cbn [length] in *;
    (assert (1 ≤ n)%nat by (apply Hp; [done|auto]); lia).
Qed.
Lemma chars_char c t : is_char c → chars (c +:+ t) = c :: chars t.
Proof.
  intros Hc. pose proof (utf8_first_char c t Hc) as E. pose proof (char_length c Hc).
  unfold chars. rewrite <-(length_as_bytes (c +:+ t)). rewrite as_bytes_app in *.
  destruct (as_bytes c ++ as_bytes t) as [|b l] eqn:El.
  { apply (f_equal length) in El. rewrite length_app, length_as_bytes in El. simpl in El. lia. }
  cbn [length chars_go]. rewrite E, <-El. f_equal.
  - rewrite take_app_length' by (by rewrite length_as_bytes). apply string_of_as_bytes.
  - rewrite drop_app_length' by (by rewrite length_as_bytes). apply chars_go_fuel; [|rewrite length_as_bytes; lia].
    apply (f_equal length) in El. rewrite length_app, length_as_bytes in El. simpl in El. lia.
Qed.
Lemma chars_app a b : is_str a → chars (a +:+ b) = chars a ++ chars b.
Proof.
  intros Ha. induction Ha as [|c t Hc Ht IH] using str_ind; [done|].
  rewrite str_app_assoc, (chars_char c (t +:+ b)), (chars_char c t), IH by done. done.
Qed.
Lemma chars_all_char s : is_str s → Forall is_char (chars s).
Proof. intros Hs. induction Hs using str_ind; [constructor|]. rewrite chars_char by done. by constructor. Qed.

Lemma is_str_app a b : is_str a → is_str b → is_str (a +:+ b).
Proof. intros Ha Hb. induction Ha as [|c t Hc Ht IH] using str_ind; [done|]. by rewrite str_app_assoc, is_str_char. Qed.
Lemma is_str_app_r a b : is_str a → is_str (a +:+ b) → is_str b.
Proof.
  intros Ha. induction Ha as [|c t Hc Ht IH] using str_ind; [done|]. rewrite str_app_assoc, is_str_char by done. auto.
Qed.

(** ** Boundaries *)

Lemma byte_at_app_r l k i : byte_at (l ++ k) (length l + i) = byte_at k i.
Proof. unfold byte_at. by rewrite lookup_app_r, Nat.add_comm, Nat.add_sub by lia. Qed.
Lemma byte_at_app_l l k i : (i < length l)%nat → byte_at (l ++ k) i = byte_at l i.
Proof. intros H. unfold byte_at. by rewrite lookup_app_l. Qed.

Lemma boundary_ends s : is_char_boundary 0 s = true ∧ is_char_boundary (String.length s) s = true.
Proof.
  unfold is_char_boundary. split; [done|].
  rewrite (bool_decide_eq_true_2 (String.length s = String.length s)) by done. by rewrite orb_true_r.
Qed.

Lemma boundary_shift c t n : is_char c → is_str t →
  is_char_boundary (String.length c + n) (c +:+ t) = is_char_boundary n t.
Proof.
  intros Hc Ht. pose proof (char_length c Hc). unfold is_char_boundary.
  assert (Eb : byte_at (as_bytes (c +:+ t)) (String.length c + n) = byte_at (as_bytes t) n)
    by (rewrite as_bytes_app, <-(length_as_bytes c); apply byte_at_app_r).
  rewrite Eb, str_length_app, (bool_decide_eq_false_2 (String.length c + n = 0)%nat) by lia. cbn [orb].
  rewrite (bool_decide_ext (String.length c + n = String.length c + String.length t)%nat (n = String.length t)) by lia.
  replace (String.length c + n <? String.length c + String.length t)%nat with (n <? String.length t)%nat
    by (apply eq_true_iff_eq; rewrite !Nat.ltb_lt; lia).
  destruct (decide (n = 0)%nat) as [->|Hn]; [|by rewrite (bool_decide_eq_false_2 (n = 0)%nat) by done].
  cbn. apply orb_true_iff. clear Eb.
  destruct Ht as [|d u Hd Hu _] using str_ind; [by left|]. right. pose proof (char_length d Hd).
  rewrite str_length_app. destruct (String.length d) eqn:Ed; [lia|].
  by rewrite (utf8_first_head _ _ (utf8_first_char d u Hd)).
Qed.

Lemma boundary_app a b : is_str a → is_str b → is_char_boundary (String.length a) (a +:+ b) = true.
Proof.
  intros Ha Hb. induction Ha as [|c t Hc Ht IH] using str_ind; [apply boundary_ends|].
  rewrite str_app_assoc, str_length_app, boundary_shift; [done|done|by apply is_str_app].
Qed.

(** A boundary cuts valid text into two valid texts. *)
Lemma boundary_cut s n : is_str s → is_char_boundary n s = true →
  ∃ a b, s = a +:+ b ∧ String.length a = n ∧ is_str a ∧ is_str b.
Proof.
  intros Hs. revert n. induction Hs as [|c t Hc Ht IH] using str_ind; intros n Hn.
  - exists "", "". split_and!; try done. unfold is_char_boundary in Hn. destruct n; [done|]. by vm_compute in Hn.
  - pose proof (char_length c Hc). destruct (decide (n = 0)%nat) as [->|Hn0].
    { exists "", (c +:+ t). split_and!; try done. by apply is_str_char. }
    destruct (decide (n < String.length c)%nat) as [Hlt|Hge].
    + exfalso. unfold is_char_boundary in Hn.
      rewrite (bool_decide_eq_false_2 (n = 0)%nat), (bool_decide_eq_false_2 (n = _)) in Hn
        by (rewrite ?str_length_app; lia). cbn [orb] in Hn.
      rewrite (utf8_first_cont _ (String.length c)) in Hn by (lia || by apply utf8_first_char).
      by rewrite andb_false_r in Hn.
    + replace n with (String.length c + (n - String.length c))%nat in Hn by lia.
      rewrite boundary_shift in Hn by done. destruct (IH _ Hn) as (a & b & -> & Ea & Ha & Hb).
      exists (c +:+ a), b. rewrite str_app_assoc, str_length_app. split_and!; [done|lia| |done].
      by apply is_str_char.
Qed.

Lemma str_take_length a b : str_take (String.length a) (a +:+ b) = a.
Proof. induction a as [|x a IH]; simpl; [by destruct b|]. by rewrite IH. Qed.
Lemma str_drop_length a b : str_drop (String.length a) (a +:+ b) = b.
Proof. by induction a. Qed.
Lemma str_take_drop n s : str_take n s +:+ str_drop n s = s.
Proof. revert s. induction n as [|n IH]; intros [|a s]; simpl; try done. by rewrite IH. Qed.
