(* ===== verification/Lsp.v ===== *)
(** * Protocol types

    The data of [ls_types] the components exchange with the editor. *)
From S2P Require Import Prelude RustStd.

Record Position := mkPosition { p_line : Z; p_character : Z }.
Record Range := mkRange { r_start : Position; r_end : Position }.
Global Instance position_eq_dec : EqDecision Position.
Proof. solve_decision. Defined.
Global Instance range_eq_dec : EqDecision Range.
Proof. solve_decision. Defined.

(** Document order of positions, and one range inside another. *)
Definition pos_le (p q : Position) : Prop :=
  p_line p < p_line q ∨ (p_line p = p_line q ∧ p_character p ≤ p_character q).
Definition range_in (inner outer : Range) : Prop :=
  pos_le (r_start outer) (r_start inner) ∧ pos_le (r_end inner) (r_end outer).
Global Instance pos_le_preorder : PreOrder pos_le.
Proof. split; unfold pos_le; [intros ?; lia|intros ???; lia]. Qed.
Global Instance range_in_preorder : PreOrder range_in.
Proof. split; [by intros r|]. intros a b c [H1 H2] [H3 H4]. split; by etrans. Qed.

Inductive Severity := ERROR | WARNING | INFORMATION | HINT.
Global Instance severity_eq_dec : EqDecision Severity.
Proof. solve_decision. Defined.
(** A diagnostic; codes are strings or numbers. *)
Inductive NumberOrString := Number (n : Z) | Code (s : string).
Global Instance number_or_string_eq_dec : EqDecision NumberOrString.
Proof. solve_decision. Defined.
Record Diagnostic := mkDiagnostic {
  d_range : Range; d_severity : option Severity; d_code : option NumberOrString; d_source : option string;
  d_message : string }.
Global Instance diagnostic_eq_dec : EqDecision Diagnostic.
Proof. solve_decision. Defined.
