(* ===== verification/LineIndex.v ===== *)
(** * Positions and edits ([crates/syntax/src/lib.rs])

    Byte offsets against the protocol's line and character positions, in
    either encoding, and the content changes an editor sends. *)
From Stdlib Require Import Ascii.
From S2P Require Import Prelude RustStd Utf8 Lsp.

Module LineIndex.

Inductive PositionEncoding := Utf8Units | Utf16Units.

Definition LF : ascii := ascii_of_N 10.
(** [char::len_utf8] and [char::len_utf16]. *)
Definition units (e : PositionEncoding) (c : string) : nat :=
  match e with
  | Utf8Units => String.length c
  | Utf16Units => if (String.length c =? 4)%nat then 2 else 1
  end.
Definition total_units (e : PositionEncoding) (cs : list string) : nat := foldr (λ c n, (units e c + n)%nat) O cs.

Fixpoint starts_from (i : nat) (l : list Z) : list nat :=
  match l with
  | [] => []
  | b :: l => if b =? 10 then S i :: starts_from (S i) l else starts_from (S i) l
  end.
Record LineIndex := mkLineIndex { li_text : string; li_starts : list nat; li_encoding : PositionEncoding }.
Definition new (text : string) (e : PositionEncoding) : LineIndex :=
  mkLineIndex text (O :: starts_from O (as_bytes text)) e.

(** [slice::binary_search] on a strictly increasing list: the place of [x],
    or where it would be inserted. *)
Definition binary_search (l : list nat) (x : nat) : Result nat nat :=
  let n := length (List.filter (λ y, (y <? x)%nat) l) in
  if bool_decide (l !! n = Some x) then Ok n else Err n.

Fixpoint floor_from (text : string) (b : nat) : nat :=
  match b with
  | O => O
  | S b' => if is_char_boundary b text then b else floor_from text b'
  end.
Definition floor_char_boundary (text : string) (byte : nat) : nat :=
  if (String.length text <=? byte)%nat then String.length text else floor_from text byte.

Definition slice (s : string) (lo hi : nat) : string := str_take (hi - lo) (str_drop lo s).

Definition position (ix : LineIndex) (byte : nat) : Position :=
  let byte := floor_char_boundary (li_text ix) byte in
  let line := match binary_search (li_starts ix) byte with Ok line => line | Err next => (next - 1)%nat end in
  let line_start := li_starts ix !!! line in
  let prefix := slice (li_text ix) line_start byte in
  let character := match li_encoding ix with
                   | Utf8Units => String.length prefix
                   | Utf16Units => total_units Utf16Units (chars prefix)
                   end in
  mkPosition (as_u32 (Z.of_nat line)) (as_u32 (Z.of_nat character)).

Fixpoint offset_loop (e : PositionEncoding) (target units_ byte : nat) (cs : list string) : nat :=
  match cs with
  | [] => byte
  | c :: cs =>
      if (target <=? units_)%nat then byte
      else offset_loop e target (units_ + units e c) (byte + String.length c) cs
  end.
Definition offset (ix : LineIndex) (p : Position) : nat :=
  let line := Z.to_nat (p_line p) in
  match li_starts ix !! line with
  | None => String.length (li_text ix)
  | Some line_start =>
      let line_end := default (String.length (li_text ix)) (li_starts ix !! S line) in
      offset_loop (li_encoding ix) (Z.to_nat (p_character p)) O line_start
        (chars (slice (li_text ix) line_start line_end))
  end.

(** ** Content changes *)

Record Point := mkPoint { row : Z; column : Z }.
Record InputEdit := mkInputEdit {
  start_byte : nat; old_end_byte : nat; new_end_byte : nat;
  start_position : Point; old_end_position : Point; new_end_position : Point }.

(** [s.rfind('\n').map_or(0, |nl| nl + 1)] *)
Definition last_line_start (s : string) : nat :=
  match rsplit_once LF s with Some (h, _) => S (String.length h) | None => O end.
Definition count_newlines (s : string) : nat := length (List.filter (λ b, b =? 10) (as_bytes s)).

Definition apply_content_change (text : string) (e : PositionEncoding) (range : Range) (replacement : string) :
    string * InputEdit :=
  let index := new text e in
  let start_ := offset index (r_start range) in
  let old_end := Nat.max (offset index (r_end range)) start_ in
  let column_of byte := Z.of_nat (byte - last_line_start (str_take byte text)) in
  let start_pos := mkPoint (p_line (r_start range)) (column_of start_) in
  (str_take start_ text +:+ replacement +:+ str_drop old_end text,
   mkInputEdit start_ old_end (start_ + String.length replacement) start_pos
     (mkPoint (p_line (r_end range)) (column_of old_end))
     (match rsplit_once LF replacement with
      | None => mkPoint (row start_pos) (column start_pos + str_len replacement)
      | Some (h, _) =>
          mkPoint (row start_pos + Z.of_nat (count_newlines replacement)) (str_len replacement - str_len h - 1)
      end)).

(** One entry of [didChange]'s [contentChanges]. *)
Inductive Change := Ranged (range : Range) (text : string) | Full (text : string).
Definition apply_change (e : PositionEncoding) (text : string) (c : Change) : string :=
  match c with
  | Ranged range replacement => (apply_content_change text e range replacement).1
  | Full replacement => replacement
  end.

(** ** What the protocol means

    A position names the place after [a] when [a] has that many line feeds
    and that many units after the last. *)
Definition line_tail (s : string) : string := match rsplit_once LF s with Some (_, l) => l | None => s end.
Definition denotes (e : PositionEncoding) (t : string) (p : Position) (b : nat) : Prop :=
  ∃ a r, t = a +:+ r ∧ String.length a = b ∧ is_str a ∧ is_str r
  ∧ p = mkPosition (Z.of_nat (count_newlines a)) (Z.of_nat (total_units e (chars (line_tail a)))).
(** The parser's points: rows and byte columns. *)
Definition point_at (t : string) (b : nat) : Point :=
  mkPoint (Z.of_nat (count_newlines (str_take b t))) (str_len (line_tail (str_take b t))).

(** What an editor does to its own copy. *)
Inductive client_edit (e : PositionEncoding) (t : string) : Change → string → Prop :=
| client_ranged range replacement s b : denotes e t (r_start range) s → denotes e t (r_end range) b → (s ≤ b)%nat →
    is_str replacement →
    client_edit e t (Ranged range replacement) (str_take s t +:+ replacement +:+ str_drop b t)
| client_full replacement : is_str replacement → client_edit e t (Full replacement) replacement.
Inductive client_edits (e : PositionEncoding) : string → list Change → string → Prop :=
| edits_nil t : client_edits e t [] t
| edits_cons t c t1 cs t2 : client_edit e t c t1 → str_len t < 2 ^ 32 → client_edits e t1 cs t2 →
    client_edits e t (c :: cs) t2.

(** ** Lines *)

Lemma count_newlines_app s t : count_newlines (s +:+ t) = (count_newlines s + count_newlines t)%nat.
Proof. unfold count_newlines. by rewrite as_bytes_app, List.filter_app, length_app. Qed.

Lemma no_newline s : contains_char LF s = false ↔ count_newlines s = O.
Proof.
  unfold count_newlines. induction s as [|c s IH]; [done|]. cbn [contains_char as_bytes List.filter].
  assert (E : (byte_of_ascii c =? 10) = Ascii.eqb c LF).
  { apply eq_true_iff_eq. rewrite Z.eqb_eq, Ascii.eqb_eq. split; [|by intros ->].
    intros H. apply (f_equal ascii_of_byte) in H. by rewrite ascii_of_byte_of_ascii in H. }
  rewrite E. destruct (Ascii.eqb c LF); cbn [orb]; [cbn; split; done|done].
Qed.

(** A character is a line feed or has none. *)
Lemma char_newline c : is_char c → c = String LF "" ∨ contains_char LF c = false.
Proof.
  intros [Hc E]. destruct (contains_char LF c) eqn:Hl; [left|by right].
  assert (∃ i, (i < String.length c)%nat ∧ byte_at (as_bytes c) i = 10) as (i & Hi & Hb).
  { clear -Hl. induction c as [|x c IH]; [done|]. cbn [contains_char] in Hl.
    destruct (Ascii.eqb_spec x LF) as [->|].
    - exists O. split; [simpl; lia|done].
    - destruct IH as (i & Hi & Hb); [done|]. exists (S i). split; [simpl; lia|done]. }
  destruct (utf8_first_ascii _ _ i E Hi) as [-> El]; [lia|].
  destruct c as [|x [|y c]]; try done. cbn in Hb. f_equal.
  apply (f_equal ascii_of_byte) in Hb. by rewrite ascii_of_byte_of_ascii in Hb.
Qed.

(** A text is whole lines followed by a piece of one. *)
Lemma last_line a : is_str a → ∃ h l, a = h +:+ l ∧ is_str h ∧ is_str l ∧ contains_char LF l = false
  ∧ (h = "" ∨ ∃ h', h = h' +:+ String LF "").
Proof.
  intros Ha. induction Ha as [|c t Hc Ht (h & l & -> & Hh & Hl & Hn & Hcase)] using str_ind.
  - exists "", "". split_and!; try done. by left.
  - destruct (char_newline c Hc) as [->|Hcn].
    + exists (String LF "" +:+ h), l. rewrite str_app_assoc. split_and!; [done|by apply is_str_char|done|done|].
      right. destruct Hcase as [->|[h' ->]]; [by exists ""|]. exists (String LF "" +:+ h'). by rewrite str_app_assoc.
    + destruct Hcase as [->|[h' ->]].
      * exists "", (c +:+ l). split_and!; [done|done|by apply is_str_char| |by left].
        by rewrite contains_char_app, Hcn, Hn.
      * exists (c +:+ h' +:+ String LF ""), l. split_and!;
          [by rewrite <-!str_app_assoc|by apply is_str_char|done|done|].
        right. exists (c +:+ h'). by rewrite str_app_assoc.
Qed.
(** A text is a piece of a line, up to its line feed, followed by others. *)
Lemma first_line r : is_str r → ∃ l r', r = l +:+ r' ∧ is_str l ∧ is_str r'
  ∧ ((r' = "" ∧ contains_char LF l = false) ∨ ∃ l', l = l' +:+ String LF "" ∧ contains_char LF l' = false).
Proof.
  intros Hr. induction Hr as [|c t Hc Ht (l & r' & -> & Hl & Hr' & Hcase)] using str_ind.
  - exists "", "". split_and!; try done. by left.
  - destruct (char_newline c Hc) as [->|Hcn].
    + exists (String LF ""), (l +:+ r'). split_and!; [done|done|by apply is_str_app|]. right. by exists "".
    + exists (c +:+ l), r'. rewrite str_app_assoc. split_and!; [done|by apply is_str_char|done|].
      destruct Hcase as [[-> Hn]|(l' & -> & Hn)].
      * left. by rewrite contains_char_app, Hcn, Hn.
      * right. exists (c +:+ l'). by rewrite str_app_assoc, contains_char_app, Hcn, Hn.
Qed.

Section LastLine.
Variables h l : string.
Hypothesis Hn : contains_char LF l = false.
Hypothesis Hh : h = "" ∨ ∃ h', h = h' +:+ String LF "".

Lemma line_tail_last : line_tail (h +:+ l) = l.
Proof.
  unfold line_tail. destruct Hh as [->|[h' ->]].
  - simpl. by rewrite (proj2 (rsplit_once_None LF l) Hn).
  - rewrite str_app_assoc. cbn [String.append]. by rewrite (rsplit_once_app LF h' l Hn).
Qed.
Lemma last_line_start_last : last_line_start (h +:+ l) = String.length h.
Proof.
  unfold last_line_start. destruct Hh as [->|[h' ->]].
  - simpl. by rewrite (proj2 (rsplit_once_None LF l) Hn).
  - rewrite str_app_assoc. cbn [String.append].
    rewrite (rsplit_once_app LF h' l Hn), str_length_app. simpl. lia.
Qed.
End LastLine.

Lemma starts_from_app l k : ∀ i, starts_from i (l ++ k) = starts_from i l ++ starts_from (i + length l) k.
Proof.
  induction l as [|b l IH]; intros i; cbn [app starts_from length]; [by rewrite Nat.add_0_r|].
  rewrite IH, Nat.add_succ_comm. by destruct (b =? 10).
Qed.
Lemma starts_from_range l : ∀ i s, s ∈ starts_from i l → (i < s ≤ i + length l)%nat.
Proof.
  induction l as [|b l IH]; intros i s; cbn [starts_from length]; [by intros ?%elem_of_nil|].
  destruct (b =? 10); [intros [->|H]%elem_of_cons; [lia|]|intros H]; specialize (IH _ _ H); lia.
Qed.
Lemma length_starts s : ∀ i, length (starts_from i (as_bytes s)) = count_newlines s.
Proof.
  unfold count_newlines. induction (as_bytes s) as [|b l IH]; intros i; [done|]. cbn [starts_from List.filter].
  destruct (b =? 10); cbn [length]; by rewrite IH.
Qed.
Lemma starts_none s i : count_newlines s = O → starts_from i (as_bytes s) = [].
Proof. intros H. apply length_zero_iff_nil. by rewrite length_starts. Qed.

(** The starts of the lines up to a place: the last is its line's. *)
Lemma starts_last h l : contains_char LF l = false → h = "" ∨ (∃ h', h = h' +:+ String LF "") →
  ∃ pre, O :: starts_from O (as_bytes (h +:+ l)) = pre ++ [String.length h]
  ∧ length pre = count_newlines (h +:+ l) ∧ ∀ s, s ∈ pre → (s < String.length h)%nat.
Proof.
  intros Hn%no_newline Hh. rewrite as_bytes_app, starts_from_app, count_newlines_app, Hn.
  rewrite (starts_none l) by done. rewrite app_nil_r, Nat.add_0_r.
  destruct Hh as [->|[h' ->]]; [exists []; split_and!; [done..|]; by intros s ?%elem_of_nil|].
  exists (O :: starts_from O (as_bytes h')).
  rewrite as_bytes_app, starts_from_app, length_as_bytes, str_length_app, count_newlines_app. cbn [length].
  rewrite length_starts. change (count_newlines (String LF "")) with 1%nat. split_and!; [|lia|].
  - cbn. f_equal. f_equal. f_equal. lia.
  - intros s [->|Hs]%elem_of_cons; [simpl; lia|]. apply starts_from_range in Hs.
    rewrite length_as_bytes in Hs. simpl. lia.
Qed.

Lemma filter_all_lt (x : nat) l : (∀ y, y ∈ l → (y < x)%nat) → List.filter (λ y, (y <? x)%nat) l = l.
Proof.
  induction l as [|y l IH]; intros H; [done|]. cbn [List.filter]. rewrite (proj2 (Nat.ltb_lt y x)) by (apply H; left).
  rewrite IH; [done|]. intros z Hz. apply H. by right.
Qed.
Lemma filter_none_lt (x : nat) l : (∀ y, y ∈ l → (x ≤ y)%nat) → List.filter (λ y, (y <? x)%nat) l = [].
Proof.
  induction l as [|y l IH]; intros H; [done|]. cbn [List.filter]. rewrite (proj2 (Nat.ltb_ge y x)) by (apply H; left).
  apply IH. intros z Hz. apply H. by right.
Qed.
Lemma search_line pre s post x : (∀ y, y ∈ pre → (y < s)%nat) → (s ≤ x)%nat → (∀ y, y ∈ post → (x < y)%nat) →
  match binary_search (pre ++ s :: post) x with Ok n => n | Err n => (n - 1)%nat end = length pre.
Proof.
  intros Hpre Hs Hpost. unfold binary_search.
  rewrite List.filter_app, filter_all_lt by (intros y Hy; specialize (Hpre y Hy); lia). cbn [List.filter].
  rewrite filter_none_lt by (intros y Hy; specialize (Hpost y Hy); lia).
  destruct (Nat.ltb_spec s x); rewrite length_app; cbn [length].
  - rewrite bool_decide_eq_false_2; [lia|]. rewrite lookup_app_r by lia.
    replace (length pre + 1 - length pre)%nat with 1%nat by lia. cbn. intros E.
    apply list_elem_of_lookup_2, Hpost in E. lia.
  - rewrite Nat.add_0_r, bool_decide_eq_true_2; [done|]. rewrite lookup_app_r by lia.
    rewrite Nat.sub_diag. cbn. f_equal. lia.
Qed.

(** ** Offsets and positions *)

Lemma units_pos e c : is_char c → (1 ≤ units e c ≤ String.length c)%nat.
Proof.
  intros Hc%char_length. destruct e; cbn; [lia|]. destruct (Nat.eqb_spec (String.length c) 4); lia.
Qed.
Lemma total_units_le e s : is_str s → (total_units e (chars s) ≤ String.length s)%nat.
Proof.
  intros Hs. induction Hs as [|c t Hc Ht IH] using str_ind; [done|]. rewrite chars_char by done.
  cbn [total_units foldr]. fold (total_units e (chars t)). pose proof (units_pos e c Hc).
  rewrite str_length_app. lia.
Qed.

Lemma total_units_utf8 s : is_str s → total_units Utf8Units (chars s) = String.length s.
Proof.
  intros Hs. induction Hs as [|c t Hc Ht IH] using str_ind; [done|]. rewrite chars_char, str_length_app by done.
  change (total_units Utf8Units (c :: chars t)) with (String.length c + total_units Utf8Units (chars t))%nat.
  by rewrite IH.
Qed.

Lemma offset_loop_stop e l : is_str l → ∀ u b rest,
  offset_loop e (u + total_units e (chars l)) u b (chars l ++ rest) = (b + String.length l)%nat.
Proof.
  intros Hl. induction Hl as [|c t Hc Ht IH] using str_ind; intros u b rest.
  - change (chars "") with (@nil string). cbn [total_units foldr app String.length]. rewrite !Nat.add_0_r. destruct rest; [done|].
    cbn [offset_loop]. by rewrite (proj2 (Nat.leb_le u u)) by lia.
  - rewrite chars_char by done. cbn [app offset_loop total_units foldr]. fold (total_units e (chars t)).
    pose proof (units_pos e c Hc). rewrite (proj2 (Nat.leb_gt _ _)) by lia.
    rewrite Nat.add_assoc, IH, str_length_app. lia.
Qed.

Lemma floor_boundary t b : (b ≤ String.length t)%nat → is_char_boundary b t = true → floor_char_boundary t b = b.
Proof.
  intros Hle Hb. unfold floor_char_boundary. destruct (Nat.leb_spec (String.length t) b); [lia|].
  destruct b; [done|]. cbn [floor_from]. by rewrite Hb.
Qed.

Lemma slice_app h l r : slice (h +:+ l +:+ r) (String.length h) (String.length h + String.length l) = l.
Proof. unfold slice. rewrite str_drop_length, Nat.add_comm, Nat.add_sub. apply str_take_length. Qed.

Section Denoted.
Variables (e : PositionEncoding) (h l r : string).
Hypotheses (Hh : is_str h) (Hl : is_str l) (Hr : is_str r) (Hn : contains_char LF l = false).
Hypothesis Hcase : h = "" ∨ ∃ h', h = h' +:+ String LF "".
Let t := h +:+ l +:+ r.
Let b := (String.length h + String.length l)%nat.

Lemma starts_split : ∃ pre, li_starts (new t e) = pre ++ String.length h :: starts_from b (as_bytes r)
  ∧ length pre = count_newlines (h +:+ l) ∧ ∀ s, s ∈ pre → (s < String.length h)%nat.
Proof.
  destruct (starts_last h l Hn Hcase) as (pre & E & Hlen & Hpre). exists pre. split_and!; [|done..].
  subst t b. cbn [new li_starts]. rewrite <-(str_app_assoc h l r), as_bytes_app, starts_from_app, app_comm_cons, E.
  rewrite <-app_assoc, length_as_bytes, str_length_app. done.
Qed.

Lemma position_denoted : str_len t < 2 ^ 32 →
  position (new t e) b = mkPosition (Z.of_nat (count_newlines (h +:+ l))) (Z.of_nat (total_units e (chars l))).
Proof.
  intros Hlen. assert (Hb : floor_char_boundary t b = b).
  { subst t b. apply floor_boundary; [rewrite !str_length_app; lia|]. rewrite <-str_app_assoc, <-str_length_app.
    by apply boundary_app; [apply is_str_app|]. }
  unfold position. cbn [new li_text li_encoding]. change (mkLineIndex t _ e) with (new t e).
  change (O :: starts_from O (as_bytes t)) with (li_starts (new t e)). rewrite Hb.
  destruct starts_split as (pre & E & Hp & Hpre). rewrite E.
  rewrite search_line; [|done|subst b; lia|intros y Hy; apply starts_from_range in Hy; lia].
  rewrite list_lookup_total_middle by done. subst t b. rewrite slice_app.
  assert (Ec : match e with Utf8Units => String.length l | Utf16Units => total_units Utf16Units (chars l) end
    = total_units e (chars l)) by (destruct e; [by rewrite total_units_utf8|done]). rewrite Ec. clear Ec.
  pose proof (total_units_le e l Hl). unfold str_len in Hlen. rewrite !str_length_app in Hlen.
  assert (count_newlines (h +:+ l) ≤ String.length (h +:+ l))%nat.
  { unfold count_newlines. rewrite <-length_as_bytes. apply List.filter_length_le. }
  rewrite str_length_app in *. rewrite Hp. f_equal; apply as_u_small; unfold is_u; lia.
Qed.

Lemma offset_denoted :
  offset (new t e) (mkPosition (Z.of_nat (count_newlines (h +:+ l))) (Z.of_nat (total_units e (chars l)))) = b.
Proof.
  unfold offset. cbn [p_line p_character]. rewrite !Nat2Z.id.
  destruct starts_split as (pre & E & Hp & Hpre). rewrite E, <-Hp, list_lookup_middle by done.
  rewrite lookup_app_r, Nat.sub_succ_l, Nat.sub_diag by lia.
  change ((String.length h :: starts_from b (as_bytes r)) !! 1%nat) with (starts_from b (as_bytes r) !! O).
  change (li_encoding (new t e)) with e. change (li_text (new t e)) with t.
  destruct (first_line r Hr) as (l2 & r' & Er & Hl2 & Hr' & Hc2).
  assert (Enext : default (String.length t) (starts_from b (as_bytes r) !! O) = (b + String.length l2)%nat).
  { subst t b. rewrite Er, as_bytes_app, starts_from_app. destruct Hc2 as [[-> Hn2]|(l' & -> & Hn2)].
    - rewrite (starts_none l2) by by apply no_newline. cbn. rewrite !str_length_app. simpl. lia.
    - rewrite as_bytes_app, starts_from_app, (starts_none l') by by apply no_newline.
      change (as_bytes (String LF "")) with [10]. cbn [starts_from Z.eqb Pos.eqb app lookup list_lookup default id].
      rewrite length_as_bytes, str_length_app. simpl String.length. lia. }
  rewrite Enext. assert (Es : slice t (String.length h) (b + String.length l2) = l +:+ l2).
  { subst t b. rewrite Er, <-(str_app_assoc l l2 r'). rewrite <-Nat.add_assoc, <-str_length_app. apply slice_app. }
  rewrite Es, chars_app by done. subst b. apply (offset_loop_stop e l Hl O).
Qed.
End Denoted.

Lemma denoted_split e t p b : denotes e t p b → ∃ h l r, t = h +:+ l +:+ r ∧ b = (String.length h + String.length l)%nat
  ∧ is_str h ∧ is_str l ∧ is_str r ∧ contains_char LF l = false ∧ (h = "" ∨ ∃ h', h = h' +:+ String LF "")
  ∧ p = mkPosition (Z.of_nat (count_newlines (h +:+ l))) (Z.of_nat (total_units e (chars l))).
Proof.
  intros (a & r & -> & <- & Ha & Hr & ->). destruct (last_line a Ha) as (h & l & -> & Hh & Hl & Hn & Hc).
  exists h, l, r. rewrite str_app_assoc, str_length_app, line_tail_last by done. done.
Qed.

Lemma denotes_offset e t p b : denotes e t p b → offset (new t e) p = b.
Proof.
  intros (h & l & r & -> & -> & Hh & Hl & Hr & Hn & Hc & ->)%denoted_split. by apply offset_denoted.
Qed.
Lemma denotes_position e t p b : denotes e t p b → str_len t < 2 ^ 32 → position (new t e) b = p.
Proof.
  intros (h & l & r & -> & -> & Hh & Hl & Hr & Hn & Hc & ->)%denoted_split Hlen. by apply position_denoted.
Qed.
Lemma denotes_total e t b : is_str t → is_char_boundary b t = true → ∃ p, denotes e t p b.
Proof.
  intros Ht Hb. destruct (boundary_cut t b Ht Hb) as (a & r & -> & <- & Ha & Hr).
  eexists. by exists a, r.
Qed.
Lemma denotes_le e t p b : denotes e t p b → (b ≤ String.length t)%nat.
Proof. intros (a & r & -> & <- & _). rewrite str_length_app. lia. Qed.

(** C24: Positions and byte offsets convert exactly.  For valid text under four
    gibibytes, in either encoding, a position the protocol gives a place is
    sent to that place and the place to that position; every character
    boundary has such a position, so converting there and back gives the byte
    offset back. *)
Theorem positions_exact e t :
  is_str t → str_len t < 2 ^ 32 →
  (∀ p b, denotes e t p b → offset (new t e) p = b ∧ position (new t e) b = p)
  ∧ ∀ b, is_char_boundary b t = true →
      offset (new t e) (position (new t e) b) = b ∧ denotes e t (position (new t e) b) b.
Proof.
  intros Ht Hlen. split.
  - intros p b Hd. split; [by apply denotes_offset|by apply denotes_position].
  - intros b Hb. destruct (denotes_total e t b Ht Hb) as [p Hp].
    rewrite (denotes_position _ _ _ _ Hp Hlen). split; [by apply denotes_offset|done].
Qed.

(** ** Edits *)

Lemma column_denoted e t p b : denotes e t p b →
  mkPoint (p_line p) (Z.of_nat (b - last_line_start (str_take b t))) = point_at t b.
Proof.
  intros (h & l & r & -> & -> & Hh & Hl & Hr & Hn & Hc & ->)%denoted_split. unfold point_at, str_len.
  rewrite <-(str_app_assoc h l r), <-str_length_app, str_take_length.
  rewrite (line_tail_last h l Hn Hc), (last_line_start_last h l Hn Hc), str_length_app. cbn. f_equal. lia.
Qed.

Lemma line_tail_app a b : line_tail (a +:+ b) = match rsplit_once LF b with Some (_, l) => l | None => line_tail a +:+ b end.
Proof.
  unfold line_tail. destruct (rsplit_once LF b) as [[h l]|] eqn:E.
  - apply rsplit_once_Some in E as [-> Hn]. rewrite <-str_app_assoc.
    by rewrite (rsplit_once_app LF (a +:+ h) l Hn).
  - apply rsplit_once_None in E. destruct (rsplit_once LF a) as [[h l]|] eqn:Ea.
    + apply rsplit_once_Some in Ea as [-> Hn]. rewrite str_app_assoc.
      change (String LF l +:+ b) with (String LF (l +:+ b)).
      rewrite rsplit_once_app; [done|]. by rewrite contains_char_app, Hn, E.
    + apply rsplit_once_None in Ea. rewrite (proj2 (rsplit_once_None LF (a +:+ b))); [done|].
      by rewrite contains_char_app, Ea, E.
Qed.

Lemma point_at_app a r : point_at (a +:+ r) (String.length a) = mkPoint (Z.of_nat (count_newlines a)) (str_len (line_tail a)).
Proof. unfold point_at. by rewrite str_take_length. Qed.

(** A change the editor makes between two places of its text is made exactly:
    the new text is the editor's, and the edit told to the incremental parser
    has the bytes of the old and the new end and the rows and byte columns
    they have in the old and the new text. *)
Theorem content_change_exact e t range replacement s b :
  denotes e t (r_start range) s → denotes e t (r_end range) b → (s ≤ b)%nat →
  let '(new_text, edit) := apply_content_change t e range replacement in
  new_text = str_take s t +:+ replacement +:+ str_drop b t
  ∧ edit = mkInputEdit s b (s + String.length replacement) (point_at t s) (point_at t b)
             (point_at new_text (s + String.length replacement)).
Proof.
  intros Hs Hb Hsb. unfold apply_content_change.
  rewrite (denotes_offset _ _ _ _ Hs), (denotes_offset _ _ _ _ Hb), Nat.max_l by done.
  split; [done|]. rewrite (column_denoted _ _ _ _ Hs), (column_denoted _ _ _ _ Hb). f_equal.
  set (a := str_take s t). assert (Ea : String.length a = s).
  { destruct Hs as (a' & r & -> & <- & _). subst a. by rewrite str_take_length. }
  rewrite <-(str_app_assoc a replacement), <-Ea, <-str_length_app, point_at_app.
  rewrite line_tail_app, count_newlines_app. unfold point_at. rewrite Ea. fold a. cbn [row column].
  destruct (rsplit_once LF replacement) as [[h l]|] eqn:E.
  - apply rsplit_once_Some in E as [-> Hn]. f_equal; [lia|]. unfold str_len. rewrite str_length_app. simpl. lia.
  - apply rsplit_once_None, no_newline in E. rewrite E. f_equal; [lia|]. unfold str_len. rewrite str_length_app. lia.
Qed.

(** Editing keeps the two copies the same. *)
Lemma edits_in_sync e t cs t' : client_edits e t cs t' → is_str t → fold_left (apply_change e) cs t = t' ∧ is_str t'.
Proof.
  intros Hc. induction Hc as [t|t c t1 cs t2 He Hlen _ IH]; intros Ht; [done|]. cbn [fold_left].
  assert (E : apply_change e t c = t1 ∧ is_str t1); [|destruct E as [-> H1]; auto].
  destruct He as [range rep s b Hs Hb Hsb Hrep|rep Hrep]; [|done]. cbn [apply_change]. unfold apply_content_change.
  rewrite (denotes_offset _ _ _ _ Hs), (denotes_offset _ _ _ _ Hb), Nat.max_l by done. split; [done|].
  destruct Hs as (a & r & Et & <- & Ha & Hr & _), Hb as (a2 & r2 & Et2 & <- & Ha2 & Hr2 & _).
  rewrite Et at 1. rewrite Et2 at 1. rewrite str_take_length, str_drop_length.
  apply is_str_app; [done|]. by apply is_str_app.
Qed.

(** ** Order *)

Lemma boundary_app_shift a r k : is_str a → is_str r →
  is_char_boundary (String.length a + k) (a +:+ r) = is_char_boundary k r.
Proof.
  intros Ha Hr. induction Ha as [|c t Hc Ht IH] using str_ind; [done|].
  rewrite str_app_assoc, str_length_app, <-Nat.add_assoc, boundary_shift; [done|done|]. by apply is_str_app.
Qed.
Lemma total_units_app e l k : total_units e (l ++ k) = (total_units e l + total_units e k)%nat.
Proof. induction l as [|c l IH]; [done|]. cbn [app total_units foldr]. unfold total_units in *. rewrite IH. lia. Qed.

(** A later byte has a later position. *)
Lemma position_mono e t a b : is_str t → str_len t < 2 ^ 32 → (a ≤ b)%nat →
  is_char_boundary a t = true → is_char_boundary b t = true →
  pos_le (position (new t e) a) (position (new t e) b).
Proof.
  intros Ht Hlen Hab Ha Hb. destruct (boundary_cut t a Ht Ha) as (x & r & -> & <- & Hx & Hr).
  replace b with (String.length x + (b - String.length x))%nat in Hb |- * by lia. revert Hb.
  generalize (b - String.length x)%nat as k. intros k Hk. rewrite boundary_app_shift in Hk by done.
  destruct (boundary_cut r k Hr Hk) as (y & z & -> & <- & Hy & Hz). clear Hab Ha Hk b.
  rewrite (denotes_position e (x +:+ y +:+ z)
    (mkPosition (Z.of_nat (count_newlines x)) (Z.of_nat (total_units e (chars (line_tail x))))) (String.length x));
    [|by exists x, (y +:+ z)|done].
  rewrite (denotes_position e (x +:+ y +:+ z)
    (mkPosition (Z.of_nat (count_newlines (x +:+ y))) (Z.of_nat (total_units e (chars (line_tail (x +:+ y))))))); [| |done].
  2:{ exists (x +:+ y), z. rewrite str_app_assoc, str_length_app. split_and!; try done. by apply is_str_app. }
  rewrite count_newlines_app. unfold pos_le. cbn [p_line p_character].
  destruct (decide (count_newlines y = 0)%nat) as [E|E]; [|left; lia]. right. split; [lia|].
  apply no_newline in E. rewrite line_tail_app, (proj2 (rsplit_once_None LF y) E).
  destruct (last_line x Hx) as (h & l & -> & Hh & Hl & Hn & Hc). rewrite (line_tail_last h l Hn Hc).
  rewrite chars_app, total_units_app by done. lia.
Qed.

(** Rows are not clamped though bytes are. *)
Lemma clamped_row_wrong :
  (apply_content_change "a" Utf16Units (mkRange (mkPosition 5 0) (mkPosition 5 0)) "x").2
  = mkInputEdit 1 1 2 (mkPoint 5 1) (mkPoint 5 1) (mkPoint 5 2)
  ∧ point_at "a" 1 = mkPoint 0 1.
Proof. by vm_compute. Qed.

(** A character past the line's end is sent past the line feed, to the start
    of the next line. *)
Lemma overlong_character_next_line :
  let t := "a" +:+ newline +:+ "b" in
  offset (new t Utf16Units) (mkPosition 0 9) = 2%nat ∧ position (new t Utf16Units) 2 = mkPosition 1 0.
Proof. by vm_compute. Qed.

Module Sample.
Definition text : string := "class A {" +:+ newline +:+ "  // é 😀 x" +:+ newline +:+ "}".
Lemma text_ok : is_str text ∧ str_len text < 2 ^ 32.
Proof. by vm_compute. Qed.
Lemma positions_exact_witness :
  position (new text Utf16Units) 22 = mkPosition 1 9 ∧ offset (new text Utf16Units) (mkPosition 1 9) = 22%nat.
Proof.
  destruct (positions_exact Utf16Units text) as [H1 H2]; [apply text_ok..|].
  destruct (H2 22%nat) as [E _]; [by vm_compute|].
  assert (Ep : position (new text Utf16Units) 22 = mkPosition 1 9) by (vm_compute; reflexivity).
  rewrite Ep in E. done.
Defined.
Lemma denoted : denotes Utf16Units text (mkPosition 1 7) 18 ∧ denotes Utf16Units text (mkPosition 2 0) 25.
Proof.
  split.
  - exists (str_take 18 text), (str_drop 18 text). vm_compute. by split_and!.
  - exists (str_take 25 text), (str_drop 25 text). vm_compute. by split_and!.
Qed.
Lemma content_change_exact_witness :
  let edit := (apply_content_change text Utf16Units (mkRange (mkPosition 1 7) (mkPosition 2 0)) newline).2 in
  start_byte edit = 18%nat ∧ old_end_position edit = mkPoint 2 0 ∧ new_end_position edit = mkPoint 2 0.
Proof.
  pose proof (content_change_exact Utf16Units text (mkRange (mkPosition 1 7) (mkPosition 2 0)) newline 18 25
    (proj1 denoted) (proj2 denoted)) as H.
  destruct (apply_content_change _ _ _ _) as [t' edit]. destruct H as [-> ->]; [lia|].
  vm_compute. done.
Defined.
End Sample.

End LineIndex.
