(* ===== verification/Order.v ===== *)
(** * Ordered comparison and stable sorting

    [Ord] of the Rust standard library, as the sources use it: comparators with
    their laws as a type class, bytewise order of strings, lexicographic
    order of tuples, the stable [sort_by], and the contiguous range of the
    strings that start with a prefix, on which binary searches rely. *)
From Stdlib Require Import Ascii.
From stdpp Require Import sorting.
From S2P Require Import Prelude RustStd.

Class Comparator {A} (cmp : A → A → comparison) : Prop := {
  cmp_opp : ∀ x y, cmp y x = CompOpp (cmp x y);
  cmp_trans : ∀ x y z, cmp x y ≠ Gt → cmp y z ≠ Gt → cmp x z ≠ Gt }.
(** Only equal elements compare equal. *)
Class TotalOrder {A} (cmp : A → A → comparison) : Prop := {
  total_comparator :: Comparator cmp;
  cmp_eq : ∀ x y, cmp x y = Eq → x = y }.

Arguments cmp_opp {A} cmp {_} x y.
Arguments cmp_trans {A} cmp {_} x y z _ _.

Definition cmp_le {A} (cmp : A → A → comparison) (x y : A) : Prop := cmp x y ≠ Gt.

Section Comparator.
Context {A} (cmp : A → A → comparison) `{!Comparator cmp}.

Lemma cmp_refl x : cmp x x = Eq.
Proof. pose proof (cmp_opp cmp x x) as H. destruct (cmp x x); [done|discriminate H..]. Qed.
Lemma cmp_total x y : cmp_le cmp x y ∨ cmp_le cmp y x.
Proof. unfold cmp_le. rewrite (cmp_opp cmp x y). destruct (cmp x y); auto. Qed.
Lemma cmp_both x y : cmp_le cmp x y → cmp_le cmp y x → cmp x y = Eq.
Proof. unfold cmp_le. rewrite (cmp_opp cmp x y). by destruct (cmp x y). Qed.
Lemma cmp_lt_le_trans x y z : cmp x y = Lt → cmp_le cmp y z → cmp x z = Lt.
Proof.
  intros Hxy Hyz. assert (Hxz : cmp x z ≠ Gt) by (apply (cmp_trans cmp _ y); [by rewrite Hxy|done]).
  destruct (cmp x z) eqn:E; [|done|done]. exfalso.
  assert (Hyx : cmp_le cmp y x). { apply (cmp_trans cmp _ z); [exact Hyz|]. by rewrite (cmp_opp cmp x z), E. }
  unfold cmp_le in Hyx. by rewrite (cmp_opp cmp x y), Hxy in Hyx.
Qed.
Lemma cmp_le_lt_trans x y z : cmp_le cmp x y → cmp y z = Lt → cmp x z = Lt.
Proof.
  intros Hxy Hyz. assert (Hxz : cmp x z ≠ Gt) by (apply (cmp_trans cmp _ y); [exact Hxy|by rewrite Hyz]).
  destruct (cmp x z) eqn:E; [|done|done]. exfalso.
  assert (Hzy : cmp_le cmp z y). { apply (cmp_trans cmp _ x); [|exact Hxy]. by rewrite (cmp_opp cmp x z), E. }
  unfold cmp_le in Hzy. by rewrite (cmp_opp cmp y z), Hyz in Hzy.
Qed.
End Comparator.

(** ** Comparators *)

Definition lex (c1 c2 : comparison) : comparison := match c1 with Eq => c2 | c => c end.

Global Instance cmp_on_comparator {A B} (f : A → B) (cmp : B → B → comparison) :
  Comparator cmp → Comparator (λ x y, cmp (f x) (f y)).
Proof. intros [H1 H2]. split; intros; [apply H1|eapply H2; eauto]. Qed.

Global Instance lex_comparator {A} (c1 c2 : A → A → comparison) :
  Comparator c1 → Comparator c2 → Comparator (λ x y, lex (c1 x y) (c2 x y)).
Proof.
  intros Hc1 Hc2. split.
  - intros x y. rewrite (cmp_opp c1 x y). destruct (c1 x y); cbn; [|done|done]. apply (cmp_opp c2).
  - intros x y z Hxy Hyz. unfold lex in *.
    destruct (c1 x y) eqn:E1; [| |done].
    + destruct (c1 y z) eqn:E2; [| |done].
      * assert (c1 x z = Eq) as ->.
        { apply (cmp_both c1).
          - apply (cmp_trans c1 _ y); [by rewrite E1|by rewrite E2].
          - apply (cmp_trans c1 _ y); [by rewrite (cmp_opp c1 y z), E2|by rewrite (cmp_opp c1 x y), E1]. }
        by apply (cmp_trans c2 _ y).
      * rewrite (cmp_le_lt_trans c1 x y z); [done| |done]. unfold cmp_le. by rewrite E1.
    + rewrite (cmp_lt_le_trans c1 x y z); [done|done|]. unfold cmp_le. by destruct (c1 y z).
Qed.

Global Instance nat_compare_order : TotalOrder Nat.compare.
Proof.
  split; [split|].
  - intros x y. apply Nat.compare_antisym.
  - intros x y z. rewrite !Nat.compare_ngt_iff. lia.
  - intros x y. apply Nat.compare_eq.
Qed.
Global Instance Z_compare_order : TotalOrder Z.compare.
Proof.
  split; [split|].
  - intros x y. apply Z.compare_antisym.
  - intros x y z. rewrite !Z.compare_ngt_iff. lia.
  - intros x y. apply Z.compare_eq.
Qed.
Global Instance comparator_flip {A} (cmp : A → A → comparison) : Comparator cmp → Comparator (λ x y, cmp y x).
Proof. intros [H1 H2]. split; [intros; apply H1|intros x y z Hx Hy; by eapply H2]. Qed.

Lemma ascii_compare_N a b : Ascii.compare a b = N.compare (N_of_ascii a) (N_of_ascii b).
Proof. done. Qed.
Global Instance string_compare_order : TotalOrder String.compare.
Proof.
  split; [split|].
  - intros x y. rewrite (String.compare_antisym y x). done.
  - intros x. induction x as [|a x IH]; intros [|b y] [|c z]; cbn [String.compare]; try done.
    rewrite !ascii_compare_N.
    destruct (N.compare_spec (N_of_ascii a) (N_of_ascii b)) as [Hab|Hab|Hab],
      (N.compare_spec (N_of_ascii b) (N_of_ascii c)) as [Hbc|Hbc|Hbc], 
      (N.compare_spec (N_of_ascii a) (N_of_ascii c)) as [Hac|Hac|Hac]; try done; try lia. apply IH.
  - intros x y. apply String.compare_eq_iff.
Qed.

(** ** [sort_by] *)

Section Sort.
Context {A} (cmp : A → A → comparison).

Fixpoint insert_by (x : A) (l : list A) : list A :=
  match l with
  | [] => [x]
  | y :: l' => match cmp x y with Gt => y :: insert_by x l' | _ => x :: l end
  end.
Definition sort_by (l : list A) : list A := foldr insert_by [] l.

Lemma insert_by_perm x l : insert_by x l ≡ₚ x :: l.
Proof.
  induction l as [|y l IH]; [done|]. cbn. destruct (cmp x y); [done..|].
  rewrite IH. constructor.
Qed.
Lemma sort_by_perm l : sort_by l ≡ₚ l.
Proof. induction l as [|x l IH]; [done|]. cbn. by rewrite insert_by_perm, IH. Qed.

Lemma length_sort_by l : length (sort_by l) = length l.
Proof. apply Permutation_length, sort_by_perm. Qed.

Context `{!Comparator cmp}.

Lemma sort_by_sorted l : StronglySorted (cmp_le cmp) (sort_by l).
Proof.
  induction l as [|x l IH]; [constructor|]. cbn. change (foldr insert_by [] l) with (sort_by l).
  revert IH. generalize (sort_by l) as k. induction k as [|y k IHk]; intros Hs; [repeat constructor|].
  apply StronglySorted_cons in Hs as [Hy Hs]. cbn.
  destruct (cmp x y) eqn:E; [| |].
  1, 2: apply StronglySorted_cons; (split; [|by apply StronglySorted_cons]);
    assert (Hxy : cmp_le cmp x y) by (unfold cmp_le; by rewrite E);
    constructor; [done|]; eapply Forall_impl; [exact Hy|]; intros z Hz; by apply (cmp_trans cmp _ y).
  apply StronglySorted_cons. split; [|by apply IHk]. rewrite insert_by_perm. constructor; [|done].
  unfold cmp_le. by rewrite (cmp_opp cmp x y), E.
Qed.

(** A list has one sorted form, if only equal elements compare equal in it. *)
Lemma sort_by_unique l k :
  (∀ x y, x ∈ l → y ∈ l → cmp x y = Eq → x = y) → l ≡ₚ k → StronglySorted (cmp_le cmp) k → sort_by l = k.
Proof.
  intros Heq Hp Hk. apply (StronglySorted_unique_strong (cmp_le cmp)); [|apply sort_by_sorted|done|].
  - intros x y Hx Hy H1 H2. rewrite sort_by_perm in Hx. rewrite <- Hp in Hy.
    apply Heq; [done..|]. by apply (cmp_both cmp).
  - by rewrite sort_by_perm.
Qed.
Lemma sort_by_proper l k :
  (∀ x y, x ∈ l → y ∈ l → cmp x y = Eq → x = y) → l ≡ₚ k → sort_by l = sort_by k.
Proof.
  intros Heq Hp. apply sort_by_unique; [done| |apply sort_by_sorted]. by rewrite sort_by_perm.
Qed.
End Sort.

(** ** Slices *)

Fixpoint take_while {A} (p : A → bool) (l : list A) : list A :=
  match l with x :: l' => if p x then x :: take_while p l' else [] | [] => [] end.
(** [partition_point] of a slice partitioned by [p], which is all the standard
    library specifies. *)
Definition partition_point {A} (p : A → bool) (l : list A) : nat := length (take_while p l).

Global Instance list_filter_perm {A} (p : A → bool) :
  Proper (Permutation ==> Permutation) (List.filter p).
Proof.
  intros l k H. induction H as [|x l k _ IH|x y l|l k m _ IH1 _ IH2]; cbn; [done| | |by rewrite IH1].
  - destruct (p x); [by rewrite IH|done].
  - destruct (p x), (p y); try done. constructor.
Qed.
Lemma elem_of_filter_bool {A} (p : A → bool) l x : x ∈ List.filter p l ↔ x ∈ l ∧ p x = true.
Proof. by rewrite !list_elem_of_In, filter_In. Qed.
Lemma filter_true {A} (p : A → bool) l : Forall (λ x, p x = true) l → List.filter p l = l.
Proof. induction 1 as [|x l Hx _ IH]; cbn; [done|]. by rewrite Hx, IH. Qed.
Lemma filter_false {A} (p : A → bool) l : Forall (λ x, p x = false) l → List.filter p l = [].
Proof. induction 1 as [|x l Hx _ IH]; cbn; [done|]. by rewrite Hx. Qed.
Lemma take_while_map {A B} (f : A → B) p l : take_while p (map f l) = map f (take_while (λ x, p (f x)) l).
Proof. induction l as [|x l IH]; cbn; [done|]. destruct (p (f x)); cbn; by rewrite ?IH. Qed.
Lemma take_while_prefix {A} (p : A → bool) l :
  ∃ r, l = take_while p l ++ r ∧ Forall (λ x, p x = true) (take_while p l)
       ∧ match r with x :: _ => p x = false | [] => True end.
Proof.
  induction l as [|x l (r & E & Ht & Hr)]; cbn; [by exists []|]. destruct (p x) eqn:Ex.
  - exists r. cbn. split_and!; [by f_equal|by constructor|done].
  - by exists (x :: l).
Qed.

(** What stands before an element of a mapped list comes from what stands
    before its source. *)
Lemma omap_split {A B} (f : A → option B) l : ∀ b y a, omap f l = b ++ y :: a →
  ∃ l1 x l2, l = l1 ++ x :: l2 ∧ f x = Some y ∧ omap f l1 = b.
Proof.
  induction l as [|n l IH]; intros b y a; cbn; [by destruct b|].
  destruct (f n) as [x|] eqn:En.
  - destruct b as [|z b]; intros [= -> E]; [by exists [], n, l|].
    destruct (IH b y a E) as (l1 & n' & l2 & -> & ? & <-). exists (n :: l1), n', l2. cbn. by rewrite En.
  - intros E. destruct (IH b y a E) as (l1 & n' & l2 & -> & ? & <-).
    exists (n :: l1), n', l2. cbn. by rewrite En.
Qed.

(** ** Strings that start with a prefix *)

Lemma starts_with_cons a p b s : starts_with (String a p) (String b s) = Ascii.eqb a b && starts_with p s.
Proof.
  unfold starts_with. cbn [strip_prefix]. by destruct (Ascii.eqb a b).
Qed.

(** They are at least the prefix, and no other string lies between two. *)
Lemma prefix_le p s : starts_with p s = true → cmp_le String.compare p s.
Proof.
  revert s. induction p as [|a p IH]; intros [|b s]; unfold cmp_le in *; try done.
  rewrite starts_with_cons. intros [->%Ascii.eqb_eq Hs]%andb_true_iff.
  cbn [String.compare]. rewrite ascii_compare_N, N.compare_refl. by apply IH.
Qed.
Lemma prefix_convex p s t : cmp_le String.compare p s → starts_with p s = false →
  cmp_le String.compare s t → starts_with p t = false.
Proof.
  revert s t. induction p as [|a p IH]; intros [|b s] [|c t]; unfold cmp_le in *; try done.
  rewrite !starts_with_cons. cbn [String.compare]. rewrite !ascii_compare_N.
  destruct (Ascii.eqb_spec a b) as [->|Hab]; cbn [andb].
  - rewrite N.compare_refl. intros Hp Hn.
    destruct (Ascii.eqb_spec b c) as [->|]; [|done]. rewrite N.compare_refl. cbn [andb]. by apply IH.
  - intros Hp _ Hs. destruct (Ascii.eqb_spec a c) as [->|]; [|done]. exfalso.
    destruct (N.compare_spec (N_of_ascii c) (N_of_ascii b)) as [E|Hlt|]; [|rewrite (proj2 (N.compare_gt_iff _ _) Hlt) in Hs; done|done].
    apply Hab. by rewrite <- (ascii_N_embedding c), <- (ascii_N_embedding b), E.
Qed.

Definition str_lt (s t : string) : bool := match String.compare s t with Lt => true | _ => false end.
Definition key_sorted {A} (key : A → string) : list A → Prop :=
  StronglySorted (λ x y, cmp_le String.compare (key x) (key y)).

(** A binary search for the first string from the prefix on, then a scan while
    the prefix lasts, finds all that start with it. *)
Lemma prefix_range {A} (key : A → string) p l : key_sorted key l →
  let start := partition_point (λ s, str_lt s p) (map key l) in
  take (length (take_while (starts_with p) (drop start (map key l)))) (drop start l)
  = List.filter (λ x, starts_with p (key x)) l.
Proof.
  intros Hs start. subst start. unfold partition_point. rewrite take_while_map, length_map.
  destruct (take_while_prefix (λ x, str_lt (key x) p) l) as (r & E & Hlt & Hr).
  set (before := take_while _ l) in *. rewrite E in Hs |- *. clearbody before. clear E l.
  rewrite map_app, drop_app_length' by (by rewrite length_map). rewrite drop_app_length.
  rewrite take_while_map, length_map, List.filter_app, filter_false; [|].
  2: { eapply Forall_impl; [exact Hlt|]. intros x Hx. cbn in Hx. unfold str_lt in Hx.
       destruct (starts_with p (key x)) eqn:Ep; [|done]. apply prefix_le in Ep.
       unfold cmp_le in Ep. rewrite (cmp_opp String.compare (key x) p) in Ep.
       by destruct (String.compare (key x) p). }
  cbn [app]. apply StronglySorted_app_1_r in Hs.
  destruct (take_while_prefix (λ x, starts_with p (key x)) r) as (q & E & Hp & Hq).
  set (hits := take_while _ r) in *. rewrite E in Hs, Hr |- *. clearbody hits. clear E r.
  rewrite take_app_length, List.filter_app, filter_true by done.
  rewrite filter_false; [by rewrite app_nil_r|].
  destruct q as [|x q]; [constructor|].
  assert (Hpx : cmp_le String.compare p (key x)).
  { apply StronglySorted_app in Hs as (Hle & _ & _).
    destruct hits as [|h hits].
    - cbn in Hr. unfold str_lt in Hr. unfold cmp_le. rewrite (cmp_opp String.compare (key x) p).
      by destruct (String.compare (key x) p).
    - apply (cmp_trans String.compare _ (key h)); [|apply Hle; set_solver].
      apply Forall_cons in Hp as [Hp _]. by apply prefix_le. }
  apply StronglySorted_app_1_r, StronglySorted_cons in Hs as [Hx _].
  constructor; [done|]. eapply Forall_impl; [exact Hx|]. intros y Hy. by apply (prefix_convex p (key x)).
Qed.
