(* ===== verification/Paths.v ===== *)
(** * Unix paths ([std::path])

    The parts of [Path] and [PathBuf] the sources use, on UTF-8 paths with
    Unix separators, and what keeps a joined path below its base. *)
From Stdlib Require Import Ascii.
From S2P Require Import Prelude RustStd.

(** ** Operations *)

(** [Path::join] on Unix: an absolute argument replaces the base. *)
Definition path_join (a b : string) : string :=
  if starts_with "/" b then b
  else if bool_decide (a = "") || ends_with "/" a then a +:+ b
  else a +:+ "/" +:+ b.

(** [Path::file_name] and [Path::file_stem] on Unix. *)
Definition file_name (p : string) : option string :=
  let comps := List.filter (λ c, negb (bool_decide (c = "") || bool_decide (c = ".")))
                 (split_char "/" p) in
  match last comps with
  | Some c => if bool_decide (c = "..") then None else Some c
  | None => None
  end.
Definition file_stem (p : string) : option string :=
  n ← file_name p;
  match rsplit_once "." n with
  | None => Some n
  | Some (before, _) => if bool_decide (before = "") then Some n else Some before
  end.

(** [PathBuf] equality compares components: repeated and trailing slashes and
    inner [.] components do not count. *)
Definition path_components (p : string) : list string :=
  (if starts_with "/" p then ["/"]
   else match split_char "/" p with s :: _ => if bool_decide (s = ".") then ["."] else [] | [] => [] end)
  ++ List.filter (λ s, negb (bool_decide (s = "")) && negb (bool_decide (s = "."))) (split_char "/" p).
Definition path_eq (p q : string) : bool := bool_decide (path_components p = path_components q).

(** [Path::starts_with]: component by component. *)
Fixpoint is_prefix (q p : list string) : bool :=
  match q, p with
  | [], _ => true
  | x :: q', y :: p' => bool_decide (x = y) && is_prefix q' p'
  | _ :: _, [] => false
  end.
Definition path_starts_with (p base : string) : bool := is_prefix (path_components base) (path_components p).
Definition is_absolute (p : string) : bool := starts_with "/" p.

(** The path with given components, as pushing them one by one builds it. *)
Definition path_render (cs : list string) : string :=
  match cs with
  | c :: l => if bool_decide (c = "/") then "/" +:+ str_join "/" l else str_join "/" cs
  | [] => ""
  end.
(** [Path::parent]: none for the root and the empty path. *)
Definition path_parent (p : string) : option string :=
  match rev (path_components p) with
  | [] => None
  | c :: r => if bool_decide (c = "/") then None else Some (path_render (rev r))
  end.

(** [Path::extension] of a file name. *)
Definition extension (name : string) : option string :=
  match rsplit_once "." name with
  | Some (stem, ext) => if bool_decide (stem = "") then None else Some ext
  | None => None
  end.

(** ** Paths without [..] *)

(** No component of the path is [..]. *)
Definition no_dotdot (s : string) : Prop := Forall (λ c, c ≠ "..") (split_char "/" s).
Definition safe_dir (d : string) : Prop := starts_with "/" d = false ∧ no_dotdot d.

Lemma split_char_ne c s : split_char c s ≠ [].
Proof. destruct s; cbn; [done|]. by repeat case_match. Qed.

Lemma split_char_sep c s t : split_char c (s +:+ String c t) = split_char c s ++ split_char c t.
Proof.
  induction s as [|a s IH]; cbn [String.append split_char].
  - by rewrite Ascii.eqb_refl.
  - rewrite IH. destruct (Ascii.eqb a c); [done|].
    pose proof (split_char_ne c s). by destruct (split_char c s).
Qed.

Lemma split_char_none c s : contains_char c s = false → split_char c s = [s].
Proof.
  induction s as [|a s IH]; cbn; [done|]. intros [H1 H2]%orb_false_elim.
  by rewrite H1, IH.
Qed.

Lemma no_dotdot_sep s t : no_dotdot (s +:+ "/" +:+ t) ↔ no_dotdot s ∧ no_dotdot t.
Proof. unfold no_dotdot. cbn [String.append]. rewrite split_char_sep. apply Forall_app. Qed.

Lemma ends_with_Some p s : ends_with p s = true → ∃ r, s = r +:+ p.
Proof.
  unfold ends_with. rewrite bool_decide_eq_true. intros [r Hr]. exists r.
  by apply strip_suffix_Some.
Qed.

Lemma str_app_snoc_inv (s t : string) c x y :
  s +:+ String x "" = t +:+ String y c → c = "" → s = t ∧ x = y.
Proof.
  intros H ->. apply (f_equal str_rev) in H. rewrite !str_rev_app in H. cbn in H.
  injection H as -> H. apply (f_equal str_rev) in H. by rewrite !str_rev_involutive in H.
Qed.

Lemma ends_with_char_app c s t : t ≠ "" →
  ends_with (String c "") (s +:+ t) = true → ends_with (String c "") t = true.
Proof.
  intros Ht [r Hr]%ends_with_Some.
  destruct (str_rev t) as [|a t'] eqn:E.
  { destruct Ht. by rewrite <- (str_rev_involutive t), E. }
  assert (t = str_rev t' +:+ String a "") as ->.
  { rewrite <- (str_rev_involutive t), E. done. }
  rewrite <- str_app_assoc in Hr. apply str_app_snoc_inv in Hr as [_ ->]; [|done].
  unfold ends_with. rewrite strip_suffix_app. by apply bool_decide_eq_true_2.
Qed.

(** Joining a safe relative path adds a suffix without [..] components. *)
Lemma path_join_safe a b :
  starts_with "/" b = false → no_dotdot b →
  ∃ sep, path_join a b = a +:+ sep +:+ b ∧ (sep = "" ∨ sep = "/")
    ∧ no_dotdot (sep +:+ b) ∧ (sep = "" → a = "" ∨ ends_with "/" a = true).
Proof.
  intros Hb Hn. unfold path_join. rewrite Hb.
  destruct (bool_decide (a = "") || ends_with "/" a) eqn:E.
  - exists "". repeat split; auto. intros _. apply orb_prop in E as [E|E]; [left|auto].
    by apply bool_decide_eq_true in E.
  - exists "/". repeat split; auto; [|done]. apply (no_dotdot_sep "" b). by split; [repeat constructor|].
Qed.

(** A safe directory followed directly by a name, when it ends the path or a
    component. *)
Lemma no_dotdot_join d n :
  no_dotdot d → no_dotdot n → d = "" ∨ ends_with "/" d = true → no_dotdot (d +:+ n).
Proof.
  intros Hd Hn [->|[r ->]%ends_with_Some]; [done|]. rewrite str_app_assoc.
  apply no_dotdot_sep. split; [|done]. by apply (no_dotdot_sep r "").
Qed.

Lemma starts_with_slash_contains s : contains_char "/" s = false → starts_with "/" s = false.
Proof.
  intros H. destruct (starts_with "/" s) eqn:E; [|done].
  apply starts_with_spec in E as [r ->]. done.
Qed.

(** ** Components *)

(** A [Component::Normal], or [..]. *)
Definition plain_part (c : string) : Prop := c ≠ "" ∧ c ≠ "." ∧ contains_char "/" c = false.

Lemma split_char_pieces c s : Forall (λ w, contains_char c w = false) (split_char c s).
Proof.
  induction s as [|a s IH]; cbn [split_char]; [repeat constructor|].
  destruct (Ascii.eqb a c) eqn:E; [by constructor|].
  pose proof (split_char_ne c s). destruct (split_char c s) as [|w ws]; [done|].
  inversion IH; subst. constructor; [|done]. cbn [contains_char]. by rewrite E.
Qed.

Lemma split_join l : l ≠ [] → Forall (λ w, contains_char "/" w = false) l →
  split_char "/" (str_join "/" l) = l.
Proof.
  induction l as [|w l IH]; [done|]. intros _ Hl. inversion Hl as [|? ? Hw Hl']; subst.
  destruct l as [|v l]; [by apply split_char_none|].
  change (str_join "/" (w :: v :: l)) with (w +:+ String "/" (str_join "/" (v :: l))).
  rewrite split_char_sep, split_char_none by done. by rewrite IH.
Qed.

Lemma plain_filter l : Forall plain_part l →
  List.filter (λ s, negb (bool_decide (s = "")) && negb (bool_decide (s = "."))) l = l.
Proof.
  induction 1 as [|c l (H1 & H2 & _) _ IH]; [done|]. cbn [List.filter].
  rewrite !bool_decide_eq_false_2 by done. cbn [negb andb]. by rewrite IH.
Qed.
Lemma plain_slash l : Forall plain_part l → Forall (λ w, contains_char "/" w = false) l.
Proof. intros H. eapply Forall_impl; [exact H|]. by intros ? (_ & _ & ?). Qed.

Lemma plain_not_root c : plain_part c → c ≠ "/".
Proof. by intros (_ & _ & H) ->. Qed.

Lemma components_join l : Forall plain_part l → path_components (str_join "/" l) = l.
Proof.
  intros Hl. destruct l as [|c l]; [done|]. unfold path_components.
  rewrite split_join by (done || by apply plain_slash). rewrite plain_filter by done.
  inversion Hl as [|? ? (Hc & Hd & Hs) _]; subst.
  assert (starts_with "/" (str_join "/" (c :: l)) = false) as ->.
  { destruct c as [|a c]; [done|]. cbn in Hs. apply orb_false_elim in Hs as [Ha _].
    assert (∃ t, str_join "/" (String a c :: l) = String a t) as [t ->]
      by (destruct l; eexists; reflexivity).
    apply bool_decide_eq_false_2. cbn [strip_prefix]. rewrite Ascii.eqb_sym, Ha. by intros [? ?]. }
  by rewrite bool_decide_eq_false_2.
Qed.
Lemma components_root_join l : Forall plain_part l → path_components ("/" +:+ str_join "/" l) = "/" :: l.
Proof.
  intros Hl. unfold path_components. change (starts_with "/" ("/" +:+ str_join "/" l)) with true. cbn [app].
  f_equal. change ("/" +:+ str_join "/" l) with (String "/" (str_join "/" l)).
  change (split_char "/" (String "/" (str_join "/" l))) with ("" :: split_char "/" (str_join "/" l)).
  cbn [List.filter]. change (bool_decide ("" = "")) with true. cbn [negb andb].
  destruct l as [|c l]; [done|]. rewrite split_join by (done || by apply plain_slash). by apply plain_filter.
Qed.

(** A component list as a path has it: an optional root, then parts. *)
Definition rooted (cs : list string) : Prop :=
  ∃ l, Forall plain_part l ∧ (cs = l ∨ cs = "/" :: l).
Lemma components_render cs : rooted cs → path_components (path_render cs) = cs.
Proof.
  intros (l & Hl & [->| ->]).
  - destruct l as [|c l]; [done|]. inversion Hl; subst. cbn [path_render].
    rewrite bool_decide_eq_false_2 by by apply plain_not_root. by apply components_join.
  - cbn [path_render]. rewrite bool_decide_eq_true_2 by done. by apply components_root_join.
Qed.

(** The components of any path: an optional [/] or [.] first, then parts. *)
Lemma components_shape p : ∃ l, Forall plain_part l
  ∧ (path_components p = l ∨ path_components p = "/" :: l ∨ path_components p = "." :: l).
Proof.
  set (l := List.filter (λ s, negb (bool_decide (s = "")) && negb (bool_decide (s = "."))) (split_char "/" p)).
  assert (Hl : Forall plain_part l).
  { apply Forall_forall. intros c Hc. apply list_elem_of_In, filter_In in Hc as [Hc Hp].
    apply list_elem_of_In in Hc. rewrite andb_true_iff, !negb_true_iff, !bool_decide_eq_false in Hp.
    pose proof (proj1 (Forall_forall _ _) (split_char_pieces "/" p) c Hc). by destruct Hp. }
  exists l. split; [done|]. unfold path_components. fold l. destruct (starts_with "/" p); [by auto|].
  destruct (split_char "/" p) as [|s ss]; [by left|]. case_bool_decide; auto.
Qed.

(** ** Joining and parents *)

Lemma join_split c s : str_join (String c "") (split_char c s) = s.
Proof.
  induction s as [|a s IH]; [done|]. cbn [split_char].
  pose proof (split_char_ne c s) as Hn.
  destruct (Ascii.eqb_spec a c) as [->|Hne]; destruct (split_char c s) as [|w ws]; try done.
  - change (str_join (String c "") ("" :: w :: ws)) with (String c (str_join (String c "") (w :: ws))).
    by rewrite IH.
  - destruct ws as [|v ws]; cbn [str_join] in *; by rewrite <-IH.
Qed.

Lemma str_join_snoc sep l x t : str_join sep (l ++ [x]) +:+ t = str_join sep (l ++ [x +:+ t]).
Proof.
  induction l as [|y l IH]; [done|]. cbn [app].
  assert (∀ z, str_join sep (y :: l ++ [z]) = y +:+ sep +:+ str_join sep (l ++ [z])) as E
    by (intros z; by destruct l).
  rewrite !E, <-IH. by rewrite !str_app_assoc.
Qed.

(** The part of a path's components that only its start decides. *)
Definition path_start (p : string) : list string :=
  if starts_with "/" p then ["/"]
  else match split_char "/" p with s :: _ => if bool_decide (s = ".") then ["."] else [] | [] => [] end.
Definition path_parts (l : list string) : list string :=
  List.filter (λ s, negb (bool_decide (s = "")) && negb (bool_decide (s = "."))) l.

Lemma components_split p : path_components p = path_start p ++ path_parts (split_char "/" p).
Proof. done. Qed.

Lemma path_start_app a b : a ≠ "" → path_start (a +:+ String "/" b) = path_start a.
Proof.
  intros Ha. unfold path_start. rewrite split_char_sep.
  destruct a as [|x a]; [done|]. change (String x a +:+ String "/" b) with (String x (a +:+ String "/" b)).
  assert (starts_with "/" (String x (a +:+ String "/" b)) = starts_with "/" (String x a)) as ->.
  { unfold starts_with. cbn [strip_prefix]. by destruct (Ascii.eqb _ _). }
  pose proof (split_char_ne "/" (String x a)). by destruct (split_char "/" (String x a)).
Qed.

(** Joining a relative path of plain parts appends them. *)
Lemma components_path_join a l : l ≠ [] → Forall plain_part l →
  path_components (path_join a (str_join "/" l)) = path_components a ++ l.
Proof.
  intros Hl Hp. pose proof (components_join l Hp) as C.
  assert (Hs : starts_with "/" (str_join "/" l) = false).
  { destruct (starts_with "/" (str_join "/" l)) eqn:E; [|done].
    unfold path_components in C. rewrite E in C. destruct l as [|c l]; [done|]. simpl in C.
    injection C as <- _. inversion Hp; subst. by destruct (plain_not_root "/"). }
  assert (Hparts : path_parts (split_char "/" (str_join "/" l)) = l).
  { rewrite split_join; [by apply plain_filter | done | by apply plain_slash]. }
  assert (K : ∀ a', a' ≠ "" → path_components (a' +:+ String "/" (str_join "/" l)) = path_components a' ++ l).
  { intros a' Ha. rewrite !components_split, path_start_app, split_char_sep by done.
    unfold path_parts. rewrite List.filter_app. fold (path_parts (split_char "/" (str_join "/" l))).
    by rewrite Hparts, app_assoc. }
  unfold path_join. rewrite Hs. case_bool_decide as Ha.
  { subst a. simpl. change (path_components "") with (@nil string). by rewrite C. }
  destruct (ends_with "/" a) eqn:Ee; simpl; [|by apply K].
  apply ends_with_Some in Ee as [r ->]. rewrite str_app_assoc.
  destruct (decide (r = "")) as [->|Hr].
  - change ("" +:+ "/" +:+ str_join "/" l) with ("/" +:+ str_join "/" l).
    rewrite components_root_join by done. done.
  - change ("/" +:+ str_join "/" l) with (String "/" (str_join "/" l)). rewrite K by done.
    f_equal. rewrite !components_split. change (r +:+ "/") with (r +:+ String "/" "").
    rewrite path_start_app, split_char_sep by done. unfold path_parts. rewrite List.filter_app.
    simpl. by rewrite app_nil_r.
Qed.

Lemma components_render_dot l : Forall plain_part l → path_components (path_render ("." :: l)) = "." :: l.
Proof.
  intros Hl. unfold path_render. rewrite bool_decide_eq_false_2 by done.
  destruct l as [|c l]; [done|].
  change (str_join "/" ("." :: c :: l)) with ("." +:+ String "/" (str_join "/" (c :: l))).
  rewrite components_split, path_start_app, split_char_sep by done.
  unfold path_parts. rewrite List.filter_app. fold (path_parts (split_char "/" (str_join "/" (c :: l)))).
  rewrite split_join by (done || by apply plain_slash). unfold path_parts. rewrite (plain_filter (c :: l) Hl). reflexivity.
Qed.

Lemma components_parent p d : path_parent p = Some d → ∃ c, path_components p = path_components d ++ [c].
Proof.
  unfold path_parent. destruct (rev (path_components p)) as [|c r] eqn:E; [done|].
  case_bool_decide as Hc; [done|]. intros [= <-]. exists c.
  apply (f_equal (@rev string)) in E. rewrite rev_involutive in E. cbn [rev] in E. rewrite E.
  f_equal. destruct (components_shape p) as (l & Hl & Hp). rewrite E in Hp. symmetry.
  destruct Hp as [Hp|[Hp|Hp]].
  - apply components_render. exists (rev r). split; [|by left].
    subst l. by apply Forall_app in Hl as [? _].
  - apply components_render. destruct (rev r) as [|x r'] eqn:Er; cbn [app] in Hp.
    { injection Hp as ->. done. }
    injection Hp as -> <-. exists r'. split; [by apply Forall_app in Hl as [? _] | by right].
  - destruct (rev r) as [|x r'] eqn:Er; cbn [app] in Hp; [done|].
    injection Hp as -> <-. apply components_render_dot. by apply Forall_app in Hl as [? _].
Qed.

Lemma file_name_last p n : file_name p = Some n → last (path_components p) = Some n ∧ n ≠ "..".
Proof.
  unfold file_name. rewrite components_split. intros E.
  assert (F : List.filter (λ c, negb (bool_decide (c = "") || bool_decide (c = "."))) (split_char "/" p)
    = path_parts (split_char "/" p)).
  { unfold path_parts. apply List.filter_ext. intros c. by rewrite negb_orb. }
  rewrite F in E. rewrite last_app.
  destruct (last (path_parts (split_char "/" p))) as [c|]; [|done].
  case_bool_decide; [done|]. by injection E as <-.
Qed.

(** Components below a directory name one file. *)
Lemma components_snoc_parent p d c n :
  path_components p = path_components d ++ [c] → last (path_components p) = Some n → c = n.
Proof. intros ->. rewrite last_snoc. by intros [= ->]. Qed.
