(* ===== verification/JdwpCommands.v ===== *)
(** * JDWP wire numbers ([crates/debug/src/jdwp/commands.rs])

    Command sets, commands, event kinds, modifier kinds, suspend policies,
    step sizes and depths, error codes and value tags; one module per source
    module. *)
From S2P Require Import Prelude.

Module virtual_machine.
Definition SET := 1.
Definition VERSION := 1.
Definition CLASSES_BY_SIGNATURE := 2.
Definition ALL_CLASSES := 3.
Definition ALL_THREADS := 4.
Definition DISPOSE := 6.
Definition ID_SIZES := 7.
Definition SUSPEND := 8.
Definition RESUME := 9.
Definition EXIT := 10.
End virtual_machine.

Module reference_type.
Definition SET := 2.
Definition SIGNATURE := 1.
Definition FIELDS := 4.
Definition METHODS := 5.
Definition SOURCE_FILE := 7.
End reference_type.

Module class_type.
Definition SET := 3.
Definition SUPERCLASS := 1.
End class_type.

Module method.
Definition SET := 6.
Definition LINE_TABLE := 1.
Definition VARIABLE_TABLE := 2.
End method.

Module object_reference.
Definition SET := 9.
Definition REFERENCE_TYPE := 1.
Definition GET_VALUES := 2.
End object_reference.

Module string_reference.
Definition SET := 10.
Definition VALUE := 1.
End string_reference.

Module thread_reference.
Definition SET := 11.
Definition NAME := 1.
Definition FRAMES := 6.
Definition FRAME_COUNT := 7.
End thread_reference.

Module array_reference.
Definition SET := 13.
Definition LENGTH := 1.
Definition GET_VALUES := 2.
End array_reference.

Module event_request.
Definition SET := 15.
Definition CMD_SET := 1.
Definition CMD_CLEAR := 2.
End event_request.

Module stack_frame.
Definition SET := 16.
Definition GET_VALUES := 1.
Definition THIS_OBJECT := 3.
End stack_frame.

Module event.
Definition SET := 64.
Definition COMPOSITE := 100.
End event.

Module event_kind.
Definition SINGLE_STEP := 1.
Definition BREAKPOINT := 2.
Definition EXCEPTION := 4.
Definition CLASS_PREPARE := 8.
Definition VM_START := 90.
Definition VM_DEATH := 99.
End event_kind.

Module modifier.
Definition COUNT := 1.
Definition CLASS_MATCH := 5.
Definition LOCATION_ONLY := 7.
Definition EXCEPTION_ONLY := 8.
Definition STEP := 10.
End modifier.

Module suspend_policy.
Definition NONE := 0.
Definition ALL := 2.
End suspend_policy.

Module step.
Definition SIZE_LINE := 1.
Definition DEPTH_INTO := 0.
Definition DEPTH_OVER := 1.
Definition DEPTH_OUT := 2.
End step.

Module error.
Definition ABSENT_INFORMATION := 101.
End error.

(** Value tags: the ASCII code of the JNI signature character. *)
Module tag.
Definition ARRAY := 91.
Definition BYTE := 66.
Definition CHAR := 67.
Definition OBJECT := 76.
Definition FLOAT := 70.
Definition DOUBLE := 68.
Definition INT := 73.
Definition LONG := 74.
Definition SHORT := 83.
Definition VOID := 86.
Definition BOOLEAN := 90.
Definition STRING := 115.
Definition THREAD := 116.
Definition THREAD_GROUP := 103.
Definition CLASS_LOADER := 108.
Definition CLASS_OBJECT := 99.
End tag.
