(* ===== verification/JdwpCodec.v ===== *)
(** * The JDWP wire codec ([crates/debug/src/jdwp/codec.rs])

    The bounds-checked big-endian [Reader] and the [Writer], ID-size aware
    identifiers, locations, values, and the parser of Composite event
    packets.  Everything the reader sees comes from the debuggee and is
    untrusted. *)
From S2P Require Import Prelude RustStd JdwpCommands.

Definition MAX_PACKET_LEN : Z := 16 * 1024 * 1024.
Definition MAX_STRING_LEN : Z := 64 * 1024.

Inductive DecodeError := mkDecodeError (msg : string).

Record IdSizes := mkIdSizes {
  field : Z;
  method : Z;
  object : Z;
  reference_type : Z;
  frame : Z;
}.

Definition IdSizes_valid (s : IdSizes) : bool :=
  forallb (in_range 1 8) [field s; method s; object s; reference_type s; frame s].

Record Location := mkLocation {
  type_tag : Z;
  class_id : Z;
  method_id : Z;
  index : Z;
}.

(** [f32]/[f64] are kept as the bit patterns [from_bits] receives. *)
Inductive Value :=
| VVoid
| VBoolean (b : bool)
| VByte (v : Z)
| VChar (v : Z)
| VShort (v : Z)
| VInt (v : Z)
| VLong (v : Z)
| VFloat (bits : Z)
| VDouble (bits : Z)
| VObject (tag : Z) (id : Z).

Global Instance IdSizes_eq_dec : EqDecision IdSizes.
Proof. solve_decision. Defined.
Global Instance Location_eq_dec : EqDecision Location.
Proof. solve_decision. Defined.
Global Instance Value_eq_dec : EqDecision Value.
Proof. solve_decision. Defined.

(** ** Reader *)
Record Reader := mkReader { buf : list Z; pos : Z }.

Definition Reader_new (b : list Z) : Reader := mkReader b 0.
Definition remaining (r : Reader) : Z := Z.of_nat (length (buf r)) - pos r.

(** A decoding step: it advances the reader or fails. *)
Definition Dec (A : Type) : Type := Reader → Result DecodeError (A * Reader).
Global Instance Dec_ret : MRet Dec := λ A a r, Ok (a, r).
Global Instance Dec_bind : MBind Dec := λ A B f m r,
  match m r with Ok (a, r') => f a r' | Err e => Err e end.
Definition dec_fail {A} (msg : string) : Dec A := λ _, Err (mkDecodeError msg).
Definition run_dec {A} (d : Dec A) (payload : list Z) : Result DecodeError A :=
  fst <$> d (Reader_new payload).

Definition rd_take (n : Z) : Dec (list Z) := λ r,
  if remaining r <? n then
    Err (mkDecodeError ("truncated payload: wanted " +:+ pretty n +:+ " bytes, "
                        +:+ pretty (remaining r) +:+ " left"))
  else
    let slice := take (Z.to_nat n) (drop (Z.to_nat (pos r)) (buf r)) in
    Ok (slice, mkReader (buf r) (pos r + n)).

Definition rd_u8 : Dec Z := b ← rd_take 1; mret (byte_at b 0).
Definition rd_u16 : Dec Z := b ← rd_take 2; mret (from_be_bytes b).
Definition rd_u32 : Dec Z := b ← rd_take 4; mret (from_be_bytes b).
Definition rd_u64 : Dec Z := b ← rd_take 8; mret (from_be_bytes b).

(** [v = (v << 8) | u64::from(byte)] over the bytes, in 64 bits. *)
Definition id_loop (b : list Z) : Z :=
  fold_left (λ v byte, Z.lor (as_u64 (Z.shiftl v 8)) byte) b 0.
Definition rd_id (size : Z) : Dec Z := b ← rd_take size; mret (id_loop b).

Definition rd_string : Dec string :=
  len ← rd_u32;
  if MAX_STRING_LEN <? len then dec_fail ("structural string too long: " +:+ pretty len)
  else bytes ← rd_take len; mret (from_utf8_lossy bytes).

Definition rd_value_string : Dec string :=
  len ← rd_u32;
  let keep := Z.min len MAX_STRING_LEN in
  bytes ← rd_take keep;
  let s := from_utf8_lossy bytes in
  if keep <? len then _ ← rd_take (len - keep); mret s else mret s.

Definition rd_location (sizes : IdSizes) : Dec Location :=
  ttag ← rd_u8;
  c ← rd_id (reference_type sizes);
  m ← rd_id (method sizes);
  i ← rd_u64;
  mret (mkLocation ttag c m i).

Definition is_object_tag (t : Z) : bool :=
  existsb (Z.eqb t)
    [tag.OBJECT; tag.STRING; tag.ARRAY; tag.THREAD; tag.THREAD_GROUP;
     tag.CLASS_LOADER; tag.CLASS_OBJECT].

Definition rd_untagged_value (t : Z) (sizes : IdSizes) : Dec Value :=
  if t =? tag.VOID then mret VVoid
  else if t =? tag.BOOLEAN then v ← rd_u8; mret (VBoolean (negb (v =? 0)))
  else if t =? tag.BYTE then v ← rd_u8; mret (VByte (as_i8 v))
  else if t =? tag.CHAR then v ← rd_u16; mret (VChar v)
  else if t =? tag.SHORT then v ← rd_u16; mret (VShort (as_i16 v))
  else if t =? tag.INT then v ← rd_u32; mret (VInt (as_i32 v))
  else if t =? tag.LONG then v ← rd_u64; mret (VLong (as_i64 v))
  else if t =? tag.FLOAT then v ← rd_u32; mret (VFloat v)
  else if t =? tag.DOUBLE then v ← rd_u64; mret (VDouble v)
  else if is_object_tag t then v ← rd_id (object sizes); mret (VObject t v)
  else dec_fail ("unknown value tag " +:+ pretty t).

Definition rd_tagged_value (sizes : IdSizes) : Dec Value :=
  t ← rd_u8; rd_untagged_value t sizes.

(** [for _ in 0..count { out.push(d?) }] *)
Fixpoint rd_repeat {A} (n : nat) (d : Dec A) : Dec (list A) :=
  match n with
  | O => mret []
  | S k => x ← d; xs ← rd_repeat k d; mret (x :: xs)
  end.
Definition rd_counted {A} (count : Z) (d : Dec A) : Dec (list A) :=
  rd_repeat (Z.to_nat count) d.

(** ** Writer: each method appends to the buffer it is given. *)
Definition Writer := list Z.
Definition Writer_new : Writer := [].
Definition wr_u8 (w : Writer) (v : Z) : Writer := w ++ [v].
Definition wr_u32 (w : Writer) (v : Z) : Writer := w ++ to_be_bytes 4 v.
Definition wr_u64 (w : Writer) (v : Z) : Writer := w ++ to_be_bytes 8 v.
(** [for i in (0..size).rev() { push((v >> (8 * i)) as u8) }] *)
Definition wr_id (w : Writer) (size : Z) (v : Z) : Writer :=
  w ++ to_be_bytes (Z.to_nat size) v.
Definition wr_string (w : Writer) (s : string) : Writer :=
  wr_u32 w (as_u32 (str_len s)) ++ as_bytes s.
Definition wr_location (w : Writer) (sizes : IdSizes) (loc : Location) : Writer :=
  let w := wr_u8 w (type_tag loc) in
  let w := wr_id w (reference_type sizes) (class_id loc) in
  let w := wr_id w (method sizes) (method_id loc) in
  wr_u64 w (index loc).

(** ** IDSizes *)
Definition IdSizes_debug (s : IdSizes) : string :=
  "IdSizes { field: " +:+ pretty (field s) +:+ ", method: " +:+ pretty (method s)
  +:+ ", object: " +:+ pretty (object s) +:+ ", reference_type: "
  +:+ pretty (reference_type s) +:+ ", frame: " +:+ pretty (frame s) +:+ " }".

Definition rd_id_sizes : Dec IdSizes :=
  f ← rd_u32; m ← rd_u32; o ← rd_u32; rt ← rd_u32; fr ← rd_u32;
  mret (mkIdSizes f m o rt fr).

Definition parse_id_sizes (payload : list Z) : Result DecodeError IdSizes :=
  sizes ← run_dec rd_id_sizes payload;
  if IdSizes_valid sizes then Ok sizes
  else Err (mkDecodeError ("implausible ID sizes: " +:+ IdSizes_debug sizes)).

(** ** Composite events *)
Inductive Event :=
| VmStart (request_id thread : Z)
| SingleStep (request_id thread : Z) (location : Location)
| Breakpoint (request_id thread : Z) (location : Location)
| Exception (request_id thread : Z) (location : Location) (exception : Z)
    (catch_location : option Location)
| ClassPrepare (request_id thread tag type_id : Z) (signature : string) (status : Z)
| VmDeath (request_id : Z).

Record EventSet := mkEventSet { suspend_policy_of : Z; events : list Event }.

Definition MAX_EVENTS_PER_COMPOSITE : Z := 1024.

(** One iteration of [parse_composite]'s loop. *)
Definition rd_event (sizes : IdSizes) : Dec Event :=
  kind ← rd_u8;
  request_id ← rd_u32;
  if kind =? event_kind.VM_START then
    th ← rd_id (object sizes); mret (VmStart request_id th)
  else if kind =? event_kind.SINGLE_STEP then
    th ← rd_id (object sizes); l ← rd_location sizes; mret (SingleStep request_id th l)
  else if kind =? event_kind.BREAKPOINT then
    th ← rd_id (object sizes); l ← rd_location sizes; mret (Breakpoint request_id th l)
  else if kind =? event_kind.EXCEPTION then
    th ← rd_id (object sizes);
    l ← rd_location sizes;
    _ ← rd_u8;
    exc ← rd_id (object sizes);
    catch ← rd_location sizes;
    mret (Exception request_id th l exc
            (if negb (class_id catch =? 0) then Some catch else None))
  else if kind =? event_kind.CLASS_PREPARE then
    th ← rd_id (object sizes);
    ttag ← rd_u8;
    ty ← rd_id (reference_type sizes);
    sig ← rd_string;
    st ← rd_u32;
    mret (ClassPrepare request_id th ttag ty sig st)
  else if kind =? event_kind.VM_DEATH then mret (VmDeath request_id)
  else dec_fail ("unknown event kind " +:+ pretty kind).

(** The body of [parse_composite] over its reader. *)
Definition rd_composite (sizes : IdSizes) : Dec EventSet :=
  policy ← rd_u8;
  count ← rd_u32;
  if MAX_EVENTS_PER_COMPOSITE <? count then
    dec_fail ("composite event count " +:+ pretty count)
  else
    evs ← rd_counted count (rd_event sizes);
    mret (mkEventSet policy evs).

Definition parse_composite (payload : list Z) (sizes : IdSizes) : Result DecodeError EventSet :=
  run_dec (rd_composite sizes) payload.

(** ** Specification: the wire format

    What the JDWP specification says the bytes of an event are; the parser is
    proved to invert it. *)
Definition enc_location (sizes : IdSizes) (l : Location) : list Z :=
  wr_location [] sizes l.
Definition null_location : Location := mkLocation 0 0 0 0.

Definition enc_event (sizes : IdSizes) (e : Event) : list Z :=
  match e with
  | VmStart r th =>
      [event_kind.VM_START] ++ to_be_bytes 4 r ++ wr_id [] (object sizes) th
  | SingleStep r th l =>
      [event_kind.SINGLE_STEP] ++ to_be_bytes 4 r ++ wr_id [] (object sizes) th
      ++ enc_location sizes l
  | Breakpoint r th l =>
      [event_kind.BREAKPOINT] ++ to_be_bytes 4 r ++ wr_id [] (object sizes) th
      ++ enc_location sizes l
  | Exception r th l exc catch =>
      [event_kind.EXCEPTION] ++ to_be_bytes 4 r ++ wr_id [] (object sizes) th
      ++ enc_location sizes l ++ [tag.OBJECT] ++ wr_id [] (object sizes) exc
      ++ enc_location sizes (default null_location catch)
  | ClassPrepare r th ttag ty sig st =>
      [event_kind.CLASS_PREPARE] ++ to_be_bytes 4 r ++ wr_id [] (object sizes) th
      ++ [ttag] ++ wr_id [] (reference_type sizes) ty ++ wr_string [] sig ++ to_be_bytes 4 st
  | VmDeath r => [event_kind.VM_DEATH] ++ to_be_bytes 4 r
  end.

Definition enc_composite (sizes : IdSizes) (s : EventSet) : list Z :=
  [suspend_policy_of s] ++ to_be_bytes 4 (Z.of_nat (length (events s)))
  ++ concat (enc_event sizes <$> events s).

(** Values that fit their wire fields. *)
Definition id_ok (size v : Z) : Prop := 0 ≤ v < 256 ^ size.
Definition loc_ok (sizes : IdSizes) (l : Location) : Prop :=
  is_byte (type_tag l) ∧ id_ok (reference_type sizes) (class_id l)
  ∧ id_ok (method sizes) (method_id l) ∧ is_u 64 (index l).
Definition str_ok (s : string) : Prop := is_str s ∧ str_len s ≤ MAX_STRING_LEN.
Definition event_ok (sizes : IdSizes) (e : Event) : Prop :=
  match e with
  | VmStart r th => is_u 32 r ∧ id_ok (object sizes) th
  | SingleStep r th l | Breakpoint r th l =>
      is_u 32 r ∧ id_ok (object sizes) th ∧ loc_ok sizes l
  | Exception r th l exc catch =>
      is_u 32 r ∧ id_ok (object sizes) th ∧ loc_ok sizes l ∧ id_ok (object sizes) exc
      ∧ match catch with Some c => loc_ok sizes c ∧ class_id c ≠ 0 | None => True end
  | ClassPrepare r th ttag ty sig st =>
      is_u 32 r ∧ id_ok (object sizes) th ∧ is_byte ttag ∧ id_ok (reference_type sizes) ty
      ∧ is_str sig ∧ is_u 32 st
  | VmDeath r => is_u 32 r
  end.
Definition event_sig_short (e : Event) : Prop :=
  match e with ClassPrepare _ _ _ _ sig _ => str_len sig ≤ MAX_STRING_LEN | _ => True end.

(** ** Lemmas: decoding what was encoded *)

(** [d] reads exactly [bs], wherever they are, and returns [a]. *)
Definition decodes {A} (d : Dec A) (bs : list Z) (a : A) : Prop :=
  ∀ pre post,
    let b := pre ++ bs ++ post in
    d (mkReader b (Z.of_nat (length pre)))
    = Ok (a, mkReader b (Z.of_nat (length pre) + Z.of_nat (length bs))).

Lemma decodes_ret {A} (a : A) : decodes (mret a) [] a.
Proof. intros pre post. cbn. by rewrite Z.add_0_r. Qed.

Lemma decodes_bind {A B} (d : Dec A) (f : A → Dec B) bs cs a b :
  decodes d bs a → decodes (f a) cs b → decodes (d ≫= f) (bs ++ cs) b.
Proof.
  intros Hd Hf pre post. unfold mbind, Dec_bind. cbn zeta.
  specialize (Hd pre (cs ++ post)). cbn zeta in Hd. rewrite <- app_assoc, Hd.
  specialize (Hf (pre ++ bs) post). cbn zeta in Hf.
  rewrite <- app_assoc, length_app, Nat2Z.inj_add in Hf. rewrite Hf.
  rewrite length_app. do 3 f_equal. lia.
Qed.

Lemma decodes_bind_ret {A B} (d : Dec A) (f : A → B) bs a :
  decodes d bs a → decodes (d ≫= λ x, mret (f x)) bs (f a).
Proof.
  intros. rewrite <- (app_nil_r bs). eapply decodes_bind; [done|apply decodes_ret].
Qed.

Lemma decodes_take bs : decodes (rd_take (Z.of_nat (length bs))) bs bs.
Proof.
  intros pre post. cbn zeta. unfold rd_take, remaining. cbn [buf pos].
  rewrite !length_app, !Nat2Z.inj_add.
  destruct (Z.ltb_spec (Z.of_nat (length pre) + (Z.of_nat (length bs) + Z.of_nat (length post))
                        - Z.of_nat (length pre)) (Z.of_nat (length bs))); [lia|].
  by rewrite !Nat2Z.id, drop_app_length, take_app_length.
Qed.

Lemma decodes_take_n n bs : Z.of_nat (length bs) = n → decodes (rd_take n) bs bs.
Proof. intros <-. apply decodes_take. Qed.

Lemma decodes_u8 v : decodes rd_u8 [v] v.
Proof. apply (decodes_bind_ret (rd_take 1) (λ b, byte_at b 0) [v] [v]). by apply decodes_take_n. Qed.

Lemma decodes_be n v : 0 ≤ v < 256 ^ Z.of_nat n →
  decodes (b ← rd_take (Z.of_nat n); mret (from_be_bytes b)) (to_be_bytes n v) v.
Proof.
  intros Hv. rewrite <- (from_to_be_bytes_small n v Hv) at 2.
  apply (decodes_bind_ret _ from_be_bytes). apply decodes_take_n.
  by rewrite length_to_be_bytes.
Qed.

Lemma decodes_u16 v : is_u 16 v → decodes rd_u16 (to_be_bytes 2 v) v.
Proof. apply (decodes_be 2). Qed.
Lemma decodes_u32 v : is_u 32 v → decodes rd_u32 (to_be_bytes 4 v) v.
Proof. apply (decodes_be 4). Qed.
Lemma decodes_u64 v : is_u 64 v → decodes rd_u64 (to_be_bytes 8 v) v.
Proof. apply (decodes_be 8). Qed.

(** The shift-or loop reads the low 64 bits of the big-endian number. *)
Lemma lor_shiftl_byte v b : is_byte b → Z.lor (Z.shiftl v 8) b = v * 256 + b.
Proof.
  intros Hb. rewrite Z.shiftl_mul_pow2 by lia. change (2 ^ 8) with 256.
  symmetry. apply Z.add_nocarry_lor. apply Z.bits_inj'. intros n Hn.
  rewrite Z.land_spec, Z.bits_0. change 256 with (2 ^ 8).
  destruct (Z.lt_ge_cases n 8).
  - by rewrite Z.mul_pow2_bits_low.
  - destruct (decide (b = 0)) as [->|]; [by rewrite Z.bits_0, andb_false_r|].
    rewrite (Z.bits_above_log2 b n); [by rewrite andb_false_r|unfold is_byte in Hb; lia|].
    apply Z.log2_lt_pow2; [unfold is_byte in Hb; lia|].
    apply Z.lt_le_trans with (2 ^ 8); [apply Hb|]. apply Z.pow_le_mono_r; lia.
Qed.

Lemma id_loop_spec b : Forall is_byte b → id_loop b = from_be_bytes b mod 2 ^ 64.
Proof.
  unfold id_loop. induction b as [|x b IH] using rev_ind; intros Hb; [done|].
  apply Forall_app in Hb as [Hb Hx]. inversion Hx as [|? ? Hx0]; subst.
  rewrite fold_left_app. cbn [fold_left]. rewrite IH, from_be_snoc by done.
  unfold as_u64, as_u. rewrite Z.shiftl_mul_pow2 by lia. change (2 ^ 8) with 256.
  rewrite Z.mul_mod_idemp_l by lia.
  set (n := from_be_bytes b). change (2 ^ 64) with (2 ^ 56 * 256).
  rewrite (Z.mul_comm n 256), (Z.mul_comm (2 ^ 56) 256).
  rewrite Z.mul_mod_distr_l by lia.
  rewrite (Z.mul_comm 256 (n mod 2 ^ 56)). change 256 with (2 ^ 8) at 1.
  rewrite <- Z.shiftl_mul_pow2 by lia. rewrite lor_shiftl_byte by done.
  rewrite (Z.rem_mul_r _ 256) by lia.
  rewrite (Z.mul_comm 256 n), Z.div_add_l by lia.
  rewrite (Z.div_small x) by exact Hx0. rewrite (Z.add_comm (n * 256)), Z.mod_add by lia.
  rewrite (Z.mod_small x) by exact Hx0. rewrite Z.add_0_r. lia.
Qed.

Lemma pow256_le_u64 size : 1 ≤ size ≤ 8 → 256 ^ size ≤ 2 ^ 64.
Proof. intros. change (2 ^ 64) with (256 ^ 8). apply Z.pow_le_mono_r; lia. Qed.

Lemma decodes_id size v : 1 ≤ size ≤ 8 → id_ok size v →
  decodes (rd_id size) (wr_id [] size v) v.
Proof.
  intros Hs Hv. unfold wr_id. cbn [app]. pose proof (pow256_le_u64 size Hs).
  replace v with (id_loop (to_be_bytes (Z.to_nat size) v)) at 2.
  - apply (decodes_bind_ret _ id_loop). apply decodes_take_n. rewrite length_to_be_bytes. lia.
  - rewrite id_loop_spec by apply to_be_bytes_byte.
    unfold id_ok in Hv.
    rewrite from_to_be_bytes_small by (rewrite Z2Nat.id by lia; done).
    apply Z.mod_small. lia.
Qed.

#[export] Hint Resolve decodes_u8 decodes_u16 decodes_u32 decodes_u64 decodes_id decodes_ret : jvl.

Lemma decodes_string s : str_ok s → decodes rd_string (wr_string [] s) s.
Proof.
  intros [Hs Hl]. unfold rd_string, wr_string, wr_u32. cbn [app].
  assert (0 ≤ str_len s < 2 ^ 32) as Hu by (unfold str_len, MAX_STRING_LEN in *; lia).
  unfold as_u32. rewrite as_u_small by exact Hu.
  eapply decodes_bind; [by apply decodes_u32|].
  destruct (Z.ltb_spec MAX_STRING_LEN (str_len s)); [lia|].
  rewrite <- (from_utf8_lossy_str s Hs) at 3.
  apply (decodes_bind_ret _ from_utf8_lossy). apply decodes_take_n.
  by rewrite length_as_bytes.
Qed.

(** A value string up to the cap comes back whole. *)
Lemma decodes_value_string s : str_ok s → decodes rd_value_string (wr_string [] s) s.
Proof.
  intros [Hs Hl]. unfold rd_value_string, wr_string, wr_u32. cbn [app].
  assert (0 ≤ str_len s < 2 ^ 32) as Hu by (unfold str_len, MAX_STRING_LEN in *; lia).
  unfold as_u32. rewrite as_u_small by exact Hu.
  eapply decodes_bind; [by apply decodes_u32|]. cbn zeta.
  rewrite Z.min_l by lia. rewrite Z.ltb_irrefl.
  rewrite <- (from_utf8_lossy_str s Hs) at 3.
  apply (decodes_bind_ret _ from_utf8_lossy). apply decodes_take_n.
  by rewrite length_as_bytes.
Qed.

Definition sizes_ok (s : IdSizes) : Prop := IdSizes_valid s = true.

Lemma sizes_ok_range s : sizes_ok s →
  1 ≤ field s ≤ 8 ∧ 1 ≤ method s ≤ 8 ∧ 1 ≤ object s ≤ 8
  ∧ 1 ≤ reference_type s ≤ 8 ∧ 1 ≤ frame s ≤ 8.
Proof.
  unfold sizes_ok, IdSizes_valid. cbn [forallb]. unfold in_range.
  rewrite !andb_true_iff, !Z.leb_le. tauto.
Qed.

Lemma decodes_location sizes l : sizes_ok sizes → loc_ok sizes l →
  decodes (rd_location sizes) (enc_location sizes l) l.
Proof.
  intros Hs (H1 & H2 & H3 & H4). pose proof (sizes_ok_range _ Hs) as (?&?&?&?&?).
  unfold enc_location, wr_location, wr_u8, wr_u64, wr_id, rd_location. cbn [app].
  rewrite <- !app_assoc. destruct l as [t c m i]; cbn in *.
  eapply (decodes_bind _ _ [t]); [apply decodes_u8|].
  eapply decodes_bind; [by apply decodes_id|].
  eapply decodes_bind; [by apply decodes_id|].
  apply (decodes_bind_ret _ (mkLocation t c m)). by apply decodes_u64.
Qed.

Lemma null_location_ok sizes : sizes_ok sizes → loc_ok sizes null_location.
Proof.
  intros Hs. pose proof (sizes_ok_range _ Hs) as (?&?&?&?&?).
  unfold loc_ok, id_ok, is_byte, is_u. cbn.
  repeat split; try lia; apply Z.pow_pos_nonneg; lia.
Qed.

(** One decoding step of a chain of [app]ed encodings. *)
Ltac dec_step :=
  rewrite <- ?app_assoc; eapply decodes_bind;
  [first [apply decodes_u8
         | apply decodes_u32; by auto
         | apply decodes_u64; by auto
         | apply decodes_id; by auto
         | apply decodes_location; by auto
         | apply decodes_string; by auto] |].

(** Resolve the comparisons of a known event kind. *)
Ltac pick_kind :=
  unfold event_kind.VM_START, event_kind.SINGLE_STEP, event_kind.BREAKPOINT,
    event_kind.EXCEPTION, event_kind.CLASS_PREPARE, event_kind.VM_DEATH;
  cbn [Z.eqb Pos.eqb].

Lemma decodes_event sizes e :
  sizes_ok sizes → event_ok sizes e → event_sig_short e →
  decodes (rd_event sizes) (enc_event sizes e) e.
Proof.
  intros Hs He Hsig. pose proof (sizes_ok_range _ Hs) as (?&?&?&?&?).
  pose proof (null_location_ok sizes Hs).
  unfold rd_event. destruct e as [r th|r th l|r th l|r th l exc c|r th t ty sig st|r];
    cbn in He, Hsig; destruct_and?; cbn [enc_event].
  - do 2 dec_step. pick_kind. by apply (decodes_bind_ret _ (VmStart r)), decodes_id.
  - do 3 dec_step. pick_kind. by apply (decodes_bind_ret _ (SingleStep r th)), decodes_location.
  - do 3 dec_step. pick_kind. by apply (decodes_bind_ret _ (Breakpoint r th)), decodes_location.
  - do 2 dec_step. pick_kind. do 4 dec_step.
    assert (loc_ok sizes (default null_location c)) by (destruct c; cbn; tauto).
    replace c with (if negb (class_id (default null_location c) =? 0)
                    then Some (default null_location c) else None) at 2.
    + apply (decodes_bind_ret _ (λ cl, Exception r th l exc
               (if negb (class_id cl =? 0) then Some cl else None))).
      by apply decodes_location.
    + destruct c as [c|]; [|done]. cbn. by destruct (Z.eqb_spec (class_id c) 0); [tauto|].
  - do 2 dec_step. pick_kind. do 3 dec_step.
    rewrite <- ?app_assoc. eapply decodes_bind; [by apply decodes_string|].
    by apply (decodes_bind_ret _ (ClassPrepare r th t ty sig)), decodes_u32.
  - dec_step. rewrite <- (app_nil_r (to_be_bytes _ _)). dec_step. pick_kind. apply decodes_ret.
Qed.

Lemma decodes_repeat {A} (d : Dec A) (enc : A → list Z) l :
  Forall (λ a, decodes d (enc a) a) l →
  decodes (rd_repeat (length l) d) (concat (enc <$> l)) l.
Proof.
  induction 1 as [|a l Ha Hl IH]; [apply decodes_ret|].
  cbn [length rd_repeat fmap list_fmap concat]. eapply decodes_bind; [done|].
  by apply (decodes_bind_ret _ (cons a)).
Qed.

Lemma decodes_run {A} (d : Dec A) bs rest a :
  decodes d bs a → run_dec d (bs ++ rest) = Ok a.
Proof.
  intros H. unfold run_dec, Reader_new. specialize (H [] rest).
  cbn [app length] in H. change (Z.of_nat 0) with 0 in H. by rewrite H.
Qed.

(** ** Lemmas: what a successful decoding implies *)

Definition reader_wf (r : Reader) : Prop :=
  0 ≤ pos r ≤ Z.of_nat (length (buf r)) ∧ Forall is_byte (buf r).

(** On success [d] stays in bounds, keeps the buffer, consumes at least [n]
    bytes and returns a value satisfying [P]. *)
Definition dec_post {A} (d : Dec A) (n : Z) (P : A → Prop) : Prop :=
  ∀ r a r', reader_wf r → d r = Ok (a, r') →
    reader_wf r' ∧ buf r' = buf r ∧ pos r + n ≤ pos r' ∧ P a.

Lemma post_ret {A} (a : A) (P : A → Prop) : P a → dec_post (mret a) 0 P.
Proof. intros HP r a' r' Hr [= <- <-]. repeat split; auto; lia || apply Hr. Qed.

Lemma post_fail {A} msg n (P : A → Prop) : dec_post (dec_fail msg) n P.
Proof. by intros r a r' _ [=]. Qed.

Lemma post_bind {A B} (d : Dec A) (f : A → Dec B) n m P Q :
  dec_post d n P → (∀ a, P a → dec_post (f a) m Q) → dec_post (d ≫= f) (n + m) Q.
Proof.
  intros Hd Hf r b r'' Hr H. unfold mbind, Dec_bind in H.
  destruct (d r) as [[a r']|] eqn:E; [|done].
  destruct (Hd _ _ _ Hr E) as (H1 & H2 & H3 & H4).
  destruct (Hf a H4 _ _ _ H1 H) as (H5 & H6 & H7 & H8).
  repeat split; try done; try apply H5; [congruence|lia].
Qed.

Lemma post_weaken {A} (d : Dec A) n m (P Q : A → Prop) :
  dec_post d n P → m ≤ n → (∀ a, P a → Q a) → dec_post d m Q.
Proof.
  intros Hd Hm HPQ r a r' Hr E. destruct (Hd _ _ _ Hr E) as (H1 & H2 & H3 & H4).
  repeat split; auto; try apply H1; lia.
Qed.

Lemma post_take n : 0 ≤ n →
  dec_post (rd_take n) n (λ b, Z.of_nat (length b) = n ∧ Forall is_byte b).
Proof.
  intros Hn r b r' [Hp Hb] H. unfold rd_take, remaining in H.
  destruct (Z.ltb_spec (Z.of_nat (length (buf r)) - pos r) n); [done|].
  injection H as <- <-. unfold reader_wf. cbn [buf pos]. repeat split; auto; try lia.
  - rewrite length_take, length_drop. lia.
  - by apply Forall_take, Forall_drop.
Qed.

Lemma post_be n : 0 ≤ n →
  dec_post (b ← rd_take n; mret (from_be_bytes b)) n (λ v, 0 ≤ v < 256 ^ n).
Proof.
  intros Hn. rewrite <- (Z.add_0_r n) at 2. eapply post_bind; [by apply post_take|].
  intros b [Hl Hb]. apply post_ret. rewrite <- Hl. by apply from_be_range.
Qed.

Lemma post_u8 : dec_post rd_u8 1 is_byte.
Proof.
  change 1 with (1 + 0). eapply post_bind; [apply post_take; lia|].
  intros b [Hl Hb]. apply post_ret. destruct Hb; cbn in *; [lia|done].
Qed.
Lemma post_u16 : dec_post rd_u16 2 (is_u 16).
Proof. apply (post_be 2). lia. Qed.
Lemma post_u32 : dec_post rd_u32 4 (is_u 32).
Proof. apply (post_be 4). lia. Qed.
Lemma post_u64 : dec_post rd_u64 8 (is_u 64).
Proof. apply (post_be 8). lia. Qed.

Lemma post_id size : 1 ≤ size ≤ 8 → dec_post (rd_id size) size (id_ok size).
Proof.
  intros Hs. unfold rd_id. rewrite <- (Z.add_0_r size) at 2.
  eapply post_bind; [apply post_take; lia|]. intros b [Hl Hb]. apply post_ret.
  rewrite id_loop_spec by done. pose proof (from_be_range b Hb) as Hr. rewrite Hl in Hr.
  pose proof (pow256_le_u64 size Hs). unfold id_ok. rewrite Z.mod_small; lia.
Qed.

Lemma post_string : dec_post rd_string 4 is_str.
Proof.
  change 4 with (4 + 0). eapply post_bind; [apply post_u32|]. intros len [Hl _].
  destruct (MAX_STRING_LEN <? len); [apply post_fail|].
  apply (post_weaken _ (len + 0) 0 is_str); [|lia|done].
  eapply post_bind; [by apply post_take|].
  intros b [_ Hb]. apply post_ret. by apply from_utf8_lossy_is_str.
Qed.

Lemma post_value_string : dec_post rd_value_string 4 is_str.
Proof.
  change 4 with (4 + 0). eapply post_bind; [apply post_u32|]. intros len [Hl _].
  assert (0 ≤ Z.min len MAX_STRING_LEN) as Hk by (unfold MAX_STRING_LEN; lia).
  cbn zeta. apply (post_weaken _ (Z.min len MAX_STRING_LEN + 0) 0 is_str); [|lia|done].
  eapply post_bind; [by apply post_take|].
  intros b [_ Hb]. destruct (Z.ltb_spec (Z.min len MAX_STRING_LEN) len).
  - apply (post_weaken _ (len - Z.min len MAX_STRING_LEN + 0) 0 is_str); [|lia|done].
    eapply post_bind; [apply post_take; lia|].
    intros _ _. apply post_ret. by apply from_utf8_lossy_is_str.
  - apply post_ret. by apply from_utf8_lossy_is_str.
Qed.

Lemma post_location sizes : sizes_ok sizes → dec_post (rd_location sizes) 1 (loc_ok sizes).
Proof.
  intros Hs. pose proof (sizes_ok_range _ Hs) as (?&?&?&?&?).
  apply (post_weaken _ (1 + (reference_type sizes + (method sizes + (8 + 0)))) 1 (loc_ok sizes));
    [|lia|done].
  eapply post_bind; [apply post_u8|]. intros t Ht.
  eapply post_bind; [by apply post_id|]. intros c Hc.
  eapply post_bind; [by apply post_id|]. intros m Hm.
  eapply post_bind; [apply post_u64|]. intros i Hi. by apply post_ret.
Qed.

#[export] Hint Resolve post_u8 post_u16 post_u32 post_u64 post_string post_value_string : jvl.

(** A tagged or known-tag value in range for its type. *)
Definition value_ok (sizes : IdSizes) (v : Value) : Prop :=
  match v with
  | VVoid | VBoolean _ => True
  | VByte n => - 2 ^ 7 ≤ n < 2 ^ 7
  | VChar n => is_u 16 n
  | VShort n => - 2 ^ 15 ≤ n < 2 ^ 15
  | VInt n => - 2 ^ 31 ≤ n < 2 ^ 31
  | VLong n => - 2 ^ 63 ≤ n < 2 ^ 63
  | VFloat n => is_u 32 n
  | VDouble n => is_u 64 n
  | VObject t id => is_object_tag t = true ∧ id_ok (object sizes) id
  end.

(** Every kind of value except [void] takes at least one byte. *)
Lemma post_untagged_value t sizes : sizes_ok sizes →
  dec_post (rd_untagged_value t sizes) (if t =? tag.VOID then 0 else 1) (value_ok sizes).
Proof.
  intros Hs. pose proof (sizes_ok_range _ Hs) as (?&?&?&?&?).
  unfold rd_untagged_value. destruct (t =? tag.VOID); [by apply post_ret|].
  repeat match goal with
  | |- dec_post (if t =? _ then _ else _) _ _ => destruct (t =? _)
  | |- dec_post (if is_object_tag t then _ else _) _ _ => destruct (is_object_tag t) eqn:Ht
  end; try apply post_fail;
  (eapply post_weaken;
   [eapply post_bind; [by auto with jvl || by apply post_id|];
    intros v Hv; apply (post_ret _ (value_ok sizes)); cbn [value_ok]|lia|done]);
  try done; try (split; [done|exact Hv]);
  first [apply (as_i_range 8) | apply (as_i_range 16) | apply (as_i_range 32) | apply (as_i_range 64)];
  lia.
Qed.

Lemma post_tagged_value sizes : sizes_ok sizes →
  dec_post (rd_tagged_value sizes) 1 (value_ok sizes).
Proof.
  intros Hs. apply (post_weaken _ (1 + 0) 1 (value_ok sizes)); [|lia|done].
  eapply post_bind; [apply post_u8|]. intros t _.
  eapply post_weaken; [by apply post_untagged_value|case_match; lia|done].
Qed.

Lemma post_repeat {A} (d : Dec A) n P k : 0 ≤ n → dec_post d n P →
  dec_post (rd_repeat k d) (Z.of_nat k * n) (λ l, length l = k ∧ Forall P l).
Proof.
  intros Hn Hd. induction k as [|k IH]; [by apply post_ret|].
  cbn [rd_repeat]. replace (Z.of_nat (S k) * n) with (n + (Z.of_nat k * n + 0)) by lia.
  eapply post_bind; [done|]. intros x Hx. eapply post_bind; [done|].
  intros xs [Hl Hxs]. apply post_ret. cbn. auto.
Qed.

(** The same without counting the bytes of the first step. *)
Lemma post_bind0 {A B} (d : Dec A) (f : A → Dec B) n P Q :
  dec_post d n P → 0 ≤ n → (∀ a, P a → dec_post (f a) 0 Q) → dec_post (d ≫= f) 0 Q.
Proof.
  intros Hd Hn Hf. apply (post_weaken _ (n + 0) 0 Q); [|lia|done]. by eapply post_bind.
Qed.

(** Walk through a chain of reads, introducing each value and its range. *)
Ltac post_step :=
  eapply post_bind0;
  [first [apply post_u8 | apply post_u32 | apply post_u64 | apply post_string
         | by apply post_id | by apply post_location] | lia | intros ? ?].

Lemma post_event sizes : sizes_ok sizes → dec_post (rd_event sizes) 5 (event_ok sizes).
Proof.
  intros Hs. pose proof (sizes_ok_range _ Hs) as (?&?&?&?&?).
  unfold rd_event. change 5 with (1 + (4 + 0)).
  eapply post_bind; [apply post_u8|]. intros k Hk.
  eapply post_bind; [apply post_u32|]. intros r Hr.
  repeat match goal with
  | |- dec_post (if _ =? _ then _ else _) _ _ => destruct (_ =? _)
  end; try apply post_fail; repeat post_step; apply post_ret; cbn [event_ok]; auto 10.
  match goal with |- context [class_id ?c =? 0] => destruct (Z.eqb_spec (class_id c) 0) end;
    cbn; auto 10.
Qed.

Lemma run_dec_post {A} (d : Dec A) n P payload a :
  dec_post d n P → Forall is_byte payload → run_dec d payload = Ok a →
  P a ∧ n ≤ Z.of_nat (length payload).
Proof.
  unfold run_dec. intros Hd Hb H.
  destruct (d (Reader_new payload)) as [[a' r']|] eqn:E; [|done]. injection H as <-.
  destruct (Hd (Reader_new payload) a' r') as (Hw & Hbuf & Hp & HP); [by split; cbn; [lia|]|done|].
  split; [done|]. destruct Hw as [Hw _]. rewrite Hbuf in Hw. cbn in *. lia.
Qed.

(** ** Lemmas: truncation

    More bytes after the payload never change what a decoder does, so a
    payload cut short of its encoding cannot be accepted. *)
Definition dec_mono {A} (d : Dec A) : Prop :=
  ∀ b p ext a r', reader_wf (mkReader b p) → d (mkReader b p) = Ok (a, r') →
    d (mkReader (b ++ ext) p) = Ok (a, mkReader (b ++ ext) (pos r')).

Lemma mono_ret {A} (a : A) : dec_mono (mret a).
Proof. by intros b p ext a' r' Hp [= <- <-]. Qed.

Lemma mono_fail {A} msg : dec_mono (dec_fail (A := A) msg).
Proof. by intros b p ext a r' _ [=]. Qed.

Lemma mono_bind {A B} (d : Dec A) (f : A → Dec B) n P :
  dec_mono d → dec_post d n P → (∀ a, P a → dec_mono (f a)) → dec_mono (d ≫= f).
Proof.
  intros Hd Hp Hf b p ext c r'' Hr H. unfold mbind, Dec_bind in *.
  destruct (d (mkReader b p)) as [[a [b' p']]|] eqn:E; [|done].
  destruct (Hp _ _ _ Hr E) as (H1 & H2 & _ & H4). cbn in H2. subst b'.
  rewrite (Hd _ _ ext _ _ Hr E). by apply (Hf a H4).
Qed.

Lemma mono_take n : dec_mono (rd_take n).
Proof.
  intros b p ext a r' [Hp _] H. unfold rd_take, remaining in *. cbn [buf pos] in *.
  rewrite length_app, Nat2Z.inj_add.
  destruct (Z.ltb_spec (Z.of_nat (length b) - p) n); [done|]. injection H as <- <-.
  destruct (Z.ltb_spec (Z.of_nat (length b) + Z.of_nat (length ext) - p) n); [lia|].
  cbn [pos]. by rewrite drop_app_le, take_app_le by (rewrite ?length_drop; lia).
Qed.

Lemma mono_take_ret {A} n (f : list Z → A) : dec_mono (b ← rd_take n; mret (f b)).
Proof.
  intros b p ext a r' Hr H. unfold mbind, Dec_bind in *.
  destruct (rd_take n (mkReader b p)) as [[bs r1]|] eqn:E; [|done].
  rewrite (mono_take _ _ _ ext _ _ Hr E). by injection H as <- <-.
Qed.

Lemma mono_string : dec_mono rd_string.
Proof.
  eapply mono_bind; [apply mono_take_ret|apply post_u32|]. intros len _.
  case_match; [apply mono_fail|apply mono_take_ret].
Qed.

Lemma mono_location sizes : sizes_ok sizes → dec_mono (rd_location sizes).
Proof.
  intros Hs. pose proof (sizes_ok_range _ Hs) as (?&?&?&?&?).
  eapply mono_bind; [apply mono_take_ret|apply post_u8|]. intros ? _.
  eapply mono_bind; [apply mono_take_ret|by apply post_id|]. intros ? _.
  eapply mono_bind; [apply mono_take_ret|by apply post_id|]. intros ? _.
  eapply mono_bind; [apply mono_take_ret|apply post_u64|]. intros ? _. apply mono_ret.
Qed.

(** One read of a chain, for monotonicity. *)
Ltac mono_step :=
  eapply mono_bind;
  [first [by apply mono_location | apply mono_string | apply mono_take_ret]
  |first [apply post_u8 | apply post_u32 | apply post_u64 | apply post_string
         | by apply post_id | by apply post_location]
  |intros ? _].

Lemma mono_event sizes : sizes_ok sizes → dec_mono (rd_event sizes).
Proof.
  intros Hs. pose proof (sizes_ok_range _ Hs) as (?&?&?&?&?).
  unfold rd_event. do 2 mono_step.
  repeat match goal with
  | |- dec_mono (if _ =? _ then _ else _) => destruct (_ =? _)
  end; try apply mono_fail; repeat mono_step; apply mono_ret.
Qed.

Lemma mono_repeat {A} (d : Dec A) n P k : 0 ≤ n →
  dec_mono d → dec_post d n P → dec_mono (rd_repeat k d).
Proof.
  intros Hn Hd Hp. induction k as [|k IH]; [apply mono_ret|]. cbn [rd_repeat].
  eapply mono_bind; [done..|]. intros x _.
  eapply mono_bind; [done|by apply post_repeat|]. intros xs _. apply mono_ret.
Qed.

Definition composite_ok (sizes : IdSizes) (s : EventSet) : Prop :=
  is_byte (suspend_policy_of s) ∧ (length (events s) ≤ 1024)%nat
  ∧ Forall (event_ok sizes) (events s).

Lemma mono_composite sizes : sizes_ok sizes → dec_mono (rd_composite sizes).
Proof.
  intros Hs. unfold rd_composite. do 2 mono_step. case_match; [apply mono_fail|].
  eapply mono_bind; [|by apply (post_repeat (rd_event sizes) 5); [|apply post_event]|].
  - by eapply (mono_repeat _ 5); [|apply mono_event|apply post_event].
  - intros ? _. apply mono_ret.
Qed.

Lemma post_composite sizes : sizes_ok sizes → dec_post (rd_composite sizes) 0 (composite_ok sizes).
Proof.
  intros Hs. unfold rd_composite. do 2 post_step.
  destruct (Z.ltb_spec MAX_EVENTS_PER_COMPOSITE a0) as [|Hc]; [apply post_fail|].
  eapply post_bind0; [by apply (post_repeat (rd_event sizes) 5); [|apply post_event]|lia|].
  intros evs [Hl Hevs]. apply post_ret. unfold composite_ok, MAX_EVENTS_PER_COMPOSITE in *.
  repeat split; [apply H..| |done]. cbn. lia.
Qed.

Lemma decodes_composite sizes s :
  sizes_ok sizes → composite_ok sizes s → Forall event_sig_short (events s) →
  decodes (rd_composite sizes) (enc_composite sizes s) s.
Proof.
  intros Hs (Hp & Hlen & Hev) Hsig. unfold rd_composite, enc_composite.
  assert (is_u 32 (Z.of_nat (length (events s)))) by (unfold is_u; lia).
  do 2 dec_step. destruct (Z.ltb_spec MAX_EVENTS_PER_COMPOSITE (Z.of_nat (length (events s)))).
  { unfold MAX_EVENTS_PER_COMPOSITE in *. lia. }
  destruct s as [pol evs]. apply (decodes_bind_ret _ (mkEventSet pol)).
  unfold rd_counted. rewrite Nat2Z.id. apply decodes_repeat. cbn in *.
  rewrite Forall_forall in *. intros e He. apply decodes_event; auto.
Qed.

(** Byte-ness of concatenated encodings. *)
Ltac byte_list :=
  repeat lazymatch goal with
  | |- Forall is_byte [] => constructor
  | |- Forall is_byte (_ :: _) => apply Forall_cons; split
  | |- Forall is_byte (_ ++ _) => apply Forall_app; split
  | |- Forall is_byte (to_be_bytes _ _) => apply to_be_bytes_byte
  | |- Forall is_byte (as_bytes _) => apply as_bytes_byte
  end; auto;
  try lazymatch goal with |- is_byte _ => unfold is_byte; lia end.

Lemma enc_location_byte sizes l : loc_ok sizes l → Forall is_byte (enc_location sizes l).
Proof.
  intros (H & _). unfold enc_location, wr_location, wr_u8, wr_u64, wr_id. cbn [app].
  byte_list.
Qed.

Lemma enc_event_byte sizes e : sizes_ok sizes → event_ok sizes e → Forall is_byte (enc_event sizes e).
Proof.
  intros Hs He.
  assert (∀ c, match c with Some c => loc_ok sizes c ∧ class_id c ≠ 0 | None => True end →
               Forall is_byte (enc_location sizes (default null_location c))).
  { intros [c|] Hc; apply enc_location_byte; [apply Hc|by apply null_location_ok]. }
  destruct e; cbn in He; destruct_and?; unfold enc_event, wr_id, wr_string, wr_u32; cbn [app];
    pick_kind; unfold tag.OBJECT; byte_list; auto using enc_location_byte.
Qed.

Lemma enc_composite_byte sizes s :
  sizes_ok sizes → composite_ok sizes s → Forall is_byte (enc_composite sizes s).
Proof.
  intros Hs (Hp & _ & Hev). unfold enc_composite. cbn [app].
  apply Forall_cons; split; [done|]. apply Forall_app; split; [apply to_be_bytes_byte|].
  apply Forall_concat, Forall_fmap. eapply Forall_impl; [done|].
  intros e He. by apply enc_event_byte.
Qed.

(** No proper prefix of what a decoder reads is accepted. *)
Lemma decodes_truncated {A} (d : Dec A) bs (a : A) (n : nat) P :
  dec_mono d → dec_post d 0 P → decodes d bs a → Forall is_byte bs →
  (n < length bs)%nat → is_ok (run_dec d (take n bs)) = false.
Proof.
  intros Hm Hp Hd Hb Hn. unfold run_dec.
  destruct (d (Reader_new (take n bs))) as [[a' r']|e] eqn:E; [|done].
  assert (reader_wf (mkReader (take n bs) 0)) as Hw
    by (split; cbn; [lia|by apply Forall_take]).
  pose proof (Hm _ _ (drop n bs) _ _ Hw E) as Hm'. rewrite take_drop in Hm'.
  specialize (Hd [] []). cbn [app length] in Hd. rewrite app_nil_r in Hd.
  change (Z.of_nat 0) with 0 in Hd. rewrite Hd in Hm'. injection Hm' as _ Hpos.
  destruct (Hp _ _ _ Hw E) as ((Hp' & _) & Hbuf & _).
  rewrite Hbuf in Hp'. cbn [buf] in Hp'. rewrite length_take in Hp'. lia.
Qed.

Definition enc_id_sizes (s : IdSizes) : list Z :=
  to_be_bytes 4 (field s) ++ to_be_bytes 4 (method s) ++ to_be_bytes 4 (object s)
  ++ to_be_bytes 4 (reference_type s) ++ to_be_bytes 4 (frame s).

Lemma parse_id_sizes_ok payload s : parse_id_sizes payload = Ok s → sizes_ok s.
Proof.
  unfold parse_id_sizes. intros H. inv_ok. case_if; inv_ok. done.
Qed.

Definition sizes_u32 (s : IdSizes) : Prop :=
  is_u 32 (field s) ∧ is_u 32 (method s) ∧ is_u 32 (object s)
  ∧ is_u 32 (reference_type s) ∧ is_u 32 (frame s).

Lemma decodes_id_sizes s : sizes_u32 s → decodes rd_id_sizes (enc_id_sizes s) s.
Proof.
  intros (?&?&?&?&?). destruct s as [f m o rt fr].
  unfold enc_id_sizes, rd_id_sizes. cbn [field method object reference_type frame] in *.
  do 4 dec_step. apply (decodes_bind_ret _ (mkIdSizes f m o rt)). by apply decodes_u32.
Qed.

(** ** Properties *)

Definition sizes_8 : IdSizes := mkIdSizes 8 8 8 8 8.
Definition loc_ex : Location := mkLocation 1 4096 77 12.
Definition set_ex : EventSet :=
  mkEventSet suspend_policy.ALL
    [Breakpoint 7 42 loc_ex; Exception 9 42 loc_ex 5000 None;
     ClassPrepare 3 42 1 4096 "Ldemo/Main;" 7; VmDeath 0].

Lemma set_ex_ok : composite_ok sizes_8 set_ex ∧ Forall event_sig_short (events set_ex).
Proof.
  split; [split; [by unfold is_byte; cbn|split; [cbn; lia|]]|]; cbn;
    repeat constructor; cbn; unfold is_u, id_ok, is_byte, loc_ok, is_str; cbn;
    repeat split; try done; lia.
Qed.

(** C6: Parsing a Composite event packet inverts the JDWP wire format: for
    legal ID sizes, the bytes of any event set (at most 1024 events, all
    fields in range, signatures within the string cap), whatever follows
    them, parse back to that event set. *)
Theorem parse_composite_roundtrip sizes s rest :
  sizes_ok sizes → composite_ok sizes s → Forall event_sig_short (events s) →
  parse_composite (enc_composite sizes s ++ rest) sizes = Ok s.
Proof. intros. by apply decodes_run, decodes_composite. Qed.

Lemma parse_composite_roundtrip_witness :
  parse_composite (enc_composite sizes_8 set_ex ++ [1; 2]) sizes_8 = Ok set_ex.
Proof. apply parse_composite_roundtrip; [reflexivity | apply set_ex_ok | apply set_ex_ok]. Defined.

(** Whatever bytes the debuggee sends, an accepted Composite packet has
    at most 1024 events, every identifier in it fits the reported ID size,
    every integer its wire width, and every string is valid UTF-8; an absent
    catch location is never reported as class 0. *)
Theorem parse_composite_sound sizes payload s :
  sizes_ok sizes → Forall is_byte payload →
  parse_composite payload sizes = Ok s → composite_ok sizes s.
Proof. intros Hs Hb H. by eapply run_dec_post in H as [? _]; [|by apply post_composite|]. Qed.

Lemma parse_composite_sound_witness :
  composite_ok sizes_8 (mkEventSet 2 [VmStart 0 258]).
Proof.
  apply (parse_composite_sound sizes_8 [2; 0;0;0;1; 90; 0;0;0;0; 0;0;0;0;0;0;1;2]);
    [reflexivity | repeat constructor; unfold is_byte; lia | vm_compute; reflexivity].
Defined.

(** A Composite packet cut short anywhere is rejected with a decode
    error: no proper prefix of an encoded event set is ever accepted. *)
Theorem parse_composite_truncated sizes s (n : nat) :
  sizes_ok sizes → composite_ok sizes s → Forall event_sig_short (events s) →
  (n < length (enc_composite sizes s))%nat →
  is_ok (parse_composite (take n (enc_composite sizes s)) sizes) = false.
Proof.
  intros Hs Hc Hsig Hn.
  by apply (decodes_truncated _ _ s _ (composite_ok sizes));
    auto using mono_composite, post_composite, decodes_composite, enc_composite_byte.
Qed.

Lemma parse_composite_truncated_witness :
  is_ok (parse_composite (take 20 (enc_composite sizes_8 set_ex)) sizes_8) = false.
Proof.
  apply parse_composite_truncated;
    [reflexivity | apply set_ex_ok | apply set_ex_ok | vm_compute; lia].
Defined.

(** The IDSizes handshake accepts a reply exactly when all five sizes are
    between 1 and 8 bytes, and then returns the sizes the debuggee sent. *)
Theorem parse_id_sizes_spec s rest :
  sizes_u32 s →
  (parse_id_sizes (enc_id_sizes s ++ rest) = Ok s ↔ sizes_ok s)
  ∧ is_ok (parse_id_sizes (enc_id_sizes s ++ rest)) = IdSizes_valid s.
Proof.
  intros Hs. unfold parse_id_sizes.
  rewrite (decodes_run _ _ rest _ (decodes_id_sizes s Hs)). cbn [mbind Result_bind]. unfold sizes_ok.
  destruct (IdSizes_valid s); split; try done; split; intros H; (done || discriminate).
Qed.

Lemma parse_id_sizes_spec_witness :
  is_ok (parse_id_sizes (enc_id_sizes sizes_8 ++ [])) = true.
Proof. apply (parse_id_sizes_spec sizes_8 []). repeat split; unfold is_u; cbn; lia. Defined.
