(* ===== verification/JdwpVm.v ===== *)
(** * Typed JDWP commands ([crates/debug/src/jdwp/mod.rs], [Vm])

    Each method of [Vm] writes a request payload, awaits the reply of
    [JdwpClient::command] and decodes it.  The debuggee behind the client is
    untrusted: it is the interface [Debuggee], an arbitrary function from what
    happened on the wire so far to the outcome of the next command.  The
    theorems quantify over it. *)
From S2P Require Import Prelude RustStd JdwpCommands JdwpCodec.

Inductive JdwpError :=
| JIo (msg : string)
| JDecode (e : DecodeError)
| JCode (c : Z)
| JClosed.

(** [impl Display for JdwpError] *)
Definition JdwpError_display (e : JdwpError) : string :=
  match e with
  | JIo m => "JDWP I/O error: " +:+ m
  | JDecode (mkDecodeError m) => "malformed JDWP data: " +:+ m
  | JCode c => "JDWP error code " +:+ pretty c
  | JClosed => "JDWP connection closed"
  end.

Definition is_absent_information (e : JdwpError) : bool :=
  match e with JCode c => c =? error.ABSENT_INFORMATION | _ => false end.

(** A command packet, and what has happened on the wire (newest first). *)
Record Packet := mkPacket { p_set : Z; p_cmd : Z; p_payload : list Z }.
Inductive WireItem :=
| WCmd (p : Packet) (r : Result JdwpError (list Z))
| WEvent (payload : list Z).
Definition Wire := list WireItem.

Class Debuggee := reply : Wire → Packet → Result JdwpError (list Z).

Record MethodEntry := mkMethodEntry {
  me_id : Z; me_name : string; me_signature : string; me_mod_bits : Z }.
Record FieldEntry := mkFieldEntry {
  fe_id : Z; fe_name : string; fe_signature : string; fe_mod_bits : Z }.
Record LineTable := mkLineTable { lt_start : Z; lt_end : Z; lt_lines : list (Z * Z) }.
Record VariableSlot := mkVariableSlot {
  vs_code_index : Z; vs_name : string; vs_signature : string; vs_length : Z; vs_slot : Z }.
Record FrameEntry := mkFrameEntry { fr_frame_id : Z; fr_location : Location }.
Record ClassEntry := mkClassEntry {
  ce_type_tag : Z; ce_type_id : Z; ce_signature : string; ce_status : Z }.

Inductive Modifier :=
| MCount (n : Z)
| MClassMatch (pattern : string)
| MLocationOnly (loc : Location)
| MExceptionOnly (caught uncaught : bool)
| MStep (thread size depth : Z).

(** A computation that may exchange packets and may fail. *)
Definition VM (A : Type) : Type := Wire → Result JdwpError A * Wire.
Global Instance VM_ret : MRet VM := λ A a w, (Ok a, w).
Global Instance VM_bind : MBind VM := λ A B f m w,
  match m w with
  | (Ok a, w') => f a w'
  | (Err e, w') => (Err e, w')
  end.

(** Decode a reply: a [DecodeError] becomes a [JdwpError] ([From] impl). *)
Definition vm_lift {A} (r : Result DecodeError A) : VM A := λ w, (map_err JDecode r, w).
Definition vm_decode {A} (d : Dec A) (payload : list Z) : VM A := vm_lift (run_dec d payload).

Section Vm.
Context `{D : Debuggee} (sizes : IdSizes).

(** [Vm::cmd] *)
Definition vm_cmd (set cmd : Z) (payload : list Z) : VM (list Z) := λ w,
  let p := mkPacket set cmd payload in
  let r := reply w p in
  (r, WCmd p r :: w).

Definition vm_cmd_unit (set cmd : Z) (payload : list Z) : VM unit :=
  _ ← vm_cmd set cmd payload; mret ().

Definition vm_resume : VM unit :=
  vm_cmd_unit virtual_machine.SET virtual_machine.RESUME [].
Definition vm_suspend : VM unit :=
  vm_cmd_unit virtual_machine.SET virtual_machine.SUSPEND [].
Definition vm_exit (code : Z) : VM unit :=
  vm_cmd_unit virtual_machine.SET virtual_machine.EXIT (wr_u32 [] code).
Definition vm_dispose : VM unit :=
  vm_cmd_unit virtual_machine.SET virtual_machine.DISPOSE [].

Definition dec_all_threads : Dec (list Z) :=
  count ← rd_u32; rd_counted count (rd_id (object sizes)).
Definition vm_all_threads : VM (list Z) :=
  payload ← vm_cmd virtual_machine.SET virtual_machine.ALL_THREADS [];
  vm_decode dec_all_threads payload.

Definition dec_all_classes : Dec (list ClassEntry) :=
  count ← rd_u32;
  rd_counted count
    (t ← rd_u8; i ← rd_id (reference_type sizes); s ← rd_string; st ← rd_u32;
     mret (mkClassEntry t i s st)).
Definition vm_all_classes : VM (list ClassEntry) :=
  payload ← vm_cmd virtual_machine.SET virtual_machine.ALL_CLASSES [];
  vm_decode dec_all_classes payload.

Definition dec_classes_by_signature (sig : string) : Dec (list ClassEntry) :=
  count ← rd_u32;
  rd_counted count
    (t ← rd_u8; i ← rd_id (reference_type sizes); st ← rd_u32;
     mret (mkClassEntry t i sig st)).
Definition vm_classes_by_signature (sig : string) : VM (list ClassEntry) :=
  payload ← vm_cmd virtual_machine.SET virtual_machine.CLASSES_BY_SIGNATURE (wr_string [] sig);
  vm_decode (dec_classes_by_signature sig) payload.

Definition vm_type_signature (type_id : Z) : VM string :=
  payload ← vm_cmd reference_type.SET reference_type.SIGNATURE
              (wr_id [] (JdwpCodec.reference_type sizes) type_id);
  vm_decode rd_string payload.

Definition vm_source_file (type_id : Z) : VM string :=
  payload ← vm_cmd reference_type.SET reference_type.SOURCE_FILE
              (wr_id [] (JdwpCodec.reference_type sizes) type_id);
  vm_decode rd_string payload.

Definition dec_methods : Dec (list MethodEntry) :=
  count ← rd_u32;
  rd_counted count
    (i ← rd_id (method sizes); n ← rd_string; s ← rd_string; b ← rd_u32;
     mret (mkMethodEntry i n s b)).
Definition vm_methods (type_id : Z) : VM (list MethodEntry) :=
  payload ← vm_cmd reference_type.SET reference_type.METHODS
              (wr_id [] (JdwpCodec.reference_type sizes) type_id);
  vm_decode dec_methods payload.

Definition dec_fields : Dec (list FieldEntry) :=
  count ← rd_u32;
  rd_counted count
    (i ← rd_id (field sizes); n ← rd_string; s ← rd_string; b ← rd_u32;
     mret (mkFieldEntry i n s b)).
Definition vm_fields (type_id : Z) : VM (list FieldEntry) :=
  payload ← vm_cmd reference_type.SET reference_type.FIELDS
              (wr_id [] (JdwpCodec.reference_type sizes) type_id);
  vm_decode dec_fields payload.

Definition vm_superclass (class_id : Z) : VM Z :=
  payload ← vm_cmd class_type.SET class_type.SUPERCLASS
              (wr_id [] (JdwpCodec.reference_type sizes) class_id);
  vm_decode (rd_id (JdwpCodec.reference_type sizes)) payload.

Definition dec_line_table : Dec LineTable :=
  start ← rd_u64;
  end_ ← rd_u64;
  count ← rd_u32;
  lines ← rd_counted count (i ← rd_u64; l ← rd_u32; mret (i, l));
  mret (mkLineTable (as_i64 start) (as_i64 end_) lines).
Definition vm_line_table (class_id method_id : Z) : VM LineTable :=
  payload ← vm_cmd method.SET method.LINE_TABLE
              (wr_id (wr_id [] (JdwpCodec.reference_type sizes) class_id)
                 (JdwpCodec.method sizes) method_id);
  vm_decode dec_line_table payload.

Definition dec_variable_table : Dec (list VariableSlot) :=
  _ ← rd_u32;
  count ← rd_u32;
  rd_counted count
    (ci ← rd_u64; n ← rd_string; s ← rd_string; len ← rd_u32; sl ← rd_u32;
     mret (mkVariableSlot ci n s len sl)).
Definition vm_variable_table (class_id method_id : Z) : VM (list VariableSlot) :=
  payload ← vm_cmd method.SET method.VARIABLE_TABLE
              (wr_id (wr_id [] (JdwpCodec.reference_type sizes) class_id)
                 (JdwpCodec.method sizes) method_id);
  vm_decode dec_variable_table payload.

Definition vm_thread_name (thread : Z) : VM string :=
  payload ← vm_cmd thread_reference.SET thread_reference.NAME (wr_id [] (object sizes) thread);
  vm_decode rd_string payload.

Definition vm_frame_count (thread : Z) : VM Z :=
  payload ← vm_cmd thread_reference.SET thread_reference.FRAME_COUNT
              (wr_id [] (object sizes) thread);
  vm_decode rd_u32 payload.

Definition dec_frames : Dec (list FrameEntry) :=
  count ← rd_u32;
  rd_counted count
    (f ← rd_id (frame sizes); l ← rd_location sizes; mret (mkFrameEntry f l)).
(** [length] is an [i32], sent as the [u32] with the same bits. *)
Definition vm_frames (thread start length : Z) : VM (list FrameEntry) :=
  payload ← vm_cmd thread_reference.SET thread_reference.FRAMES
              (wr_u32 (wr_u32 (wr_id [] (object sizes) thread) start) (as_u32 length));
  vm_decode dec_frames payload.

Definition dec_tagged_values : Dec (list Value) :=
  count ← rd_u32; rd_counted count (rd_tagged_value sizes).
Definition req_stack_values (thread frm : Z) (slots : list (Z * Z)) : Writer :=
  fold_left (λ w '(slot, tg), wr_u8 (wr_u32 w slot) tg) slots
    (wr_u32 (wr_id (wr_id [] (object sizes) thread) (frame sizes) frm)
       (as_u32 (Z.of_nat (length slots)))).
Definition vm_stack_values (thread frm : Z) (slots : list (Z * Z)) : VM (list Value) :=
  payload ← vm_cmd stack_frame.SET stack_frame.GET_VALUES (req_stack_values thread frm slots);
  vm_decode dec_tagged_values payload.

Definition vm_this_object (thread frm : Z) : VM Value :=
  payload ← vm_cmd stack_frame.SET stack_frame.THIS_OBJECT
              (wr_id (wr_id [] (object sizes) thread) (frame sizes) frm);
  vm_decode (rd_tagged_value sizes) payload.

Definition vm_object_type (obj : Z) : VM (Z * Z) :=
  payload ← vm_cmd object_reference.SET object_reference.REFERENCE_TYPE
              (wr_id [] (object sizes) obj);
  vm_decode (t ← rd_u8; i ← rd_id (JdwpCodec.reference_type sizes); mret (t, i)) payload.

Definition req_object_values (obj : Z) (field_ids : list Z) : Writer :=
  fold_left (λ w f, wr_id w (field sizes) f) field_ids
    (wr_u32 (wr_id [] (object sizes) obj) (as_u32 (Z.of_nat (length field_ids)))).
Definition vm_object_values (obj : Z) (field_ids : list Z) : VM (list Value) :=
  payload ← vm_cmd object_reference.SET object_reference.GET_VALUES
              (req_object_values obj field_ids);
  vm_decode dec_tagged_values payload.

Definition vm_string_value (obj : Z) : VM string :=
  payload ← vm_cmd string_reference.SET string_reference.VALUE (wr_id [] (object sizes) obj);
  vm_decode rd_value_string payload.

Definition vm_array_length (obj : Z) : VM Z :=
  payload ← vm_cmd array_reference.SET array_reference.LENGTH (wr_id [] (object sizes) obj);
  vm_decode (n ← rd_u32; mret (as_u32 (Z.max (as_i32 n) 0))) payload.

(** An array region: primitive elements untagged, object elements tagged. *)
Definition dec_array_region : Dec (list Value) :=
  region_tag ← rd_u8;
  count ← rd_u32;
  rd_counted count
    (if is_object_tag region_tag then rd_tagged_value sizes
     else rd_untagged_value region_tag sizes).
Definition vm_array_values (obj first length : Z) : VM (list Value) :=
  payload ← vm_cmd array_reference.SET array_reference.GET_VALUES
              (wr_u32 (wr_u32 (wr_id [] (object sizes) obj) first) length);
  vm_decode dec_array_region payload.

Definition bool_byte (b : bool) : Z := if b then 1 else 0.
Definition wr_modifier (w : Writer) (m : Modifier) : Writer :=
  match m with
  | MCount n => wr_u32 (wr_u8 w modifier.COUNT) n
  | MClassMatch pattern => wr_string (wr_u8 w modifier.CLASS_MATCH) pattern
  | MLocationOnly loc => wr_location (wr_u8 w modifier.LOCATION_ONLY) sizes loc
  | MExceptionOnly caught uncaught =>
      wr_u8 (wr_u8 (wr_id (wr_u8 w modifier.EXCEPTION_ONLY)
                      (JdwpCodec.reference_type sizes) 0)
               (bool_byte caught))
        (bool_byte uncaught)
  | MStep thread size depth =>
      wr_u32 (wr_u32 (wr_id (wr_u8 w modifier.STEP) (object sizes) thread) size) depth
  end.
Definition req_event_request_set (kind policy : Z) (mods : list Modifier) : Writer :=
  fold_left wr_modifier mods
    (wr_u32 (wr_u8 (wr_u8 [] kind) policy) (as_u32 (Z.of_nat (length mods)))).
Definition vm_event_request_set (kind policy : Z) (mods : list Modifier) : VM Z :=
  payload ← vm_cmd event_request.SET event_request.CMD_SET
              (req_event_request_set kind policy mods);
  vm_decode rd_u32 payload.

Definition vm_event_request_clear (kind request_id : Z) : VM unit :=
  vm_cmd_unit event_request.SET event_request.CMD_CLEAR (wr_u32 (wr_u8 [] kind) request_id).

End Vm.

(** [Vm::new]: IDSizes is the first command. *)
Definition vm_new `{Debuggee} : VM IdSizes :=
  payload ← vm_cmd virtual_machine.SET virtual_machine.ID_SIZES [];
  vm_lift (parse_id_sizes payload).

(** ** Specification: EventRequest.Set as the debuggee reads it

    The JDWP specification's layout of the request, as a decoder. *)
Definition spec_modifier (sizes : IdSizes) : Dec Modifier :=
  k ← rd_u8;
  if k =? modifier.COUNT then n ← rd_u32; mret (MCount n)
  else if k =? modifier.CLASS_MATCH then s ← rd_string; mret (MClassMatch s)
  else if k =? modifier.LOCATION_ONLY then l ← rd_location sizes; mret (MLocationOnly l)
  else if k =? modifier.EXCEPTION_ONLY then
    _ ← rd_id (reference_type sizes); c ← rd_u8; u ← rd_u8;
    mret (MExceptionOnly (c =? 1) (u =? 1))
  else if k =? modifier.STEP then
    t ← rd_id (object sizes); s ← rd_u32; d ← rd_u32; mret (MStep t s d)
  else dec_fail "unknown modifier".
Definition spec_event_request (sizes : IdSizes) : Dec (Z * Z * list Modifier) :=
  kind ← rd_u8; policy ← rd_u8; count ← rd_u32;
  mods ← rd_counted count (spec_modifier sizes);
  mret (kind, policy, mods).

Definition modifier_ok (sizes : IdSizes) (m : Modifier) : Prop :=
  match m with
  | MCount n => is_u 32 n
  | MClassMatch s => str_ok s
  | MLocationOnly l => loc_ok sizes l
  | MExceptionOnly _ _ => True
  | MStep t s d => id_ok (object sizes) t ∧ is_u 32 s ∧ is_u 32 d
  end.

(** ** Lemmas *)

(** Appending to a writer is appending the encoding. *)
Lemma wr_modifier_app sizes w m : wr_modifier sizes w m = w ++ wr_modifier sizes [] m.
Proof.
  destruct m; cbn [wr_modifier];
    unfold wr_location, wr_string, wr_id, wr_u64, wr_u32, wr_u8; cbn [app];
    by rewrite <- ?app_assoc.
Qed.

Lemma fold_wr_modifier sizes mods : ∀ w,
  fold_left (wr_modifier sizes) mods w = w ++ concat (wr_modifier sizes [] <$> mods).
Proof.
  induction mods as [|m mods IH]; intros w; cbn; [by rewrite app_nil_r|].
  by rewrite IH, wr_modifier_app, <- app_assoc.
Qed.

Ltac pick_modifier :=
  unfold modifier.COUNT, modifier.CLASS_MATCH, modifier.LOCATION_ONLY,
    modifier.EXCEPTION_ONLY, modifier.STEP; cbn [Z.eqb Pos.eqb].

Lemma decodes_modifier sizes m : sizes_ok sizes → modifier_ok sizes m →
  decodes (spec_modifier sizes) (wr_modifier sizes [] m) m.
Proof.
  intros Hs Hm. pose proof (sizes_ok_range _ Hs) as (?&?&?&?&?).
  unfold spec_modifier. destruct m as [n|s|l|c u|t s d]; cbn [wr_modifier].
  - eapply (decodes_bind _ _ [_]); [apply decodes_u8|]. pick_modifier.
    by apply (decodes_bind_ret _ MCount), decodes_u32.
  - unfold wr_string, wr_u32, wr_u8. rewrite <- app_assoc.
    eapply (decodes_bind _ _ [_]); [apply decodes_u8|]. pick_modifier.
    by apply (decodes_bind_ret _ MClassMatch), (decodes_string s).
  - unfold wr_location, wr_id, wr_u64, wr_u8. rewrite <- !app_assoc.
    eapply (decodes_bind _ _ [_]); [apply decodes_u8|]. pick_modifier.
    apply (decodes_bind_ret _ MLocationOnly).
    pose proof (decodes_location sizes l Hs Hm) as Hl.
    unfold enc_location, wr_location, wr_id, wr_u64, wr_u8 in Hl.
    by rewrite <- !app_assoc in Hl.
  - unfold wr_u8. rewrite <- !app_assoc. unfold wr_id. rewrite <- !app_assoc.
    eapply (decodes_bind _ _ [_]); [apply decodes_u8|]. pick_modifier.
    eapply decodes_bind; [apply decodes_id; [done|]; split; [done|apply Z.pow_pos_nonneg; lia]|].
    eapply (decodes_bind _ _ [_]); [apply decodes_u8|].
    replace (MExceptionOnly c u) with (MExceptionOnly (bool_byte c =? 1) (bool_byte u =? 1))
      by (by destruct c, u).
    apply (decodes_bind_ret _ (λ x, MExceptionOnly (bool_byte c =? 1) (x =? 1))), decodes_u8.
  - destruct Hm as (Ht & Hsz & Hd). unfold wr_u32, wr_id, wr_u8. rewrite <- !app_assoc.
    eapply (decodes_bind _ _ [_]); [apply decodes_u8|]. pick_modifier.
    eapply decodes_bind; [by apply decodes_id|].
    eapply decodes_bind; [by apply decodes_u32|].
    by apply (decodes_bind_ret _ (MStep t s)), decodes_u32.
Qed.

(** ** Lemmas: reply sizes *)

(** A list preceded by its count, one byte or more per element. *)
Lemma counted_step {A} (d : Dec A) P r l r' :
  dec_post d 1 P → reader_wf r → (count ← rd_u32; rd_counted count d) r = Ok (l, r') →
  pos r + Z.of_nat (length l) ≤ Z.of_nat (length (buf r)) ∧ Forall P l.
Proof.
  intros Hd Hr H. unfold mbind, Dec_bind in H.
  destruct (rd_u32 r) as [[c r2]|] eqn:E2; [|done].
  destruct (post_u32 _ _ _ Hr E2) as (Hw2 & Hbuf2 & Hp2 & _).
  eapply (post_repeat d 1) in H as ([H1 _] & H2 & H3 & H4 & H5); [|lia|done..].
  rewrite H2, Hbuf2 in H1. split; [lia|done].
Qed.

(** Such a list is no longer than the payload that carries it. *)
Lemma counted_bound {A B} (pre : Dec B) (d : B → Dec A) n Q P payload l :
  dec_post pre n Q → 0 ≤ n → (∀ b, Q b → dec_post (d b) 1 P) → Forall is_byte payload →
  run_dec (b ← pre; count ← rd_u32; rd_counted count (d b)) payload = Ok l →
  (length l ≤ length payload)%nat ∧ Forall P l.
Proof.
  intros Hpre Hn Hd Hb H. unfold run_dec in H. unfold mbind at 1, Dec_bind at 1 in H.
  assert (reader_wf (Reader_new payload)) as Hw by (split; cbn; [lia|done]).
  destruct (pre (Reader_new payload)) as [[b r1]|] eqn:E1; [|done].
  destruct (Hpre _ _ _ Hw E1) as (Hw1 & Hbuf1 & Hp1 & HQ).
  destruct ((count ← rd_u32; rd_counted count (d b)) r1) as [[l' r3]|] eqn:E3; [|done].
  injection H as <-. destruct (counted_step _ _ _ _ _ (Hd b HQ) Hw1 E3) as [Hp3 HP].
  rewrite Hbuf1 in Hp3. cbn in *. split; [lia|done].
Qed.

Lemma counted_bound0 {A} (d : Dec A) P payload l :
  dec_post d 1 P → Forall is_byte payload →
  run_dec (count ← rd_u32; rd_counted count d) payload = Ok l →
  (length l ≤ length payload)%nat ∧ Forall P l.
Proof.
  intros Hd Hb H.
  apply (counted_bound (mret tt) (λ _, d) 0 (λ _, True) P); auto; [by apply post_ret|lia].
Qed.

(** A chain of reads whose first takes at least one byte. *)
Lemma post_bind1 {A B} (d : Dec A) (f : A → Dec B) n P Q :
  dec_post d n P → 1 ≤ n → (∀ a, P a → dec_post (f a) 0 Q) → dec_post (d ≫= f) 1 Q.
Proof.
  intros Hd Hn Hf. apply (post_weaken _ (n + 0) 1 Q); [|lia|done]. by eapply post_bind.
Qed.

Ltac post_first :=
  eapply post_bind1;
  [first [apply post_u8 | apply post_u32 | apply post_u64 | by apply post_id] | lia | intros ? ?];
  repeat post_step; by apply post_ret.

Lemma void_region sizes n r :
  rd_repeat n (rd_untagged_value tag.VOID sizes) r = Ok (replicate n VVoid, r).
Proof.
  assert (rd_untagged_value tag.VOID sizes = mret VVoid) as -> by done.
  induction n as [|n IH]; [done|]. cbn [rd_repeat replicate].
  unfold mbind, Dec_bind, mret, Dec_ret in *. by rewrite IH.
Qed.

Lemma rd_u8_cons t payload : rd_u8 (Reader_new (t :: payload)) = Ok (t, mkReader (t :: payload) 1).
Proof. apply (decodes_u8 t [] payload). Qed.

(** ** Properties *)

(** The request bytes of [EventRequest.Set] are what the JDWP
    specification prescribes: a debuggee that reads them field by field
    recovers exactly the event kind, the suspend policy and every modifier
    (count, class pattern, location, exception filter, step) in order. *)
Theorem event_request_set_encoding sizes kind policy mods rest :
  sizes_ok sizes → Forall (modifier_ok sizes) mods → Z.of_nat (length mods) < 2 ^ 32 →
  run_dec (spec_event_request sizes) (req_event_request_set sizes kind policy mods ++ rest)
  = Ok (kind, policy, mods).
Proof.
  intros Hs Hm Hlen. apply decodes_run. unfold req_event_request_set, spec_event_request.
  rewrite fold_wr_modifier. unfold wr_u32, wr_u8. cbn [app]. unfold as_u32.
  rewrite as_u_small by (unfold is_u; lia).
  eapply (decodes_bind _ _ [_]); [apply decodes_u8|].
  eapply (decodes_bind _ _ [_]); [apply decodes_u8|].
  eapply decodes_bind; [apply decodes_u32; unfold is_u; lia|].
  apply (decodes_bind_ret _ (λ ms, (kind, policy, ms))). unfold rd_counted. rewrite Nat2Z.id.
  apply decodes_repeat. eapply Forall_impl; [done|]. intros m ?. by apply decodes_modifier.
Qed.

Lemma event_request_set_encoding_witness :
  run_dec (spec_event_request sizes_8)
    (req_event_request_set sizes_8 event_kind.BREAKPOINT suspend_policy.ALL
       [MLocationOnly loc_ex; MCount 1] ++ [])
  = Ok (event_kind.BREAKPOINT, suspend_policy.ALL, [MLocationOnly loc_ex; MCount 1]).
Proof.
  apply event_request_set_encoding; [reflexivity| |cbn; lia].
  repeat constructor; cbn; unfold is_u; lia.
Defined.

(** An array region of any element type but [void] is bounded by its
    packet, and its elements are in range for their types. *)
Lemma array_region_bounded sizes t payload vs :
  sizes_ok sizes → Forall is_byte (t :: payload) → t ≠ tag.VOID →
  run_dec (dec_array_region sizes) (t :: payload) = Ok vs →
  (length vs ≤ length (t :: payload))%nat ∧ Forall (value_ok sizes) vs.
Proof.
  intros Hs Hb Ht H. unfold run_dec, dec_array_region in H.
  unfold mbind at 1, Dec_bind at 1 in H. rewrite rd_u8_cons in H.
  match type of H with context [(?m ≫= ?f) ?r] =>
    destruct ((m ≫= f) r) as [[l r3]|] eqn:E; [|done] end.
  injection H as <-. eapply counted_step in E as [Hp HP].
  - split; [cbn in *; lia|exact HP].
  - destruct (is_object_tag t); [by apply post_tagged_value|].
    eapply post_weaken; [by apply post_untagged_value| |intros ? Hx; exact Hx].
    rewrite (proj2 (Z.eqb_neq _ _) Ht). lia.
  - split; [cbn; lia|done].
Qed.

(** A hostile debuggee cannot inflate a reply: the decoded list of
    threads, classes, methods, fields, frames, variable slots or tagged
    values, or an array region of any element type but [void], never has more
    elements than the reply packet has bytes, whatever count the packet
    claims. *)
Theorem reply_lists_bounded sizes payload :
  sizes_ok sizes → Forall is_byte payload →
  (∀ l, run_dec (dec_all_threads sizes) payload = Ok l → (length l ≤ length payload)%nat)
  ∧ (∀ l, run_dec (dec_all_classes sizes) payload = Ok l → (length l ≤ length payload)%nat)
  ∧ (∀ l, run_dec (dec_methods sizes) payload = Ok l → (length l ≤ length payload)%nat)
  ∧ (∀ l, run_dec (dec_fields sizes) payload = Ok l → (length l ≤ length payload)%nat)
  ∧ (∀ l, run_dec (dec_frames sizes) payload = Ok l → (length l ≤ length payload)%nat)
  ∧ (∀ l, run_dec dec_variable_table payload = Ok l → (length l ≤ length payload)%nat)
  ∧ (∀ l, run_dec (dec_tagged_values sizes) payload = Ok l → (length l ≤ length payload)%nat)
  ∧ (∀ l, head payload ≠ Some tag.VOID →
       run_dec (dec_array_region sizes) payload = Ok l → (length l ≤ length payload)%nat).
Proof.
  intros Hs Hb. pose proof (sizes_ok_range _ Hs) as (?&?&?&?&?).
  repeat split; intros l Hl;
    [.. |intros Hr; destruct payload as [|t p];
         [unfold run_dec, dec_array_region in Hr; cbn in Hr; discriminate Hr
         |apply (array_region_bounded sizes t p l Hs Hb); [by intros ->|done]]];
    match goal with
    | H : run_dec dec_variable_table _ = _ |- _ =>
        apply (counted_bound rd_u32 _ 4 (is_u 32) (λ _, True)) in H as [? _];
          [done|apply post_u32|lia| |done]; intros _ _; post_first
    | H : run_dec (dec_all_threads _) _ = _ |- _ =>
        eapply counted_bound0 in H as [? _];
          [done|eapply post_weaken; [by apply post_id|lia|intros ? Hx; exact Hx]|done]
    | H : run_dec (dec_tagged_values _) _ = _ |- _ =>
        eapply counted_bound0 in H as [? _]; [done|by apply post_tagged_value|done]
    | H : run_dec _ _ = _ |- _ =>
        apply (counted_bound0 _ (λ _, True)) in H as [? _]; [done| |done]; post_first
    end.
Qed.

Lemma reply_lists_bounded_witness :
  (length [258; 3]%Z ≤ length (0 :: 0 :: 0 :: 2 :: [1; 2; 0; 3]))%nat.
Proof.
  apply (reply_lists_bounded (mkIdSizes 2 2 2 2 2) [0; 0; 0; 2; 1; 2; 0; 3]);
    [reflexivity | repeat constructor; unfold is_byte; lia | vm_compute; reflexivity].
Defined.

(** A [void] array region is not bounded by its packet: five bytes make
    the adapter build as many values as the count field says, up to 2^32-1. *)
Lemma array_region_void_unbounded sizes n :
  is_u 32 n →
  run_dec (dec_array_region sizes) (tag.VOID :: to_be_bytes 4 n)
  = Ok (replicate (Z.to_nat n) VVoid).
Proof.
  intros Hn. unfold run_dec, dec_array_region. unfold mbind at 1, Dec_bind at 1.
  rewrite rd_u8_cons. unfold mbind, Dec_bind.
  pose proof (decodes_u32 n Hn [tag.VOID] []) as Hd. cbn zeta in Hd.
  rewrite app_nil_r in Hd. cbn [app length] in Hd. change (Z.of_nat 1) with 1 in Hd.
  rewrite Hd. change (is_object_tag tag.VOID) with false. cbn iota.
  unfold rd_counted. by rewrite void_region.
Qed.
