(* ===== verification/JdwpClient.v ===== *)
(** * The JDWP connection ([crates/debug/src/jdwp/mod.rs], [JdwpClient])

    Callers of [command] and the reader task share the pending map under a
    mutex.  Each critical section is one function on the shared state, and
    [cstep] interleaves them; a caller's [oneshot] channel is the field
    [c_chan] of its call.  The reader's parsing of the byte stream is
    [read_packet]. *)
From S2P Require Import Prelude RustStd JdwpCommands JdwpCodec JdwpVm.

Definition HANDSHAKE : string := "JDWP-Handshake".
Definition FLAG_REPLY : Z := 128.
Definition HEADER_LEN : Z := 11.

(** [JdwpClient::connect]'s check of the 14-byte echo; [None]: the stream
    ended first. *)
Definition check_handshake (input : list Z) : option (Result JdwpError (list Z)) :=
  if (length input <? 14)%nat then None
  else if bool_decide (take 14 input = as_bytes HANDSHAKE) then Some (Ok (drop 14 input))
  else Some (Err (JDecode (mkDecodeError "bad JDWP handshake reply"))).

(** ** Packets on the wire *)

(** The packet [command] writes. *)
Definition command_packet (id set cmd : Z) (payload : list Z) : list Z :=
  to_be_bytes 4 (as_u32 (HEADER_LEN + as_u32 (Z.of_nat (length payload))))
  ++ to_be_bytes 4 id ++ [0; set; cmd] ++ payload.

Definition Reply : Type := Result JdwpError (list Z).

Inductive ReaderAction :=
| AReply (id : Z) (r : Reply)
| AEvent (payload : list Z)
| AIgnored
| AStop.

(** One round of [reader_task]'s loop. *)
Definition read_packet (input : list Z) : ReaderAction * list Z :=
  if (length input <? 11)%nat then (AStop, [])
  else
    let header := take 11 input in
    let length_ := from_be_bytes (take 4 header) in
    if negb ((HEADER_LEN <=? length_) && (length_ <=? MAX_PACKET_LEN)) then (AStop, [])
    else
      let id := from_be_bytes (take 4 (drop 4 header)) in
      let flags := byte_at header 8 in
      let n := Z.to_nat (length_ - HEADER_LEN) in
      let rest := drop 11 input in
      if (length rest <? n)%nat then (AStop, [])
      else
        let payload := take n rest in
        (if negb (Z.land flags FLAG_REPLY =? 0) then
           let error_code := from_be_bytes (drop 9 header) in
           AReply id (if error_code =? 0 then Ok payload else Err (JCode error_code))
         else if (byte_at header 9 =? event.SET) && (byte_at header 10 =? event.COMPOSITE)
         then AEvent payload else AIgnored,
         drop n rest).

(** The loop: the actions up to and including the one that stops it.  Every
    packet takes at least a header, so the length is enough fuel. *)
Fixpoint reader_task (fuel : nat) (input : list Z) : list ReaderAction :=
  match fuel with
  | O => [AStop]
  | S f =>
      match read_packet input with
      | (AStop, _) => [AStop]
      | (a, rest) => a :: reader_task f rest
      end
  end.

(** ** The shared state *)

Inductive Phase :=
| PRegistered (packet : list Z)   (** in the map, not yet written *)
| PWaiting                        (** [rx.await] *)
| PReturned (r : Reply).

Record Call := mkCall { c_id : Z; c_phase : Phase; c_chan : option Reply }.

(** [pending] is [None] after teardown.  [received] records the replies
    dispatched so far; nothing reads it. *)
Record Client := mkClient {
  pending : option (gmap Z nat);
  next_id : Z;
  written : list (list Z);
  calls : gmap nat Call;
  received : list (Z * Reply);
}.
Definition Client_new : Client := mkClient (Some ∅) 1 [] ∅ [].

(** [tx.send(r)], or [Err(Closed)] for a dropped [tx]: a channel carries one
    value. *)
Definition resolve (k : nat) (r : Reply) (cs : gmap nat Call) : gmap nat Call :=
  alter (λ c, mkCall (c_id c) (c_phase c)
                (match c_chan c with Some x => Some x | None => Some r end)) k cs.
Definition drop_sender (o : option nat) (cs : gmap nat Call) : gmap nat Call :=
  match o with Some k => resolve k (Err JClosed) cs | None => cs end.

(** [command] up to the write: take an id, register. *)
Definition register (k : nat) (set cmd : Z) (payload : list Z) (c : Client) : Client :=
  let id := next_id c in
  let next := as_u32 (id + 1) in
  match pending c with
  | None =>
      mkClient None next (written c)
        (<[k := mkCall id (PReturned (Err JClosed)) None]> (calls c)) (received c)
  | Some m =>
      mkClient (Some (<[id := k]> m)) next (written c)
        (<[k := mkCall id (PRegistered (command_packet id set cmd payload)) None]>
           (drop_sender (m !! id) (calls c))) (received c)
  end.

Definition set_phase (k : nat) (p : Phase) (cs : gmap nat Call) : gmap nat Call :=
  alter (λ c, mkCall (c_id c) p (c_chan c)) k cs.

(** [w.write_all(&packet)] succeeded. *)
Definition write_ok (k : nat) (packet : list Z) (c : Client) : Client :=
  mkClient (pending c) (next_id c) (written c ++ [packet]) (set_phase k PWaiting (calls c)) (received c).

(** ... or failed: the entry is removed from the map (its sender dropped). *)
Definition write_failed (k : nat) (id : Z) (e : string) (c : Client) : Client :=
  let cs := set_phase k (PReturned (Err (JIo e))) (calls c) in
  match pending c with
  | None => mkClient None (next_id c) (written c) cs (received c)
  | Some m => mkClient (Some (delete id m)) (next_id c) (written c) (drop_sender (m !! id) cs) (received c)
  end.

(** The reader dispatches a reply. *)
Definition dispatch_reply (id : Z) (r : Reply) (c : Client) : Client :=
  match pending c with
  | None => c
  | Some m =>
      match m !! id with
      | None => c
      | Some k => mkClient (Some (delete id m)) (next_id c) (written c) (resolve k r (calls c))
                    ((id, r) :: received c)
      end
  end.

(** The reader's teardown: fail all pending and refuse new commands. *)
Definition teardown (c : Client) : Client :=
  match pending c with
  | None => c
  | Some m =>
      mkClient None (next_id c) (written c)
        (foldr (λ '(_, k) cs, resolve k (Err JClosed) cs) (calls c) (map_to_list m)) (received c)
  end.

(** ** Interleavings *)

Inductive cstep : Client → Client → Prop :=
| c_register k set cmd payload c :
    calls c !! k = None → cstep c (register k set cmd payload c)
| c_write_ok k id packet o c :
    calls c !! k = Some (mkCall id (PRegistered packet) o) → cstep c (write_ok k packet c)
| c_write_failed k id packet o e c :
    calls c !! k = Some (mkCall id (PRegistered packet) o) → cstep c (write_failed k id e c)
| c_return k id r c :
    calls c !! k = Some (mkCall id PWaiting (Some r)) →
    cstep c (mkClient (pending c) (next_id c) (written c) (set_phase k (PReturned r) (calls c)) (received c))
| c_reply id r c : cstep c (dispatch_reply id r c)
| c_teardown c : cstep c (teardown c).

Definition reachable (c : Client) : Prop := rtc cstep Client_new c.

(** ** The invariant *)

Definition returned (c : Call) : Prop := match c_phase c with PReturned _ => True | _ => False end.

(** A live call without a result is in the map under its id; the map holds
    nothing else. *)
Definition client_ok (c : Client) : Prop :=
  (∀ id k m, pending c = Some m → m !! id = Some k →
     ∃ cl, calls c !! k = Some cl ∧ c_id cl = id ∧ c_chan cl = None ∧ ¬ returned cl)
  ∧ (∀ k cl, calls c !! k = Some cl → c_chan cl = None → ¬ returned cl →
       ∃ m, pending c = Some m ∧ m !! c_id cl = Some k)
  ∧ (∀ k cl p, calls c !! k = Some cl → c_chan cl = Some (Ok p) → (c_id cl, Ok p) ∈ received c)
  ∧ (∀ k cl p, calls c !! k = Some cl → c_phase cl = PReturned (Ok p) → c_chan cl = Some (Ok p)).

(** ** Lemmas *)

Definition fill (r : Reply) (c : Call) : Call :=
  mkCall (c_id c) (c_phase c) (match c_chan c with Some x => Some x | None => Some r end).

Lemma lookup_resolve k r cs k' :
  resolve k r cs !! k' = (if decide (k = k') then fill r <$> cs !! k' else cs !! k').
Proof.
  unfold resolve. case_decide as H; [subst k'; by rewrite lookup_alter_eq|].
  by rewrite lookup_alter_ne.
Qed.
Lemma lookup_set_phase k p cs k' :
  set_phase k p cs !! k'
  = (if decide (k = k') then (λ c, mkCall (c_id c) p (c_chan c)) <$> cs !! k' else cs !! k').
Proof.
  unfold set_phase. case_decide as H; [subst k'; by rewrite lookup_alter_eq|].
  by rewrite lookup_alter_ne.
Qed.
Lemma lookup_drop_sender o cs k' :
  drop_sender o cs !! k'
  = (if decide (o = Some k') then fill (Err JClosed) <$> cs !! k' else cs !! k').
Proof.
  destruct o as [k|]; cbn; [|by case_decide]. rewrite lookup_resolve.
  repeat case_decide; congruence.
Qed.

Lemma lookup_resolve_all (l : list (Z * nat)) cs k :
  foldr (λ '(_, k) cs, resolve k (Err JClosed) cs) cs l !! k
  = (if decide (k ∈ l.*2) then fill (Err JClosed) <$> cs !! k else cs !! k).
Proof.
  induction l as [|[i k0] l IH]; [done|].
  cbn [foldr]. rewrite lookup_resolve, IH. rewrite fmap_cons. cbn [snd].
  destruct (decide (k0 = k)) as [->|Hne].
  - rewrite (decide_True (P := k ∈ k :: l.*2)) by (by left). case_decide; [|done].
    destruct (cs !! k) as [[? ? [?|]]|]; done.
  - destruct (decide (k ∈ l.*2)).
    + rewrite decide_True; [done|]. by right.
    + rewrite decide_False; [done|]. rewrite elem_of_cons. intuition congruence.
Qed.

Lemma client_ok_new : client_ok Client_new.
Proof.
  split_and!; cbn -[lookup]; intros *; try (rewrite lookup_empty; done).
  intros [= <-]. by rewrite lookup_empty.
Qed.

Ltac client_cases :=
  repeat match goal with
  | H : context [decide ?P] |- _ => destruct (decide P); subst
  | H : fmap _ (?cs !! ?k) = Some _ |- _ =>
      let c0 := fresh "c0" in let E := fresh "E" in
      destruct (cs !! k) as [c0|] eqn:E; cbn in H; [injection H as H; subst|discriminate H]
  end.

Lemma client_ok_register k set cmd payload c :
  calls c !! k = None → client_ok c → client_ok (register k set cmd payload c).
Proof.
  intros Hk (H1 & H2 & H3 & H4). unfold register. destruct (pending c) as [m|] eqn:Hp.
  - assert (∀ id, m !! id ≠ Some k) as Hno.
    { intros id Hx. destruct (H1 id k m eq_refl Hx) as (? & ? & _). congruence. }
    split_and!; cbn -[lookup insert drop_sender].
    + intros id k' m' [= <-] Hl. destruct (decide (id = next_id c)) as [->|Hid].
      * rewrite lookup_insert_eq in Hl. injection Hl as <-. rewrite lookup_insert_eq.
        eexists. split; [done|]. cbn. by split_and!; [|..|intros []].
      * rewrite lookup_insert_ne in Hl by done.
        assert (k' ≠ k) by (intros ->; by apply (Hno id)). rewrite lookup_insert_ne by done.
        rewrite lookup_drop_sender. destruct (H1 id k' m eq_refl Hl) as (cl & Hc & Hi & Hch & Hr).
        case_decide as Hd; [|eauto].
        destruct (H1 _ _ _ eq_refl Hd) as (cl' & Hc' & Hi' & _). congruence.
    + intros k' cl Hl Hch Hr. destruct (decide (k' = k)) as [->|Hkk].
      * rewrite lookup_insert_eq in Hl. injection Hl as <-. cbn. eexists. split; [done|].
        by rewrite lookup_insert_eq.
      * rewrite lookup_insert_ne, lookup_drop_sender in Hl by done.
        case_decide as Hd.
        -- destruct (calls c !! k') as [[? ? [?|]]|]; cbn in Hl; simplify_eq; cbn in Hch; done.
        -- destruct (H2 _ _ Hl Hch Hr) as (m' & [= <-] & Hm). eexists. split; [done|].
           rewrite lookup_insert_ne; [done|]. intros Heq. rewrite <- Heq in Hm. congruence.
    + intros k' cl p Hl Hch. destruct (decide (k' = k)) as [->|Hkk];
        [rewrite lookup_insert_eq in Hl; injection Hl as <-; done|].
      rewrite lookup_insert_ne, lookup_drop_sender in Hl by done. case_decide; [|eauto].
      destruct (calls c !! k') as [[? ? [?|]]|] eqn:Hc; cbn in Hl; simplify_eq; cbn in Hch;
        simplify_eq. apply (H3 _ _ _ Hc eq_refl).
    + intros k' cl p Hl Hph. destruct (decide (k' = k)) as [->|Hkk];
        [rewrite lookup_insert_eq in Hl; injection Hl as <-; done|].
      rewrite lookup_insert_ne, lookup_drop_sender in Hl by done. case_decide; [|eauto].
      destruct (calls c !! k') as [cl'|] eqn:Hc; cbn in Hl; simplify_eq. cbn in *.
      by rewrite (H4 _ _ _ Hc Hph).
  - split_and!; cbn -[lookup insert]; intros k' *; try done; intros Hl;
      (destruct (decide (k' = k)) as [->|Hkk];
       [rewrite lookup_insert_eq in Hl; injection Hl as <-; cbn; try done; by intros _ []
       |rewrite lookup_insert_ne in Hl by done; eauto]).
Qed.

(** Advancing a call whose result stays where it is. *)
Lemma client_ok_phase c c' k p :
  pending c' = pending c → received c' = received c → calls c' = set_phase k p (calls c) →
  (∀ cl, calls c !! k = Some cl → ¬ returned cl) →
  (∀ r, p = PReturned r → ∃ cl, calls c !! k = Some cl ∧ c_chan cl = Some r) →
  client_ok c → client_ok c'.
Proof.
  intros Hp Hr Hc Hlive Hret (H1 & H2 & H3 & H4). unfold client_ok. rewrite Hp, Hr, Hc. split_and!.
  - intros id k' m Hm Hl. destruct (H1 id k' m Hm Hl) as (cl & Hk & Hi & Hch & Hn).
    rewrite lookup_set_phase, Hk. case_decide; [subst k'|eauto]. eexists. split; [done|].
    split_and!; try done. cbn. intros Hx. destruct p as [| |r]; try done.
    destruct (Hret r eq_refl) as (? & ? & ?). congruence.
  - intros k' cl. rewrite lookup_set_phase. case_decide; [subst k'|eauto].
    destruct (calls c !! k) as [cl0|] eqn:Hk; [|done]. intros [= <-]. cbn. intros Hch _.
    exact (H2 k cl0 Hk Hch (Hlive _ eq_refl)).
  - intros k' cl q. rewrite lookup_set_phase. case_decide; [subst k'|eauto].
    destruct (calls c !! k) as [cl0|] eqn:Hk; [|done]. intros [= <-]. cbn. exact (H3 k cl0 q Hk).
  - intros k' cl q. rewrite lookup_set_phase. case_decide; [subst k'|eauto].
    destruct (calls c !! k) as [cl0|] eqn:Hk; [|done]. intros [= <-]. cbn. intros ->.
    destruct (Hret _ eq_refl) as (cl1 & Hx & Hy). injection Hx as <-. exact Hy.
Qed.

(** Taking an entry out of the map with a result for its call. *)
Lemma client_ok_resolve c c' m id k r :
  pending c = Some m → m !! id = Some k → pending c' = Some (delete id m) →
  calls c' = resolve k r (calls c) →
  (∀ q, r = Ok q → (id, Ok q) ∈ received c') → (∀ x, x ∈ received c → x ∈ received c') →
  client_ok c → client_ok c'.
Proof.
  intros Hp Hm Hp' Hc Hr Hsub (H1 & H2 & H3 & H4). unfold client_ok. rewrite Hp', Hc.
  destruct (H1 _ _ _ Hp Hm) as (cl0 & Hk & Hi & Hch & Hn). split_and!.
  - intros id' k' m' [= <-] Hl. destruct (decide (id' = id)) as [->|Hne];
      [by rewrite lookup_delete_eq in Hl|].
    rewrite lookup_delete_ne in Hl by done. destruct (H1 _ _ _ Hp Hl) as (cl & Hk' & Hi' & Hx).
    rewrite lookup_resolve. case_decide; [congruence|eauto].
  - intros k' cl. rewrite lookup_resolve. case_decide; [subst k'|].
    + rewrite Hk. intros [= <-]. cbn. by rewrite Hch.
    + intros Hl Hx Hy. destruct (H2 _ _ Hl Hx Hy) as (m' & Hpm & Hm').
      assert (m' = m) as -> by congruence. eexists. split; [done|].
      rewrite lookup_delete_ne; [done|]. intros Heq. rewrite <- Heq in Hm'. congruence.
  - intros k' cl q. rewrite lookup_resolve. case_decide; [subst k'|eauto].
    rewrite Hk. intros [= <-]. cbn. rewrite Hch. intros [= ->]. rewrite Hi. auto.
  - intros k' cl q. rewrite lookup_resolve. case_decide; [subst k'|eauto].
    rewrite Hk. intros [= <-]. cbn. intros Hph. exfalso. apply Hn. unfold returned. by rewrite Hph.
Qed.

(** A call that no longer waits may return an error. *)
Lemma client_ok_returned c c' k e :
  client_ok c → pending c' = pending c → received c' = received c →
  calls c' = set_phase k (PReturned (Err e)) (calls c) →
  (∃ cl, calls c !! k = Some cl ∧ c_chan cl ≠ None) → client_ok c'.
Proof.
  intros (H1 & H2 & H3 & H4) Hp Hr Hc (cl0 & Hk & Hch). unfold client_ok. rewrite Hp, Hr, Hc. split_and!.
  - intros id k' m Hm Hl. destruct (H1 id k' m Hm Hl) as (cl & Hk' & Hi & Hx & Hn).
    rewrite lookup_set_phase, Hk'. case_decide; [congruence|eauto].
  - intros k' cl. rewrite lookup_set_phase. case_decide; [subst k'|eauto].
    rewrite Hk. intros [= <-]. by cbn.
  - intros k' cl q. rewrite lookup_set_phase. case_decide; [subst k'|eauto].
    rewrite Hk. intros [= <-]. cbn. exact (H3 k cl0 q Hk).
  - intros k' cl q. rewrite lookup_set_phase. case_decide; [subst k'|eauto].
    rewrite Hk. by intros [= <-].
Qed.

Lemma resolve_phase_comm k k' r p cs :
  resolve k r (set_phase k' p cs) = set_phase k' p (resolve k r cs).
Proof.
  apply map_eq. intros i. rewrite lookup_resolve, !lookup_set_phase, lookup_resolve.
  repeat case_decide; try done. by destruct (cs !! i).
Qed.

Lemma client_ok_write_failed k id packet o e c :
  calls c !! k = Some (mkCall id (PRegistered packet) o) → client_ok c →
  client_ok (write_failed k id e c).
Proof.
  intros Hk Hok. unfold write_failed. destruct (pending c) as [m|] eqn:Hp.
  - destruct (m !! id) as [k0|] eqn:Hm; cbn [drop_sender].
    + assert (client_ok (mkClient (Some (delete id m)) (next_id c) (written c)
                (resolve k0 (Err JClosed) (calls c)) (received c))) as Hok1
        by (eapply client_ok_resolve; [exact Hp|exact Hm|done|done|done|done|done]).
      eapply client_ok_returned; [exact Hok1|..]; cbn -[lookup]; try done.
      * by rewrite resolve_phase_comm.
      * rewrite lookup_resolve. case_decide as Hd; [subst k0|].
        -- rewrite Hk. eexists. split; [done|]. cbn. by destruct o.
        -- exists (mkCall id (PRegistered packet) o). split; [done|]. destruct o; [done|]. exfalso.
           destruct Hok as (_ & H2 & _). destruct (H2 _ _ Hk) as (m' & ? & Hx); [done|by intros []|].
           cbn in Hx. congruence.
    + rewrite delete_id by done.
      eapply client_ok_returned; [exact Hok|..]; cbn -[lookup]; try done.
      eexists. split; [done|]. destruct o; [done|]. exfalso.
      destruct Hok as (_ & H2 & _). destruct (H2 _ _ Hk) as (m' & ? & Hx); [done|by intros []|].
      cbn in Hx. congruence.
  - eapply client_ok_returned; [exact Hok|..]; cbn -[lookup]; try done.
    eexists. split; [done|]. destruct o; [done|]. exfalso.
    destruct Hok as (_ & H2 & _). destruct (H2 _ _ Hk) as (m' & ? & Hx); [done|by intros []|].
    congruence.
Qed.

Lemma client_ok_teardown c : client_ok c → client_ok (teardown c).
Proof.
  intros Hok. unfold teardown. destruct (pending c) as [m|] eqn:Hp; [|done].
  destruct Hok as (H1 & H2 & H3 & H4). unfold client_ok. cbn [pending calls received]. split_and!.
  - done.
  - intros k cl. rewrite lookup_resolve_all. case_decide as Hin.
    + destruct (calls c !! k) as [cl0|] eqn:Hk; [|done]. intros [= <-]. cbn. by destruct (c_chan cl0).
    + intros Hk Hch Hn. exfalso. apply Hin. destruct (H2 _ _ Hk Hch Hn) as (m' & Hm & Hl).
      assert (m' = m) as -> by congruence.
      apply list_elem_of_fmap. exists (c_id cl, k). split; [done|]. by apply elem_of_map_to_list.
  - intros k cl q. rewrite lookup_resolve_all. case_decide; [|apply H3].
    destruct (calls c !! k) as [cl0|] eqn:Hk; [|done]. intros [= <-]. cbn.
    destruct (c_chan cl0) eqn:Hch; [|done]. intros Hq. apply (H3 k cl0 q Hk). congruence.
  - intros k cl q. rewrite lookup_resolve_all. case_decide; [|apply H4].
    destruct (calls c !! k) as [cl0|] eqn:Hk; [|done]. intros [= <-]. cbn.
    intros Hph. by rewrite (H4 k cl0 q Hk Hph).
Qed.

Lemma client_ok_step c c' : cstep c c' → client_ok c → client_ok c'.
Proof.
  intros H Hok. destruct H as [k set cmd payload c Hk|k id packet o c Hk|k id packet o e c Hk
    |k id r c Hk|id r c|c].
  - by apply client_ok_register.
  - eapply (client_ok_phase c _ k PWaiting); try done. intros cl Hc Hr.
    rewrite Hk in Hc. by injection Hc as <-.
  - by eapply client_ok_write_failed.
  - eapply (client_ok_phase c _ k (PReturned r)); try done.
    + intros cl Hc Hr. rewrite Hk in Hc. by injection Hc as <-.
    + intros r' [= <-]. eauto.
  - unfold dispatch_reply. destruct (pending c) as [m|] eqn:Hp; [|done].
    destruct (m !! id) as [k|] eqn:Hm; [|done].
    eapply client_ok_resolve; [exact Hp|exact Hm|done|done| |by right|done].
    intros q ->. by left.
  - by apply client_ok_teardown.
Qed.

Lemma reachable_ok c : reachable c → client_ok c.
Proof.
  intros H. unfold reachable in H. remember Client_new as c0 eqn:E.
  assert (client_ok c0) as Hok by (subst; apply client_ok_new). clear E.
  induction H as [|c1 c2 c3 Hs _ IH]; [done|]. apply IH. by eapply client_ok_step.
Qed.

(** ** Framing *)

Definition packet_bytes (id : Z) (flags : Z) (tail payload : list Z) : list Z :=
  to_be_bytes 4 (HEADER_LEN + Z.of_nat (length payload)) ++ to_be_bytes 4 id ++ [flags] ++ tail ++ payload.

(** The debuggee's packets: a reply, an event. *)
Definition encode_action (a : ReaderAction) : list Z :=
  match a with
  | AReply id (Ok payload) => packet_bytes id FLAG_REPLY [0; 0] payload
  | AReply id (Err (JCode e)) => packet_bytes id FLAG_REPLY (to_be_bytes 2 e) []
  | AEvent payload => packet_bytes 0 0 [event.SET; event.COMPOSITE] payload
  | _ => []
  end.
Definition action_ok (a : ReaderAction) : Prop :=
  match a with
  | AReply id (Ok payload) => is_u 32 id ∧ HEADER_LEN + Z.of_nat (length payload) ≤ MAX_PACKET_LEN
  | AReply id (Err (JCode e)) => is_u 32 id ∧ 0 < e < 2 ^ 16
  | AEvent payload => HEADER_LEN + Z.of_nat (length payload) ≤ MAX_PACKET_LEN
  | _ => False
  end.

Lemma read_packet_bytes id flags t1 t2 payload rest :
  is_u 32 id → HEADER_LEN + Z.of_nat (length payload) ≤ MAX_PACKET_LEN →
  read_packet (packet_bytes id flags [t1; t2] payload ++ rest)
  = (if negb (Z.land flags FLAG_REPLY =? 0) then
       AReply id (if from_be_bytes [t1; t2] =? 0 then Ok payload
                  else Err (JCode (from_be_bytes [t1; t2])))
     else if (t1 =? event.SET) && (t2 =? event.COMPOSITE) then AEvent payload else AIgnored, rest).
Proof.
  intros Hid Hlen. unfold packet_bytes.
  set (len := HEADER_LEN + Z.of_nat (length payload)) in *.
  assert (0 ≤ len < 2 ^ 32) as Hl by (unfold len, HEADER_LEN, MAX_PACKET_LEN in *; lia).
  pose proof (length_to_be_bytes 4 len) as L1. pose proof (length_to_be_bytes 4 id) as L2.
  pose proof (from_to_be_bytes_small 4 len ltac:(done)) as F1.
  pose proof (from_to_be_bytes_small 4 id Hid) as F2.
  destruct (to_be_bytes 4 len) as [|a0 [|a1 [|a2 [|a3 [|]]]]]; try discriminate L1.
  destruct (to_be_bytes 4 id) as [|b0 [|b1 [|b2 [|b3 [|]]]]]; try discriminate L2.
  unfold read_packet. cbn [app length take drop byte_at lookup list_lookup default].
  change (S (S _) <? 11)%nat with false. cbn iota. rewrite drop_0, take_0, F1, F2.
  replace ((HEADER_LEN <=? len) && (len <=? MAX_PACKET_LEN)) with true
    by (unfold len, HEADER_LEN in *; lia). cbn [negb].
  assert (Z.to_nat (len - HEADER_LEN) = length payload) as -> by (unfold len; lia).
  destruct (drop_take_app (length payload) payload rest eq_refl) as [Ht Hd].
  destruct (Nat.ltb_spec (length (payload ++ rest)) (length payload)) as [Hx|_];
    [rewrite length_app in Hx; lia|].
  by rewrite Ht, Hd.
Qed.

Lemma read_encoded a rest : action_ok a → read_packet (encode_action a ++ rest) = (a, rest).
Proof.
  destruct a as [id [payload|[e| |c|]]|payload| |]; cbn [action_ok encode_action]; try done.
  - intros [Hid Hl]. by rewrite read_packet_bytes.
  - intros [Hid Hc]. pose proof (length_to_be_bytes 2 c) as L.
    pose proof (from_to_be_bytes_small 2 c ltac:(unfold is_u; lia)) as F.
    destruct (to_be_bytes 2 c) as [|t1 [|t2 [|]]]; try discriminate L.
    rewrite read_packet_bytes by done. cbn [negb]. rewrite F.
    change (Z.land FLAG_REPLY FLAG_REPLY =? 0) with false. cbn [negb].
    destruct (Z.eqb_spec c 0); [lia|done].
  - intros Hl. by rewrite read_packet_bytes.
Qed.

Lemma encode_action_length a : action_ok a → (11 ≤ length (encode_action a))%nat.
Proof.
  destruct a as [id [payload|[e| |c|]]|payload| |]; cbn [action_ok encode_action]; try done;
    intros _; unfold packet_bytes; rewrite !length_app, !length_to_be_bytes; cbn; lia.
Qed.

(** ** The theorems *)

(** C3: However callers and the reader interleave, no command is left
    hanging: while the connection is up, a call without a result is in the
    pending map under its own id; once the reader has torn down, every call
    has returned or has its result waiting in its channel. *)
Theorem no_call_left_hanging c k cl :
  reachable c → calls c !! k = Some cl →
  match pending c with
  | Some m => (∃ r, c_phase cl = PReturned r) ∨ is_Some (c_chan cl) ∨ m !! c_id cl = Some k
  | None => (∃ r, c_phase cl = PReturned r) ∨ is_Some (c_chan cl)
  end.
Proof.
  intros (H1 & H2 & _)%reachable_ok Hk.
  destruct (c_phase cl) as [packet| |r] eqn:Hp; [| |destruct (pending c); eauto];
    (destruct (c_chan cl) eqn:Hc; [destruct (pending c); eauto|];
     destruct (H2 k cl Hk Hc) as (m & Hm & Hl); [unfold returned; rewrite Hp; tauto|];
     rewrite Hm; auto).
Qed.

(** C8: A reply reaches the call it answers: a call returns a payload only if
    the debuggee sent that payload in a reply carrying the call's id. *)
Theorem replies_routed_by_id c k cl payload :
  reachable c → calls c !! k = Some cl → c_phase cl = PReturned (Ok payload) →
  (c_id cl, Ok payload) ∈ received c.
Proof. intros (_ & _ & H3 & H4)%reachable_ok Hk Hp. eauto. Qed.

(** The reader recovers exactly the packets the debuggee sent: a stream of
    encoded replies and events is read back as that sequence, followed by
    the end of the connection. *)
Theorem reader_roundtrip acts :
  Forall action_ok acts →
  let input := concat (encode_action <$> acts) in
  reader_task (S (length input)) input = acts ++ [AStop].
Proof.
  intros Hall. cbn zeta.
  assert (∀ f, (length (concat (encode_action <$> acts)) < f)%nat →
    reader_task f (concat (encode_action <$> acts)) = acts ++ [AStop]) as H; [|apply H; lia].
  induction Hall as [|a acts Ha _ IH]; intros [|f] Hf; cbn [reader_task]; try lia; [done|].
  rewrite fmap_cons in *. cbn [concat] in *. pose proof (encode_action_length a Ha).
  rewrite length_app in Hf. rewrite read_encoded by done. rewrite IH by lia. by destruct a.
Qed.

(** Nothing the debuggee sends makes the reader buffer more than a packet
    of [MAX_PACKET_LEN]: the payload of every reply and event is bounded, and
    it is a part of the input. *)
Theorem reader_payload_bounded input a rest payload :
  read_packet input = (a, rest) →
  a = AEvent payload ∨ (∃ id, a = AReply id (Ok payload)) →
  HEADER_LEN + Z.of_nat (length payload) ≤ MAX_PACKET_LEN
  ∧ ∃ header, length header = 11%nat ∧ input = header ++ payload ++ rest.
Proof.
  unfold read_packet. intros H Ha.
  destruct (Nat.ltb_spec (length input) 11); [destruct Ha as [->|[? ->]]; done|].
  destruct (negb _) eqn:Hb; [destruct Ha as [->|[? ->]]; done|].
  apply negb_false_iff, andb_true_iff in Hb as [Hb1 Hb2].
  set (len := from_be_bytes _) in *. set (n := Z.to_nat (len - HEADER_LEN)) in *.
  destruct (Nat.ltb_spec (length (drop 11 input)) n); [destruct Ha as [->|[? ->]]; done|].
  injection H as <- <-.
  assert (payload = take n (drop 11 input)) as ->.
  { destruct Ha as [Ha|[id Ha]]; repeat case_match; congruence. }
  rewrite length_take_le by done. unfold HEADER_LEN in *. split; [unfold n; lia|].
  exists (take 11 input). rewrite length_take_le by lia. split; [done|].
  by rewrite !take_drop.
Qed.

(** ** Instances *)

Definition ex_client : Client :=
  dispatch_reply 1 (Ok [7]) (write_ok 0 (command_packet 1 1 7 []) (register 0 1 7 [] Client_new)).

Lemma ex_client_reachable : reachable ex_client.
Proof.
  unfold reachable, ex_client. eapply rtc_l; [by apply (c_register 0 1 7 [])|].
  eapply rtc_l; [eapply (c_write_ok 0 1); vm_compute; reflexivity|].
  apply rtc_once, c_reply.
Qed.

Lemma no_call_left_hanging_witness :
  match pending ex_client with
  | Some m => (∃ r, PWaiting = PReturned r) ∨ is_Some (Some (Ok [7] : Reply)) ∨ m !! 1 = Some 0%nat
  | None => (∃ r, PWaiting = PReturned r) ∨ is_Some (Some (Ok [7] : Reply))
  end.
Proof.
  apply (no_call_left_hanging ex_client 0 (mkCall 1 PWaiting (Some (Ok [7]))) ex_client_reachable).
  vm_compute. reflexivity.
Defined.

Definition ex_client2 : Client :=
  mkClient (pending ex_client) (next_id ex_client) (written ex_client)
    (set_phase 0 (PReturned (Ok [7])) (calls ex_client)) (received ex_client).

Lemma replies_routed_by_id_witness : (1, Ok [7]) ∈ received ex_client2.
Proof.
  apply (replies_routed_by_id ex_client2 0 (mkCall 1 (PReturned (Ok [7])) (Some (Ok [7])))).
  - unfold reachable. eapply rtc_r; [apply ex_client_reachable|].
    eapply (c_return 0 1 (Ok [7]) ex_client). vm_compute. reflexivity.
  - vm_compute. reflexivity.
  - reflexivity.
Defined.

Lemma reader_roundtrip_witness :
  let input := concat (encode_action <$> [AReply 3 (Ok [1; 2]); AEvent [9]]) in
  reader_task (S (length input)) input = [AReply 3 (Ok [1; 2]); AEvent [9]; AStop].
Proof.
  apply (reader_roundtrip [AReply 3 (Ok [1; 2]); AEvent [9]]).
  repeat constructor; vm_compute; (done || discriminate).
Defined.

Lemma reader_payload_bounded_witness :
  HEADER_LEN + Z.of_nat (length [9]) ≤ MAX_PACKET_LEN
  ∧ ∃ header, length header = 11%nat ∧ encode_action (AEvent [9]) = header ++ [9] ++ [].
Proof.
  apply (reader_payload_bounded (encode_action (AEvent [9])) (AEvent [9]) [] [9]);
    [vm_compute; reflexivity | by left].
Defined.
