(* ===== verification/DapProtocol.v ===== *)
(** * The DAP wire ([crates/debug/src/dap/protocol.rs])

    [Content-Length] framing over a byte stream, the sequenced [DapWriter],
    and the request argument records.  JSON text is [serde_json]'s business:
    its printer and parser are the interface [SerdeJson]. *)
From S2P Require Import Prelude RustStd.


(** [serde_json::Value]; the numbers the adapter handles are integers. *)
Inductive Json :=
| JNull
| JBool (b : bool)
| JNum (n : Z)
| JStr (s : string)
| JArr (l : list Json)
| JObj (fields : list (string * Json)).

(** [value[key]] on a shared reference: [Null] when absent. *)
Definition json_get (key : string) (j : Json) : Json :=
  match j with
  | JObj fs => default JNull (snd <$> List.find (λ kv, bool_decide (kv.1 = key)) fs)
  | _ => JNull
  end.
(** [value[key] = v] on an object: replace or insert. *)
Definition json_set (key : string) (v : Json) (j : Json) : Json :=
  match j with
  | JObj fs => JObj (List.filter (λ kv, negb (bool_decide (kv.1 = key))) fs ++ [(key, v)])
  | _ => j
  end.
(** [as_i64().unwrap_or(d)], [as_str().unwrap_or(d)] *)
Definition as_i64_or (d : Z) (j : Json) : Z :=
  match j with
  | JNum n => if (- 2 ^ 63 <=? n) && (n <? 2 ^ 63) then n else d
  | _ => d
  end.
Definition as_str_or (d : string) (j : Json) : string := match j with JStr s => s | _ => d end.

(** The JSON library: [Value::to_string] and [serde_json::from_slice]. *)
Class SerdeJson := {
  to_string : Json → string;
  from_slice : list Z → option Json;
}.

Definition MAX_BODY_LEN : Z := 16 * 1024 * 1024.

(** ** Reading *)

Inductive IoError := UnexpectedEof | InvalidData (msg : string).

(** The bytes up to and including the next newline (or to the end). *)
Fixpoint next_line (l : list Z) : list Z * list Z :=
  match l with
  | [] => ([], [])
  | b :: l' => if b =? 10 then ([b], l')
               else let '(x, y) := next_line l' in (b :: x, y)
  end.

(** The header loop: each round reads a non-empty line, so one round per byte
    is enough.  [Ok None] is a clean end of input. *)
Fixpoint read_headers (fuel : nat) (content_length : option Z) (input : list Z) :
    Result IoError (option (option Z * list Z)) :=
  match fuel with
  | O => Ok None
  | S f =>
      let '(raw, rest) := next_line input in
      match raw with
      | [] => Ok None
      | _ =>
        match from_utf8 raw with
        | None => Err (InvalidData "stream did not contain valid UTF-8")
        | Some text =>
          let line := trim_end text in
          if bool_decide (line = "") then Ok (Some (content_length, rest))
          else
            match strip_prefix "Content-Length:" line with
            | Some value => read_headers f (parse_uint 64 (trim value)) rest
            | None => read_headers f content_length rest
            end
        end
      end
  end.

(** [read_message]: the message, if any, and the unread input. *)
Definition read_message `{SerdeJson} (input : list Z) :
    Result IoError (option (Json * list Z)) :=
  match read_headers (S (length input)) None input with
  | Err e => Err e
  | Ok None => Ok None
  | Ok (Some (content_length, rest)) =>
      match content_length with
      | Some len =>
          if len <=? MAX_BODY_LEN then
            if Z.of_nat (length rest) <? len then Err UnexpectedEof
            else
              match from_slice (take (Z.to_nat len) rest) with
              | Some j => Ok (Some (j, drop (Z.to_nat len) rest))
              | None => Err (InvalidData "malformed JSON body")
              end
          else Err (InvalidData "missing or oversized Content-Length")
      | None => Err (InvalidData "missing or oversized Content-Length")
      end
  end.

(** ** Writing *)

(** [DapWriter]: the last sequence number and what was written, newest
    first. *)
Record DapWriter := mkDapWriter { seq : Z; out : list Json }.
Definition DapWriter_new : DapWriter := mkDapWriter 0 [].

(** The frame of one message on the wire. *)
Definition frame_of `{SerdeJson} (message : Json) : list Z :=
  let body := to_string message in
  as_bytes ("Content-Length: " +:+ pretty (str_len body) +:+ crlf +:+ crlf +:+ body).

Definition send (message : Json) (w : DapWriter) : DapWriter :=
  let seq' := seq w + 1 in
  mkDapWriter seq' (json_set "seq" (JNum seq') message :: out w).

Definition response (request_seq : Z) (command : string) (result : Result string Json) : Json :=
  match result with
  | Ok body =>
      JObj [("type", JStr "response"); ("request_seq", JNum request_seq);
            ("command", JStr command); ("success", JBool true); ("body", body)]
  | Err text =>
      JObj [("type", JStr "response"); ("request_seq", JNum request_seq);
            ("command", JStr command); ("success", JBool false); ("message", JStr text)]
  end.
Definition event_msg (name : string) (body : Json) : Json :=
  JObj [("type", JStr "event"); ("event", JStr name); ("body", body)].

Definition respond (request_seq : Z) (command : string) (result : Result string Json) :
    DapWriter → DapWriter := send (response request_seq command result).
Definition event (name : string) (body : Json) : DapWriter → DapWriter :=
  send (event_msg name body).
Definition output_body (category text : string) : Json :=
  JObj [("category", JStr category); ("output", JStr text)].
Definition output (category text : string) : DapWriter → DapWriter :=
  event "output" (output_body category text).

(** ** Request arguments *)
Record LaunchArgs := mkLaunchArgs {
  la_main_class : option string;
  la_args : list string;
  la_vm_args : list string;
  la_cwd : option string;
  la_env : list (string * string);
  la_project_root : option string;
  la_class_paths : list string;
  la_stop_on_entry : bool;
  la_include_test_outputs : bool;
  la_additional_class_paths : list string;
  la_jdk_home : option string;
}.
Record AttachArgs := mkAttachArgs {
  aa_host_name : option string;
  aa_port : option Z;
  aa_timeout : option Z;
  aa_project_root : option string;
  aa_source_paths : list string;
}.
Record SetBreakpointsArgs := mkSetBreakpointsArgs {
  sb_path : option string;        (** [source.path] *)
  sb_breakpoints : list Z;        (** the [line] of each [SourceBreakpoint] *)
  sb_lines : list Z;
}.
Record SetExceptionBreakpointsArgs := mkSetExceptionBreakpointsArgs { se_filters : list string }.
Record ThreadIdArgs := mkThreadIdArgs { ti_thread_id : Z }.
Record StackTraceArgs := mkStackTraceArgs {
  st_thread_id : Z; st_start_frame : Z; st_levels : Z }.
Record FrameIdArgs := mkFrameIdArgs { fi_frame_id : Z }.
Record VariablesArgs := mkVariablesArgs { va_variables_reference : Z }.
Record DisconnectArgs := mkDisconnectArgs { da_terminate_debuggee : option bool }.
Definition DisconnectArgs_default : DisconnectArgs := mkDisconnectArgs None.

(** [serde]'s derived deserializers, [serde_json::from_value::<T>]. *)
Class Serde := {
  de_launch : Json → Result string LaunchArgs;
  de_attach : Json → Result string AttachArgs;
  de_set_breakpoints : Json → Result string SetBreakpointsArgs;
  de_set_exception_breakpoints : Json → Result string SetExceptionBreakpointsArgs;
  de_thread_id : Json → Result string ThreadIdArgs;
  de_stack_trace : Json → Result string StackTraceArgs;
  de_frame_id : Json → Result string FrameIdArgs;
  de_variables : Json → Result string VariablesArgs;
  de_disconnect : Json → Result string DisconnectArgs;
}.

(** Reading [n] messages in a row. *)
Fixpoint read_messages `{SerdeJson} (n : nat) (input : list Z) : option (list Json * list Z) :=
  match n with
  | O => Some ([], input)
  | S k =>
      match read_message input with
      | Ok (Some (j, rest)) =>
          match read_messages k rest with
          | Some (js, rest') => Some (j :: js, rest')
          | None => None
          end
      | _ => None
      end
  end.

(** ** Lemmas *)

Lemma next_line_app l rest :
  Forall (λ b, b ≠ 10) l → next_line (l ++ 10 :: rest) = (l ++ [10], rest).
Proof.
  induction 1 as [|b l Hb Hl IH]; [done|]. cbn [next_line app].
  destruct (Z.eqb_spec b 10); [done|]. by rewrite IH.
Qed.

Lemma all_digits_ascii s : all_digits s → Forall (λ b, b < 128 ∧ b ≠ 10) (as_bytes s).
Proof.
  intros Hs. eapply Forall_impl; [exact Hs|]. intros b Hb. cbn in Hb. unfold is_ascii_digit, in_range in Hb. lia.
Qed.

Definition header_prefix : string := "Content-Length: ".

Lemma header_prefix_ascii : Forall (λ b, b < 128 ∧ b ≠ 10) (as_bytes header_prefix).
Proof. vm_compute. repeat constructor; (done || lia). Qed.

Lemma from_utf8_ascii s : Forall (λ b, b < 128) (as_bytes s) → from_utf8 (as_bytes s) = Some s.
Proof. intros H. unfold from_utf8. by rewrite utf8_valid_ascii, string_of_as_bytes. Qed.

Lemma trim_space_digits s : all_digits s → s ≠ "" → trim (" " +:+ s) = s.
Proof.
  intros Hs Hne. unfold trim.
  assert (trim_start (" " +:+ s) = s) as ->.
  { unfold trim_start. cbn [String.length String.append]. cbn [strip_all].
    change (strip_any white_space (String (Ascii.ascii_of_N 32) s)) with (Some s).
    cbn iota beta. destruct s as [|a s]; [done|]. inversion Hs; subst.
    apply strip_all_stop, strip_any_cons. by apply ws_digit. }
  by apply (trim_end_digits s "").
Qed.

(** One round of the header loop on a readable line. *)
Lemma read_headers_step f cl input raw rest text :
  next_line input = (raw, rest) → raw ≠ [] → from_utf8 raw = Some text →
  read_headers (S f) cl input =
    if bool_decide (trim_end text = "") then Ok (Some (cl, rest))
    else match strip_prefix "Content-Length:" (trim_end text) with
         | Some value => read_headers f (parse_uint 64 (trim value)) rest
         | None => read_headers f cl rest
         end.
Proof.
  intros Hl Hr Ht. cbn [read_headers]. rewrite Hl.
  destruct raw; [done|]. by rewrite Ht.
Qed.

(** The first header line of a frame. *)
Lemma read_headers_line f cl len rest :
  0 ≤ len < 2 ^ 64 →
  read_headers (S f) cl (as_bytes (header_prefix +:+ pretty len +:+ crlf) ++ rest)
  = read_headers f (Some len) rest.
Proof.
  intros Hlen. destruct (pretty_digits len) as [Hd Hne]; [lia|].
  set (d := pretty len) in *.
  assert (Forall (λ b, b < 128 ∧ b ≠ 10) (as_bytes (header_prefix +:+ d))) as Ha.
  { rewrite as_bytes_app. apply Forall_app. split; [apply header_prefix_ascii|].
    by apply all_digits_ascii. }
  assert (as_bytes (header_prefix +:+ d +:+ crlf)
          = (as_bytes (header_prefix +:+ d) ++ [13]) ++ [10]) as Hraw.
  { rewrite <- str_app_assoc, (as_bytes_app (_ +:+ _)). by rewrite <- app_assoc. }
  rewrite (read_headers_step _ _ _ (as_bytes (header_prefix +:+ d +:+ crlf)) rest
             (header_prefix +:+ d +:+ crlf)).
  - rewrite trim_end_digits_crlf by done.
    change header_prefix with ("Content-Length:" +:+ " ").
    rewrite str_app_assoc, strip_prefix_app, trim_space_digits by done.
    unfold d. rewrite parse_uint_pretty by done. done.
  - rewrite Hraw, <- (app_assoc _ [10]). change ([10] ++ rest) with (10 :: rest).
    apply next_line_app, Forall_app. split; [|by repeat constructor].
    eapply Forall_impl; [exact Ha|]. cbn. tauto.
  - done.
  - apply from_utf8_ascii. rewrite Hraw. apply Forall_app. split; [apply Forall_app; split|];
      [eapply Forall_impl; [exact Ha|]; cbn; tauto|by repeat constructor..].
Qed.

Lemma read_headers_end f cl rest :
  read_headers (S f) cl (as_bytes crlf ++ rest) = Ok (Some (cl, rest)).
Proof. done. Qed.

Lemma frame_of_split `{SerdeJson} j :
  frame_of j = as_bytes (header_prefix +:+ pretty (str_len (to_string j)) +:+ crlf)
               ++ as_bytes crlf ++ as_bytes (to_string j).
Proof.
  unfold frame_of. rewrite <- !as_bytes_app. f_equal. by rewrite !str_app_assoc.
Qed.

Lemma read_frame `{SerdeJson} j rest :
  from_slice (as_bytes (to_string j)) = Some j →
  str_len (to_string j) ≤ MAX_BODY_LEN →
  read_message (frame_of j ++ rest) = Ok (Some (j, rest)).
Proof.
  intros Hj Hlen. unfold read_message. rewrite frame_of_split, <- !app_assoc.
  assert (0 ≤ str_len (to_string j) < 2 ^ 64) as Hr
    by (unfold str_len, MAX_BODY_LEN in *; lia).
  match goal with |- context [read_headers (S ?m) _ _] => destruct m as [|n] eqn:En end.
  { rewrite length_app, length_as_bytes in En. cbn in En. lia. }
  rewrite read_headers_line by done. rewrite read_headers_end.
  rewrite (proj2 (Z.leb_le _ _) Hlen).
  rewrite length_app, length_as_bytes, Nat2Z.inj_add. fold (str_len (to_string j)).
  destruct (Z.ltb_spec (str_len (to_string j) + Z.of_nat (length rest)) (str_len (to_string j)));
    [lia|].
  unfold str_len. rewrite Nat2Z.id, <- length_as_bytes.
  by rewrite take_app_length, drop_app_length, Hj.
Qed.

Lemma next_line_split l : l = fst (next_line l) ++ snd (next_line l).
Proof.
  induction l as [|b l IH]; cbn; [done|]. destruct (b =? 10); [done|].
  destruct (next_line l). cbn in *. congruence.
Qed.

(** The headers are a prefix of the input. *)
Lemma read_headers_suffix fuel : ∀ cl input cl' rest,
  read_headers fuel cl input = Ok (Some (cl', rest)) → ∃ before, input = before ++ rest.
Proof.
  induction fuel as [|f IH]; intros cl input cl' rest; cbn [read_headers]; [done|].
  pose proof (next_line_split input) as Hs. destruct (next_line input) as [raw rest'].
  cbn in Hs. subst input. destruct raw as [|b raw]; [done|].
  destruct (from_utf8 (b :: raw)) as [text|]; [|done].
  case_bool_decide; [intros [= <- <-]; eauto|].
  destruct (strip_prefix _ _); intros Hr; apply IH in Hr as [before ->]; eexists;
    apply app_assoc.
Qed.

(** ** Properties *)

Definition serde_ex : SerdeJson := {|
  to_string j := match j with JNum n => pretty n | _ => "null" end;
  from_slice b := match parse_uint 64 (string_of_bytes b) with
                  | Some n => Some (JNum n) | None => None end |}.

(** The framing round-trips: reading back any number of frames written
    one after the other returns exactly the messages, in order, and leaves
    the bytes after them unread; the only assumption is that the JSON library
    parses what it prints and the bodies are within the 16 MiB cap. *)
Theorem read_messages_roundtrip `{SerdeJson} (js : list Json) rest :
  Forall (λ j, from_slice (as_bytes (to_string j)) = Some j
               ∧ str_len (to_string j) ≤ MAX_BODY_LEN) js →
  read_messages (length js) (concat (frame_of <$> js) ++ rest) = Some (js, rest).
Proof.
  induction 1 as [|j js [Hj Hl] Hjs IH]; [done|]. cbn [length read_messages fmap list_fmap concat].
  by rewrite <- app_assoc, read_frame, IH.
Qed.

Lemma read_messages_roundtrip_witness :
  let _ := serde_ex in
  read_messages 2 (concat (frame_of <$> [JNum 7; JNum 1234]) ++ [88]) = Some ([JNum 7; JNum 1234], [88]).
Proof.
  apply (read_messages_roundtrip (H := serde_ex) [JNum 7; JNum 1234] [88]).
  repeat constructor; vm_compute; (done || discriminate).
Defined.

(** No message body above the cap is ever read: a successful
    [read_message] consumed a body of at most 16 MiB that was wholly present
    in the input. *)
Theorem read_message_bounded `{SerdeJson} input j rest :
  read_message input = Ok (Some (j, rest)) →
  ∃ body, from_slice body = Some j ∧ Z.of_nat (length body) ≤ MAX_BODY_LEN
    ∧ ∃ before, input = before ++ body ++ rest.
Proof.
  unfold read_message. intros Hm.
  destruct (read_headers _ None input) as [[[cl rest']|]|] eqn:E; [|done..].
  destruct cl as [len|]; [|done]. destruct (Z.leb_spec len MAX_BODY_LEN); [|done].
  destruct (Z.ltb_spec (Z.of_nat (length rest')) len); [done|].
  destruct (from_slice _) as [j'|] eqn:Ej; [|done]. injection Hm as -> <-.
  exists (take (Z.to_nat len) rest'). split; [done|]. split.
  { rewrite length_take. unfold MAX_BODY_LEN in *. lia. }
  rewrite take_drop. by eapply read_headers_suffix.
Qed.

Lemma read_message_bounded_witness :
  let _ := serde_ex in
  ∃ body, from_slice body = Some (JNum 7) ∧ Z.of_nat (length body) ≤ MAX_BODY_LEN
    ∧ ∃ before, frame_of (JNum 7) ++ [88] = before ++ body ++ [88].
Proof. apply (read_message_bounded (H := serde_ex)). vm_compute. reflexivity. Defined.
