(* ===== verification/DapPure.v ===== *)
(** * Pure helpers of the DAP session ([crates/debug/src/dap/session.rs])

    Breakpoint line selection, line tables, display names, the [package]
    scanner, source paths, and the forwarding of debuggee output. *)
From S2P Require Import Prelude RustStd Paths JdwpCommands JdwpCodec JdwpVm DapProtocol.
From Stdlib Require Import Ascii.

(** ** Display names *)

(** The [while let Some(inner) = rest.strip_prefix('[')] loop: the number of
    dimensions and what is left. *)
Fixpoint strip_dims (s : string) : nat * string :=
  match s with
  | String a s' => if Ascii.eqb a "[" then let '(n, r) := strip_dims s' in (S n, r) else (O, s)
  | EmptyString => (O, s)
  end.

Definition is_slash_or_dollar (a : Ascii.ascii) : bool := Ascii.eqb a "/" || Ascii.eqb a "$".

(** [`Ljava/lang/String;` → `java.lang.String`, `[I` → `int[]`]. *)
Definition pretty_type (signature : string) : string :=
  let '(dims, rest) := strip_dims signature in
  let base :=
    match rest with
    | String "L" _ =>
        let inner := match strip_prefix "L" rest with
                     | Some s => strip_suffix ";" s
                     | None => None
                     end in
        replace_chars is_slash_or_dollar "." (default rest inner)
    | String "Z" _ => "boolean"
    | String "B" _ => "byte"
    | String "C" _ => "char"
    | String "S" _ => "short"
    | String "I" _ => "int"
    | String "J" _ => "long"
    | String "F" _ => "float"
    | String "D" _ => "double"
    | String "V" _ => "void"
    | _ => rest
    end in
  base +:+ str_repeat dims "[]".

(** ** Line tables *)

(** [Iterator::max_by_key] keeps the last of several maxima. *)
Definition max_by_fst (l : list (Z * Z)) : option (Z * Z) :=
  fold_left (λ best e, match best with
                       | None => Some e
                       | Some b => if e.1 <? b.1 then Some b else Some e
                       end) l None.

Definition line_for_index (table : LineTable) (index : Z) : option Z :=
  snd <$> max_by_fst (List.filter (λ e, e.1 <=? index) (lt_lines table)).

(** The line tables of a class as one list of (method, index, line). *)
Definition table_entries (tables : list (Z * LineTable)) : list (Z * Z * Z) :=
  flat_map (λ '(m, t), (λ '(i, l), (m, i, l)) <$> lt_lines t) tables.

(** The first entry on exactly the requested line. *)
Definition choose_exact (tables : list (Z * LineTable)) (line : Z) : option (Z * Z * Z) :=
  List.find (λ '(_, _, l), l =? line) (table_entries tables).

(** Otherwise the entry on the smallest greater line (the first such). *)
Definition choose_next (tables : list (Z * LineTable)) (line : Z) : option (Z * Z * Z) :=
  fold_left (λ chosen '(m, i, l),
      if (line <? l) && match chosen with None => true | Some (_, _, best) => l <? best end
      then Some (m, i, l) else chosen)
    (table_entries tables) None.

Definition choose_location (tables : list (Z * LineTable)) (line : Z) : option (Z * Z * Z) :=
  match choose_exact tables line with
  | Some c => Some c
  | None => choose_next tables line
  end.

(** ** Breakpoints *)
Record LineBp := mkLineBp {
  bp_id : Z;
  bp_line : Z;
  bp_verified : bool;
  bp_actual_line : option Z;
  bp_message : option string;
  bp_request_ids : list Z;
}.

Definition breakpoint_json (bp : LineBp) : Json :=
  JObj ([("id", JNum (bp_id bp)); ("verified", JBool (bp_verified bp));
         ("line", JNum (default (bp_line bp) (bp_actual_line bp)))]
        ++ match bp_message bp with Some m => [("message", JStr m)] | None => [] end).

Definition variable_json (name : string) (v : string * Z) : Json :=
  JObj [("name", JStr name); ("value", JStr v.1); ("variablesReference", JNum v.2)].

Definition capabilities : Json :=
  JObj [("supportsConfigurationDoneRequest", JBool true);
        ("supportsTerminateRequest", JBool true);
        ("supportsExceptionInfoRequest", JBool true);
        ("supportTerminateDebuggee", JBool true);
        ("exceptionBreakpointFilters",
          JArr [JObj [("filter", JStr "uncaught"); ("label", JStr "Uncaught Exceptions");
                      ("default", JBool true)];
                JObj [("filter", JStr "caught"); ("label", JStr "Caught Exceptions");
                      ("default", JBool false)]])].

(** ** The package scanner

    [scan_package] walks the bytes with an index; here the rest of the input
    plays the index. *)

(** [//]: up to, not including, the newline. *)
Fixpoint skip_line (l : list Z) : list Z :=
  match l with
  | [] => []
  | b :: r => if b =? 10 then l else skip_line r
  end.
(** After [/*]: past the closing [*/], or to the end. *)
Fixpoint skip_block (l : list Z) : list Z :=
  match l with
  | a :: (b :: r') as r => if (a =? 42) && (b =? 47) then r' else skip_block r
  | _ => []
  end.
(** After an opening quote: past the closing one; a backslash hides the next
    byte. *)
Fixpoint skip_quoted (q : Z) (l : list Z) : list Z :=
  match l with
  | [] => []
  | b :: r =>
      if b =? q then r
      else if b =? 92 then match r with [] => [] | _ :: r' => skip_quoted q r' end
      else skip_quoted q r
  end.
Fixpoint skip_while (p : Z → bool) (l : list Z) : list Z :=
  match l with
  | b :: r => if p b then skip_while p r else l
  | [] => []
  end.
Fixpoint take_while (p : Z → bool) (l : list Z) : list Z :=
  match l with
  | b :: r => if p b then b :: take_while p r else []
  | [] => []
  end.

Definition annotation_byte (b : Z) : bool := is_ascii_alphanumeric b || (b =? 46).
Definition word_byte (b : Z) : bool := is_ascii_alphanumeric b || (b =? 95) || (b =? 36).
Definition package_byte (b : Z) : bool :=
  is_ascii_alphanumeric b || (b =? 46) || (b =? 95) || (b =? 36).

(** The outer loop: the first identifier outside comments and literals, and
    what follows it.  Every round consumes a byte, so the length is enough
    fuel. *)
Fixpoint first_word (fuel : nat) (l : list Z) : option (list Z * list Z) :=
  match fuel, l with
  | O, _ | _, [] => None
  | S f, b :: r =>
      if (b =? 47) && (byte_at r 0 =? 47) then
        first_word f (skip_line l)
      else if (b =? 47) && (byte_at r 0 =? 42) then
        first_word f (skip_block (drop 1 r))
      else if b =? 34 then first_word f (skip_quoted 34 r)
      else if b =? 39 then first_word f (skip_quoted 39 r)
      else if b =? 64 then first_word f (skip_while annotation_byte r)
      else if is_ascii_alphabetic b || (b =? 95) then
        Some (take_while word_byte l, skip_while word_byte l)
      else first_word f r
  end.

(** The bytes before the first [;], if there is one. *)
Fixpoint before_semi (l : list Z) : option (list Z) :=
  match l with
  | [] => None
  | b :: r => if b =? 59 then Some [] else cons b <$> before_semi r
  end.

Definition scan_package (text : string) : option string :=
  let bytes := as_bytes text in
  match first_word (length bytes) bytes with
  | None => None
  | Some (w, rest) =>
      if bool_decide (string_of_bytes w = "package") then
        match before_semi rest with
        | None => None
        | Some n =>
            let name := string_of_bytes (List.filter package_byte n) in
            if bool_decide (name = "") then None else Some name
        end
      else None
  end.

(** ** Source files *)

(** [fqcn_for_source], with the file's text as read. *)
Definition fqcn_for_source (read_to_string : string → option string) (path : string) :
    option string :=
  stem ← file_stem path;
  text ← read_to_string path;
  match scan_package text with
  | Some pkg => if bool_decide (pkg = "") then Some stem else Some (pkg +:+ "." +:+ stem)
  | None => Some stem
  end.

(** The class and package part of a frame's source lookup in
    [resolve_source]: the binary name's package directory and the fallback
    file name. *)
Definition source_parts (signature : string) : option (string * string) :=
  s ← strip_prefix "L" signature;
  binary ← strip_suffix ";" s;
  let outer := split_first "$" binary in
  let package_dir := match rsplit_once "/" outer with Some (pkg, _) => pkg | None => "" end in
  Some (package_dir, split_last "/" outer +:+ ".java").

Definition unsafe_file_name (n : string) : bool :=
  contains_char "/" n || contains_char "\" n || contains_str ".." n.

(** The paths [resolve_source] probes, in order. *)
Definition source_candidates (roots : list string) (package_dir name : string) : list string :=
  if unsafe_file_name name then []
  else (λ root, path_join (path_join root package_dir) name) <$> roots.

(** ** Debuggee output *)

Definition OUTPUT_CHUNK_CAP : Z := 8 * 1024.

(** One line, or an oversized partial line, off the front of the pending
    bytes. *)
Definition flush_one (pending : list Z) : option (list Z * list Z) :=
  let '(line, rest) := next_line pending in
  if bool_decide (last line = Some 10) then Some (line, rest)
  else if OUTPUT_CHUNK_CAP <=? Z.of_nat (length pending) then Some (pending, [])
  else None.
Fixpoint flush_all (fuel : nat) (pending : list Z) : list (list Z) * list Z :=
  match fuel with
  | O => ([], pending)
  | S f => match flush_one pending with
           | None => ([], pending)
           | Some (line, rest) => let '(ls, r) := flush_all f rest in (line :: ls, r)
           end
  end.
(** [forward_stream] over the chunks read until end of stream: the byte
    strings sent as [ChildOut], in order. *)
Fixpoint forward_stream (pending : list Z) (reads : list (list Z)) : list (list Z) :=
  let '(ls, r) := flush_all (length pending) pending in
  ls ++ match reads with
        | [] => if bool_decide (r = []) then [] else [r]
        | c :: cs => forward_stream (r ++ c) cs
        end.

(** ** Lemmas *)

Lemma max_by_fst_snoc l e :
  max_by_fst (l ++ [e]) = match max_by_fst l with
                          | None => Some e
                          | Some b => if e.1 <? b.1 then Some b else Some e
                          end.
Proof. unfold max_by_fst. by rewrite fold_left_app. Qed.

Lemma max_by_fst_spec l :
  match max_by_fst l with
  | None => l = []
  | Some b => b ∈ l ∧ ∀ e, e ∈ l → e.1 ≤ b.1
  end.
Proof.
  induction l as [|e l IH] using rev_ind; [done|]. rewrite max_by_fst_snoc.
  destruct (max_by_fst l) as [b|].
  - destruct IH as [Hb Hm]. destruct (Z.ltb_spec e.1 b.1); split; try set_solver.
    + intros e' [He|He%list_elem_of_singleton]%elem_of_app; [auto|subst; lia].
    + intros e' [He%Hm|He%list_elem_of_singleton]%elem_of_app; subst; lia.
  - subst. cbn. split; [set_solver|]. intros e' He%list_elem_of_singleton. subst. lia.
Qed.

Lemma choose_next_snoc l x line :
  fold_left (λ chosen '(m, i, l),
      if (line <? l) && match chosen with None => true | Some (_, _, best) => l <? best end
      then Some (m, i, l) else chosen) (l ++ [x]) (@None (Z * Z * Z))
  = let chosen := fold_left (λ chosen '(m, i, l),
      if (line <? l) && match chosen with None => true | Some (_, _, best) => l <? best end
      then Some (m, i, l) else chosen) l None in
    let '(m, i, l) := x in
    if (line <? l) && match chosen with None => true | Some (_, _, best) => l <? best end
    then Some (m, i, l) else chosen.
Proof. rewrite fold_left_app. by destruct x as [[m i] y]. Qed.

(** The entries of [l] past the requested line, against the one kept. *)
Definition next_best (line : Z) (l : list (Z * Z * Z)) (c : option (Z * Z * Z)) : Prop :=
  match c with
  | None => ∀ e, e ∈ l → e.2 ≤ line
  | Some b => b ∈ l ∧ line < b.2 ∧ ∀ e, e ∈ l → line < e.2 → b.2 ≤ e.2
  end.

Lemma choose_next_best tables line : next_best line (table_entries tables) (choose_next tables line).
Proof.
  unfold choose_next. induction (table_entries tables) as [|x l IH] using rev_ind.
  { cbn. set_solver. }
  rewrite choose_next_snoc. cbn zeta. destruct x as [[m i] y].
  revert IH. generalize (fold_left (λ chosen '(m, i, l),
      if (line <? l) && match chosen with None => true | Some (_, _, best) => l <? best end
      then Some (m, i, l) else chosen) l None). intros c IH.
  destruct c as [[[m' i'] y']|]; cbn in IH |- *.
  - destruct IH as (Hin & Hlt & Hmin).
    destruct (Z.ltb_spec line y), (Z.ltb_spec y y'); cbn;
      (split; [set_solver|split; [lia|]]);
      intros e [He|He%list_elem_of_singleton]%elem_of_app Hl;
      first [specialize (Hmin e He Hl); lia | subst; cbn in *; lia].
  - destruct (Z.ltb_spec line y); cbn.
    + split; [set_solver|split; [lia|]].
      intros e [He|He%list_elem_of_singleton]%elem_of_app Hl; [specialize (IH e He); lia|subst; cbn; lia].
    + intros e [He|He%list_elem_of_singleton]%elem_of_app; [auto|subst; cbn; lia].
Qed.

Lemma skip_while_app p l k : Forall (λ b, p b = true) l →
  skip_while p (l ++ k) = skip_while p k ∧ take_while p (l ++ k) = l ++ take_while p k.
Proof.
  induction 1 as [|b l Hb Hl [IH1 IH2]]; [done|]. cbn. by rewrite Hb, IH1, IH2.
Qed.

Lemma before_semi_app l r : Forall (λ b, b ≠ 59) l → before_semi (l ++ 59 :: r) = Some l.
Proof.
  induction 1 as [|b l Hb Hl IH]; [done|]. cbn [before_semi app].
  destruct (Z.eqb_spec b 59); [done|]. by rewrite IH.
Qed.

Lemma filter_all {A} (p : A → bool) l : Forall (λ b, p b = true) l → List.filter p l = l.
Proof. induction 1 as [|b l Hb Hl IH]; [done|]. cbn. by rewrite Hb, IH. Qed.

Lemma skip_line_comment l r : Forall (λ b, b ≠ 10) l → skip_line (l ++ 10 :: r) = 10 :: r.
Proof.
  induction 1 as [|b l Hb Hl IH]; [done|]. cbn [skip_line app].
  destruct (Z.eqb_spec b 10); [done|auto].
Qed.

(** More fuel than bytes never matters. *)
Lemma length_skip_line l : (length (skip_line l) ≤ length l)%nat.
Proof. induction l as [|b l IH]; cbn; [lia|]. case_match; cbn; lia. Qed.
Lemma length_skip_while p l : (length (skip_while p l) ≤ length l)%nat.
Proof. induction l as [|b l IH]; cbn; [lia|]. case_match; cbn; lia. Qed.
Lemma length_skip_quoted q l : (length (skip_quoted q l) ≤ length l)%nat.
Proof.
  assert (∀ n l, (length l ≤ n)%nat → (length (skip_quoted q l) ≤ length l)%nat) as H.
  { intros n. induction n as [|n IH]; intros [|b k] Hk; cbn in *; try lia.
    destruct (b =? q); [lia|]. destruct (b =? 92); [|specialize (IH k); lia].
    destruct k as [|c k]; cbn in *; [lia|]. specialize (IH k). lia. }
  by apply (H (length l)).
Qed.
Lemma skip_block_step a b r :
  skip_block (a :: b :: r) = if (a =? 42) && (b =? 47) then r else skip_block (b :: r).
Proof. done. Qed.
Lemma length_skip_block l : (length (skip_block l) ≤ length l)%nat.
Proof.
  induction l as [|a l IH]; [cbn; lia|]. destruct l as [|b r].
  { cbn. lia. }
  rewrite skip_block_step. case_match; [cbn; lia|]. cbn in *. lia.
Qed.

Lemma first_word_fuel f : ∀ g l, (length l ≤ f)%nat → (length l ≤ g)%nat →
  first_word f l = first_word g l.
Proof.
  induction f as [|f IH]; intros [|g] [|b r] Hf Hg; cbn in Hf, Hg; try lia; try done.
  cbn [first_word].
  pose proof (length_skip_line (b :: r)). pose proof (length_skip_block (drop 1 r)).
  pose proof (length_skip_quoted 34 r). pose proof (length_skip_quoted 39 r).
  pose proof (length_skip_while annotation_byte r). rewrite length_drop in *.
  destruct ((b =? 47) && (byte_at r 0 =? 47)) eqn:E1.
  { apply andb_prop in E1 as [E1 _]. apply Z.eqb_eq in E1. subst b. cbn [skip_line].
    cbn. pose proof (length_skip_line r). apply IH; lia. }
  repeat case_match; try done; apply IH; lia.
Qed.

(** One round of the scanner, fuel aside. *)
Definition word_from (l : list Z) : option (list Z * list Z) := first_word (length l) l.

Lemma word_from_step b r :
  word_from (b :: r) =
    if (b =? 47) && (byte_at r 0 =? 47) then word_from (skip_line r)
    else if (b =? 47) && (byte_at r 0 =? 42) then word_from (skip_block (drop 1 r))
    else if b =? 34 then word_from (skip_quoted 34 r)
    else if b =? 39 then word_from (skip_quoted 39 r)
    else if b =? 64 then word_from (skip_while annotation_byte r)
    else if is_ascii_alphabetic b || (b =? 95) then
      Some (take_while word_byte (b :: r), skip_while word_byte (b :: r))
    else word_from r.
Proof.
  unfold word_from. cbn [length first_word].
  pose proof (length_skip_block (drop 1 r)).
  pose proof (length_skip_quoted 34 r). pose proof (length_skip_quoted 39 r).
  pose proof (length_skip_while annotation_byte r). rewrite length_drop in *.
  pose proof (length_skip_line r).
  destruct ((b =? 47) && (byte_at r 0 =? 47)) eqn:E1.
  { apply andb_prop in E1 as [E1 _]. apply Z.eqb_eq in E1. subst b. cbn [skip_line].
    cbn. apply first_word_fuel; lia. }
  repeat case_match; try done; apply first_word_fuel; lia.
Qed.

(** What may precede the package declaration: blanks and comments. *)
Definition blank_byte (b : Z) : Prop :=
  b ≠ 47 ∧ b ≠ 34 ∧ b ≠ 39 ∧ b ≠ 64 ∧ b ≠ 95 ∧ is_ascii_alphabetic b = false.
Inductive trivia : list Z → Prop :=
| tr_nil : trivia []
| tr_blank b l : blank_byte b → trivia l → trivia (b :: l)
| tr_line c l : Forall (λ b, b ≠ 10) c → trivia l → trivia (47 :: 47 :: c ++ 10 :: l)
| tr_block c l : skip_block (c ++ [42; 47]) = [] → trivia l →
    trivia (47 :: 42 :: c ++ 42 :: 47 :: l).

Lemma skip_block_app c l :
  skip_block (c ++ [42; 47]) = [] → skip_block (c ++ 42 :: 47 :: l) = l.
Proof.
  induction c as [|a c IH]; [done|]. destruct c as [|b c].
  - cbn [app]. rewrite !skip_block_step. rewrite andb_false_r. done.
  - cbn [app] in *. rewrite !skip_block_step. case_match; [|auto].
    intros H'. by destruct c.
Qed.

Lemma word_from_trivia l k : trivia l → word_from (l ++ k) = word_from k.
Proof.
  induction 1 as [|b l (H1&H2&H3&H4&H5&H6) Hl IH|c l Hc Hl IH|c l Hc Hl IH]; [done|..].
  - cbn [app]. rewrite word_from_step.
    repeat match goal with H : b ≠ ?n |- _ => rewrite (proj2 (Z.eqb_neq b n) H); clear H end.
    by rewrite H6.
  - cbn [app]. rewrite word_from_step. cbn [byte_at lookup list_lookup]. cbn [andb Z.eqb Pos.eqb].
    change (byte_at (47 :: (c ++ 10 :: l) ++ k) 0 =? 47) with true. cbn iota.
    cbn [skip_line Z.eqb Pos.eqb]. rewrite <- app_assoc. cbn [app].
    rewrite skip_line_comment by done. rewrite word_from_step. exact IH.
  - cbn [app]. rewrite word_from_step.
    change (byte_at (42 :: (c ++ 42 :: 47 :: l) ++ k) 0) with 42. cbn [andb Z.eqb Pos.eqb].
    cbn [drop]. rewrite <- app_assoc. cbn [app].
    by rewrite drop_0, skip_block_app.
Qed.

Definition package_kw : list Z := as_bytes "package".

Lemma while_app p l rest :
  forallb p l = true → p (byte_at rest 0) = false →
  take_while p (l ++ rest) = l ∧ skip_while p (l ++ rest) = rest.
Proof.
  intros Hl Hr. induction l as [|b l IH]; cbn [app take_while skip_while].
  - destruct rest as [|b rest]; [done|]. cbn in *. by rewrite Hr.
  - cbn [forallb] in Hl. apply andb_true_iff in Hl as [Hb Hl]. rewrite Hb.
    destruct (IH Hl) as [-> ->]. done.
Qed.

Lemma word_from_ident b r :
  is_ascii_alphabetic b = true →
  word_from (b :: r) = Some (take_while word_byte (b :: r), skip_while word_byte (b :: r)).
Proof.
  intros Hb. rewrite word_from_step.
  repeat match goal with |- context [b =? ?n] =>
    replace (b =? n) with false by
      (symmetry; apply Z.eqb_neq; intros ->; by vm_compute in Hb) end.
  by rewrite Hb.
Qed.

Lemma word_from_package rest :
  word_byte (byte_at rest 0) = false → word_from (package_kw ++ rest) = Some (package_kw, rest).
Proof.
  intros Hr. destruct (while_app word_byte package_kw rest eq_refl Hr) as [Ht Hs].
  rewrite <- Hs at 2. rewrite <- Ht at 2. by apply word_from_ident.
Qed.

Lemma scan_package_decl pre mid name rest :
  trivia (as_bytes pre) → Forall (λ b, package_byte b = false ∧ b ≠ 59) (as_bytes mid) →
  mid ≠ "" → Forall (λ b, package_byte b = true) (as_bytes name) → name ≠ "" →
  scan_package (pre +:+ "package" +:+ mid +:+ name +:+ ";" +:+ rest) = Some name.
Proof.
  intros Hpre Hmid Hmid0 Hname Hname0. unfold scan_package.
  match goal with |- context [first_word (length ?b) ?b] => fold (word_from b) end.
  rewrite !as_bytes_app, word_from_trivia by done.
  change (as_bytes "package") with package_kw. rewrite word_from_package.
  2: { destruct (as_bytes mid) as [|b m] eqn:E; [by destruct mid|]. cbn.
       inversion Hmid as [|? ? [Hb _]]; subst. unfold package_byte, word_byte in *.
       destruct (is_ascii_alphanumeric b), (b =? 46), (b =? 95), (b =? 36); done. }
  rewrite bool_decide_eq_true_2 by done. change (as_bytes ";") with [59]. cbn [app].
  rewrite app_assoc, before_semi_app.
  2: { apply Forall_app. split; [eapply Forall_impl; [exact Hmid|]; cbn; tauto|].
       eapply Forall_impl; [exact Hname|]. intros b Hb ->. done. }
  rewrite List.filter_app. rewrite (filter_all _ (as_bytes name)) by done.
  assert (List.filter package_byte (as_bytes mid) = []) as ->.
  { clear -Hmid. induction Hmid as [|b l [Hb _] Hl IH]; [done|]. cbn. by rewrite Hb. }
  cbn [app]. rewrite string_of_as_bytes. by rewrite bool_decide_eq_false_2.
Qed.

Lemma next_line_last l line rest : next_line l = (line, rest) →
  l = line ++ rest ∧ (last line = Some 10 ∨ rest = []) ∧ (l ≠ [] → line ≠ []).
Proof.
  revert line rest. induction l as [|b l IH]; intros line rest; cbn.
  { intros [= <- <-]. auto. }
  destruct (Z.eqb_spec b 10) as [->|]; [intros [= <- <-]; auto|].
  destruct (next_line l) as [x y]. intros [= <- <-].
  destruct (IH x y eq_refl) as (-> & Hl & _). repeat split; try done.
  destruct Hl as [Hl|Hl]; [left|auto]. destruct x; [done|]. by rewrite last_cons_cons.
Qed.

(** Flushing splits the pending bytes without losing any. *)
Lemma flush_all_concat f : ∀ pending ls r,
  flush_all f pending = (ls, r) → pending = concat ls ++ r.
Proof.
  induction f as [|f IH]; intros pending ls r; cbn [flush_all].
  { by intros [= <- <-]. }
  unfold flush_one. destruct (next_line pending) as [line rest] eqn:E.
  apply next_line_last in E as (-> & Hl & _).
  case_bool_decide.
  - destruct (flush_all f rest) as [ls' r'] eqn:E. intros [= <- <-].
    apply IH in E as ->. cbn. by rewrite <- app_assoc.
  - destruct (OUTPUT_CHUNK_CAP <=? _); [|by intros [= <- <-]].
    destruct (flush_all f []) as [ls' r'] eqn:E. intros [= <- <-].
    apply IH in E. symmetry in E. apply app_eq_nil in E as [E ->].
    cbn. by rewrite E, !app_nil_r.
Qed.

(** ** Lemmas: source paths *)

Lemma safe_name_no_dotdot n : unsafe_file_name n = false → starts_with "/" n = false ∧ no_dotdot n.
Proof.
  unfold unsafe_file_name. intros [[H1 H2]%orb_false_elim H3]%orb_false_elim.
  split; [by apply starts_with_slash_contains|].
  unfold no_dotdot. rewrite split_char_none by done. repeat constructor. intros ->.
  by vm_compute in H3.
Qed.

(** ** Properties *)

Definition table_ex : list (Z * LineTable) :=
  [(10, mkLineTable 0 30 [(0, 4); (5, 9)]); (11, mkLineTable 0 8 [(0, 7); (3, 12)])].

Lemma choose_location_ge tables line m i l :
  choose_location tables line = Some (m, i, l) → line ≤ l.
Proof.
  unfold choose_location, choose_exact. destruct (List.find _ _) as [[[??]?]|] eqn:E; intros H.
  - apply List.find_some in E as [_ Hl]. inv_ok. apply Z.eqb_eq in Hl. lia.
  - pose proof (choose_next_best tables line) as Hb. rewrite H in Hb. cbn in Hb. lia.
Qed.

(** A requested breakpoint line binds to code on that exact line whenever
    the class has some, otherwise to the smallest greater line that has code,
    and to nothing exactly when no line at or after it has code. *)
Theorem choose_location_spec tables line :
  match choose_location tables line with
  | Some (m, i, l) =>
      (m, i, l) ∈ table_entries tables ∧ line ≤ l
      ∧ ((∃ e, e ∈ table_entries tables ∧ e.2 = line) → l = line)
      ∧ ∀ e, e ∈ table_entries tables → line ≤ e.2 → l ≤ e.2
  | None => ∀ e, e ∈ table_entries tables → e.2 < line
  end.
Proof.
  unfold choose_location, choose_exact.
  destruct (List.find _ _) as [[[m i] l]|] eqn:E.
  - apply List.find_some in E as [Hin Hl]. apply Z.eqb_eq in Hl. subst l.
    apply list_elem_of_In in Hin. repeat split; auto; lia.
  - pose proof (choose_next_best tables line) as Hb.
    assert (∀ e, e ∈ table_entries tables → e.2 ≠ line) as Hne.
    { intros [[m i] l] He Hl. cbn in Hl. subst l. apply list_elem_of_In in He.
      eapply List.find_none in E; [|exact He]. cbn in E. by rewrite Z.eqb_refl in E. }
    destruct (choose_next tables line) as [[[m i] l]|]; cbn in Hb.
    + destruct Hb as (Hin & Hlt & Hmin). repeat split; [done|lia| |].
      * intros (e & He & Hl). by destruct (Hne e He).
      * intros e He Hle. apply Hmin; [done|]. specialize (Hne e He). lia.
    + intros e He. specialize (Hne e He). specialize (Hb e He). lia.
Qed.

(** The line shown for a frame is that of the line-table entry with the
    greatest code index not above the frame's; there is none exactly when
    every entry lies above it. *)
Theorem line_for_index_spec table index :
  match line_for_index table index with
  | Some line => ∃ i, (i, line) ∈ lt_lines table ∧ i ≤ index
      ∧ ∀ e, e ∈ lt_lines table → e.1 ≤ index → e.1 ≤ i
  | None => ∀ e, e ∈ lt_lines table → index < e.1
  end.
Proof.
  unfold line_for_index.
  pose proof (max_by_fst_spec (List.filter (λ e, e.1 <=? index) (lt_lines table))) as H.
  destruct (max_by_fst _) as [[i line]|]; cbn.
  - destruct H as [Hin Hmax]. apply list_elem_of_In, List.filter_In in Hin as [Hin Hi].
    exists i. cbn in Hi. repeat split; [by apply list_elem_of_In|lia|].
    intros e He Hle. apply Hmax. apply list_elem_of_In, List.filter_In.
    split; [by apply list_elem_of_In|lia].
  - intros e He. destruct (Z.lt_ge_cases index e.1); [done|]. exfalso.
    assert (e ∈ List.filter (λ e, e.1 <=? index) (lt_lines table)) as Hin.
    { apply list_elem_of_In, List.filter_In. split; [by apply list_elem_of_In|lia]. }
    rewrite H in Hin. set_solver.
Qed.

(** The package scanner finds a plain package declaration behind any run
    of blanks, line comments and block comments and returns the declared
    name. *)
Theorem scan_package_finds pre mid name rest :
  trivia (as_bytes pre) → Forall (λ b, package_byte b = false ∧ b ≠ 59) (as_bytes mid) →
  mid ≠ "" → Forall (λ b, package_byte b = true) (as_bytes name) → name ≠ "" →
  scan_package (pre +:+ "package" +:+ mid +:+ name +:+ ";" +:+ rest) = Some name.
Proof. apply scan_package_decl. Qed.

Lemma scan_package_finds_witness :
  scan_package ("/* package no; */ " +:+ "package" +:+ " " +:+ "demo.app" +:+ ";" +:+ "class A {}")
  = Some "demo.app".
Proof.
  apply scan_package_finds; try done; [|repeat constructor; done..].
  change (trivia (47 :: 42 :: as_bytes " package no; " ++ 42 :: 47 :: [32])).
  apply tr_block; [reflexivity|]. apply tr_blank; [|apply tr_nil]. repeat split; done.
Defined.

(** A comment between the package name and its semicolon leaks into the
    name: the scanner that skips comments before the declaration does not
    skip them inside it. *)
Theorem scan_package_comment_leak :
  scan_package "package a.b /* old */;" = Some "a.bold".
Proof. vm_compute. reflexivity. Qed.

(** Forwarding the debuggee's output loses and reorders nothing: the
    chunks sent to the client concatenate to the bytes read. *)
Theorem forward_stream_lossless reads : ∀ pending,
  concat (forward_stream pending reads) = pending ++ concat reads.
Proof.
  induction reads as [|c cs IH]; intros pending; cbn [forward_stream];
    destruct (flush_all (length pending) pending) as [ls r] eqn:E;
    apply flush_all_concat in E; rewrite concat_app, E at 1.
  - case_bool_decide; subst; cbn; by rewrite ?app_nil_r.
  - rewrite IH. cbn [concat]. by rewrite <- !app_assoc.
Qed.

(** When the debuggee's class signature names a relative package without
    [..] components, every file the source lookup probes lies below one of
    the source roots: it is a root followed by a suffix without [..]
    components, whatever SourceFile name the debuggee reported. *)
Theorem source_candidates_confined roots dir name c :
  safe_dir dir → c ∈ source_candidates roots dir name →
  ∃ root suffix, root ∈ roots ∧ c = root +:+ suffix ∧ no_dotdot suffix.
Proof.
  intros [Hd1 Hd2]. unfold source_candidates.
  destruct (unsafe_file_name name) eqn:E; [set_solver|].
  intros (root & -> & Hr)%list_elem_of_fmap.
  apply safe_name_no_dotdot in E as [Hn1 Hn2].
  destruct (path_join_safe root dir Hd1 Hd2) as (s1 & E1 & Hs1 & Hnd & Ha1).
  rewrite E1.
  destruct (path_join_safe (root +:+ s1 +:+ dir) name Hn1 Hn2) as (s2 & E2 & Hs2 & Hnn & Ha2).
  rewrite E2. exists root, (s1 +:+ dir +:+ s2 +:+ name). split; [done|].
  split; [by rewrite !str_app_assoc|].
  destruct Hs2 as [->| ->].
  - cbn [String.append]. rewrite <- str_app_assoc. apply no_dotdot_join; [done..|].
    destruct (decide (s1 +:+ dir = "")) as [He|He]; [auto|right].
    destruct (Ha2 eq_refl) as [H0|H0]; [|by eapply ends_with_char_app].
    destruct He. by destruct root.
  - rewrite <- str_app_assoc. by apply no_dotdot_sep.
Qed.

Lemma source_candidates_confined_witness :
  ∃ root suffix, root ∈ ["/ws/src/main/java"] ∧ "/ws/src/main/java/demo/Main.java" = root +:+ suffix
    ∧ no_dotdot suffix.
Proof.
  apply (source_candidates_confined ["/ws/src/main/java"] "demo" "Main.java").
  - split; [reflexivity|]. repeat constructor; discriminate.
  - vm_compute. constructor.
Defined.

(** The class signature itself is not checked: a debuggee that reports
    the class [L../../etc/Foo;] makes the lookup probe a path that climbs out
    of every source root, and with [L/etc/Foo;] a path that ignores the roots
    altogether. *)
Theorem source_lookup_escapes root :
  root ≠ "" → ends_with "/" root = false →
  source_parts "L../../etc/Foo;" = Some ("../../etc", "Foo.java")
  ∧ source_candidates [root] "../../etc" "Foo.java" = [root +:+ "/../../etc/Foo.java"]
  ∧ source_parts "L/etc/Foo;" = Some ("/etc", "Foo.java")
  ∧ source_candidates [root] "/etc" "Foo.java" = ["/etc/Foo.java"].
Proof.
  intros H1 H2. split; [reflexivity|split; [|split; reflexivity]].
  unfold source_candidates. change (unsafe_file_name "Foo.java") with false. cbn iota.
  cbn [fmap list_fmap]. unfold path_join at 2. change (starts_with "/" "../../etc") with false.
  cbn iota. rewrite bool_decide_eq_false_2, H2 by done. cbn [orb].
  unfold path_join. change (starts_with "/" "Foo.java") with false. cbn iota.
  rewrite bool_decide_eq_false_2 by (by destruct root).
  assert (ends_with "/" (root +:+ "/" +:+ "../../etc") = false) as ->.
  { apply not_true_iff_false. intros H%ends_with_char_app; [|done].
    by apply ends_with_char_app in H. }
  cbn [orb]. f_equal. by rewrite !str_app_assoc.
Qed.

Lemma source_lookup_escapes_witness :
  source_candidates ["/ws/src/main/java"] "/etc" "Foo.java" = ["/etc/Foo.java"].
Proof. apply (source_lookup_escapes "/ws/src/main/java"); [discriminate|reflexivity]. Defined.
