(* ===== verification/DapSession.v ===== *)
(** * The DAP↔JDWP bridge session ([crates/debug/src/dap/session.rs])

    One event loop owns all the state: [handle] takes one inbound message
    (client request, JDWP event, debuggee output or exit, deadline) and
    updates the [Session].  Every handler of the source is a definition here,
    written in a state monad; a JDWP round trip goes through [call], a DAP
    message through [emit].  The debuggee ([Debuggee]), argument
    deserialization ([Serde]), the launch helpers ([LaunchSupport]) and the
    operating system ([Env]: files, processes, sockets, time) are interfaces the definitions take as
    arguments. *)
From S2P Require Import Prelude RustStd Paths JdwpCommands JdwpCodec JdwpVm DapProtocol DapPure.
From Stdlib Require Import Ascii.

Definition STRING_DISPLAY_CAP : nat := 512.
Definition ARRAY_CHILD_CAP : Z := 200.
Definition SUPER_CHAIN_CAP : nat := 32.

(** ** State *)

Inductive Inbound :=
| IRequest (request : Json)
| IStdinClosed
| IJdwpEvent (payload : list Z)
| IJdwpClosed
| IChildOut (category chunk : string)
| IChildExit (code : option Z)
| IKillDeadline.

Inductive Flow := Continue | Exit.

Record FileBps := mkFileBps {
  class_name : string;
  prepare_request_ids : list Z;
  bps : list LineBp;
}.

Inductive VarRef :=
| VLocals (thread frame : Z) (location : Location)
| VRObject (id : Z)
| VRArray (id : Z).

Record FrameHandle := mkFrameHandle { fh_thread : Z; fh_frame : Z; fh_location : Location }.

(** The outer [option] of [source_file] is "fetched yet?", the inner one the
    debuggee's answer; likewise for the entries of [line_tables]. *)
Record ClassMeta := mkClassMeta {
  cm_signature : option string;
  cm_source_file : option (option string);
  cm_methods : option (list MethodEntry);
  cm_line_tables : gmap Z (option LineTable);
}.
Definition ClassMeta_default : ClassMeta := mkClassMeta None None None ∅.

Record EntryState := mkEntryState { prepare_request_id : Z; bp_request_id : option Z }.

(** Actions outside the two wires. *)
Inductive Effect :=
| EKillChild            (** the kill channel fired (or was dropped) *)
| EKillAndReap          (** [start_kill] and [wait] during a failed launch *)
| EKillOnDrop           (** the [Child] dropped with [kill_on_drop] *)
| ESpawn (program : string) (argv : list string) (cwd : option string)
| EKillTimer            (** a [KillDeadline] after [EXIT_GRACE] *)
| EAwaitReap            (** bounded wait for the child to be reaped *)
| ERemoveDir (dir : string).

Record Session := mkSession {
  writer : DapWriter;  (** [writer: DapWriter] *)
  wire : Wire;  (** what happened on the JDWP connection (behind [vm]) *)
  effects : list Effect;  (** actions on the debuggee process and the file system, newest first *)
  vm : option IdSizes;  (** [vm: Option<Arc<Vm>>] *)
  launch_mode : bool;
  child_kill : bool;  (** [child_kill.is_some()] *)
  child_reaped : bool;  (** [child_reaped.is_some()] *)
  child_alive : bool;
  scratch_dir : option string;
  source_roots : list string;
  stop_on_entry : bool;
  main_class : option string;
  suspend_depth : Z;
  terminated_sent : bool;
  vm_start_pending : bool;
  thread_to_dap : gmap Z Z;
  dap_to_thread : gmap Z Z;
  next_thread_id : Z;
  next_handle : Z;
  frames : gmap Z FrameHandle;
  varrefs : gmap Z VarRef;
  classes : gmap Z ClassMeta;
  files : gmap string FileBps;
  next_bp_id : Z;
  exception_request_ids : list Z;
  entry : option EntryState;
  step_request_ids : gset Z;
  last_exception : gmap Z (Z * bool);
  locals_warned : gset Z;
}.

(** Field updates ([self.f = v]). *)
Definition set_writer (v : DapWriter) (s : Session) : Session :=
  mkSession v (wire s) (effects s) (vm s) (launch_mode s) (child_kill s) (child_reaped s) 
    (child_alive s) (scratch_dir s) (source_roots s) (stop_on_entry s) (main_class s) 
    (suspend_depth s) (terminated_sent s) (vm_start_pending s) (thread_to_dap s) 
    (dap_to_thread s) (next_thread_id s) (next_handle s) (frames s) (varrefs s) (classes s) 
    (files s) (next_bp_id s) (exception_request_ids s) (entry s) (step_request_ids s) 
    (last_exception s) (locals_warned s).
Definition set_wire (v : Wire) (s : Session) : Session :=
  mkSession (writer s) v (effects s) (vm s) (launch_mode s) (child_kill s) (child_reaped s) 
    (child_alive s) (scratch_dir s) (source_roots s) (stop_on_entry s) (main_class s) 
    (suspend_depth s) (terminated_sent s) (vm_start_pending s) (thread_to_dap s) 
    (dap_to_thread s) (next_thread_id s) (next_handle s) (frames s) (varrefs s) (classes s) 
    (files s) (next_bp_id s) (exception_request_ids s) (entry s) (step_request_ids s) 
    (last_exception s) (locals_warned s).
Definition set_effects (v : list Effect) (s : Session) : Session :=
  mkSession (writer s) (wire s) v (vm s) (launch_mode s) (child_kill s) (child_reaped s) 
    (child_alive s) (scratch_dir s) (source_roots s) (stop_on_entry s) (main_class s) 
    (suspend_depth s) (terminated_sent s) (vm_start_pending s) (thread_to_dap s) 
    (dap_to_thread s) (next_thread_id s) (next_handle s) (frames s) (varrefs s) (classes s) 
    (files s) (next_bp_id s) (exception_request_ids s) (entry s) (step_request_ids s) 
    (last_exception s) (locals_warned s).
Definition set_vm (v : option IdSizes) (s : Session) : Session :=
  mkSession (writer s) (wire s) (effects s) v (launch_mode s) (child_kill s) (child_reaped s) 
    (child_alive s) (scratch_dir s) (source_roots s) (stop_on_entry s) (main_class s) 
    (suspend_depth s) (terminated_sent s) (vm_start_pending s) (thread_to_dap s) 
    (dap_to_thread s) (next_thread_id s) (next_handle s) (frames s) (varrefs s) (classes s) 
    (files s) (next_bp_id s) (exception_request_ids s) (entry s) (step_request_ids s) 
    (last_exception s) (locals_warned s).
Definition set_launch_mode (v : bool) (s : Session) : Session :=
  mkSession (writer s) (wire s) (effects s) (vm s) v (child_kill s) (child_reaped s) 
    (child_alive s) (scratch_dir s) (source_roots s) (stop_on_entry s) (main_class s) 
    (suspend_depth s) (terminated_sent s) (vm_start_pending s) (thread_to_dap s) 
    (dap_to_thread s) (next_thread_id s) (next_handle s) (frames s) (varrefs s) (classes s) 
    (files s) (next_bp_id s) (exception_request_ids s) (entry s) (step_request_ids s) 
    (last_exception s) (locals_warned s).
Definition set_child_kill (v : bool) (s : Session) : Session :=
  mkSession (writer s) (wire s) (effects s) (vm s) (launch_mode s) v (child_reaped s) 
    (child_alive s) (scratch_dir s) (source_roots s) (stop_on_entry s) (main_class s) 
    (suspend_depth s) (terminated_sent s) (vm_start_pending s) (thread_to_dap s) 
    (dap_to_thread s) (next_thread_id s) (next_handle s) (frames s) (varrefs s) (classes s) 
    (files s) (next_bp_id s) (exception_request_ids s) (entry s) (step_request_ids s) 
    (last_exception s) (locals_warned s).
Definition set_child_reaped (v : bool) (s : Session) : Session :=
  mkSession (writer s) (wire s) (effects s) (vm s) (launch_mode s) (child_kill s) v 
    (child_alive s) (scratch_dir s) (source_roots s) (stop_on_entry s) (main_class s) 
    (suspend_depth s) (terminated_sent s) (vm_start_pending s) (thread_to_dap s) 
    (dap_to_thread s) (next_thread_id s) (next_handle s) (frames s) (varrefs s) (classes s) 
    (files s) (next_bp_id s) (exception_request_ids s) (entry s) (step_request_ids s) 
    (last_exception s) (locals_warned s).
Definition set_child_alive (v : bool) (s : Session) : Session :=
  mkSession (writer s) (wire s) (effects s) (vm s) (launch_mode s) (child_kill s) 
    (child_reaped s) v (scratch_dir s) (source_roots s) (stop_on_entry s) (main_class s) 
    (suspend_depth s) (terminated_sent s) (vm_start_pending s) (thread_to_dap s) 
    (dap_to_thread s) (next_thread_id s) (next_handle s) (frames s) (varrefs s) (classes s) 
    (files s) (next_bp_id s) (exception_request_ids s) (entry s) (step_request_ids s) 
    (last_exception s) (locals_warned s).
Definition set_scratch_dir (v : option string) (s : Session) : Session :=
  mkSession (writer s) (wire s) (effects s) (vm s) (launch_mode s) (child_kill s) 
    (child_reaped s) (child_alive s) v (source_roots s) (stop_on_entry s) (main_class s) 
    (suspend_depth s) (terminated_sent s) (vm_start_pending s) (thread_to_dap s) 
    (dap_to_thread s) (next_thread_id s) (next_handle s) (frames s) (varrefs s) (classes s) 
    (files s) (next_bp_id s) (exception_request_ids s) (entry s) (step_request_ids s) 
    (last_exception s) (locals_warned s).
Definition set_source_roots (v : list string) (s : Session) : Session :=
  mkSession (writer s) (wire s) (effects s) (vm s) (launch_mode s) (child_kill s) 
    (child_reaped s) (child_alive s) (scratch_dir s) v (stop_on_entry s) (main_class s) 
    (suspend_depth s) (terminated_sent s) (vm_start_pending s) (thread_to_dap s) 
    (dap_to_thread s) (next_thread_id s) (next_handle s) (frames s) (varrefs s) (classes s) 
    (files s) (next_bp_id s) (exception_request_ids s) (entry s) (step_request_ids s) 
    (last_exception s) (locals_warned s).
Definition set_stop_on_entry (v : bool) (s : Session) : Session :=
  mkSession (writer s) (wire s) (effects s) (vm s) (launch_mode s) (child_kill s) 
    (child_reaped s) (child_alive s) (scratch_dir s) (source_roots s) v (main_class s) 
    (suspend_depth s) (terminated_sent s) (vm_start_pending s) (thread_to_dap s) 
    (dap_to_thread s) (next_thread_id s) (next_handle s) (frames s) (varrefs s) (classes s) 
    (files s) (next_bp_id s) (exception_request_ids s) (entry s) (step_request_ids s) 
    (last_exception s) (locals_warned s).
Definition set_main_class (v : option string) (s : Session) : Session :=
  mkSession (writer s) (wire s) (effects s) (vm s) (launch_mode s) (child_kill s) 
    (child_reaped s) (child_alive s) (scratch_dir s) (source_roots s) (stop_on_entry s) v 
    (suspend_depth s) (terminated_sent s) (vm_start_pending s) (thread_to_dap s) 
    (dap_to_thread s) (next_thread_id s) (next_handle s) (frames s) (varrefs s) (classes s) 
    (files s) (next_bp_id s) (exception_request_ids s) (entry s) (step_request_ids s) 
    (last_exception s) (locals_warned s).
Definition set_suspend_depth (v : Z) (s : Session) : Session :=
  mkSession (writer s) (wire s) (effects s) (vm s) (launch_mode s) (child_kill s) 
    (child_reaped s) (child_alive s) (scratch_dir s) (source_roots s) (stop_on_entry s) 
    (main_class s) v (terminated_sent s) (vm_start_pending s) (thread_to_dap s) 
    (dap_to_thread s) (next_thread_id s) (next_handle s) (frames s) (varrefs s) (classes s) 
    (files s) (next_bp_id s) (exception_request_ids s) (entry s) (step_request_ids s) 
    (last_exception s) (locals_warned s).
Definition set_terminated_sent (v : bool) (s : Session) : Session :=
  mkSession (writer s) (wire s) (effects s) (vm s) (launch_mode s) (child_kill s) 
    (child_reaped s) (child_alive s) (scratch_dir s) (source_roots s) (stop_on_entry s) 
    (main_class s) (suspend_depth s) v (vm_start_pending s) (thread_to_dap s) (dap_to_thread s) 
    (next_thread_id s) (next_handle s) (frames s) (varrefs s) (classes s) (files s) 
    (next_bp_id s) (exception_request_ids s) (entry s) (step_request_ids s) (last_exception s) 
    (locals_warned s).
Definition set_vm_start_pending (v : bool) (s : Session) : Session :=
  mkSession (writer s) (wire s) (effects s) (vm s) (launch_mode s) (child_kill s) 
    (child_reaped s) (child_alive s) (scratch_dir s) (source_roots s) (stop_on_entry s) 
    (main_class s) (suspend_depth s) (terminated_sent s) v (thread_to_dap s) (dap_to_thread s) 
    (next_thread_id s) (next_handle s) (frames s) (varrefs s) (classes s) (files s) 
    (next_bp_id s) (exception_request_ids s) (entry s) (step_request_ids s) (last_exception s) 
    (locals_warned s).
Definition set_thread_to_dap (v : gmap Z Z) (s : Session) : Session :=
  mkSession (writer s) (wire s) (effects s) (vm s) (launch_mode s) (child_kill s) 
    (child_reaped s) (child_alive s) (scratch_dir s) (source_roots s) (stop_on_entry s) 
    (main_class s) (suspend_depth s) (terminated_sent s) (vm_start_pending s) v 
    (dap_to_thread s) (next_thread_id s) (next_handle s) (frames s) (varrefs s) (classes s) 
    (files s) (next_bp_id s) (exception_request_ids s) (entry s) (step_request_ids s) 
    (last_exception s) (locals_warned s).
Definition set_dap_to_thread (v : gmap Z Z) (s : Session) : Session :=
  mkSession (writer s) (wire s) (effects s) (vm s) (launch_mode s) (child_kill s) 
    (child_reaped s) (child_alive s) (scratch_dir s) (source_roots s) (stop_on_entry s) 
    (main_class s) (suspend_depth s) (terminated_sent s) (vm_start_pending s) (thread_to_dap s) 
    v (next_thread_id s) (next_handle s) (frames s) (varrefs s) (classes s) (files s) 
    (next_bp_id s) (exception_request_ids s) (entry s) (step_request_ids s) (last_exception s) 
    (locals_warned s).
Definition set_next_thread_id (v : Z) (s : Session) : Session :=
  mkSession (writer s) (wire s) (effects s) (vm s) (launch_mode s) (child_kill s) 
    (child_reaped s) (child_alive s) (scratch_dir s) (source_roots s) (stop_on_entry s) 
    (main_class s) (suspend_depth s) (terminated_sent s) (vm_start_pending s) (thread_to_dap s) 
    (dap_to_thread s) v (next_handle s) (frames s) (varrefs s) (classes s) (files s) 
    (next_bp_id s) (exception_request_ids s) (entry s) (step_request_ids s) (last_exception s) 
    (locals_warned s).
Definition set_next_handle (v : Z) (s : Session) : Session :=
  mkSession (writer s) (wire s) (effects s) (vm s) (launch_mode s) (child_kill s) 
    (child_reaped s) (child_alive s) (scratch_dir s) (source_roots s) (stop_on_entry s) 
    (main_class s) (suspend_depth s) (terminated_sent s) (vm_start_pending s) (thread_to_dap s) 
    (dap_to_thread s) (next_thread_id s) v (frames s) (varrefs s) (classes s) (files s) 
    (next_bp_id s) (exception_request_ids s) (entry s) (step_request_ids s) (last_exception s) 
    (locals_warned s).
Definition set_frames (v : gmap Z FrameHandle) (s : Session) : Session :=
  mkSession (writer s) (wire s) (effects s) (vm s) (launch_mode s) (child_kill s) 
    (child_reaped s) (child_alive s) (scratch_dir s) (source_roots s) (stop_on_entry s) 
    (main_class s) (suspend_depth s) (terminated_sent s) (vm_start_pending s) (thread_to_dap s) 
    (dap_to_thread s) (next_thread_id s) (next_handle s) v (varrefs s) (classes s) (files s) 
    (next_bp_id s) (exception_request_ids s) (entry s) (step_request_ids s) (last_exception s) 
    (locals_warned s).
Definition set_varrefs (v : gmap Z VarRef) (s : Session) : Session :=
  mkSession (writer s) (wire s) (effects s) (vm s) (launch_mode s) (child_kill s) 
    (child_reaped s) (child_alive s) (scratch_dir s) (source_roots s) (stop_on_entry s) 
    (main_class s) (suspend_depth s) (terminated_sent s) (vm_start_pending s) (thread_to_dap s) 
    (dap_to_thread s) (next_thread_id s) (next_handle s) (frames s) v (classes s) (files s) 
    (next_bp_id s) (exception_request_ids s) (entry s) (step_request_ids s) (last_exception s) 
    (locals_warned s).
Definition set_classes (v : gmap Z ClassMeta) (s : Session) : Session :=
  mkSession (writer s) (wire s) (effects s) (vm s) (launch_mode s) (child_kill s) 
    (child_reaped s) (child_alive s) (scratch_dir s) (source_roots s) (stop_on_entry s) 
    (main_class s) (suspend_depth s) (terminated_sent s) (vm_start_pending s) (thread_to_dap s) 
    (dap_to_thread s) (next_thread_id s) (next_handle s) (frames s) (varrefs s) v (files s) 
    (next_bp_id s) (exception_request_ids s) (entry s) (step_request_ids s) (last_exception s) 
    (locals_warned s).
Definition set_files (v : gmap string FileBps) (s : Session) : Session :=
  mkSession (writer s) (wire s) (effects s) (vm s) (launch_mode s) (child_kill s) 
    (child_reaped s) (child_alive s) (scratch_dir s) (source_roots s) (stop_on_entry s) 
    (main_class s) (suspend_depth s) (terminated_sent s) (vm_start_pending s) (thread_to_dap s) 
    (dap_to_thread s) (next_thread_id s) (next_handle s) (frames s) (varrefs s) (classes s) v 
    (next_bp_id s) (exception_request_ids s) (entry s) (step_request_ids s) (last_exception s) 
    (locals_warned s).
Definition set_next_bp_id (v : Z) (s : Session) : Session :=
  mkSession (writer s) (wire s) (effects s) (vm s) (launch_mode s) (child_kill s) 
    (child_reaped s) (child_alive s) (scratch_dir s) (source_roots s) (stop_on_entry s) 
    (main_class s) (suspend_depth s) (terminated_sent s) (vm_start_pending s) (thread_to_dap s) 
    (dap_to_thread s) (next_thread_id s) (next_handle s) (frames s) (varrefs s) (classes s) 
    (files s) v (exception_request_ids s) (entry s) (step_request_ids s) (last_exception s) 
    (locals_warned s).
Definition set_exception_request_ids (v : list Z) (s : Session) : Session :=
  mkSession (writer s) (wire s) (effects s) (vm s) (launch_mode s) (child_kill s) 
    (child_reaped s) (child_alive s) (scratch_dir s) (source_roots s) (stop_on_entry s) 
    (main_class s) (suspend_depth s) (terminated_sent s) (vm_start_pending s) (thread_to_dap s) 
    (dap_to_thread s) (next_thread_id s) (next_handle s) (frames s) (varrefs s) (classes s) 
    (files s) (next_bp_id s) v (entry s) (step_request_ids s) (last_exception s) 
    (locals_warned s).
Definition set_entry (v : option EntryState) (s : Session) : Session :=
  mkSession (writer s) (wire s) (effects s) (vm s) (launch_mode s) (child_kill s) 
    (child_reaped s) (child_alive s) (scratch_dir s) (source_roots s) (stop_on_entry s) 
    (main_class s) (suspend_depth s) (terminated_sent s) (vm_start_pending s) (thread_to_dap s) 
    (dap_to_thread s) (next_thread_id s) (next_handle s) (frames s) (varrefs s) (classes s) 
    (files s) (next_bp_id s) (exception_request_ids s) v (step_request_ids s) 
    (last_exception s) (locals_warned s).
Definition set_step_request_ids (v : gset Z) (s : Session) : Session :=
  mkSession (writer s) (wire s) (effects s) (vm s) (launch_mode s) (child_kill s) 
    (child_reaped s) (child_alive s) (scratch_dir s) (source_roots s) (stop_on_entry s) 
    (main_class s) (suspend_depth s) (terminated_sent s) (vm_start_pending s) (thread_to_dap s) 
    (dap_to_thread s) (next_thread_id s) (next_handle s) (frames s) (varrefs s) (classes s) 
    (files s) (next_bp_id s) (exception_request_ids s) (entry s) v (last_exception s) 
    (locals_warned s).
Definition set_last_exception (v : gmap Z (Z * bool)) (s : Session) : Session :=
  mkSession (writer s) (wire s) (effects s) (vm s) (launch_mode s) (child_kill s) 
    (child_reaped s) (child_alive s) (scratch_dir s) (source_roots s) (stop_on_entry s) 
    (main_class s) (suspend_depth s) (terminated_sent s) (vm_start_pending s) (thread_to_dap s) 
    (dap_to_thread s) (next_thread_id s) (next_handle s) (frames s) (varrefs s) (classes s) 
    (files s) (next_bp_id s) (exception_request_ids s) (entry s) (step_request_ids s) v 
    (locals_warned s).
Definition set_locals_warned (v : gset Z) (s : Session) : Session :=
  mkSession (writer s) (wire s) (effects s) (vm s) (launch_mode s) (child_kill s) 
    (child_reaped s) (child_alive s) (scratch_dir s) (source_roots s) (stop_on_entry s) 
    (main_class s) (suspend_depth s) (terminated_sent s) (vm_start_pending s) (thread_to_dap s) 
    (dap_to_thread s) (next_thread_id s) (next_handle s) (frames s) (varrefs s) (classes s) 
    (files s) (next_bp_id s) (exception_request_ids s) (entry s) (step_request_ids s) 
    (last_exception s) v.

(** [Session::new] *)
Definition Session_new : Session := {|
  writer := DapWriter_new;
  wire := [];
  effects := [];
  vm := None;
  launch_mode := false;
  child_kill := false;
  child_reaped := false;
  child_alive := false;
  scratch_dir := None;
  source_roots := [];
  stop_on_entry := false;
  main_class := None;
  suspend_depth := 0;
  terminated_sent := false;
  vm_start_pending := false;
  thread_to_dap := ∅;
  dap_to_thread := ∅;
  next_thread_id := 1;
  next_handle := 1000;
  frames := ∅;
  varrefs := ∅;
  classes := ∅;
  files := ∅;
  next_bp_id := 1;
  exception_request_ids := [];
  entry := None;
  step_request_ids := ∅;
  last_exception := ∅;
  locals_warned := ∅;
|}.

(** ** The other components and the operating system *)

Record ClasspathPlan := mkClasspathPlan {
  cp_classpath : list string; cp_source_roots : list string; cp_scratch_dir : option string }.
Record ClasspathError := mkClasspathError {
  ce_message : string; ce_javac_stderr : option string }.

(** What the session uses of [launch.rs].  The answers depend on the file
    system at that moment, given as the session state; the outer [Result] of
    [assemble_classpath] is the [JoinError] of [spawn_blocking]. *)
Class LaunchSupport := {
  locate_java : Session → option string → option string;
  assemble_classpath : Session → option string → list string → bool → list string →
    option string → Result string (Result ClasspathError ClasspathPlan);
  discover_source_roots : Session → string → list string;
}.

(** One [read] of [wait_for_listen_port]'s [select!]: an I/O error, or the
    stream (stdout?) and the bytes read (none at end of file). *)
Definition ChildRead : Type := Result string (bool * list Z).

(** The operating system: files, processes, sockets, the clock, and Rust's
    rendering of floats. *)
Class Env := {
  read_to_string : string → option string;
  is_file : string → bool;
  join_paths : list string → Result string string;
  spawn : Session → string → list string → Result string unit;
  listen_reads : Session → list ChildRead;          (** before the deadline *)
  connect_local : Session → Z → nat → Result string unit;
  connect_attach : Session → string → Z → Z → Result string unit;
  handshake : Session → Result JdwpError unit;
  exit_in_time : Session → bool;                    (** a reply within [EXIT_GRACE] *)
  f32_to_string : Z → string;
  f64_to_string : Z → string;
}.

(** ** The listen line *)

Definition LISTEN_PATTERN : string := "Listening for transport dt_socket at address: ".

(** What one more read makes of the buffers: [None] to keep reading. *)
Definition listen_step (is_stdout : bool) (buf other : list Z) :
    option (Result string (Z * list (string * string))) :=
  let text := from_utf8_lossy buf in
  match str_find LISTEN_PATTERN text with
  | None => None
  | Some at_ =>
      let after := str_drop (at_ + String.length LISTEN_PATTERN) text in
      match str_find newline after with
      | None => None
      | Some nl =>
          match parse_uint 16 (trim (str_take nl after)) with
          | None => Some (Err ("unparseable JDWP listen line: " +:+ str_take nl after))
          | Some port =>
              let kept := str_take at_ text +:+ str_drop (nl + 1) after in
              let category := if is_stdout then "stdout" else "stderr" in
              let other_cat := if is_stdout then "stderr" else "stdout" in
              Some (Ok (port,
                (if bool_decide (kept = "") then [] else [(category, kept)])
                ++ (if bool_decide (other = []) then [] else [(other_cat, from_utf8_lossy other)])))
          end
      end
  end.

(** [None]: the reads ran out, so the deadline passed. *)
Fixpoint wait_for_listen_port (out_buf err_buf : list Z) (reads : list ChildRead) :
    option (Result string (Z * list (string * string))) :=
  match reads with
  | [] => None
  | Err e :: _ => Some (Err e)
  | Ok (_, []) :: _ => Some (Err "output ended before the JDWP listen line")
  | Ok (is_stdout, chunk) :: rest =>
      let out_buf' := if is_stdout then out_buf ++ chunk else out_buf in
      let err_buf' := if is_stdout then err_buf else err_buf ++ chunk in
      match listen_step is_stdout (if is_stdout then out_buf' else err_buf')
              (if is_stdout then err_buf' else out_buf') with
      | Some r => Some r
      | None => wait_for_listen_port out_buf' err_buf' rest
      end
  end.

(** ** The monad of the handlers *)
Definition M (A : Type) : Type := Session → A * Session.
Global Instance M_ret : MRet M := λ A a s, (a, s).
Global Instance M_bind : MBind M := λ A B f m s, let '(a, s') := m s in f a s'.
(** [m?]: stop at an error. *)
Definition mtry {E A B} (m : M (Result E A)) (f : A → M (Result E B)) : M (Result E B) :=
  r ← m; match r with Ok a => f a | Err e => mret (Err e) end.
Notation "x ←? y ; z" := (mtry y (λ x, z))
  (at level 20, y at level 100, z at level 200, only parsing) : stdpp_scope.

Definition get {A} (f : Session → A) : M A := λ s, (f s, s).
Definition modify (f : Session → Session) : M unit := λ s, ((), f s).
Definition lift_res {E A} (r : Result E A) : M (Result E A) := mret r.
(** [for x in l { body }], and the same with [?] in the body. *)
Fixpoint mfor {A} (l : list A) (body : A → M unit) : M unit :=
  match l with
  | [] => mret ()
  | x :: l' => _ ← body x; mfor l' body
  end.
Fixpoint mfor_try {E A} (l : list A) (body : A → M (Result E unit)) : M (Result E unit) :=
  match l with
  | [] => mret (Ok ())
  | x :: l' => _ ←? body x; mfor_try l' body
  end.
(** [for x in l { out.push(body(x).await) }] *)
Fixpoint mmap {A B} (l : list A) (body : A → M B) : M (list B) :=
  match l with
  | [] => mret []
  | x :: l' => y ← body x; ys ← mmap l' body; mret (y :: ys)
  end.

Definition emit (f : DapWriter → DapWriter) : M unit :=
  modify (λ s, set_writer (f (writer s)) s).
Definition effect (e : Effect) : M unit := modify (λ s, set_effects (e :: effects s) s).
(** A JDWP command: the reply, and the wire with the exchange on it. *)
Definition call {A} (op : VM A) : M (Result JdwpError A) := λ s,
  let '(r, w) := op (wire s) in (r, set_wire w s).
Definition call_msg {A} (what : string) (op : VM A) : M (Result string A) :=
  r ← call op; mret (map_err (λ e, what +:+ JdwpError_display e) r).

Section Session.
Context `{D : Debuggee} `{SD : Serde} `{LS : LaunchSupport} `{EN : Env}.

(** [self.vm()] *)
Definition the_vm : M (Result string IdSizes) := λ s,
  (ok_or (vm s) "No debug session", s).

Definition send_terminated : M unit :=
  sent ← get terminated_sent;
  if sent : bool then mret ()
  else
    _ ← modify (set_terminated_sent true);
    emit (event "terminated" (JObj [])).

(** ** Handles and threads *)

Definition invalidate_handles : M unit :=
  modify (λ s, set_varrefs ∅ (set_frames ∅ s)).

Definition dap_thread_id (thread : Z) : M Z := λ s,
  match thread_to_dap s !! thread with
  | Some id => (id, s)
  | None =>
      let id := next_thread_id s in
      (id, set_dap_to_thread (<[id := thread]> (dap_to_thread s))
             (set_thread_to_dap (<[thread := id]> (thread_to_dap s))
                (set_next_thread_id (id + 1) s)))
  end.

Definition jdwp_thread (dap_id : Z) : M (Result string Z) := λ s,
  (ok_or (dap_to_thread s !! dap_id) ("Unknown thread " +:+ pretty dap_id), s).

Definition new_handle : M Z := λ s,
  (next_handle s, set_next_handle (next_handle s + 1) s).

Definition insert_frame (h : Z) (f : FrameHandle) : M unit :=
  modify (λ s, set_frames (<[h := f]> (frames s)) s).
Definition insert_varref (h : Z) (v : VarRef) : M unit :=
  modify (λ s, set_varrefs (<[h := v]> (varrefs s)) s).

(** ** Class metadata caches *)

Definition update_class (class_id : Z) (f : ClassMeta → ClassMeta) : M unit :=
  modify (λ s, set_classes
    (<[class_id := f (default ClassMeta_default (classes s !! class_id))]> (classes s)) s).

Definition class_signature (class_id : Z) : M (option string) :=
  cs ← get classes;
  match cs !! class_id ≫= cm_signature with
  | Some sig => mret (Some sig)
  | None =>
      v ← get vm;
      match v with
      | None => mret None
      | Some sizes =>
          r ← call (vm_type_signature sizes class_id);
          match r with
          | Err _ => mret None
          | Ok sig =>
              _ ← update_class class_id (λ m, mkClassMeta (Some sig) (cm_source_file m)
                                                (cm_methods m) (cm_line_tables m));
              mret (Some sig)
          end
      end
  end.

Definition class_source_file (class_id : Z) : M (option string) :=
  cs ← get classes;
  match cs !! class_id ≫= cm_source_file with
  | Some cached => mret cached
  | None =>
      v ← get vm;
      match v with
      | None => mret None
      | Some sizes =>
          r ← call (vm_source_file sizes class_id);
          _ ← update_class class_id (λ m, mkClassMeta (cm_signature m) (Some (res_ok r))
                                            (cm_methods m) (cm_line_tables m));
          mret (res_ok r)
      end
  end.

Definition class_methods (class_id : Z) : M (option (list MethodEntry)) :=
  cs ← get classes;
  match cs !! class_id ≫= cm_methods with
  | Some ms => mret (Some ms)
  | None =>
      v ← get vm;
      match v with
      | None => mret None
      | Some sizes =>
          r ← call (vm_methods sizes class_id);
          match r with
          | Err _ => mret None
          | Ok ms =>
              _ ← update_class class_id (λ m, mkClassMeta (cm_signature m) (cm_source_file m)
                                                (Some ms) (cm_line_tables m));
              mret (Some ms)
          end
      end
  end.

(** [table.filter(|t| t.start >= 0)]: a native method reports -1. *)
Definition usable_table (r : Result JdwpError LineTable) : option LineTable :=
  match res_ok r with
  | Some t => if 0 <=? lt_start t then Some t else None
  | None => None
  end.
Definition method_line_table (class_id method_id : Z) : M (option LineTable) :=
  cs ← get classes;
  match cs !! class_id ≫= (λ m, cm_line_tables m !! method_id) with
  | Some cached => mret cached
  | None =>
      v ← get vm;
      match v with
      | None => mret None
      | Some sizes =>
          r ← call (vm_line_table sizes class_id method_id);
          let table := usable_table r in
          _ ← update_class class_id
                (λ m, mkClassMeta (cm_signature m) (cm_source_file m) (cm_methods m)
                        (<[method_id := table]> (cm_line_tables m)));
          mret table
      end
  end.

Definition resolve_source (signature : string) (class_id : Z) : M (option string) :=
  match source_parts signature with
  | None => mret None
  | Some (package_dir, fallback) =>
      sf ← class_source_file class_id;
      let name := default fallback sf in
      roots ← get source_roots;
      mret (List.find is_file (source_candidates roots package_dir name))
  end.

(** ** Breakpoints *)

(** One unverified breakpoint of [bind_lines_in_class]'s loop: the
    breakpoint afterwards and whether it was bound. *)
Definition bind_bp (sizes : IdSizes) (class_id : Z) (tables : list (Z * LineTable)) (bp : LineBp) :
    M (LineBp * bool) :=
  match choose_location tables (bp_line bp) with
  | None =>
      let msg := match bp_message bp with
                 | None => Some "No executable code at this line"
                 | Some m => Some m
                 end in
      mret (mkLineBp (bp_id bp) (bp_line bp) (bp_verified bp) (bp_actual_line bp) msg
              (bp_request_ids bp), false)
  | Some (method_id, index, line) =>
      let location := mkLocation 1 class_id method_id index in
      r ← call (vm_event_request_set sizes event_kind.BREAKPOINT suspend_policy.ALL
                  [MLocationOnly location]);
      match r with
      | Ok request_id =>
          mret (mkLineBp (bp_id bp) (bp_line bp) true (Some line) None
                  (bp_request_ids bp ++ [request_id]), true)
      | Err _ => mret (bp, false)
      end
  end.

Fixpoint bind_bps (sizes : IdSizes) (class_id : Z) (tables : list (Z * LineTable))
    (l : list LineBp) : M (list LineBp * list Z) :=
  match l with
  | [] => mret ([], [])
  | bp :: l' =>
      '(bp', bound) ← (if bp_verified bp then mret (bp, false)
                       else bind_bp sizes class_id tables bp);
      '(bps', changed) ← bind_bps sizes class_id tables l';
      mret (bp' :: bps', if bound : bool then bp_id bp' :: changed else changed)
  end.

(** The line tables of the methods that have one. *)
Fixpoint collect_tables (class_id : Z) (methods : list MethodEntry) : M (list (Z * LineTable)) :=
  match methods with
  | [] => mret []
  | m :: ms =>
      t ← method_line_table class_id (me_id m);
      ts ← collect_tables class_id ms;
      mret (match t with Some t => (me_id m, t) :: ts | None => ts end)
  end.

Definition set_file_bps (path : string) (l : list LineBp) : M unit :=
  modify (λ s, match files s !! path with
               | Some f => set_files (<[path := mkFileBps (class_name f)
                                                  (prepare_request_ids f) l]> (files s)) s
               | None => s
               end).

Definition bind_lines_in_class (path : string) (class_id : Z) : M (list Z) :=
  v ← get vm;
  match v with
  | None => mret []
  | Some sizes =>
      ms ← class_methods class_id;
      match ms with
      | None => mret []
      | Some methods =>
          tables ← collect_tables class_id methods;
          fs ← get files;
          match fs !! path with
          | None => mret []
          | Some file =>
              '(bps', changed) ← bind_bps sizes class_id tables (bps file);
              _ ← set_file_bps path bps';
              mret changed
          end
      end
  end.

(** The retained breakpoints and the request ids of the dropped ones. *)
Definition kept_bps (requested : list Z) (l : list LineBp) : list LineBp :=
  List.filter (λ bp, bool_decide (bp_line bp ∈ requested)) l.
Definition cleared_ids (requested : list Z) (l : list LineBp) : list Z :=
  flat_map bp_request_ids (List.filter (λ bp, negb (bool_decide (bp_line bp ∈ requested))) l).
(** [for &line in &requested]: add the missing lines, unverified, with fresh
    ids. *)
Fixpoint add_missing (requested : list Z) (kept : list LineBp) (next_id : Z) :
    list LineBp * Z :=
  match requested with
  | [] => (kept, next_id)
  | line :: rest =>
      if existsb (λ bp, bp_line bp =? line) kept then add_missing rest kept next_id
      else add_missing rest (kept ++ [mkLineBp next_id line false None None []]) (next_id + 1)
  end.

(** The two CLASS_PREPARE requests of a newly seen file. *)
Definition request_prepare (sizes : IdSizes) (pattern : string) : M (list Z) :=
  r ← call (vm_event_request_set sizes event_kind.CLASS_PREPARE suspend_policy.ALL
              [MClassMatch pattern]);
  mret (match r with Ok id => [id] | Err _ => [] end).
Definition register_file (sizes : IdSizes) (path : string) : M (Result string unit) :=
  fs ← get files;
  match fs !! path with
  | Some _ => mret (Ok ())
  | None =>
      cn ←? lift_res (ok_or (fqcn_for_source read_to_string path)
                        ("Could not determine the class declared in " +:+ path));
      ids1 ← request_prepare sizes cn;
      ids2 ← request_prepare sizes (cn +:+ "$*");
      _ ← modify (λ s, set_files (<[path := mkFileBps cn (ids1 ++ ids2) []]> (files s)) s);
      mret (Ok ())
  end.

(** Drop removed lines, keep retained ones, add new ones; the JDWP requests
    to clear and the file's class. *)
Definition rebuild_bps (path : string) (requested : list Z) : M (list Z * string) := λ s,
  match files s !! path with
  | None => (([], ""), s)
  | Some file =>
      let '(l, next_id) := add_missing requested (kept_bps requested (bps file)) (next_bp_id s) in
      ((cleared_ids requested (bps file), class_name file),
       set_files (<[path := mkFileBps (class_name file) (prepare_request_ids file) l]> (files s))
         (set_next_bp_id next_id s))
  end.

(** The response lists one breakpoint per requested line. *)
Definition breakpoints_body (requested : list Z) (l : list LineBp) : Json :=
  JObj [("breakpoints",
    JArr (breakpoint_json <$> omap (λ line, List.find (λ bp, bp_line bp =? line) l) requested))].

Definition set_breakpoints (args : Json) : M (Result string Json) :=
  a ←? lift_res (map_err (λ e, "Bad setBreakpoints arguments: " +:+ e) (de_set_breakpoints args));
  path ←? lift_res (ok_or (sb_path a) "setBreakpoints without a source path");
  let requested := if bool_decide (sb_breakpoints a = []) then sb_lines a else sb_breakpoints a in
  sizes ←? the_vm;
  _ ←? register_file sizes path;
  '(cleared, cn) ← rebuild_bps path requested;
  _ ← mfor cleared (λ id, _ ← call (vm_event_request_clear event_kind.BREAKPOINT id); mret ());
  let exact := "L" +:+ replace_char "." "/" cn +:+ ";" in
  let prefix := "L" +:+ replace_char "." "/" cn +:+ "$" in
  r ← call (vm_all_classes sizes);
  _ ← match r with
      | Ok cls =>
          mfor cls (λ c,
            if bool_decide (ce_signature c = exact) || starts_with prefix (ce_signature c)
            then _ ← bind_lines_in_class path (ce_type_id c); mret () else mret ())
      | Err _ => mret ()
      end;
  fs ← get files;
  let l := match fs !! path with Some f => bps f | None => [] end in
  mret (Ok (breakpoints_body requested l)).

Definition set_exception_breakpoints (args : Json) : M (Result string Json) :=
  a ←? lift_res (map_err (λ e, "Bad setExceptionBreakpoints arguments: " +:+ e)
                   (de_set_exception_breakpoints args));
  sizes ←? the_vm;
  ids ← get exception_request_ids;
  _ ← modify (set_exception_request_ids []);
  _ ← mfor ids (λ id, _ ← call (vm_event_request_clear event_kind.EXCEPTION id); mret ());
  let caught := bool_decide ("caught" ∈ se_filters a) in
  let uncaught := bool_decide ("uncaught" ∈ se_filters a) in
  if caught || uncaught then
    id ←? call_msg "EXCEPTION request failed: "
            (vm_event_request_set sizes event_kind.EXCEPTION suspend_policy.ALL
               [MExceptionOnly caught uncaught]);
    _ ← modify (λ s, set_exception_request_ids (exception_request_ids s ++ [id]) s);
    mret (Ok (JObj []))
  else mret (Ok (JObj [])).

(** ** Stops *)

Definition stopped_body (reason : string) (thread_id : Z) : Json :=
  JObj [("reason", JStr reason); ("threadId", JNum thread_id); ("allThreadsStopped", JBool true)].

Definition on_stop (thread : Z) (reason : string) : M unit :=
  _ ← invalidate_handles;
  id ← dap_thread_id thread;
  emit (event "stopped" (stopped_body reason id)).

Definition entry_skipped : string :=
  "stopOnEntry skipped: no line info for the main method (compiled without -g)" +:+ newline.

Definition arm_entry_breakpoint (type_id : Z) : M unit :=
  v ← get vm;
  match v with
  | None => mret ()
  | Some sizes =>
      e ← get entry;
      _ ← match e with
          | Some st => _ ← call (vm_event_request_clear event_kind.CLASS_PREPARE
                                   (prepare_request_id st)); mret ()
          | None => mret ()
          end;
      ms ← class_methods type_id;
      let main := match ms with
                  | Some methods =>
                      me_id <$> List.find (λ m, bool_decide (me_name m = "main")
                        && bool_decide (me_signature m = "([Ljava/lang/String;)V")) methods
                  | None => None
                  end in
      location ← match main with
                 | Some method_id =>
                     t ← method_line_table type_id method_id;
                     mret (t ≫= λ t, (λ '(i, _), mkLocation 1 type_id method_id i)
                                       <$> head (lt_lines t))
                 | None => mret None
                 end;
      match location with
      | None =>
          _ ← modify (set_entry None);
          emit (output "console" entry_skipped)
      | Some location =>
          r ← call (vm_event_request_set sizes event_kind.BREAKPOINT suspend_policy.ALL
                      [MLocationOnly location; MCount 1]);
          match r with
          | Ok id => modify (λ s, match entry s with
                                  | Some st => set_entry (Some (mkEntryState
                                                 (prepare_request_id st) (Some id))) s
                                  | None => s
                                  end)
          | Err _ => modify (set_entry None)
          end
      end
  end.

(** ** JDWP events *)

(** The file whose CLASS_PREPARE request this was; [HashMap] order is
    unspecified, and any order finds the same file when the debuggee's
    request ids are distinct. *)
Definition file_of_prepare (id : Z) (fs : gmap string FileBps) : option string :=
  fst <$> List.find (λ pf, bool_decide (id ∈ prepare_request_ids (snd pf))) (map_to_list fs).

Definition breakpoint_changed (bp : LineBp) : M unit :=
  emit (event "breakpoint"
          (JObj [("reason", JStr "changed"); ("breakpoint", breakpoint_json bp)])).

(** One event of a set; the result is the new [auto_resume]. *)
Definition handle_event (ev : Event) (auto_resume : bool) : M bool :=
  match ev with
  | VmStart _ _ => _ ← modify (set_vm_start_pending true); mret auto_resume
  | ClassPrepare request_id _ _ type_id _ _ =>
      e ← get entry;
      if match e with Some st => prepare_request_id st =? request_id | None => false end then
        _ ← arm_entry_breakpoint type_id; mret auto_resume
      else
        fs ← get files;
        match file_of_prepare request_id fs with
        | None => mret auto_resume
        | Some path =>
            changed ← bind_lines_in_class path type_id;
            fs' ← get files;
            _ ← match fs' !! path with
                | None => mret ()
                | Some file =>
                    mfor (List.filter (λ bp, bool_decide (bp_id bp ∈ changed)) (bps file))
                      breakpoint_changed
                end;
            mret auto_resume
        end
  | Breakpoint request_id thread _ =>
      e ← get entry;
      if match e with
         | Some st => bool_decide (bp_request_id st = Some request_id)
         | None => false
         end
      then _ ← modify (set_entry None); _ ← on_stop thread "entry"; mret false
      else _ ← on_stop thread "breakpoint"; mret false
  | SingleStep request_id thread _ =>
      steps ← get step_request_ids;
      _ ← (if bool_decide (request_id ∈ steps) then
             _ ← modify (set_step_request_ids (steps ∖ {[request_id]}));
             v ← get vm;
             match v with
             | Some _ => _ ← call (vm_event_request_clear event_kind.SINGLE_STEP request_id); mret ()
             | None => mret ()
             end
           else mret ());
      _ ← on_stop thread "step"; mret false
  | Exception _ thread _ exception catch_location =>
      _ ← modify (λ s, set_last_exception
                         (<[thread := (exception, bool_decide (is_Some catch_location))]>
                            (last_exception s)) s);
      _ ← on_stop thread "exception"; mret false
  | VmDeath _ => _ ← send_terminated; mret false
  end.

Fixpoint handle_events (evs : list Event) (auto_resume : bool) : M bool :=
  match evs with
  | [] => mret auto_resume
  | ev :: evs' => a ← handle_event ev auto_resume; handle_events evs' a
  end.

Definition is_vm_start (e : Event) : bool := match e with VmStart _ _ => true | _ => false end.

Definition handle_event_set (set : EventSet) : M unit :=
  let all := suspend_policy_of set =? suspend_policy.ALL in
  let has_vm_start := existsb is_vm_start (events set) in
  _ ← (if all && negb has_vm_start
       then modify (λ s, set_suspend_depth (suspend_depth s + 1) s) else mret ());
  auto ← handle_events (events set) (all && negb has_vm_start);
  if auto : bool then
    v ← get vm;
    match v with
    | Some _ =>
        r ← call vm_resume;
        match r with
        | Ok _ => modify (λ s, set_suspend_depth (saturating_sub (suspend_depth s) 1) s)
        | Err _ => mret ()
        end
    | None => mret ()
    end
  else mret ().

(** ** Execution control *)

Fixpoint resume_times (n : nat) : M (Result string unit) :=
  match n with
  | O => mret (Ok ())
  | S k => _ ←? call_msg "resume failed: " vm_resume; resume_times k
  end.

Definition continue_all : M (Result string Json) :=
  _ ←? the_vm;
  _ ← invalidate_handles;
  _ ← modify (set_last_exception ∅);
  depth ← get suspend_depth;
  _ ←? resume_times (Z.to_nat (Z.max depth 1));
  _ ← modify (set_suspend_depth 0);
  mret (Ok (JObj [("allThreadsContinued", JBool true)])).

Definition do_step (args : Json) (depth : Z) : M (Result string Json) :=
  a ←? lift_res (map_err (λ e, "Bad step arguments: " +:+ e) (de_thread_id args));
  thread ←? jdwp_thread (ti_thread_id a);
  sizes ←? the_vm;
  id ←? call_msg "step request failed: "
          (vm_event_request_set sizes event_kind.SINGLE_STEP suspend_policy.ALL
             [MStep thread step.SIZE_LINE depth; MCount 1]);
  _ ← modify (λ s, set_step_request_ids ({[id]} ∪ step_request_ids s) s);
  _ ←? continue_all;
  mret (Ok (JObj [])).

Definition pause (args : Json) : M (Result string Json) :=
  a ←? lift_res (map_err (λ e, "Bad pause arguments: " +:+ e) (de_thread_id args));
  _ ←? the_vm;
  _ ←? call_msg "suspend failed: " vm_suspend;
  _ ← modify (λ s, set_suspend_depth (suspend_depth s + 1) s);
  _ ← invalidate_handles;
  _ ← emit (event "stopped" (stopped_body "pause" (ti_thread_id a)));
  mret (Ok (JObj [])).

Definition configuration_done : M (Result string Json) :=
  lm ← get launch_mode;
  soe ← get stop_on_entry;
  _ ←? (if lm && soe then
          sizes ←? the_vm;
          mc ← get main_class;
          match mc with
          | None => mret (Ok ())
          | Some cls =>
              r ← call (vm_event_request_set sizes event_kind.CLASS_PREPARE suspend_policy.ALL
                          [MClassMatch cls]);
              match r with
              | Ok id => _ ← modify (set_entry (Some (mkEntryState id None))); mret (Ok ())
              | Err e =>
                  _ ← emit (output "console"
                              ("stopOnEntry unavailable: " +:+ JdwpError_display e +:+ newline));
                  mret (Ok ())
              end
          end
        else mret (Ok ()));
  pending ← get vm_start_pending;
  if lm || pending then
    _ ← modify (set_vm_start_pending false);
    _ ←? the_vm;
    _ ←? call_msg "resume failed: " vm_resume;
    mret (Ok (JObj []))
  else mret (Ok (JObj [])).

(** ** Threads, stacks, variables *)

Definition threads : M (Result string Json) :=
  sizes ←? the_vm;
  ts ←? call_msg "AllThreads failed: " (vm_all_threads sizes);
  l ← mmap ts (λ thread,
        r ← call (vm_thread_name sizes thread);
        id ← dap_thread_id thread;
        mret (JObj [("id", JNum id); ("name", JStr (res_unwrap_or "<unnamed>" r))]));
  mret (Ok (JObj [("threads", JArr l)])).

(** The [length] argument of [ThreadReference.Frames], or [None] when there
    is nothing to fetch. *)
Definition frames_length (total : option Z) (start levels : Z) : option Z :=
  match total with
  | Some total =>
      let available := saturating_sub total start in
      if available =? 0 then None
      else Some (if levels =? 0 then -1 else as_i32 (Z.min levels available))
  | None => Some (if levels =? 0 then -1 else as_i32 levels)
  end.

(** One frame of the reply. *)
Definition frame_json (thread : Z) (fr : FrameEntry) : M Json :=
  let location := fr_location fr in
  signature ← class_signature (class_id location);
  let type_name := match signature with Some s => pretty_type s | None => "<unknown>" end in
  ms ← class_methods (class_id location);
  let method_name := default "<unknown>"
    (ms ≫= λ ms, me_name <$> List.find (λ m, me_id m =? method_id location) ms) in
  t ← method_line_table (class_id location) (method_id location);
  let line := t ≫= λ t, line_for_index t (index location) in
  source ← match signature with
           | Some sig => resolve_source sig (class_id location)
           | None => mret None
           end;
  handle ← new_handle;
  _ ← insert_frame handle (mkFrameHandle thread (fr_frame_id fr) location);
  let j := JObj [("id", JNum handle); ("name", JStr (type_name +:+ "." +:+ method_name));
                 ("line", JNum (default 0 line)); ("column", JNum 0)] in
  mret (match source with
        | Some path => json_set "source"
            (JObj [("name", JStr (default "" (file_name path))); ("path", JStr path)]) j
        | None => j
        end).

Definition stack_trace (args : Json) : M (Result string Json) :=
  a ←? lift_res (map_err (λ e, "Bad stackTrace arguments: " +:+ e) (de_stack_trace args));
  thread ←? jdwp_thread (st_thread_id a);
  sizes ←? the_vm;
  rt ← call (vm_frame_count sizes thread);
  let total := res_ok rt in
  match frames_length total (st_start_frame a) (st_levels a) with
  | None => mret (Ok (JObj [("stackFrames", JArr []); ("totalFrames", JNum (default 0 total))]))
  | Some length =>
      fs ←? call_msg "Frames failed: " (vm_frames sizes thread (st_start_frame a) length);
      l ← mmap fs (frame_json thread);
      let body := JObj [("stackFrames", JArr l)] in
      mret (Ok (match total with
                | Some total => json_set "totalFrames" (JNum total) body
                | None => body
                end))
  end.

Definition scopes (args : Json) : M (Result string Json) :=
  a ←? lift_res (map_err (λ e, "Bad scopes arguments: " +:+ e) (de_frame_id args));
  fs ← get frames;
  f ←? lift_res (ok_or (fs !! fi_frame_id a) "Unknown or stale frame");
  handle ← new_handle;
  _ ← insert_varref handle (VLocals (fh_thread f) (fh_frame f) (fh_location f));
  mret (Ok (JObj [("scopes", JArr [JObj [("name", JStr "Locals");
                     ("variablesReference", JNum handle); ("expensive", JBool false)]])])).

(** A string value as displayed: at most [STRING_DISPLAY_CAP] characters. *)
Definition display_string (s : string) : string :=
  let shown := take_chars STRING_DISPLAY_CAP (as_bytes s) in
  quote +:+ string_of_bytes shown
    +:+ (if Z.of_nat (length shown) <? str_len s then ellipsis else "") +:+ quote.

(** The class of an object, for display. *)
Definition object_class (sizes : IdSizes) (id : Z) (unknown : string) : M string :=
  r ← call (vm_object_type sizes id);
  match r with
  | Ok (_, type_id) =>
      sig ← class_signature type_id;
      mret (match sig with Some s => pretty_type s | None => unknown end)
  | Err _ => mret unknown
  end.

Definition render_value (value : Value) : M (string * Z) :=
  match value with
  | VVoid => mret ("void", 0)
  | VBoolean v => mret (if v then "true" else "false", 0)
  | VByte v | VShort v | VInt v | VLong v => mret (pretty v, 0)
  | VFloat v => mret (f32_to_string v, 0)
  | VDouble v => mret (f64_to_string v, 0)
  | VChar v =>
      mret (match char_of_u16 v with
            | Some c => "'" +:+ c +:+ "'"
            | None => "'" +:+ backslash +:+ "u" +:+ hex4 v +:+ "'"
            end, 0)
  | VObject t id =>
      if id =? 0 then mret ("null", 0)
      else
        v ← get vm;
        if t =? tag.STRING then
          match v with
          | None => mret ("<gone>", 0)
          | Some sizes =>
              r ← call (vm_string_value sizes id);
              mret (match r with Ok s => display_string s | Err _ => "<string unavailable>" end, 0)
          end
        else if t =? tag.ARRAY then
          match v with
          | None => mret ("<gone>", 0)
          | Some sizes =>
              element ← object_class sizes id "?[]";
              r ← call (vm_array_length sizes id);
              let length := res_unwrap_or 0 r in
              let base := default element (strip_suffix "[]" element) in
              handle ← new_handle;
              _ ← insert_varref handle (VRArray id);
              mret (base +:+ "[" +:+ pretty length +:+ "]", handle)
          end
        else
          cls ← match v with
                | Some sizes => object_class sizes id "Object"
                | None => mret "Object"
                end;
          handle ← new_handle;
          _ ← insert_varref handle (VRObject id);
          mret (cls +:+ " (id=" +:+ pretty id +:+ ")", handle)
  end.

(** [variable_json(name, self.render_value(value).await)] for each pair. *)
Definition render_named (l : list (string * Value)) : M (list Json) :=
  mmap l (λ '(name, value), r ← render_value value; mret (variable_json name r)).

(** The slots live at a code index.  The sum is a [u64]: it wraps. *)
Definition slot_live (code : Z) (s : VariableSlot) : bool :=
  (vs_code_index s <=? code) && (code <? as_u64 (vs_code_index s + vs_length s)).
Definition slot_request (s : VariableSlot) : Z * Z :=
  (vs_slot s, default 76 (head (as_bytes (vs_signature s)))).

Definition local_variables (thread frm : Z) (location : Location) :
    M (Result string (list Json)) :=
  sizes ←? the_vm;
  rt ← call (vm_this_object sizes thread frm);
  this ← match rt with
         | Ok (VObject t id) =>
             if id =? 0 then mret [] else render_named [("this", VObject t id)]
         | _ => mret []
         end;
  rv ← call (vm_variable_table sizes (class_id location) (method_id location));
  match rv with
  | Ok slots =>
      let live := List.filter (slot_live (index location)) slots in
      match live with
      | [] => mret (Ok this)
      | _ =>
          values ←? call_msg "StackFrame.GetValues failed: "
                      (vm_stack_values sizes thread frm (slot_request <$> live));
          l ← render_named (zip (vs_name <$> live) values);
          mret (Ok (this ++ l))
      end
  | Err e =>
      if is_absent_information e then
        warned ← get locals_warned;
        if bool_decide (class_id location ∈ warned) then mret (Ok this)
        else
          _ ← modify (set_locals_warned ({[class_id location]} ∪ warned));
          sig ← class_signature (class_id location);
          let cls := match sig with Some s => pretty_type s | None => "<unknown>" end in
          _ ← emit (output "console" ("Locals unavailable for " +:+ cls
                      +:+ " (compiled without -g)" +:+ newline));
          mret (Ok this)
      else mret (Err ("VariableTable failed: " +:+ JdwpError_display e))
  end.

Definition ACC_STATIC : Z := 8.
(** Instance fields up the superclass chain. *)
Fixpoint collect_fields (cap : nat) (sizes : IdSizes) (type_id : Z) : M (list FieldEntry) :=
  match cap with
  | O => mret []
  | S k =>
      if type_id =? 0 then mret []
      else
        rf ← call (vm_fields sizes type_id);
        rs ← call (vm_superclass sizes type_id);
        rest ← collect_fields k sizes (res_unwrap_or 0 rs);
        mret (List.filter (λ f, Z.land (fe_mod_bits f) ACC_STATIC =? 0) (res_unwrap_or [] rf)
              ++ rest)
  end.

Definition object_children (object : Z) : M (Result string (list Json)) :=
  sizes ←? the_vm;
  ty ←? call_msg "ReferenceType failed: " (vm_object_type sizes object);
  fields ← collect_fields SUPER_CHAIN_CAP sizes (snd ty);
  match fields with
  | [] => mret (Ok [])
  | _ =>
      values ←? call_msg "GetValues failed: "
                  (vm_object_values sizes object (fe_id <$> fields));
      l ← render_named (zip (fe_name <$> fields) values);
      mret (Ok l)
  end.

(** [[i]] names from [i] up. *)
Fixpoint index_names (i : Z) (l : list Value) : list (string * Value) :=
  match l with
  | [] => []
  | v :: l' => ("[" +:+ pretty i +:+ "]", v) :: index_names (i + 1) l'
  end.

Definition array_children (object : Z) : M (Result string (list Json)) :=
  sizes ←? the_vm;
  length ←? call_msg "ArrayReference.Length failed: " (vm_array_length sizes object);
  let shown := Z.min length ARRAY_CHILD_CAP in
  l ←? (if 0 <? shown then
          values ←? call_msg "ArrayReference.GetValues failed: "
                      (vm_array_values sizes object 0 shown);
          l ← render_named (index_names 0 values);
          mret (Ok l)
        else mret (Ok []));
  mret (Ok (l ++ if shown <? length
                 then [variable_json ellipsis
                         ("(" +:+ pretty (length - shown) +:+ " more elements not shown)", 0)]
                 else [])).

Definition variables (args : Json) : M (Result string Json) :=
  a ←? lift_res (map_err (λ e, "Bad variables arguments: " +:+ e) (de_variables args));
  vs ← get varrefs;
  l ←? match vs !! va_variables_reference a with
       | Some (VLocals thread frm location) => local_variables thread frm location
       | Some (VRObject id) => object_children id
       | Some (VRArray id) => array_children id
       | None => mret (Err "Unknown or stale variablesReference")
       end;
  mret (Ok (JObj [("variables", JArr l)])).

(** ** Exceptions *)

(** [Throwable.detailMessage], by field access up the superclass chain. *)
Fixpoint detail_message (cap : nat) (sizes : IdSizes) (exception walk : Z) : M (option string) :=
  match cap with
  | O => mret None
  | S k =>
      if walk =? 0 then mret None
      else
        rf ← call (vm_fields sizes walk);
        match List.find (λ f, bool_decide (fe_name f = "detailMessage")) (res_unwrap_or [] rf) with
        | Some f =>
            rv ← call (vm_object_values sizes exception [fe_id f]);
            match head (res_unwrap_or [] rv) with
            | Some (VObject t id) =>
                if (t =? tag.STRING) && negb (id =? 0) then
                  rm ← call (vm_string_value sizes id); mret (res_ok rm)
                else mret None
            | _ => mret None
            end
        | None =>
            rs ← call (vm_superclass sizes walk);
            detail_message k sizes exception (res_unwrap_or 0 rs)
        end
  end.

Definition exception_body (type_name : string) (message : option string) (caught : bool) : Json :=
  JObj [("exceptionId", JStr type_name);
        ("description", JStr (match message with
                              | Some m => type_name +:+ ": " +:+ m
                              | None => type_name
                              end));
        ("breakMode", JStr (if caught then "always" else "unhandled"));
        ("details", JObj [("message", match message with Some m => JStr m | None => JNull end);
                          ("typeName", JStr type_name)])].

Definition exception_info (args : Json) : M (Result string Json) :=
  a ←? lift_res (map_err (λ e, "Bad exceptionInfo arguments: " +:+ e) (de_thread_id args));
  thread ←? jdwp_thread (ti_thread_id a);
  le ← get last_exception;
  ec ←? lift_res (ok_or (le !! thread) "No exception on this thread");
  sizes ←? the_vm;
  ty ←? call_msg "ReferenceType failed: " (vm_object_type sizes (fst ec));
  sig ← class_signature (snd ty);
  let type_name := match sig with Some s => pretty_type s | None => "Throwable" end in
  message ← detail_message SUPER_CHAIN_CAP sizes (fst ec) (snd ty);
  mret (Ok (exception_body type_name message (snd ec))).

(** ** Termination *)

(** [if let Some(kill) = self.child_kill.take() { kill.send(()) }] *)
Definition take_kill : M unit :=
  k ← get child_kill;
  if k : bool then _ ← modify (set_child_kill false); effect EKillChild else mret ().

Definition terminate : M (Result string Json) :=
  v ← get vm;
  _ ← match v with
      | Some _ =>
          in_time ← get exit_in_time;
          r ← call (vm_exit 1);
          if in_time && is_ok r then mret () else take_kill
      | None => take_kill
      end;
  lm ← get launch_mode;
  alive ← get child_alive;
  _ ← (if lm && alive then effect EKillTimer else mret ());
  mret (Ok (JObj [])).

Definition disconnect (args : Json) : M (Result string Json) :=
  let a := res_unwrap_or DisconnectArgs_default (de_disconnect args) in
  lm ← get launch_mode;
  _ ←? (if default lm (da_terminate_debuggee a) then terminate
        else
          v ← get vm;
          match v with
          | Some _ => _ ← modify (set_vm None); _ ← call vm_dispose; mret (Ok (JObj []))
          | None => mret (Ok (JObj []))
          end);
  mret (Ok (JObj [])).

Definition cleanup : M unit :=
  _ ← take_kill;
  reaped ← get child_reaped;
  _ ← (if reaped : bool then _ ← modify (set_child_reaped false); effect EAwaitReap else mret ());
  scratch ← get scratch_dir;
  match scratch with
  | Some dir => _ ← modify (set_scratch_dir None); effect (ERemoveDir dir)
  | None => mret ()
  end.

(** ** Session start *)

Definition start_vm (launch : bool) : M (Result string unit) :=
  h ← get handshake;
  _ ←? lift_res (map_err (λ e, "JDWP handshake failed: " +:+ JdwpError_display e) h);
  sizes ←? call_msg "JDWP IDSizes failed: " vm_new;
  _ ← modify (λ s, set_launch_mode launch (set_vm (Some sizes) s));
  mret (Ok ()).

(** Up to [n] attempts to connect, from number [k]. *)
Fixpoint connect_retry (n k : nat) (port : Z) : M (Result string unit) :=
  match n with
  | O => mret (Err "connect loop yields a stream or returns")
  | S n' =>
      r ← get (λ s, connect_local s port k);
      match r with
      | Ok _ => mret (Ok ())
      | Err e =>
          match n' with
          | O => mret (Err ("Could not connect to the JVM's JDWP port: " +:+ e))
          | _ => connect_retry n' (S k) port
          end
      end
  end.

Definition JDWP_AGENT : string :=
  "-agentlib:jdwp=transport=dt_socket,server=y,suspend=y,address=127.0.0.1:0".
Definition debuggee_argv (a : LaunchArgs) (joined main : string) : list string :=
  la_vm_args a ++ [JDWP_AGENT; "-cp"; joined; main] ++ la_args a.

(** After [spawn]: wait for the listen line, connect, and take the child. *)
Definition launch_child (stop_entry : bool) (main : string) : M (Result string Json) :=
  reads ← get listen_reads;
  found ←? match wait_for_listen_port [] [] reads with
           | Some (Ok found) => mret (Ok found)
           | Some (Err e) =>
               _ ← effect EKillAndReap;
               mret (Err ("The JVM exited before accepting a debugger: " +:+ e))
           | None =>
               _ ← effect EKillAndReap;
               mret (Err "Timed out waiting for the JVM's JDWP listen address.")
           end;
  let '(port, early) := found in
  _ ← mfor early (λ '(category, chunk), emit (output category chunk));
  c ← connect_retry 3 0 port;
  match c with
  | Err e => _ ← effect EKillAndReap; mret (Err e)
  | Ok _ =>
      r ← start_vm true;
      match r with
      | Err e => _ ← effect EKillOnDrop; mret (Err e)
      | Ok _ =>
          _ ← take_kill;      (* an earlier kill channel is dropped: "kill now" *)
          _ ← modify (λ s, set_main_class (Some main) (set_stop_on_entry stop_entry
                 (set_child_alive true (set_child_reaped true (set_child_kill true s)))));
          mret (Ok (JObj []))
      end
  end.

Definition launch (args : Json) : M (Result string Json) :=
  a ←? lift_res (map_err (λ e, "Bad launch arguments: " +:+ e) (de_launch args));
  main ←? lift_res (ok_or
            (match trim <$> la_main_class a with
             | Some c => if bool_decide (c = "") then None else Some c
             | None => None
             end)
            ("Missing required launch attribute " +:+ quote +:+ "mainClass" +:+ quote +:+ "."));
  j ← get (λ s, locate_java s (la_jdk_home a));
  java ←? lift_res (ok_or j "No JDK found. Set java-vsix-lite.jdk.home.");
  p ← get (λ s, assemble_classpath s (la_project_root a) (la_class_paths a)
                  (la_include_test_outputs a) (la_additional_class_paths a) (la_jdk_home a));
  p ←? lift_res (map_err (λ e, "Classpath assembly failed: " +:+ e) p);
  match p with
  | Err error =>
      _ ← match ce_javac_stderr error with
          | Some stderr => emit (output "stderr" stderr)
          | None => mret ()
          end;
      mret (Err (ce_message error))
  | Ok plan =>
      _ ← modify (λ s, set_scratch_dir (cp_scratch_dir plan)
                         (set_source_roots (cp_source_roots plan) s));
      joined ←? lift_res (map_err (λ e, "Unrepresentable classpath entry: " +:+ e)
                            (join_paths (cp_classpath plan)));
      let argv := debuggee_argv a joined main in
      let cwd := match la_cwd a with Some c => Some c | None => la_project_root a end in
      sp ← get (λ s, spawn s java argv);
      _ ←? lift_res (map_err (λ e, "Could not start " +:+ java +:+ ": " +:+ e) sp);
      _ ← effect (ESpawn java argv cwd);
      launch_child (la_stop_on_entry a) main
  end.

Definition attach (args : Json) : M (Result string Json) :=
  a ←? lift_res (map_err (λ e, "Bad attach arguments: " +:+ e) (de_attach args));
  let host := default "localhost" (aa_host_name a) in
  port ←? lift_res (ok_or (aa_port a)
            ("Missing required attach attribute " +:+ quote +:+ "port" +:+ quote +:+ "."));
  c ← get (λ s, connect_attach s host port (default 30000 (aa_timeout a)));
  _ ←? lift_res (map_err (λ e, "Could not attach to " +:+ host +:+ ":" +:+ pretty port
                                 +:+ ": " +:+ e) c);
  _ ←? start_vm false;
  roots ← get (λ s, match aa_project_root a with
                    | Some root => discover_source_roots s root
                    | None => []
                    end);
  _ ← modify (set_source_roots (roots ++ aa_source_paths a));
  mret (Ok (JObj [])).

(** ** The event loop *)

Definition dispatch (command : string) (args : Json) : M (Result string Json) :=
  if bool_decide (command = "initialize") then mret (Ok capabilities)
  else if bool_decide (command = "launch") then launch args
  else if bool_decide (command = "attach") then attach args
  else if bool_decide (command = "setBreakpoints") then set_breakpoints args
  else if bool_decide (command = "setExceptionBreakpoints") then set_exception_breakpoints args
  else if bool_decide (command = "configurationDone") then configuration_done
  else if bool_decide (command = "threads") then threads
  else if bool_decide (command = "stackTrace") then stack_trace args
  else if bool_decide (command = "scopes") then scopes args
  else if bool_decide (command = "variables") then variables args
  else if bool_decide (command = "continue") then continue_all
  else if bool_decide (command = "next") then do_step args step.DEPTH_OVER
  else if bool_decide (command = "stepIn") then do_step args step.DEPTH_INTO
  else if bool_decide (command = "stepOut") then do_step args step.DEPTH_OUT
  else if bool_decide (command = "pause") then pause args
  else if bool_decide (command = "exceptionInfo") then exception_info args
  else if bool_decide (command = "terminate") then terminate
  else if bool_decide (command = "disconnect") then disconnect args
  else if bool_decide (command = "evaluate") then
    mret (Err "Expression evaluation is not supported")
  else mret (Err ("Unsupported request: " +:+ command)).

Definition handle_request (request : Json) : M Flow :=
  let seq := as_i64_or 0 (json_get "seq" request) in
  let command := as_str_or "" (json_get "command" request) in
  result ← dispatch command (json_get "arguments" request);
  _ ← emit (respond seq command result);
  if (bool_decide (command = "launch") || bool_decide (command = "attach")) && is_ok result then
    _ ← emit (event "initialized" (JObj [])); mret Continue
  else if bool_decide (command = "disconnect") then mret Exit
  else mret Continue.

Definition handle (message : Inbound) : M Flow :=
  match message with
  | IRequest request => handle_request request
  | IStdinClosed => mret Exit
  | IJdwpEvent payload =>
      v ← get vm;
      match v with
      | None => mret Continue
      | Some sizes =>
          _ ← match parse_composite payload sizes with
              | Ok set => handle_event_set set
              | Err _ => send_terminated
              end;
          mret Continue
      end
  | IJdwpClosed =>
      _ ← modify (set_vm None); _ ← send_terminated; mret Continue
  | IChildOut category chunk => _ ← emit (output category chunk); mret Continue
  | IChildExit code =>
      _ ← modify (λ s, set_child_kill false (set_child_alive false s));
      _ ← emit (event "exited" (JObj [("exitCode", JNum (default 0 code))]));
      _ ← send_terminated; mret Continue
  | IKillDeadline =>
      alive ← get child_alive;
      _ ← (if alive : bool then take_kill else mret ());
      mret Continue
  end.

(** The loop of [run_stdio_adapter]: [true] when it left the loop. *)
Fixpoint event_loop (messages : list Inbound) : M bool :=
  match messages with
  | [] => mret false
  | m :: rest =>
      flow ← handle m;
      match flow with Exit => mret true | Continue => event_loop rest end
  end.

Definition run_stdio_adapter (messages : list Inbound) : M bool :=
  left ← event_loop messages;
  if left : bool then _ ← cleanup; mret true else mret false.

End Session.
