(* ===== verification/DapExample.v ===== *)
(** * A concrete debug session

    A small debuggee (one class [A] with one method, one thread stopped in
    it), a client whose requests carry their arguments, and an operating
    system where everything works: the instances the examples and the
    instantiated theorems run on. *)
From S2P Require Import Prelude RustStd Paths JdwpCommands JdwpCodec JdwpVm DapProtocol DapPure DapSession.

Definition u32s (l : list Z) : list Z := l ≫= to_be_bytes 4.
Definition u64s (l : list Z) : list Z := l ≫= to_be_bytes 8.
Definition jdwp_str (s : string) : list Z := u32s [str_len s] ++ as_bytes s.

(** The class [A] is 100, its method [main] 200, the thread 1, the frame 7. *)
Definition ex_reply (w : Wire) (p : Packet) : Result JdwpError (list Z) :=
  let cmd c := bool_decide ((p_set p, p_cmd p) = c) in
  if cmd (1, 7) then Ok (u32s [8; 8; 8; 8; 8])
  else if cmd (1, 4) then Ok (u32s [1] ++ u64s [1])
  else if cmd (1, 3) then Ok (u32s [1] ++ [1] ++ u64s [100] ++ jdwp_str "LA;" ++ u32s [7])
  else if cmd (2, 1) then Ok (jdwp_str "LA;")
  else if cmd (2, 5) then
    Ok (u32s [1] ++ u64s [200] ++ jdwp_str "main" ++ jdwp_str "([Ljava/lang/String;)V" ++ u32s [9])
  else if cmd (2, 7) then Ok (jdwp_str "A.java")
  else if cmd (6, 1) then Ok (u64s [0; 9] ++ u32s [1] ++ u64s [0] ++ u32s [10])
  else if cmd (11, 1) then Ok (jdwp_str "main")
  else if cmd (11, 7) then Ok (u32s [1])
  else if cmd (11, 6) then Ok (u32s [1] ++ u64s [7] ++ [1] ++ u64s [100; 200; 3])
  else if cmd (15, 1) then Ok (u32s [Z.of_nat (length w)])
  else Ok [].
#[export] Instance ex_debuggee : Debuggee := ex_reply.

Definition num_arg (key : string) (j : Json) : Result string Z :=
  match json_get key j with JNum n => Ok n | _ => Err ("missing field " +:+ key) end.
Definition line_of (j : Json) : list Z :=
  match json_get "line" j with JNum n => [n] | _ => [] end.
Definition opt_num (j : Json) : option Z := match j with JNum n => Some n | _ => None end.
Definition opt_str (j : Json) : option string := match j with JStr s => Some s | _ => None end.
Definition strings_of (j : Json) : list string :=
  match j with JArr l => omap opt_str l | _ => [] end.

#[export] Instance ex_serde : Serde := {|
  de_launch j := Ok (mkLaunchArgs (opt_str (json_get "mainClass" j)) [] [] None []
                       (opt_str (json_get "projectRoot" j)) [] false false [] None);
  de_attach j := Ok (mkAttachArgs None (opt_num (json_get "port" j)) None None ["/src"]);
  de_set_breakpoints j :=
    Ok (mkSetBreakpointsArgs (opt_str (json_get "path" (json_get "source" j)))
          (match json_get "breakpoints" j with JArr l => l ≫= line_of | _ => [] end) []);
  de_set_exception_breakpoints j :=
    Ok (mkSetExceptionBreakpointsArgs (strings_of (json_get "filters" j)));
  de_thread_id j := mkThreadIdArgs <$> num_arg "threadId" j;
  de_stack_trace j := (λ t, mkStackTraceArgs t 0 20) <$> num_arg "threadId" j;
  de_frame_id j := mkFrameIdArgs <$> num_arg "frameId" j;
  de_variables j := mkVariablesArgs <$> num_arg "variablesReference" j;
  de_disconnect j := Ok DisconnectArgs_default;
|}.

#[export] Instance ex_launch : LaunchSupport := {|
  locate_java _ _ := Some "/jdk/bin/java";
  assemble_classpath _ _ _ _ _ _ :=
    Ok (Ok (mkClasspathPlan ["/tmp/scratch"] ["/p/src/main/java"] (Some "/tmp/scratch")));
  discover_source_roots _ root := [path_join root "src/main/java"];
|}.

#[export] Instance ex_env : Env := {|
  read_to_string _ := Some "class A {}";
  is_file _ := true;
  join_paths l := Ok (str_join ":" l);
  spawn _ _ _ := Ok ();
  listen_reads _ := [Ok (true, as_bytes ("hi" +:+ newline +:+ LISTEN_PATTERN +:+ "5005" +:+ newline))];
  connect_local _ _ _ := Ok ();
  connect_attach _ _ _ _ := Ok ();
  handshake _ := Ok ();
  exit_in_time _ := true;
  f32_to_string _ := "0";
  f64_to_string _ := "0";
|}.

Definition ex_sizes : IdSizes := mkIdSizes 8 8 8 8 8.

(** A request, with the arguments as given. *)
Definition req (n : Z) (command : string) (args : list (string * Json)) : Inbound :=
  IRequest (JObj [("seq", JNum n); ("type", JStr "request"); ("command", JStr command);
                  ("arguments", JObj args)]).

(** A breakpoint hit on thread 1 in [A.main]. *)
Definition ex_stop : list Z := [2] ++ u32s [1] ++ [2] ++ u32s [5] ++ u64s [1] ++ [1] ++ u64s [100; 200; 3].

(** Launch, stop at a breakpoint, look at the stack. *)
Definition ex_messages : list Inbound :=
  [req 1 "launch" [("mainClass", JStr "A")];
   req 2 "setBreakpoints" [("source", JObj [("path", JStr "/p/src/main/java/A.java")]);
                           ("breakpoints", JArr [JObj [("line", JNum 9)]])];
   req 3 "configurationDone" [];
   IJdwpEvent ex_stop;
   req 4 "stackTrace" [("threadId", JNum 1)];
   req 5 "scopes" [("frameId", JNum 1000)]].
Definition ex_session : Session := (event_loop ex_messages Session_new).2.

Example ex_session_stopped :
  suspend_depth ex_session = 1 ∧ vm ex_session = Some ex_sizes
  ∧ length (out (writer ex_session)) = 8%nat
  ∧ bool_decide (is_Some (frames ex_session !! 1000)) = true
  ∧ bool_decide (is_Some (varrefs ex_session !! 1001)) = true.
Proof. vm_compute. done. Qed.
