(* ===== verification/DapSteps.v ===== *)
(** * The session as a transition system

    [ustep] is an abstract machine for [session.rs]: each constructor is one
    change a handler may make to the state that the properties are about
    (messages written, JDWP commands sent, suspend depth, handle and thread
    maps, breakpoints).  Every handler of [DapSession] is shown to be a
    sequence of these steps ([tau] and the lemmas [tau_*]), so an invariant of
    the steps is an invariant of the program; [DapInvariants] proves them. *)
From S2P Require Import Prelude RustStd Paths JdwpCommands JdwpCodec JdwpVm DapProtocol DapPure DapSession.

(** ** What a handler may send *)

Definition suspend_command : Z * Z := (virtual_machine.SET, virtual_machine.SUSPEND).
Definition resume_command : Z * Z := (virtual_machine.SET, virtual_machine.RESUME).

(** Every JDWP command of the session except [SUSPEND] and [RESUME]. *)
Definition plain_commands : list (Z * Z) := [
  (virtual_machine.SET, virtual_machine.ALL_CLASSES);
  (virtual_machine.SET, virtual_machine.ALL_THREADS);
  (virtual_machine.SET, virtual_machine.DISPOSE);
  (virtual_machine.SET, virtual_machine.ID_SIZES);
  (virtual_machine.SET, virtual_machine.EXIT);
  (JdwpCommands.reference_type.SET, JdwpCommands.reference_type.SIGNATURE);
  (JdwpCommands.reference_type.SET, JdwpCommands.reference_type.FIELDS);
  (JdwpCommands.reference_type.SET, JdwpCommands.reference_type.METHODS);
  (JdwpCommands.reference_type.SET, JdwpCommands.reference_type.SOURCE_FILE);
  (class_type.SET, class_type.SUPERCLASS);
  (JdwpCommands.method.SET, JdwpCommands.method.LINE_TABLE);
  (JdwpCommands.method.SET, JdwpCommands.method.VARIABLE_TABLE);
  (object_reference.SET, object_reference.REFERENCE_TYPE);
  (object_reference.SET, object_reference.GET_VALUES);
  (string_reference.SET, string_reference.VALUE);
  (thread_reference.SET, thread_reference.NAME);
  (thread_reference.SET, thread_reference.FRAMES);
  (thread_reference.SET, thread_reference.FRAME_COUNT);
  (array_reference.SET, array_reference.LENGTH);
  (array_reference.SET, array_reference.GET_VALUES);
  (event_request.SET, event_request.CMD_SET);
  (event_request.SET, event_request.CMD_CLEAR);
  (stack_frame.SET, stack_frame.GET_VALUES);
  (stack_frame.SET, stack_frame.THIS_OBJECT)].

Definition command_of (p : Packet) : Z * Z := (p_set p, p_cmd p).

(** A wire item that neither suspends nor resumes the debuggee: a plain
    command, or a [SUSPEND] or [RESUME] that failed. *)
Definition plain_item (i : WireItem) : bool :=
  match i with
  | WCmd p r =>
      bool_decide (command_of p ∈ plain_commands)
      || (bool_decide (command_of p ∈ [suspend_command; resume_command]) && negb (is_ok r))
  | WEvent _ => false
  end.

Definition is_resumed (i : WireItem) : bool :=
  match i with
  | WCmd p r => bool_decide (command_of p = resume_command) && is_ok r
  | WEvent _ => false
  end.
Definition is_suspended (i : WireItem) : bool :=
  match i with
  | WCmd p r => bool_decide (command_of p = suspend_command) && is_ok r
  | WEvent _ => false
  end.

(** ** The steps *)

(** [LEvent]: an event set that suspended the debuggee is taken up; [LStop]:
    the client is told of a stop; [LResume], [LSuspend]: the debuggee is
    resumed, suspended; [LRelease]: the resume of [configurationDone];
    [LStart]: a connection is established; [LEdit]: the breakpoints of a file
    change; [LRespond]: the response to a request; [LTau]: anything else. *)
Inductive Lbl := LTau | LEvent | LStop | LResume | LSuspend | LRelease | LStart | LEdit | LRespond.
Global Instance Lbl_eq_dec : EqDecision Lbl.
Proof. solve_decision. Defined.

(** The fields the steps talk about are unchanged. *)
Definition same_core (s s' : Session) : Prop :=
  writer s' = writer s ∧ wire s' = wire s ∧ vm s' = vm s
  ∧ suspend_depth s' = suspend_depth s ∧ terminated_sent s' = terminated_sent s
  ∧ thread_to_dap s' = thread_to_dap s ∧ dap_to_thread s' = dap_to_thread s
  ∧ next_thread_id s' = next_thread_id s ∧ next_handle s' = next_handle s
  ∧ frames s' = frames s ∧ varrefs s' = varrefs s
  ∧ files s' = files s ∧ next_bp_id s' = next_bp_id s.

(** A breakpoint as [bind_lines_in_class] may leave it. *)
Definition bp_wf (bp : LineBp) : Prop :=
  if bp_verified bp
  then ∃ n r, bp_actual_line bp = Some n ∧ bp_line bp ≤ n ∧ bp_request_ids bp = [r]
  else bp_actual_line bp = None ∧ bp_request_ids bp = [].
Definition bp_refines (a b : LineBp) : Prop :=
  bp_id b = bp_id a ∧ bp_line b = bp_line a ∧ (bp_verified a = true → b = a) ∧ (bp_wf a → bp_wf b).

Definition emit_to (f : DapWriter → DapWriter) (s : Session) : Session :=
  set_writer (f (writer s)) s.
Definition sends (items : Wire) (s : Session) : Session := set_wire (items ++ wire s) s.

Inductive ustep : Lbl → Session → Session → Prop :=
| u_event name body s : name ≠ "terminated" → name ≠ "stopped" →
    ustep LTau s (emit_to (event name body) s)
| u_stopped reason t s : frames s = ∅ → varrefs s = ∅ →
    ustep LStop s (emit_to (event "stopped" (stopped_body reason t)) s)
| u_terminated s : terminated_sent s = false →
    ustep LTau s (emit_to (event "terminated" (JObj [])) (set_terminated_sent true s))
| u_cmds items s : forallb plain_item items = true → ustep LTau s (sends items s)
| u_suspend i s : is_suspended i = true →
    ustep LSuspend s (set_suspend_depth (suspend_depth s + 1) (sends [i] s))
| u_auto_resume i s : is_resumed i = true →
    ustep LResume s (set_suspend_depth (saturating_sub (suspend_depth s) 1) (sends [i] s))
| u_continue items s :
    forallb is_resumed items = true → suspend_depth s ≤ Z.of_nat (length items) →
    ustep LResume s (set_suspend_depth 0 (sends items s))
| u_continue_failed items s :
    forallb (λ i, plain_item i || is_resumed i) items = true → ustep LResume s (sends items s)
| u_take_event s : ustep LEvent s (set_suspend_depth (suspend_depth s + 1) s)
| u_release i s : is_resumed i = true → ustep LRelease s (sends [i] s)
| u_invalidate s : ustep LTau s (set_varrefs ∅ (set_frames ∅ s))
| u_thread t s : thread_to_dap s !! t = None →
    ustep LTau s (set_dap_to_thread (<[next_thread_id s := t]> (dap_to_thread s))
                   (set_thread_to_dap (<[t := next_thread_id s]> (thread_to_dap s))
                     (set_next_thread_id (next_thread_id s + 1) s)))
| u_frame f s :
    ustep LTau s (set_frames (<[next_handle s := f]> (frames s))
                   (set_next_handle (next_handle s + 1) s))
| u_varref v s :
    ustep LTau s (set_varrefs (<[next_handle s := v]> (varrefs s))
                   (set_next_handle (next_handle s + 1) s))
| u_file path cn ids s : files s !! path = None →
    ustep LEdit s (set_files (<[path := mkFileBps cn ids []]> (files s)) s)
| u_rebuild path requested f s : files s !! path = Some f →
    ustep LEdit s (let p := add_missing requested (kept_bps requested (bps f)) (next_bp_id s) in
      set_files (<[path := mkFileBps (class_name f) (prepare_request_ids f) p.1]> (files s))
        (set_next_bp_id p.2 s))
| u_bind path f l s : files s !! path = Some f → Forall2 bp_refines (bps f) l →
    ustep LTau s (set_files (<[path := mkFileBps (class_name f) (prepare_request_ids f) l]>
                     (files s)) s)
| u_closed s : ustep LTau s (set_vm None s)
| u_respond request_seq command result s :
    ustep LRespond s (emit_to (respond request_seq command result) s)
| u_started sizes s : ustep LStart s (set_vm (Some sizes) s)
| u_misc s s' : same_core s s' → ustep LTau s s'.

(** Use that the core fields agree. *)
Ltac core_eqs :=
  repeat match goal with
  | H : same_core _ _ |- _ => destruct H as (?&?&?&?&?&?&?&?&?&?&?&?&?)
  | H : ?f ?s' = ?f ?s |- _ => is_var s'; progress rewrite H
  end.

(** ** Sequences of silent steps *)

Definition tau {A} (m : M A) : Prop := ∀ s, rtc (ustep LTau) s (m s).2.

(** A run, with its visible steps in order. *)
Inductive steps : list Lbl → Session → Session → Prop :=
| steps_nil s s' : rtc (ustep LTau) s s' → steps [] s s'
| steps_cons l ls s s1 s2 s' :
    rtc (ustep LTau) s s1 → ustep l s1 s2 → l ≠ LTau → steps ls s2 s' → steps (l :: ls) s s'.

Lemma steps_tau_l ls s s1 s' : rtc (ustep LTau) s s1 → steps ls s1 s' → steps ls s s'.
Proof.
  intros Ht Hs. inversion Hs; subst; [apply steps_nil; by etrans|].
  eapply steps_cons; [by etrans | done..].
Qed.
Lemma steps_app ls ks s s1 s' : steps ls s s1 → steps ks s1 s' → steps (ls ++ ks) s s'.
Proof.
  intros H. induction H; cbn; intros Hk; [by eapply steps_tau_l|]. econstructor; eauto.
Qed.

(** A JDWP operation that only sends plain commands. *)
Definition vm_plain {A} (op : VM A) : Prop := ∀ w,
  ∃ items, (op w).2 = items ++ w ∧ forallb plain_item items = true.

Create HintDb tau discriminated.

Section Plain.
Context `{D : Debuggee}.

Lemma vm_plain_cmd set cmd payload :
  bool_decide ((set, cmd) ∈ plain_commands) = true → vm_plain (vm_cmd set cmd payload).
Proof.
  intros H w. eexists [_]. split; [done|]. cbn [forallb]. unfold plain_item, command_of.
  cbn [p_set p_cmd]. by rewrite H.
Qed.

Lemma vm_plain_bind {A B} (op : VM A) (f : A → VM B) :
  vm_plain op → (∀ a w, (f a w).2 = w) → vm_plain (op ≫= f).
Proof.
  intros Hop Hf w. destruct (Hop w) as (items & Hw & Hi). exists items. split; [|done].
  unfold mbind, VM_bind. destruct (op w) as [[a|e] w']; cbn in *; [by rewrite Hf | done].
Qed.

Lemma vm_plain_decode {A} set cmd payload (d : Dec A) :
  bool_decide ((set, cmd) ∈ plain_commands) = true →
  vm_plain (r ← vm_cmd set cmd payload; vm_decode d r).
Proof. intros H. apply vm_plain_bind; [by apply vm_plain_cmd | done]. Qed.

Lemma vm_plain_unit set cmd payload :
  bool_decide ((set, cmd) ∈ plain_commands) = true → vm_plain (vm_cmd_unit set cmd payload).
Proof. intros H. apply vm_plain_bind; [by apply vm_plain_cmd | done]. Qed.

End Plain.

(** Every typed command but [vm_suspend] is plain. *)
#[export] Hint Extern 1 (vm_plain ?op) =>
  first
    [ apply vm_plain_decode; vm_compute; reflexivity
    | apply vm_plain_unit; vm_compute; reflexivity
    | apply vm_plain_bind; [apply vm_plain_cmd; vm_compute; reflexivity | done] ] : tau.

(** ** The combinators preserve [tau] *)

Lemma tau_ret {A} (a : A) : tau (mret a : M A).
Proof. intros s. apply rtc_refl. Qed.
Lemma tau_get {A} (f : Session → A) : tau (get f).
Proof. intros s. apply rtc_refl. Qed.
Lemma tau_lift_res {E A} (r : Result E A) : tau (lift_res r).
Proof. apply tau_ret. Qed.

Lemma bind_snd {A B} (m : M A) (f : A → M B) s : ((m ≫= f) s).2 = (f (m s).1 (m s).2).2.
Proof. unfold mbind, M_bind. by destruct (m s). Qed.
Lemma bind_eq {A B} (m : M A) (f : A → M B) s : (m ≫= f) s = f (m s).1 (m s).2.
Proof. unfold mbind, M_bind. by destruct (m s). Qed.

Lemma mtry_eq {E A B} (m : M (Result E A)) (f : A → M (Result E B)) s :
  mtry m f s = match (m s).1 with Ok a => f a (m s).2 | Err e => (Err e, (m s).2) end.
Proof. unfold mtry. rewrite bind_eq. by destruct (m s).1. Qed.

Lemma tau_bind {A B} (m : M A) (f : A → M B) : tau m → (∀ a, tau (f a)) → tau (m ≫= f).
Proof. intros Hm Hf s. rewrite bind_snd. etrans; [apply Hm | apply Hf]. Qed.

Lemma tau_mtry {E A B} (m : M (Result E A)) (f : A → M (Result E B)) :
  tau m → (∀ a, tau (f a)) → tau (mtry m f).
Proof.
  intros Hm Hf. apply tau_bind; [done|]. intros [a|e]; [apply Hf | apply tau_ret].
Qed.

Lemma tau_mfor {A} (l : list A) (body : A → M unit) : (∀ a, tau (body a)) → tau (mfor l body).
Proof.
  intros H. induction l as [|x l IH]; [apply tau_ret|]. apply tau_bind; [apply H | done].
Qed.
Lemma tau_mmap {A B} (l : list A) (body : A → M B) : (∀ a, tau (body a)) → tau (mmap l body).
Proof.
  intros H. induction l as [|x l IH]; [apply tau_ret|].
  apply tau_bind; [apply H|]. intros y. apply tau_bind; [done|]. intros; apply tau_ret.
Qed.

Lemma tau_step {A} (m : M A) : (∀ s, ustep LTau s (m s).2) → tau m.
Proof. intros H s. by apply rtc_once. Qed.

Lemma tau_call {A} (op : VM A) : vm_plain op → tau (call op).
Proof.
  intros H. apply tau_step. intros s. destruct (H (wire s)) as (items & Hw & Hi).
  unfold call. destruct (op (wire s)) as [r w] eqn:E. cbn in *. subst w. by apply u_cmds.
Qed.
Lemma tau_call_msg {A} what (op : VM A) : vm_plain op → tau (call_msg what op).
Proof. intros H. apply tau_bind; [by apply tau_call|]. intros; apply tau_ret. Qed.

Lemma tau_event name body :
  name ≠ "terminated" → name ≠ "stopped" → tau (emit (event name body)).
Proof. intros H H'. apply tau_step. intros s. by apply (u_event name body). Qed.

Lemma tau_misc f : (∀ s, same_core s (f s)) → tau (modify f).
Proof. intros H. apply tau_step. intros s. apply u_misc, H. Qed.
Lemma tau_effect e : tau (effect e).
Proof. by apply tau_misc. Qed.

(** Dispatch on the head of a handler. *)
Ltac tau_go :=
  repeat first
    [ assumption
    | progress intros
    | apply tau_ret
    | apply tau_get
    | apply tau_lift_res
    | apply tau_effect
    | solve [auto with tau nocore]
    | apply tau_call; solve [auto with tau nocore]
    | apply tau_call_msg; solve [auto with tau nocore]
    | apply tau_event; discriminate
    | lazymatch goal with
      | |- tau (mtry _ _) => apply tau_mtry
      | |- tau (mfor _ _) => apply tau_mfor
      | |- tau (mmap _ _) => apply tau_mmap
      | |- tau (_ ≫= _) => apply tau_bind
      end
    | apply tau_misc; intros; solve [repeat split | case_match; repeat split]
    | match goal with
      | |- tau (match ?x with _ => _ end) => destruct x
      | |- tau (let '_ := ?x in _) => destruct x
      end ].

Lemma tau_invalidate : tau invalidate_handles.
Proof. apply tau_step. intros s. apply u_invalidate. Qed.
Lemma tau_terminated : tau send_terminated.
Proof.
  intros s. unfold send_terminated. rewrite bind_snd. cbn. destruct (terminated_sent s) eqn:E.
  - apply rtc_refl.
  - by apply rtc_once, u_terminated.
Qed.
Lemma tau_dap_thread_id t : tau (dap_thread_id t).
Proof.
  intros s. unfold dap_thread_id. destruct (thread_to_dap s !! t) eqn:E; [apply rtc_refl|].
  by apply rtc_once, u_thread.
Qed.
#[export] Hint Resolve tau_invalidate tau_terminated tau_dap_thread_id : tau.

Lemma tau_jdwp_thread t : tau (jdwp_thread t).
Proof. intros s. apply rtc_refl. Qed.
Lemma tau_the_vm : tau the_vm.
Proof. intros s. apply rtc_refl. Qed.
#[export] Hint Resolve tau_jdwp_thread tau_the_vm : tau.

(** A fresh handle is put in a map at once. *)
Lemma tau_new_frame {A} f (k : Z → M A) :
  (∀ h, tau (k h)) → tau (h ← new_handle; _ ← insert_frame h f; k h).
Proof. intros Hk s. eapply rtc_l; [apply (u_frame f)|]. apply Hk. Qed.
Lemma tau_new_varref {A} v (k : Z → M A) :
  (∀ h, tau (k h)) → tau (h ← new_handle; _ ← insert_varref h v; k h).
Proof. intros Hk s. eapply rtc_l; [apply (u_varref v)|]. apply Hk. Qed.

(** Runs whose visible steps all carry one label. *)
Definition emits_all {A} (l : Lbl) (m : M A) : Prop := ∀ s,
  ∃ ls, steps ls s (m s).2 ∧ Forall (λ k, k = l) ls.

Lemma emits_tau {A} l (m : M A) : tau m → emits_all l m.
Proof. intros H s. exists []. by split; [apply steps_nil|]. Qed.
Lemma emits_bind {A B} l (m : M A) (f : A → M B) :
  emits_all l m → (∀ a, emits_all l (f a)) → emits_all l (m ≫= f).
Proof.
  intros Hm Hf s. rewrite bind_snd. destruct (Hm s) as (l1 & H1 & Hl1).
  destruct (Hf (m s).1 (m s).2) as (l2 & H2 & Hl2). exists (l1 ++ l2).
  split; [by eapply steps_app | by apply Forall_app].
Qed.
Lemma emits_mtry {E A B} l (m : M (Result E A)) (f : A → M (Result E B)) :
  emits_all l m → (∀ a, emits_all l (f a)) → emits_all l (mtry m f).
Proof.
  intros Hm Hf. apply emits_bind; [done|]. intros [a|e]; [apply Hf | apply emits_tau, tau_ret].
Qed.

(** Runs whose visible steps are given. *)
Definition emits {A} (ls : list Lbl) (m : M A) : Prop := ∀ s, steps ls s (m s).2.

Lemma tau_emits {A} (m : M A) : tau m → emits [] m.
Proof. intros H s. apply steps_nil, H. Qed.
Lemma emits_then_tau {A B} ls (m : M A) (f : A → M B) :
  emits ls m → (∀ a, tau (f a)) → emits ls (m ≫= f).
Proof.
  intros Hm Hf s. rewrite bind_snd, <- (app_nil_r ls).
  eapply steps_app; [apply Hm | apply steps_nil, Hf].
Qed.
Lemma tau_then_emits {A B} ls (m : M A) (f : A → M B) :
  tau m → (∀ a, emits ls (f a)) → emits ls (m ≫= f).
Proof. intros Hm Hf s. rewrite bind_snd. eapply steps_tau_l; [apply Hm | apply Hf]. Qed.
Lemma emits_app {A B} ls ks (m : M A) (f : A → M B) :
  emits ls m → (∀ a, emits ks (f a)) → emits (ls ++ ks) (m ≫= f).
Proof. intros Hm Hf s. rewrite bind_snd. eapply steps_app; [apply Hm | apply Hf]. Qed.

Section Handlers.
Context `{D : Debuggee} `{SD : Serde} `{LS : LaunchSupport} `{EN : Env}.

Lemma tau_update_class c f : tau (update_class c f).
Proof. unfold update_class. tau_go. Qed.
Hint Resolve tau_update_class : tau.
Lemma tau_class_signature c : tau (class_signature c).
Proof. unfold class_signature. tau_go. Qed.
Lemma tau_class_source_file c : tau (class_source_file c).
Proof. unfold class_source_file. tau_go. Qed.
Lemma tau_class_methods c : tau (class_methods c).
Proof. unfold class_methods. tau_go. Qed.
Lemma tau_method_line_table c m : tau (method_line_table c m).
Proof. unfold method_line_table. tau_go. Qed.
Hint Resolve tau_class_signature tau_class_source_file tau_class_methods
  tau_method_line_table : tau.
Lemma tau_resolve_source sig c : tau (resolve_source sig c).
Proof. unfold resolve_source. tau_go. Qed.
Hint Resolve tau_resolve_source : tau.
Lemma tau_collect_tables c ms : tau (collect_tables c ms).
Proof. induction ms; cbn [collect_tables]; tau_go. Qed.
Hint Resolve tau_collect_tables : tau.

(** *** Breakpoints *)

(** Binding touches nothing but the wire, and refines each breakpoint. *)
Definition wire_only (s s' : Session) : Prop :=
  ∃ items, s' = sends items s ∧ forallb plain_item items = true.

Lemma sends_sends i1 i2 s : sends i1 (sends i2 s) = sends (i1 ++ i2) s.
Proof. unfold sends. cbn. by rewrite app_assoc. Qed.
Lemma sends_nil s : sends [] s = s.
Proof. by destruct s. Qed.
Lemma wire_only_refl s : wire_only s s.
Proof. exists []. by rewrite sends_nil. Qed.
Lemma wire_only_trans s1 s2 s3 : wire_only s1 s2 → wire_only s2 s3 → wire_only s1 s3.
Proof.
  intros (i1 & -> & H1) (i2 & -> & H2). exists (i2 ++ i1). rewrite sends_sends. split; [done|].
  by rewrite forallb_app, H1, H2.
Qed.
Lemma wire_only_call {A} (op : VM A) s : vm_plain op → wire_only s (call op s).2.
Proof.
  intros H. destruct (H (wire s)) as (items & Hw & Hi).
  unfold call. destruct (op (wire s)) as [r w]. cbn in *. subst w. by exists items.
Qed.

Lemma bp_refines_refl bp : bp_refines bp bp.
Proof. by repeat split. Qed.

Lemma bind_bp_refines sizes c tables bp s : bp_verified bp = false →
  wire_only s (bind_bp sizes c tables bp s).2 ∧ bp_refines bp (bind_bp sizes c tables bp s).1.1.
Proof.
  intros Hv. unfold bind_bp.
  destruct (choose_location tables (bp_line bp)) as [[[m i] line]|] eqn:Hc.
  - rewrite bind_eq. pose proof (wire_only_call
      (vm_event_request_set sizes event_kind.BREAKPOINT suspend_policy.ALL
         [MLocationOnly (mkLocation 1 c m i)]) s ltac:(auto with tau nocore)) as Hw.
    destruct (call _ s) as [[rid|e] s']; cbn in Hw |- *; (split; [done|]); [|apply bp_refines_refl].
    repeat split; cbn; [congruence|]. unfold bp_wf. rewrite Hv. cbn. intros [_ ->].
    exists line, rid. split_and!; [done | | done]. eauto using choose_location_ge.
  - cbn. split; [apply wire_only_refl|]. repeat split; cbn; [congruence|].
    unfold bp_wf. by rewrite Hv.
Qed.

Lemma bind_bps_refines sizes c tables l : ∀ s,
  wire_only s (bind_bps sizes c tables l s).2
  ∧ Forall2 bp_refines l (bind_bps sizes c tables l s).1.1.
Proof.
  induction l as [|bp l IH]; intros s; cbn [bind_bps].
  { split; [apply wire_only_refl | constructor]. }
  rewrite bind_eq.
  assert (∃ b s1 bp', (if bp_verified bp then mret (bp, false)
            else bind_bp sizes c tables bp) s = (bp', b, s1)
          ∧ wire_only s s1 ∧ bp_refines bp bp') as (b & s1 & bp' & -> & Hw & Hr).
  { destruct (bp_verified bp) eqn:Hv.
    - eexists _, _, _. split; [done|]. split; [apply wire_only_refl | apply bp_refines_refl].
    - destruct (bind_bp_refines sizes c tables bp s Hv) as [??].
      destruct (bind_bp sizes c tables bp s) as [[??]?]. eauto 6. }
  cbn [fst snd]. destruct (IH s1) as [Hw1 Hr1]. rewrite bind_eq.
  destruct (bind_bps sizes c tables l s1) as [[l' ch] s2]. cbn in *.
  split; [eauto using wire_only_trans | by constructor].
Qed.

Lemma tau_bind_file sizes path c tables :
  tau (fs ← get files;
       match fs !! path with
       | None => mret []
       | Some file =>
           '(bps', changed) ← bind_bps sizes c tables (bps file);
           _ ← set_file_bps path bps';
           mret changed
       end).
Proof.
  intros s. rewrite bind_snd. cbn [get fst snd].
  destruct (files s !! path) as [f|] eqn:Hf; [|apply rtc_refl].
  rewrite bind_snd. destruct (bind_bps_refines sizes c tables (bps f) s) as [(items & Hs & Hi) Hr].
  destruct (bind_bps _ _ _ _ s) as [[l ch] s']. cbn [fst snd] in *. subst s'.
  eapply rtc_l; [by apply (u_cmds items)|]. apply rtc_once.
  pose proof (u_bind path f l (sends items s) Hf Hr) as Hu.
  unfold set_file_bps. rewrite bind_snd. cbn -[lookup insert]. rewrite Hf. exact Hu.
Qed.
Hint Resolve tau_bind_file : tau.
Lemma tau_bind_lines path c : tau (bind_lines_in_class path c).
Proof. unfold bind_lines_in_class. tau_go. Qed.
Hint Resolve tau_bind_lines : tau.

Lemma emits_register_file sizes path : emits_all LEdit (register_file sizes path).
Proof.
  intros s. unfold register_file. rewrite bind_snd. cbn [get fst snd].
  destruct (files s !! path) eqn:Hf; [exists []; by split; [apply steps_nil, rtc_refl|]|].
  rewrite mtry_eq. cbn [lift_res mret M_ret fst snd].
  destruct (ok_or _ _) as [cn|e]; [|exists []; by split; [apply steps_nil, rtc_refl|]].
  assert (∀ s pat, wire_only s (request_prepare sizes pat s).2) as Hp.
  { intros s1 pat. unfold request_prepare. rewrite bind_snd. cbn.
    apply wire_only_call. auto with tau nocore. }
  rewrite bind_snd. destruct (Hp s cn) as (i1 & H1 & Hi1).
  destruct (request_prepare sizes cn s) as [ids1 s1]. cbn [fst snd] in *. subst s1.
  rewrite bind_snd. destruct (Hp (sends i1 s) (cn +:+ "$*")) as (i2 & H2 & Hi2).
  destruct (request_prepare sizes _ _) as [ids2 s2]. cbn [fst snd] in *. subst s2.
  exists [LEdit]. split; [|by repeat constructor].
  eapply steps_cons; [| |done|apply steps_nil, rtc_refl].
  - eapply rtc_l; [by apply (u_cmds i1)|]. by apply rtc_once, (u_cmds i2).
  - rewrite bind_snd. by apply (u_file path cn (ids1 ++ ids2)).
Qed.
Lemma emits_rebuild path requested : emits_all LEdit (rebuild_bps path requested).
Proof.
  intros s. unfold rebuild_bps. destruct (files s !! path) as [f|] eqn:Hf;
    [|exists []; by split; [apply steps_nil, rtc_refl|]].
  exists [LEdit]. split; [|by repeat constructor].
  pose proof (u_rebuild path requested f s Hf) as H. cbn zeta in H.
  destruct (add_missing _ _ _). eapply steps_cons; [apply rtc_refl|exact H|done|].
  apply steps_nil, rtc_refl.
Qed.
Lemma emits_set_breakpoints args : emits_all LEdit (set_breakpoints args).
Proof.
  unfold set_breakpoints. do 2 (apply emits_mtry; [apply emits_tau; tau_go|]; intros ?).
  apply emits_mtry; [apply emits_tau; tau_go|]; intros sizes.
  apply emits_mtry; [apply emits_register_file|]; intros _.
  apply emits_bind; [apply emits_rebuild|]; intros [cleared cn]. apply emits_tau. tau_go.
Qed.
Lemma tau_set_exception_breakpoints args : tau (set_exception_breakpoints args).
Proof. unfold set_exception_breakpoints. tau_go. Qed.
Hint Resolve tau_set_exception_breakpoints : tau.

(** *** Events *)

Definition is_stop (ev : Event) : bool :=
  match ev with Breakpoint _ _ _ | SingleStep _ _ _ | Exception _ _ _ _ _ => true | _ => false end.

Lemma thread_id_handles t s :
  frames (dap_thread_id t s).2 = frames s ∧ varrefs (dap_thread_id t s).2 = varrefs s.
Proof. unfold dap_thread_id. by destruct (thread_to_dap s !! t). Qed.

(** A stop is announced when no handle is left. *)
Lemma emits_on_stop t r : emits [LStop] (on_stop t r).
Proof.
  unfold on_stop. intros s. rewrite bind_snd. cbn [invalidate_handles modify fst snd].
  eapply steps_tau_l; [apply rtc_once, u_invalidate|].
  rewrite bind_snd. destruct (thread_id_handles t (set_varrefs ∅ (set_frames ∅ s))) as [Hf Hv].
  eapply steps_cons; [|apply u_stopped; [by rewrite Hf | by rewrite Hv]|done|apply steps_nil, rtc_refl].
  assert (tau (dap_thread_id t)) as Ht by tau_go. apply Ht.
Qed.
Lemma tau_arm_entry t : tau (arm_entry_breakpoint t).
Proof. unfold arm_entry_breakpoint, output. tau_go. Qed.
Hint Resolve tau_arm_entry : tau.
Lemma emits_handle_event ev a : emits (if is_stop ev then [LStop] else []) (handle_event ev a).
Proof.
  destruct ev; cbn [is_stop handle_event]; unfold breakpoint_changed;
    try solve [apply tau_emits; tau_go].
  - apply tau_then_emits; [tau_go|]. intros st. apply tau_then_emits; [tau_go|]. intros _.
    apply emits_then_tau; [apply emits_on_stop | tau_go].
  - apply tau_then_emits; [tau_go|]. intros e. destruct (match e with Some _ => _ | None => _ end).
    + apply tau_then_emits; [tau_go|]. intros _.
      apply emits_then_tau; [apply emits_on_stop | tau_go].
    + apply emits_then_tau; [apply emits_on_stop | tau_go].
  - apply tau_then_emits; [tau_go|]. intros _.
    apply emits_then_tau; [apply emits_on_stop | tau_go].
Qed.
Definition stop_labels (evs : list Event) : list Lbl :=
  flat_map (λ ev, if is_stop ev then [LStop] else []) evs.
Lemma emits_handle_events evs : ∀ a, emits (stop_labels evs) (handle_events evs a).
Proof.
  induction evs as [|ev evs IH]; intros a; cbn [handle_events stop_labels flat_map].
  - apply tau_emits, tau_ret.
  - apply emits_app; [apply emits_handle_event | apply IH].
Qed.

(** The events that leave [auto_resume] alone. *)
Definition is_quiet (ev : Event) : bool :=
  match ev with VmStart _ _ | ClassPrepare _ _ _ _ _ _ => true | _ => false end.
Lemma handle_event_auto ev a s : (handle_event ev a s).1 = a && is_quiet ev.
Proof.
  destruct ev; cbn [handle_event is_quiet]; rewrite ?andb_true_r, ?andb_false_r;
    repeat first [rewrite bind_eq; cbn [fst snd] | case_match]; done.
Qed.
Lemma handle_events_auto evs : ∀ a s, (handle_events evs a s).1 = a && forallb is_quiet evs.
Proof.
  induction evs as [|ev evs IH]; intros a s; cbn [handle_events forallb].
  - by rewrite andb_true_r.
  - by rewrite bind_eq, IH, handle_event_auto, andb_assoc.
Qed.

(** *** Execution control *)

(** The outcome of sending a unit command. *)
Lemma call_unit set cmd payload s :
  ∃ r, call (vm_cmd_unit set cmd payload) s
       = (match r with Ok _ => Ok () | Err e => Err e end,
          sends [WCmd (mkPacket set cmd payload) r] s).
Proof.
  exists (reply (wire s) (mkPacket set cmd payload)). unfold call, vm_cmd_unit, vm_cmd.
  unfold mbind, VM_bind. by destruct (reply _ _).
Qed.

(** [n] resumes: all went through, or an error after some of them. *)
Lemma resume_times_spec n : ∀ s, ∃ items,
  (resume_times n s).2 = sends items s ∧
  match (resume_times n s).1 with
  | Ok _ => length items = n ∧ forallb is_resumed items = true
  | Err _ => forallb (λ i, plain_item i || is_resumed i) items = true
  end.
Proof.
  induction n as [|n IH]; intros s; cbn [resume_times].
  { exists []. by rewrite sends_nil. }
  unfold mtry, call_msg. rewrite !bind_eq.
  destruct (call_unit virtual_machine.SET virtual_machine.RESUME [] s) as [r Hr].
  fold vm_resume in Hr. rewrite Hr.
  destruct r as [pl|e]; cbn [fst snd mret M_ret map_err].
  - destruct (IH (sends [WCmd (mkPacket 1 9 []) (Ok pl)] s)) as (items & Hs & Hm).
    exists (items ++ [WCmd (mkPacket 1 9 []) (Ok pl)]). rewrite <- sends_sends. split; [done|].
    unfold virtual_machine.SET, virtual_machine.RESUME.
    destruct (resume_times n _).1; [|by rewrite forallb_app, Hm].
    destruct Hm as [Hl Hf]. by rewrite length_app, forallb_app, Hf, Hl, Nat.add_comm.
  - by eexists [_].
Qed.

(** At most one visible step. *)
Definition maybe {A} (l : Lbl) (m : M A) : Prop := ∀ s,
  ∃ ls, steps ls s (m s).2 ∧ (ls = [] ∨ ls = [l]).

Lemma maybe_tau {A} l (m : M A) : tau m → maybe l m.
Proof. intros H s. exists []. split; [by apply steps_nil | auto]. Qed.
Lemma maybe_bind_l {A B} l (m : M A) (f : A → M B) :
  tau m → (∀ a, maybe l (f a)) → maybe l (m ≫= f).
Proof.
  intros Hm Hf s. rewrite bind_snd. destruct (Hf (m s).1 (m s).2) as (ls & Hs & Hl).
  exists ls. split; [|done]. eapply steps_tau_l; [apply Hm | done].
Qed.
Lemma maybe_bind_r {A B} l (m : M A) (f : A → M B) :
  maybe l m → (∀ a, tau (f a)) → maybe l (m ≫= f).
Proof.
  intros Hm Hf s. rewrite bind_snd. destruct (Hm s) as (ls & Hs & Hl).
  exists ls. split; [|done]. rewrite <- (app_nil_r ls). eapply steps_app; [done|].
  apply steps_nil, Hf.
Qed.
Lemma maybe_mtry_l {E A B} l (m : M (Result E A)) (f : A → M (Result E B)) :
  tau m → (∀ a, maybe l (f a)) → maybe l (mtry m f).
Proof.
  intros Hm Hf. apply maybe_bind_l; [done|]. intros [a|e]; [apply Hf | apply maybe_tau, tau_ret].
Qed.

Lemma maybe_resumes :
  maybe LResume (depth ← get suspend_depth;
       _ ←? resume_times (Z.to_nat (Z.max depth 1));
       _ ← modify (set_suspend_depth 0);
       mret (Ok (JObj [("allThreadsContinued", JBool true)]))).
Proof.
  intros s. exists [LResume]. split; [|auto]. rewrite bind_snd. cbn [get fst snd]. rewrite mtry_eq.
  destruct (resume_times_spec (Z.to_nat (Z.max (suspend_depth s) 1)) s) as (items & Hs & Hm).
  destruct (resume_times _ s) as [[[]|e] s']; cbn [fst snd] in *; subst s';
    (eapply steps_cons; [apply rtc_refl| |done|apply steps_nil, rtc_refl]).
  - destruct Hm as [Hl Hr]. apply (u_continue items s Hr). lia.
  - by apply (u_continue_failed items).
Qed.
Lemma maybe_continue_all : maybe LResume continue_all.
Proof.
  unfold continue_all. apply maybe_mtry_l; [tau_go|]. intros _.
  do 2 (apply maybe_bind_l; [tau_go|]; intros _). apply maybe_resumes.
Qed.

Lemma maybe_do_step args depth : maybe LResume (do_step args depth).
Proof.
  unfold do_step. do 4 (apply maybe_mtry_l; [tau_go|]; intros ?).
  apply maybe_bind_l; [tau_go|]. intros _. apply maybe_bind_r; [apply maybe_continue_all|]. tau_go.
Qed.

Lemma steps_pause args s :
  ∃ ls, steps ls s (pause args s).2 ∧ (ls = [] ∨ ls = [LSuspend; LStop]).
Proof.
  unfold pause. rewrite mtry_eq. cbn [lift_res mret M_ret fst snd].
  destruct (map_err _ _) as [a|e]; [|exists []; split; [apply steps_nil, rtc_refl | auto]].
  rewrite mtry_eq. unfold the_vm. cbn [fst snd].
  destruct (vm s); cbn [ok_or]; [|exists []; split; [apply steps_nil, rtc_refl | auto]].
  rewrite mtry_eq. unfold call_msg. rewrite !bind_eq.
  destruct (call_unit virtual_machine.SET virtual_machine.SUSPEND [] s) as [[pl|e] Hr];
    fold vm_suspend in Hr; rewrite Hr; cbn [fst snd mret M_ret map_err].
  - exists [LSuspend; LStop]. split; [|auto].
    eapply steps_cons; [apply rtc_refl|by apply (u_suspend (WCmd (mkPacket 1 8 []) (Ok pl)) s)|done|].
    eapply steps_cons;
      [apply rtc_once, u_invalidate | by apply u_stopped | done | apply steps_nil, rtc_refl].
  - exists []. split; [|auto]. apply steps_nil, rtc_once.
    by apply (u_cmds [WCmd (mkPacket 1 8 []) (Err e)] s).
Qed.

(** *** Inspection *)

Lemma tau_threads : tau threads.
Proof. unfold threads. tau_go. Qed.

Lemma tau_frame_json t fr : tau (frame_json t fr).
Proof.
  unfold frame_json. do 4 (apply tau_bind; [tau_go|]; intros ?).
  apply tau_new_frame. tau_go.
Qed.
Hint Resolve tau_threads tau_frame_json : tau.
Lemma tau_stack_trace args : tau (stack_trace args).
Proof. unfold stack_trace. tau_go. Qed.
Lemma tau_scopes args : tau (scopes args).
Proof.
  unfold scopes. apply tau_mtry; [tau_go|]; intros a. apply tau_bind; [tau_go|]; intros fs.
  apply tau_mtry; [tau_go|]; intros f. apply tau_new_varref. tau_go.
Qed.
Lemma tau_object_class sizes id d : tau (object_class sizes id d).
Proof. unfold object_class. tau_go. Qed.
Hint Resolve tau_stack_trace tau_scopes tau_object_class : tau.

Lemma tau_render_value v : tau (render_value v).
Proof.
  unfold render_value. destruct v; try solve [tau_go].
  case_if; [tau_go|]. apply tau_bind; [tau_go|]. intros v.
  case_if; [tau_go|]. case_if.
  - destruct v; [|tau_go]. do 2 (apply tau_bind; [tau_go|]; intros ?).
    apply tau_new_varref. tau_go.
  - apply tau_bind; [tau_go|]. intros cls. apply tau_new_varref. tau_go.
Qed.
Hint Resolve tau_render_value : tau.
Lemma tau_render_named l : tau (render_named l).
Proof. unfold render_named. tau_go. Qed.
Hint Resolve tau_render_named : tau.
Lemma tau_local_variables t f l : tau (local_variables t f l).
Proof. unfold local_variables, output. tau_go. Qed.
Lemma tau_collect_fields n sizes : ∀ t, tau (collect_fields n sizes t).
Proof. induction n; intros t; cbn [collect_fields]; tau_go. Qed.
Hint Resolve tau_local_variables tau_collect_fields : tau.
Lemma tau_object_children o : tau (object_children o).
Proof. unfold object_children. tau_go. Qed.
Lemma tau_array_children o : tau (array_children o).
Proof. unfold array_children. tau_go. Qed.
Hint Resolve tau_object_children tau_array_children : tau.
Lemma tau_variables args : tau (variables args).
Proof. unfold variables. tau_go. Qed.
Lemma tau_detail_message n sizes e : ∀ w, tau (detail_message n sizes e w).
Proof. induction n; intros w; cbn [detail_message]; tau_go. Qed.
Hint Resolve tau_variables tau_detail_message : tau.
Lemma tau_exception_info args : tau (exception_info args).
Proof. unfold exception_info. tau_go. Qed.

(** *** Termination *)

Lemma tau_take_kill : tau take_kill.
Proof. unfold take_kill. tau_go. Qed.
Hint Resolve tau_exception_info tau_take_kill : tau.
Lemma tau_terminate : tau terminate.
Proof. unfold terminate. tau_go. Qed.
Lemma tau_vm_none : tau (modify (set_vm None)).
Proof. apply tau_step. intros s. apply u_closed. Qed.
Hint Resolve tau_terminate tau_vm_none : tau.
Lemma tau_disconnect args : tau (disconnect args).
Proof. unfold disconnect. tau_go. Qed.
Lemma tau_cleanup : tau cleanup.
Proof. unfold cleanup. tau_go. Qed.
Hint Resolve tau_disconnect tau_cleanup : tau.

(** *** Whole handlers, with their visible steps *)

(** An event set counts when it suspended the debuggee and is not the
    initial one; it is resumed at once when nothing in it is a stop. *)
Definition counted (set : EventSet) : bool :=
  (suspend_policy_of set =? suspend_policy.ALL) && negb (existsb is_vm_start (events set)).
Definition set_labels (set : EventSet) (resumed : bool) : list Lbl :=
  (if counted set then [LEvent] else []) ++ stop_labels (events set)
  ++ (if counted set && forallb is_quiet (events set) && resumed then [LResume] else []).

Lemma steps_event_set set s : ∃ resumed,
  steps (set_labels set resumed) s (handle_event_set set s).2.
Proof.
  unfold handle_event_set, set_labels. rewrite bind_snd. fold (counted set).
  set (s1 := ((if counted set
    then modify (λ s, set_suspend_depth (suspend_depth s + 1) s) else mret ()) s).2).
  assert (steps (if counted set then [LEvent] else []) s s1) as H1.
  { unfold s1. destruct (counted set); [|apply steps_nil, rtc_refl].
    eapply steps_cons; [apply rtc_refl|apply u_take_event|done|apply steps_nil, rtc_refl]. }
  clearbody s1. rewrite bind_snd, handle_events_auto.
  pose proof (emits_handle_events (events set) (counted set) s1) as H2.
  destruct (handle_events _ _ s1) as [b s2]. cbn [fst snd] in *.
  assert (∀ k s3, steps k s2 s3 →
    steps ((if counted set then [LEvent] else []) ++ stop_labels (events set) ++ k) s s3) as H3.
  { intros k s3 Hk. eapply steps_app; [exact H1|]. by eapply steps_app. }
  destruct (counted set && forallb is_quiet (events set)); [|exists false; apply H3, steps_nil, rtc_refl].
  rewrite bind_snd. cbn [get fst snd]. destruct (vm s2); [|exists false; apply H3, steps_nil, rtc_refl].
  rewrite bind_snd.
  destruct (call_unit virtual_machine.SET virtual_machine.RESUME [] s2) as [[pl|e] Hr];
    fold vm_resume in Hr; rewrite Hr; cbn [fst snd].
  - exists true. apply H3. eapply steps_cons; [apply rtc_refl| |done|apply steps_nil, rtc_refl].
    by apply (u_auto_resume (WCmd _ (Ok pl)) s2).
  - exists false. apply H3, steps_nil, rtc_once. by apply (u_cmds [WCmd _ (Err e)] s2).
Qed.

(** Whether [configurationDone] released the initial suspension. *)
Definition releases (s : Session) : bool :=
  (launch_mode s || vm_start_pending s) && is_ok (configuration_done s).1.

(** The [stopOnEntry] half of [configurationDone] leaves the pending flag. *)
Lemma entry_half_pending s :
  let m := (if launch_mode s && stop_on_entry s then
          sizes ←? the_vm;
          mc ← get main_class;
          match mc with
          | None => mret (Ok ())
          | Some cls =>
              r ← call (vm_event_request_set sizes event_kind.CLASS_PREPARE suspend_policy.ALL
                          [MClassMatch cls]);
              match r with
              | Ok id => _ ← modify (set_entry (Some (mkEntryState id None))); mret (Ok ())
              | Err e =>
                  _ ← emit (output "console"
                              ("stopOnEntry unavailable: " +:+ JdwpError_display e +:+ newline));
                  mret (Ok ())
              end
          end
        else mret (Ok ())) : M (Result string unit) in
  tau m ∧ vm_start_pending (m s).2 = vm_start_pending s.
Proof.
  cbn zeta. split; [unfold output; tau_go|]. destruct (_ && _); [|done].
  unfold mtry. rewrite bind_snd. unfold the_vm. cbn [fst snd].
  destruct (vm s); [|done]. cbn [ok_or]. rewrite bind_snd. cbn [get fst snd].
  destruct (main_class s); [|done]. rewrite bind_snd. unfold call.
  destruct (vm_event_request_set _ _ _ _ _) as [[?|?] ?]; done.
Qed.

(** Only the last command of [configurationDone] is visible. *)
Lemma steps_configuration_done s :
  steps (if releases s then [LRelease] else []) s (configuration_done s).2.
Proof.
  unfold releases, configuration_done.
  repeat (rewrite !bind_eq; cbn [get fst snd]). rewrite !mtry_eq.
  set (m := if launch_mode s && stop_on_entry s then _ else _).
  destruct (entry_half_pending s) as [Hm Hp]. fold m in Hm, Hp. specialize (Hm s).
  destruct (m s) as [[[]|e] s1]; cbn [fst snd] in *;
    [|rewrite andb_false_r; by apply steps_nil].
  rewrite !bind_eq. cbn [get fst snd]. rewrite Hp.
  destruct (launch_mode s || vm_start_pending s); [|by apply steps_nil].
  rewrite !bind_eq. cbn [modify fst snd]. set (s2 := set_vm_start_pending false s1).
  assert (rtc (ustep LTau) s s2) as Hs2.
  { etrans; [exact Hm|]. apply rtc_once, u_misc. by repeat split. }
  rewrite !mtry_eq. unfold the_vm. cbn [fst snd].
  destruct (vm s2); [|by apply steps_nil].
  cbn [ok_or]. unfold call_msg. rewrite !bind_eq.
  destruct (call_unit virtual_machine.SET virtual_machine.RESUME [] s2) as [[pl|e] Hr];
    fold vm_resume in Hr; rewrite Hr; cbn [fst snd mret M_ret map_err is_ok andb].
  - eapply steps_cons; [exact Hs2 | | done | apply steps_nil, rtc_refl].
    by apply (u_release (WCmd _ (Ok pl)) s2).
  - apply steps_nil. eapply rtc_r; [exact Hs2|]. by apply (u_cmds [WCmd _ (Err e)] s2).
Qed.

Lemma tau_steps {A} (m : M A) s : tau m → steps [] s (m s).2.
Proof. intros H. apply steps_nil, H. Qed.

Lemma maybe_start_vm b : maybe LStart (start_vm b).
Proof.
  unfold start_vm. apply maybe_bind_l; [tau_go|]. intros h.
  do 2 (apply maybe_mtry_l; [tau_go|]; intros ?). apply maybe_bind_r; [|tau_go].
  intros s. exists [LStart]. split; [|auto].
  eapply steps_cons; [apply rtc_refl | apply (u_started a0) | done |].
  apply steps_nil, rtc_once, u_misc. by repeat split.
Qed.

Lemma tau_connect_retry n : ∀ k port, tau (connect_retry n k port).
Proof. induction n; intros k port; cbn [connect_retry]; tau_go. Qed.
Hint Resolve tau_connect_retry : tau.

Lemma maybe_launch_child b main : maybe LStart (launch_child b main).
Proof.
  unfold launch_child. apply maybe_bind_l; [tau_go|]. intros reads.
  apply maybe_mtry_l; [tau_go|]. intros [port early].
  apply maybe_bind_l; [unfold output; tau_go|]. intros _.
  apply maybe_bind_l; [tau_go|]. intros [[]|e]; [|apply maybe_tau; tau_go].
  apply maybe_bind_r; [apply maybe_start_vm|]. tau_go.
Qed.

Lemma maybe_launch args : maybe LStart (launch args).
Proof.
  unfold launch. do 2 (apply maybe_mtry_l; [tau_go|]; intros ?).
  apply maybe_bind_l; [tau_go|]; intros j. apply maybe_mtry_l; [tau_go|]; intros java.
  apply maybe_bind_l; [tau_go|]; intros pl. apply maybe_mtry_l; [tau_go|]; intros [plan|err];
    [|apply maybe_tau; unfold output; tau_go].
  apply maybe_bind_l; [tau_go|]; intros _. apply maybe_mtry_l; [tau_go|]; intros joined.
  cbn zeta. apply maybe_bind_l; [tau_go|]; intros sp. apply maybe_mtry_l; [tau_go|]; intros _.
  apply maybe_bind_l; [tau_go|]; intros _. apply maybe_launch_child.
Qed.

Lemma maybe_attach args : maybe LStart (attach args).
Proof.
  unfold attach. do 2 (apply maybe_mtry_l; [tau_go|]; intros ?).
  apply maybe_bind_l; [tau_go|]; intros c. apply maybe_mtry_l; [tau_go|]; intros _.
  apply maybe_bind_r; [apply maybe_start_vm|]. intros [[]|e]; tau_go.
Qed.

(** The visible steps a request may take before it is answered. *)
Definition request_labels (s : Session) (command : string) (ls : list Lbl) : Prop :=
  if bool_decide (command ∈ ["launch"; "attach"]) then ls = [] ∨ ls = [LStart]
  else if bool_decide (command = "configurationDone") then
    ls = if releases s then [LRelease] else []
  else if bool_decide (command = "setBreakpoints") then Forall (λ l, l = LEdit) ls
  else if bool_decide (command ∈ ["continue"; "next"; "stepIn"; "stepOut"]) then
    ls = [] ∨ ls = [LResume]
  else if bool_decide (command = "pause") then ls = [] ∨ ls = [LSuspend; LStop]
  else ls = [].

Lemma steps_dispatch command args s :
  ∃ ls, steps ls s (dispatch command args s).2 ∧ request_labels s command ls.
Proof.
  assert (∀ c (m : M (Result string Json)), tau m → request_labels s c [] →
    ∃ ls, steps ls s (m s).2 ∧ request_labels s c ls) as Ht.
  { intros c m Hm Hl. exists []. split; [by apply steps_nil | done]. }
  unfold dispatch.
  repeat (case_bool_decide; [subst command; first
    [ exact (maybe_launch args s) | exact (maybe_attach args s)
    | exact (emits_set_breakpoints args s) | exact (maybe_continue_all s)
    | exact (maybe_do_step args _ s) | exact (steps_pause args s)
    | eexists; split; [apply steps_configuration_done | reflexivity]
    | apply Ht; [solve [tau_go] | reflexivity] ]|]).
  apply Ht; [tau_go|]. unfold request_labels.
  by rewrite !bool_decide_false by (rewrite ?elem_of_cons, ?elem_of_nil; intuition congruence).
Qed.

Definition request_command (request : Json) : string :=
  as_str_or "" (json_get "command" request).

Lemma steps_handle_request request s :
  ∃ ls, steps (ls ++ [LRespond]) s (handle_request request s).2
        ∧ request_labels s (request_command request) ls.
Proof.
  unfold handle_request, request_command. set (command := as_str_or _ _).
  rewrite bind_snd.
  destruct (steps_dispatch command (json_get "arguments" request) s) as (ls & Hs & Hl).
  destruct (dispatch _ _ s) as [result s1]. cbn [fst snd] in *.
  exists ls. split; [|done]. eapply steps_app; [done|]. rewrite bind_snd.
  eapply steps_cons; [apply rtc_refl | apply u_respond | done |].
  cbn [emit modify fst snd]. apply tau_steps. tau_go.
Qed.

(** The visible steps of one inbound message. *)
Definition message_labels (message : Inbound) (s : Session) (ls : list Lbl) : Prop :=
  match message with
  | IRequest request => ∃ ks, ls = ks ++ [LRespond] ∧ request_labels s (request_command request) ks
  | IJdwpEvent payload =>
      match vm s with
      | Some sizes =>
          match parse_composite payload sizes with
          | Ok set => ∃ resumed, ls = set_labels set resumed
          | Err _ => ls = []
          end
      | None => ls = []
      end
  | _ => ls = []
  end.

Lemma stop_labels_all evs : Forall (λ l, l = LStop) (stop_labels evs).
Proof.
  induction evs as [|ev evs IH]; [constructor|]. cbn. apply Forall_app. split; [|done].
  destruct (is_stop ev); by repeat constructor.
Qed.
Lemma set_labels_no_respond set b : LRespond ∉ set_labels set b.
Proof.
  unfold set_labels. rewrite !not_elem_of_app. split_and!.
  - destruct (counted set); [intros [?|?%elem_of_nil]%elem_of_cons; done | by intros ?%elem_of_nil].
  - intros H. pose proof (stop_labels_all (events set)) as Ha.
    rewrite Forall_forall in Ha. by apply Ha in H.
  - destruct (_ && _); [intros [?|?%elem_of_nil]%elem_of_cons; done | by intros ?%elem_of_nil].
Qed.
Lemma request_labels_no_respond s command ls : request_labels s command ls → LRespond ∉ ls.
Proof.
  unfold request_labels. intros Hl Hin. repeat case_bool_decide; destruct_or?;
    try (rewrite Forall_forall in Hl; by apply Hl in Hin);
    try destruct (releases s); subst; rewrite ?elem_of_cons, ?elem_of_nil in Hin; intuition congruence.
Qed.

Lemma steps_handle message s :
  ∃ ls, steps ls s (handle message s).2 ∧ message_labels message s ls.
Proof.
  destruct message; cbn [handle message_labels].
  - destruct (steps_handle_request request s) as (ls & Hs & Hl). eauto.
  - exists []. split; [apply steps_nil, tau_ret | done].
  - rewrite bind_snd. cbn [get fst snd].
    destruct (vm s) as [sizes|]; [|exists []; by split; [apply steps_nil, rtc_refl|]].
    rewrite bind_snd. destruct (parse_composite payload sizes) as [set|e]; cbn [mret M_ret snd].
    + destruct (steps_event_set set s) as [b Hs]. eauto.
    + exists []. split; [apply steps_nil, tau_terminated | done].
  - exists []. split; [|done]. apply tau_steps. tau_go.
  - exists []. split; [|done]. apply tau_steps. unfold output. tau_go.
  - exists []. split; [|done]. apply tau_steps. tau_go.
  - exists []. split; [|done]. apply tau_steps. tau_go.
Qed.

End Handlers.
