(* ===== verification/DapInvariants.v ===== *)
(** * Invariants of the debug session

    Invariants of the steps of [DapSteps], hence of every run of the event
    loop over any sequence of messages, against any debuggee, client and
    operating system. *)
From S2P Require Import Prelude RustStd Paths JdwpCommands JdwpCodec JdwpVm DapProtocol DapPure.
From S2P Require Import DapSession DapExample DapSteps.

(** ** From steps to runs *)

Lemma rtc_inv (P : Session → Prop) l :
  (∀ s s', ustep l s s' → P s → P s') → ∀ s s', rtc (ustep l) s s' → P s → P s'.
Proof. intros H s s' Hr. induction Hr; eauto. Qed.

Lemma steps_inv (P : Session → Prop) :
  (∀ l s s', ustep l s s' → P s → P s') → ∀ ls s s', steps ls s s' → P s → P s'.
Proof.
  intros H ls s s' Hs. induction Hs as [s s' Ht|l ls s s1 s2 s' Ht Hu _ _ IH].
  - by apply (rtc_inv P LTau); [eauto|].
  - intros Hp. eapply IH, H; [exact Hu|]. revert Ht Hp. apply rtc_inv. eauto.
Qed.

Section Runs.
Context `{D : Debuggee} `{SD : Serde} `{LS : LaunchSupport} `{EN : Env}.

Lemma handle_inv (P : Session → Prop) :
  (∀ l s s', ustep l s s' → P s → P s') → ∀ m s, P s → P (handle m s).2.
Proof.
  intros H m s. destruct (steps_handle m s) as (ls & Hs & _). by apply (steps_inv P H ls).
Qed.

Lemma event_loop_inv (P : Session → Prop) :
  (∀ l s s', ustep l s s' → P s → P s') → ∀ ms s, P s → P (event_loop ms s).2.
Proof.
  intros H ms. induction ms as [|m ms IH]; intros s Hp; cbn [event_loop]; [done|].
  rewrite bind_snd. pose proof (handle_inv P H m s Hp) as Hh.
  destruct (handle m s) as [[|] s']; cbn in *; eauto.
Qed.

Lemma run_inv (P : Session → Prop) :
  (∀ l s s', ustep l s s' → P s → P s') → ∀ ms s, P s → P (run_stdio_adapter ms s).2.
Proof.
  intros H ms s Hp. unfold run_stdio_adapter. rewrite bind_snd.
  pose proof (event_loop_inv P H ms s Hp) as Hl.
  destruct (event_loop ms s) as [[|] s1]; cbn [fst snd] in *; [|done].
  rewrite bind_snd. cbn. revert Hl. apply (rtc_inv P LTau); [eauto|]. apply tau_cleanup.
Qed.

End Runs.

(** Case analysis on a step; what is left are the steps that touch the
    fields of the invariant. *)
Tactic Notation "by_step" reference(P) :=
  let H := fresh in
  intros H; destruct H; unfold P;
    try solve [core_eqs; exact (λ H, H)]; cbn -[lookup insert]; try exact (λ H, H).

(** ** Threads *)

(** DAP thread ids and JDWP threads are in bijection, and ids are never
    reused. *)
Definition threads_ok (s : Session) : Prop :=
  1 ≤ next_thread_id s
  ∧ (∀ t i, thread_to_dap s !! t = Some i ↔ dap_to_thread s !! i = Some t)
  ∧ (∀ i t, dap_to_thread s !! i = Some t → 1 ≤ i < next_thread_id s).

Lemma threads_ok_new : threads_ok Session_new.
Proof.
  split_and!; cbn -[lookup]; [lia | |]; intros; rewrite ?lookup_empty in *; by try split.
Qed.

Lemma threads_ok_step l s s' : ustep l s s' → threads_ok s → threads_ok s'.
Proof.
  by_step threads_ok.
  intros (Hn & Hbi & Hr). split_and!; [lia| |].
  - intros t' i'. destruct (decide (t' = t)) as [->|Ht].
    + rewrite lookup_insert_eq. destruct (decide (i' = next_thread_id s)) as [->|Hi].
      * by rewrite lookup_insert_eq.
      * rewrite lookup_insert_ne by done. rewrite <- Hbi.
        split; [congruence|]. intros Hx. congruence.
    + rewrite lookup_insert_ne by done. rewrite Hbi.
      destruct (decide (i' = next_thread_id s)) as [->|Hi].
      * rewrite lookup_insert_eq. split; [|congruence]. intros Hx. apply Hr in Hx. lia.
      * by rewrite lookup_insert_ne.
  - intros i' t'. destruct (decide (i' = next_thread_id s)) as [->|Hi]; [lia|].
    rewrite lookup_insert_ne by done. intros Hx. apply Hr in Hx. lia.
Qed.

(** ** Handles *)

Definition handles_ok (s : Session) : Prop :=
  1000 ≤ next_handle s
  ∧ (∀ h, is_Some (frames s !! h) → 1000 ≤ h < next_handle s)
  ∧ (∀ h, is_Some (varrefs s !! h) → 1000 ≤ h < next_handle s)
  ∧ (∀ h, is_Some (frames s !! h) → varrefs s !! h = None).

Lemma handles_ok_new : handles_ok Session_new.
Proof. split_and!; cbn -[lookup]; [lia|..]; intros h [? Hx]; by rewrite lookup_empty in Hx. Qed.

(** A lookup in an extended map. *)
Ltac insert_cases h n :=
  destruct (decide (h = n)) as [->|?];
  [rewrite ?lookup_insert_eq in * | rewrite ?lookup_insert_ne in * by done].

Lemma handles_ok_step l s s' : ustep l s s' → handles_ok s → handles_ok s'.
Proof.
  by_step handles_ok.
  - intros (Hn & _). split_and!; [done|..]; intros h [? Hx]; by rewrite lookup_empty in Hx.
  - intros (Hn & Hf & Hv & Hd). split_and!; [lia|..]; intros h.
    + insert_cases h (next_handle s); [lia|]. intros Hx. apply Hf in Hx. lia.
    + intros Hx. apply Hv in Hx. lia.
    + insert_cases h (next_handle s); [|auto]. intros _. apply eq_None_not_Some.
      intros Hx. apply Hv in Hx. lia.
  - intros (Hn & Hf & Hv & Hd). split_and!; [lia|..]; intros h.
    + intros Hx. apply Hf in Hx. lia.
    + insert_cases h (next_handle s); [lia|]. intros Hx. apply Hv in Hx. lia.
    + intros Hx. pose proof (Hf _ Hx). rewrite lookup_insert_ne by lia. auto.
Qed.

(** Handles below [n] denote nothing. *)
Definition stale_below (n : Z) (s : Session) : Prop :=
  n ≤ next_handle s ∧ ∀ h, h < n → frames s !! h = None ∧ varrefs s !! h = None.

Lemma stale_below_step n l s s' : ustep l s s' → stale_below n s → stale_below n s'.
Proof.
  by_step stale_below.
  - intros [Hn H]. split; [lia|]. intros h Hh. by rewrite !lookup_empty.
  - intros [Hn H]. split; [lia|]. intros h Hh. rewrite lookup_insert_ne by lia. auto.
  - intros [Hn H]. split; [lia|]. intros h Hh. rewrite lookup_insert_ne by lia. auto.
Qed.

(** ** Breakpoints *)

Definition file_ok (next : Z) (f : FileBps) : Prop :=
  Forall bp_wf (bps f) ∧ NoDup (bp_line <$> bps f) ∧ NoDup (bp_id <$> bps f)
  ∧ Forall (λ bp, 1 ≤ bp_id bp < next) (bps f).

Definition bps_ok (s : Session) : Prop :=
  1 ≤ next_bp_id s
  ∧ (∀ path f, files s !! path = Some f → file_ok (next_bp_id s) f)
  ∧ (∀ p1 p2 f1 f2 b1 b2, p1 ≠ p2 → files s !! p1 = Some f1 → files s !! p2 = Some f2 →
       b1 ∈ bps f1 → b2 ∈ bps f2 → bp_id b1 ≠ bp_id b2).

Lemma bps_ok_new : bps_ok Session_new.
Proof.
  split_and!; cbn -[lookup]; [lia|..]; intros *; rewrite lookup_empty; discriminate || intros; done.
Qed.

Lemma existsb_false_In {A} (g : A → bool) l x : existsb g l = false → In x l → g x = false.
Proof.
  intros He Hin. destruct (g x) eqn:Hg; [|done].
  by rewrite (proj2 (List.existsb_exists g l) (ex_intro _ x (conj Hin Hg))) in He.
Qed.

(** What [add_missing] appends. *)
Lemma add_missing_spec requested : ∀ kept n, ∃ new n',
  add_missing requested kept n = (kept ++ new, n')
  ∧ n ≤ n'
  ∧ Forall (λ bp, n ≤ bp_id bp < n' ∧ bp_line bp ∈ requested ∧ bp_verified bp = false ∧ bp_wf bp) new
  ∧ NoDup (bp_id <$> new)
  ∧ (NoDup (bp_line <$> kept) → NoDup (bp_line <$> kept ++ new))
  ∧ (∀ line, line ∈ requested → line ∈ bp_line <$> (kept ++ new)).
Proof.
  induction requested as [|line rest IH]; intros kept n; cbn [add_missing].
  { exists [], n. rewrite app_nil_r. split_and!; first [done | lia | constructor | set_solver]. }
  destruct (existsb _ kept) eqn:Hex.
  - destruct (IH kept n) as (new & n' & -> & Hn & Hf & Hi & Hl & Hr).
    exists new, n'. split_and!; try done.
    + eapply Forall_impl; [exact Hf|]. cbn. set_solver.
    + intros line' [->|?]%elem_of_cons; [|auto]. apply List.existsb_exists in Hex as (bp & Hb & He).
      apply Z.eqb_eq in He. subst line. apply list_elem_of_In in Hb.
      rewrite fmap_app. apply elem_of_app. left. by apply list_elem_of_fmap_2.
  - set (bp := mkLineBp n line false None None []).
    destruct (IH (kept ++ [bp]) (n + 1)) as (new & n' & -> & Hn & Hf & Hi & Hl & Hr).
    exists (bp :: new), n'. rewrite <- app_assoc in *. cbn [app] in *. split_and!; try done.
    + lia.
    + constructor; [split_and!; cbn; first [done | lia | set_solver]|].
      eapply Forall_impl; [exact Hf|]. cbn. intros b (?&?&?&?). split_and!; first [done | lia | set_solver].
    + cbn. constructor; [|done]. intros (b & Hb & Hin)%list_elem_of_fmap.
      rewrite Forall_forall in Hf. apply Hf in Hin. cbn in Hb. lia.
    + intros Hk. apply Hl. rewrite fmap_app. apply NoDup_app. split_and!; [done| |apply NoDup_singleton].
      cbn. intros l Hin ->%list_elem_of_singleton.
      apply list_elem_of_fmap in Hin as (b & Hb & Hin%list_elem_of_In).
      apply (existsb_false_In _ _ _ Hex) in Hin. subst line. by rewrite Z.eqb_refl in Hin.
    + intros line' [->|?]%elem_of_cons; [|auto].
      rewrite fmap_app. apply elem_of_app. right. by left.
Qed.

Lemma kept_bps_sub requested l bp : bp ∈ kept_bps requested l → bp ∈ l ∧ bp_line bp ∈ requested.
Proof.
  unfold kept_bps. rewrite (list_elem_of_In (List.filter _ _)), List.filter_In.
  rewrite <- list_elem_of_In. intros [? Hb]. by apply bool_decide_eq_true in Hb.
Qed.

Lemma kept_bps_nodup {A} (g : LineBp → A) requested l :
  NoDup (g <$> l) → NoDup (g <$> kept_bps requested l).
Proof.
  unfold kept_bps. induction l as [|b l IH]; [done|].
  rewrite fmap_cons, NoDup_cons. intros [Hn Hd]. cbn [List.filter].
  case_bool_decide; [|auto]. rewrite fmap_cons. constructor; [|auto]. contradict Hn.
  apply list_elem_of_fmap in Hn as (b' & -> & Hin). apply list_elem_of_fmap_2.
  by apply (kept_bps_sub requested) in Hin as [? _].
Qed.

Lemma file_ok_mono n n' f : n ≤ n' → file_ok n f → file_ok n' f.
Proof.
  intros Hn (?&?&?&Hf). split_and!; try done. eapply Forall_impl; [exact Hf|]. cbn. lia.
Qed.

Lemma Forall2_refines_fmap {A} (g : LineBp → A) l k :
  (∀ a b, bp_refines a b → g b = g a) → Forall2 bp_refines l k → g <$> k = g <$> l.
Proof. intros Hg H. induction H; cbn; f_equal; auto. Qed.

Lemma refines_id a b : bp_refines a b → bp_id b = bp_id a.
Proof. by intros (?&?&?). Qed.
Lemma refines_line a b : bp_refines a b → bp_line b = bp_line a.
Proof. by intros (?&?&?). Qed.

Lemma file_ok_bind n f l cn ids :
  Forall2 bp_refines (bps f) l → file_ok n f → file_ok n (mkFileBps cn ids l).
Proof.
  intros H (Hw & Hl & Hi & Hb). split_and!; cbn [bps].
  - clear -H Hw. induction H as [|a b l k (?&?&?&?)]; [done|]. inversion Hw; subst.
    constructor; auto.
  - by rewrite (Forall2_refines_fmap bp_line (bps f) l refines_line).
  - by rewrite (Forall2_refines_fmap bp_id (bps f) l refines_id).
  - clear -H Hb. induction H as [|a b l k (Hi&?)]; [done|]. inversion Hb; subst.
    constructor; [by rewrite Hi | auto].
Qed.

Lemma file_ok_rebuild requested n f cn ids :
  1 ≤ n → file_ok n f →
  let p := add_missing requested (kept_bps requested (bps f)) n in
  n ≤ p.2 ∧ file_ok p.2 (mkFileBps cn ids p.1)
  ∧ ∀ b, b ∈ p.1 → (∃ b', b' ∈ bps f ∧ bp_id b = bp_id b') ∨ n ≤ bp_id b.
Proof.
  intros H1 (Hw & Hl & Hi & Hb). cbn zeta.
  destruct (add_missing_spec requested (kept_bps requested (bps f)) n)
    as (new & n' & -> & Hn & Hf & Hni & Hnl & _). cbn [fst snd].
  assert (∀ b, b ∈ kept_bps requested (bps f) → b ∈ bps f) as Hsub.
  { intros b Hin. by apply kept_bps_sub in Hin as [? _]. }
  rewrite Forall_forall in Hw, Hb, Hf. split; [done|]. split; [split_and!; cbn [bps]|].
  - apply Forall_forall. intros b [Hin|Hin]%elem_of_app; [auto|]. by apply Hf in Hin as (?&?&?&?).
  - by apply Hnl, kept_bps_nodup.
  - rewrite fmap_app. apply NoDup_app. split_and!; [by apply kept_bps_nodup| |done].
    intros i (b & -> & Hin)%list_elem_of_fmap (b' & He & Hin')%list_elem_of_fmap.
    apply Hsub, Hb in Hin. apply Hf in Hin' as [? _]. lia.
  - apply Forall_forall. intros b [Hin|Hin]%elem_of_app.
    + apply Hsub, Hb in Hin. lia.
    + apply Hf in Hin as [? _]. lia.
  - intros b [Hin|Hin]%elem_of_app; [left; eauto|]. apply Hf in Hin as [? _]. right. lia.
Qed.

(** Replacing one file by another whose ids are old or fresh. *)
Lemma bps_ok_insert s s' path f f' n' :
  files s !! path = Some f → next_bp_id s' = n' → next_bp_id s ≤ n' →
  files s' = <[path := f']> (files s) → file_ok n' f' →
  (∀ b, b ∈ bps f' → (∃ b', b' ∈ bps f ∧ bp_id b = bp_id b') ∨ next_bp_id s ≤ bp_id b) →
  bps_ok s → bps_ok s'.
Proof.
  intros Hp Hn Hle Hfs Hok Hids (H1 & Hf & Hd). unfold bps_ok. rewrite Hn, Hfs.
  split_and!; [lia| |].
  - intros p g. insert_cases p path; [congruence|]. intros Hg. eapply file_ok_mono; eauto.
  - assert (∀ p g b b', p ≠ path → files s !! p = Some g → b ∈ bps f' → b' ∈ bps g →
              bp_id b ≠ bp_id b') as Hx.
    { intros p g b b' Hne Hg Hb Hb'. destruct (Hids b Hb) as [(b0 & Hb0 & ->)|Hfresh].
      - eapply (Hd path p); eauto.
      - destruct (Hf p g Hg) as (_&_&_&Hlt). rewrite Forall_forall in Hlt.
        apply Hlt in Hb'. lia. }
    intros p1 p2 f1 f2 b1 b2 Hne. insert_cases p1 path; insert_cases p2 path; intros Hg1 Hg2;
      simplify_eq; eauto. intros Hb1 Hb2 He. eapply Hx; eauto.
Qed.

Lemma bps_ok_step l s s' : ustep l s s' → bps_ok s → bps_ok s'.
Proof.
  intros Hu Hok. destruct Hu;
    try solve [revert Hok; unfold bps_ok; core_eqs; exact (λ H, H)]; try exact Hok.
  - destruct Hok as (H1 & Hf & Hd). unfold bps_ok. cbn -[lookup insert]. split_and!; [done| |].
    + intros p g. insert_cases p path; [|apply Hf]. intros [= <-].
      split_and!; cbn; constructor.
    + intros p1 p2 f1 f2 b1 b2 Hne. insert_cases p1 path; insert_cases p2 path; intros;
        simplify_eq/=; first [set_solver | eauto].
  - pose proof Hok as (H1 & Hf & _).
    destruct (file_ok_rebuild requested (next_bp_id s) f (class_name f) (prepare_request_ids f) H1
                (Hf _ _ H)) as (Hle & Hok' & Hids).
    eapply bps_ok_insert; [exact H|reflexivity|exact Hle|reflexivity|exact Hok'|exact Hids|done].
  - pose proof Hok as (H1 & Hf & _).
    eapply bps_ok_insert; [exact H|reflexivity|cbn; lia|reflexivity| | |done].
    + cbn. eapply file_ok_bind; eauto.
    + cbn. intros b Hin. left.
      apply (list_elem_of_fmap_2 bp_id) in Hin.
      rewrite (Forall2_refines_fmap bp_id _ _ refines_id H0) in Hin.
      apply list_elem_of_fmap in Hin as (b' & ? & ?). eauto.
Qed.

(** ** What is written to the client *)

Definition is_kind (k : string) (m : Json) : bool :=
  match json_get "type" m with JStr t => bool_decide (t = k) | _ => false end.
Definition is_event (name : string) (m : Json) : bool :=
  is_kind "event" m
  && match json_get "event" m with JStr n => bool_decide (n = name) | _ => false end.
Definition is_response (m : Json) : bool := is_kind "response" m.

(** The messages of a kind, newest first. *)
Definition sent (p : Json → bool) (s : Session) : list Json := List.filter p (out (writer s)).

Lemma send_event p n name body :
  p (json_set "seq" (JNum n) (event_msg name body)) = false →
  ∀ w, seq w + 1 = n → List.filter p (out (event name body w)) = List.filter p (out w).
Proof. intros Hp w Hn. unfold event, send. rewrite Hn. cbn [out List.filter]. by rewrite Hp. Qed.

Lemma event_not_response n name body :
  is_response (json_set "seq" (JNum n) (event_msg name body)) = false.
Proof. reflexivity. Qed.
Lemma is_event_event n name name' body :
  is_event name' (json_set "seq" (JNum n) (event_msg name body)) = bool_decide (name = name').
Proof. reflexivity. Qed.
Lemma response_not_event n name q c r :
  is_event name (json_set "seq" (JNum n) (response q c r)) = false.
Proof. by destruct r. Qed.

(** Only [LRespond] writes a response. *)
Lemma responses_step l s s' : ustep l s s' → l ≠ LRespond → sent is_response s' = sent is_response s.
Proof.
  intros H Hl. unfold sent.
  destruct H; try done; try solve [core_eqs; done];
    by apply (send_event is_response _ _ _ (event_not_response _ _ _)).
Qed.
Lemma responses_tau s s' : rtc (ustep LTau) s s' → sent is_response s' = sent is_response s.
Proof.
  induction 1 as [|? ? ? Hs _ IH]; [done|]. rewrite IH. by eapply responses_step.
Qed.
Lemma responses_steps ls s s' :
  steps ls s s' → LRespond ∉ ls → sent is_response s' = sent is_response s.
Proof.
  induction 1 as [|? ? ? ? ? ? Ht Hu Hl _ IH]; [intros _; by apply responses_tau|].
  intros [? ?]%not_elem_of_cons. rewrite IH by done.
  rewrite (responses_step _ _ _ Hu) by congruence. by apply responses_tau.
Qed.

(** Sequence numbers count up from 1, and [terminated] is announced as often
    as the flag says. *)
Definition numbered (w : DapWriter) : Prop :=
  seq w = Z.of_nat (length (out w))
  ∧ ∀ i m, out w !! i = Some m → json_get "seq" m = JNum (Z.of_nat (length (out w) - i)).
Definition writer_ok (s : Session) : Prop :=
  numbered (writer s)
  ∧ length (sent (is_event "terminated") s) = (if terminated_sent s then 1 else 0)%nat.

Lemma find_app_none {A} (g : A → bool) l k :
  (∀ x, In x l → g x = false) → List.find g (l ++ k) = List.find g k.
Proof.
  intros H. induction l as [|x l IH]; [done|]. cbn. rewrite H by by left. apply IH.
  intros y Hy. apply H. by right.
Qed.

Lemma json_get_set k v fs : json_get k (json_set k v (JObj fs)) = v.
Proof.
  cbn. rewrite find_app_none; [cbn; by rewrite bool_decide_true|].
  intros [k' v'] Hin. apply List.filter_In in Hin as [_ Hn]. cbn in *.
  by apply negb_true_iff in Hn.
Qed.

Lemma numbered_send fs w : numbered w → numbered (send (JObj fs) w).
Proof.
  intros [Hs Hm]. unfold send. split; cbn [seq out length].
  { rewrite Hs. lia. }
  intros [|i] m; cbn [lookup list_lookup].
  - intros Hi. assert (m = json_set "seq" (JNum (seq w + 1)) (JObj fs)) as -> by congruence.
    rewrite json_get_set, Hs. f_equal. lia.
  - intros Hi. by rewrite (Hm i m Hi).
Qed.

Lemma writer_ok_new : writer_ok Session_new.
Proof. repeat split. intros i m Hi. by destruct i. Qed.

Lemma response_obj q c r : ∃ fs, response q c r = JObj fs.
Proof. destruct r; cbn; eauto. Qed.

Lemma writer_ok_step l s s' : ustep l s s' → writer_ok s → writer_ok s'.
Proof.
  intros Hu [Hn Ht]. unfold writer_ok, sent in *.
  destruct Hu; try done; try solve [core_eqs; done].
  - split; [by apply numbered_send|]. cbn [emit_to writer set_writer terminated_sent].
    rewrite (send_event (is_event "terminated") (seq (writer s) + 1)); [done| |done].
    rewrite is_event_event. by apply bool_decide_false.
  - split; [by apply numbered_send|]. cbn [emit_to writer set_writer terminated_sent].
    by rewrite (send_event (is_event "terminated") (seq (writer s) + 1)).
  - split; [by apply numbered_send|]. unfold event, send. cbn -[is_event json_set].
    rewrite is_event_event, bool_decide_true by done. rewrite H in Ht. cbn [length]. by rewrite Ht.
  - cbn [emit_to writer set_writer terminated_sent]. unfold respond, send.
    destruct (response_obj request_seq command result) as [fs Hfs]. split.
    + pose proof (numbered_send fs _ Hn) as Hx. by rewrite <- Hfs in Hx.
    + cbn [out List.filter]. by rewrite response_not_event.
Qed.

(** ** What is sent to the debuggee *)

Definition session_commands : list (Z * Z) :=
  suspend_command :: resume_command :: plain_commands.
Definition known_command (i : WireItem) : Prop :=
  match i with WCmd p _ => command_of p ∈ session_commands | WEvent _ => True end.
Definition wire_ok (s : Session) : Prop := Forall known_command (wire s).

Lemma plain_known items : forallb plain_item items = true → Forall known_command items.
Proof.
  intros H. induction items as [|[p r|] items IH]; [done| |done]. cbn [forallb] in H.
  apply andb_true_iff in H as [Hi H]. constructor; [|auto]. cbn in *. unfold session_commands.
  apply orb_true_iff in Hi as [Hi|[Hi _]%andb_true_iff];
    apply bool_decide_eq_true in Hi; set_solver.
Qed.
Lemma resumed_known items :
  forallb (λ i, plain_item i || is_resumed i) items = true → Forall known_command items.
Proof.
  intros H. induction items as [|[p r|] items IH]; [done| |done]. cbn [forallb] in H.
  apply andb_true_iff in H as [Hi H]. constructor; [|auto].
  apply orb_true_iff in Hi as [Hi|[Hi _]%andb_true_iff].
  - assert (Forall known_command [WCmd p r]) as Hk by (apply plain_known; cbn [forallb]; by rewrite Hi).
    by inversion Hk.
  - apply bool_decide_eq_true in Hi. cbn. rewrite Hi. right. by left.
Qed.
Lemma resumed_plain_or items : forallb is_resumed items = true →
  forallb (λ i, plain_item i || is_resumed i) items = true.
Proof.
  intros H. induction items as [|i items IH]; [done|]. cbn [forallb] in *.
  apply andb_true_iff in H as [Hi H]. by rewrite Hi, orb_true_r, IH.
Qed.
Lemma wire_ok_step l s s' : ustep l s s' → wire_ok s → wire_ok s'.
Proof.
  intros Hu. unfold wire_ok.
  destruct Hu; try solve [core_eqs; exact (λ H, H)]; try exact (λ H, H);
    intros Hw; cbn [sends wire set_wire set_suspend_depth]; apply Forall_app; split; try done.
  - by apply plain_known.
  - constructor; [|done]. destruct i as [p r|]; [|done]. cbn in *.
    apply andb_true_iff in H as [H _]. apply bool_decide_eq_true in H. rewrite H. by left.
  - apply resumed_known, resumed_plain_or. cbn. by rewrite H.
  - by apply resumed_known, resumed_plain_or.
  - by apply resumed_known.
  - apply resumed_known, resumed_plain_or. cbn. by rewrite H.
Qed.

(** ** The theorems *)

Lemma handle_request_split `{Debuggee, Serde, LaunchSupport, Env} request s :
  let command := as_str_or "" (json_get "command" request) in
  ∃ result s1 s2,
    dispatch command (json_get "arguments" request) s = (result, s1)
    ∧ s2 = emit_to (respond (as_i64_or 0 (json_get "seq" request)) command result) s1
    ∧ rtc (ustep LTau) s2 (handle_request request s).2
    ∧ (handle_request request s).1 = (if bool_decide (command = "disconnect") then Exit else Continue).
Proof.
  cbn zeta. set (command := as_str_or _ _). unfold handle_request. fold command.
  rewrite bind_eq. destruct (dispatch command _ s) as [result s1] eqn:Hd. cbn [fst snd].
  rewrite bind_eq. cbn [emit modify fst snd]. eexists result, s1, _.
  split; [done|]. split; [reflexivity|].
  destruct (bool_decide (command = "disconnect")) eqn:Hc.
  - apply bool_decide_eq_true in Hc. rewrite Hc.
    split; [apply rtc_refl | done].
  - destruct (_ && _); (split; [|done]); [|apply rtc_refl].
    by apply rtc_once, (u_event "initialized" (JObj [])).
Qed.

Lemma invalidated `{Debuggee, Serde, LaunchSupport, Env} s :
  handles_ok s → stale_below (next_handle s) (set_varrefs ∅ (set_frames ∅ s)).
Proof. intros (?&?&?&?). split; [cbn; lia|]. intros h _. by cbn -[lookup]; rewrite !lookup_empty. Qed.

(** The handle [h] stands for a frame or for variables. *)
Definition denotes (s : Session) (h : Z) : Prop := is_Some (frames s !! h) ∨ is_Some (varrefs s !! h).
Lemma not_denotes s h : frames s !! h = None ∧ varrefs s !! h = None → ¬ denotes s h.
Proof. intros [E1 E2] [H|H]; rewrite ?E1, ?E2 in H; by apply is_Some_None in H. Qed.

Section Theorems.
Context `{D : Debuggee} `{SD : Serde} `{LS : LaunchSupport} `{EN : Env}.

(** A [stopped] event reaches the client only when every handle issued before
    is gone: none was written since, or the handles below [n] are stale. *)
Definition told_or_stale (n : Z) (l : list Json) (s : Session) : Prop :=
  n ≤ next_handle s ∧ (sent (is_event "stopped") s = l ∨ stale_below n s).

Lemma told_or_stale_step n l lb s s' :
  ustep lb s s' → told_or_stale n l s → told_or_stale n l s'.
Proof.
  intros Hu [Hn [Hs|Hs]]; [|assert (stale_below n s') as Hs' by (by eapply stale_below_step);
    split; [by destruct Hs'|by right]].
  unfold told_or_stale. destruct Hu; unfold sent in *;
    try solve [core_eqs; split; [done|by left]];
    try solve [split; [cbn; lia|by left]].
  - split; [done|left]. cbn [emit_to writer set_writer].
    rewrite (send_event (is_event "stopped") (seq (writer s) + 1)); [done| |done].
    rewrite is_event_event. by apply bool_decide_false.
  - split; [done|right]. split; [done|]. intros h _. cbn -[lookup]. by rewrite H, H0, !lookup_empty.
  - split; [done|left]. cbn [emit_to writer set_writer]. unfold respond, send.
    cbn [out List.filter]. by rewrite response_not_event.
Qed.

(** A continue or a step that succeeds has forgotten every handle. *)
Lemma continue_all_stale s v : handles_ok s → (continue_all s).1 = Ok v →
  stale_below (next_handle s) (continue_all s).2.
Proof.
  intros Hok. unfold continue_all at 1 2, mtry. rewrite !bind_eq. unfold the_vm.
  destruct (vm s); cbn [fst snd ok_or]; [|done]. intros _.
  rewrite bind_snd. cbn [invalidate_handles modify fst snd].
  destruct (maybe_bind_l LResume (modify (set_last_exception ∅)) _ ltac:(tau_go)
    (λ _, maybe_resumes) (set_varrefs ∅ (set_frames ∅ s))) as (ls & Hls & _).
  eapply (steps_inv _ (stale_below_step (next_handle s))); [exact Hls | by apply invalidated].
Qed.

Lemma handles_ok_tau {A} (m : M A) s : tau m → handles_ok s →
  handles_ok (m s).2 ∧ next_handle s ≤ next_handle (m s).2.
Proof.
  intros Hm Hok. specialize (Hm s). revert Hok. induction Hm as [|s0 s1 s2 Hu _ IH]; [done|].
  intros Hok. destruct IH as [? Hle]; [by eapply handles_ok_step|]. split; [done|].
  enough (next_handle s0 ≤ next_handle s1) by lia.
  destruct Hu; cbn; try lia. core_eqs. lia.
Qed.

Lemma do_step_stale args depth s v : handles_ok s → (do_step args depth s).1 = Ok v →
  stale_below (next_handle s) (do_step args depth s).2.
Proof.
  intros Hok. unfold do_step. rewrite mtry_eq. cbn [lift_res mret M_ret fst snd].
  destruct (map_err _ _) as [a|e]; [|done]. rewrite mtry_eq.
  unfold jdwp_thread. cbn [fst snd]. destruct (dap_to_thread s !! _); cbn [ok_or]; [|done].
  rewrite mtry_eq. unfold the_vm. cbn [fst snd]. destruct (vm s) as [sizes|]; cbn [ok_or]; [|done].
  rewrite mtry_eq. set (req := call_msg _ _).
  assert (tau req) as Ht by (unfold req; tau_go).
  destruct (handles_ok_tau req s Ht Hok) as [Hok1 Hle]. destruct (req s) as [[id|e] s1]; [|done].
  cbn [fst snd] in *. rewrite bind_eq. cbn [modify fst snd]. rewrite mtry_eq.
  set (s2 := set_step_request_ids _ s1).
  assert (handles_ok s2) as Hok2 by apply Hok1.
  pose proof (continue_all_stale s2) as Hc. destruct (continue_all s2) as [[body|e] s3]; [|done].
  cbn [fst snd mret M_ret] in *. intros _. destruct (Hc body Hok2 eq_refl) as [Hn Hst].
  assert (next_handle s2 = next_handle s1) as E by done.
  split; [lia|]. intros h Hh. apply Hst. lia.
Qed.

(** ... whichever of the requests it was, as the client sees it. *)
Lemma success_stale request s m : handles_ok s →
  request_command request ∈ ["continue"; "next"; "stepIn"; "stepOut"] →
  sent is_response (handle (IRequest request) s).2 = m :: sent is_response s →
  json_get "success" m = JBool true →
  stale_below (next_handle s) (handle (IRequest request) s).2.
Proof.
  intros Hok Hc Hm Hs. cbn [handle] in *.
  destruct (handle_request_split request s) as (result & s1 & s2 & Hd & -> & Ht & _).
  fold (request_command request) in Hd, Ht.
  assert (stale_below (next_handle s) s1 → stale_below (next_handle s) (handle_request request s).2)
    as Hkeep.
  { intros Hst. by eapply (rtc_inv (stale_below (next_handle s)) LTau (stale_below_step _ _)). }
  apply Hkeep.
  destruct (steps_dispatch (request_command request) (json_get "arguments" request) s)
    as (ls & Hls & Hl). rewrite Hd in Hls. cbn [snd] in Hls.
  apply responses_steps in Hls; [|by eapply request_labels_no_respond].
  apply responses_tau in Ht. rewrite Ht in Hm. unfold sent in *. cbn [emit_to writer set_writer] in Hm.
  destruct result as [body|e];
    [|unfold respond, send in Hm; cbn in Hm; rewrite Hls in Hm; injection Hm as <-; discriminate Hs].
  clear Hm Hs Hls Hl Ht Hkeep. set (args := json_get "arguments" request) in *.
  assert ((dispatch (request_command request) args s).1 = Ok body) as H1 by by rewrite Hd.
  assert ((dispatch (request_command request) args s).2 = s1) as <- by by rewrite Hd.
  clear Hd. revert H1. repeat (apply elem_of_cons in Hc as [->|Hc]);
    [apply continue_all_stale | apply do_step_stale .. | by apply not_elem_of_nil in Hc]; done.
Qed.

Lemma denotes_old s h : handles_ok s → denotes s h → h < next_handle s.
Proof. intros (?&Hf&Hv&?) [Hx|Hx]; [apply Hf in Hx | apply Hv in Hx]; lia. Qed.

(** DAP thread ids and JDWP threads stay in bijection over any run of the
    adapter, and ids are handed out in increasing order from 1, so an id
    never comes to denote another thread. *)
Theorem thread_ids_bijective ms : threads_ok (run_stdio_adapter ms Session_new).2.
Proof. apply (run_inv threads_ok threads_ok_step), threads_ok_new. Qed.

(** C5: A frame or variables handle issued before the client is told of a stop,
    or before it is told that a continue or a step succeeded, denotes nothing
    afterwards, whatever messages follow: the number is never issued again,
    for a frame or for variables. (The resumes the adapter makes by itself are
    not among these: [own_resumes_keep_handles].) *)
Theorem handles_never_revived ms message ms' h :
  let s := (event_loop ms Session_new).2 in
  let s1 := (handle message s).2 in
  denotes s h →
  sent (is_event "stopped") s1 ≠ sent (is_event "stopped") s
  ∨ (∃ request m, message = IRequest request
      ∧ request_command request ∈ ["continue"; "next"; "stepIn"; "stepOut"]
      ∧ sent is_response s1 = m :: sent is_response s ∧ json_get "success" m = JBool true) →
  ¬ denotes (event_loop ms' s1).2 h.
Proof.
  cbn zeta. set (s := (event_loop ms Session_new).2). set (s1 := (handle message s).2).
  intros Hh Hcause.
  assert (handles_ok s) as Hok by apply (event_loop_inv _ handles_ok_step), handles_ok_new.
  assert (h < next_handle s) as Hlt by by eapply denotes_old.
  enough (stale_below (next_handle s) s1) as Hst.
  { apply (event_loop_inv _ (stale_below_step (next_handle s)) ms') in Hst.
    apply not_denotes. by apply Hst. }
  destruct Hcause as [Hs|(request & m & -> & Hc & Hm & Hok1)].
  - destruct (steps_handle message s) as (ls & Hls & _).
    apply (steps_inv _ (told_or_stale_step (next_handle s) (sent (is_event "stopped") s))) in Hls;
      [|by split; [|left]]. by destruct Hls as [_ [?|?]].
  - by eapply success_stale.
Qed.

(** Over any run the client is told [terminated] at most once (exactly
    once when the session believes so), and the messages it receives are
    numbered 1, 2, 3, ... without gap. *)
Theorem terminated_once_and_numbered ms :
  let s := (run_stdio_adapter ms Session_new).2 in
  numbered (writer s)
  ∧ length (sent (is_event "terminated") s) = (if terminated_sent s then 1 else 0)%nat.
Proof. apply (run_inv writer_ok writer_ok_step), writer_ok_new. Qed.

(** C11: Every request is answered by exactly one response, which carries its
    sequence number and command; no other message makes the adapter write a
    response. *)
Theorem one_response_per_request message s :
  let s' := (handle message s).2 in
  match message with
  | IRequest request => ∃ m,
      sent is_response s' = m :: sent is_response s
      ∧ json_get "request_seq" m = JNum (as_i64_or 0 (json_get "seq" request))
      ∧ json_get "command" m = JStr (as_str_or "" (json_get "command" request))
  | _ => sent is_response s' = sent is_response s
  end.
Proof.
  cbn zeta. destruct message as [request| |payload| | | |];
    [|match goal with
      | |- sent _ (handle ?m s).2 = _ =>
          destruct (steps_handle m s) as (ls & Hs & Hl); eapply responses_steps; [exact Hs|];
          cbn [message_labels] in Hl; repeat case_match; destruct_and?;
          repeat match goal with H : ∃ _, _ |- _ => destruct H as [? ->] end; subst;
          solve [apply set_labels_no_respond | by intros ?%elem_of_nil]
      end..].
  cbn [handle]. destruct (handle_request_split request s) as (result & s1 & s2 & Hd & Hs2 & Ht & _).
  destruct (steps_dispatch (as_str_or "" (json_get "command" request))
              (json_get "arguments" request) s) as (ls & Hs & Hl).
  rewrite Hd in Hs. cbn in Hs. apply responses_steps in Hs;
    [|by eapply request_labels_no_respond].
  apply responses_tau in Ht. rewrite Ht, Hs2. unfold sent in *. rewrite <- Hs.
  cbn [emit_to writer set_writer]. unfold respond, send. destruct result; eexists; cbn; eauto.
Qed.

(** C10: In every state a run reaches, breakpoint ids are distinct across all
    files and below the next id, a file has at most one breakpoint per line,
    a verified breakpoint has exactly one JDWP request and a line at or after
    the requested one, and an unverified one has none. *)
Theorem breakpoints_well_formed ms : bps_ok (run_stdio_adapter ms Session_new).2.
Proof. apply (run_inv bps_ok bps_ok_step), bps_ok_new. Qed.

(** The loop ends exactly on a [disconnect] request or when the client
    closes its end. *)
Theorem exit_only_on_disconnect message s :
  (handle message s).1 = Exit
  ↔ match message with
    | IRequest request => as_str_or "" (json_get "command" request) = "disconnect"
    | IStdinClosed => True
    | _ => False
    end.
Proof.
  destruct message as [request| |payload| | | |]; cbn [handle]; try done;
    try (rewrite ?bind_eq; cbn; done).
  - destruct (handle_request_split request s) as (? & ? & ? & _ & _ & _ & ->).
    case_bool_decide; [done|]. by split.
  - rewrite bind_eq. cbn. destruct (vm s); [|done]. rewrite bind_eq. by cbn.
Qed.

(** JDWP commands that run code in the debuggee or change its data:
    RedefineClasses; ClassType SetValues, InvokeMethod, NewInstance;
    InterfaceType InvokeMethod; ObjectReference SetValues, InvokeMethod;
    ArrayReference SetValues; StackFrame SetValues; ThreadReference Stop,
    ForceEarlyReturn. *)
Definition intrusive_commands : list (Z * Z) :=
  [(1, 18); (3, 2); (3, 3); (3, 4); (5, 1); (9, 3); (9, 6); (13, 3); (16, 2); (11, 10); (11, 14)].

(** Whatever the client asks, the adapter never invokes a debuggee method
    and never writes to the debuggee: no command on the wire is one of those
    that do. *)
Theorem debuggee_never_invoked ms p r :
  let s := (run_stdio_adapter ms Session_new).2 in
  WCmd p r ∈ wire s → command_of p ∉ intrusive_commands.
Proof.
  cbn zeta. intros Hin. assert (wire_ok (run_stdio_adapter ms Session_new).2) as Hok.
  { apply (run_inv wire_ok wire_ok_step). constructor. }
  unfold wire_ok in Hok. rewrite Forall_forall in Hok. apply Hok in Hin. cbn in Hin.
  assert (Forall (λ c, c ∉ intrusive_commands) session_commands) as Hd.
  { apply (bool_decide_unpack _). vm_compute. done. }
  rewrite Forall_forall in Hd. by apply Hd.
Qed.

End Theorems.

Lemma handles_never_revived_witness :
  ¬ denotes (event_loop [req 6 "threads" []]
               (handle (req 5 "next" [("threadId", JNum 1)]) ex_session).2).2 1000.
Proof.
  apply (handles_never_revived ex_messages (req 5 "next" [("threadId", JNum 1)])
           [req 6 "threads" []] 1000).
  - left. apply (bool_decide_unpack _). vm_compute. done.
  - right. eexists _, _. split; [reflexivity|]. split; [apply (bool_decide_unpack _); vm_compute; done|].
    split; vm_compute; reflexivity.
Defined.

(** The other cause: a stop the client is told of. *)
Example stop_forgets_handles :
  ¬ denotes (event_loop [] (handle (IJdwpEvent ex_stop) ex_session).2).2 1000.
Proof.
  intros [H|H]; apply (bool_decide_pack _) in H; vm_compute in H; done.
Qed.

(** A class-prepare event of the debuggee, after which it is resumed. *)
Definition ex_prepare : list Z :=
  [2] ++ u32s [1] ++ [8] ++ u32s [6] ++ u64s [1] ++ [1] ++ u64s [100] ++ jdwp_str "LA;" ++ u32s [7].

(** The resumes the adapter makes by itself, in configurationDone and after a
    set of class-prepare events, leave every handle as it was, though the
    comment on [invalidate_handles] says that any resume invalidates them. *)
Example own_resumes_keep_handles :
  (let s := (handle (req 6 "configurationDone" []) ex_session).2 in
   (length (wire s) > length (wire ex_session))%nat ∧ denotes s 1000)
  ∧ (let s := (handle (IJdwpEvent ex_prepare) ex_session).2 in
     (length (wire s) > length (wire ex_session))%nat ∧ suspend_depth s = 1 ∧ denotes s 1000).
Proof.
  split; split_and!;
    first [by vm_compute; lia | by vm_compute | left; apply (bool_decide_unpack _); by vm_compute].
Qed.

Lemma debuggee_never_invoked_witness : (1, 7) ∉ intrusive_commands.
Proof.
  apply (debuggee_never_invoked ex_messages (mkPacket 1 7 []) (Ok (u32s [8; 8; 8; 8; 8]))).
  apply (list_elem_of_lookup_2 _ 11). vm_compute. reflexivity.
Defined.
