(* ===== verification/DapHandlers.v ===== *)
(** * What the handlers do

    Functional behaviour of the handlers with the most logic of their own:
    [setBreakpoints], [stackTrace], and the event sets of the debuggee. *)
From S2P Require Import Prelude RustStd Paths JdwpCommands JdwpCodec JdwpVm DapProtocol DapPure.
From S2P Require Import DapSession DapExample DapSteps DapInvariants.
From Stdlib Require Import Ascii.

(** ** What steps leave alone *)

(** The (id, line) pairs of a file's breakpoints, in order. *)
Definition bp_key (bp : LineBp) : Z * Z := (bp_id bp, bp_line bp).
Definition file_keys (path : string) (s : Session) : option (list (Z * Z)) :=
  (λ f, bp_key <$> bps f) <$> files s !! path.

Lemma file_keys_tau path s s' : rtc (ustep LTau) s s' → file_keys path s' = file_keys path s.
Proof.
  assert (∀ s s', ustep LTau s s' → file_keys path s' = file_keys path s) as Hstep.
  { intros s1 s2 H. unfold file_keys. inversion H; subst; try done; [|core_eqs; done].
    cbn -[lookup insert]. insert_cases path path0; [|done].
    rewrite H0. cbn. f_equal. apply Forall2_refines_fmap; [|done].
    intros a b (Hi & Hl & _). unfold bp_key. by rewrite Hi, Hl. }
  induction 1 as [|s1 s2 s3 Hs _ IH]; [done|]. rewrite IH. by apply Hstep.
Qed.

Lemma wire_grows l s s' i : ustep l s s' → i ∈ wire s → i ∈ wire s'.
Proof.
  intros H Hi. destruct H; try done; try (core_eqs; done);
    cbn [sends wire set_wire set_suspend_depth]; apply elem_of_app; by right.
Qed.
Lemma wire_grows_tau s s' i : rtc (ustep LTau) s s' → i ∈ wire s → i ∈ wire s'.
Proof. induction 1; eauto using wire_grows. Qed.

Lemma depth_step l s s' :
  ustep l s s' → l ∈ [LTau; LStop; LRespond; LEdit; LStart] → suspend_depth s' = suspend_depth s.
Proof.
  intros H Hl. destruct H; try done; try (core_eqs; done);
    rewrite ?elem_of_cons, ?elem_of_nil in Hl; intuition congruence.
Qed.

(** Successful resumes so far. *)
Definition resumes (s : Session) : nat := length (List.filter is_resumed (wire s)).

Lemma plain_not_resumed i : plain_item i = true → is_resumed i = false.
Proof.
  destruct i as [p r|]; [|done]. unfold plain_item, is_resumed. intros H.
  destruct (bool_decide (command_of p = resume_command)) eqn:Hc; [|done].
  apply bool_decide_eq_true in Hc. rewrite Hc in H. by destruct r.
Qed.
Lemma filter_plain items : forallb plain_item items = true → List.filter is_resumed items = [].
Proof.
  induction items as [|i items IH]; [done|]. cbn [forallb List.filter].
  intros [Hi H]%andb_true_iff. rewrite plain_not_resumed by done. auto.
Qed.
Lemma resumes_step l s s' : ustep l s s' → l ∈ [LTau; LStop; LEvent] → resumes s' = resumes s.
Proof.
  intros H Hl. unfold resumes. destruct H; try done; try (core_eqs; done);
    try (rewrite ?elem_of_cons, ?elem_of_nil in Hl; intuition congruence).
  cbn. by rewrite List.filter_app, length_app, filter_plain.
Qed.

(** Stops announced so far. *)
Definition stops (s : Session) : nat := length (sent (is_event "stopped") s).

Lemma stops_step l s s' : ustep l s s' →
  stops s' = (stops s + match l with LStop => 1 | _ => 0 end)%nat.
Proof.
  intros H. unfold stops, sent. destruct H; rewrite ?Nat.add_0_r; try done; try (core_eqs; done).
  - cbn [emit_to writer set_writer].
    rewrite (send_event (is_event "stopped") (seq (writer s) + 1)); [done| |done].
    rewrite is_event_event. by apply bool_decide_false.
  - unfold event, send. cbn -[is_event json_set]. rewrite is_event_event.
    rewrite bool_decide_true by done. cbn [length]. lia.
  - cbn [emit_to writer set_writer]. unfold respond, send. cbn [out List.filter].
    by rewrite response_not_event.
Qed.

(** A run of stops: depth and resumes stay, each stop is announced. *)
Lemma stop_run ls s s' : steps ls s s' → Forall (λ l, l = LStop) ls →
  suspend_depth s' = suspend_depth s ∧ resumes s' = resumes s
  ∧ stops s' = (stops s + length ls)%nat.
Proof.
  assert (∀ s s', rtc (ustep LTau) s s' →
    suspend_depth s' = suspend_depth s ∧ resumes s' = resumes s ∧ stops s' = stops s) as Htau.
  { induction 1 as [|s1 s2 s3 Hs _ (IH1 & IH2 & IH3)]; [done|].
    rewrite IH1, IH2, IH3, (depth_step _ _ _ Hs), (resumes_step _ _ _ Hs), (stops_step _ _ _ Hs);
      [split_and!; try done; cbn; lia|by left..]. }
  induction 1 as [s s' Ht|l ls s s1 s2 s' Ht Hu Hl _ IH]; intros Ha.
  - destruct (Htau _ _ Ht) as (-> & -> & ->). cbn. split_and!; [done..|lia].
  - inversion Ha; subst. destruct IH as (-> & -> & ->); [done|].
    destruct (Htau _ _ Ht) as (<- & <- & <-).
    rewrite (depth_step _ _ _ Hu), (resumes_step _ _ _ Hu), (stops_step _ _ _ Hu);
      [split_and!; [done..|cbn; lia]|right; by left..].
Qed.

Lemma length_stop_labels evs : length (stop_labels evs) = length (List.filter is_stop evs).
Proof.
  induction evs as [|ev evs IH]; [done|]. unfold stop_labels in *. cbn [flat_map List.filter].
  rewrite length_app, IH. by destruct (is_stop ev).
Qed.

Section Handlers.
Context `{D : Debuggee} `{SD : Serde} `{LS : LaunchSupport} `{EN : Env}.

(** C9: An event set from the debuggee is accounted for exactly: each
    breakpoint, step or exception in it is announced as one [stopped] event;
    the debuggee is resumed at most once, and only when the set suspended it
    and holds nothing but class-prepare events; and the suspend depth grows
    by one for the set and shrinks by one for that resume. *)
Theorem event_set_accounting set s :
  0 ≤ suspend_depth s →
  let s' := (handle_event_set set s).2 in
  let resumed := Z.of_nat (resumes s') - Z.of_nat (resumes s) in
  stops s' = (stops s + length (List.filter is_stop (events set)))%nat
  ∧ (resumed = 0 ∨ resumed = 1 ∧ counted set = true ∧ forallb is_quiet (events set) = true)
  ∧ suspend_depth s' = suspend_depth s + (if counted set then 1 else 0) - resumed.
Proof.
  intros Hd. cbn zeta. unfold handle_event_set. rewrite bind_snd. fold (counted set).
  set (s1 := ((if counted set
    then modify (λ s, set_suspend_depth (suspend_depth s + 1) s) else mret ()) s).2).
  assert (suspend_depth s1 = suspend_depth s + (if counted set then 1 else 0)
          ∧ resumes s1 = resumes s ∧ stops s1 = stops s) as (Hd1 & Hr1 & Hs1).
  { unfold s1. destruct (counted set); cbn; split_and!; try done; lia. }
  clearbody s1. rewrite bind_snd, handle_events_auto.
  pose proof (emits_handle_events (events set) (counted set) s1) as H2.
  destruct (handle_events _ _ s1) as [b s2]. cbn [fst snd] in *.
  destruct (stop_run _ _ _ H2 (stop_labels_all _)) as (Hd2 & Hr2 & Hs2).
  rewrite length_stop_labels in Hs2. destruct (counted set && forallb is_quiet (events set)) eqn:Hq;
    [|cbn [mret M_ret snd]; split_and!; [lia|left; lia|lia]].
  apply andb_true_iff in Hq as [Hc Hq]. rewrite Hc in *.
  rewrite bind_snd. cbn [get fst snd].
  destruct (vm s2); [|cbn [mret M_ret snd]; split_and!; [lia|left; lia|lia]]. rewrite bind_snd.
  destruct (call_unit virtual_machine.SET virtual_machine.RESUME [] s2) as [[pl|e] Hr];
    fold vm_resume in Hr; rewrite Hr; cbn [fst snd].
  - assert (resumes (sends [WCmd (mkPacket virtual_machine.SET virtual_machine.RESUME []) (Ok pl)] s2)
            = S (resumes s2)) as Hres by done.
    cbn [modify snd]. unfold stops, sent, resumes, saturating_sub in *.
    cbn [writer wire set_suspend_depth suspend_depth sends set_wire] in *.
    split_and!; [lia| |]; [right; split; [lia|done]|lia].
  - unfold stops, sent, resumes in *. cbn [writer wire suspend_depth sends set_wire mret M_ret snd app] in *.
    cbn [List.filter]. rewrite plain_not_resumed by done. split_and!; [lia|left; lia|lia].
Qed.

(** ** [setBreakpoints] *)

(** [EventRequest.Clear] of a breakpoint request. *)
Definition clear_packet (id : Z) : Packet :=
  mkPacket event_request.SET event_request.CMD_CLEAR (wr_u32 (wr_u8 [] event_kind.BREAKPOINT) id).

(** The handler after the breakpoints were rebuilt. *)
Definition set_breakpoints_tail (path : string) (requested : list Z) (sizes : IdSizes)
    (cleared : list Z) (cn : string) : M (Result string Json) :=
  _ ← mfor cleared (λ id, _ ← call (vm_event_request_clear event_kind.BREAKPOINT id); mret ());
  r ← call (vm_all_classes sizes);
  _ ← match r with
      | Ok cls =>
          mfor cls (λ c,
            if bool_decide (ce_signature c = "L" +:+ replace_char "." "/" cn +:+ ";")
               || starts_with ("L" +:+ replace_char "." "/" cn +:+ "$") (ce_signature c)
            then _ ← bind_lines_in_class path (ce_type_id c); mret () else mret ())
      | Err _ => mret ()
      end;
  fs ← get files;
  mret (Ok (breakpoints_body requested (match fs !! path with Some f => bps f | None => [] end))).

Lemma clear_all cleared : ∀ s,
  rtc (ustep LTau) s (mfor cleared (λ id,
      _ ← call (vm_event_request_clear event_kind.BREAKPOINT id); mret ()) s).2
  ∧ ∀ id, id ∈ cleared → ∃ r, WCmd (clear_packet id) r ∈ wire (mfor cleared (λ id,
      _ ← call (vm_event_request_clear event_kind.BREAKPOINT id); mret ()) s).2.
Proof.
  induction cleared as [|i cleared IH]; intros s; cbn [mfor].
  { split; [apply rtc_refl|]. intros id H. by apply elem_of_nil in H. }
  rewrite !bind_eq. unfold vm_event_request_clear.
  destruct (call_unit event_request.SET event_request.CMD_CLEAR
              (wr_u32 (wr_u8 [] event_kind.BREAKPOINT) i) s) as [r Hr].
  rewrite Hr. cbn [fst snd mret M_ret].
  set (s1 := sends _ s). destruct (IH s1) as [Ht Hc]. split.
  - eapply rtc_l; [|exact Ht]. by apply u_cmds.
  - intros id [->|Hin]%elem_of_cons; [|auto]. exists r.
    eapply wire_grows_tau; [exact Ht|]. by left.
Qed.

Lemma set_breakpoints_tail_spec path requested sizes cleared cn s :
  let r := set_breakpoints_tail path requested sizes cleared cn s in
  rtc (ustep LTau) s r.2
  ∧ (∀ id, id ∈ cleared → ∃ x, WCmd (clear_packet id) x ∈ wire r.2)
  ∧ r.1 = Ok (breakpoints_body requested
                (match files r.2 !! path with Some f => bps f | None => [] end)).
Proof.
  cbn zeta. unfold set_breakpoints_tail. destruct (clear_all cleared s) as [Ht Hc].
  rewrite bind_eq. set (s1 := (mfor cleared _ s).2) in *. clearbody s1.
  rewrite bind_eq. set (a := call (vm_all_classes sizes) s1).
  assert (rtc (ustep LTau) s1 a.2) as Ha by (apply tau_call; auto with tau nocore).
  clearbody a. destruct a as [cls s2]. cbn [fst snd] in *. rewrite bind_eq.
  match goal with |- context [(?m s2).2] => set (b := m) end.
  assert (tau b) as Hb by (unfold b; tau_go; apply tau_bind_lines). specialize (Hb s2).
  set (s3 := (b s2).2) in *. clearbody s3. rewrite bind_eq. cbn [get fst snd mret M_ret].
  assert (rtc (ustep LTau) s1 s3) as H13 by (by etrans).
  split; [by etrans|]. split; [|done]. intros id Hid. destruct (Hc id Hid) as [x Hx].
  exists x. by eapply wire_grows_tau.
Qed.

(** One breakpoint per requested line, in order. *)
Lemma body_entries requested l :
  (∀ line, line ∈ requested → line ∈ bp_line <$> l) →
  ∃ js, breakpoints_body requested l = JObj [("breakpoints", JArr js)]
    ∧ Forall2 (λ line j, ∃ bp, bp ∈ l ∧ bp_line bp = line ∧ j = breakpoint_json bp) requested js.
Proof.
  intros H. unfold breakpoints_body. eexists. split; [reflexivity|].
  induction requested as [|line rest IH]; [constructor|]. cbn [omap list_omap].
  assert (line ∈ bp_line <$> l) as Hin by (apply H; by left).
  apply list_elem_of_fmap in Hin as (bp & Hb & Hin).
  destruct (List.find (λ bp, bp_line bp =? line) l) as [bp'|] eqn:Hf.
  - apply List.find_some in Hf as [Hi Hl]. apply Z.eqb_eq in Hl. apply list_elem_of_In in Hi.
    cbn. constructor; [eauto|]. apply IH. intros. apply H. by right.
  - apply list_elem_of_In in Hin. eapply List.find_none in Hf; [|exact Hin].
    cbn in Hf. lia.
Qed.

Definition old_bps (path : string) (s : Session) : list LineBp :=
  match files s !! path with Some f => bps f | None => [] end.

(** What the rebuilt list of a file holds. *)
Definition rebuilt (requested : list Z) (old : list LineBp) (keys : list (Z * Z)) : Prop :=
  (∀ line, line ∈ keys.*2 ↔ line ∈ requested)
  ∧ ∀ bp, bp ∈ old → bp_line bp ∈ requested → bp_key bp ∈ keys.

Lemma add_missing_rebuilt requested old n :
  rebuilt requested old (bp_key <$> (add_missing requested (kept_bps requested old) n).1).
Proof.
  destruct (add_missing_spec requested (kept_bps requested old) n)
    as (new & n' & -> & _ & Hf & _ & _ & Hr). cbn [fst]. split.
  - intros line. rewrite <- list_fmap_compose. split; [|apply Hr].
    intros (bp & -> & Hin)%list_elem_of_fmap. cbn.
    apply elem_of_app in Hin as [Hin|Hin]; [by apply kept_bps_sub in Hin as [_ ?]|].
    rewrite Forall_forall in Hf. by apply Hf in Hin as (_&?&_).
  - intros bp Hin Hl. apply list_elem_of_fmap_2, elem_of_app. left. unfold kept_bps.
    apply list_elem_of_In, List.filter_In. split; [by apply list_elem_of_In|].
    by apply bool_decide_eq_true.
Qed.

(** [register_file] leaves a known file alone and adds an unknown one empty. *)
Lemma register_file_spec sizes path s s1 :
  register_file sizes path s = (Ok (), s1) → ∃ f, files s1 !! path = Some f ∧ bps f = old_bps path s.
Proof.
  unfold register_file, old_bps. rewrite bind_eq. cbn [get fst snd].
  destruct (files s !! path) as [f|] eqn:Hf; [intros [= <-]; eauto|].
  rewrite mtry_eq. cbn [lift_res mret M_ret fst snd]. destruct (ok_or _ _) as [cn|e]; [|done].
  rewrite !bind_eq. cbn [modify mret M_ret fst snd]. intros [= <-].
  eexists. cbn -[lookup insert]. rewrite lookup_insert_eq. done.
Qed.

(** A successful [setBreakpoints] got to its tail. *)
Lemma set_breakpoints_split args path lines lines' s body :
  de_set_breakpoints args = Ok (mkSetBreakpointsArgs (Some path) lines lines') →
  (set_breakpoints args s).1 = Ok body →
  let requested := if bool_decide (lines = []) then lines' else lines in
  ∃ sizes s1 f1, files s1 !! path = Some f1 ∧ bps f1 = old_bps path s ∧
    set_breakpoints args s =
      let r := rebuild_bps path requested s1 in
      set_breakpoints_tail path requested sizes r.1.1 r.1.2 r.2.
Proof.
  intros Hde Hok. cbn zeta. unfold set_breakpoints in *.
  rewrite mtry_eq in *. cbn [lift_res mret M_ret fst snd] in *. rewrite Hde in *.
  cbn [map_err sb_path ok_or sb_breakpoints sb_lines] in *.
  rewrite mtry_eq in *. cbn [lift_res mret M_ret fst snd ok_or] in *. rewrite mtry_eq in *.
  destruct (the_vm s) as [[sizes|e] s0] eqn:Hvm; cbn [fst snd] in *; [|done].
  assert (s0 = s) as -> by (unfold the_vm in Hvm; congruence). rewrite mtry_eq in *.
  destruct (register_file sizes path s) as [[[]|e] s1] eqn:Hreg; cbn [fst snd] in *; [|done].
  destruct (register_file_spec _ _ _ _ Hreg) as (f1 & Hf1 & Hold).
  exists sizes, s1, f1. split_and!; [done..|]. rewrite bind_eq.
  by destruct (rebuild_bps _ _ s1) as [[cleared cn] s2].
Qed.

(** C4: [setBreakpoints] makes the file's breakpoints exactly the requested
    lines: a line that was there keeps its id, every request of a dropped
    breakpoint is cleared in the debuggee, and the response lists one
    breakpoint per requested line, in the order of the request. *)
Theorem set_breakpoints_exact args path lines lines' s body :
  de_set_breakpoints args = Ok (mkSetBreakpointsArgs (Some path) lines lines') →
  (set_breakpoints args s).1 = Ok body →
  let requested := if bool_decide (lines = []) then lines' else lines in
  let s' := (set_breakpoints args s).2 in
  ∃ f js, files s' !! path = Some f
    ∧ rebuilt requested (old_bps path s) (bp_key <$> bps f)
    ∧ (∀ bp id, bp ∈ old_bps path s → bp_line bp ∉ requested → id ∈ bp_request_ids bp →
         ∃ r, WCmd (clear_packet id) r ∈ wire s')
    ∧ body = JObj [("breakpoints", JArr js)]
    ∧ Forall2 (λ line j, ∃ bp, bp ∈ bps f ∧ bp_line bp = line ∧ j = breakpoint_json bp)
        requested js.
Proof.
  intros Hde Hok. destruct (set_breakpoints_split args path lines lines' s body Hde Hok)
    as (sizes & s1 & f1 & Hf1 & Hold & Heq). revert Hok. cbn zeta. rewrite Heq. clear Heq.
  set (requested := if bool_decide (lines = []) then lines' else lines).
  pose proof (add_missing_rebuilt requested (bps f1) (next_bp_id s1)) as Hre.
  unfold rebuild_bps. rewrite Hf1. destruct (add_missing _ _ _) as [l n].
  cbn [fst snd] in Hre |- *. rewrite Hold in *.
  set (cleared := cleared_ids requested (old_bps path s)). set (s2 := set_files _ _).
  destruct (set_breakpoints_tail_spec path requested sizes cleared (class_name f1) s2)
    as (Ht & Hc & ->). set (s3 := (set_breakpoints_tail _ _ _ _ _ s2).2) in *.
  apply (file_keys_tau path) in Ht. unfold file_keys in Ht.
  assert (files s2 !! path = Some (mkFileBps (class_name f1) (prepare_request_ids f1) l)) as Hf2
    by (unfold s2; cbn -[lookup insert]; apply lookup_insert_eq).
  rewrite Hf2 in Ht. destruct (files s3 !! path) as [f3|] eqn:Hf3; [|done].
  cbn in Ht. injection Ht as Ht. rewrite <- Ht in Hre. intros [= <-].
  destruct (body_entries requested (bps f3)) as (js & Hjs & Hall).
  { intros line Hin. apply Hre in Hin. by rewrite <- list_fmap_compose in Hin. }
  exists f3, js. split_and!; try done. intros bp id Hin Hl Hid. apply Hc.
  unfold cleared, cleared_ids. apply list_elem_of_In, List.in_flat_map. exists bp.
  split; [|by apply list_elem_of_In]. apply List.filter_In. split; [by apply list_elem_of_In|].
  by rewrite bool_decide_false.
Qed.

(** ** [stackTrace] *)

Definition frames_packet (sizes : IdSizes) (thread start length : Z) : Packet :=
  mkPacket thread_reference.SET thread_reference.FRAMES
    (wr_u32 (wr_u32 (wr_id [] (object sizes) thread) start) (as_u32 length)).

Lemma vm_frames_wire sizes thread start length w :
  ∃ r, (vm_frames sizes thread start length w).2
       = WCmd (frames_packet sizes thread start length) r :: w.
Proof.
  unfold vm_frames, vm_cmd. unfold mbind, VM_bind. cbn [fst snd].
  destruct (reply _ _) as [pl|e]; [|by eexists]. by exists (Ok pl).
Qed.

(** A [stackTrace] request never asks the debuggee for a frame that does
    not exist, which would make it fail the whole request: when the frame
    count is known, a start beyond it is answered with no frames and no
    further command, and otherwise the range asked for lies within it. *)
Theorem stack_trace_clamped args a thread sizes total s s1 :
  de_stack_trace args = Ok a → dap_to_thread s !! st_thread_id a = Some thread →
  vm s = Some sizes → call (vm_frame_count sizes thread) s = (Ok total, s1) →
  0 ≤ total < 2 ^ 31 → 0 ≤ st_start_frame a → 0 ≤ st_levels a →
  if total <=? st_start_frame a
  then stack_trace args s = (Ok (JObj [("stackFrames", JArr []); ("totalFrames", JNum total)]), s1)
  else ∃ length r,
    WCmd (frames_packet sizes thread (st_start_frame a) length) r ∈ wire (stack_trace args s).2
    ∧ (st_levels a = 0 ∧ length = -1
       ∨ 0 < length ≤ st_levels a ∧ st_start_frame a + length ≤ total).
Proof.
  intros Hde Hth Hvm Hfc Ht Hs Hl. unfold stack_trace.
  rewrite mtry_eq. cbn [lift_res mret M_ret fst snd]. rewrite Hde. cbn [map_err].
  rewrite mtry_eq. unfold jdwp_thread. rewrite Hth. cbn [fst snd ok_or].
  rewrite mtry_eq. unfold the_vm. rewrite Hvm. cbn [fst snd ok_or].
  rewrite bind_eq, Hfc. cbn [fst snd res_ok frames_length]. unfold saturating_sub.
  destruct (Z.leb_spec total (st_start_frame a)).
  - destruct (Z.eqb_spec (Z.max 0 (total - st_start_frame a)) 0); [done|lia].
  - destruct (Z.eqb_spec (Z.max 0 (total - st_start_frame a)) 0); [lia|].
    set (len := if st_levels a =? 0 then -1 else _). exists len. rewrite mtry_eq.
    unfold call_msg. rewrite bind_eq. cbn [mret M_ret fst snd].
    destruct (vm_frames_wire sizes thread (st_start_frame a) len (wire s1)) as [r Hr].
    exists r. split.
    + assert (WCmd (frames_packet sizes thread (st_start_frame a) len) r
        ∈ wire (call (vm_frames sizes thread (st_start_frame a) len) s1).2) as Hin.
      { unfold call. destruct (vm_frames _ _ _ _ _) as [x w]. cbn in *. subst w. by left. }
      destruct (call (vm_frames _ _ _ _) s1) as [[fs|e] s2]; cbn [fst snd map_err] in *; [|done].
      eapply wire_grows_tau; [|exact Hin].
      apply (tau_bind (mmap fs (frame_json thread))); [|intros; apply tau_ret].
      apply tau_mmap. intros fr. apply tau_frame_json.
    + unfold len. destruct (Z.eqb_spec (st_levels a) 0); [by left|right].
      assert (as_i32 (Z.min (st_levels a) (Z.max 0 (total - st_start_frame a)))
              = Z.min (st_levels a) (total - st_start_frame a)) as ->; [|lia].
      rewrite (Z.max_r 0) by lia. set (m := Z.min _ _). assert (0 < m < 2 ^ 31) by lia.
      rewrite <- (as_u_small 32 m) at 1 by (unfold is_u; lia). apply as_i_as_u; lia.
Qed.

End Handlers.

(** ** The theorems on a concrete session *)

Lemma event_set_accounting_witness :
  let set := mkEventSet 2 [Breakpoint 5 1 (mkLocation 1 100 200 3)] in
  0 ≤ suspend_depth ex_session
  ∧ stops (handle_event_set set ex_session).2 = (stops ex_session + 1)%nat.
Proof.
  assert (0 ≤ suspend_depth ex_session) as H by (vm_compute; discriminate).
  split; [exact H|].
  apply (event_set_accounting (mkEventSet 2 [Breakpoint 5 1 (mkLocation 1 100 200 3)]) ex_session H).
Defined.

Definition ex_bp_args : Json :=
  JObj [("source", JObj [("path", JStr "/p/src/main/java/A.java")]);
        ("breakpoints", JArr [JObj [("line", JNum 4)]])].

Lemma set_breakpoints_exact_witness :
  ∃ f, files (set_breakpoints ex_bp_args ex_session).2 !! "/p/src/main/java/A.java" = Some f
       ∧ ∀ line, line ∈ (bp_key <$> bps f).*2 ↔ line ∈ [4].
Proof.
  destruct (set_breakpoints_exact (D := ex_debuggee) (SD := ex_serde) (EN := ex_env) ex_bp_args "/p/src/main/java/A.java" [4] [] ex_session
    (JObj [("breakpoints", JArr [JObj [("id", JNum 2); ("verified", JBool true); ("line", JNum 10)]])])
    ltac:(reflexivity) ltac:(vm_compute; reflexivity)) as (f & js & Hf & [Hr _] & _).
  exists f. split; [exact Hf | exact Hr].
Defined.

Definition ex_trace_args : Json := JObj [("threadId", JNum 1)].

Lemma stack_trace_clamped_witness :
  ∃ length r, WCmd (frames_packet ex_sizes 1 0 length) r ∈ wire (stack_trace ex_trace_args ex_session).2
    ∧ (20 = 0 ∧ length = -1 ∨ 0 < length ≤ 20 ∧ 0 + length ≤ 1).
Proof.
  exact (stack_trace_clamped (D := ex_debuggee) (SD := ex_serde) (EN := ex_env) ex_trace_args (mkStackTraceArgs 1 0 20) 1 ex_sizes 1 ex_session
    (call (vm_frame_count ex_sizes 1) ex_session).2
    ltac:(reflexivity) ltac:(vm_compute; reflexivity) ltac:(vm_compute; reflexivity)
    ltac:(vm_compute; reflexivity) ltac:(lia) ltac:(cbn; lia) ltac:(cbn; lia)).
Defined.
