(* ===== verification/SuspendLedger.v ===== *)
(** * The suspend ledger

    A JVM counts suspensions: an event set with policy ALL and a
    [VirtualMachine.Suspend] add one, a [VirtualMachine.Resume] takes one
    away, and the program runs only at zero.  The session keeps its own count
    ([suspend_depth]) from what it has seen.  This file puts the session next
    to such a JVM, with event sets in flight between them, and shows that the
    session never under-counts: a successful [continue] lets the debuggee
    run.  Event sets are raised between two messages of the loop. *)
From S2P Require Import Prelude RustStd Paths JdwpCommands JdwpCodec JdwpVm DapProtocol DapPure.
From S2P Require Import DapSession DapExample DapSteps.

(** ** The JVM's count *)

Definition suspends_all (set : EventSet) : bool := suspend_policy_of set =? suspend_policy.ALL.
Definition holds_start (set : EventSet) : bool := existsb is_vm_start (events set).

(** The suspensions an event set on the wire adds. *)
Definition raised (sizes : IdSizes) (payload : list Z) : Z :=
  match parse_composite payload sizes with
  | Ok set => if suspends_all set then 1 else 0
  | Err _ => 0
  end.

(** The JVM's suspend count after what happened on the wire (newest first). *)
Fixpoint jvm_count (sizes : IdSizes) (w : Wire) : Z :=
  match w with
  | [] => 0
  | i :: w' =>
      let n := jvm_count sizes w' in
      match i with
      | WEvent p => n + raised sizes p
      | WCmd _ _ => if is_suspended i then n + 1 else if is_resumed i then saturating_sub n 1 else n
      end
  end.

(** An event set in flight that the session will count when it arrives. *)
Definition in_flight1 (sizes : IdSizes) (payload : list Z) : Z :=
  match parse_composite payload sizes with
  | Ok set => if suspends_all set && negb (holds_start set) then 1 else 0
  | Err _ => 0
  end.
Definition in_flight (sizes : IdSizes) (q : list (list Z)) : Z :=
  foldr (λ p n, in_flight1 sizes p + n) 0 q.
(** An event set with the initial suspension of a [suspend=y] JVM. *)
Definition held1 (sizes : IdSizes) (payload : list Z) : Z :=
  match parse_composite payload sizes with
  | Ok set => if suspends_all set && holds_start set then 1 else 0
  | Err _ => 0
  end.

(** ** Session and JVM side by side

    [world sizes s q h]: the session is in state [s], the event sets [q] are
    in flight, and [h] initial suspensions have been raised and not released
    by [configurationDone].  One connection: no further [launch] or
    [attach]. *)
Definition connects (m : Inbound) : bool :=
  match m with
  | IRequest r => bool_decide (request_command r ∈ ["launch"; "attach"])
  | _ => false
  end.
Definition is_jdwp_event (m : Inbound) : bool := match m with IJdwpEvent _ => true | _ => false end.
Definition released `{Debuggee} (m : Inbound) (s : Session) : bool :=
  match m with
  | IRequest r => bool_decide (request_command r = "configurationDone") && releases s
  | _ => false
  end.

Section World.
Context `{D : Debuggee} `{SD : Serde} `{LS : LaunchSupport} `{EN : Env} (sizes : IdSizes).

Inductive world : Session → list (list Z) → Z → Prop :=
| world_start s :
    vm s = Some sizes → suspend_depth s = 0 → jvm_count sizes (wire s) = 0 → world s [] 0
| world_raise s q h p :
    world s q h → is_ok (parse_composite p sizes) = true →
    world (set_wire (WEvent p :: wire s) s) (q ++ [p]) (h + held1 sizes p)
| world_event s p q h : world s (p :: q) h → world (handle (IJdwpEvent p) s).2 q h
| world_message s m q h :
    world s q h → connects m = false → is_jdwp_event m = false →
    world (handle m s).2 q (if released m s then saturating_sub h 1 else h).

(** ** Counting *)

Lemma jvm_count_nonneg w : 0 ≤ jvm_count sizes w.
Proof.
  induction w as [|[p r|p] w IH]; cbn [jvm_count]; [lia| |].
  - unfold saturating_sub. repeat case_if; lia.
  - unfold raised. repeat case_match; lia.
Qed.

Lemma plain_not_suspended i : plain_item i = true → is_suspended i = false.
Proof.
  destruct i as [p r|]; [|done]. unfold plain_item, is_suspended. intros H.
  destruct (bool_decide (command_of p = suspend_command)) eqn:Hc; [|done].
  apply bool_decide_eq_true in Hc. rewrite Hc in H. by destruct r.
Qed.

Lemma resumed_not_suspended i : is_resumed i = true → is_suspended i = false.
Proof.
  destruct i as [p r|]; [|done]. unfold is_resumed, is_suspended.
  intros [Hc _]%andb_true_iff. apply bool_decide_eq_true in Hc. by rewrite Hc.
Qed.

Lemma jvm_count_plain items w :
  forallb (λ i, plain_item i || is_resumed i) items = true →
  jvm_count sizes (items ++ w) ≤ jvm_count sizes w.
Proof.
  induction items as [|i items IH]; [done|]. cbn [forallb app]. intros [Hi H]%andb_true_iff.
  specialize (IH H). pose proof (jvm_count_nonneg (items ++ w)).
  cbn [jvm_count]. destruct i as [p r|p]; [|done].
  assert (is_suspended (WCmd p r) = false) as -> by
    (apply orb_true_iff in Hi as [?|?]; eauto using plain_not_suspended, resumed_not_suspended).
  unfold saturating_sub. case_if; lia.
Qed.

Lemma plain_or_resumed items : forallb plain_item items = true →
  forallb (λ i, plain_item i || is_resumed i) items = true.
Proof.
  intros H. induction items as [|i items IH]; [done|]. cbn [forallb] in *.
  apply andb_true_iff in H as [Hi H]. by rewrite Hi, IH.
Qed.

Lemma jvm_count_resumed items w :
  forallb is_resumed items = true →
  jvm_count sizes (items ++ w) = saturating_sub (jvm_count sizes w) (Z.of_nat (length items)).
Proof.
  unfold saturating_sub. induction items as [|i items IH]; cbn [forallb app length].
  { intros _. pose proof (jvm_count_nonneg w). lia. }
  intros [Hi H]%andb_true_iff. cbn [jvm_count]. destruct i as [p r|p]; [|done].
  rewrite resumed_not_suspended, Hi, IH by done. unfold saturating_sub. lia.
Qed.

Lemma jvm_count_suspended i w :
  is_suspended i = true → jvm_count sizes (i :: w) = jvm_count sizes w + 1.
Proof. intros H. destruct i; [|done]. cbn [jvm_count]. by rewrite H. Qed.

(** ** The bound *)

(** While connected, the JVM's count exceeds the session's by at most [k]. *)
Definition bounded (k : Z) (s : Session) : Prop :=
  0 ≤ suspend_depth s
  ∧ (vm s = None ∨ vm s = Some sizes ∧ jvm_count sizes (wire s) ≤ suspend_depth s + k).

Lemma bounded_mono k k' s : k ≤ k' → bounded k s → bounded k' s.
Proof. intros Hk [Hd [Hv|[Hv Hc]]]; split; auto. right. split; [done|lia]. Qed.

(** A step moves [k] to [k'] as its label says. *)
Definition moves (l : Lbl) (k k' : Z) : Prop :=
  match l with
  | LEvent => k' = k - 1
  | LRelease => k' = saturating_sub k 1
  | LStart => False
  | _ => k' = k
  end.
(** The labels that do not move it. *)
Definition neutral (l : Lbl) : bool :=
  match l with LEvent | LRelease | LStart => false | _ => true end.
Lemma moves_neutral l k : neutral l = true → moves l k k.
Proof. by destruct l. Qed.

Lemma bounded_step l k k' s s' :
  ustep l s s' → moves l k k' → 0 ≤ k' → bounded k s → bounded k' s'.
Proof.
  intros Hu Hm Hk [Hd Hv]. unfold bounded. destruct Hu; cbn in Hm; subst; try done;
    try (core_eqs; by split); cbn [emit_to sends set_writer set_wire set_suspend_depth suspend_depth
      vm wire set_terminated_sent set_vm]; (split; [unfold saturating_sub; lia || auto |]);
    destruct Hv as [Hv|[Hv Hc]]; auto; right; (split; [done|]).
  - pose proof (jvm_count_plain items (wire s) (plain_or_resumed _ H)). lia.
  - cbn [app]. rewrite jvm_count_suspended by done. lia.
  - pose proof (jvm_count_resumed [i] (wire s)) as Hj. cbn [forallb app length] in *.
    rewrite H in Hj. rewrite Hj by done. pose proof (jvm_count_nonneg (wire s)).
    unfold saturating_sub in *. lia.
  - rewrite jvm_count_resumed by done. unfold saturating_sub. lia.
  - pose proof (jvm_count_plain items (wire s) H). lia.
  - lia.
  - pose proof (jvm_count_resumed [i] (wire s)) as Hj. cbn [forallb app length] in *.
    rewrite H in Hj. rewrite Hj by done. unfold saturating_sub in *. lia.
Qed.

Lemma bounded_tau k s s' : rtc (ustep LTau) s s' → 0 ≤ k → bounded k s → bounded k s'.
Proof.
  intros H Hk. induction H as [|s1 s2 s3 Hs _ IH]; [done|]. intros Hb.
  apply IH. by eapply bounded_step.
Qed.

(** Runs with neutral labels, and with one label that moves [k] first. *)
Lemma bounded_steps ls : ∀ k s s',
  steps ls s s' → 0 ≤ k → Forall (λ l, neutral l = true) ls → bounded k s → bounded k s'.
Proof.
  intros k s s' Hs Hk. induction Hs as [|l ls s s1 s2 s' Ht Hu _ _ IH].
  - intros _. by apply bounded_tau.
  - intros Hl Hb. inversion Hl; subst. apply IH; [done|].
    eapply bounded_step; [exact Hu|by apply moves_neutral|done|]. by eapply bounded_tau.
Qed.

Lemma bounded_steps1 l ls k k' s s' :
  steps (l :: ls) s s' → 0 ≤ k → 0 ≤ k' → moves l k k' → Forall (λ l, neutral l = true) ls →
  bounded k s → bounded k' s'.
Proof.
  intros Hs Hk Hk' Hm Hl Hb. inversion Hs; subst. eapply bounded_steps; [done..|].
  eapply bounded_step; [done..|]. by eapply bounded_tau.
Qed.

Lemma stop_labels_neutral evs : Forall (λ l, neutral l = true) (stop_labels evs).
Proof. eapply Forall_impl; [apply stop_labels_all|]. by intros l ->. Qed.
Lemma quiet_labels_neutral set b :
  Forall (λ l, neutral l = true)
    (stop_labels (events set)
     ++ if counted set && forallb is_quiet (events set) && b then [LResume] else []).
Proof.
  apply Forall_app. split; [apply stop_labels_neutral|]. destruct (_ && _); by repeat constructor.
Qed.
Lemma request_labels_neutral s command ls :
  bool_decide (command ∈ ["launch"; "attach"]) = false →
  command ≠ "configurationDone" → request_labels s command ls →
  Forall (λ l, neutral l = true) ls.
Proof.
  unfold request_labels. intros -> Hc. rewrite bool_decide_false by done.
  case_bool_decide; [intros H1; eapply Forall_impl; [exact H1|]; by intros l ->|].
  case_bool_decide; [intros [-> | ->]; by repeat constructor|].
  case_bool_decide; [intros [-> | ->]; by repeat constructor|]. intros ->. constructor.
Qed.

Lemma in_flight_nonneg q : 0 ≤ in_flight sizes q.
Proof.
  induction q as [|p q IH]; cbn [in_flight foldr]; [lia|]. fold (in_flight sizes q).
  unfold in_flight1. repeat case_match; lia.
Qed.
Lemma in_flight_snoc q p : in_flight sizes (q ++ [p]) = in_flight sizes q + in_flight1 sizes p.
Proof.
  induction q as [|p' q IH]; cbn [app in_flight foldr]; [lia|].
  fold (in_flight sizes (q ++ [p])). fold (in_flight sizes q). lia.
Qed.
Lemma raised_split p : raised sizes p = in_flight1 sizes p + held1 sizes p.
Proof.
  unfold raised, in_flight1, held1. destruct (parse_composite p sizes); [|done].
  destruct (suspends_all _), (holds_start _); done.
Qed.

Lemma world_bounded s q h : world s q h → 0 ≤ h ∧ bounded (in_flight sizes q + h) s.
Proof.
  induction 1 as [s Hv Hd Hc|s q h p _ [Hh Hb] Hp|s p q h _ [Hh Hb]|s m q h _ [Hh Hb] Hcon Hev].
  - split; [lia|]. split; [lia|]. right. cbn. split; [done|lia].
  - assert (0 ≤ held1 sizes p) by (unfold held1; repeat case_match; lia).
    split; [lia|]. destruct Hb as [Hd Hv]. split; [done|]. rewrite in_flight_snoc.
    destruct Hv as [Hv|[Hv Hc]]; [by left|]. right. split; [done|].
    cbn [wire set_wire jvm_count suspend_depth]. rewrite raised_split. lia.
  - split; [done|]. pose proof (in_flight_nonneg q). cbn [in_flight foldr] in Hb.
    fold (in_flight sizes q) in Hb. destruct (steps_handle (IJdwpEvent p) s) as (ls & Hs & Hl).
    cbn [message_labels] in Hl. unfold in_flight1 in Hb.
    destruct (vm s) as [sz|] eqn:Hv.
    + assert (sz = sizes) as -> by (destruct Hb as [_ [?|[? _]]]; congruence).
      destruct (parse_composite p sizes) as [set|e];
        [|subst ls; eapply bounded_steps; [exact Hs|lia|constructor|exact Hb]].
      destruct Hl as [b ->]. unfold set_labels in Hs.
      change (suspends_all set && negb (holds_start set)) with (counted set) in Hb.
      pose proof (quiet_labels_neutral set b) as Hq. destruct (counted set); cbn [app] in Hs.
      * eapply bounded_steps1; [exact Hs| | | |exact Hq|exact Hb]; cbn [moves]; lia.
      * eapply bounded_steps; [exact Hs|lia|exact Hq|exact Hb].
    + subst ls. eapply bounded_steps; [exact Hs|lia|constructor|].
      split; [apply Hb|]. by left.
  - pose proof (in_flight_nonneg q). destruct (steps_handle m s) as (ls & Hs & Hl).
    split; [unfold saturating_sub; case_if; lia|].
    destruct m as [r| | | | | |]; cbn in Hl, Hcon, Hev; try done; subst;
      try (cbn [released]; by eapply bounded_steps; [exact Hs|lia|constructor|]).
    destruct Hl as (ks & -> & Hl). cbn [released].
    destruct (bool_decide (request_command r = "configurationDone")) eqn:Hcd; cbn [andb].
    + unfold request_labels in Hl. rewrite Hcon, Hcd in Hl.
      destruct (releases s); subst ks; cbn [app] in Hs;
        [|eapply bounded_steps; [exact Hs|lia|by repeat constructor|exact Hb]].
      eapply (bounded_mono (saturating_sub (in_flight sizes q + h) 1));
        [unfold saturating_sub; lia|].
      eapply bounded_steps1; [exact Hs| | |done|by repeat constructor|exact Hb];
        unfold saturating_sub; lia.
    + apply bool_decide_eq_false in Hcd.
      eapply bounded_steps; [exact Hs|lia| |exact Hb]. apply Forall_app.
      split; [by eapply request_labels_neutral | by repeat constructor].
Qed.

(** ** The theorems *)

(** C1: While connected, the JVM's suspend count never exceeds the session's
    depth plus the suspending event sets still in flight plus the initial
    suspension not yet released by [configurationDone]: the session never
    under-counts, in any interleaving of requests, events and commands. *)
Theorem suspend_count_bounded s q h :
  world s q h → vm s = Some sizes →
  jvm_count sizes (wire s) ≤ suspend_depth s + in_flight sizes q + h.
Proof.
  intros Hw Hv. destruct (world_bounded s q h Hw) as [_ [_ [Hn|[_ Hc]]]]; [congruence|lia].
Qed.

(** C2: A successful [continue] (hence every step command) runs the debuggee:
    when nothing is in flight and the initial suspension has been released,
    the JVM's suspend count is zero afterwards, however many breakpoints and
    pauses had piled up, and the session's depth agrees. *)
Theorem continue_runs_debuggee s q body :
  world s q 0 → in_flight sizes q = 0 → vm s = Some sizes →
  (continue_all s).1 = Ok body →
  jvm_count sizes (wire (continue_all s).2) = 0 ∧ suspend_depth (continue_all s).2 = 0.
Proof.
  intros Hw Hq Hv Hok. destruct (world_bounded s q 0 Hw) as [_ [Hd [Hn|[_ Hc]]]]; [congruence|].
  revert Hok. unfold continue_all. rewrite !mtry_eq. unfold the_vm. rewrite Hv. cbn [fst snd ok_or].
  repeat (rewrite !bind_eq; cbn [invalidate_handles modify get fst snd]). rewrite !mtry_eq.
  set (s1 := set_last_exception ∅ _).
  destruct (resume_times_spec (Z.to_nat (Z.max (suspend_depth s1) 1)) s1) as (items & Hs & Hm).
  destruct (resume_times _ s1) as [[[]|e] s2]; cbn [fst snd] in *; [|done]. intros _.
  rewrite !bind_eq. cbn [modify fst snd mret M_ret wire suspend_depth set_suspend_depth].
  split; [|done]. destruct Hm as [Hl Hr]. subst s2. cbn [sends wire set_wire].
  rewrite jvm_count_resumed by done. subst s1. cbn in *. unfold saturating_sub. lia.
Qed.

End World.

(** ** A concrete world: launch, VM_START, configure, stop at a breakpoint *)

Definition ex_start_event : list Z := [2] ++ u32s [1] ++ [90] ++ u32s [0] ++ u64s [1].
Definition ex_raise (p : list Z) (s : Session) : Session := set_wire (WEvent p :: wire s) s.
Definition ex_w0 : Session := (handle (req 1 "launch" [("mainClass", JStr "A")]) Session_new).2.
Definition ex_w1 : Session := (handle (IJdwpEvent ex_start_event) (ex_raise ex_start_event ex_w0)).2.
Definition ex_w2 : Session := (handle (req 2 "configurationDone" []) ex_w1).2.
Definition ex_w3 : Session := (handle (IJdwpEvent ex_stop) (ex_raise ex_stop ex_w2)).2.

Lemma ex_world : world ex_sizes ex_w3 [] 0.
Proof.
  assert (world ex_sizes ex_w0 [] 0) as H0 by (apply world_start; vm_compute; reflexivity).
  pose proof (world_raise ex_sizes _ _ _ ex_start_event H0 ltac:(vm_compute; reflexivity)) as H1.
  apply world_event in H1. change (handle _ _).2 with ex_w1 in H1.
  replace (0 + held1 ex_sizes ex_start_event) with 1 in H1 by (vm_compute; reflexivity).
  apply (world_message ex_sizes _ (req 2 "configurationDone" [])) in H1; [|reflexivity..].
  change (handle _ _).2 with ex_w2 in H1.
  replace (if released _ _ then saturating_sub 1 1 else 1) with 0 in H1 by (vm_compute; reflexivity).
  pose proof (world_raise ex_sizes _ _ _ ex_stop H1 ltac:(vm_compute; reflexivity)) as H3.
  apply world_event in H3. change (handle _ _).2 with ex_w3 in H3.
  replace (0 + held1 ex_sizes ex_stop) with 0 in H3 by (vm_compute; reflexivity). exact H3.
Qed.

Lemma suspend_count_bounded_witness :
  jvm_count ex_sizes (wire ex_w3) = 1
  ∧ jvm_count ex_sizes (wire ex_w3) ≤ suspend_depth ex_w3 + in_flight ex_sizes [] + 0.
Proof.
  split; [vm_compute; reflexivity|]. apply (suspend_count_bounded ex_sizes ex_w3 [] 0 ex_world).
  vm_compute; reflexivity.
Defined.

Lemma continue_runs_debuggee_witness :
  jvm_count ex_sizes (wire (continue_all ex_w3).2) = 0 ∧ suspend_depth (continue_all ex_w3).2 = 0.
Proof.
  apply (continue_runs_debuggee ex_sizes ex_w3 []
           (JObj [("allThreadsContinued", JBool true)]) ex_world); vm_compute; reflexivity.
Defined.
