(* ===== verification/LaunchWalk.v ===== *)
(** * Directory walks of the launcher ([crates/debug/src/launch.rs])

    Source-root discovery and source-file collection.  A file system is seen
    through [is_file], [is_dir] and a snapshot of the directory tree below a
    path, symbolic links being leaves of it: the walks never follow them.
    Trees are finite, so the walks are total functions; each runs on the
    number of directories below its stack, which the lemmas show is enough. *)
From S2P Require Import Prelude RustStd Paths.
From Stdlib Require Import Ascii.

(** What [read_dir] and [file_type] say of a path: a directory with its
    readable entries (none when it cannot be read), or something else. *)
Inductive Tree :=
| TDir (es : option (list (string * Tree)))
| TFile
| TSymlink
| TOther
| TNoType.   (** [file_type] failed *)

Class Fs := {
  fs_is_file : string → bool;
  fs_is_dir : string → bool;
  fs_tree : string → Tree;
}.

Definition MODULE_MARKERS : list string := ["pom.xml"; "build.gradle"; "build.gradle.kts"].
Definition CONVENTIONAL_SOURCE_SUBDIRS : list string := ["src/main/java"; "src/test/java"].
Definition SKIPPED_DIR_NAMES : list string := ["target"; "build"; ".git"].
Definition MAX_MODULE_SCAN_DIRS : Z := 50000.
Definition MAX_SOURCE_FILES : Z := 10000.

(** ** Names *)

Definition skipped_name (name : string) : bool :=
  starts_with "." name || bool_decide (name ∈ SKIPPED_DIR_NAMES).

Definition is_dir_tree (t : Tree) : bool := match t with TDir _ => true | _ => false end.

Definition walked (e : string * Tree) : bool := is_dir_tree e.2 && negb (skipped_name e.1).

(** How many directories a walk from [t] visits. *)
Fixpoint tree_dirs (t : Tree) : nat :=
  match t with
  | TDir (Some es) => S (fold_right (λ e n, ((if walked e then tree_dirs e.2 else 0) + n)%nat) O es)
  | _ => 1
  end.
Definition stack_dirs (stack : list (string * Tree)) : nat :=
  fold_right (λ e n, (tree_dirs e.2 + n)%nat) O stack.

Section Walk.
Context `{Fs}.

(** ** Source roots *)

Definition is_module (root dir : string) : bool :=
  path_eq dir root || existsb (λ m, fs_is_file (path_join dir m)) MODULE_MARKERS.

(** [seen] holds exactly the roots found so far. *)
Definition add_root (dir : string) (roots : list string) (sub : string) : list string :=
  let candidate := path_join dir sub in
  if fs_is_dir candidate && negb (existsb (path_eq candidate) roots)
  then roots ++ [candidate] else roots.
Definition add_roots (root dir : string) (roots : list string) : list string :=
  if is_module root dir then fold_left (add_root dir) CONVENTIONAL_SOURCE_SUBDIRS roots else roots.

(** The entries pushed on the stack, in order. *)
Definition subdirs (dir : string) (es : list (string * Tree)) : list (string * Tree) :=
  (λ e, (path_join dir e.1, e.2)) <$>
  List.filter walked es.
Definition push_subdirs (d : string * Tree) (stack : list (string * Tree)) : list (string * Tree) :=
  match d.2 with
  | TDir (Some es) => rev (subdirs d.1 es) ++ stack
  | _ => stack
  end.

(** The top of the stack is its head; [budget] is how many directories may
    still be visited. *)
Fixpoint discover_loop (budget : nat) (root : string) (stack : list (string * Tree))
    (roots : list string) : list string :=
  match stack, budget with
  | [], _ | _, O => roots
  | d :: stack', S n => discover_loop n root (push_subdirs d stack') (add_roots root d.1 roots)
  end.
Definition discover_source_roots (root : string) : list string :=
  discover_loop (Z.to_nat MAX_MODULE_SCAN_DIRS) root [(root, fs_tree root)] [].

(** ** Source files

    The launcher and the server's [javac] check collect files by the same code,
    with different caps. *)

Variable max_files : Z.

Definition full (out : list string) : bool := max_files <=? Z.of_nat (length out).

(** One pass over a directory's entries: the stack, the files so far and
    whether the cap stopped it. *)
Fixpoint collect_dir (dir : string) (es : list (string * Tree)) (stack : list (string * Tree))
    (out : list string) : list (string * Tree) * list string * bool :=
  match es with
  | [] => (stack, out, false)
  | (name, t) :: es' =>
      if full out then (stack, out, true)
      else match t with
           | TNoType | TSymlink => collect_dir dir es' stack out
           | _ =>
               if skipped_name name then collect_dir dir es' stack out
               else match t with
                    | TDir _ => collect_dir dir es' ((path_join dir name, t) :: stack) out
                    | TFile => if bool_decide (extension name = Some "java")
                               then collect_dir dir es' stack (out ++ [path_join dir name])
                               else collect_dir dir es' stack out
                    | _ => collect_dir dir es' stack out
                    end
           end
  end.

(** [true]: the cap was hit and the whole collection returns. *)
Fixpoint collect_loop (fuel : nat) (stack : list (string * Tree)) (out : list string) :
    list string * bool :=
  match stack with
  | [] => (out, false)
  | d :: stack' =>
      if full out then (out, true)
      else match fuel with
           | O => (out, false)
           | S f =>
               match d.2 with
               | TDir (Some es) =>
                   let '(st, out', stop) := collect_dir d.1 es stack' out in
                   if stop then (out', true) else collect_loop f st out'
               | _ => collect_loop f stack' out
               end
           end
  end.
(** A root is a directory [read_dir] can be asked about. *)
Definition collect_root (root : string) (out : list string) : list string * bool :=
  collect_loop (tree_dirs (fs_tree root)) [(root, fs_tree root)] out.

Fixpoint collect_roots (roots seen : list string) (out : list string) : list string :=
  match roots with
  | [] => out
  | root :: roots' =>
      if existsb (path_eq root) seen then collect_roots roots' seen out
      else match collect_root root out with
           | (out', true) => out'
           | (out', false) => collect_roots roots' (root :: seen) out'
           end
  end.
Definition collect_source_files (roots : list string) : list string := collect_roots roots [] [].

End Walk.

(** ** Specification *)

(** The directories a walk from [p] passes through: entries that are real
    directories, neither hidden nor build output, at any depth. *)
Inductive below (p : string) (t : Tree) : string → Tree → Prop :=
| below_here : below p t p t
| below_sub d es name o :
    below p t d (TDir (Some es)) → (name, TDir o) ∈ es → skipped_name name = false →
    below p t (path_join d name) (TDir o).

Lemma below_trans p t q u d v : below p t q u → below q u d v → below p t d v.
Proof. intros H1 H2. induction H2; [done|by econstructor]. Qed.

Lemma elem_subdirs dir es x :
  x ∈ subdirs dir es ↔ ∃ name o, (name, TDir o) ∈ es ∧ skipped_name name = false
                        ∧ x = (path_join dir name, TDir o).
Proof.
  unfold subdirs, walked. rewrite list_elem_of_fmap. setoid_rewrite list_elem_of_In.
  setoid_rewrite filter_In. setoid_rewrite andb_true_iff. setoid_rewrite negb_true_iff. split.
  - intros ([name t] & -> & He & Hd & Hs). destruct t as [o| | | |]; try done. exists name, o. done.
  - intros (name & o & He & Hs & ->). exists (name, TDir o). done.
Qed.

(** A walk goes on below the entries it pushed. *)
Lemma below_front p t d u :
  below p t d u ↔ (d = p ∧ u = t) ∨ ∃ es x, t = TDir (Some es) ∧ x ∈ subdirs p es ∧ below x.1 x.2 d u.
Proof.
  split.
  - induction 1 as [|d es name o Hb IH He Hs]; [by left|right].
    destruct IH as [[-> <-]|(es0 & x & -> & Hx & Hb')].
    + exists es, (path_join p name, TDir o). split; [done|]. split; [apply elem_subdirs; eauto|constructor].
    + exists es0, x. split; [done|]. split; [done|]. by econstructor.
  - intros [[-> ->]|(es & x & -> & Hx & Hb)]; [constructor|].
    apply elem_subdirs in Hx as (name & o & He & Hs & ->). eapply below_trans; [|exact Hb].
    econstructor; [constructor|done|done].
Qed.

Lemma stack_dirs_app a b : stack_dirs (a ++ b) = (stack_dirs a + stack_dirs b)%nat.
Proof. unfold stack_dirs. induction a as [|e a IH]; cbn; [done|]. rewrite IH. lia. Qed.
Lemma stack_dirs_cons e a : stack_dirs (e :: a) = (tree_dirs e.2 + stack_dirs a)%nat.
Proof. done. Qed.
Lemma stack_dirs_rev a : stack_dirs (rev a) = stack_dirs a.
Proof.
  induction a as [|e a IH]; [done|]. cbn [rev].
  rewrite stack_dirs_app, IH, !stack_dirs_cons. change (stack_dirs []) with O. lia.
Qed.
Lemma stack_dirs_subdirs dir es :
  stack_dirs (subdirs dir es) = fold_right (λ e n, ((if walked e then tree_dirs e.2 else 0) + n)%nat) O es.
Proof.
  unfold subdirs. induction es as [|e es IH]; [done|]. cbn [List.filter fold_right].
  destruct (walked e); [|done]. rewrite fmap_cons, stack_dirs_cons. by rewrite IH.
Qed.
Lemma tree_dirs_pos t : (1 ≤ tree_dirs t)%nat.
Proof. destruct t as [[]| | | |]; cbn; lia. Qed.
(** A visit uses up one directory of the stack. *)
Lemma stack_dirs_push d stack : (S (stack_dirs (push_subdirs d stack)) = stack_dirs (d :: stack))%nat.
Proof.
  unfold push_subdirs. rewrite stack_dirs_cons. destruct d as [p [[es|]| | | |]]; cbn [snd fst tree_dirs]; try done.
  by rewrite stack_dirs_app, stack_dirs_rev, stack_dirs_subdirs.
Qed.

(** What lies below a stack: its top, what the top pushes, and the rest. *)
Definition below_stack (stack : list (string * Tree)) (d : string) (u : Tree) : Prop :=
  ∃ e, e ∈ stack ∧ below e.1 e.2 d u.
Lemma below_stack_pop d stack x u :
  below_stack (d :: stack) x u ↔ (x = d.1 ∧ u = d.2) ∨ below_stack (push_subdirs d stack) x u.
Proof.
  unfold below_stack, push_subdirs. setoid_rewrite elem_of_cons. split.
  - intros (e & [->|He] & Hb).
    + apply below_front in Hb as [?|(es & y & Ht & Hy & Hb)]; [by left|right].
      rewrite Ht. exists y. split; [|done]. apply elem_of_app. left.
      apply list_elem_of_In. rewrite <- in_rev. by apply list_elem_of_In.
    + right. exists e. split; [|done]. destruct d.2 as [[]| | | |]; try done. apply elem_of_app. by right.
  - intros [[-> ->]|(e & He & Hb)].
    + exists d. split; [by left|constructor].
    + destruct d.2 as [[es|]| | | |] eqn:Ed; try (exists e; by auto).
      apply elem_of_app in He as [He|He]; [|exists e; by auto].
      exists d. split; [by left|]. apply below_front. right. exists es, e. split; [done|]. split; [|done].
      apply list_elem_of_In in He. apply list_elem_of_In. by apply in_rev.
Qed.

Section WalkSpec.
Context `{Fs}.

(** *** Source roots *)

(** [c] is a conventional source root of the module at [d]. *)
Definition source_root_of (root d c : string) : Prop :=
  is_module root d = true ∧ fs_is_dir c = true
  ∧ ∃ sub, sub ∈ CONVENTIONAL_SOURCE_SUBDIRS ∧ c = path_join d sub.

Definition listed (c : string) (l : list string) : Prop := ∃ c', c' ∈ l ∧ path_eq c c' = true.
Definition distinct (l : list string) : Prop := NoDup (path_components <$> l).

Lemma existsb_listed c l : existsb (path_eq c) l = true ↔ listed c l.
Proof. rewrite existsb_exists. unfold listed. by setoid_rewrite list_elem_of_In. Qed.
Lemma listed_app c l k : listed c l → listed c (l ++ k).
Proof. intros (c' & ? & ?). exists c'. split; [apply elem_of_app; by left|done]. Qed.

Lemma add_root_spec dir roots sub :
  ∃ k, add_root dir roots sub = roots ++ k
    ∧ (∀ c, c ∈ k → c = path_join dir sub ∧ fs_is_dir c = true)
    ∧ (fs_is_dir (path_join dir sub) = true → listed (path_join dir sub) (roots ++ k))
    ∧ (distinct roots → distinct (roots ++ k)).
Proof.
  unfold add_root. set (c := path_join dir sub). destruct (fs_is_dir c) eqn:Hd; cbn [andb].
  - destruct (existsb (path_eq c) roots) eqn:Hx; cbn [negb].
    + exists []. rewrite app_nil_r. repeat split; try done; [set_solver|set_solver|].
      intros _. by apply existsb_listed.
    + exists [c]. split; [done|]. split; [set_solver|]. split.
      { intros _. exists c. split; [set_solver|]. by apply bool_decide_eq_true. }
      unfold distinct. rewrite fmap_app, NoDup_app. intros Hn. split; [done|]. split; [|apply NoDup_singleton].
      intros x (c' & -> & Hc')%list_elem_of_fmap E. apply list_elem_of_singleton in E.
      apply not_true_iff_false in Hx. apply Hx, existsb_listed. exists c'. split; [done|].
      by apply bool_decide_eq_true.
  - exists []. rewrite app_nil_r. repeat split; try done; set_solver.
Qed.

Lemma add_roots_spec root dir roots :
  ∃ k, add_roots root dir roots = roots ++ k
    ∧ (∀ c, c ∈ k → source_root_of root dir c)
    ∧ (∀ c, source_root_of root dir c → listed c (roots ++ k))
    ∧ (distinct roots → distinct (roots ++ k)).
Proof.
  unfold add_roots, CONVENTIONAL_SOURCE_SUBDIRS. destruct (is_module root dir) eqn:Hm.
  - cbn [fold_left].
    destruct (add_root_spec dir roots "src/main/java") as (k1 & E1 & S1 & L1 & D1).
    destruct (add_root_spec dir (roots ++ k1) "src/test/java") as (k2 & E2 & S2 & L2 & D2).
    exists (k1 ++ k2). rewrite E1, E2, app_assoc. split; [done|]. split; [|split; [|auto]].
    + intros c [Hc|Hc]%elem_of_app; [apply S1 in Hc as [-> ?]|apply S2 in Hc as [-> ?]];
        (split; [done|split; [done|]]); eexists; (split; [|reflexivity]); unfold CONVENTIONAL_SOURCE_SUBDIRS; set_solver.
    + intros c (_ & Hd & sub & Hs & ->). unfold CONVENTIONAL_SOURCE_SUBDIRS in Hs.
      rewrite !elem_of_cons, elem_of_nil in Hs. destruct Hs as [->|[->|[]]]; [apply listed_app; auto|auto].
  - exists []. rewrite app_nil_r. split; [done|]. split; [set_solver|]. split; [|done].
    intros c (Hm' & _). congruence.
Qed.

Lemma discover_loop_spec budget : ∀ root stack roots,
  ∃ k, discover_loop budget root stack roots = roots ++ k
    ∧ (∀ c, c ∈ k → ∃ d u, below_stack stack d u ∧ source_root_of root d c)
    ∧ ((stack_dirs stack ≤ budget)%nat →
       ∀ d u c, below_stack stack d u → source_root_of root d c → listed c (roots ++ k))
    ∧ (distinct roots → distinct (roots ++ k)).
Proof.
  induction budget as [|n IH]; intros root stack roots.
  - exists []. rewrite app_nil_r. destruct stack as [|d stack]; cbn [discover_loop].
    + repeat split; try done; [set_solver|]. intros _ d u c (e & He & _). set_solver.
    + repeat split; try done; [set_solver|]. rewrite stack_dirs_cons. pose proof (tree_dirs_pos d.2). lia.
  - destruct stack as [|d stack]; cbn [discover_loop].
    { exists []. rewrite app_nil_r. repeat split; try done; [set_solver|]. intros _ d u c (e & He & _). set_solver. }
    destruct (add_roots_spec root d.1 roots) as (k1 & -> & S1 & L1 & D1).
    destruct (IH root (push_subdirs d stack) (roots ++ k1)) as (k2 & -> & S2 & L2 & D2).
    exists (k1 ++ k2). rewrite app_assoc. split; [done|]. split; [|split; [|auto]].
    + intros c [Hc|Hc]%elem_of_app.
      * exists d.1, d.2. split; [apply below_stack_pop; by left|auto].
      * destruct (S2 c Hc) as (x & u & Hb & Hr). exists x, u. split; [apply below_stack_pop; by right|done].
    + intros Hn x u c Hb Hr. apply below_stack_pop in Hb as [[-> ->]|Hb]; [apply listed_app; auto|].
      apply (L2 ltac:(rewrite <- stack_dirs_push in Hn; lia) x u c Hb Hr).
Qed.

(** *** Source files *)

(** The walk without the cap, as a reference. *)
Definition java_here (dir : string) (es : list (string * Tree)) : list string :=
  (λ e, path_join dir e.1) <$>
  List.filter (λ e, match e.2 with TFile => true | _ => false end && negb (skipped_name e.1)
                    && bool_decide (extension e.1 = Some "java")) es.
Definition java_of (d : string * Tree) : list string :=
  match d.2 with TDir (Some es) => java_here d.1 es | _ => [] end.
Fixpoint all_java (fuel : nat) (stack : list (string * Tree)) : list string :=
  match stack, fuel with
  | [], _ | _, O => []
  | d :: stack', S f => java_of d ++ all_java f (push_subdirs d stack')
  end.

Variable max_files : Z.
Hypothesis max_nonneg : 0 ≤ max_files.
Definition cap : nat := Z.to_nat max_files.
Local Notation full := (full max_files).
Local Notation collect_dir := (collect_dir max_files).
Local Notation collect_loop := (collect_loop max_files).
Local Notation collect_root := (collect_root max_files).
Local Notation collect_roots := (collect_roots max_files).
Local Notation collect_source_files := (collect_source_files max_files).

Lemma full_spec out : full out = true ↔ (cap ≤ length out)%nat.
Proof. unfold full, cap. rewrite Z.leb_le. lia. Qed.
Lemma not_full out : full out = false → (length out < cap)%nat.
Proof. intros E%not_true_iff_false. rewrite full_spec in E. lia. Qed.

Lemma collect_dir_spec dir es : ∀ stack out, (length out ≤ cap)%nat →
  let '(st, out', stop) := collect_dir dir es stack out in
  out' = take cap (out ++ java_here dir es)
  ∧ (stop = true → full out' = true)
  ∧ (stop = false → st = rev (subdirs dir es) ++ stack).
Proof.
  induction es as [|[name t] es IH]; intros stack out Ho; cbn [collect_dir].
  - unfold java_here, subdirs. cbn. by rewrite app_nil_r, take_ge.
  - destruct (full out) eqn:Hf.
    { split; [|done]. apply full_spec in Hf. by rewrite take_app_le, take_ge by lia. }
    assert (Hlt := not_full _ Hf).
    destruct t as [o| | | |]; try (apply IH; done);
      unfold java_here, subdirs, walked; cbn [List.filter fst snd is_dir_tree andb];
      destruct (skipped_name name); cbn [negb andb]; try (apply IH; done).
    + specialize (IH ((path_join dir name, TDir o) :: stack) out Ho).
      destruct (collect_dir dir es _ out) as [[st out'] stop]. destruct IH as (? & ? & Hs).
      split; [done|]. split; [done|]. intros E. rewrite (Hs E), fmap_cons. cbn [rev].
      by rewrite <- app_assoc.
    + destruct (bool_decide (extension name = Some "java")); [|by apply IH].
      specialize (IH stack (out ++ [path_join dir name]) ltac:(rewrite length_app; cbn; lia)).
      by rewrite fmap_cons, <- app_assoc in *.
Qed.

(** The capped walk returns the first files of the uncapped one. *)
Lemma collect_loop_spec fuel : ∀ stack out, (length out ≤ cap)%nat → (stack_dirs stack ≤ fuel)%nat →
  let '(out', stop) := collect_loop fuel stack out in
  out' = take cap (out ++ all_java fuel stack) ∧ (stop = true → full out' = true).
Proof.
  induction fuel as [|f IH]; intros [|d stack] out Ho Hf; cbn [collect_loop all_java].
  - by rewrite app_nil_r, take_ge.
  - pose proof (tree_dirs_pos d.2). rewrite stack_dirs_cons in Hf. lia.
  - by rewrite app_nil_r, take_ge.
  - destruct (full out) eqn:Hx.
    { split; [|done]. apply full_spec in Hx. by rewrite take_app_le, take_ge by lia. }
    rewrite <- stack_dirs_push in Hf. unfold push_subdirs, java_of in *.
    destruct d.2 as [[es|]| | | |]; try (apply IH; lia).
    pose proof (collect_dir_spec d.1 es stack out Ho) as Hc.
    destruct (collect_dir d.1 es stack out) as [[st out'] stop]. destruct Hc as (-> & Hs & Hst).
    rewrite app_assoc. destruct stop.
    + split; [|done]. specialize (Hs eq_refl). apply full_spec in Hs. rewrite length_take in Hs.
      by rewrite (take_app_le (out ++ java_here d.1 es)) by lia.
    + rewrite (Hst eq_refl).
      specialize (IH (rev (subdirs d.1 es) ++ stack) (take cap (out ++ java_here d.1 es))
                    ltac:(rewrite length_take; lia) ltac:(lia)).
      destruct (collect_loop f _ _) as [out2 stop]. destruct IH as [-> ?]. split; [|done].
      destruct (decide (cap ≤ length (out ++ java_here d.1 es)))%nat.
      * rewrite (take_app_le (take cap _)), (take_app_le (out ++ java_here d.1 es)), take_take
          by (rewrite ?length_take; lia). by rewrite ?Nat.min_id.
      * by rewrite (take_ge (out ++ java_here d.1 es)) by lia.
Qed.

(** The files of each root not listed before, in order. *)
Fixpoint all_roots (roots seen : list string) : list string :=
  match roots with
  | [] => []
  | root :: roots' =>
      if existsb (path_eq root) seen then all_roots roots' seen
      else all_java (tree_dirs (fs_tree root)) [(root, fs_tree root)] ++ all_roots roots' (root :: seen)
  end.

Lemma collect_roots_spec roots : ∀ seen out, (length out ≤ cap)%nat →
  collect_roots roots seen out = take cap (out ++ all_roots roots seen).
Proof.
  induction roots as [|root roots IH]; intros seen out Ho; cbn [collect_roots all_roots].
  - by rewrite app_nil_r, take_ge.
  - destruct (existsb (path_eq root) seen); [by apply IH|]. unfold collect_root.
    pose proof (collect_loop_spec (tree_dirs (fs_tree root)) [(root, fs_tree root)] out Ho
                  ltac:(rewrite stack_dirs_cons; cbn [snd]; change (stack_dirs []) with O; lia)) as Hc.
    destruct (collect_loop _ _ out) as [out' stop]. destruct Hc as [-> Hs].
    set (l := all_java _ _) in *. rewrite app_assoc. destruct stop.
    + specialize (Hs eq_refl). apply full_spec in Hs. rewrite length_take in Hs.
      by rewrite (take_app_le (out ++ l)) by lia.
    + rewrite IH by (rewrite length_take; lia).
      destruct (decide (cap ≤ length (out ++ l)))%nat.
      * rewrite (take_app_le (take cap _)), (take_app_le (out ++ l)), take_take
          by (rewrite ?length_take; lia). by rewrite ?Nat.min_id.
      * by rewrite (take_ge (out ++ l)) by lia.
Qed.

(** [f] is a [.java] file in a directory the walk passes through. *)
Definition java_file (p : string) (t : Tree) (f : string) : Prop :=
  ∃ d es name, below p t d (TDir (Some es)) ∧ (name, TFile) ∈ es ∧ skipped_name name = false
    ∧ extension name = Some "java" ∧ f = path_join d name.

Lemma elem_java_of d f :
  f ∈ java_of d ↔ ∃ es name, d.2 = TDir (Some es) ∧ (name, TFile) ∈ es ∧ skipped_name name = false
    ∧ extension name = Some "java" ∧ f = path_join d.1 name.
Proof.
  unfold java_of, java_here. split.
  - destruct d.2 as [[es|]| | | |]; try (intros Hf; by apply elem_of_nil in Hf).
    intros ([name t] & -> & He)%list_elem_of_fmap. apply list_elem_of_In, filter_In in He as [He Hc].
    rewrite !andb_true_iff, negb_true_iff, bool_decide_eq_true in Hc. cbn [fst snd] in *.
    destruct Hc as [[Ht Hs] Hx]. destruct t; try done. apply list_elem_of_In in He. by exists es, name.
  - intros (es & name & -> & He & Hs & Hx & ->). apply list_elem_of_fmap. exists (name, TFile). split; [done|].
    apply list_elem_of_In, filter_In. split; [by apply list_elem_of_In|]. cbn. rewrite Hs.
    by apply bool_decide_eq_true.
Qed.

Lemma elem_all_java fuel : ∀ stack f, (stack_dirs stack ≤ fuel)%nat →
  f ∈ all_java fuel stack ↔ ∃ d u, below_stack stack d u ∧ f ∈ java_of (d, u).
Proof.
  induction fuel as [|n IH]; intros [|d stack] f Hf; cbn [all_java].
  - split; [by intros ?%elem_of_nil|]. intros (d & u & (e & He & _) & _). by apply elem_of_nil in He.
  - pose proof (tree_dirs_pos d.2). rewrite stack_dirs_cons in Hf. lia.
  - split; [by intros ?%elem_of_nil|]. intros (d & u & (e & He & _) & _). by apply elem_of_nil in He.
  - rewrite <- stack_dirs_push in Hf. rewrite elem_of_app, IH by lia.
    setoid_rewrite below_stack_pop. destruct d as [p t]. cbn [fst snd]. naive_solver.
Qed.

Lemma elem_all_java_root root f :
  f ∈ all_java (tree_dirs (fs_tree root)) [(root, fs_tree root)] ↔ java_file root (fs_tree root) f.
Proof.
  rewrite elem_all_java by (rewrite stack_dirs_cons; cbn [snd]; change (stack_dirs []) with O; lia).
  unfold below_stack, java_file. setoid_rewrite elem_java_of. setoid_rewrite list_elem_of_singleton.
  split.
  - intros (d & u & (e & -> & Hb) & es & name & Hu & ?). cbn [fst snd] in *. subst u. by exists d, es, name.
  - intros (d & es & name & Hb & Hr). exists d, (TDir (Some es)). split; [by eexists|]. by exists es, name.
Qed.

Lemma elem_all_roots roots : ∀ seen f,
  (f ∈ all_roots roots seen → ∃ root, root ∈ roots ∧ java_file root (fs_tree root) f)
  ∧ (∀ root, root ∈ roots → ¬ listed root seen →
     ∃ root', root' ∈ roots ∧ path_eq root root' = true
       ∧ (java_file root' (fs_tree root') f → f ∈ all_roots roots seen)).
Proof.
  induction roots as [|r roots IH]; intros seen f; cbn [all_roots]; [split; set_solver|].
  destruct (existsb (path_eq r) seen) eqn:Hx.
  - destruct (IH seen f) as [IH1 IH2]. split.
    + intros Hf. destruct (IH1 Hf) as (root & ? & ?). exists root. split; [by right|done].
    + intros root [->|Hr]%elem_of_cons Hl; [by apply existsb_listed in Hx|].
      destruct (IH2 root Hr Hl) as (root' & ? & ? & ?). exists root'. split; [by right|done].
  - destruct (IH (r :: seen) f) as [IH1 IH2]. split.
    + intros [Hf|Hf]%elem_of_app.
      * exists r. split; [by left|by apply elem_all_java_root].
      * destruct (IH1 Hf) as (root & ? & ?). exists root. split; [by right|done].
    + intros root Hr Hl. destruct (path_eq root r) eqn:He.
      { exists r. split; [by left|]. split; [done|]. intros Hj. apply elem_of_app. left. by apply elem_all_java_root. }
      apply elem_of_cons in Hr as [->|Hr]; [unfold path_eq in He; by rewrite bool_decide_eq_true_2 in He|].
      destruct (IH2 root Hr) as (root' & ? & ? & Hin).
      { intros (c & Hc & Hp). apply elem_of_cons in Hc as [->|Hc]; [congruence|]. apply Hl. by exists c. }
      exists root'. split; [by right|]. split; [done|]. intros Hj. apply elem_of_app. right. auto.
Qed.

Lemma collect_source_files_spec roots :
  let out := collect_source_files roots in
  Z.of_nat (length out) ≤ max_files
  ∧ (∀ f, f ∈ out → ∃ root, root ∈ roots ∧ java_file root (fs_tree root) f)
  ∧ (Z.of_nat (length out) < max_files → ∀ root f, root ∈ roots →
     ∃ root', root' ∈ roots ∧ path_eq root root' = true
       ∧ (java_file root' (fs_tree root') f → f ∈ out)).
Proof.
  intros out. subst out. unfold collect_source_files.
  rewrite collect_roots_spec by (cbn; lia). cbn [app]. rewrite length_take.
  unfold cap. split; [lia|]. split.
  - intros f Hf. eapply elem_all_roots, subseteq_take, Hf.
  - intros Hl root f Hr. rewrite take_ge by lia.
    apply elem_all_roots; [done|]. intros (c & Hc & _). by apply elem_of_nil in Hc.
Qed.

End WalkSpec.

(** ** Properties *)

(** Source-root discovery is exact: every root it returns is an existing
    conventional source directory of the project root or of a module (a
    directory with a build file) reachable without entering hidden,
    build-output or symlinked directories; no root is listed twice; and
    unless more than 50000 directories are reachable, none is missed. *)
Theorem discover_source_roots_exact `{Fs} root :
  let found := discover_source_roots root in
  let reachable d := ∃ u, below root (fs_tree root) d u in
  distinct found
  ∧ (∀ c, c ∈ found → ∃ d, reachable d ∧ source_root_of root d c)
  ∧ (Z.of_nat (tree_dirs (fs_tree root)) ≤ MAX_MODULE_SCAN_DIRS →
     ∀ d c, reachable d → source_root_of root d c → listed c found).
Proof.
  intros found reachable. subst found. unfold discover_source_roots.
  destruct (discover_loop_spec (Z.to_nat MAX_MODULE_SCAN_DIRS) root [(root, fs_tree root)] [])
    as (k & -> & Hs & Hc & Hd). cbn [app] in *. split; [apply Hd; constructor|]. split.
  - intros c Hk. destruct (Hs c Hk) as (d & u & (e & ->%list_elem_of_singleton & Hb) & Hr).
    exists d. split; [by exists u|done].
  - intros Hn d c [u Hb] Hr. eapply Hc; [|by eexists; split; [by apply list_elem_of_singleton|]|done].
    rewrite stack_dirs_cons. change (stack_dirs []) with O. cbn [snd]. lia.
Qed.

(** Source collection is the uncapped walk cut at 10000 files: every file
    returned is a [.java] file reachable from one of the roots without
    entering hidden, build-output or symlinked directories, and as long as
    the cap is not reached every such file below a root is returned (under
    the first spelling of that root). *)
Theorem collect_source_files_exact `{Fs} roots :
  let out := collect_source_files MAX_SOURCE_FILES roots in
  Z.of_nat (length out) ≤ MAX_SOURCE_FILES
  ∧ (∀ f, f ∈ out → ∃ root, root ∈ roots ∧ java_file root (fs_tree root) f)
  ∧ (Z.of_nat (length out) < MAX_SOURCE_FILES → ∀ root f, root ∈ roots →
     ∃ root', root' ∈ roots ∧ path_eq root root' = true
       ∧ (java_file root' (fs_tree root') f → f ∈ out)).
Proof. by apply collect_source_files_spec. Qed.
