(* ===== verification/Launch.v ===== *)
(** * Launch support ([crates/debug/src/launch.rs])

    JDK lookup, the [javac] run of the auto-compile fallback and classpath
    assembly, over the walks of [LaunchWalk].  The operating system and the
    classpath crate are interfaces; the scratch directories that exist are
    the state.  [launch_support] makes the whole an implementation of the
    interface the debug session is verified against. *)
From Stdlib Require Import Ascii.
From S2P Require Import Prelude RustStd Paths DapPure DapSession LaunchWalk.

(** A [javac] child: what the k-th [try_wait] says (an error, still running,
    or an exit with success or not), the time of that poll since the start in
    milliseconds (each poll follows a sleep of [POLL_INTERVAL]), and what its
    stderr pipe yields read by read. *)
Definition POLL_INTERVAL : Z := 50.
Definition COMPILE_TIMEOUT : Z := 120000.
Definition STDERR_CAP : Z := 64 * 1024.

Record JavacChild := mkJavacChild {
  try_wait : nat → Result string (option bool);
  elapsed : nat → Z;
  stderr_reads : list (list Z);
  elapsed_sleeps : ∀ k, POLL_INTERVAL * Z.of_nat k ≤ elapsed k
}.

Class LaunchOs := {
  #[global] os_fs :: Fs;
  os_windows : bool;
  os_java_home : option string;
  os_join_paths : list string → Result string string;
  os_write : string → string → Result string unit;
  os_spawn : string → list string → Result string JavacChild;
  os_temp_dir : string;
  os_pid : Z;
  os_nanos : nat → Z;                   (** the clock at each attempt *)
  os_create_refused : string → bool;    (** other reasons for [create_dir] to fail *)
  os_remove_refused : string → bool;    (** [remove_dir_all] fails, which is ignored *)
}.

(** The classpath crate, as the launcher uses it. *)
Class ClasspathCrate := {
  best_jdk : option string;
  project_entries : string → list string;
  project_source_roots : string → list string;
  module_output_dirs : string → list string;
  module_test_output_dirs : string → list string;
}.

Section Launch.
Context `{LaunchOs} `{ClasspathCrate}.

(** ** JDK binaries *)

Definition locate_jdk_exe (jdk_home_override : option string) (exe : string) : option string :=
  let exe_name := if os_windows then exe +:+ ".exe" else exe in
  let bin home := path_join (path_join home "bin") exe_name in
  let probe home := if fs_is_file (bin home) then Some (bin home) else None in
  match jdk_home_override with
  | Some home => probe home
  | None =>
      match os_java_home ≫= probe with
      | Some candidate => Some candidate
      | None => best_jdk ≫= probe
      end
  end.
Definition locate_java (o : option string) : option string := locate_jdk_exe o "java".
Definition locate_javac (o : option string) : option string := locate_jdk_exe o "javac".

(** ** The argument file *)

Definition argfile_line (file : string) : string :=
  let escaped := replace_char (ascii_of_N 34) (backslash +:+ quote)
                   (replace_char (ascii_of_N 92) (backslash +:+ backslash) file) in
  quote +:+ escaped +:+ quote +:+ newline.
Definition argfile_content (files : list string) : string :=
  foldr (λ f s, argfile_line f +:+ s) "" files.
Definition write_argfile (path : string) (files : list string) : Result string unit :=
  os_write path (argfile_content files).

(** ** The compiler run *)

Definition javac_argv (jars : option string) (scratch argfile : string) : list string :=
  ["-g"; "-proc:none"; "-encoding"; "UTF-8"]
  ++ match jars with Some joined => ["-cp"; joined] | None => [] end
  ++ ["-d"; scratch; "@" +:+ argfile].

(** The stderr thread: keep what fits, drain the rest. *)
Definition capture (reads : list (list Z)) : list Z :=
  fold_left (λ captured buf,
      let room := saturating_sub STDERR_CAP (Z.of_nat (length captured)) in
      captured ++ take (Z.to_nat (Z.min (Z.of_nat (length buf)) room)) buf) reads [].

(** How the poll loop ends: the exit status, a kill and reap at the timeout,
    or a failed [try_wait]. *)
Inductive PollEnd := PExited (success : bool) | PKilled | PWaitError.
Fixpoint poll_loop (fuel : nat) (c : JavacChild) (k : nat) : PollEnd :=
  match fuel with
  | O => PKilled
  | S f =>
      match try_wait c k with
      | Ok (Some success) => PExited success
      | Ok None => if COMPILE_TIMEOUT <=? elapsed c k then PKilled else poll_loop f c (S k)
      | Err _ => PWaitError
      end
  end.
Definition MAX_POLLS : nat := S (Z.to_nat (COMPILE_TIMEOUT / POLL_INTERVAL)).
Definition poll_child (c : JavacChild) : PollEnd := poll_loop MAX_POLLS c 0.

Definition run_javac (javac : string) (sources jars : list string) (scratch : string) :
    Result string unit :=
  let argfile := path_join scratch "sources.txt" in
  match write_argfile argfile sources with
  | Err e => Err ("could not write javac argfile: " +:+ e)
  | Ok _ =>
      joined ← (if bool_decide (jars = []) then Ok None
                else map_err (λ e, "unrepresentable classpath entry: " +:+ e)
                       (Some <$> os_join_paths jars));
      match os_spawn javac (javac_argv joined scratch argfile) with
      | Err e => Err ("could not run javac: " +:+ e)
      | Ok child =>
          let status := poll_child child in
          let stderr := from_utf8_lossy (capture (stderr_reads child)) in
          match status with
          | PExited true => Ok ()
          | PExited false => Err stderr
          | PKilled | PWaitError =>
              Err ("javac timed out after " +:+ pretty (COMPILE_TIMEOUT / 1000) +:+ "s"
                   +:+ newline +:+ stderr)
          end
      end
  end.

(** ** Scratch directories

    The server's check makes its directories the same way, under another
    [prefix]. *)

Definition scratch_name (prefix : string) (attempt : nat) : string :=
  path_join os_temp_dir
    (prefix +:+ pretty os_pid +:+ "-" +:+ pretty (os_nanos attempt) +:+ "-"
     +:+ pretty (Z.of_nat attempt)).
(** [create_dir] fails on anything that exists. *)
Definition create_dir (dir : string) (dirs : gset string) : option (gset string) :=
  if bool_decide (dir ∈ dirs) || os_create_refused dir then None else Some ({[dir]} ∪ dirs).
Fixpoint scratch_attempts (prefix : string) (n attempt : nat) (dirs : gset string) : option string * gset string :=
  match n with
  | O => (None, dirs)
  | S n' =>
      let dir := scratch_name prefix attempt in
      match create_dir dir dirs with
      | Some dirs' => (Some dir, dirs')
      | None => scratch_attempts prefix n' (S attempt) dirs
      end
  end.
Definition create_fresh_scratch_dir (dirs : gset string) : option string * gset string :=
  scratch_attempts "jvl-debug-" 8 0 dirs.

Definition remove_dir_all (dir : string) (dirs : gset string) : gset string :=
  if os_remove_refused dir then dirs else dirs ∖ {[dir]}.

(** ** Classpath assembly *)

Definition class_paths_literal : string := quote +:+ "classPaths" +:+ quote.
Definition no_root_message : string :=
  "No classPaths given and no projectRoot to derive them from. Set " +:+ class_paths_literal
  +:+ " in launch.json or open a project folder.".
Definition no_sources_message (root : string) : string :=
  "No Java sources found under " +:+ root +:+ " (looked in src/main/java, src/test/java). "
  +:+ "Build the project with Maven/Gradle first or set " +:+ class_paths_literal +:+ " in launch.json.".

Definition merge_roots (root : string) : list string :=
  fold_left (λ roots d, if existsb (path_eq d) roots then roots else roots ++ [d])
    (discover_source_roots root) (project_source_roots root).
Definition existing (dirs : list string) : list string := List.filter fs_is_dir dirs.
Definition existing_test_outputs (root : string) (include_test_outputs : bool) : list string :=
  if include_test_outputs then existing (module_test_output_dirs root) else [].
Definition derived_usable (root : string) (include_test_outputs : bool) : bool :=
  negb (bool_decide (existing (module_output_dirs root) = []))
  && (negb include_test_outputs
      || negb (bool_decide (existing_test_outputs root include_test_outputs = []))).

(** The fallback: compile everything into a fresh scratch directory, which a
    failed build removes again. *)
Definition auto_compile (root : string) (classpath source_roots : list string)
    (jdk : option string) (dirs : gset string) : Result ClasspathError ClasspathPlan * gset string :=
  match locate_javac jdk with
  | None => (Err (mkClasspathError ("Project is not built and no JDK was found for the auto-compile "
               +:+ "fallback. Set java-vsix-lite.jdk.home.") None), dirs)
  | Some javac =>
      let sources := collect_source_files MAX_SOURCE_FILES source_roots in
      if bool_decide (sources = []) then (Err (mkClasspathError (no_sources_message root) None), dirs)
      else
        match create_fresh_scratch_dir dirs with
        | (None, dirs) =>
            (Err (mkClasspathError
               "Could not create a temporary directory for the auto-compile output." None), dirs)
        | (Some scratch, dirs) =>
            match run_javac javac sources (project_entries root) scratch with
            | Ok _ => (Ok (mkClasspathPlan (classpath ++ scratch :: project_entries root)
                             source_roots (Some scratch)), dirs)
            | Err stderr =>
                (Err (mkClasspathError ("Build failed. Fix compile errors or build the project with "
                   +:+ "Maven/Gradle first.") (Some stderr)), remove_dir_all scratch dirs)
            end
        end
  end.

Definition assemble_classpath (project_root : option string) (explicit : list string)
    (include_test_outputs : bool) (additional : list string) (jdk : option string)
    (dirs : gset string) : Result ClasspathError ClasspathPlan * gset string :=
  match explicit with
  | _ :: _ =>
      (Ok (mkClasspathPlan (additional ++ explicit)
             (match project_root with Some root => discover_source_roots root | None => [] end) None), dirs)
  | [] =>
      match project_root with
      | None => (Err (mkClasspathError no_root_message None), dirs)
      | Some root =>
          let source_roots := merge_roots root in
          if derived_usable root include_test_outputs then
            (Ok (mkClasspathPlan
                   (additional ++ existing (module_output_dirs root)
                    ++ existing_test_outputs root include_test_outputs ++ project_entries root)
                   source_roots None), dirs)
          else auto_compile root additional source_roots jdk dirs
      end
  end.

(** The launcher as the session sees it: a call returns what it computes;
    [dirs_of] are the scratch directories that exist when it is made. *)
Definition launch_support (dirs_of : Session → gset string) : LaunchSupport := {|
  DapSession.locate_java _ o := locate_java o;
  DapSession.assemble_classpath s root explicit tests additional jdk :=
    Ok (assemble_classpath root explicit tests additional jdk (dirs_of s)).1;
  DapSession.discover_source_roots _ root := discover_source_roots root;
|}.

End Launch.

(** ** How argument files are read

    The format the JDK documents for [@argfile]s, byte by byte: arguments are
    separated by blanks and line ends; quotes group; inside them a backslash
    escapes the next byte (or joins the next line); an open quote stops at
    the end of its line.  A leading [#] starts a comment line. *)
Inductive QuoteMode := QOut | QIn (q : Z) | QEscape (q : Z) | QJoin (q : Z) | QComment.

Definition is_eol (c : Z) : bool := (c =? 10) || (c =? 13).
Definition is_blank (c : Z) : bool := (c =? 32) || (c =? 9) || (c =? 12).
Definition is_quote (c : Z) : bool := (c =? 34) || (c =? 39).
Definition escaped_byte (c : Z) : Z :=
  if c =? 110 then 10 else if c =? 116 then 9 else if c =? 114 then 13 else if c =? 102 then 12 else c.

Definition flush (cur : option (list Z)) : list (list Z) := match cur with Some a => [a] | None => [] end.
Definition grow (cur : option (list Z)) (c : Z) : option (list Z) := Some (default [] cur ++ [c]).

Fixpoint argfile_args (s : list Z) (mode : QuoteMode) (cur : option (list Z)) : list (list Z) :=
  match s with
  | [] => flush cur
  | c :: s' =>
      match mode with
      | QEscape q => if is_eol c then argfile_args s' (QJoin q) cur
                     else argfile_args s' (QIn q) (grow cur (escaped_byte c))
      | QJoin q => if is_blank c || is_eol c then argfile_args s' (QJoin q) cur
                   else if c =? q then argfile_args s' QOut cur
                   else if c =? 92 then argfile_args s' (QEscape q) cur
                   else argfile_args s' (QIn q) (grow cur c)
      | QComment => argfile_args s' (if is_eol c then QOut else QComment) None
      | QIn q => if is_eol c then flush cur ++ argfile_args s' QOut None
                 else if c =? q then argfile_args s' QOut cur
                 else if c =? 92 then argfile_args s' (QEscape q) cur
                 else argfile_args s' (QIn q) (grow cur c)
      | QOut => if is_eol c || is_blank c then flush cur ++ argfile_args s' QOut None
                else if is_quote c then argfile_args s' (QIn c) (Some (default [] cur))
                else if (c =? 35) && bool_decide (cur = None) then argfile_args s' QComment None
                else argfile_args s' QOut (grow cur c)
      end
  end.

(** ** Lemmas *)

Definition escape_byte (c : Z) : list Z :=
  if c =? 92 then [92; 92] else if c =? 34 then [92; 34] else [c].

Lemma replace_chars_app p r s t :
  replace_chars p r (s +:+ t) = replace_chars p r s +:+ replace_chars p r t.
Proof.
  induction s as [|a s IH]; [done|]. change (String a s +:+ t) with (String a (s +:+ t)).
  cbn [replace_chars]. destruct (p a); rewrite IH; [by rewrite str_app_assoc|done].
Qed.

Lemma escape_bytes s :
  as_bytes (replace_char (ascii_of_N 34) (backslash +:+ quote)
              (replace_char (ascii_of_N 92) (backslash +:+ backslash) s))
  = flat_map escape_byte (as_bytes s).
Proof.
  unfold replace_char. induction s as [|a s IH]; [done|]. cbn [as_bytes flat_map replace_chars].
  rewrite <- IH. clear IH. set (r := replace_chars (Ascii.eqb (ascii_of_N 92)) _ s). unfold escape_byte.
  destruct (Ascii.eqb_spec (ascii_of_N 92) a) as [<-|N1].
  { rewrite replace_chars_app, as_bytes_app. reflexivity. }
  cbn [replace_chars]. destruct (Ascii.eqb_spec (ascii_of_N 34) a) as [<-|N2].
  { rewrite as_bytes_app. reflexivity. }
  rewrite !(proj2 (Z.eqb_neq _ _)); [done| |].
  - intros E%(f_equal ascii_of_byte). apply N2. by rewrite ascii_of_byte_of_ascii in E.
  - intros E%(f_equal ascii_of_byte). apply N1. by rewrite ascii_of_byte_of_ascii in E.
Qed.

Lemma argfile_line_bytes file :
  as_bytes (argfile_line file) = 34 :: flat_map escape_byte (as_bytes file) ++ [34; 10].
Proof.
  unfold argfile_line. rewrite !as_bytes_app.
  change (as_bytes quote) with [34]. change (as_bytes newline) with [10]. cbn [app].
  rewrite escape_bytes. done.
Qed.

Definition one_line (file : string) : Prop := Forall (λ c, is_eol c = false) (as_bytes file).

Lemma args_escaped l : ∀ rest cur, Forall (λ c, is_eol c = false) l →
  argfile_args (flat_map escape_byte l ++ rest) (QIn 34) (Some cur) = argfile_args rest (QIn 34) (Some (cur ++ l)).
Proof.
  induction l as [|c l IH]; intros rest cur Hl; cbn [flat_map app]; [by rewrite app_nil_r|].
  inversion Hl as [|? ? Hc Hl']; subst. unfold escape_byte at 1.
  destruct (Z.eqb_spec c 92) as [->|N1]; [|destruct (Z.eqb_spec c 34) as [->|N2]]; cbn [app].
  - change (argfile_args (92 :: 92 :: ?s) (QIn 34) (Some cur)) with (argfile_args s (QIn 34) (Some (cur ++ [92]))).
    rewrite IH by done. by rewrite <- app_assoc.
  - change (argfile_args (92 :: 34 :: ?s) (QIn 34) (Some cur)) with (argfile_args s (QIn 34) (Some (cur ++ [34]))).
    rewrite IH by done. by rewrite <- app_assoc.
  - cbn [argfile_args]. rewrite Hc, (proj2 (Z.eqb_neq _ _) N2), (proj2 (Z.eqb_neq _ _) N1). change (grow (Some cur) c) with (Some (cur ++ [c])).
    rewrite IH by done. by rewrite <- app_assoc.
Qed.

Lemma args_line file rest : one_line file →
  argfile_args (as_bytes (argfile_line file) ++ rest) QOut None = as_bytes file :: argfile_args rest QOut None.
Proof.
  intros Hl. rewrite argfile_line_bytes. cbn [app]. rewrite <- app_assoc.
  change (argfile_args (34 :: ?s) QOut None) with (argfile_args s (QIn 34) (Some [])).
  by rewrite args_escaped.
Qed.

Lemma capture_spec reads : capture reads = take (Z.to_nat STDERR_CAP) (concat reads).
Proof.
  unfold capture. cut (∀ acc, (length acc ≤ Z.to_nat STDERR_CAP)%nat →
    fold_left (λ captured buf,
      let room := saturating_sub STDERR_CAP (Z.of_nat (length captured)) in
      captured ++ take (Z.to_nat (Z.min (Z.of_nat (length buf)) room)) buf) reads acc
    = take (Z.to_nat STDERR_CAP) (acc ++ concat reads)); [intros E; apply E; cbn; lia|].
  induction reads as [|b reads IH]; intros acc Ha; cbn [fold_left concat]; [by rewrite app_nil_r, take_ge|].
  assert (0 ≤ STDERR_CAP) by done.
  assert (E : take (Z.to_nat (Z.min (Z.of_nat (length b)) (saturating_sub STDERR_CAP (Z.of_nat (length acc))))) b
              = take (Z.to_nat STDERR_CAP - length acc) b).
  { unfold saturating_sub. destruct (decide (length b ≤ Z.to_nat STDERR_CAP - length acc)%nat).
    - by rewrite !take_ge by lia.
    - f_equal. lia. }
  cbn zeta. rewrite E, IH by (rewrite length_app, length_take; lia). by apply take_fill.
Qed.

Lemma poll_loop_spec c fuel : ∀ k, (MAX_POLLS ≤ k + fuel)%nat → (k < MAX_POLLS)%nat →
  (∀ j, (j < k)%nat → try_wait c j = Ok None ∧ elapsed c j < COMPILE_TIMEOUT) →
  ∃ n, (n < MAX_POLLS)%nat
    ∧ (∀ j, (j < n)%nat → try_wait c j = Ok None ∧ elapsed c j < COMPILE_TIMEOUT)
    ∧ match poll_loop fuel c k with
      | PExited b => try_wait c n = Ok (Some b)
      | PKilled => try_wait c n = Ok None ∧ COMPILE_TIMEOUT ≤ elapsed c n
      | PWaitError => ∃ e, try_wait c n = Err e
      end.
Proof.
  induction fuel as [|f IH]; intros k Hf Hk Hp; cbn [poll_loop]; [lia|].
  destruct (try_wait c k) as [[b|]|e] eqn:E; [by exists k| |by exists k; eauto].
  destruct (Z.leb_spec COMPILE_TIMEOUT (elapsed c k)) as [Ht|Ht]; [by exists k|].
  apply IH; [lia| |].
  - pose proof (elapsed_sleeps c k). change MAX_POLLS with (S (Z.to_nat 2400)) in *. unfold COMPILE_TIMEOUT, POLL_INTERVAL in *. lia.
  - intros j Hj. destruct (decide (j = k)) as [->|]; [done|]. apply Hp. lia.
Qed.

Section LaunchSpec.
Context `{LaunchOs} `{ClasspathCrate}.

Lemma scratch_attempts_spec prefix n : ∀ attempt dirs,
  match scratch_attempts prefix n attempt dirs with
  | (Some dir, dirs') => dir ∉ dirs ∧ dirs' = {[dir]} ∪ dirs
  | (None, dirs') => dirs' = dirs
  end.
Proof.
  induction n as [|n IH]; intros attempt dirs; cbn [scratch_attempts]; [done|].
  unfold create_dir. destruct (bool_decide_reflect (scratch_name prefix attempt ∈ dirs)); cbn [orb]; [apply IH|].
  destruct (os_create_refused (scratch_name prefix attempt)); [apply IH|done].
Qed.

(** What a plan's classpath holds after the additional entries, and what the
    call leaves on disk. *)
Definition plan_sound (root : option string) (explicit : list string) (tests : bool)
    (additional : list string) (dirs dirs' : gset string) (plan : ClasspathPlan) : Prop :=
  ∃ rest, cp_classpath plan = additional ++ rest
    ∧ (explicit ≠ [] → rest = explicit)
    ∧ (explicit = [] → ∃ r, root = Some r
        ∧ (∀ jar, jar ∈ project_entries r → jar ∈ rest)
        ∧ (tests = true → ∃ d, d ∈ rest
             ∧ (d ∈ module_test_output_dirs r ∧ fs_is_dir d = true ∨ cp_scratch_dir plan = Some d)))
    ∧ match cp_scratch_dir plan with
      | Some d => d ∈ rest ∧ d ∉ dirs ∧ dirs' = {[d]} ∪ dirs
      | None => dirs' = dirs
      end.

Lemma elem_existing d ds : d ∈ existing ds ↔ d ∈ ds ∧ fs_is_dir d = true.
Proof. unfold existing. rewrite !list_elem_of_In. apply filter_In. Qed.

Lemma auto_compile_spec root additional source_roots jdk dirs :
  match auto_compile root additional source_roots jdk dirs with
  | (Ok plan, dirs') =>
      ∃ d, cp_scratch_dir plan = Some d ∧ d ∉ dirs ∧ dirs' = {[d]} ∪ dirs
        ∧ cp_classpath plan = additional ++ d :: project_entries root
  | (Err _, dirs') => dirs' = dirs ∨ ∃ d, os_remove_refused d = true ∧ dirs' = {[d]} ∪ dirs
  end.
Proof.
  unfold auto_compile. destruct (locate_javac jdk) as [javac|]; [|by left].
  case_bool_decide; [by left|]. unfold create_fresh_scratch_dir.
  pose proof (scratch_attempts_spec "jvl-debug-" 8 0 dirs) as Hs.
  destruct (scratch_attempts "jvl-debug-" 8 0 dirs) as [[d|] dirs1]; [|by left]. destruct Hs as [Hd ->].
  destruct (run_javac javac _ _ d) as [[]|stderr]; [by exists d|].
  unfold remove_dir_all. destruct (os_remove_refused d) eqn:Hr; [right; by exists d|left; set_solver].
Qed.

(** A derived class path holds the project's jars. *)
Lemma derived_entries root tests additional jdk dirs plan dirs' jar :
  assemble_classpath (Some root) [] tests additional jdk dirs = (Ok plan, dirs') →
  jar ∈ project_entries root → ∃ rest, cp_classpath plan = additional ++ rest ∧ jar ∈ rest.
Proof.
  intros Hplan Hin. unfold assemble_classpath in Hplan. destruct (derived_usable root tests).
  - injection Hplan as <- _. eexists. split; [reflexivity|]. set_solver.
  - pose proof (auto_compile_spec root additional (merge_roots root) jdk dirs) as Hs. rewrite Hplan in Hs.
    destruct Hs as (d & _ & _ & _ & ->). eexists. split; [reflexivity|]. set_solver.
Qed.

End LaunchSpec.

(** ** Properties *)

(** An argument file carries the source paths to [javac] unchanged: read
    back in the documented argument-file format it gives exactly the paths,
    in order, whatever blanks, quotes, backslashes or [#] they contain, as
    long as none contains a line end. *)
Theorem argfile_roundtrip files :
  Forall one_line files →
  argfile_args (as_bytes (argfile_content files)) QOut None = as_bytes <$> files.
Proof.
  induction 1 as [|f files Hf _ IH]; [done|]. unfold argfile_content in *. cbn [foldr].
  rewrite as_bytes_app, args_line by done. by rewrite IH.
Qed.

(** A line end in a path is not escaped: a source below a directory whose
    name contains line ends hands [javac] an argument of the directory's
    choosing, after the mandatory [-proc:none]. *)
Theorem argfile_newline_injection :
  argfile_args (as_bytes (argfile_content
    ["/p/src/main/java/x" +:+ newline +:+ "-proc:full" +:+ newline +:+ "y/A.java"])) QOut None
  = as_bytes <$> ["/p/src/main/java/x"; "-proc:full"; "y/A.java"].
Proof. vm_compute. reflexivity. Qed.

(** The compiler never outlives its supervision: the poll loop ends within
    2401 polls, at the first poll that shows an exit, a failed wait, or 120
    seconds gone (and then the child is killed), and of its stderr exactly
    the first 64 KiB are kept. *)
Theorem javac_supervised child :
  (∃ n, (n ≤ 2400)%nat
    ∧ (∀ j, (j < n)%nat → try_wait child j = Ok None ∧ elapsed child j < COMPILE_TIMEOUT)
    ∧ match poll_child child with
      | PExited b => try_wait child n = Ok (Some b)
      | PKilled => try_wait child n = Ok None ∧ COMPILE_TIMEOUT ≤ elapsed child n
      | PWaitError => ∃ e, try_wait child n = Err e
      end)
  ∧ capture (stderr_reads child) = take (Z.to_nat STDERR_CAP) (concat (stderr_reads child)).
Proof.
  split; [|apply capture_spec].
  destruct (poll_loop_spec child MAX_POLLS 0) as (n & Hn & Hr); [lia|unfold MAX_POLLS; lia|lia|].
  exists n. split; [|done]. change MAX_POLLS with (S (Z.to_nat 2400)) in Hn. lia.
Qed.

(** A launch plan is sound: the additional entries come first; explicit
    class paths are used exactly; a derived plan holds every dependency and,
    for a test run, a directory of built or freshly compiled test classes;
    and a scratch directory is one that did not exist before, is on the
    classpath, and is the only thing left on disk.  A failed assembly leaves
    nothing behind, unless the system refuses to remove the directory. *)
Theorem classpath_plan_sound `{LaunchOs} `{ClasspathCrate} root explicit tests additional jdk dirs :
  match assemble_classpath root explicit tests additional jdk dirs with
  | (Ok plan, dirs') => plan_sound root explicit tests additional dirs dirs' plan
  | (Err _, dirs') => dirs' = dirs ∨ ∃ d, os_remove_refused d = true ∧ dirs' = {[d]} ∪ dirs
  end.
Proof.
  unfold assemble_classpath, plan_sound. destruct explicit as [|e es]; [|by exists (e :: es)].
  destruct root as [root|]; [|by left]. destruct (derived_usable root tests) eqn:Hd.
  - eexists. split; [reflexivity|]. split; [done|]. split; [|done].
    intros _. exists root. split; [done|]. split; [set_solver|]. intros ->.
    unfold derived_usable in Hd. rewrite andb_true_iff, negb_true_iff in Hd. destruct Hd as [_ Hd].
    cbn [negb orb] in Hd. rewrite negb_true_iff, bool_decide_eq_false in Hd.
    destruct (existing_test_outputs root true) as [|d ds] eqn:E; [done|]. exists d.
    split; [set_solver|]. left. apply elem_existing. unfold existing_test_outputs in E. rewrite E. by left.
  - pose proof (auto_compile_spec root additional (merge_roots root) jdk dirs) as Ha.
    destruct (auto_compile root additional _ jdk dirs) as [[p|e] dirs']; [|done].
    destruct Ha as (d & Hs & Hn & -> & Hc).
    exists (d :: project_entries root). split; [done|]. split; [done|]. rewrite Hs. split; [|set_solver].
    intros _. exists root. split; [done|]. split; [set_solver|]. intros _. exists d. split; [by left|by right].
Qed.

(** *** A project, end to end *)

Definition ex_tree : Tree :=
  TDir (Some [("src", TDir (Some [("main", TDir (Some [("java", TDir (Some [("A.java", TFile); ("n.txt", TFile)]))]))]));
              ("target", TDir (Some [("Gen.java", TFile)])); ("link", TSymlink);
              ("core", TDir (Some [("pom.xml", TFile);
                 ("src", TDir (Some [("test", TDir (Some [("java", TDir (Some [("B.java", TFile)]))]))]))]))]).
#[local] Instance ex_fs : Fs := {|
  fs_is_file p := bool_decide (p ∈ ["/p/core/pom.xml"; "/jdk/bin/javac"]);
  fs_is_dir p := bool_decide (p ∈ ["/p/src/main/java"; "/p/core/src/test/java"]);
  fs_tree p := if bool_decide (p = "/p") then ex_tree
               else if bool_decide (p = "/p/src/main/java") then TDir (Some [("A.java", TFile); ("n.txt", TFile)])
               else if bool_decide (p = "/p/core/src/test/java") then TDir (Some [("B.java", TFile)])
               else TDir None;
|}.
Lemma ex_elapsed k : POLL_INTERVAL * Z.of_nat k ≤ 50 * Z.of_nat k.
Proof. unfold POLL_INTERVAL. lia. Qed.
#[local] Instance ex_os : LaunchOs := {|
  os_windows := false; os_java_home := None; os_join_paths _ := Ok "/dep.jar"; os_write _ _ := Ok ();
  os_spawn _ _ := Ok (mkJavacChild (λ k, if (k <? 3)%nat then Ok None else Ok (Some true))
                        (λ k, 50 * Z.of_nat k) [] ex_elapsed);
  os_temp_dir := "/tmp"; os_pid := 7; os_nanos _ := 99;
  os_create_refused _ := false; os_remove_refused _ := false;
|}.
#[local] Instance ex_crate : ClasspathCrate := {|
  best_jdk := Some "/jdk"; project_entries _ := ["/dep.jar"]; project_source_roots _ := [];
  module_output_dirs _ := []; module_test_output_dirs _ := [];
|}.

Example ex_assemble :
  assemble_classpath (Some "/p") [] true ["/junit.jar"] None {["/tmp/jvl-debug-7-99-0"]}
  = (Ok (mkClasspathPlan ["/junit.jar"; "/tmp/jvl-debug-7-99-1"; "/dep.jar"]
           ["/p/src/main/java"; "/p/core/src/test/java"] (Some "/tmp/jvl-debug-7-99-1")),
     {["/tmp/jvl-debug-7-99-1"; "/tmp/jvl-debug-7-99-0"]}).
Proof. vm_compute. reflexivity. Qed.
Example ex_collect : collect_source_files MAX_SOURCE_FILES ["/p/src/main/java"; "/p//src/main/java"; "/p/core/src/test/java"]
  = ["/p/src/main/java/A.java"; "/p/core/src/test/java/B.java"].
Proof. vm_compute. reflexivity. Qed.

Lemma argfile_roundtrip_witness :
  argfile_args (as_bytes (argfile_content ["/p/a b.java"; "C:\x.java"; "# y"])) QOut None
  = as_bytes <$> ["/p/a b.java"; "C:\x.java"; "# y"].
Proof. apply (argfile_roundtrip ["/p/a b.java"; "C:\x.java"; "# y"]). repeat constructor. Defined.
