(* ===== verification/JTypes.v ===== *)
(** * Structured Java types ([crates/types/src/lib.rs])

    The types the analyses compare, with primitive widening and boxing and
    substitution of type variables.  [Unknown] is "insufficient information":
    consumers stay silent on it. *)
From S2P Require Import Prelude RustStd.

Inductive PrimitiveType := PBoolean | PByte | PShort | PInt | PLong | PChar | PFloat | PDouble.
Global Instance PrimitiveType_eq_dec : EqDecision PrimitiveType.
Proof. solve_decision. Defined.

Definition prim_name (p : PrimitiveType) : string :=
  match p with
  | PBoolean => "boolean" | PByte => "byte" | PShort => "short" | PInt => "int"
  | PLong => "long" | PChar => "char" | PFloat => "float" | PDouble => "double"
  end.
Definition prim_from_name (name : string) : option PrimitiveType :=
  let n := trim name in
  if bool_decide (n = "boolean") then Some PBoolean
  else if bool_decide (n = "byte") then Some PByte
  else if bool_decide (n = "short") then Some PShort
  else if bool_decide (n = "int") then Some PInt
  else if bool_decide (n = "long") then Some PLong
  else if bool_decide (n = "char") then Some PChar
  else if bool_decide (n = "float") then Some PFloat
  else if bool_decide (n = "double") then Some PDouble
  else None.
Definition box_fqn (p : PrimitiveType) : string :=
  match p with
  | PBoolean => "java.lang.Boolean" | PByte => "java.lang.Byte" | PShort => "java.lang.Short"
  | PInt => "java.lang.Integer" | PLong => "java.lang.Long" | PChar => "java.lang.Character"
  | PFloat => "java.lang.Float" | PDouble => "java.lang.Double"
  end.
Definition all_primitives : list PrimitiveType :=
  [PBoolean; PByte; PShort; PInt; PLong; PChar; PFloat; PDouble].
Definition from_box_fqn (fqn : string) : option PrimitiveType :=
  List.find (λ p, bool_decide (box_fqn p = fqn)) all_primitives.

(** JLS 5.1.2 widening primitive conversion (identity excluded). *)
Definition widens_to (p to : PrimitiveType) : bool :=
  match p, to with
  | PByte, (PShort | PInt | PLong | PFloat | PDouble)
  | PShort, (PInt | PLong | PFloat | PDouble)
  | PChar, (PInt | PLong | PFloat | PDouble)
  | PInt, (PLong | PFloat | PDouble)
  | PLong, (PFloat | PDouble)
  | PFloat, PDouble => true
  | _, _ => false
  end.

Inductive TypeId :=
| TNamed (fqn : string)
| TLocal (document declaration : Z).
Record TypeVariableId := mkTypeVariableId { tv_owner : string; tv_index : nat }.
Global Instance TypeId_eq_dec : EqDecision TypeId.
Proof. solve_decision. Defined.
Global Instance TypeVariableId_eq_dec : EqDecision TypeVariableId.
Proof. solve_decision. Defined.

Definition as_named (t : TypeId) : option string :=
  match t with TNamed s => Some s | TLocal _ _ => None end.

Inductive TypeRef :=
| Primitive (p : PrimitiveType)
| Void
| Null
| Named (id : TypeId) (args : list TypeRef)
| Array (e : TypeRef)
| TVariable (v : TypeVariableId)
| Wildcard (upper lower : option TypeRef)
| Unknown.

Definition named (fqn : string) : TypeRef := Named (TNamed fqn) [].
Definition named_with (fqn : string) (args : list TypeRef) : TypeRef := Named (TNamed fqn) args.
Definition is_reference (t : TypeRef) : bool :=
  match t with Named _ _ | Array _ | TVariable _ | Null => true | _ => false end.

Fixpoint contains_unknown (t : TypeRef) : bool :=
  match t with
  | Unknown => true
  | Named _ args => existsb contains_unknown args
  | Array e => contains_unknown e
  | Wildcard upper lower =>
      match upper with Some u => contains_unknown u | None => false end
      || match lower with Some l => contains_unknown l | None => false end
  | _ => false
  end.

Definition TypeEnv : Type := list (TypeVariableId * TypeRef).
Definition env_find (env : TypeEnv) (v : TypeVariableId) : option TypeRef :=
  snd <$> List.find (λ kt, bool_decide (kt.1 = v)) env.

(** Replace type variables by identity; unbound ones stay. *)
Fixpoint substitute (t : TypeRef) (env : TypeEnv) : TypeRef :=
  match t with
  | TVariable v => default (TVariable v) (env_find env v)
  | Named id args => Named id (map (λ a, substitute a env) args)
  | Array e => Array (substitute e env)
  | Wildcard upper lower =>
      Wildcard (match upper with Some u => Some (substitute u env) | None => None end)
               (match lower with Some l => Some (substitute l env) | None => None end)
  | other => other
  end.

Record TypeParameter := mkTypeParameter { tp_id : TypeVariableId; tp_bounds : list TypeRef }.

(** ** Class and member metadata *)

Inductive Access := Public | Protected | Package | Private.
Inductive ClassKind := KClass | KInterface | KEnum | KRecord | KAnnotation.
Global Instance Access_eq_dec : EqDecision Access.
Proof. solve_decision. Defined.
Global Instance ClassKind_eq_dec : EqDecision ClassKind.
Proof. solve_decision. Defined.

Record ClassMetadata := mkClassMetadata {
  cm_id : TypeId; cm_kind : ClassKind; cm_access : Access;
  cm_is_abstract : bool; cm_is_static : bool; cm_enclosing_class : option TypeId;
  cm_type_parameters : list TypeParameter; cm_supertypes : list TypeRef;
  cm_hierarchy_complete : bool; cm_constructors_complete : bool }.

(** [mm_parameters] is [None] for a field, [Some []] for a callable without
    parameters. *)
Record MemberMetadata := mkMemberMetadata {
  mm_declaring_class : TypeId; mm_access : Access; mm_is_static : bool; mm_is_abstract : bool;
  mm_parameters : option (list TypeRef); mm_result : TypeRef;
  mm_type_parameters : list TypeParameter; mm_is_varargs : bool }.

(** ** Induction *)

Definition opt_all (P : TypeRef → Prop) (o : option TypeRef) : Prop :=
  match o with Some t => P t | None => True end.

Section TypeRefInd.
Variable P : TypeRef → Prop.
Hypothesis Hprim : ∀ p, P (Primitive p).
Hypothesis Hvoid : P Void.
Hypothesis Hnull : P Null.
Hypothesis Hnamed : ∀ id args, Forall P args → P (Named id args).
Hypothesis Harray : ∀ e, P e → P (Array e).
Hypothesis Hvar : ∀ v, P (TVariable v).
Hypothesis Hwild : ∀ u l, opt_all P u → opt_all P l → P (Wildcard u l).
Hypothesis Hunk : P Unknown.

Fixpoint TypeRef_nested_ind (t : TypeRef) : P t :=
  match t with
  | Primitive p => Hprim p
  | Void => Hvoid
  | Null => Hnull
  | Named id args => Hnamed id args
      ((fix go (l : list TypeRef) : Forall P l :=
          match l with
          | [] => List.Forall_nil P
          | a :: l' => List.Forall_cons P a l' (TypeRef_nested_ind a) (go l')
          end) args)
  | Array e => Harray e (TypeRef_nested_ind e)
  | TVariable v => Hvar v
  | Wildcard u l => Hwild u l
      (match u return opt_all P u with Some t => TypeRef_nested_ind t | None => I end)
      (match l return opt_all P l with Some t => TypeRef_nested_ind t | None => I end)
  | Unknown => Hunk
  end.
End TypeRefInd.

(** ** Substitution *)

(** First [e1], then [e2]. *)
Definition env_then (e1 e2 : TypeEnv) : TypeEnv :=
  ((λ '(v, t), (v, substitute t e2)) <$> e1) ++ e2.

Lemma env_find_then e1 e2 v :
  env_find (env_then e1 e2) v
  = match env_find e1 v with
    | Some t => Some (substitute t e2)
    | None => env_find e2 v
    end.
Proof.
  unfold env_find, env_then. induction e1 as [|[k t] e1 IH]; [done|].
  cbn [fmap list_fmap app List.find fst]. by case_bool_decide.
Qed.

Lemma Forall_map_eq {A B} (f g : A → B) l : Forall (λ x, f x = g x) l → map f l = map g l.
Proof. induction 1; cbn; congruence. Qed.

(** The variables of a type. *)
Fixpoint type_vars (t : TypeRef) : list TypeVariableId :=
  match t with
  | TVariable v => [v]
  | Named _ args => flat_map type_vars args
  | Array e => type_vars e
  | Wildcard u l =>
      match u with Some t => type_vars t | None => [] end
      ++ match l with Some t => type_vars t | None => [] end
  | _ => []
  end.

Lemma env_find_value env v t : env_find env v = Some t → ∃ k, (k, t) ∈ env.
Proof.
  unfold env_find. destruct (List.find _ env) as [[k t']|] eqn:E; [|done].
  intros [= ->]. apply List.find_some in E as [Hin _]. exists k. by apply list_elem_of_In.
Qed.

(** ** The theorems *)

(** Boxing is faithful: the box of a primitive names it back, two
    primitives never share a name or a box, and the printed name of a
    primitive reads back as itself. *)
Theorem boxing_roundtrip p q :
  from_box_fqn (box_fqn p) = Some p ∧ prim_from_name (prim_name p) = Some p
  ∧ (box_fqn p = box_fqn q → p = q) ∧ (prim_name p = prim_name q → p = q).
Proof.
  split_and!; [destruct p; vm_compute; reflexivity..| |]; destruct p, q; vm_compute; congruence.
Qed.

(** Widening primitive conversion is a strict order (irreflexive,
    transitive), boolean takes no part in it, and it relates two numeric
    types exactly as their positions byte < short < int < long < float <
    double do, except that char sits beside byte and short. *)
Theorem widens_to_order p q r :
  widens_to p p = false
  ∧ (widens_to p q = true → widens_to q r = true → widens_to p r = true)
  ∧ widens_to PBoolean p = false ∧ widens_to p PBoolean = false
  ∧ widens_to p PChar = false
  ∧ widens_to p q =
      let rank t := match t with
                    | PBoolean => None | PByte => Some 0 | PShort => Some 1 | PChar => Some 1
                    | PInt => Some 2 | PLong => Some 3 | PFloat => Some 4 | PDouble => Some 5
                    end in
      match rank p, rank q with
      | Some a, Some b => (a <? b) && negb (bool_decide (q = PChar))
      | _, _ => false
      end.
Proof. destruct p, q, r; vm_compute; split_and!; congruence. Qed.

(** Substituting twice is substituting once with the composed
    environment, and substituting variables a type does not mention does
    nothing. *)
Theorem substitute_compose t e1 e2 :
  substitute (substitute t e1) e2 = substitute t (env_then e1 e2)
  ∧ ((∀ v, v ∈ type_vars t → env_find e1 v = None) → substitute t e1 = t).
Proof.
  split.
  - induction t using TypeRef_nested_ind; cbn [substitute]; try done.
    + f_equal. rewrite map_map. by apply Forall_map_eq.
    + by f_equal.
    + rewrite env_find_then. by destruct (env_find e1 v).
    + destruct u, l; cbn in *; congruence.
  - induction t as [| | |id args IH|e IH|v|u l IHu IHl|] using TypeRef_nested_ind;
      cbn [substitute type_vars]; try done; intros Hv.
    + f_equal. rewrite <- (map_id args) at 2. apply Forall_map_eq.
      rewrite Forall_forall in IH |- *. intros a Ha. apply IH; [done|]. intros v Hin. apply Hv.
      apply list_elem_of_In, List.in_flat_map. exists a. by rewrite <- !list_elem_of_In.
    + f_equal. auto.
    + rewrite Hv; [done|]. by left.
    + destruct u, l; cbn in *; f_equal; f_equal; (apply IHu || apply IHl); intros v Hin;
        apply Hv; rewrite ?elem_of_app; auto.
Qed.

(** A fully known type stays fully known under substitution of known
    types, so substitution never makes a check fall silent. *)
Theorem substitute_keeps_known t env :
  contains_unknown t = false → (∀ k u, (k, u) ∈ env → contains_unknown u = false) →
  contains_unknown (substitute t env) = false.
Proof.
  intros Ht Henv. induction t as [| | |id args IH|e IH|v|u l IHu IHl|] using TypeRef_nested_ind;
    cbn [substitute contains_unknown] in *; try done; auto.
  - induction IH as [|a args Ha _ IHa]; [done|]. cbn in *.
    apply orb_false_iff in Ht as [Ht1 Ht2]. by rewrite Ha, IHa.
  - destruct (env_find env v) as [t|] eqn:E; [|done].
    apply env_find_value in E as [k Hk]. cbn. eauto.
  - apply orb_false_iff in Ht as [Ht1 Ht2].
    destruct u, l; cbn in *; rewrite ?IHu, ?IHl by done; done.
Qed.

Lemma substitute_keeps_known_witness :
  let v := mkTypeVariableId "java.util.List" 0 in
  contains_unknown (substitute (named_with "java.util.List" [TVariable v]) [(v, named "demo.A")]) = false.
Proof.
  cbn zeta. apply substitute_keeps_known; [reflexivity|].
  intros k u [[= -> ->]|H]%elem_of_cons; [reflexivity|]. by apply elem_of_nil in H.
Defined.
