(* ===== verification/Subtyping.v ===== *)
(** * Assignability ([crates/syntax/src/resolve.rs])

    The structured subtype engine: conversions of JLS 5.1 and 5.2 and the walk
    over a class's supertypes, with a third answer, [None], for what it cannot
    prove.  The classes are an interface: what is known of a type by its
    identity, and which names the project declares.  The engine's recursion has
    no bound in the source, so it runs on fuel here, and running out is an
    outcome of its own. *)
From S2P Require Import Prelude RustStd JTypes.

(** ** Comparing types *)

Fixpoint type_eqb (s t : TypeRef) : bool :=
  match s, t with
  | Primitive p, Primitive q => bool_decide (p = q)
  | Void, Void | Null, Null | Unknown, Unknown => true
  | Named i a, Named j b =>
      bool_decide (i = j)
      && (fix go (a b : list TypeRef) :=
            match a, b with
            | [], [] => true
            | x :: a, y :: b => type_eqb x y && go a b
            | _, _ => false
            end) a b
  | Array x, Array y => type_eqb x y
  | TVariable v, TVariable w => bool_decide (v = w)
  | Wildcard u l, Wildcard u' l' =>
      match u, u' with Some x, Some y => type_eqb x y | None, None => true | _, _ => false end
      && match l, l' with Some x, Some y => type_eqb x y | None, None => true | _, _ => false end
  | _, _ => false
  end.

Lemma type_eqb_spec s : ∀ t, type_eqb s t = true ↔ s = t.
Proof.
  induction s as [p| | |i a IH|x IH|v|u l IHu IHl|] using TypeRef_nested_ind;
    intros [q| | |j b|y|w|u' l'|]; cbn [type_eqb]; try done.
  - rewrite bool_decide_eq_true. naive_solver.
  - rewrite andb_true_iff, bool_decide_eq_true.
    assert (E : (fix go (a b : list TypeRef) :=
            match a, b with
            | [], [] => true
            | x :: a, y :: b => type_eqb x y && go a b
            | _, _ => false
            end) a b = true ↔ a = b).
    { revert b. induction IH as [|x a Hx _ IH]; intros [|y b]; try done.
      rewrite andb_true_iff, Hx, IH. naive_solver. }
    rewrite E. naive_solver.
  - rewrite IH. naive_solver.
  - rewrite bool_decide_eq_true. naive_solver.
  - rewrite andb_true_iff. destruct u as [x|], u' as [x'|], l as [y|], l' as [y'|]; cbn in IHu, IHl;
      rewrite ?IHu, ?IHl; naive_solver.
Qed.
Global Instance TypeRef_eq_dec : EqDecision TypeRef.
Proof.
  intros s t. refine (cast_if (decide (type_eqb s t = true))); by rewrite <-type_eqb_spec.
Defined.

Module Subtyping.

Definition MAX_SUBTYPE_DEPTH : nat := 64.
Definition OBJECT : TypeRef := named "java.lang.Object".

(** What the engine knows of classes: [class_facts] and
    [TypeTable::get_named]. *)
Class Classes := {
  facts : TypeId → option ClassMetadata;
  in_table : string → bool;
}.

(** ** The engine *)

Definition constant_narrowing (actual expected : PrimitiveType) : option bool :=
  match actual, expected with
  | (PByte | PShort | PChar | PInt), (PByte | PShort | PChar) => None
  | _, _ => Some false
  end.

Fixpoint erase (t : TypeRef) : TypeRef :=
  match t with
  | Named id _ => Named id []
  | Array e => Array (erase e)
  | other => other
  end.

(** Iterators are lazy: nothing is asked past a decisive answer.  The outer
    option is [None] when an answer ran out of fuel. *)
Fixpoint any_proved {A} (f : A → option (option bool)) (unknown : bool) (l : list A) : option (option bool) :=
  match l with
  | [] => Some (if unknown then None else Some false)
  | a :: l =>
      r ← f a;
      match r with
      | Some true => Some (Some true)
      | Some false => any_proved f unknown l
      | None => any_proved f true l
      end
  end.
Fixpoint all_proved {A} (f : A → option (option bool)) (unknown : bool) (l : list A) : option (option bool) :=
  match l with
  | [] => Some (if unknown then None else Some true)
  | a :: l =>
      r ← f a;
      match r with
      | Some false => Some (Some false)
      | Some true => all_proved f unknown l
      | None => all_proved f true l
      end
  end.

Section Engine.
Context `{Classes}.

Definition variable_bounds (v : TypeVariableId) : option (list TypeRef) :=
  m ← facts (TNamed (tv_owner v));
  p ← cm_type_parameters m !! tv_index v;
  Some (tp_bounds p).

Definition class_env (m : ClassMetadata) (args : list TypeRef) : TypeEnv :=
  zip (tp_id <$> cm_type_parameters m) args.
(** The supertypes of a use of a class. *)
Definition use_supertypes (m : ClassMetadata) (args : list TypeRef) : list TypeRef :=
  let raw := bool_decide (args = []) && negb (bool_decide (cm_type_parameters m = [])) in
  (λ sup, if raw then erase sup else substitute sup (class_env m args)) <$> cm_supertypes m.

Section Rec.
(** [assignable_refs] with less fuel. *)
Variable rec : TypeRef → TypeRef → option (option bool).

(** One type argument; the actual and the expected one. *)
Definition contains_arg (ae : TypeRef * TypeRef) : option (option bool) :=
  match ae with
  | (_, Wildcard None None) => Some (Some true)
  | (Unknown, _) | (_, Unknown) => Some None
  | (TVariable _, _) | (_, TVariable _) => Some None
  | (Wildcard au None, Wildcard (Some eu) None) => rec (default OBJECT au) eu
  | (Wildcard _ (Some al), Wildcard _ (Some el)) => rec el al
  | (Wildcard _ _, Wildcard (Some _) None) | (Wildcard _ _, Wildcard None (Some _)) => Some None
  | (a, Wildcard (Some eu) None) => rec a eu
  | (a, Wildcard None (Some el)) => rec el a
  | (Wildcard _ _, _) => Some (Some false)
  | (a, e) => Some (Some (bool_decide (a = e)))
  end.
Definition type_args_contain (actual expected : list TypeRef) : option (option bool) :=
  if bool_decide (expected = []) then Some (Some true)
  else if bool_decide (actual = []) || negb (length actual =? length expected)%nat then Some None
  else all_proved contains_arg false (zip actual expected).

(** [budget] is one more than the depths left; [seen] is the current path. *)
Fixpoint is_subtype (budget : nat) (target : TypeId) (target_args : list TypeRef)
    (seen : list TypeRef) (actual : TypeRef) : option (option bool) :=
  match actual with
  | Named id args =>
      match budget with
      | O => Some None
      | S b =>
          if bool_decide (actual ∈ seen) then Some None
          else if bool_decide (id = target) then type_args_contain args target_args
          else if bool_decide (as_named target = Some "java.lang.Object") then Some (Some true)
          else if (b =? MAX_SUBTYPE_DEPTH)%nat && bool_decide (facts target = None) then Some None
          else match facts id with
               | None => Some None
               | Some m =>
                   any_proved (is_subtype b target target_args (actual :: seen))
                     (negb (cm_hierarchy_complete m)) (use_supertypes m args)
               end
      end
  | _ => Some None
  end.

Definition assignable_step (actual expected : TypeRef) : option (option bool) :=
  match actual, expected with
  | Unknown, _ | _, Unknown => Some None
  | Null, _ => Some (Some (is_reference expected))
  | _, Null => Some (Some false)
  | Void, Void => Some (Some true)
  | Void, _ | _, Void => Some (Some false)
  | TVariable v, e =>
      match variable_bounds v with
      | None => Some None
      | Some bounds => any_proved (λ b, rec b e) false (if bool_decide (bounds = []) then [OBJECT] else bounds)
      end
  | _, TVariable _ => Some None
  | Wildcard upper _, e => rec (default OBJECT upper) e
  | _, Wildcard _ _ => Some None
  | Primitive a, Primitive e =>
      if bool_decide (a = e) || widens_to a e then Some (Some true) else Some (constant_narrowing a e)
  | Primitive _, Named (TLocal _ _) _ => Some (Some false)
  | Primitive a, Named (TNamed eb) _ =>
      if in_table eb then Some (Some false)
      else match from_box_fqn eb with
           | Some ep => if bool_decide (a = ep) then Some (Some true) else Some (constant_narrowing a ep)
           | None => rec (named (box_fqn a)) expected
           end
  | Primitive _, _ => Some (Some false)
  | Named id _, Primitive e =>
      match as_named id ≫= from_box_fqn with
      | Some p => Some (Some (bool_decide (p = e) || widens_to p e))
      | None => Some (Some false)
      end
  | _, Primitive _ => Some (Some false)
  | Array a, Array e =>
      match a, e with
      | Primitive x, Primitive y => Some (Some (bool_decide (x = y)))
      | Primitive _, _ | _, Primitive _ => Some (Some false)
      | x, y => rec x y
      end
  | Array _, Named (TNamed b) _ =>
      Some (Some (bool_decide (b ∈ ["java.lang.Object"; "java.lang.Cloneable"; "java.io.Serializable"])))
  | Array _, _ | _, Array _ => Some (Some false)
  | Named _ _, Named eid eargs => is_subtype (S MAX_SUBTYPE_DEPTH) eid eargs [] actual
  end.
End Rec.

Fixpoint assignable_refs (fuel : nat) (actual expected : TypeRef) : option (option bool) :=
  match fuel with
  | O => None
  | S f => assignable_step (assignable_refs f) actual expected
  end.

(** ** Folding over answers *)


Lemma any_proved_true {A} (f : A → option (option bool)) l : ∀ u,
  any_proved f u l = Some (Some true) → ∃ a, a ∈ l ∧ f a = Some (Some true).
Proof.
  induction l as [|a l IH]; intros u; cbn [any_proved]; [by destruct u|].
  destruct (f a) as [[[]|]|] eqn:E; cbn; try done.
  - intros _. exists a. split; [left|done].
  - intros (b & Hb & Eb)%IH. exists b. split; [by right|done].
  - intros (b & Hb & Eb)%IH. exists b. split; [by right|done].
Qed.
Lemma any_proved_false {A} (f : A → option (option bool)) l : ∀ u,
  any_proved f u l = Some (Some false) → u = false ∧ ∀ a, a ∈ l → f a = Some (Some false).
Proof.
  induction l as [|a l IH]; intros u; cbn [any_proved].
  - destruct u; [done|]. intros _. split; [done|]. by intros a ?%elem_of_nil.
  - destruct (f a) as [[[]|]|] eqn:E; cbn; try done.
    + intros [-> Hl]%IH. split; [done|]. intros b [->|Hb]%elem_of_cons; auto.
    + by intros [? _]%IH.
Qed.
Lemma all_proved_true {A} (f : A → option (option bool)) l : ∀ u,
  all_proved f u l = Some (Some true) → u = false ∧ ∀ a, a ∈ l → f a = Some (Some true).
Proof.
  induction l as [|a l IH]; intros u; cbn [all_proved].
  - destruct u; [done|]. intros _. split; [done|]. by intros a ?%elem_of_nil.
  - destruct (f a) as [[[]|]|] eqn:E; cbn; try done.
    + intros [-> Hl]%IH. split; [done|]. intros b [->|Hb]%elem_of_cons; auto.
    + by intros [? _]%IH.
Qed.
Lemma all_proved_false {A} (f : A → option (option bool)) l : ∀ u,
  all_proved f u l = Some (Some false) → ∃ a, a ∈ l ∧ f a = Some (Some false).
Proof.
  induction l as [|a l IH]; intros u; cbn [all_proved]; [by destruct u|].
  destruct (f a) as [[[]|]|] eqn:E; cbn; try done.
  - intros (b & Hb & Eb)%IH. exists b. split; [by right|done].
  - intros _. exists a. split; [left|done].
  - intros (b & Hb & Eb)%IH. exists b. split; [by right|done].
Qed.

(** ** Fuel *)

(** [r'] answers whatever [r] does. *)
Definition extends {A B} (r r' : A → option B) : Prop := ∀ a b, r a = Some b → r' a = Some b.

Lemma any_proved_extends {A} (f g : A → option (option bool)) l : extends f g → ∀ u,
  extends (λ _ : unit, any_proved f u l) (λ _, any_proved g u l).
Proof.
  intros Hfg. induction l as [|a l IH]; intros u [] b; cbn [any_proved]; [done|].
  destruct (f a) as [r|] eqn:E; [|done]. rewrite (Hfg _ _ E). cbn. destruct r as [[]|]; [done|..]; apply (IH _ ()).
Qed.
Lemma all_proved_extends {A} (f g : A → option (option bool)) l : extends f g → ∀ u,
  extends (λ _ : unit, all_proved f u l) (λ _, all_proved g u l).
Proof.
  intros Hfg. induction l as [|a l IH]; intros u [] b; cbn [all_proved]; [done|].
  destruct (f a) as [r|] eqn:E; [|done]. rewrite (Hfg _ _ E). cbn. destruct r as [[]|]; [|done|]; apply (IH _ ()).
Qed.

Section Extends.
Variables rec rec' : TypeRef → TypeRef → option (option bool).
Hypothesis Hrec : ∀ a e b, rec a e = Some b → rec' a e = Some b.

Lemma contains_extends : extends (contains_arg rec) (contains_arg rec').
Proof.
  intros [a e] b. destruct e as [| | | | | |[eu|] [el|]|]; destruct a as [| | | | | |[au|] [al|]|];
    cbn [contains_arg]; auto.
Qed.
Lemma type_args_extends actual expected b :
  type_args_contain rec actual expected = Some b → type_args_contain rec' actual expected = Some b.
Proof.
  unfold type_args_contain. case_bool_decide; [done|]. case_match; [done|].
  apply (all_proved_extends _ _ _ contains_extends _ ()).
Qed.
Lemma is_subtype_extends target targs n : ∀ seen,
  extends (is_subtype rec n target targs seen) (is_subtype rec' n target targs seen).
Proof.
  induction n as [|n IH]; intros seen [| | |id args| | | |] b; cbn [is_subtype]; try done.
  case_bool_decide; [done|]. case_bool_decide; [apply type_args_extends|]. case_bool_decide; [done|].
  destruct (_ && _); [done|]. destruct (facts id); [|done]. apply (any_proved_extends _ _ _ (IH _) _ ()).
Qed.
Lemma step_extends a e b : assignable_step rec a e = Some b → assignable_step rec' a e = Some b.
Proof.
  destruct a as [p| | |id args|a|v|u l|].
  - destruct e as [q| | |[eb|] eargs| | | |]; cbn [assignable_step]; auto.
    destruct (in_table eb); [done|]. destruct (from_box_fqn eb); [done|]. apply Hrec.
  - by destruct e.
  - by destruct e.
  - destruct e as [q| | |eid eargs| | | |]; cbn [assignable_step];
      [| | |exact (is_subtype_extends _ _ _ [] _ b)| | | |]; exact (λ E, E).
  - destruct e as [q| | |[eb|] eargs|e| | |]; cbn [assignable_step]; auto. destruct a, e; auto.
  - assert (V : ∀ e, match variable_bounds v with
        | None => Some None
        | Some bounds => any_proved (λ b, rec b e) false (if bool_decide (bounds = []) then [OBJECT] else bounds)
        end = Some b → match variable_bounds v with
        | None => Some None
        | Some bounds => any_proved (λ b, rec' b e) false (if bool_decide (bounds = []) then [OBJECT] else bounds)
        end = Some b).
    { intros e'. destruct (variable_bounds v) as [bs|]; [|done].
      exact (any_proved_extends (λ b, rec b e') (λ b, rec' b e') _ (λ b, Hrec b e') false () b). }
    destruct e; cbn [assignable_step]; auto.
  - destruct e; cbn [assignable_step]; auto.
  - by destruct e.
Qed.
End Extends.

Lemma assignable_mono n : ∀ m a e b, (n ≤ m)%nat → assignable_refs n a e = Some b → assignable_refs m a e = Some b.
Proof.
  induction n as [|n IH]; [done|]. intros [|m] a e b Hm; [lia|]. cbn [assignable_refs].
  apply step_extends. intros a' e' b'. apply IH. lia.
Qed.

(** ** Termination *)

(** From some amount of fuel on. *)
Definition eventually (P : nat → Prop) : Prop := ∃ n, ∀ m, (n ≤ m)%nat → P m.
Lemma eventually_all {A} (P : A → nat → Prop) (l : list A) :
  (∀ a, a ∈ l → eventually (P a)) → eventually (λ m, ∀ a, a ∈ l → P a m).
Proof.
  induction l as [|a l IH]; intros Hl; [exists O; by intros m _ a ?%elem_of_nil|].
  destruct (Hl a) as [n1 H1]; [left|]. destruct IH as [n2 H2]; [intros b Hb; apply Hl; by right|].
  exists (n1 + n2)%nat. intros m Hm b [->|Hb]%elem_of_cons; [apply H1; lia|apply H2; [lia|done]].
Qed.
Lemma eventually_impl (P Q : nat → Prop) : (∀ m, P m → Q m) → eventually P → eventually Q.
Proof. intros HPQ [n Hn]. exists n. auto. Qed.

Lemma any_proved_answers {A} (f : A → option (option bool)) l : (∀ a, a ∈ l → is_Some (f a)) →
  ∀ u, is_Some (any_proved f u l).
Proof.
  induction l as [|a l IH]; intros Hl u; cbn [any_proved]; [by eexists|].
  destruct (Hl a) as [r E]; [left|]. rewrite E. cbn.
  destruct r as [[]|]; [by eexists|..]; apply IH; intros b Hb; apply Hl; by right.
Qed.
Lemma all_proved_answers {A} (f : A → option (option bool)) l : (∀ a, a ∈ l → is_Some (f a)) →
  ∀ u, is_Some (all_proved f u l).
Proof.
  induction l as [|a l IH]; intros Hl u; cbn [all_proved]; [by eexists|].
  destruct (Hl a) as [r E]; [left|]. rewrite E. cbn.
  destruct r as [[]|]; [|by eexists|]; apply IH; intros b Hb; apply Hl; by right.
Qed.

(** No [? super] anywhere. *)
Fixpoint no_super (t : TypeRef) : bool :=
  match t with
  | Named _ args => forallb no_super args
  | Array e => no_super e
  | Wildcard u (Some _) => false
  | Wildcard (Some u) None => no_super u
  | _ => true
  end.
Fixpoint type_size (t : TypeRef) : nat :=
  match t with
  | Named _ args => S (foldr (λ a n, (type_size a + n)%nat) O args)
  | Array e => S (type_size e)
  | Wildcard u l => S (match u with Some t => type_size t | None => O end + match l with Some t => type_size t | None => O end)
  | _ => 1
  end.
(** Bounds are acyclic: every bound of a variable ranks below it. *)
Fixpoint head_rank (vr : TypeVariableId → nat) (t : TypeRef) : nat :=
  match t with
  | TVariable v => S (vr v)
  | Wildcard (Some u) _ => S (head_rank vr u)
  | Wildcard None _ | Primitive _ => 1
  | _ => O
  end.
Definition acyclic_bounds (vr : TypeVariableId → nat) : Prop :=
  ∀ v bounds b, variable_bounds v = Some bounds → b ∈ bounds → (head_rank vr b ≤ vr v)%nat.

Lemma size_arg a args : a ∈ args → (type_size a ≤ foldr (λ a n, (type_size a + n)%nat) O args)%nat.
Proof. induction 1 as [|a b l _ IH]; cbn; lia. Qed.

Section Terminates.
Variable vr : TypeVariableId → nat.
Hypothesis Hvr : acyclic_bounds vr.

Definition answers (a e : TypeRef) : Prop := eventually (λ m, is_Some (assignable_refs m a e)).
(** What the recursion may rely on at [a] and [e]. *)
Definition smaller (a e a' e' : TypeRef) : Prop :=
  no_super e' = true ∧
  ((type_size e' < type_size e)%nat ∨ (e' = e ∧ (head_rank vr a' < head_rank vr a)%nat)).

Lemma answers_step a e : eventually (λ m, is_Some (assignable_step (assignable_refs m) a e)) → answers a e.
Proof. intros [n Hn]. exists (S n). intros [|m] Hm; [lia|]. cbn [assignable_refs]. apply Hn. lia. Qed.

Lemma contains_answers a e : no_super e = true → (∀ a' e', no_super e' = true → (type_size e' ≤ type_size e)%nat → answers a' e') →
  eventually (λ m, is_Some (contains_arg (assignable_refs m) (a, e))).
Proof.
  intros Hs IH. assert (D : ∀ r : option bool, eventually (λ _, is_Some (Some r))) by (intros r; exists O; by eexists).
  destruct e as [| | | | | |[eu|] [el|]|]; destruct a as [| | | | | |[au|] [al|]|]; cbn [contains_arg]; try done;
    try apply D; apply IH; cbn in *; try done; lia.
Qed.

Lemma subtype_answers eid eargs : no_super (Named eid eargs) = true →
  (∀ a' e', no_super e' = true → (type_size e' < type_size (Named eid eargs))%nat → answers a' e') →
  ∀ n seen actual, eventually (λ m, is_Some (is_subtype (assignable_refs m) n eid eargs seen actual)).
Proof.
  intros Hs IH n. induction n as [|n IHn]; intros seen [| | |aid aargs| | | |]; cbn [is_subtype];
    try (exists O; by eexists).
  case_bool_decide; [exists O; by eexists|]. case_bool_decide.
  { unfold type_args_contain. case_bool_decide; [exists O; by eexists|]. destruct (_ || _); [exists O; by eexists|].
    assert (Hz : eventually (λ m, ∀ ae, ae ∈ zip aargs eargs → is_Some (contains_arg (assignable_refs m) ae))).
    { apply (eventually_all (λ ae m, is_Some (contains_arg (assignable_refs m) ae))). intros [x y] Hxy.
      apply elem_of_zip_r in Hxy. cbn in Hs. apply contains_answers.
      - rewrite forallb_forall in Hs. by apply Hs, list_elem_of_In.
      - intros a' e' Hs' Hle. apply IH; [done|]. cbn. pose proof (size_arg _ _ Hxy). lia. }
    eapply eventually_impl; [|exact Hz]. cbn. intros m Hm. by apply all_proved_answers. }
  case_bool_decide; [exists O; by eexists|]. destruct (_ && _); [exists O; by eexists|].
  destruct (facts aid) as [cm|]; [|exists O; by eexists].
  eapply eventually_impl; [|apply (eventually_all (λ sup m, is_Some (is_subtype (assignable_refs m) n eid eargs (Named aid aargs :: seen) sup))
    (use_supertypes cm aargs)); intros sup _; apply IHn]. cbn. intros m Hm. by apply any_proved_answers.
Qed.

Lemma step_answers a e : no_super e = true → (∀ a' e', smaller a e a' e' → answers a' e') →
  eventually (λ m, is_Some (assignable_step (assignable_refs m) a e)).
Proof.
  intros Hs IH. assert (D : ∀ r : option bool, eventually (λ _, is_Some (Some r))) by (intros r; exists O; by eexists).
  assert (W : ∀ u l, a = Wildcard u l → answers (default OBJECT u) e).
  { intros u l ->. apply IH. split; [done|]. right. split; [done|]. destruct u; cbn; lia. }
  assert (V : ∀ v, a = TVariable v → eventually (λ m, is_Some (match variable_bounds v with
      | None => Some None
      | Some bounds => any_proved (λ b, assignable_refs m b e) false (if bool_decide (bounds = []) then [OBJECT] else bounds)
      end))).
  { intros v ->. destruct (variable_bounds v) as [bs|] eqn:Ev; [|apply D].
    eapply eventually_impl; [|apply (eventually_all (λ b m, is_Some (assignable_refs m b e))
      (if bool_decide (bs = []) then [OBJECT] else bs)); intros b Hb; apply IH; split; [done|]; right; split; [done|]].
    - cbn. intros m Hm. by apply any_proved_answers.
    - cbn [head_rank]. case_bool_decide; [apply list_elem_of_singleton in Hb as ->; cbn; lia|].
      pose proof (Hvr _ _ _ Ev Hb). lia. }
  destruct a as [p| | |id args|a|v|u l|].
  - destruct e as [q| | |[eb|] eargs| | | |]; cbn [assignable_step]; try apply D.
    + destruct (_ || _); apply D.
    + destruct (in_table eb); [apply D|]. destruct (from_box_fqn eb); [case_bool_decide; apply D|].
      apply IH. split; [done|]. right. split; [done|]. cbn. lia.
  - destruct e; apply D.
  - destruct e; apply D.
  - destruct e as [q| | |eid eargs| | | |]; cbn [assignable_step]; try apply D.
    + destruct (as_named id ≫= from_box_fqn); apply D.
    + apply subtype_answers; [done|]. intros a' e' Hs' Hlt. apply IH. split; [done|by left].
  - destruct e as [q| | |[eb|] eargs|e| | |]; cbn [assignable_step]; try apply D.
    destruct a, e; try apply D; apply IH; split; try done; left; cbn; lia.
  - destruct e; cbn [assignable_step]; try apply D; by apply V.
  - destruct e; cbn [assignable_step]; try apply D; by eapply W.
  - destruct e; apply D.
Qed.

Lemma all_answer : ∀ n k a e, (type_size e < n)%nat → (head_rank vr a < k)%nat → no_super e = true → answers a e.
Proof.
  induction n as [|n IHn]; [lia|]. intros k. induction k as [|k IHk]; [lia|]. intros a e Hn Hk Hs.
  apply answers_step, step_answers; [done|]. intros a' e' [Hs' [Hlt|[-> Hlt]]].
  - apply (IHn (S (head_rank vr a'))); [lia|lia|done].
  - apply IHk; [done|lia|done].
Qed.
End Terminates.

(** ** The theorems *)

(** C23: The engine returns, whatever the class hierarchy, when no type variable is
    bounded through itself and the expected type mentions no [? super]. *)
Theorem assignable_terminates vr actual expected :
  acyclic_bounds vr → no_super expected = true →
  ∃ fuel r, ∀ more, assignable_refs (fuel + more) actual expected = Some r.
Proof.
  intros Hvr Hs.
  destruct (all_answer vr Hvr (S (type_size expected)) (S (head_rank vr actual)) actual expected) as [n Hn]; [lia|lia|done|].
  destruct (Hn n) as [r E]; [lia|]. exists n, r. intros more. apply (assignable_mono n); [lia|done].
Qed.

End Engine.

(** ** What assignability means

    The rules of the Java Language Specification (subtyping 4.10, containment
    4.5.1, assignment contexts 5.2) over a world of classes.  A type argument
    that is a wildcard stands for its capture (5.1.10); the rules are those of
    types without one on the actual side, where capture conversion is the
    identity, so they have none for it. *)
Definition ref_type (t : TypeRef) : bool :=
  match t with Named _ _ | Array _ | TVariable _ => true | _ => false end.
Definition bounds_or_object (bounds : list TypeRef) : list TypeRef :=
  if bool_decide (bounds = []) then [OBJECT] else bounds.

Section Rules.
Context (W : Classes).

(** [Named id args] inherits [target]<[found]> along a path on which [target]
    comes last. *)
Inductive inherits (target : TypeId) (found : list TypeRef) : TypeRef → Prop :=
| inherits_here : inherits target found (Named target found)
| inherits_up id args m sup : id ≠ target → facts id = Some m → sup ∈ use_supertypes m args →
    inherits target found sup → inherits target found (Named id args).

Inductive Subtype : TypeRef → TypeRef → Prop :=
| st_same v : Subtype (TVariable v) (TVariable v)
| st_variable v bounds b e : variable_bounds v = Some bounds → b ∈ bounds_or_object bounds →
    Subtype b e → Subtype (TVariable v) e
| st_array_primitive p : Subtype (Array (Primitive p)) (Array (Primitive p))
| st_array a e : ref_type a = true → ref_type e = true → Subtype a e → Subtype (Array a) (Array e)
| st_array_object a b args : b ∈ ["java.lang.Object"; "java.lang.Cloneable"; "java.io.Serializable"] →
    Subtype (Array a) (Named (TNamed b) args)
| st_object id args eargs : id ≠ TNamed "java.lang.Object" →
    Subtype (Named id args) (Named (TNamed "java.lang.Object") eargs)
| st_class id args eid eargs found : inherits eid found (Named id args) →
    eargs = [] ∨ Forall2 Contained found eargs → Subtype (Named id args) (Named eid eargs)
with Contained : TypeRef → TypeRef → Prop :=
| co_any a : Contained a (Wildcard None None)
| co_extends a eu : Subtype a eu → Contained a (Wildcard (Some eu) None)
| co_super a el : Subtype el a → Contained a (Wildcard None (Some el))
| co_same a : Contained a a.

(** Subtyping, with boxing before or unboxing after it, or unchecked
    conversion from a raw type. *)
Inductive Assignable : TypeRef → TypeRef → Prop :=
| as_null e : is_reference e = true → Assignable Null e
| as_void : Assignable Void Void
| as_widening p q : p = q ∨ widens_to p q = true → Assignable (Primitive p) (Primitive q)
| as_box p args : Assignable (Primitive p) (Named (TNamed (box_fqn p)) args)
| as_box_up p e : Subtype (named (box_fqn p)) e → Assignable (Primitive p) e
| as_unbox b args p q : from_box_fqn b = Some p → p = q ∨ widens_to p q = true →
    Assignable (Named (TNamed b) args) (Primitive q)
| as_subtype a e : Subtype a e → Assignable a e
| as_variable v bounds b e : variable_bounds v = Some bounds → b ∈ bounds_or_object bounds →
    ref_type e = true ∨ (∃ p, e = Primitive p) → Assignable b e → Assignable (TVariable v) e
| as_array a e : ref_type a = true → ref_type e = true → Assignable a e → Assignable (Array a) (Array e)
| as_unchecked id args eid eargs : inherits eid [] (Named id args) →
    Assignable (Named id args) (Named eid eargs).

Lemma subtype_ref a e : Subtype a e → ref_type a = true ∧ ref_type e = true.
Proof. by induction 1 as [|v bs b e Hv Hb H [_ ?]| | | | |]. Qed.
End Rules.

(** A world the classes known may be part of: what is known of a class is so,
    and all its supertypes are known where the hierarchy is said to be
    complete.  Of classes that are not known it may hold anything. *)
Record completes (K W : Classes) : Prop := {
  same_table : ∀ b, @in_table W b = @in_table K b;
  same_class : ∀ id m, @facts K id = Some m → ∃ m', @facts W id = Some m'
    ∧ cm_type_parameters m' = cm_type_parameters m ∧ cm_supertypes m ⊆ cm_supertypes m'
    ∧ (cm_hierarchy_complete m = true → cm_supertypes m' = cm_supertypes m);
}.

(** What the engine relies on of the library: a box inherits no other box and
    nothing the project declares. *)
Definition boxes_apart (W : Classes) : Prop :=
  @in_table W "java.lang.Object" = false
  ∧ ∀ p id found, inherits W id found (named (box_fqn p)) →
      match id with
      | TNamed b => @in_table W b = false ∧ ∀ q, from_box_fqn b = Some q → q = p
      | TLocal _ _ => False
      end.

(** [P] holds of types without wildcards and unknown parts, [Q] of types that
    may be expected, whose arguments may be wildcards; both of every type the
    rules lead to from there. *)
Record captureless (K : Classes) (P Q : TypeRef → Prop) : Prop := {
  cl_head t : P t → match t with Wildcard _ _ | Unknown => False | _ => True end;
  cl_args id args a : P (Named id args) → a ∈ args → ref_type a = true ∧ P a;
  cl_element a : P (Array a) → (ref_type a = true ∨ ∃ p, a = Primitive p) ∧ P a;
  cl_super id args m sup : P (Named id args) → @facts K id = Some m →
    sup ∈ use_supertypes m args → P sup;
  cl_bound v bounds b : P (TVariable v) → @variable_bounds K v = Some bounds →
    b ∈ bounds_or_object bounds → ref_type b = true ∧ P b;
  cl_box p : P (Primitive p) → P (named (box_fqn p));
  cl_expected t : P t → Q t;
  cl_known t : Q t → contains_unknown t = false;
  cl_head_expected t : Q t → match t with Wildcard _ _ => False | _ => True end;
  cl_upper id args u l : Q (Named id args) → Wildcard (Some u) l ∈ args → ref_type u = true ∧ Q u;
  cl_lower id args u l : Q (Named id args) → Wildcard u (Some l) ∈ args → ref_type l = true ∧ P l;
  cl_expected_element e : Q (Array e) → (ref_type e = true ∨ ∃ p, e = Primitive p) ∧ Q e;
}.

(** ** Soundness *)

Section Sound.
Context (K W : Classes) (HW : completes K W) (HB : boxes_apart W).
Context (P Q : TypeRef → Prop) (HP : captureless K P Q).

Lemma bounds_same v bounds : @variable_bounds K v = Some bounds → @variable_bounds W v = Some bounds.
Proof.
  unfold variable_bounds. destruct (@facts K (TNamed (tv_owner v))) as [m|] eqn:E; [|done]. cbn.
  destruct (same_class _ _ HW _ _ E) as (m' & -> & Ep & _). cbn. by rewrite Ep.
Qed.

Variable rec : TypeRef → TypeRef → option (option bool).
Hypothesis rec_yes : ∀ a e, P a → Q e → rec a e = Some (Some true) →
  Assignable W a e ∧ (ref_type a = true → ref_type e = true → Subtype W a e).
Hypothesis rec_no : ∀ a e, P a → Q e → rec a e = Some (Some false) → ¬ Assignable W a e.
Hypothesis rec_variable : ∀ a v, ref_type a = true → P a → rec a (TVariable v) ≠ Some (Some false).

(** What an expected argument may ask for. *)
Definition arg_ok (e : TypeRef) : Prop :=
  match e with
  | Wildcard u l => (∀ x, u = Some x → ref_type x = true ∧ Q x) ∧ (∀ x, l = Some x → ref_type x = true ∧ P x)
  | _ => True
  end.
Lemma expected_args id args e : Q (Named id args) → e ∈ args → arg_ok e.
Proof.
  intros HQ He. destruct e as [| | | | | |u l|]; try done. split; intros x ->.
  - by eapply (cl_upper _ _ _ HP).
  - by eapply (cl_lower _ _ _ HP).
Qed.

Lemma contains_arg_yes a e : ref_type a = true → P a → arg_ok e →
  contains_arg rec (a, e) = Some (Some true) → Contained W a e.
Proof.
  intros Hr Ha He. destruct e as [| | | | | |[eu|] [el|]|]; destruct a as [| | | | | |[au|] [al|]|];
    cbn [contains_arg]; intros E; try discriminate E; try discriminate Hr; try constructor;
    try (destruct He as [He1 He2]);
    try (destruct (He1 _ eq_refl) as [H1 H2]; by apply rec_yes);
    try (destruct (He2 _ eq_refl) as [H1 H2]; apply rec_yes; [done|by eapply (cl_expected _ _ _ HP)|done..]);
    try (injection E as E; apply bool_decide_eq_true in E; rewrite <-?E; try (injection E as ?; subst); by constructor).
Qed.

Lemma contains_arg_no a e : ref_type a = true → P a → arg_ok e →
  contains_arg rec (a, e) = Some (Some false) → ¬ Contained W a e.
Proof.
  intros Hr Ha He. destruct e as [| | | | | |[eu|] [el|]|]; destruct a as [| | | | | |[au|] [al|]|];
    cbn [contains_arg]; intros E Hc; try discriminate E; try discriminate Hr; inversion Hc; subst;
    try (destruct He as [He1 He2]);
    try (destruct (He1 _ eq_refl) as [? ?]; eapply rec_no; [exact Ha|done|exact E|by apply as_subtype]);
    try (destruct (He2 _ eq_refl) as [? ?]; eapply rec_no; [| |exact E|by apply as_subtype]; [done|by eapply (cl_expected _ _ _ HP)]);
    try congruence; try (injection E as E; apply bool_decide_eq_false in E; congruence).
Qed.

Lemma type_args_yes actual expected : (∀ a, a ∈ actual → ref_type a = true ∧ P a) →
  (∀ e, e ∈ expected → arg_ok e) → type_args_contain rec actual expected = Some (Some true) →
  expected = [] ∨ Forall2 (Contained W) actual expected.
Proof.
  intros Ha He. unfold type_args_contain. case_bool_decide; [by left|]. case_bool_decide; [done|]. cbn [orb].
  destruct (Nat.eqb_spec (length actual) (length expected)) as [El|]; [|done]. cbn.
  intros [_ Hall]%all_proved_true. right. apply Forall2_same_length_lookup_2; [done|].
  intros i a e Hi Hj. destruct (Ha a) as [? ?]; [by eapply list_elem_of_lookup_2|].
  apply contains_arg_yes; [done..|by eapply He, list_elem_of_lookup_2|]. apply Hall.
  apply (list_elem_of_lookup_2 _ i). apply lookup_zip_with_Some. eauto.
Qed.
Lemma type_args_no actual expected : (∀ a, a ∈ actual → ref_type a = true ∧ P a) →
  (∀ e, e ∈ expected → arg_ok e) → type_args_contain rec actual expected = Some (Some false) →
  expected ≠ [] ∧ actual ≠ [] ∧ ¬ Forall2 (Contained W) actual expected.
Proof.
  intros Ha He. unfold type_args_contain. case_bool_decide; [done|]. case_bool_decide; [done|]. cbn [orb].
  destruct (_ =? _)%nat; [|done]. cbn. intros ([a e] & Hin & E)%all_proved_false. split; [done|]. split; [done|].
  intros HF. apply list_elem_of_lookup in Hin as [i Hi]. apply lookup_zip_with_Some in Hi as (? & ? & [= <- <-] & Hi & Hj).
  destruct (Ha a) as [? ?]; [by eapply list_elem_of_lookup_2|].
  eapply contains_arg_no; [done|done|by eapply He, list_elem_of_lookup_2|exact E|]. by eapply Forall2_lookup_lr.
Qed.

Definition is_object (target : TypeId) : Prop := as_named target = Some "java.lang.Object".
Lemma is_object_eq target : is_object target ↔ target = TNamed "java.lang.Object".
Proof. unfold is_object. destruct target; cbn; naive_solver. Qed.

Lemma supertypes_known id m m' args : @facts K id = Some m → @facts W id = Some m' →
  use_supertypes m args ⊆ use_supertypes m' args
  ∧ (cm_hierarchy_complete m = true → use_supertypes m' args = use_supertypes m args).
Proof.
  intros Hm Hm'. destruct (same_class _ _ HW _ _ Hm) as (m2 & Hm2 & Ep & Hs & Hc).
  assert (m2 = m') as -> by congruence. unfold use_supertypes, class_env. rewrite Ep. split.
  - intros x (sup & -> & Hin)%list_elem_of_fmap. apply list_elem_of_fmap. exists sup. split; [done|by apply Hs].
  - intros Hx. by rewrite (Hc Hx).
Qed.

Lemma is_subtype_yes target targs b : (∀ e, e ∈ targs → arg_ok e) → ∀ seen actual, P actual →
  @is_subtype K rec b target targs seen actual = Some (Some true) →
  (∃ found, inherits W target found actual ∧ (targs = [] ∨ Forall2 (Contained W) found targs))
  ∨ (is_object target ∧ ∃ id args, actual = Named id args ∧ id ≠ target).
Proof.
  intros Ht. induction b as [|b IH]; intros seen [| | |id args| | | |] Ha; cbn [is_subtype]; try done.
  case_bool_decide; [done|]. case_bool_decide as Hid.
  { subst id. intros Hc%type_args_yes; [|by intros; eapply (cl_args _ _ _ HP)|done]. left. exists args. split; [constructor|done]. }
  case_bool_decide as Ho; [intros _; right; split; [done|]; by exists id, args|].
  destruct (_ && _); [done|]. destruct (@facts K id) as [m|] eqn:Em; [|done].
  intros (sup & Hsup & Hs)%any_proved_true. left.
  destruct (same_class _ _ HW _ _ Em) as (m' & Hm' & _).
  destruct (IH _ sup ltac:(by eapply (cl_super _ _ _ HP)) Hs) as [(found & Hi & Hc)|[Ho' _]]; [|done].
  exists found. split; [|done]. eapply inherits_up; [done|exact Hm'| |exact Hi].
  by apply (supertypes_known id m m' args).
Qed.

Lemma is_subtype_no target targs b : (∀ e, e ∈ targs → arg_ok e) → ∀ seen actual, P actual →
  @is_subtype K rec b target targs seen actual = Some (Some false) →
  ∀ found, inherits W target found actual →
    targs ≠ [] ∧ found ≠ [] ∧ ¬ Forall2 (Contained W) found targs.
Proof.
  intros Ht. induction b as [|b IH]; intros seen [| | |id args| | | |] Ha; cbn [is_subtype]; try done.
  case_bool_decide; [done|]. case_bool_decide as Hid.
  { subst id. intros Hc%type_args_no; [|by intros; eapply (cl_args _ _ _ HP)|done]. intros found Hi. by inversion Hi. }
  case_bool_decide as Ho; [done|].
  destruct (_ && _); [done|]. destruct (@facts K id) as [m|] eqn:Em; [|done].
  intros [Hc Hall]%any_proved_false found Hi.
  inversion Hi as [|? ? m' sup ? Em' Hsup Hi']; subst; [done|].
  destruct (supertypes_known id m m' args Em Em') as [_ Hsame].
  rewrite Hsame in Hsup by by apply negb_false_iff.
  eapply IH; [|by apply Hall|done]. by eapply (cl_super _ _ _ HP).
Qed.

Lemma no_object_target targs b seen id args : id ≠ TNamed "java.lang.Object" →
  @is_subtype K rec (S b) (TNamed "java.lang.Object") targs seen (Named id args) ≠ Some (Some false).
Proof.
  intros Hid. cbn [is_subtype]. case_bool_decide; [done|].
  rewrite bool_decide_eq_false_2 by done. by rewrite bool_decide_eq_true_2.
Qed.

Lemma step_yes a e : P a → Q e → @assignable_step K rec a e = Some (Some true) →
  Assignable W a e ∧ (ref_type a = true → ref_type e = true → Subtype W a e).
Proof.
  intros Ha He E. destruct a as [p| | |id args|a|v|u l|]; [..|by destruct e].
  - split; [|done]. destruct e as [q| | |[eb|] eargs| | | |]; cbn [assignable_step] in E; try done.
    + destruct (bool_decide (p = q) || widens_to p q) eqn:Ew; [|by destruct p, q].
      constructor. apply orb_true_iff in Ew as [->%bool_decide_eq_true|?]; auto.
    + destruct (@in_table K eb); [done|]. destruct (from_box_fqn eb) as [ep|] eqn:Eb.
      * case_bool_decide; [|by destruct p, ep]. subst ep.
        assert (eb = box_fqn p) as ->; [|by constructor].
        unfold from_box_fqn in Eb. apply List.find_some in Eb as [_ Eb]. by apply bool_decide_eq_true in Eb.
      * apply as_box_up. apply rec_yes in E; [by apply E| |done]. by eapply (cl_box _ _ _ HP).
  - split; [|done]. destruct e; try done. constructor.
  - split; [|done]. destruct e; try done; by constructor.
  - destruct e as [q| | |eid eargs| | | |]; cbn [assignable_step] in E; try done.
    + split; [|done]. destruct id as [b|]; [|done]. cbn [as_named mbind option_bind] in E.
      destruct (from_box_fqn b) as [p|] eqn:Eb; [|done].
      eapply as_unbox; [done|]. injection E as [->%bool_decide_eq_true|?]%orb_true_iff; auto.
    + assert (Subtype W (Named id args) (Named eid eargs)); [|by split; [apply as_subtype|]].
      apply is_subtype_yes in E as [(found & Hi & Hc)|[->%is_object_eq (? & ? & [= <- <-] & Hne)]].
      * by eapply st_class.
      * by constructor.
      * intros x. by eapply expected_args.
      * done.
  - destruct e as [q| | |[b|] eargs|e| | |]; cbn [assignable_step] in E; try done.
    + assert (Subtype W (Array a) (Named (TNamed b) eargs)); [|by split; [apply as_subtype|]].
      apply st_array_object. injection E as E. by apply bool_decide_eq_true in E.
    + destruct (cl_element _ _ _ HP _ Ha) as [Hka Ha']. destruct (cl_expected_element _ _ _ HP _ He) as [Hke He'].
      destruct Hka as [Hka|[x ->]], Hke as [Hke|[y ->]]; [|by destruct a|by destruct e|].
      * assert (rec a e = Some (Some true)) as [_ Hs]%rec_yes by (by destruct a, e). 2-3: done.
        specialize (Hs Hka Hke). split; [apply as_subtype|intros _ _]; by apply st_array.
      * injection E as ->%bool_decide_eq_true. split; [apply as_subtype|intros _ _]; constructor.
  - assert (∀ bs b, @variable_bounds K v = Some bs → b ∈ bounds_or_object bs → rec b e = Some (Some true) →
      ref_type e = true ∨ (∃ p, e = Primitive p) →
      Assignable W (TVariable v) e ∧ (ref_type (TVariable v) = true → ref_type e = true → Subtype W (TVariable v) e)) as Hv.
    { intros bs b Hb Hin Hr Hk. destruct (cl_bound _ _ _ HP _ _ _ Ha Hb Hin) as [Hbr Hbp].
      apply rec_yes in Hr as [Hr1 Hr2]; [|done..].
      split; [by eapply as_variable; [apply bounds_same| | |]|]. intros _ Hre.
      eapply st_variable; [by apply bounds_same|done|by apply Hr2]. }
    destruct e; cbn [assignable_step] in E; try done;
      (destruct (@variable_bounds K v) as [bs|] eqn:Ev; [|done]; apply any_proved_true in E as (b & Hb & E);
       eapply Hv; [done|exact Hb|done|eauto]).
    by destruct (cl_head_expected _ _ _ HP _ He).
  - by destruct (cl_head _ _ _ HP _ Ha).
Qed.

Lemma step_variable a v : ref_type a = true → P a → @assignable_step K rec a (TVariable v) ≠ Some (Some false).
Proof.
  intros Hr Ha. destruct a as [| | | |a|w| |]; try done; cbn [assignable_step].
  destruct (@variable_bounds K w) as [bs|] eqn:Ew; [|done]. intros [_ Hall]%any_proved_false.
  assert (∃ b, b ∈ bounds_or_object bs) as [b Hb].
  { unfold bounds_or_object. case_bool_decide; [by exists OBJECT; left|]. destruct bs as [|b bs]; [done|]. exists b. by left. }
  destruct (cl_bound _ _ _ HP _ _ _ Ha Ew Hb) as [? ?]. by eapply rec_variable; [..|apply Hall].
Qed.

Lemma box_subtype p b eargs : Subtype W (named (box_fqn p)) (Named (TNamed b) eargs) →
  @in_table K b = false ∧ ∀ q, from_box_fqn b = Some q → q = p.
Proof.
  destruct HB as [HO HA]. inversion 1; subst.
  - split; [by rewrite <-(same_table _ _ HW)|]. intros q Hq. by vm_compute in Hq.
  - destruct (HA p (TNamed b) found) as [? ?]; [done|]. by rewrite <-(same_table _ _ HW).
Qed.

(** The cases of a primitive type. *)
Lemma step_no_primitive p e : P (Primitive p) → Q e →
  @assignable_step K rec (Primitive p) e = Some (Some false) → ¬ Assignable W (Primitive p) e.
Proof.
  intros Ha He E Hx. destruct (boxing_roundtrip p p) as [Hr _].
  inversion Hx as [| |? q Hw|? args|? ? Hs| |? ? Hs| | |]; subst; cbn [assignable_step] in E.
  - destruct Hw as [->|Hw]; [by rewrite bool_decide_eq_true_2 in E|]. by rewrite Hw, orb_true_r in E.
  - destruct (@in_table K (box_fqn p)) eqn:Et.
    + destruct HB as [_ HA]. destruct (HA p (TNamed (box_fqn p)) []) as [Hf _]; [constructor|].
      rewrite (same_table _ _ HW) in Hf. by rewrite Hf in Et.
    + by rewrite Hr, bool_decide_eq_true_2 in E.
  - destruct e as [q| | |[eb|n k] eargs|e|w|u l|]; try by apply subtype_ref in Hs as [_ ?].
    + destruct (box_subtype _ _ _ Hs) as [Hf Hq]. rewrite Hf in E.
      destruct (from_box_fqn eb) as [ep|] eqn:Eb.
      * rewrite (Hq ep eq_refl), bool_decide_eq_true_2 in E; done.
      * eapply rec_no; [|exact He|exact E|by apply as_subtype]. by eapply (cl_box _ _ _ HP).
    + inversion Hs; subst. destruct HB as [_ HA]. by apply (HA p (TLocal n k) found).
    + inversion Hs.
  - by apply subtype_ref in Hs as [? _].
Qed.

Lemma step_no_subtype a e : P a → Q e → @assignable_step K rec a e = Some (Some false) → ¬ Subtype W a e.
Proof.
  intros Ha He E Hs. destruct Hs as [v|v bs b e Hv Hb Hs|p|a e Hra Hre Hs|a b args Hb|id args eargs Hid|id args eid eargs found Hi Hc].
  - by apply (step_variable (TVariable v) v).
  - destruct (subtype_ref _ _ _ Hs) as [_ Hre]. destruct e; try done; cbn [assignable_step] in E;
      (destruct (@variable_bounds K v) as [bs'|] eqn:Ev; [|done]); pose proof (bounds_same _ _ Ev) as Ew;
      assert (bs' = bs) as -> by congruence; apply any_proved_false in E as [_ E];
      destruct (cl_bound _ _ _ HP _ _ _ Ha Ev Hb) as [? ?];
      (eapply rec_no; [|exact He|by apply E|by apply as_subtype]; done).
  - cbn [assignable_step] in E. by rewrite bool_decide_eq_true_2 in E.
  - destruct (cl_element _ _ _ HP _ Ha) as [_ ?]. destruct (cl_expected_element _ _ _ HP _ He) as [_ ?].
    cbn [assignable_step] in E. destruct a, e; try done; by eapply rec_no; [| |exact E|apply as_subtype].
  - cbn [assignable_step] in E. by rewrite bool_decide_eq_true_2 in E.
  - cbn [assignable_step] in E. by apply no_object_target in E.
  - cbn [assignable_step] in E.
    destruct (is_subtype_no _ _ _ ltac:(intros x; by eapply expected_args) _ _ Ha E _ Hi) as (?&?&?). by destruct Hc.
Qed.

Lemma step_no a e : P a → Q e → @assignable_step K rec a e = Some (Some false) → ¬ Assignable W a e.
Proof.
  intros Ha He E Hx. destruct a as [p| | |id args|a|v|u l|].
  - by eapply step_no_primitive.
  - inversion Hx as [| | | | | |? ? Hs| | |]; subst; [done|]. by apply subtype_ref in Hs as [? _].
  - inversion Hx as [? Hr| | | | | |? ? Hs| | |]; subst; [by destruct e|]. by apply subtype_ref in Hs as [? _].
  - inversion Hx as [| | | | |b ? p q Hb Hw|? ? Hs| | |? ? eid eargs Hi]; subst.
    + cbn [assignable_step as_named mbind option_bind] in E. rewrite Hb in E.
      destruct Hw as [->|Hw]; [by rewrite bool_decide_eq_true_2 in E|]. by rewrite Hw, orb_true_r in E.
    + by eapply step_no_subtype.
    + cbn [assignable_step] in E.
      by destruct (is_subtype_no _ _ _ ltac:(intros x; by eapply expected_args) _ _ Ha E _ Hi) as (?&?&?).
  - inversion Hx as [| | | | | |? ? Hs| |? e' Hra Hre Ha'|]; subst; [by eapply step_no_subtype|].
    destruct (cl_element _ _ _ HP _ Ha) as [_ ?]. destruct (cl_expected_element _ _ _ HP _ He) as [_ ?].
    cbn [assignable_step] in E. destruct a, e'; try done; by eapply rec_no; [| |exact E|].
  - inversion Hx as [| | | | | |? ? Hs|? bs b ? Hv Hb Hk Hy| |]; subst; [by eapply step_no_subtype|].
    assert (∀ r, r = Some (Some false) → @assignable_step K rec (TVariable v) e = r →
      ∃ bs', @variable_bounds K v = Some bs' ∧ any_proved (λ b, rec b e) false (bounds_or_object bs') = r) as Hstep.
    { intros r -> E'. destruct Hk as [Hk|[q ->]]; [destruct e; try done|];
        cbn [assignable_step] in E'; (destruct (@variable_bounds K v); [by eexists|done]). }
    destruct (Hstep _ eq_refl E) as (bs' & Ev & E'). pose proof (bounds_same _ _ Ev) as Ew.
    assert (bs' = bs) as -> by congruence. apply any_proved_false in E' as [_ E'].
    destruct (cl_bound _ _ _ HP _ _ _ Ha Ev Hb) as [? ?]. eapply rec_no; [|exact He|by apply E'|done]. done.
  - by destruct (cl_head _ _ _ HP _ Ha).
  - by destruct (cl_head _ _ _ HP _ Ha).
Qed.

End Sound.

Section Proved.
Context (K W : Classes) (HW : completes K W) (HB : boxes_apart W).
Context (P Q : TypeRef → Prop) (HP : captureless K P Q).

Lemma assignable_answers n :
  (∀ a e, P a → Q e → @assignable_refs K n a e = Some (Some true) →
     Assignable W a e ∧ (ref_type a = true → ref_type e = true → Subtype W a e))
  ∧ (∀ a e, P a → Q e → @assignable_refs K n a e = Some (Some false) → ¬ Assignable W a e)
  ∧ ∀ a v, ref_type a = true → P a → @assignable_refs K n a (TVariable v) ≠ Some (Some false).
Proof.
  induction n as [|n (IHy & IHn & IHv)]; [done|]. cbn [assignable_refs]. split_and!; intros.
  - by apply (step_yes K W HW P Q HP _ IHy).
  - by apply (step_no K W HW HB P Q HP _ IHn IHv).
  - by apply (step_variable K P Q HP _ IHv).
Qed.

End Proved.


(** ** Where it does not return *)

Definition plain_class (fqn : string) (params : list TypeParameter) (supers : list TypeRef) : ClassMetadata :=
  mkClassMetadata (TNamed fqn) KClass Public false true None params supers true true.

(** [class A<T extends T> {}], which a half-written file can hold: any
    question about a value of type [T] recurses without end. *)
Definition cyclic_T : TypeVariableId := mkTypeVariableId "A" 0.
Definition cyclic_classes : Classes := {|
  facts id := if bool_decide (id = TNamed "A") then Some (plain_class "A" [mkTypeParameter cyclic_T [TVariable cyclic_T]] []) else None;
  in_table b := bool_decide (b = "A") |}.
Lemma cyclic_bound_overflows fuel : @assignable_refs cyclic_classes fuel (TVariable cyclic_T) (named "java.lang.String") = None.
Proof.
  induction fuel as [|f IH]; [done|]. cbn [assignable_refs].
  assert (E : @variable_bounds cyclic_classes cyclic_T = Some [TVariable cyclic_T]) by reflexivity.
  unfold named in *. cbn [assignable_step]. rewrite E. cbn [any_proved bool_decide_eq_false_2].
  rewrite bool_decide_eq_false_2 by done. cbn [any_proved]. by rewrite IH.
Qed.

(** [class N<Z> {}] and [class C implements N<N<? super C>> {}], which is
    legal: whether a [C] is an [N<? super C>] recurses without end. *)
Definition expansive_classes : Classes := {|
  facts id :=
    if bool_decide (id = TNamed "N") then Some (plain_class "N" [mkTypeParameter (mkTypeVariableId "N" 0) []] [])
    else if bool_decide (id = TNamed "C")
    then Some (plain_class "C" [] [named_with "N" [named_with "N" [Wildcard None (Some (named "C"))]]]) else None;
  in_table _ := true |}.
Lemma super_wildcard_overflows fuel :
  @assignable_refs expansive_classes fuel (named "C") (named_with "N" [Wildcard None (Some (named "C"))]) = None.
Proof.
  induction fuel as [|f IH]; [done|]. cbn [assignable_refs named named_with assignable_step].
  unfold named, named_with in *.
  set (r := @assignable_refs expansive_classes f) in *. clearbody r.
  assert (E : @is_subtype expansive_classes r (S MAX_SUBTYPE_DEPTH) (TNamed "N") [Wildcard None (Some (Named (TNamed "C") []))] [] (Named (TNamed "C") [])
    = match r (Named (TNamed "C") []) (Named (TNamed "N") [Wildcard None (Some (Named (TNamed "C") []))]) with
      | Some (Some true) => Some (Some true) | Some (Some false) => Some (Some false) | Some None => Some None | None => None end).
  { vm_compute. by destruct (r _ _) as [[[]|]|]. }
  by rewrite E, IH.
Qed.

(** *** A small library *)

Module Sample.
Definition E_of (owner : string) : TypeVariableId := mkTypeVariableId owner 0.
Definition param (owner : string) : list TypeParameter := [mkTypeParameter (E_of owner) []].
Definition classes : list (string * ClassMetadata) := [
  ("java.lang.Object", plain_class "java.lang.Object" [] []);
  ("java.lang.Number", plain_class "java.lang.Number" [] [OBJECT]);
  ("java.lang.Integer", plain_class "java.lang.Integer" [] [named "java.lang.Number"]);
  ("java.util.Collection", plain_class "java.util.Collection" (param "java.util.Collection") [OBJECT]);
  ("java.util.List", plain_class "java.util.List" (param "java.util.List")
     [named_with "java.util.Collection" [TVariable (E_of "java.util.List")]]);
  ("demo.Box", plain_class "demo.Box" [mkTypeParameter (E_of "demo.Box") [named "java.lang.Number"]]
     [named_with "java.util.List" [TVariable (E_of "demo.Box")]])].
#[local] Instance sample : Classes := {|
  facts id := s ← as_named id; snd <$> List.find (λ c, bool_decide (c.1 = s)) classes;
  in_table b := bool_decide (b = "demo.Box") |}.

Definition integer : TypeRef := named "java.lang.Integer".
Example boxes_are_lists :
  assignable_refs 9 (named_with "demo.Box" [integer])
    (named_with "java.util.Collection" [Wildcard (Some (named "java.lang.Number")) None]) = Some (Some true)
  ∧ assignable_refs 9 (named_with "demo.Box" [integer]) (named_with "java.util.Collection" [named "java.lang.Number"])
    = Some (Some false)
  ∧ assignable_refs 9 (TVariable (E_of "demo.Box")) integer = Some (Some false)
  ∧ assignable_refs 9 (Primitive PInt) (named "java.lang.Number") = Some (Some true)
  ∧ assignable_refs 9 (named "demo.Gone") integer = Some None.
Proof. vm_compute. done. Qed.

Lemma sample_acyclic : acyclic_bounds (λ _, O).
Proof.
  intros v bounds b. unfold variable_bounds. cbn [facts sample as_named mbind option_bind]. intros Hv Hb.
  destruct (List.find _ classes) as [[s c]|] eqn:Ef; [|done]. apply List.find_some in Ef as [Hc _]. cbn in Hv.
  destruct (cm_type_parameters c !! tv_index v) as [p|] eqn:Ep; [|done]. injection Hv as <-.
  apply list_elem_of_lookup_2 in Ep.
  assert (Hall : Forall (λ sc, Forall (λ p, Forall (λ b, head_rank (λ _, O) b = O) (tp_bounds p)) (cm_type_parameters sc.2)) classes)
    by (repeat constructor).
  rewrite Forall_forall in Hall. specialize (Hall (s, c)). apply list_elem_of_In in Hc. specialize (Hall Hc).
  rewrite Forall_forall in Hall. specialize (Hall p Ep). rewrite Forall_forall in Hall. by rewrite Hall.
Qed.

Lemma assignable_terminates_witness : ∃ fuel r, ∀ more,
  assignable_refs (fuel + more) (TVariable (E_of "demo.Box")) (named_with "java.util.Collection" [integer]) = Some r.
Proof. apply (assignable_terminates (λ _, O)); [exact sample_acyclic | reflexivity]. Defined.

(** *** Answers about types without wildcards *)

Definition numbers : TypeRef := named_with "java.util.Collection" [Wildcard (Some (named "java.lang.Number")) None].
Definition plain_types : list TypeRef :=
  [named_with "demo.Box" [integer]; named_with "java.util.List" [integer];
   named_with "java.util.Collection" [integer]; integer; named "java.lang.Number"; OBJECT].
Definition is_plain (t : TypeRef) : Prop := t ∈ plain_types.
Definition is_expected (t : TypeRef) : Prop := t ∈ numbers :: plain_types.

Lemma sample_captureless : captureless sample is_plain is_expected.
Proof.
  split; unfold is_expected, is_plain.
  - intros t Ht. assert (Forall (λ t, match t with Wildcard _ _ | Unknown => False | _ => True end) plain_types) as H
      by (by repeat constructor). rewrite Forall_forall in H. by apply H.
  - intros id args a Ht Ha.
    assert (Forall (λ t, match t with Named _ args => Forall (λ a, ref_type a = true ∧ a ∈ plain_types) args | _ => True end)
      plain_types) as H by (repeat constructor; apply (bool_decide_unpack _); by vm_compute).
    rewrite Forall_forall in H. specialize (H _ Ht). rewrite Forall_forall in H. by apply H.
  - intros a Ht. unfold plain_types in Ht. set_unfold. naive_solver.
  - intros id args m sup Ht Hm Hs.
    assert (Forall (λ t, match t with
      | Named id args => match facts id with
          | Some m => Forall (λ sup, sup ∈ plain_types) (use_supertypes m args) | None => True end
      | _ => True end) plain_types) as H
      by (repeat constructor; apply (bool_decide_unpack _); by vm_compute).
    rewrite Forall_forall in H. specialize (H _ Ht). cbn beta iota in H. rewrite Hm, Forall_forall in H. by apply H.
  - intros v bs b Ht. unfold plain_types in Ht. set_unfold. naive_solver.
  - intros p Ht. unfold plain_types in Ht. set_unfold. naive_solver.
  - intros t Ht. by right.
  - intros t Ht. assert (Forall (λ t, contains_unknown t = false) (numbers :: plain_types)) as H
      by (by repeat constructor). rewrite Forall_forall in H. by apply H.
  - intros t Ht. assert (Forall (λ t, match t with Wildcard _ _ => False | _ => True end) (numbers :: plain_types)) as H
      by (by repeat constructor). rewrite Forall_forall in H. by apply H.
  - intros id args u l Ht Hw. unfold numbers, plain_types, integer, OBJECT, named_with, named in *. set_unfold.
    destruct Ht as [[= -> ->]|Ht]; [set_unfold; destruct Hw as [[= -> ->]|[]]; naive_solver|].
    destruct_or!; try done; injection Ht as -> ->; set_unfold; naive_solver.
  - intros id args u l Ht Hw. unfold numbers, plain_types, integer, OBJECT, named_with, named in *. set_unfold.
    destruct_or!; try done; injection Ht as -> ->; set_unfold; naive_solver.
  - intros e Ht. unfold numbers, plain_types in Ht. set_unfold. naive_solver.
Qed.

Lemma sample_completes : completes sample sample.
Proof. split; [done|]. intros id m Hm. by exists m. Qed.

(** Integer, the one box of the library, inherits Number and Object. *)
Definition above_boxes : list TypeRef := named "java.lang.Number" :: OBJECT :: (named ∘ box_fqn <$> all_primitives).
Lemma above_boxes_closed id found t : inherits sample id found t → t ∈ above_boxes →
  Named id found ∈ above_boxes ∧ (t = named "java.lang.Number" ∨ t = OBJECT → from_box_fqn (default "" (as_named id)) = None)
  ∧ ∀ p, t = named (box_fqn p) → id = TNamed (box_fqn p) ∨ from_box_fqn (default "" (as_named id)) = None.
Proof.
  induction 1 as [|id' args m sup Hne Hm Hs Hi IH]; intros Ht.
  - split; [done|]. split; [intros [[= -> _]|[= -> _]]; done|]. intros p [= -> _]. by left.
  - assert (Forall (λ t, match t with
      | Named id args => match @facts sample id with
          | Some m => Forall (λ sup, sup ∈ above_boxes ∧ (sup = named "java.lang.Number" ∨ sup = OBJECT)) (use_supertypes m args)
          | None => True end
      | _ => True end) above_boxes) as H
      by (repeat constructor; apply (bool_decide_unpack _); by vm_compute).
    rewrite Forall_forall in H. specialize (H _ Ht). cbn beta iota in H. rewrite Hm, Forall_forall in H.
    destruct (H _ Hs) as [Hin Hor]. destruct (IH Hin) as (H1 & H2 & _).
    split; [done|]. split; [by intros _; apply H2|]. intros p _. right. by apply H2.
Qed.
Lemma sample_boxes : boxes_apart sample.
Proof.
  split; [done|]. intros p id found Hi.
  destruct (above_boxes_closed id found _ Hi) as (Hin & _ & Hb); [by destruct p; apply (bool_decide_unpack _); vm_compute|].
  assert (Forall (λ t, match t with Named (TNamed b) _ => @in_table sample b = false | _ => False end) above_boxes) as H
    by (by repeat constructor).
  rewrite Forall_forall in H. specialize (H _ Hin). destruct id as [b|]; [|done]. split; [done|].
  intros q Hq. destruct (Hb p eq_refl) as [[= ->]|Hn]; [|change (from_box_fqn b = None) in Hn; congruence].
  destruct (boxing_roundtrip p q) as [Hr _]. congruence.
Qed.


(** *** Wrong answers *)

(** A [Box<?>] holds numbers, since [Box] says so of its parameter, and the
    language lets it be assigned to [Box<? extends Number>]; the engine takes
    the wildcard for [? extends Object]. *)
Example captured_bound_missed :
  assignable_refs 9 (named_with "demo.Box" [Wildcard None None])
    (named_with "demo.Box" [Wildcard (Some (named "java.lang.Number")) None]) = Some (Some false).
Proof. by vm_compute. Qed.

(** [class Table<T> extends List<List<T>>]: a [Table<?>] is a list of lists of
    one unknown type, not a [List<List<?>>]; the engine puts the wildcard
    itself in the supertype. *)
Definition table_class : ClassMetadata :=
  plain_class "demo.Table" (param "demo.Table")
    [named_with "java.util.List" [named_with "java.util.List" [TVariable (E_of "demo.Table")]]].
Definition with_table : Classes := {|
  facts id := if bool_decide (id = TNamed "demo.Table") then Some table_class else @facts sample id;
  in_table b := @in_table sample b |}.
Example captured_twice_accepted :
  @assignable_refs with_table 9 (named_with "demo.Table" [Wildcard None None])
    (named_with "java.util.List" [named_with "java.util.List" [Wildcard None None]]) = Some (Some true).
Proof. by vm_compute. Qed.

(** A type that could not be resolved is unknown as an argument, but as an
    argument's argument it differs from every type that could. *)
Example nested_unknown_guessed :
  assignable_refs 9 (named_with "java.util.List" [named_with "java.util.List" [Unknown]])
    (named_with "java.util.List" [named_with "java.util.List" [integer]]) = Some (Some false)
  ∧ assignable_refs 9 (named_with "java.util.List" [Unknown]) (named_with "java.util.List" [integer]) = Some None.
Proof. by vm_compute. Qed.
End Sample.

End Subtyping.
