(* ===== verification/JvmSignature.v ===== *)
(** * JVM generic signatures ([crates/types/src/jvm_signature.rs])

    The bounded parser of untrusted signatures, in its two forms: display
    strings with [{i}] placeholders, and structured [TypeRef]s.  A parser maps
    the unread bytes to a result and the unread bytes that remain; it consumes
    input also when it fails, as [SigParser] does.  The depth counter becomes
    the number of levels left. *)
From S2P Require Import Prelude RustStd JTypes.
From Stdlib Require Import Ascii.

Definition MAX_SIG_DEPTH : nat := 32.

(** ** The parser *)

Definition P (A : Type) : Type := list Z → option A * list Z.
Global Instance P_ret : MRet P := λ A a s, (Some a, s).
Global Instance P_bind : MBind P := λ A B f m s,
  match m s with
  | (Some a, s') => f a s'
  | (None, s') => (None, s')
  end.
Definition p_fail {A} : P A := λ s, (None, s).

Definition peek (s : list Z) : option Z := head s.
Definition bump : P Z := λ s, match s with [] => (None, []) | c :: s' => (Some c, s') end.
Definition expect (b : Z) : P unit := c ← bump; if c =? b then mret () else p_fail.

Fixpoint scan_until (stops : list Z) (s : list Z) : list Z * list Z :=
  match s with
  | [] => ([], [])
  | c :: s' => if bool_decide (c ∈ stops) then ([], s)
               else let '(w, r) := scan_until stops s' in (c :: w, r)
  end.
Definition read_until (stops : list Z) : P string := λ s,
  let '(w, r) := scan_until stops s in (Some (from_utf8_lossy w), r).

(** [while self.peek()? != b'>' { args.push(arg?) }]; an argument consumes
    at least a byte, so the unread length is enough fuel. *)
Fixpoint arg_loop {A} (fuel : nat) (stop : Z) (arg : P A) (acc : list A) : P (list A) := λ s,
  match peek s with
  | None => (None, s)
  | Some c =>
      if c =? stop then (Some acc, s)
      else match fuel with
           | O => (None, s)
           | S f => match arg s with
                    | (Some a, s') => arg_loop f stop arg (acc ++ [a]) s'
                    | (None, s') => (None, s')
                    end
           end
  end.
Definition args_until {A} (stop : Z) (arg : P A) : P (list A) := λ s,
  arg_loop (length s) stop arg [] s.

(** [simple]: the last [/] segment, [$] shown as [.]. *)
Definition simple (binary : string) : string := replace_char "$" "." (split_last "/" binary).

(** [b'<'] [b'>'] [b';'] [b'.'] [b'['] [b':'] [b'('] [b')'] *)
Definition cLT : Z := 60.
Definition cGT : Z := 62.
Definition cSEMI : Z := 59.
Definition cDOT : Z := 46.
Definition cLBRACK : Z := 91.
Definition cCOLON : Z := 58.
Definition cLPAR : Z := 40.
Definition cRPAR : Z := 41.

(** *** Display *)

Section Render.
Context (params shadow : list string).

Fixpoint position (name : string) (l : list string) (i : Z) : option Z :=
  match l with
  | [] => None
  | p :: l' => if bool_decide (p = name) then Some i else position name l' (i + 1)
  end.
Definition var (name : string) : string :=
  if bool_decide (name ∈ shadow) then name
  else match position name params 0 with
       | Some i => "{" +:+ pretty i +:+ "}"
       | None => name
       end.

Definition prim_display (c : Z) : option string :=
  if c =? 66 then Some "byte" else if c =? 67 then Some "char" else if c =? 68 then Some "double"
  else if c =? 70 then Some "float" else if c =? 73 then Some "int" else if c =? 74 then Some "long"
  else if c =? 83 then Some "short" else if c =? 90 then Some "boolean" else None.

Definition type_arg (render : P string) : P string := λ s,
  match peek s with
  | None => (None, s)
  | Some c =>
      if c =? 42 then (_ ← bump; mret "?") s
      else if c =? 43 then (_ ← bump; t ← render; mret ("? extends " +:+ t)) s
      else if c =? 45 then (_ ← bump; t ← render; mret ("? super " +:+ t)) s
      else render s
  end.
Definition type_arg_list (render : P string) : P (list string) :=
  _ ← expect cLT; args ← args_until cGT (type_arg render); _ ← expect cGT; mret args.
Definition maybe_type_arg_list (render : P string) : P (list string) := λ s,
  if bool_decide (peek s = Some cLT) then type_arg_list render s else (Some [], s).
Definition read_class_name : P string := read_until [cLT; cSEMI; cDOT].

(** The [.Inner<...>] segments; each starts with a byte. *)
Fixpoint inner_segments (fuel : nat) (render : P string) (acc : string * list string) :
    P (string * list string) := λ s,
  if bool_decide (peek s = Some cDOT) then
    match fuel with
    | O => (None, s)
    | S f => (_ ← bump; n ← read_class_name; args ← maybe_type_arg_list render;
              inner_segments f render (simple n, args)) s
    end
  else (Some acc, s).
Definition class_type_parts (render : P string) : P (string * list string) :=
  name ← read_class_name;
  args ← maybe_type_arg_list render;
  r ← ((λ s, inner_segments (length s) render (simple name, args) s) : P _);
  _ ← expect cSEMI;
  mret r.
Definition class_type (render : P string) : P string :=
  '(name, args) ← class_type_parts render;
  mret (match args with [] => name | _ => name +:+ "<" +:+ str_join ", " args +:+ ">" end).

Definition type_render_inner (render : P string) : P string :=
  c ← bump;
  match prim_display c with
  | Some n => mret n
  | None =>
      if c =? cLBRACK then inner ← render; mret (inner +:+ "[]")
      else if c =? 84 then name ← read_until [cSEMI]; _ ← expect cSEMI; mret (var name)
      else if c =? 76 then class_type render
      else p_fail
  end.

(** [levels] is how many more levels may be entered. *)
Fixpoint type_render (levels : nat) : P string :=
  match levels with
  | O => p_fail
  | S k => type_render_inner (type_render k)
  end.

End Render.

(** *** Structured *)

Definition Scope : Type := list (list (string * TypeParameter)).

Section Structured.
Context (scope : Scope).

(** Innermost scope (the last) first. *)
Definition lookup_var (name : string) : TypeRef :=
  match omap (λ ps, snd <$> List.find (λ nt, bool_decide (nt.1 = name)) ps) (rev scope) with
  | tp :: _ => TVariable (tp_id tp)
  | [] => Unknown
  end.

Definition prim_of_byte (c : Z) : option PrimitiveType :=
  if c =? 66 then Some PByte else if c =? 67 then Some PChar else if c =? 68 then Some PDouble
  else if c =? 70 then Some PFloat else if c =? 73 then Some PInt else if c =? 74 then Some PLong
  else if c =? 83 then Some PShort else if c =? 90 then Some PBoolean else None.

Definition type_arg_structured (parse : P TypeRef) : P TypeRef := λ s,
  match peek s with
  | None => (None, s)
  | Some c =>
      if c =? 42 then (_ ← bump; mret (Wildcard None None)) s
      else if c =? 43 then (_ ← bump; t ← parse; mret (Wildcard (Some t) None)) s
      else if c =? 45 then (_ ← bump; t ← parse; mret (Wildcard None (Some t))) s
      else parse s
  end.
Definition type_args_structured (parse : P TypeRef) : P (list TypeRef) := λ s,
  if bool_decide (peek s = Some cLT) then
    (_ ← expect cLT; args ← args_until cGT (type_arg_structured parse); _ ← expect cGT; mret args) s
  else (Some [], s).

Fixpoint inner_structured (fuel : nat) (parse : P TypeRef) (acc : string * list TypeRef) :
    P (string * list TypeRef) := λ s,
  if bool_decide (peek s = Some cDOT) then
    match fuel with
    | O => (None, s)
    | S f => (_ ← bump; n ← read_class_name; args ← type_args_structured parse;
              inner_structured f parse (acc.1 +:+ "$" +:+ n, args)) s
    end
  else (Some acc, s).

(** The rest of a type after its first byte. *)
Definition type_of_byte (parse : P TypeRef) (c : Z) : P TypeRef :=
  match prim_of_byte c with
  | Some p => mret (Primitive p)
  | None =>
      if c =? cLBRACK then e ← parse; mret (Array e)
      else if c =? 84 then name ← read_until [cSEMI]; _ ← expect cSEMI; mret (lookup_var name)
      else if c =? 76 then
        name ← read_class_name;
        args ← type_args_structured parse;
        r ← ((λ s, inner_structured (length s) parse (replace_char "/" "." name, args) s) : P _);
        _ ← expect cSEMI;
        mret (Named (TNamed r.1) r.2)
      else p_fail
  end.
Definition type_parse_inner (parse : P TypeRef) : P TypeRef := c ← bump; type_of_byte parse c.

Fixpoint type_parse (levels : nat) : P TypeRef :=
  match levels with
  | O => p_fail
  | S k => type_parse_inner (type_parse k)
  end.

End Structured.

(** *** Type-parameter lists

    [one] reads what follows the name of a parameter; the 65th round only
    eats a byte and stops. *)
Definition is_bound_start (s : list Z) : bool :=
  match peek s with Some c => negb ((c =? cCOLON) || (c =? cGT)) | None => false end.

(** [while self.peek() == Some(b':') { .. }] *)
Fixpoint bounds_loop {A} (fuel : nat) (bound : list Z → A * list Z) (s : list Z) : list A * list Z :=
  match fuel with
  | O => ([], s)
  | S f =>
      if bool_decide (peek s = Some cCOLON) then
        let s1 := (bump s).2 in
        if is_bound_start s1 then
          let '(b, s2) := bound s1 in
          let '(bs, s3) := bounds_loop f bound s2 in (b :: bs, s3)
        else bounds_loop f bound s1
      else ([], s)
  end.

Fixpoint param_loop {A} (guard : nat) (one : list A → string → list Z → A * list Z)
    (out : list A) (s : list Z) : list A * list Z :=
  match peek s with
  | None => (out, s)
  | Some c =>
      match guard with
      | O => (out, (bump s).2)
      | S g =>
          if c =? cGT then (out, (bump s).2)
          else
            let '(w, s1) := scan_until [cCOLON] s in
            let '(a, s2) := one out (from_utf8_lossy w) s1 in
            param_loop g one (out ++ [a]) s2
      end
  end.
Definition param_list {A} (one : list A → string → list Z → A * list Z) (s : list Z) : list A * list Z :=
  if bool_decide (peek s = Some cLT) then param_loop 64 one [] (bump s).2 else ([], s).

Definition type_params (params : list string) (s : list Z) : list string * list Z :=
  param_list (λ _ name s1,
    (name, (bounds_loop (length s1) (type_render params [] MAX_SIG_DEPTH) s1).2)) s.

Definition type_params_structured (owner : string) (scope : Scope) (s : list Z) :
    list (string * TypeParameter) * list Z :=
  param_list (λ out name s1,
    let bound s2 := let '(r, s3) := type_parse (scope ++ [out]) MAX_SIG_DEPTH s2 in
                    (default Unknown r, s3) in
    let '(bounds, s4) := bounds_loop (length s1) bound s1 in
    ((name, mkTypeParameter (mkTypeVariableId owner (length out)) bounds), s4)) s.

(** ** Entry points *)

Definition class_type_params (sig : string) : list string := (type_params [] (as_bytes sig)).1.

(** The parameters and result of a method signature. *)
Definition method_result {A} (ty : P A) (void : A) : P A := λ s,
  match peek s with
  | None => (None, s)
  | Some c => if c =? 86 then (_ ← bump; mret void) s else ty s
  end.
Definition method_parts {A} (ty : P A) (void : A) : P (A * list A) :=
  _ ← expect cLPAR;
  args ← args_until cRPAR ty;
  _ ← expect cRPAR;
  ret ← method_result ty void;
  mret (ret, args).

Definition method_template (sig : string) (class_params : list string) :
    option (list string * string * list string) :=
  let '(own, s) := type_params class_params (as_bytes sig) in
  match (method_parts (type_render class_params own MAX_SIG_DEPTH) "void" s).1 with
  | Some (ret, args) => Some (own, ret, args)
  | None => None
  end.
Definition field_template (sig : string) (class_params : list string) : option string :=
  (type_render class_params [] MAX_SIG_DEPTH (as_bytes sig)).1.

(** At most 64 supertypes. *)
Fixpoint super_loop (guard : nat) (params : list string) (s : list Z) : list (list string) :=
  match guard with
  | O => []
  | S g =>
      if bool_decide (peek s = Some 76) then
        match class_type_parts (type_render params [] MAX_SIG_DEPTH) (bump s).2 with
        | (Some (_, args), s') => args :: super_loop g params s'
        | (None, _) => []
        end
      else []
  end.
Definition super_type_args (sig : string) (class_params : list string) : list (list string) :=
  let s := as_bytes sig in
  let s := if bool_decide (peek s = Some cLT) then (type_params class_params s).2 else s in
  super_loop 64 class_params s.

Definition parse_type_params (sig owner : string) : list TypeParameter :=
  (type_params_structured owner [] (as_bytes sig)).1.*2.

(** The 65th supertype is refused. *)
Fixpoint supers_loop (guard : nat) (scope : Scope) (s : list Z) : option (list TypeRef) :=
  if bool_decide (peek s = Some 76) then
    match guard with
    | O => None
    | S g =>
        match type_parse scope MAX_SIG_DEPTH s with
        | (Some t, s') => cons t <$> supers_loop g scope s'
        | (None, _) => None
        end
    end
  else Some [].
Definition parse_class_signature (sig owner : string) : option (list TypeParameter * list TypeRef) :=
  let '(ps, s) := type_params_structured owner [] (as_bytes sig) in
  match supers_loop 64 [ps] s with
  | Some supers => Some (ps.*2, supers)
  | None => None
  end.

Definition parse_method_signature (sig : string) (class_params : list (string * TypeParameter))
    (owner : string) : option (list TypeParameter * TypeRef * list TypeRef) :=
  let '(mps, s) := type_params_structured owner [] (as_bytes sig) in
  match (method_parts (type_parse [class_params; mps] MAX_SIG_DEPTH) Void s).1 with
  | Some (ret, args) => Some (mps.*2, ret, args)
  | None => None
  end.
Definition parse_field_signature (sig : string) (class_params : list (string * TypeParameter)) :
    option TypeRef :=
  (type_parse [class_params] MAX_SIG_DEPTH (as_bytes sig)).1.

Example method_template_ex :
  method_template "(ILjava/util/Map<TK;TV;>;[TT;)V" ["K"; "T"]
  = Some ([], "void", ["int"; "Map<{0}, V>"; "{1}[]"]).
Proof. vm_compute. reflexivity. Qed.
Example parse_class_ex :
  parse_class_signature "<E:Ljava/lang/Object;>Ljava/util/AbstractList<TE;>;Ljava/util/Map<TE;*>.Entry<+TE;>;"
    "demo.L"
  = Some ([mkTypeParameter (mkTypeVariableId "demo.L" 0) [named "java.lang.Object"]],
          [named_with "java.util.AbstractList" [TVariable (mkTypeVariableId "demo.L" 0)];
           named_with "java.util.Map$Entry"
             [Wildcard (Some (TVariable (mkTypeVariableId "demo.L" 0))) None]]).
Proof. vm_compute. reflexivity. Qed.

(** ** Two parsers for one grammar *)

(** Same success, same unread input. *)
Definition agree {A B} (m1 : P A) (m2 : P B) : Prop := ∀ s,
  (m1 s).2 = (m2 s).2 ∧ ((m1 s).1 = None ↔ (m2 s).1 = None).

Lemma agree_refl {A} (m : P A) : agree m m.
Proof. done. Qed.
Lemma agree_ret {A B} (a : A) (b : B) : agree (mret a : P A) (mret b : P B).
Proof. done. Qed.
Lemma agree_fail {A B} : agree (p_fail : P A) (p_fail : P B).
Proof. done. Qed.
Lemma agree_bind {A B A' B'} (m1 : P A) (m2 : P A') (f : A → P B) (g : A' → P B') :
  agree m1 m2 → (∀ a a', agree (f a) (g a')) → agree (m1 ≫= f) (m2 ≫= g).
Proof.
  intros Hm Hf s. destruct (Hm s) as [Hs Ho]. unfold mbind, P_bind.
  destruct (m1 s) as [[a|] s1], (m2 s) as [[a'|] s2]; cbn in *; subst; [apply Hf|..|done];
    exfalso; destruct Ho as [H1 H2]; [by discriminate H2 | by discriminate H1].
Qed.
Lemma agree_bind_same {A B B'} (m : P A) (f : A → P B) (g : A → P B') :
  (∀ a, agree (f a) (g a)) → agree (m ≫= f) (m ≫= g).
Proof.
  intros Hf s. unfold mbind, P_bind. destruct (m s) as [[a|] s1]; [apply Hf | done].
Qed.
#[export] Hint Resolve agree_refl agree_ret agree_fail : jvl.

(** Walk two parsers in step. *)
Ltac agree_go :=
  repeat lazymatch goal with
  | |- ∀ s, (?m s).2 = (?n s).2 ∧ _ => change (agree m n)
  | |- agree (?m ≫= _) (?m ≫= _) => apply agree_bind_same; intros
  | |- agree (_ ≫= _) (_ ≫= _) => apply agree_bind; [|intros]
  | |- agree (if ?b then _ else _) (if ?b then _ else _) => destruct b
  end; auto with jvl.

Lemma agree_arg_loop {A B} stop (a1 : P A) (a2 : P B) fuel : agree a1 a2 →
  ∀ acc1 acc2, agree (arg_loop fuel stop a1 acc1) (arg_loop fuel stop a2 acc2).
Proof.
  intros Ha. induction fuel as [|f IH]; intros acc1 acc2 s; cbn [arg_loop];
    (destruct (peek s); [|done]); (destruct (_ =? stop); [done|]); [done|].
  destruct (Ha s) as [Hs Ho].
  destruct (a1 s) as [[x|] s1], (a2 s) as [[y|] s2]; cbn in *; subst; [apply IH|..|done];
    exfalso; destruct Ho as [H1 H2]; [by discriminate H2 | by discriminate H1].
Qed.
Lemma agree_args_until {A B} stop (a1 : P A) (a2 : P B) : agree a1 a2 →
  agree (args_until stop a1) (args_until stop a2).
Proof. intros Ha s. by apply agree_arg_loop. Qed.

Section Twins.
Context (params shadow : list string) (scope : Scope).
Context (r : P string) (t : P TypeRef) (Hrt : agree r t).

Lemma agree_type_arg : agree (type_arg r) (type_arg_structured t).
Proof using Hrt.
  intros s. unfold type_arg, type_arg_structured. destruct (peek s) as [c|]; [|done].
  destruct (c =? 42); [|destruct (c =? 43); [|destruct (c =? 45); [|apply Hrt]]];
    revert s; agree_go.
Qed.
Lemma agree_arg_list : agree (maybe_type_arg_list r) (type_args_structured t).
Proof using Hrt.
  intros s. unfold maybe_type_arg_list, type_args_structured, type_arg_list.
  case_bool_decide as Hp; [|done]. clear Hp. revert s. agree_go.
  apply agree_args_until, agree_type_arg.
Qed.
Lemma agree_segments fuel : ∀ a1 a2, agree (inner_segments fuel r a1) (inner_structured fuel t a2).
Proof using Hrt.
  induction fuel as [|f IH]; intros a1 a2 s; cbn [inner_segments inner_structured];
    (case_bool_decide as Hp; [|done]); [done|]. clear Hp. revert s. agree_go.
  apply agree_arg_list.
Qed.
Lemma prim_twins c : prim_display c = None ↔ prim_of_byte c = None.
Proof. unfold prim_display, prim_of_byte. by repeat case_match. Qed.
Lemma agree_inner : agree (type_render_inner params shadow r) (type_parse_inner scope t).
Proof using Hrt.
  unfold type_render_inner, type_parse_inner. apply agree_bind_same. intros c. unfold type_of_byte.
  destruct (prim_display c) eqn:E1, (prim_of_byte c) eqn:E2; [apply agree_ret|..];
    try (exfalso; apply prim_twins in E1 || apply prim_twins in E2; congruence).
  destruct (c =? cLBRACK); [by agree_go|]. destruct (c =? 84); [by agree_go|].
  destruct (c =? 76); [|apply agree_fail]. unfold class_type, class_type_parts.
  intros s. unfold mbind, P_bind. destruct (read_class_name s) as [[name|] s1]; [|done].
  destruct (agree_arg_list s1) as [Hs Ho].
  destruct (maybe_type_arg_list r s1) as [[a|] s2], (type_args_structured t s1) as [[a'|] s2'];
    cbn in Hs, Ho; subst s2'; [|exfalso; destruct Ho; by intuition..|done].
  destruct (agree_segments (length s2) (simple name, a) (replace_char "/" "." name, a') s2) as [Hs Ho'].
  destruct (inner_segments _ _ _ s2) as [[x|] s3], (inner_structured _ _ _ s2) as [[y|] s3'];
    cbn in Hs, Ho'; subst s3'; [|exfalso; destruct Ho'; by intuition..|done].
  destruct (expect cSEMI s3) as [[[]|] s4]; [|done]. by destruct x.
Qed.
End Twins.

Lemma agree_types params shadow scope n : agree (type_render params shadow n) (type_parse scope n).
Proof. induction n as [|n IH]; [apply agree_fail | by apply agree_inner]. Qed.

(** ** Progress *)

(** Never gives input back; and when it succeeds, has used some. *)
Definition weak {A} (m : P A) : Prop := ∀ s, (length (m s).2 ≤ length s)%nat.
Definition strict {A} (m : P A) : Prop := ∀ s a, (m s).1 = Some a → (length (m s).2 < length s)%nat.

Lemma weak_bind {A B} (m : P A) (f : A → P B) : weak m → (∀ a, weak (f a)) → weak (m ≫= f).
Proof.
  intros Hm Hf s. specialize (Hm s). unfold mbind, P_bind.
  destruct (m s) as [[a|] s1]; cbn in *; [|done]. etrans; [apply Hf | done].
Qed.
Lemma strict_bind {A B} (m : P A) (f : A → P B) : strict m → (∀ a, weak (f a)) → strict (m ≫= f).
Proof.
  intros Hm Hf s b. specialize (Hm s). unfold mbind, P_bind.
  destruct (m s) as [[a|] s1]; cbn in *; [|done]. intros _.
  eapply Nat.le_lt_trans; [apply Hf|]. by eapply Hm.
Qed.
Lemma weak_ret {A} (a : A) : weak (mret a : P A).
Proof. intros s. cbn. lia. Qed.
Lemma weak_fail {A} : weak (p_fail : P A).
Proof. intros s. cbn. lia. Qed.
Lemma weak_bump : weak bump.
Proof. intros [|c s]; cbn; lia. Qed.
Lemma strict_bump : strict bump.
Proof. intros [|c s] a; cbn; [done|lia]. Qed.
Lemma weak_expect b : weak (expect b).
Proof. apply weak_bind; [apply weak_bump|]. intros c. case_if; [apply weak_ret | apply weak_fail]. Qed.
Lemma strict_expect b : strict (expect b).
Proof. apply strict_bind; [apply strict_bump|]. intros c. case_if; [apply weak_ret | apply weak_fail]. Qed.
Lemma scan_until_app stops s : (scan_until stops s).1 ++ (scan_until stops s).2 = s.
Proof.
  induction s as [|c s IH]; [done|]. cbn [scan_until]. case_bool_decide; [done|].
  destruct (scan_until stops s). cbn in *. by rewrite IH.
Qed.
Lemma weak_read_until stops : weak (read_until stops).
Proof.
  intros s. pose proof (scan_until_app stops s) as H. unfold read_until.
  destruct (scan_until stops s). cbn in *. subst s. rewrite length_app. lia.
Qed.
Lemma weak_arg_loop {A} stop (arg : P A) fuel : weak arg → ∀ acc, weak (arg_loop fuel stop arg acc).
Proof.
  intros Ha. induction fuel as [|f IH]; intros acc s; cbn [arg_loop];
    (destruct (peek s); [|done]); (case_if; [done|]); [done|].
  specialize (Ha s). destruct (arg s) as [[a|] s1]; cbn in *; [|done].
  etrans; [apply IH | done].
Qed.
Lemma weak_args_until {A} stop (arg : P A) : weak arg → weak (args_until stop arg).
Proof. intros Ha s. by apply weak_arg_loop. Qed.
#[export] Hint Resolve weak_ret weak_fail weak_bump weak_expect weak_read_until weak_args_until
  strict_bump strict_expect : jvl.

Section Progress.
Context (scope : Scope) (t : P TypeRef) (Hw : weak t) (Hs : strict t).

Lemma weak_type_arg : weak (type_arg_structured t).
Proof using Hw.
  intros s. unfold type_arg_structured. destruct (peek s) as [c|]; [|done].
  destruct (c =? 42); [|destruct (c =? 43); [|destruct (c =? 45); [|apply Hw]]];
    (apply weak_bind; [auto with jvl|]; intros; try apply weak_bind; auto with jvl).
Qed.
Lemma strict_type_arg : strict (type_arg_structured t).
Proof using Hw Hs.
  intros s a. unfold type_arg_structured. destruct (peek s) as [c|]; [|done].
  destruct (c =? 42); [|destruct (c =? 43); [|destruct (c =? 45); [|apply Hs]]];
    (apply strict_bind; [auto with jvl|]; intros; try apply weak_bind; auto with jvl).
Qed.
Lemma weak_type_args : weak (type_args_structured t).
Proof using Hw.
  intros s. unfold type_args_structured. case_bool_decide as Hp; [|done].
  apply weak_bind; [auto with jvl|]; intros.
  apply weak_bind; [apply weak_args_until, weak_type_arg|]; intros.
  apply weak_bind; auto with jvl.
Qed.
Lemma weak_inner_structured fuel : ∀ acc, weak (inner_structured fuel t acc).
Proof using Hw.
  induction fuel as [|f IH]; intros acc s; cbn [inner_structured]; (case_bool_decide; [|done]); [done|].
  apply weak_bind; [auto with jvl|]; intros. apply weak_bind; [apply weak_read_until|]; intros.
  apply weak_bind; [apply weak_type_args|]; auto.
Qed.
Lemma weak_type_of_byte c : weak (type_of_byte scope t c).
Proof using Hw.
  unfold type_of_byte. destruct (prim_of_byte c); [auto with jvl|].
  destruct (c =? cLBRACK); [apply weak_bind; auto with jvl|].
  destruct (c =? 84); [repeat (apply weak_bind; [auto with jvl|]; intros); auto with jvl|].
  destruct (c =? 76); [|auto with jvl].
  apply weak_bind; [apply weak_read_until|]; intros.
  apply weak_bind; [apply weak_type_args|]; intros.
  apply weak_bind; [intros s; apply weak_inner_structured|]; intros.
  apply weak_bind; auto with jvl.
Qed.
End Progress.

Lemma progress_type_parse scope n : weak (type_parse scope n) ∧ strict (type_parse scope n).
Proof.
  induction n as [|n [Hw Hs]]; cbn [type_parse]; [split; [apply weak_fail | done]|].
  split; [apply weak_bind | apply strict_bind]; auto with jvl; by apply weak_type_of_byte.
Qed.

(** A loop over a strict argument never runs out of fuel. *)
Lemma arg_loop_fuel {A} stop (arg : P A) : strict arg →
  ∀ f g acc s, (length s ≤ f)%nat → (length s ≤ g)%nat →
  arg_loop f stop arg acc s = arg_loop g stop arg acc s.
Proof.
  intros Ha. induction f as [|f IH]; intros [|g] acc s Hf Hg; cbn [arg_loop];
    destruct s as [|c s]; cbn [peek head length] in *; try lia; try done.
  case_if; [done|]. pose proof (Ha (c :: s)) as Hx.
  destruct (arg (c :: s)) as [[a|] s1]; [|done]. cbn in Hx. specialize (Hx a eq_refl).
  apply IH; lia.
Qed.

Lemma inner_structured_fuel (t : P TypeRef) : weak t →
  ∀ f g acc s, (length s ≤ f)%nat → (length s ≤ g)%nat →
  inner_structured f t acc s = inner_structured g t acc s.
Proof.
  intros Hw. induction f as [|f IH]; intros [|g] acc s Hf Hg; cbn [inner_structured];
    (destruct s as [|c s]; cbn [length] in *; [done|]); try lia.
  case_bool_decide; [|done]. unfold mbind, P_bind. cbn [bump].
  pose proof (weak_read_until [cLT; cSEMI; cDOT] s) as H1. unfold read_class_name.
  destruct (read_until _ s) as [[n|] s1]; [|done]. cbn in H1.
  pose proof (weak_type_args t Hw s1) as H2.
  destruct (type_args_structured t s1) as [[args|] s2]; [|done]. cbn in H2. apply IH; lia.
Qed.

(** ** Printing *)

(** The JVMS grammar, as a printer; [name_of] gives a variable's name. *)
Section Print.
Context (name_of : TypeVariableId → string).

Definition prim_byte (p : PrimitiveType) : Z :=
  match p with
  | PByte => 66 | PChar => 67 | PDouble => 68 | PFloat => 70 | PInt => 73 | PLong => 74
  | PShort => 83 | PBoolean => 90
  end.
Definition binary_name (id : TypeId) : string :=
  match id with TNamed fqn => replace_char "." "/" fqn | TLocal _ _ => "" end.

Fixpoint print_type (t : TypeRef) : list Z :=
  match t with
  | Primitive p => [prim_byte p]
  | Array e => cLBRACK :: print_type e
  | TVariable v => 84 :: as_bytes (name_of v) ++ [cSEMI]
  | Named id args =>
      76 :: as_bytes (binary_name id)
      ++ match args with [] => [] | _ => cLT :: flat_map print_type args ++ [cGT] end ++ [cSEMI]
  | Wildcard None None => [42]
  | Wildcard (Some u) _ => 43 :: print_type u
  | Wildcard None (Some l) => 45 :: print_type l
  | _ => []
  end.

Fixpoint type_depth (t : TypeRef) : nat :=
  match t with
  | Array e => S (type_depth e)
  | Named _ args => S (foldr Nat.max 0%nat (map type_depth args))
  | Wildcard u l =>
      Nat.max (match u with Some t => type_depth t | None => 0 end)
              (match l with Some t => type_depth t | None => 0 end)
  | _ => 1
  end.

Definition no_stops (stops : list Z) (s : string) : bool :=
  forallb (λ b, negb (bool_decide (b ∈ stops))) (as_bytes s).
(** A name that survives the trip. *)
Definition name_ok (id : TypeId) : bool :=
  match id with
  | TNamed fqn => no_stops [cLT; cSEMI; 47] fqn && utf8_valid (as_bytes (binary_name id))
  | TLocal _ _ => false
  end.

Context (scope : Scope).
(** A type signature; in argument position also a wildcard. *)
Fixpoint printable (arg : bool) (t : TypeRef) : bool :=
  match t with
  | Primitive _ => true
  | Array e => printable false e
  | TVariable v =>
      no_stops [cSEMI] (name_of v) && utf8_valid (as_bytes (name_of v))
      && match lookup_var scope (name_of v) with
         | TVariable v' => bool_decide (v' = v)
         | _ => false
         end
  | Named id args => name_ok id && forallb (printable true) args
  | Wildcard (Some u) None => arg && printable false u
  | Wildcard None (Some l) => arg && printable false l
  | Wildcard None None => arg
  | _ => false
  end.
End Print.

(** ** Reading back what was printed *)

Lemma scan_until_stop stops w c rest :
  forallb (λ b, negb (bool_decide (b ∈ stops))) w = true → c ∈ stops →
  scan_until stops (w ++ c :: rest) = (w, c :: rest).
Proof.
  intros Hw Hc. induction w as [|b w IH]; cbn [app scan_until].
  - by rewrite bool_decide_true.
  - cbn [forallb] in Hw. apply andb_true_iff in Hw as [Hb Hw]. apply negb_true_iff in Hb.
    by rewrite Hb, IH.
Qed.
Lemma read_until_name stops s c rest :
  no_stops stops s = true → utf8_valid (as_bytes s) = true → c ∈ stops →
  read_until stops (as_bytes s ++ c :: rest) = (Some s, c :: rest).
Proof.
  intros Hs Hu Hc. unfold read_until. rewrite scan_until_stop by done.
  by rewrite from_utf8_lossy_str.
Qed.

Lemma expect_cons b rest : expect b (b :: rest) = (Some (), rest).
Proof. unfold expect, mbind, P_bind. cbn. by rewrite Z.eqb_refl. Qed.

(** Dots to slashes and back. *)
Lemma slashes_roundtrip s :
  no_stops [cLT; cSEMI; 47] s = true →
  replace_char "/" "." (replace_char "." "/" s) = s
  ∧ no_stops [cLT; cSEMI; cDOT] (replace_char "." "/" s) = true.
Proof.
  unfold replace_char, no_stops. induction s as [|a s IH]; [done|].
  cbn [as_bytes forallb]. intros [Ha Hs]%andb_true_iff. destruct (IH Hs) as [IH1 IH2].
  cbn [replace_chars]. destruct (Ascii.eqb_spec "." a) as [<-|Hd].
  - cbn -[replace_chars as_bytes]. split; [|done]. cbn [replace_chars].
    change (Ascii.eqb "/" "/") with true. cbn iota. by rewrite IH1.
  - cbn [replace_chars as_bytes forallb]. rewrite IH2, andb_true_r.
    destruct (Ascii.eqb_spec "/" a) as [<-|Hsl]; [by vm_compute in Ha|]. rewrite IH1. split; [done|].
    apply negb_true_iff, bool_decide_eq_false in Ha. apply negb_true_iff, bool_decide_eq_false.
    intros Hin. apply Ha. rewrite !elem_of_cons in *. destruct Hin as [?|[?|[He|?]]]; auto.
    exfalso. apply Hd. pose proof (RustStd.ascii_of_byte_of_ascii a) as Hx. rewrite He in Hx. by rewrite <- Hx.
Qed.

(** What a printed type starts with. *)
Lemma print_type_head name_of scope b t : printable name_of scope b t = true →
  ∃ c r, print_type name_of t = c :: r ∧ c ≠ cGT ∧ c ≠ cRPAR
    ∧ (b = false → c ≠ 42 ∧ c ≠ 43 ∧ c ≠ 45).
Proof.
  destruct t as [p| | |id args|e|v|[u|] [l|]|]; cbn [printable print_type]; try done; intros Hp;
    eexists _, _; (split; [reflexivity|]); try (destruct b; [|discriminate Hp]);
    try (destruct p); split_and!; try done; by vm_compute.
Qed.

Section Roundtrip.
Context (name_of : TypeVariableId → string) (scope : Scope).
Local Notation print := (print_type name_of).
Local Notation ok := (printable name_of scope).

Definition reads_back (t : TypeRef) : Prop :=
  (∀ n rest, (type_depth t ≤ n)%nat → ok false t = true →
     type_parse scope n (print t ++ rest) = (Some t, rest))
  ∧ (∀ n rest, (type_depth t ≤ n)%nat → ok true t = true →
     type_arg_structured (type_parse scope n) (print t ++ rest) = (Some t, rest)).

(** A type in argument position. *)
Lemma reads_back_arg t :
  (∀ b, ok b t = ok false t) →
  (∀ n rest, (type_depth t ≤ n)%nat → ok false t = true →
     type_parse scope n (print t ++ rest) = (Some t, rest)) → reads_back t.
Proof.
  intros Hb H. split; [done|]. intros n rest Hn Ht. rewrite Hb in Ht.
  destruct (print_type_head _ _ _ _ Ht) as (c & r & Hc & _ & _ & Hne).
  destruct (Hne eq_refl) as (H1 & H2 & H3). specialize (H n rest Hn Ht).
  unfold type_arg_structured. rewrite Hc in *. cbn [app peek head].
  by rewrite (proj2 (Z.eqb_neq c 42)), (proj2 (Z.eqb_neq c 43)), (proj2 (Z.eqb_neq c 45)).
Qed.

Lemma args_read_back k args : Forall reads_back args →
  (foldr Nat.max 0%nat (map type_depth args) ≤ k)%nat → forallb (ok true) args = true →
  ∀ f acc rest, (length args ≤ f)%nat →
  arg_loop f cGT (type_arg_structured (type_parse scope k)) acc
    (flat_map print args ++ cGT :: rest) = (Some (acc ++ args), cGT :: rest).
Proof.
  induction 1 as [|a args [_ Ha] _ IH]; intros Hd Hok f acc rest Hf.
  - rewrite app_nil_r. by destruct f.
  - cbn [map foldr forallb flat_map length] in *.
    apply andb_true_iff in Hok as [Hoka Hok]. destruct f as [|f]; [lia|].
    destruct (print_type_head _ _ _ _ Hoka) as (c & r & Hc & Hgt & _).
    rewrite <- app_assoc. specialize (Ha k (flat_map print args ++ cGT :: rest) ltac:(lia) Hoka).
    rewrite Hc in *. cbn [arg_loop app peek head] in *.
    rewrite (proj2 (Z.eqb_neq c cGT)) by done. rewrite Ha.
    rewrite IH; [by rewrite <- app_assoc|lia|done|lia].
Qed.

Lemma print_args_length args : forallb (ok true) args = true →
  (length args ≤ length (flat_map print args))%nat.
Proof.
  induction args as [|a args IH]; [done|]. cbn [forallb flat_map length].
  intros [Ha H]%andb_true_iff. destruct (print_type_head _ _ _ _ Ha) as (c & r & Hc & _).
  rewrite length_app, Hc. specialize (IH H). cbn. lia.
Qed.

Lemma named_reads_back id args : Forall reads_back args → reads_back (Named id args).
Proof.
  intros Hargs. apply reads_back_arg; [done|]. intros n rest Hn Hok.
  cbn [printable type_depth] in *. apply andb_true_iff in Hok as [Hid Hok].
  destruct n as [|k]; [lia|]. destruct id as [fqn|]; [|done].
  cbn [name_ok] in Hid. apply andb_true_iff in Hid as [Hns Hu].
  destruct (slashes_roundtrip fqn Hns) as [Hrt Hst]. cbn [binary_name] in Hu.
  cbn [type_parse print_type binary_name app]. unfold type_parse_inner, type_of_byte.
  unfold mbind at 1, P_bind at 1. cbn [bump]. change (prim_of_byte 76) with (@None PrimitiveType).
  change (76 =? cLBRACK) with false. change (76 =? 84) with false. change (76 =? 76) with true. cbn iota.
  unfold mbind, P_bind, read_class_name.
  rewrite <- !app_assoc. destruct args as [|a args].
  - cbn [app]. rewrite read_until_name; [|done..|right; by left].
    unfold type_args_structured. rewrite bool_decide_false by done.
    cbn [length inner_structured]. rewrite bool_decide_false by done.
    cbn [app]. rewrite expect_cons. cbn [fst snd mret P_ret]. by rewrite Hrt.
  - cbn [app]. rewrite read_until_name; [|done..|by left].
    unfold type_args_structured. rewrite bool_decide_true by done.
    unfold mbind, P_bind. rewrite expect_cons. rewrite <- app_assoc. cbn [app].
    unfold args_until. rewrite (args_read_back k (a :: args));
      [|done|lia|done|rewrite length_app; pose proof (print_args_length _ Hok); lia].
    rewrite expect_cons. cbn [mret P_ret length inner_structured].
    rewrite bool_decide_false by done. rewrite expect_cons. cbn [fst snd mret P_ret app].
    by rewrite Hrt.
Qed.

Lemma type_reads_back t : reads_back t.
Proof.
  induction t as [p| | |id args IH|e IH|v|u l IHu IHl|] using TypeRef_nested_ind;
    try (apply reads_back_arg; [done|]; intros; done).
  - apply reads_back_arg; [done|]. intros [|n] rest Hn _; cbn in Hn; [lia|]. by destruct p.
  - by apply named_reads_back.
  - apply reads_back_arg; [done|]. intros [|n] rest Hn Hok; cbn in Hn; [lia|].
    cbn [printable print_type type_parse app] in *. unfold type_parse_inner, type_of_byte.
    unfold mbind at 1, P_bind at 1. cbn [bump]. change (prim_of_byte cLBRACK) with (@None PrimitiveType).
    change (cLBRACK =? cLBRACK) with true. cbn iota. unfold mbind, P_bind.
    destruct IH as [IH _]. by rewrite IH by (done || lia).
  - apply reads_back_arg; [done|]. intros [|n] rest Hn Hok; cbn in Hn; [lia|].
    cbn [printable print_type type_parse app] in *.
    apply andb_true_iff in Hok as [[Hs Hu]%andb_true_iff Hv].
    unfold type_parse_inner, type_of_byte. unfold mbind at 1, P_bind at 1. cbn [bump].
    change (prim_of_byte 84) with (@None PrimitiveType). change (84 =? cLBRACK) with false.
    change (84 =? 84) with true. cbn iota. unfold mbind, P_bind. rewrite <- app_assoc. cbn [app].
    rewrite read_until_name; [|done..|by left]. rewrite expect_cons. cbn [mret P_ret].
    destruct (lookup_var scope (name_of v)); try done. by apply bool_decide_eq_true in Hv as ->.
  - split; [by intros n rest _; destruct u, l|]. intros n rest Hn Hok.
    unfold type_arg_structured. destruct u as [u|], l as [l|]; try done; cbn in Hn, IHu, IHl |- *;
      unfold mbind, P_bind; cbn; [destruct IHu as [IH _] | destruct IHl as [IH _]];
      by rewrite IH by (done || lia).
Qed.
End Roundtrip.

(** ** Parameter lists *)

Lemma bounds_loop_rest {A B} fuel (b1 : list Z → A * list Z) (b2 : list Z → B * list Z) :
  (∀ s, (b1 s).2 = (b2 s).2) → ∀ s, (bounds_loop fuel b1 s).2 = (bounds_loop fuel b2 s).2.
Proof.
  intros Hb. induction fuel as [|f IH]; intros s; cbn [bounds_loop]; [done|].
  case_bool_decide; [|done]. destruct (is_bound_start _); [|done]. specialize (Hb (bump s).2).
  destruct (b1 _) as [x s1], (b2 _) as [y s2]. cbn in Hb. subst s2. specialize (IH s1).
  destruct (bounds_loop f b1 s1), (bounds_loop f b2 s1). done.
Qed.

Lemma param_loop_names {A B} guard (one1 : list A → string → list Z → A * list Z)
    (one2 : list B → string → list Z → B * list Z) (n1 : A → string) (n2 : B → string) :
  (∀ o1 o2 name s, n1 (one1 o1 name s).1 = name ∧ n2 (one2 o2 name s).1 = name
                   ∧ (one1 o1 name s).2 = (one2 o2 name s).2) →
  ∀ o1 o2 s, n1 <$> o1 = n2 <$> o2 →
  n1 <$> (param_loop guard one1 o1 s).1 = n2 <$> (param_loop guard one2 o2 s).1
  ∧ (param_loop guard one1 o1 s).2 = (param_loop guard one2 o2 s).2.
Proof.
  intros H. induction guard as [|g IH]; intros o1 o2 s Ho; cbn [param_loop];
    (destruct (peek s) as [c|]; [|done]); [done|]. case_if; [done|].
  destruct (scan_until [cCOLON] s) as [w s1].
  destruct (H o1 o2 (from_utf8_lossy w) s1) as (H1 & H2 & H3).
  destruct (one1 o1 _ s1) as [a s2], (one2 o2 _ s1) as [b s2']. cbn in *. subst s2'.
  apply IH. by rewrite !fmap_app, Ho; cbn; rewrite H1, H2.
Qed.

Lemma type_params_twins params owner scope s :
  (type_params params s).1 = (type_params_structured owner scope s).1.*1
  ∧ (type_params params s).2 = (type_params_structured owner scope s).2.
Proof.
  unfold type_params, type_params_structured, param_list. case_bool_decide; [|done].
  match goal with |- (param_loop 64 ?one1 [] ?s0).1 = (param_loop 64 ?one2 [] _).1.*1 ∧ _ =>
    destruct (param_loop_names 64 one1 one2 id fst) with (o1 := @nil string)
      (o2 := @nil (string * TypeParameter)) (s := s0) as [Hn Hs]; [|done|] end.
  - intros o1 o2 name s1. cbn [id].
    assert (∀ fuel s, (bounds_loop fuel (type_render params [] MAX_SIG_DEPTH) s).2
      = (bounds_loop fuel (λ s2, let '(r, s3) := type_parse (scope ++ [o2]) MAX_SIG_DEPTH s2 in
                                 (default Unknown r, s3)) s).2) as Hb.
    { intros fuel s2. apply bounds_loop_rest. intros s3.
      destruct (agree_types params [] (scope ++ [o2]) MAX_SIG_DEPTH s3) as [-> _].
      by destruct (type_parse _ _ s3). }
    rewrite Hb. destruct (bounds_loop (length s1) _ s1). done.
  - rewrite list_fmap_id in Hn. done.
Qed.

Lemma agree_method {A B} (t1 : P A) (t2 : P B) v1 v2 : agree t1 t2 →
  agree (method_parts t1 v1) (method_parts t2 v2).
Proof.
  intros Ht. unfold method_parts. apply agree_bind_same. intros _.
  apply agree_bind; [by apply agree_args_until|]. intros. apply agree_bind_same. intros _.
  apply agree_bind; [|intros; apply agree_ret]. intros s. unfold method_result.
  destruct (peek s) as [c|]; [|done]. destruct (c =? 86); [|apply Ht]. revert s. agree_go.
Qed.

Lemma param_loop_bound {A} guard (one : list A → string → list Z → A * list Z) : ∀ out s,
  (length (param_loop guard one out s).1 ≤ length out + guard)%nat.
Proof.
  induction guard as [|g IH]; intros out s; cbn [param_loop]; (destruct (peek s); [|cbn; lia]);
    [cbn; lia|]. case_if; [cbn; lia|]. destruct (scan_until _ s) as [w s1].
  destruct (one out _ s1) as [a s2]. etrans; [apply IH|]. rewrite length_app. cbn. lia.
Qed.

Lemma supers_loop_bound scope guard : ∀ s l, supers_loop guard scope s = Some l → (length l ≤ guard)%nat.
Proof.
  induction guard as [|g IH]; intros s l; cbn [supers_loop]; (case_bool_decide; [|intros [= <-]; cbn; lia]);
    [done|]. destruct (type_parse scope _ s) as [[t|] s']; [|done].
  destruct (supers_loop g scope s') eqn:E; [|done]. intros [= <-]. apply IH in E. cbn. lia.
Qed.

(** [k] array dimensions over [int]. *)
Definition array_sig (k : nat) : list Z := repeat cLBRACK k ++ [73].

Lemma array_sig_parse scope k : ∀ n,
  ((type_parse scope n (array_sig k)).1 ≠ None ↔ (k < n)%nat).
Proof.
  induction k as [|k IH]; intros [|n]; cbn [type_parse array_sig repeat app].
  - split; [done|lia].
  - split; [lia|done].
  - split; [done|lia].
  - unfold type_parse_inner, type_of_byte. unfold mbind at 1, P_bind at 1. cbn [bump].
    change (prim_of_byte cLBRACK) with (@None PrimitiveType).
    change (cLBRACK =? cLBRACK) with true. cbn iota. unfold mbind, P_bind.
    specialize (IH n). unfold array_sig in IH.
    destruct (type_parse scope n _) as [[t|] s']; cbn in *; split; intros; try done;
      [apply proj1 in IH; specialize (IH ltac:(done)); lia|].
    apply IH. lia.
Qed.

(** ** The theorems *)

(** C7: A type printed by the JVMS grammar and parsed back is that type, with
    the rest of the input untouched, for every type the parser represents
    (generic, wildcard, array and variable types included) up to the nesting
    cap. *)
Theorem signature_roundtrip name_of scope t rest :
  printable name_of scope false t = true → (type_depth t ≤ MAX_SIG_DEPTH)%nat →
  type_parse scope MAX_SIG_DEPTH (print_type name_of t ++ rest) = (Some t, rest).
Proof. intros Hp Hd. by apply (type_reads_back name_of scope t). Qed.

(** The display and the structured parser accept the same signatures: on
    any bytes they agree on a type's success and on where it ends, they name
    the same type parameters, and a method signature has a display form
    exactly when it has a structured one. *)
Theorem display_structured_agree sig params shadow scope class_params owner s :
  (type_render params shadow MAX_SIG_DEPTH s).2 = (type_parse scope MAX_SIG_DEPTH s).2
  ∧ ((type_render params shadow MAX_SIG_DEPTH s).1 = None ↔ (type_parse scope MAX_SIG_DEPTH s).1 = None)
  ∧ length (class_type_params sig) = length (parse_type_params sig owner)
  ∧ (method_template sig params = None ↔ parse_method_signature sig class_params owner = None).
Proof.
  destruct (agree_types params shadow scope MAX_SIG_DEPTH s) as [H1 H2]. split_and!; [done|done| |].
  - unfold class_type_params, parse_type_params.
    destruct (type_params_twins [] owner [] (as_bytes sig)) as [-> _]. by rewrite !length_fmap.
  - unfold method_template, parse_method_signature.
    destruct (type_params_twins params owner [] (as_bytes sig)) as [_ Hs].
    destruct (type_params params _) as [own s1], (type_params_structured owner [] _) as [mps s2].
    cbn in Hs. subst s2.
    destruct (agree_method (type_render params own MAX_SIG_DEPTH)
      (type_parse [class_params; mps] MAX_SIG_DEPTH) "void" Void (agree_types _ _ _ _) s1) as [_ Ha].
    destruct (method_parts _ "void" s1).1 as [[? ?]|], (method_parts _ Void s1).1 as [[? ?]|];
      intuition congruence.
Qed.

(** The parser is bounded on untrusted input: nested types are accepted
    to exactly 32 levels, and a class signature yields at most 64 type
    parameters and 64 supertypes. *)
Theorem signature_bounded scope k sig owner ps supers :
  ((type_parse scope MAX_SIG_DEPTH (array_sig k)).1 ≠ None ↔ (k < 32)%nat)
  ∧ (length (class_type_params sig) ≤ 64)%nat
  ∧ (parse_class_signature sig owner = Some (ps, supers) →
     (length ps ≤ 64)%nat ∧ (length supers ≤ 64)%nat).
Proof.
  split; [apply array_sig_parse|]. split.
  - unfold class_type_params, type_params, param_list. case_bool_decide; [|cbn; lia].
    apply (param_loop_bound 64).
  - unfold parse_class_signature. destruct (type_params_structured owner [] _) as [l s] eqn:E.
    destruct (supers_loop 64 [l] s) eqn:Es; [|done]. intros [= <- <-].
    rewrite length_fmap. split; [|by eapply supers_loop_bound].
    change l with (l, s).1. rewrite <- E. unfold type_params_structured, param_list.
    case_bool_decide; [|cbn; lia]. apply (param_loop_bound 64).
Qed.

(** The parser's loops end by themselves: every round over arguments,
    parameters or nested segments uses up input, so a bound beyond the
    unread length is never reached and changes nothing. *)
Theorem signature_loops_progress scope n fuel acc acc' s :
  (length s ≤ fuel)%nat →
  arg_loop fuel cGT (type_arg_structured (type_parse scope n)) acc s
    = arg_loop (length s) cGT (type_arg_structured (type_parse scope n)) acc s
  ∧ arg_loop fuel cRPAR (type_parse scope n) acc s
    = arg_loop (length s) cRPAR (type_parse scope n) acc s
  ∧ inner_structured fuel (type_parse scope n) acc' s
    = inner_structured (length s) (type_parse scope n) acc' s.
Proof.
  intros Hf. destruct (progress_type_parse scope n) as [Hw Hs]. split_and!.
  - apply arg_loop_fuel; [by apply strict_type_arg|done|lia].
  - by apply arg_loop_fuel.
  - by apply inner_structured_fuel.
Qed.

(** ** Instances *)

Definition ex_var : TypeVariableId := mkTypeVariableId "demo.L" 0.
Definition ex_scope : Scope := [[("E", mkTypeParameter ex_var [])]].
Definition ex_type : TypeRef :=
  named_with "java.util.Map" [Wildcard (Some (TVariable ex_var)) None; Array (Primitive PInt)].

Lemma signature_roundtrip_witness :
  type_parse ex_scope MAX_SIG_DEPTH (as_bytes "Ljava/util/Map<+TE;[I>;V") = (Some ex_type, [86]).
Proof.
  exact (signature_roundtrip (λ _, "E") ex_scope ex_type [86] ltac:(vm_compute; reflexivity)
           ltac:(vm_compute; lia)).
Defined.

Lemma signature_loops_progress_witness :
  arg_loop 9 cRPAR (type_parse [] 3) [] [73; cRPAR] = arg_loop 2 cRPAR (type_parse [] 3) [] [73; cRPAR].
Proof. apply (signature_loops_progress [] 3 9 [] ("", []) [73; cRPAR]). cbn. lia. Defined.
