(* ===== verification/Zip.v ===== *)
(** * The read-only ZIP reader ([crates/classpath/src/zip.rs])

    Only the central directory is kept: a map from entry names to where their
    bytes are.  The disk is a function from paths to file contents (the
    archive may have changed between [open] and [read], hence one disk per
    call), and [inflate] stands for [miniz_oxide]'s bounded decompressor.  The
    theorems show that a well-formed archive is read back exactly, and that
    no bytes whatever make the reader index an unsafe name or exceed its
    caps. *)
From S2P Require Import Prelude RustStd.
From Stdlib Require Import Ascii.

Definition MAX_UNCOMPRESSED : Z := 16 * 1024 * 1024.
Definition MAX_CENTRAL_DIRECTORY_SIZE : Z := 64 * 1024 * 1024.
Definition MAX_CD_ENTRIES : Z := 1000000.

Definition EOCD_SIG : Z := 0x06054b50.
Definition CDFH_SIG : Z := 0x02014b50.
Definition LFH_SIG : Z := 0x04034b50.
Definition ZIP64_SENTINEL : Z := 0xFFFFFFFF.
Definition METHOD_STORE : Z := 0.
Definition METHOD_DEFLATE : Z := 8.

Record Entry := mkEntry {
  method : Z; comp_size : Z; uncomp_size : Z; local_offset : Z
}.
Record ZipArchive := mkZipArchive {
  path : string; base : Z; entries : gmap string Entry
}.

(** ** Bounds-checked reads *)

Definition u16le (b : list Z) (i : nat) : option Z :=
  b0 ← b !! i; b1 ← b !! (i + 1)%nat; Some (from_le_bytes [b0; b1]).
Definition u32le (b : list Z) (i : nat) : option Z :=
  b0 ← b !! i; b1 ← b !! (i + 1)%nat; b2 ← b !! (i + 2)%nat; b3 ← b !! (i + 3)%nat;
  Some (from_le_bytes [b0; b1; b2; b3]).

(** A read past the end of the file is refused before it allocates. *)
Definition read_at (file : list Z) (pos len : Z) : option (list Z) :=
  e ← checked_add_u64 pos len;
  if Z.of_nat (length file) <? e then None
  else Some (take (Z.to_nat len) (drop (Z.to_nat pos) file)).

(** ** The central directory *)

Definition is_unsafe_name (name : string) : bool :=
  starts_with "/" name || contains_char (ascii_of_N 92) name
  || existsb (λ seg, bool_decide (seg = "..")) (split_char "/" name).

(** Backwards: the last signature wins. *)
Definition find_eocd (tail : list Z) : option nat :=
  if (length tail <? 22)%nat then None
  else List.find (λ i, bool_decide (u32le tail i = Some EOCD_SIG)) (rev (seq 0 (length tail - 22 + 1))).

(** Zip64, oversized and path-unsafe entries are skipped, as are names that
    are not UTF-8. *)
Definition index_entry (raw : list Z) (e : Entry) (es : gmap string Entry) : gmap string Entry :=
  match from_utf8 raw with
  | None => es
  | Some name =>
      if negb (uncomp_size e =? ZIP64_SENTINEL) && negb (local_offset e =? ZIP64_SENTINEL)
         && (uncomp_size e <=? MAX_UNCOMPRESSED) && (comp_size e <=? MAX_UNCOMPRESSED)
         && negb (is_unsafe_name name)
      then <[name := e]> es else es
  end.

(** The loop of [parse_central_directory]; a round moves [p] on by 46 bytes
    at least, so the directory's length is more rounds than it can make. *)
Fixpoint cd_loop (fuel : nat) (cd : list Z) (p : nat) (count : Z) (es : gmap string Entry) :
    option (gmap string Entry) :=
  match fuel with
  | O => Some es
  | S f =>
      if negb (p + 46 <=? length cd)%nat then Some es
      else if negb (bool_decide (u32le cd p = Some CDFH_SIG)) then Some es
      else if MAX_CD_ENTRIES <? count + 1 then None
      else
        match u16le cd (p + 10), u32le cd (p + 20), u32le cd (p + 24), u16le cd (p + 28),
              u16le cd (p + 30), u16le cd (p + 32), u32le cd (p + 42) with
        | Some method, Some comp_size, Some uncomp_size, Some name_len,
          Some extra_len, Some comment_len, Some local_offset =>
            let name_start := (p + 46)%nat in
            let name_end := (name_start + Z.to_nat name_len)%nat in
            if (length cd <? name_end)%nat then Some es
            else
              cd_loop f cd (name_end + Z.to_nat extra_len + Z.to_nat comment_len)%nat (count + 1)
                (index_entry (take (Z.to_nat name_len) (drop name_start cd))
                   (mkEntry method comp_size uncomp_size local_offset) es)
        | _, _, _, _, _, _, _ => Some es
        end
  end.
Definition parse_central_directory (cd : list Z) : option (gmap string Entry) :=
  cd_loop (length cd) cd 0 0 ∅.

(** ** The archive *)

Definition open (disk : string → option (list Z)) (p : string) (base : Z) : option ZipArchive :=
  file ← disk p;
  let file_len := Z.of_nat (length file) in
  let tail_len := Z.min file_len (22 + 0xFFFF) in
  tail ← read_at file (file_len - tail_len) tail_len;
  eocd ← find_eocd tail;
  cd_size ← u32le tail (eocd + 12)%nat;
  cd_offset ← u32le tail (eocd + 16)%nat;
  if cd_offset =? ZIP64_SENTINEL then None
  else if MAX_CENTRAL_DIRECTORY_SIZE <? cd_size then None
  else
    cd ← read_at file (base + cd_offset) cd_size;
    es ← parse_central_directory cd;
    Some (mkZipArchive p base es).

Definition contains (z : ZipArchive) (name : string) : bool := bool_decide (is_Some (entries z !! name)).

(** The keys in the map's iteration order, which Rust leaves open. *)
Definition names (z : ZipArchive) : list string := (map_to_list (entries z)).*1.
Definition find_suffix (keys : list string) (suffix : string) : option string :=
  List.find (ends_with suffix) keys.

Section Read.
Context (inflate : list Z → Z → option (list Z)).

Definition decompress (e : Entry) (compressed : list Z) : option (list Z) :=
  if method e =? METHOD_STORE then
    if Z.of_nat (length compressed) =? uncomp_size e then Some compressed else None
  else if method e =? METHOD_DEFLATE then
    out ← inflate compressed MAX_UNCOMPRESSED;
    if Z.of_nat (length out) <=? MAX_UNCOMPRESSED then Some out else None
  else None.

Definition read (disk : string → option (list Z)) (z : ZipArchive) (name : string) : option (list Z) :=
  e ← entries z !! name;
  file ← disk (path z);
  lfh ← read_at file (base z + local_offset e) 30;
  sig ← u32le lfh 0;
  if negb (sig =? LFH_SIG) then None
  else
    name_len ← u16le lfh 26;
    extra_len ← u16le lfh 28;
    compressed ← read_at file (base z + local_offset e + 30 + name_len + extra_len) (comp_size e);
    decompress e compressed.

End Read.

(** ** The archive format

    The layout of PKWARE's APPNOTE for archives without zip64: members one
    after the other, the central directory, the end record with its comment.
    The fields the reader ignores are arbitrary bytes. *)

Definition to_le_bytes (n : nat) (v : Z) : list Z := rev (to_be_bytes n v).

Record Member := mkMember {
  m_name : string; m_method : Z; m_comp : list Z; m_data : list Z;
  m_lext : list Z; m_cext : list Z; m_comment : list Z;
  m_fill6 : list Z; m_fill8 : list Z; m_fill8' : list Z; m_fill22 : list Z
}.

Definition local_bytes (m : Member) : list Z :=
  to_le_bytes 4 LFH_SIG ++ m_fill22 m
  ++ to_le_bytes 2 (str_len (m_name m)) ++ to_le_bytes 2 (Z.of_nat (length (m_lext m)))
  ++ as_bytes (m_name m) ++ m_lext m ++ m_comp m.
Definition central_bytes (off : Z) (m : Member) : list Z :=
  to_le_bytes 4 CDFH_SIG ++ m_fill6 m ++ to_le_bytes 2 (m_method m) ++ m_fill8 m
  ++ to_le_bytes 4 (Z.of_nat (length (m_comp m))) ++ to_le_bytes 4 (Z.of_nat (length (m_data m)))
  ++ to_le_bytes 2 (str_len (m_name m)) ++ to_le_bytes 2 (Z.of_nat (length (m_cext m)))
  ++ to_le_bytes 2 (Z.of_nat (length (m_comment m))) ++ m_fill8' m ++ to_le_bytes 4 off
  ++ as_bytes (m_name m) ++ m_cext m ++ m_comment m.
Fixpoint central_directory (off : Z) (ms : list Member) : list Z :=
  match ms with
  | [] => []
  | m :: ms' => central_bytes off m
                ++ central_directory (off + Z.of_nat (length (local_bytes m))) ms'
  end.
Definition end_record (fill : list Z) (cd_size cd_offset : Z) (comment : list Z) : list Z :=
  to_le_bytes 4 EOCD_SIG ++ fill ++ to_le_bytes 4 cd_size ++ to_le_bytes 4 cd_offset
  ++ to_le_bytes 2 (Z.of_nat (length comment)) ++ comment.
Definition archive (prefix : list Z) (ms : list Member) (fill comment : list Z) : list Z :=
  let locals := concat (local_bytes <$> ms) in
  let cd := central_directory 0 ms in
  prefix ++ locals ++ cd
  ++ end_record fill (Z.of_nat (length cd)) (Z.of_nat (length locals)) comment.

Definition entry_of (off : Z) (m : Member) : Entry :=
  mkEntry (m_method m) (Z.of_nat (length (m_comp m))) (Z.of_nat (length (m_data m))) off.

Record member_ok (inflate : list Z → Z → option (list Z)) (m : Member) : Prop := {
  mo_name : is_str (m_name m) ∧ is_unsafe_name (m_name m) = false ∧ str_len (m_name m) < 2 ^ 16;
  mo_ext : Z.of_nat (length (m_lext m)) < 2 ^ 16 ∧ Z.of_nat (length (m_cext m)) < 2 ^ 16
           ∧ Z.of_nat (length (m_comment m)) < 2 ^ 16;
  mo_fill : length (m_fill6 m) = 6%nat ∧ length (m_fill8 m) = 8%nat
            ∧ length (m_fill8' m) = 8%nat ∧ length (m_fill22 m) = 22%nat;
  mo_size : Z.of_nat (length (m_comp m)) ≤ MAX_UNCOMPRESSED
            ∧ Z.of_nat (length (m_data m)) ≤ MAX_UNCOMPRESSED;
  mo_data : m_method m = METHOD_STORE ∧ m_comp m = m_data m
            ∨ m_method m = METHOD_DEFLATE
              ∧ inflate (m_comp m) MAX_UNCOMPRESSED = Some (m_data m)
}.

(** What an entry in the index is guaranteed to be. *)
Definition entry_safe (name : string) (e : Entry) : Prop :=
  is_str name ∧ is_unsafe_name name = false
  ∧ uncomp_size e ≤ MAX_UNCOMPRESSED ∧ comp_size e ≤ MAX_UNCOMPRESSED
  ∧ local_offset e ≠ ZIP64_SENTINEL.

(** ** Lemmas *)

Lemma u16le_app l k (i : nat) : u16le (l ++ k) (length l + i) = u16le k i.
Proof.
  unfold u16le. rewrite <- !Nat.add_assoc, !lookup_app_r by lia.
  by rewrite !Nat.add_sub_swap, !Nat.sub_diag by lia.
Qed.
Lemma u32le_app l k (i : nat) : u32le (l ++ k) (length l + i) = u32le k i.
Proof.
  unfold u32le. rewrite <- !Nat.add_assoc, !lookup_app_r by lia.
  by rewrite !Nat.add_sub_swap, !Nat.sub_diag by lia.
Qed.

Lemma length_to_le_bytes n v : length (to_le_bytes n v) = n.
Proof. unfold to_le_bytes. by rewrite length_rev, length_to_be_bytes. Qed.
Lemma from_to_le_bytes n v : 0 ≤ v < 256 ^ Z.of_nat n → from_le_bytes (to_le_bytes n v) = v.
Proof. intros. unfold from_le_bytes, to_le_bytes. rewrite rev_involutive. by apply from_to_be_bytes_small. Qed.

(** Reading a field of a record laid out as a concatenation: skip what is
    before it, then read it. *)
Lemma u16le_skip a b n i : length a = n → (n ≤ i)%nat → u16le (a ++ b) i = u16le b (i - n).
Proof. intros <- ?. by rewrite <- (u16le_app a b), Nat.add_comm, Nat.sub_add. Qed.
Lemma u32le_skip a b n i : length a = n → (n ≤ i)%nat → u32le (a ++ b) i = u32le b (i - n).
Proof. intros <- ?. by rewrite <- (u32le_app a b), Nat.add_comm, Nat.sub_add. Qed.
Lemma u16le_here v b : 0 ≤ v < 2 ^ 16 → u16le (to_le_bytes 2 v ++ b) 0 = Some v.
Proof. intros. rewrite <- (from_to_le_bytes 2 v) at 2 by done. reflexivity. Qed.
Lemma u32le_here v b : 0 ≤ v < 2 ^ 32 → u32le (to_le_bytes 4 v ++ b) 0 = Some v.
Proof. intros. rewrite <- (from_to_le_bytes 4 v) at 2 by done. reflexivity. Qed.

(** Bring the field at a concrete offset to the front, and read it. *)
Ltac skip_to :=
  repeat first
    [ rewrite (u16le_skip (to_le_bytes _ _) _ _ _ (length_to_le_bytes _ _)) by (apply Nat.leb_le; reflexivity)
    | rewrite (u32le_skip (to_le_bytes _ _) _ _ _ (length_to_le_bytes _ _)) by (apply Nat.leb_le; reflexivity)
    | match goal with
      | H : length ?a = _ |- context [u16le (?a ++ _) _] => rewrite (u16le_skip a _ _ _ H) by (apply Nat.leb_le; reflexivity)
      | H : length ?a = _ |- context [u32le (?a ++ _) _] => rewrite (u32le_skip a _ _ _ H) by (apply Nat.leb_le; reflexivity)
      end ];
  cbn [Nat.sub].
Ltac read_here :=
  match goal with |- u16le _ _ = _ => apply u16le_here | |- u32le _ _ = _ => apply u32le_here end.

Section Central.
Context (inflate : list Z → Z → option (list Z)).

Lemma central_fields off m rest :
  member_ok inflate m → 0 ≤ off < ZIP64_SENTINEL →
  let cd := central_bytes off m ++ rest in
  u32le cd 0 = Some CDFH_SIG ∧ u16le cd 10 = Some (m_method m)
  ∧ u32le cd 20 = Some (Z.of_nat (length (m_comp m)))
  ∧ u32le cd 24 = Some (Z.of_nat (length (m_data m)))
  ∧ u16le cd 28 = Some (str_len (m_name m))
  ∧ u16le cd 30 = Some (Z.of_nat (length (m_cext m)))
  ∧ u16le cd 32 = Some (Z.of_nat (length (m_comment m)))
  ∧ u32le cd 42 = Some off.
Proof.
  intros [(_ & _ & Hn) (_ & Hx & Hc) (H6 & H8 & H8' & _) [Hs Hd] Hm] Ho cd.
  unfold MAX_UNCOMPRESSED, ZIP64_SENTINEL, METHOD_STORE, METHOD_DEFLATE in *.
  unfold cd, central_bytes. rewrite <- !app_assoc.
  assert (Hn0 : 0 ≤ str_len (m_name m)) by apply Nat2Z.is_nonneg.
  repeat split; skip_to; read_here;
    change (2 ^ 16) with 65536 in *; change (2 ^ 32) with 4294967296; unfold CDFH_SIG; lia.
Qed.

Lemma length_central off m : member_ok inflate m →
  length (central_bytes off m)
  = (46 + length (as_bytes (m_name m)) + length (m_cext m) + length (m_comment m))%nat.
Proof.
  intros [_ _ (H6 & H8 & H8' & _) _ _]. unfold central_bytes.
  rewrite !length_app, !length_to_le_bytes, H6, H8, H8'. lia.
Qed.

Lemma length_local m : member_ok inflate m →
  length (local_bytes m) = (30 + length (as_bytes (m_name m)) + length (m_lext m) + length (m_comp m))%nat.
Proof.
  intros [_ _ (_ & _ & _ & H22) _ _]. unfold local_bytes.
  rewrite !length_app, !length_to_le_bytes, H22. lia.
Qed.

(** The fixed 30 bytes of a local header, all that [read] looks at. *)
Definition local_header (m : Member) : list Z :=
  to_le_bytes 4 LFH_SIG ++ m_fill22 m ++ to_le_bytes 2 (str_len (m_name m))
  ++ to_le_bytes 2 (Z.of_nat (length (m_lext m))).
Lemma length_local_header m : member_ok inflate m → length (local_header m) = 30%nat.
Proof.
  intros [_ _ (_ & _ & _ & H22) _ _]. unfold local_header.
  by rewrite !length_app, !length_to_le_bytes, H22.
Qed.
Lemma local_fields m : member_ok inflate m →
  u32le (local_header m) 0 = Some LFH_SIG ∧ u16le (local_header m) 26 = Some (str_len (m_name m))
  ∧ u16le (local_header m) 28 = Some (Z.of_nat (length (m_lext m))).
Proof.
  intros [(_ & _ & Hn) (Hx & _) (_ & _ & _ & H22) _ _].
  assert (Hn0 : 0 ≤ str_len (m_name m)) by apply Nat2Z.is_nonneg.
  unfold local_header. rewrite <- (app_nil_r (to_le_bytes 2 (Z.of_nat _))).
  repeat split; skip_to; read_here; unfold LFH_SIG; lia.
Qed.

Lemma index_entry_ok off m es : member_ok inflate m → 0 ≤ off < ZIP64_SENTINEL →
  index_entry (as_bytes (m_name m)) (entry_of off m) es = <[m_name m := entry_of off m]> es.
Proof.
  intros [(Hs & Hu & _) _ _ [Hc Hd] _] Ho. unfold index_entry, from_utf8.
  unfold is_str in Hs. rewrite Hs, string_of_as_bytes, Hu. cbn [entry_of uncomp_size comp_size local_offset].
  unfold ZIP64_SENTINEL, MAX_UNCOMPRESSED in *.
  by rewrite (proj2 (Z.eqb_neq _ _)), (proj2 (Z.eqb_neq off _)), !(proj2 (Z.leb_le _ _)) by lia.
Qed.

Lemma central_name pre off m rest : member_ok inflate m →
  take (String.length (m_name m)) (drop (length pre + 46) (pre ++ central_bytes off m ++ rest))
  = as_bytes (m_name m).
Proof.
  intros [_ _ (H6 & H8 & H8' & _) _ _].
  rewrite <- length_as_bytes. unfold central_bytes. rewrite <- !app_assoc.
  repeat rewrite (app_assoc pre). rewrite !app_assoc.
  rewrite <- (app_assoc _ _ rest), <- (app_assoc _ _ (_ ++ rest)), <- (app_assoc _ (as_bytes _)).
  rewrite drop_app_length' by (rewrite !length_app, !length_to_le_bytes; lia).
  by rewrite take_app_length.
Qed.

(** The index a list of members gives, first to last. *)
Fixpoint index_of (off : Z) (ms : list Member) (es : gmap string Entry) : gmap string Entry :=
  match ms with
  | [] => es
  | m :: ms' => index_of (off + Z.of_nat (length (local_bytes m))) ms'
                  (<[m_name m := entry_of off m]> es)
  end.

Lemma cd_loop_round pre off m rest fuel count es :
  member_ok inflate m → 0 ≤ off < ZIP64_SENTINEL → count < MAX_CD_ENTRIES →
  cd_loop (S fuel) (pre ++ central_bytes off m ++ rest) (length pre) count es
  = cd_loop fuel ((pre ++ central_bytes off m) ++ rest) (length (pre ++ central_bytes off m)) (count + 1)
      (<[m_name m := entry_of off m]> es).
Proof.
  intros Hm Ho Hc. destruct (central_fields off m rest Hm Ho) as (F0 & F1 & F2 & F3 & F4 & F5 & F6 & F7).
  pose proof (length_central off m Hm) as HL. rewrite length_as_bytes in HL.
  cbn [cd_loop]. rewrite !u16le_app, !u32le_app, F1, F2, F3, F4, F5, F6, F7.
  assert (F0' : u32le (pre ++ central_bytes off m ++ rest) (length pre) = Some CDFH_SIG).
  { rewrite <- F0, <- (u32le_app pre _ 0). by rewrite Nat.add_0_r. }
  rewrite F0', bool_decide_eq_true_2 by done.
  rewrite (proj2 (Nat.leb_le _ _)) by (rewrite !length_app; lia). cbn [negb].
  rewrite (proj2 (Z.ltb_ge _ _)) by lia.
  unfold str_len. rewrite !Nat2Z.id.
  rewrite (proj2 (Nat.ltb_ge _ _)) by (rewrite !length_app; lia).
  rewrite <- app_assoc, length_app, HL. f_equal; [lia|].
  rewrite <- (index_entry_ok off m es) by done. f_equal. by apply central_name.
Qed.

Definition locals_len (ms : list Member) : Z := Z.of_nat (length (concat (local_bytes <$> ms))).
Lemma locals_len_cons m ms :
  locals_len (m :: ms) = Z.of_nat (length (local_bytes m)) + locals_len ms.
Proof. unfold locals_len. cbn. rewrite length_app. lia. Qed.
Lemma locals_len_nonneg ms : 0 ≤ locals_len ms.
Proof. unfold locals_len. lia. Qed.

Lemma cd_loop_members ms : ∀ pre off count es fuel,
  Forall (member_ok inflate) ms → 0 ≤ off → off + locals_len ms < ZIP64_SENTINEL →
  count + Z.of_nat (length ms) ≤ MAX_CD_ENTRIES → (length ms ≤ fuel)%nat →
  cd_loop fuel (pre ++ central_directory off ms) (length pre) count es = Some (index_of off ms es).
Proof.
  induction ms as [|m ms IH]; intros pre off count es fuel Hms Ho Hl Hc Hf; cbn [central_directory index_of].
  - destruct fuel; [done|]. cbn [cd_loop]. rewrite app_nil_r.
    by rewrite (proj2 (Nat.leb_gt _ _)) by lia.
  - inversion Hms; subst. destruct fuel as [|fuel]; [cbn in Hf; lia|].
    rewrite locals_len_cons in Hl. pose proof (locals_len_nonneg ms). cbn [length] in *.
    rewrite cd_loop_round by (done || lia). apply IH; (done || lia).
Qed.

Lemma length_central_directory ms : ∀ off, Forall (member_ok inflate) ms →
  (length ms ≤ length (central_directory off ms))%nat.
Proof.
  induction ms as [|m ms IH]; intros off H; [done|]. inversion H; subst. cbn [central_directory length].
  rewrite length_app, length_central by done. specialize (IH (off + Z.of_nat (length (local_bytes m))) ltac:(done)). lia.
Qed.

Lemma parse_members ms :
  Forall (member_ok inflate) ms → locals_len ms < ZIP64_SENTINEL →
  Z.of_nat (length ms) ≤ MAX_CD_ENTRIES →
  parse_central_directory (central_directory 0 ms) = Some (index_of 0 ms ∅).
Proof.
  intros. apply (cd_loop_members ms [] 0 0 ∅); (done || lia || by apply length_central_directory).
Qed.

Lemma index_of_app ms1 : ∀ off ms2 es,
  index_of off (ms1 ++ ms2) es = index_of (off + locals_len ms1) ms2 (index_of off ms1 es).
Proof.
  induction ms1 as [|m ms1 IH]; intros off ms2 es; cbn [index_of app].
  - f_equal. unfold locals_len. cbn. lia.
  - rewrite IH, locals_len_cons. f_equal. lia.
Qed.
Lemma index_of_notin ms : ∀ off es n, n ∉ m_name <$> ms → index_of off ms es !! n = es !! n.
Proof.
  induction ms as [|m ms IH]; intros off es n Hn; [done|]. cbn in *. rewrite IH by set_solver.
  apply lookup_insert_ne. set_solver.
Qed.
Lemma index_of_lookup ms1 m ms2 : NoDup (m_name <$> ms1 ++ m :: ms2) →
  index_of 0 (ms1 ++ m :: ms2) ∅ !! m_name m = Some (entry_of (locals_len ms1) m).
Proof.
  intros Hnd. rewrite fmap_app, NoDup_app in Hnd. destruct Hnd as (_ & _ & Hnd). cbn in Hnd.
  apply NoDup_cons in Hnd as [Hnd _].
  rewrite index_of_app. cbn [index_of]. rewrite index_of_notin by done. by rewrite lookup_insert_eq.
Qed.
Lemma index_of_dom ms : ∀ off es n,
  is_Some (index_of off ms es !! n) ↔ n ∈ m_name <$> ms ∨ is_Some (es !! n).
Proof.
  induction ms as [|m ms IH]; intros off es n; cbn [index_of]; [set_solver|].
  rewrite IH, lookup_insert_is_Some'. cbn. rewrite elem_of_cons. naive_solver.
Qed.

End Central.

Lemma find_rev_seq (f : nat → bool) n k : (k < n)%nat → f k = true →
  (∀ i, (k < i < n)%nat → f i = false) → List.find f (rev (seq 0 n)) = Some k.
Proof.
  induction n as [|n IH]; intros Hk Hf Hi; [lia|].
  rewrite seq_S, rev_app_distr. cbn.
  destruct (decide (k = n)) as [->|]; [by rewrite Hf|].
  rewrite Hi by lia. apply IH; [lia|done|]. intros; apply Hi; lia.
Qed.

Lemma find_eocd_last tail k : (k + 22 ≤ length tail)%nat → u32le tail k = Some EOCD_SIG →
  (∀ i, (k < i)%nat → (i + 22 ≤ length tail)%nat → u32le tail i ≠ Some EOCD_SIG) →
  find_eocd tail = Some k.
Proof.
  intros Hk Hs Hi. unfold find_eocd. rewrite (proj2 (Nat.ltb_ge _ _)) by lia.
  apply find_rev_seq; [lia|by rewrite bool_decide_eq_true_2|].
  intros i ?. apply bool_decide_eq_false_2, Hi; lia.
Qed.

Lemma read_at_app a b c (p n : Z) :
  p = Z.of_nat (length a) → n = Z.of_nat (length b) → Z.of_nat (length (a ++ b ++ c)) < 2 ^ 64 →
  read_at (a ++ b ++ c) p n = Some b.
Proof.
  intros -> -> H. rewrite !length_app in H. unfold read_at, checked_add_u64.
  rewrite (proj2 (Z.ltb_lt _ _)) by lia. cbn.
  rewrite (proj2 (Z.ltb_ge _ _)) by (rewrite !length_app; lia).
  by rewrite !Nat2Z.id, drop_app_length, take_app_length.
Qed.

(** ** Reading back a well-formed archive *)

Record archive_ok (inflate : list Z → Z → option (list Z)) (prefix : list Z)
    (ms : list Member) (fill comment : list Z) : Prop := {
  ao_members : Forall (member_ok inflate) ms;
  ao_names : NoDup (m_name <$> ms);
  ao_count : Z.of_nat (length ms) ≤ MAX_CD_ENTRIES;
  ao_locals : locals_len ms < ZIP64_SENTINEL;
  ao_cd : Z.of_nat (length (central_directory 0 ms)) ≤ MAX_CENTRAL_DIRECTORY_SIZE;
  ao_fill : length fill = 8%nat;
  ao_comment : Z.of_nat (length comment) < 2 ^ 16;
  (** no second end record hides in the comment *)
  ao_last : ∀ i, (0 < i)%nat → (i ≤ length comment)%nat →
    u32le (end_record fill (Z.of_nat (length (central_directory 0 ms))) (locals_len ms) comment) i
    ≠ Some EOCD_SIG;
  ao_size : Z.of_nat (length (archive prefix ms fill comment)) < 2 ^ 64
}.

Section Roundtrip.
Context (inflate : list Z → Z → option (list Z)).
Context (prefix : list Z) (ms : list Member) (fill comment : list Z).
Hypothesis (Hok : archive_ok inflate prefix ms fill comment).

Let locals := concat (local_bytes <$> ms).
Let cd := central_directory 0 ms.
Let eor := end_record fill (Z.of_nat (length cd)) (locals_len ms) comment.
Let file := archive prefix ms fill comment.

Lemma file_eq : file = (prefix ++ locals ++ cd) ++ eor.
Proof. unfold file, archive. by rewrite <- !app_assoc. Qed.

Lemma length_eor : length eor = (22 + length comment)%nat.
Proof.
  unfold eor, end_record. rewrite !length_app, !length_to_le_bytes, (ao_fill _ _ _ _ _ Hok). lia.
Qed.

Lemma eor_fields rest :
  u32le (eor ++ rest) 0 = Some EOCD_SIG
  ∧ u32le (eor ++ rest) 12 = Some (Z.of_nat (length cd)) ∧ u32le (eor ++ rest) 16 = Some (locals_len ms).
Proof.
  destruct Hok as [_ _ _ Hl Hcd Hf _ _ _]. pose proof (locals_len_nonneg ms).
  unfold MAX_CENTRAL_DIRECTORY_SIZE, ZIP64_SENTINEL in *. fold cd in Hcd.
  unfold eor, end_record. rewrite <- !app_assoc.
  repeat split; skip_to; apply u32le_here; change (2 ^ 32) with 4294967296; unfold EOCD_SIG; lia.
Qed.

(** The tail that is scanned ends with the whole end record. *)
Lemma tail_read : ∃ x,
  read_at file (Z.of_nat (length file) - Z.min (Z.of_nat (length file)) (22 + 0xFFFF))
    (Z.min (Z.of_nat (length file)) (22 + 0xFFFF)) = Some (x ++ eor).
Proof.
  pose proof (ao_size _ _ _ _ _ Hok) as Hs. pose proof (ao_comment _ _ _ _ _ Hok) as Hc. fold file in Hs.
  pose proof length_eor as HE. change (2 ^ 16) with 65536 in Hc.
  set (n := (length file - Z.to_nat (Z.min (Z.of_nat (length file)) (22 + 0xFFFF)))%nat).
  assert (HL : length file = (length (prefix ++ locals ++ cd) + length eor)%nat)
    by (rewrite file_eq, length_app; done).
  exists (drop n (prefix ++ locals ++ cd)).
  rewrite <- (take_drop n file) at 1. rewrite <- (app_nil_r (drop n file)).
  rewrite (read_at_app (take n file) (drop n file) []).
  - rewrite file_eq, drop_app_le by lia. done.
  - rewrite length_take. lia.
  - rewrite length_drop. lia.
  - by rewrite app_nil_r, take_drop.
Qed.

Lemma open_archive disk p : disk p = Some file →
  open disk p (Z.of_nat (length prefix)) = Some (mkZipArchive p (Z.of_nat (length prefix)) (index_of 0 ms ∅)).
Proof.
  intros Hd. unfold open. rewrite Hd. cbn [mbind option_bind].
  destruct tail_read as [x ->]. cbn [mbind option_bind].
  destruct (eor_fields []) as (F0 & F12 & F16). rewrite app_nil_r in F0, F12, F16.
  rewrite (find_eocd_last (x ++ eor) (length x)).
  2: { rewrite length_app, length_eor. lia. }
  2: { by rewrite (u32le_skip x eor _ _ eq_refl), Nat.sub_diag by lia. }
  2: { intros i Hi Hl. rewrite (u32le_skip x eor _ _ eq_refl) by lia. rewrite length_app, length_eor in Hl.
       apply (ao_last _ _ _ _ _ Hok); lia. }
  cbn [mbind option_bind]. rewrite !u32le_app, F12, F16. cbn [mbind option_bind].
  rewrite (proj2 (Z.eqb_neq _ _)) by (pose proof (ao_locals _ _ _ _ _ Hok); lia).
  rewrite (proj2 (Z.ltb_ge _ _)) by apply (ao_cd _ _ _ _ _ Hok).
  rewrite file_eq, <- app_assoc, <- app_assoc, app_assoc.
  rewrite (read_at_app (prefix ++ locals) cd eor); [|rewrite length_app; unfold locals_len, locals; lia|done|].
  2: { pose proof (ao_size _ _ _ _ _ Hok) as Hs. fold file in Hs. rewrite file_eq in Hs. by rewrite <- !app_assoc in *. }
  cbn [mbind option_bind]. unfold cd.
  by rewrite (parse_members inflate) by apply Hok.
Qed.

Lemma read_member disk p m : disk p = Some file → m ∈ ms →
  read inflate disk (mkZipArchive p (Z.of_nat (length prefix)) (index_of 0 ms ∅)) (m_name m) = Some (m_data m).
Proof.
  intros Hd Hm. apply list_elem_of_split in Hm as (ms1 & ms2 & E).
  pose proof (proj1 (Forall_forall _ _) (ao_members _ _ _ _ _ Hok) m ltac:(rewrite E; set_solver)) as Hmo.
  pose proof (ao_names _ _ _ _ _ Hok) as Hnd. pose proof (ao_size _ _ _ _ _ Hok) as Hs. fold file in Hs.
  unfold read. cbn [entries path base]. rewrite E in Hnd |- *. rewrite index_of_lookup by done.
  cbn [mbind option_bind]. rewrite Hd. cbn [mbind option_bind entry_of local_offset comp_size].
  set (hdr := local_header m).
  set (front := prefix ++ concat (local_bytes <$> ms1)).
  assert (HF : ∃ rest, file = front ++ hdr ++ (as_bytes (m_name m) ++ m_lext m) ++ m_comp m ++ rest).
  { exists (concat (local_bytes <$> ms2) ++ cd ++ eor). rewrite file_eq. unfold locals.
    rewrite E at 1. rewrite fmap_app, concat_app.
    change (concat (local_bytes <$> m :: ms2)) with (local_bytes m ++ concat (local_bytes <$> ms2)).
    replace (local_bytes m) with (hdr ++ (as_bytes (m_name m) ++ m_lext m) ++ m_comp m)
      by (unfold hdr, local_header, local_bytes; by rewrite <- !app_assoc).
    unfold front. by rewrite <- !app_assoc. }
  destruct HF as [rest HF]. destruct (mo_size _ _ Hmo) as [Hc Hdl]. pose proof (mo_data _ _ Hmo) as Hdata.
  assert (H30 : length hdr = 30%nat) by by apply (length_local_header inflate).
  assert (Hfr : Z.of_nat (length front) = Z.of_nat (length prefix) + locals_len ms1)
    by (unfold front, locals_len; rewrite length_app; lia).
  rewrite HF in Hs |- *.
  rewrite read_at_app by (done || rewrite ?H30; lia). cbn [mbind option_bind].
  destruct (local_fields inflate m Hmo) as (F0 & F26 & F28).
  fold hdr in F0, F26, F28. rewrite F0, F26, F28. cbn [mbind option_bind].
  rewrite Z.eqb_refl. cbn [negb].
  rewrite (app_assoc hdr), (app_assoc front). rewrite read_at_app.
  - cbn [mbind option_bind]. unfold decompress. cbn [method uncomp_size entry_of].
    destruct Hdata as [[-> Hcd]|[-> Hi]]; cbn.
    + by rewrite Hcd, Z.eqb_refl.
    + rewrite Hi. cbn. by rewrite (proj2 (Z.leb_le _ _)).
  - rewrite !length_app, H30, length_as_bytes. unfold str_len. lia.
  - done.
  - by rewrite <- !app_assoc in *.
Qed.

End Roundtrip.

(** ** Untrusted archives *)

Lemma index_entry_safe raw e es :
  Forall is_byte raw → map_Forall entry_safe es → map_Forall entry_safe (index_entry raw e es).
Proof.
  intros Hb Hes. unfold index_entry, from_utf8. destruct (utf8_valid raw) eqn:Hv; [|done].
  case_match eqn:H; [|done]. rewrite !andb_true_iff, !negb_true_iff, Z.eqb_neq, !Z.leb_le, Z.eqb_neq in H.
  destruct H as ((((H1 & H2) & H3) & H4) & H5).
  apply map_Forall_insert_2; [|done]. unfold entry_safe, is_str.
  by rewrite as_bytes_of_bytes.
Qed.
Lemma index_entry_size raw e es : (size (index_entry raw e es) ≤ S (size es))%nat.
Proof.
  unfold index_entry. destruct (from_utf8 raw) as [name|]; [|lia]. case_match eqn:H; [|lia].
  rewrite map_size_insert. destruct (es !! name); cbn; lia.
Qed.

(** Safe names and the count hold round after round. *)
Lemma cd_loop_safe cd : Forall is_byte cd → ∀ fuel p count es es',
  map_Forall entry_safe es → Z.of_nat (size es) ≤ count ≤ MAX_CD_ENTRIES →
  cd_loop fuel cd p count es = Some es' →
  map_Forall entry_safe es' ∧ Z.of_nat (size es') ≤ MAX_CD_ENTRIES.
Proof.
  intros Hb fuel. induction fuel as [|fuel IH]; intros p count es es' Hs Hc; cbn [cd_loop].
  { intros [= <-]. split; [done|lia]. }
  repeat (case_match eqn:Hx; [intros [= <-]; split; [done|lia]|clear Hx]).
  destruct (MAX_CD_ENTRIES <? count + 1) eqn:Hm; [done|]. apply Z.ltb_ge in Hm.
  repeat (case_match; try (intros [= <-]; split; [done|lia])).
  apply IH.
  - apply index_entry_safe; [|done]. by apply Forall_take, Forall_drop.
  - match goal with |- context [index_entry ?r ?e ?m] => pose proof (index_entry_size r e m) end. lia.
Qed.

(** Any two sufficient bounds on the rounds give the same index: the loop
    ends by itself. *)
Lemma cd_loop_fuel cd : ∀ f g p count es,
  (length cd ≤ p + f)%nat → (length cd ≤ p + g)%nat → cd_loop f cd p count es = cd_loop g cd p count es.
Proof.
  induction f as [|f IH]; intros [|g] p count es Hf Hg; cbn [cd_loop]; [done| | |].
  - by rewrite (proj2 (Nat.leb_gt _ _)) by lia.
  - by rewrite (proj2 (Nat.leb_gt _ _)) by lia.
  - repeat (case_match; try done). apply IH; lia.
Qed.

Lemma read_at_bytes file pos len b :
  Forall is_byte file → read_at file pos len = Some b → Forall is_byte b.
Proof.
  unfold read_at. destruct (checked_add_u64 pos len); cbn; [|done]. case_match eqn:H; [done|].
  intros Hb [= <-]. by apply Forall_take, Forall_drop.
Qed.

Lemma open_safe disk p base z :
  (∀ file, disk p = Some file → Forall is_byte file) → open disk p base = Some z →
  map_Forall entry_safe (entries z) ∧ Z.of_nat (size (entries z)) ≤ MAX_CD_ENTRIES.
Proof.
  intros Hb. unfold open. destruct (disk p) as [file|] eqn:Hd; [|done]. cbn [mbind option_bind].
  destruct (read_at file _ _) as [tail|]; [|done]. cbn [mbind option_bind].
  destruct (find_eocd tail) as [k|]; [|done]. cbn [mbind option_bind].
  destruct (u32le tail (k + 12)) as [cs|]; [|done]. cbn [mbind option_bind].
  destruct (u32le tail (k + 16)) as [co|]; [|done]. cbn [mbind option_bind].
  do 2 (case_match eqn:Hx; [done|clear Hx]).
  destruct (read_at file (base + co) cs) as [cd|] eqn:Hr; [|done]. cbn [mbind option_bind].
  destruct (parse_central_directory cd) as [es|] eqn:Hp; [|done]. intros [= <-].
  eapply cd_loop_safe in Hp; [done|by eapply read_at_bytes, Hr; apply Hb|done|done].
Qed.

Lemma read_capped inflate disk z name out :
  map_Forall entry_safe (entries z) → read inflate disk z name = Some out →
  Z.of_nat (length out) ≤ MAX_UNCOMPRESSED.
Proof.
  intros Hs. unfold read. destruct (entries z !! name) as [e|] eqn:He; [|done]. cbn [mbind option_bind].
  destruct (disk (path z)) as [file|]; [|done]. cbn [mbind option_bind].
  destruct (read_at file _ 30) as [lfh|]; [|done]. cbn [mbind option_bind].
  destruct (u32le lfh 0); [|done]. cbn [mbind option_bind]. case_match eqn:Hx; [done|].
  destruct (u16le lfh 26); [|done]. destruct (u16le lfh 28); [|done]. cbn [mbind option_bind].
  destruct (read_at file _ (comp_size e)) as [c|]; [|done]. cbn [mbind option_bind].
  destruct (Hs _ _ He) as (_ & _ & Hu & _). unfold decompress.
  case_match eqn:H1; [case_match eqn:H2; [|done]; apply Z.eqb_eq in H2; intros [= <-]; lia|].
  case_match eqn:H3; [|done]. destruct (inflate c _) as [o|]; [|done]. cbn [mbind option_bind].
  case_match eqn:H4; [|done]. apply Z.leb_le in H4. by intros [= <-].
Qed.

(** ** Properties *)

(** C12: An archive laid out as the ZIP format prescribes is read back exactly:
    behind any prefix (a jmod's header), with any comment that hides no
    second end record, [open] finds precisely the members' names, and [read]
    returns every member's data, stored or deflated. *)
Theorem zip_roundtrip inflate prefix ms fill comment disk p :
  archive_ok inflate prefix ms fill comment → disk p = Some (archive prefix ms fill comment) →
  ∃ z, open disk p (Z.of_nat (length prefix)) = Some z
    ∧ (∀ name, contains z name = true ↔ name ∈ m_name <$> ms)
    ∧ ∀ m, m ∈ ms → read inflate disk z (m_name m) = Some (m_data m).
Proof.
  intros Hok Hd. eexists. split; [by eapply open_archive|]. split.
  - intros name. unfold contains. rewrite bool_decide_eq_true. cbn [entries].
    rewrite index_of_dom, lookup_empty, is_Some_alt. tauto.
  - intros m Hm. by eapply read_member.
Qed.

(** C13: Whatever bytes an archive holds, an index that is accepted has at most
    a million entries, all of them UTF-8 names without a leading slash, a
    backslash or a [..] segment, with sizes of at most 16 MiB; and no entry
    ever yields more than 16 MiB, even if the file changed since or the
    decompressor disregards its limit. *)
Theorem zip_untrusted_bounded inflate disk disk' p base z :
  (∀ file, disk p = Some file → Forall is_byte file) → open disk p base = Some z →
  map_Forall entry_safe (entries z) ∧ Z.of_nat (size (entries z)) ≤ MAX_CD_ENTRIES
  ∧ ∀ name out, read inflate disk' z name = Some out → Z.of_nat (length out) ≤ MAX_UNCOMPRESSED.
Proof.
  intros Hb Ho. destruct (open_safe _ _ _ _ Hb Ho) as [Hs Hn]. do 2 (split; [done|]).
  intros name out. by apply read_capped.
Qed.

(** *** Witnesses *)

Definition ex_inflate (c : list Z) (limit : Z) : option (list Z) := Some (rev c).
Definition ex_members : list Member :=
  [mkMember "classes/A.class" METHOD_STORE [202; 254] [202; 254] [1; 2] [] [7]
     (replicate 6 0) (replicate 8 0) (replicate 8 0) (replicate 22 0);
   mkMember "classes/b/C.class" METHOD_DEFLATE [3; 2; 1] [1; 2; 3] [] [9] []
     (replicate 6 1) (replicate 8 2) (replicate 8 3) (replicate 22 4)].
Definition ex_prefix : list Z := [74; 77; 1; 0].
Definition ex_disk (p : string) : option (list Z) :=
  if bool_decide (p = "java.base.jmod") then Some (archive ex_prefix ex_members (replicate 8 0) [33])
  else None.

Lemma zip_roundtrip_witness : ∃ z, open ex_disk "java.base.jmod" 4 = Some z
  ∧ (∀ name, contains z name = true ↔ name ∈ m_name <$> ex_members)
  ∧ ∀ m, m ∈ ex_members → read ex_inflate ex_disk z (m_name m) = Some (m_data m).
Proof.
  apply (zip_roundtrip ex_inflate ex_prefix ex_members (replicate 8 0) [33]); [|reflexivity].
  assert (∀ m, m ∈ ex_members → member_ok ex_inflate m).
  { intros m Hm. repeat (apply elem_of_cons in Hm as [->|Hm]); [| |by apply elem_of_nil in Hm];
      (split; [repeat split; (reflexivity || vm_compute; congruence)
              |repeat split; vm_compute; congruence|repeat split
              |split; vm_compute; congruence|]); [left; split; reflexivity|right; split; reflexivity]. }
  split; try (vm_compute; congruence).
  - by apply Forall_forall.
  - apply (bool_decide_eq_true_1 (NoDup _)). reflexivity.
  - intros i Hi Hl. destruct i as [|[|i]]; [lia| |cbn in Hl; lia]. vm_compute. congruence.
Defined.

Lemma zip_untrusted_bounded_witness : ∃ z, open ex_disk "java.base.jmod" 4 = Some z
  ∧ map_Forall entry_safe (entries z).
Proof.
  destruct (open ex_disk "java.base.jmod" 4) as [z|] eqn:E; [|vm_compute in E; discriminate].
  exists z. split; [done|].
  refine (proj1 (zip_untrusted_bounded ex_inflate ex_disk ex_disk "java.base.jmod" 4 z _ E)).
  intros file [= <-]. apply Forall_forall. intros b Hb. unfold is_byte.
  assert (H : forallb (λ b, (0 <=? b) && (b <? 256)) (archive ex_prefix ex_members (replicate 8 0) [33]) = true)
    by reflexivity.
  rewrite forallb_forall in H. apply list_elem_of_In in Hb. specialize (H b Hb).
  rewrite andb_true_iff, Z.leb_le, Z.ltb_lt in H. exact H.
Defined.
