(* ===== verification/Pom.v ===== *)
(** * Effective POMs ([crates/classpath/src/resolve.rs], first half)

    Reading one [pom.xml] into its effective form: the parent chain merged in,
    properties substituted, managed versions filled in, BOMs imported.  XML
    parsing ([roxmltree]) and the file system are interfaces; where an
    artifact's files lie on disk is the [Locator] the build backends
    implement.  The chain depth becomes the number of levels left. *)
From Stdlib Require Import Ascii.
From S2P Require Import Prelude RustStd Paths.

Definition MAX_POM_BYTES : Z := 4 * 1024 * 1024.
Definition MAX_DEPTH : nat := 25.

(** ** Interfaces *)

(** Namespaces do not matter to [has_tag_name] with a plain name, and
    attributes are never read. *)
Inductive XNode :=
| XElem (tag : string) (children : list XNode)
| XText (text : string)
| XOther.   (** comments, processing instructions *)

Class PomFs := {
  pom_len : string → option Z;                 (** [fs::metadata(..).len()] *)
  pom_read : string → option string;           (** [fs::read_to_string] *)
  pom_is_file : string → bool;
  pom_is_dir : string → bool;
  canonicalize : string → option string;
  parse_xml : string → option (list XNode);    (** the document's top-level nodes *)
}.

Class Locator := {
  locate_pom : string → string → string → option string;
  locate_jar : string → string → string → option string;
}.

(** The iteration order of a [HashMap], which Rust leaves open. *)
Class HashOrder := {
  hash_iter : gmap string string → list (string * string);
  hash_iter_perm : ∀ m, hash_iter m ≡ₚ map_to_list m;
}.

(** ** Data *)

Record RawDep := mkRawDep {
  rd_group : string; rd_artifact : string; rd_version : option string; rd_scope : string;
  rd_optional : bool; rd_classifier : option string; rd_exclusions : gset (string * string)
}.
Record ManagedDep := mkManagedDep { md_version : option string; md_scope : option string }.
Record RawEffective := mkRawEffective {
  re_group : string; re_version : string; re_props : gmap string string;
  re_managed : gmap (string * string) ManagedDep;
  re_dependencies : list RawDep; re_modules : list string; re_degraded : list string
}.
Record EffectivePom := mkEffectivePom {
  ep_dependencies : list RawDep; ep_modules : list string; ep_degraded : list string
}.

Definition coord_str (group artifact version : string) : string :=
  group +:+ ":" +:+ artifact +:+ ":" +:+ version.

(** ** XML access *)

Definition x_children (n : XNode) : list XNode := match n with XElem _ cs => cs | _ => [] end.
Definition has_tag (tag : string) (n : XNode) : bool :=
  match n with XElem t _ => bool_decide (t = tag) | _ => false end.
Definition find_child (tag : string) (n : XNode) : option XNode := List.find (has_tag tag) (x_children n).
(** [Node::text] of an element: its first child's, if that is text. *)
Definition x_text (n : XNode) : option string :=
  match x_children n with XText s :: _ => Some s | _ => None end.
Fixpoint find_descendant (tag : string) (n : XNode) : option XNode :=
  if has_tag tag n then Some n
  else match n with
       | XElem _ cs =>
           (fix go (cs : list XNode) : option XNode :=
              match cs with
              | [] => None
              | c :: cs' => match find_descendant tag c with Some r => Some r | None => go cs' end
              end) cs
       | _ => None
       end.
Fixpoint find_in_document (tag : string) (nodes : list XNode) : option XNode :=
  match nodes with
  | [] => None
  | n :: ns => match find_descendant tag n with Some r => Some r | None => find_in_document tag ns end
  end.

Definition child_text (node : XNode) (tag : string) : option string :=
  n ← find_child tag node;
  t ← x_text n;
  let t := trim t in
  if bool_decide (t = "") then None else Some t.

(** The [tag] elements below the first [list] child. *)
Definition items (list_tag tag : string) (node : XNode) : list XNode :=
  match find_child list_tag node with
  | Some l => List.filter (has_tag tag) (x_children l)
  | None => []
  end.

(** ** Paths *)

(** [.] and [..] resolved on the text alone; [depth] counts the normal
    components that can still be popped. *)
Fixpoint normalize_go (cs out : list string) (depth : nat) : option (list string) :=
  match cs with
  | [] => Some out
  | c :: cs' =>
      if bool_decide (c = "/") then normalize_go cs' (out ++ [c]) depth
      else if bool_decide (c = ".") then normalize_go cs' out depth
      else if bool_decide (c = "..") then
        match depth with
        | O => None
        | S d => normalize_go cs' (removelast out) d
        end
      else normalize_go cs' (out ++ [c]) (S depth)
  end.
Definition lexical_normalize (path : string) : option string :=
  path_render <$> normalize_go (path_components path) [] 0.

Section Pom.
Context `{PomFs} `{Locator} `{HashOrder}.

Definition project_local_parent (pom_path rel project_root : string) : option string :=
  if bool_decide (rel = "") || is_absolute rel then None
  else
    dir ← path_parent pom_path;
    candidate ← lexical_normalize (path_join dir rel);
    root ← lexical_normalize project_root;
    if negb (path_starts_with candidate root) then None
    else if negb (pom_is_file candidate) then None
    else
      canon ← canonicalize candidate;
      canon_root ← canonicalize project_root;
      if path_starts_with canon canon_root then Some candidate else None.

(** ** Properties *)

Definition needle (key : string) : string := "${" +:+ key +:+ "}".
(** One pass over the properties, and whether it changed anything. *)
Definition subst_pass (props : list (string * string)) (out : string) : string * bool :=
  fold_left (λ st kv,
      if contains_str (needle kv.1) st.1 then (str_replace (needle kv.1) kv.2 st.1, true) else st)
    props (out, false).
Fixpoint subst_loop (n : nat) (props : list (string * string)) (out : string) : string :=
  match n with
  | O => out
  | S k => let '(out', changed) := subst_pass props out in
           if changed : bool then subst_loop k props out' else out'
  end.
Definition substitute (value : string) (props : gmap string string) : string :=
  subst_loop 5 (hash_iter props) value.

Definition child_subst (props : gmap string string) (node : XNode) (tag : string) : option string :=
  (λ s, substitute s props) <$> child_text node tag.

(** The parent's properties, overlaid with the POM's own. *)
Definition own_properties (project : XNode) (props : gmap string string) : gmap string string :=
  match find_child "properties" project with
  | None => props
  | Some p =>
      fold_left (λ m n, match n with
                        | XElem tag _ => match x_text n with Some t => <[tag := trim t]> m | None => m end
                        | _ => m
                        end) (x_children p) props
  end.
Definition insert_opt (keys : list string) (v : option string) (m : gmap string string) : gmap string string :=
  match v with Some v => fold_left (λ m k, <[k := v]> m) keys m | None => m end.
Definition implicit_properties (version group artifact : string) (parent_version parent_group : option string)
    (props : gmap string string) : gmap string string :=
  insert_opt ["project.parent.groupId"] parent_group
    (insert_opt ["project.parent.version"; "pom.parent.version"] parent_version
       (<["pom.version" := version]> (<["project.artifactId" := artifact]>
          (<["project.groupId" := group]> (<["project.version" := version]> props))))).

(** ** Managed and declared dependencies *)

(** One [dependencyManagement] entry: a BOM import merges what it manages,
    and nothing overrides an earlier entry of this POM. *)
Definition manage_entry (import : string → option RawEffective) (props : gmap string string)
    (own : gmap (string * string) ManagedDep) (dep : XNode) : gmap (string * string) ManagedDep :=
  match child_subst props dep "groupId", child_subst props dep "artifactId" with
  | Some g, Some a =>
      let scope := child_subst props dep "scope" in
      let version_txt := child_subst props dep "version" in
      if bool_decide (scope = Some "import") then
        match (v ← version_txt; p ← locate_pom g a v; import p) with
        | Some bom => own ∪ re_managed bom
        | None => own
        end
      else match own !! (g, a) with
           | Some _ => own
           | None => <[(g, a) := mkManagedDep version_txt scope]> own
           end
  | _, _ => own
  end.
Definition own_management (import : string → option RawEffective) (project : XNode)
    (props : gmap string string) (managed : gmap (string * string) ManagedDep) :
    gmap (string * string) ManagedDep :=
  match find_child "dependencyManagement" project with
  | None => managed
  | Some dm => fold_left (manage_entry import props) (items "dependencies" "dependency" dm) ∅ ∪ managed
  end.

Definition exclusions_of (props : gmap string string) (dep : XNode) : gset (string * string) :=
  fold_left (λ ex n,
      match child_subst props n "groupId", child_subst props n "artifactId" with
      | Some g, Some a => {[(g, a)]} ∪ ex
      | _, _ => ex
      end) (items "exclusions" "exclusion" dep) ∅.

Definition declared_dep (props : gmap string string) (managed : gmap (string * string) ManagedDep)
    (dep : XNode) : option RawDep :=
  g ← child_subst props dep "groupId";
  a ← child_subst props dep "artifactId";
  let version := child_subst props dep "version" in
  let version := if match version with Some v => bool_decide (v = "") || contains_str "${" v | None => true end
                 then managed !! (g, a) ≫= md_version else version in
  let scope := child_subst props dep "scope" in
  let scope := if match scope with Some s => bool_decide (s = "") | None => true end
               then managed !! (g, a) ≫= md_scope else scope in
  let optional := match child_subst props dep "optional" with
                  | Some o => eq_ignore_ascii_case o "true" | None => false end in
  Some (mkRawDep g a version (default "compile" scope) optional (child_subst props dep "classifier")
          (exclusions_of props dep)).

Definition dep_key (d : RawDep) : string * string := (rd_group d, rd_artifact d).
(** Inherited dependencies come first; the child's own declaration wins. *)
Definition inherit_deps (parent own : list RawDep) : list RawDep :=
  List.filter (λ d, negb (bool_decide (dep_key d ∈ dep_key <$> own))) parent ++ own.

Definition modules_of (props : gmap string string) (project : XNode) : list string :=
  omap (λ m, (λ t, substitute (trim t) props) <$> x_text m) (items "modules" "module" project).

(** ** The effective POM *)

(** What a POM takes from its parent. *)
Record Inherited := mkInherited {
  in_props : gmap string string; in_managed : gmap (string * string) ManagedDep;
  in_dependencies : list RawDep; in_group : option string; in_version : option string;
  in_degraded : list string
}.

Definition or_else {A} (a b : option A) : option A := match a with Some _ => a | None => b end.

Definition parse_effective_pom_raw_from_doc (import : string → option RawEffective)
    (project : XNode) (inh : Inherited) : RawEffective :=
  let props := own_properties project (in_props inh) in
  let group := default "" (or_else (child_subst props project "groupId") (in_group inh)) in
  let artifact := default "" (child_subst props project "artifactId") in
  let version := default "" (or_else (child_subst props project "version") (in_version inh)) in
  let props := implicit_properties version group artifact (in_version inh) (in_group inh) props in
  let managed := own_management import project props (in_managed inh) in
  let own := omap (declared_dep props managed) (items "dependencies" "dependency" project) in
  mkRawEffective group version props managed (inherit_deps (in_dependencies inh) own)
    (modules_of props project) (in_degraded inh).

Definition no_parent : Inherited := mkInherited ∅ ∅ [] None None [].

(** The parent's coordinates win over the reference's once it is read; an
    unreadable parent is recorded. *)
Definition inherit_from (pom_path : string) (project parent : XNode) (parsed : option RawEffective) : Inherited :=
  match parsed with
  | Some p => mkInherited (re_props p) (re_managed p) (re_dependencies p)
                (Some (re_group p)) (Some (re_version p)) (re_degraded p)
  | None =>
      let child := default "" (or_else (child_text project "artifactId") (file_name pom_path)) in
      let coord := coord_str (default "?" (child_text parent "groupId"))
                     (default "?" (child_text parent "artifactId")) (default "?" (child_text parent "version")) in
      mkInherited ∅ ∅ [] (child_text parent "groupId") (child_text parent "version")
        [child +:+ ": parent " +:+ coord +:+ " unreadable"]
  end.

(** Where the parent of a POM is looked for: inside the project for a
    project-local POM, else in the cache, by coordinates; with the project
    root to go on with. *)
Definition parent_location (pom_path : string) (project_root : option string) (parent : XNode) :
    option (string * option string) :=
  let rel_path := default "../pom.xml" (child_text parent "relativePath") in
  match project_root ≫= project_local_parent pom_path rel_path with
  | Some local => Some (local, project_root)
  | None =>
      g ← child_text parent "groupId"; a ← child_text parent "artifactId"; v ← child_text parent "version";
      (λ p, (p, None)) <$> locate_pom g a v
  end.

Definition read_project (pom_path : string) : option XNode :=
  match pom_len pom_path with
  | None => None
  | Some len =>
      if MAX_POM_BYTES <? len then None
      else text ← pom_read pom_path; doc ← parse_xml text; find_in_document "project" doc
  end.

Fixpoint parse_effective_pom_raw (levels : nat) (pom_path : string) (project_root : option string) :
    option RawEffective :=
  match levels with
  | O => None
  | S l =>
      project ← read_project pom_path;
      let inh := match find_child "parent" project with
                 | None => no_parent
                 | Some parent =>
                     inherit_from pom_path project parent
                       (match parent_location pom_path project_root parent with
                        | Some (p, root) => parse_effective_pom_raw l p root
                        | None => None
                        end)
                 end in
      Some (parse_effective_pom_raw_from_doc (λ p, parse_effective_pom_raw l p None) project inh)
  end.

(** [chain_depth] 0 leaves [MAX_DEPTH + 1] levels. *)
Definition parse_effective_pom (pom_path : string) (project_root : option string) : option EffectivePom :=
  (λ r, mkEffectivePom (re_dependencies r) (re_modules r) (re_degraded r))
    <$> parse_effective_pom_raw (S MAX_DEPTH) pom_path project_root.

(** ** The Java release *)

Definition parse_release_level (s : string) : option Z :=
  let s := trim s in
  if bool_decide (s = "") || contains_str "${" s then None
  else match strip_prefix "1." s with
       | Some rest => parse_uint 32 rest
       | None => parse_uint 32 s
       end.
Definition release_from_props (props : gmap string string) : option Z :=
  head (omap (λ key, props !! key ≫= λ raw, parse_release_level (substitute raw props))
          ["maven.compiler.release"; "maven.compiler.source"; "java.version"]).
Definition maven_like_compiler_release (root : string) : option Z :=
  raw ← parse_effective_pom_raw (S MAX_DEPTH) (path_join root "pom.xml") (Some root);
  release_from_props (re_props raw).

End Pom.

(** ** Lexical normalization *)

Definition normal_part (c : string) : Prop := plain_part c ∧ c ≠ "..".

Lemma normalize_parts cs : ∀ pre ns out, Forall plain_part cs → Forall normal_part ns →
  normalize_go cs (pre ++ ns) (length ns) = Some out →
  ∃ ns', out = pre ++ ns' ∧ Forall normal_part ns'.
Proof.
  induction cs as [|c cs IH]; intros pre ns out Hcs Hns; cbn [normalize_go].
  { intros [= <-]. by exists ns. }
  inversion Hcs as [|? ? Hc Hcs']; subst.
  rewrite (bool_decide_eq_false_2 (c = "/")) by by apply plain_not_root.
  rewrite (bool_decide_eq_false_2 (c = ".")) by apply Hc.
  case_bool_decide as Hd.
  - destruct (rev ns) as [|x r] eqn:Er.
    { apply (f_equal (@rev _)) in Er. rewrite rev_involutive in Er. by subst ns. }
    apply (f_equal (@rev _)) in Er. rewrite rev_involutive in Er. cbn in Er. subst ns.
    rewrite length_app, Nat.add_1_r. rewrite app_assoc, removelast_last.
    apply Forall_app in Hns as [Hns _]. by apply IH.
  - rewrite <- app_assoc. replace (S (length ns)) with (length (ns ++ [c])) by (rewrite length_app; cbn; lia).
    apply IH; [done|]. apply Forall_app. split; [done|constructor; [done|constructor]].
Qed.

(** A normalized path has an optional root and normal components only. *)
Lemma lexical_normalize_components p q : lexical_normalize p = Some q →
  ∃ ns, Forall normal_part ns ∧ (path_components q = ns ∨ path_components q = "/" :: ns).
Proof.
  unfold lexical_normalize. intros Hq. apply fmap_Some in Hq as (out & Hg & ->).
  assert (∃ ns, Forall normal_part ns ∧ (out = ns ∨ out = "/" :: ns)) as (ns & Hns & Ho).
  { destruct (components_shape p) as (l & Hl & [E|[E|E]]); rewrite E in Hg.
    - apply (normalize_parts l [] []) in Hg as (ns & -> & Hns); [by eauto|done|constructor].
    - cbn [normalize_go] in Hg. change (bool_decide ("/" = "/")) with true in Hg.
      apply (normalize_parts l ["/"] []) in Hg as (ns & -> & Hns); [by eauto|done|constructor].
    - cbn [normalize_go] in Hg. change (bool_decide ("." = "/")) with false in Hg.
      change (bool_decide ("." = ".")) with true in Hg.
      apply (normalize_parts l [] []) in Hg as (ns & -> & Hns); [by eauto|done|constructor]. }
  exists ns. split; [done|]. rewrite components_render; [done|].
  exists ns. split; [eapply Forall_impl; [exact Hns|by intros ? [? _]]|done].
Qed.

(** ** What a resolution may look at *)

(** [p] is lexically inside [root]: it goes on from the normalized root and
    never climbs. *)
Definition inside (root p : string) : Prop :=
  ∃ r, lexical_normalize root = Some r ∧ path_starts_with p r = true ∧ ".." ∉ path_components p.

Section Confined.
Context `{Locator} `{HashOrder} (fs1 fs2 : PomFs).

(** The cache files the locator names, and the project's own. *)
Definition allowed (project_root : option string) (p : string) : Prop :=
  (∃ g a v, locate_pom g a v = Some p) ∨ ∃ root, project_root = Some root ∧ inside root p.

Record agree_on (project_root : option string) (start : string) : Prop := {
  ag_xml : ∀ text, @parse_xml fs1 text = @parse_xml fs2 text;
  ag_read : ∀ p, p = start ∨ allowed project_root p →
    @pom_len fs1 p = @pom_len fs2 p ∧ @pom_read fs1 p = @pom_read fs2 p;
  ag_probe : ∀ p, allowed project_root p →
    @pom_is_file fs1 p = @pom_is_file fs2 p ∧ @canonicalize fs1 p = @canonicalize fs2 p;
  ag_root : ∀ root, project_root = Some root → @canonicalize fs1 root = @canonicalize fs2 root
}.

Lemma project_local_parent_agrees root start rel :
  agree_on (Some root) start →
  @project_local_parent fs1 start rel root = @project_local_parent fs2 start rel root
  ∧ ∀ p, @project_local_parent fs1 start rel root = Some p → inside root p.
Proof.
  intros [_ _ Hp Hr]. unfold project_local_parent.
  destruct (bool_decide (rel = "") || is_absolute rel); [done|].
  destruct (path_parent start) as [dir|]; [|done]. cbn [mbind option_bind].
  destruct (lexical_normalize (path_join dir rel)) as [c|] eqn:Ec; [|done]. cbn [mbind option_bind].
  destruct (lexical_normalize root) as [r|] eqn:Er; [|done]. cbn [mbind option_bind].
  destruct (path_starts_with c r) eqn:Es; cbn [negb]; [|done].
  assert (Hin : inside root c).
  { exists r. split; [done|]. split; [done|]. apply lexical_normalize_components in Ec as (ns & Hns & Hc).
    assert (".." ∉ ns) by (intros Hx; eapply Forall_forall in Hns; [|exact Hx]; by destruct Hns).
    destruct Hc as [-> | ->]; [done|]. by intros [?|?]%elem_of_cons. }
  destruct (Hp c ltac:(right; eauto)) as [Hf Hcan]. rewrite Hf, Hcan, (Hr root eq_refl).
  destruct (@pom_is_file fs2 c); cbn [negb]; [|done].
  destruct (@canonicalize fs2 c); [|done]. cbn [mbind option_bind].
  destruct (@canonicalize fs2 root); [|done]. cbn [mbind option_bind].
  case_match; [|done]. split; [done|]. by intros p [= <-].
Qed.

Lemma read_project_agrees root start p :
  agree_on root start → p = start ∨ allowed root p → @read_project fs1 p = @read_project fs2 p.
Proof.
  intros [Hx Hr _ _] Hp. unfold read_project. destruct (Hr p Hp) as [-> ->].
  destruct (@pom_len fs2 p) as [n|]; [|done]. destruct (MAX_POM_BYTES <? n); [done|].
  destruct (@pom_read fs2 p); [|done]. cbn [mbind option_bind]. by rewrite Hx.
Qed.

Lemma agree_on_cache root start p :
  agree_on root start → (∃ g a v, locate_pom g a v = Some p) → agree_on None p.
Proof.
  intros [Hx Hr Hp Hc] Hl. split; [done| | |done].
  - intros q [->|[Hq|(r & ? & _)]]; [apply Hr; right; by left|apply Hr; right; by left|done].
  - intros q [Hq|(r & ? & _)]; [apply Hp; by left|done].
Qed.
Lemma agree_on_local root start p :
  agree_on (Some root) start → inside root p → agree_on (Some root) p.
Proof.
  intros [Hx Hr Hp Hc] Hl. split; [done| |done|done].
  intros q [->|Hq]; apply Hr; right; [right; eauto|done].
Qed.

Lemma from_doc_ext (imp1 imp2 : string → option RawEffective) project inh :
  (∀ g a v p, locate_pom g a v = Some p → imp1 p = imp2 p) →
  parse_effective_pom_raw_from_doc imp1 project inh = parse_effective_pom_raw_from_doc imp2 project inh.
Proof.
  intros Hi. unfold parse_effective_pom_raw_from_doc, own_management.
  assert (E : ∀ props l own, fold_left (manage_entry imp1 props) l own = fold_left (manage_entry imp2 props) l own).
  { intros props. induction l as [|dep l IH]; intros own; cbn [fold_left]; [done|]. rewrite IH. f_equal.
    unfold manage_entry. destruct (child_subst props dep "groupId") as [g|]; [|done].
    destruct (child_subst props dep "artifactId") as [a|]; [|done]. case_bool_decide; [|done].
    destruct (child_subst props dep "version") as [v|]; [|done]. cbn [mbind option_bind].
    destruct (locate_pom g a v) as [p|] eqn:El; [|done]. cbn [mbind option_bind]. by rewrite (Hi _ _ _ _ El). }
  destruct (find_child "dependencyManagement" project); [|done]. by rewrite E.
Qed.

Lemma raw_ext levels : ∀ start root,
  agree_on root start →
  @parse_effective_pom_raw fs1 _ _ levels start root = @parse_effective_pom_raw fs2 _ _ levels start root.
Proof.
  induction levels as [|l IH]; intros start root Ha; cbn [parse_effective_pom_raw]; [done|].
  rewrite (read_project_agrees root start start Ha ltac:(by left)).
  destruct (@read_project fs2 start) as [project|]; [|done]. cbn [mbind option_bind]. f_equal.
  assert (Hi : ∀ g a v p, locate_pom g a v = Some p →
    @parse_effective_pom_raw fs1 _ _ l p None = @parse_effective_pom_raw fs2 _ _ l p None).
  { intros g a v p Hl. apply IH. eapply agree_on_cache; eauto. }
  rewrite (from_doc_ext _ (λ p, @parse_effective_pom_raw fs2 _ _ l p None) _ _ Hi). f_equal.
  destruct (find_child "parent" project) as [parent|]; [|done]. f_equal.
  unfold parent_location. set (rel := default _ _).
  assert (Hcoord : ∀ o1 o2 : option (string * option string), o1 = o2 →
    (∀ p r, o2 = Some (p, r) → agree_on r p) →
    match o1 with Some (p, r) => @parse_effective_pom_raw fs1 _ _ l p r | None => None end
    = match o2 with Some (p, r) => @parse_effective_pom_raw fs2 _ _ l p r | None => None end).
  { intros o1 [[p r]|] -> Hag; [|done]. apply IH. by apply Hag. }
  destruct root as [root|]; cbn [mbind option_bind].
  - destruct (project_local_parent_agrees root start rel Ha) as [E Hin]. rewrite E in Hin |- *.
    apply Hcoord; [done|]. intros p r. destruct (@project_local_parent fs2 start rel root) as [c|].
    + intros [= <- <-]. eapply agree_on_local; eauto.
    + destruct (child_text parent "groupId") as [g|], (child_text parent "artifactId") as [a|],
        (child_text parent "version") as [v|]; try done. cbn [mbind option_bind].
      destruct (locate_pom g a v) as [c|] eqn:El; [|done]. intros [= <- <-]. eapply agree_on_cache; eauto.
  - apply Hcoord; [done|]. intros p r.
    destruct (child_text parent "groupId") as [g|], (child_text parent "artifactId") as [a|],
      (child_text parent "version") as [v|]; try done. cbn [mbind option_bind].
    destruct (locate_pom g a v) as [c|] eqn:El; [|done]. intros [= <- <-]. eapply agree_on_cache; eauto.
Qed.

End Confined.

(** ** Substitution *)

Lemma strip_prefix_plain k s : contains_str "${" s = false → strip_prefix (needle k) s = None.
Proof.
  intros Hc. destruct (strip_prefix (needle k) s) as [r|] eqn:E; [|done].
  apply strip_prefix_Some in E. subst s. unfold needle in Hc. rewrite !str_app_assoc in Hc.
  exfalso. revert Hc. unfold contains_str. generalize (k +:+ "}" +:+ r) as u. intros u.
  by vm_compute.
Qed.
Lemma contains_str_tail p a s : contains_str p (String a s) = false → contains_str p s = false.
Proof.
  unfold contains_str. rewrite !bool_decide_eq_false. cbn [str_find].
  destruct (starts_with p (String a s)); [intros H; by destruct H|].
  intros H [n Hn]. apply H. by rewrite Hn.
Qed.
Lemma plain_no_needle k s : contains_str "${" s = false → contains_str (needle k) s = false.
Proof.
  induction s as [|a s IH]; intros Hc; unfold contains_str in *; apply bool_decide_eq_false; cbn [str_find];
    unfold starts_with; rewrite (strip_prefix_plain k) by done; rewrite bool_decide_eq_false_2 by (by intros [? ?]);
    [by intros [? ?]|].
  intros [n Hn]. apply fmap_Some in Hn as (m & Hm & _).
  specialize (IH (contains_str_tail _ _ _ Hc)). apply bool_decide_eq_false in IH. apply IH. by rewrite Hm.
Qed.
Lemma subst_pass_plain props s : contains_str "${" s = false → subst_pass props s = (s, false).
Proof.
  intros Hc. unfold subst_pass. induction props as [|[k v] props IH]; cbn [fold_left]; [done|].
  cbn [fst snd]. by rewrite plain_no_needle.
Qed.

(** A string of [n] references to [x], each of which stands for [k] more. *)
Definition refs_to_x (n : nat) : string := str_repeat n (needle "x").
Lemma str_repeat_app m n s : str_repeat (m + n) s = str_repeat m s +:+ str_repeat n s.
Proof. induction m as [|m IH]; [done|]. cbn [str_repeat Nat.add]. by rewrite IH, str_app_assoc. Qed.
Lemma replace_refs k n : ∀ f, (String.length (refs_to_x n) ≤ f)%nat →
  str_replace_go f (needle "x") (refs_to_x k) (refs_to_x n) = refs_to_x (n * k).
Proof.
  induction n as [|n IH]; intros f Hf.
  - destruct f; [done|]. by cbn.
  - unfold refs_to_x in Hf. cbn [str_repeat] in Hf. rewrite str_length_app in Hf.
    change (String.length (needle "x")) with 4%nat in Hf. destruct f as [|f]; [lia|].
    unfold refs_to_x at 2. cbn [str_repeat str_replace_go]. rewrite strip_prefix_app.
    fold (refs_to_x n). rewrite IH by (unfold refs_to_x; lia).
    unfold refs_to_x. by rewrite <- str_repeat_app.
Qed.
Lemma subst_pass_refs k n : (0 < n)%nat →
  subst_pass [("x", refs_to_x k)] (refs_to_x n) = (refs_to_x (n * k), true).
Proof.
  intros Hn. unfold subst_pass. cbn [fold_left fst snd].
  assert (contains_str (needle "x") (refs_to_x n) = true) as ->.
  { destruct n as [|n]; [lia|]. unfold contains_str. apply bool_decide_eq_true. unfold refs_to_x.
    cbn [str_repeat]. set (t := str_repeat n _). exists 0%nat. reflexivity. }
  unfold str_replace. by rewrite replace_refs.
Qed.

(** ** Properties *)

(** Reading POMs is confined: the result depends on no file but the
    starting POM, the cache files the locator names for some coordinate, and
    files lexically inside the project root.  Two file systems that agree on
    those give the same effective POM, whatever the POMs say. *)
Theorem pom_reads_confined `{Locator} `{HashOrder} (fs1 fs2 : PomFs) start project_root :
  agree_on fs1 fs2 project_root start →
  @parse_effective_pom fs1 _ _ start project_root = @parse_effective_pom fs2 _ _ start project_root.
Proof. intros Ha. unfold parse_effective_pom. by rewrite (raw_ext fs1 fs2). Qed.

(** Substitution leaves text without references alone, whatever the
    properties and their order. *)
Theorem substitute_plain `{HashOrder} value props :
  contains_str "${" value = false → substitute value props = value.
Proof. intros Hc. unfold substitute. cbn [subst_loop]. by rewrite subst_pass_plain. Qed.

(** Substitution ends after five passes but bounds nothing else: a property
    made of [k] references to itself turns one reference into [k^5]. *)
Lemma substitute_explodes `{HashOrder} k : (0 < k)%nat →
  substitute (needle "x") {["x" := refs_to_x k]} = refs_to_x (k * k * k * k * k).
Proof.
  intros Hk. unfold substitute.
  assert (hash_iter {["x" := refs_to_x k]} = [("x", refs_to_x k)]) as ->.
  { pose proof (hash_iter_perm {["x" := refs_to_x k]}) as Hp. rewrite map_to_list_singleton in Hp.
    by apply Permutation_singleton_r in Hp. }
  change (needle "x") with (refs_to_x 1). cbn [subst_loop].
  rewrite subst_pass_refs, Nat.mul_1_l by lia.
  do 4 (rewrite subst_pass_refs by (repeat apply Nat.mul_pos_pos; done)). done.
Qed.
