(* ===== verification/Resolve.v ===== *)
(** * Transitive dependency resolution ([crates/classpath/src/resolve.rs], second half)

    The breadth-first, nearest-wins walk over the dependency graph, offline.
    A round of the loop that visits a coordinate uses up one of [MAX_NODES],
    and rounds that only skip shrink the queue, so the walk is structural in
    the budget. *)
From Stdlib Require Import Ascii Sorting.Sorted.
From S2P Require Import Prelude RustStd Paths Pom.

Definition MAX_NODES : nat := 2000.

Record Seed := mkSeed {
  s_group : string; s_artifact : string; s_version : string; s_exclusions : gset (string * string)
}.
Record ResolvedProject := mkResolvedProject {
  rp_jars : list string; rp_source_roots : list string; rp_degraded : list string
}.

Definition seed_key (s : Seed) : string * string := (s_group s, s_artifact s).
Definition seed_coord (s : Seed) : string := coord_str (s_group s) (s_artifact s) (s_version s).

Definition classifier_skip (dep : RawDep) (classifier : string) : string :=
  rd_group dep +:+ ":" +:+ rd_artifact dep +:+ ":" +:+ default "?" (rd_version dep)
  +:+ " (classifier " +:+ classifier +:+ " unsupported)".
Definition unresolved_version (dep : RawDep) : string :=
  rd_group dep +:+ ":" +:+ rd_artifact dep +:+ " (unresolved version)".

(** A dependency becomes a seed unless it has a classifier or no version;
    then it is recorded. *)
Definition seed_of (exclusions : gset (string * string)) (dep : RawDep) : Result string Seed :=
  match rd_classifier dep with
  | Some classifier => Err (classifier_skip dep classifier)
  | None =>
      match rd_version dep with
      | None => Err (unresolved_version dep)
      | Some version => Ok (mkSeed (rd_group dep) (rd_artifact dep) version exclusions)
      end
  end.

(** The loop of [root_seeds] over a POM's dependencies. *)
Definition root_seeds (effective : EffectivePom) (st : list Seed * list string) : list Seed * list string :=
  fold_left (λ st dep, match seed_of (rd_exclusions dep) dep with
                       | Ok s => (st.1 ++ [s], st.2)
                       | Err e => (st.1, st.2 ++ [e])
                       end) (ep_dependencies effective) st.

Definition coord_seeds (coords : list (string * string * string)) : list Seed :=
  (λ c, mkSeed c.1.1 c.1.2 c.2 ∅) <$> coords.

Section Resolve.
Context `{PomFs} `{Locator} `{HashOrder}.

(** ** One visit *)

(** An edge the walk does not follow, silently: wrong scope, optional, or
    excluded on the way here. *)
Definition edge_dropped (seed : Seed) (dep : RawDep) : bool :=
  (negb (bool_decide (rd_scope dep = "compile")) && negb (bool_decide (rd_scope dep = "runtime")))
  || rd_optional dep || bool_decide (dep_key dep ∈ s_exclusions seed).

(** The children of a visited seed, and what is recorded for the edges that
    could not be followed. *)
Definition expand (seed : Seed) (deps : list RawDep) : list Seed * list string :=
  fold_left (λ st dep,
      if edge_dropped seed dep then st
      else match seed_of (rd_exclusions dep ∪ s_exclusions seed) dep with
           | Ok s => (st.1 ++ [s], st.2)
           | Err e => (st.1, st.2 ++ [e])
           end) deps ([], []).

(** What a visit adds: jars, records, and children to queue. *)
Definition visit (seed : Seed) (depth : nat) : list string * list string * list Seed :=
  if (MAX_DEPTH <? depth)%nat then ([], [seed_coord seed +:+ " (max depth exceeded)"], [])
  else
    match locate_jar (s_group seed) (s_artifact seed) (s_version seed) with
    | None => ([], [seed_coord seed], [])
    | Some jar =>
        match locate_pom (s_group seed) (s_artifact seed) (s_version seed)
              ≫= (λ p, parse_effective_pom p None) with
        | None => ([jar], [seed_coord seed], [])
        | Some effective =>
            let '(children, records) := expand seed (ep_dependencies effective) in
            ([jar], ep_degraded effective ++ records, children)
        end
    end.

(** ** The walk *)

Definition truncated_message : string :=
  "resolution truncated: node limit (" +:+ pretty (Z.of_nat MAX_NODES) +:+ ") exceeded".

(** [continue] on a key that was visited: the nearest, first-declared
    version has won. *)
Fixpoint skip_visited (visited : gset (string * string)) (queue : list (Seed * nat)) : list (Seed * nat) :=
  match queue with
  | [] => []
  | e :: q => if bool_decide (seed_key e.1 ∈ visited) then skip_visited visited q else e :: q
  end.

Fixpoint resolve_loop (budget : nat) (visited : gset (string * string)) (queue : list (Seed * nat))
    (jars degraded : list string) : list string * list string :=
  match skip_visited visited queue with
  | [] => (jars, degraded)
  | (seed, depth) :: queue' =>
      match budget with
      | O => (jars, degraded ++ [truncated_message])
      | S n =>
          let '(js, ds, children) := visit seed depth in
          resolve_loop n ({[seed_key seed]} ∪ visited) (queue' ++ ((λ s, (s, S depth)) <$> children))
            (jars ++ js) (degraded ++ ds)
      end
  end.
Definition resolve_transitive (seeds : list Seed) : list string * list string :=
  resolve_loop MAX_NODES ∅ ((λ s, (s, O)) <$> seeds) [] [].

(** ** A whole project *)

Definition module_skipped (m : string) : bool :=
  bool_decide (m = "") || contains_str ".." m || is_absolute m.

(** Seeds, source roots and records so far. *)
Definition add_module (project_root : string) (st : list Seed * list string * list string) (m : string) :
    list Seed * list string * list string :=
  if module_skipped m then st
  else
    let '(seeds, roots, degraded) := st in
    let module_dir := path_join project_root m in
    let '(seeds, degraded) :=
      match parse_effective_pom (path_join module_dir "pom.xml") (Some project_root) with
      | Some eff => root_seeds eff (seeds, degraded ++ ep_degraded eff)
      | None => (seeds, degraded ++ ["module " +:+ m +:+ " (pom unreadable)"])
      end in
    let src := path_join module_dir "src/main/java" in
    (seeds, if pom_is_dir src then roots ++ [src] else roots, degraded).

Definition resolve_maven_like_project (project_root : string) : ResolvedProject :=
  match parse_effective_pom (path_join project_root "pom.xml") (Some project_root) with
  | None => mkResolvedProject [] [] []
  | Some effective =>
      let '(seeds, degraded) := root_seeds effective ([], ep_degraded effective) in
      let root_src := path_join project_root "src/main/java" in
      let roots := if pom_is_dir root_src then [root_src] else [] in
      let '(seeds, roots, degraded) :=
        fold_left (add_module project_root) (ep_modules effective) (seeds, roots, degraded) in
      let '(jars, transitive) := resolve_transitive seeds in
      mkResolvedProject jars roots (degraded ++ transitive)
  end.

End Resolve.

(** ** Specification: nearest wins

    The abstract mediation.  Every version a coordinate is asked for at
    stands in one stream: the roots in declaration order, then the children
    of each winner in the order of the winners.  The winner for a key is the
    first occurrence of the key in the stream, and the stream is sorted by
    depth: the nearest declaration wins, and the first declared on a tie. *)

(** Proofs never unfold the bound of 2000. *)
Global Opaque MAX_NODES.

Definition Entry : Type := Seed * nat.
Definition entry_key (e : Entry) : string * string := seed_key e.1.

(** First occurrences of keys outside [v]. *)
Fixpoint firsts (v : gset (string * string)) (l : list Entry) : list Entry :=
  match l with
  | [] => []
  | e :: l' => if bool_decide (entry_key e ∈ v) then firsts v l'
               else e :: firsts ({[entry_key e]} ∪ v) l'
  end.

Section Spec.
Context `{PomFs} `{Locator} `{HashOrder}.

Definition jars_of (e : Entry) : list string := (visit e.1 e.2).1.1.
Definition records_of (e : Entry) : list string := (visit e.1 e.2).1.2.
Definition kids (e : Entry) : list Entry := (λ s, (s, S e.2)) <$> (visit e.1 e.2).2.

(** The entries the loop visits, in order. *)
Fixpoint picks (budget : nat) (visited : gset (string * string)) (queue : list Entry) : list Entry :=
  match skip_visited visited queue, budget with
  | [], _ | _, O => []
  | e :: queue', S n => e :: picks n ({[entry_key e]} ∪ visited) (queue' ++ kids e)
  end.
Definition stream (queue ps : list Entry) : list Entry := queue ++ concat (kids <$> ps).

Lemma skip_visited_split v q :
  ∃ skipped, q = skipped ++ skip_visited v q ∧ Forall (λ e, entry_key e ∈ v) skipped
    ∧ match skip_visited v q with [] => True | e :: _ => entry_key e ∉ v end.
Proof.
  induction q as [|e q (sk & Eq & Hf & Hh)]; cbn [skip_visited]; [by exists []|].
  case_bool_decide; [|by exists []].
  exists (e :: sk). cbn. rewrite <- Eq. split; [done|]. split; [by constructor|done].
Qed.

Lemma firsts_skipped v sk l : Forall (λ e, entry_key e ∈ v) sk → firsts v (sk ++ l) = firsts v l.
Proof. induction 1; cbn; [done|]. by rewrite bool_decide_eq_true_2. Qed.

Lemma firsts_all v sk : Forall (λ e, entry_key e ∈ v) sk → firsts v sk = [].
Proof. intros Hf. rewrite <- (app_nil_r sk). by rewrite firsts_skipped. Qed.

Lemma picks_firsts b : ∀ v q, picks b v q = take b (firsts v (stream q (picks b v q))).
Proof.
  unfold stream. induction b as [|n IH]; intros v q; cbn [picks].
  - by destruct (skip_visited v q).
  - destruct (skip_visited_split v q) as (sk & Eq & Hf & Hh).
    destruct (skip_visited v q) as [|e q'].
    + cbn [fmap list_fmap concat]. by rewrite Eq, !app_nil_r, firsts_all.
    + rewrite Eq. rewrite <- app_assoc, firsts_skipped by done. cbn [app firsts].
      rewrite bool_decide_eq_false_2 by done. cbn [take]. f_equal.
      rewrite IH at 1. by rewrite fmap_cons; cbn [concat]; rewrite <- app_assoc.
Qed.

Definition truncated (b : nat) (v : gset (string * string)) (q : list Entry) : bool :=
  (b <? length (firsts v (stream q (picks b v q))))%nat.

Lemma resolve_loop_picks b : ∀ v q js ds,
  resolve_loop b v q js ds
  = (js ++ concat (jars_of <$> picks b v q),
     ds ++ concat (records_of <$> picks b v q) ++ (if truncated b v q then [truncated_message] else [])).
Proof.
  unfold truncated, stream.
  induction b as [|n IH]; intros v q js ds; cbn [resolve_loop picks];
    destruct (skip_visited_split v q) as (sk & Eq & Hf & Hh);
    destruct (skip_visited v q) as [|[s d] q'].
  - cbn [fmap list_fmap concat]. rewrite Eq, !app_nil_r, firsts_all by done. cbn. by rewrite app_nil_r.
  - rewrite Eq. cbn [fmap list_fmap concat]. rewrite !app_nil_r, firsts_skipped by done. cbn [firsts].
    rewrite bool_decide_eq_false_2 by done. done.
  - cbn [fmap list_fmap concat]. rewrite Eq, !app_nil_r, firsts_all by done. cbn. by rewrite app_nil_r.
  - rewrite Eq. rewrite <- app_assoc, firsts_skipped by done. cbn [app firsts].
    rewrite bool_decide_eq_false_2 by done.
    destruct (visit s d) as [[js' ds'] cs] eqn:Ev. rewrite IH.
    assert (Ek : kids (s, d) = (λ s, (s, S d)) <$> cs) by (unfold kids; cbn [fst snd]; by rewrite Ev).
    rewrite !fmap_cons. cbn [concat]. rewrite Ek.
    unfold jars_of at 2, records_of at 2. cbn [fst snd]. rewrite Ev. cbn [fst snd].
    by rewrite <- !app_assoc.
Qed.

(** *** The stream is sorted by depth *)

Definition by_depth (l : list Entry) : Prop := StronglySorted (λ x y : Entry, (x.2 ≤ y.2)%nat) l.

Lemma by_depth_app l k : by_depth (l ++ k) ↔
  by_depth l ∧ by_depth k ∧ ∀ x y, x ∈ l → y ∈ k → (x.2 ≤ y.2)%nat.
Proof.
  unfold by_depth. induction l as [|e l IH]; cbn [app].
  - split; [|naive_solver]. intros Hk. split; [constructor|]. split; [done|]. set_solver.
  - split.
    + intros Hs. inversion Hs as [|? ? Hs' Hf]; subst. apply IH in Hs' as (Hl & Hk & Hx).
      apply Forall_app in Hf as [Hf1 Hf2]. split; [by constructor|]. split; [done|].
      intros x y [->|Hx']%elem_of_cons Hy; [by eapply Forall_forall in Hf2|by apply Hx].
    + intros (Hl & Hk & Hx). inversion Hl; subst. constructor.
      * apply IH. split; [done|]. split; [done|]. intros; apply Hx; [by right|done].
      * apply Forall_app. split; [done|]. apply Forall_forall. intros; apply Hx; [by left|done].
Qed.

Lemma elem_kids x e : x ∈ kids e → x.2 = S e.2.
Proof. unfold kids. by intros (s & -> & _)%list_elem_of_fmap. Qed.
Lemma by_depth_kids e : by_depth (kids e).
Proof.
  assert (Hk : Forall (λ x : Entry, x.2 = S e.2) (kids e)) by (apply Forall_forall; intros; by apply elem_kids).
  unfold by_depth. revert Hk. generalize (kids e) as l. induction l as [|x l IH]; intros Hk; [constructor|].
  inversion Hk; subst. constructor; [by apply IH|]. eapply Forall_impl; [done|]. intros y Hy. cbn in *. lia.
Qed.

Lemma stream_by_depth b : ∀ v q m,
  by_depth q → Forall (λ e : Entry, (m ≤ e.2 ≤ S m)%nat) q → by_depth (stream q (picks b v q)).
Proof.
  unfold stream. induction b as [|n IH]; intros v q m Hq Hm; cbn [picks];
    destruct (skip_visited_split v q) as (sk & Eq & _ & _); destruct (skip_visited v q) as [|e q'];
    try (cbn [fmap list_fmap concat]; by rewrite app_nil_r).
  rewrite fmap_cons. cbn [concat]. rewrite Eq in Hq, Hm |- *.
  apply by_depth_app in Hq as (Hsk & Heq & Hlt). apply Forall_app in Hm as [_ Hm].
  inversion Hm as [|? ? He Hm']; subst. inversion Heq as [|? ? Hq' Hge]; subst.
  assert (HQ : by_depth (q' ++ kids e)).
  { apply by_depth_app. split; [done|]. split; [apply by_depth_kids|]. intros x y Hx ->%elem_kids.
    eapply Forall_forall in Hm'; [|done]. cbn in *. lia. }
  specialize (IH ({[entry_key e]} ∪ v) (q' ++ kids e) e.2 HQ).
  assert (HB : Forall (λ x : Entry, (e.2 ≤ x.2 ≤ S e.2)%nat) (q' ++ kids e)).
  { apply Forall_app. split; apply Forall_forall; intros x Hx.
    - eapply Forall_forall in Hge, Hm'; [|done..]. cbn in *. lia.
    - apply elem_kids in Hx. lia. }
  specialize (IH HB). set (P := picks n _ _) in *. rewrite <- app_assoc in IH.
  change ((sk ++ e :: q') ++ kids e ++ concat (kids <$> P)) with ((sk ++ [e] ++ q') ++ kids e ++ concat (kids <$> P)).
  rewrite <- !app_assoc. apply by_depth_app. split; [done|].
  assert (HE : by_depth ([e] ++ q' ++ kids e ++ concat (kids <$> P))).
  { apply by_depth_app. split; [repeat constructor|]. split; [done|].
    intros x y ->%list_elem_of_singleton Hy. rewrite app_assoc in Hy. apply elem_of_app in Hy as [Hy|Hy].
    - eapply Forall_forall in HB; [|done]. cbn in *. lia.
    - rewrite app_assoc in IH. apply by_depth_app in IH as (_ & _ & IH).
      destruct (q' ++ kids e) as [|z l] eqn:Ez.
      + subst P. cbn in Hy. destruct n; cbn in Hy; by apply elem_of_nil in Hy.
      + assert (Hz : (e.2 ≤ z.2)%nat) by (inversion HB; subst; lia).
        specialize (IH z y ltac:(by left) Hy). lia. }
  split; [done|]. intros x y Hx Hy. apply elem_of_app in Hy as [->%list_elem_of_singleton|Hy].
  - apply Hlt; [done|by left].
  - specialize (Hlt x e Hx ltac:(by left)). apply by_depth_app in HE as (_ & _ & HE).
    specialize (HE e y ltac:(set_solver) Hy). lia.
Qed.

(** *** First occurrences *)

Lemma firsts_elem v l e : e ∈ firsts v l → e ∈ l ∧ entry_key e ∉ v.
Proof.
  revert v. induction l as [|x l IH]; intros v; cbn [firsts]; [by intros ?%elem_of_nil|].
  case_bool_decide.
  - intros [He Hv]%IH. split; [by right|done].
  - intros [->|He]%elem_of_cons; [split; [by left|done]|]. apply IH in He as [He Hv].
    split; [by right|]. intros Hin. apply Hv. apply elem_of_union. by right.
Qed.
Lemma firsts_nodup v l : NoDup (entry_key <$> firsts v l).
Proof.
  revert v. induction l as [|x l IH]; intros v; cbn [firsts]; [constructor|].
  case_bool_decide; [apply IH|]. rewrite fmap_cons. constructor; [|apply IH].
  intros (e & Ek & He)%list_elem_of_fmap. apply firsts_elem in He as [_ He].
  apply He. rewrite <- Ek. apply elem_of_union. left. by apply elem_of_singleton.
Qed.
Lemma firsts_nearest v l e : by_depth l → e ∈ l → entry_key e ∉ v →
  ∃ w, w ∈ firsts v l ∧ entry_key w = entry_key e ∧ (w.2 ≤ e.2)%nat.
Proof.
  revert v. induction l as [|x l IH]; intros v Hs He Hv; [by apply elem_of_nil in He|].
  inversion Hs as [|? ? Hs' Hf]; subst. cbn [firsts]. apply elem_of_cons in He as [->|He].
  - rewrite bool_decide_eq_false_2 by done. exists x. split; [by left|done].
  - case_bool_decide as Hx; [by apply IH|].
    destruct (decide (entry_key e = entry_key x)) as [Ek|Nk].
    + exists x. split; [by left|]. split; [done|]. by eapply Forall_forall in Hf.
    + destruct (IH ({[entry_key x]} ∪ v) Hs' He) as (w & Hw & ? & ?).
      { intros [Hk%elem_of_singleton|Hk]%elem_of_union; by auto. }
     
      exists w. split; [by right|done].
Qed.

(** *** Edges *)

Lemma elem_expand seed deps s :
  s ∈ (expand seed deps).1 ↔ ∃ dep, dep ∈ deps ∧ edge_dropped seed dep = false
    ∧ seed_of (rd_exclusions dep ∪ s_exclusions seed) dep = Ok s.
Proof.
  unfold expand. set (f := λ (st : list Seed * list string) dep, _).
  cut (∀ st, s ∈ (fold_left f deps st).1 ↔ s ∈ st.1 ∨ ∃ dep, dep ∈ deps ∧ edge_dropped seed dep = false
         ∧ seed_of (rd_exclusions dep ∪ s_exclusions seed) dep = Ok s).
  { intros E. rewrite E. cbn [fst]. rewrite elem_of_nil. naive_solver. }
  induction deps as [|d deps IH]; intros st; cbn [fold_left]; [set_solver|].
  rewrite IH. subst f. cbn beta. destruct (edge_dropped seed d) eqn:Ed.
  - split; [set_solver|]. intros [?|(dep & [->|?]%elem_of_cons & ? & ?)]; [by left|congruence|by eauto].
  - destruct (seed_of _ d) as [x|e] eqn:Es; cbn [fst].
    + rewrite elem_of_app, list_elem_of_singleton. split.
      * intros [[?|<-]|(dep & ? & ?)]; [by left|right; exists d; set_solver|right; exists dep; set_solver].
      * intros [?|(dep & [->|?]%elem_of_cons & ? & E)]; [by auto| |by eauto 6].
        rewrite Es in E. injection E as <-. by auto.
    + split; [intros [?|(dep & ? & ?)]; [by left|right; exists dep; set_solver]|].
      intros [?|(dep & [->|?]%elem_of_cons & ? & E)]; [by left|congruence|by eauto].
Qed.
Lemma elem_expand_records seed deps dep e :
  dep ∈ deps → edge_dropped seed dep = false →
  seed_of (rd_exclusions dep ∪ s_exclusions seed) dep = Err e → e ∈ (expand seed deps).2.
Proof.
  intros Hd Hn He. unfold expand. set (f := λ (st : list Seed * list string) dep, _).
  assert (Hm : ∀ deps st, e ∈ st.2 → e ∈ (fold_left f deps st).2).
  { clear. induction deps as [|d deps IH]; intros st Hst; cbn [fold_left]; [done|]. apply IH. subst f. cbn beta.
    destruct (edge_dropped seed d); [done|]. destruct (seed_of _ d); cbn; set_solver. }
  generalize (@nil Seed, @nil string) as st. induction deps as [|d deps IH]; intros st; [by apply elem_of_nil in Hd|].
  cbn [fold_left]. apply elem_of_cons in Hd as [->|Hd]; [|by apply IH].
  apply Hm. subst f. cbn beta. rewrite Hn, He. cbn. set_solver.
Qed.

(** The effective dependencies of a visited coordinate. *)
Definition deps_of (s : Seed) : list RawDep :=
  match locate_pom (s_group s) (s_artifact s) (s_version s) ≫= (λ p, parse_effective_pom p None) with
  | Some e => ep_dependencies e
  | None => []
  end.

Lemma kids_expand e x : x ∈ kids e → x.2 = S e.2 ∧ x.1 ∈ (expand e.1 (deps_of e.1)).1.
Proof.
  unfold kids, visit, deps_of. intros (s & -> & Hs)%list_elem_of_fmap. split; [done|]. cbn [fst]. revert Hs.
  destruct (MAX_DEPTH <? e.2)%nat; [by intros ?%elem_of_nil|].
  destruct (locate_jar _ _ _); [|by intros ?%elem_of_nil].
  destruct (_ ≫= _) as [eff|]; [|by intros ?%elem_of_nil].
  by destruct (expand e.1 (ep_dependencies eff)).
Qed.

Definition winners (seeds : list Seed) : list Entry := picks MAX_NODES ∅ ((λ s, (s, O)) <$> seeds).
Definition candidates (seeds : list Seed) : list Entry := stream ((λ s, (s, O)) <$> seeds) (winners seeds).

Lemma roots_by_depth seeds :
  by_depth ((λ s, (s, O)) <$> seeds) ∧ Forall (λ e : Entry, (0 ≤ e.2 ≤ 1)%nat) ((λ s, (s, O)) <$> seeds).
Proof.
  induction seeds as [|s seeds [IH1 IH2]]; [repeat constructor|]. rewrite fmap_cons. split.
  - constructor; [done|]. apply Forall_forall. by intros x (y & -> & _)%list_elem_of_fmap.
  - constructor; [cbn; lia|done].
Qed.

Lemma winners_take seeds : winners seeds = take MAX_NODES (firsts ∅ (candidates seeds)).
Proof. apply picks_firsts. Qed.
Lemma winner_origin seeds w : w ∈ winners seeds →
  (w.2 = O ∧ w.1 ∈ seeds) ∨ ∃ p, p ∈ winners seeds ∧ w ∈ kids p.
Proof.
  rewrite winners_take at 1. intros Hw.
  apply subseteq_take in Hw. apply firsts_elem in Hw as [Hw _]. unfold candidates, stream in Hw.
  apply elem_of_app in Hw as [(s & -> & Hs)%list_elem_of_fmap|Hw]; [by left|right].
  apply elem_of_list_In, in_concat in Hw || apply list_elem_of_In, in_concat in Hw.
  destruct Hw as (l & Hl & Hin). apply list_elem_of_In in Hl, Hin.
  apply list_elem_of_fmap in Hl as (p & -> & Hp). by exists p.
Qed.

(** The exclusions declared along the way from a root to a winner, nearest
    first. *)
Inductive declared_path (seeds : list Seed) : Entry → list (gset (string * string)) → Prop :=
| path_root s : s ∈ seeds → (s, O) ∈ winners seeds → declared_path seeds (s, O) [s_exclusions s]
| path_edge p dep w sets :
    declared_path seeds p sets → w ∈ winners seeds → w.2 = S p.2 →
    dep ∈ deps_of p.1 → (rd_scope dep = "compile" ∨ rd_scope dep = "runtime") → rd_optional dep = false →
    dep_key dep = seed_key w.1 → rd_version dep = Some (s_version w.1) →
    declared_path seeds w (rd_exclusions dep :: sets).


Lemma edge_kept seed dep : edge_dropped seed dep = false →
  (rd_scope dep = "compile" ∨ rd_scope dep = "runtime") ∧ rd_optional dep = false
  ∧ dep_key dep ∉ s_exclusions seed.
Proof.
  unfold edge_dropped. rewrite !orb_false_iff, andb_false_iff, !negb_false_iff, !bool_decide_eq_true,
    bool_decide_eq_false. tauto.
Qed.
Lemma seed_of_ok ex dep s : seed_of ex dep = Ok s →
  rd_classifier dep = None ∧ rd_version dep = Some (s_version s) ∧ dep_key dep = seed_key s ∧ s_exclusions s = ex.
Proof.
  unfold seed_of. destruct (rd_classifier dep); [done|]. destruct (rd_version dep); [|done]. by intros [= <-].
Qed.

Lemma winner_path seeds n : ∀ w, w.2 = n → w ∈ winners seeds →
  ∃ sets, declared_path seeds w sets ∧ s_exclusions w.1 = ⋃ sets ∧ seed_key w.1 ∉ ⋃ (tail sets).
Proof.
  induction n as [n IH] using lt_wf_ind. intros [s d] Hn Hw. cbn in Hn.
  destruct (winner_origin _ _ Hw) as [[Hd Hs]|(p & Hp & Hk)]; cbn [fst snd] in *.
  - subst d n. exists [s_exclusions s]. split; [by constructor|]. split; [|apply not_elem_of_empty].
    cbn. by rewrite (right_id_L ∅ (∪)).
  - apply kids_expand in Hk as [Hd Hk]. cbn [fst snd] in *.
    apply elem_expand in Hk as (dep & Hdep & He & Hso).
    apply edge_kept in He as (Hsc & Ho & Hx). apply seed_of_ok in Hso as (_ & Hv & Hkey & Hex).
    destruct (IH p.2 ltac:(lia) p eq_refl Hp) as (sets & Hpath & Heq & _).
    exists (rd_exclusions dep :: sets). split; [by eapply path_edge|]. cbn [tail].
    change (⋃ (rd_exclusions dep :: sets)) with (rd_exclusions dep ∪ ⋃ sets).
    rewrite <- Heq. split; [done|]. by rewrite <- Hkey.
Qed.

Lemma resolve_transitive_eq seeds :
  resolve_transitive seeds
  = (concat (jars_of <$> winners seeds),
     concat (records_of <$> winners seeds)
     ++ (if (MAX_NODES <? length (firsts ∅ (candidates seeds)))%nat then [truncated_message] else [])).
Proof.
  unfold resolve_transitive. rewrite resolve_loop_picks. rewrite !app_nil_l.
  unfold truncated, candidates, winners. reflexivity.
Qed.

Lemma elem_concat_fmap {A B} (f : A → list B) l x : x ∈ concat (f <$> l) ↔ ∃ y, y ∈ l ∧ x ∈ f y.
Proof.
  induction l as [|a l IH]; cbn; [split; [by intros ?%elem_of_nil|by intros (? & ?%elem_of_nil & _)]|].
  rewrite elem_of_app, IH. setoid_rewrite elem_of_cons. naive_solver.
Qed.

(** ** Properties *)

(** C14: Resolution implements nearest-wins mediation.  Taking as candidates
    the roots in declaration order followed by the children of each winner,
    in the winners' order, the candidates come sorted by depth, the winners
    are exactly the first candidate of each coordinate, cut at 2000, and the
    jars and records returned are those of the winners in order, with the
    truncation recorded exactly when something was cut. *)
Theorem resolve_nearest_wins seeds :
  resolve_transitive seeds
  = (concat (jars_of <$> winners seeds),
     concat (records_of <$> winners seeds)
     ++ (if (MAX_NODES <? length (firsts ∅ (candidates seeds)))%nat then [truncated_message] else []))
  ∧ winners seeds = take MAX_NODES (firsts ∅ (candidates seeds))
  ∧ by_depth (candidates seeds)
  ∧ NoDup (entry_key <$> winners seeds)
  ∧ ((length (firsts ∅ (candidates seeds)) ≤ MAX_NODES)%nat → ∀ e, e ∈ candidates seeds →
     ∃ w, w ∈ winners seeds ∧ entry_key w = entry_key e ∧ (w.2 ≤ e.2)%nat).
Proof.
  destruct (roots_by_depth seeds) as [Hr Hm].
  pose proof (winners_take seeds) as Hw.
  assert (Hd : by_depth (candidates seeds)) by by eapply stream_by_depth.
  split; [apply resolve_transitive_eq|]. split; [done|]. split; [done|]. split.
  - rewrite Hw, fmap_take. pose proof (firsts_nodup ∅ (candidates seeds)) as Hnd.
    rewrite <- (take_drop MAX_NODES (entry_key <$> _)) in Hnd. by apply NoDup_app in Hnd as (? & _).
  - intros Hl e He. rewrite Hw, take_ge by done. by apply firsts_nearest.
Qed.

(** C15: Exclusions and scopes are honoured along the winning path: every
    coordinate resolved is reached from a root through compile or runtime
    dependencies that are not optional, at the versions their POMs declare,
    and none of the exclusions declared anywhere on that path names it. *)
Theorem exclusions_honored seeds w :
  w ∈ winners seeds →
  ∃ sets, declared_path seeds w sets ∧ s_exclusions w.1 = ⋃ sets ∧ seed_key w.1 ∉ ⋃ (tail sets).
Proof. by apply (winner_path seeds w.2). Qed.

(** Nothing is lost in silence: every winner has its jar on the classpath
    or a record naming its coordinate, and every dependency edge it does not
    drop by Maven's rules becomes a candidate or a record. *)
Theorem nothing_lost seeds w :
  w ∈ winners seeds →
  let '(jars, degraded) := resolve_transitive seeds in
  ((∃ jar, locate_jar (s_group w.1) (s_artifact w.1) (s_version w.1) = Some jar ∧ jar ∈ jars)
   ∨ ∃ r, r ∈ degraded ∧ starts_with (seed_coord w.1) r = true)
  ∧ ((w.2 ≤ MAX_DEPTH)%nat → is_Some (locate_jar (s_group w.1) (s_artifact w.1) (s_version w.1)) →
     ∀ dep, dep ∈ deps_of w.1 → edge_dropped w.1 dep = false →
     (∃ s, (s, S w.2) ∈ candidates seeds ∧ seed_key s = dep_key dep ∧ rd_version dep = Some (s_version s))
     ∨ ∃ r, r ∈ degraded
        ∧ (r = unresolved_version dep ∨ ∃ c, rd_classifier dep = Some c ∧ r = classifier_skip dep c)).
Proof.
  intros Hw. rewrite resolve_transitive_eq. split.
  - assert (Hj : ∀ x, x ∈ jars_of w → x ∈ concat (jars_of <$> winners seeds))
      by (intros; apply elem_concat_fmap; eauto).
    assert (Hr : ∀ x, x ∈ records_of w → x ∈ concat (records_of <$> winners seeds) ++
        (if (MAX_NODES <? length (firsts ∅ (candidates seeds)))%nat then [truncated_message] else []))
      by (intros; apply elem_of_app; left; apply elem_concat_fmap; eauto).
    unfold jars_of, records_of, visit in Hj, Hr.
    destruct (MAX_DEPTH <? w.2)%nat.
    + right. eexists. split; [apply Hr; by left|]. apply starts_with_spec. by eexists.
    + destruct (locate_jar _ _ _) as [jar|].
      * left. exists jar. split; [done|]. apply Hj. destruct (_ ≫= _) as [eff|]; [|by left].
        destruct (expand w.1 (ep_dependencies eff)). by left.
      * right. eexists. split; [apply Hr; by left|]. apply starts_with_spec. exists "". by rewrite str_app_nil_r.
  - intros Hdepth [jar Hjar] dep Hdep He. unfold deps_of in Hdep.
    destruct (_ ≫= _) as [eff|] eqn:Eff; [|by apply elem_of_nil in Hdep].
    assert (Hv : visit w.1 w.2 = ([jar], ep_degraded eff ++ (expand w.1 (ep_dependencies eff)).2,
                                  (expand w.1 (ep_dependencies eff)).1)).
    { unfold visit. rewrite (proj2 (Nat.ltb_ge _ _)) by done. rewrite Hjar, Eff.
      by destruct (expand w.1 (ep_dependencies eff)). }
    destruct (seed_of (rd_exclusions dep ∪ s_exclusions w.1) dep) as [s|e] eqn:Es.
    + left. exists s. destruct (seed_of_ok _ _ _ Es) as (_ & ? & ? & _). split; [|done].
      unfold candidates, stream. apply elem_of_app. right. apply elem_concat_fmap. exists w. split; [done|].
      unfold kids. rewrite Hv. apply list_elem_of_fmap. exists s. split; [done|]. apply elem_expand. by exists dep.
    + right. exists e. split.
      * apply elem_of_app. left. apply elem_concat_fmap. exists w. split; [done|]. unfold records_of. rewrite Hv.
        apply elem_of_app. right. by eapply elem_expand_records.
      * unfold seed_of in Es. destruct (rd_classifier dep) as [c|]; [right; exists c; by injection Es as <-|].
        destruct (rd_version dep); [done|]. left. by injection Es as <-.
Qed.

End Spec.
