(* ===== verification/Repo.v ===== *)
(** * Artifact repositories ([crates/classpath/src/maven.rs], [gradle.rs])

    Where a coordinate's files lie under [~/.m2/repository] and in Gradle's
    module cache (the two [Locator]s), and the static scraping of Gradle
    build files. *)
From Stdlib Require Import Ascii.
From S2P Require Import Prelude RustStd Order Paths Pom Resolve.

Definition MAX_BUILD_BYTES : Z := 4 * 1024 * 1024.

(** ** Coordinates as paths *)

Definition unsafe_coord (s : string) : bool :=
  bool_decide (s = "") || contains_str ".." s || contains_char "/" s
  || contains_char (ascii_of_N 92) s || contains_char ":" s.

Definition m2_relative_ext (group artifact version ext : string) : option string :=
  if existsb unsafe_coord [group; artifact; version] then None
  else Some (replace_char "." "/" group +:+ "/" +:+ artifact +:+ "/" +:+ version +:+ "/"
             +:+ artifact +:+ "-" +:+ version +:+ "." +:+ ext).
Definition m2_relative (group artifact version : string) : option string :=
  m2_relative_ext group artifact version "jar".

(** The entries of a directory: their names, when it can be read. *)
Class RepoFs := {
  #[global] repo_pom_fs :: PomFs;
  list_dir : string → option (list string);
}.

Section Repo.
Context `{RepoFs}.

Definition m2_file (m2_repo group artifact version ext : string) : option string :=
  rel ← m2_relative_ext group artifact version ext;
  let path := path_join m2_repo rel in
  if pom_is_file path then Some path else None.

Definition cache_file (cache group artifact version ext : string) : option string :=
  if existsb unsafe_coord [group; artifact; version] then None
  else
    let version_dir := path_join (path_join (path_join (path_join cache "modules-2/files-2.1") group) artifact) version in
    let file_name := artifact +:+ "-" +:+ version +:+ "." +:+ ext in
    hashes ← list_dir version_dir;
    List.find pom_is_file ((λ h, path_join (path_join version_dir h) file_name) <$> hashes).

(** [MavenLocator] *)
Definition maven_locator (m2_repo : string) : Locator := {|
  locate_pom g a v := m2_file m2_repo g a v "pom";
  locate_jar g a v := m2_file m2_repo g a v "jar";
|}.
(** [FallbackLocator]: Gradle's cache first, then the Maven repository. *)
Definition fallback_locator (gradle_cache m2_repo : string) : Locator := {|
  locate_pom g a v := or_else (cache_file gradle_cache g a v "pom") (m2_file m2_repo g a v "pom");
  locate_jar g a v := or_else (cache_file gradle_cache g a v "jar") (m2_file m2_repo g a v "jar");
|}.

(** ** Scraping Gradle builds *)

(** The bytes up to the closing quote, and those after it. *)
Fixpoint until_byte (q : Z) (l : list Z) : option (list Z * list Z) :=
  match l with
  | [] => None
  | b :: l' => if b =? q then Some ([], l')
               else match until_byte q l' with Some (w, r) => Some (b :: w, r) | None => None end
  end.
Fixpoint string_literals_go (fuel : nat) (l : list Z) : list string :=
  match fuel, l with
  | O, _ | _, [] => []
  | S f, b :: l' =>
      if (b =? 34) || (b =? 39) then
        match until_byte b l' with
        | Some (w, r) =>
            match from_utf8 w with
            | Some s => s :: string_literals_go f r
            | None => string_literals_go f r
            end
        | None => string_literals_go f l'
        end
      else string_literals_go f l'
  end.
Definition string_literals (text : string) : list string :=
  string_literals_go (length (as_bytes text)) (as_bytes text).

(** [s.contains(char::is_whitespace)] *)
Definition has_white_space (s : string) : bool := existsb (λ w, contains_str w s) white_space.

Definition scrape_literal (literal : string) : option (string * string * string) :=
  if contains_char "$" literal then None
  else match split_char ":" literal with
       | [g; a; v] =>
           if forallb (λ p, negb (bool_decide (p = "")) && negb (has_white_space p)) [g; a; v]
              && existsb (λ c, is_ascii_digit c || (c =? 43)) (as_bytes v)
           then Some (g, a, v) else None
       | _ => None
       end.
Definition scrape_coords (text : string) : list (string * string * string) :=
  omap scrape_literal (string_literals text).

Definition is_dynamic_version (version : string) : bool :=
  contains_char "+" version || starts_with "latest." version || starts_with "[" version
  || starts_with "(" version.

(** [sort] and [dedup] on triples of strings, bytewise. *)
Definition coord_compare (x y : string * string * string) : comparison :=
  lex (String.compare x.1.1 y.1.1) (lex (String.compare x.1.2 y.1.2) (String.compare x.2 y.2)).
Definition sort_coords : list (string * string * string) → list (string * string * string) :=
  sort_by coord_compare.
Fixpoint dedup (l : list (string * string * string)) : list (string * string * string) :=
  match l with
  | x :: ((y :: _) as l') => if bool_decide (x = y) then dedup l' else x :: dedup l'
  | _ => l
  end.

(** A build file's text, unless it is too long or unreadable. *)
Definition build_text (path : string) : option string :=
  len ← pom_len path; if MAX_BUILD_BYTES <? len then None else pom_read path.

Definition dynamic_record (c : string * string * string) : string :=
  coord_str c.1.1 c.1.2 c.2 +:+ " (dynamic version unsupported)".
Definition gradle_coords (root : string) : list (string * string * string) :=
  dedup (sort_coords (concat (omap (λ name, scrape_coords <$> build_text (path_join root name))
    ["build.gradle"; "build.gradle.kts"; "gradle/libs.versions.toml"]))).
Definition gradle_resolve_project `{HashOrder} (root gradle_cache m2_repo : string) : ResolvedProject :=
  let coords := gradle_coords root in
  let pinned := List.filter (λ c, negb (is_dynamic_version c.2)) coords in
  let dynamic := List.filter (λ c, is_dynamic_version c.2) coords in
  let '(jars, degraded) :=
    resolve_transitive (H0 := fallback_locator gradle_cache m2_repo) (coord_seeds pinned) in
  mkResolvedProject jars [] ((dynamic_record <$> dynamic) ++ degraded).

(** [maven::resolve_project] and [maven::compiler_release]. *)
Definition maven_resolve_project `{HashOrder} (root m2_repo : string) : ResolvedProject :=
  resolve_maven_like_project (H0 := maven_locator m2_repo) root.
Definition maven_compiler_release `{HashOrder} (root m2_repo : string) : option Z :=
  maven_like_compiler_release (H0 := maven_locator m2_repo) root.

(** ** The Java release a Gradle build declares *)

Definition leading_u32 (s : string) : option Z := parse_uint 32 (str_take_while is_ascii_digit s).

(** The rest of the text after the first [key], if it occurs. *)
Definition after_first (key text : string) : option string :=
  (λ pos, str_drop (pos + String.length key) text) <$> str_find key text.

Fixpoint version_token (s : string) : option Z :=
  match s with
  | EmptyString => None
  | String a s' =>
      let c := byte_of_ascii a in
      if is_ascii_digit c then
        match strip_prefix "1." s with Some minor => leading_u32 minor | None => leading_u32 s end
      else if (c =? 10) || is_ascii_alphabetic c then None
      else version_token s'
  end.
(** The first token after any occurrence of [key]. *)
Fixpoint version_after_key (fuel : nat) (text key : string) : option Z :=
  match fuel with
  | O => None
  | S f =>
      match after_first key text with
      | None => None
      | Some rest => match version_token rest with Some n => Some n | None => version_after_key f rest key end
      end
  end.

Definition parse_gradle_release (text : string) : option Z :=
  or_else (rest ← after_first "JavaLanguageVersion.of(" text; leading_u32 (trim_start rest))
  (or_else (rest ← after_first "VERSION_" text;
            match strip_prefix "1_" rest with Some r => leading_u32 r | None => leading_u32 rest end)
   (head (omap (version_after_key (S (String.length text)) text)
            ["sourceCompatibility"; "targetCompatibility"; "release"]))).
Definition gradle_compiler_release (root : string) : option Z :=
  head (omap (λ name, text ← build_text (path_join root name); parse_gradle_release text)
          ["build.gradle"; "build.gradle.kts"]).

End Repo.

(** ** Lemmas: paths *)

(** A directory entry's name. *)
Definition entry_name (h : string) : Prop := contains_char "/" h = false ∧ h ≠ "..".

Lemma plain_name_safe n : contains_char "/" n = false → n ≠ ".." → starts_with "/" n = false ∧ no_dotdot n.
Proof.
  intros Hs Hn. split; [by apply starts_with_slash_contains|]. unfold no_dotdot.
  rewrite split_char_none by done. by repeat constructor.
Qed.

Lemma contains_char_replace c p r s : contains_char c r = false → p c = true →
  contains_char c (replace_chars p r s) = false.
Proof.
  intros Hr Hp. induction s as [|a s IH]; [done|]. cbn [replace_chars]. destruct (p a) eqn:Ha.
  - by rewrite contains_char_app, Hr, IH.
  - cbn [contains_char]. rewrite IH, orb_false_r. destruct (Ascii.eqb_spec a c) as [->|]; [congruence|done].
Qed.
Lemma split_char_free c d s : contains_char d s = false →
  Forall (λ w, contains_char d w = false) (split_char c s).
Proof.
  induction s as [|a s IH]; cbn [split_char contains_char]; [repeat constructor|].
  intros [Ha Hs]%orb_false_elim. specialize (IH Hs). destruct (Ascii.eqb a c); [by constructor|].
  destruct (split_char c s) as [|w ws]; [constructor; [cbn; by rewrite Ha|constructor]|].
  inversion IH; subst. constructor; [|done]. cbn. by rewrite Ha.
Qed.
Lemma no_dots_no_dotdot s : contains_char "." s = false → no_dotdot s.
Proof.
  intros Hs. eapply Forall_impl; [exact (split_char_free "/" _ _ Hs)|]. by intros w Hw ->.
Qed.

Lemma unsafe_coord_false s : unsafe_coord s = false →
  s ≠ "" ∧ contains_char "/" s = false ∧ s ≠ "..".
Proof.
  unfold unsafe_coord. rewrite !orb_false_iff, bool_decide_eq_false. intros ((((H1 & H2) & H3) & _) & _).
  split; [done|]. split; [done|]. by intros ->.
Qed.

(** The file name has a dash, so it is no [..]. *)
Lemma artifact_file_safe a v ext : contains_char "/" a = false → contains_char "/" v = false →
  contains_char "/" ext = false →
  let n := a +:+ "-" +:+ v +:+ "." +:+ ext in starts_with "/" n = false ∧ no_dotdot n.
Proof.
  intros Ha Hv He n. apply plain_name_safe.
  - unfold n. rewrite !contains_char_app, Ha, Hv, He. done.
  - intros E. apply (f_equal (contains_char "-")) in E. unfold n in E.
    rewrite !contains_char_app in E. cbn in E. by rewrite orb_true_r in E.
Qed.

Lemma m2_relative_safe g a v ext rel : contains_char "/" ext = false → starts_with "." g = false →
  m2_relative_ext g a v ext = Some rel → starts_with "/" rel = false ∧ no_dotdot rel.
Proof.
  intros He Hg. unfold m2_relative_ext. cbn [existsb].
  destruct (unsafe_coord g) eqn:Ug; [done|]. destruct (unsafe_coord a) eqn:Ua; [done|].
  destruct (unsafe_coord v) eqn:Uv; [done|]. cbn [orb]. intros E. apply (inj Some) in E. subst rel.
  apply unsafe_coord_false in Ug as (Hg1 & Hg2 & _), Ua as (_ & Ha & Ha'), Uv as (_ & Hv & Hv').
  split.
  - destruct g as [|c g]; [done|]. unfold replace_char. cbn [replace_chars].
    assert (Ascii.eqb "." c = false) as Hc.
    { destruct (Ascii.eqb_spec "." c) as [<-|]; [|done]. by cbn in Hg. }
    rewrite Hc. cbn [contains_char] in Hg2. apply orb_false_elim in Hg2 as [Hg2 _].
    unfold starts_with. cbn [String.append strip_prefix]. rewrite Ascii.eqb_sym, Hg2.
    apply bool_decide_eq_false_2. by intros [? ?].
  - rewrite !no_dotdot_sep. split; [apply no_dots_no_dotdot, contains_char_replace; by rewrite ?Ascii.eqb_refl|].
    split; [by apply plain_name_safe|]. split; [by apply plain_name_safe|]. by apply artifact_file_safe.
Qed.

(** Joining two safe relative parts one after the other. *)
Definition below (base p : string) : Prop := ∃ suffix, p = base +:+ suffix ∧ no_dotdot suffix.
Lemma below_join base p q : below base p → starts_with "/" q = false → no_dotdot q → below base (path_join p q).
Proof.
  intros (s & -> & Hs) Hq Hn. destruct (path_join_safe (base +:+ s) q Hq Hn) as (sep & -> & Hsep & Hj & He).
  exists (s +:+ sep +:+ q). split; [by rewrite !str_app_assoc|]. destruct Hsep as [->| ->].
  - cbn. apply no_dotdot_join; [done..|]. destruct (decide (s = "")) as [->|Hne]; [by left|right].
    destruct (He eq_refl) as [E|E]; [by destruct base; [|done]|]. by eapply ends_with_char_app.
  - by apply (no_dotdot_sep s q).
Qed.
Lemma below_refl base : below base base.
Proof. exists "". split; [by rewrite str_app_nil_r|]. by repeat constructor. Qed.

Section RepoSpec.
Context `{RepoFs}.

Definition entries_named : Prop := ∀ d hs, list_dir d = Some hs → Forall entry_name hs.

Lemma m2_file_below m2 g a v ext p : contains_char "/" ext = false → starts_with "." g = false →
  m2_file m2 g a v ext = Some p → below m2 p.
Proof.
  intros He Hg. unfold m2_file. destruct (m2_relative_ext g a v ext) as [rel|] eqn:E; [|done].
  cbn [mbind option_bind]. case_match; [|done]. intros [= <-].
  apply m2_relative_safe in E as [Hr Hn]; [|done..]. apply below_join; [apply below_refl|done..].
Qed.

Lemma cache_file_below cache g a v ext p : entries_named → contains_char "/" ext = false →
  cache_file cache g a v ext = Some p → below cache p.
Proof.
  intros Hd He. unfold cache_file. cbn [existsb].
  destruct (unsafe_coord g) eqn:Ug; [done|]. destruct (unsafe_coord a) eqn:Ua; [done|].
  destruct (unsafe_coord v) eqn:Uv; [done|]. cbn [orb].
  apply unsafe_coord_false in Ug as (_ & Hg & Hg'), Ua as (_ & Ha & Ha'), Uv as (_ & Hv & Hv').
  destruct (list_dir _) as [hs|] eqn:El; [|done]. cbn [mbind option_bind].
  intros Hf. apply find_some in Hf as [Hf _]. apply list_elem_of_In, list_elem_of_fmap in Hf as (h & -> & Hh).
  pose proof (proj1 (Forall_forall _ _) (Hd _ _ El) h Hh) as [Hn1 Hn2].
  destruct (plain_name_safe g Hg Hg'), (plain_name_safe a Ha Ha'), (plain_name_safe v Hv Hv'), (plain_name_safe h Hn1 Hn2).
  destruct (artifact_file_safe a v ext Ha Hv He).
  repeat (apply below_join; [|done..]). apply below_join; [apply below_refl|reflexivity|].
  by repeat constructor.
Qed.

End RepoSpec.

(** ** Lemmas: string literals *)

(** A stretch of text without quotes, then a literal in quotes [q]. *)
Record Piece := mkPiece { p_plain : list Z; p_quote : Z; p_lit : string }.
Definition is_quote_byte (b : Z) : bool := (b =? 34) || (b =? 39).
Definition piece_bytes (p : Piece) : list Z := p_plain p ++ p_quote p :: as_bytes (p_lit p) ++ [p_quote p].
Definition piece_ok (p : Piece) : Prop :=
  Forall (λ b, is_quote_byte b = false) (p_plain p) ∧ is_quote_byte (p_quote p) = true
  ∧ Forall (λ b, b ≠ p_quote p) (as_bytes (p_lit p)) ∧ is_str (p_lit p).

Lemma until_byte_app q w r : Forall (λ b, b ≠ q) w → until_byte q (w ++ q :: r) = Some (w, r).
Proof.
  induction 1 as [|b w Hb _ IH]; cbn [app until_byte]; [by rewrite Z.eqb_refl|].
  by rewrite (proj2 (Z.eqb_neq _ _) Hb), IH.
Qed.
Lemma literals_plain w : ∀ fuel r, Forall (λ b, is_quote_byte b = false) w → (length (w ++ r) ≤ fuel)%nat →
  ∃ fuel', (length r ≤ fuel')%nat ∧ string_literals_go fuel (w ++ r) = string_literals_go fuel' r.
Proof.
  induction w as [|b w IH]; intros fuel r Hw Hf; [by exists fuel|].
  inversion Hw as [|? ? Hb Hw']; subst. destruct fuel as [|fuel]; [cbn in Hf; lia|].
  cbn [app string_literals_go]. unfold is_quote_byte in Hb. rewrite Hb. apply IH; [done|]. cbn in Hf. lia.
Qed.
Lemma literals_pieces ps rest : ∀ fuel, Forall piece_ok ps → Forall (λ b, is_quote_byte b = false) rest →
  (length (concat (piece_bytes <$> ps) ++ rest) ≤ fuel)%nat →
  string_literals_go fuel (concat (piece_bytes <$> ps) ++ rest) = p_lit <$> ps.
Proof.
  induction ps as [|p ps IH]; intros fuel Hps Hr Hf.
  - cbn [fmap list_fmap concat app] in *. rewrite <- (app_nil_r rest) in Hf |- *.
    destruct (literals_plain rest fuel [] Hr Hf) as (f' & _ & ->). by destruct f'.
  - inversion Hps as [|? ? (Hp & Hq & Hl & Hs) Hps']; subst. rewrite fmap_cons in Hf |- *. cbn [concat] in *.
    unfold piece_bytes at 1 in Hf. unfold piece_bytes at 1. rewrite <- !app_assoc in *.
    destruct (literals_plain _ fuel _ Hp Hf) as (f' & Hf' & ->). cbn [app] in *. rewrite <- !app_assoc in *. cbn [app] in *.
    destruct f' as [|f']; [cbn in Hf'; lia|]. cbn [string_literals_go]. unfold is_quote_byte in Hq.
    rewrite Hq, until_byte_app by done. unfold from_utf8. unfold is_str in Hs. rewrite Hs, string_of_as_bytes.
    rewrite fmap_cons. f_equal. apply IH; [done|done|]. cbn [length] in Hf'.
    rewrite length_app in Hf'. cbn [length] in Hf'. lia.
Qed.

(** ** Properties *)

(** Both locators stay inside their repositories: a path they return for
    a coordinate whose group does not start with a dot is Gradle's cache or
    the Maven repository followed by components none of which is [..]. *)
Theorem locators_confined `{RepoFs} cache m2 g a v p :
  entries_named → starts_with "." g = false →
  @locate_pom (fallback_locator cache m2) g a v = Some p
  ∨ @locate_jar (fallback_locator cache m2) g a v = Some p
  ∨ @locate_pom (maven_locator m2) g a v = Some p ∨ @locate_jar (maven_locator m2) g a v = Some p →
  below cache p ∨ below m2 p.
Proof.
  intros Hd Hg. cbn [locate_pom locate_jar fallback_locator maven_locator].
  assert (Hm : ∀ ext, contains_char "/" ext = false → m2_file m2 g a v ext = Some p → below m2 p)
    by (intros; by eapply m2_file_below).
  assert (Hc : ∀ ext, contains_char "/" ext = false → cache_file cache g a v ext = Some p → below cache p)
    by (intros; by eapply cache_file_below).
  unfold or_else. intros [Hp|[Hp|[Hp|Hp]]]; [| |right; by apply (Hm "pom")|right; by apply (Hm "jar")].
  - destruct (cache_file cache g a v "pom") eqn:E; [left; apply (Hc "pom"); [done|by rewrite E]|right; by apply (Hm "pom")].
  - destruct (cache_file cache g a v "jar") eqn:E; [left; apply (Hc "jar"); [done|by rewrite E]|right; by apply (Hm "jar")].
Qed.

(** A group that starts with a dot passes the coordinate guard and becomes an
    absolute path, which replaces the repository. *)
Lemma locator_escapes m2 :
  unsafe_coord ".etc" = false ∧ m2_relative ".etc" "x" "1" = Some "/etc/x/1/x-1.jar"
  ∧ path_join m2 "/etc/x/1/x-1.jar" = "/etc/x/1/x-1.jar".
Proof. done. Qed.

(** Every string literal of a build file is found: in text whose quotes
    are those of the literals, single or double, the scanner returns exactly
    the literals in order. *)
Theorem string_literals_exact ps rest text :
  Forall piece_ok ps → Forall (λ b, is_quote_byte b = false) rest →
  as_bytes text = concat (piece_bytes <$> ps) ++ rest →
  string_literals text = p_lit <$> ps.
Proof. intros Hps Hr E. unfold string_literals. rewrite E. by apply literals_pieces. Qed.

(** ** A project, end to end *)

Definition tag (t text : string) : XNode := XElem t [XText text].
Definition dep (g a : string) (more : list XNode) : XNode := XElem "dependency" (tag "groupId" g :: tag "artifactId" a :: more).
Definition ex_root_pom : list XNode := [XOther; XElem "project"
  [XElem "properties" [tag "v" "2"];
   tag "groupId" "app"; tag "artifactId" "app"; tag "version" "1";
   XElem "dependencyManagement" [XElem "dependencies"
     [dep "bom" "bom" [tag "version" "1"; tag "scope" "import"]]];
   XElem "dependencies" [dep "a" "a" [tag "version" "${v}"]; dep "c" "c" []]]].
(** [a:2] asks for [c:9] and [b:1], excluding [x:x]; [b:1] asks for [x:x]. *)
Definition ex_a_pom : list XNode := [XElem "project"
  [XElem "dependencies"
     [dep "c" "c" [tag "version" "9"];
      dep "b" "b" [tag "version" "1"; XElem "exclusions" [XElem "exclusion" [tag "groupId" "x"; tag "artifactId" "x"]]];
      dep "t" "t" [tag "version" "1"; tag "scope" "test"]]]].
Definition ex_b_pom : list XNode := [XElem "project" [XElem "dependencies" [dep "x" "x" [tag "version" "1"]]]].
Definition ex_bom : list XNode := [XElem "project" [XElem "dependencyManagement" [XElem "dependencies"
  [dep "c" "c" [tag "version" "3"]]]]].

#[local] Instance ex_pom_fs : PomFs := {|
  pom_len _ := Some 100; pom_read p := Some p;
  pom_is_file p := bool_decide (p ∈ ["/p/pom.xml"; "/m2/a/a/2/a-2.pom"; "/m2/a/a/2/a-2.jar"; "/m2/b/b/1/b-1.pom";
    "/m2/b/b/1/b-1.jar"; "/m2/bom/bom/1/bom-1.pom"; "/m2/c/c/3/c-3.jar"]);
  pom_is_dir _ := false; canonicalize p := Some p;
  parse_xml p := if bool_decide (p = "/p/pom.xml") then Some ex_root_pom
                 else if bool_decide (p = "/m2/a/a/2/a-2.pom") then Some ex_a_pom
                 else if bool_decide (p = "/m2/b/b/1/b-1.pom") then Some ex_b_pom
                 else if bool_decide (p = "/m2/bom/bom/1/bom-1.pom") then Some ex_bom else None;
|}.
#[local] Instance ex_repo_fs : RepoFs := {| list_dir _ := None |}.
#[local] Instance ex_hash : HashOrder := {| hash_iter := map_to_list; hash_iter_perm _ := reflexivity _ |}.

(** [c] is resolved at the root's managed version, [x] is excluded. *)
Example ex_resolve : maven_resolve_project "/p" "/m2"
  = mkResolvedProject ["/m2/a/a/2/a-2.jar"; "/m2/c/c/3/c-3.jar"; "/m2/b/b/1/b-1.jar"] []
      ["c:c:3"].
Proof. vm_compute. reflexivity. Qed.

Definition ex_seeds : list Seed := [mkSeed "a" "a" "2" ∅; mkSeed "c" "c" "3" ∅].
#[local] Instance ex_locator : Locator := maven_locator "/m2".
Lemma exclusions_honored_witness : ∃ sets,
  declared_path ex_seeds (mkSeed "b" "b" "1" {[("x", "x")]}, 1%nat) sets ∧ ("b", "b") ∉ ⋃ (tail sets).
Proof.
  destruct (exclusions_honored ex_seeds (mkSeed "b" "b" "1" {[("x", "x")]}, 1%nat)) as (sets & Hp & _ & Hx).
  - apply (list_elem_of_lookup_2 _ 2). vm_compute. reflexivity.
  - by exists sets.
Defined.
Lemma nothing_lost_witness :
  let '(jars, degraded) := resolve_transitive ex_seeds in
  (∃ jar, locate_jar "c" "c" "3" = Some jar ∧ jar ∈ jars)
  ∨ ∃ r, r ∈ degraded ∧ starts_with "c:c:3" r = true.
Proof.
  assert (Hw : (mkSeed "c" "c" "3" ∅, O) ∈ winners ex_seeds)
    by (apply (list_elem_of_lookup_2 _ 1); vm_compute; reflexivity).
  pose proof (nothing_lost ex_seeds (mkSeed "c" "c" "3" ∅, O) Hw) as H.
  destruct (resolve_transitive ex_seeds) as [jars degraded]. exact (proj1 H).
Defined.
Lemma pom_reads_confined_witness :
  parse_effective_pom "/p/pom.xml" (Some "/p")
  = @parse_effective_pom {| pom_len := @pom_len ex_pom_fs; pom_read := @pom_read ex_pom_fs;
      pom_is_file := @pom_is_file ex_pom_fs; pom_is_dir _ := true;
      canonicalize := @canonicalize ex_pom_fs; parse_xml := @parse_xml ex_pom_fs |} _ _ "/p/pom.xml" (Some "/p").
Proof. apply pom_reads_confined. by split. Defined.
Lemma substitute_plain_witness : substitute "1.2" {["v" := "3"]} = "1.2".
Proof. apply substitute_plain. reflexivity. Defined.
Lemma locators_confined_witness : below "/g" "/m2/a/a/2/a-2.jar" ∨ below "/m2" "/m2/a/a/2/a-2.jar".
Proof.
  apply (locators_confined "/g" "/m2" "a" "a" "2"); [by intros d hs|reflexivity|].
  right; right; right. vm_compute. reflexivity.
Defined.
Lemma string_literals_exact_witness : string_literals "api('g:a:1')" = ["g:a:1"].
Proof.
  apply (string_literals_exact [mkPiece (as_bytes "api(") 39 "g:a:1"] (as_bytes ")")); [|by repeat constructor|reflexivity].
  constructor; [|constructor]. split; [by repeat constructor|]. split; [done|]. split; [|done].
  apply (bool_decide_unpack _). vm_compute. exact I.
Defined.
