(* ===== verification/Jdk.v ===== *)
(** * JDK discovery ([crates/classpath/src/jdk.rs])

    By probing the file system only.  The environment, directories and
    [release] files are an interface. *)
From Stdlib Require Import Ascii.
From S2P Require Import Prelude RustStd Order Paths.

Class JdkEnv := {
  env_var : string → option string;
  split_paths : string → list string;
  jdk_is_file : string → bool;
  jdk_read_dir : string → option (list string);   (** names, when readable *)
  jdk_read : string → option string;
  jdk_canonicalize : string → option string;
}.

(** Leading ASCII digits as a [u32]. *)
Definition leading_number (s : string) : option Z := parse_uint 32 (str_take_while is_ascii_digit s).

Definition parse_feature_version (value : string) : option Z :=
  match split_char "." value with
  | [] => None
  | first :: rest =>
      if bool_decide (first = "1") then n ← head rest; leading_number n
      else leading_number first
  end.

(** [trim_matches] with a double quote. *)
Definition trim_quotes (s : string) : string :=
  str_rev (str_skip_while (λ b, b =? 34) (str_rev (str_skip_while (λ b, b =? 34) s))).

(** First digits anywhere in the path; 0 when there are none or too many. *)
Definition major_version (home : string) : Z :=
  default 0 (parse_uint 32 (str_take_while is_ascii_digit (str_skip_while (λ b, negb (is_ascii_digit b)) home))).

Section Jdk.
Context `{JdkEnv}.

Definition jdk_feature_version (home : string) : option Z :=
  release ← jdk_read (path_join home "release");
  raw ← head (omap (strip_prefix "JAVA_VERSION=") (str_lines release));
  parse_feature_version (trim_quotes (trim raw)).
Definition ranked_version (home : string) : Z := default (major_version home) (jdk_feature_version home).

Definition has_jmods (home : string) : bool := jdk_is_file (path_join (path_join home "jmods") "java.base.jmod").
Definition jmods (home : string) : list string :=
  let dir := path_join home "jmods" in
  match jdk_read_dir dir with
  | None => []
  | Some names => path_join dir <$> List.filter (λ n, bool_decide (extension n = Some "jmod")) names
  end.

Definition scan_dir (dir : string) (suffix : option string) : list string :=
  match jdk_read_dir dir with
  | None => []
  | Some names => (λ n, let p := path_join dir n in match suffix with Some s => path_join p s | None => p end) <$> names
  end.

Fixpoint java_in (dirs : list string) : option string :=
  match dirs with
  | [] => None
  | dir :: ds =>
      let java := path_join dir "java" in
      if jdk_is_file java then
        match (real ← jdk_canonicalize java; bin ← path_parent real; path_parent bin) with
        | Some home => Some home
        | None => java_in ds
        end
      else java_in ds
  end.
Definition java_on_path : option string := path ← env_var "PATH"; java_in (split_paths path).

Definition candidate_homes : list string :=
  let home := env_var "HOME" in
  let under sub suffix := match home with Some h => scan_dir (path_join h sub) suffix | None => [] end in
  scan_dir "/Library/Java/JavaVirtualMachines" (Some "Contents/Home")
  ++ under "Library/Java/JavaVirtualMachines" (Some "Contents/Home")
  ++ scan_dir "/usr/lib/jvm" None ++ scan_dir "/usr/java" None
  ++ under ".jdks" None ++ under ".sdkman/candidates/java" None
  ++ match java_on_path with Some h => [h] | None => [] end.

(** The stable descending sort by rank, and its first element. *)
Definition by_rank (p q : string) : comparison := Z.compare (ranked_version q) (ranked_version p).
Definition sort_by_rank : list string → list string := sort_by by_rank.

Definition best_jdk : option string :=
  match env_var "JAVA_HOME" with
  | Some home =>
      if has_jmods home then Some home
      else head (sort_by_rank (List.filter has_jmods candidate_homes))
  | None => head (sort_by_rank (List.filter has_jmods candidate_homes))
  end.

(** ** Lemmas *)

Lemma head_insert_ranked p l :
  head (insert_by by_rank p l) = match head l with
                                 | Some q => if ranked_version p <? ranked_version q then Some q else Some p
                                 | None => Some p
                                 end.
Proof.
  destruct l as [|q l]; [done|]. cbn. unfold by_rank, Z.ltb.
  rewrite (Z.compare_antisym (ranked_version p)). by destruct (ranked_version p ?= ranked_version q).
Qed.

(** The head of the sorted list is the first of the greatest rank. *)
Lemma head_sort_ranked l :
  match head (sort_by_rank l) with
  | Some p => ∃ before after, l = before ++ p :: after
      ∧ Forall (λ q, ranked_version q < ranked_version p) before
      ∧ Forall (λ q, ranked_version q ≤ ranked_version p) after
  | None => l = []
  end.
Proof.
  induction l as [|x l IH]; [done|]. change (sort_by_rank (x :: l)) with (insert_by by_rank x (sort_by_rank l)). rewrite head_insert_ranked.
  destruct (head (sort_by_rank l)) as [p|].
  - destruct IH as (b & a & -> & Hb & Ha). destruct (Z.ltb_spec (ranked_version x) (ranked_version p)).
    + exists (x :: b), a. split; [done|]. split; [by constructor|done].
    + exists [], (b ++ p :: a). split; [done|]. split; [constructor|]. apply Forall_app. split.
      * eapply Forall_impl; [exact Hb|]. intros q Hq. cbn in *. lia.
      * constructor; [lia|]. eapply Forall_impl; [exact Ha|]. intros q Hq. cbn in *. lia.
  - subst l. exists [], []. repeat constructor.
Qed.

(** ** Properties *)

(** The JDK chosen is the right one: [JAVA_HOME] when it ships jmods;
    otherwise the first among the candidate homes with jmods whose feature
    version (read from its [release] file, else guessed from its path) is the
    greatest; and none exactly when no home has jmods. *)
Theorem best_jdk_spec :
  match best_jdk with
  | Some home =>
      has_jmods home = true
      ∧ (env_var "JAVA_HOME" = Some home
         ∨ (∀ h, env_var "JAVA_HOME" = Some h → has_jmods h = false)
           ∧ ∃ before after, candidate_homes = before ++ home :: after
             ∧ (∀ q, q ∈ before → has_jmods q = true → ranked_version q < ranked_version home)
             ∧ (∀ q, q ∈ after → has_jmods q = true → ranked_version q ≤ ranked_version home))
  | None => ∀ h, env_var "JAVA_HOME" = Some h ∨ h ∈ candidate_homes → has_jmods h = false
  end.
Proof.
  assert (Hc : match head (sort_by_rank (List.filter has_jmods candidate_homes)) with
    | Some home => has_jmods home = true ∧ ∃ before after, candidate_homes = before ++ home :: after
             ∧ (∀ q, q ∈ before → has_jmods q = true → ranked_version q < ranked_version home)
             ∧ (∀ q, q ∈ after → has_jmods q = true → ranked_version q ≤ ranked_version home)
    | None => ∀ h, h ∈ candidate_homes → has_jmods h = false end).
  { pose proof (head_sort_ranked (List.filter has_jmods candidate_homes)) as Hs.
    destruct (head (sort_by_rank _)) as [p|]; revert Hs.
    - generalize candidate_homes as l. induction l as [|x l IH]; intros (b & a & E & Hb & Ha); [by destruct b|].
      cbn [List.filter] in E. destruct (has_jmods x) eqn:Ex.
      + destruct b as [|y b]; injection E as -> E.
        * split; [done|]. exists [], l. split; [done|]. split; [by intros q ?%elem_of_nil|].
          intros q Hq Hj. eapply Forall_forall in Ha; [exact Ha|]. rewrite <- E.
          apply list_elem_of_In, filter_In. split; [by apply list_elem_of_In|done].
        * inversion Hb; subst. destruct IH as [Hp (b' & a' & -> & HB & HA)]; [by exists b, a|].
          split; [done|]. exists (y :: b'), a'. split; [done|]. split; [|done].
          intros q [->|Hq]%elem_of_cons Hj; [done|by apply HB].
      + destruct IH as [Hp (b' & a' & -> & HB & HA)]; [by exists b, a|]. split; [done|].
        exists (x :: b'), a'. split; [done|]. split; [|done].
        intros q [->|Hq]%elem_of_cons Hj; [congruence|by apply HB].
    - intros E h Hh. destruct (has_jmods h) eqn:Eh; [|done].
      assert (Hin : h ∈ List.filter has_jmods candidate_homes)
        by (apply list_elem_of_In, filter_In; split; [by apply list_elem_of_In|done]).
      rewrite E in Hin. by apply elem_of_nil in Hin. }
  unfold best_jdk. destruct (env_var "JAVA_HOME") as [home|] eqn:Eh.
  - destruct (has_jmods home) eqn:Ej; [by auto|].
    destruct (head (sort_by_rank _)) as [p|].
    + destruct Hc as [Hp Hc]. split; [done|]. right. split; [by intros h [= <-]|done].
    + intros h [[= <-]|Hh]; [done|by apply Hc].
  - destruct (head (sort_by_rank _)) as [p|].
    + destruct Hc as [Hp Hc]. split; [done|]. right. by split.
    + intros h [?|Hh]; [done|by apply Hc].
Qed.

End Jdk.

Example parse_feature_version_ex :
  (parse_feature_version <$> ["21.0.2"; "17"; "1.8.0_392"; "21-ea"; "garbage"; ""])
  = [Some 21; Some 17; Some 8; Some 21; None; None].
Proof. vm_compute. reflexivity. Qed.
Example trim_quotes_ex : trim_quotes (quote +:+ "21.0.2" +:+ quote) = "21.0.2".
Proof. reflexivity. Qed.
