(* ===== verification/Degraded.v ===== *)
(** * Unresolved coordinates ([crates/classpath/src/lib.rs], [parse_degraded_entry])

    Resolution records what it could not resolve as text; the
    missing-dependencies request parses the records back and offers to
    download those that are only missing. *)
From Stdlib Require Import Ascii.
From S2P Require Import Prelude RustStd Paths Pom Resolve Repo.

Record DegradedCoordinate := mkDegradedCoordinate {
  dc_group : string; dc_artifact : string; dc_version : option string; dc_reason : option string }.

Definition is_fetchable (d : DegradedCoordinate) : bool :=
  bool_decide (dc_reason d = None) && bool_decide (is_Some (dc_version d)).

Definition is_plain_segment (s : string) : bool := negb (bool_decide (s = "")) && negb (has_white_space s).

(** The coordinate, and the reason in a trailing parenthesis. *)
Definition base_and_reason (entry : string) : option (string * option string) :=
  match strip_suffix ")" entry with
  | Some without_close => '(base, reason) ← rsplit_str " (" without_close; Some (base, Some reason)
  | None => Some (entry, None)
  end.

Definition parse_degraded_entry (entry : string) : option DegradedCoordinate :=
  '(base, reason) ← base_and_reason entry;
  match split_char ":" base with
  | [g; a; v] =>
      if is_plain_segment g && is_plain_segment a && is_plain_segment v
      then Some (mkDegradedCoordinate g a (Some v) reason) else None
  | [g; a] =>
      if bool_decide (is_Some reason) && is_plain_segment g && is_plain_segment a
      then Some (mkDegradedCoordinate g a None reason) else None
  | _ => None
  end.

Definition missing_dependencies (degraded : list string) : list DegradedCoordinate :=
  omap parse_degraded_entry degraded.

(** ** Segments *)

(** A segment that survives the trip. *)
Definition segment_ok (s : string) : Prop := is_plain_segment s = true ∧ contains_char ":" s = false.

Lemma coord_split g a v :
  split_char ":" (coord_str g a v) = split_char ":" g ++ split_char ":" a ++ split_char ":" v.
Proof. unfold coord_str. cbn [String.append]. by rewrite !split_char_sep. Qed.
Lemma coord_split_ok g a v : segment_ok g → segment_ok a → segment_ok v →
  split_char ":" (coord_str g a v) = [g; a; v].
Proof. intros [_ Hg] [_ Ha] [_ Hv]. by rewrite coord_split, !split_char_none. Qed.

Lemma split_one c s x : split_char c s = [x] → s = x.
Proof. intros H. pose proof (join_split c s) as Hj. by rewrite H in Hj. Qed.

(** A string with three segments spells one coordinate. *)
Lemma coord_str_inj g a v g' a' v' :
  split_char ":" (coord_str g a v) = [g'; a'; v'] → g = g' ∧ a = a' ∧ v = v'.
Proof.
  rewrite coord_split. intros H. assert (Hl := f_equal length H). rewrite !length_app in Hl. cbn [length] in Hl.
  assert (Hne : ∀ s, ∃ x xs, split_char ":" s = x :: xs).
  { intros s. pose proof (split_char_ne ":" s). destruct (split_char ":" s); [done|eauto]. }
  destruct (Hne g) as (x & xs & Eg), (Hne a) as (y & ys & Ea), (Hne v) as (z & zs & Ev).
  rewrite Eg, Ea, Ev in H, Hl. cbn [length] in Hl.
  destruct xs; [|cbn in Hl; lia]. destruct ys; [|cbn in Hl; lia]. destruct zs; [|cbn in Hl; lia].
  injection H as -> -> ->. split_and!; eapply split_one; eassumption.
Qed.

Lemma plain_no_space s : is_plain_segment s = true → contains_char " " s = false.
Proof.
  intros [_ H]%andb_true_iff. apply negb_true_iff in H. unfold has_white_space in H.
  assert (Hsp : contains_str " " s = false).
  { destruct (contains_str " " s) eqn:E; [|done]. rewrite <- H. symmetry. apply existsb_exists.
    exists " ". split; [|done]. apply list_elem_of_In. unfold white_space. cbn. set_solver. }
  clear H. unfold contains_str in Hsp. apply bool_decide_eq_false in Hsp.
  induction s as [|a s IH]; [done|]. cbn [contains_char]. cbn [str_find] in Hsp. unfold starts_with in Hsp.
  cbn [strip_prefix] in Hsp. destruct (Ascii.eqb_spec " " a) as [<-|Hne].
  - exfalso. apply Hsp. rewrite bool_decide_true by done. done.
  - destruct (Ascii.eqb_spec a " "); [congruence|]. apply IH. intros Hx. apply Hsp.
    rewrite bool_decide_false by (by intros [? ?]). by apply fmap_is_Some.
Qed.

(** A fetchable record is a bare coordinate. *)
Lemma fetchable_shape r d : parse_degraded_entry r = Some d → is_fetchable d = true →
  ∃ g a v, d = mkDegradedCoordinate g a (Some v) None ∧ r = coord_str g a v
    ∧ split_char ":" r = [g; a; v] ∧ contains_char " " r = false.
Proof.
  unfold parse_degraded_entry, is_fetchable. intros Hp Hf.
  apply andb_true_iff in Hf as [Hr%bool_decide_eq_true Hv%bool_decide_eq_true].
  unfold base_and_reason in Hp. destruct (strip_suffix ")" r) as [w|] eqn:Es; cbn in Hp.
  - destruct (rsplit_str " (" w) as [[b x]|]; cbn in Hp; [|done].
    destruct (split_char ":" b) as [|g [|a [|v [|]]]]; try done; case_match; try done;
      injection Hp as <-; discriminate.
  - destruct (split_char ":" r) as [|g [|a [|v [|]]]] eqn:Er; try done; case_match; try done;
      injection Hp as <-.
    match goal with H : _ && _ && _ = true |- _ => apply andb_true_iff in H as [[Hg Ha]%andb_true_iff Hvv] end.
    assert (r = coord_str g a v) as ->. { rewrite <- (join_split ":" r), Er. done. }
    exists g, a, v. split_and!; [done..|]. unfold coord_str.
    by rewrite !contains_char_app, !plain_no_space.
Qed.

(** ** The records resolution makes *)

Lemma rsplit_reason base reason : contains_str " (" reason = false →
  rsplit_str " (" (base +:+ " (" +:+ reason) = Some (base, reason).
Proof.
  intros H. rewrite (rsplit_str_app " (" base _ "" reason); [by rewrite str_app_nil_r|].
  cbn. by rewrite rsplit_str_None.
Qed.

(** What a walk over dependencies records about one of them. *)
Lemma expand_records_inv seed deps e : e ∈ (expand seed deps).2 →
  ∃ dep, e = unresolved_version dep ∨ ∃ c, e = classifier_skip dep c.
Proof.
  unfold expand. set (f := λ (st : list Seed * list string) dep, _).
  assert (Hgo : ∀ st, (e ∈ st.2 → ∃ dep, e = unresolved_version dep ∨ ∃ c, e = classifier_skip dep c) →
    e ∈ (fold_left f deps st).2 → ∃ dep, e = unresolved_version dep ∨ ∃ c, e = classifier_skip dep c).
  { induction deps as [|d deps IH]; intros st Hst; cbn [fold_left]; [done|]. apply IH. subst f. cbn beta.
    destruct (edge_dropped seed d); [done|]. unfold seed_of.
    destruct (rd_classifier d) as [c|]; [|destruct (rd_version d)]; cbn [snd]; [|done|];
      intros [?|He%list_elem_of_singleton]%elem_of_app; subst; eauto. }
  apply Hgo. by intros ?%elem_of_nil.
Qed.

Lemma truncated_has_space : contains_char " " truncated_message = true.
Proof. unfold truncated_message. by rewrite contains_char_app. Qed.

Section Missing.
Context `{PomFs} `{Locator} `{HashOrder}.

(** An unreadable parent is all that a POM's own records tell. *)
Lemma raw_degraded levels : ∀ p root raw r, parse_effective_pom_raw levels p root = Some raw →
  r ∈ re_degraded raw → contains_char " " r = true.
Proof.
  induction levels as [|l IH]; intros p root raw r; cbn [parse_effective_pom_raw]; [done|].
  destruct (read_project p) as [project|]; [|done]. cbn [mbind option_bind]. intros [= <-].
  unfold parse_effective_pom_raw_from_doc. cbn [re_degraded].
  destruct (find_child "parent" project) as [parent|]; [|by intros ?%elem_of_nil].
  unfold inherit_from. destruct (parent_location p root parent) as [[q root']|].
  1: destruct (parse_effective_pom_raw l q root') as [raw'|] eqn:E; [by eapply IH|].
  all: cbn [in_degraded]; intros ->%list_elem_of_singleton; rewrite !contains_char_app;
    change (contains_char " " ": parent ") with true; by rewrite orb_true_r.
Qed.

(** The coordinate is not in the local caches: its jar or its POM is not
    there, or the POM cannot be read. *)
Definition not_cached (g a v : string) : Prop :=
  locate_jar g a v = None ∨ ∀ p, locate_pom g a v = Some p → parse_effective_pom p None = None.

Lemma record_fetchable e r : r ∈ records_of e → contains_char " " r = false →
  r = seed_coord e.1 ∧ not_cached (s_group e.1) (s_artifact e.1) (s_version e.1).
Proof.
  unfold records_of, visit, not_cached. destruct (MAX_DEPTH <? e.2)%nat.
  { intros ->%list_elem_of_singleton. rewrite contains_char_app. change (contains_char " " " (max depth exceeded)") with true.
    by rewrite orb_true_r. }
  destruct (locate_jar _ _ _); [|intros ->%list_elem_of_singleton; by auto].
  destruct (locate_pom _ _ _) as [p|]; cbn [mbind option_bind];
    [|intros ->%list_elem_of_singleton; split; [done|by right]].
  destruct (parse_effective_pom p None) as [eff|] eqn:E;
    [|intros ->%list_elem_of_singleton; split; [done|right; by intros ? [= <-]]].
  destruct (expand e.1 (ep_dependencies eff)) as [children records] eqn:Ex. cbn [fst snd].
  intros Hr Hsp; exfalso; apply elem_of_app in Hr as [Hr|Hr].
  - unfold parse_effective_pom in E. apply fmap_Some in E as (raw & E & ->). cbn in Hr.
    by rewrite (raw_degraded _ _ _ _ r E Hr) in Hsp.
  - destruct (expand_records_inv e.1 (ep_dependencies eff) r) as (dep & [->|[c ->]]); [by rewrite Ex| |];
      revert Hsp; unfold unresolved_version, classifier_skip; rewrite !contains_char_app;
      [change (contains_char " " " (unresolved version)") with true
      |change (contains_char " " " (classifier ") with true]; by rewrite ?orb_true_r.
Qed.

(** Only what is really missing is offered for download: when the record of
    a resolution reads back as a fetchable coordinate, that coordinate was
    asked for and its jar or readable POM is in none of the local caches.
    Skipped classifiers, dynamic or unresolved versions, depth and node
    limits and unreadable parents are never fetched. *)
Theorem fetchable_missing seeds r d :
  r ∈ (resolve_transitive seeds).2 → parse_degraded_entry r = Some d → is_fetchable d = true →
  ∃ w v, w ∈ winners seeds ∧ dc_version d = Some v
    ∧ (dc_group d, dc_artifact d, v) = (s_group w.1, s_artifact w.1, s_version w.1)
    ∧ not_cached (dc_group d) (dc_artifact d) v.
Proof.
  intros Hr Hp Hf. destruct (fetchable_shape r d Hp Hf) as (g & a & v & -> & _ & Hs & Hsp).
  rewrite resolve_transitive_eq in Hr. cbn [snd] in Hr. apply elem_of_app in Hr as [Hr|Hr].
  - apply elem_concat_fmap in Hr as (w & Hw & Hr). exists w, v.
    destruct (record_fetchable w r Hr Hsp) as [-> Hn].
    apply coord_str_inj in Hs as (<- & <- & <-). by split_and!.
  - exfalso. revert Hr. case_if; [|by intros ?%elem_of_nil]. intros ->%list_elem_of_singleton.
    by rewrite truncated_has_space in Hsp.
Qed.
End Missing.

(** The records read back as what was recorded: a missing coordinate as
    that coordinate, a declined one with its reason, an unresolved version
    without one. *)
Theorem degraded_roundtrip g a v reason :
  segment_ok g → segment_ok a → segment_ok v → contains_str " (" reason = false →
  (ends_with ")" v = false →
   parse_degraded_entry (coord_str g a v) = Some (mkDegradedCoordinate g a (Some v) None))
  ∧ parse_degraded_entry (coord_str g a v +:+ " (" +:+ reason +:+ ")")
    = Some (mkDegradedCoordinate g a (Some v) (Some reason))
  ∧ parse_degraded_entry (g +:+ ":" +:+ a +:+ " (" +:+ reason +:+ ")")
    = Some (mkDegradedCoordinate g a None (Some reason)).
Proof.
  intros Hg Ha Hv Hr. pose proof (coord_split_ok g a v Hg Ha Hv) as Hs.
  unfold parse_degraded_entry, base_and_reason.
  assert (Hsuf : ∀ b, strip_suffix ")" (b +:+ " (" +:+ reason +:+ ")") = Some (b +:+ " (" +:+ reason)).
  { intros b. rewrite <- !str_app_assoc. apply strip_suffix_app. }
  destruct Hg as [Hg1 Hg], Ha as [Ha1 Ha], Hv as [Hv1 Hv]. split_and!.
  - intros He. destruct (strip_suffix ")" (coord_str g a v)) as [x|] eqn:E.
    + exfalso. apply not_true_iff_false in He. apply He.
      apply (ends_with_char_app ")" (g +:+ ":" +:+ a +:+ ":")); [by intros ->|].
      apply bool_decide_eq_true. rewrite !str_app_assoc. by exists x.
    + cbn [mbind option_bind]. rewrite Hs. by rewrite Hg1, Ha1, Hv1.
  - rewrite Hsuf. cbn [mbind option_bind]. rewrite rsplit_reason by done. cbn [mbind option_bind].
    rewrite Hs. by rewrite Hg1, Ha1, Hv1.
  - replace (g +:+ ":" +:+ a +:+ " (" +:+ reason +:+ ")") with ((g +:+ ":" +:+ a) +:+ " (" +:+ reason +:+ ")")
      by by rewrite !str_app_assoc.
    rewrite Hsuf. cbn [mbind option_bind]. rewrite rsplit_reason by done. cbn [mbind option_bind].
    change (g +:+ ":" +:+ a) with (g +:+ String ":" a). rewrite split_char_sep, !split_char_none by done.
    cbn [app]. by rewrite Hg1, Ha1.
Qed.

(** ** Instances *)

#[local] Existing Instances ex_pom_fs ex_hash ex_locator.
Lemma fetchable_missing_witness : ∃ w v, w ∈ winners ex_seeds ∧ Some "3" = Some v
  ∧ ("c", "c", v) = (s_group w.1, s_artifact w.1, s_version w.1) ∧ not_cached "c" "c" v.
Proof.
  apply (fetchable_missing ex_seeds "c:c:3" (mkDegradedCoordinate "c" "c" (Some "3") None));
    [|vm_compute; reflexivity..].
  apply (list_elem_of_lookup_2 _ 0). vm_compute. reflexivity.
Defined.
Lemma degraded_roundtrip_witness :
  parse_degraded_entry "org.x:lib:1.+ (dynamic version unsupported)"
  = Some (mkDegradedCoordinate "org.x" "lib" (Some "1.+") (Some "dynamic version unsupported")).
Proof. by apply (degraded_roundtrip "org.x" "lib" "1.+" "dynamic version unsupported"). Defined.
