(* ===== verification/ClassInfo.v ===== *)
(** * Class files to members ([crates/classpath/src/class_info.rs])

    [parse] turns the structure of a class file, as the [cafebabe] library
    reads it, into the display signatures and the structured metadata that
    completion, hover and the semantic checks use.  The generic [Signature]
    attributes go through [JvmSignature]; they come from untrusted bytes, so
    every use of one falls back to the erased descriptors. *)
From Stdlib Require Import Ascii.
From S2P Require Import Prelude RustStd JTypes JvmSignature.

(** ** The class file, as [cafebabe] presents it

    Access flags are the JVMS's bits. *)

Inductive FieldType := FByte | FChar | FDouble | FFloat | FInteger | FLong | FShort | FBoolean
| FObject (class_name : string).
Record FieldDescriptor := mkFieldDescriptor { fd_dimensions : nat; fd_type : FieldType }.
Record MethodDescriptor := mkMethodDescriptor {
  md_parameters : list FieldDescriptor; md_return : option FieldDescriptor }.
Record InnerClassEntry := mkInnerClassEntry { ic_inner : string; ic_flags : Z }.
Inductive Attribute :=
| ASignature (sig : string)
| AInnerClasses (entries : list InnerClassEntry)
| AOther.
Record FieldInfo := mkFieldInfo {
  fi_flags : Z; fi_name : string; fi_descriptor : FieldDescriptor; fi_attributes : list Attribute }.
Record MethodInfo := mkMethodInfo {
  mi_flags : Z; mi_name : string; mi_descriptor : MethodDescriptor; mi_attributes : list Attribute }.
Record ClassFile := mkClassFile {
  cf_flags : Z; cf_this : string; cf_super : option string; cf_interfaces : list string;
  cf_fields : list FieldInfo; cf_methods : list MethodInfo; cf_attributes : list Attribute }.

Definition has_flag (flags f : Z) : bool := Z.land flags f =? f.
Definition acc_public : Z := 0x1.
Definition acc_private : Z := 0x2.
Definition acc_protected : Z := 0x4.
Definition acc_static : Z := 0x8.
Definition acc_bridge : Z := 0x40.
Definition acc_varargs : Z := 0x80.
Definition acc_interface : Z := 0x200.
Definition acc_abstract : Z := 0x400.
Definition acc_synthetic : Z := 0x1000.
Definition acc_annotation : Z := 0x2000.
Definition acc_enum : Z := 0x4000.

(** ** The owned model *)

Inductive MemberKind := MkMethod | MkField | MkConstructor.
Global Instance MemberKind_eq_dec : EqDecision MemberKind.
Proof. solve_decision. Defined.
Record Member := mkMember {
  mb_name : string; mb_kind : MemberKind; mb_signature : string; mb_template : option string;
  mb_is_static : bool; mb_ret_fqn : option string; mb_ret_display : option string;
  mb_hidden : bool; mb_metadata : option MemberMetadata }.
Record ClassInfo := mkClassInfo {
  ci_fqn : string; ci_supers : list string; ci_type_params : list string;
  ci_members : list Member; ci_super_type_args : list (list string);
  ci_metadata : option ClassMetadata }.

(** ** Names and descriptors *)

Definition fqn_of (name : string) : string := replace_char "/" "." name.
Definition simple_name (internal : string) : string := replace_char "$" "." (split_last "/" internal).

Fixpoint signature_attr (attributes : list Attribute) : option string :=
  match attributes with
  | [] => None
  | ASignature sig :: _ => Some sig
  | _ :: l => signature_attr l
  end.

Definition field_visible (flags : Z) : bool :=
  (has_flag flags acc_public || has_flag flags acc_protected) && negb (has_flag flags acc_synthetic).
Definition method_visible (flags : Z) : bool :=
  (has_flag flags acc_public || has_flag flags acc_protected)
  && negb (has_flag flags acc_synthetic) && negb (has_flag flags acc_bridge).

Definition render_field (d : FieldDescriptor) : string :=
  let base := match fd_type d with
    | FByte => "byte" | FChar => "char" | FDouble => "double" | FFloat => "float"
    | FInteger => "int" | FLong => "long" | FShort => "short" | FBoolean => "boolean"
    | FObject c => simple_name c
    end in
  base +:+ str_repeat (fd_dimensions d) "[]".
Definition render_params (d : MethodDescriptor) (sep : string) : string :=
  str_join sep (map render_field (md_parameters d)).
Definition render_return (d : MethodDescriptor) : string :=
  match md_return d with None => "void" | Some f => render_field f end.
Definition render_method (name : string) (d : MethodDescriptor) : string :=
  render_return d +:+ " " +:+ name +:+ "(" +:+ render_params d ", " +:+ ")".
Definition render_constructor (name : string) (d : MethodDescriptor) : string :=
  name +:+ "(" +:+ render_params d ", " +:+ ")".

Definition object_fqn (d : FieldDescriptor) : option string :=
  match fd_dimensions d, fd_type d with
  | O, FObject c => Some (fqn_of c)
  | _, _ => None
  end.

(** [field_access] and [method_access] test the same bits. *)
Definition member_access (flags : Z) : Access :=
  if has_flag flags acc_public then Public
  else if has_flag flags acc_protected then Protected
  else if has_flag flags acc_private then Private else Package.

Definition descriptor_type_ref (d : FieldDescriptor) : TypeRef :=
  let base := match fd_type d with
    | FByte => Primitive PByte | FChar => Primitive PChar | FDouble => Primitive PDouble
    | FFloat => Primitive PFloat | FInteger => Primitive PInt | FLong => Primitive PLong
    | FShort => Primitive PShort | FBoolean => Primitive PBoolean
    | FObject c => named (fqn_of c)
    end in
  Nat.iter (fd_dimensions d) Array base.

Definition erased_descriptor_key (d : MethodDescriptor) : string := render_params d ",".

(** ** Structured types with their fallbacks *)

Definition field_result_type (f : FieldInfo) (class_params : list (string * TypeParameter)) : TypeRef :=
  default (descriptor_type_ref (fi_descriptor f))
    (sig ← signature_attr (fi_attributes f); parse_field_signature sig class_params).

Definition method_structured (d : MethodDescriptor) (signature : option string)
    (class_params : list (string * TypeParameter)) (owner : string) :
    list TypeParameter * list TypeRef * TypeRef :=
  let erased := ([], map descriptor_type_ref (md_parameters d),
                 match md_return d with Some f => descriptor_type_ref f | None => Void end) in
  match sig ← signature; parse_method_signature sig class_params owner with
  | Some (type_params, ret, params) =>
      if bool_decide (length params = length (md_parameters d)) then (type_params, params, ret) else erased
  | None => erased
  end.

(** ** The class *)

Section Class.
Context (c : ClassFile).

Definition class_fqn : string := fqn_of (cf_this c).
Definition class_supers : list string :=
  match cf_super c with Some s => [fqn_of s] | None => [] end ++ map fqn_of (cf_interfaces c).
Definition class_signature : option string := signature_attr (cf_attributes c).
(** The names of the formal type parameters, [["E"]] for [ArrayList<E>]. *)
Definition class_params : list string := default [] (class_type_params <$> class_signature).

(** Aligned with the supertypes, or empty for each of them. *)
Definition class_super_args : list (list string) :=
  match sig ← class_signature; Some (super_type_args sig class_params) with
  | Some args =>
      if bool_decide (length args = length class_supers) then args
      else repeat [] (length class_supers)
  | None => repeat [] (length class_supers)
  end.

Definition class_access : Access := if has_flag (cf_flags c) acc_public then Public else Package.
Definition class_kind : ClassKind :=
  if has_flag (cf_flags c) acc_annotation then KAnnotation
  else if has_flag (cf_flags c) acc_interface then KInterface
  else if has_flag (cf_flags c) acc_enum then KEnum
  else if bool_decide (fqn_of <$> cf_super c = Some "java.lang.Record") then KRecord
  else KClass.

Definition class_structured : list TypeParameter * list TypeRef :=
  let erased := ([], map named class_supers) in
  match sig ← class_signature; parse_class_signature sig class_fqn with
  | Some (params, sups) =>
      if bool_decide (length sups = length class_supers) then (params, sups) else erased
  | None => erased
  end.
(** Member signatures refer to a class parameter by its name. *)
Definition named_type_parameters : list (string * TypeParameter) :=
  zip class_params class_structured.1.

Definition enclosing_class : option string := fst <$> rsplit_once "$" class_fqn.
(** The flag of the entry that names this class itself, in the first
    [InnerClasses] attribute that has one. *)
Fixpoint inner_classes_static (attributes : list Attribute) : option bool :=
  match attributes with
  | [] => None
  | AInnerClasses entries :: l =>
      match List.find (λ e, bool_decide (ic_inner e = cf_this c)) entries with
      | Some e => Some (has_flag (ic_flags e) acc_static)
      | None => inner_classes_static l
      end
  | _ :: l => inner_classes_static l
  end.
Definition class_is_static : bool :=
  default (bool_decide (enclosing_class = None)
           || match class_kind with KInterface | KEnum | KRecord | KAnnotation => true | KClass => false end)
          (inner_classes_static (cf_attributes c)).

Definition class_metadata : ClassMetadata := {|
  cm_id := TNamed class_fqn; cm_kind := class_kind; cm_access := class_access;
  cm_is_abstract := has_flag (cf_flags c) acc_abstract || bool_decide (class_kind = KInterface);
  cm_is_static := class_is_static; cm_enclosing_class := TNamed <$> enclosing_class;
  cm_type_parameters := class_structured.1; cm_supertypes := class_structured.2;
  cm_hierarchy_complete := true; cm_constructors_complete := true |}.

(** ** Its members *)

Definition field_member (f : FieldInfo) : option Member :=
  if negb (field_visible (fi_flags f)) then None else
  let generic_display := sig ← signature_attr (fi_attributes f); field_template sig class_params in
  let is_static := has_flag (fi_flags f) acc_static in
  Some {|
    mb_signature := render_field (fi_descriptor f) +:+ " " +:+ fi_name f;
    mb_template := (λ ty, ty +:+ " " +:+ fi_name f) <$> generic_display;
    mb_name := fi_name f; mb_kind := MkField; mb_is_static := is_static;
    mb_ret_fqn := object_fqn (fi_descriptor f);
    mb_ret_display := Some (default (render_field (fi_descriptor f)) generic_display);
    mb_hidden := false;
    mb_metadata := Some {|
      mm_declaring_class := TNamed class_fqn; mm_access := member_access (fi_flags f);
      mm_is_static := is_static; mm_is_abstract := false; mm_parameters := None;
      mm_result := field_result_type f named_type_parameters;
      mm_type_parameters := []; mm_is_varargs := false |} |}.

(** Compiler-made methods and [<clinit>] and its like are never surfaced. *)
Definition method_skipped (m : MethodInfo) : bool :=
  (has_flag (mi_flags m) acc_synthetic || has_flag (mi_flags m) acc_bridge)
  || (starts_with "<" (mi_name m) && bool_decide (mi_name m ≠ "<init>")).

Definition method_owner (m : MethodInfo) : string :=
  class_fqn +:+ "#" +:+ mi_name m +:+ "(" +:+ erased_descriptor_key (mi_descriptor m) +:+ ")".

Definition own_params_prefix (own : list string) : string :=
  match own with [] => "" | _ => "<" +:+ str_join ", " own +:+ "> " end.

Definition method_signature (m : MethodInfo) : option (list string * string * list string) :=
  sig ← signature_attr (mi_attributes m); method_template sig class_params.

Definition constructor_member (m : MethodInfo) : Member :=
  let '(own, params, _) := method_structured (mi_descriptor m) (signature_attr (mi_attributes m))
                             named_type_parameters (method_owner m) in
  let this_simple := simple_name (cf_this c) in
  {| mb_signature := render_constructor this_simple (mi_descriptor m);
     mb_template := (λ '(own, _, ps), own_params_prefix own +:+ this_simple +:+ "("
                                      +:+ str_join ", " ps +:+ ")") <$> method_signature m;
     mb_name := this_simple; mb_kind := MkConstructor; mb_is_static := false;
     mb_ret_fqn := None; mb_ret_display := None; mb_hidden := negb (method_visible (mi_flags m));
     mb_metadata := Some {|
       mm_declaring_class := TNamed class_fqn; mm_access := member_access (mi_flags m);
       mm_is_static := false; mm_is_abstract := false; mm_parameters := Some params;
       mm_result := Void; mm_type_parameters := own;
       mm_is_varargs := has_flag (mi_flags m) acc_varargs |} |}.

Definition plain_method_member (m : MethodInfo) : Member :=
  let '(own, params, result) := method_structured (mi_descriptor m) (signature_attr (mi_attributes m))
                                  named_type_parameters (method_owner m) in
  {| mb_signature := render_method (mi_name m) (mi_descriptor m);
     mb_template := (λ '(own, ret, ps), own_params_prefix own +:+ ret +:+ " " +:+ mi_name m +:+ "("
                                        +:+ str_join ", " ps +:+ ")") <$> method_signature m;
     mb_name := mi_name m; mb_kind := MkMethod; mb_is_static := has_flag (mi_flags m) acc_static;
     mb_ret_fqn := f ← md_return (mi_descriptor m); object_fqn f;
     mb_ret_display := Some (match method_signature m with
       | Some (_, ret, _) => ret | None => render_return (mi_descriptor m) end);
     mb_hidden := negb (method_visible (mi_flags m));
     mb_metadata := Some {|
       mm_declaring_class := TNamed class_fqn; mm_access := member_access (mi_flags m);
       mm_is_static := has_flag (mi_flags m) acc_static;
       mm_is_abstract := has_flag (mi_flags m) acc_abstract; mm_parameters := Some params;
       mm_result := result; mm_type_parameters := own;
       mm_is_varargs := has_flag (mi_flags m) acc_varargs |} |}.

Definition method_member (m : MethodInfo) : option Member :=
  if method_skipped m then None
  else if bool_decide (mi_name m = "<init>") then Some (constructor_member m)
  else Some (plain_method_member m).

Definition class_members : list Member :=
  omap field_member (cf_fields c) ++ omap method_member (cf_methods c).

Definition class_info : ClassInfo := {|
  ci_fqn := class_fqn; ci_supers := class_supers; ci_type_params := class_params;
  ci_members := class_members; ci_super_type_args := class_super_args;
  ci_metadata := Some class_metadata |}.
End Class.

(** [cafebabe::parse_class_with_options], bytecode off. *)
Class ClassFileReader := { parse_class : list Z → option ClassFile }.

Definition parse `{ClassFileReader} (bytes : list Z) : option ClassInfo :=
  class_info <$> parse_class bytes.

(** ** Descriptors and signatures *)

(** A field descriptor as the class file writes it (JVMS 4.3.2). *)
Definition descriptor_text (d : FieldDescriptor) : list Z :=
  repeat cLBRACK (fd_dimensions d) ++
  match fd_type d with
  | FByte => [66] | FChar => [67] | FDouble => [68] | FFloat => [70] | FInteger => [73]
  | FLong => [74] | FShort => [83] | FBoolean => [90]
  | FObject c => 76 :: as_bytes c ++ [cSEMI]
  end.
Definition descriptor_ok (d : FieldDescriptor) : bool :=
  match fd_type d with
  | FObject c => no_stops [cLT; cSEMI; cDOT] c && utf8_valid (as_bytes c)
  | _ => true
  end.

(** Slashes to dots and back. *)
Lemma dots_roundtrip s :
  no_stops [cLT; cSEMI; cDOT] s = true →
  replace_char "." "/" (replace_char "/" "." s) = s
  ∧ no_stops [cLT; cSEMI; 47] (replace_char "/" "." s) = true.
Proof.
  unfold replace_char, no_stops. induction s as [|a s IH]; [done|].
  cbn [as_bytes forallb]. intros [Ha Hs]%andb_true_iff. destruct (IH Hs) as [IH1 IH2].
  cbn [replace_chars]. destruct (Ascii.eqb_spec "/" a) as [<-|Hd].
  - cbn -[replace_chars as_bytes]. split; [|done]. cbn [replace_chars].
    change (Ascii.eqb "." ".") with true. cbn iota. by rewrite IH1.
  - cbn [replace_chars as_bytes forallb]. rewrite IH2, andb_true_r.
    destruct (Ascii.eqb_spec "." a) as [<-|Hsl]; [by vm_compute in Ha|]. rewrite IH1. split; [done|].
    apply negb_true_iff, bool_decide_eq_false in Ha. apply negb_true_iff, bool_decide_eq_false.
    intros Hin. apply Ha. rewrite !elem_of_cons in *. destruct Hin as [?|[?|[He|?]]]; auto.
    exfalso. apply Hd. pose proof (ascii_of_byte_of_ascii a) as Hx. rewrite He in Hx. by rewrite <- Hx.
Qed.

Lemma print_iter_array name_of k t :
  print_type name_of (Nat.iter k Array t) = repeat cLBRACK k ++ print_type name_of t.
Proof. induction k as [|k IH]; [done|]. cbn. by rewrite <- IH. Qed.
Lemma printable_iter_array name_of scope k t :
  printable name_of scope false (Nat.iter k Array t) = printable name_of scope false t.
Proof. by induction k. Qed.
Lemma depth_iter_array k t : type_depth (Nat.iter k Array t) = (k + type_depth t)%nat.
Proof. induction k as [|k IH]; [done|]. rewrite Nat.iter_succ. cbn [type_depth]. by rewrite IH. Qed.

Lemma descriptor_printed name_of scope d : descriptor_ok d = true →
  print_type name_of (descriptor_type_ref d) = descriptor_text d
  ∧ printable name_of scope false (descriptor_type_ref d) = true
  ∧ type_depth (descriptor_type_ref d) = S (fd_dimensions d).
Proof.
  unfold descriptor_type_ref, descriptor_text, descriptor_ok. cbn zeta. intros Hok.
  rewrite print_iter_array, printable_iter_array, depth_iter_array.
  destruct (fd_type d) as [| | | | | | | |c]; try (split_and!; [done|done|cbn; lia]).
  apply andb_true_iff in Hok as [Hs Hu]. destruct (dots_roundtrip c Hs) as [H1 H2].
  unfold named, fqn_of. cbn [print_type printable type_depth forallb binary_name name_ok map foldr].
  rewrite H1, H2, Hu. split_and!; [done|done|lia].
Qed.

(** ** Type variables *)

Lemma param_loop_indexed {A} (ok : nat → A → Prop) (one : list A → string → list Z → A * list Z) guard :
  (∀ out name s, ok (length out) (one out name s).1) →
  ∀ out s, (∀ i x, out !! i = Some x → ok i x) →
  ∀ i x, (param_loop guard one out s).1 !! i = Some x → ok i x.
Proof.
  intros Hone. induction guard as [|g IH]; intros out s Hout; cbn [param_loop];
    (destruct (peek s) as [b|]; [|done]); [done|].
  case_if; [done|]. destruct (scan_until _ s) as [w s1].
  specialize (Hone out (from_utf8_lossy w) s1). destruct (one out _ s1) as [a s2]. cbn in Hone.
  apply IH. intros i x [Hi|[Hi Hx]]%lookup_app_Some; [eauto|].
  apply list_lookup_singleton_Some in Hx as [Hi0 ->]. by replace i with (length out) by lia.
Qed.

Lemma type_params_ids owner scope s i n tp :
  (type_params_structured owner scope s).1 !! i = Some (n, tp) →
  tp_id tp = mkTypeVariableId owner i.
Proof.
  unfold type_params_structured, param_list. case_bool_decide; [|done].
  intros Hi. apply (param_loop_indexed (λ i (x : string * TypeParameter),
    tp_id x.2 = mkTypeVariableId owner i) _ 64) with (i := i) (x := (n, tp)) in Hi; [done| |done].
  intros out name s1. by destruct (bounds_loop _ _ s1) as [bs s2].
Qed.

(** The class's parameters under their names, or none when the metadata fell
    back to the erased class. *)
Lemma named_type_parameters_eq c :
  class_structured c = ([], map named (class_supers c)) ∧ named_type_parameters c = []
  ∨ (named_type_parameters c).*1 = class_params c
    ∧ (named_type_parameters c).*2 = (class_structured c).1
    ∧ ∀ i n tp, named_type_parameters c !! i = Some (n, tp) → tp_id tp = mkTypeVariableId (class_fqn c) i.
Proof.
  unfold named_type_parameters, class_structured, class_params.
  destruct (class_signature c) as [sig|]; [|by left]. cbn [mbind option_bind].
  destruct (parse_class_signature sig _) as [[ps sups]|] eqn:E;
    [|left; split; [done|apply zip_with_nil_r]].
  case_bool_decide; [|left; split; [done|apply zip_with_nil_r]].
  right. unfold parse_class_signature in E. cbn [fmap option_fmap option_map default].
  unfold class_type_params. destruct (type_params_twins [] (class_fqn c) [] (as_bytes sig)) as [-> _].
  pose proof (type_params_ids (class_fqn c) [] (as_bytes sig)) as Hids.
  destruct (type_params_structured _ [] _) as [l s].
  destruct (supers_loop 64 [l] s) as [l0|]; [|done]. injection E as <- <-.
  change (l, s).1 with l in *. change (l.*2, l0).1 with (l.*2).
  unfold id. rewrite zip_fst_snd.
  split_and!; [done..|exact Hids].
Qed.

Lemma position_None n l : ∀ i, position n l i = None ↔ n ∉ l.
Proof.
  induction l as [|p l IH]; intros i; cbn [position]; [split; [set_solver|done]|].
  case_bool_decide; [split; [done|set_solver]|]. rewrite IH. set_solver.
Qed.

(** Both readings take the first parameter of that name. *)
Lemma find_position n (l : list (string * TypeParameter)) : ∀ k,
  match position n l.*1 k with
  | Some i => ∃ j tp, i = k + Z.of_nat j ∧ l !! j = Some (n, tp)
                      ∧ List.find (λ nt, bool_decide (nt.1 = n)) l = Some (n, tp)
  | None => List.find (λ nt, bool_decide (nt.1 = n)) l = None
  end.
Proof.
  induction l as [|[m tp] l IH]; intros k; cbn [fmap list_fmap position List.find fst]; [done|].
  case_bool_decide as Hm.
  - subst m. exists 0%nat, tp. split_and!; [lia|done|done].
  - specialize (IH (k + 1)). destruct (position n l.*1 (k + 1)); [|done].
    destruct IH as (j & tp' & -> & Hj & Hf). exists (S j), tp'. split_and!; [lia|done|done].
Qed.

(** ** What the members say *)

(** The flags a surfaced member keeps decide its access. *)
Lemma member_access_visible flags :
  has_flag flags acc_public || has_flag flags acc_protected = true
  ↔ member_access flags = Public ∨ member_access flags = Protected.
Proof.
  unfold member_access. destruct (has_flag flags acc_public), (has_flag flags acc_protected); cbn;
    try (split; auto; fail). destruct (has_flag flags acc_private); split; intros H; intuition discriminate.
Qed.
Lemma skipped_visible m : method_skipped m = false →
  method_visible (mi_flags m) = has_flag (mi_flags m) acc_public || has_flag (mi_flags m) acc_protected.
Proof.
  unfold method_skipped, method_visible. intros [[-> ->]%orb_false_iff _]%orb_false_iff.
  by rewrite !andb_true_r.
Qed.

Lemma method_structured_length d signature cps owner :
  length (method_structured d signature cps owner).1.2 = length (md_parameters d).
Proof.
  unfold method_structured. destruct (signature ≫= _) as [[[tps ret] ps]|]; [case_bool_decide as H|];
    cbn [fst snd]; [done|by rewrite length_map..].
Qed.
Lemma method_structured_ids d signature cps owner i tp :
  (method_structured d signature cps owner).1.1 !! i = Some tp → tp_id tp = mkTypeVariableId owner i.
Proof.
  unfold method_structured. destruct signature as [sig|]; [|done]. cbn [mbind option_bind].
  unfold parse_method_signature.
  pose proof (type_params_ids owner [] (as_bytes sig)) as Hids.
  destruct (type_params_structured owner [] _) as [mps s]. change (mps, s).1 with mps in Hids.
  destruct (method_parts _ Void s).1 as [[ret ps]|]; [|done]. case_bool_decide; [|done]. cbn [fst].
  rewrite list_lookup_fmap. intros ([n tp'] & Hi & ->)%fmap_Some. by apply (Hids i n).
Qed.

(** What every member tells about its class and itself. *)
Definition member_common (c : ClassFile) (mb : Member) (md : MemberMetadata) : Prop :=
  mb_metadata mb = Some md ∧ mm_declaring_class md = TNamed (class_fqn c)
  ∧ mb_is_static mb = mm_is_static md
  ∧ (mb_hidden mb = false ↔ mm_access md = Public ∨ mm_access md = Protected).

(** A member and the part of the class file it stands for. *)
Definition member_of_field (c : ClassFile) (f : FieldInfo) (mb : Member) : Prop :=
  mb_kind mb = MkField ∧ mb_name mb = fi_name f
  ∧ ∃ md, member_common c mb md ∧ mb_hidden mb = false
      ∧ mm_parameters md = None ∧ mm_type_parameters md = [].
Definition member_of_method (c : ClassFile) (m : MethodInfo) (mb : Member) : Prop :=
  (mi_name m = "<init>" ∧ mb_kind mb = MkConstructor ∧ mb_name mb = simple_name (cf_this c)
     ∧ mb_ret_display mb = None ∧ mb_is_static mb = false
   ∨ starts_with "<" (mi_name m) = false ∧ mb_kind mb = MkMethod ∧ mb_name mb = mi_name m
     ∧ is_Some (mb_ret_display mb))
  ∧ ∃ md ps, member_common c mb md
      ∧ mm_parameters md = Some ps ∧ length ps = length (md_parameters (mi_descriptor m))
      ∧ (mb_kind mb = MkConstructor → mm_result md = Void)
      ∧ ∀ i tp, mm_type_parameters md !! i = Some tp → tp_id tp = mkTypeVariableId (method_owner c m) i.

Lemma field_member_ok c f mb : field_member c f = Some mb → member_of_field c f mb.
Proof.
  unfold field_member. destruct (field_visible (fi_flags f)) eqn:Hv; [|done]. intros [= <-].
  apply andb_true_iff in Hv as [Hv _]. split_and!; [done..|].
  eexists. split; [split; [reflexivity|]|done]. split_and!; [done..|]. cbn.
  split; [|done]. intros _. by apply member_access_visible.
Qed.

Lemma method_member_ok c m mb : method_member c m = Some mb → member_of_method c m mb.
Proof.
  unfold method_member. destruct (method_skipped m) eqn:Hs; [done|]. intros Hm.
  pose proof (method_structured_length (mi_descriptor m) (signature_attr (mi_attributes m))
    (named_type_parameters c) (method_owner c m)) as Hlen.
  pose proof (method_structured_ids (mi_descriptor m) (signature_attr (mi_attributes m))
    (named_type_parameters c) (method_owner c m)) as Hids.
  pose proof (member_access_visible (mi_flags m)) as Hacc. rewrite <- (skipped_visible m Hs) in Hacc.
  unfold method_skipped in Hs. apply orb_false_iff in Hs as [_ Hlt].
  case_bool_decide as Hi; injection Hm as <-; unfold constructor_member, plain_method_member;
    destruct (method_structured _ _ _ _) as [[own ps] res]; cbn [fst snd] in Hlen, Hids.
  - split; [left; by split_and!|]. eexists _, ps. split; [split; [reflexivity|]|done].
    split_and!; [done..|]. cbn. by rewrite negb_false_iff.
  - split; [right; split_and!|]; [|done..|].
    + apply andb_false_iff in Hlt as [|Hlt]; [done|]. by apply bool_decide_eq_false in Hlt.
    + eexists _, ps. split; [split; [reflexivity|]|done].
      split_and!; [done..|]. cbn. by rewrite negb_false_iff.
Qed.

(** Members keep the order of the file, fields first. *)
Lemma omap_Forall2 {A B} (f : A → option B) (R : A → B → Prop) l :
  (∀ x y, f x = Some y → R x y) →
  Forall2 R (filter (λ x, is_Some (f x)) l) (omap f l).
Proof.
  intros Hf. induction l as [|x l IH]; [constructor|]. rewrite filter_cons. cbn [omap list_omap].
  destruct (f x) as [y|] eqn:E; case_decide as Hd; [constructor; auto|by destruct Hd|by destruct Hd|done].
Qed.

(** The members are exactly the class file's visible fields and its methods
    other than compiler-made ones and [<clinit>] and its like, in file order.
    Each names its class, is hidden exactly when it is neither public nor
    protected, and a callable has one parameter type per descriptor parameter
    whatever its [Signature] says, its own type variables numbered under its
    owner; a constructor goes by the class's simple name and yields nothing. *)
Theorem class_members_exact c :
  ∃ fs ms, ci_members (class_info c) = fs ++ ms
  ∧ Forall2 (member_of_field c) (filter (λ f, field_visible (fi_flags f) = true) (cf_fields c)) fs
  ∧ Forall2 (member_of_method c) (filter (λ m, method_skipped m = false) (cf_methods c)) ms.
Proof.
  exists (omap (field_member c) (cf_fields c)), (omap (method_member c) (cf_methods c)).
  split; [done|]. split.
  - rewrite (list_filter_iff _ (λ f, is_Some (field_member c f))).
    + apply omap_Forall2, field_member_ok.
    + intros f. unfold field_member. destruct (field_visible _); cbn; split; eauto; [done|by intros []].
  - rewrite (list_filter_iff _ (λ m, is_Some (method_member c m))).
    + apply omap_Forall2, method_member_ok.
    + intros m. unfold method_member. destruct (method_skipped m); [split; [done|by intros []]|].
      case_bool_decide; split; eauto.
Qed.

Lemma class_super_args_length c : length (class_super_args c) = length (class_supers c).
Proof.
  unfold class_super_args. destruct (class_signature c ≫= _) as [args|]; [case_bool_decide; [done|]|];
    apply repeat_length.
Qed.

(** Whatever the class's [Signature] attribute holds, every direct supertype
    has its own entry in the type arguments and in the structured supertypes,
    and a member's use of a class type variable is read the same way by both
    forms: as the [i]-th parameter, shown [{i}], or, when the metadata fell
    back to the erased class or no parameter has that name, as unknown. *)
Theorem class_generics_aligned c name :
  length (ci_super_type_args (class_info c)) = length (ci_supers (class_info c))
  ∧ length (cm_supertypes (class_metadata c)) = length (ci_supers (class_info c))
  ∧ match lookup_var [named_type_parameters c] name with
    | TVariable v => ∃ i : nat, v = mkTypeVariableId (class_fqn c) i
        ∧ ci_type_params (class_info c) !! i = Some name
        ∧ var (ci_type_params (class_info c)) [] name = "{" +:+ pretty (Z.of_nat i) +:+ "}"
    | Unknown => name ∉ ci_type_params (class_info c)
        ∨ cm_type_parameters (class_metadata c) = []
          ∧ cm_supertypes (class_metadata c) = map named (ci_supers (class_info c))
    | _ => False
    end.
Proof.
  cbn [ci_super_type_args ci_supers ci_type_params cm_supertypes cm_type_parameters class_info class_metadata].
  split_and!.
  - apply class_super_args_length.
  - unfold class_structured. destruct (class_signature c ≫= _) as [[ps sups]|]; [case_bool_decide; [done|]|];
      apply length_map.
  - unfold lookup_var. cbn [rev app omap list_omap].
    destruct (named_type_parameters_eq c) as [[Hs ->]|(Hn & _ & Hids)]; [cbn; right; by rewrite Hs|].
    pose proof (find_position name (named_type_parameters c) 0) as Hf. rewrite Hn in Hf.
    destruct (position name (class_params c) 0) as [i|] eqn:Hp.
    + destruct Hf as (j & tp & Hij & Hj & ->). cbn. exists j. split_and!; [by eapply Hids| |].
      * by rewrite <- Hn, list_lookup_fmap, Hj.
      * unfold var. rewrite Hp. cbn. by replace i with (Z.of_nat j) by lia.
    + rewrite Hf. cbn. left. by apply position_None in Hp.
Qed.

(** An erased descriptor and the same text read by the generic signature
    parser denote the same type, so a member means the same with and without
    a (non-generic) [Signature] attribute. *)
Theorem descriptor_reads_as_signature d scope rest :
  descriptor_ok d = true → (fd_dimensions d < MAX_SIG_DEPTH)%nat →
  type_parse scope MAX_SIG_DEPTH (descriptor_text d ++ rest) = (Some (descriptor_type_ref d), rest).
Proof.
  intros Hok Hd. destruct (descriptor_printed (λ _, "") scope d Hok) as (<- & Hp & Hdep).
  apply (type_reads_back (λ _, "") scope (descriptor_type_ref d)); [rewrite Hdep; lia|done].
Qed.

(** Overloads whose parameter types share simple names share their type
    variables' identity, which the comment on [erased_descriptor_key] rules
    out. *)
Lemma overload_owners_collide : ∃ c m1 m2 mb1 mb2 md1 md2,
  cf_methods c = [m1; m2] ∧ mi_name m1 = mi_name m2 ∧ mi_descriptor m1 ≠ mi_descriptor m2
  ∧ ci_members (class_info c) = [mb1; mb2]
  ∧ mb_metadata mb1 = Some md1 ∧ mb_metadata mb2 = Some md2
  ∧ tp_id <$> mm_type_parameters md1 = tp_id <$> mm_type_parameters md2
  ∧ mm_type_parameters md1 ≠ [] ∧ mm_type_parameters md1 ≠ mm_type_parameters md2.
Proof.
  set (meth cls bound := mkMethodInfo 1 "put"
    (mkMethodDescriptor [mkFieldDescriptor 0 (FObject (cls : string))] None)
    [ASignature ("<T:L" +:+ bound +:+ ";>(L" +:+ cls +:+ ";)V")]).
  exists (mkClassFile 1 "demo/Box" (Some "java/lang/Object") [] []
    [meth "java/util/List" "a/A"; meth "java/awt/List" "b/B"] []).
  vm_compute. do 6 eexists. split_and!; try reflexivity; discriminate.
Qed.

(** ** Instances *)

Lemma descriptor_reads_as_signature_witness :
  type_parse [] MAX_SIG_DEPTH (as_bytes "[[Ljava/util/List;V")
  = (Some (Array (Array (named "java.util.List"))), [86]).
Proof.
  exact (descriptor_reads_as_signature (mkFieldDescriptor 2 (FObject "java/util/List")) [] [86]
           ltac:(vm_compute; reflexivity) ltac:(vm_compute; lia)).
Defined.

Definition ex_class : ClassFile := mkClassFile 1 "demo/Outer$Box" (Some "java/lang/Object") ["java/lang/Comparable"]
  [mkFieldInfo 1 "item" (mkFieldDescriptor 0 (FObject "java/lang/Object")) [ASignature "TE;"];
   mkFieldInfo 2 "secret" (mkFieldDescriptor 0 FInteger) []]
  [mkMethodInfo 8 "<clinit>" (mkMethodDescriptor [] None) [];
   mkMethodInfo 1 "<init>" (mkMethodDescriptor [mkFieldDescriptor 1 FChar] None) [];
   mkMethodInfo 2 "get" (mkMethodDescriptor [] (Some (mkFieldDescriptor 0 (FObject "java/lang/Object"))))
     [ASignature "()TE;"]]
  [AInnerClasses [mkInnerClassEntry "demo/Outer$Box" 9];
   ASignature "<E:Ljava/lang/Object;>Ljava/lang/Object;Ljava/lang/Comparable<TE;>;"].
Example ex_class_info :
  let ci := class_info ex_class in
  (λ mb, (mb_name mb, mb_kind mb, mb_signature mb, mb_template mb, mb_hidden mb)) <$> ci_members ci
  = [("item", MkField, "Object item", Some "{0} item", false);
     ("Outer.Box", MkConstructor, "Outer.Box(char[])", None, false);
     ("get", MkMethod, "Object get()", Some "{0} get()", true)]
  ∧ ci_super_type_args ci = [[]; ["{0}"]]
  ∧ (cm_is_static <$> ci_metadata ci) = Some true.
Proof. vm_compute. split_and!; reflexivity. Qed.
