(* ===== verification/Index.v ===== *)
(** * The type-name index ([crates/classpath/src/index.rs])

    Built from the entry names of every archive; serves type-name completion
    by case-insensitive prefix, and the children of a package.  [BTreeSet] and
    [BTreeMap] are finite sets and maps, a set's iteration its sorted list. *)
From Stdlib Require Import Ascii.
From stdpp Require Import sorting.
From S2P Require Import Prelude RustStd Order.

Record TypeEntry := mkTypeEntry { te_simple : string; te_fqn : string; te_import_path : string }.
Global Instance TypeEntry_eq_dec : EqDecision TypeEntry.
Proof. solve_decision. Defined.

Definition HIDDEN_JDK_NAMESPACES : list string :=
  ["sun"; "com.sun"; "jdk.internal"; "oracle"; "netscape"; "apple"; "com.apple"].

Record TypeIndex := mkTypeIndex {
  ti_entries : list TypeEntry; ti_lower : list string;
  ti_by_package : gmap string (list nat); ti_packages : gset string }.

(** ** Names *)

(** [java/util/Map$Entry] into [java.util] and [Map$Entry]. *)
Definition split_internal (internal : string) : option (string * string) :=
  if bool_decide (internal = "") then None else
  match rsplit_once "/" internal with
  | Some (pkg, last) => Some (replace_char "/" "." pkg, last)
  | None => Some ("", internal)
  end.

Definition starts_with_digit (s : string) : bool :=
  match as_bytes s with b :: _ => is_ascii_digit b | [] => false end.
Definition hidden_namespace (package : string) : bool :=
  existsb (λ ns, bool_decide (package = ns) || starts_with (ns +:+ ".") package) HIDDEN_JDK_NAMESPACES.

Definition offerable (package last : string) (from_jdk : bool) : bool :=
  if bool_decide (last = "module-info") || bool_decide (last = "package-info") then false
  else if contains_str "$$" last then false
  else
    let simple := split_last "$" last in
    if bool_decide (simple = "") || starts_with_digit simple then false
    else negb from_jdk || negb (hidden_namespace package).

Definition entry_of (package last : string) : TypeEntry :=
  let fqn := if bool_decide (package = "") then last else package +:+ "." +:+ last in
  mkTypeEntry (split_last "$" last) fqn (replace_char "$" "." fqn).

(** Everything up to the last dot. *)
Definition package_of (fqn : string) : string :=
  match rsplit_once "." fqn with Some (p, _) => p | None => "" end.

(** ** Building *)

(** Register a package and its ancestors, until one is already there. *)
Fixpoint register_package (fuel : nat) (pkg : string) (packages : gset string) : gset string :=
  match fuel with
  | O => packages
  | S f =>
      if bool_decide (pkg = "") then packages
      else if bool_decide (pkg ∈ packages) then packages
      else register_package f (package_of pkg) ({[pkg]} ∪ packages)
  end.

Definition offered (name : string * bool) : option (string * TypeEntry) :=
  '(package, last) ← split_internal name.1;
  if offerable package last name.2 then Some (package, entry_of package last) else None.

Record BuildState := mkBuildState {
  bs_seen : gset string; bs_entries : list TypeEntry; bs_packages : gset string }.
Definition build_step (st : BuildState) (name : string * bool) : BuildState :=
  match offered name with
  | None => st
  | Some (package, e) =>
      if bool_decide (te_fqn e ∈ bs_seen st) then st
      else mkBuildState ({[te_fqn e]} ∪ bs_seen st) (bs_entries st ++ [e])
             (register_package (S (String.length package)) package (bs_packages st))
  end.

Definition lower_simple (e : TypeEntry) : string := to_ascii_lowercase (te_simple e).
Definition entry_compare (a b : TypeEntry) : comparison :=
  lex (String.compare (lower_simple a) (lower_simple b)) (String.compare (te_fqn a) (te_fqn b)).

Definition push_index (m : gmap string (list nat)) (ie : nat * TypeEntry) : gmap string (list nat) :=
  partial_alter (λ o, Some (default [] o ++ [ie.1])) (package_of (te_fqn ie.2)) m.

Definition build (names : list (string * bool)) : TypeIndex :=
  let st := fold_left build_step names (mkBuildState ∅ [] ∅) in
  let entries := sort_by entry_compare (bs_entries st) in
  mkTypeIndex entries (map lower_simple entries)
    (fold_left push_index (zip (seq 0 (length entries)) entries) ∅) (bs_packages st).

(** ** Queries *)

Definition best_compare (a b : TypeEntry) : comparison :=
  lex (Nat.compare (String.length (te_simple a)) (String.length (te_simple b)))
    (lex (String.compare (te_simple a) (te_simple b)) (String.compare (te_fqn a) (te_fqn b))).

Definition types_with_prefix (ix : TypeIndex) (prefix : string) (limit : nat) : list TypeEntry * bool :=
  if bool_decide (prefix = "") || bool_decide (limit = 0%nat) then ([], false) else
  let needle := to_ascii_lowercase prefix in
  let start := partition_point (λ s, str_lt s needle) (ti_lower ix) in
  let n := length (take_while (starts_with needle) (drop start (ti_lower ix))) in
  let hits := take n (drop start (ti_entries ix)) in
  (take limit (sort_by best_compare hits), bool_decide (limit < length hits)%nat).

Definition push_segment (prefix : string) (subpackages : list string) (pkg : string) : list string :=
  let segment := split_first "." (str_drop (String.length prefix) pkg) in
  if bool_decide (last subpackages = Some segment) then subpackages else subpackages ++ [segment].

Definition simple_compare (a b : TypeEntry) : comparison :=
  lex (String.compare (te_simple a) (te_simple b)) (String.compare (te_fqn a) (te_fqn b)).

Definition child_prefix (package : string) : string :=
  if bool_decide (package = "") then "" else package +:+ ".".

Definition package_children (ix : TypeIndex) (package : string) : list string * list TypeEntry :=
  let prefix := child_prefix package in
  let sorted := sort_by String.compare (elements (ti_packages ix)) in
  let from := drop (partition_point (λ s, str_lt s prefix) sorted) sorted in
  let subpackages := fold_left (push_segment prefix) (take_while (starts_with prefix) from) [] in
  let types := omap (λ i, ti_entries ix !! i) (default [] (ti_by_package ix !! package)) in
  (subpackages, sort_by simple_compare types).

(** ** The index as a set of offers

    What [build] is to keep of the names: the first offer of every fully
    qualified name, with its package. *)

Fixpoint first_offers (seen : gset string) (l : list (string * TypeEntry)) : list (string * TypeEntry) :=
  match l with
  | [] => []
  | (p, e) :: l' =>
      if bool_decide (te_fqn e ∈ seen) then first_offers seen l'
      else (p, e) :: first_offers ({[te_fqn e]} ∪ seen) l'
  end.
Definition offers (names : list (string * bool)) : list (string * TypeEntry) :=
  first_offers ∅ (omap offered names).

Definition register_all (l : list (string * TypeEntry)) (packages : gset string) : gset string :=
  fold_left (λ s pe, register_package (S (String.length pe.1)) pe.1 s) l packages.

Lemma build_loop names : ∀ st,
  let offs := first_offers (bs_seen st) (omap offered names) in
  let st' := fold_left build_step names st in
  bs_entries st' = bs_entries st ++ offs.*2 ∧ bs_packages st' = register_all offs (bs_packages st).
Proof.
  induction names as [|n names IH]; intros st; [cbn; by rewrite app_nil_r|].
  cbn [omap list_omap fold_left]. unfold build_step at 2 4. destruct (offered n) as [[p e]|]; [|apply IH].
  cbn [first_offers]. case_bool_decide; [apply IH|].
  match goal with |- context [fold_left build_step names ?s] => specialize (IH s) end.
  cbn in *. destruct IH as [-> ->]. by rewrite <- app_assoc.
Qed.

Lemma first_offers_nodup l : ∀ seen,
  NoDup (te_fqn <$> (first_offers seen l).*2) ∧ ∀ e, e ∈ (first_offers seen l).*2 → te_fqn e ∉ seen.
Proof.
  induction l as [|[p e] l IH]; intros seen; cbn [first_offers]; [split; [constructor|by intros ? ?%elem_of_nil]|].
  case_bool_decide; [apply IH|]. destruct (IH ({[te_fqn e]} ∪ seen)) as [Hnd Hin]. cbn. split.
  - constructor; [|done]. intros (e' & He & Hx)%list_elem_of_fmap. apply Hin in Hx. set_solver.
  - intros e' [->|He']%elem_of_cons; [done|]. apply Hin in He'. set_solver.
Qed.
Lemma first_offers_spec l : ∀ seen p e, (p, e) ∈ first_offers seen l ↔
  te_fqn e ∉ seen ∧ ∃ before after, l = before ++ (p, e) :: after ∧ te_fqn e ∉ te_fqn <$> before.*2.
Proof.
  induction l as [|[q d] l IH]; intros seen p e; cbn [first_offers].
  { split; [by intros ?%elem_of_nil|]. intros (_ & [|] & ? & [=] & _). }
  assert (Hskip : te_fqn d ≠ te_fqn e → (∃ before after, l = before ++ (p, e) :: after ∧ te_fqn e ∉ te_fqn <$> before.*2)
    ↔ (∃ before after, (q, d) :: l = before ++ (p, e) :: after ∧ te_fqn e ∉ te_fqn <$> before.*2)).
  { intros Hne. split.
    - intros (b & a & -> & Hb). exists ((q, d) :: b), a. cbn. split; [done|]. set_solver.
    - intros ([|x b] & a & E & Hb); [by injection E as -> -> ->|]. injection E as <- ->.
      exists b, a. split; [done|]. cbn in Hb. set_solver. }
  case_bool_decide as Hd.
  - rewrite IH. split; intros [Hs Hx]; (split; [done|]); (apply Hskip; [intros Heq; by rewrite Heq in Hd|done]).
  - rewrite elem_of_cons, IH. split.
    + intros [[= -> ->]|[Hs Hx]]; [|].
      * split; [done|]. exists [], l. split; [done|]. by intros ?%elem_of_nil.
      * split; [set_solver|]. apply Hskip; [set_solver|done].
    + intros [Hs Hx]. destruct (decide (te_fqn d = te_fqn e)) as [Heq|Hne].
      * left. destruct Hx as ([|x b] & a & E & Hb); [by injection E as -> -> ->|]. injection E as <- ->.
        exfalso. apply Hb. cbn. rewrite Heq. set_solver.
      * right. split; [set_solver|]. by apply Hskip.
Qed.

Lemma offered_iff n p d : offered n = Some (p, d) ↔ ∃ last,
  split_internal n.1 = Some (p, last) ∧ offerable p last n.2 = true ∧ d = entry_of p last.
Proof.
  unfold offered. destruct (split_internal n.1) as [[q l]|]; cbn; [|naive_solver].
  destruct (offerable q l n.2) eqn:E; [|split; [done|intros (? & [= <- <-] & ? & _); congruence]].
  split; [intros [= <- <-]; eauto|by intros (? & [= <- <-] & _ & ->)].
Qed.

Definition offered_entries (names : list (string * bool)) : list TypeEntry := (offers names).*2.

Lemma build_entries_perm names : ti_entries (build names) ≡ₚ offered_entries names.
Proof.
  unfold build. cbn [ti_entries]. rewrite sort_by_perm.
  by destruct (build_loop names (mkBuildState ∅ [] ∅)) as [-> _].
Qed.
Lemma offered_unique names x y :
  x ∈ offered_entries names → y ∈ offered_entries names → te_fqn x = te_fqn y → x = y.
Proof.
  intros Hx Hy Heq. destruct (first_offers_nodup (omap offered names) ∅) as [Hnd _].
  change (first_offers ∅ (omap offered names)).*2 with (offered_entries names) in Hnd.
  apply list_elem_of_lookup in Hx as [i Hi], Hy as [j Hj].
  assert (i = j) as ->; [|congruence].
  eapply NoDup_lookup; [exact Hnd|by rewrite list_lookup_fmap, Hi|rewrite list_lookup_fmap, Hj; cbn; congruence].
Qed.

(** Each comparison ends with the name, so it tells any two entries apart. *)
Lemma lex_eq c1 c2 : lex c1 c2 = Eq → c2 = Eq.
Proof. by destruct c1. Qed.
Lemma compare_fqn names (cmp : TypeEntry → TypeEntry → comparison) (l : list TypeEntry) :
  (∀ x y, cmp x y = Eq → te_fqn x = te_fqn y) → (∀ x, x ∈ l → x ∈ offered_entries names) →
  ∀ x y, x ∈ l → y ∈ l → cmp x y = Eq → x = y.
Proof. intros Hc Hl x y Hx Hy Hxy. apply (offered_unique names); auto. Qed.

Global Instance entry_compare_comparator : Comparator entry_compare.
Proof. apply lex_comparator; apply cmp_on_comparator; apply _. Qed.
Global Instance best_compare_comparator : Comparator best_compare.
Proof.
  apply lex_comparator; [apply (cmp_on_comparator (λ e, String.length (te_simple e))); apply _|].
  apply lex_comparator; apply cmp_on_comparator; apply _.
Qed.
Global Instance simple_compare_comparator : Comparator simple_compare.
Proof. apply lex_comparator; apply cmp_on_comparator; apply _. Qed.

Lemma entries_key_sorted names : key_sorted lower_simple (ti_entries (build names)).
Proof.
  unfold key_sorted, build. cbn [ti_entries].
  assert (Hs := sort_by_sorted entry_compare (bs_entries (fold_left build_step names (mkBuildState ∅ [] ∅)))).
  revert Hs. generalize (sort_by entry_compare (bs_entries (fold_left build_step names (mkBuildState ∅ [] ∅)))).
  intros l. induction 1 as [|x l _ IH Hx]; constructor; [done|].
  eapply Forall_impl; [exact Hx|]. intros y. unfold cmp_le, entry_compare, lex. by destruct (String.compare _ _).
Qed.

(** ** Packages *)

Lemma register_mem f : ∀ p s q, q ∈ register_package f p s →
  q ∈ s ∨ (q ≠ "" ∧ ∃ r, p = q +:+ r ∧ (r = "" ∨ starts_with "." r = true)).
Proof.
  induction f as [|f IH]; intros p s q; cbn [register_package]; [auto|].
  case_bool_decide; [auto|]. case_bool_decide; [auto|].
  intros [Hq|(Hne & r & Hr & Hd)]%IH.
  - apply elem_of_union in Hq as [->%elem_of_singleton|]; [|auto]. right. split; [done|].
    exists "". rewrite str_app_nil_r. auto.
  - right. split; [done|]. unfold package_of in Hr. destruct (rsplit_once "." p) as [[a b]|] eqn:E.
    + subst a. apply rsplit_once_Some in E as [-> _]. exists (r +:+ "." +:+ b). rewrite str_app_assoc.
      split; [done|]. right. destruct Hd as [->|[r' ->]%starts_with_spec]; by apply starts_with_spec; eexists.
    + destruct q; [done|discriminate].
Qed.
Lemma register_subset f p s : s ⊆ register_package f p s.
Proof.
  revert p s. induction f as [|f IH]; intros p s; cbn [register_package]; [done|].
  case_bool_decide; [done|]. case_bool_decide; [done|]. etrans; [|apply IH]. set_solver.
Qed.
Lemma register_self f p s : p ≠ "" → p ∈ register_package (S f) p s.
Proof.
  intros Hp. cbn [register_package]. rewrite bool_decide_false by done. case_bool_decide; [done|].
  apply register_subset. set_solver.
Qed.

Lemma register_all_mem l : ∀ s q,
  (q ∈ register_all l s → q ∈ s ∨ (q ≠ "" ∧ ∃ p e r, (p, e) ∈ l ∧ p = q +:+ r ∧ (r = "" ∨ starts_with "." r = true)))
  ∧ s ⊆ register_all l s ∧ ∀ p e, (p, e) ∈ l → p ≠ "" → p ∈ register_all l s.
Proof.
  induction l as [|[p0 e0] l IH]; intros s q; cbn [register_all fold_left].
  { split_and!; [auto|done|by intros ? ? ?%elem_of_nil]. }
  change (fold_left _ l ?s0) with (register_all l s0). destruct (IH (register_package (S (String.length p0)) p0 s) q) as (H1 & H2 & H3).
  split_and!.
  - intros [[?|(Hne & r & Hr)]%register_mem|(Hne & p & e & r & Hin & Hr)]%H1; [auto| |]; right; (split; [done|]).
    + exists p0, e0, r. split; [set_solver|done].
    + exists p, e, r. split; [set_solver|done].
  - etrans; [apply register_subset|done].
  - intros p e [[= -> ->]|Hin]%elem_of_cons Hne; [|eauto]. apply H2. by apply register_self.
Qed.

(** ** Children of a package *)

Definition segment_of (prefix pkg : string) : string := split_first "." (str_drop (String.length prefix) pkg).

Lemma push_segments_mem prefix pkgs : ∀ acc x,
  x ∈ fold_left (push_segment prefix) pkgs acc ↔ x ∈ acc ∨ x ∈ map (segment_of prefix) pkgs.
Proof.
  induction pkgs as [|p pkgs IH]; intros acc x; cbn [fold_left map]; [set_solver|].
  rewrite IH. unfold push_segment. change (split_first "." _) with (segment_of prefix p).
  case_bool_decide as Hl; [|set_solver].
  apply last_Some in Hl as [acc' ->]. set_solver.
Qed.

Definition str_strict (x y : string) : Prop := String.compare x y = Lt.

Lemma push_segments_sorted prefix pkgs : ∀ acc,
  StronglySorted str_strict acc →
  (∀ x y, x ∈ acc → y ∈ map (segment_of prefix) pkgs → cmp_le String.compare x y) →
  StronglySorted (cmp_le String.compare) (map (segment_of prefix) pkgs) →
  StronglySorted str_strict (fold_left (push_segment prefix) pkgs acc).
Proof.
  induction pkgs as [|p pkgs IH]; intros acc Ha Hle Hs; cbn [fold_left map] in *; [done|].
  apply StronglySorted_cons in Hs as [Hp Hs]. unfold push_segment at 2.
  change (split_first "." _) with (segment_of prefix p).
  case_bool_decide as Hl; [apply IH; [done|set_solver|done]|]. apply IH; [| |done].
  - apply StronglySorted_app_2; [|done|repeat constructor].
    intros x y Hx ->%list_elem_of_singleton.
    assert (Hxp : cmp_le String.compare x (segment_of prefix p)) by (apply Hle; set_solver).
    unfold str_strict. destruct (String.compare x (segment_of prefix p)) eqn:E; [|done|done]. exfalso.
    apply String.compare_eq_iff in E. subst x. apply Hl.
    destruct acc as [|z acc _] using rev_ind; [set_solver|]. rewrite last_snoc. f_equal.
    apply elem_of_app in Hx as [Hx|Hx%list_elem_of_singleton]; [|done].
    apply StronglySorted_app in Ha as (Hz & _ & _). specialize (Hz (segment_of prefix p) z Hx ltac:(set_solver)).
    assert (Hzp : cmp_le String.compare z (segment_of prefix p)) by (apply Hle; set_solver).
    unfold str_strict in Hz. unfold cmp_le in Hzp. by rewrite (cmp_opp String.compare), Hz in Hzp.
  - intros x y [Hx|Hx%list_elem_of_singleton]%elem_of_app Hy; [apply Hle; set_solver|].
    subst x. rewrite Forall_forall in Hp. by apply Hp.
Qed.

(** No byte sorts before the dot: letters, digits and the underscore do not. *)
Definition after_dot (s : string) : Prop := Forall (λ b, 46 ≤ b) (as_bytes s).

Lemma segment_mono p : ∀ q, after_dot p → after_dot q → cmp_le String.compare p q →
  cmp_le String.compare (split_first "." p) (split_first "." q).
Proof.
  induction p as [|a p IH]; intros q Hp Hq; [by destruct (split_first "." q)|].
  destruct q as [|b q]; [done|].
  apply Forall_cons in Hp as [Ha Hp], Hq as [Hb Hq]. rewrite !split_first_cons.
  unfold cmp_le in *. destruct (Ascii.eqb_spec a ".") as [->|Hna]; [by destruct (if _ : bool then _ else _)|].
  cbn [String.compare]. rewrite ascii_compare_N. unfold byte_of_ascii in Ha, Hb.
  destruct (Ascii.eqb_spec b ".") as [->|Hnb].
  - intros Hle. exfalso.
    change (N_of_ascii ".") with 46%N in Hle. apply Hna.
    destruct (N.compare_spec (N_of_ascii a) 46) as [E|E|E]; [|lia|done].
    rewrite <- (ascii_N_embedding a), E. done.
  - cbn [String.compare]. rewrite ascii_compare_N. destruct (N.compare _ _); [|done|done]. by apply IH.
Qed.

Lemma compare_app_l p s t : String.compare (p +:+ s) (p +:+ t) = String.compare s t.
Proof. induction p as [|a p IH]; [done|]. cbn [String.append String.compare]. by rewrite ascii_compare_N, N.compare_refl. Qed.
Lemma str_drop_app p s : str_drop (String.length p) (p +:+ s) = s.
Proof. by induction p. Qed.
Lemma after_dot_app p s : after_dot (p +:+ s) ↔ after_dot p ∧ after_dot s.
Proof. unfold after_dot. by rewrite as_bytes_app, Forall_app. Qed.

(** The range scanned holds exactly the registered packages below [prefix]. *)
Lemma range_packages (packages : gset string) prefix :
  let sorted := sort_by String.compare (elements packages) in
  take_while (starts_with prefix) (drop (partition_point (λ s, str_lt s prefix) sorted) sorted)
  = List.filter (starts_with prefix) sorted.
Proof.
  intros sorted. assert (Hs : key_sorted id sorted) by apply sort_by_sorted, _.
  apply (prefix_range id prefix) in Hs. rewrite map_id in Hs. unfold id in Hs. cbn zeta in Hs.
  etrans; [|exact Hs]. set (l := drop _ sorted). destruct (take_while_prefix (starts_with prefix) l) as (r & E & _).
  rewrite E at 3. by rewrite take_app_length.
Qed.

Lemma sorted_range_mono (packages : gset string) prefix :
  (∀ p, p ∈ packages → after_dot p) →
  StronglySorted (cmp_le String.compare)
    (map (segment_of prefix) (List.filter (starts_with prefix) (sort_by String.compare (elements packages)))).
Proof.
  intros Hd. assert (Hs : StronglySorted (cmp_le String.compare) (sort_by String.compare (elements packages)))
    by apply sort_by_sorted, _.
  assert (Hin : ∀ p, p ∈ sort_by String.compare (elements packages) → after_dot p).
  { intros p Hp. rewrite sort_by_perm in Hp. set_solver. }
  revert Hs Hin. generalize (sort_by String.compare (elements packages)) as l.
  induction 1 as [|x l Hl IH Hx]; intros Hin; [constructor|]. cbn [List.filter].
  destruct (starts_with prefix x) eqn:Ex; [|apply IH; set_solver].
  cbn [map]. constructor; [apply IH; set_solver|]. apply Forall_map, Forall_forall.
  intros y [Hy Ey]%elem_of_filter_bool.
  apply starts_with_spec in Ex as [x' ->], Ey as [y' ->]. unfold segment_of. rewrite !str_drop_app.
  apply segment_mono.
  - eapply after_dot_app, (Hin (prefix +:+ x')). set_solver.
  - eapply after_dot_app, (Hin (prefix +:+ y')). set_solver.
  - rewrite Forall_forall in Hx. specialize (Hx _ Hy). unfold cmp_le in *. by rewrite compare_app_l in Hx.
Qed.

(** The types of a package, by the positions [by_package] keeps. *)
Lemma by_package_lookup pkg post : ∀ pre m,
  let types o := omap (λ i, (pre ++ post) !! i) (default [] o) in
  types (fold_left push_index (zip (seq (length pre) (length post)) post) m !! pkg)
  = types (m !! pkg) ++ List.filter (λ e, bool_decide (package_of (te_fqn e) = pkg)) post.
Proof.
  induction post as [|e post IH]; intros pre m; cbn [length seq zip_with fold_left List.filter]; cbn zeta;
    [symmetry; apply app_nil_r|].
  specialize (IH (pre ++ [e]) (push_index m (length pre, e))). cbn zeta in IH |- *.
  rewrite <- app_assoc, length_app, Nat.add_1_r in IH. cbn [app length] in IH. rewrite IH. clear IH.
  unfold push_index. cbn [fst snd]. case_bool_decide as Hp.
  - subst pkg. rewrite lookup_partial_alter_eq. cbn [default from_option]. unfold id at 1.
    rewrite omap_app. cbn [omap list_omap].
    rewrite list_lookup_middle by done. by rewrite <- app_assoc.
  - by rewrite lookup_partial_alter_ne.
Qed.

(** ** Properties *)

(** The index offers exactly the importable types of the archives: one entry
    per fully qualified name, of the first archive entry that has it, for
    every name that is no descriptor, anonymous, local or synthetic class and,
    when it comes from the JDK, lies in none of its internal name spaces. *)
Theorem index_entries_exact names e :
  NoDup (te_fqn <$> ti_entries (build names))
  ∧ (e ∈ ti_entries (build names) ↔
     ∃ before internal from_jdk after package last,
       names = before ++ (internal, from_jdk) :: after
       ∧ split_internal internal = Some (package, last) ∧ offerable package last from_jdk = true
       ∧ e = entry_of package last
       ∧ ∀ n p d, n ∈ before → offered n = Some (p, d) → te_fqn d ≠ te_fqn e).
Proof.
  rewrite build_entries_perm. split; [apply first_offers_nodup|]. unfold offered_entries, offers.
  rewrite list_elem_of_fmap. split.
  - intros ([p e'] & -> & Hin). cbn. apply first_offers_spec in Hin as (_ & b & a & E & Hb).
    destruct (omap_split offered names _ _ _ E) as (l1 & [i j] & l2 & -> & (last & H1 & H2 & H3)%offered_iff & Hl1).
    exists l1, i, j, l2, p, last. split_and!; [done..|]. intros n q d Hn Hd Heq. apply Hb.
    rewrite <- Hl1, <- Heq. apply list_elem_of_fmap. exists d. split; [done|].
    apply list_elem_of_fmap. exists (q, d). split; [done|]. apply list_elem_of_omap. eauto.
  - intros (b & i & j & a & p & last & -> & H1 & H2 & H3 & Hb). exists (p, e). split; [done|].
    apply first_offers_spec. split; [apply not_elem_of_empty|].
    exists (omap offered b), (omap offered a). rewrite omap_app. cbn.
    rewrite (proj2 (offered_iff (i, j) p e)) by eauto. split; [done|].
    intros (d & Hd & ([q d'] & -> & (n & Hn & Hq)%list_elem_of_omap)%list_elem_of_fmap)%list_elem_of_fmap.
    by apply (Hb n q d').
Qed.

Lemma types_with_prefix_spec names prefix limit :
  types_with_prefix (build names) prefix limit =
  if bool_decide (prefix = "") || bool_decide (limit = 0%nat) then ([], false) else
  let hits := sort_by best_compare
    (List.filter (λ e, starts_with (to_ascii_lowercase prefix) (lower_simple e)) (offered_entries names)) in
  (take limit hits, bool_decide (limit < length hits)%nat).
Proof.
  unfold types_with_prefix. destruct (_ || _); [done|]. cbn zeta.
  change (ti_lower (build names)) with (map lower_simple (ti_entries (build names))).
  rewrite (prefix_range lower_simple) by apply entries_key_sorted.
  set (f := λ e, starts_with _ (lower_simple e)).
  assert (Hp : List.filter f (ti_entries (build names)) ≡ₚ List.filter f (offered_entries names)).
  { rewrite build_entries_perm. done. }
  rewrite length_sort_by, <- (Permutation_length Hp). f_equal. f_equal.
  apply sort_by_proper; [apply _| |done].
  apply (compare_fqn names).
  - intros x y Hxy%lex_eq%lex_eq. by apply String.compare_eq_iff.
  - intros x Hx. rewrite Hp in Hx. by apply elem_of_filter_bool in Hx as [Hx _].
Qed.

(** The binary search over the sorted index is a plain search: exactly the
    offered types whose simple name starts with the prefix, case ignored,
    shortest name first, cut at the limit, with the flag saying whether the
    limit cut any. *)
Theorem types_with_prefix_exact names prefix limit :
  types_with_prefix (build names) prefix limit =
  if bool_decide (prefix = "") || bool_decide (limit = 0%nat) then ([], false) else
  let hits := sort_by best_compare
    (List.filter (λ e, starts_with (to_ascii_lowercase prefix) (lower_simple e)) (offered_entries names)) in
  (take limit hits, bool_decide (limit < length hits)%nat).
Proof. apply types_with_prefix_spec. Qed.

(** The children listed for a package are its offered types and the next
    segment of every offered package below it, none missing and none
    invented; the segments are sorted and never repeated as long as no
    package name has a byte that sorts before the dot. *)
Theorem package_children_exact names package :
  let '(subpackages, types) := package_children (build names) package in
  types = sort_by simple_compare
            (List.filter (λ e, bool_decide (package_of (te_fqn e) = package)) (offered_entries names))
  ∧ (∀ segment, segment ∈ subpackages ↔
       contains_char "." segment = false
       ∧ ∃ p e rest, (p, e) ∈ offers names ∧ p ≠ "" ∧ p = child_prefix package +:+ segment +:+ rest
         ∧ (rest = "" ∨ starts_with "." rest = true))
  ∧ ((∀ p e, (p, e) ∈ offers names → after_dot p) → StronglySorted str_strict subpackages).
Proof.
  unfold package_children. rewrite range_packages.
  assert (Hpk : ti_packages (build names) = register_all (offers names) ∅).
  { apply (build_loop names (mkBuildState ∅ [] ∅)). }
  assert (Hmem := register_all_mem (offers names) ∅). rewrite <- Hpk in Hmem. split_and!.
  - pose proof (by_package_lookup package (ti_entries (build names)) [] ∅) as Hb.
    cbn zeta in Hb. rewrite lookup_empty in Hb. cbn [app length] in Hb.
    change (fold_left push_index _ ∅) with (ti_by_package (build names)) in Hb. rewrite Hb.
    cbn [default from_option]. cbn [omap list_omap app].
    set (f := λ e, bool_decide _).
    assert (Hp : List.filter f (ti_entries (build names)) ≡ₚ List.filter f (offered_entries names))
      by by rewrite build_entries_perm.
    apply sort_by_proper; [apply _| |done]. apply (compare_fqn names).
    + intros x y Hxy%lex_eq. by apply String.compare_eq_iff.
    + intros x Hx. rewrite Hp in Hx. by apply elem_of_filter_bool in Hx as [Hx _].
  - intros segment. rewrite push_segments_mem. rewrite (elem_of_nil segment).
    rewrite (left_id False (∨)), list_elem_of_In, in_map_iff.
    setoid_rewrite <- list_elem_of_In. setoid_rewrite elem_of_filter_bool.
    split.
    + intros (q & Hseg & Hq & [x ->]%starts_with_spec).
      rewrite sort_by_perm in Hq. apply elem_of_elements in Hq.
      unfold segment_of in Hseg. rewrite str_drop_app in Hseg.
      apply split_first_iff in Hseg as (Hc & r & -> & Hr). split; [done|].
      destruct (proj1 (Hmem _) Hq) as [?|(Hne & p & e & r' & Hin & -> & Hr')]; [set_solver|].
      exists ((child_prefix package +:+ segment +:+ r) +:+ r'), e, (r +:+ r'). split; [exact Hin|]. rewrite !str_app_assoc. split_and!; [| |].
      * by destruct (child_prefix package), segment, r.
      * done.
      * destruct Hr as [->|[r'' ->]]; [done|]. right. by apply starts_with_spec; eexists.
    + intros (Hc & p & e & r & Hin & Hne & -> & Hr). exists (child_prefix package +:+ segment +:+ r).
      split_and!.
      * unfold segment_of. rewrite str_drop_app. apply split_first_iff. split; [done|]. exists r.
        split; [done|]. destruct Hr as [->|[r' ->]%starts_with_spec]; [by left|right; by eexists].
      * rewrite sort_by_perm. apply elem_of_elements. by eapply Hmem.
      * apply starts_with_spec. by eexists.
  - intros Hd. apply push_segments_sorted; [constructor|by intros ? ? ?%elem_of_nil|].
    apply sorted_range_mono. intros q Hq.
    destruct (proj1 (Hmem q) Hq) as [?|(_ & p & e & r & Hin & -> & _)]; [set_solver|].
    apply Hd in Hin. by apply after_dot_app in Hin as [? _].
Qed.

(** A package segment with a dollar sign sorts between a package and its
    children, and the list then repeats a segment. *)
Lemma package_children_repeat :
  (package_children (build [("a/X", false); ("a$b/Y", false); ("a/c/Z", false)]) "").1 = ["a"; "a$b"; "a"].
Proof. vm_compute. reflexivity. Qed.

(** A version-specific class of a multi-release jar is offered under a package
    no source can import. *)
Lemma multi_release_offered :
  te_import_path <$> (types_with_prefix (build [("META-INF/versions/9/p/Foo", false)]) "Foo" 5).1
  = ["META-INF.versions.9.p.Foo"].
Proof. vm_compute. reflexivity. Qed.

Example index_ex :
  let ix := build [("java/util/Map$Entry", true); ("java/util/Map", true); ("sun/misc/Map", true);
                   ("sun/misc/Mapper", false); ("java/util/Map$1", true); ("module-info", true)] in
  te_fqn <$> (types_with_prefix ix "ma" 10).1 = ["java.util.Map"; "sun.misc.Mapper"]
  ∧ types_with_prefix ix "E" 1 = ([mkTypeEntry "Entry" "java.util.Map$Entry" "java.util.Map.Entry"], false)
  ∧ (package_children ix "").1 = ["java"; "sun"].
Proof. vm_compute. split_and!; reflexivity. Qed.
