(* ===== verification/ModuleDirs.v ===== *)
(** * Module output directories ([crates/classpath/src/lib.rs], [walk_module_dirs])

    Where a multi-module build leaves its classes: a bounded depth-first walk
    over the project that skips hidden and build directories and symbolic
    links. *)
From Stdlib Require Import Ascii.
From S2P Require Import Prelude RustStd Paths.

Definition OUTPUT_DIR_WALK_MAX_DEPTH : nat := 8.
Definition OUTPUT_DIR_WALK_MAX_DIRS : nat := 4096.

Class WalkFs := {
  wd_is_file : string → bool;
  (** The readable entries of a directory: name, and whether it is a real
      directory (no link). *)
  wd_read_dir : string → option (list (string * bool));
}.

Section Walk.
Context `{WalkFs}.

Definition walk_skipped (name : string) : bool :=
  starts_with "." name || bool_decide (name ∈ ["target"; "build"; "node_modules"]).

(** The directories pushed for [dir], in the order they are pushed. *)
Definition child_dirs (dir : string) : list string :=
  omap (λ '(name, is_dir), if negb is_dir || walk_skipped name then None else Some (path_join dir name))
    (default [] (wd_read_dir dir)).

(** [budget] directories are left to visit; the top of the stack comes
    first. *)
Fixpoint walk_loop (budget : nat) (push_candidates : string → list string)
    (stack : list (string * nat)) (out : list string) : list string :=
  match budget, stack with
  | S b, (dir, depth) :: rest =>
      let out := out ++ push_candidates dir in
      if (OUTPUT_DIR_WALK_MAX_DEPTH <=? depth)%nat then walk_loop b push_candidates rest out
      else walk_loop b push_candidates (rev ((λ d, (d, S depth)) <$> child_dirs dir) ++ rest) out
  | _, _ => out
  end.
Definition walk_module_dirs (root : string) (push_candidates : string → list string) : list string :=
  walk_loop OUTPUT_DIR_WALK_MAX_DIRS push_candidates [(root, O)] [].

Definition has_gradle (module : string) : bool :=
  wd_is_file (path_join module "build.gradle") || wd_is_file (path_join module "build.gradle.kts").
Definition module_outputs (module : string) : list string :=
  (if wd_is_file (path_join module "pom.xml") then [path_join module "target/classes"] else [])
  ++ (if has_gradle module
      then [path_join module "build/classes/java/main"; path_join module "build/resources/main"] else []).
Definition module_test_outputs (module : string) : list string :=
  (if wd_is_file (path_join module "pom.xml") then [path_join module "target/test-classes"] else [])
  ++ (if has_gradle module
      then [path_join module "build/classes/java/test"; path_join module "build/resources/test"] else []).

Definition module_output_dirs (root : string) : list string := walk_module_dirs root module_outputs.
Definition module_test_output_dirs (root : string) : list string := walk_module_dirs root module_test_outputs.

(** ** The walk as a tree

    [modules_below n dir] is [dir] and everything at most [n] levels below it
    that the walk may enter, parents first. *)
Fixpoint modules_below (n : nat) (dir : string) : list string :=
  dir :: match n with
         | O => []
         | S k => concat (modules_below k <$> rev (child_dirs dir))
         end.

Definition below_entry (e : string * nat) : list string :=
  modules_below (OUTPUT_DIR_WALK_MAX_DEPTH - e.2) e.1.

Lemma walk_loop_tree push b : ∀ stack out,
  (∀ e, e ∈ stack → (e.2 ≤ OUTPUT_DIR_WALK_MAX_DEPTH)%nat) →
  walk_loop b push stack out = out ++ concat (push <$> take b (concat (below_entry <$> stack))).
Proof.
  induction b as [|b IH]; intros stack out Hd; [cbn; by rewrite app_nil_r|].
  destruct stack as [|[dir depth] rest]; [cbn; by rewrite app_nil_r|].
  assert (Hdepth := Hd (dir, depth) ltac:(set_solver)). cbn [snd] in Hdepth.
  cbn [walk_loop]. case_if.
  - apply Nat.leb_le in E. assert (depth = OUTPUT_DIR_WALK_MAX_DEPTH) as -> by lia.
    rewrite IH by set_solver. unfold below_entry at 2. cbn [fmap list_fmap concat fst snd].
    rewrite Nat.sub_diag. cbn [modules_below app take fmap list_fmap concat]. by rewrite app_assoc.
  - apply Nat.leb_gt in E. rewrite IH.
    2: { intros e [He|He]%elem_of_app; [|apply Hd; set_solver].
         rewrite rev_alt in He. fold (reverse (A := string * nat)) in He.
         apply elem_of_reverse, list_elem_of_fmap in He as (d & -> & _). cbn. lia. }
    rewrite fmap_app, concat_app. cbn [fmap list_fmap concat].
    replace (below_entry (dir, depth)) with (dir :: concat (below_entry <$> rev ((λ d, (d, S depth)) <$> child_dirs dir))).
    2: { unfold below_entry at 2. cbn [fst snd].
         replace (OUTPUT_DIR_WALK_MAX_DEPTH - depth)%nat with (S (OUTPUT_DIR_WALK_MAX_DEPTH - S depth)) by lia.
         cbn [modules_below]. f_equal. f_equal. change (rev (?f <$> ?l)) with (rev (map f l)).
         rewrite <- map_rev. change (map ?f ?l) with (f <$> l). by rewrite <- list_fmap_compose. }
    cbn [app take fmap list_fmap concat]. by rewrite <- !app_assoc.
Qed.

(** The module walk terminates and is exact: its result is the candidates
    of the first 4096 directories, parents first, of the tree of directories
    at most eight levels below the root that are neither hidden, build
    output nor reached through a link; below that bound it misses none. *)
Theorem module_walk_exact root push_candidates :
  walk_module_dirs root push_candidates
  = concat (push_candidates <$> take OUTPUT_DIR_WALK_MAX_DIRS (modules_below OUTPUT_DIR_WALK_MAX_DEPTH root)).
Proof.
  unfold walk_module_dirs. rewrite walk_loop_tree; [|intros e ->%list_elem_of_singleton; cbn; lia].
  unfold below_entry. cbn [fmap list_fmap concat fst snd]. by rewrite Nat.sub_0_r, app_nil_r.
Qed.

End Walk.

#[local] Instance ex_walk_fs : WalkFs := {|
  wd_is_file p := bool_decide (p ∈ ["/p/pom.xml"; "/p/b/build.gradle.kts"; "/p/target/pom.xml"]);
  wd_read_dir p := if bool_decide (p = "/p") then Some [("a", true); ("b", true); ("target", true); (".git", true); ("l", false)]
                   else Some [] |}.
Example module_output_dirs_ex :
  module_output_dirs "/p" = ["/p/target/classes"; "/p/b/build/classes/java/main"; "/p/b/build/resources/main"].
Proof. vm_compute. reflexivity. Qed.
