(* ===== verification/Classpath.v ===== *)
(** * The classpath ([crates/classpath/src/lib.rs])

    An ordered set of archives with its caches: opening JDK and project,
    looking classes and sources up by name, the name index.  The disk is an
    argument of each operation, so that it may change between two of them;
    class files, [inflate], POMs and the environment are interfaces. *)
From Stdlib Require Import Ascii.
From S2P Require Import Prelude RustStd Order Paths JTypes Zip Pom Resolve Repo Jdk Degraded ClassInfo Index.

Record Archive := mkArchive { ar_zip : ZipArchive; ar_prefix : string }.
Record SourceArchive := mkSourceArchive { sa_zip : ZipArchive; sa_suffix_match : bool }.

Record Classpath := mkClasspath {
  cp_archives : list Archive; cp_sources : list SourceArchive;
  cp_cache : gmap string (option ClassInfo); cp_source_cache : gmap string (option string);
  cp_source_roots : list string; cp_degraded : list string; cp_entries : list string;
  cp_name_index : option TypeIndex }.

Definition empty : Classpath := mkClasspath [] [] ∅ ∅ [] [] [] None.

Definition push_archive (a : Archive) (cp : Classpath) : Classpath :=
  mkClasspath (cp_archives cp ++ [a]) (cp_sources cp) (cp_cache cp) (cp_source_cache cp)
    (cp_source_roots cp) (cp_degraded cp) (cp_entries cp) (cp_name_index cp).
Definition push_source (s : SourceArchive) (cp : Classpath) : Classpath :=
  mkClasspath (cp_archives cp) (cp_sources cp ++ [s]) (cp_cache cp) (cp_source_cache cp)
    (cp_source_roots cp) (cp_degraded cp) (cp_entries cp) (cp_name_index cp).
Definition push_entry (p : string) (cp : Classpath) : Classpath :=
  mkClasspath (cp_archives cp) (cp_sources cp) (cp_cache cp) (cp_source_cache cp)
    (cp_source_roots cp) (cp_degraded cp) (cp_entries cp ++ [p]) (cp_name_index cp).
Definition extend_project (roots degraded : list string) (cp : Classpath) : Classpath :=
  mkClasspath (cp_archives cp) (cp_sources cp) (cp_cache cp) (cp_source_cache cp)
    (cp_source_roots cp ++ roots) (cp_degraded cp ++ degraded) (cp_entries cp) (cp_name_index cp).
Definition set_cache (m : gmap string (option ClassInfo)) (cp : Classpath) : Classpath :=
  mkClasspath (cp_archives cp) (cp_sources cp) m (cp_source_cache cp)
    (cp_source_roots cp) (cp_degraded cp) (cp_entries cp) (cp_name_index cp).
Definition set_source_cache (m : gmap string (option string)) (cp : Classpath) : Classpath :=
  mkClasspath (cp_archives cp) (cp_sources cp) (cp_cache cp) m
    (cp_source_roots cp) (cp_degraded cp) (cp_entries cp) (cp_name_index cp).
Definition set_name_index (ix : TypeIndex) (cp : Classpath) : Classpath :=
  mkClasspath (cp_archives cp) (cp_sources cp) (cp_cache cp) (cp_source_cache cp)
    (cp_source_roots cp) (cp_degraded cp) (cp_entries cp) (Some ix).

Definition Disk : Type := string → option (list Z).

Section Classpath.
Context `{RepoFs} `{JdkEnv} `{HashOrder} `{ClassFileReader}.
Context (inflate : list Z → Z → option (list Z)).

(** ** Opening *)

Definition open_into (disk : Disk) (p : string) (base : Z) (f : ZipArchive → Classpath → Classpath)
    (cp : Classpath) : Classpath :=
  match Zip.open disk p base with Some z => f z cp | None => cp end.

Definition from_jdk (disk : Disk) : Classpath :=
  match Jdk.best_jdk with
  | None => empty
  | Some home =>
      let cp := fold_left (λ cp jmod, open_into disk jmod 4 (λ z, push_archive (mkArchive z "classes/")) cp)
                  (jmods home) empty in
      open_into disk (path_join home "lib/src.zip") 0 (λ z, push_source (mkSourceArchive z true)) cp
  end.

(** [<name>-sources.jar] beside the jar, else in a sibling of its directory. *)
Definition sources_jar_path (jar : string) : option string :=
  stem ← file_stem jar;
  let name := stem +:+ "-sources.jar" in
  let same_dir := path_join (default "" (path_parent jar)) name in
  if pom_is_file same_dir then Some same_dir
  else
    version_dir ← path_parent jar ≫= path_parent;
    dirs ← list_dir version_dir;
    List.find pom_is_file ((λ d, path_join (path_join version_dir d) name) <$> dirs).

Definition add_jar (disk : Disk) (cp : Classpath) (p : string) : Classpath :=
  let cp := open_into disk p 0 (λ z cp, push_entry p (push_archive (mkArchive z "") cp)) cp in
  match sources_jar_path p with
  | Some s => open_into disk s 0 (λ z, push_source (mkSourceArchive z false)) cp
  | None => cp
  end.

Definition home_dir : option string := env_var "HOME".
Definition gradle_user_home : option string :=
  match env_var "GRADLE_USER_HOME" with
  | Some dir => if bool_decide (dir = "") then (λ h, path_join h ".gradle") <$> home_dir else Some dir
  | None => (λ h, path_join h ".gradle") <$> home_dir
  end.

Definition add_project (disk : Disk) (rp : ResolvedProject) (cp : Classpath) : Classpath :=
  extend_project (rp_source_roots rp) (rp_degraded rp) (fold_left (add_jar disk) (rp_jars rp) cp).

Definition from_jdk_and_project (disk : Disk) (root : option string) : Classpath :=
  let cp := from_jdk disk in
  match root, home_dir with
  | Some root, Some home =>
      let m2 := path_join home ".m2/repository" in
      let gradle_caches := path_join (default (path_join home ".gradle") gradle_user_home) "caches" in
      add_project disk (gradle_resolve_project root gradle_caches m2)
        (add_project disk (maven_resolve_project root m2) cp)
  | _, _ => cp
  end.

Definition project_java_release (root : string) : option Z :=
  if pom_is_file (path_join root "pom.xml") then
    home ← home_dir; maven_compiler_release root (path_join home ".m2/repository")
  else if pom_is_file (path_join root "build.gradle") || pom_is_file (path_join root "build.gradle.kts") then
    gradle_compiler_release root
  else None.

(** ** Classes *)

Definition archive_class (disk : Disk) (path : string) (a : Archive) : option ClassInfo :=
  let entry := ar_prefix a +:+ path +:+ ".class" in
  if Zip.contains (ar_zip a) entry then bytes ← Zip.read inflate disk (ar_zip a) entry; parse bytes else None.
Definition load (disk : Disk) (cp : Classpath) (fqn : string) : option ClassInfo :=
  find_map (archive_class disk (replace_char "." "/" fqn)) (cp_archives cp).

(** [Classpath::class]: misses are cached too. *)
Definition class_lookup (disk : Disk) (cp : Classpath) (fqn : string) : option ClassInfo * Classpath :=
  match cp_cache cp !! fqn with
  | Some hit => (hit, cp)
  | None =>
      let result := load disk cp fqn in
      (result, set_cache (<[fqn := result]> (cp_cache cp)) cp)
  end.

(** ** Sources *)

Definition source_text (disk : Disk) (path : string) (s : SourceArchive) : option string :=
  name ← (if sa_suffix_match s then Zip.find_suffix (Zip.names (sa_zip s)) ("/" +:+ path +:+ ".java")
          else Some (path +:+ ".java"));
  if Zip.contains (sa_zip s) name then bytes ← Zip.read inflate disk (sa_zip s) name; from_utf8 bytes else None.
Definition load_source (disk : Disk) (cp : Classpath) (fqn : string) : option string :=
  find_map (source_text disk (split_first "$" (replace_char "." "/" fqn))) (cp_sources cp).
Definition source_lookup (disk : Disk) (cp : Classpath) (fqn : string) : option string * Classpath :=
  match cp_source_cache cp !! fqn with
  | Some hit => (hit, cp)
  | None =>
      let result := load_source disk cp fqn in
      (result, set_source_cache (<[fqn := result]> (cp_source_cache cp)) cp)
  end.

(** ** The name index *)

Definition archive_names (a : Archive) : list (string * bool) :=
  omap (λ name, n ← strip_prefix (ar_prefix a) name; n ← strip_suffix ".class" n;
                Some (n, negb (bool_decide (ar_prefix a = "")))) (Zip.names (ar_zip a)).
Definition index_names (cp : Classpath) : list (string * bool) := concat (archive_names <$> cp_archives cp).
(** [OnceLock::get_or_init] *)
Definition name_index (cp : Classpath) : TypeIndex * Classpath :=
  match cp_name_index cp with
  | Some ix => (ix, cp)
  | None => let ix := build (index_names cp) in (ix, set_name_index ix cp)
  end.
Definition cp_types_with_prefix (cp : Classpath) (prefix : string) (limit : nat) :
    (list TypeEntry * bool) * Classpath :=
  let '(ix, cp) := name_index cp in (types_with_prefix ix prefix limit, cp).
Definition cp_package_children (cp : Classpath) (package : string) :
    (list string * list TypeEntry) * Classpath :=
  let '(ix, cp) := name_index cp in (package_children ix package, cp).

Definition cp_missing_dependencies (cp : Classpath) : list DegradedCoordinate :=
  missing_dependencies (cp_degraded cp).

(** ** Queries in sequence *)

Inductive Query := QClass (fqn : string) | QSource (fqn : string)
| QPrefix (prefix : string) (limit : nat) | QChildren (package : string).
Inductive Answer := AnsClass (c : option ClassInfo) | AnsSource (s : option string)
| AnsPrefix (r : list TypeEntry * bool) | AnsChildren (r : list string * list TypeEntry).

Definition query (disk : Disk) (cp : Classpath) (q : Query) : Answer * Classpath :=
  match q with
  | QClass fqn => let '(r, cp) := class_lookup disk cp fqn in (AnsClass r, cp)
  | QSource fqn => let '(r, cp) := source_lookup disk cp fqn in (AnsSource r, cp)
  | QPrefix prefix limit => let '(r, cp) := cp_types_with_prefix cp prefix limit in (AnsPrefix r, cp)
  | QChildren package => let '(r, cp) := cp_package_children cp package in (AnsChildren r, cp)
  end.
Fixpoint run_queries (cp : Classpath) (qs : list (Disk * Query)) : list Answer :=
  match qs with
  | [] => []
  | (disk, q) :: qs' => let '(a, cp') := query disk cp q in a :: run_queries cp' qs'
  end.

(** Without caches. *)
Definition plain_answer (disk : Disk) (cp : Classpath) (q : Query) : Answer :=
  match q with
  | QClass fqn => AnsClass (load disk cp fqn)
  | QSource fqn => AnsSource (load_source disk cp fqn)
  | QPrefix prefix limit => AnsPrefix (types_with_prefix (build (index_names cp)) prefix limit)
  | QChildren package => AnsChildren (package_children (build (index_names cp)) package)
  end.
End Classpath.

Global Instance Query_eq_dec : EqDecision Query.
Proof. solve_decision. Defined.

(** Nothing asked yet. *)
Definition fresh (cp : Classpath) : Prop :=
  cp_cache cp = ∅ ∧ cp_source_cache cp = ∅ ∧ cp_name_index cp = None.
Definition first_disk (q : Query) (past : list (Disk * Query)) : option Disk :=
  fst <$> List.find (λ x, bool_decide (x.2 = q)) past.

Lemma first_disk_snoc q past d r :
  first_disk q (past ++ [(d, r)])
  = match first_disk q past with Some d' => Some d' | None => if bool_decide (r = q) then Some d else None end.
Proof.
  unfold first_disk. induction past as [|[d0 q0] past IH]; cbn.
  - by destruct (bool_decide (r = q)).
  - by destruct (bool_decide (q0 = q)).
Qed.

(** ** What the caches hold *)

Section Caches.
Context `{!ClassFileReader}.
Context (inflate : list Z → Z → option (list Z)).
Local Notation load := (load inflate).
Local Notation load_source := (load_source inflate).

(** [cp] is [cp0] after the queries [past]. *)
Record caches_ok (cp0 : Classpath) (past : list (Disk * Query)) (cp : Classpath) : Prop := {
  co_archives : cp_archives cp = cp_archives cp0;
  co_sources : cp_sources cp = cp_sources cp0;
  co_cache : ∀ f, cp_cache cp !! f = (λ d, load d cp0 f) <$> first_disk (QClass f) past;
  co_source_cache : ∀ f, cp_source_cache cp !! f = (λ d, load_source d cp0 f) <$> first_disk (QSource f) past;
  co_index : ∀ ix, cp_name_index cp = Some ix → ix = build (index_names cp0) }.

Lemma caches_ok_fresh cp : fresh cp → caches_ok cp [] cp.
Proof.
  intros (Hc & Hs & Hi). split; try done; intros f; [by rewrite Hc, lookup_empty|by rewrite Hs, lookup_empty|].
  by rewrite Hi.
Qed.

Lemma load_ext disk cp1 cp2 f : cp_archives cp1 = cp_archives cp2 → load disk cp1 f = load disk cp2 f.
Proof. unfold Classpath.load. by intros ->. Qed.
Lemma load_source_ext disk cp1 cp2 f : cp_sources cp1 = cp_sources cp2 →
  load_source disk cp1 f = load_source disk cp2 f.
Proof. unfold Classpath.load_source. by intros ->. Qed.

(** Recording a query that no cache entry depends on. *)
Lemma caches_ok_past cp0 past cp d q :
  caches_ok cp0 past cp →
  (∀ f, q = QClass f ∨ q = QSource f → is_Some (first_disk q past)) →
  caches_ok cp0 (past ++ [(d, q)]) cp.
Proof.
  intros [Ha Hs Hc Hsc Hi] Hq. split; [done|done| | |done]; intros f; rewrite first_disk_snoc.
  - rewrite Hc. destruct (first_disk (QClass f) past) eqn:E; [done|]. case_bool_decide as Hf; [|done].
    subst q. destruct (Hq f) as [x Hx]; [by left|]. congruence.
  - rewrite Hsc. destruct (first_disk (QSource f) past) eqn:E; [done|]. case_bool_decide as Hf; [|done].
    subst q. destruct (Hq f) as [x Hx]; [by right|]. congruence.
Qed.

Lemma name_index_ok cp0 past cp : caches_ok cp0 past cp →
  (name_index cp).1 = build (index_names cp0) ∧ caches_ok cp0 past (name_index cp).2.
Proof.
  intros Hok. pose proof Hok as [Ha Hs Hc Hsc Hi]. unfold name_index.
  destruct (cp_name_index cp) as [ix|] eqn:E; cbn [fst snd].
  - by rewrite (Hi ix).
  - unfold index_names. rewrite Ha. split; [done|]. split; cbn; try done.
    by intros ix [= <-].
Qed.

Lemma query_ok cp0 past cp d q : caches_ok cp0 past cp →
  (query inflate d cp q).1 = plain_answer inflate (default d (first_disk q past)) cp0 q
  ∧ caches_ok cp0 (past ++ [(d, q)]) (query inflate d cp q).2.
Proof.
  intros Hok. pose proof Hok as [Ha Hs Hc Hsc Hi]. destruct q as [f|f|p n|p]; cbn [query plain_answer].
  - unfold class_lookup. specialize (Hc f) as Hcf. destruct (first_disk (QClass f) past) as [d'|] eqn:E; cbn in Hcf.
    + rewrite Hcf. split; [done|]. apply caches_ok_past; [done|]. intros g [[= ->]|[=]]. by rewrite E.
    + rewrite Hcf. cbn [fst snd default]. rewrite (load_ext d cp cp0) by done. split; [done|].
      split; cbn; try done; intros g; rewrite first_disk_snoc.
      * destruct (decide (f = g)) as [<-|Hne].
        -- by rewrite lookup_insert_eq, E, bool_decide_true.
        -- rewrite lookup_insert_ne, Hc by done. destruct (first_disk (QClass g) past); [done|].
           rewrite bool_decide_false by congruence. done.
      * rewrite Hsc. by destruct (first_disk (QSource g) past).
  - unfold source_lookup. specialize (Hsc f) as Hcf. destruct (first_disk (QSource f) past) as [d'|] eqn:E; cbn in Hcf.
    + rewrite Hcf. split; [done|]. apply caches_ok_past; [done|]. intros g [[=]|[= ->]]. by rewrite E.
    + rewrite Hcf. cbn [fst snd default]. rewrite (load_source_ext d cp cp0) by done. split; [done|].
      split; cbn; try done; intros g; rewrite first_disk_snoc.
      * rewrite Hc. by destruct (first_disk (QClass g) past).
      * destruct (decide (f = g)) as [<-|Hne].
        -- by rewrite lookup_insert_eq, E, bool_decide_true.
        -- rewrite lookup_insert_ne, Hsc by done. destruct (first_disk (QSource g) past); [done|].
           rewrite bool_decide_false by congruence. done.
  - unfold cp_types_with_prefix. destruct (name_index_ok cp0 past cp Hok) as [H1 H2].
    destruct (name_index cp) as [ix cp']. cbn in *. subst ix. split; [done|].
    apply caches_ok_past; [done|]. by intros ? [|].
  - unfold cp_package_children. destruct (name_index_ok cp0 past cp Hok) as [H1 H2].
    destruct (name_index cp) as [ix cp']. cbn in *. subst ix. split; [done|].
    apply caches_ok_past; [done|]. by intros ? [|].
Qed.

Lemma run_queries_ok cp0 qs : ∀ past cp, caches_ok cp0 past cp → ∀ i d q, qs !! i = Some (d, q) →
  run_queries inflate cp qs !! i
  = Some (plain_answer inflate (default d (first_disk q (past ++ take i qs))) cp0 q).
Proof.
  induction qs as [|[d0 q0] qs IH]; intros past cp Hok i d q Hi; [done|].
  cbn [run_queries]. destruct (query_ok cp0 past cp d0 q0 Hok) as [H1 H2].
  destruct (query inflate d0 cp q0) as [a cp']. cbn in H1, H2. destruct i as [|i].
  - injection Hi as -> ->. cbn [take]. rewrite app_nil_r. cbn. by rewrite H1.
  - change (qs !! i = Some (d, q)) in Hi.
    change (run_queries inflate cp' qs !! i
      = Some (plain_answer inflate (default d (first_disk q (past ++ (d0, q0) :: take i qs))) cp0 q)).
    rewrite (IH (past ++ [(d0, q0)]) cp' H2 i d q Hi). by rewrite <- app_assoc.
Qed.

(** C16: A classpath answers consistently for its whole life: in any sequence of
    class, source, prefix and package queries, each is answered as an
    uncached classpath would have, on the disk as it was when that query was
    first asked, whatever changed on disk since. *)
Theorem classpath_consistent cp qs i d q : fresh cp → qs !! i = Some (d, q) →
  run_queries inflate cp qs !! i
  = Some (plain_answer inflate (default d (first_disk q (take i qs))) cp q).
Proof. intros Hf Hi. by apply (run_queries_ok cp qs [] cp (caches_ok_fresh cp Hf)). Qed.
End Caches.

(** ** Completion and lookup agree *)

(** The path an offered name is looked up under is the entry it came from. *)
Lemma offered_path internal package last :
  split_internal internal = Some (package, last) → contains_char "." internal = false →
  starts_with "/" internal = false →
  replace_char "." "/" (te_fqn (entry_of package last)) = internal.
Proof.
  unfold split_internal. case_bool_decide; [done|]. destruct (rsplit_once "/" internal) as [[pkg l]|] eqn:E.
  - apply rsplit_once_Some in E as [-> Hl]. intros [= <- <-]. rewrite contains_char_app.
    intros [Hp Hd]%orb_false_iff Hs. unfold entry_of. cbn [te_fqn].
    rewrite bool_decide_false.
    + rewrite !replace_char_app, replace_char_back by done. f_equal.
      change (replace_char "." "/" ".") with "/". cbn [contains_char] in Hd.
      apply orb_false_iff in Hd as [_ Hd]. by rewrite (replace_char_none _ _ l).
    + destruct pkg as [|a pkg]; [done|]. unfold replace_char. cbn [replace_chars].
      by destruct (Ascii.eqb "/" a).
  - intros [= <- <-] Hd _. unfold entry_of. cbn [te_fqn]. rewrite bool_decide_true by done.
    by apply replace_char_none.
Qed.

Section Agree.
Context `{!ClassFileReader}.
Context (inflate : list Z → Z → option (list Z)).

(** The class entries of the archives: each reads and parses, under a path
    without dots or a leading slash. *)
Definition classes_ok (disk : Disk) (cp : Classpath) : Prop :=
  ∀ a name internal, a ∈ cp_archives cp → name ∈ Zip.names (ar_zip a) →
    name = ar_prefix a +:+ internal +:+ ".class" →
    contains_char "." internal = false ∧ starts_with "/" internal = false
    ∧ is_Some (Zip.read inflate disk (ar_zip a) name ≫= parse).

Lemma index_names_elem cp internal jdk : (internal, jdk) ∈ index_names cp →
  ∃ a, a ∈ cp_archives cp ∧ ar_prefix a +:+ internal +:+ ".class" ∈ Zip.names (ar_zip a).
Proof.
  unfold index_names. intros (a & Ha & Hn)%elem_concat_fmap. exists a. split; [done|].
  unfold archive_names in Hn. apply list_elem_of_omap in Hn as (name & Hname & Hn).
  destruct (strip_prefix (ar_prefix a) name) as [n1|] eqn:E1; [|done]. cbn [mbind option_bind] in Hn.
  destruct (strip_suffix ".class" n1) as [n2|] eqn:E2; [|done]. injection Hn as -> _.
  apply strip_prefix_Some in E1 as ->. by apply strip_suffix_Some in E2 as ->.
Qed.

Lemma names_contains z name : name ∈ Zip.names z → Zip.contains z name = true.
Proof.
  unfold Zip.names, Zip.contains. intros ([k e] & -> & Hk)%list_elem_of_fmap.
  apply elem_of_map_to_list in Hk. cbn. rewrite Hk. by apply bool_decide_eq_true_2.
Qed.

(** Every type that completion offers can be loaded: for a classpath whose
    class entries are readable, each entry of a prefix search, asked for by
    its fully qualified name, is found. *)
Theorem offered_types_resolve disk cp prefix limit e :
  classes_ok disk cp → e ∈ (types_with_prefix (build (index_names cp)) prefix limit).1 →
  is_Some (load inflate disk cp (te_fqn e)).
Proof.
  intros Hok He.
  assert (Hin : e ∈ offered_entries (index_names cp)).
  { revert He. unfold types_with_prefix. destruct (_ || _); [by intros ?%elem_of_nil|]. cbn zeta.
    change (ti_lower (build ?n)) with (map lower_simple (ti_entries (build n))).
    rewrite (prefix_range lower_simple) by apply entries_key_sorted. cbn [fst].
    intros (i & He%list_elem_of_lookup_2 & _)%elem_of_take. rewrite sort_by_perm in He.
    apply elem_of_filter_bool in He as [He _]. by rewrite build_entries_perm in He. }
  unfold offered_entries, offers in Hin. apply list_elem_of_fmap in Hin as ([p e'] & -> & Hin).
  apply first_offers_spec in Hin as (_ & b & a & E & _). apply omap_split in E as (l1 & [internal jdk] & l2 & E & Hoff & _).
  assert (Hn : (internal, jdk) ∈ index_names cp) by (rewrite E; set_solver).
  apply offered_iff in Hoff as (last & Hsplit & _ & ->). cbn [fst snd] in *.
  apply index_names_elem in Hn as (ar & Har & Hname).
  destruct (Hok ar _ internal Har Hname eq_refl) as (Hdot & Hslash & Hread).
  unfold load. rewrite (offered_path internal p last) by done. apply (find_map_is_Some _ _ ar); [done|].
  unfold archive_class. by rewrite names_contains.
Qed.
End Agree.

(** ** What opening a project yields *)

Section Opened.
Context `{RepoFs} `{JdkEnv} `{HashOrder}.

Definition jar_archives (cp : Classpath) : list Archive :=
  List.filter (λ a, bool_decide (ar_prefix a = "")) (cp_archives cp).
(** The jars of [javac]'s class path are those that completion reads, each
    opened from the disk it lies on; nothing was asked yet. *)
Definition opened (disk : Disk) (cp : Classpath) : Prop :=
  fresh cp ∧ cp_entries cp = (λ a, path (ar_zip a)) <$> jar_archives cp
  ∧ Forall (λ a, is_Some (disk (path (ar_zip a)))
                 ∧ (ar_prefix a = "" ∨ ar_prefix a = "classes/")) (cp_archives cp).

Lemma open_path disk p base z : Zip.open disk p base = Some z → path z = p ∧ is_Some (disk p).
Proof.
  unfold Zip.open. destruct (disk p) as [file|]; [|done]. cbn [mbind option_bind].
  destruct (read_at file _ _) as [tail|]; [|done]. cbn [mbind option_bind].
  destruct (find_eocd tail); [|done]. cbn [mbind option_bind].
  destruct (u32le tail (_ + 12)); [|done]. destruct (u32le tail (_ + 16)); [|done]. cbn [mbind option_bind].
  case_if; [done|]. case_if; [done|]. destruct (read_at file _ _) as [cd|]; [|done]. cbn [mbind option_bind].
  destruct (parse_central_directory cd); [|done]. by intros [= <-].
Qed.

Lemma opened_empty disk : opened disk empty.
Proof. by split_and!. Qed.
Lemma opened_source disk s cp : opened disk cp → opened disk (push_source s cp).
Proof. done. Qed.
Lemma opened_project disk roots degraded cp : opened disk cp → opened disk (extend_project roots degraded cp).
Proof. done. Qed.
Lemma opened_jmod disk p z cp : Zip.open disk p 4 = Some z → opened disk cp →
  opened disk (push_archive (mkArchive z "classes/") cp).
Proof.
  intros [<- Hd]%open_path (Hf & He & Ha). split; [done|]. split.
  - cbn. rewrite He. unfold jar_archives. cbn. rewrite List.filter_app. cbn. by rewrite app_nil_r.
  - cbn. apply Forall_app. split; [done|]. constructor; [|done]. cbn. auto.
Qed.
Lemma opened_jar disk p z cp : Zip.open disk p 0 = Some z → opened disk cp →
  opened disk (push_entry p (push_archive (mkArchive z "") cp)).
Proof.
  intros [<- Hd]%open_path (Hf & He & Ha). split; [done|]. split.
  - cbn. rewrite He. unfold jar_archives. cbn. rewrite List.filter_app, fmap_app. done.
  - cbn. apply Forall_app. split; [done|]. constructor; [|done]. cbn. auto.
Qed.

Lemma opened_add_jar disk cp p : opened disk cp → opened disk (add_jar disk cp p).
Proof.
  intros Ho. unfold add_jar, open_into.
  assert (Ho' : opened disk (match Zip.open disk p 0 with
    | Some z => push_entry p (push_archive (mkArchive z "") cp) | None => cp end)).
  { destruct (Zip.open disk p 0) eqn:E; [by apply opened_jar|done]. }
  destruct (sources_jar_path p) as [s|]; [|done]. by destruct (Zip.open disk s 0).
Qed.
Lemma fold_opened {A} disk (f : Classpath → A → Classpath) l : ∀ cp,
  (∀ cp x, opened disk cp → opened disk (f cp x)) → opened disk cp → opened disk (fold_left f l cp).
Proof. induction l as [|x l IH]; intros cp Hf Ho; [done|]. cbn. apply IH; auto. Qed.

(** The class path handed to [javac] and the archives completion reads are
    the same jars, in the same order: every entry of an opened project is a
    jar that was on disk and opened as an archive, the JDK's modules are
    archives and no entries, and all caches start empty. *)
Theorem project_opened disk root :
  opened disk (from_jdk_and_project disk root)
  ∧ ∀ cp rp, cp_degraded (add_project disk rp cp) = cp_degraded cp ++ rp_degraded rp
           ∧ ∀ p, p ∈ cp_entries (add_project disk rp cp) → p ∈ cp_entries cp ∨ p ∈ rp_jars rp.
Proof.
  assert (Hj : opened disk (from_jdk disk)).
  { unfold from_jdk. destruct Jdk.best_jdk as [home|]; [|apply opened_empty]. unfold open_into at 1.
    assert (Ho : opened disk (fold_left (λ cp jmod, open_into disk jmod 4
      (λ z, push_archive (mkArchive z "classes/")) cp) (jmods home) empty)).
    { apply fold_opened; [|apply opened_empty]. intros cp jmod Hcp. unfold open_into.
      destruct (Zip.open disk jmod 4) eqn:E; [by eapply opened_jmod|done]. }
    by destruct (Zip.open disk _ 0). }
  assert (Hp : ∀ rp cp, opened disk cp → opened disk (add_project disk rp cp)).
  { intros rp cp Hcp. apply opened_project, fold_opened; [|done]. intros. by apply opened_add_jar. }
  split.
  - unfold from_jdk_and_project. destruct root, home_dir; auto.
  - intros cp rp. unfold add_project. cbn. generalize (rp_jars rp) as jars. intros jars.
    assert (Hadd : ∀ cp p, cp_degraded (add_jar disk cp p) = cp_degraded cp
      ∧ ∀ q, q ∈ cp_entries (add_jar disk cp p) → q ∈ cp_entries cp ∨ q = p).
    { clear. intros cp p. unfold add_jar, open_into.
      destruct (Zip.open disk p 0), (sources_jar_path p) as [s|];
        try destruct (Zip.open disk s 0); cbn; (split; [done|]); intros q; set_solver. }
    revert cp. induction jars as [|p jars IH]; intros cp; cbn [fold_left]; [split; [done|by auto]|].
    destruct (IH (add_jar disk cp p)) as [IH1 IH2], (Hadd cp p) as [H1' H2']. rewrite IH1, H1'. split; [done|].
    intros q [Hq|Hq]%IH2; [apply H2' in Hq as [?| ->]|]; set_solver.
Qed.
End Opened.

(** ** Instances *)

#[local] Instance ex_reader : ClassFileReader := {| parse_class _ := Some ex_class |}.
Definition ex_cp : Classpath :=
  open_into ex_disk "java.base.jmod" 4 (λ z, push_archive (mkArchive z "classes/")) empty.
Lemma classpath_consistent_witness :
  run_queries ex_inflate ex_cp [(ex_disk, QClass "b.C"); (λ _, None, QClass "b.C"); (λ _, None, QClass "A")]
    !! 1%nat = Some (AnsClass (Some (class_info ex_class))).
Proof.
  rewrite (classpath_consistent ex_inflate ex_cp _ 1 (λ _, None) (QClass "b.C"));
    [vm_compute; reflexivity|by split_and!|reflexivity].
Defined.
Lemma offered_types_resolve_witness : is_Some (load ex_inflate ex_disk ex_cp "b.C").
Proof.
  apply (offered_types_resolve ex_inflate ex_disk ex_cp "c" 5 (mkTypeEntry "C" "b.C" "b.C")).
  - intros a name internal Ha Hn ->.
    assert (a = mkArchive (default (mkZipArchive "" 0 ∅) (Zip.open ex_disk "java.base.jmod" 4)) "classes/") as ->.
    { apply list_elem_of_singleton. exact Ha. }
    replace (Zip.names _) with ["classes/A.class"; "classes/b/C.class"] in Hn by (vm_compute; reflexivity).
    assert (Hi : ∀ i, "classes/" +:+ internal +:+ ".class" = "classes/" +:+ i +:+ ".class" → internal = i).
    { intros i E. apply (f_equal (λ s, strip_prefix "classes/" s ≫= strip_suffix ".class")) in E.
      rewrite !strip_prefix_app in E. cbn [mbind option_bind] in E. rewrite !strip_suffix_app in E. by injection E. }
    apply elem_of_cons in Hn as [E|E%list_elem_of_singleton];
      [apply (Hi "A") in E|apply (Hi "b/C") in E]; subst internal;
      (split_and!; [reflexivity|reflexivity|eexists; vm_compute; reflexivity]).
  - apply (list_elem_of_lookup_2 _ 0). vm_compute. reflexivity.
Defined.
