(* ===== verification/Project.v ===== *)
(** * The debugger on the classpath crate

    [Launch] is verified against the interface [ClasspathCrate]; here the
    model of [crates/classpath] implements it, and what a project's POMs
    declare is followed to the class path the debuggee is started with. *)
From S2P Require Import DapSession.
From S2P Require Import Prelude RustStd Paths Zip Pom Resolve Repo Jdk ModuleDirs Classpath.
From S2P Require Import LaunchWalk Launch.

Section Project.
Context `{RepoFs} `{JdkEnv} `{HashOrder} `{WalkFs}.
Context (disk : Disk).

(** [Classpath::from_jdk_and_project(Some(root))] and its accessors, as
    [launch.rs] calls them. *)
Definition project_classpath (root : string) : Classpath := from_jdk_and_project disk (Some root).
#[export] Instance project_crate : ClasspathCrate := {|
  Launch.best_jdk := Jdk.best_jdk;
  project_entries root := cp_entries (project_classpath root);
  project_source_roots root := cp_source_roots (project_classpath root);
  Launch.module_output_dirs := ModuleDirs.module_output_dirs;
  Launch.module_test_output_dirs := ModuleDirs.module_test_output_dirs;
|}.

(** ** Jars stay on the class path *)

Lemma entries_open_into p base f cp q :
  (∀ z cp, q ∈ cp_entries cp → q ∈ cp_entries (f z cp)) →
  q ∈ cp_entries cp → q ∈ cp_entries (open_into disk p base f cp).
Proof. intros Hf Hq. unfold open_into. destruct (Zip.open disk p base); auto. Qed.
Lemma entries_add_jar cp p q : q ∈ cp_entries cp → q ∈ cp_entries (add_jar disk cp p).
Proof.
  intros Hq. unfold add_jar.
  assert (Hq' : q ∈ cp_entries (open_into disk p 0 (λ z cp, push_entry p (push_archive (mkArchive z "") cp)) cp)).
  { apply entries_open_into; [|done]. intros z cp' Hin. cbn. set_solver. }
  destruct (sources_jar_path p) as [s|]; [|done]. by apply entries_open_into.
Qed.
Lemma entries_added cp p : is_Some (Zip.open disk p 0) → p ∈ cp_entries (add_jar disk cp p).
Proof.
  intros [z Hz]. unfold add_jar.
  assert (Hp : p ∈ cp_entries (open_into disk p 0 (λ z cp, push_entry p (push_archive (mkArchive z "") cp)) cp))
    by (unfold open_into; rewrite Hz; cbn; set_solver).
  destruct (sources_jar_path p) as [s|]; [|done]. by apply entries_open_into.
Qed.
Lemma entries_jars jars : ∀ cp q,
  q ∈ cp_entries cp ∨ (q ∈ jars ∧ is_Some (Zip.open disk q 0)) →
  q ∈ cp_entries (fold_left (add_jar disk) jars cp).
Proof.
  induction jars as [|p jars IH]; intros cp q; cbn [fold_left]; [intros [?|[?%elem_of_nil _]]; done|].
  intros [Hq|[[->|Hq]%elem_of_cons Ho]]; apply IH; [left; by apply entries_add_jar|left; by apply entries_added|by right].
Qed.

Lemma entries_project rp cp q :
  q ∈ cp_entries cp ∨ (q ∈ rp_jars rp ∧ is_Some (Zip.open disk q 0)) →
  q ∈ cp_entries (add_project disk rp cp).
Proof. apply entries_jars. Qed.

(** What the POMs resolve to reaches the debuggee: when a launch derives its
    class path from the project, every jar Maven's resolution found that
    opens as an archive is on it, behind the additional entries. *)
Theorem launch_sees_dependencies `{LaunchOs} root tests additional jdk dirs home plan dirs' jar :
  home_dir = Some home →
  Launch.assemble_classpath (Some root) [] tests additional jdk dirs = (Ok plan, dirs') →
  jar ∈ rp_jars (maven_resolve_project root (path_join home ".m2/repository")) →
  is_Some (Zip.open disk jar 0) →
  ∃ rest, cp_classpath plan = additional ++ rest ∧ jar ∈ rest.
Proof.
  intros Hhome Hplan Hjar Hopen.
  apply (derived_entries root tests additional jdk dirs plan dirs' jar Hplan).
  change (jar ∈ cp_entries (from_jdk_and_project disk (Some root))).
  unfold from_jdk_and_project. rewrite Hhome. apply entries_project. left. apply entries_project. by right.
Qed.
End Project.

(** ** An instance *)

(** [Repo]'s example with its repository under a home directory. *)
Definition ex_moved (p : string) : string :=
  match strip_prefix "/h/.m2/repository" p with Some r => "/m2" +:+ r | None => p end.
#[local] Instance ex_home_pom_fs : PomFs := {|
  pom_len _ := Some 100; pom_read p := Some p;
  pom_is_file p := @pom_is_file ex_pom_fs (ex_moved p);
  pom_is_dir _ := false; canonicalize p := Some p;
  parse_xml p := @parse_xml ex_pom_fs (ex_moved p);
|}.
#[local] Instance ex_home_fs : RepoFs := {| list_dir _ := None |}.
#[local] Instance ex_home_env : JdkEnv := {|
  env_var n := if bool_decide (n = "HOME") then Some "/h" else if bool_decide (n = "JAVA_HOME") then Some "/jdk" else None;
  split_paths _ := []; jdk_is_file p := bool_decide (p = "/jdk/jmods/java.base.jmod");
  jdk_read_dir _ := None; jdk_read _ := None; jdk_canonicalize p := Some p;
|}.
#[local] Instance ex_home_walk : WalkFs := {| wd_is_file p := bool_decide (p = "/p/pom.xml"); wd_read_dir _ := None |}.
#[local] Existing Instances ex_hash ex_fs ex_os.
Definition ex_home_disk : Disk := λ p,
  if bool_decide (p = "/h/.m2/repository/a/a/2/a-2.jar") then Some (archive [] ex_members (replicate 8 0) []) else None.

Lemma launch_sees_dependencies_witness : ∃ plan dirs',
  Launch.assemble_classpath (H0 := project_crate ex_home_disk) (Some "/p") [] true ["/junit.jar"] None ∅ = (Ok plan, dirs')
  ∧ ∃ rest, cp_classpath plan = ["/junit.jar"] ++ rest ∧ "/h/.m2/repository/a/a/2/a-2.jar" ∈ rest.
Proof.
  assert (Hok : is_ok (Launch.assemble_classpath (H0 := project_crate ex_home_disk) (Some "/p") [] true ["/junit.jar"] None ∅).1
    = true) by (vm_compute; reflexivity).
  destruct (Launch.assemble_classpath (H0 := project_crate ex_home_disk) (Some "/p") [] true ["/junit.jar"] None ∅)
    as [[plan|e] dirs'] eqn:E.
  - exists plan, dirs'. split; [done|].
    apply (launch_sees_dependencies ex_home_disk "/p" true ["/junit.jar"] None ∅ "/h" plan dirs'); [reflexivity|exact E| |].
    + apply (list_elem_of_lookup_2 _ 0). vm_compute. reflexivity.
    + eexists. vm_compute. reflexivity.
  - discriminate Hok.
Defined.
