(* ===== verification/FsScan.v ===== *)
(** * Bounded workspace scans ([crates/server/src/fs_scan.rs], [references.rs])

    The traversal shared by the workspace index and the reference search, and
    the reference search's prefilter.  The file system is an interface seen
    at one moment; unlike the launcher's walk this one follows symbolic links,
    so directories form a graph and the walk remembers canonical paths.  It
    runs on one round per directory of the file system, which
    [visits_known] shows is enough. *)
From stdpp Require Import fin_sets.
From S2P Require Import Prelude RustStd Paths.

Inductive IoError := NotFound | OtherError.
#[global] Instance ioerror_eq_dec : EqDecision IoError.
Proof. solve_decision. Defined.

(** [read_dir] gives the entries' names, any of which may fail to be read;
    [dir_count] is how many directories there are. *)
Class FsView := {
  canonicalize : string → Result IoError string;
  read_dir : string → Result IoError (list (Result IoError string));
  path_is_dir : string → bool;
  dir_count : nat;
}.

Module FsScan.

Definition SKIPPED_DIR_NAMES : list string := ["target"; "build"; ".git"].

Definition is_excluded_component (name : string) : bool :=
  starts_with "." name || bool_decide (name ∈ SKIPPED_DIR_NAMES).

Record Walk := mkWalk { stopped_early : bool; io_errors : bool }.

Definition is_fault (e : IoError) : bool := negb (bool_decide (e = NotFound)).

(** The walk's variables: the stack with its top first, the canonical
    directories seen, the faults met and the state of [on_file]. *)
Record Scan (A : Type) := mkScan {
  stack : list string; visited : gset string; faults : bool; acc : A;
}.
#[global] Arguments mkScan {A}. #[global] Arguments stack {A}. #[global] Arguments visited {A}.
#[global] Arguments faults {A}. #[global] Arguments acc {A}.

(** What the loop finds an entry to be before it looks at what it has seen. *)
Inductive Entry := Skipped | Fault (e : IoError) | Dir (path canon : string) | File (name path : string).

Section Walk.
Context `{FsView}.

Definition within (boundary : option string) (canon : string) : bool :=
  match boundary with Some b => path_starts_with canon b | None => true end.

Definition classify (boundary : option string) (dir : string) (result : Result IoError string) : Entry :=
  match result with
  | Err e => Fault e
  | Ok name =>
      let path := path_join dir name in
      if is_excluded_component name then Skipped
      else match canonicalize path with
           | Err e => Fault e
           | Ok canon =>
               if negb (within boundary canon) then Skipped
               else if path_is_dir canon then Dir path canon
               else File name path
           end
  end.

(** One entry; [false] when the walk returns. *)
Definition scan_entry {A} (on_file : A → string → A * bool) (boundary : option string) (dir : string)
    (s : Scan A) (result : Result IoError string) : Scan A * bool :=
  match classify boundary dir result with
  | Skipped => (s, true)
  | Fault e => (mkScan (stack s) (visited s) (faults s || is_fault e) (acc s), true)
  | Dir path canon =>
      if bool_decide (canon ∈ visited s) then (s, true)
      else (mkScan (path :: stack s) ({[canon]} ∪ visited s) (faults s) (acc s), true)
  | File name path =>
      if ends_with ".java" name
      then let '(a, continue) := on_file (acc s) path in
           (mkScan (stack s) (visited s) (faults s) a, continue)
      else (s, true)
  end.

Fixpoint scan_dir {A} (on_file : A → string → A * bool) (boundary : option string) (dir : string)
    (s : Scan A) (results : list (Result IoError string)) : Scan A * bool :=
  match results with
  | [] => (s, true)
  | result :: results' =>
      let '(s', continue) := scan_entry on_file boundary dir s result in
      if continue then scan_dir on_file boundary dir s' results' else (s', false)
  end.

Fixpoint walk_loop {A} (fuel : nat) (on_file : A → string → A * bool) (boundary : option string)
    (s : Scan A) : Walk * A :=
  match stack s, fuel with
  | [], _ | _, O => (mkWalk false (faults s), acc s)
  | dir :: rest, S f =>
      let s := mkScan rest (visited s) (faults s) (acc s) in
      match read_dir dir with
      | Err e => walk_loop f on_file boundary (mkScan rest (visited s) (faults s || is_fault e) (acc s))
      | Ok results =>
          let '(s', continue) := scan_dir on_file boundary dir s results in
          if continue then walk_loop f on_file boundary s'
          else (mkWalk true (faults s'), acc s')
      end
  end.

Definition start_scan {A} (root : string) (a : A) : Scan A :=
  match canonicalize root with
  | Ok canon => mkScan [root] {[canon]} false a
  | Err e => mkScan [root] ∅ (is_fault e) a
  end.

Definition walk_java_files {A} (root : string) (boundary : option string)
    (on_file : A → string → A * bool) (a : A) : Walk * A :=
  walk_loop (S dir_count) on_file boundary (start_scan root a).

(** ** What a scan offers

    The files of one directory in order, the directories it leads to, and
    the directories a walk reads, none of which depends on [on_file]. *)

Definition java_file (boundary : option string) (dir : string) (r : Result IoError string) : option string :=
  match classify boundary dir r with
  | File name path => if ends_with ".java" name then Some path else None
  | _ => None
  end.
Definition fault_at (boundary : option string) (dir : string) (r : Result IoError string) : bool :=
  match classify boundary dir r with Fault e => is_fault e | _ => false end.
Definition java_files (boundary : option string) (dir : string) : list string :=
  match read_dir dir with Ok rs => omap (java_file boundary dir) rs | Err _ => [] end.
Definition dir_faults (boundary : option string) (dir : string) : bool :=
  match read_dir dir with Ok rs => existsb (fault_at boundary dir) rs | Err e => is_fault e end.

Definition push_dir (boundary : option string) (dir : string) (sv : list string * gset string)
    (r : Result IoError string) : list string * gset string :=
  match classify boundary dir r with
  | Dir path canon =>
      if bool_decide (canon ∈ sv.2) then sv else (path :: sv.1, {[canon]} ∪ sv.2)
  | _ => sv
  end.
Definition push_dirs (boundary : option string) (dir : string) (sv : list string * gset string) :
    list string * gset string :=
  match read_dir dir with Ok rs => fold_left (push_dir boundary dir) rs sv | Err _ => sv end.

Fixpoint visits (fuel : nat) (boundary : option string) (sv : list string * gset string) : list string :=
  match sv.1, fuel with
  | [], _ | _, O => []
  | dir :: rest, S f => dir :: visits f boundary (push_dirs boundary dir (rest, sv.2))
  end.
Definition root_seen (root : string) : gset string :=
  match canonicalize root with Ok canon => {[canon]} | Err _ => ∅ end.
Definition directories (root : string) (boundary : option string) : list string :=
  visits (S dir_count) boundary ([root], root_seen root).
Definition offered (root : string) (boundary : option string) : list string :=
  concat (java_files boundary <$> directories root boundary).
Definition root_fault (root : string) : bool :=
  match canonicalize root with Ok _ => false | Err e => is_fault e end.

(** Handing files to [on_file] until it declines one. *)
Fixpoint feed {A} (on_file : A → string → A * bool) (a : A) (files : list string) : A * bool :=
  match files with
  | [] => (a, true)
  | p :: files' =>
      let '(a', continue) := on_file a p in
      if continue then feed on_file a' files' else (a', false)
  end.

Lemma feed_app {A} (on_file : A → string → A * bool) a l k :
  feed on_file a (l ++ k) = let '(a', c) := feed on_file a l in if c then feed on_file a' k else (a', false).
Proof.
  revert a. induction l as [|p l IH]; intros a; simpl; [done|].
  destruct (on_file a p) as [a' []]; [apply IH | done].
Qed.

(** What holds of the state and the files handed over so far holds in the end. *)
Lemma feed_inv {A} (I : A → list string → Prop) (on_file : A → string → A * bool) :
  (∀ a l p, I a l → I (on_file a p).1 (if (on_file a p).2 then l ++ [p] else l)) →
  ∀ l a done_, I a done_ →
  ∃ k rest, l = k ++ rest ∧ I (feed on_file a l).1 (done_ ++ k)
            ∧ ((feed on_file a l).2 = true → rest = []).
Proof.
  intros step. induction l as [|p l IH]; intros a dn HI; simpl.
  { exists [], []. split_and!; [done | by rewrite app_nil_r | done]. }
  pose proof (step a dn p HI) as Hs. destruct (on_file a p) as [a' []]; simpl in *.
  - destruct (IH a' (dn ++ [p]) Hs) as (k & rest & -> & HI' & F).
    exists (p :: k), rest. split_and!; [done | by rewrite <-app_assoc in HI' | done].
  - exists [], (p :: l). split_and!; [done | by rewrite app_nil_r | done].
Qed.

Lemma scan_entry_feed {A} (on_file : A → string → A * bool) boundary dir s r :
  scan_entry on_file boundary dir s r =
  let sv := push_dir boundary dir (stack s, visited s) r in
  let '(a', c) := feed on_file (acc s) (omap (java_file boundary dir) [r]) in
  (mkScan sv.1 sv.2 (faults s || fault_at boundary dir r) a', c).
Proof.
  unfold scan_entry, push_dir, fault_at. simpl. unfold java_file.
  destruct s as [st vi fa a], (classify boundary dir r) as [|e|path canon|name path]; simpl;
    rewrite ?orb_false_r; [done..| |].
  - by case_bool_decide.
  - destruct (ends_with ".java" name); simpl; [|done].
    destruct (on_file a path) as [a' []]; simpl; by rewrite ?orb_false_r.
Qed.

Lemma scan_dir_feed {A} (on_file : A → string → A * bool) boundary dir rs : ∀ s,
  ∃ sv fa,
  scan_dir on_file boundary dir s rs =
  (let '(a', c) := feed on_file (acc s) (omap (java_file boundary dir) rs) in (mkScan sv.1 sv.2 fa a', c))
  ∧ ((feed on_file (acc s) (omap (java_file boundary dir) rs)).2 = true →
     sv = fold_left (push_dir boundary dir) rs (stack s, visited s)
     ∧ fa = faults s || existsb (fault_at boundary dir) rs).
Proof.
  induction rs as [|r rs IH]; intros s; cbn [scan_dir fold_left existsb].
  - exists (stack s, visited s), (faults s). simpl. rewrite orb_false_r. by destruct s.
  - rewrite scan_entry_feed. cbn zeta.
    change (omap (java_file boundary dir) (r :: rs))
      with (omap (java_file boundary dir) ([r] ++ rs)).
    rewrite omap_app, feed_app.
    destruct (feed on_file (acc s) (omap (java_file boundary dir) [r])) as [a' c]. destruct c.
    + destruct (IH (mkScan (push_dir boundary dir (stack s, visited s) r).1
                      (push_dir boundary dir (stack s, visited s) r).2
                      (faults s || fault_at boundary dir r) a')) as (sv & fa & E & F).
      exists sv, fa. split; [exact E|]. intros T. destruct (F T) as [-> ->]. simpl.
      split; [by destruct (push_dir boundary dir (stack s, visited s) r) | by rewrite orb_assoc].
    + by exists (push_dir boundary dir (stack s, visited s) r), (faults s || fault_at boundary dir r).
Qed.

Lemma walk_loop_feed {A} (on_file : A → string → A * bool) boundary fuel : ∀ s,
  let ds := visits fuel boundary (stack s, visited s) in
  let '(a', c) := feed on_file (acc s) (concat (java_files boundary <$> ds)) in
  ∃ fa, walk_loop fuel on_file boundary s = (mkWalk (negb c) fa, a')
        ∧ (c = true → fa = faults s || existsb (dir_faults boundary) ds).
Proof.
  induction fuel as [|f IH]; intros [st vi fa a]; destruct st as [|dir rest];
    cbn [visits walk_loop stack visited faults acc fst snd fmap list_fmap concat feed];
    try (exists fa; simpl; by rewrite orb_false_r).
  cbn zeta. cbn [existsb]. rewrite feed_app. unfold java_files at 1, push_dirs, dir_faults at 1.
  destruct (read_dir dir) as [rs|e]; cbn [omap feed fst snd];
    [|specialize (IH (mkScan rest vi (fa || is_fault e) a)); cbn [stack visited faults acc] in IH;
      cbn zeta in IH; destruct (feed _ _ _) as [a' c]; destruct IH as (fa' & E & F);
      exists fa'; split; [done|]; intros T; by rewrite (F T), orb_assoc].
  - destruct (scan_dir_feed on_file boundary dir rs (mkScan rest vi fa a)) as (sv & fa' & E & F).
    cbn [stack visited faults acc] in E, F. rewrite E.
    destruct (feed on_file a (omap (java_file boundary dir) rs)) as [a1 c]. destruct c; cbn zeta.
    + destruct (F eq_refl) as [<- ->]. clear E F.
      specialize (IH (mkScan sv.1 sv.2 (fa || existsb (fault_at boundary dir) rs) a1)).
      cbn [stack visited faults acc] in IH. cbn zeta in IH. rewrite <-surjective_pairing in IH.
      destruct (feed _ _ _) as [a' c]. destruct IH as (fa' & E & F).
      exists fa'. split; [done|]. intros T. by rewrite (F T), orb_assoc.
    + by exists fa'.
Qed.

(** A walk is its files handed to [on_file] until it declines one. *)
Lemma walk_is_feed {A} root boundary (on_file : A → string → A * bool) a :
  let '(w, a') := walk_java_files root boundary on_file a in
  feed on_file a (offered root boundary) = (a', negb (stopped_early w))
  ∧ (stopped_early w = false →
     io_errors w = root_fault root || existsb (dir_faults boundary) (directories root boundary)).
Proof.
  pose proof (walk_loop_feed on_file boundary (S dir_count) (start_scan root a)) as W.
  unfold walk_java_files. revert W. unfold start_scan, offered, directories, root_seen, root_fault.
  destruct (canonicalize root) as [canon|e]; cbn [stack visited faults acc];
    destruct (feed _ _ _) as [a' c]; intros (fa & -> & F); cbn [stopped_early io_errors];
    (split; [by destruct c | intros T; apply F; by destruct c]).
Qed.

End Walk.

(** ** What there is to find *)

Section Reach.
Context `{FsView}.
Variables (root : string) (boundary : option string).

(** The directories below [root] that may be entered. *)
Inductive reach : string → Prop :=
| reach_root : reach root
| reach_sub dir results r path canon : reach dir → read_dir dir = Ok results → r ∈ results →
    classify boundary dir r = Dir path canon → reach path.

(** Two paths of one directory. *)
Definition same_dir (p q : string) : Prop := p = q ∨ ∃ c, canonicalize p = Ok c ∧ canonicalize q = Ok c.

Lemma classify_Dir dir r path canon : classify boundary dir r = Dir path canon →
  canonicalize path = Ok canon ∧ path_is_dir canon = true ∧ within boundary canon = true.
Proof.
  unfold classify. destruct r as [name|e]; [|done].
  destruct (is_excluded_component name); [done|].
  destruct (canonicalize (path_join dir name)) as [c|e] eqn:E; [|done].
  destruct (within boundary c) eqn:Ew; simpl; [|done].
  destruct (path_is_dir c) eqn:Ed; [|done]. by intros [= <- <-].
Qed.

Definition known (ds : list string) (vs : gset string) : Prop :=
  Forall reach ds ∧ NoDup (canonicalize <$> ds)
  ∧ (∀ c, c ∈ vs ↔ Ok c ∈ canonicalize <$> ds).

Lemma known_perm ds ds' vs : ds ≡ₚ ds' → known ds vs → known ds' vs.
Proof.
  intros P (R & N & V). split_and!.
  - by rewrite <-P.
  - by rewrite <-P.
  - intros c. rewrite V. by rewrite P.
Qed.

Lemma push_dir_known ds dir results r st vs :
  reach dir → read_dir dir = Ok results → r ∈ results →
  known (ds ++ st) vs →
  known (ds ++ (push_dir boundary dir (st, vs) r).1) (push_dir boundary dir (st, vs) r).2.
Proof.
  intros Hr Hd He K. unfold push_dir.
  destruct (classify boundary dir r) as [| | path canon |] eqn:E; try done. simpl.
  case_bool_decide as Hc; [done|]. simpl.
  destruct (classify_Dir _ _ _ _ E) as (Hp & _). destruct K as (R & N & V).
  apply (known_perm (path :: ds ++ st)); [by rewrite Permutation_middle|].
  split_and!; rewrite ?fmap_cons.
  - constructor; [by eapply reach_sub | done].
  - constructor; [|done]. rewrite Hp, <-V. done.
  - intros c. rewrite elem_of_union, elem_of_singleton, V, elem_of_cons, Hp. naive_solver.
Qed.

Lemma push_all_known ds dir results rs : ∀ st vs,
  reach dir → read_dir dir = Ok results → rs ⊆ results →
  known (ds ++ st) vs →
  let sv := fold_left (push_dir boundary dir) rs (st, vs) in
  known (ds ++ sv.1) sv.2 ∧ vs ⊆ sv.2
  ∧ ∀ r path canon, r ∈ rs → classify boundary dir r = Dir path canon → canon ∈ sv.2.
Proof.
  induction rs as [|r rs IH]; intros st vs Hr Hd Hs K; cbn zeta; cbn [fold_left].
  { split_and!; [done..|]. intros r' p c Hin. by apply elem_of_nil in Hin. }
  pose proof (push_dir_known ds dir results r st vs Hr Hd ltac:(set_solver) K) as K'.
  assert (Hm : vs ⊆ (push_dir boundary dir (st, vs) r).2
    ∧ ∀ path canon, classify boundary dir r = Dir path canon → canon ∈ (push_dir boundary dir (st, vs) r).2).
  { unfold push_dir. destruct (classify boundary dir r) as [| | path canon |]; try by split.
    simpl. case_bool_decide; simpl; split; [done| naive_solver | set_solver | set_solver]. }
  destruct (push_dir boundary dir (st, vs) r) as [st' vs']. simpl in *.
  destruct (IH st' vs' Hr Hd ltac:(set_solver) K') as (K2 & M2 & C2).
  split_and!; [done | set_solver |].
  intros r' p c [->|Hin]%elem_of_cons E; [|by eapply C2]. destruct Hm as [_ Hm]. set_solver.
Qed.

(** Every directory the walk has read leads only to directories it has seen. *)
Definition closed (ds : list string) (vs : gset string) : Prop :=
  ∀ dir results r path canon, dir ∈ ds → read_dir dir = Ok results → r ∈ results →
    classify boundary dir r = Dir path canon → canon ∈ vs.

Variable universe : gset string.
Hypothesis all_dirs : ∀ p c, canonicalize p = Ok c → path_is_dir c = true → c ∈ universe.

Definition left_over (sv : list string * gset string) : nat := (length sv.1 + size (universe ∖ sv.2))%nat.

Lemma push_dir_left dir sv r : (left_over (push_dir boundary dir sv r) ≤ left_over sv)%nat.
Proof.
  unfold push_dir. destruct (classify boundary dir r) as [| | path canon |] eqn:E; try done.
  case_bool_decide as Hc; [done|]. unfold left_over. simpl.
  destruct (classify_Dir _ _ _ _ E) as (Hp & Hd & _).
  pose proof (all_dirs _ _ Hp Hd) as Hu.
  assert (E1 : universe ∖ sv.2 = {[canon]} ∪ universe ∖ ({[canon]} ∪ sv.2)).
  { apply set_eq. intros x. destruct (decide (x = canon)); set_solver. }
  apply (f_equal size) in E1.
  assert (E2 : {[canon]} ## universe ∖ ({[canon]} ∪ sv.2)) by set_solver.
  apply size_union in E2. rewrite size_singleton in E2. lia.
Qed.

Lemma push_dirs_left dir sv : (left_over (push_dirs boundary dir sv) ≤ left_over sv)%nat.
Proof.
  unfold push_dirs. destruct (read_dir dir) as [rs|e]; [|done].
  revert sv. induction rs as [|r rs IH]; intros sv; simpl; [done|].
  etrans; [apply IH | apply push_dir_left].
Qed.

Lemma push_dirs_known ds dir rest vs :
  known (ds ++ dir :: rest) vs →
  let sv := push_dirs boundary dir (rest, vs) in
  known ((ds ++ [dir]) ++ sv.1) sv.2 ∧ vs ⊆ sv.2
  ∧ ∀ results r path canon, read_dir dir = Ok results → r ∈ results →
      classify boundary dir r = Dir path canon → canon ∈ sv.2.
Proof.
  intros K. unfold push_dirs. assert (Hr : reach dir).
  { destruct K as (R & _). rewrite Forall_forall in R. apply R; apply elem_of_app. right. by left. }
  apply (known_perm _ ((ds ++ [dir]) ++ rest)) in K; [|by rewrite <-app_assoc].
  destruct (read_dir dir) as [rs|e] eqn:E; [|split_and!; [done..|]; by intros].
  destruct (push_all_known (ds ++ [dir]) dir rs rs rest vs Hr E ltac:(done) K) as (K' & M & C).
  split_and!; [done..|]. intros results r path canon [= <-]. apply C.
Qed.

(** Enough fuel finishes the walk: it has read every directory it has seen. *)
Lemma visits_known fuel : ∀ ds st vs, (left_over (st, vs) ≤ fuel)%nat →
  known (ds ++ st) vs → closed ds vs →
  ∃ vs', known (ds ++ visits fuel boundary (st, vs)) vs'
         ∧ closed (ds ++ visits fuel boundary (st, vs)) vs'.
Proof.
  induction fuel as [|f IH]; intros ds st vs Hf K C; destruct st as [|dir rest];
    cbn [visits fst snd].
  1, 3: rewrite app_nil_r in *; by exists vs.
  - unfold left_over in Hf. simpl in Hf. lia.
  - destruct (push_dirs_known ds dir rest vs K) as (K' & M & C').
    pose proof (push_dirs_left dir (rest, vs)) as Hl.
    destruct (push_dirs boundary dir (rest, vs)) as [st' vs'] eqn:E. simpl in K', M, C'.
    destruct (IH (ds ++ [dir]) st' vs') as (vs2 & K2 & C2).
    + unfold left_over in *. simpl in *. lia.
    + done.
    + intros d rs r path canon [Hin| ->%list_elem_of_singleton]%elem_of_app Hd He Hk.
      * apply M. by eapply C.
      * by eapply C'.
    + exists vs2. by rewrite <-!app_assoc in K2, C2.
Qed.


End Reach.

(** Documented behaviour of a file system nobody is changing: there are at
    most [dir_count] directories, and what a directory holds does not depend
    on the path it is reached by. *)
Class FsLaws `{FsView} : Prop := {
  law_finite : ∃ universe : gset string, (size universe ≤ dir_count)%nat
    ∧ ∀ p c, canonicalize p = Ok c → path_is_dir c = true → c ∈ universe;
  law_same : ∀ p q c, canonicalize p = Ok c → canonicalize q = Ok c →
    read_dir p = read_dir q
    ∧ ∀ results name, read_dir p = Ok results → Ok name ∈ results →
        canonicalize (path_join p name) = canonicalize (path_join q name);
}.

(** [f] is an entry of [dir] that is a Java file: a name that is not excluded
    and ends in [.java], of something that is inside the boundary and is no
    directory. *)
Definition java_entry `{FsView} (boundary : option string) (dir f : string) : Prop :=
  ∃ results name canon, read_dir dir = Ok results ∧ Ok name ∈ results ∧ f = path_join dir name
    ∧ is_excluded_component name = false ∧ ends_with ".java" name = true
    ∧ canonicalize f = Ok canon ∧ within boundary canon = true ∧ path_is_dir canon = false.

Lemma elem_of_java_files `{FsView} boundary dir f :
  f ∈ java_files boundary dir ↔ java_entry boundary dir f.
Proof.
  unfold java_files, java_entry. destruct (read_dir dir) as [rs|e].
  2:{ split; [by intros ?%elem_of_nil | by intros (? & ? & ? & ? & _)]. }
  rewrite list_elem_of_omap. unfold java_file, classify. split.
  - intros (r & Hin & E). destruct r as [name|e]; [|done].
    destruct (is_excluded_component name) eqn:Ex; [done|].
    destruct (canonicalize (path_join dir name)) as [c|e] eqn:Ec; [|done].
    destruct (within boundary c) eqn:Ew; simpl in E; [|done].
    destruct (path_is_dir c) eqn:Ed; [done|].
    destruct (ends_with ".java" name) eqn:Ej; [|done]. injection E as <-.
    by exists rs, name, c.
  - intros (? & name & c & [= <-] & Hin & -> & Ex & Ej & Ec & Ew & Ed).
    exists (Ok name). rewrite Ex, Ec, Ew. simpl. rewrite Ed. by rewrite Ej.
Qed.

Section Exact.
Context `{FsLaws}.

Lemma classify_same boundary p q r path canon c results :
  canonicalize p = Ok c → canonicalize q = Ok c → read_dir p = Ok results → r ∈ results →
  classify boundary p r = Dir path canon → ∃ path', classify boundary q r = Dir path' canon.
Proof.
  intros Hp Hq Hr Hin. destruct (law_same p q c Hp Hq) as [_ Hn]. unfold classify.
  destruct r as [name|e]; [|done].
  destruct (is_excluded_component name); [done|].
  rewrite (Hn results name Hr Hin).
  destruct (canonicalize (path_join q name)) as [c'|e]; [|done].
  destruct (negb (within boundary c')); [done|]. destruct (path_is_dir c'); [|done].
  intros [= _ ->]. by eexists.
Qed.

Lemma start_known root boundary : known root boundary ([] ++ [root]) (root_seen root).
Proof.
  split_and!; simpl.
  - by repeat constructor.
  - apply NoDup_singleton.
  - intros c. unfold root_seen. destruct (canonicalize root) as [c'|e];
      rewrite list_elem_of_singleton; set_solver.
Qed.

Lemma directories_complete root boundary d : reach root boundary d →
  ∃ d', d' ∈ directories root boundary ∧ same_dir d d'.
Proof.
  destruct law_finite as (U & Hs & HU).
  destruct (visits_known root boundary U HU (S dir_count) [] [root] (root_seen root))
    as (vs & (_ & _ & V) & C).
  { unfold left_over. simpl. pose proof (subseteq_size (U ∖ root_seen root) U ltac:(set_solver)). lia. }
  { apply start_known. }
  { intros ? ? ? ? ? Hin. by apply elem_of_nil in Hin. }
  rewrite !app_nil_l in *. fold (directories root boundary) in *. intros Hr.
  induction Hr as [|dir results r path canon Hr (dir' & Hin & Hsame) Hd He Hk].
  - exists root. split; [|by left]. by left.
  - assert (∃ path', read_dir dir' = Ok results ∧ classify boundary dir' r = Dir path' canon)
      as (path' & Hd' & Hk').
    { destruct Hsame as [<-|(c & H1 & H2)]; [by eexists|].
      destruct (classify_same boundary dir dir' r path canon c results) as [path' ?]; [done..|].
      exists path'. split; [|done]. by rewrite <-(proj1 (law_same dir dir' c H1 H2)). }
    pose proof (C _ _ _ _ _ Hin Hd' He Hk') as Hc. apply V, list_elem_of_fmap in Hc as (d2 & E & Hd2).
    exists d2. split; [done|]. right. exists canon. split; [|done].
    by apply (classify_Dir boundary) in Hk as (? & _).
Qed.

Lemma directories_sound root boundary :
  Forall (reach root boundary) (directories root boundary)
  ∧ NoDup (canonicalize <$> directories root boundary).
Proof.
  destruct law_finite as (U & Hs & HU).
  destruct (visits_known root boundary U HU (S dir_count) [] [root] (root_seen root))
    as (vs & (R & N & _) & _).
  { unfold left_over. simpl. pose proof (subseteq_size (U ∖ root_seen root) U ltac:(set_solver)). lia. }
  { apply start_known. }
  { intros ? ? ? ? ? Hin. by apply elem_of_nil in Hin. }
  done.
Qed.

(** Every Java file has a name among those of the directories read. *)
Lemma java_files_complete root boundary dir f c :
  reach root boundary dir → java_entry boundary dir f → canonicalize f = Ok c →
  ∃ f', f' ∈ concat (java_files boundary <$> directories root boundary) ∧ canonicalize f' = Ok c.
Proof.
  intros Hr Hf Hc. destruct (directories_complete root boundary dir Hr) as (d' & Hin & Hs).
  destruct Hf as (results & name & canon & Hd & Hn & -> & Hx & Hj & Hcn & Hw & Hnd).
  assert (read_dir d' = Ok results ∧ canonicalize (path_join d' name) = Ok c) as [Hd' Hc'].
  { destruct Hs as [<-|(cd & H1 & H2)]; [done|]. destruct (law_same dir d' cd H1 H2) as [E1 E2].
    split; [by rewrite <-E1|]. by rewrite <-(E2 results name Hd Hn). }
  exists (path_join d' name). split; [|done].
  apply list_elem_of_In, in_concat. exists (java_files boundary d'). split.
  - by apply in_map, list_elem_of_In.
  - apply list_elem_of_In, elem_of_java_files. exists results, name, c. by assert (canon = c) as <- by congruence.
Qed.

(** C18: A workspace scan terminates and is exact.  It reads directories that can
    be entered from the root without an excluded name or a path outside the
    boundary, every one of them under some path and none under two, whatever
    links there are.  [on_file] is handed the Java files of these directories
    in order, every entry of theirs and nothing else, until it declines one,
    which is what [stopped_early] says; so every Java file that has a name in
    an enterable directory is handed over, a file with several names in the
    directories read once for each of them ([linked_file_offered_twice]).  A
    scan that was not stopped says whether anything but a vanished path
    failed. *)
Theorem walk_java_files_exact root boundary : ∃ ds files,
  Forall (reach root boundary) ds
  ∧ (∀ d, reach root boundary d → ∃ d', d' ∈ ds ∧ same_dir d d')
  ∧ NoDup (canonicalize <$> ds)
  ∧ files = concat (java_files boundary <$> ds)
  ∧ (∀ f, f ∈ files ↔ ∃ dir, dir ∈ ds ∧ java_entry boundary dir f)
  ∧ (∀ dir f c, reach root boundary dir → java_entry boundary dir f → canonicalize f = Ok c →
       ∃ f', f' ∈ files ∧ canonicalize f' = Ok c)
  ∧ ∀ A (on_file : A → string → A * bool) a,
    let '(w, a') := walk_java_files root boundary on_file a in
    feed on_file a files = (a', negb (stopped_early w))
    ∧ (stopped_early w = false →
       io_errors w = root_fault root || existsb (dir_faults boundary) ds).
Proof.
  exists (directories root boundary), (concat (java_files boundary <$> directories root boundary)).
  destruct (directories_sound root boundary) as [R N].
  split_and!; [done | apply directories_complete | done | done | | apply java_files_complete |].
  - intros f. rewrite list_elem_of_In, in_concat. split.
    + intros (l & (dir & <- & Hd%list_elem_of_In)%in_map_iff & Hf%list_elem_of_In).
      exists dir. by rewrite <-elem_of_java_files.
    + intros (dir & Hd%list_elem_of_In & Hf). exists (java_files boundary dir).
      split; [by apply in_map|]. by apply list_elem_of_In, elem_of_java_files.
  - intros A on_file a. apply walk_is_feed.
Qed.

End Exact.
End FsScan.

(** ** The reference search's prefilter ([references.rs]) *)

Module References.
Import FsScan.

Definition MAX_FILES_SCANNED : Z := 500.
Definition MAX_BYTES_SCANNED : Z := 20 * 1024 * 1024.
Definition MAX_SINGLE_FILE_BYTES : Z := 4 * 1024 * 1024.

Record Prefilter := mkPrefilter { files : list string; truncated : bool }.

Fixpoint windows (n : nat) (l : list Z) : list (list Z) :=
  match l with
  | [] => []
  | _ :: l' => if (n <=? length l)%nat then take n l :: windows n l' else []
  end.
Definition contains_subslice (haystack needle : list Z) : bool :=
  negb (bool_decide (needle = []))
  && existsb (λ w, bool_decide (w = needle)) (windows (length needle) haystack).

(** The metadata and the contents of a file. *)
Class FileReads := {
  metadata_len : string → Result IoError Z;
  read_file : string → Result IoError (list Z);
}.

(** The variables the closure captures. *)
Record Found := mkFound {
  found : list string; files_scanned : Z; bytes_scanned : Z; incomplete : bool }.

Section Prefilter.
Context `{FsView} `{FileReads}.

Definition oversized (path : string) : bool :=
  match metadata_len path with Ok len => MAX_SINGLE_FILE_BYTES <? len | Err _ => false end.

Definition scan_file (needle : string) (s : Found) (path : string) : Found * bool :=
  if (MAX_FILES_SCANNED <=? files_scanned s) || (MAX_BYTES_SCANNED <=? bytes_scanned s) then (s, false)
  else if oversized path then (mkFound (found s) (files_scanned s) (bytes_scanned s) true, true)
  else match read_file path with
       | Ok bytes =>
           (mkFound (if contains_subslice bytes (as_bytes needle) then found s ++ [path] else found s)
              (files_scanned s + 1) (bytes_scanned s + Z.of_nat (length bytes)) (incomplete s), true)
       | Err NotFound => (s, true)
       | Err _ => (mkFound (found s) (files_scanned s) (bytes_scanned s) true, true)
       end.

Fixpoint scan_roots (roots : list string) (boundary : option string) (needle : string) (s : Found) : Found :=
  match roots with
  | [] => s
  | root :: roots' =>
      let '(walk, s) := walk_java_files root boundary (scan_file needle) s in
      let s := if stopped_early walk || io_errors walk
               then mkFound (found s) (files_scanned s) (bytes_scanned s) true else s in
      if stopped_early walk then s else scan_roots roots' boundary needle s
  end.

Definition no_files : Found := mkFound [] 0 0 false.

Definition prefilter (roots : list string) (boundary : option string) (needle : string) : Prefilter :=
  let scan b := let s := scan_roots roots b needle no_files in mkPrefilter (found s) (incomplete s) in
  match boundary with
  | None => scan None
  | Some b => match canonicalize b with Ok c => scan (Some c) | Err _ => mkPrefilter [] true end
  end.

(** ** Correctness *)

Lemma elem_of_windows n w l : (0 < n)%nat →
  w ∈ windows n l ↔ length w = n ∧ ∃ pre post, l = pre ++ w ++ post.
Proof.
  intros Hn. induction l as [|b l IH]; cbn [windows].
  - split; [by intros ?%elem_of_nil|]. intros (<- & pre & post & E). symmetry in E.
    apply app_eq_nil in E as [_ [-> _]%app_eq_nil]. simpl in Hn. lia.
  - destruct (n <=? length (b :: l))%nat eqn:E.
    + apply Nat.leb_le in E. rewrite elem_of_cons, IH. split.
      * intros [->|(? & pre & post & ->)]; [|by split; [|exists (b :: pre), post]].
        split; [rewrite length_take; lia|]. exists [], (drop n (b :: l)). by rewrite take_drop.
      * intros (<- & [|x pre] & post & El).
        -- left. rewrite El. simpl. by rewrite take_app_length.
        -- right. injection El as -> ->. eauto.
    + apply Nat.leb_gt in E. split; [by intros ?%elem_of_nil|].
      intros (<- & pre & post & El). rewrite El, !length_app in E. lia.
Qed.

Lemma contains_subslice_spec h n :
  contains_subslice h n = true ↔ n ≠ [] ∧ ∃ pre post, h = pre ++ n ++ post.
Proof.
  unfold contains_subslice. rewrite andb_true_iff, negb_true_iff, bool_decide_eq_false.
  destruct n as [|b n]; [naive_solver|]. rewrite existsb_exists. split.
  - intros [_ (w & Hin%list_elem_of_In & ->%bool_decide_eq_true)]. split; [done|].
    by apply elem_of_windows in Hin as [_ ?]; [|simpl; lia].
  - intros [_ Hx]. split; [done|]. exists (b :: n). split; [|by apply bool_decide_eq_true].
    apply list_elem_of_In, elem_of_windows; [simpl; lia | done].
Qed.

(** A file the search is after. *)
Definition matching (needle path : string) : bool :=
  match read_file path with Ok bytes => contains_subslice bytes (as_bytes needle) | Err _ => false end.

(** What has been counted of the files [l] handed over so far. *)
Definition counted (needle : string) (s : Found) (l : list string) : Prop :=
  sublist (found s) (List.filter (matching needle) l)
  ∧ (incomplete s = false → found s = List.filter (matching needle) l)
  ∧ Z.of_nat (length (found s)) ≤ files_scanned s ≤ MAX_FILES_SCANNED
  ∧ 0 ≤ bytes_scanned s
  ∧ ((∀ p b, read_file p = Ok b → metadata_len p = Ok (Z.of_nat (length b))) →
     bytes_scanned s < MAX_BYTES_SCANNED + MAX_SINGLE_FILE_BYTES).

Lemma counted_snoc needle s l p s' (b : bool) : counted needle s l →
  found s' = found s ++ (if b then [p] else []) →
  (b = true → matching needle p = true) →
  (incomplete s' = false → incomplete s = false ∧ b = matching needle p) →
  files_scanned s + (if b then 1 else 0) ≤ files_scanned s' ≤ MAX_FILES_SCANNED →
  0 ≤ bytes_scanned s' →
  ((∀ p b, read_file p = Ok b → metadata_len p = Ok (Z.of_nat (length b))) →
   bytes_scanned s' < MAX_BYTES_SCANNED + MAX_SINGLE_FILE_BYTES) →
  counted needle s' (l ++ [p]).
Proof.
  intros (Hsub & Hall & Hn & _ & _) Hf Hb Hi Hs' Hb' Hc'. unfold counted.
  rewrite Hf, List.filter_app, length_app. cbn [List.filter]. split_and!; try done.
  - apply sublist_app; [done|]. destruct b; [by rewrite Hb|]. apply sublist_nil_l.
  - intros T. destruct (Hi T) as [T' ->]. by rewrite (Hall T').
  - destruct b; simpl; lia.
  - lia.
Qed.

Lemma tally_step needle s l p : counted needle s l →
  counted needle (scan_file needle s p).1 (if (scan_file needle s p).2 then l ++ [p] else l).
Proof.
  intros C. pose proof C as (Hsub & Hall & Hn & Hb & Hc). unfold scan_file.
  destruct (MAX_FILES_SCANNED <=? files_scanned s) eqn:En; [done|].
  destruct (MAX_BYTES_SCANNED <=? bytes_scanned s) eqn:Eb; [done|]. simpl orb. cbn iota.
  apply Z.leb_gt in En, Eb.
  destruct (oversized p) eqn:Eo.
  { apply (counted_snoc _ s l p _ false); simpl; rewrite ?app_nil_r; done || lia || auto. }
  unfold oversized in Eo.
  assert (Em : matching needle p = match read_file p with
    Ok bytes => contains_subslice bytes (as_bytes needle) | Err _ => false end) by done.
  destruct (read_file p) as [bytes|[]] eqn:Er; cbn [fst snd].
  - apply (counted_snoc _ s l p _ (contains_subslice bytes (as_bytes needle))); try done;
      cbn [found files_scanned bytes_scanned incomplete].
    + destruct (contains_subslice _ _); by rewrite ?app_nil_r.
    + by rewrite Em.
    + destruct (contains_subslice _ _); lia.
    + lia.
    + intros Hm. rewrite (Hm _ _ Er) in Eo. apply Z.ltb_ge in Eo. lia.
  - apply (counted_snoc _ s l p _ false); rewrite ?app_nil_r; done || lia || auto.
  - apply (counted_snoc _ s l p _ false); simpl; rewrite ?app_nil_r; done || lia || auto.
Qed.

Lemma counted_taint needle s l : counted needle s l →
  counted needle (mkFound (found s) (files_scanned s) (bytes_scanned s) true) l.
Proof. intros (A & _ & B). split; [done|]. split; [done | exact B]. Qed.

Lemma scan_roots_counted needle boundary roots : ∀ s l, counted needle s l →
  ∃ k rest, concat ((λ root, offered root boundary) <$> roots) = k ++ rest
  ∧ counted needle (scan_roots roots boundary needle s) (l ++ k)
  ∧ (incomplete (scan_roots roots boundary needle s) = false → rest = []).
Proof.
  induction roots as [|root roots IH]; intros s l C; cbn [scan_roots fmap list_fmap concat].
  { exists [], []. split_and!; [done | by rewrite app_nil_r | done]. }
  pose proof (walk_is_feed root boundary (scan_file needle) s) as W.
  destruct (feed_inv (counted needle) (scan_file needle) (tally_step needle)
              (offered root boundary) s l C) as (k & rest & E & C' & F).
  destruct (walk_java_files root boundary (scan_file needle) s) as [w s1]. destruct W as [W _].
  rewrite W in C', F. simpl in C', F. rewrite E.
  destruct (stopped_early w) eqn:Ew; simpl.
  - exists k, (rest ++ concat ((λ root, offered root boundary) <$> roots)).
    split_and!; [by rewrite app_assoc | by apply counted_taint | done].
  - rewrite (F eq_refl), app_nil_r. clear E F W.
    assert (C2 : counted needle (if io_errors w then mkFound (found s1) (files_scanned s1)
                                    (bytes_scanned s1) true else s1) (l ++ k)).
    { destruct (io_errors w); [by apply counted_taint | done]. }
    destruct (IH _ _ C2) as (k2 & rest2 & E2 & C3 & F2).
    exists (k ++ k2), rest2. rewrite E2. split_and!; [by rewrite app_assoc | by rewrite app_assoc | done].
Qed.

(** The prefilter never passes a partial result off as complete.  Whatever
    caps, oversized or unreadable files, directories or boundary it meets,
    the files listed are, in walk order, files the scan may see and that
    contain the name; when [truncated] is false they are all of them, the
    boundary being readable; at most 500 are listed. *)
Theorem prefilter_exact roots boundary needle :
  let r := prefilter roots boundary needle in
  ∃ canon_boundary,
  (truncated r = false → match boundary with
     | None => canon_boundary = None
     | Some b => ∃ c, canonicalize b = Ok c ∧ canon_boundary = Some c end)
  ∧ let all := concat ((λ root, offered root canon_boundary) <$> roots) in
    sublist (files r) (List.filter (matching needle) all)
    ∧ (truncated r = false → files r = List.filter (matching needle) all)
    ∧ Z.of_nat (length (files r)) ≤ MAX_FILES_SCANNED.
Proof.
  assert (S : ∀ b, let s := scan_roots roots b needle no_files in
    let all := concat ((λ root, offered root b) <$> roots) in
    sublist (found s) (List.filter (matching needle) all)
    ∧ (incomplete s = false → found s = List.filter (matching needle) all)
    ∧ Z.of_nat (length (found s)) ≤ MAX_FILES_SCANNED).
  { intros b s all. subst s all.
    destruct (scan_roots_counted needle b roots no_files []) as (k & rest & E & (Hs & Ha & Hn & _) & F).
    { by split_and!. }
    rewrite E, List.filter_app. simpl in Hs, Ha. split_and!.
    - by apply sublist_inserts_r.
    - intros T. rewrite (F T), app_nil_r. by apply Ha.
    - lia. }
  unfold prefilter. destruct boundary as [b|].
  - destruct (canonicalize b) as [c|e]; cbn [files truncated].
    + exists (Some c). split; [by eexists | apply S].
    + exists None. split; [done|]. split_and!; [apply sublist_nil_l | done | done].
  - exists None. split; [done | apply S].
Qed.
End Prefilter.
End References.

(** ** An instance: a directory linked twice *)

Module LinkedFs.
Import FsScan References.

Definition entry_names (p : string) : option (list string) :=
  if bool_decide (p = "/w") then Some ["src"; "link"; "target"]
  else if bool_decide (p = "/w/src") || bool_decide (p = "/w/link") then Some ["A.java"; "B.txt"]
  else None.
Definition links : list (string * string) :=
  [("/w", "/w"); ("/w/src", "/w/src"); ("/w/target", "/w/target"); ("/w/link", "/w/src");
   ("/w/src/A.java", "/w/src/A.java"); ("/w/src/B.txt", "/w/src/B.txt");
   ("/w/link/A.java", "/w/src/A.java"); ("/w/link/B.txt", "/w/src/B.txt")].
Definition resolved (p : string) : option string :=
  snd <$> List.find (λ l, bool_decide (l.1 = p)) links.

#[local] Instance linked_fs : FsView := {|
  canonicalize p := ok_or (resolved p) NotFound;
  read_dir p := ok_or (map Ok <$> entry_names p) NotFound;
  path_is_dir p := bool_decide (p ∈ ["/w"; "/w/src"; "/w/target"]);
  dir_count := 3;
|}.
#[local] Instance linked_files : FileReads := {|
  metadata_len p := Ok 3; read_file p := Ok (as_bytes "Foo");
|}.

Lemma resolved_link p c : canonicalize p = Ok c → (p, c) ∈ links.
Proof.
  simpl. unfold resolved. destruct (List.find _ links) as [[k v]|] eqn:E; [|done].
  apply List.find_some in E as [Hin <-%bool_decide_eq_true]. intros [= <-].
  by apply list_elem_of_In.
Qed.

#[local] Instance linked_laws : FsLaws.
Proof.
  split.
  - exists (list_to_set ["/w"; "/w/src"; "/w/target"]). split; [by vm_compute|].
    intros p c _ Hd. apply bool_decide_eq_true in Hd. by apply elem_of_list_to_set.
  - intros p q c Hp%resolved_link Hq%resolved_link. unfold links in *. set_unfold.
    destruct_or!; simplify_eq; (split; [reflexivity|]);
      intros results name [= <-] Hin; set_unfold; destruct_or!; simplify_eq; reflexivity.
Qed.

(** The directory is scanned once, under one of its two names. *)
Example walk_java_files_exact_witness :
  (walk_java_files "/w" (Some "/w") (λ l p, (l ++ [p], true)) []).2 = ["/w/src/A.java"]
  ∧ ∃ ds, NoDup (canonicalize <$> ds)
    ∧ ∀ d, reach "/w" (Some "/w") d → ∃ d', d' ∈ ds ∧ same_dir d d'.
Proof.
  split; [vm_compute; reflexivity|].
  destruct (walk_java_files_exact "/w" (Some "/w")) as (ds & files & _ & C & N & _).
  exists ds. split; [exact N | exact C].
Defined.

(** A file with two names in one directory is handed over under both. *)
Definition two_names : FsView := {|
  canonicalize p :=
    if bool_decide (p = "/w") then Ok "/w"
    else if bool_decide (p ∈ ["/w/A.java"; "/w/B.java"]) then Ok "/w/A.java" else Err NotFound;
  read_dir p := if bool_decide (p = "/w") then Ok (map Ok ["A.java"; "B.java"]) else Err NotFound;
  path_is_dir p := bool_decide (p = "/w");
  dir_count := 1;
|}.
Example linked_file_offered_twice :
  (@walk_java_files two_names _ "/w" (Some "/w") (λ l p, (l ++ [p], true)) []).2
    = ["/w/A.java"; "/w/B.java"]
  ∧ @canonicalize two_names "/w/A.java" = @canonicalize two_names "/w/B.java".
Proof. by vm_compute. Qed.

End LinkedFs.
