(* ===== verification/WorkspaceIndex.v ===== *)
(** * The workspace index ([crates/server/src/workspace_index.rs])

    Top-level types of unopened files, by file name and header.  The locked
    state is a record; a rebuild is split into the three parts between which
    other tasks can run (deciding, walking without the lock, storing), so that
    runs are sequences of such parts.  Unicode's case tables are parameters. *)
From Stdlib Require Import Ascii.
From S2P Require Import Prelude RustStd Paths Order FsScan.
Import FsScan.

Module WorkspaceIndex.

Definition DEFAULT_CAP : nat := 5000.

Inductive SymbolKind := CLASS | INTERFACE | ENUM.

Record SymbolEntry := mkEntry {
  simple_name : string; package : string; path : string; kind : SymbolKind }.
#[global] Instance kind_eq_dec : EqDecision SymbolKind.
Proof. solve_decision. Defined.
#[global] Instance entry_eq_dec : EqDecision SymbolEntry.
Proof. solve_decision. Defined.

Record Inner := mkInner {
  entries : list SymbolEntry; root_mtimes : gmap string (option Z);
  built : bool; truncated : bool; generation : Z; dirty : bool; dirty_epoch : Z }.
Definition default_inner : Inner := mkInner [] ∅ false false 0 false 0.

(** The disk: its directories, the time of a root, and the first bytes of a
    file, at most [HEADER_BYTES]. *)
Class IndexDisk := {
  #[global] disk_view :: FsView;
  root_mtime : string → option Z;
  read_header : string → Result IoError (list Z);
}.

(** ** Headers *)

Definition package_of_line (line : string) : option string :=
  rest ← strip_prefix "package" (trim_start line);
  if starts_with_white_space rest then
    let rest := trim_start rest in
    end_ ← str_find ";" rest;
    let dotted := without_white_space (str_take end_ rest) in
    if bool_decide (dotted = "") then None else Some dotted
  else None.
Definition extract_package (header : string) : option string :=
  head (omap package_of_line (str_lines header)).

Definition KIND_KEYWORDS : list (string * SymbolKind) :=
  [("class", CLASS); ("interface", INTERFACE); ("enum", ENUM); ("record", CLASS); ("@interface", INTERFACE)].

Definition better (header simple_name : string) (best : option (nat * SymbolKind)) (k : string * SymbolKind) :
    option (nat * SymbolKind) :=
  match str_find (k.1 +:+ " " +:+ simple_name) header with
  | None => best
  | Some pos =>
      match best with
      | Some (best_pos, _) => if (pos <? best_pos)%nat then Some (pos, k.2) else best
      | None => Some (pos, k.2)
      end
  end.
Definition detect_kind (header simple_name : string) : SymbolKind :=
  match fold_left (better header simple_name) KIND_KEYWORDS None with
  | Some (_, kind) => kind
  | None => CLASS
  end.

Definition index_file `{IndexDisk} (p : string) : Result IoError (option SymbolEntry) :=
  match file_stem p with
  | None => Ok None
  | Some name =>
      if bool_decide (name = "") then Ok None
      else match read_header p with
           | Err e => Err e
           | Ok bytes =>
               let header := from_utf8_lossy bytes in
               Ok (Some (mkEntry name (default "" (extract_package header)) p (detect_kind header name)))
           end
  end.

(** ** Building *)

(** What a walk over the roots has gathered. *)
Record Build := mkBuild {
  b_entries : list SymbolEntry; b_truncated : bool; b_incomplete : bool; b_mtimes : gmap string (option Z) }.

Definition index_step `{IndexDisk} (cap : nat) (s : list SymbolEntry * bool) (p : string) :
    (list SymbolEntry * bool) * bool :=
  if (cap <=? length s.1)%nat then (s, false)
  else match index_file p with
       | Ok (Some entry) => ((s.1 ++ [entry], s.2), true)
       | Ok None | Err NotFound => (s, true)
       | Err _ => ((s.1, true), true)
       end.

Definition build_root `{IndexDisk} (cap : nat) (boundary : option string) (b : Build) (root : string) : Build :=
  let mtimes := <[root := root_mtime root]> (b_mtimes b) in
  if (cap <=? length (b_entries b))%nat
  then mkBuild (b_entries b) true (b_incomplete b) mtimes
  else
    let '(walk, (found, incomplete)) :=
      walk_java_files root boundary (index_step cap) (b_entries b, b_incomplete b) in
    mkBuild found (b_truncated b || stopped_early walk) (incomplete || io_errors walk) mtimes.
Definition build_roots `{IndexDisk} (cap : nat) (boundary : option string) (roots : list string) : Build :=
  fold_left (build_root cap boundary) roots (mkBuild [] false false ∅).

Definition needs_rebuild `{IndexDisk} (inner : Inner) (roots : list string) : bool :=
  negb (built inner) || dirty inner
  || negb (bool_decide (size (root_mtimes inner) = length roots))
  || existsb (λ root, negb (bool_decide (root_mtimes inner !! root = Some (root_mtime root)))) roots.

(** The boundary as the walk is given it; [None] when it cannot be resolved. *)
Definition canonical_boundary `{IndexDisk} (boundary : option string) : option (option string) :=
  match boundary with
  | None => Some None
  | Some b => match canonicalize b with Ok c => Some (Some c) | Err _ => None end
  end.

Definition store (b : Build) (epoch_before : Z) (inner : Inner) : Inner :=
  mkInner (b_entries b) (b_mtimes b) true (b_truncated b) (generation inner + 1)
    (negb (bool_decide (dirty_epoch inner = epoch_before)) || b_incomplete b) (dirty_epoch inner).

(** With nothing else running. *)
Definition ensure_built `{IndexDisk} (cap : nat) (roots : list string) (boundary : option string)
    (inner : Inner) : Inner :=
  if needs_rebuild inner roots
  then match canonical_boundary boundary with
       | Some b => store (build_roots cap b roots) (dirty_epoch inner) inner
       | None => inner
       end
  else inner.

Definition invalidate (inner : Inner) : Inner :=
  mkInner (entries inner) (root_mtimes inner) (built inner) (truncated inner) (generation inner) true
    (dirty_epoch inner + 1).

(** ** Queries *)

Class Unicode := { to_lowercase : string → string; is_uppercase : string → bool }.

Fixpoint humps_go `{Unicode} (current : string) (cs : list string) : list string :=
  match cs with
  | [] => [current]
  | c :: cs' => if is_uppercase c then current :: humps_go c cs' else humps_go (current +:+ c) cs'
  end.
Definition split_humps `{Unicode} (s : string) : list string :=
  match chars s with [] => [] | c :: cs => humps_go c cs end.

Definition hump_matches `{Unicode} (query_hump candidate_hump : string) : bool :=
  starts_with (to_lowercase query_hump) (to_lowercase candidate_hump).
(** The candidate's humps after the first that matches. *)
Fixpoint next_hump `{Unicode} (query_hump : string) (candidate_humps : list string) : option (list string) :=
  match candidate_humps with
  | [] => None
  | c :: cs => if hump_matches query_hump c then Some cs else next_hump query_hump cs
  end.
Fixpoint humps_match `{Unicode} (query_humps candidate_humps : list string) : bool :=
  match query_humps with
  | [] => true
  | q :: qs =>
      match next_hump q candidate_humps with
      | Some cs => humps_match qs cs
      | None => false
      end
  end.
Definition camel_hump_matches `{Unicode} (query candidate : string) : bool :=
  humps_match (split_humps query) (split_humps candidate).
Definition matches_query `{Unicode} (query candidate : string) : bool :=
  if bool_decide (query = "") then true
  else if contains_str (to_lowercase query) (to_lowercase candidate) then true
  else camel_hump_matches query candidate.

Definition matching `{Unicode} (inner : Inner) (query : string) : list SymbolEntry :=
  List.filter (λ e, matches_query query (simple_name e)) (entries inner).
Definition paths_for_simple_name (inner : Inner) (name : string) : list string :=
  path <$> List.filter (λ e, bool_decide (simple_name e = name)) (entries inner).

Definition declares (pkg name : string) (e : SymbolEntry) : bool :=
  bool_decide (package e = pkg) && bool_decide (simple_name e = name).
Definition find_type (inner : Inner) (pkg name : string) : option string :=
  match List.filter (declares pkg name) (entries inner) with
  | [e] => Some (path e)
  | _ => None
  end.

(** [None]: slicing a name inside a character panics. *)
Definition prefix_hit (needle : string) (e : SymbolEntry) : option bool :=
  let n := String.length needle in
  if (n <=? String.length (simple_name e))%nat
  then if is_char_boundary n (simple_name e)
       then Some (eq_ignore_ascii_case (str_take n (simple_name e)) needle)
       else None
  else Some false.
Definition name_compare (a b : SymbolEntry) : comparison :=
  lex (Nat.compare (String.length (simple_name a)) (String.length (simple_name b)))
    (String.compare (simple_name a) (simple_name b)).
Fixpoint prefix_hits (needle : string) (es : list SymbolEntry) : option (list SymbolEntry) :=
  match es with
  | [] => Some []
  | e :: es' =>
      hit ← prefix_hit needle e;
      hits ← prefix_hits needle es';
      Some (if (hit : bool) then e :: hits else hits)
  end.
Definition types_with_prefix (inner : Inner) (prefix : string) (limit : nat) :
    option (list SymbolEntry * bool) :=
  if bool_decide (prefix = "") || bool_decide (limit = O) then Some ([], false)
  else
    hits ← prefix_hits (to_ascii_lowercase prefix) (entries inner);
    Some (take limit (sort_by name_compare hits), (limit <? length hits)%nat).

Definition child_segment (pkg : string) (e : SymbolEntry) : option string :=
  if bool_decide (package e = pkg) then None
  else
    rest ← strip_prefix (if bool_decide (pkg = "") then "" else pkg +:+ ".") (package e);
    if bool_decide (rest = "") then None else Some (split_first "." rest).
Definition push_new (l : list string) (s : string) : list string :=
  if bool_decide (s ∈ l) then l else l ++ [s].
Definition package_children (inner : Inner) (pkg : string) : list string * list SymbolEntry :=
  (sort_by String.compare (fold_left push_new (omap (child_segment pkg) (entries inner)) []),
   sort_by (λ a b, String.compare (simple_name a) (simple_name b))
     (List.filter (λ e, bool_decide (package e = pkg)) (entries inner))).

(** ** Runs

    Other requests run between the parts of a rebuild.  A task is a rebuild
    that has decided to go ahead, or has walked and not stored yet. *)

Inductive Task :=
| Deciding (roots : list string) (boundary : option string) (epoch_before : Z)
| Walked (b : Build) (epoch_before : Z)
| Finished.

Inductive Event :=
| Invalidate
| Begin (d : IndexDisk) (roots : list string) (boundary : option string)
| Walk (d : IndexDisk) (task : nat)
| Store (task : nat).

Record Run := mkRun { inner : Inner; tasks : list Task }.

Definition step (cap : nat) (r : Run) (e : Event) : Run :=
  match e with
  | Invalidate => mkRun (invalidate (inner r)) (tasks r)
  | Begin d roots boundary =>
      if @needs_rebuild d (inner r) roots
      then mkRun (inner r) (tasks r ++ [Deciding roots boundary (dirty_epoch (inner r))])
      else r
  | Walk d i =>
      match tasks r !! i with
      | Some (Deciding roots boundary epoch) =>
          match @canonical_boundary d boundary with
          | Some b => mkRun (inner r) (<[i := Walked (@build_roots d cap b roots) epoch]> (tasks r))
          | None => mkRun (inner r) (<[i := Finished]> (tasks r))
          end
      | _ => r
      end
  | Store i =>
      match tasks r !! i with
      | Some (Walked b epoch) => mkRun (store b epoch (inner r)) (<[i := Finished]> (tasks r))
      | _ => r
      end
  end.
Definition run (cap : nat) (es : list Event) : Run := fold_left (step cap) es (mkRun default_inner []).

(** ** What a build finds *)

Section Builds.
Context `{IndexDisk}.

Definition entry_at (p : string) : option SymbolEntry :=
  match index_file p with Ok e => e | Err _ => None end.
Definition unreadable (p : string) : bool :=
  match index_file p with Err e => is_fault e | Ok _ => false end.

Definition gathered (cap : nat) (s : list SymbolEntry * bool) (l : list string) : Prop :=
  s.1 = omap entry_at l ∧ (length s.1 ≤ cap)%nat ∧ (existsb unreadable l = true → s.2 = true).

Lemma gathered_step cap s l p : gathered cap s l →
  gathered cap (index_step cap s p).1 (if (index_step cap s p).2 then l ++ [p] else l).
Proof.
  intros (E & L & U). destruct s as [es inc]. unfold index_step. simpl in *.
  destruct (cap <=? length es)%nat eqn:Ec; [done|]. apply Nat.leb_gt in Ec.
  assert (G : ∀ es' inc', es' = es ++ option_list (entry_at p) → (length es' ≤ cap)%nat →
    inc' = inc || unreadable p → gathered cap (es', inc') (l ++ [p])).
  { intros es' inc' -> L' ->. split_and!; [|done|].
    - rewrite omap_app, <-E. simpl. by destruct (entry_at p).
    - rewrite existsb_app. simpl. rewrite orb_false_r.
      intros [T|T]%orb_true_iff; [by rewrite (U T) | by rewrite T, orb_true_r]. }
  unfold entry_at, unreadable in G.
  destruct (index_file p) as [[e|]|[]]; simpl in *; apply G;
    rewrite ?app_nil_r, ?orb_false_r, ?orb_true_r; try done.
  rewrite length_app. simpl. lia.
Qed.

Lemma declined_full cap l : ∀ s,
  (feed (index_step cap) s l).2 = false → (cap ≤ length (feed (index_step cap) s l).1.1)%nat.
Proof.
  induction l as [|p l IH]; intros s; simpl; [done|].
  destruct (index_step cap s p) as [s' []] eqn:E; [apply IH|]. simpl. intros _.
  revert E. unfold index_step. destruct (cap <=? length s.1)%nat eqn:Ec.
  - intros [= <-]. by apply Nat.leb_le.
  - destruct (index_file p) as [[e|]|[]]; naive_solver.
Qed.

(** The files handed over so far; only a full index leaves some out. *)
Definition progress (cap : nat) (b : Build) (files : list string) : Prop :=
  ∃ k rest, files = k ++ rest ∧ b_entries b = omap entry_at k ∧ (length (b_entries b) ≤ cap)%nat
    ∧ (rest = [] ∨ length (b_entries b) = cap ∧ b_truncated b = true)
    ∧ (existsb unreadable k = true → b_incomplete b = true).

Lemma build_root_progress cap boundary b files root : progress cap b files →
  progress cap (build_root cap boundary b root) (files ++ offered root boundary).
Proof.
  intros (k & rest & -> & E & L & F & I). unfold build_root.
  destruct (cap <=? length (b_entries b))%nat eqn:Ec.
  { apply Nat.leb_le in Ec. exists k, (rest ++ offered root boundary). simpl.
    split_and!; [by rewrite app_assoc | done | done | right; split; [lia|done] | done]. }
  apply Nat.leb_gt in Ec. destruct F as [->|[? _]]; [|lia]. rewrite app_nil_r.
  destruct (feed_inv (gathered cap) (index_step cap) (gathered_step cap) (offered root boundary)
              (b_entries b, b_incomplete b) k) as (k2 & rest2 & E2 & (G1 & G2 & G3) & F2); [by split_and!|].
  pose proof (declined_full cap (offered root boundary) (b_entries b, b_incomplete b)) as D.
  pose proof (walk_is_feed root boundary (index_step cap) (b_entries b, b_incomplete b)) as W.
  destruct (walk_java_files root boundary (index_step cap) _) as [w [found inc]].
  destruct W as [W _]. rewrite W in *. simpl in *. exists (k ++ k2), rest2. simpl.
  split_and!; [by rewrite E2, app_assoc | done | done | |].
  - destruct (stopped_early w); simpl in *; [|by left; apply F2].
    right. split; [pose proof (D eq_refl); lia | by rewrite orb_true_r].
  - intros T. by rewrite (G3 T).
Qed.

(** A build is the first entries of the files the roots offer: all of them,
    readable ones, unless it says otherwise. *)
Definition built_from (cap : nat) (b : Build) (files : list string) : Prop :=
  b_entries b = take cap (omap entry_at files)
  ∧ (b_truncated b = false → b_entries b = omap entry_at files
     ∧ (b_incomplete b = false → Forall (λ p, unreadable p = false) files)).

Lemma build_roots_exact cap boundary roots :
  built_from cap (build_roots cap boundary roots) (concat ((λ root, offered root boundary) <$> roots)).
Proof.
  assert (G : ∀ files b, progress cap b files →
    progress cap (fold_left (build_root cap boundary) roots b)
      (files ++ concat ((λ root, offered root boundary) <$> roots))).
  { induction roots as [|root roots IH]; intros files b P; cbn [fold_left fmap list_fmap concat].
    - by rewrite app_nil_r.
    - rewrite app_assoc. by apply IH, build_root_progress. }
  destruct (G [] (mkBuild [] false false ∅)) as (k & rest & E & Eb & L & F & I).
  { exists [], []. split_and!; [done | done | simpl; lia | by left | done]. }
  fold (build_roots cap boundary roots) in *. simpl in E. rewrite E. split.
  - rewrite omap_app, Eb in *. destruct F as [->|[F _]].
    + by rewrite app_nil_r, take_ge.
    + by rewrite <-F, take_app_length.
  - intros T. destruct F as [->|[_ ?]]; [|congruence]. rewrite app_nil_r. split; [done|].
    intros Hi. apply Forall_forall. intros p Hp. destruct (unreadable p) eqn:Eu; [|done].
    rewrite I in Hi; [done|]. apply existsb_exists. exists p. split; [by apply list_elem_of_In | done].
Qed.

(** A build shows the roots' times at the walk. *)
Lemma build_mtimes cap boundary roots root :
  b_mtimes (build_roots cap boundary roots) !! root
  = if bool_decide (root ∈ roots) then Some (root_mtime root) else None.
Proof.
  unfold build_roots.
  assert (G : ∀ b, b_mtimes (fold_left (build_root cap boundary) roots b) !! root
    = if bool_decide (root ∈ roots) then Some (root_mtime root) else b_mtimes b !! root).
  { induction roots as [|r roots IH]; intros b; simpl; [done|]. rewrite IH.
    assert (Em : b_mtimes (build_root cap boundary b r) = <[r := root_mtime r]> (b_mtimes b)).
    { unfold build_root. destruct (cap <=? _)%nat; [done|].
      by destruct (walk_java_files r boundary _ _) as [? []]. }
    rewrite Em. destruct (decide (root = r)) as [->|Hne].
    - rewrite lookup_insert_eq. rewrite (bool_decide_eq_true_2 (r ∈ r :: roots)) by left.
      by case_bool_decide.
    - rewrite lookup_insert_ne by done.
      assert (root ∈ r :: roots ↔ root ∈ roots) as Hiff by (rewrite elem_of_cons; naive_solver).
      by rewrite (bool_decide_ext _ _ Hiff). }
  rewrite G. by case_bool_decide.
Qed.

End Builds.

(** ** Freshness *)

Section Fresh.
Variable cap : nat.

Definition invalidations (es : list Event) : Z :=
  Z.of_nat (length (List.filter (λ e, match e with Invalidate => true | _ => false end) es)).

Lemma invalidations_app es es' : invalidations (es ++ es') = invalidations es + invalidations es'.
Proof. unfold invalidations. rewrite List.filter_app, length_app. lia. Qed.
Lemma invalidations_zero es : invalidations es = 0 → Invalidate ∉ es.
Proof.
  intros E Hin. apply list_elem_of_split in Hin as (l1 & l2 & ->).
  rewrite invalidations_app in E. unfold invalidations in E. simpl in E. lia.
Qed.
Lemma invalidations_nonneg es : 0 ≤ invalidations es.
Proof. unfold invalidations. lia. Qed.

(** Where a task comes from: the run up to its decision, and for one that has
    walked, the walk. *)
Definition began (es : list Event) (roots : list string) (boundary : option string) (epoch : Z) : Prop :=
  ∃ before d between, es = before ++ Begin d roots boundary :: between ∧ invalidations before = epoch.
Definition walked (es : list Event) (b : Build) (epoch : Z) : Prop :=
  ∃ before d0 roots boundary between d i after canon,
    es = before ++ Begin d0 roots boundary :: between ++ Walk d i :: after
    ∧ invalidations before = epoch ∧ @canonical_boundary d boundary = Some canon
    ∧ b = @build_roots d cap canon roots.

Lemma began_snoc es e roots boundary epoch : began es roots boundary epoch → began (es ++ [e]) roots boundary epoch.
Proof.
  intros (before & d & between & -> & E). exists before, d, (between ++ [e]).
  by rewrite <-app_assoc.
Qed.
Lemma walked_snoc es e b epoch : walked es b epoch → walked (es ++ [e]) b epoch.
Proof.
  intros (before & d0 & roots & boundary & between & d & i & after & canon & -> & E).
  exists before, d0, roots, boundary, between, d, i, (after ++ [e]), canon.
  split; [|done]. rewrite <-app_assoc. simpl. by rewrite <-app_assoc.
Qed.
Lemma began_walked es roots boundary epoch d i canon :
  began es roots boundary epoch → @canonical_boundary d boundary = Some canon →
  walked (es ++ [Walk d i]) (@build_roots d cap canon roots) epoch.
Proof.
  intros (before & d0 & between & -> & E) Hc.
  exists before, d0, roots, boundary, between, d, i, [], canon. by rewrite <-app_assoc.
Qed.

Definition task_ok (es : list Event) (t : Task) : Prop :=
  match t with
  | Deciding roots boundary epoch => began es roots boundary epoch
  | Walked b epoch => walked es b epoch
  | Finished => True
  end.
Definition inner_ok (es : list Event) (inner : Inner) : Prop :=
  dirty_epoch inner = invalidations es
  ∧ (built inner = true → dirty inner = false → ∃ b, walked es b (dirty_epoch inner)
      ∧ entries inner = b_entries b ∧ truncated inner = b_truncated b ∧ b_incomplete b = false).

Lemma task_ok_snoc es e t : task_ok es t → task_ok (es ++ [e]) t.
Proof. destruct t; simpl; [apply began_snoc | apply walked_snoc | done]. Qed.

Lemma inner_ok_snoc es e inner : invalidations [e] = 0 → inner_ok es inner → inner_ok (es ++ [e]) inner.
Proof.
  intros Hz (E & C). split; [rewrite invalidations_app, E; lia|].
  intros Hb Hd. destruct (C Hb Hd) as (b & W & R). exists b. split; [by apply walked_snoc | done].
Qed.

Lemma run_ok es : inner_ok es (inner (run cap es)) ∧ Forall (task_ok es) (tasks (run cap es)).
Proof.
  induction es as [|e es [I T]] using rev_ind; [by repeat split|].
  unfold run. rewrite fold_left_app. cbn [fold_left]. fold (run cap es).
  set (r := run cap es) in *. clearbody r.
  assert (T' : Forall (task_ok (es ++ [e])) (tasks r)).
  { eapply Forall_impl; [exact T|]. intros t. apply task_ok_snoc. }
  destruct e as [|d roots boundary|d i|i]; cbn [step].
  - split; [|done]. destruct I as [E _]. split; [|done]. simpl. rewrite invalidations_app, E. done.
  - pose proof (inner_ok_snoc es (Begin d roots boundary) _ eq_refl I) as I'.
    destruct (@needs_rebuild d (inner r) roots); [|done]. split; [done|]. simpl.
    apply Forall_app. split; [done|]. apply Forall_singleton. simpl.
    exists es, d, []. split; [done | by destruct I].
  - pose proof (inner_ok_snoc es (Walk d i) _ eq_refl I) as I'.
    destruct (tasks r !! i) as [[roots boundary epoch| |]|] eqn:Ei; try done.
    rewrite Forall_lookup in T. pose proof (T _ _ Ei) as B. simpl in B.
    destruct (@canonical_boundary d boundary) as [canon|] eqn:Ec; (split; [done|]);
      apply Forall_insert; try done. simpl. by apply began_walked with (boundary := boundary).
  - destruct (tasks r !! i) as [[| b epoch |]|] eqn:Ei;
      [by split; [apply inner_ok_snoc|] | | by split; [apply inner_ok_snoc|] | by split; [apply inner_ok_snoc|]].
    rewrite Forall_lookup in T. pose proof (T _ _ Ei) as W. simpl in W.
    split; [|by apply Forall_insert]. destruct I as [E C]. split.
    + simpl. rewrite invalidations_app, E. unfold invalidations. simpl. lia.
    + simpl. intros _ Hd. apply orb_false_iff in Hd as [He Hi].
      apply negb_false_iff, bool_decide_eq_true in He. subst epoch.
      exists b. split; [by apply walked_snoc | done].
Qed.

(** C17: The index is never stale without knowing it.  However rebuilds and
    invalidations interleave, an index that is built and not dirty is what a
    walk found on the disk as it was after the last invalidation, the walk's
    rebuild having been decided on after it too: the first types of the files
    below the roots, and all of them, every file readable, unless it says that
    it was truncated. *)
Theorem index_fresh es :
  let ix := inner (run cap es) in
  built ix = true → dirty ix = false →
  ∃ before d0 roots boundary between d i after canon,
    es = before ++ Begin d0 roots boundary :: between ++ Walk d i :: after
    ∧ Invalidate ∉ between ∧ Invalidate ∉ after
    ∧ @canonical_boundary d boundary = Some canon
    ∧ let files := concat ((λ root, offered root canon) <$> roots) in
      entries ix = take cap (omap entry_at files)
      ∧ (truncated ix = false →
         entries ix = omap entry_at files ∧ Forall (λ p, unreadable p = false) files).
Proof.
  intros ix Hb Hd. subst ix. destruct (run_ok es) as [[E C] _].
  destruct (C Hb Hd) as (b & (before & d0 & roots & boundary & between & d & i & after & canon
    & Ees & Hep & Hc & ->) & He & Ht & Hi).
  exists before, d0, roots, boundary, between, d, i, after, canon.
  assert (Hz : invalidations between = 0 ∧ invalidations after = 0).
  { rewrite E, Ees in Hep.
    change (before ++ Begin d0 roots boundary :: between ++ Walk d i :: after)
      with (before ++ ([Begin d0 roots boundary] ++ between ++ [Walk d i] ++ after)) in Hep.
    rewrite !invalidations_app in Hep.
    pose proof (invalidations_nonneg between). pose proof (invalidations_nonneg after).
    change (invalidations [Begin d0 roots boundary]) with 0 in Hep.
    change (invalidations [Walk d i]) with 0 in Hep. lia. }
  destruct Hz as [Z1 Z2]. split_and!; [done | by apply invalidations_zero.. | done |].
  destruct (build_roots_exact cap canon roots) as [B1 B2].
  rewrite He, Ht. split; [done|]. intros T. destruct (B2 T) as [B3 B4]. split; [done | by apply B4].
Qed.
End Fresh.

(** ** Matching *)

(** Matching humps one after the other, each at the first place it can, finds
    a match whenever there is one: the query's humps begin some of the
    candidate's humps, in order. *)
Lemma humps_match_spec `{Unicode} qs : ∀ cs,
  humps_match qs cs = true ↔ ∃ sub, sublist sub cs ∧ Forall2 (λ q c, hump_matches q c = true) qs sub.
Proof.
  induction qs as [|q qs IH]; intros cs.
  { split; [|done]. intros _. exists []. split; [apply sublist_nil_l | constructor]. }
  simpl. induction cs as [|c cs IHc]; cbn [next_hump].
  - split; [done|]. intros (sub & ->%sublist_nil_r & F). inversion F.
  - destruct (hump_matches q c) eqn:E.
    + rewrite IH. split.
      * intros (sub & S & F). exists (c :: sub). split; [by constructor | by constructor].
      * intros (sub & S & F). inversion F as [|q' c' qs' sub' Hq F']; subst.
        exists sub'. split; [|done].
        apply sublist_cons_r in S as [S|(l' & [= <- <-] & S)]; [|done].
        etrans; [|exact S]. by apply sublist_cons.
    + rewrite IHc. split.
      * intros (sub & S & F). exists sub. split; [by constructor | done].
      * intros (sub & S & F). exists sub. split; [|done].
        apply sublist_cons_r in S as [S|(l' & -> & S)]; [done|].
        inversion F; subst. congruence.
Qed.

Lemma humps_go_concat `{Unicode} cs : ∀ current,
  str_concat (humps_go current cs) = current +:+ str_concat cs.
Proof.
  induction cs as [|c cs IH]; intros current; simpl; [done|].
  destruct (is_uppercase c); simpl.
  - fold (str_concat (humps_go c cs)). by rewrite IH.
  - rewrite IH. by rewrite str_app_assoc.
Qed.

Definition upper_start `{Unicode} (h : string) : Prop := ∃ c rest, h = c +:+ rest ∧ is_uppercase c = true.

Lemma humps_go_upper `{Unicode} cs : ∀ current,
  upper_start current → Forall upper_start (humps_go current cs).
Proof.
  induction cs as [|c cs IH]; intros current U; simpl; [by constructor|].
  destruct (is_uppercase c) eqn:E.
  - constructor; [done|]. apply IH. exists c, "". by rewrite str_app_nil_r.
  - apply IH. destruct U as (d & r & -> & Ed). exists d, (r +:+ c). by rewrite str_app_assoc.
Qed.

Lemma humps_go_tail `{Unicode} cs : ∀ current, Forall upper_start (tail (humps_go current cs)).
Proof.
  induction cs as [|c cs IH]; intros current; simpl; [done|].
  destruct (is_uppercase c) eqn:E; [|apply IH].
  simpl. apply humps_go_upper. exists c, "". by rewrite str_app_nil_r.
Qed.

(** A query finds a type exactly when it is empty, occurs in the name whatever
    the case, or abbreviates it: its humps, in order, begin some of the
    name's humps.  Humps cut a string into pieces that together give it back,
    each but the first starting with an uppercase character. *)
Theorem matches_query_exact `{Unicode} query candidate :
  (matches_query query candidate = true ↔
     query = "" ∨ contains_str (to_lowercase query) (to_lowercase candidate) = true
     ∨ ∃ sub, sublist sub (split_humps candidate)
        ∧ Forall2 (λ q c, starts_with (to_lowercase q) (to_lowercase c) = true) (split_humps query) sub)
  ∧ ∀ s, str_concat (split_humps s) = s ∧ Forall upper_start (tail (split_humps s)).
Proof.
  split.
  - unfold matches_query. case_bool_decide; [naive_solver|].
    destruct (contains_str _ _); [naive_solver|].
    unfold camel_hump_matches. rewrite humps_match_spec. unfold hump_matches. naive_solver.
  - intros s. unfold split_humps. pose proof (chars_concat s) as C.
    destruct (chars s) as [|c cs]; [by simpl in *|].
    split; [rewrite humps_go_concat; exact C | apply humps_go_tail].
Qed.

(** ** Prefix search *)

Definition cut_inside (needle : string) (e : SymbolEntry) : bool :=
  (String.length needle <=? String.length (simple_name e))%nat
  && negb (is_char_boundary (String.length needle) (simple_name e)).

Lemma prefix_hit_spec prefix e :
  prefix_hit (to_ascii_lowercase prefix) e =
  if cut_inside prefix e then None
  else Some (starts_with (to_ascii_lowercase prefix) (to_ascii_lowercase (simple_name e))).
Proof.
  unfold prefix_hit, cut_inside. rewrite length_to_ascii_lowercase.
  destruct (String.length prefix <=? String.length (simple_name e))%nat eqn:El; simpl.
  - destruct (is_char_boundary _ _); simpl; [|done].
    apply Nat.leb_le in El. by rewrite prefix_ignore_case.
  - apply Nat.leb_gt in El. f_equal. symmetry. apply not_true_iff_false.
    intros (r & E)%starts_with_spec. apply (f_equal String.length) in E.
    rewrite str_length_app, !length_to_ascii_lowercase in E. lia.
Qed.

Lemma prefix_hits_spec prefix es :
  prefix_hits (to_ascii_lowercase prefix) es =
  if existsb (cut_inside prefix) es then None
  else Some (List.filter (λ e, starts_with (to_ascii_lowercase prefix) (to_ascii_lowercase (simple_name e))) es).
Proof.
  induction es as [|e es IH]; simpl; [done|]. rewrite prefix_hit_spec.
  destruct (cut_inside prefix e); simpl; [done|]. rewrite IH.
  destruct (existsb _ es); simpl; [done|]. by destruct (starts_with _ _).
Qed.

(** The search gives the types whose name starts with the prefix, case
    ignored, shortest first, cut at the limit; it panics exactly when the
    prefix's length falls inside a character of some indexed name. *)
Lemma index_search_spec ix prefix limit : prefix ≠ "" → limit ≠ O →
  types_with_prefix ix prefix limit =
  if existsb (cut_inside prefix) (entries ix) then None
  else
    let hits := List.filter (λ e, starts_with (to_ascii_lowercase prefix) (to_ascii_lowercase (simple_name e))) (entries ix) in
    Some (take limit (sort_by name_compare hits), (limit <? length hits)%nat).
Proof.
  intros Hp Hl. unfold types_with_prefix. rewrite !bool_decide_eq_false_2 by done. simpl.
  rewrite prefix_hits_spec. by destruct (existsb _ _).
Qed.

(** Typing one ASCII letter is enough when a type's name starts with another
    character: the letter's length falls inside it. *)
Lemma prefix_search_panics : ∃ ix, types_with_prefix ix "a" 10 = None
  ∧ map simple_name (entries ix) = ["Übung"].
Proof.
  exists (mkInner [mkEntry "Übung" "demo" "/w/Übung.java" CLASS] ∅ true false 1 false 0).
  by vm_compute.
Qed.

(** ** Rebuilding once is enough *)

Section Settled.
Context `{IndexDisk}.

Lemma build_mtimes_map cap boundary roots :
  b_mtimes (build_roots cap boundary roots) = list_to_map ((λ root, (root, root_mtime root)) <$> roots).
Proof.
  apply map_eq. intros root. rewrite build_mtimes. symmetry. case_bool_decide as Hin.
  - induction roots as [|r roots IH]; [by apply elem_of_nil in Hin|]. simpl.
    destruct (decide (root = r)) as [->|Hne]; [apply lookup_insert_eq|].
    rewrite lookup_insert_ne by done. apply IH. by apply elem_of_cons in Hin as [|].
  - apply not_elem_of_list_to_map. by rewrite <-list_fmap_compose, list_fmap_id.
Qed.

(** While the disk stays as it is and nothing was unreadable, building again
    does nothing. *)
Lemma ensure_built_settles cap roots boundary ix :
  NoDup roots → canonical_boundary boundary ≠ None →
  let ix' := ensure_built cap roots boundary ix in
  dirty ix' = false → ensure_built cap roots boundary ix' = ix'.
Proof.
  intros Hn Hb ix' Hd. assert (E : needs_rebuild ix' roots = false); [|unfold ensure_built; by rewrite E].
  subst ix'. revert Hd. unfold ensure_built. destruct (needs_rebuild ix roots) eqn:En; [|done].
  destruct (canonical_boundary boundary) as [b|]; [|done]. intros Hd.
  unfold needs_rebuild. rewrite Hd. simpl. rewrite build_mtimes_map.
  rewrite bool_decide_eq_true_2.
  2:{ rewrite map_size_list_to_map; [by rewrite length_fmap|].
      by rewrite <-list_fmap_compose, list_fmap_id. }
  simpl. apply not_true_iff_false. intros (root & Hin & Hm)%existsb_exists.
  apply negb_true_iff, bool_decide_eq_false in Hm. apply Hm.
  rewrite <-build_mtimes_map with (cap := cap) (boundary := b), build_mtimes.
  apply list_elem_of_In in Hin. by rewrite bool_decide_eq_true_2.
Qed.
End Settled.

(** ** An instance *)

Module Sample.
#[local] Instance sample_view : FsView := {|
  canonicalize p := Ok p;
  read_dir p := if bool_decide (p = "/w") then Ok [Ok "A.java"; Ok "notes.txt"; Ok "B.java"] else Err NotFound;
  path_is_dir p := bool_decide (p = "/w"); dir_count := 1;
|}.
Definition text_of (p : string) : string :=
  if bool_decide (p = "/w/A.java") then "package demo;" +:+ newline +:+ "enum A {}" else "class B {}".
#[local] Instance sample_disk : IndexDisk := {|
  root_mtime _ := Some 7; read_header p := Ok (as_bytes (text_of p));
|}.

(** An invalidation during the first rebuild makes it be done again. *)
Definition sample_events : list Event :=
  [Begin sample_disk ["/w"] None; Invalidate; Walk sample_disk 0; Store 0;
   Begin sample_disk ["/w"] None; Walk sample_disk 1; Store 1].

Example index_fresh_witness :
  entries (inner (run 5 sample_events)) = [mkEntry "A" "demo" "/w/A.java" ENUM; mkEntry "B" "" "/w/B.java" CLASS]
  ∧ dirty (inner (run 5 (take 4 sample_events))) = true
  ∧ ∃ before d0 roots boundary between d i after canon,
    sample_events = before ++ Begin d0 roots boundary :: between ++ Walk d i :: after
    ∧ Invalidate ∉ between ∧ Invalidate ∉ after
    ∧ @canonical_boundary d boundary = Some canon.
Proof.
  split; [vm_compute; reflexivity|]. split; [vm_compute; reflexivity|].
  destruct (index_fresh 5 sample_events) as (b & d0 & rs & bo & bt & d & i & a & c & E & I1 & I2 & C & _);
    [vm_compute; reflexivity | vm_compute; reflexivity|].
  exists b, d0, rs, bo, bt, d, i, a, c. exact (conj E (conj I1 (conj I2 C))).
Defined.
End Sample.

End WorkspaceIndex.
