(* ===== verification/Rebuild.v ===== *)
(** * Classpath rebuilds ([crates/server/src/backend.rs])

    The debounce and coalescing state of classpath rebuilds, the driver loop
    around it, the rebuild command and the lazily built classpath, as steps of
    tasks that interleave.  The disk is a version number and a classpath is
    the version it was built from: a rebuild is only ever read in full. *)
From S2P Require Import Prelude.

Module Rebuild.

Record RebuildCoalescer := mkCoalescer { driving : bool; dirty : bool; in_flight : bool }.

Definition new_coalescer : RebuildCoalescer := mkCoalescer false false false.

Definition on_event (c : RebuildCoalescer) : RebuildCoalescer * bool :=
  if driving c
  then (mkCoalescer (driving c) true (in_flight c), false)
  else (mkCoalescer true (dirty c) (in_flight c), true).
Definition on_debounce_elapsed (c : RebuildCoalescer) : RebuildCoalescer * bool :=
  if dirty c
  then (mkCoalescer (driving c) false (in_flight c), false)
  else (mkCoalescer (driving c) (dirty c) true, true).
Definition on_rebuild_finished (c : RebuildCoalescer) : RebuildCoalescer * bool :=
  if dirty c
  then (mkCoalescer (driving c) false false, true)
  else (mkCoalescer false (dirty c) false, false).

(** Where a task in [drive_classpath_rebuild] is: sleeping, building from
    what it read of the disk, or with the new classpath swapped in. *)
Inductive Phase := Waiting | Building (seen : nat) | Publishing.

Record Server := mkServer {
  disk : nat;
  coalescer : RebuildCoalescer;
  drivers : list Phase;
  commands : list nat;          (** rebuild commands running: what each has read *)
  classpath : option nat;
}.
Definition new_server : Server := mkServer 0 new_coalescer [] [] None.

Inductive Event :=
| BuildFileChanged             (** a watched build file changed *)
| JarInstalled                 (** something else the classpath reads changed *)
| FirstUse                     (** [Backend::classpath] *)
| Elapsed (driver : nat)       (** the debounce sleep ended *)
| Swapped (driver : nat)       (** [rebuild_classpath] stored its result *)
| Finished (driver : nat)      (** diagnostics are republished *)
| Command
| CommandDone (command : nat).

(** [did_change_watched_files] for a build file. *)
Definition build_file_changed (s : Server) : Server :=
  let '(c, become_driver) := on_event (coalescer s) in
  mkServer (S (disk s)) c (if become_driver then drivers s ++ [Waiting] else drivers s)
    (commands s) (classpath s).

Definition elapsed (i : nat) (s : Server) : Server :=
  match drivers s !! i with
  | Some Waiting =>
      let '(c, proceed) := on_debounce_elapsed (coalescer s) in
      mkServer (disk s) c (if proceed then <[i := Building (disk s)]> (drivers s) else drivers s)
        (commands s) (classpath s)
  | _ => s
  end.
Definition swapped (i : nat) (s : Server) : Server :=
  match drivers s !! i with
  | Some (Building seen) =>
      mkServer (disk s) (coalescer s) (<[i := Publishing]> (drivers s)) (commands s) (Some seen)
  | _ => s
  end.
Definition finished (i : nat) (s : Server) : Server :=
  match drivers s !! i with
  | Some Publishing =>
      let '(c, again) := on_rebuild_finished (coalescer s) in
      mkServer (disk s) c (if again then <[i := Waiting]> (drivers s) else delete i (drivers s))
        (commands s) (classpath s)
  | _ => s
  end.

Definition step (s : Server) (e : Event) : Server :=
  match e with
  | BuildFileChanged => build_file_changed s
  | JarInstalled => mkServer (S (disk s)) (coalescer s) (drivers s) (commands s) (classpath s)
  | FirstUse =>
      mkServer (disk s) (coalescer s) (drivers s) (commands s)
        (match classpath s with Some v => Some v | None => Some (disk s) end)
  | Elapsed i => elapsed i s
  | Swapped i => swapped i s
  | Finished i => finished i s
  | Command => mkServer (disk s) (coalescer s) (drivers s) (commands s ++ [disk s]) (classpath s)
  | CommandDone j =>
      match commands s !! j with
      | Some seen => mkServer (disk s) (coalescer s) (drivers s) (delete j (commands s)) (Some seen)
      | None => s
      end
  end.
Definition run (es : list Event) : Server := fold_left step es new_server.

(** The next step of the driver, when there is one. *)
Definition driver_step (s : Server) : Server :=
  match drivers s with
  | Waiting :: _ => elapsed 0 s
  | Building _ :: _ => swapped 0 s
  | Publishing :: _ => finished 0 s
  | [] => s
  end.

(** ** One driver *)

(** A driver is running exactly when the coalescer says so, and its phase is
    what the coalescer thinks. *)
Definition one_driver (s : Server) : Prop :=
  match drivers s with
  | [] => driving (coalescer s) = false ∧ dirty (coalescer s) = false ∧ in_flight (coalescer s) = false
  | [Waiting] => driving (coalescer s) = true ∧ in_flight (coalescer s) = false
  | [_] => driving (coalescer s) = true ∧ in_flight (coalescer s) = true
  | _ => False
  end.

Lemma one_driver_cases s : one_driver s → drivers s = [] ∨ ∃ p, drivers s = [p].
Proof. unfold one_driver. destruct (drivers s) as [|p [|q ps]]; [by left | by right; exists p | by destruct p]. Qed.

Ltac driver_cases s H i :=
  destruct s as [v [dr di fl] ds cs cp]; unfold one_driver in H; simpl in *;
  destruct ds as [|p [|q ps]]; [| | by destruct p];
  [destruct H as (-> & -> & ->) | destruct p; destruct H as [-> ->]];
  try destruct i as [|i]; simpl in *.

Lemma step_one_driver s e : one_driver s → one_driver (step s e).
Proof.
  intros H. destruct e as [| | |i|i|i| |j]; unfold step;
    try (by destruct s as [v [dr di fl] [|[] [|? ?]] cs cp]).
  - unfold build_file_changed. driver_cases s H 0%nat; by repeat split.
  - unfold elapsed. driver_cases s H i; try done; by destruct di.
  - unfold swapped. driver_cases s H i; done.
  - unfold finished. driver_cases s H i; try done; by destruct di.
  - destruct (commands s !! j); [|done]. by destruct s as [v [dr di fl] [|[] [|? ?]] cs cp].
Qed.

Lemma run_one_driver es : one_driver (run es).
Proof.
  induction es as [|e es IH] using rev_ind; [by repeat split|].
  unfold run. rewrite fold_left_app. simpl. by apply step_one_driver.
Qed.

(** ** Freshness *)

(** No change of a build file is forgotten. *)
Definition fresh (s : Server) : Prop :=
  match drivers s with
  | [] => default 0%nat (classpath s) = disk s
  | Waiting :: _ => True
  | Building seen :: _ => dirty (coalescer s) = true ∨ seen = disk s
  | Publishing :: _ => dirty (coalescer s) = true ∨ classpath s = Some (disk s)
  end.

(** Neither does a rebuild command store its classpath nor a jar appear that
    no watcher sees. *)
Definition undisturbed (e : Event) : bool :=
  match e with JarInstalled | CommandDone _ => false | _ => true end.

Lemma step_fresh s e : one_driver s → fresh s → undisturbed e = true → fresh (step s e).
Proof.
  intros H F W. destruct e as [| | |i|i|i| |j]; try done; unfold step, fresh in *.
  - unfold build_file_changed. driver_cases s H 0%nat; auto.
  - driver_cases s H 0%nat; destruct cp; simpl in *; auto; naive_solver.
  - unfold elapsed. driver_cases s H i; rewrite ?lookup_nil; try done; destruct di; simpl; auto.
  - unfold swapped. driver_cases s H i; rewrite ?lookup_nil; try done; simpl; naive_solver.
  - unfold finished. driver_cases s H i; rewrite ?lookup_nil; try done; destruct di; simpl; auto.
    destruct F as [|[= ->]]; done.
Qed.

Definition run_from (s : Server) (es : list Event) : Server := fold_left step es s.

Lemma run_from_fresh es : ∀ s, one_driver s → fresh s → forallb undisturbed es = true →
  fresh (run_from s es).
Proof.
  induction es as [|e es IH]; intros s H F; [done|]. simpl. intros [W Ws]%andb_true_iff.
  apply IH; [by apply step_one_driver | by apply step_fresh | done].
Qed.

(** A change of a build file is taken note of whatever happened before. *)
Lemma change_noted s : one_driver s → fresh (build_file_changed s).
Proof.
  intros H. unfold build_file_changed, fresh. driver_cases s H 0%nat; auto.
Qed.

Lemma driver_settles s : one_driver s → fresh s →
  let s' := Nat.iter 7 driver_step s in
  drivers s' = [] ∧ disk s' = disk s ∧ default 0%nat (classpath s') = disk s.
Proof.
  intros H F. unfold fresh in F. driver_cases s H 0%nat; [done|..]; destruct di; simpl; try done;
    naive_solver.
Qed.

Lemma driver_stops s : one_driver s → drivers (Nat.iter 7 driver_step s) = [].
Proof. intros H. driver_cases s H 0%nat; [done|..]; by destruct di. Qed.

(** C21: Rebuilds coalesce without losing a change.  After any events at all, at
    most one driver runs, exactly one when the coalescer says so, and seven of
    its steps bring it to an end.  After any events, then a change of a build
    file, then any events among which no rebuild command finishes and no jar
    appears unwatched (more changes, starting commands, first uses, steps of
    the driver), seven steps of the driver leave the classpath built from the
    disk as it is, and it already is when no driver runs; and likewise from
    the start of the server.  A command that finishes meanwhile may leave an
    older classpath behind ([command_rebuild_lost]). *)
Theorem rebuilds_coalesce es :
  let s := run es in
  (length (drivers s) ≤ 1)%nat ∧ (driving (coalescer s) = true ↔ drivers s ≠ [])
  ∧ drivers (Nat.iter 7 driver_step s) = []
  ∧ ((∃ es1 es2, (es = es1 ++ BuildFileChanged :: es2 ∨ es = es2) ∧ forallb undisturbed es2 = true) →
     let s' := Nat.iter 7 driver_step s in
     disk s' = disk s ∧ default 0%nat (classpath s') = disk s
     ∧ (drivers s = [] → default 0%nat (classpath s) = disk s)).
Proof.
  intros s. pose proof (run_one_driver es) as H. fold s in H. split_and!.
  - destruct (one_driver_cases s H) as [->|[p ->]]; simpl; lia.
  - unfold one_driver in H. destruct (drivers s) as [|p [|q ps]]; [| |by destruct p].
    + destruct H as (-> & _). naive_solver.
    + destruct p; destruct H as [-> _]; naive_solver.
  - by apply driver_stops.
  - intros (es1 & es2 & Hes & W). assert (fresh s) as F.
    { subst s. destruct Hes as [-> | ->].
      - unfold run. rewrite fold_left_app. cbn [fold_left]. apply run_from_fresh; [|by apply change_noted, run_one_driver | done].
        apply (step_one_driver _ BuildFileChanged), run_one_driver.
      - by apply (run_from_fresh es2 new_server); [repeat split | | ]. }
    destruct (driver_settles s H F) as (A & B & C). split_and!; [done..|].
    intros E. unfold fresh in F. by rewrite E in F.
Qed.

(** The rebuild command runs beside the driver.  A driver that read the disk
    before jars were installed stores its classpath after the command has
    stored its own, and the older one stays. *)
Example command_rebuild_lost : ∃ es,
  classpath (run es) = Some 2%nat
  ∧ let s := run (es ++ [Swapped 0; Finished 0]) in
    drivers s = [] ∧ commands s = [] ∧ disk s = 2%nat ∧ classpath s = Some 1%nat.
Proof.
  exists [BuildFileChanged; Elapsed 0; JarInstalled; Command; CommandDone 0]. by vm_compute.
Qed.

End Rebuild.
