(* ===== verification/Backend.v ===== *)
(** * Project files of the server ([crates/server/src/backend.rs], [main.rs])

    From names to files and back: source roots, candidate paths of a type, the
    package a file's place implies, which watched files count, and the caches
    of project files and of stubs.  Syntax trees are the syntax crate's: a
    type with a parser, and the declarations at the top of a file. *)
From Stdlib Require Import Ascii.
From S2P Require Import Prelude RustStd Paths FsScan.

(** A named child of a file's root node: its kind, its text and the text of
    its [name] field. *)
Record TopNode := mkTopNode { tn_kind : string; tn_text : option string; tn_name : option string }.

Class SyntaxTrees := {
  Tree : Type;
  parse : string → Tree;
  top_level : Tree → string → list TopNode;
}.

Module Backend.

Definition EXTERNAL_CACHE_CAP : nat := 32.
Definition PROJECT_FILE_CACHE_CAP : nat := 256.
Definition MAX_PROJECT_FILE_BYTES : Z := 4 * 1024 * 1024.

(** ** Names *)

Definition is_path_sep (a : ascii) : bool := Ascii.eqb a "/" || Ascii.eqb a (ascii_of_N 92).
Fixpoint any_char (p : ascii → bool) (s : string) : bool :=
  match s with EmptyString => false | String a s' => p a || any_char p s' end.

Definition is_safe_segment (seg : string) : bool :=
  negb (bool_decide (seg = "")) && negb (bool_decide (seg = ".")) && negb (bool_decide (seg = ".."))
  && negb (any_char is_path_sep seg).
Definition is_safe_fqn (fqn : string) : bool :=
  negb (bool_decide (fqn = "")) && forallb is_safe_segment (split_char "." fqn).

(** [java.util.Map$Entry] to [Entry]. *)
Definition simple_name (fqn : string) : string := split_last "$" (split_last "." fqn).

(** ** Roots and candidate files *)

Section Files.
Context `{SyntaxTrees}.

Record Document := mkDocument { d_text : string; d_tree : Tree; d_version : Z }.

(** The path of a [file:] URI. *)
Variable to_file_path : string → option string.

Definition extract_package (tree : Tree) (source : string) : option string :=
  decl ← List.find (λ n, bool_decide (tn_kind n = "package_declaration")) (top_level tree source);
  text ← tn_text decl;
  rest ← strip_prefix "package" (trim text);
  let trim_semi s := str_rev (strip_all (String.length s) [";"] (str_rev s)) in
  let path := without_white_space (trim_semi (trim rest)) in
  if bool_decide (path = "") then None else Some path.

Fixpoint strip_segments (dir : option string) (segments : list string) : option string :=
  match segments with
  | [] => dir
  | segment :: segments' =>
      d ← dir;
      if bool_decide (file_name d = Some segment) then strip_segments (path_parent d) segments' else None
  end.
Definition infer_source_root (uri : string) (tree : Tree) (source : string) : option string :=
  path ← to_file_path uri;
  package ← extract_package tree source;
  strip_segments (path_parent path) (rev (split_char "." package)).

(** The workspace folder, or the hint from the first file opened. *)
Record Roots := mkRoots { workspace_root : option (option string); project_root_hint : option (option string) }.
Definition project_root (r : Roots) : option string :=
  match mjoin (workspace_root r) with
  | Some root => Some root
  | None => mjoin (project_root_hint r)
  end.

Definition add_inferred (roots : list string) (d : string * Document) : list string :=
  match infer_source_root d.1 (d_tree d.2) (d_text d.2) with
  | Some root => if existsb (path_eq root) roots then roots else roots ++ [root]
  | None => roots
  end.
Definition source_roots (docs : list (string * Document)) (root : string) : list string :=
  fold_left add_inferred docs [path_join root "src/main/java"; path_join root "src/test/java"].

Definition candidate_paths (r : Roots) (docs : list (string * Document)) (fqn : string) : list string :=
  if negb (is_safe_fqn fqn) then []
  else match project_root r with
       | None => []
       | Some root =>
           let rel := replace_char "." "/" fqn +:+ ".java" in
           (λ source_root, path_join source_root rel) <$> source_roots docs root
       end.

(** [dir.strip_prefix(root)], as components. *)
Fixpoint strip_components (root dir : list string) : option (list string) :=
  match root, dir with
  | [], _ => Some dir
  | x :: root', y :: dir' => if bool_decide (x = y) then strip_components root' dir' else None
  | _ :: _, [] => None
  end.
Definition expected_package (r : Roots) (uri : string) : option string :=
  path ← to_file_path uri;
  dir ← path_parent path;
  root ← project_root r;
  source_root ← List.find (path_starts_with dir) [path_join root "src/main/java"; path_join root "src/test/java"];
  Some (str_join "." (default [] (strip_components (path_components source_root) (path_components dir)))).

(** ** Watched files *)

Definition is_classpath_build_file (uri : string) : bool :=
  match to_file_path uri with
  | None => false
  | Some path =>
      match file_name path with
      | None => false
      | Some name =>
          if bool_decide (name ∈ ["pom.xml"; "build.gradle"; "build.gradle.kts"]) then true
          else if bool_decide (name = "libs.versions.toml")
          then bool_decide (path_parent path ≫= file_name = Some "gradle")
          else false
      end
  end.

Fixpoint ancestors (fuel : nat) (path : string) : list string :=
  match fuel with
  | O => []
  | S f => path :: match path_parent path with Some d => ancestors f d | None => [] end
  end.

Definition accepted_java_source_path `{FsView} (exists_ : string → bool) (path project_root canonical_root : string)
    (deleted : bool) : bool :=
  let rel := default (path_components path) (strip_components (path_components project_root) (path_components path)) in
  if existsb FsScan.is_excluded_component rel then false
  else
    let probe := if deleted then List.find exists_ (ancestors (S (length (path_components path))) path)
                 else Some path in
    match probe with
    | None => false
    | Some p =>
        match canonicalize p with
        | Ok canon => path_starts_with canon canonical_root
        | Err _ => false
        end
    end.

(** ** The project file cache *)

(** A map keyed by [PathBuf]: keys are equal when their components are. *)
Notation path_map := (gmap (list string)).

Record CachedProjectFile := mkCached { c_mtime : Z; c_len : Z; c_text : string; c_tree : Tree }.

(** What the disk says of a path: length and time of its metadata, its
    contents as a string, and the canonical path. *)
Record FileDisk := mkFileDisk {
  metadata : string → option (Z * option Z);
  read_to_string : string → option string;
  canonical_path : string → option string }.

Definition insert_bounded_project_file (cache : path_map CachedProjectFile) (cap : nat) (path : string)
    (file : CachedProjectFile) : path_map CachedProjectFile :=
  <[path_components path := file]> (if (cap <=? size cache)%nat then ∅ else cache).

Definition is_fresh (mtime len : Z) (c : option CachedProjectFile) : bool :=
  match c with Some c => bool_decide (c_mtime c = mtime) && bool_decide (c_len c = len) | None => false end.

Definition parsed_project_file (d : FileDisk) (path : string) (cache : path_map CachedProjectFile) :
    option (string * Tree) * path_map CachedProjectFile :=
  match metadata d path with
  | None => (None, cache)
  | Some (len, modified) =>
      if MAX_PROJECT_FILE_BYTES <? len then (None, cache)
      else match modified with
           | None => (None, cache)
           | Some mtime =>
               let answer c := ((λ c, (c_text c, c_tree c)) <$> c !! path_components path, c) in
               if is_fresh mtime len (cache !! path_components path) then answer cache
               else match read_to_string d path with
                    | None => (None, cache)
                    | Some text =>
                        answer (insert_bounded_project_file cache PROJECT_FILE_CACHE_CAP path
                                  (mkCached mtime len text (parse text)))
                    end
           end
  end.

Definition evict_project_file (d : FileDisk) (path : string) (cache : path_map CachedProjectFile) :
    path_map CachedProjectFile :=
  let cache := delete (path_components path) cache in
  match canonical_path d path with
  | Some canon => if path_eq canon path then cache else delete (path_components canon) cache
  | None => cache
  end.

(** A run of requests, each on the disk as it is then. *)
Inductive FileOp := ReadFile (path : string) | EvictFile (path : string).
Definition file_step (s : path_map CachedProjectFile) (op : FileDisk * FileOp) : path_map CachedProjectFile :=
  match op.2 with
  | ReadFile path => (parsed_project_file op.1 path s).2
  | EvictFile path => evict_project_file op.1 path s
  end.
Definition run_files (ops : list (FileDisk * FileOp)) : path_map CachedProjectFile := fold_left file_step ops ∅.

(** ** Candidate files *)

Lemma any_char_contains p a s : p a = true → any_char p s = false → contains_char a s = false.
Proof.
  intros Hp. induction s as [|b s IH]; [done|]. simpl. intros [Hb Hs]%orb_false_iff.
  rewrite IH by done. destruct (Ascii.eqb_spec b a) as [->|]; [congruence|done].
Qed.

Lemma safe_segment_plain seg : is_safe_segment seg = true → plain_part seg ∧ seg ≠ "..".
Proof.
  unfold is_safe_segment. intros Hs. apply andb_true_iff in Hs as [Hs Ha].
  apply andb_true_iff in Hs as [Hs Hd]. apply andb_true_iff in Hs as [He Ho].
  rewrite negb_true_iff in *. rewrite !bool_decide_eq_false in *.
  repeat split; try done. by apply (any_char_contains is_path_sep).
Qed.

Lemma replace_join c d l : Forall (λ w, contains_char c w = false) l →
  replace_char c (String d "") (str_join (String c "") l) = str_join (String d "") l.
Proof.
  induction l as [|w l IH]; [done|]. intros Hl. inversion Hl as [|? ? Hw Hl']; subst.
  destruct l as [|v l]; [by apply replace_char_none|].
  change (str_join (String c "") (w :: v :: l)) with (w +:+ String c "" +:+ str_join (String c "") (v :: l)).
  rewrite !replace_char_app, IH, (replace_char_none c _ w) by done.
  unfold replace_char at 1. simpl. by rewrite Ascii.eqb_refl.
Qed.

Lemma plain_java x : plain_part x → plain_part (x +:+ ".java").
Proof.
  intros (H1 & H2 & H3). split_and!; [by destruct x | by destruct x as [|? [|? ?]] |].
  by rewrite contains_char_app, H3.
Qed.

(** The relative path of a safe name: its segments, the last with [.java]. *)
Lemma safe_relative fqn : is_safe_fqn fqn = true →
  ∃ segs x, split_char "." fqn = segs ++ [x] ∧ Forall plain_part (segs ++ [x +:+ ".java"])
    ∧ Forall (λ c, c ≠ "..") (segs ++ [x])
    ∧ replace_char "." "/" fqn +:+ ".java" = str_join "/" (segs ++ [x +:+ ".java"]).
Proof.
  unfold is_safe_fqn. intros [_ Hs]%andb_true_iff.
  pose proof (split_char_ne "." fqn) as Hn. pose proof (split_char_pieces "." fqn) as Hp.
  pose proof (join_split "." fqn) as Hj.
  destruct (exists_last Hn) as (segs & x & E). rewrite E in *. clear Hn E.
  assert (F : Forall (λ c, plain_part c ∧ c ≠ "..") (segs ++ [x])).
  { apply Forall_forall. intros c Hc%list_elem_of_In. apply safe_segment_plain.
    by apply (proj1 (forallb_forall _ _) Hs). }
  exists segs, x. split_and!; [done | | |].
  - apply Forall_app in F as [F1 F2]. apply Forall_app. split.
    + eapply Forall_impl; [exact F1|]. by intros ? [? _].
    + apply Forall_singleton. apply Forall_singleton in F2 as [? _]. by apply plain_java.
  - eapply Forall_impl; [exact F|]. by intros ? [_ ?].
  - rewrite <-Hj, replace_join by done. apply str_join_snoc.
Qed.

(** A candidate file of a type lies below a source root, at the place its
    name says: no [package] or [import] leads out of the roots, whatever
    text it holds. *)
Theorem candidate_paths_confined r docs fqn p :
  p ∈ candidate_paths r docs fqn →
  ∃ root source_root segs x,
    project_root r = Some root ∧ source_root ∈ source_roots docs root
    ∧ split_char "." fqn = segs ++ [x]
    ∧ path_components p = path_components source_root ++ segs ++ [x +:+ ".java"]
    ∧ Forall plain_part (segs ++ [x +:+ ".java"]) ∧ Forall (λ c, c ≠ "..") (segs ++ [x +:+ ".java"]).
Proof.
  unfold candidate_paths. destruct (is_safe_fqn fqn) eqn:Es; simpl; [|by intros ?%elem_of_nil].
  destruct (project_root r) as [root|]; [|by intros ?%elem_of_nil].
  intros (source_root & -> & Hin)%list_elem_of_fmap.
  destruct (safe_relative fqn Es) as (segs & x & E & Hp & Hd & ->).
  exists root, source_root, segs, x. split_and!; try done.
  - rewrite components_path_join by (done || by destruct segs). done.
  - apply Forall_app in Hd as [Hd _]. apply Forall_app. split; [done|]. apply Forall_singleton.
    intros Hx. apply (f_equal String.length) in Hx. rewrite str_length_app in Hx. simpl in Hx. lia.
Qed.

(** ** Source roots *)

Lemma strip_segments_components segs : ∀ dir r, strip_segments (Some dir) segs = Some r →
  path_components dir = path_components r ++ rev segs ∧ Forall (λ c, c ≠ "..") segs.
Proof.
  induction segs as [|s segs IH]; intros dir r; cbn [strip_segments].
  { intros [= ->]. cbn [rev]. by rewrite app_nil_r. }
  cbn [mbind option_bind]. case_bool_decide as Ef; [|done].
  destruct (path_parent dir) as [d|] eqn:Ep.
  - intros E. destruct (IH _ _ E) as [C F]. apply file_name_last in Ef as [Hl Hne].
    destruct (components_parent _ _ Ep) as [c Hc].
    rewrite (components_snoc_parent _ _ _ _ Hc Hl) in Hc.
    split; [|by constructor]. rewrite Hc, C. cbn [rev]. by rewrite app_assoc.
  - destruct segs; cbn [strip_segments mbind option_bind]; done.
Qed.

Lemma source_roots_inferred docs root d r :
  d ∈ docs → infer_source_root d.1 (d_tree d.2) (d_text d.2) = Some r →
  ∃ r', r' ∈ source_roots docs root ∧ path_components r' = path_components r.
Proof.
  intros Hd Hi. unfold source_roots.
  assert (M : ∀ l acc r0, r0 ∈ acc → r0 ∈ fold_left add_inferred l acc).
  { induction l as [|e l IH]; intros acc r0 Hr; cbn [fold_left]; [done|].
    apply IH. unfold add_inferred. repeat case_match; try done. apply elem_of_app. by left. }
  revert Hd. generalize [path_join root "src/main/java"; path_join root "src/test/java"].
  induction docs as [|e docs IH]; intros acc Hin; [by apply elem_of_nil in Hin|].
  cbn [fold_left]. apply elem_of_cons in Hin as [->|Hin]; [|by apply IH].
  unfold add_inferred at 2. rewrite Hi. destruct (existsb (path_eq r) acc) eqn:Ex.
  - apply existsb_exists in Ex as (r' & Hr' & E%bool_decide_eq_true). apply list_elem_of_In in Hr'.
    exists r'. by split; [apply M|].
  - exists r. split; [|done]. apply M, elem_of_app. right. by left.
Qed.

(** A type declared in an open document is looked for in that document's own
    file: when the document's place agrees with its package, the paths tried
    for the type named after the file hold the file itself. *)
Theorem candidate_paths_find_open docs r root uri doc path package name :
  project_root r = Some root → (uri, doc) ∈ docs →
  to_file_path uri = Some path → file_name path = Some (name +:+ ".java") →
  extract_package (d_tree doc) (d_text doc) = Some package →
  is_Some (infer_source_root uri (d_tree doc) (d_text doc)) →
  is_safe_fqn (package +:+ "." +:+ name) = true → contains_char "." name = false →
  ∃ p, p ∈ candidate_paths r docs (package +:+ "." +:+ name) ∧ path_eq p path = true.
Proof.
  intros Hr Hin Hu Hf Hp [sr Hi] Hs Hn.
  destruct (source_roots_inferred docs root (uri, doc) sr Hin Hi) as (sr' & Hsr & Ec).
  destruct (safe_relative _ Hs) as (segs & x & E & Hpl & _ & Ej).
  assert (Ex : segs = split_char "." package ∧ x = name).
  { change (package +:+ "." +:+ name) with (package +:+ String "." name) in E.
    rewrite split_char_sep, (split_char_none _ name) in E by done.
    apply app_inj_tail in E as [-> ->]. done. }
  destruct Ex as [-> ->].
  exists (path_join sr' (str_join "/" (split_char "." package ++ [name +:+ ".java"]))). split.
  - unfold candidate_paths. rewrite Hs, Hr. cbn [negb]. cbn zeta. rewrite Ej.
    apply list_elem_of_fmap. by exists sr'.
  - apply bool_decide_eq_true. rewrite components_path_join by (done || by destruct (split_char "." package)).
    unfold infer_source_root in Hi. rewrite Hu, Hp in Hi. cbn [mbind option_bind] in Hi.
    apply file_name_last in Hf as [Hl _].
    destruct (path_parent path) as [dir|] eqn:Ep.
    + apply strip_segments_components in Hi as [C _]. rewrite rev_involutive in C.
      destruct (components_parent _ _ Ep) as [c Hc].
      rewrite (components_snoc_parent _ _ _ _ Hc Hl) in Hc.
      by rewrite Hc, C, Ec, <-app_assoc.
    + pose proof (split_char_ne "." package). destruct (rev (split_char "." package)) eqn:Er.
      * apply (f_equal (@rev string)) in Er. by rewrite rev_involutive in Er.
      * done.
Qed.

(** ** The cache *)

(** The stamp and contents of a cached file were read together, after the last
    eviction of its path. *)
Definition read_at (d : FileDisk) (path : string) (c : CachedProjectFile) : Prop :=
  metadata d path = Some (c_len c, Some (c_mtime c)) ∧ read_to_string d path = Some (c_text c)
  ∧ c_tree c = parse (c_text c).
Definition recorded (ops : list (FileDisk * FileOp)) (s : path_map CachedProjectFile) : Prop :=
  ∀ k c, s !! k = Some c → ∃ before d path after,
    ops = before ++ (d, ReadFile path) :: after ∧ path_components path = k ∧ read_at d path c
    ∧ ∀ d' p, (d', EvictFile p) ∈ after → path_components p ≠ k.

Lemma recorded_snoc ops s op : recorded ops s →
  (∀ d p, op = (d, EvictFile p) → s !! path_components p = None) → recorded (ops ++ [op]) s.
Proof.
  intros R Ho k c Hk. destruct (R k c Hk) as (b & d & p & a & -> & <- & Hr & Ha).
  exists b, d, p, (a ++ [op]). split_and!; try done.
  - by rewrite <-app_assoc.
  - intros d' p' [Hin|Hin%list_elem_of_singleton]%elem_of_app; [by apply (Ha d')|].
    intros E. rewrite <-E, (Ho d' p' (eq_sym Hin)) in Hk. done.
Qed.

Lemma recorded_subset ops s s' : s' ⊆ s → recorded ops s → recorded ops s'.
Proof. intros Hs R k c Hk. apply R. by eapply lookup_weaken. Qed.

Lemma insert_bounded_recorded ops s path d c : recorded ops s → read_at d path c →
  recorded (ops ++ [(d, ReadFile path)]) (insert_bounded_project_file s PROJECT_FILE_CACHE_CAP path c).
Proof.
  intros R Hr k c' Hk. unfold insert_bounded_project_file in Hk.
  destruct (decide (k = path_components path)) as [->|Hne].
  - rewrite lookup_insert_eq in Hk. injection Hk as <-.
    exists ops, d, path, []. split_and!; try done. by intros ? ? ?%elem_of_nil.
  - rewrite lookup_insert_ne in Hk by done.
    apply (recorded_snoc ops s); [done | done |].
    by destruct (PROJECT_FILE_CACHE_CAP <=? size s)%nat.
Qed.

Lemma insert_bounded_size s cap path c : (0 < cap)%nat → (size s ≤ cap)%nat →
  (size (insert_bounded_project_file s cap path c) ≤ cap)%nat.
Proof.
  intros Hc Hs. unfold insert_bounded_project_file.
  set (s' := if (cap <=? size s)%nat then ∅ else s).
  assert (size s' < cap)%nat.
  { subst s'. destruct (cap <=? size s)%nat eqn:E; [by rewrite map_size_empty|]. by apply Nat.leb_gt. }
  destruct (s' !! path_components path) eqn:E.
  - rewrite map_size_insert_Some by (by rewrite E). lia.
  - rewrite map_size_insert_None by done. lia.
Qed.

Lemma parsed_file_ok ops s d path : recorded ops s → (size s ≤ PROJECT_FILE_CACHE_CAP)%nat →
  let '(a, s') := parsed_project_file d path s in
  recorded (ops ++ [(d, ReadFile path)]) s' ∧ (size s' ≤ PROJECT_FILE_CACHE_CAP)%nat
  ∧ ∀ text tree, a = Some (text, tree) → ∃ c, s' !! path_components path = Some c
      ∧ text = c_text c ∧ tree = c_tree c ∧ metadata d path = Some (c_len c, Some (c_mtime c))
      ∧ c_len c ≤ MAX_PROJECT_FILE_BYTES.
Proof.
  intros R S. assert (R' : recorded (ops ++ [(d, ReadFile path)]) s) by by apply recorded_snoc.
  unfold parsed_project_file.
  destruct (metadata d path) as [[len [mtime|]]|] eqn:Em; try done.
  2:{ by destruct (MAX_PROJECT_FILE_BYTES <? len). }
  destruct (MAX_PROJECT_FILE_BYTES <? len) eqn:El; [done|]. apply Z.ltb_ge in El.
  destruct (is_fresh mtime len (s !! path_components path)) eqn:Ef.
  - split_and!; try done. intros text tree Ea. unfold is_fresh in Ef.
    destruct (s !! path_components path) as [c|]; [|done]. injection Ea as <- <-.
    apply andb_true_iff in Ef as [<-%bool_decide_eq_true <-%bool_decide_eq_true].
    exists c. by split_and!.
  - destruct (read_to_string d path) as [text|] eqn:Er; [|done].
    split_and!.
    + by apply insert_bounded_recorded.
    + apply insert_bounded_size; [vm_compute; lia | done].
    + unfold insert_bounded_project_file. rewrite lookup_insert_eq. intros ? ? [= <- <-].
      eexists. by split_and!.
Qed.

Lemma evict_subset d path s :
  evict_project_file d path s ⊆ s ∧ evict_project_file d path s !! path_components path = None.
Proof.
  unfold evict_project_file.
  assert (A : delete (path_components path) s ⊆ s) by apply delete_subseteq.
  assert (B : delete (path_components path) s !! path_components path = None) by apply lookup_delete_eq.
  destruct (canonical_path d path) as [canon|]; [|done].
  destruct (path_eq canon path); [done|]. split.
  - etrans; [apply delete_subseteq | done].
  - rewrite lookup_delete. by case_decide.
Qed.

Lemma run_files_ok ops : recorded ops (run_files ops) ∧ (size (run_files ops) ≤ PROJECT_FILE_CACHE_CAP)%nat.
Proof.
  induction ops as [|[d [path|path]] ops [R S]] using rev_ind.
  - split; [intros k c E; unfold run_files in E; simpl in E; by rewrite lookup_empty in E | vm_compute; lia].
  - unfold run_files. rewrite fold_left_app. cbn [fold_left]. fold (run_files ops).
    unfold file_step. cbn [fst snd]. pose proof (parsed_file_ok ops (run_files ops) d path R S) as P.
    destruct (parsed_project_file d path (run_files ops)). by destruct P as (? & ? & _).
  - unfold run_files. rewrite fold_left_app. cbn [fold_left]. fold (run_files ops).
    unfold file_step. cbn [fst snd]. destruct (evict_subset d path (run_files ops)) as [E1 E2].
    split.
    + apply recorded_snoc; [by eapply recorded_subset|]. intros d' p [= <- <-]. done.
    + etrans; [by apply map_subseteq_size | done].
Qed.

(** The cache serves no stale file it could have known about.  Whatever
    requests came before on a changing disk, a project file answered from now
    was read, and parsed, when the file had the length and time it has now,
    and its path has not been evicted since; it is no larger than the cap, and
    the cache never holds more than its bound. *)
Theorem project_files_current ops d path text tree :
  (parsed_project_file d path (run_files ops)).1 = Some (text, tree) →
  tree = parse text ∧ (size (run_files ops) ≤ PROJECT_FILE_CACHE_CAP)%nat
  ∧ (∃ len mtime, metadata d path = Some (len, Some mtime) ∧ len ≤ MAX_PROJECT_FILE_BYTES)
  ∧ ∃ before d' path' after, ops ++ [(d, ReadFile path)] = before ++ (d', ReadFile path') :: after
    ∧ path_eq path' path = true ∧ metadata d' path' = metadata d path ∧ read_to_string d' path' = Some text
    ∧ ∀ d2 p, (d2, EvictFile p) ∈ after → path_eq p path = false.
Proof.
  intros Ha. destruct (run_files_ok ops) as [R S].
  pose proof (parsed_file_ok ops (run_files ops) d path R S) as P.
  destruct (parsed_project_file d path (run_files ops)) as [a s'].
  destruct P as (R' & _ & P). simpl in Ha. destruct (P _ _ Ha) as (c & Hc & -> & -> & Hm & Hl).
  destruct (R' _ _ Hc) as (before & d' & path' & after & E & Ep & (Em & Er & Et) & Hn).
  split_and!; [done | done | by eexists _, _ |].
  exists before, d', path', after. split_and!; try done.
  - by apply bool_decide_eq_true.
  - by rewrite Em, Hm.
  - intros d2 p Hin. apply bool_decide_eq_false. by eapply Hn.
Qed.

End Files.

(** ** Instances *)

Module Sample.
#[local] Instance sample_trees : SyntaxTrees := {|
  Tree := string; parse s := s;
  top_level tree _ := [mkTopNode "package_declaration" (Some "package demo.app;") None];
|}.
Definition sample_roots : Roots := mkRoots (Some (Some "/w")) None.
Definition sample_docs : list (string * Document) :=
  [("file:///w/gen/demo/app/Main.java", mkDocument "package demo.app; class Main {}" (parse "") 1)].

Lemma candidate_paths_confined_witness :
  "/w/gen/demo/app/Main.java" ∈ candidate_paths (strip_prefix "file://") sample_roots sample_docs "demo.app.Main"
  ∧ ∃ source_root segs x, split_char "." "demo.app.Main" = segs ++ [x]
    ∧ path_components "/w/gen/demo/app/Main.java" = path_components source_root ++ segs ++ [x +:+ ".java"].
Proof.
  assert (Hin : "/w/gen/demo/app/Main.java"
                ∈ candidate_paths (strip_prefix "file://") sample_roots sample_docs "demo.app.Main").
  { apply (bool_decide_unpack _). vm_compute. exact I. }
  split; [exact Hin|].
  destruct (candidate_paths_confined _ _ _ _ _ Hin) as (root & sr & segs & x & _ & _ & E & C & _).
  exists sr, segs, x. exact (conj E C).
Defined.

Lemma candidate_paths_find_open_witness :
  ∃ p, p ∈ candidate_paths (strip_prefix "file://") sample_roots sample_docs "demo.app.Main"
    ∧ path_eq p "/w/gen/demo/app/Main.java" = true.
Proof.
  apply (candidate_paths_find_open (strip_prefix "file://") sample_docs sample_roots "/w"
    "file:///w/gen/demo/app/Main.java" (mkDocument "package demo.app; class Main {}" (parse "") 1)
    "/w/gen/demo/app/Main.java" "demo.app" "Main").
  - reflexivity.
  - left.
  - reflexivity.
  - reflexivity.
  - reflexivity.
  - vm_compute. eexists. reflexivity.
  - reflexivity.
  - reflexivity.
Defined.

(** The same length and time: the first text is served until an eviction. *)
Definition disk_with (text : string) : FileDisk :=
  mkFileDisk (λ _, Some (11, Some 5)) (λ _, Some text) (λ p, Some p).

Lemma project_files_current_witness :
  let ops := [(disk_with "class Foo1 {}", ReadFile "/w/Foo.java")] in
  (parsed_project_file (disk_with "class Foo2 {}") "/w/Foo.java" (run_files ops)).1
  = Some ("class Foo1 {}", parse "class Foo1 {}")
  ∧ (parsed_project_file (disk_with "class Foo2 {}") "/w/Foo.java"
       (run_files (ops ++ [(disk_with "class Foo2 {}", EvictFile "/w/Foo.java")]))).1
    = Some ("class Foo2 {}", parse "class Foo2 {}")
  ∧ ∃ before d' path' after,
      ops ++ [(disk_with "class Foo2 {}", ReadFile "/w/Foo.java")] = before ++ (d', ReadFile path') :: after
      ∧ read_to_string d' path' = Some "class Foo1 {}".
Proof.
  cbn zeta. split; [vm_compute; reflexivity|]. split; [vm_compute; reflexivity|].
  destruct (project_files_current [(disk_with "class Foo1 {}", ReadFile "/w/Foo.java")]
    (disk_with "class Foo2 {}") "/w/Foo.java" "class Foo1 {}" (parse "class Foo1 {}") ltac:(vm_compute; reflexivity))
    as (_ & _ & _ & b & d' & p & a & E & _ & _ & R & _).
  exists b, d', p, a. exact (conj E R).
Defined.
End Sample.
End Backend.
