(* ===== verification/Symbols.v ===== *)
(** * Symbol layers ([crates/server/src/project_symbols.rs], [main.rs], [syntax/src/external.rs])

    The [SymbolSource] interface between the server and the syntax crate, its
    two implementations, workspace files and the classpath, and their
    composition.  A layer is a record of answers, those of one request; the
    syntax crate's reading of a class and of its documentation out of a source
    file is an interface. *)
From Stdlib Require Import Ascii.
From stdpp Require Import fin_sets.
From S2P Require Import Prelude RustStd Paths Order JTypes Zip ClassInfo Index Classpath FsScan WorkspaceIndex Backend.

Module Symbols.

Inductive ExternalMemberKind := EMethod | EField | EConstructor.
Record ExternalMember := mkExternalMember {
  em_name : string; em_kind : ExternalMemberKind; em_signature : string; em_template : option string;
  em_is_static : bool; em_ret_fqn : option string; em_ret_display : option string;
  em_metadata : option MemberMetadata }.
Record ExternalClass := mkExternalClass {
  supers : list string; type_params : list string; members : list ExternalMember;
  metadata : option ClassMetadata }.
Record TypeCandidate := mkCandidate { simple : string; fqn : string; import_path : string }.

(** [types_with_prefix] is [None] when it panics. *)
Record SymbolSource := mkSource {
  class : string → option ExternalClass;
  types_with_prefix : string → nat → option (list TypeCandidate * bool);
  package_children : string → list string * list TypeCandidate;
  doc : string → option string → option string;
  super_type_args : string → list (list string) }.

Definition NoSymbols : SymbolSource :=
  mkSource (λ _, None) (λ _ _, Some ([], false)) (λ _, ([], [])) (λ _ _, None) (λ _, []).

(** ** Walking supertypes for documentation

    The loop of both [doc]s: the stack with its top first, the names seen, and
    how many may still be looked at; once none may, the rest of the stack is
    only dropped. *)
Fixpoint doc_walk (budget : nat) (probe : string → option string) (supers_of : string → list string) :
    list string → gset string → option string :=
  match budget with
  | O => λ _ _, None
  | S b =>
      fix drain (queue : list string) (visited : gset string) : option string :=
        match queue with
        | [] => None
        | current :: rest =>
            if bool_decide (current ∈ visited) then drain rest visited
            else match probe current with
                 | Some d => Some d
                 | None => doc_walk b probe supers_of (rev (supers_of current) ++ rest) ({[current]} ∪ visited)
                 end
        end
  end.
Definition DOC_BUDGET : nat := 64.

(** ** The classpath layer *)

(** What the syntax crate reads out of source files. *)
Class SourceReader `{SyntaxTrees} := {
  class_from_doc : string → Tree → string → (list string → option string) → option ExternalClass;
  javadoc_in_source : string → string → option string → option string;
}.

(** A classpath's answers, which stay the same for its whole life. *)
Record Snapshot := mkSnapshot {
  sn_class : string → option ClassInfo; sn_source : string → option string;
  sn_names : list (string * bool) }.
Definition snapshot_of `{ClassFileReader} (inflate : list Z → Z → option (list Z)) (disk : Disk)
    (cp : Classpath) : Snapshot :=
  mkSnapshot (Classpath.load inflate disk cp) (Classpath.load_source inflate disk cp) (index_names cp).

Definition external_member (m : Member) : ExternalMember :=
  mkExternalMember (mb_name m)
    (match mb_kind m with MkMethod => EMethod | MkField => EField | MkConstructor => EConstructor end)
    (mb_signature m) (mb_template m) (mb_is_static m) (mb_ret_fqn m) (mb_ret_display m) (mb_metadata m).
Definition member_shown (m : Member) : bool :=
  negb (mb_hidden m) || match mb_kind m with MkConstructor => true | _ => false end.
Definition external_class (info : ClassInfo) : ExternalClass :=
  mkExternalClass (ci_supers info) (ci_type_params info)
    (external_member <$> List.filter member_shown (ci_members info)) (ci_metadata info).
Definition candidate (e : TypeEntry) : TypeCandidate := mkCandidate (te_simple e) (te_fqn e) (te_import_path e).

Definition classpath_probe `{SourceReader} (sn : Snapshot) (member : option string) (current : string) : option string :=
  src ← sn_source sn current;
  javadoc_in_source src (split_last "$" (split_last "." current)) member.
Definition classpath_supers (sn : Snapshot) (member : option string) (current : string) : list string :=
  match member, sn_class sn current with
  | Some _, Some info => ci_supers info
  | _, _ => []
  end.
Definition ClasspathSymbols `{SourceReader} (sn : Snapshot) : SymbolSource := {|
  class fqn := external_class <$> sn_class sn fqn;
  types_with_prefix prefix limit :=
    let '(entries, truncated) := Index.types_with_prefix (build (sn_names sn)) prefix limit in
    Some (candidate <$> entries, truncated);
  package_children package :=
    let '(subpackages, types) := Index.package_children (build (sn_names sn)) package in
    (subpackages, candidate <$> types);
  doc fqn member := doc_walk DOC_BUDGET (classpath_probe sn member) (classpath_supers sn member) [fqn] ∅;
  super_type_args fqn := match sn_class sn fqn with Some info => ci_super_type_args info | None => [] end;
|}.

(** ** The workspace layer *)

Definition fqn_of (package simple : string) : string :=
  if bool_decide (package = "") then simple else package +:+ "." +:+ simple.

(** [demo.Outer$Inner] into [demo], [Outer] and [Outer.Inner]. *)
Definition split_project_fqn (fqn : string) : option (string * string * string) :=
  let '(binary_outer, nested) :=
    match split_once "$" fqn with Some (outer, rest) => (outer, Some rest) | None => (fqn, None) end in
  let '(package, outer_simple) :=
    match rsplit_once "." binary_outer with Some (p, s) => (p, s) | None => ("", binary_outer) end in
  if bool_decide (outer_simple = "") then None
  else Some (package, outer_simple,
             match nested with
             | Some rest => outer_simple +:+ "." +:+ replace_char "$" "." rest
             | None => outer_simple
             end).

Definition package_declaration_path (node : TopNode) : option string :=
  raw ← tn_text node;
  rest ← strip_prefix "package" (trim_start raw);
  let rest := trim rest in
  Some (trim (str_rev (strip_all (String.length rest) [";"] (str_rev rest)))).
Definition TYPE_DECLARATIONS : list string :=
  ["class_declaration"; "interface_declaration"; "enum_declaration"; "record_declaration";
   "annotation_type_declaration"].
Definition binary_name (s : string * list string) (node : TopNode) : string * list string :=
  if bool_decide (tn_kind node = "package_declaration")
  then (default s.1 (package_declaration_path node), s.2)
  else if bool_decide (tn_kind node ∈ TYPE_DECLARATIONS)
  then match tn_name node with Some name => (s.1, s.2 ++ [fqn_of s.1 name]) | None => s end
  else s.
Definition top_level_binary_names `{SyntaxTrees} (text : string) (tree : Tree) : list string :=
  (fold_left binary_name (top_level tree text) ("", [])).2.

Section Project.
Context `{SourceReader}.

(** What a request sees of the server: the locked index, the open documents
    by binary name, the project files and the classpath. *)
Record Project := mkProject {
  pr_index : WorkspaceIndex.Inner; pr_overlay : gmap string (string * Tree);
  pr_file : string → option (string * Tree); pr_classpath : Snapshot }.

Definition overlay_doc (m : gmap string (string * Tree)) (d : Backend.Document) : gmap string (string * Tree) :=
  fold_left (λ m name, <[name := (Backend.d_text d, Backend.d_tree d)]> m)
    (top_level_binary_names (Backend.d_text d) (Backend.d_tree d)) m.
Definition overlay_of (docs : list Backend.Document) : gmap string (string * Tree) := fold_left overlay_doc docs ∅.

Definition exists_ (pr : Project) (fqn : string) : bool :=
  match sn_class (pr_classpath pr) fqn with
  | Some _ => true
  | None =>
      match split_project_fqn fqn with
      | Some (package, outer, _) =>
          bool_decide (is_Some (pr_overlay pr !! fqn_of package outer))
          || bool_decide (is_Some (WorkspaceIndex.find_type (pr_index pr) package outer))
      | None => false
      end
  end.
Definition pick_fqn (pr : Project) (candidates : list string) : option string :=
  List.find (exists_ pr) candidates.

(** [class] without and with the request's memo. *)
Definition project_class (pr : Project) (fqn : string) : option ExternalClass :=
  '(package, outer, type_path) ← split_project_fqn fqn;
  match pr_overlay pr !! fqn_of package outer with
  | Some (text, tree) => class_from_doc text tree type_path (pick_fqn pr)
  | None =>
      path ← WorkspaceIndex.find_type (pr_index pr) package outer;
      '(text, tree) ← pr_file pr path;
      class_from_doc text tree type_path (pick_fqn pr)
  end.
Definition memo_class (pr : Project) (fqn : string) (memo : gmap string (option ExternalClass)) :
    option ExternalClass * gmap string (option ExternalClass) :=
  match memo !! fqn with
  | Some hit => (hit, memo)
  | None => let result := project_class pr fqn in (result, <[fqn := result]> memo)
  end.

Definition project_candidate (e : WorkspaceIndex.SymbolEntry) : TypeCandidate :=
  let f := fqn_of (WorkspaceIndex.package e) (WorkspaceIndex.simple_name e) in
  mkCandidate (WorkspaceIndex.simple_name e) f f.
Definition project_doc (pr : Project) (fqn : string) (member : option string) : option string :=
  '(package, outer, type_path) ← split_project_fqn fqn;
  path ← WorkspaceIndex.find_type (pr_index pr) package outer;
  '(text, _) ← pr_file pr path;
  javadoc_in_source text (split_last "." type_path) member.
Definition ProjectSymbols (pr : Project) : SymbolSource := {|
  class := project_class pr;
  types_with_prefix prefix limit :=
    match WorkspaceIndex.types_with_prefix (pr_index pr) prefix limit with
    | Some (hits, truncated) => Some (project_candidate <$> hits, truncated)
    | None => None
    end;
  package_children package :=
    let '(subpackages, types) := WorkspaceIndex.package_children (pr_index pr) package in
    (subpackages, project_candidate <$> types);
  doc := project_doc pr;
  super_type_args _ := [];
|}.
End Project.

(** ** Both layers *)

Definition unseen (seen : list TypeCandidate) (l : list TypeCandidate) : list TypeCandidate :=
  List.filter (λ c, negb (bool_decide (fqn c ∈ fqn <$> seen))) l.
Definition either_doc (p c : SymbolSource) (f : string) (member : option string) : option string :=
  match doc p f member with Some d => Some d | None => doc c f member end.
Definition combined_class (p c : SymbolSource) (f : string) : option ExternalClass :=
  match class p f with Some x => Some x | None => class c f end.
Definition class_supers (p c : SymbolSource) (f : string) : list string :=
  match combined_class p c f with Some x => supers x | None => [] end.

Definition CombinedSymbols (p c : SymbolSource) : SymbolSource := {|
  class := combined_class p c;
  super_type_args f := match class p f with Some _ => super_type_args p f | None => super_type_args c f end;
  doc f member :=
    match either_doc p c f member with
    | Some direct => Some direct
    | None =>
        match member, combined_class p c f with
        | Some m, Some x =>
            doc_walk DOC_BUDGET (λ s, either_doc p c s (Some m)) (class_supers p c) (rev (supers x)) ∅
        | _, _ => None
        end
    end;
  types_with_prefix prefix limit :=
    match types_with_prefix p prefix limit with
    | None => None
    | Some (project, project_truncated) =>
        let remaining := (limit - length project)%nat in
        match types_with_prefix c prefix remaining with
        | None => None
        | Some (classpath, classpath_truncated) =>
            Some (project ++ unseen project classpath, project_truncated || classpath_truncated)
        end
    end;
  package_children package :=
    let '(subpackages, types) := package_children p package in
    let '(more_subs, more_types) := package_children c package in
    (fold_left WorkspaceIndex.push_new more_subs subpackages, types ++ unseen types more_types);
|}.

(** ** Documentation is found where it is *)

Lemma elem_of_rev_1 {A} (x : A) l : x ∈ rev l → x ∈ l.
Proof. by rewrite elem_of_rev. Qed.

Section Walk.
Variables (probe : string → option string) (supers_of : string → list string).

Inductive above : string → string → Prop :=
| above_refl s : above s s
| above_super s t u : above s t → u ∈ supers_of t → above s u.

Lemma above_first f q s : q ∈ supers_of f → above q s → above f s.
Proof.
  intros Hq Ha. revert f Hq. induction Ha as [|? t u Ha IH Hin]; intros f Hq.
  - eapply above_super; [apply above_refl | done].
  - eapply above_super; [by apply IH | done].
Qed.

Lemma doc_walk_sound (start : list string) budget : ∀ (queue : list string) visited d,
  (∀ s, s ∈ queue → ∃ q, q ∈ start ∧ above q s) →
  doc_walk budget probe supers_of queue visited = Some d →
  ∃ q s, q ∈ start ∧ above q s ∧ probe s = Some d.
Proof.
  induction budget as [|b IH]; intros queue; [done|].
  induction queue as [|current rest IHq]; intros visited d Hq; [done|].
  cbn [doc_walk]. case_bool_decide.
  { apply IHq. intros s Hs. apply Hq. by right. }
  destruct (Hq current) as (q & Hin & Ha); [by left|].
  destruct (probe current) as [d'|] eqn:Ep.
  - intros [= <-]. by exists q, current.
  - apply IH. intros s [Hs%elem_of_rev_1|Hs]%elem_of_app; [|apply Hq; by right].
    exists q. split; [done|]. exact (above_super q current s Ha Hs).
Qed.

Variable universe : gset string.
Hypothesis universe_closed : ∀ s t, s ∈ universe → t ∈ supers_of s → t ∈ universe.

Lemma doc_walk_complete budget : ∀ (queue : list string) visited,
  (∀ s, s ∈ queue → s ∈ universe) → visited ⊆ universe → (size (universe ∖ visited) ≤ budget)%nat →
  (∀ s, s ∈ visited → probe s = None ∧ ∀ t, t ∈ supers_of s → t ∈ visited ∨ t ∈ queue) →
  doc_walk budget probe supers_of queue visited = None →
  ∃ final, visited ⊆ final ∧ (∀ s, s ∈ queue → s ∈ final)
    ∧ ∀ s, s ∈ final → probe s = None ∧ ∀ t, t ∈ supers_of s → t ∈ final.
Proof.
  induction budget as [|b IH]; intros queue.
  - intros visited Hq Hv Hs Hi _. exists visited.
    assert (E : universe ∖ visited = ∅) by (apply leibniz_equiv, size_empty_inv; lia).
    assert (Hu : ∀ s, s ∈ universe → s ∈ visited).
    { intros s Hin. destruct (decide (s ∈ visited)); [done|].
      assert (s ∈ universe ∖ visited) as H by by apply elem_of_difference.
      rewrite E in H. by apply elem_of_empty in H. }
    split_and!; [done | naive_solver|].
    intros s Hin. destruct (Hi s Hin) as [? Ht]. split; [done|].
    intros t Hts. apply Hu. apply (universe_closed s); [by apply Hv | done].
  - induction queue as [|current rest IHq]; intros visited Hq Hv Hs Hi; cbn [doc_walk].
    { intros _. exists visited. split_and!; [done | by intros s ?%elem_of_nil|].
      intros s Hin. destruct (Hi s Hin) as [? Ht]. split; [done|].
      intros t Hts. by destruct (Ht t Hts) as [|?%elem_of_nil]. }
    case_bool_decide as Hc.
    { intros E. destruct (IHq visited) as (final & A & B & C); try done.
      - intros s ?. apply Hq. by right.
      - intros s Hin. destruct (Hi s Hin) as [? Ht]. split; [done|].
        intros t Hts. destruct (Ht t Hts) as [|[->|]%elem_of_cons]; auto.
      - exists final. split_and!; [done | |done].
        intros s [->|]%elem_of_cons; [by apply A | by apply B]. }
    destruct (probe current) as [d|] eqn:Ep; [done|]. intros E.
    assert (Hcu : current ∈ universe) by (apply Hq; by left).
    destruct (IH (rev (supers_of current) ++ rest) ({[current]} ∪ visited)) as (final & A & B & C); try done.
    + intros s [Hin%elem_of_rev_1|Hin]%elem_of_app; [by eapply universe_closed | apply Hq; by right].
    + set_solver.
    + assert (E1 : universe ∖ visited = {[current]} ∪ universe ∖ ({[current]} ∪ visited)).
      { apply set_eq. intros x. destruct (decide (x = current)); set_solver. }
      apply (f_equal size) in E1.
      assert (E2 : {[current]} ## universe ∖ ({[current]} ∪ visited)) by set_solver.
      apply size_union in E2. rewrite size_singleton in E2. lia.
    + intros s [->%elem_of_singleton|Hin]%elem_of_union.
      * split; [done|]. intros t Hts. right. apply elem_of_app. left. by apply elem_of_rev.
      * destruct (Hi s Hin) as [? Ht]. split; [done|]. intros t Hts.
        destruct (Ht t Hts) as [|[->|]%elem_of_cons]; [set_solver | set_solver|].
        right. apply elem_of_app. by right.
    + exists final. split_and!; [set_solver | |done].
      intros s [->|Hin]%elem_of_cons; [set_solver|]. apply B, elem_of_app. by right.
Qed.

Lemma doc_walk_none (queue : list string) :
  (∀ s, s ∈ queue → s ∈ universe) → (size universe ≤ DOC_BUDGET)%nat →
  doc_walk DOC_BUDGET probe supers_of queue ∅ = None →
  ∀ q s, q ∈ queue → above q s → probe s = None.
Proof.
  intros Hq Hs E. destruct (doc_walk_complete DOC_BUDGET queue ∅) as (final & _ & B & C); try done.
  - by rewrite difference_empty_L.
  - assert (G : ∀ q s, q ∈ queue → above q s → s ∈ final).
    { intros q s Hin Ha. induction Ha as [q|q t u Ha IH Hu]; [by apply B|].
      by apply (C t (IH Hin)). }
    intros q s Hin Ha. by apply (C s (G q s Hin Ha)).
Qed.
End Walk.

#[local] Arguments doc_walk : simpl never.

(** A member's documentation is inherited across the layers.  What is found
    is the documentation one of the layers has of the member in the class
    itself or in a class above it, wherever each of them comes from; when
    at most 64 classes are above it and nothing is found, none of them has
    any; and a class's own documentation is never inherited. *)
Theorem inherited_docs_found p c f member (universe : gset string) :
  (∀ x s, combined_class p c f = Some x → s ∈ supers x → s ∈ universe) →
  (∀ s t, s ∈ universe → t ∈ class_supers p c s → t ∈ universe) →
  (size universe ≤ DOC_BUDGET)%nat →
  match doc (CombinedSymbols p c) f member with
  | Some d => ∃ s, (s = f ∨ member ≠ None ∧ above (class_supers p c) f s) ∧ either_doc p c s member = Some d
  | None => either_doc p c f member = None
      ∧ (member ≠ None → ∀ s, above (class_supers p c) f s → either_doc p c s member = None)
  end.
Proof.
  intros Hx Hu Hs. simpl. destruct (either_doc p c f member) as [d|] eqn:Ed.
  { exists f. split; [by left | done]. }
  destruct member as [m|]; simpl; [|done].
  assert (Hself : ∀ s, above (class_supers p c) f s → s = f ∨ ∃ q, q ∈ class_supers p c f ∧ above (class_supers p c) q s).
  { intros s Ha. remember f as f0 eqn:E. induction Ha as [f1|f1 t u Ha IH Hin]; [by left|]. right.
    destruct (IH E Hx Ed) as [->|(q & Hq & Ha')].
    - exists u. split; [done | apply above_refl].
    - exists q. split; [done|]. by eapply above_super. }
  destruct (combined_class p c f) as [x|] eqn:Ex; simpl.
  - assert (Es : class_supers p c f = supers x) by (unfold class_supers; by rewrite Ex).
    destruct (doc_walk DOC_BUDGET (λ s, either_doc p c s (Some m)) (class_supers p c) (rev (supers x)) ∅)
      as [d|] eqn:Ew.
    + assert (Hstart : ∀ s, s ∈ rev (supers x) → ∃ q, q ∈ rev (supers x) ∧ above (class_supers p c) q s).
      { intros s Hin. exists s. split; [exact Hin | apply above_refl]. }
      destruct (doc_walk_sound _ _ _ _ _ _ _ Hstart Ew) as (q & s & Hq%elem_of_rev_1 & Ha & Hp).
      exists s. split; [|done]. right. split; [done|].
      apply (above_first _ f q s); [by rewrite Es | done].
    + split; [done|]. intros _ s Ha. destruct (Hself s Ha) as [->|(q1 & Hq & Ha')]; [done|].
      rewrite Es in Hq.
      apply (doc_walk_none (λ s, either_doc p c s (Some m)) (class_supers p c) universe Hu (rev (supers x)))
        with (q := q1); try done.
      * intros s' Hin%elem_of_rev_1. by apply (Hx x).
      * by apply elem_of_rev.
  - split; [done|]. intros _ s Ha. destruct (Hself s Ha) as [->|(q1 & Hq & Ha')]; [done|].
    unfold class_supers in Hq. rewrite Ex in Hq. by apply elem_of_nil in Hq.
Qed.

(** ** Candidates *)

(** What a layer promises of its prefix search: it gives the first of the
    candidates it has, and says whether it left any out. *)
Class PrefixSearch (s : SymbolSource) (found : string → list TypeCandidate) : Prop := {
  search_first : ∀ prefix limit, prefix ≠ "" → limit ≠ O →
    types_with_prefix s prefix limit = Some (take limit (found prefix), (limit <? length (found prefix))%nat);
  search_none : ∀ prefix, types_with_prefix s prefix 0 = Some ([], false);
}.

Definition classpath_found (sn : Snapshot) (prefix : string) : list TypeCandidate :=
  candidate <$> sort_by best_compare
    (List.filter (λ e, starts_with (to_ascii_lowercase prefix) (lower_simple e)) (offered_entries (sn_names sn))).

#[global] Instance classpath_search `{SourceReader} sn : PrefixSearch (ClasspathSymbols sn) (classpath_found sn).
Proof.
  split; [intros prefix limit Hp Hl | intros prefix]; cbn [types_with_prefix ClasspathSymbols];
    rewrite types_with_prefix_spec.
  - rewrite !bool_decide_eq_false_2 by done. cbn [orb]. cbn zeta. unfold classpath_found.
    rewrite length_fmap, fmap_take. f_equal. f_equal.
    match goal with |- bool_decide (?a < ?b)%nat = _ => destruct (Nat.ltb_spec a b) end;
      [by rewrite bool_decide_eq_true_2 | by rewrite bool_decide_eq_false_2 by lia].
  - rewrite orb_comm, bool_decide_eq_true_2 by done. done.
Qed.

Definition project_found (pr : WorkspaceIndex.Inner) (prefix : string) : list TypeCandidate :=
  project_candidate <$> sort_by WorkspaceIndex.name_compare
    (List.filter (λ e, starts_with (to_ascii_lowercase prefix) (to_ascii_lowercase (WorkspaceIndex.simple_name e)))
       (WorkspaceIndex.entries pr)).

Lemma ascii_boundary n s : Forall (λ b, b < 128) (as_bytes s) → (n ≤ String.length s)%nat → is_char_boundary n s = true.
Proof.
  intros Ha Hn. unfold is_char_boundary. apply orb_true_iff.
  destruct (decide (n = String.length s)) as [->|Hne]; [left; apply orb_true_iff; right; by apply bool_decide_eq_true|].
  right. apply andb_true_iff. split; [apply Nat.ltb_lt; lia|]. apply negb_true_iff.
  unfold is_cont, in_range, byte_at. destruct (as_bytes s !! n) as [b|] eqn:E; [|done]. simpl.
  rewrite Forall_lookup in Ha. apply Ha in E. apply andb_false_iff. left. apply Z.leb_gt. lia.
Qed.

(** The workspace layer keeps the promise as long as the indexed names are
    ASCII; see [prefix_search_panics] for what happens otherwise. *)
Lemma project_search `{SourceReader} pr :
  Forall (λ e, Forall (λ b, b < 128) (as_bytes (WorkspaceIndex.simple_name e))) (WorkspaceIndex.entries (pr_index pr)) →
  PrefixSearch (ProjectSymbols pr) (project_found (pr_index pr)).
Proof.
  intros Ha. split; [intros prefix limit Hp Hl | intros prefix]; cbn [types_with_prefix ProjectSymbols].
  - rewrite WorkspaceIndex.index_search_spec by done.
    assert (existsb (WorkspaceIndex.cut_inside prefix) (WorkspaceIndex.entries (pr_index pr)) = false) as ->.
    { apply not_true_iff_false. intros (e & Hin%list_elem_of_In & Hc)%existsb_exists.
      rewrite Forall_forall in Ha. unfold WorkspaceIndex.cut_inside in Hc.
      apply andb_true_iff in Hc as [Hl'%Nat.leb_le Hb]. by rewrite ascii_boundary in Hb by auto. }
    cbn zeta. unfold project_found. by rewrite length_fmap, fmap_take, length_sort_by.
  - unfold WorkspaceIndex.types_with_prefix. by rewrite orb_comm, bool_decide_eq_true_2.
Qed.

Lemma elem_of_unseen seen l x : x ∈ unseen seen l ↔ x ∈ l ∧ fqn x ∉ fqn <$> seen.
Proof.
  unfold unseen. rewrite elem_of_filter_bool, negb_true_iff, bool_decide_eq_false. done.
Qed.
Lemma length_unseen seen l : (length (unseen seen l) ≤ length l)%nat.
Proof. unfold unseen. induction l as [|x l IH]; simpl; [done|]. case_match; simpl; lia. Qed.

(** Completion shows a workspace type before, and instead of, a classpath
    type of the same name: at most [limit] candidates, the workspace's first,
    none of the classpath's under a name the workspace has shown, none
    invented; and when the result does not claim to be cut and the workspace
    alone has not filled it, every candidate of either layer is there under
    its name. *)
Theorem combined_candidates p c fp fc `{!PrefixSearch p fp} `{!PrefixSearch c fc} prefix limit :
  prefix ≠ "" → limit ≠ O →
  ∃ more truncated,
    types_with_prefix (CombinedSymbols p c) prefix limit = Some (take limit (fp prefix) ++ more, truncated)
    ∧ (length (take limit (fp prefix) ++ more) ≤ limit)%nat
    ∧ (∀ x, x ∈ more → x ∈ fc prefix ∧ fqn x ∉ fqn <$> take limit (fp prefix))
    ∧ (truncated = false → (length (fp prefix) < limit)%nat →
       ∀ x, x ∈ fp prefix ∨ x ∈ fc prefix → fqn x ∈ fqn <$> (take limit (fp prefix) ++ more)).
Proof.
  intros Hp Hl. cbn [types_with_prefix CombinedSymbols]. rewrite (search_first (found := fp)) by done.
  set (P := take limit (fp prefix)). set (remaining := (limit - length P)%nat).
  destruct (decide (remaining = O)) as [E|E].
  - rewrite E, (search_none (found := fc)). exists [], ((limit <? length (fp prefix))%nat || false).
    split_and!; [done | | by intros ? ?%elem_of_nil |].
    + rewrite app_nil_r. subst P. rewrite length_take. lia.
    + intros _ Hlt. subst remaining P. rewrite length_take in E. lia.
  - rewrite (search_first (found := fc)) by done.
    exists (unseen P (take remaining (fc prefix))), ((limit <? length (fp prefix))%nat || (remaining <? length (fc prefix))%nat).
    split_and!; [done | | |].
    + rewrite length_app. pose proof (length_unseen P (take remaining (fc prefix))) as Hu.
      rewrite length_take in Hu. subst remaining. lia.
    + intros x [Hin Hn]%elem_of_unseen. split; [|done]. apply elem_of_take in Hin as (i & Hi & _).
      by eapply list_elem_of_lookup_2.
    + intros [Ht1 Ht2]%orb_false_iff Hlt x Hx. apply Nat.ltb_ge in Ht2.
      rewrite fmap_app, elem_of_app. assert (EP : P = fp prefix) by (apply take_ge; lia).
      destruct (decide (fqn x ∈ fqn <$> P)) as [?|Hn]; [by left|].
      destruct Hx as [Hx|Hx]; [left; rewrite EP; by apply list_elem_of_fmap_2|].
      right. apply list_elem_of_fmap_2, elem_of_unseen. split; [|done]. by rewrite take_ge.
Qed.

(** A workspace that exactly fills the limit hides the classpath's candidates
    and the result still says it is complete: an empty search is asked of the
    classpath, and it answers that nothing was cut. *)
Lemma full_workspace_hides_classpath p c fp fc `{!PrefixSearch p fp} `{!PrefixSearch c fc} prefix limit :
  prefix ≠ "" → limit ≠ O → length (fp prefix) = limit →
  types_with_prefix (CombinedSymbols p c) prefix limit = Some (fp prefix, false).
Proof.
  intros Hp Hl E. cbn [types_with_prefix CombinedSymbols]. rewrite (search_first (found := fp)) by done.
  rewrite take_ge by lia. rewrite <-E, Nat.sub_diag, (search_none (found := fc)), Nat.ltb_irrefl.
  unfold unseen. simpl. by rewrite app_nil_r.
Qed.

(** ** Type arguments *)

(** A layer's type arguments fit its supertypes, or it tracks none. *)
Definition aligned (s : SymbolSource) : Prop :=
  ∀ f x, class s f = Some x → super_type_args s f = [] ∨ length (super_type_args s f) = length (supers x).

Lemma combined_aligned p c : aligned p → aligned c → aligned (CombinedSymbols p c).
Proof.
  intros Hp Hc f x. cbn [class super_type_args CombinedSymbols]. unfold combined_class.
  destruct (class p f) as [y|] eqn:E; [intros [= <-]; by apply Hp | apply Hc].
Qed.

Lemma load_from_class `{ClassFileReader} inflate disk cp f info :
  Classpath.load inflate disk cp f = Some info → ∃ c, info = class_info c.
Proof.
  unfold Classpath.load. induction (cp_archives cp) as [|a l IH]; simpl; [done|].
  unfold Classpath.archive_class at 1. destruct (Zip.contains _ _); [|exact IH].
  destruct (Zip.read _ _ _ _) as [bytes|]; simpl; [|exact IH].
  unfold ClassInfo.parse. destruct (parse_class bytes) as [c|]; simpl; [|exact IH]. intros [= <-]. by eexists.
Qed.

(** Generics line up across the layers: whatever class files are on the
    classpath, whatever the workspace holds, a class the combined symbols
    know has as many type-argument lists as supertypes, or none. *)
Theorem symbols_aligned `{SourceReader} `{ClassFileReader} inflate disk cp pr :
  aligned (CombinedSymbols (ProjectSymbols pr) (ClasspathSymbols (snapshot_of inflate disk cp))).
Proof.
  apply combined_aligned; [intros f x _; by left|]. intros f x. cbn.
  destruct (Classpath.load inflate disk cp f) as [info|] eqn:E; simpl; [|done]. intros [= <-]. right.
  destruct (load_from_class _ _ _ _ _ E) as [c ->]. apply class_super_args_length.
Qed.

(** ** Binary names of workspace types *)

Lemma dollar_join o ns : contains_char "$" o = false → Forall (λ n, contains_char "$" n = false) ns →
  replace_char "$" "." (str_join "$" (o :: ns)) = str_join "." (o :: ns).
Proof. intros Ho Hn. apply Backend.replace_join. by constructor. Qed.

(** The binary name of a type, however deeply nested, leads back to the file
    that declares it: to its package, to the top-level type the file is named
    after, and to the path of the type inside it. *)
Lemma split_project_fqn_spec package outer nested :
  contains_char "$" package = false → contains_char "$" outer = false → contains_char "." outer = false →
  outer ≠ "" → Forall (λ n, contains_char "$" n = false) nested →
  split_project_fqn (str_join "$" (fqn_of package outer :: nested))
  = Some (package, outer, str_join "." (outer :: nested)).
Proof.
  intros Hp Ho Hd He Hn.
  assert (Hf : contains_char "$" (fqn_of package outer) = false).
  { unfold fqn_of. case_bool_decide; [done|]. by rewrite !contains_char_app, Hp, Ho. }
  assert (Hs : match rsplit_once "." (fqn_of package outer) with
               | Some (p, s) => (p, s) | None => ("", fqn_of package outer) end = (package, outer)).
  { unfold fqn_of. case_bool_decide as Hp0.
    - subst package. by rewrite (proj2 (rsplit_once_None "." outer) Hd).
    - change (package +:+ "." +:+ outer) with (package +:+ String "." outer). by rewrite rsplit_once_app. }
  unfold split_project_fqn. destruct nested as [|n ns].
  - cbn [str_join]. rewrite split_once_none by done. rewrite Hs. by rewrite bool_decide_eq_false_2.
  - change (str_join "$" (fqn_of package outer :: n :: ns))
      with (fqn_of package outer +:+ String "$" (str_join "$" (n :: ns))).
    rewrite split_once_app by done. rewrite Hs. rewrite bool_decide_eq_false_2 by done.
    inversion Hn; subst. by rewrite dollar_join.
Qed.

(** A workspace type that completion offers can be looked up under the name
    it was offered with: the lookup reaches the one file that declares it,
    unless another file declares the same name. *)
Theorem workspace_candidates_resolve `{SourceReader} pr prefix limit hits truncated x :
  types_with_prefix (ProjectSymbols pr) prefix limit = Some (hits, truncated) → x ∈ hits →
  ∃ e, e ∈ WorkspaceIndex.entries (pr_index pr) ∧ x = project_candidate e
    ∧ let pkg := WorkspaceIndex.package e in
      let name := WorkspaceIndex.simple_name e in
      (contains_char "$" pkg = false → contains_char "$" name = false → contains_char "." name = false → name ≠ "" →
       pr_overlay pr !! fqn x = None →
       ∀ text tree, pr_file pr (WorkspaceIndex.path e) = Some (text, tree) →
       (∀ e', e' ∈ WorkspaceIndex.entries (pr_index pr) → WorkspaceIndex.declares pkg name e' = true → e' = e) →
       NoDup (WorkspaceIndex.entries (pr_index pr)) →
       class (ProjectSymbols pr) (fqn x) = class_from_doc text tree name (pick_fqn pr)).
Proof.
  cbn [types_with_prefix ProjectSymbols].
  destruct (WorkspaceIndex.types_with_prefix (pr_index pr) prefix limit) as [[es tr]|] eqn:E; [|done].
  intros [= <- <-] (e & -> & Hin)%list_elem_of_fmap.
  assert (He : e ∈ WorkspaceIndex.entries (pr_index pr)).
  { revert E. unfold WorkspaceIndex.types_with_prefix. case_match; [by intros [= <- <-]; apply elem_of_nil in Hin|].
    rewrite WorkspaceIndex.prefix_hits_spec. destruct (existsb _ _); [done|]. simpl. intros [= <- <-].
    apply elem_of_take in Hin as (i & Hi & _). apply list_elem_of_lookup_2 in Hi.
    rewrite sort_by_perm in Hi. by apply elem_of_filter_bool in Hi as [? _]. }
  exists e. split_and!; [done | done |]. intros Hp Hn Hd Hne Ho text tree Hf Hu Hnd.
  cbn [class ProjectSymbols]. unfold project_class. cbn [fqn project_candidate] in *.
  pose proof (split_project_fqn_spec (WorkspaceIndex.package e) (WorkspaceIndex.simple_name e) [] Hp Hn Hd Hne
    ltac:(constructor)) as Es. cbn [str_join] in Es. rewrite Es. cbn [mbind option_bind]. rewrite Ho.
  assert (Ef : WorkspaceIndex.find_type (pr_index pr) (WorkspaceIndex.package e) (WorkspaceIndex.simple_name e)
               = Some (WorkspaceIndex.path e)).
  { unfold WorkspaceIndex.find_type.
    assert (Hself : WorkspaceIndex.declares (WorkspaceIndex.package e) (WorkspaceIndex.simple_name e) e = true).
    { unfold WorkspaceIndex.declares. by rewrite !bool_decide_eq_true_2. }
    revert He Hu Hnd. generalize (WorkspaceIndex.entries (pr_index pr)).
    induction l as [|e' l IH]; intros He Hu Hnd; [by apply elem_of_nil in He|].
    apply NoDup_cons in Hnd as [Hni Hnd]. cbn [List.filter].
    destruct (WorkspaceIndex.declares _ _ e') eqn:Ed.
    - assert (e' = e) as -> by (apply Hu; [by left | done]).
      rewrite filter_false; [done|]. apply Forall_forall. intros e2 H2.
      destruct (WorkspaceIndex.declares _ _ e2) eqn:E2; [|done].
      assert (e2 = e) as -> by (apply Hu; [by right | done]). done.
    - apply IH; [|intros; apply Hu; [by right | done] | done].
      apply elem_of_cons in He as [->|]; [congruence | done]. }
  rewrite Ef. cbn [mbind option_bind]. by rewrite Hf.
Qed.

(** The memo of a request never changes an answer. *)
Lemma memo_class_ok `{SourceReader} pr f memo :
  (∀ g r, memo !! g = Some r → r = project_class pr g) →
  (memo_class pr f memo).1 = project_class pr f
  ∧ ∀ g r, (memo_class pr f memo).2 !! g = Some r → r = project_class pr g.
Proof.
  intros Hm. unfold memo_class. destruct (memo !! f) as [hit|] eqn:E; simpl; [by split; [apply Hm|]|].
  split; [done|]. intros g r. rewrite lookup_insert. case_decide as Eg; [intros [= <-]; by subst g | apply Hm].
Qed.

(** ** External sources

    The text of a library type: its real source, else a stub that lists its
    members, cached by name. *)

Definition render_stub (info : ClassInfo) : string :=
  "// Signature-only stub for " +:+ ci_fqn info +:+ " (no sources available)" +:+ newline
  +:+ "class " +:+ Backend.simple_name (ci_fqn info) +:+ " {" +:+ newline
  +:+ str_concat ((λ m, "    " +:+ mb_signature m +:+ ";" +:+ newline) <$> ci_members info)
  +:+ "}" +:+ newline.
Definition stub_text (sn : Snapshot) (f : string) (cache : gmap string string) : option string * gmap string string :=
  match cache !! f with
  | Some hit => (Some hit, cache)
  | None =>
      match sn_class sn f with
      | None => (None, cache)
      | Some info =>
          let text := render_stub info in
          (Some text, <[f := text]> (if (Backend.EXTERNAL_CACHE_CAP <=? size cache)%nat then ∅ else cache))
      end
  end.
Definition external_source_text (sn : Snapshot) (f : string) (cache : gmap string string) :
    option string * gmap string string :=
  match sn_source sn f with
  | Some src => (Some src, cache)
  | None => stub_text sn f cache
  end.

(** On one classpath the stub served is the one the class has now. *)
Lemma stub_current sn f cache :
  (∀ g text, cache !! g = Some text → ∃ info, sn_class sn g = Some info ∧ text = render_stub info) →
  (stub_text sn f cache).1 = render_stub <$> sn_class sn f
  ∧ ∀ g text, (stub_text sn f cache).2 !! g = Some text → ∃ info, sn_class sn g = Some info ∧ text = render_stub info.
Proof.
  intros Hc. unfold stub_text. destruct (cache !! f) as [hit|] eqn:E.
  { destruct (Hc _ _ E) as (info & Hi & ->). by rewrite Hi. }
  destruct (sn_class sn f) as [info|] eqn:Ei; [|done]. simpl. split; [done|].
  intros g text. rewrite lookup_insert. case_decide as Eg.
  - subst g. intros [= <-]. by exists info.
  - case_match; [by intros ?%lookup_empty_Some | apply Hc].
Qed.

(** A rebuild of the classpath does not clear the cache: the stub of the old
    class is still served. *)
Lemma stub_survives_rebuild : ∃ sn1 sn2 f text,
  (stub_text sn2 f (stub_text sn1 f ∅).2).1 = Some text ∧ render_stub <$> sn_class sn2 f ≠ Some text.
Proof.
  set (info m := mkClassInfo "lib.Api" [] [] [mkMember m MkMethod ("void " +:+ m +:+ "()") None false None None false None] [] None).
  exists (mkSnapshot (λ _, Some (info "old")) (λ _, None) []),
    (mkSnapshot (λ _, Some (info "new")) (λ _, None) []), "lib.Api", (render_stub (info "old")).
  split; [by vm_compute | by vm_compute].
Qed.

(** ** An instance *)

Module Sample.
Definition stub_class (l : list string) : ExternalClass := mkExternalClass l [] [] None.
Definition layer (classes : string → option ExternalClass) (docs : string → option string)
    (all : list TypeCandidate) : SymbolSource := {|
  class := classes;
  types_with_prefix prefix limit :=
    Some (take limit all, if bool_decide (limit = O) then false else (limit <? length all)%nat);
  package_children _ := ([], all);
  doc f member := match member with Some _ => docs f | None => None end;
  super_type_args _ := [];
|}.
#[local] Instance layer_search classes docs all : PrefixSearch (layer classes docs all) (λ _, all).
Proof.
  split; [|done]. intros prefix limit _ Hl. cbn. by rewrite bool_decide_eq_false_2.
Qed.

Definition task : TypeCandidate := mkCandidate "Task" "demo.Task" "demo.Task".
Definition old_task : TypeCandidate := mkCandidate "Task" "demo.Task" "demo.Task".
Definition tasks : TypeCandidate := mkCandidate "Tasks" "lib.Tasks" "lib.Tasks".
Definition workspace : SymbolSource :=
  layer (λ f, if bool_decide (f = "demo.Task") then Some (stub_class ["java.lang.Runnable"]) else None)
    (λ _, None) [task].
Definition library : SymbolSource :=
  layer (λ f, if bool_decide (f = "java.lang.Runnable") then Some (stub_class []) else None)
    (λ f, if bool_decide (f = "java.lang.Runnable") then Some "Runs the task." else None) [old_task; tasks].

Lemma combined_candidates_witness :
  types_with_prefix (CombinedSymbols workspace library) "Ta" 5 = Some ([task; tasks], false)
  ∧ ∃ more truncated, types_with_prefix (CombinedSymbols workspace library) "Ta" 5 = Some (take 5 [task] ++ more, truncated)
    ∧ (length (take 5 [task] ++ more) ≤ 5)%nat.
Proof.
  split; [vm_compute; reflexivity|].
  destruct (combined_candidates workspace library (λ _, [task]) (λ _, [old_task; tasks]) "Ta" 5)
    as (more & truncated & E & L & _); [discriminate | discriminate|].
  exists more, truncated. exact (conj E L).
Defined.

Lemma inherited_docs_found_witness :
  doc (CombinedSymbols workspace library) "demo.Task" (Some "run") = Some "Runs the task."
  ∧ match doc (CombinedSymbols workspace library) "demo.Task" (Some "run") with
    | Some d => ∃ s, (s = "demo.Task" ∨ Some "run" ≠ None ∧ above (class_supers workspace library) "demo.Task" s)
                  ∧ either_doc workspace library s (Some "run") = Some d
    | None => either_doc workspace library "demo.Task" (Some "run") = None
        ∧ (Some "run" ≠ None → ∀ s, above (class_supers workspace library) "demo.Task" s →
           either_doc workspace library s (Some "run") = None)
    end.
Proof.
  split; [vm_compute; reflexivity|].
  apply (inherited_docs_found workspace library "demo.Task" (Some "run") {["java.lang.Runnable"]}).
  - intros x s [= <-] Hs. apply elem_of_cons in Hs as [->|Hs]; [set_solver | by apply elem_of_nil in Hs].
  - intros s t ->%elem_of_singleton Ht. by apply elem_of_nil in Ht.
  - vm_compute. lia.
Defined.
End Sample.

End Symbols.
