(* ===== verification/JavacOutput.v ===== *)
(** * Reading the compiler's output ([crates/server/src/javac.rs])

    [javac]'s messages as diagnostics: headers, echoed source lines and
    carets, detail lines; grouping by file; and which files and modules a
    check is about. *)
From Stdlib Require Import Ascii.
From S2P Require Import Prelude RustStd Paths Lsp.

Module JavacOutput.

Record RawDiagnostic := mkRaw {
  path : string; line : Z; severity : Severity; message : string;
  column : option Z; end_character : option Z }.

(** ** Lines *)

(** [s[..n]] and [s[n + p.len()..]] for the first occurrence of [p]. *)
Definition split_str (p s : string) : option (string * string) :=
  n ← str_find p s; Some (str_take n s, str_drop (n + String.length p) s).

Definition error_marker : string := ": error: ".
Definition warning_marker : string := ": warning: ".

Definition parse_header (l : string) : option (string * Z * Severity * string) :=
  '(before, message, severity) ←
    match split_str error_marker l with
    | Some (before, message) => Some (before, message, ERROR)
    | None =>
        match split_str warning_marker l with
        | Some (before, message) => Some (before, message, WARNING)
        | None => None
        end
    end;
  '(path, number) ← rsplit_once ":" before;
  line_no ← parse_uint 32 number;
  if bool_decide (path = "") then None else Some (path, line_no, severity, message).

Definition is_caret_line (l : string) : bool :=
  let trimmed := trim l in
  negb (bool_decide (trimmed = "")) && forallb (λ c, bool_decide (c = "^")) (chars trimmed).
Fixpoint count_while (p : string → bool) (cs : list string) : nat :=
  match cs with c :: cs' => if p c then S (count_while p cs') else O | [] => O end.
Definition caret_column (l : string) : Z :=
  as_u32 (Z.of_nat (count_while (λ c, bool_decide (c ∈ white_space)) (chars l))).
(** A character of four bytes is two UTF-16 units. *)
Definition utf16_len (l : string) : Z :=
  as_u32 (foldr (λ c n, (if (String.length c =? 4)%nat then 2 else 1) + n) 0 (chars l)).

Definition is_note_line (l : string) : bool := starts_with "Note:" (trim_start l).
Definition is_summary_line (l : string) : bool :=
  match split_once " " (trim l) with
  | Some (count, rest) =>
      bool_decide (is_Some (parse_uint 64 count))
      && bool_decide (rest ∈ ["error"; "errors"; "warning"; "warnings"])
  | None => false
  end.
Definition is_maxerrs_notice (l : string) : bool := contains_str "Xmaxerrs" l.

(** ** [parse_stderr] *)

(** The echoed source line and caret after a header: column, end, and the
    lines left. *)
Definition take_echo (lines : list string) : option Z * option Z * list string :=
  match lines with
  | l :: rest =>
      if is_caret_line l then (Some (caret_column l), None, rest)
      else match rest with
           | l' :: rest' =>
               if is_caret_line l' && bool_decide (parse_header l = None)
               then (Some (caret_column l'), Some (utf16_len l), rest')
               else (None, None, lines)
           | [] => (None, None, lines)
           end
  | [] => (None, None, lines)
  end.

Definition ends_details (l : string) : bool :=
  bool_decide (trim l = "") || bool_decide (is_Some (parse_header l))
  || is_note_line l || is_summary_line l || is_maxerrs_notice l.
Fixpoint take_details (message : string) (lines : list string) : string * list string :=
  match lines with
  | l :: rest =>
      if ends_details l then (message, lines)
      else take_details (message +:+ newline +:+ trim_end l) rest
  | [] => (message, [])
  end.

(** Every round uses up a line. *)
Fixpoint parse_lines (fuel : nat) (lines : list string) : list RawDiagnostic :=
  match fuel, lines with
  | O, _ | _, [] => []
  | S f, l :: rest =>
      match parse_header l with
      | None => parse_lines f rest
      | Some (p, n, sev, msg) =>
          let '(col, end_, rest) := take_echo rest in
          let '(msg, rest) := take_details msg rest in
          mkRaw p n sev msg col end_ :: parse_lines f rest
      end
  end.
Definition parse_stderr (stderr : string) : list RawDiagnostic :=
  let lines := str_lines stderr in parse_lines (length lines) lines.

Definition count_severities (raw : list RawDiagnostic) : nat * nat :=
  (length (List.filter (λ d, bool_decide (severity d = ERROR)) raw),
   length (List.filter (λ d, bool_decide (severity d = WARNING)) raw)).

(** ** LSP diagnostics *)

Definition U32_MAX : Z := 2 ^ 32 - 1.
Definition diagnostic_of (d : RawDiagnostic) : Diagnostic :=
  let l := saturating_sub (line d) 1 in
  mkDiagnostic (mkRange (mkPosition l (default 0 (column d))) (mkPosition l (default U32_MAX (end_character d))))
    (Some (severity d)) None (Some "javac") (message d).
Definition push_diagnostic (m : gmap string (list Diagnostic)) (d : RawDiagnostic) : gmap string (list Diagnostic) :=
  <[path d := default [] (m !! path d) ++ [diagnostic_of d]]> m.
Definition group_diagnostics (raw : list RawDiagnostic) : gmap string (list Diagnostic) :=
  fold_left push_diagnostic raw ∅.

(** ** What the compiler prints

    The format, as [javac] documents it by example: a header, perhaps the
    source line and a caret line, perhaps only a caret, and details. *)

Inductive Echo := NoEcho | CaretOnly (caret : string) | SourceLine (source caret : string).
Record Message := mkMessage {
  m_path : string; m_line : Z; m_severity : Severity; m_text : string; m_echo : Echo; m_details : list string }.

Definition marker (s : Severity) : string := 
  match s with ERROR => error_marker | WARNING => warning_marker | _ => "" end.
Definition header_line (m : Message) : string :=
  (m_path m +:+ ":" +:+ pretty (m_line m)) +:+ marker (m_severity m) +:+ m_text m.
Definition echo_lines (e : Echo) : list string :=
  match e with NoEcho => [] | CaretOnly c => [c] | SourceLine s c => [s; c] end.
Definition message_lines (m : Message) : list string :=
  header_line m :: echo_lines (m_echo m) ++ m_details m.

Definition raw_of (m : Message) : RawDiagnostic :=
  mkRaw (m_path m) (m_line m) (m_severity m)
    (foldl (λ s l, s +:+ newline +:+ trim_end l) (m_text m) (m_details m))
    (match m_echo m with NoEcho => None | CaretOnly c | SourceLine _ c => Some (caret_column c) end)
    (match m_echo m with SourceLine s _ => Some (utf16_len s) | _ => None end).

(** What keeps the format unambiguous. *)
Definition header_ok (m : Message) : Prop :=
  m_path m ≠ "" ∧ is_u 32 (m_line m)
  ∧ match m_severity m with
    | ERROR => contains_str error_marker (m_path m +:+ ":" +:+ pretty (m_line m)) = false
    | WARNING => contains_str warning_marker (m_path m +:+ ":" +:+ pretty (m_line m)) = false
        ∧ contains_str error_marker (header_line m) = false
    | _ => False
    end.
Definition echo_ok (m : Message) : Prop :=
  match m_echo m with
  | NoEcho => Forall (λ l, is_caret_line l = false) (m_details m)
  | CaretOnly c => is_caret_line c = true
  | SourceLine s c => is_caret_line c = true ∧ is_caret_line s = false ∧ parse_header s = None
  end.
Definition message_ok (m : Message) : Prop :=
  header_ok m ∧ is_caret_line (header_line m) = false ∧ echo_ok m
  ∧ Forall (λ l, ends_details l = false) (m_details m).
(** What may follow the messages: notes and the summary. *)
Definition trailer_ok (l : string) : Prop :=
  ends_details l = true ∧ parse_header l = None ∧ is_caret_line l = false.

(** ** Finding a marker *)

Lemma strip_prefix_split p a r t : strip_prefix p (a +:+ r) = Some t →
  (∃ u, a = p +:+ u) ∨ (∃ u, u ≠ "" ∧ p = a +:+ u).
Proof.
  revert a. induction p as [|x p IH]; intros a; simpl; [left; by exists a|].
  destruct a as [|y a]; [right; exists (String x p); by split|]. simpl.
  destruct (Ascii.eqb_spec x y) as [->|]; [|done]. intros E.
  destruct (IH a E) as [[u ->]|(u & Hu & ->)]; [left; by exists u | right; exists u; by split].
Qed.

Lemma contains_str_cons p c s : contains_str p (String c s) = false → starts_with p (String c s) = false ∧ contains_str p s = false.
Proof.
  unfold contains_str. rewrite !bool_decide_eq_false. cbn [str_find].
  destruct (starts_with p (String c s)); [intros H; exfalso; apply H; by eexists|].
  intros H. split; [done|]. intros [n E]. apply H. rewrite E. by eexists.
Qed.

(** The first occurrence is the one meant, when what precedes it holds none
    and ends with a character the marker does not have. *)
Lemma str_find_first p a d b : p ≠ "" → contains_str p (a +:+ String d "") = false → contains_char d p = false →
  str_find p (a +:+ String d "" +:+ p +:+ b) = Some (S (String.length a)).
Proof.
  intros Hp Hc Hd. induction a as [|x a IH].
  - cbn [String.append str_find String.length].
    assert (starts_with p (String d (p +:+ b)) = false) as ->.
    { apply bool_decide_eq_false. intros [t E]. change (String d (p +:+ b)) with (String d "" +:+ (p +:+ b)) in E.
      apply strip_prefix_split in E as [[u E]|(u & Hu & ->)].
      - destruct p as [|y p]; [done|]. injection E as <- E. simpl in Hd. by rewrite Ascii.eqb_refl in Hd.
      - simpl in Hd. by rewrite Ascii.eqb_refl in Hd. }
    assert (str_find p (p +:+ b) = Some 0%nat) as ->; [|done].
    assert (starts_with p (p +:+ b) = true) as Hs by (apply starts_with_spec; by exists b).
    destruct (p +:+ b); cbn [str_find]; by rewrite Hs.
  - change (String x a +:+ String d "" +:+ p +:+ b) with (String x (a +:+ String d "" +:+ p +:+ b)).
    change (String x a +:+ String d "") with (String x (a +:+ String d "")) in Hc.
    apply contains_str_cons in Hc as [Hs Hc]. cbn [str_find String.length].
    assert (starts_with p (String x (a +:+ String d "" +:+ p +:+ b)) = false) as ->.
    { apply bool_decide_eq_false. intros [t E].
      assert (E' : String x (a +:+ String d "" +:+ p +:+ b) = String x (a +:+ String d "") +:+ (p +:+ b))
        by (apply (f_equal (String x)); symmetry; apply (str_app_assoc a (String d "") (p +:+ b))).
      rewrite E' in E. apply strip_prefix_split in E as [[u E]|(u & Hu & E)].
      - apply not_true_iff_false in Hs. apply Hs, starts_with_spec. by exists u.
      - rewrite E in Hd. change (String x (a +:+ String d "") +:+ u) with (String x ((a +:+ String d "") +:+ u)) in Hd.
        simpl in Hd. rewrite !contains_char_app in Hd. simpl in Hd. rewrite Ascii.eqb_refl in Hd.
        by rewrite !orb_true_r in Hd. }
    by rewrite (IH Hc).
Qed.

Lemma str_take_app a b : str_take (String.length a) (a +:+ b) = a.
Proof. induction a as [|x a IH]; simpl; [by destruct b|]. by rewrite IH. Qed.
Lemma str_drop_past a b : str_drop (String.length a) (a +:+ b) = b.
Proof. by induction a. Qed.

Lemma split_str_first p a d b : p ≠ "" → contains_str p (a +:+ String d "") = false → contains_char d p = false →
  split_str p ((a +:+ String d "") +:+ p +:+ b) = Some (a +:+ String d "", b).
Proof.
  intros Hp Hc Hd. set (w := a +:+ String d "").
  assert (Ef : str_find p (w +:+ p +:+ b) = Some (String.length w)).
  { subst w. rewrite str_app_assoc, str_find_first by done. rewrite str_length_app. f_equal. simpl. lia. }
  unfold split_str. rewrite Ef. cbn [mbind option_bind]. f_equal. f_equal; [apply str_take_app|].
  rewrite <-str_length_app, <-str_app_assoc. apply str_drop_past.
Qed.

Lemma split_str_none p s : contains_str p s = false → split_str p s = None.
Proof.
  unfold contains_str, split_str. rewrite bool_decide_eq_false. destruct (str_find p s); [|done].
  intros H. exfalso. apply H. by eexists.
Qed.

(** ** Headers *)

Lemma pretty_ends_digit n : 0 ≤ n → ∃ s d, pretty n = s +:+ String d "" ∧ is_ascii_digit (byte_of_ascii d) = true.
Proof.
  intros Hn. destruct (pretty_digits n Hn) as [Hd Hne]. revert Hd Hne. generalize (pretty n). intros s.
  induction s as [|a s IH]; [done|]. intros Hd _. inversion Hd; subst.
  destruct s as [|b s]; [by exists "", a|].
  destruct IH as (s' & d & E & Hd'); [done | done|]. exists (String a s'), d. by rewrite E.
Qed.

Lemma digit_not_in_marker d s : is_ascii_digit (byte_of_ascii d) = true → contains_char d (marker s) = false.
Proof. destruct d as [[] [] [] [] [] [] [] []], s; vm_compute; congruence. Qed.

Lemma digit_not_colon n : 0 ≤ n → contains_char ":" (pretty n) = false.
Proof.
  intros Hn. destruct (pretty_digits n Hn) as [Hd _]. revert Hd. generalize (pretty n).
  induction s as [|a s IH]; [done|]. intros Hd. inversion Hd; subst. simpl. rewrite IH by done.
  by destruct a as [[] [] [] [] [] [] [] []].
Qed.

Lemma parse_header_line m : header_ok m →
  parse_header (header_line m) = Some (m_path m, m_line m, m_severity m, m_text m).
Proof.
  intros (Hp & Hl & Hm). assert (Hn : 0 ≤ m_line m) by apply Hl.
  destruct (pretty_ends_digit _ Hn) as (s & d & Es & Hd).
  assert (Ea : m_path m +:+ ":" +:+ pretty (m_line m) = (m_path m +:+ ":" +:+ s) +:+ String d "").
  { by rewrite Es, !str_app_assoc. }
  pose proof (digit_not_in_marker d (m_severity m) Hd) as Hnd.
  assert (R : rsplit_once ":" (m_path m +:+ ":" +:+ pretty (m_line m)) = Some (m_path m, pretty (m_line m))).
  { change (m_path m +:+ ":" +:+ pretty (m_line m)) with (m_path m +:+ String ":" (pretty (m_line m))).
    apply rsplit_once_app. by apply digit_not_colon. }
  unfold parse_header, header_line. destruct (m_severity m) eqn:Esv; cbn [marker] in *.
  - rewrite Ea in Hm |- *. rewrite split_str_first by done. cbn [mbind option_bind].
    rewrite <-Ea, R. cbn [mbind option_bind]. rewrite parse_uint_pretty by apply Hl.
    cbn [mbind option_bind]. by rewrite bool_decide_eq_false_2.
  - destruct Hm as [Hw He]. unfold header_line in He. rewrite Esv in He. cbn [marker] in He.
    rewrite (split_str_none _ _ He).
    rewrite Ea in Hw |- *. rewrite split_str_first by done. cbn [mbind option_bind].
    rewrite <-Ea, R. cbn [mbind option_bind]. rewrite parse_uint_pretty by apply Hl.
    cbn [mbind option_bind]. by rewrite bool_decide_eq_false_2.
  - done.
  - done.
Qed.

(** ** Blocks *)

(** Lines that can follow a message: another message, or the trailer. *)
Definition follow_ok (rest : list string) : Prop :=
  match rest with
  | [] => True
  | l :: rest' =>
      ends_details l = true ∧ is_caret_line l = false
      ∧ (parse_header l ≠ None ∨ match rest' with l' :: _ => is_caret_line l' = false | [] => True end)
  end.

Lemma take_details_app ds rest : ∀ msg, Forall (λ l, ends_details l = false) ds → follow_ok rest →
  take_details msg (ds ++ rest) = (foldl (λ s l, s +:+ newline +:+ trim_end l) msg ds, rest).
Proof.
  induction ds as [|l ds IH]; intros msg Hd Hr; cbn [app].
  - destruct rest as [|l rest]; [done|]. destruct Hr as [He _]. cbn [take_details]. by rewrite He.
  - inversion Hd as [|? ? Hl Hd']; subst. cbn [take_details foldl]. rewrite Hl. by apply IH.
Qed.

Lemma take_echo_none l rest : is_caret_line l = false →
  match rest with l' :: _ => is_caret_line l' = false ∨ parse_header l ≠ None | [] => True end →
  take_echo (l :: rest) = (None, None, l :: rest).
Proof.
  intros Hl Hr. cbn [take_echo]. rewrite Hl. destruct rest as [|l' rest]; [done|].
  destruct Hr as [->|Hh]; [done|]. by rewrite (bool_decide_eq_false_2 _ Hh), andb_false_r.
Qed.

Lemma take_echo_app m rest : echo_ok m → Forall (λ l, ends_details l = false) (m_details m) → follow_ok rest →
  take_echo (echo_lines (m_echo m) ++ m_details m ++ rest)
  = (column (raw_of m), end_character (raw_of m), m_details m ++ rest).
Proof.
  intros He Hd Hr. unfold echo_ok in He. unfold raw_of. cbn [column end_character].
  destruct (m_echo m) as [|c|s c]; cbn [echo_lines app].
  - destruct (m_details m) as [|l ds]; cbn [app].
    + destruct rest as [|l rest]; [done|]. destruct Hr as (_ & Hc & Hh). apply take_echo_none; [done|].
      destruct rest; [done|]. destruct Hh; [by right | by left].
    + inversion He as [|? ? Hl He']; subst. apply take_echo_none; [done|].
      destruct ds as [|l' ds]; cbn [app].
      * destruct rest as [|l' rest]; [done|]. left. by destruct Hr as (_ & ? & _).
      * inversion He'; subst. by left.
  - cbn [take_echo]. by rewrite He.
  - destruct He as (Hc & Hs & Hh). cbn [take_echo]. rewrite Hs, Hc, Hh. done.
Qed.

Lemma header_line_ends m : header_ok m → ends_details (header_line m) = true.
Proof.
  intros H. unfold ends_details. rewrite (parse_header_line m H).
  rewrite (bool_decide_eq_true_2 (is_Some _)) by by eexists. by rewrite orb_true_r.
Qed.

Lemma follow_messages ms trailer : Forall message_ok ms → Forall trailer_ok trailer →
  follow_ok (concat (message_lines <$> ms) ++ trailer).
Proof.
  intros Hm Ht. destruct ms as [|m ms]; cbn [fmap list_fmap concat app].
  - destruct Ht as [|l ls (H1 & H2 & H3) Hls]; [done|]. split_and!; [done|done|]. right.
    destruct Hls as [|l' ls' (_ & _ & ?) _]; done.
  - inversion Hm as [|? ? (H1 & H2 & _) _]; subst. cbn [message_lines app].
    split_and!; [by apply header_line_ends | done |]. left. by rewrite parse_header_line.
Qed.

Lemma parse_lines_trailer fuel trailer : Forall trailer_ok trailer → parse_lines fuel trailer = [].
Proof.
  intros Ht. revert fuel. induction Ht as [|l ls (_ & H & _) _ IH]; intros [|f]; cbn [parse_lines]; try done.
  by rewrite H.
Qed.

Lemma parse_lines_messages ms trailer : ∀ fuel, Forall message_ok ms → Forall trailer_ok trailer →
  (length (concat (message_lines <$> ms)) ≤ fuel)%nat →
  parse_lines fuel (concat (message_lines <$> ms) ++ trailer) = raw_of <$> ms.
Proof.
  induction ms as [|m ms IH]; intros fuel Hm Ht Hf; cbn [fmap list_fmap concat app].
  { by apply parse_lines_trailer. }
  inversion Hm as [|? ? (H1 & H2 & H3 & H4) Hms]; subst.
  cbn [fmap list_fmap concat] in Hf. rewrite length_app in Hf. cbn [message_lines length app] in *.
  destruct fuel as [|f]; [lia|]. cbn [parse_lines]. rewrite parse_header_line by done.
  rewrite <-!app_assoc. rewrite take_echo_app by (done || by apply follow_messages).
  rewrite take_details_app by (done || by apply follow_messages).
  rewrite IH by (done || lia). done.
Qed.

(** ** Text *)

Definition line_ok (l : string) : Prop :=
  contains_char (ascii_of_N 10) l = false ∧ strip_suffix (String (ascii_of_N 13) EmptyString) l = None.
Definition text_of (lines : list string) : string := str_concat ((λ l, l +:+ newline) <$> lines).

Lemma split_text lines : Forall line_ok lines → split_char (ascii_of_N 10) (text_of lines) = lines ++ [""].
Proof.
  induction 1 as [|l ls [Hl _] _ IH]; [done|].
  change (text_of (l :: ls)) with ((l +:+ newline) +:+ text_of ls). rewrite str_app_assoc.
  change (newline +:+ text_of ls) with (String (ascii_of_N 10) (text_of ls)).
  by rewrite split_char_sep, split_char_none, IH.
Qed.

Lemma str_lines_text lines : Forall line_ok lines → str_lines (text_of lines) = lines.
Proof.
  intros Hl. unfold str_lines. rewrite split_text, last_snoc, removelast_last by done.
  induction Hl as [|l ls [_ H] _ IH]; [done|]. rewrite fmap_cons, IH. by rewrite H.
Qed.

Lemma group_lookup raw p : ∀ m,
  fold_left push_diagnostic raw m !! p =
  match diagnostic_of <$> List.filter (λ d, bool_decide (path d = p)) raw with
  | [] => m !! p
  | l => Some (default [] (m !! p) ++ l)
  end.
Proof.
  induction raw as [|d raw IH]; intros m; cbn [fold_left List.filter]; [done|].
  rewrite IH. unfold push_diagnostic. case_bool_decide as Hd.
  - subst p. rewrite lookup_insert_eq. cbn [fmap list_fmap].
    destruct (diagnostic_of <$> List.filter _ raw); [done|]. simpl. by rewrite <-app_assoc.
  - by rewrite lookup_insert_ne.
Qed.

(** C19: The compiler's messages are read back exactly, where their text is
    unambiguous.  Messages in [javac]'s format, with or without echoed source
    and caret, with any number of detail lines, and followed by notes and a
    summary, give one diagnostic each, with its file, line, severity, whole
    text and column; and grouping by file keeps every file's diagnostics, all
    of them and in order.  Unambiguous ([message_ok], [trailer_ok]) means: the
    path is not empty and, with the line number, holds no marker of the
    message's severity; a warning holds no [: error: ] anywhere in its header
    (one that does is dropped, [marked_warning_dropped]); the echoed source
    line does not read as a header or a caret line; no detail line reads as a
    header, a note, a summary or the notice of the error limit, and without an
    echo none reads as a caret line. *)
Theorem stderr_roundtrip ms trailer :
  Forall message_ok ms → Forall trailer_ok trailer →
  Forall line_ok (concat (message_lines <$> ms) ++ trailer) →
  parse_stderr (text_of (concat (message_lines <$> ms) ++ trailer)) = raw_of <$> ms
  ∧ ∀ p, default [] (group_diagnostics (raw_of <$> ms) !! p)
         = diagnostic_of <$> List.filter (λ d, bool_decide (path d = p)) (raw_of <$> ms).
Proof.
  intros Hm Ht Hl. split.
  - unfold parse_stderr. rewrite str_lines_text by done.
    apply parse_lines_messages; [done | done |]. rewrite length_app. lia.
  - intros p. unfold group_diagnostics. rewrite group_lookup, lookup_empty. by destruct (diagnostic_of <$> _).
Qed.

(** A warning whose text holds an error's marker is dropped: the header is
    split at the first [: error: ], and what precedes it does not end in a
    line number. *)
Example marked_warning_dropped :
  parse_stderr (text_of ["A.java:3: warning: [processing] log: error: none"]) = [].
Proof. by vm_compute. Qed.

Definition sample_messages : list Message :=
  [mkMessage "/w/Foo.java" 8 ERROR "incompatible types: String cannot be converted to int"
     (SourceLine "        int x = s;" "                ^") [];
   mkMessage "C:/w/Bar.java" 9 ERROR "cannot find symbol" (SourceLine "    foo();" "    ^")
     ["  symbol:   method foo()"; "  location: class Bar"];
   mkMessage "/w/Foo.java" 12 WARNING "[removal] stop() is deprecated" NoEcho []].

Lemma stderr_roundtrip_witness :
  let text := text_of (concat (message_lines <$> sample_messages) ++ ["Note: Some input files use unchecked operations."; "2 errors"; "1 warning"]) in
  parse_stderr text = raw_of <$> sample_messages
  ∧ length (default [] (group_diagnostics (parse_stderr text) !! "/w/Foo.java")) = 2%nat.
Proof.
  cbn zeta. split; [|vm_compute; reflexivity].
  apply (stderr_roundtrip sample_messages
    ["Note: Some input files use unchecked operations."; "2 errors"; "1 warning"]).
  - unfold message_ok, header_ok, echo_ok, is_u.
    repeat constructor; try discriminate; try (vm_compute; congruence); vm_compute; congruence.
  - repeat constructor; vm_compute; congruence.
  - unfold line_ok. repeat constructor; vm_compute; congruence.
Defined.

End JavacOutput.
