(* ===== verification/JavacRun.v ===== *)
(** * The compiler process ([crates/server/src/javac.rs])

    The command line of a check, its scratch directory, and the run itself:
    the child process, the two threads that drain its pipes, the slot through
    which a shutdown reaches the child, and the threads left behind by runs
    that were cut short, as steps that interleave. *)
From stdpp Require Import fin_sets.
From S2P Require Import Prelude RustStd Paths LaunchWalk Launch.

Module JavacRun.

Definition MAX_SOURCE_FILES : Z := 2000.
Definition OUTPUT_CAP : Z := 2 * 1024 * 1024.
Definition DEFAULT_TIMEOUT_SECS : Z := 120.
Definition MIN_TIMEOUT_SECS : Z := 10.
Definition MAX_TIMEOUT_SECS : Z := 600.
Definition MAX_LEAKED_READERS : nat := 8.

Definition clamp_timeout_secs (raw : option Z) : Z :=
  Z.min MAX_TIMEOUT_SECS (Z.max MIN_TIMEOUT_SECS (default DEFAULT_TIMEOUT_SECS raw)).

Inductive SourceLevel :=
| LevelNone
| JdkDefault (n : Z)
| Release (release : Z) (preview : bool).

Record RunConfig := mkConfig {
  javac_path : string; source_files : list string; classpath_entries : list string;
  sourcepath_entries : list string; timeout : Z; source_level : SourceLevel }.

Inductive RunOutcome :=
| Completed (stderr : string)
| TimedOut
| Cancelled
| SpawnError (message : string).

(** What starting the compiler gives: what its stderr pipe yields, read by
    read, or an error. *)
Class JavacOs := {
  #[global] javac_launch :: LaunchOs;
  javac_spawn : string → list string → Result string (list (list Z));
}.

(** ** Finding the files of a module *)

Section Files.
Context `{Fs}.

Definition collect_source_files (roots : list string) : list string :=
  LaunchWalk.collect_source_files MAX_SOURCE_FILES roots.
Definition discover_workspace_source_roots (workspace_root : string) : list string :=
  discover_source_roots workspace_root.
Definition conventional_source_roots (module_root : string) : list string :=
  List.filter fs_is_dir (path_join module_root <$> CONVENTIONAL_SOURCE_SUBDIRS).

(** The walk upwards; every parent is shorter. *)
Fixpoint module_above (fuel : nat) (dir : option string) (workspace_root : string) : option string :=
  match fuel, dir with
  | O, _ | _, None => None
  | S f, Some d =>
      if existsb (λ m, fs_is_file (path_join d m)) MODULE_MARKERS then Some d
      else if path_eq d workspace_root then None
      else module_above f (path_parent d) workspace_root
  end.
Definition nearest_module_root (file workspace_root : string) : option string :=
  module_above (length (path_components file)) (path_parent file) workspace_root.

(** [canonicalize] is a parameter. *)
Definition canonical_within_workspace (canonicalize : string → option string)
    (file workspace_root_canonical : string) : option string :=
  canonical ← canonicalize file;
  if path_starts_with canonical workspace_root_canonical then Some canonical else None.

End Files.

(** ** The command line *)

Definition source_level_args (level : SourceLevel) : list string :=
  match level with
  | LevelNone => []
  | JdkDefault n => ["-source"; pretty n; "-target"; pretty n; "--enable-preview"]
  | Release release preview =>
      ["--release"; pretty release] ++ (if preview then ["--enable-preview"] else [])
  end.

Section Run.
Context `{JavacOs}.

Definition join_refused (what flag : string) (entries : list string) : string :=
  match List.find (λ p, match os_join_paths [p] with Ok _ => false | Err _ => true end) entries with
  | Some p => what +:+ " entry contains the platform path-list separator and cannot be passed to javac "
      +:+ flag +:+ ": " +:+ p
  | None => what +:+ " entries cannot be joined for javac " +:+ flag
  end.
(** A path-list flag, left out for no entries. *)
Definition path_list_args (what flag : string) (entries : list string) : Result string (list string) :=
  if bool_decide (entries = []) then Ok []
  else match os_join_paths entries with
       | Ok joined => Ok [flag; joined]
       | Err _ => Err (join_refused what flag entries)
       end.

Definition run_argv (config : RunConfig) (scratch argfile : string) : Result string (list string) :=
  cp ← path_list_args "classpath" "-cp" (classpath_entries config);
  sp ← path_list_args "source-root" "-sourcepath" (sourcepath_entries config);
  Ok (["-proc:none"; "-Xmaxerrs"; "200"; "-d"; scratch] ++ source_level_args (source_level config)
      ++ cp ++ sp ++ ["@" +:+ argfile]).

(** The part of [run_in_scratch] before the child exists. *)
Definition spawn_in_scratch (config : RunConfig) (scratch : string) : Result string (list (list Z)) :=
  let argfile := path_join scratch "sources.argfile" in
  _ ← map_err (λ e, "failed to write argfile: " +:+ e) (write_argfile argfile (source_files config));
  argv ← run_argv config scratch argfile;
  map_err (λ e, "failed to spawn javac: " +:+ e) (javac_spawn (javac_path config) argv).

Definition create_fresh_scratch_dir (dirs : gset string) : option string * gset string :=
  scratch_attempts "jvl-javac-" 8 0 dirs.

(** What a reader thread keeps. *)
Definition drain_capped (reads : list (list Z)) : list Z :=
  fold_left (λ buf chunk,
      if Z.of_nat (length buf) <? OUTPUT_CAP
      then buf ++ take (Z.to_nat (Z.min (OUTPUT_CAP - Z.of_nat (length buf)) (Z.of_nat (length chunk)))) chunk
      else buf) reads [].

(** ** The state of the runs

    A process is named by a number, its reader threads by the process and the
    pipe. *)
Inductive Pipe := STDOUT | STDERR.
#[global] Instance pipe_eq_dec : EqDecision Pipe.
Proof. solve_decision. Defined.
#[global] Instance pipe_countable : Countable Pipe.
Proof.
  apply (inj_countable' (λ p, match p with STDOUT => true | STDERR => false end)
           (λ b : bool, if b then STDOUT else STDERR)). by intros [].
Defined.
#[local] Notation Reader := (nat * Pipe)%type.

Record Proc := mkProc { p_exited : bool; p_reaped : bool; p_stderr : list (list Z) }.

(** Where a run is: the child spawned but not yet in the slot, before a poll,
    after a poll that found the time over, or joining its readers. *)
Inductive Stage := Spawned | Polling (start : Z) | Overdue | Joining.
Record Run := mkRun { r_pid : nat; r_timeout : Z; r_scratch : string; r_stage : Stage }.

Record World := mkWorld {
  now : Z; procs : list Proc; blocked : gset Reader; slot : option nat;
  leaked : list Reader; running : option Run; dirs : gset string; outcomes : list RunOutcome }.

Definition set_stage (r : Run) (st : Stage) (w : World) : World :=
  mkWorld (now w) (procs w) (blocked w) (slot w) (leaked w)
    (Some (mkRun (r_pid r) (r_timeout r) (r_scratch r) st)) (dirs w) (outcomes w).
Definition set_slot (o : option nat) (w : World) : World :=
  mkWorld (now w) (procs w) (blocked w) o (leaked w) (running w) (dirs w) (outcomes w).
Definition set_procs (ps : list Proc) (w : World) : World :=
  mkWorld (now w) ps (blocked w) (slot w) (leaked w) (running w) (dirs w) (outcomes w).

(** [kill] and [wait]. *)
Definition kill_and_reap (pid : nat) (w : World) : World :=
  set_procs (alter (λ p, mkProc true true (p_stderr p)) pid (procs w)) w.

(** [LeakedReaders]: a thread's flag is up once it is no longer blocked. *)
Definition live (w : World) : list Reader := filter (λ r, r ∈ blocked w) (leaked w).
Definition sweep (w : World) : World :=
  mkWorld (now w) (procs w) (blocked w) (slot w) (live w) (running w) (dirs w) (outcomes w).
Definition register (rs : list Reader) (w : World) : World :=
  mkWorld (now w) (procs w) (blocked w) (slot w) (leaked w ++ rs) (running w) (dirs w) (outcomes w).
Definition readers_of (pid : nat) : list Reader := [(pid, STDOUT); (pid, STDERR)].

(** [run] returns: the scratch directory goes, and [javac_running] with it. *)
Definition end_run (r : Run) (o : RunOutcome) (w : World) : World :=
  mkWorld (now w) (procs w) (blocked w) (slot w) (leaked w) None
    (remove_dir_all (r_scratch r) (dirs w)) (outcomes w ++ [o]).
Definition refuse (message : string) (ds : gset string) (w : World) : World :=
  mkWorld (now w) (procs w) (blocked w) (slot w) (leaked w) None ds (outcomes w ++ [SpawnError message]).

Definition leak_message (n : nat) : string :=
  "javac runs are leaking resources (" +:+ pretty (Z.of_nat n)
  +:+ " output-reader threads still blocked by earlier timed-out runs) — check that "
  +:+ "java-vsix-lite.jdk.home / $JAVA_HOME points at a real JDK; restart the server to reset".

Variable cap : nat.

(** [run], up to the spawned child; a second one while a run is on is turned
    away by [javac_running]. *)
Definition start (config : RunConfig) (w : World) : World :=
  match running w with
  | Some _ => w
  | None =>
      let w := sweep w in
      if (cap <=? length (leaked w))%nat then refuse (leak_message (length (leaked w))) (dirs w) w
      else match create_fresh_scratch_dir (dirs w) with
           | (None, ds) => refuse "failed to create scratch directory" ds w
           | (Some scratch, ds) =>
               match spawn_in_scratch config scratch with
               | Err e => refuse e (remove_dir_all scratch ds) w
               | Ok reads =>
                   let pid := length (procs w) in
                   mkWorld (now w) (procs w ++ [mkProc false false reads])
                     (list_to_set (readers_of pid) ∪ blocked w) (slot w) (leaked w)
                     (Some (mkRun pid (timeout config) scratch Spawned)) ds (outcomes w)
               end
           end
  end.

(** [*slot = Some(child)] *)
Definition store_child (w : World) : World :=
  match running w with
  | Some r => match r_stage r with
              | Spawned => set_stage r (Polling (now w)) (set_slot (Some (r_pid r)) w)
              | _ => w
              end
  | None => w
  end.

Definition abandon (r : Run) (o : RunOutcome) (w : World) : World :=
  end_run r o (register (readers_of (r_pid r)) w).

(** One round of the poll loop up to the sleep; [fails]: [try_wait] does. *)
Definition poll (fails : bool) (w : World) : World :=
  match running w with
  | Some r =>
      match r_stage r with
      | Polling start =>
          match slot w with
          | None => abandon r Cancelled w
          | Some p =>
              match fails, procs w !! p with
              | true, _ => set_stage r Joining w
              | false, Some (mkProc true _ reads) =>
                  set_stage r Joining (set_procs (<[p := mkProc true true reads]> (procs w)) w)
              | false, _ => if r_timeout r <=? now w - start then set_stage r Overdue w else w
              end
          end
      | _ => w
      end
  | None => w
  end.
(** The timeout branch, which takes the lock anew. *)
Definition expire (w : World) : World :=
  match running w with
  | Some r =>
      match r_stage r with
      | Overdue =>
          let w' := match slot w with Some p => kill_and_reap p w | None => w end in
          abandon r TimedOut (set_slot None w')
      | _ => w
      end
  | None => w
  end.
(** Both readers are joined. *)
Definition join (w : World) : World :=
  match running w with
  | Some r =>
      match r_stage r with
      | Joining =>
          if forallb (λ t, bool_decide (t ∉ blocked w)) (readers_of (r_pid r))
          then end_run r (Completed (from_utf8_lossy
                 (drain_capped (match procs w !! r_pid r with Some p => p_stderr p | None => [] end)))) w
          else w
      | _ => w
      end
  | None => w
  end.
Definition kill_running_child (w : World) : World :=
  match slot w with Some p => set_slot None (kill_and_reap p w) | None => w end.

Inductive Event :=
| Start (config : RunConfig) | Store | Poll (fails : bool) | Expire | Join
| Shutdown
| Tick (ms : nat)
| Exit (pid : nat)             (** the process ends *)
| ReaderDone (reader : Reader)  (** its pipe is closed *).

Definition step (w : World) (e : Event) : World :=
  match e with
  | Start config => start config w
  | Store => store_child w
  | Poll fails => poll fails w
  | Expire => expire w
  | Join => join w
  | Shutdown => kill_running_child w
  | Tick ms => mkWorld (now w + Z.of_nat ms) (procs w) (blocked w) (slot w) (leaked w) (running w) (dirs w) (outcomes w)
  | Exit pid => set_procs (alter (λ p, mkProc true (p_reaped p) (p_stderr p)) pid (procs w)) w
  | ReaderDone r =>
      mkWorld (now w) (procs w) (blocked w ∖ {[r]}) (slot w) (leaked w) (running w) (dirs w) (outcomes w)
  end.
Definition new_world (ds : gset string) : World := mkWorld 0 [] ∅ None [] None ds [].
Definition run (ds : gset string) (es : list Event) : World := fold_left step es (new_world ds).

End Run.

(** ** Reader threads *)

Section Invariants.
Context `{JavacOs} (cap : nat).

Lemma drain_capped_spec reads : drain_capped reads = take (Z.to_nat OUTPUT_CAP) (concat reads).
Proof.
  unfold drain_capped. cut (∀ acc, (length acc ≤ Z.to_nat OUTPUT_CAP)%nat →
    fold_left (λ buf chunk,
      if Z.of_nat (length buf) <? OUTPUT_CAP
      then buf ++ take (Z.to_nat (Z.min (OUTPUT_CAP - Z.of_nat (length buf)) (Z.of_nat (length chunk)))) chunk
      else buf) reads acc = take (Z.to_nat OUTPUT_CAP) (acc ++ concat reads)); [intros E; apply E; cbn; lia|].
  assert (0 ≤ OUTPUT_CAP) by done.
  induction reads as [|c cs IH]; intros acc Ha; cbn [fold_left concat]; [by rewrite app_nil_r, take_ge|].
  assert (E : (if Z.of_nat (length acc) <? OUTPUT_CAP
      then acc ++ take (Z.to_nat (Z.min (OUTPUT_CAP - Z.of_nat (length acc)) (Z.of_nat (length c)))) c
      else acc) = acc ++ take (Z.to_nat OUTPUT_CAP - length acc) c).
  { destruct (Z.ltb_spec (Z.of_nat (length acc)) OUTPUT_CAP).
    - f_equal. destruct (decide (length c ≤ Z.to_nat OUTPUT_CAP - length acc)%nat).
      + by rewrite !take_ge by lia.
      + f_equal. lia.
    - replace (_ - _)%nat with O by lia. by rewrite take_0, app_nil_r. }
  rewrite E, IH by (rewrite length_app, length_take; lia). by apply take_fill.
Qed.

Record threads_ok (w : World) : Prop := {
  th_blocked : ∀ t, t ∈ blocked w → (t.1 < length (procs w))%nat
    ∧ (t ∈ leaked w ∨ ∃ r, running w = Some r ∧ t.1 = r_pid r);
  th_leaked : NoDup (leaked w) ∧ ∀ t, t ∈ leaked w → (t.1 < length (procs w))%nat;
  th_run : ∀ r, running w = Some r → (r_pid r < length (procs w))%nat
    ∧ (length (live w) < cap)%nat ∧ ∀ t, t ∈ leaked w → t.1 ≠ r_pid r;
  th_live : (length (live w) ≤ S cap)%nat }.

Lemma live_blocked w w' : leaked w' = leaked w → blocked w' = blocked w → live w' = live w.
Proof. intros E1 E2. unfold live. by rewrite E1, E2. Qed.

(** A step that leaves threads and processes as they are. *)
Lemma threads_same w w' : threads_ok w → length (procs w') = length (procs w) → blocked w' = blocked w →
  leaked w' = leaked w → r_pid <$> running w' = r_pid <$> running w → threads_ok w'.
Proof.
  intros [A B C D] Ep Eb El Er. pose proof (live_blocked w w' El Eb) as Elv.
  split; rewrite ?Elv, ?Eb, ?El, ?Ep; [|done| |done].
  - intros t Ht. destruct (A t Ht) as [Hl [?|(r & Hr & Et)]]; (split; [done|]); [by left|].
    right. rewrite Hr in Er. destruct (running w') as [r'|]; [|done]. injection Er as Er. exists r'. split; [done|congruence].
  - intros r' Hr'. rewrite Hr' in Er. destruct (running w) as [r|]; [|done]. injection Er as Er. rewrite Er. by apply C.
Qed.

Lemma live_sweep w : live (sweep w) = live w.
Proof.
  unfold live, sweep. cbn [leaked blocked]. unfold live. rewrite list_filter_filter.
  apply list_filter_iff. naive_solver.
Qed.

Lemma threads_sweep w : threads_ok w → threads_ok (sweep w).
Proof.
  intros [A B C D]. pose proof (live_sweep w) as El. split; rewrite ?El; cbn [sweep blocked leaked procs running]; try done.
  - intros t Ht. destruct (A t Ht) as [Hl [?|?]]; (split; [done|]); [left; apply list_elem_of_filter|right]; done.
  - split; [apply NoDup_filter, B|]. intros t [_ Ht]%list_elem_of_filter. by apply B.
  - intros r Hr. destruct (C r Hr) as (C1 & C2 & C3). split_and!; [done..|].
    intros t [_ Ht]%list_elem_of_filter. by apply C3.
Qed.

(** A run that ends normally leaves no thread behind. *)
Lemma threads_end r o w : threads_ok w → running w = Some r → Forall (λ t, t ∉ blocked w) (readers_of (r_pid r)) →
  threads_ok (end_run r o w).
Proof.
  intros [A B C D] Hr Hj. assert (El : live (end_run r o w) = live w) by by apply live_blocked.
  split; rewrite ?El; cbn [end_run blocked leaked procs running]; try done.
  intros [p s] Ht. destruct (A _ Ht) as [Hl [?|(r' & Hr' & Et)]]; (split; [done|]); [by left|]. exfalso.
  rewrite Hr in Hr'. injection Hr' as <-. cbn in Et. subst p. rewrite Forall_forall in Hj.
  apply (Hj (r_pid r, s)); [|done]. destruct s; unfold readers_of; set_solver.
Qed.

Lemma live_register rs w : live (register rs w) = live w ++ filter (λ r, r ∈ blocked w) rs.
Proof. unfold live, register. cbn [leaked blocked]. apply filter_app. Qed.

Lemma threads_abandon r o w : threads_ok w → running w = Some r → threads_ok (abandon r o w).
Proof.
  intros [A B C D] Hr. destruct (C r Hr) as (C1 & C2 & C3).
  assert (El : live (abandon r o w) = live (register (readers_of (r_pid r)) w)) by by apply live_blocked.
  split; rewrite ?El, ?live_register; cbn [abandon end_run register blocked leaked procs running]; try done.
  - intros [p s] Ht. destruct (A _ Ht) as [Hl [?|(r' & Hr' & Et)]]; (split; [done|]); left; [set_solver|].
    rewrite Hr in Hr'. injection Hr' as <-. cbn in Et. subst p. destruct s; unfold readers_of; set_solver.
  - split.
    + apply NoDup_app. split_and!; [apply B | | unfold readers_of; repeat constructor; set_solver].
      intros t Ht Hin. apply (C3 t Ht). unfold readers_of in Hin. set_solver.
    + intros t [Ht|Ht]%elem_of_app; [by apply B|]. unfold readers_of in Ht.
      assert (t.1 = r_pid r) as -> by set_solver. done.
  - rewrite length_app. pose proof (length_filter (λ t, t ∈ blocked w) (readers_of (r_pid r))).
    cbn [readers_of length] in *. lia.
Qed.

Lemma filter_ext_in {A} (P Q : A → Prop) `{∀ x, Decision (P x)} `{∀ x, Decision (Q x)} (l : list A) :
  (∀ x, x ∈ l → P x ↔ Q x) → filter P l = filter Q l.
Proof.
  induction l as [|x l IH]; intros E; [done|]. rewrite !filter_cons, IH by set_solver.
  specialize (E x). repeat case_decide; set_solver.
Qed.

Lemma size_list_to_set_le {A} `{Countable A} (l : list A) : (size (list_to_set l : gset A) ≤ length l)%nat.
Proof.
  induction l as [|x l IH]; [done|]. cbn [list_to_set length]. rewrite size_union_alt, size_singleton.
  assert (size ((list_to_set l : gset A) ∖ {[x]}) ≤ size (list_to_set l : gset A))%nat
    by (apply subseteq_size; set_solver). lia.
Qed.

Lemma length_live_sweep w : (length (leaked (sweep w)) = length (live w))%nat.
Proof. done. Qed.

Lemma threads_start config w : threads_ok w → threads_ok (start cap config w).
Proof.
  intros Hw. unfold start. destruct (running w) eqn:Er; [done|].
  pose proof (threads_sweep w Hw) as Hs. assert (Hsr : running (sweep w) = None) by done.
  assert (Hrefuse : ∀ m ds, threads_ok (refuse m ds (sweep w))).
  { intros m ds. apply (threads_same (sweep w)); try done. cbn. by rewrite Er. }
  cbn zeta. destruct (Nat.leb_spec cap (length (leaked (sweep w)))) as [|Hcap]; [done|].
  destruct (create_fresh_scratch_dir _) as [[scratch|] ds]; [|done].
  destruct (spawn_in_scratch config scratch) as [reads|]; [|done].
  set (w1 := sweep w) in *. clearbody w1. destruct Hs as [A [B1 B2] C D].
  set (pid := length (procs w1)).
  assert (Hnew : ∀ t, t ∈ leaked w1 → t ∉ readers_of pid).
  { intros t Ht Hin. apply B2 in Ht. unfold readers_of in Hin. assert (t.1 = pid) by set_solver. subst pid. lia. }
  match goal with |- threads_ok ?w2 => assert (El : live w2 = live w1) end.
  { unfold live. cbn [blocked leaked]. apply filter_ext_in. intros t Ht.
    specialize (Hnew t Ht). rewrite elem_of_union, elem_of_list_to_set. naive_solver. }
  split; rewrite ?El; cbn [blocked leaked procs running]; rewrite ?length_app; cbn [length].
  - intros t [Ht|Ht]%elem_of_union.
    + rewrite elem_of_list_to_set in Ht. assert (Et : t.1 = pid) by (unfold readers_of in Ht; set_solver).
      rewrite Et. subst pid. split; [lia|]. right. by eexists.
    + destruct (A t Ht) as [Hl [?|(r & Hr & _)]]; [|congruence]. split; [lia|by left].
  - split; [done|]. intros t Ht. apply B2 in Ht. lia.
  - intros r [= <-]. cbn [r_pid]. split_and!; [subst pid; lia | |].
    + pose proof (length_filter (λ t, t ∈ blocked w1) (leaked w1)). unfold live. lia.
    + intros t Ht Et. apply B2 in Ht. subst pid. lia.
  - done.
Qed.

Lemma threads_done t w : threads_ok w → threads_ok (step cap w (ReaderDone t)).
Proof.
  intros [A B C D]. cbn [step].
  match goal with |- threads_ok ?w2 => assert (El : (length (live w2) ≤ length (live w))%nat) end.
  { unfold live. cbn [blocked leaked]. clear. induction (leaked w) as [|x l IH]; [done|].
    rewrite !filter_cons. repeat case_decide; cbn [length]; set_solver by lia. }
  split; cbn [blocked leaked procs running]; try done; [| |lia].
  - intros u [Hu _]%elem_of_difference. by apply A.
  - intros r Hr. destruct (C r Hr) as (? & ? & ?). split_and!; [done|lia|done].
Qed.

Ltac same_threads H Er := apply H; cbn; rewrite ?Er, ?length_insert, ?length_alter; done.

Lemma threads_step w e : threads_ok w → threads_ok (step cap w e).
Proof.
  intros Hw. pose proof (threads_same w) as Hsame.
  destruct e as [config| |fails| | | |ms|pid|t]; [by apply threads_start| | | | | | | |by apply threads_done];
    cbn [step].
  - unfold store_child. destruct (running w) as [r|] eqn:Er; [|done]. destruct (r_stage r); try done.
    same_threads Hsame Er.
  - unfold poll. destruct (running w) as [r|] eqn:Er; [|done]. destruct (r_stage r); try done.
    destruct (slot w) as [p|]; [|by apply threads_abandon].
    destruct fails; [same_threads Hsame Er|].
    destruct (procs w !! p) as [[[] ? ?]|]; [same_threads Hsame Er|..];
      case_match; try done; same_threads Hsame Er.
  - unfold expire. destruct (running w) as [r|] eqn:Er; [|done]. destruct (r_stage r); try done.
    apply threads_abandon; [|by destruct (slot w)].
    destruct (slot w); same_threads Hsame Er.
  - unfold join. destruct (running w) as [r|] eqn:Er; [|done]. destruct (r_stage r); try done.
    destruct (forallb _ _) eqn:Ef; [|done]. apply threads_end; [done..|].
    rewrite Forall_forall. intros t Ht. rewrite forallb_forall in Ef.
    apply list_elem_of_In, Ef in Ht. by apply bool_decide_eq_true in Ht.
  - unfold kill_running_child. destruct (slot w); [|done]. apply Hsame; try done. cbn. by rewrite length_alter.
  - by apply Hsame.
  - apply Hsame; try done. cbn. by rewrite length_alter.
Qed.

Lemma threads_run ds es : (0 < cap)%nat → threads_ok (run cap ds es).
Proof.
  intros Hc. induction es as [|e es IH] using rev_ind.
  - split; cbn; [set_solver | split; [constructor|set_solver] | done | lia].
  - unfold run. rewrite fold_left_app. by apply threads_step.
Qed.

(** Every blocked thread is one of the live leaked ones or the run's own. *)
Lemma blocked_count w : threads_ok w → (size (blocked w) ≤ S cap)%nat.
Proof.
  intros [A B C D]. set (own := match running w with Some r => readers_of (r_pid r) | None => [] end).
  assert (Hs : blocked w ⊆ list_to_set (live w ++ own)).
  { intros [p s] Ht. rewrite elem_of_list_to_set, elem_of_app.
    destruct (A _ Ht) as [_ [Hl|(r & Hr & Et)]].
    - left. unfold live. by apply list_elem_of_filter.
    - right. subst own. rewrite Hr. cbn in Et. subst p. destruct s; unfold readers_of; set_solver. }
  apply subseteq_size in Hs. etrans; [exact Hs|]. etrans; [apply size_list_to_set_le|].
  rewrite length_app. subst own. destruct (running w) as [r|].
  - destruct (C r eq_refl) as (_ & ? & _). cbn [readers_of length]. lia.
  - cbn [length]. lia.
Qed.

(** ** Processes *)

Definition reaped (w : World) (p : nat) : Prop := ∀ proc, procs w !! p = Some proc → p_reaped proc = true.

Record procs_ok (w : World) : Prop := {
  pr_reaped : ∀ p, reaped w p ∨ ∃ r, running w = Some r ∧ r_pid r = p ∧ r_stage r ≠ Joining;
  pr_slot : ∀ r, running w = Some r →
    match r_stage r with
    | Polling _ | Overdue => slot w = Some (r_pid r) ∨ (slot w = None ∧ reaped w (r_pid r))
    | _ => True
    end }.

(** [try_wait] works. *)
Definition waits (e : Event) : bool := match e with Poll fails => negb fails | _ => true end.

Lemma reaped_insert w p q reads : reaped w q ∨ q = p →
  reaped (set_procs (<[p := mkProc true true reads]> (procs w)) w) q.
Proof.
  intros Hq proc. cbn. rewrite list_lookup_insert. case_decide as Hd; [naive_solver|].
  destruct Hq as [Hq| ->]; [apply Hq|]. intros Hl. exfalso. apply Hd. split; [done|]. by apply lookup_lt_Some in Hl.
Qed.
Lemma reaped_kill w p q : reaped w q ∨ q = p → reaped (kill_and_reap p w) q.
Proof.
  intros Hq proc. cbn. rewrite list_lookup_alter. case_decide as Hd.
  - destruct (procs w !! p); [|done]. by intros [= <-].
  - destruct Hq as [Hq| ->]; [apply Hq|done].
Qed.
Lemma reaped_exit w p q : reaped w q →
  reaped (set_procs (alter (λ x, mkProc true (p_reaped x) (p_stderr x)) p (procs w)) w) q.
Proof.
  intros Hq proc. cbn. rewrite list_lookup_alter. unfold reaped in Hq.
  case_decide as Hd; [subst q|apply Hq].
  destruct (procs w !! p) as [x|] eqn:E; [|done]. intros [= <-]. exact (Hq x eq_refl).
Qed.

(** The run is over and its process reaped. *)
Lemma procs_end r w w' : procs_ok w → running w = Some r → reaped w (r_pid r) →
  procs w' = procs w → running w' = None → procs_ok w'.
Proof.
  intros [A B] Hr Hp Ep Er. split; [|by rewrite Er].
  intros p. left. unfold reaped. rewrite Ep. destruct (A p) as [Hq|(r' & Hr' & <- & _)]; [exact Hq|].
  rewrite Hr in Hr'. injection Hr' as <-. exact Hp.
Qed.

Lemma procs_start config w : procs_ok w → procs_ok (start cap config w).
Proof.
  intros Hw. unfold start. destruct (running w) eqn:Er; [done|].
  assert (Hs : ∀ p, reaped (sweep w) p).
  { intros p. destruct (pr_reaped _ Hw p) as [Hp|(r & Hr & _)]; [exact Hp|congruence]. }
  assert (Hrefuse : ∀ m ds, procs_ok (refuse m ds (sweep w))) by (intros m ds; split; [intros p; left; exact (Hs p)|done]).
  cbn zeta. destruct (cap <=? _)%nat; [done|].
  destruct (create_fresh_scratch_dir _) as [[scratch|] ds]; [|done].
  destruct (spawn_in_scratch config scratch) as [reads|]; [|done]. split; [|by intros r [= <-]].
  intros p. destruct (decide (p = length (procs w))) as [->|Hp]; [right; by eexists|]. left.
  intros proc. cbn. intros Hl. destruct (decide (p < length (procs w))%nat).
  - rewrite lookup_app_l in Hl by done. by apply (Hs p).
  - apply lookup_lt_Some in Hl. rewrite length_app in Hl. cbn in Hl. lia.
Qed.

Lemma procs_step w e : waits e = true → procs_ok w → procs_ok (step cap w e).
Proof.
  intros We Hw. pose proof Hw as [A B].
  destruct e as [config| |fails| | | |ms|pid|t]; cbn [step]; [by apply procs_start| | | | | | | |by split].
  - unfold store_child. destruct (running w) as [r|] eqn:Er; [|done]. destruct (r_stage r) eqn:Es; try done.
    split; [|intros r' [= <-]; by left]. intros p. destruct (A p) as [Hq|(r' & [= <-] & Hp & _)]; [left; exact Hq|].
    right. by eexists.
  - destruct fails; [done|]. unfold poll. destruct (running w) as [r|] eqn:Er; [|done].
    specialize (B r eq_refl). destruct (r_stage r) eqn:Es; try done.
    destruct (slot w) as [p|] eqn:Hs; [|apply (procs_end r w); try done; by destruct B as [|[]]].
    destruct B as [[= ->]|[[=] _]]; [].
    destruct (procs w !! r_pid r) as [[[] ? reads]|] eqn:El; [|case_match; try done..].
    + split; [|by intros r' [= <-]]. intros p. left.
      apply (reaped_insert w). destruct (A p) as [?|(r' & [= <-] & <- & _)]; auto.
    + split; [|intros r' [= <-]; left; exact Hs]. intros p. destruct (A p) as [Hq|(r' & [= <-] & Hp & _)]; [left; exact Hq|].
      right. by eexists.
    + split; [|intros r' [= <-]; left; exact Hs]. intros p. destruct (A p) as [Hq|(r' & [= <-] & Hp & _)]; [left; exact Hq|].
      right. by eexists.
  - unfold expire. destruct (running w) as [r|] eqn:Er; [|done].
    specialize (B r eq_refl). destruct (r_stage r) eqn:Es; try done.
    destruct B as [Hs|[Hs Hp]]; rewrite Hs.
    + split; [|done]. intros p. left. apply (reaped_kill w).
      destruct (A p) as [?|(r' & [= <-] & <- & _)]; auto.
    + by apply (procs_end r w).
  - unfold join. destruct (running w) as [r|] eqn:Er; [|done]. destruct (r_stage r) eqn:Es; try done.
    destruct (forallb _ _); [|done]. apply (procs_end r w); try done.
    destruct (A (r_pid r)) as [?|(r' & [= <-] & _ & ?)]; done.
  - unfold kill_running_child. destruct (slot w) as [p|] eqn:Hs; [|done]. split.
    + intros q. destruct (A q) as [?|?]; [left; apply (reaped_kill w); auto|by right].
    + intros r Hr. specialize (B r Hr). destruct (r_stage r); try done; right; split; try done;
        apply (reaped_kill w); destruct B as [[= ->]|[]]; auto.
  - by split.
  - split; [intros q; destruct (A q); [left; by apply (reaped_exit w)|by right]|].
    intros r Hr. specialize (B r Hr). destruct (r_stage r); try done; destruct B as [?|[]]; auto;
      right; split; auto; by apply (reaped_exit w).
Qed.

Lemma procs_run ds es : forallb waits es = true → procs_ok (run cap ds es).
Proof.
  induction es as [|e es IH] using rev_ind; [split; [left; intros ? | ]; done|].
  rewrite forallb_app. cbn. rewrite andb_true_r. intros [H1 H2]%andb_true_iff.
  unfold run. rewrite fold_left_app. apply procs_step; [done|by apply IH].
Qed.

(** ** Scratch directories *)

Definition dirs_ok (ds : gset string) (w : World) : Prop :=
  match running w with
  | None => dirs w = ds
  | Some r => r_scratch r ∉ ds ∧ dirs w = {[r_scratch r]} ∪ ds
  end.

Lemma dirs_same ds w w' : dirs_ok ds w → dirs w' = dirs w → r_scratch <$> running w' = r_scratch <$> running w →
  dirs_ok ds w'.
Proof.
  unfold dirs_ok. intros Hw -> E. destruct (running w), (running w'); try done. cbn in E. congruence.
Qed.

Lemma dirs_step ds w e : (∀ d, os_remove_refused d = false) → dirs_ok ds w → dirs_ok ds (step cap w e).
Proof.
  intros Hok Hw. pose proof (dirs_same ds w) as Hsame.
  assert (Hrm : ∀ d s, d ∉ s → remove_dir_all d ({[d]} ∪ s) = s).
  { intros d s Hd. unfold remove_dir_all. rewrite Hok. set_solver. }
  assert (Hend : ∀ r o w', running w = Some r → dirs w' = dirs w → dirs_ok ds (end_run r o w')).
  { intros r o w' Hr Hd. unfold dirs_ok in Hw. rewrite Hr in Hw. destruct Hw as [Hn Hw].
    unfold dirs_ok, end_run. cbn. rewrite Hd, Hw. by apply Hrm. }
  destruct e as [config| |fails| | | |ms|pid|t]; cbn [step]; try by apply Hsame.
  - unfold start. destruct (running w) eqn:Er; [done|]. unfold dirs_ok in Hw. rewrite Er in Hw.
    cbn zeta. destruct (cap <=? _)%nat; [done|].
    change (dirs (sweep w)) with (dirs w). rewrite Hw. unfold create_fresh_scratch_dir.
    pose proof (scratch_attempts_spec "jvl-javac-" 8 0 ds) as Hs.
    destruct (scratch_attempts _ _ _ _) as [[d|] ds']; [|by subst ds'].
    destruct Hs as [Hd ->]. destruct (spawn_in_scratch config d); [done|]. by apply Hrm.
  - unfold store_child. destruct (running w) as [r|] eqn:Er; [|done]. destruct (r_stage r); try done.
    by apply Hsame; [..|cbn; rewrite ?Er].
  - unfold poll. destruct (running w) as [r|] eqn:Er; [|done]. destruct (r_stage r); try done.
    destruct (slot w) as [p|]; [|by apply Hend].
    destruct fails; [|destruct (procs w !! p) as [[[] ? ?]|]; [|case_match; try done..]];
      by apply Hsame; [..|cbn; rewrite ?Er].
  - unfold expire. destruct (running w) as [r|] eqn:Er; [|done]. destruct (r_stage r); try done.
    apply Hend; [done|]. by destruct (slot w).
  - unfold join. destruct (running w) as [r|] eqn:Er; [|done]. destruct (r_stage r); try done.
    destruct (forallb _ _); [|done]. by apply Hend.
  - unfold kill_running_child. destruct (slot w); [|done]. by apply Hsame.
Qed.

Lemma dirs_run ds es : (∀ d, os_remove_refused d = false) → dirs_ok ds (run cap ds es).
Proof.
  intros Hok. induction es as [|e es IH] using rev_ind; [done|].
  unfold run. rewrite fold_left_app. by apply dirs_step.
Qed.

End Invariants.

(** ** What bounds the checks *)

(** C20: Compiler runs leave nothing behind without limit.  However runs, polls,
    timeouts, shutdowns, process exits and pipe closings interleave, at most
    nine reader threads are ever blocked; every child the system lets be
    waited for has been reaped unless it is the current run's; and between
    runs the scratch directories that exist are those of the beginning. *)
Theorem javac_runs_bounded `{JavacOs} ds es :
  let w := run MAX_LEAKED_READERS ds es in
  (size (blocked w) ≤ S MAX_LEAKED_READERS)%nat
  ∧ (forallb waits es = true →
     ∀ p proc, procs w !! p = Some proc → p_reaped proc = true ∨ r_pid <$> running w = Some p)
  ∧ ((∀ d, os_remove_refused d = false) → running w = None → dirs w = ds).
Proof.
  intros w. split_and!.
  - apply blocked_count, threads_run. unfold MAX_LEAKED_READERS. lia.
  - intros Hw p proc Hp. destruct (pr_reaped _ (procs_run MAX_LEAKED_READERS ds es Hw) p) as [Hr|(r & Hr & <- & _)].
    + left. by apply (Hr proc).
    + right. subst w. by rewrite Hr.
  - intros Hok Hn. pose proof (dirs_run MAX_LEAKED_READERS ds es Hok) as Hd. unfold dirs_ok in Hd.
    subst w. by rewrite Hn in Hd.
Qed.

(** *** Where the bounds stop *)

Section Limits.
Context `{JavacOs}.

Definition world_running (stage : Stage) (sl : option nat) : World :=
  mkWorld 0 [mkProc true true []] {[(0%nat, STDERR)]} sl [] (Some (mkRun 0 120000 "/s" stage)) {["/s"]} [].

(** A child that ended normally while something else holds its pipe: the run
    waits for its reader, has no timeout left, and no other check starts. *)
Lemma held_pipe_wedges es : Forall (λ e, e ≠ ReaderDone (0%nat, STDERR)) es →
  let w := fold_left (step MAX_LEAKED_READERS) es (world_running Joining (Some 0%nat)) in
  running w = Some (mkRun 0 120000 "/s" Joining) ∧ outcomes w = [].
Proof.
  intros He. cbn zeta.
  assert (G : ∀ w, running w = Some (mkRun 0 120000 "/s" Joining) → outcomes w = [] → (0%nat, STDERR) ∈ blocked w →
    let w' := fold_left (step MAX_LEAKED_READERS) es w in
    running w' = Some (mkRun 0 120000 "/s" Joining) ∧ outcomes w' = []); [|by apply G; cbn; [| |set_solver]].
  induction He as [|e es Hd He IH]; intros w Hr Ho Hb; [done|]. cbn zeta. cbn [fold_left]. apply IH.
  all: destruct e as [config| |fails| | | |ms|pid|t]; cbn [step]; unfold start, store_child, poll, expire, join, kill_running_child;
    rewrite ?Hr; cbn [r_stage r_pid readers_of forallb]; try done; try (by destruct (slot w));
    try (rewrite (bool_decide_eq_false_2 ((0%nat, STDERR) ∉ blocked w)) by naive_solver;
         by rewrite andb_false_r).
  cbn. set_solver.
Qed.

(** A shutdown between the spawn and the store finds an empty slot. *)
Lemma shutdown_misses_child t ps b l ds os : 
  let w := mkWorld t ps b None l (Some (mkRun 0 120000 "/s" Spawned)) ds os in
  let w' := step MAX_LEAKED_READERS (step MAX_LEAKED_READERS w Shutdown) Store in
  procs w' = ps ∧ slot w' = Some 0%nat ∧ running w' = Some (mkRun 0 120000 "/s" (Polling t)).
Proof. done. Qed.

End Limits.
End JavacRun.
