(* ===== verification/Checks.v ===== *)
(** * Diagnostics and checks of the server ([crates/server/src/diagnostics.rs])

    Merging the compiler's diagnostics with the analysis's own, deciding what
    a check compiles, and the handlers that compute and publish diagnostics as
    tasks that interleave where they await. *)
From Stdlib Require Import Ascii.
From S2P Require Import Prelude RustStd Paths Lsp Order LaunchWalk DapProtocol JavacOutput JavacRun.
Import Lsp.

Module Checks.

(** ** Merging *)

Definition JAVAC_CONFIRMABLE_CODES : list string :=
  ["jvl.incompatibleReturn"; "jvl.incompatibleAssignment"; "jvl.unreachable"; "jvl.cannotFindSymbol";
   "jvl.invalidInvocation"; "jvl.invalidInstantiation"].
Definition first_line (s : string) : string := default "" (head (str_lines s)).

Inductive Family := MethodFamily | ConstructorFamily.
#[global] Instance family_eq_dec : EqDecision Family.
Proof. solve_decision. Defined.
Definition native_family (m : string) : option Family :=
  if starts_with "no applicable method" m || starts_with "ambiguous method call" m then Some MethodFamily
  else if starts_with "no applicable constructor" m || starts_with "ambiguous constructor call" m
    || starts_with "cannot instantiate" m || contains_str "is not accessible" m
    || contains_str "enclosing instance required" m then Some ConstructorFamily
  else None.
Definition javac_family (m : string) : option Family :=
  if starts_with "no suitable method found" m
    || (contains_str "reference to" m && contains_str "is ambiguous" m)
    || (starts_with "method " m && contains_str "cannot be applied" m) then Some MethodFamily
  else if starts_with "no suitable constructor found" m || contains_str "cannot be instantiated" m
    || contains_str "has private access" m
    || (starts_with "constructor " m && contains_str "cannot be applied" m)
    || contains_str "an enclosing instance that contains" m then Some ConstructorFamily
  else None.
Definition equivalent_payload (native javac : string) : bool :=
  let native := first_line native in
  let javac := first_line javac in
  if starts_with "cannot find symbol" native && starts_with "cannot find symbol" javac then true
  else match native_family native, javac_family javac with
       | Some n, Some j => bool_decide (n = j)
       | _, _ =>
           match strip_prefix "incompatible types: " native, strip_prefix "incompatible types: " javac with
           | Some native, Some javac => bool_decide (native = javac)
           | _, _ => bool_decide (native = javac)
           end
       end.
Definition javac_confirms_native (native javac : Diagnostic) : bool :=
  match d_code native with Some (Code c) => bool_decide (c ∈ JAVAC_CONFIRMABLE_CODES) | _ => false end
  && bool_decide (d_severity native = Some ERROR) && bool_decide (d_severity javac = Some ERROR)
  && (p_line (r_start (d_range native)) =? p_line (r_start (d_range javac)))
  && (p_character (r_start (d_range native)) <? p_character (r_end (d_range javac)))
  && (p_character (r_start (d_range javac)) <? p_character (r_end (d_range native)))
  && equivalent_payload (d_message native) (d_message javac).
Definition merge_javac_diagnostics (diagnostics javac : list Diagnostic) : list Diagnostic :=
  diagnostics ++ List.filter (λ j, negb (existsb (λ n, javac_confirms_native n j) diagnostics)) javac.

(** ** The scope of a check *)

Inductive JavacCheckScope := Project | Modules (document_uris : list string).

Fixpoint all_strings (l : list Json) : option (list string) :=
  match l with
  | [] => Some []
  | JStr s :: l => t ← all_strings l; Some (s :: t)
  | _ => None
  end.
Definition obj_get (key : string) (fields : list (string * Json)) : option Json :=
  snd <$> List.find (λ kv, bool_decide (kv.1 = key)) fields.
Definition parse_check_scope (arguments : list Json) : Result string JavacCheckScope :=
  match arguments with
  | [] | JNull :: _ | JObj [] :: _ => Ok Project
  | JObj obj :: _ =>
      match obj_get "scope" obj with
      | Some (JStr scope) =>
          if bool_decide (scope = "project") then Ok Project
          else if bool_decide (scope = "modules") then
            match obj_get "documentUris" obj with
            | Some (JArr array) =>
                match all_strings array with
                | None => Err "documentUris entries must be strings"
                | Some [] => Err "modules scope requires at least one document URI"
                | Some uris => Ok (Modules uris)
                end
            | _ => Err "modules scope requires a documentUris array"
            end
          else Err ("unknown checkProject scope: " +:+ scope)
      | _ => Ok Project
      end
  | _ => Err "checkProject argument must be a JSON object"
  end.

(** ** Which modules *)

Section Scope.
Context `{Fs}.
Variable canonicalize : string → option string.
(** The path of a [file:] URI. *)
Variable to_file_path : string → option string.

Definition parse_java_file_uri (uri : string) : option string :=
  path ← to_file_path uri;
  name ← file_name path;
  if bool_decide (extension name = Some "java") then Some path else None.
Definition path_under_any_module (path : string) (module_roots : list string) : bool :=
  existsb (path_starts_with path) module_roots
  || match canonicalize path with
     | Some canon => existsb (path_starts_with canon) module_roots
     | None => false
     end.
Definition uri_is_under_module (uri : string) (module_roots : list string) : bool :=
  match to_file_path uri with Some path => path_under_any_module path module_roots | None => false end.

(** The source root an open document's package implies. *)
Variable inferred_root : string → option string.

Record Plan := mkPlan { module_roots : list string; explicit_roots : list string; unsupported_layout : option string }.
Definition add_document (project_root workspace_canonical uri : string) (p : Plan) : Result string Plan :=
  match parse_java_file_uri uri with
  | None => Err ("not a file: .java URI: " +:+ uri)
  | Some file =>
      match JavacRun.canonical_within_workspace canonicalize file workspace_canonical with
      | None => Err ("document is outside the workspace or unreadable: " +:+ uri)
      | Some _ =>
          let module_root :=
            match JavacRun.nearest_module_root file project_root with
            | Some root => Some root
            | None =>
                if existsb (path_starts_with file) (JavacRun.conventional_source_roots project_root)
                then Some project_root else None
            end in
          match module_root with
          | None => Ok (mkPlan (module_roots p) (explicit_roots p)
                          (match unsupported_layout p with None => Some uri | u => u end))
          | Some root =>
              let p := if existsb (path_eq root) (module_roots p) then p
                       else mkPlan (module_roots p ++ [root])
                              (explicit_roots p ++ JavacRun.conventional_source_roots root) (unsupported_layout p) in
              Ok (match inferred_root uri with
                  | Some inferred =>
                      if path_starts_with inferred root && negb (existsb (path_eq inferred) (explicit_roots p))
                      then mkPlan (module_roots p) (explicit_roots p ++ [inferred]) (unsupported_layout p) else p
                  | None => p
                  end)
          end
      end
  end.
Fixpoint add_documents (project_root workspace_canonical : string) (uris : list string) (p : Plan) : Result string Plan :=
  match uris with
  | [] => Ok p
  | uri :: uris =>
      match add_document project_root workspace_canonical uri p with
      | Ok p => add_documents project_root workspace_canonical uris p
      | Err e => Err e
      end
  end.

(** [Ok None] is an unsupported layout: nothing to check. *)
Definition scoped_plan (project_root : option string) (document_uris : list string) : Result string (option Plan) :=
  if bool_decide (document_uris = []) then Err "scoped check requires at least one document URI"
  else match project_root with
       | None => Err "no project root (open a workspace folder or a file under a Maven/Gradle project)"
       | Some root =>
           match canonicalize root with
           | None => Err "could not canonicalize the workspace root"
           | Some canonical =>
               match add_documents root canonical document_uris (mkPlan [] [] None) with
               | Err e => Err e
               | Ok p => if bool_decide (module_roots p = []) then Ok None else Ok (Some p)
               end
           end
       end.
End Scope.

(** ** One run of the compiler *)

Inductive CheckExecution :=
| Terminal (status : string)
| JdkTooOld (project jdk : Z)
| CompletedCheck (grouped : gmap string (list Diagnostic)) (error_count warning_count : nat).

(** [None]: the project asks for more than the JDK has. *)
Definition source_level (project_release jdk_release : option Z) : option JavacRun.SourceLevel :=
  match project_release, jdk_release with
  | Some project, Some jdk =>
      if jdk <? project then None else Some (JavacRun.Release project (project =? jdk))
  | None, Some jdk => Some (JavacRun.JdkDefault jdk)
  | _, None => Some JavacRun.LevelNone
  end.
(** What reaches [execute_javac_check]: the located compiler and its release,
    the files found, the project's release; and what the run comes to. *)
Definition execute_javac_check (javac : option string) (source_files classpath sourcepath : list string)
    (project_release jdk_release : option Z) (timeout : Z)
    (run : JavacRun.RunConfig → JavacRun.RunOutcome) : CheckExecution :=
  match javac with
  | None => Terminal "javac-not-found"
  | Some javac_path =>
      if bool_decide (source_files = []) then Terminal "error"
      else match source_level project_release jdk_release with
           | None => JdkTooOld (default 0 project_release) (default 0 jdk_release)
           | Some level =>
               match run (JavacRun.mkConfig javac_path source_files classpath sourcepath timeout level) with
               | JavacRun.TimedOut => Terminal "timeout"
               | JavacRun.Cancelled => Terminal "cancelled"
               | JavacRun.SpawnError _ => Terminal "spawn-error"
               | JavacRun.Completed stderr =>
                   let raw := JavacOutput.parse_stderr stderr in
                   CompletedCheck (JavacOutput.group_diagnostics raw)
                     (JavacOutput.count_severities raw).1 (JavacOutput.count_severities raw).2
               end
           end
  end.

(** ** Handlers as interleaving tasks

    A handler runs from one [await] to the next; what lies between is one
    step.  A task is the list of the stages it still has to run. *)

Record Document := mkDocument { d_version : Z; d_text : string }.
#[local] Notation Docs := (gmap string Document).
#[local] Notation JavacMap := (gmap string (list Diagnostic)).
#[local] Notation Item := (string * list Diagnostic * option Z)%type.

(** What computing diagnostics reads besides: the environment (classpath,
    workspace index, files on disk), the analysis of an open document, the
    declarations an edit changed, the plan of a scoped check, the locations
    of paths and URIs; and the order in which a hash map is walked. *)
Class Workspace := {
  Env : Type;
  native : Env → Docs → string → list Diagnostic;
  declarations_changed : string → string → bool;
  plan_modules : Env → Docs → list string → option (list string);
  uri_of_path : string → option string;
  uri_in_modules : Env → list string → string → bool;
  path_in_modules : Env → list string → string → bool;
  walk_order {A} : gmap string A → list string;
  has_project_root : Env → bool;
}.
(** A hash map is walked over its keys, once each. *)
Class WalkLaws `{Workspace} := {
  walk_keys {A} (m : gmap string A) : walk_order m ≡ₚ (map_to_list m).*1;
}.

Section Tasks.
Context `{Workspace}.

Definition compute_diagnostics (e : Env) (docs : Docs) (javac : JavacMap) (uri : string) : list Diagnostic :=
  let diagnostics := match docs !! uri with Some _ => native e docs uri | None => [] end in
  match javac !! uri with
  | Some javac_diags => merge_javac_diagnostics diagnostics javac_diags
  | None => diagnostics
  end.

Record Server := mkServer {
  documents : Docs; javac : JavacMap; semantic_generation : nat; provider_generation : nat; javac_running : bool;
  env : Env; shown : gmap string (list Diagnostic * option Z) }.
Definition set_documents f s := mkServer (f (documents s)) (javac s) (semantic_generation s) (provider_generation s)
  (javac_running s) (env s) (shown s).
Definition set_javac f s := mkServer (documents s) (f (javac s)) (semantic_generation s) (provider_generation s)
  (javac_running s) (env s) (shown s).
Definition bump_semantic s := mkServer (documents s) (javac s) (S (semantic_generation s)) (provider_generation s)
  (javac_running s) (env s) (shown s).
Definition bump_provider s := mkServer (documents s) (javac s) (semantic_generation s) (S (provider_generation s))
  (javac_running s) (env s) (shown s).
Definition set_running b s := mkServer (documents s) (javac s) (semantic_generation s) (provider_generation s)
  b (env s) (shown s).
Definition set_env e s := mkServer (documents s) (javac s) (semantic_generation s) (provider_generation s)
  (javac_running s) e (shown s).

(** [publish_diagnostics]: what the editor shows of a file. *)
Definition publish (i : Item) (s : Server) : Server :=
  let '(uri, ds, v) := i in
  mkServer (documents s) (javac s) (semantic_generation s) (provider_generation s) (javac_running s) (env s)
    (<[uri := (ds, v)]> (shown s)).
Definition item_of (s : Server) (uri : string) : Item :=
  (uri, compute_diagnostics (env s) (documents s) (javac s) uri, d_version <$> documents s !! uri).

Inductive Stage :=
| Refresh (all_open : bool)
| Publish (generation : option nat) (items : list Item)
| Recheck (uri : string) (version : Z)
| Check (scope : JavacCheckScope)
| Compiling (modules : option (list string)) (start_versions : gmap string Z) (start_generation : nat) (started : nat)
| Store (modules : option (list string)) (grouped : gmap string (list Diagnostic)) (start_versions : gmap string Z)
    (started : nat)
| Release.

(** [refresh_open_diagnostics], up to its first publish. *)
Definition refresh (all_open : bool) (s : Server) : Server * Stage :=
  let s := if all_open then set_javac (filter (λ kv, documents s !! kv.1 = None)) s else s in
  (s, Publish (Some (semantic_generation s)) (item_of s <$> walk_order (documents s))).

(** What a check's results are worth at the end: a document still open must
    have the version it had at the start. *)
Definition is_current (docs : Docs) (start_versions : gmap string Z) (uri : string) : bool :=
  match docs !! uri with
  | Some doc => bool_decide (start_versions !! uri = Some (d_version doc))
  | None => true
  end.
Definition revision_filter (docs : Docs) (start_versions : gmap string Z) (m : JavacMap) : JavacMap :=
  filter (λ kv, is_current docs start_versions kv.1 = true) m.
Definition by_uri (grouped : gmap string (list Diagnostic)) : JavacMap :=
  fold_left (λ m pd, match uri_of_path pd.1 with Some uri => <[uri := pd.2]> m | None => m end)
    (omap (λ p, ds ← grouped !! p; Some (p, ds)) (walk_order grouped)) ∅.
(** [publish_javac_diagnostics] and its scoped variant: what the map becomes,
    and whose diagnostics are published again. *)
Definition stored (modules : option (list string)) (e : Env) (old new : JavacMap) : JavacMap :=
  match modules with
  | None => new
  | Some roots => new ∪ filter (λ kv, uri_in_modules e roots kv.1 = false) old
  end.
Definition affected (modules : option (list string)) (e : Env) (old new : JavacMap) : JavacMap :=
  match modules with
  | None => new ∪ old
  | Some roots => new ∪ filter (λ kv, uri_in_modules e roots kv.1 = true) old
  end.
Definition store (modules : option (list string)) (grouped : gmap string (list Diagnostic))
    (start_versions : gmap string Z) (s : Server) : Server * Stage :=
  let new := revision_filter (documents s) start_versions (by_uri grouped) in
  let uris := walk_order (affected modules (env s) (javac s) new) in
  let s := set_javac (λ old, stored modules (env s) old new) s in
  (s, Publish None (item_of s <$> uris)).

Definition versions (docs : Docs) : gmap string Z := d_version <$> docs.
(** The stages a finished compilation leads to.  [build_file] is where a JDK
    too old is reported. *)
Definition compiled (modules : option (list string)) (start_versions : gmap string Z) (start_generation started now : nat)
    (build_file : option (string * Diagnostic)) (result : CheckExecution) (s : Server) : list Stage :=
  match result with
  | Terminal _ => []
  | JdkTooOld _ _ =>
      match build_file with
      | Some (path, diag) => [Store None {[path := [diag]]} (versions (documents s)) now]
      | None => []
      end
  | CompletedCheck grouped _ _ =>
      if negb (provider_generation s =? start_generation)%nat then []
      else match modules with
           | None => [Store None grouped start_versions started]
           | Some roots =>
               if existsb (λ path, negb (path_in_modules (env s) roots path)) (walk_order grouped) then [Check Project]
               else [Store (Some roots) grouped start_versions started]
           end
  end.

(** What a stage waits for: the compiler, or nothing. *)
Inductive Input := Nothing | Compiler (build_file : option (string * Diagnostic)) (result : CheckExecution).

(** The loop that publishes: a refresh pass looks at the generation first. *)
Definition publish_next (generation : option nat) (i : Item) (items : list Item) (s : Server) : Server * list Stage :=
  match generation with
  | Some g => if (semantic_generation s =? g)%nat then (publish i s, [Publish generation items]) else (s, [])
  | None => (publish i s, [Publish generation items])
  end.
(** The end of the fast path of a change. *)
Definition recheck (uri : string) (version : Z) (s : Server) : list Stage :=
  [Publish None [(uri, compute_diagnostics (env s) (documents s) (javac s) uri, Some version)]].
Definition run_check_full_project (now : nat) (s : Server) : list Stage :=
  if has_project_root (env s) then [Compiling None (versions (documents s)) (provider_generation s) now] else [].
Definition run_check_scoped (now : nat) (uris : list string) (s : Server) : list Stage :=
  match plan_modules (env s) (documents s) uris with
  | Some roots => [Compiling (Some roots) (versions (documents s)) (provider_generation s) now]
  | None => []
  end.

Definition run_stage (now : nat) (input : Input) (st : Stage) (s : Server) : Server * list Stage :=
  match st with
  | Refresh all_open => let '(s, p) := refresh all_open s in (s, [p])
  | Publish _ [] => (s, [])
  | Publish generation (i :: items) => publish_next generation i items s
  | Recheck uri version => (s, recheck uri version s)
  | Check Project => (s, run_check_full_project now s)
  | Check (Modules uris) => (s, run_check_scoped now uris s)
  | Compiling modules start_versions start_generation started =>
      match input with
      | Compiler build_file result =>
          (s, compiled modules start_versions start_generation started now build_file result s)
      | Nothing => (s, [st])
      end
  | Store modules grouped start_versions started => let '(s, p) := store modules grouped start_versions s in (s, [p])
  | Release => (set_running false s, [])
  end.

(** ** What the editor asks *)

Inductive Request :=
| DidOpen (uri : string) (version : Z) (text : string)
| DidChange (uri : string) (version : Z) (text : string)
| DidClose (uri : string)
| DidSave (uri : string)
| JavaFiles
| RebuildClasspath
| ExecuteCheck (scope : JavacCheckScope).

(** A handler up to its first [await], and the task that is left. *)
Definition did_open (uri : string) (version : Z) (text : string) (s : Server) : Server * list Stage :=
  (bump_semantic (set_documents <[uri := mkDocument version text]> s), [Refresh false]).
Definition did_change (uri : string) (version : Z) (text : string) (s : Server) : Server * list Stage :=
  match documents s !! uri with
  | None => (s, [])
  | Some doc =>
      let changed := declarations_changed (d_text doc) text in
      let s := set_javac (delete uri) (bump_semantic (set_documents <[uri := mkDocument version text]> s)) in
      if changed then (bump_provider s, [Refresh true]) else (s, [Recheck uri version])
  end.
Definition did_close (uri : string) (s : Server) : Server * list Stage :=
  (bump_provider (bump_semantic (set_documents (delete uri) s)), [Publish None [(uri, [], None)]; Refresh true]).
Definition did_save (s : Server) : Server * list Stage := (bump_semantic s, []).
(** Some event was accepted. *)
Definition on_java_source_events (s : Server) : Server * list Stage :=
  (bump_provider (bump_semantic s), [Refresh true]).
Definition republish_all_diagnostics (s : Server) : Server * list Stage := (s, [Refresh false]).
Definition execute_command (scope : JavacCheckScope) (s : Server) : Server * list Stage :=
  if javac_running s then (s, []) else (set_running true s, [Check scope; Release]).
Definition on_request (r : Request) (s : Server) : Server * list Stage :=
  match r with
  | DidOpen uri version text => did_open uri version text s
  | DidChange uri version text => did_change uri version text s
  | DidClose uri => did_close uri s
  | DidSave _ => did_save s
  | JavaFiles => on_java_source_events s
  | RebuildClasspath => republish_all_diagnostics s
  | ExecuteCheck scope => execute_command scope s
  end.

(** The server with its tasks.  The clock and the times are for the theorems:
    when a document was last changed and last closed, and when the run whose
    results are stored for a file began. *)
Record World := mkWorld {
  server : Server; tasks : list (list Stage); clock : nat;
  changed_at : gmap string nat; closed_at : gmap string nat; origin : gmap string nat }.

Definition note_request (r : Request) (w : World) (s : Server) (t : list Stage) : World :=
  let now := clock w in
  mkWorld s (tasks w ++ [t]) (S now)
    (match r with
     | DidChange uri _ _ => match documents (server w) !! uri with Some _ => <[uri := now]> (changed_at w) | None => changed_at w end
     | _ => changed_at w
     end)
    (match r with DidClose uri => <[uri := now]> (closed_at w) | _ => closed_at w end) (origin w).
Definition note_stage (st : Stage) (w : World) (s : Server) (k : nat) (t : list Stage) : World :=
  mkWorld s (<[k := t]> (tasks w)) (S (clock w)) (changed_at w) (closed_at w)
    (match st with
     | Store modules grouped start_versions started =>
         ((λ _, started) <$> revision_filter (documents (server w)) start_versions (by_uri grouped)) ∪ origin w
     | _ => origin w
     end).

(** A step: a request arrives, the environment changes, or a task goes on. *)
Inductive Step := Request_ (r : Request) | Environment (e : Env) | Task_ (k : nat) (input : Input).
Definition step (w : World) (l : Step) : World :=
  match l with
  | Request_ r => let '(s, t) := on_request r (server w) in note_request r w s t
  | Environment e =>
      mkWorld (set_env e (server w)) (tasks w) (S (clock w)) (changed_at w) (closed_at w) (origin w)
  | Task_ k input =>
      match tasks w !! k with
      | Some (st :: rest) => let '(s, t) := run_stage (clock w) input st (server w) in note_stage st w s k (t ++ rest)
      | _ => w
      end
  end.
(** What the editor may send: it opens closed documents, and versions grow
    while a document is open. *)
Definition allowed (w : World) (l : Step) : Prop :=
  match l with
  | Request_ (DidOpen uri _ _) => documents (server w) !! uri = None
  | Request_ (DidChange uri version _) => ∀ doc, documents (server w) !! uri = Some doc → d_version doc < version
  | _ => True
  end.
Definition start (e : Env) : World := mkWorld (mkServer ∅ ∅ 0 0 false e ∅) [] 0 ∅ ∅ ∅.
Inductive reachable (e : Env) : World → Prop :=
| reach_start : reachable e (start e)
| reach_step w l : reachable e w → allowed w l → reachable e (step w l).
Definition run (w : World) (ls : list Step) : World := fold_left step ls w.
End Tasks.

(** Unfolding the handlers and the stages. *)
#[local] Ltac handlers :=
  unfold on_request, did_open, did_change, did_close, did_save, on_java_source_events, republish_all_diagnostics, execute_command.
#[local] Tactic Notation "handlers" "in" hyp(H) :=
  unfold on_request, did_open, did_change, did_close, did_save, on_java_source_events, republish_all_diagnostics,
    execute_command in H.
#[local] Ltac stages := unfold run_stage, publish_next, recheck, run_check_full_project, run_check_scoped.
#[local] Tactic Notation "stages" "in" hyp(H) :=
  unfold run_stage, publish_next, recheck, run_check_full_project, run_check_scoped in H.

(** ** Merging keeps everything *)

(** Merging loses nothing.  The analysis's own diagnostics come first, all of
    them and unchanged; then the compiler's, in order, except those that
    confirm one of the analysis's own, which is an error on the same line at
    an overlapping place with the same payload. *)
Theorem merge_exact native javac :
  ∃ rest, merge_javac_diagnostics native javac = native ++ rest ∧ sublist rest javac
  ∧ ∀ j, j ∈ javac → j ∈ rest ∨ ∃ n, n ∈ native ∧ d_severity n = Some ERROR ∧ d_severity j = Some ERROR
       ∧ p_line (r_start (d_range n)) = p_line (r_start (d_range j))
       ∧ p_character (r_start (d_range n)) < p_character (r_end (d_range j))
       ∧ p_character (r_start (d_range j)) < p_character (r_end (d_range n))
       ∧ equivalent_payload (d_message n) (d_message j) = true.
Proof.
  eexists. split; [done|]. set (p := λ j, _). split.
  - induction javac as [|j javac IH]; [constructor|]. cbn [List.filter]. destruct (p j); by constructor.
  - intros j Hj. destruct (p j) eqn:Ep; [left; by apply list_elem_of_In, List.filter_In; rewrite <-list_elem_of_In|right].
    subst p. cbn in Ep. apply negb_false_iff, existsb_exists in Ep as (n & Hn & Hc). exists n.
    split; [by apply list_elem_of_In|]. unfold javac_confirms_native in Hc.
    rewrite !andb_true_iff, !bool_decide_eq_true, Z.eqb_eq, !Z.ltb_lt in Hc. tauto.
Qed.

(** A request the editor meant for some modules is never run on the whole
    project. *)
Lemma scope_modules arguments uris : parse_check_scope arguments = Ok (Modules uris) → uris ≠ []
  ∧ ∃ obj rest, arguments = JObj obj :: rest ∧ obj_get "scope" obj = Some (JStr "modules")
    ∧ obj_get "documentUris" obj = Some (JArr (JStr <$> uris)).
Proof.
  destruct arguments as [|[| | | | |[|f obj]] rest]; try done. unfold parse_check_scope.
  destruct (obj_get "scope" _) as [[| | |s| |]|] eqn:Es; try done.
  case_bool_decide; [done|]. case_bool_decide; [subst s|done].
  destruct (obj_get "documentUris" _) as [[| | | |a|]|] eqn:Ea; try done.
  assert (Ha : ∀ l u, all_strings l = Some u → l = JStr <$> u).
  { induction l as [|[] l IH]; intros u E; try done; [by injection E as <-|]. cbn in E.
    destruct (all_strings l); [|done]. injection E as <-. cbn. f_equal. by apply IH. }
  destruct (all_strings a) as [[|u us]|] eqn:E; [done| |done]. intros [= <-]. split; [done|].
  exists (f :: obj), rest. split_and!; [done|done|]. by rewrite (Ha _ _ E) in Ea.
Qed.
(** But a scope that is not a string is. *)
Lemma scope_widened :
  parse_check_scope [JObj [("scope", JNum 5); ("documentUris", JArr [JStr "file:///w/A.java"])]] = Ok Project
  ∧ parse_check_scope [JObj [("documentUris", JArr [JStr "file:///w/A.java"])]] = Ok Project.
Proof. done. Qed.

(** ** A scoped check stays in its modules *)

Section Confined.
Context `{Fs}.
Variables (canonicalize to_file_path inferred_root : string → option string).

Definition under (mods : list string) (r : string) : Prop := ∃ m, m ∈ mods ∧ path_starts_with r m = true.
Definition confined (p : Plan) : Prop := Forall (under (module_roots p)) (explicit_roots p).

Lemma is_prefix_app l k : is_prefix l (l ++ k) = true.
Proof. induction l as [|x l IH]; [done|]. cbn. by rewrite bool_decide_eq_true_2. Qed.
Lemma under_more mods m r : under mods r → under (mods ++ [m]) r.
Proof. intros (x & Hx & Hr). exists x. split; [|done]. apply elem_of_app. by left. Qed.
Lemma conventional_under m r : r ∈ JavacRun.conventional_source_roots m → path_starts_with r m = true.
Proof.
  unfold JavacRun.conventional_source_roots. rewrite elem_of_filter_bool, list_elem_of_fmap. intros [(d & -> & Hd) _].
  unfold path_starts_with. unfold CONVENTIONAL_SOURCE_SUBDIRS in Hd.
  assert (Hj : ∃ l, d = str_join "/" l ∧ l ≠ [] ∧ Forall plain_part l).
  { apply elem_of_cons in Hd as [->|[->|Hd%elem_of_nil]%elem_of_cons]; [| |done].
    - by exists ["src"; "main"; "java"]; split_and!; [..|repeat constructor].
    - by exists ["src"; "test"; "java"]; split_and!; [..|repeat constructor]. }
  destruct Hj as (l & -> & Hl & Hp). rewrite components_path_join by done. apply is_prefix_app.
Qed.
Lemma path_eq_starts r r' m : path_eq r r' = true → path_starts_with r' m = true → path_starts_with r m = true.
Proof. unfold path_eq, path_starts_with. by intros ->%bool_decide_eq_true. Qed.
Lemma add_document_confined root canonical uri p p' :
  add_document canonicalize to_file_path inferred_root root canonical uri p = Ok p' → confined p →
  confined p' ∧ ∃ file c, to_file_path uri = Some file ∧ canonicalize file = Some c ∧ path_starts_with c canonical = true.
Proof.
  unfold add_document, parse_java_file_uri. destruct (to_file_path uri) as [file|]; [|done]. cbn [mbind option_bind].
  destruct (file_name file) as [name|]; [|done]. cbn [mbind option_bind]. case_bool_decide; [|done].
  unfold JavacRun.canonical_within_workspace. destruct (canonicalize file) as [c|] eqn:Ec; [|done]. cbn [mbind option_bind].
  destruct (path_starts_with c canonical) eqn:Es; [|done]. intros E Hp. split; [|by exists file, c].
  revert E. set (found := match JavacRun.nearest_module_root file root with Some r => Some r | None => _ end).
  destruct found as [m|]; [|by intros [= <-]].
  set (p1 := if existsb (path_eq m) (module_roots p) then p else _). intros [= <-].
  assert (H1 : confined p1 ∧ ∃ m', m' ∈ module_roots p1 ∧ path_eq m m' = true).
  { subst p1. destruct (existsb (path_eq m) (module_roots p)) eqn:Ex.
    - apply existsb_exists in Ex as (m' & Hm & He). split; [done|]. exists m'. by rewrite list_elem_of_In.
    - split.
      + apply Forall_app. split; [eapply Forall_impl; [exact Hp|]; intros r; apply under_more|].
        apply Forall_forall. intros r Hr%conventional_under. exists m. split; [|done]. apply elem_of_app. right. by left.
      + exists m. cbn. split; [apply elem_of_app; right; by left|]. unfold path_eq. by apply bool_decide_eq_true. }
  destruct H1 as [H1 (m' & Hm' & Em)]. destruct (inferred_root uri) as [r|]; [|done].
  destruct (path_starts_with r m && _) eqn:Er; [|done]. apply andb_true_iff in Er as [Er _].
  apply Forall_app. split; [done|]. constructor; [|done]. exists m'. split; [done|].
  unfold path_starts_with, path_eq in *. apply bool_decide_eq_true in Em. by rewrite <-Em.
Qed.

(** A scoped check compiles nothing outside the modules it names: each source
    root it passes to the compiler lies in one of the modules found, and every
    document that asked for the check is, links resolved, in the workspace. *)
Theorem scoped_plan_confined project_root uris p :
  scoped_plan canonicalize to_file_path inferred_root project_root uris = Ok (Some p) →
  module_roots p ≠ [] ∧ Forall (under (module_roots p)) (explicit_roots p)
  ∧ ∃ root canonical, project_root = Some root ∧ canonicalize root = Some canonical
      ∧ Forall (λ uri, ∃ file c, to_file_path uri = Some file ∧ canonicalize file = Some c
                        ∧ path_starts_with c canonical = true) uris.
Proof.
  unfold scoped_plan. case_bool_decide; [done|]. destruct project_root as [root|]; [|done].
  destruct (canonicalize root) as [canonical|] eqn:Ec; [|done].
  destruct (add_documents _ _ _ _ _ _ _) as [p0|] eqn:E; [|done]. case_bool_decide as Hm; [done|]. intros [= <-].
  assert (Hall : ∀ us q q', add_documents canonicalize to_file_path inferred_root root canonical us q = Ok q' → confined q →
    confined q' ∧ Forall (λ uri, ∃ file c, to_file_path uri = Some file ∧ canonicalize file = Some c
                        ∧ path_starts_with c canonical = true) us).
  { induction us as [|u us IH]; intros q q' Eq Hq; [injection Eq as <-; by split|]. cbn [add_documents] in Eq.
    destruct (add_document _ _ _ _ _ _ _) as [q1|] eqn:E1; [|done]. apply add_document_confined in E1 as [H1 H2]; [|done].
    destruct (IH _ _ Eq H1). split; [done|]. by constructor. }
  apply Hall in E as [Hc Hu]; [|constructor]. split_and!; [done|done|]. by exists root, canonical.
Qed.
End Confined.

(** ** Steps and stages *)

Section Safety.
Context `{WalkLaws}.

Definition has_stage (w : World) (st : Stage) : Prop := ∃ k t, tasks w !! k = Some t ∧ st ∈ t.

Lemma note_request_stage r w s t st : has_stage (note_request r w s t) st → has_stage w st ∨ st ∈ t.
Proof.
  intros (k & t' & Hk & Hst). cbn in Hk. apply lookup_app_Some in Hk as [Hk|[_ Hk]].
  - left. by exists k, t'.
  - apply list_lookup_singleton_Some in Hk as [_ <-]. by right.
Qed.
Lemma note_stage_stage st0 w s k rest t st : tasks w !! k = Some (st0 :: rest) →
  has_stage (note_stage st0 w s k (t ++ rest)) st → has_stage w st ∨ st ∈ t.
Proof.
  intros Hk (k' & t' & Hk' & Hst). cbn in Hk'. apply list_lookup_insert_Some in Hk' as [(<- & <- & _)|[_ Hk']].
  - apply elem_of_app in Hst as [Hst|Hst]; [by right|]. left. exists k, (st0 :: rest). split; [done|by right].
  - left. by exists k', t'.
Qed.

(** An invariant of the stages: kept by what happens to the server, and true of
    the stages a handler adds. *)
Lemma stages_invariant (P : World → Stage → Prop) e :
  (∀ r w st, reachable e w → allowed w (Request_ r) → P w st →
     let '(s, t) := on_request r (server w) in P (note_request r w s t) st) →
  (∀ e' w st, reachable e w → P w st → P (step w (Environment e')) st) →
  (∀ k input st0 rest w st, reachable e w → tasks w !! k = Some (st0 :: rest) → P w st →
     let '(s, t) := run_stage (clock w) input st0 (server w) in P (note_stage st0 w s k (t ++ rest)) st) →
  (∀ r w, reachable e w → allowed w (Request_ r) →
     let '(s, t) := on_request r (server w) in ∀ st, st ∈ t → P (note_request r w s t) st) →
  (∀ k input st0 rest w, reachable e w → tasks w !! k = Some (st0 :: rest) → P w st0 →
     let '(s, t) := run_stage (clock w) input st0 (server w) in
     ∀ st, st ∈ t → P (note_stage st0 w s k (t ++ rest)) st) →
  ∀ w, reachable e w → ∀ st, has_stage w st → P w st.
Proof.
  intros H1 H2 H3 H4 H5 w Hr. induction Hr as [|w l Hr IH Hl]; [by intros st (k & t & Hk & _)|].
  intros st Hst. destruct l as [r|e'|k input].
  - cbn [step] in *. specialize (H1 r w st Hr Hl). specialize (H4 r w Hr Hl).
    destruct (on_request r (server w)) as [s t]. apply note_request_stage in Hst as [Hst|Hst]; auto.
  - apply H2; [done|]. apply IH. by destruct Hst as (k & t & Hk & Hst'); exists k, t.
  - cbn [step] in *. destruct (tasks w !! k) as [[|st0 rest]|] eqn:Ek; [by apply IH| |by apply IH].
    specialize (H3 k input st0 rest w st Hr Ek). specialize (H5 k input st0 rest w Hr Ek).
    assert (P w st0) by (apply IH; exists k, (st0 :: rest); split; [done|by left]).
    destruct (run_stage _ _ _ _) as [s t]. apply (note_stage_stage _ _ _ _ _ _ _ Ek) in Hst as [Hst|Hst]; auto.
Qed.

(** What happens to the server: documents change only with the generation. *)
Definition moved (s s' : Server) : Prop :=
  (semantic_generation s ≤ semantic_generation s')%nat
  ∧ (semantic_generation s' = semantic_generation s → documents s' = documents s).
Lemma moved_same s s' : semantic_generation s' = semantic_generation s → documents s' = documents s → moved s s'.
Proof. intros E1 E2. split; [lia|done]. Qed.
Lemma moved_bump s s' : semantic_generation s' = S (semantic_generation s) → moved s s'.
Proof. intros E. split; [lia|]. intros E'. lia. Qed.
Lemma request_moved r s : moved s (on_request r s).1.
Proof.
  destruct r as [uri v t|uri v t|uri|uri| | |scope]; handlers.
  - by apply moved_bump.
  - destruct (documents s !! uri); [|by apply moved_same]. destruct (declarations_changed _ _); by apply moved_bump.
  - by apply moved_bump.
  - by apply moved_bump.
  - by apply moved_bump.
  - by apply moved_same.
  - destruct (javac_running s); by apply moved_same.
Qed.
Lemma stage_moved now input st s : documents (run_stage now input st s).1 = documents s
  ∧ semantic_generation (run_stage now input st s).1 = semantic_generation s.
Proof.
  destruct st as [b|g [|i items]|uri v|[|uris]|ms sv sg t0|ms gr sv t0|]; stages; try done.
  - by destruct b.
  - destruct i as [[uri ds] v]. by destruct g; [destruct (_ =? _)%nat|].
  - by destruct input.
Qed.
Lemma step_moved w l : moved (server w) (server (step w l)).
Proof.
  destruct l as [r|e|k input]; cbn [step].
  - pose proof (request_moved r (server w)) as H1. by destruct (on_request r (server w)).
  - by apply moved_same.
  - destruct (tasks w !! k) as [[|st rest]|]; [by apply moved_same| |by apply moved_same].
    destruct (stage_moved (clock w) input st (server w)) as [E1 E2].
    destruct (run_stage _ _ _ _). by apply moved_same.
Qed.

(** ** A refresh never overwrites what is fresher *)

(** [w] comes after [w0]. *)
Inductive later (w0 : World) : World → Prop :=
| later_now : later w0 w0
| later_step w l : later w0 w → allowed w l → later w0 (step w l).
Lemma later_moved w0 w : later w0 w → moved (server w0) (server w).
Proof.
  induction 1 as [|w l _ [Hle Hd] _]; [by apply moved_same|]. destruct (step_moved w l) as [Hle' Hd'].
  split; [lia|]. intros E. rewrite Hd' by lia. apply Hd. lia.
Qed.

(** What a refresh pass that begins at [w0] has to publish. *)
Definition pass_items (all_open : bool) (w0 : World) : list Item :=
  item_of (refresh all_open (server w0)).1 <$> walk_order (documents (server w0)).
(** A refresh pass under way began at one moment, and publishes what it found
    then, in order. *)
Definition pass_began (w : World) (g : nat) (items : list Item) (w0 : World) (all_open : bool) : Prop :=
  later w0 w ∧ semantic_generation (server w0) = g ∧ ∃ published, pass_items all_open w0 = published ++ items.
Definition refresh_ok (w : World) (st : Stage) : Prop :=
  match st with Publish (Some g) items => ∃ w0 all_open, pass_began w g items w0 all_open | _ => True end.
Lemma refresh_ok_later w l st : allowed w l → refresh_ok w st → refresh_ok (step w l) st.
Proof.
  intros Hl. destruct st as [|[g|] items| | | | |]; try done. intros (w0 & b & Hw & Hg). exists w0, b.
  split; [by apply later_step|done].
Qed.
Lemma walk_order_elem {A} (m : gmap string A) k : k ∈ walk_order m ↔ is_Some (m !! k).
Proof.
  rewrite walk_keys, list_elem_of_fmap. split.
  - intros ([k' a] & -> & Hin%elem_of_map_to_list). by eexists.
  - intros [a Ha]. exists (k, a). split; [done|by apply elem_of_map_to_list].
Qed.
Lemma refresh_stages e : ∀ w, reachable e w → ∀ st, has_stage w st → refresh_ok w st.
Proof.
  apply stages_invariant.
  - intros r w st Hr Hl Hst. pose proof (refresh_ok_later w (Request_ r) st Hl Hst) as Hx. cbn [step] in Hx.
    by destruct (on_request r (server w)) as [s t].
  - intros e' w st Hr Hst. by apply refresh_ok_later.
  - intros k input st0 rest w st Hr Hk Hst. pose proof (refresh_ok_later w (Task_ k input) st I Hst) as Hx. cbn [step] in Hx.
    rewrite Hk in Hx. by destruct (run_stage _ _ _ _) as [s t].
  - intros r w _ _. destruct r as [uri v t|uri v t|uri|uri| | |scope]; handlers;
      try (destruct (documents _ !! _)); try (destruct (declarations_changed _ _)); try (destruct (javac_running _));
      intros st Hst; repeat (apply elem_of_cons in Hst as [->|Hst]; [done|]); by apply elem_of_nil in Hst.
  - intros k input st0 rest w _ Hk Hok0.
    pose proof (later_step w w (Task_ k input) (later_now w) I) as Hm.
    pose proof (λ st, refresh_ok_later w (Task_ k input) st I) as Hx. cbn [step] in Hm, Hx. rewrite Hk in Hm, Hx.
    destruct st0 as [b|g [|i items]|uri v|[|uris]|ms sv sg t0|ms gr sv t0|]; stages.
    + intros st ->%list_elem_of_singleton. exists w, b. split; [by destruct b|]. split; [by destruct b|]. exists []. by destruct b.
    + by intros st ?%elem_of_nil.
    + destruct g as [g|]; stages in Hx.
      * destruct (Nat.eqb_spec (semantic_generation (server w)) g) as [E|E]; [|by intros st ?%elem_of_nil].
        intros st ->%list_elem_of_singleton. apply Hx. destruct Hok0 as (w0 & b & Hw & Hg & published & Hp).
        exists w0, b. split; [done|]. split; [done|]. exists (published ++ [i]). by rewrite <-app_assoc.
      * by intros st ->%list_elem_of_singleton.
    + by intros st ->%list_elem_of_singleton.
    + destruct (has_project_root _); [by intros st ->%list_elem_of_singleton|by intros st ?%elem_of_nil].
    + destruct (plan_modules _ _ _); [by intros st ->%list_elem_of_singleton|by intros st ?%elem_of_nil].
    + destruct input as [|bf res]; [by intros st ->%list_elem_of_singleton|]. unfold compiled.
      intros st. repeat case_match; try (by intros ?%elem_of_nil); by intros ->%list_elem_of_singleton.
    + by intros st ->%list_elem_of_singleton.
    + by intros st ?%elem_of_nil.
Qed.

(** ** One check at a time *)

Definition is_release (st : Stage) : bool := match st with Release => true | _ => false end.
Definition is_check (st : Stage) : bool :=
  match st with Check _ | Compiling _ _ _ _ | Store _ _ _ _ => true | _ => false end.
Definition count (p : Stage → bool) (t : list Stage) : nat := length (List.filter p t).
Definition count_all (p : Stage → bool) (ts : list (list Stage)) : nat := list_sum (count p <$> ts).

Lemma count_app p t u : count p (t ++ u) = (count p t + count p u)%nat.
Proof. unfold count. by rewrite List.filter_app, length_app. Qed.
Lemma count_cons p st t : count p (st :: t) = ((if p st then 1 else 0) + count p t)%nat.
Proof. unfold count. cbn. by destruct (p st). Qed.
Lemma count_all_app p ts us : count_all p (ts ++ us) = (count_all p ts + count_all p us)%nat.
Proof. unfold count_all. by rewrite fmap_app, list_sum_app. Qed.
Lemma count_all_insert p ts k t t' : ts !! k = Some t →
  (count_all p (<[k := t']> ts) + count p t = count_all p ts + count p t')%nat.
Proof.
  intros Hk. rewrite <-(take_drop_middle ts k t Hk) at 2.
  rewrite (insert_take_drop ts k t') by (by eapply lookup_lt_Some).
  rewrite !count_all_app. unfold count_all, list_sum. cbn. lia.
Qed.
(** From any stage on, a task checks no more often than it releases. *)
Fixpoint guarded (t : list Stage) : Prop :=
  match t with [] => True | _ :: rest => (count is_check t ≤ count is_release t)%nat ∧ guarded rest end.
Lemma guarded_counts t : guarded t → (count is_check t ≤ count is_release t)%nat.
Proof. destruct t; [done|]. by intros [? _]. Qed.
Lemma guarded_app t rest : guarded rest → (count is_check t + count is_check rest ≤ count is_release rest)%nat → guarded (t ++ rest).
Proof.
  intros Hr. induction t as [|st t IH]; [done|]. rewrite count_cons. intros Hc. cbn [app guarded].
  rewrite !count_cons, !count_app. split; [lia|]. apply IH. lia.
Qed.
Definition exclusive (w : World) : Prop :=
  count_all is_release (tasks w) = (if javac_running (server w) then 1 else 0)%nat ∧ Forall guarded (tasks w).

Lemma request_stages r s : let '(s', t) := on_request r s in
  guarded t
  ∧ ((if javac_running s then 1 else 0) + count is_release t = (if javac_running s' then 1 else 0))%nat.
Proof.
  destruct r as [uri v t|uri v t|uri|uri| | |scope]; handlers;
    try (destruct (documents s !! uri)); try (destruct (declarations_changed _ _));
    try (destruct (javac_running s) eqn:E); unfold guarded, count; cbn; rewrite ?E; repeat split; lia.
Qed.
Lemma compiled_checks ms sv sg t0 now bf res s :
  (count is_check (compiled ms sv sg t0 now bf res s) ≤ 1)%nat ∧ count is_release (compiled ms sv sg t0 now bf res s) = 0%nat.
Proof. unfold compiled, count. repeat case_match; cbn; lia. Qed.
Lemma run_stage_counts now input st s : let '(s', t) := run_stage now input st s in
  (count is_check t ≤ if is_check st then 1 else 0)%nat ∧ count is_release t = 0%nat
  ∧ javac_running s' = (if is_release st then false else javac_running s).
Proof.
  destruct st as [b|g [|[[uri ds] v] items]|uri v|[|uris]|ms sv sg t0|ms gr sv t0|]; stages;
    try (destruct b); try (destruct g as [g|]; [destruct (_ =? _)%nat|]); try (destruct (has_project_root _));
    try (destruct (plan_modules _ _ _)); try (destruct input as [|bf res]); try by (split_and!; cbn; lia || done).
  destruct (compiled_checks ms sv sg t0 now bf res s) as [H1 H2]. rewrite H2. by split_and!.
Qed.
Lemma exclusive_reachable e w : reachable e w → exclusive w.
Proof.
  intros Hr. induction Hr as [|w l Hr [IHr IHg] _]; [by split|].
  destruct l as [r|e'|k input]; cbn [step]; [|by split|].
  - pose proof (request_stages r (server w)) as Hq. destruct (on_request r (server w)) as [s t]. destruct Hq as [Hg Hc].
    unfold exclusive, note_request. cbn [tasks server]. split; [|apply Forall_app; by repeat constructor].
    rewrite count_all_app, IHr. unfold count_all at 1, list_sum. cbn. lia.
  - destruct (tasks w !! k) as [[|st rest]|] eqn:Ek; [by split| |by split].
    pose proof (run_stage_counts (clock w) input st (server w)) as Hc.
    destruct (run_stage (clock w) input st (server w)) as [s t]. destruct Hc as (Hc & Hl & Hj).
    assert (Hg : guarded (st :: rest)) by (eapply Forall_lookup in IHg; done).
    destruct Hg as [Hg Hrest]. rewrite !count_cons in Hg. pose proof (guarded_counts _ Hrest).
    unfold exclusive, note_stage. cbn [tasks server]. split.
    + pose proof (count_all_insert is_release (tasks w) k _ (t ++ rest) Ek) as Hi.
      rewrite count_cons, count_app, Hl, IHr in Hi. rewrite Hj. destruct (is_release st); destruct (javac_running (server w)); lia.
    + apply Forall_insert; [done|]. apply guarded_app; [done|]. destruct st; cbn in Hc, Hg; lia.
Qed.

(** ** Compiler results and edits *)

Definition before_time (m : gmap string nat) (uri : string) (t : nat) : Prop :=
  match m !! uri with Some c => (c < t)%nat | None => True end.
Definition since (m : gmap string nat) (uri : string) (t : nat) : Prop :=
  match m !! uri with Some c => (t ≤ c)%nat | None => False end.
(** A run that began at [t] saw the last edit of [uri], or [uri] was closed
    since. *)
Definition saw (w : World) (uri : string) (t : nat) : Prop :=
  before_time (changed_at w) uri t ∨ since (closed_at w) uri t.

Definition run_ok (w : World) (sv : gmap string Z) (t0 : nat) : Prop :=
  (t0 < clock w)%nat ∧ ∀ uri,
    match documents (server w) !! uri with
    | Some doc => ∀ v, sv !! uri = Some v →
        since (closed_at w) uri t0 ∨ (v ≤ d_version doc ∧ (v = d_version doc → before_time (changed_at w) uri t0))
    | None => (∀ v, sv !! uri = Some v → since (closed_at w) uri t0) ∧ saw w uri t0
    end.
Definition started_ok (w : World) (st : Stage) : Prop :=
  match st with Compiling _ sv _ t0 | Store _ _ sv t0 => run_ok w sv t0 | _ => True end.
Definition times_ok (w : World) : Prop :=
  ∀ uri, before_time (changed_at w) uri (clock w) ∧ before_time (closed_at w) uri (clock w).

Lemma times_reachable e w : reachable e w → times_ok w.
Proof.
  intros Hr. induction Hr as [|w l Hr IH _]; [intros uri; by split|].
  assert (Hlater : ∀ m uri, before_time m uri (clock w) → before_time m uri (S (clock w))).
  { intros m uri. unfold before_time. destruct (m !! uri); [lia|done]. }
  assert (Hset : ∀ m u uri, before_time m uri (clock w) → before_time (<[u := clock w]> m) uri (S (clock w))).
  { intros m u uri Hm. unfold before_time. destruct (decide (u = uri)) as [->|Hne].
    - rewrite lookup_insert_eq. lia.
    - rewrite lookup_insert_ne by done. by apply Hlater. }
  intros uri. destruct (IH uri) as [H1 H2]. destruct l as [r|e'|k input]; cbn [step].
  - destruct (on_request r (server w)) as [s t]. cbn. destruct r; try case_match; auto.
  - cbn. auto.
  - destruct (tasks w !! k) as [[|st rest]|]; [done| |done]. destruct (run_stage _ _ _ _). cbn. auto.
Qed.

#[local] Ltac fields :=
  cbn [documents set_documents bump_semantic bump_provider set_javac javac server note_request closed_at changed_at clock].

(** What requests do to one document, as far as runs are concerned. *)
Lemma run_ok_request r w sv t0 : allowed w (Request_ r) → run_ok w sv t0 →
  let '(s, t) := on_request r (server w) in run_ok (note_request r w s t) sv t0.
Proof.
  intros Ha [Ht Hu].
  assert (Hkeep : ∀ s t ch cl, documents s = documents (server w) → ch = changed_at w → cl = closed_at w →
    ∀ o, run_ok (mkWorld s t (S (clock w)) ch cl o) sv t0).
  { intros s t ch cl E -> -> o. split; [cbn; lia|]. intros uri. specialize (Hu uri). cbn. by rewrite E. }
  destruct r as [uri v x|uri v x|uri|uri| | |scope]; handlers; try by apply Hkeep.
  - split; [cbn; lia|]. intros u. specialize (Hu u). cbn [allowed] in Ha. fields. destruct (decide (uri = u)) as [->|Hne].
    + rewrite lookup_insert_eq. rewrite Ha in Hu. intros v' Hv. left. by eapply Hu.
    + by rewrite lookup_insert_ne.
  - cbn in Ha. destruct (documents (server w) !! uri) as [doc|] eqn:Ed; [|].
    2:{ unfold note_request. rewrite Ed. by apply Hkeep. }
    assert (Hgoal : ∀ s t, documents s = <[uri := mkDocument v x]> (documents (server w)) →
      run_ok (note_request (DidChange uri v x) w s t) sv t0).
    { intros s t Es. split; [cbn; lia|]. intros u. specialize (Hu u). fields. rewrite Es, Ed.
      destruct (decide (uri = u)) as [->|Hne].
      - rewrite lookup_insert_eq. rewrite Ed in Hu. intros v' Hv. destruct (Hu v' Hv) as [Hc|[Hle _]]; [by left|].
        right. specialize (Ha doc eq_refl). cbn [d_version]. split; lia.
      - rewrite !lookup_insert_ne by done. destruct (documents (server w) !! u) as [doc'|].
        + intros v' Hv. destruct (Hu v' Hv) as [Hc|[Hle Hb]]; [by left|right]. split; [done|]. intros E.
          unfold before_time. rewrite lookup_insert_ne by done. by apply Hb.
        + destruct Hu as [H1 [H2|H2]]; (split; [done|]); [left|by right]. unfold before_time. fields.
          by rewrite Ed, lookup_insert_ne. }
    destruct (declarations_changed _ _); by apply Hgoal.
  - split; [cbn; lia|]. intros u. specialize (Hu u). fields.
    destruct (decide (uri = u)) as [->|Hne].
    + rewrite lookup_delete_eq. unfold saw, since. fields. rewrite lookup_insert_eq. split; [|right]; lia.
    + rewrite lookup_delete_ne by done. unfold saw, since. fields. by rewrite lookup_insert_ne.
  - destruct (javac_running (server w)); by apply Hkeep.
Qed.

Lemma run_ok_kept w s t o sv t0 : documents s = documents (server w) → run_ok w sv t0 →
  run_ok (mkWorld s t (S (clock w)) (changed_at w) (closed_at w) o) sv t0.
Proof. intros E [Ht Hu]. split; [cbn; lia|]. intros uri. specialize (Hu uri). cbn. by rewrite E. Qed.
Lemma run_ok_now w s t o : times_ok w → documents s = documents (server w) →
  run_ok (mkWorld s t (S (clock w)) (changed_at w) (closed_at w) o) (versions (documents (server w))) (clock w).
Proof.
  intros Ht E. split; [cbn; lia|]. intros uri. destruct (Ht uri) as [Hc _]. fields. rewrite E. unfold versions.
  rewrite lookup_fmap. destruct (documents (server w) !! uri) as [doc|].
  - intros v [= <-]. by right.
  - split; [done|by left].
Qed.

Lemma started_stages e : ∀ w, reachable e w → ∀ st, has_stage w st → started_ok w st.
Proof.
  apply stages_invariant.
  - intros r w st _ Ha Hst. destruct (on_request r (server w)) as [s t] eqn:E.
    destruct st; try done; cbn in *; pose proof (run_ok_request r w start_versions started Ha Hst) as Hq; by rewrite E in Hq.
  - intros e' w st _ Hst. destruct st; try done; by apply run_ok_kept.
  - intros k input st0 rest w st _ Hk Hst. destruct (stage_moved (clock w) input st0 (server w)) as [Ed _].
    destruct (run_stage _ _ _ _) as [s t]. destruct st; try done; by apply run_ok_kept.
  - intros r w _ _. destruct (on_request r (server w)) as [s t] eqn:E. intros st Hst.
    assert (Ht : t = (on_request r (server w)).2) by by rewrite E. subst t. clear E.
    destruct r as [uri v x|uri v x|uri|uri| | |scope]; handlers in Hst;
      try (destruct (documents _ !! _)); try (destruct (declarations_changed _ _)); try (destruct (javac_running _));
      repeat (apply elem_of_cons in Hst as [->|Hst]; [done|]); by apply elem_of_nil in Hst.
  - intros k input st0 rest w Hr Hk Hst0. pose proof (times_reachable e w Hr) as Ht.
    destruct st0 as [b|g [|[[uri ds] v] items]|uri v|[|uris]|ms sv sg t0|ms gr sv t0|]; stages.
    + destruct b; by intros st ->%list_elem_of_singleton.
    + by intros st ?%elem_of_nil.
    + destruct g as [g|]; [destruct (_ =? _)%nat; [|by intros st ?%elem_of_nil]|]; by intros st ->%list_elem_of_singleton.
    + by intros st ->%list_elem_of_singleton.
    + destruct (has_project_root _); [|by intros st ?%elem_of_nil]. intros st ->%list_elem_of_singleton. by apply run_ok_now.
    + destruct (plan_modules _ _ _); [|by intros st ?%elem_of_nil]. intros st ->%list_elem_of_singleton. by apply run_ok_now.
    + destruct input as [|bf res]; [intros st ->%list_elem_of_singleton; by apply run_ok_kept|]. unfold compiled.
      intros st. repeat case_match; try (by intros ?%elem_of_nil); intros ->%list_elem_of_singleton; try done;
        (by apply run_ok_kept) || by apply run_ok_now.
    + by intros st ->%list_elem_of_singleton.
    + by intros st ?%elem_of_nil.
Qed.

Definition entries_ok (w : World) : Prop :=
  ∀ uri ds, javac (server w) !! uri = Some ds → ∃ t, origin w !! uri = Some t ∧ saw w uri t.

Lemma entries_request r w : entries_ok w → times_ok w → (∀ uri t, origin w !! uri = Some t → (t < clock w)%nat) →
  let '(s, t) := on_request r (server w) in entries_ok (note_request r w s t).
Proof.
  intros He Ht Ho. destruct (on_request r (server w)) as [s t] eqn:E. intros uri ds Hj. cbn in Hj.
  assert (Hold : javac (server w) !! uri = Some ds ∧ ∀ v x, r = DidChange uri v x → documents (server w) !! uri = None).
  { assert (Es : s = (on_request r (server w)).1) by by rewrite E. rewrite Es in Hj. clear Es E.
    destruct r as [u v x|u v x|u|u| | |scope]; handlers in Hj; try by split.
    - destruct (documents (server w) !! u) as [doc|] eqn:Ed.
      + assert (Hd : delete u (javac (server w)) !! uri = Some ds) by (destruct (declarations_changed _ _); exact Hj).
        apply lookup_delete_Some in Hd as [Hne Hd]. split; [done|]. intros v' x' [= -> _ _]. done.
      + split; [done|]. intros v' x' [= -> _ _]. done.
    - destruct (javac_running _); by split. }
  destruct Hold as [Hold Hne]. destruct (He uri ds Hold) as (t0 & Hot & Hsaw). exists t0. split; [done|].
  pose proof (Ho _ _ Hot) as Hlt. unfold saw in *. destruct r as [u v x|u v x|u|u| | |scope]; try done; fields.
  - destruct (documents (server w) !! u) as [doc|] eqn:Ed; [|done]. destruct (decide (u = uri)) as [->|Hu].
    + rewrite (Hne v x eq_refl) in Ed. done.
    + unfold before_time. by rewrite lookup_insert_ne.
  - destruct (decide (u = uri)) as [->|Hu].
    + right. unfold since. rewrite lookup_insert_eq. lia.
    + unfold since. by rewrite lookup_insert_ne.
Qed.

Definition origins_past (w : World) : Prop := ∀ uri t, origin w !! uri = Some t → (t < clock w)%nat.

Lemma revision_saw w sv t0 m uri ds : run_ok w sv t0 →
  revision_filter (documents (server w)) sv m !! uri = Some ds → saw w uri t0.
Proof.
  intros [_ Hu]. unfold revision_filter. rewrite map_lookup_filter_Some. cbn. intros [_ Hc]. specialize (Hu uri).
  unfold is_current in Hc. destruct (documents (server w) !! uri) as [doc|]; [|by destruct Hu].
  apply bool_decide_eq_true in Hc. destruct (Hu _ Hc) as [Hs|[_ Hb]]; [by right|left; auto].
Qed.
(** The environment may change before a store, but not what its runs saw. *)
Lemma entries_store ms gr sv t0 w k t : entries_ok w → run_ok w sv t0 →
  entries_ok (note_stage (Store ms gr sv t0) w (store ms gr sv (server w)).1 k t).
Proof.
  intros He Hr uri ds Hj. unfold store in Hj. cbn [note_stage server set_javac javac fst] in Hj.
  set (new := revision_filter _ sv _) in *. unfold saw, note_stage. cbn [origin changed_at closed_at]. fold new.
  destruct (new !! uri) as [ds'|] eqn:En.
  - exists t0. rewrite lookup_union_l' by (rewrite lookup_fmap, En; by eexists). rewrite lookup_fmap, En.
    split; [done|]. by eapply revision_saw.
  - assert (Hold : javac (server w) !! uri = Some ds).
    { destruct ms as [roots|]; cbn in Hj; [|by rewrite En in Hj]. rewrite lookup_union_r in Hj by done.
      by apply map_lookup_filter_Some in Hj as [Hj _]. }
    destruct (He _ _ Hold) as (t1 & Ho & Hs). exists t1. rewrite lookup_union_r; [done|]. by rewrite lookup_fmap, En.
Qed.
Definition is_store (st : Stage) : bool := match st with Store _ _ _ _ => true | _ => false end.
Lemma stage_javac now input st s : is_store st = false →
  ∀ uri ds, javac (run_stage now input st s).1 !! uri = Some ds → javac s !! uri = Some ds.
Proof.
  intros Hst uri ds. destruct st as [b|g [|[[u dd] v] items]|u v|[|uris]|ms sv sg t0|ms gr sv t0|]; stages; try done.
  - destruct b; cbn; [|done]. by intros [? _]%map_lookup_filter_Some.
  - by destruct g; [destruct (_ =? _)%nat|].
  - by destruct input.
Qed.
Lemma entries_reachable e w : reachable e w → entries_ok w ∧ origins_past w.
Proof.
  intros Hr. induction Hr as [|w l Hr [He Ho] Ha]; [by split; intros ??|].
  pose proof (times_reachable e w Hr) as Ht. destruct l as [r|e'|k input]; cbn [step].
  - pose proof (entries_request r w He Ht Ho) as Hq. destruct (on_request r (server w)) as [s t]. split; [done|].
    intros uri t1 Ho1. cbn in *. specialize (Ho _ _ Ho1). lia.
  - split; [exact He|]. intros uri t1 Ho1. cbn in *. specialize (Ho _ _ Ho1). lia.
  - destruct (tasks w !! k) as [[|st rest]|] eqn:Ek; [by split| |by split].
    pose proof (started_stages e w Hr st) as Hs. assert (Hst : has_stage w st) by (exists k, (st :: rest); split; [done|by left]).
    specialize (Hs Hst). destruct (run_stage (clock w) input st (server w)) as [s t] eqn:E.
    assert (Es : s = (run_stage (clock w) input st (server w)).1) by by rewrite E.
    destruct (is_store st) eqn:Hstore.
    + destruct st as [| | | | |ms gr sv t0|]; try done. cbn [started_ok] in Hs.
      assert (Es' : s = (store ms gr sv (server w)).1) by (rewrite Es; cbn; by destruct (store ms gr sv (server w))).
      rewrite Es'. split; [by apply entries_store|]. intros uri t1 Ho1. cbn in Ho1 |- *.
      apply lookup_union_Some_raw in Ho1 as [Ho1|[_ Ho1]]; [|specialize (Ho _ _ Ho1); lia].
      rewrite lookup_fmap in Ho1. destruct (revision_filter _ _ _ !! uri); [|done]. injection Ho1 as <-. destruct Hs. lia.
    + assert (Ew : origin (note_stage st w s k (t ++ rest)) = origin w) by by destruct st.
      split.
      * intros uri ds Hj. cbn [server note_stage] in Hj. rewrite Es in Hj.
        apply stage_javac in Hj; [|done]. rewrite Ew. exact (He uri ds Hj).
      * intros uri t1. rewrite Ew. intros Ho1. specialize (Ho _ _ Ho1). cbn. lia.
Qed.

(** ** The theorems *)

(** C25: Whatever handlers interleave, a refresh pass never overwrites what is
    fresher than its documents.  A pass whose generation a newer one has
    superseded publishes nothing and ends.  One that has not been superseded
    began at a moment since when no document has changed; it publishes next
    what it found then for one of the open documents, with the version that
    document has, or has nothing left.  The environment and the compiler's
    results it found are those of that moment too, but they may have changed
    since, which raises no generation ([refresh_hides_results]). *)
Theorem refresh_never_stale e w k input g items rest :
  reachable e w → tasks w !! k = Some (Publish (Some g) items :: rest) →
  let w' := step w (Task_ k input) in
  (semantic_generation (server w) ≠ g → shown (server w') = shown (server w) ∧ tasks w' !! k = Some rest)
  ∧ (semantic_generation (server w) = g → ∃ w0 all_open,
       pass_began w g items w0 all_open ∧ documents (server w0) = documents (server w)
       ∧ match items with
         | [] => shown (server w') = shown (server w) ∧ tasks w' !! k = Some rest
         | (uri, ds, version) :: items' =>
             ∃ doc, documents (server w) !! uri = Some doc ∧ version = Some (d_version doc)
               ∧ ds = compute_diagnostics (env (server w0)) (documents (server w)) (javac (refresh all_open (server w0)).1) uri
               ∧ shown (server w') = <[uri := (ds, version)]> (shown (server w))
               ∧ tasks w' !! k = Some (Publish (Some g) items' :: rest)
         end).
Proof.
  intros Hr Hk. assert (Hlen : (k < length (tasks w))%nat) by (by eapply lookup_lt_Some).
  pose proof (refresh_stages e w Hr (Publish (Some g) items)) as Hs.
  destruct Hs as (w0 & b & Hw & Hg & Hp); [exists k, (Publish (Some g) items :: rest); split; [done|by left]|].
  cbn [step]. rewrite Hk. split.
  - intros E. destruct items as [|[[uri ds] v] items]; stages.
    + split; [done|]. cbn. by rewrite list_lookup_insert_eq.
    + destruct (Nat.eqb_spec (semantic_generation (server w)) g); [done|]. split; [done|]. cbn. by rewrite list_lookup_insert_eq.
  - intros E. exists w0, b. split; [done|]. destruct (later_moved _ _ Hw) as [_ Hd].
    assert (Ed : documents (server w0) = documents (server w)) by (symmetry; apply Hd; lia). split; [done|].
    destruct items as [|[[uri ds] v] items]; stages.
    + split; [done|]. cbn. by rewrite list_lookup_insert_eq.
    + destruct Hp as [published Hp].
      assert (Hin : (uri, ds, v) ∈ pass_items b w0) by (rewrite Hp; apply elem_of_app; right; by left).
      apply list_elem_of_fmap in Hin as (u & Hi & [doc Hdoc]%walk_order_elem).
      assert (Eb : documents (refresh b (server w0)).1 = documents (server w0) ∧ env (refresh b (server w0)).1 = env (server w0))
        by by destruct b.
      destruct Eb as [Eb1 Eb2]. unfold item_of in Hi. rewrite Eb1, Eb2, Ed in Hi. injection Hi as -> -> ->.
      rewrite Ed in Hdoc. exists doc. rewrite Hdoc. rewrite E, Nat.eqb_refl. split_and!; [done..|].
      cbn. by rewrite list_lookup_insert_eq.
Qed.

(** At most one check is anywhere between its start and its end, the flag is
    up exactly while one is, and so a check asked for meanwhile starts
    nothing. *)
Theorem checks_single_flight e w : reachable e w →
  (count_all is_check (tasks w) ≤ 1)%nat
  ∧ (javac_running (server w) = true ↔ count_all is_release (tasks w) = 1%nat)
  ∧ ∀ scope, javac_running (server w) = true → on_request (ExecuteCheck scope) (server w) = (server w, []).
Proof.
  intros [Hr Hg]%exclusive_reachable. split_and!.
  - assert (Hle : (count_all is_check (tasks w) ≤ count_all is_release (tasks w))%nat); [|destruct (javac_running (server w)); lia].
    unfold count_all, list_sum. clear Hr. induction Hg as [|t ts Ht _ IH]; [done|].
    pose proof (guarded_counts _ Ht). cbn in *. lia.
  - rewrite Hr. by destruct (javac_running (server w)).
  - intros scope E. handlers. by rewrite E.
Qed.

(** C26: Compiler diagnostics kept for a document come from a run that began after
    its last edit, or the document was closed since that run began. *)
Theorem javac_results_current e w uri ds : reachable e w → javac (server w) !! uri = Some ds →
  ∃ began, origin w !! uri = Some began ∧ (began < clock w)%nat
  ∧ (before_time (changed_at w) uri began ∨ since (closed_at w) uri began).
Proof.
  intros Hr Hj. destruct (entries_reachable e w Hr) as [He Ho]. destruct (He uri ds Hj) as (t & Ht & Hs).
  exists t. split_and!; [done|by eapply Ho|exact Hs].
Qed.

(** ** Handlers end *)

Inductive goes_on (t : list Stage) : list Stage → Prop :=
| goes_on_stage st rest now input s : t = st :: rest →
    (match st with Compiling _ _ _ _ => input ≠ Nothing | _ => True end) →
    goes_on t ((run_stage now input st s).2 ++ rest).
Definition rank (st : Stage) : nat :=
  match st with
  | Check (Modules _) => 5 | Compiling (Some _) _ _ _ => 4 | Check Project => 3 | Compiling None _ _ _ => 2
  | Refresh _ | Recheck _ _ | Store _ _ _ _ => 1 | Publish _ _ | Release => 0
  end.
Definition weight (st : Stage) : nat := match st with Publish _ items => S (length items) | Release => 1 | _ => 0 end.
Definition total (f : Stage → nat) (t : list Stage) : nat := list_sum (f <$> t).
Lemma total_cons f st t : total f (st :: t) = (f st + total f t)%nat.
Proof. done. Qed.
Lemma total_app f t u : total f (t ++ u) = (total f t + total f u)%nat.
Proof. unfold total. by rewrite fmap_app, list_sum_app. Qed.
Lemma stage_decreases now input st s : (match st with Compiling _ _ _ _ => input ≠ Nothing | _ => True end) →
  (total rank (run_stage now input st s).2 < rank st)%nat
  ∨ (total rank (run_stage now input st s).2 = rank st ∧ (total weight (run_stage now input st s).2 < weight st)%nat).
Proof.
  intros Hst. destruct st as [b|g [|[[u dd] v] items]|u v|[|uris]|ms sv sg t0|ms gr sv t0|]; stages.
  - left. destruct b; cbn; lia.
  - right. split; [done|]. cbn. lia.
  - right. destruct g as [g|]; [destruct (_ =? _)%nat|]; (split; [done|]); cbn; lia.
  - left. cbn. lia.
  - left. destruct (has_project_root _); cbn; lia.
  - left. destruct (plan_modules _ _ _); cbn; lia.
  - left. destruct input as [|bf res]; [done|]. unfold compiled. cbn [snd].
    destruct ms; repeat case_match; cbn; lia.
  - left. cbn. lia.
  - right. split; [done|]. cbn. lia.
Qed.

(** Every handler ends: its own steps, whatever the others do to the server
    between them, cannot go on for ever once the compiler answers.  A scoped
    check that turns out to touch other modules runs the whole project at most
    once. *)
Theorem handlers_terminate t : Acc (λ t' t, goes_on t t') t.
Proof.
  remember (total rank t) as a eqn:Ea. remember (total weight t) as b eqn:Eb. revert b t Ea Eb.
  induction (lt_wf a) as [a _ IHa]. intros b. induction (lt_wf b) as [b _ IHb]. intros t -> ->.
  constructor. intros t' [st rest now input s -> Hst].
  destruct (stage_decreases now input st s Hst) as [Hlt|[Heq Hlt]].
  - eapply IHa; [|reflexivity..]. rewrite total_app, total_cons. lia.
  - eapply IHb; [|by rewrite total_app, total_cons, Heq|reflexivity]. rewrite total_app, total_cons. lia.
Qed.
End Safety.

(** ** What goes wrong *)

Module Sample.
(** Two files, [A] and [B]; [B] does not compile unless [A] declares [m]. *)
#[local] Instance sample : Workspace := {|
  Env := unit;
  native _ docs uri :=
    if bool_decide (uri = "B") && negb (bool_decide (d_text <$> docs !! "A" = Some "m"))
    then [mkDiagnostic (mkRange (mkPosition 1 0) (mkPosition 1 1)) (Some ERROR) (Some (Code "jvl.cannotFindSymbol"))
            (Some "java-vsix-lite") "cannot find symbol"] else [];
  declarations_changed a b := negb (bool_decide (a = b));
  plan_modules _ _ _ := None;
  uri_of_path p := Some p;
  uri_in_modules _ _ _ := false;
  path_in_modules _ _ _ := true;
  walk_order A m := (map_to_list m).*1;
  has_project_root _ := true |}.
#[local] Instance sample_laws : WalkLaws.
Proof. by split. Qed.

Definition go (k : nat) : Step := Task_ k Nothing.
Definition at_end (ls : list Step) : World := run (start tt) ls.
Definition drain (k : nat) : list Step := go k :: go k :: go k :: go k :: [].
Definition opened : list Step :=
  Request_ (DidOpen "A" 1 "n") :: drain 0 ++ Request_ (DidOpen "B" 1 "x") :: drain 1.
Definition shown_now (ls : list Step) (uri : string) : option (list Diagnostic) :=
  fst <$> shown (server (run (start tt) ls)) !! uri.
Definition due_now (ls : list Step) (uri : string) : list Diagnostic :=
  let s := server (run (start tt) ls) in compute_diagnostics (env s) (documents s) (javac s) uri.
Definition settled (ls : list Step) : bool := forallb (λ t, bool_decide (length t = 0%nat)) (tasks (run (start tt) ls)).

(** A declaration of [A] is added, and the file is saved while the other
    documents are being refreshed: the pass ends, no other begins, and [B]
    keeps showing an error it no longer has. *)
Definition saved_meanwhile : list Step :=
  opened ++ [Request_ (DidChange "A" 2 "m"); go 2; go 2; Request_ (DidSave "A"); go 2].
Lemma refresh_cut_short :
  settled saved_meanwhile = true ∧ length <$> shown_now saved_meanwhile "B" = Some 1%nat ∧ due_now saved_meanwhile "B" = [].
Proof. by vm_compute. Qed.

Definition lint : Diagnostic :=
  mkDiagnostic (mkRange (mkPosition 4 0) (mkPosition 4 1)) (Some WARNING) None (Some "javac") "deprecated".
Definition compiled_b (k : nat) : Step :=
  Task_ k (Compiler None (CompletedCheck {["B" := [lint]]} 0 1)).
Definition check (k : nat) : list Step := [Request_ (ExecuteCheck Project); go k; compiled_b k; go k].

(** A check's results reach the editor while a refresh pass that began before
    them is still publishing: the pass takes the compiler's diagnostics of [B]
    off the editor though the server keeps them. *)
Definition checked_meanwhile : list Step :=
  opened ++ [Request_ RebuildClasspath; go 2; go 2] ++ check 3 ++ drain 3 ++ drain 2.
Lemma refresh_hides_results :
  settled checked_meanwhile = true ∧ bool_decide (lint ∈ default [] (shown_now checked_meanwhile "B")) = false
  ∧ bool_decide (lint ∈ due_now checked_meanwhile "B") = true.
Proof. by vm_compute. Qed.

(** [B] is edited after a check's results were computed and before they are
    sent: they are sent all the same, and stay. *)
Definition edited_meanwhile : list Step :=
  opened ++ check 2 ++ Request_ (DidChange "B" 2 "y") :: drain 3 ++ drain 2.
Lemma stale_results_sent :
  settled edited_meanwhile = true ∧ bool_decide (lint ∈ default [] (shown_now edited_meanwhile "B")) = true
  ∧ bool_decide (lint ∈ due_now edited_meanwhile "B") = false.
Proof. by vm_compute. Qed.

Lemma sample_reachable ls : (∀ n l, ls !! n = Some l → allowed (run (start tt) (take n ls)) l) →
  reachable tt (run (start tt) ls).
Proof.
  induction ls as [|l ls IH] using rev_ind; intros Ha; [constructor|]. unfold run. rewrite fold_left_app. cbn. constructor.
  - apply IH. intros n x Hx. specialize (Ha n x). rewrite lookup_app_l, take_app_le in Ha
      by (apply lookup_lt_Some in Hx; lia). by apply Ha.
  - specialize (Ha (length ls) l). rewrite lookup_app_r, Nat.sub_diag, take_app_length in Ha by lia. by apply Ha.
Qed.
Definition allowed_b (w : World) (l : Step) : bool :=
  match l with
  | Request_ (DidOpen uri _ _) => bool_decide (documents (server w) !! uri = None)
  | Request_ (DidChange uri version _) =>
      match documents (server w) !! uri with Some doc => d_version doc <? version | None => true end
  | _ => true
  end.
Lemma allowed_b_spec w l : allowed_b w l = true → allowed w l.
Proof.
  destruct l as [[]| |]; try done; cbn; [by intros ?%bool_decide_eq_true|]. intros Hv doc Hd. rewrite Hd in Hv. lia.
Qed.
Lemma reachable_b ls : forallb (λ n, match ls !! n with Some l => allowed_b (run (start tt) (take n ls)) l | None => true end)
  (List.seq 0 (length ls)) = true → reachable tt (run (start tt) ls).
Proof.
  intros H. apply sample_reachable. intros n l Hl. apply allowed_b_spec. rewrite forallb_forall in H. specialize (H n).
  rewrite Hl in H. apply H, in_seq. apply lookup_lt_Some in Hl. lia.
Qed.

Definition mid_refresh : list Step := opened ++ [Request_ (DidChange "A" 2 "m"); go 2; go 2].
Lemma refresh_never_stale_witness :
  let w := at_end mid_refresh in
  let w' := step w (go 2) in
  ∃ w0 all_open doc, later w0 w ∧ documents (server w) !! "B" = Some doc
  ∧ shown (server w') = <[ "B" := (compute_diagnostics (env (server w0)) (documents (server w))
                                    (javac (refresh all_open (server w0)).1) "B", Some (d_version doc))]> (shown (server w)).
Proof.
  destruct (@refresh_never_stale sample sample_laws tt (at_end mid_refresh) 2 Nothing 3 [("B", [], Some 1)] []) as [_ H].
  - apply reachable_b. by vm_compute.
  - by vm_compute.
  - destruct H as (w0 & b & (Hw & _) & _ & doc & Hd & Hv & Hds & Hsh & _); [by vm_compute|].
    exists w0, b, doc. split; [exact Hw|]. split; [exact Hd|]. rewrite <-Hds, <-Hv. exact Hsh.
Defined.
(** A save meanwhile supersedes the pass. *)
Example superseded_pass_ends :
  let w := at_end (mid_refresh ++ [Request_ (DidSave "A")]) in
  shown (server (step w (go 2))) = shown (server w) ∧ tasks (step w (go 2)) !! 2%nat = Some [].
Proof. by vm_compute. Qed.
Lemma checks_single_flight_witness : (count_all is_check (tasks (at_end (opened ++ check 2))) ≤ 1)%nat.
Proof. apply (@checks_single_flight sample tt). apply reachable_b. by vm_compute. Defined.
Lemma javac_results_current_witness :
  ∃ began, origin (at_end (opened ++ check 2)) !! "B" = Some began
  ∧ (began < clock (at_end (opened ++ check 2)))%nat
  ∧ (before_time (changed_at (at_end (opened ++ check 2))) "B" began
     ∨ since (closed_at (at_end (opened ++ check 2))) "B" began).
Proof.
  apply (@javac_results_current sample tt (at_end (opened ++ check 2)) "B" [lint]).
  - apply reachable_b. by vm_compute.
  - by vm_compute.
Defined.
End Sample.

End Checks.
