(* ===== verification/SyntaxTree.v ===== *)
(** * Parse trees

    What the analysis reads of a [tree_sitter::Tree]: the tree the parser
    returned as data, and a [Node] as a place in it, a subtree with what
    encloses it.  The parser itself is not modelled: theorems hold of every
    tree, or of every tree that fits its source where they need to. *)
From S2P Require Import Prelude RustStd Utf8 LineIndex.
Import LineIndex(slice).

Record Info := mkInfo {
  i_kind : string; i_named : bool; i_field : option string; i_id : nat;
  i_start : nat; i_end : nat; i_start_row : nat; i_end_row : nat;
  i_error : bool; i_missing : bool; i_has_error : bool }.
Inductive Tree := Branch (i : Info) (cs : list Tree).

Definition info (t : Tree) : Info := let 'Branch i _ := t in i.
Definition subtrees (t : Tree) : list Tree := let 'Branch _ cs := t in cs.

(** A place: the subtree there and the subtrees it lies in, innermost first. *)
Record Node := mkNode { here : Tree; above : list Tree }.
Definition root_node (t : Tree) : Node := mkNode t [].

Section Accessors.
Context (n : Node).
Definition kind : string := i_kind (info (here n)).
Definition is_named : bool := i_named (info (here n)).
Definition node_id : nat := i_id (info (here n)).
Definition start_byte : nat := i_start (info (here n)).
Definition end_byte : nat := i_end (info (here n)).
Definition start_row : nat := i_start_row (info (here n)).
Definition end_row : nat := i_end_row (info (here n)).
Definition is_error : bool := i_error (info (here n)).
Definition is_missing : bool := i_missing (info (here n)).
Definition has_error : bool := i_has_error (info (here n)).
Definition parent : option Node :=
  match above n with [] => None | t :: up => Some (mkNode t up) end.
Definition children : list Node := (λ t, mkNode t (here n :: above n)) <$> subtrees (here n).
End Accessors.

(** Innermost first. *)
Fixpoint ancestors_from (up : list Tree) : list Node :=
  match up with [] => [] | t :: up => mkNode t up :: ancestors_from up end.
Definition ancestors (n : Node) : list Node := ancestors_from (above n).

Definition named_children (n : Node) : list Node := List.filter is_named (children n).
Definition field_of (c : Node) : option string := i_field (info (here c)).
Definition children_by_field_name (f : string) (n : Node) : list Node :=
  List.filter (λ c, bool_decide (field_of c = Some f)) (children n).
Definition child_by_field_name (f : string) (n : Node) : option Node := head (children_by_field_name f n).
Definition child_of_kind (k : string) (n : Node) : option Node :=
  List.find (λ c, bool_decide (kind c = k)) (named_children n).
Definition has_child_kind (n : Node) (k : string) : bool := existsb (λ c, bool_decide (kind c = k)) (children n).
(** Nodes of one tree are compared by identity. *)
Definition same_node (a b : Node) : bool := bool_decide (node_id a = node_id b).
(** The sibling before, as it stands among the parent's children. *)
Fixpoint sibling_before (id : nat) (prev : option Node) (cs : list Node) : option Node :=
  match cs with
  | [] => None
  | c :: cs => if bool_decide (node_id c = id) then prev else sibling_before id (Some c) cs
  end.
Definition prev_sibling (n : Node) : option Node :=
  p ← parent n; sibling_before (node_id n) None (children p).

(** [utf8_text] of the source the tree was parsed from. *)
Definition node_text (n : Node) (source : string) : string :=
  let text := slice source (start_byte n) (end_byte n) in
  if utf8_valid (as_bytes text) then text else "".

(** ** Going down *)

Fixpoint tree_size (t : Tree) : nat := S (list_sum (tree_size <$> subtrees t)).
Definition size (n : Node) : nat := tree_size (here n).

Lemma size_children n : (list_sum (size <$> children n) < size n)%nat.
Proof.
  unfold children. rewrite <-list_fmap_compose.
  change (size ∘ (λ t, mkNode t (here n :: above n))) with tree_size. unfold size.
  destruct (here n) as [i cs]. cbn [tree_size subtrees]. lia.
Qed.
Lemma list_sum_elem l x : x ∈ l → (x ≤ list_sum l)%nat.
Proof. induction 1; cbn [list_sum foldr] in *; unfold list_sum in *; cbn; lia. Qed.
Lemma child_smaller n c : c ∈ children n → (size c < size n)%nat.
Proof.
  intros Hc. pose proof (size_children n). assert (size c ≤ list_sum (size <$> children n))%nat; [|lia].
  apply list_sum_elem. apply list_elem_of_fmap. by exists c.
Qed.
Lemma named_child_is_child n c : c ∈ named_children n → c ∈ children n ∧ is_named c = true.
Proof. unfold named_children. rewrite !list_elem_of_In, List.filter_In. done. Qed.
Lemma field_child_is_child f n c : c ∈ children_by_field_name f n → c ∈ children n ∧ field_of c = Some f.
Proof.
  unfold children_by_field_name. rewrite !list_elem_of_In, List.filter_In, bool_decide_eq_true. done.
Qed.
Lemma child_by_field_name_child f n c : child_by_field_name f n = Some c → c ∈ children n ∧ field_of c = Some f.
Proof.
  unfold child_by_field_name. destruct (children_by_field_name f n) eqn:E; [done|]. intros [= <-].
  apply field_child_is_child. rewrite E. by left.
Qed.
Lemma find_elem {A} (p : A → bool) l x : List.find p l = Some x → x ∈ l ∧ p x = true.
Proof. intros [Hin Hp]%List.find_some. by rewrite list_elem_of_In. Qed.
Lemma child_of_kind_child k n c : child_of_kind k n = Some c → c ∈ children n ∧ is_named c = true ∧ kind c = k.
Proof.
  intros [[Hc Hn]%named_child_is_child Hk%bool_decide_eq_true]%find_elem. done.
Qed.
Lemma parent_child n c : c ∈ children n → parent c = Some n.
Proof. intros (t & -> & _)%list_elem_of_fmap. by destruct n. Qed.

(** Induction from the leaves. *)
Lemma node_ind (P : Node → Prop) : (∀ n, (∀ c, c ∈ children n → P c) → P n) → ∀ n, P n.
Proof.
  intros H n. remember (size n) as k eqn:E. revert n E. induction (lt_wf k) as [k _ IH]. intros n ->.
  apply H. intros c Hc. eapply IH; [|done]. by apply child_smaller.
Qed.

(** A function that calls itself on smaller nodes only. *)
Fixpoint descend_fuel {A} (stop : A) (f : (Node → A) → Node → A) (k : nat) (n : Node) : A :=
  match k with O => stop | S k => f (descend_fuel stop f k) n end.
Definition descend {A} (stop : A) (f : (Node → A) → Node → A) (n : Node) : A := descend_fuel stop f (size n) n.
Definition descends {A} (f : (Node → A) → Node → A) : Prop :=
  ∀ n g h, (∀ c, (size c < size n)%nat → g c = h c) → f g n = f h n.

Lemma descend_enough {A} stop (f : (Node → A) → Node → A) : descends f →
  ∀ n k, (size n ≤ k)%nat → descend_fuel stop f k n = descend stop f n.
Proof.
  intros Hf n. remember (size n) as s eqn:E. revert n E.
  induction (lt_wf s) as [s _ IH]. intros n -> k Hk. unfold descend.
  assert (Hp : (1 ≤ size n)%nat) by (unfold size; destruct (here n); cbn; lia).
  destruct k as [|k]; [lia|]. destruct (size n) as [|s] eqn:Es; [lia|]. cbn [descend_fuel].
  apply Hf. intros c Hc. rewrite !(IH (size c)) by (done || lia). done.
Qed.
Lemma descend_eq {A} stop (f : (Node → A) → Node → A) n : descends f →
  descend stop f n = f (descend stop f) n.
Proof.
  intros Hf. unfold descend at 1. assert (Hp : (1 ≤ size n)%nat) by (unfold size; destruct (here n); cbn; lia).
  destruct (size n) as [|s] eqn:Es; [lia|]. cbn [descend_fuel]. apply Hf. intros c Hc.
  apply descend_enough; [done|]. lia.
Qed.

(** ** Going over a whole tree

    [while let Some(node) = stack.pop() { ..; stack.extend(children) }]: the
    last child comes first. *)
Fixpoint walk {S} (visit : S → Node → S) (fuel : nat) (st : S) (stack : list Node) : option S :=
  match stack with
  | [] => Some st
  | n :: stack =>
      match fuel with
      | O => None
      | Datatypes.S fuel => walk visit fuel (visit st n) (rev (children n) ++ stack)
      end
  end.
Definition walk_tree {S} (visit : S → Node → S) (st : S) (t : Tree) : S :=
  default st (walk visit (tree_size t) st [root_node t]).

(** The order in which the nodes come. *)
Definition visited : Node → list Node :=
  descend [] (λ visited n, n :: flat_map visited (rev (children n))).

Lemma flat_map_ext_elem {A B} (f g : A → list B) l : (∀ x, x ∈ l → f x = g x) → flat_map f l = flat_map g l.
Proof.
  induction l as [|x l IH]; intros H; [done|]. cbn. rewrite (H x) by (by left).
  rewrite IH; [done|]. intros y Hy. apply H. by right.
Qed.
Lemma visited_eq n : visited n = n :: flat_map visited (rev (children n)).
Proof.
  unfold visited at 1. rewrite descend_eq; [done|]. intros m g h Hg. f_equal. apply flat_map_ext_elem. intros c Hc. apply Hg, child_smaller.
  by apply list_elem_of_In, in_rev, list_elem_of_In in Hc.
Qed.
Lemma list_sum_rev l : list_sum (rev l) = list_sum l.
Proof. induction l as [|x l IH]; [done|]. cbn [rev]. rewrite list_sum_app, IH. unfold list_sum. simpl. lia. Qed.

Lemma walk_visited {S} (visit : S → Node → S) : ∀ fuel st stack, (list_sum (size <$> stack) ≤ fuel)%nat →
  walk visit fuel st stack = Some (fold_left visit (flat_map visited stack) st).
Proof.
  induction fuel as [|fuel IH]; intros st [|n stack] Hf; try done.
  - unfold size in Hf. cbn in Hf. destruct (here n). cbn in Hf. lia.
  - cbn [walk]. rewrite IH.
    + cbn [flat_map]. rewrite visited_eq, flat_map_app. done.
    + rewrite fmap_cons in Hf. change (size n + list_sum (size <$> stack) ≤ Datatypes.S fuel)%nat in Hf.
      rewrite fmap_app, list_sum_app. change (size <$> rev (children n)) with (map size (rev (children n))).
      rewrite List.map_rev, list_sum_rev. pose proof (size_children n). change (map size (children n)) with (size <$> children n). lia.
Qed.
Lemma walk_tree_visited {S} (visit : S → Node → S) st t :
  walk visit (tree_size t) st [root_node t] = Some (fold_left visit (visited (root_node t)) st)
  ∧ walk_tree visit st t = fold_left visit (visited (root_node t)) st.
Proof.
  unfold walk_tree. rewrite walk_visited by (cbn; lia). cbn. by rewrite app_nil_r.
Qed.

(** The nodes of a tree. *)
Inductive within (n : Node) : Node → Prop :=
| within_here : within n n
| within_child c m : c ∈ children n → within c m → within n m.

Lemma visited_within n m : m ∈ visited n ↔ within n m.
Proof.
  split.
  - revert m. induction n as [n IH] using node_ind. intros m. rewrite visited_eq.
    intros [->|Hm]%elem_of_cons; [constructor|]. apply list_elem_of_In, in_flat_map in Hm as (c & Hc & Hm).
    apply in_rev in Hc. rewrite <-list_elem_of_In in Hc. rewrite <-list_elem_of_In in Hm.
    eapply within_child; [done|]. by apply IH.
  - induction 1 as [n|n c m Hc _ IH]; rewrite visited_eq; [left|right].
    apply list_elem_of_In, in_flat_map. exists c. rewrite <-in_rev, <-!list_elem_of_In. done.
Qed.
Lemma ancestors_child n c : c ∈ children n → ancestors c = n :: ancestors n.
Proof. intros (t & -> & _)%list_elem_of_fmap. unfold ancestors. cbn. by destruct n. Qed.
(** The path from a node up to one it lies in. *)
Lemma within_ancestors n m : within n m → ∃ path, m :: ancestors m = path ++ n :: ancestors n.
Proof.
  induction 1 as [n|n c m Hc _ [path IH]]; [by exists []|]. exists (path ++ [c]).
  by rewrite IH, (ancestors_child _ _ Hc), <-app_assoc.
Qed.
Lemma within_above root n : within root n → above root = [] →
  above n = [] ∧ n = root ∨ ∃ p, parent n = Some p ∧ within root p ∧ n ∈ children p.
Proof.
  intros Hw Hr. assert (H : n = root ∨ ∃ p, within root p ∧ n ∈ children p).
  { clear Hr. induction Hw as [n|n c m Hc Hw IH]; [by left|]. right.
    destruct IH as [->|(p & Hp & Hm)]; [exists n; split; [constructor|done]|].
    exists p. split; [by eapply within_child|done]. }
  destruct H as [->|(p & Hp & Hc)]; [by left|right]. exists p. split_and!; [by apply parent_child|done..].
Qed.
Lemma ancestors_tail up : ∀ pre a post, ancestors_from up = pre ++ a :: post → post = ancestors a.
Proof.
  induction up as [|t up IH]; intros pre a post; cbn [ancestors_from]; [by destruct pre|].
  destruct pre as [|x pre]; cbn [app]; [by intros [= <- <-]|]. intros [= _ E]. by eapply IH.
Qed.
Lemma ancestor_within r n a : within r n → above r = [] → a ∈ ancestors n → within r a.
Proof.
  intros Hn Hr. remember (length (above n)) as k eqn:Ek. revert n Ek Hn. induction k as [|k IH]; intros n Ek Hn.
  - unfold ancestors. destruct (above n); [|done]. by intros H%elem_of_nil.
  - destruct (within_above r n Hn Hr) as [[Ea ->]|(p & Hp & Hwp & Hc)]; [by rewrite Ea in Ek|].
    rewrite (ancestors_child p n Hc). intros [->|Ha]%elem_of_cons; [done|]. apply (IH p); [|done|done].
    unfold parent in Hp. destruct (above n); [done|]. injection Hp as <-. cbn in *. lia.
Qed.
Lemma within_trans a b c : within a b → within b c → within a c.
Proof. induction 1; [done|]. intros. eapply within_child; [done|]. auto. Qed.

Lemma size_ind (P : Node → Prop) : (∀ n, (∀ m, (size m < size n)%nat → P m) → P n) → ∀ n, P n.
Proof.
  intros H n. remember (size n) as k eqn:E. revert n E. induction (lt_wf k) as [k _ IH]. intros n ->.
  apply H. intros m Hm. by eapply IH.
Qed.

(** ** Trees of their source

    What is documented of the trees a parser returns: a node's bytes are of
    the source at character boundaries, its children's lie in them one after
    the other, and a node has an error when an error or a missing node is in
    it. *)
Record fits_at (source : string) (n : Node) : Prop := {
  fits_span : (start_byte n ≤ end_byte n ≤ String.length source)%nat;
  fits_start : is_char_boundary (start_byte n) source = true;
  fits_end : is_char_boundary (end_byte n) source = true;
  fits_inside c : c ∈ children n → (start_byte n ≤ start_byte c)%nat ∧ (end_byte c ≤ end_byte n)%nat;
  fits_order i j c d : (i < j)%nat → children n !! i = Some c → children n !! j = Some d →
    (end_byte c ≤ start_byte d)%nat;
  fits_error : has_error n || is_missing n = true ↔
    is_error n = true ∨ is_missing n = true ∨ ∃ c, c ∈ children n ∧ has_error c || is_missing c = true;
}.
Definition fits (source : string) (n : Node) : Prop := ∀ m, within n m → fits_at source m.

Lemma fits_within source n m : fits source n → within n m → fits source m.
Proof. intros H Hm k Hk. apply H. by eapply within_trans. Qed.
Lemma fits_child source n c : fits source n → c ∈ children n → fits source c.
Proof. intros H Hc. eapply fits_within; [done|]. eapply within_child; [done|constructor]. Qed.
Lemma fits_here source n : fits source n → fits_at source n.
Proof. intros H. apply H. constructor. Qed.

Lemma within_span source n m : fits source n → within n m →
  (start_byte n ≤ start_byte m)%nat ∧ (end_byte m ≤ end_byte n)%nat.
Proof.
  intros Hf H. induction H as [n|n c m Hc _ IH]; [done|].
  destruct (fits_inside _ _ (fits_here _ _ Hf) c Hc). destruct IH; [by eapply fits_child|]. lia.
Qed.
(** Two places are one, or one in the other, or apart. *)
Lemma places_apart source n a b : fits source n → within n a → within n b →
  within a b ∨ within b a ∨ (end_byte a ≤ start_byte b)%nat ∨ (end_byte b ≤ start_byte a)%nat.
Proof.
  intros Hf Ha. revert b. induction Ha as [n|n c a Hc Ha IH]; intros b Hb; [by left|].
  destruct Hb as [|d b Hd Hb]; [right; left; by eapply within_child|].
  apply list_elem_of_lookup in Hc as [i Hi], Hd as [j Hj].
  pose proof (fits_order _ _ (fits_here _ _ Hf)) as Ho.
  pose proof (fits_child source n c Hf (list_elem_of_lookup_2 _ _ _ Hi)) as Fc.
  pose proof (fits_child source n d Hf (list_elem_of_lookup_2 _ _ _ Hj)) as Fd.
  destruct (lt_eq_lt_dec i j) as [[Hlt| ->]|Hlt].
  - pose proof (Ho _ _ _ _ Hlt Hi Hj). pose proof (within_span _ _ _ Fc Ha). pose proof (within_span _ _ _ Fd Hb). lia.
  - rewrite Hi in Hj. injection Hj as <-. by apply IH.
  - pose proof (Ho _ _ _ _ Hlt Hj Hi). pose proof (within_span _ _ _ Fc Ha). pose proof (within_span _ _ _ Fd Hb). lia.
Qed.

(** Deciding it. *)
Fixpoint ordered (cs : list Node) : bool :=
  match cs with [] => true | c :: cs => forallb (λ d, (end_byte c <=? start_byte d)%nat) cs && ordered cs end.
Definition fits_check (source : string) (n : Node) : bool :=
  (start_byte n <=? end_byte n)%nat && (end_byte n <=? String.length source)%nat
  && is_char_boundary (start_byte n) source && is_char_boundary (end_byte n) source
  && forallb (λ c, (start_byte n <=? start_byte c)%nat && (end_byte c <=? end_byte n)%nat) (children n)
  && ordered (children n)
  && Bool.eqb (has_error n || is_missing n)
       (is_error n || is_missing n || existsb (λ c, has_error c || is_missing c) (children n)).

Lemma ordered_lookup cs : ordered cs = true → ∀ i j c d, (i < j)%nat → cs !! i = Some c → cs !! j = Some d →
  (end_byte c ≤ start_byte d)%nat.
Proof.
  induction cs as [|x cs IH]; [done|]. cbn [ordered]. intros [Ha Ho]%andb_true_iff [|i] [|j] c d Hij Hc Hd; try lia.
  - injection Hc as ->. rewrite forallb_forall in Ha. apply Nat.leb_le, Ha, list_elem_of_In.
    by eapply list_elem_of_lookup_2.
  - eapply (IH Ho i j); [lia|done..].
Qed.
Lemma fits_check_sound source n : fits_check source n = true → fits_at source n.
Proof.
  unfold fits_check. intros ((((((H1 & H2)%andb_true_iff & H3)%andb_true_iff & H4)%andb_true_iff & H5)%andb_true_iff
    & H6)%andb_true_iff & H7)%andb_true_iff. apply Nat.leb_le in H1, H2. split; [lia|done..| | |].
  - intros c Hc%list_elem_of_In. rewrite forallb_forall in H5. specialize (H5 c Hc).
    apply andb_true_iff in H5 as [Ha Hb]. apply Nat.leb_le in Ha, Hb. done.
  - by apply ordered_lookup.
  - apply Bool.eqb_prop in H7. rewrite H7, !orb_true_iff, existsb_exists.
    setoid_rewrite list_elem_of_In. tauto.
Qed.
Lemma fits_visited source n : forallb (fits_check source) (visited n) = true → fits source n.
Proof.
  intros H m Hm. apply fits_check_sound. rewrite forallb_forall in H. apply H.
  by apply list_elem_of_In, visited_within.
Qed.

(** Writing trees down: a named node, a token, and a child with its field. *)
Definition node (id : nat) (k : string) (s e : nat) (cs : list Tree) : Tree :=
  Branch (mkInfo k true None id s e 0 0 false false (existsb (λ c, i_has_error (info c)) cs)) cs.
Definition token (id : nat) (k : string) (s e : nat) : Tree :=
  Branch (mkInfo k false None id s e 0 0 false false false) [].
Definition field (f : string) (t : Tree) : Tree :=
  let 'Branch i cs := t in
  Branch (mkInfo (i_kind i) (i_named i) (Some f) (i_id i) (i_start i) (i_end i) (i_start_row i) (i_end_row i)
    (i_error i) (i_missing i) (i_has_error i)) cs.
