(* ===== verification/Outline.v ===== *)
(** * What a parse tree shows at once ([crates/syntax/src/lib.rs])

    Syntax errors, the outline, folds, selection ranges and semantic tokens:
    everything the analysis answers from one document's tree alone. *)
From Stdlib Require Import Ascii.
From stdpp Require Import sorting.
From S2P Require Import Prelude RustStd Utf8 Lsp LineIndex Order SyntaxTree.
Import LineIndex SyntaxTree.

Module Outline.

Definition range (ix : LineIndex) (n : Node) : Range :=
  mkRange (position ix (start_byte n)) (position ix (end_byte n)).

(** ** Syntax errors *)

Definition MAX_DIAGNOSTICS : nat := 100.
Definition diagnostic (r : Range) (message : string) : Diagnostic :=
  mkDiagnostic r (Some ERROR) None (Some "java-vsix-lite") message.
Definition report (ix : LineIndex) (n : Node) : Diagnostic :=
  if is_missing n then diagnostic (range ix n) ("Syntax error: missing `" +:+ kind n +:+ "`")
  else diagnostic (range ix n) "Syntax error: unexpected input".
Definition damaged_children (n : Node) : list Node :=
  List.filter (λ c, has_error c || is_missing c) (children n).
Fixpoint error_loop (ix : LineIndex) (fuel : nat) (out : list Diagnostic) (stack : list Node) :
    option (list Diagnostic) :=
  match stack with
  | [] => Some out
  | n :: stack =>
      match fuel with
      | O => None
      | S fuel =>
          if (MAX_DIAGNOSTICS <=? length out)%nat then Some out
          else if is_missing n || is_error n then error_loop ix fuel (out ++ [report ix n]) stack
          else error_loop ix fuel out (rev (damaged_children n) ++ stack)
      end
  end.
Definition syntax_diagnostics (t : Tree) (ix : LineIndex) : list Diagnostic :=
  let root := root_node t in
  if negb (has_error root) then [] else default [] (error_loop ix (tree_size t) [] [root]).

(** ** The outline *)

Inductive SymbolKind := CLASS | INTERFACE | ENUM | METHOD | CONSTRUCTOR | FIELD | ENUM_MEMBER.
Inductive DocumentSymbol :=
  Symbol (name : string) (kind : SymbolKind) (range selection_range : Range) (children : option (list DocumentSymbol)).

Definition make_symbol (name : string) (k : SymbolKind) (range_node selection_node : Node)
    (cs : list DocumentSymbol) (ix : LineIndex) : DocumentSymbol :=
  Symbol name k (range ix range_node) (range ix selection_node) (match cs with [] => None | _ => Some cs end).

Definition symbol_kind (k : string) : option (SymbolKind * option string) :=
  if bool_decide (k ∈ ["class_declaration"; "record_declaration"]) then Some (CLASS, Some "class_body")
  else if bool_decide (k = "interface_declaration") then Some (INTERFACE, Some "interface_body")
  else if bool_decide (k = "annotation_type_declaration") then Some (INTERFACE, Some "annotation_type_body")
  else if bool_decide (k = "enum_declaration") then Some (ENUM, Some "enum_body")
  else if bool_decide (k = "method_declaration") then Some (METHOD, None)
  else if bool_decide (k = "constructor_declaration") then Some (CONSTRUCTOR, None)
  else if bool_decide (k = "enum_constant") then Some (ENUM_MEMBER, None)
  else None.

Section Outline.
Context (source : string) (ix : LineIndex).

Definition field_symbols (n : Node) : list DocumentSymbol :=
  omap (λ c,
      if bool_decide (kind c = "variable_declarator") then
        name ← child_by_field_name "name" c;
        Some (make_symbol (node_text name source) FIELD c name [] ix)
      else None) (named_children n).
(** [symbol_for], given what lists a body. *)
Definition symbol_for (container_children : Node → list DocumentSymbol) (n : Node) : option DocumentSymbol :=
  '(k, body_kind) ← symbol_kind (kind n);
  name ← child_by_field_name "name" n;
  let cs := match b ← body_kind; child_of_kind b n with Some body => container_children body | None => [] end in
  Some (make_symbol (node_text name source) k n name cs ix).
Definition container_step (container_children : Node → list DocumentSymbol) (n : Node) : list DocumentSymbol :=
  flat_map (λ c,
      if bool_decide (kind c = "field_declaration") then field_symbols c
      else if bool_decide (kind c = "enum_body_declarations") then container_children c
      else match symbol_for container_children c with Some s => [s] | None => [] end)
    (named_children n).
Definition container_children : Node → list DocumentSymbol := descend [] container_step.
Definition document_symbols (t : Tree) : list DocumentSymbol := container_children (root_node t).
End Outline.

(** ** Folds *)

Inductive FoldingRangeKind := Comment | Imports.
Record FoldingRange := mkFoldingRange { start_line : Z; end_line : Z; fold_kind : option FoldingRangeKind }.
Definition folds_from (start_ end_ : nat) (k : option FoldingRangeKind) : list FoldingRange :=
  let s := as_u32 (Z.of_nat start_) in let e := as_u32 (Z.of_nat end_) in
  if s <? e then [mkFoldingRange s e k] else [].
Definition push_fold (n : Node) (k : option FoldingRangeKind) : list FoldingRange :=
  folds_from (start_row n) (end_row n) k.
Definition fold_import_group (root : Node) : list FoldingRange :=
  let imports := List.filter (λ c, bool_decide (kind c = "import_declaration")) (children root) in
  match head imports, last imports with
  | Some first, Some last => folds_from (start_row first) (end_row last) (Some Imports)
  | _, _ => []
  end.
Definition fold_of (n : Node) : option (option FoldingRangeKind) :=
  if bool_decide (kind n ∈ ["class_body"; "interface_body"; "enum_body"; "annotation_type_body"; "block";
      "constructor_body"; "switch_block"; "array_initializer"]) then Some None
  else if bool_decide (kind n = "block_comment") then Some (Some Comment)
  else None.
Definition folding_visit (ranges : list FoldingRange) (n : Node) : list FoldingRange :=
  match fold_of n with Some k => ranges ++ push_fold n k | None => ranges end.
Definition folding_ranges (t : Tree) : list FoldingRange :=
  walk_tree folding_visit (fold_import_group (root_node t)) t.

(** ** Selection ranges *)

Inductive SelectionRange := Selection (range : Range) (parent : option SelectionRange).
Fixpoint ancestors_of (fuel : nat) (n : Node) : list Node :=
  match fuel with
  | O => []
  | S fuel => match parent n with Some p => p :: ancestors_of fuel p | None => [] end
  end.
Section Selection.
(** [Tree::named_descendant_for_byte_range]. *)
Variable descendant : Tree → nat → nat → option Node.
Definition selection_chain (t : Tree) (byte : nat) : list Node :=
  let n := default (root_node t) (descendant t byte byte) in n :: ancestors_of (length (above n)) n.
Definition fold_chain (ix : LineIndex) (chain : list Node) : option SelectionRange :=
  fold_left (λ current n, Some (Selection (range ix n) current)) (rev chain) None.
Definition selection_range_at (t : Tree) (ix : LineIndex) (p : Position) : option SelectionRange :=
  fold_chain ix (selection_chain t (offset ix p)).
Definition selection_ranges (t : Tree) (ix : LineIndex) (ps : list Position) : list (option SelectionRange) :=
  selection_range_at t ix <$> ps.
End Selection.

(** ** Semantic tokens *)

Definition TT_TYPE : Z := 0.
Definition TT_METHOD : Z := 1.
Definition TT_PROPERTY : Z := 3.
Definition TT_VARIABLE : Z := 4.
Definition TT_ENUM_MEMBER : Z := 5.
Definition TT_DECORATOR : Z := 6.
Definition TT_NAMESPACE : Z := 7.

Record RawToken := mkRawToken { t_line : Z; t_start : Z; t_len : Z; t_type : Z }.
Record SemanticToken := mkSemanticToken {
  delta_line : Z; delta_start : Z; length_ : Z; token_type : Z; token_modifiers_bitset : Z }.

Definition is_upper (b : Z) : bool := in_range 65 90 b.
Definition is_lower (b : Z) : bool := in_range 97 122 b.
Definition first_char (p : Z → bool) (s : string) : bool :=
  match as_bytes s with b :: _ => p b | [] => false end.
Definition looks_like_type_name (text : string) : bool :=
  first_char is_upper text && existsb is_lower (as_bytes text).

Definition pattern_binding_identifier (n : Node) : option Node := child_of_kind "identifier" n.
Definition method_reference_method (n : Node) : option Node :=
  let named := named_children n in
  if (length named <? 2)%nat then None
  else last_ ← last named; if bool_decide (kind last_ = "identifier") then Some last_ else None.
(** From [signature.rs]. *)
Definition spread_param_name (n : Node) : option Node :=
  d ← child_of_kind "variable_declarator" n; child_by_field_name "name" d.
Definition is_field_declarator (n : Node) : bool :=
  match parent n with Some p => bool_decide (kind p = "field_declaration") | None => false end.
Definition is_child (c : option Node) (n : Node) : bool :=
  match c with Some c => same_node c n | None => false end.
Definition is_classified_elsewhere (n : Node) : bool :=
  match parent n with
  | None => false
  | Some p =>
      if bool_decide (kind p ∈ ["variable_declarator"; "formal_parameter"; "spread_parameter";
          "catch_formal_parameter"; "enhanced_for_statement"; "method_declaration"; "constructor_declaration";
          "class_declaration"; "interface_declaration"; "enum_declaration"; "record_declaration";
          "annotation_type_declaration"; "enum_constant"; "method_invocation"; "marker_annotation"; "annotation"])
      then is_child (child_by_field_name "name" p) n
      else if bool_decide (kind p = "field_access") then is_child (child_by_field_name "field" p) n
      else if bool_decide (kind p ∈ ["type_pattern"; "record_pattern_component"])
      then is_child (pattern_binding_identifier p) n
      else if bool_decide (kind p = "instanceof_expression") then is_child (child_by_field_name "name" p) n
      else if bool_decide (kind p = "method_reference") then is_child (method_reference_method p) n
      else false
  end.
Definition collect_identifiers : Node → list Node :=
  descend [] (λ collect_identifiers n,
    if bool_decide (kind n = "identifier") then [n] else flat_map collect_identifiers (children n)).

Section Tokens.
Context (source : string) (ix : LineIndex).

Definition insert_role (name : option Node) (role : Z) (roles : gmap string Z) : gmap string Z :=
  match name with Some name => <[node_text name source := role]> roles | None => roles end.
Definition role_visit (roles : gmap string Z) (n : Node) : gmap string Z :=
  if bool_decide (kind n = "variable_declarator") then
    insert_role (child_by_field_name "name" n) (if is_field_declarator n then TT_PROPERTY else TT_VARIABLE) roles
  else if bool_decide (kind n ∈ ["formal_parameter"; "catch_formal_parameter"]) then
    insert_role (child_by_field_name "name" n) TT_VARIABLE roles
  else if bool_decide (kind n = "spread_parameter") then insert_role (spread_param_name n) TT_VARIABLE roles
  else if bool_decide (kind n = "enhanced_for_statement") then
    insert_role (child_by_field_name "name" n) TT_VARIABLE roles
  else if bool_decide (kind n ∈ ["type_pattern"; "record_pattern_component"]) then
    insert_role (pattern_binding_identifier n) TT_VARIABLE roles
  else if bool_decide (kind n = "instanceof_expression") then
    insert_role (child_by_field_name "name" n) TT_VARIABLE roles
  else roles.
Definition declared_roles (t : Tree) : gmap string Z := walk_tree role_visit ∅ t.

Definition emit (n : Node) (ty : Z) : list RawToken :=
  let start_ := position ix (start_byte n) in let end_ := position ix (end_byte n) in
  if negb (p_line end_ =? p_line start_) || (p_character end_ <=? p_character start_) then []
  else [mkRawToken (p_line start_) (p_character start_) (as_u32 (p_character end_ - p_character start_)) ty].
Definition emit_opt (n : option Node) (ty : Z) : list RawToken :=
  match n with Some n => emit n ty | None => [] end.
Definition emit_named (n : Node) (field : string) (ty : Z) : list RawToken := emit_opt (child_by_field_name field n) ty.

Definition import_token (is_static : bool) (last i : nat) (id : Node) : list RawToken :=
  emit id (if is_static && bool_decide (i = last) && first_char is_lower (node_text id source)
           then TT_METHOD else TT_TYPE).
Definition emit_namespace_path (n : Node) (is_import : bool) : list RawToken :=
  let ids := collect_identifiers n in
  if negb is_import then flat_map (λ id, emit id TT_NAMESPACE) ids
  else concat (imap (import_token (has_child_kind n "static") (length ids - 1)) ids).

Definition tokens_of (roles : gmap string Z) (n : Node) : list RawToken :=
  let k := kind n in
  if bool_decide (k ∈ ["class_declaration"; "interface_declaration"; "enum_declaration"; "record_declaration";
      "annotation_type_declaration"]) then emit_named n "name" TT_TYPE
  else if bool_decide (k = "type_identifier") then emit n TT_TYPE
  else if bool_decide (k ∈ ["method_declaration"; "method_invocation"]) then emit_named n "name" TT_METHOD
  else if bool_decide (k ∈ ["formal_parameter"; "spread_parameter"; "catch_formal_parameter"]) then
    emit_named n "name" TT_VARIABLE
  else if bool_decide (k = "enhanced_for_statement") then emit_named n "name" TT_VARIABLE
  else if bool_decide (k ∈ ["type_pattern"; "record_pattern_component"]) then
    emit_opt (pattern_binding_identifier n) TT_VARIABLE
  else if bool_decide (k = "instanceof_expression") then emit_named n "name" TT_VARIABLE
  else if bool_decide (k = "method_reference") then emit_opt (method_reference_method n) TT_METHOD
  else if bool_decide (k = "variable_declarator") then
    emit_named n "name" (if is_field_declarator n then TT_PROPERTY else TT_VARIABLE)
  else if bool_decide (k = "field_access") then emit_named n "field" TT_PROPERTY
  else if bool_decide (k = "enum_constant") then emit_named n "name" TT_ENUM_MEMBER
  else if bool_decide (k ∈ ["marker_annotation"; "annotation"]) then
    match child_by_field_name "name" n with
    | Some name => if bool_decide (kind name = "identifier") then emit name TT_DECORATOR else []
    | None => []
    end
  else if bool_decide (k = "package_declaration") then emit_namespace_path n false
  else if bool_decide (k = "import_declaration") then emit_namespace_path n true
  else if bool_decide (k = "identifier") && negb (is_classified_elsewhere n) then
    let text := node_text n source in
    match roles !! text with
    | Some ty => emit n ty
    | None => if looks_like_type_name text then emit n TT_TYPE else []
    end
  else [].

Definition token_cmp (a b : RawToken) : comparison := lex (t_line a ?= t_line b) (t_start a ?= t_start b).
(** [Vec::dedup_by_key]: of a run of equal keys the first stays. *)
Fixpoint dedup_from (prev : RawToken) (l : list RawToken) : list RawToken :=
  match l with
  | [] => []
  | t :: l => if bool_decide (token_cmp prev t = Eq) then dedup_from prev l else t :: dedup_from t l
  end.
Definition dedup (l : list RawToken) : list RawToken :=
  match l with [] => [] | t :: l => t :: dedup_from t l end.
Fixpoint delta_encode_from (prev_line prev_start : Z) (l : list RawToken) : list SemanticToken :=
  match l with
  | [] => []
  | t :: l =>
      let dl := as_u32 (t_line t - prev_line) in
      mkSemanticToken dl (if dl =? 0 then as_u32 (t_start t - prev_start) else t_start t) (t_len t) (t_type t) 0
      :: delta_encode_from (t_line t) (t_start t) l
  end.
Definition delta_encode (l : list RawToken) : list SemanticToken := delta_encode_from 0 0 l.
Definition raw_tokens (t : Tree) : list RawToken :=
  walk_tree (λ raw n, raw ++ tokens_of (declared_roles t) n) [] t.
Definition semantic_tokens (t : Tree) : list SemanticToken := delta_encode (dedup (sort_by token_cmp (raw_tokens t))).
End Tokens.

(** What the editor reads: positions relative to the token before. *)
Fixpoint decode_from (line start_ : Z) (l : list SemanticToken) : list RawToken :=
  match l with
  | [] => []
  | t :: l =>
      let line' := line + delta_line t in
      let start' := if delta_line t =? 0 then start_ + delta_start t else delta_start t in
      mkRawToken line' start' (length_ t) (token_type t) :: decode_from line' start' l
  end.
Definition decode (l : list SemanticToken) : list RawToken := decode_from 0 0 l.

(** ** Every error is shown *)

Definition damaged (n : Node) : bool := is_missing n || is_error n.
(** The damaged places with no damaged place around them. *)
Definition reported : Node → list Node :=
  descend [] (λ reported n, if damaged n then [n] else flat_map reported (rev (damaged_children n))).

Lemma damaged_child n c : c ∈ damaged_children n ↔ c ∈ children n ∧ has_error c || is_missing c = true.
Proof. unfold damaged_children. by rewrite elem_of_filter_bool. Qed.
Lemma reported_eq n : reported n = if damaged n then [n] else flat_map reported (rev (damaged_children n)).
Proof.
  unfold reported at 1. rewrite descend_eq; [done|]. intros m g h Hg. destruct (damaged m); [done|].
  apply flat_map_ext_elem. intros c [Hc _]%elem_of_rev%damaged_child. by apply Hg, child_smaller.
Qed.
Lemma sum_filter_sizes (p : Node → bool) l :
  (list_sum (size <$> rev (List.filter p l)) ≤ list_sum (size <$> l))%nat.
Proof.
  change (size <$> rev (List.filter p l)) with (map size (rev (List.filter p l))). rewrite List.map_rev, list_sum_rev.
  change (size <$> l) with (map size l). unfold list_sum. induction l as [|c l IH]; [done|]. simpl. destruct (p c); simpl; lia.
Qed.

Lemma error_loop_reported ix : ∀ fuel out stack,
  (list_sum (size <$> stack) ≤ fuel)%nat → (length out ≤ MAX_DIAGNOSTICS)%nat →
  error_loop ix fuel out stack = Some (take MAX_DIAGNOSTICS (out ++ (report ix <$> flat_map reported stack))).
Proof.
  induction fuel as [|fuel IH]; intros out [|n stack] Hf Ho.
  1,3: cbn; by rewrite app_nil_r, firstn_all2.
  - exfalso. unfold size, list_sum in Hf. simpl in Hf. destruct (here n). simpl in Hf. lia.
  - assert (Hs : (size n + list_sum (size <$> stack) ≤ S fuel)%nat) by done. clear Hf. cbn [error_loop flat_map].
    assert (Hn : (1 ≤ size n)%nat) by (unfold size; destruct (here n); simpl; lia).
    destruct (Nat.leb_spec MAX_DIAGNOSTICS (length out)).
    { rewrite take_app_le by lia. by rewrite firstn_all2 by lia. }
    rewrite reported_eq. unfold damaged. destruct (is_missing n || is_error n).
    + rewrite IH; [|lia|rewrite length_app; simpl; lia]. by rewrite <-app_assoc.
    + rewrite IH; [|rewrite fmap_app, list_sum_app|lia]; [by rewrite flat_map_app|].
      pose proof (sum_filter_sizes (λ c, has_error c || is_missing c) (children n)). pose proof (size_children n).
      unfold damaged_children. lia.
Qed.

Lemma reported_damaged n m : m ∈ reported n → within n m ∧ damaged m = true.
Proof.
  revert m. induction n as [n IH] using size_ind. intros m. rewrite reported_eq.
  destruct (damaged n) eqn:E; [intros ->%list_elem_of_singleton; by split; [constructor|]|].
  rewrite list_elem_of_In, in_flat_map. intros (c & Hc & Hm). rewrite <-list_elem_of_In, elem_of_rev, damaged_child in Hc.
  destruct Hc as [Hc _]. destruct (IH c (child_smaller _ _ Hc) m) as [Hw Hd]; [by apply list_elem_of_In|].
  split; [by eapply within_child|done].
Qed.
Lemma within_damaged source n m : fits source n → within n m → damaged m = true → has_error n || is_missing n = true.
Proof.
  intros Hf Hw Hd. induction Hw as [n|n c m Hc Hw IH]; apply (fits_error _ _ (fits_here _ _ Hf)).
  - unfold damaged in Hd. apply orb_true_iff in Hd. tauto.
  - right; right. exists c. split; [done|]. apply IH; [by eapply fits_child|done].
Qed.
Lemma reported_covers source n m : fits source n → within n m → damaged m = true → ∃ a, a ∈ reported n ∧ within a m.
Proof.
  intros Hf Hw Hd. induction Hw as [n|n c m Hc Hw IH]; rewrite reported_eq.
  - rewrite Hd. exists n. split; [by left|constructor].
  - destruct (damaged n); [exists n; split; [by left|by eapply within_child]|].
    pose proof (fits_child _ _ _ Hf Hc) as Fc. destruct (IH Fc Hd) as (a & Ha & Hm). exists a. split; [|done].
    apply list_elem_of_In, in_flat_map. exists c. rewrite <-!list_elem_of_In, elem_of_rev, damaged_child.
    split_and!; [done|by eapply within_damaged|done].
Qed.
Lemma damaged_within source n : fits source n → has_error n || is_missing n = true → ∃ m, within n m ∧ damaged m = true.
Proof.
  induction n as [n IH] using size_ind. intros Hf He. apply (fits_error _ _ (fits_here _ _ Hf)) in He as [He|[He|(c & Hc & He)]].
  1,2: exists n; split; [constructor|unfold damaged; rewrite He; by destruct (is_missing n)].
  destruct (IH c (child_smaller _ _ Hc) (fits_child _ _ _ Hf Hc) He) as (m & Hw & Hd).
  exists m. split; [by eapply within_child|done].
Qed.

(** C28: A damaged file is never shown as a sound one.  The syntax diagnostics of a
    tree are empty exactly when the tree has no error; each is about an
    erroneous or missing node, at most a hundred are sent, and when fewer are,
    every erroneous or missing node lies in one that was reported. *)
Theorem syntax_errors_shown source t ix : fits source (root_node t) →
  let ds := syntax_diagnostics t ix in
  (ds = [] ↔ has_error (root_node t) = false) ∧ (length ds ≤ MAX_DIAGNOSTICS)%nat
  ∧ (∀ d, d ∈ ds → ∃ m, within (root_node t) m ∧ damaged m = true ∧ d = report ix m)
  ∧ ((length ds < MAX_DIAGNOSTICS)%nat → has_error (root_node t) = true → ∀ m, within (root_node t) m →
       damaged m = true → ∃ a, within a m ∧ damaged a = true ∧ report ix a ∈ ds).
Proof.
  intros Hf ds. unfold syntax_diagnostics in ds. destruct (has_error (root_node t)) eqn:He; cbn [negb] in ds.
  2:{ subst ds. split_and!; [done|simpl; unfold MAX_DIAGNOSTICS; lia|by intros d ?%elem_of_nil|done]. }
  assert (E : ds = take MAX_DIAGNOSTICS (report ix <$> reported (root_node t))).
  { subst ds. rewrite error_loop_reported; [|unfold size; simpl; lia|unfold MAX_DIAGNOSTICS; simpl; lia].
    cbn [default flat_map]. by rewrite app_nil_r. }
  clearbody ds. subst ds. split_and!.
  - split; [|done]. intros E. exfalso. destruct (damaged_within _ _ Hf) as (m & Hw & Hd); [by rewrite He|].
    destruct (reported_covers _ _ _ Hf Hw Hd) as (a & Ha & _). by destruct (reported (root_node t)); [apply elem_of_nil in Ha|].
  - rewrite length_take. lia.
  - intros d Hd. apply elem_of_take in Hd as (i & Hd & _). apply list_lookup_fmap_Some in Hd as (m & -> & Hm).
    apply list_elem_of_lookup_2, reported_damaged in Hm as [Hw Hd]. by exists m.
  - intros Hl _ m Hw Hd. destruct (reported_covers _ _ _ Hf Hw Hd) as (a & Ha & Hm). exists a.
    split_and!; [done|by apply reported_damaged in Ha as [_ ?]|]. rewrite length_take in Hl. rewrite firstn_all2 by lia.
    by apply list_elem_of_fmap_2.
Qed.

(** ** Ranges follow the tree *)

Section Ranges.
Context (source : string) (e : PositionEncoding).
Hypothesis Hs : is_str source.
Hypothesis Hlen : str_len source < 2 ^ 32.
Let ix := new source e.

Lemma range_within n m : fits source n → within n m → range_in (range ix m) (range ix n).
Proof.
  intros Hf Hw. destruct (within_span _ _ _ Hf Hw). pose proof (fits_here _ _ Hf) as Fn. pose proof (Hf m Hw) as Fm.
  split; cbn; apply position_mono; try done; by (eapply fits_start || eapply fits_end).
Qed.
Lemma range_child n c : fits source n → c ∈ children n → range_in (range ix c) (range ix n).
Proof. intros Hf Hc. apply range_within; [done|]. eapply within_child; [done|constructor]. Qed.

Definition symbol_range (s : DocumentSymbol) : Range := let 'Symbol _ _ r _ _ := s in r.
(** What the protocol asks of a symbol. *)
Inductive nested : DocumentSymbol → Prop :=
| nested_symbol name k r sel cs : range_in sel r →
    (∀ s, s ∈ default [] cs → range_in (symbol_range s) r ∧ nested s) →
    nested (Symbol name k r sel cs).
Definition nested_in (r : Range) (s : DocumentSymbol) : Prop := range_in (symbol_range s) r ∧ nested s.

Lemma make_symbol_nested name k n sel cs : range_in (range ix sel) (range ix n) → Forall (nested_in (range ix n)) cs →
  nested (make_symbol name k n sel cs ix).
Proof.
  intros Hr Hc. constructor; [done|]. intros s Hs'. rewrite Forall_forall in Hc. apply Hc.
  destruct cs; [by apply elem_of_nil in Hs'|done].
Qed.

Lemma nested_wider r r' s : range_in r r' → nested_in r s → nested_in r' s.
Proof. intros Hr [H1 H2]. split; [by etrans|done]. Qed.

Lemma field_symbols_nested n : fits source n → Forall (nested_in (range ix n)) (field_symbols source ix n).
Proof.
  intros Hf. apply Forall_forall. intros s Hs'. apply list_elem_of_omap in Hs' as (c & Hc & E).
  apply named_child_is_child in Hc as [Hc _]. destruct (bool_decide _); [|done].
  destruct (child_by_field_name "name" c) as [m|] eqn:En; [|done]. injection E as <-.
  apply child_by_field_name_child in En as [Hm _]. pose proof (fits_child _ _ _ Hf Hc) as Fc.
  split; [by apply range_child|]. apply make_symbol_nested; [by apply range_child|done].
Qed.

Lemma container_step_descends : descends (container_step source ix).
Proof.
  intros n g h Hg. apply flat_map_ext_elem. intros c [Hc _]%named_child_is_child.
  destruct (bool_decide _); [done|]. destruct (bool_decide _); [by apply Hg, child_smaller|].
  unfold symbol_for. destruct (symbol_kind (kind c)) as [[k [b|]]|]; [|done..]. cbn [mbind option_bind].
  destruct (child_of_kind b c) as [body|] eqn:Eb; [|done]. apply child_of_kind_child in Eb as [Hb _].
  rewrite (Hg body); [done|]. pose proof (child_smaller _ _ Hc). pose proof (child_smaller _ _ Hb). lia.
Qed.
Lemma container_children_nested n : fits source n →
  Forall (nested_in (range ix n)) (container_children source ix n).
Proof.
  induction n as [n IH] using size_ind. intros Hf. unfold container_children.
  rewrite descend_eq by apply container_step_descends. fold (container_children source ix).
  apply Forall_forall. intros s Hs'. apply list_elem_of_In, in_flat_map in Hs' as (c & Hc & Hin).
  apply list_elem_of_In, named_child_is_child in Hc as [Hc _]. apply list_elem_of_In in Hin.
  pose proof (fits_child _ _ _ Hf Hc) as Fc. pose proof (child_smaller _ _ Hc) as Hcn.
  apply (nested_wider (range ix c)); [by apply range_child|].
  destruct (bool_decide _); [eapply Forall_forall; [by apply field_symbols_nested|done]|].
  destruct (bool_decide _); [eapply Forall_forall; [by apply IH|done]|].
  destruct (symbol_for _ _ _ _) as [s'|] eqn:E; [apply list_elem_of_singleton in Hin as ->|by apply elem_of_nil in Hin].
  unfold symbol_for in E. destruct (symbol_kind (kind c)) as [[k body_kind]|]; [|done]. cbn [mbind option_bind] in E.
  destruct (child_by_field_name "name" c) as [m|] eqn:En; [|done]. cbn [mbind option_bind] in E. injection E as <-.
  apply child_by_field_name_child in En as [Hm _].
  split; [done|]. apply make_symbol_nested; [by apply range_child|].
  destruct (b ← body_kind; child_of_kind b c) as [body|] eqn:Eb; [|done].
  destruct body_kind as [b|]; [|done]. apply child_of_kind_child in Eb as [Hb _].
  pose proof (child_smaller _ _ Hb). eapply Forall_impl; [apply IH; [lia|by eapply fits_child]|].
  intros s. by apply nested_wider, range_child.
Qed.

Lemma fold_chain_spec : ∀ chain r, fold_chain ix chain = Some r → ∃ n rest, chain = n :: rest
  ∧ r = Selection (range ix n) (fold_chain ix rest).
Proof.
  intros [|n rest] r; [done|]. unfold fold_chain. cbn [rev]. rewrite fold_left_app. cbn. intros [= <-].
  by exists n, rest.
Qed.
(** Every range lies in its parent's. *)
Fixpoint growing (s : SelectionRange) : Prop :=
  match s with
  | Selection _ None => True
  | Selection r (Some (Selection r' _ as p)) => range_in r r' ∧ growing p
  end.
Fixpoint outermost (s : SelectionRange) : Range :=
  match s with Selection r None => r | Selection _ (Some p) => outermost p end.

Lemma chain_growing root : above root = [] → fits source root → ∀ n, within root n →
  ∃ s, fold_chain ix (n :: ancestors_of (length (above n)) n) = Some s ∧ growing s ∧ outermost s = range ix root
  ∧ ∃ p, s = Selection (range ix n) p.
Proof.
  intros Hr Hf n. remember (length (above n)) as k eqn:Ek. revert n Ek. induction k as [|k IH]; intros n Ek Hw.
  - destruct (within_above root n Hw Hr) as [[_ ->]|(p & Hp & _ & Hc)].
    + eexists. split_and!; [done..|by eexists].
    + unfold parent in Hp. by destruct (above n).
  - destruct (within_above root n Hw Hr) as [[Ha ->]|(p & Hp & Hwp & Hc)]; [by rewrite Ha in Ek|].
    cbn [ancestors_of]. rewrite Hp.
    assert (Ep : k = length (above p)).
    { unfold parent in Hp. destruct (above n); [done|]. injection Hp as <-. cbn in *. lia. }
    destruct (IH p Ep Hwp) as (s & Es & Hg & Ho & q & ->).
    exists (Selection (range ix n) (Some (Selection (range ix p) q))). split_and!; [|split; [|done]|done|by eexists].
    + unfold fold_chain in *. cbn [rev]. rewrite fold_left_app. cbn [rev] in Es. rewrite Es. done.
    + apply range_child; [by eapply fits_within|done].
Qed.
End Ranges.

(** The outline the editor is sent is well nested, whatever the tree: a
    symbol's name lies in its range, and its children in its range too. *)
Theorem outline_nested source t e : is_str source → str_len source < 2 ^ 32 → fits source (root_node t) →
  Forall (nested_in (range (new source e) (root_node t))) (document_symbols source (new source e) t).
Proof. intros Hs Hlen Hf. by apply container_children_nested. Qed.

(** Expanding a selection goes outwards: from the smallest named place around
    the caret, every range lies in the next, up to the whole file. *)
Theorem selection_grows source t e descendant p : is_str source → str_len source < 2 ^ 32 → fits source (root_node t) →
  (∀ byte n, descendant t byte byte = Some n → within (root_node t) n) →
  ∃ s, selection_range_at descendant t (new source e) p = Some s ∧ growing s
  ∧ outermost s = range (new source e) (root_node t).
Proof.
  intros Hs Hlen Hf Hd. unfold selection_range_at, selection_chain.
  destruct (chain_growing source e Hs Hlen (root_node t) eq_refl Hf
    (default (root_node t) (descendant t (offset (new source e) p) (offset (new source e) p)))) as (s & Es & Hg & Ho & _).
  { destruct (descendant t _ _) as [n|] eqn:E; [by eapply Hd|constructor]. }
  by exists s.
Qed.

(** ** Folds *)

(** Exactly the foldable nodes on more than one row fold, over their rows, and
    the imports as one group. *)
Lemma folding_ranges_exact t :
  folding_ranges t = fold_import_group (root_node t)
    ++ flat_map (λ n, match fold_of n with Some k => push_fold n k | None => [] end) (visited (root_node t))
  ∧ Forall (λ f, start_line f < end_line f) (folding_ranges t).
Proof.
  assert (E : ∀ l acc, fold_left folding_visit l acc
    = acc ++ flat_map (λ n, match fold_of n with Some k => push_fold n k | None => [] end) l).
  { induction l as [|n l IH]; intros acc; cbn; [by rewrite app_nil_r|]. rewrite IH. unfold folding_visit.
    destruct (fold_of n); [by rewrite <-app_assoc|done]. }
  assert (Hf : ∀ s e k, Forall (λ f, start_line f < end_line f) (folds_from s e k)).
  { intros s e k. unfold folds_from. destruct (Z.ltb_spec (as_u32 (Z.of_nat s)) (as_u32 (Z.of_nat e))); by repeat constructor. }
  unfold folding_ranges. rewrite (proj2 (walk_tree_visited _ _ _)), E. split; [done|].
  apply Forall_app. split.
  - unfold fold_import_group. repeat case_match; done.
  - apply Forall_forall. intros f Hin. apply list_elem_of_In, in_flat_map in Hin as (n & _ & Hin).
    destruct (fold_of n); [|done]. apply list_elem_of_In in Hin.
    apply (proj1 (Forall_forall _ _) (Hf _ _ _) f Hin).
Qed.

(** ** Tokens *)

Lemma walk_flat {A} (f : Node → list A) t : walk_tree (λ raw n, raw ++ f n) [] t = flat_map f (visited (root_node t)).
Proof.
  rewrite (proj2 (walk_tree_visited _ _ _)).
  assert (E : ∀ l acc, fold_left (λ raw n, raw ++ f n) l acc = acc ++ flat_map f l).
  { induction l as [|n l IH]; intros acc; cbn; [by rewrite app_nil_r|]. by rewrite IH, app_assoc. }
  by rewrite E.
Qed.

Global Instance token_comparator : Comparator token_cmp.
Proof.
  split; unfold token_cmp, lex.
  - intros x y. rewrite (Z.compare_antisym (t_line x)), (Z.compare_antisym (t_start x)).
    by destruct (t_line x ?= t_line y).
  - intros x y z.
    destruct (Z.compare_spec (t_line x) (t_line y)), (Z.compare_spec (t_line y) (t_line z)),
      (Z.compare_spec (t_line x) (t_line z)), (Z.compare_spec (t_start x) (t_start y)),
      (Z.compare_spec (t_start y) (t_start z)), (Z.compare_spec (t_start x) (t_start z)); intros; try done; lia.
Qed.

Definition token_lt (a b : RawToken) : Prop := token_cmp a b = Lt.
Lemma token_lt_spec a b : token_lt a b ↔ t_line a < t_line b ∨ (t_line a = t_line b ∧ t_start a < t_start b).
Proof.
  unfold token_lt, token_cmp, lex. destruct (Z.compare_spec (t_line a) (t_line b)); try rewrite Z.compare_lt_iff; naive_solver lia.
Qed.
Definition same_place (a b : RawToken) : Prop := t_line a = t_line b ∧ t_start a = t_start b.
Lemma token_eq_spec a b : token_cmp a b = Eq ↔ same_place a b.
Proof.
  unfold same_place, token_cmp, lex. destruct (Z.compare_spec (t_line a) (t_line b)); try rewrite Z.compare_eq_iff; naive_solver lia.
Qed.

Lemma dedup_from_spec l : ∀ prev, Forall (cmp_le token_cmp prev) l → StronglySorted (cmp_le token_cmp) l →
  StronglySorted token_lt (prev :: dedup_from prev l)
  ∧ (∀ k, k ∈ dedup_from prev l → k ∈ l) ∧ (∀ k, k ∈ l → ∃ k', k' ∈ prev :: dedup_from prev l ∧ same_place k' k).
Proof.
  induction l as [|t l IH]; intros prev Hle Hsorted; cbn [dedup_from].
  { split_and!; [repeat constructor|done|by intros k ?%elem_of_nil]. }
  apply Forall_cons in Hle as [Ht Hle]. apply StronglySorted_inv in Hsorted as [Hsorted Hall].
  case_bool_decide as E.
  - destruct (IH prev Hle Hsorted) as (H1 & H2 & H3). split_and!; [done|intros k Hk; right; auto|].
    intros k [->|Hk]%elem_of_cons; [|auto]. exists prev. split; [by left|by apply token_eq_spec].
  - destruct (IH t Hall Hsorted) as (H1 & H2 & H3). assert (Hlt : token_cmp prev t = Lt).
    { unfold cmp_le in Ht. by destruct (token_cmp prev t). }
    split_and!.
    + constructor; [done|]. constructor; [done|]. apply StronglySorted_inv in H1 as [_ H1].
      eapply Forall_impl; [exact H1|]. intros k Hk. eapply cmp_lt_le_trans; [apply _|done|]. unfold cmp_le. by rewrite Hk.
    + intros k [->|Hk]%elem_of_cons; [by left|right; auto].
    + intros k [->|Hk]%elem_of_cons; [exists t; split; [right; by left|done]|].
      destruct (H3 k Hk) as (k' & Hk' & Hp). exists k'. split; [by right|done].
Qed.
Lemma dedup_spec l : StronglySorted (cmp_le token_cmp) l →
  StronglySorted token_lt (dedup l) ∧ (∀ k, k ∈ dedup l → k ∈ l) ∧ (∀ k, k ∈ l → ∃ k', k' ∈ dedup l ∧ same_place k' k).
Proof.
  destruct l as [|t l]; intros Hs; [split_and!; [constructor|done|by intros k ?%elem_of_nil]|].
  apply StronglySorted_inv in Hs as [Hs Hall]. destruct (dedup_from_spec l t Hall Hs) as (H1 & H2 & H3).
  cbn [dedup]. split_and!; [done| |].
  - intros k [->|Hk]%elem_of_cons; [by left|right; auto].
  - intros k [->|Hk]%elem_of_cons; [exists t; split; [by left|done]|auto].
Qed.

Definition token_ok (k : RawToken) : Prop := is_u 32 (t_line k) ∧ is_u 32 (t_start k) ∧ 0 < t_len k.
Lemma delta_roundtrip l : ∀ pl ps, 0 ≤ pl → 0 ≤ ps → StronglySorted token_lt l → Forall token_ok l →
  Forall (λ k, pl < t_line k ∨ (pl = t_line k ∧ ps ≤ t_start k)) l →
  decode_from pl ps (delta_encode_from pl ps l) = l.
Proof.
  induction l as [|k l IH]; intros pl ps Hpl Hps Hs Hok Hle; [done|].
  apply StronglySorted_inv in Hs as [Hs Hall]. apply Forall_cons in Hok as [[Hl [Hst _]] Hok], Hle as [Hk Hle].
  cbn [delta_encode_from decode_from delta_line delta_start length_ token_type].
  unfold is_u in Hl, Hst. unfold as_u32. rewrite (as_u_small 32 (t_line k - pl)) by (unfold is_u; lia).
  replace (pl + (t_line k - pl)) with (t_line k) by lia.
  assert (E : (if t_line k - pl =? 0 then ps + (if t_line k - pl =? 0 then as_u 32 (t_start k - ps) else t_start k)
      else (if t_line k - pl =? 0 then as_u 32 (t_start k - ps) else t_start k)) = t_start k).
  { destruct (Z.eqb_spec (t_line k - pl) 0); [|done]. rewrite (as_u_small 32 (t_start k - ps)) by (unfold is_u; lia). lia. }
  rewrite E. f_equal; [by destruct k|]. apply IH; [lia|lia|done|done|].
  eapply Forall_impl; [exact Hall|]. intros k' Hk'%token_lt_spec. lia.
Qed.

Lemma is_u_as_u32 z : is_u 32 (as_u32 z).
Proof. unfold is_u, as_u32, as_u. apply Z.mod_pos_bound. lia. Qed.
Lemma emit_spec ix n ty k : k ∈ emit ix n ty →
  t_line k = p_line (position ix (start_byte n)) ∧ t_start k = p_character (position ix (start_byte n))
  ∧ t_line k = p_line (position ix (end_byte n)) ∧ t_start k + t_len k = p_character (position ix (end_byte n)) ∧ token_ok k.
Proof.
  unfold emit. destruct (Z.eqb_spec (p_line (position ix (end_byte n))) (p_line (position ix (start_byte n)))) as [E|];
    [|by intros ?%elem_of_nil]. cbn [negb orb].
  destruct (Z.leb_spec (p_character (position ix (end_byte n))) (p_character (position ix (start_byte n))));
    [by intros ?%elem_of_nil|]. intros ->%list_elem_of_singleton. cbn [t_line t_start t_len].
  assert (H1 : ∀ b, is_u 32 (p_character (position ix b))) by (intros b; apply is_u_as_u32).
  pose proof (H1 (start_byte n)) as Ha. pose proof (H1 (end_byte n)) as Hb. unfold is_u in Ha, Hb.
  unfold as_u32. rewrite as_u_small by (unfold is_u; lia). split_and!; try done; try lia.
  unfold token_ok. cbn [t_line t_start t_len]. split_and!; [apply is_u_as_u32|done|lia].
Qed.

(** The nodes a token may be for: names and identifiers. *)
Definition named_kinds : list string :=
  ["class_declaration"; "interface_declaration"; "enum_declaration"; "record_declaration";
   "annotation_type_declaration"; "method_declaration"; "method_invocation"; "formal_parameter"; "spread_parameter";
   "catch_formal_parameter"; "enhanced_for_statement"; "instanceof_expression"; "variable_declarator"; "field_access";
   "enum_constant"].
Inductive token_node (n : Node) : Node → Prop :=
| token_self : kind n ∈ ["identifier"; "type_identifier"] → token_node n n
| token_identifier m : within n m → kind m = "identifier" → token_node n m
| token_name f m : kind n ∈ named_kinds → f ∈ ["name"; "field"] → child_by_field_name f n = Some m → token_node n m.

Lemma collect_identifiers_within n m : m ∈ collect_identifiers n → within n m ∧ kind m = "identifier".
Proof.
  revert m. induction n as [n IH] using size_ind. intros m. unfold collect_identifiers. rewrite descend_eq.
  - fold collect_identifiers. case_bool_decide as E; [intros ->%list_elem_of_singleton; by split; [constructor|]|].
    rewrite list_elem_of_In, in_flat_map. intros (c & Hc%list_elem_of_In & Hm%list_elem_of_In).
    destruct (IH c (child_smaller _ _ Hc) m Hm). split; [by eapply within_child|done].
  - intros a g h Hg. case_bool_decide; [done|]. apply flat_map_ext_elem. intros c Hc. by apply Hg, child_smaller.
Qed.
Lemma child_of_kind_token k n m : child_of_kind k n = Some m → k = "identifier" → token_node n m.
Proof.
  intros (Hc & _ & Hk)%child_of_kind_child ->. apply token_identifier; [|done]. eapply within_child; [done|constructor].
Qed.
Lemma method_reference_token n m : method_reference_method n = Some m → token_node n m.
Proof.
  unfold method_reference_method. destruct (_ <? _)%nat; [done|]. destruct (last (named_children n)) as [l|] eqn:E; [|done].
  cbn [mbind option_bind]. case_bool_decide as Hk; [|done]. intros [= <-]. apply token_identifier; [|done].
  apply last_Some_elem_of, named_child_is_child in E as [E _]. eapply within_child; [done|constructor].
Qed.

Section TokenNodes.
Context (source : string) (ix : LineIndex) (roles : gmap string Z).

Definition from_token (n : Node) (k : RawToken) : Prop := ∃ m ty, token_node n m ∧ k ∈ emit ix m ty.
Lemma from_emit n m ty k : token_node n m → k ∈ emit ix m ty → from_token n k.
Proof. intros H1 H2. by exists m, ty. Qed.
Lemma from_emit_opt n o ty k : (∀ m, o = Some m → token_node n m) → k ∈ emit_opt ix o ty → from_token n k.
Proof. destruct o as [m|]; [|by intros _ ?%elem_of_nil]. intros H. apply from_emit. auto. Qed.
Lemma from_named n f ty k : kind n ∈ named_kinds → f ∈ ["name"; "field"] → k ∈ emit_named ix n f ty → from_token n k.
Proof. intros Hk Hf. apply from_emit_opt. intros m Hm. by eapply token_name. Qed.
Lemma from_path n b k : k ∈ emit_namespace_path source ix n b → from_token n k.
Proof.
  unfold emit_namespace_path. assert (Hid : ∀ m, m ∈ collect_identifiers n → token_node n m).
  { intros m [Hw Hk]%collect_identifiers_within. by apply token_identifier. }
  destruct b; cbn [negb].
  - rewrite list_elem_of_In, in_concat. intros (l & Hl%list_elem_of_In & Hk%list_elem_of_In).
    apply elem_of_lookup_imap in Hl as (i & m & -> & Hm%list_elem_of_lookup_2). eapply from_emit; [by apply Hid|exact Hk].
  - rewrite list_elem_of_In, in_flat_map. intros (m & Hm%list_elem_of_In & Hk%list_elem_of_In).
    eapply from_emit; [by apply Hid|done].
Qed.

Lemma tokens_of_from n k : k ∈ tokens_of source ix roles n → from_token n k.
Proof.
  unfold tokens_of. cbv zeta. unfold named_kinds in *.
  repeat (case_bool_decide as Hk; [try (rewrite ?elem_of_cons in Hk)|clear Hk]); cbn [andb].
  all: try (apply from_named; set_solver).
  all: try (apply from_path).
  all: try (intros Hm; eapply from_emit; [apply token_self; set_solver|exact Hm]).
  - apply from_emit_opt. intros m Hm. by eapply child_of_kind_token.
  - apply from_emit_opt, method_reference_token.
  - destruct (child_by_field_name "name" n) as [m|] eqn:E; [|by intros ?%elem_of_nil].
    case_bool_decide; [|by intros ?%elem_of_nil]. apply from_emit. apply child_by_field_name_child in E as [E _].
    apply token_identifier; [eapply within_child; [done|constructor]|done].
  - destruct (negb _); [|by intros ?%elem_of_nil]. destruct (roles !! _); [|destruct (looks_like_type_name _)];
      try (by intros ?%elem_of_nil); apply from_emit, token_self; set_solver.
  - by intros ?%elem_of_nil.
Qed.
End TokenNodes.

Lemma token_node_within n m : token_node n m → within n m.
Proof.
  intros [Hk|m' Hw Hk|f m' Hk _ Hm]; [constructor|done|]. apply child_by_field_name_child in Hm as [Hm _].
  eapply within_child; [done|constructor].
Qed.

Definition before (a b : RawToken) : Prop :=
  t_line a < t_line b ∨ (t_line a = t_line b ∧ t_start a + t_len a ≤ t_start b).

Lemma StronglySorted_refine {A} (R S : A → A → Prop) l :
  (∀ a b, a ∈ l → b ∈ l → R a b → S a b) → StronglySorted R l → StronglySorted S l.
Proof.
  intros H Hs. induction Hs as [|a l Hs IH Hall]; constructor.
  - apply IH. intros x y Hx Hy. apply H; by right.
  - apply Forall_forall. intros b Hb. apply H; [by left|by right|]. by apply (proj1 (Forall_forall _ _) Hall).
Qed.

(** C27: Semantic tokens arrive as they were found.  Read the way the protocol
    says, relative to one another, the numbers sent give tokens in document
    order that do not overlap; each is one the analysis found, and every place
    it found has one.  Of the tree it takes that identifiers and the names of
    declarations are leaves. *)
Theorem semantic_tokens_exact source t e : is_str source → str_len source < 2 ^ 32 → fits source (root_node t) →
  (∀ n m, within (root_node t) n → token_node n m → children m = []) →
  let ix := new source e in
  let shown := decode (semantic_tokens source ix t) in
  StronglySorted before shown
  ∧ (∀ k, k ∈ shown → k ∈ raw_tokens source ix t)
  ∧ ∀ k, k ∈ raw_tokens source ix t → ∃ k', k' ∈ shown ∧ same_place k' k.
Proof.
  intros Hs Hlen Hf Hleaf ix.
  assert (Hraw : ∀ k, k ∈ raw_tokens source ix t → ∃ m ty, within (root_node t) m ∧ children m = [] ∧ k ∈ emit ix m ty).
  { intros k. unfold raw_tokens. rewrite walk_flat, list_elem_of_In, in_flat_map.
    intros (n & Hn%list_elem_of_In%visited_within & (m & ty & Hm & He)%list_elem_of_In%tokens_of_from).
    exists m, ty. split_and!; [eapply within_trans; [done|by apply token_node_within]|by eapply Hleaf|done]. }
  destruct (dedup_spec (sort_by token_cmp (raw_tokens source ix t)) (sort_by_sorted token_cmp _)) as (H1 & H2 & H3).
  set (l := dedup _) in *. assert (Hin : ∀ k, k ∈ l → k ∈ raw_tokens source ix t).
  { intros k Hk%H2. by rewrite sort_by_perm in Hk. }
  assert (Hok : Forall token_ok l).
  { apply Forall_forall. intros k (m & ty & _ & _ & He)%Hin%Hraw. by apply emit_spec in He as (_ & _ & _ & _ & ?). }
  assert (E : decode (semantic_tokens source ix t) = l).
  { apply delta_roundtrip; [lia|lia|done|done|]. eapply Forall_impl; [exact Hok|]. intros k (Ha & Hb & _).
    unfold is_u in Ha, Hb. lia. }
  rewrite E. split_and!; [|done|].
  - apply (StronglySorted_refine token_lt); [|done]. intros a b Ha Hb Hlt.
    destruct (Hraw a (Hin a Ha)) as (m & ty & Hm & Lm & Ea), (Hraw b (Hin b Hb)) as (m' & ty' & Hm' & Lm' & Eb).
    apply emit_spec in Ea as (A1 & A2 & A3 & A4 & _ & _ & A5), Eb as (B1 & B2 & B3 & B4 & _ & _ & B5).
    apply token_lt_spec in Hlt as [Hlt|[El Hlt]]; [by left|right]. split; [done|].
    assert (Hleaf' : ∀ x y, within x y → children x = [] → x = y).
    { intros x y [|c y' Hc _] Hx; [done|]. rewrite Hx in Hc. by apply elem_of_nil in Hc. }
    pose proof (Hf m Hm) as Fm. pose proof (Hf m' Hm') as Fm'.
    destruct (places_apart source _ m m' Hf Hm Hm') as [Hw|[Hw|[Hab|Hab]]].
    + apply Hleaf' in Hw; [|done]. subst m'. lia.
    + apply Hleaf' in Hw; [|done]. subst m'. lia.
    + assert (Hp : pos_le (position ix (end_byte m)) (position ix (start_byte m'))).
      { apply position_mono; try done; by (eapply fits_start || eapply fits_end). }
      unfold pos_le in Hp. lia.
    + assert (Hp : pos_le (position ix (end_byte m')) (position ix (start_byte m))).
      { apply position_mono; try done; by (eapply fits_start || eapply fits_end). }
      unfold pos_le in Hp. lia.
  - intros k Hk. apply H3. by rewrite sort_by_perm.
Qed.

(** ** An example *)

Module Sample.
(** [interface A { int K = 1; int f(); }], on four lines. *)
Definition source : string :=
  "interface A {" +:+ newline +:+ "  int K = 1;" +:+ newline +:+ "  int f();" +:+ newline +:+ "}".
Definition tree : Tree :=
  node 1 "program" 0 39 [
    node 2 "interface_declaration" 0 39 [
      token 3 "interface" 0 9;
      field "name" (node 4 "identifier" 10 11 []);
      field "body" (node 5 "interface_body" 12 39 [
        token 6 "{" 12 13;
        node 7 "constant_declaration" 16 26 [
          field "type" (node 8 "integral_type" 16 19 [token 9 "int" 16 19]);
          field "declarator" (node 10 "variable_declarator" 20 25 [
            field "name" (node 11 "identifier" 20 21 []); token 12 "=" 22 23;
            field "value" (node 13 "decimal_integer_literal" 24 25 [])]);
          token 14 ";" 25 26];
        node 15 "method_declaration" 29 37 [
          field "type" (node 16 "integral_type" 29 32 [token 17 "int" 29 32]);
          field "name" (node 18 "identifier" 33 34 []);
          field "parameters" (node 19 "formal_parameters" 34 36 [token 20 "(" 34 35; token 21 ")" 35 36]);
          token 22 ";" 36 37];
        token 23 "}" 38 39])]].
Lemma source_ok : is_str source ∧ str_len source < 2 ^ 32.
Proof. by vm_compute. Qed.
Lemma tree_fits : fits source (root_node tree).
Proof. apply fits_visited. by vm_compute. Qed.

(** The interface's constant is missing from its outline. *)
Lemma constants_not_outlined :
  match document_symbols source (new source Utf16Units) tree with
  | [Symbol "A" INTERFACE _ _ (Some [Symbol "f" METHOD _ _ None])] => True
  | _ => False
  end.
Proof. by vm_compute. Qed.

Lemma syntax_errors_shown_witness :
  syntax_diagnostics tree (new source Utf16Units) = [] ↔ has_error (root_node tree) = false.
Proof. exact (proj1 (syntax_errors_shown source tree (new source Utf16Units) tree_fits)). Defined.
Lemma outline_nested_witness :
  Forall (nested_in (range (new source Utf8Units) (root_node tree))) (document_symbols source (new source Utf8Units) tree).
Proof. apply (outline_nested source tree Utf8Units); [apply source_ok..|exact tree_fits]. Defined.
Definition leaf_check (n : Node) : bool :=
  implb (bool_decide (kind n ∈ ["identifier"; "type_identifier"])) (bool_decide (length (children n) = 0%nat))
  && forallb (λ c, implb (bool_decide (field_of c ∈ [Some "name"; Some "field"])) (bool_decide (length (children c) = 0%nat)))
       (children n).
Lemma leaves_ok : ∀ n m, within (root_node tree) n → token_node n m → children m = [].
Proof.
  assert (H : forallb leaf_check (visited (root_node tree)) = true) by by vm_compute.
  assert (Hl : ∀ n, within (root_node tree) n → leaf_check n = true).
  { rewrite forallb_forall in H. intros n Hn. by apply H, list_elem_of_In, visited_within. }
  assert (Hi : ∀ n, within (root_node tree) n → kind n ∈ ["identifier"; "type_identifier"] → children n = []).
  { intros n Hn Hk. specialize (Hl n Hn). apply andb_true_iff in Hl as [Hl _]. rewrite bool_decide_eq_true_2 in Hl by done.
    by apply bool_decide_eq_true, length_zero_iff_nil in Hl. }
  intros n m Hn [Hk|m' Hw Hk|f m' Hk Hf Hm]; 
    [by apply Hi|apply Hi; [by eapply within_trans|rewrite Hk; by left]|].
  apply child_by_field_name_child in Hm as [Hm Ef]. specialize (Hl n Hn). apply andb_true_iff in Hl as [_ Hl].
  rewrite forallb_forall in Hl. apply list_elem_of_In in Hm. specialize (Hl m' Hm).
  rewrite bool_decide_eq_true_2 in Hl 
    by (rewrite Ef; apply elem_of_cons in Hf as [->|[->|?%elem_of_nil]%elem_of_cons]; [by left|right; by left|done]). by apply bool_decide_eq_true, length_zero_iff_nil in Hl.
Qed.
Lemma semantic_tokens_exact_witness :
  decode (semantic_tokens source (new source Utf16Units) tree)
  = [mkRawToken 0 10 1 TT_TYPE; mkRawToken 1 6 1 TT_VARIABLE; mkRawToken 2 6 1 TT_METHOD]
  ∧ StronglySorted before (decode (semantic_tokens source (new source Utf16Units) tree)).
Proof.
  split; [by vm_compute|].
  apply (semantic_tokens_exact source tree Utf16Units); [apply source_ok..|exact tree_fits|exact leaves_ok].
Defined.
End Sample.

End Outline.
