(* ===== verification/Signatures.v ===== *)
(** * Rendered declarations ([crates/syntax/src/signature.rs])

    One-line signatures of declarations, where each parameter stands in them,
    and the comment that documents a declaration. *)
From Stdlib Require Import Ascii Sorted.
From S2P Require Import Prelude RustStd Utf8 Order LineIndex SyntaxTree Outline.
Import LineIndex(slice).

Module Signatures.

(** [split_whitespace]. *)
Fixpoint take_word (fuel : nat) (s : string) : string * string :=
  match fuel, s with
  | O, _ | _, EmptyString => ("", s)
  | S f, String a rest =>
      if starts_with_white_space s then ("", s)
      else let '(w, rest) := take_word f rest in (String a w, rest)
  end.
Fixpoint words_from (fuel : nat) (s : string) : list string :=
  match fuel with
  | O => []
  | S f =>
      match strip_any white_space s, s with
      | Some rest, _ => words_from f rest
      | None, EmptyString => []
      | None, _ => let '(w, rest) := take_word (String.length s) s in w :: words_from f rest
      end
  end.
Definition split_whitespace (s : string) : list string := words_from (S (String.length s)) s.
Definition collapse_ws (s : string) : string := str_join " " (split_whitespace s).

Definition modifiers_node (decl : Node) : option Node := child_of_kind "modifiers" decl.
Definition has_modifier (decl : Node) (source keyword : string) : bool :=
  match modifiers_node decl with
  | Some m => existsb (λ c, bool_decide (node_text c source = keyword)) (children m)
  | None => false
  end.

Section Render.
Context (source : string).

Definition text_of (n : option Node) : string := match n with Some n => node_text n source | None => "" end.
Definition name_text (n : Node) : string := text_of (child_by_field_name "name" n).
Definition type_text (n : Node) : option string :=
  (λ t, collapse_ws (node_text t source)) <$> child_by_field_name "type" n.

Definition modifier_keywords (decl : Node) : option string :=
  m ← modifiers_node decl;
  let kws := List.filter (λ s, negb (bool_decide (s = "")))
    ((λ c, node_text c source)
     <$> List.filter (λ c, negb (bool_decide (kind c ∈ ["marker_annotation"; "annotation"]))) (children m)) in
  match kws with [] => None | _ => Some (str_join " " kws) end.

Definition param_signature (n : Node) : string :=
  if bool_decide (kind n = "spread_parameter") then
    let ty := match List.find (λ c, negb (bool_decide (kind c ∈ ["modifiers"; "variable_declarator"]))) (named_children n) with
              | Some t => collapse_ws (node_text t source)
              | None => ""
              end in
    trim (ty +:+ "... " +:+ text_of (Outline.spread_param_name n))
  else trim (default "" (type_text n) +:+ " " +:+ name_text n).
Definition param_labels (n : Node) : list string :=
  match child_by_field_name "parameters" n with
  | None => []
  | Some params =>
      param_signature
      <$> List.filter (λ p, bool_decide (kind p ∈ ["formal_parameter"; "spread_parameter"; "receiver_parameter"]))
            (named_children params)
  end.
Definition parameters (n : Node) : string := str_join ", " (param_labels n).

Definition throws_clause (n : Node) : option string :=
  throws ← child_of_kind "throws" n;
  Some ("throws " +:+ str_join ", " ((λ t, collapse_ws (node_text t source)) <$> named_children throws)).

Definition opt_list {A} (o : option A) : list A := match o with Some a => [a] | None => [] end.
Definition method_signature (n : Node) : string :=
  let parts := opt_list (modifier_keywords n) ++ opt_list (type_text n) in
  let sig := trim_start (str_join " " parts +:+ " " +:+ name_text n +:+ "(" +:+ parameters n +:+ ")") in
  match throws_clause n with Some throws => sig +:+ " " +:+ throws | None => sig end.
Definition constructor_signature (n : Node) : string :=
  trim_start (str_join " " (opt_list (modifier_keywords n)) +:+ " " +:+ name_text n +:+ "(" +:+ parameters n +:+ ")").
Definition field_signature (declarator : Node) : string :=
  let parts := match parent declarator with
               | Some p => opt_list (modifier_keywords p) ++ opt_list (type_text p)
               | None => []
               end in
  trim_start (str_join " " (parts ++ [name_text declarator])).
Definition for_var_signature (n : Node) : string := trim (default "" (type_text n) +:+ " " +:+ name_text n).

Definition clause_types (clause : Node) : string :=
  str_join ", " (flat_map (λ c,
      if bool_decide (kind c = "type_list")
      then (λ t, collapse_ws (node_text t source)) <$> named_children c
      else [collapse_ws (node_text c source)]) (named_children clause)).
Definition type_keyword (k : string) : string :=
  if bool_decide (k = "interface_declaration") then "interface"
  else if bool_decide (k = "enum_declaration") then "enum"
  else if bool_decide (k = "record_declaration") then "record"
  else if bool_decide (k = "annotation_type_declaration") then "@interface"
  else "class".
Definition type_signature (n : Node) : string :=
  fold_left (λ sig c,
      if bool_decide (kind c ∈ ["superclass"; "extends_interfaces"]) then sig +:+ " extends " +:+ clause_types c
      else if bool_decide (kind c = "super_interfaces") then sig +:+ " implements " +:+ clause_types c
      else sig)
    (named_children n) (type_keyword (kind n) +:+ " " +:+ name_text n).

Definition signature (n : Node) : option string :=
  let k := kind n in
  if bool_decide (k ∈ ["method_declaration"; "annotation_type_element_declaration"]) then Some (method_signature n)
  else if bool_decide (k = "constructor_declaration") then Some (constructor_signature n)
  else if bool_decide (k = "variable_declarator") then Some (field_signature n)
  else if bool_decide (k ∈ ["formal_parameter"; "spread_parameter"; "catch_formal_parameter"]) then Some (param_signature n)
  else if bool_decide (k = "enhanced_for_statement") then Some (for_var_signature n)
  else if bool_decide (k = "enum_constant") then name ← child_by_field_name "name" n; Some (node_text name source)
  else if bool_decide (k ∈ ["class_declaration"; "interface_declaration"; "enum_declaration"; "record_declaration";
      "annotation_type_declaration"]) then Some (type_signature n)
  else None.

Definition erased_signature (n : Node) : option string :=
  let k := kind n in
  if bool_decide (k ∈ ["method_declaration"; "annotation_type_element_declaration"]) then
    Some (default "void" (type_text n) +:+ " " +:+ name_text n +:+ "(" +:+ parameters n +:+ ")")
  else if bool_decide (k = "constructor_declaration") then Some (name_text n +:+ "(" +:+ parameters n +:+ ")")
  else if bool_decide (k = "variable_declarator") then
    Some (trim (default "" (p ← parent n; type_text p) +:+ " " +:+ name_text n))
  else signature n.
End Render.

(** ** Places in a label *)

Definition OPEN : Z := 40.
Definition CLOSE : Z := 41.
Fixpoint position_of (b : Z) (l : list Z) : option nat :=
  match l with [] => None | x :: l => if x =? b then Some O else S <$> position_of b l end.
(** The index in [l] at which the depth comes back to zero. *)
Fixpoint matching (depth : Z) (l : list Z) : option nat :=
  match l with
  | [] => None
  | b :: l =>
      if b =? OPEN then S <$> matching (depth + 1) l
      else if b =? CLOSE then if depth - 1 =? 0 then Some O else S <$> matching (depth - 1) l
      else S <$> matching depth l
  end.
Definition param_list_span (label : string) : option (nat * nat) :=
  let bytes := as_bytes label in
  open ← position_of OPEN bytes;
  close ← matching 0 (drop open bytes);
  Some (open, (open + close)%nat).

(** The search for each parameter from where the one before ends. *)
Fixpoint param_offsets (label : string) (close search_from : nat) (params : list string) : option (list (nat * nat)) :=
  match params with
  | [] => Some []
  | p :: params =>
      idx ← str_find p (slice label search_from close);
      let s := (search_from + idx)%nat in
      let e := (s + String.length p)%nat in
      rest ← param_offsets label close e params;
      Some ((s, e) :: rest)
  end.
Definition signature_with_param_offsets (n : Node) (source : string) : option (string * list (Z * Z)) :=
  match signature source n with
  | None => None
  | Some label =>
      let params := param_labels source n in
      if bool_decide (params = []) then Some (label, [])
      else match param_list_span label with
           | None => None
           | Some (open, close) =>
               match param_offsets label close (S open) params with
               | None => None
               | Some offsets =>
                   Some (label, (λ se : nat * nat, (as_u32 (Z.of_nat se.1), as_u32 (Z.of_nat se.2))) <$> offsets)
               end
           end
  end.

(** Commas outside every bracket, plus one. *)
Fixpoint count_commas (depth : Z) (l : list Z) : nat :=
  match l with
  | [] => O
  | b :: l =>
      if bool_decide (b ∈ [40; 91; 60]) then count_commas (depth + 1) l
      else if bool_decide (b ∈ [41; 93; 62]) then count_commas (depth - 1) l
      else if (b =? 44) && (depth =? 0) then S (count_commas depth l)
      else count_commas depth l
  end.
Definition param_count_in_label (label : string) : nat :=
  match param_list_span label with
  | None => O
  | Some (open, close) =>
      let inner := slice label (S open) close in
      if bool_decide (trim inner = "") then O else S (count_commas 0 (as_bytes inner))
  end.

(** ** Documentation comments *)

Fixpoint previous_siblings (fuel : nat) (n : Node) : list Node :=
  match fuel with
  | O => []
  | S f => match prev_sibling n with Some s => s :: previous_siblings f s | None => [] end
  end.
Definition strip_star (l : string) : string :=
  let t := trim_start l in
  let t := default t (strip_prefix "*" t) in
  default t (strip_prefix " " t).
(** [strip_javadoc] up to the rendering of tags, which is [render]. *)
Definition strip_javadoc (render : string → string) (raw : string) : string :=
  let inner := default raw (strip_suffix "*/" (default raw (strip_prefix "/**" raw))) in
  render (trim (str_join newline (strip_star <$> str_lines inner))).
Definition doc_comment (render : string → string) (source : string) (siblings : list Node) : option string :=
  match List.find (λ s, negb (bool_decide (kind s = "line_comment"))) siblings with
  | Some s =>
      if bool_decide (kind s = "block_comment") then
        let text := node_text s source in
        if starts_with "/**" text then
          let rendered := strip_javadoc render text in
          if bool_decide (rendered = "") then None else Some rendered
        else None
      else None
  | None => None
  end.
Definition javadoc (render : string → string) (decl : Node) (source : string) : option string :=
  let target := if bool_decide (kind decl = "variable_declarator") then default decl (parent decl) else decl in
  doc_comment render source
    (previous_siblings (match parent target with Some p => length (children p) | None => O end) target).

(** ** The highlight is the parameter *)

(** Reading on from depth [d], never back to zero. *)
Fixpoint depth_after (d : Z) (l : list Z) : option Z :=
  match l with
  | [] => Some d
  | b :: l =>
      if b =? OPEN then depth_after (d + 1) l
      else if b =? CLOSE then if d - 1 =? 0 then None else depth_after (d - 1) l
      else depth_after d l
  end.
Lemma matching_app l k : ∀ d d', depth_after d l = Some d' → matching d (l ++ k) = Nat.add (length l) <$> matching d' k.
Proof.
  induction l as [|b l IH]; intros d d'; cbn [depth_after matching app length].
  - intros [= ->]. destruct (matching d' k); done.
  - destruct (b =? OPEN); [|destruct (b =? CLOSE); [destruct (d - 1 =? 0); [done|]|]]; intros H; rewrite (IH _ _ H);
      by destruct (matching d' k).
Qed.
Lemma depth_after_app l k : ∀ d d', depth_after d l = Some d' → depth_after d (l ++ k) = depth_after d' k.
Proof.
  induction l as [|b l IH]; intros d d'; cbn [depth_after app]; [by intros [= ->]|].
  destruct (b =? OPEN); [|destruct (b =? CLOSE); [destruct (d - 1 =? 0); [done|]|]]; apply IH.
Qed.

(** A rendered parameter: its parentheses match, and it begins with its type. *)
Record param_ok (p : string) : Prop := {
  param_depth : depth_after 1 (as_bytes p) = Some 1;
  param_nonempty : p ≠ "";
  param_start : starts_with "," p = false ∧ starts_with " " p = false }.

Lemma join_depth ps : Forall param_ok ps → depth_after 1 (as_bytes (str_join ", " ps)) = Some 1.
Proof.
  induction 1 as [|p ps Hp _ IH]; [done|]. destruct ps as [|q ps]; [apply Hp|].
  change (str_join ", " (p :: q :: ps)) with (p +:+ ", " +:+ str_join ", " (q :: ps)).
  rewrite as_bytes_app, (depth_after_app _ _ _ _ (param_depth _ Hp)). change (as_bytes (", " +:+ ?x)) with (44 :: 32 :: as_bytes x).
  exact IH.
Qed.
Lemma position_of_app b l k : b ∉ l → position_of b (l ++ b :: k) = Some (length l).
Proof.
  induction l as [|x l IH]; intros Hn; cbn; [by rewrite Z.eqb_refl|].
  apply not_elem_of_cons in Hn as [Hx Hn]. destruct (Z.eqb_spec x b); [by subst|]. by rewrite IH.
Qed.

Lemma param_list_span_spec pre inner post : OPEN ∉ as_bytes pre → depth_after 1 (as_bytes inner) = Some 1 →
  param_list_span (pre +:+ "(" +:+ inner +:+ ")" +:+ post)
  = Some (String.length pre, (S (String.length pre + String.length inner))%nat).
Proof.
  intros Hpre Hin. unfold param_list_span.
  assert (E : as_bytes (pre +:+ "(" +:+ inner +:+ ")" +:+ post)
    = as_bytes pre ++ OPEN :: as_bytes inner ++ CLOSE :: as_bytes post) by (by rewrite !as_bytes_app).
  rewrite E, position_of_app by done. cbn [mbind option_bind]. rewrite drop_app_length.
  cbn [matching]. rewrite Z.eqb_refl, (matching_app _ _ _ _ Hin). simpl. rewrite !length_as_bytes. do 2 f_equal. lia.
Qed.

(** Where the parameters stand when the list begins at [s]. *)
Fixpoint layout (s : nat) (ps : list string) : list (nat * nat) :=
  match ps with
  | [] => []
  | p :: ps => (s, (s + String.length p)%nat) :: layout (s + String.length p + 2) ps
  end.

Lemma str_find_here p r : str_find p (p +:+ r) = Some O.
Proof.
  assert (starts_with p (p +:+ r) = true) as Hs by (apply starts_with_spec; by exists r).
  destruct (p +:+ r); cbn [str_find]; by rewrite Hs.
Qed.
Lemma str_find_after_comma p r : param_ok p → str_find p (", " +:+ p +:+ r) = Some 2%nat.
Proof.
  intros [_ Hne [Hc Hs]]. change (", " +:+ p +:+ r) with (String "," (String " " (p +:+ r))).
  destruct p as [|a p]; [done|]. rewrite starts_with_cons in Hc, Hs.
  cbn [str_find]. rewrite !starts_with_cons.
  assert (Ha : Ascii.eqb a "," = false).
  { destruct (Ascii.eqb_spec a ","); [|done]. subst a. by rewrite Ascii.eqb_refl in Hc. }
  assert (Hb : Ascii.eqb a " " = false).
  { destruct (Ascii.eqb_spec a " "); [|done]. subst a. by rewrite Ascii.eqb_refl in Hs. }
  rewrite Ha, Hb. cbn [andb]. by rewrite str_find_here.
Qed.

Lemma slice_mid a b c lo hi : lo = String.length a → hi = (String.length a + String.length b)%nat →
  slice (a +:+ b +:+ c) lo hi = b.
Proof. intros -> ->. apply LineIndex.slice_app. Qed.
Lemma offsets_after_comma ps : Forall param_ok ps → ps ≠ [] → ∀ a post close,
  close = (String.length a + 2 + String.length (str_join ", " ps))%nat →
  param_offsets (a +:+ ", " +:+ str_join ", " ps +:+ post) close (String.length a) ps
  = Some (layout (String.length a + 2) ps).
Proof.
  induction 1 as [|p ps Hp Hps IH]; [done|]. intros _ a post close Hc. cbn [param_offsets layout].
  assert (Es : slice (a +:+ ", " +:+ str_join ", " (p :: ps) +:+ post) (String.length a) close = ", " +:+ str_join ", " (p :: ps)).
  { rewrite <-(str_app_assoc ", "). apply slice_mid; [done|]. rewrite str_length_app. simpl String.length in *. lia. }
  rewrite Es. destruct ps as [|q ps].
  - change (str_join ", " [p]) with p. rewrite <-(str_app_nil_r p) at 2. rewrite str_find_after_comma by done.
    cbn [mbind option_bind]. done.
  - change (str_join ", " (p :: q :: ps)) with (p +:+ ", " +:+ str_join ", " (q :: ps)) in *.
    rewrite str_find_after_comma by done. cbn [mbind option_bind].
    assert (El : a +:+ ", " +:+ (p +:+ ", " +:+ str_join ", " (q :: ps)) +:+ post
      = (a +:+ ", " +:+ p) +:+ ", " +:+ str_join ", " (q :: ps) +:+ post) by (by rewrite !str_app_assoc).
    assert (En : (String.length a + 2 + String.length p)%nat = String.length (a +:+ ", " +:+ p)).
    { rewrite !str_length_app. simpl. lia. }
    rewrite El, En, IH; [by rewrite <-En|done|]. rewrite <-En, Hc, !str_length_app. simpl String.length. lia.
Qed.
Lemma param_offsets_layout ps a post : Forall param_ok ps →
  param_offsets (a +:+ str_join ", " ps +:+ post) (String.length a + String.length (str_join ", " ps))%nat (String.length a) ps
  = Some (layout (String.length a) ps).
Proof.
  intros H. destruct H as [|p ps Hp Hps]; [done|]. cbn [param_offsets layout]. rewrite slice_mid by done.
  destruct ps as [|q ps].
  - change (str_join ", " [p]) with p. rewrite <-(str_app_nil_r p) at 2. rewrite str_find_here. cbn [mbind option_bind].
    by rewrite Nat.add_0_r.
  - change (str_join ", " (p :: q :: ps)) with (p +:+ ", " +:+ str_join ", " (q :: ps)).
    rewrite str_find_here. cbn [mbind option_bind]. rewrite Nat.add_0_r.
    assert (El : a +:+ (p +:+ ", " +:+ str_join ", " (q :: ps)) +:+ post
      = (a +:+ p) +:+ ", " +:+ str_join ", " (q :: ps) +:+ post) by (by rewrite !str_app_assoc).
    rewrite El, <-str_length_app, offsets_after_comma; [done..|]. rewrite !str_length_app. simpl String.length. lia.
Qed.

(** Leading white space goes, the parenthesis stays. *)
Lemma strip_all_open f ps a r : Forall (λ p, contains_char "(" p = false ∧ p ≠ "") ps →
  ∃ b c, a = b +:+ c ∧ strip_all f ps (a +:+ String "(" r) = c +:+ String "(" r.
Proof.
  intros Hps. revert a. induction f as [|f IH]; intros a; [by exists "", a|]. cbn [strip_all].
  destruct (strip_any ps (a +:+ String "(" r)) as [t|] eqn:E; [|by exists "", a].
  assert (Ht : ∃ x a', a = x +:+ a' ∧ t = a' +:+ String "(" r).
  { clear IH. induction Hps as [|p ps [Hp Hne] _ IHps]; [done|]. cbn [strip_any] in E.
    destruct (strip_prefix p (a +:+ String "(" r)) as [t'|] eqn:Ep; [|by apply IHps]. injection E as ->.
    apply strip_prefix_Some in Ep. clear IHps Hne. revert p Hp Ep. induction a as [|x a IHa]; intros p Hp Ep.
    - destruct p as [|y p]; [by exists "", ""|]. injection Ep as <- _. cbn [contains_char] in Hp. by rewrite Ascii.eqb_refl in Hp.
    - destruct p as [|y p]; [by exists "", (String x a)|]. cbn in Ep. injection Ep as <- Ep.
      destruct (IHa p) as (u & v & -> & ->); [by apply orb_false_iff in Hp as [_ ?]|done|]. by exists (String x u), v. }
  destruct Ht as (x & a' & -> & ->). destruct (IH a') as (b & c & -> & Eb). exists (x +:+ b), c.
  by rewrite str_app_assoc, Eb.
Qed.
Lemma trim_start_open a r : contains_char "(" a = false →
  ∃ pre, trim_start (a +:+ String "(" r) = pre +:+ String "(" r ∧ contains_char "(" pre = false.
Proof.
  intros Ha. unfold trim_start. destruct (strip_all_open (String.length (a +:+ String "(" r)) white_space a r) as (b & c & -> & E).
  { apply Forall_forall. intros p Hp. vm_compute in Hp.
    repeat (apply elem_of_cons in Hp as [->|Hp]; [by vm_compute|]). by apply elem_of_nil in Hp. }
  exists c. split; [done|]. rewrite contains_char_app in Ha. by apply orb_false_iff in Ha as [_ ?].
Qed.

(** What precedes the parameter list has no parenthesis. *)
Definition plain_head (source : string) (n : Node) : bool :=
  forallb (λ s, negb (contains_char "(" s)) (opt_list (modifier_keywords source n) ++ opt_list (type_text source n) ++ [name_text source n]).
Lemma join_no_char c sep ss : contains_char c sep = false → forallb (λ s, negb (contains_char c s)) ss = true →
  contains_char c (str_join sep ss) = false.
Proof.
  intros Hsep. induction ss as [|s ss IH]; [done|]. cbn [forallb]. intros [Hs Hss]%andb_true_iff.
  apply negb_true_iff in Hs. destruct ss as [|s' ss]; [done|].
  change (str_join sep (s :: s' :: ss)) with (s +:+ sep +:+ str_join sep (s' :: ss)).
  by rewrite !contains_char_app, Hs, Hsep, IH.
Qed.
Lemma contains_char_bytes c s : contains_char c s = false → byte_of_ascii c ∉ as_bytes s.
Proof.
  induction s as [|a s IH]; cbn; [intros _; apply not_elem_of_nil|]. intros [Ha Hs]%orb_false_iff.
  apply not_elem_of_cons. split; [|by apply IH]. intros E. apply N2Z.inj in E.
  apply (f_equal ascii_of_N) in E. rewrite !ascii_N_embedding in E. subst. by rewrite Ascii.eqb_refl in Ha.
Qed.

Lemma callable_signature source n :
  kind n ∈ ["method_declaration"; "annotation_type_element_declaration"; "constructor_declaration"] →
  plain_head source n = true →
  ∃ pre post, signature source n = Some (pre +:+ "(" +:+ str_join ", " (param_labels source n) +:+ ")" +:+ post)
    ∧ contains_char "(" pre = false.
Proof.
  intros Hk Hp. unfold plain_head in Hp. rewrite !forallb_app, !andb_true_iff in Hp. destruct Hp as (Hm & Ht & Hn).
  cbn [forallb] in Hn. rewrite andb_true_r in Hn. apply negb_true_iff in Hn.
  assert (Hhead : ∀ parts, forallb (λ s, negb (contains_char "(" s)) parts = true → ∃ pre,
    trim_start (str_join " " parts +:+ " " +:+ name_text source n +:+ "(" +:+ parameters source n +:+ ")")
    = pre +:+ "(" +:+ parameters source n +:+ ")" ∧ contains_char "(" pre = false).
  { intros parts Hparts.
    change ("(" +:+ parameters source n +:+ ")") with (String "(" (parameters source n +:+ ")")).
    replace (str_join " " parts +:+ " " +:+ name_text source n +:+ String "(" (parameters source n +:+ ")"))
      with ((str_join " " parts +:+ " " +:+ name_text source n) +:+ String "(" (parameters source n +:+ ")"))
      by (by rewrite !str_app_assoc).
    apply trim_start_open. rewrite !contains_char_app, Hn, join_no_char by done. done. }
  apply list_elem_of_In in Hk. unfold signature. destruct Hk as [<-|[<-|[<-|[]]]]; cbn;
    [destruct (Hhead (opt_list (modifier_keywords source n) ++ opt_list (type_text source n))) as (pre & E & Hpre);
       [by rewrite forallb_app, Hm, Ht|]..
    |destruct (Hhead (opt_list (modifier_keywords source n)) Hm) as (pre & E & Hpre)]; exists pre.
  1,2: unfold method_signature; rewrite E; destruct (throws_clause source n) as [th|];
    [exists (" " +:+ th)|exists ""]; rewrite ?str_app_nil_r; split; try done; by rewrite !str_app_assoc.
  exists "". unfold constructor_signature. by rewrite E.
Qed.

Lemma layout_slices a ps post : Forall2 (λ p se, slice (a +:+ str_join ", " ps +:+ post) se.1 se.2 = p)
  ps (layout (String.length a) ps).
Proof.
  revert a. induction ps as [|p ps IH]; intros a; cbn [layout]; constructor.
  - cbn [fst snd]. destruct ps as [|q ps]; [by apply slice_mid|].
    change (str_join ", " (p :: q :: ps)) with (p +:+ ", " +:+ str_join ", " (q :: ps)).
    rewrite (str_app_assoc p). by apply slice_mid.
  - destruct ps as [|q ps]; [constructor|].
    change (str_join ", " (p :: q :: ps)) with (p +:+ ", " +:+ str_join ", " (q :: ps)).
    specialize (IH (a +:+ p +:+ ", ")). rewrite !str_length_app, !str_app_assoc in IH. simpl String.length in IH.
    by rewrite !str_app_assoc, <-Nat.add_assoc.
Qed.
Lemma layout_bound ps : ∀ s, Forall (λ se : nat * nat, (s ≤ se.1 ≤ se.2)%nat ∧ (se.2 ≤ s + String.length (str_join ", " ps))%nat) (layout s ps).
Proof.
  induction ps as [|p ps IH]; intros s; cbn [layout]; [constructor|]. destruct ps as [|q ps].
  - constructor; [|constructor]. change (str_join ", " [p]) with p. cbn [fst snd]. lia.
  - change (str_join ", " (p :: q :: ps)) with (p +:+ ", " +:+ str_join ", " (q :: ps)). rewrite !str_length_app.
    constructor; [cbn [fst snd]; lia|]. eapply Forall_impl; [apply IH|]. intros [u v] H.
    change (String.length ", ") with 2%nat. cbn [fst snd] in *. lia.
Qed.

(** signature help highlights the right text.  The label of a method or
    constructor whose modifiers, return type and name hold no parenthesis is
    rendered with one span per parameter; span [i] of the label is exactly
    parameter [i], whatever the parameters' types contain, and whether or not a
    parameter's rendering also occurs before the list or earlier in it. *)
Theorem highlights_exact source n :
  kind n ∈ ["method_declaration"; "annotation_type_element_declaration"; "constructor_declaration"] →
  plain_head source n = true → Forall param_ok (param_labels source n) →
  ∃ pre post offsets, let label := pre +:+ "(" +:+ str_join ", " (param_labels source n) +:+ ")" +:+ post in
    signature source n = Some label ∧ contains_char "(" pre = false
    ∧ signature_with_param_offsets n source
      = Some (label, (λ se : nat * nat, (as_u32 (Z.of_nat se.1), as_u32 (Z.of_nat se.2))) <$> offsets)
    ∧ Forall2 (λ p se, slice label se.1 se.2 = p) (param_labels source n) offsets
    ∧ StronglySorted (λ a b : nat * nat, (a.2 < b.1)%nat) offsets
    ∧ Forall (λ se : nat * nat, (String.length pre < se.1)%nat ∧ (se.2 ≤ String.length label)%nat) offsets.
Proof.
  intros Hk Hh Hps. destruct (callable_signature source n Hk Hh) as (pre & post & Hs & Hpre).
  exists pre, post, (layout (S (String.length pre)) (param_labels source n)). cbv zeta.
  unfold signature_with_param_offsets. rewrite Hs. revert Hps. generalize (param_labels source n) as ps. intros ps Hps.
  assert (Epre : S (String.length pre) = String.length (pre +:+ "(")) by (rewrite str_length_app; simpl; lia).
  split; [done|]. split; [done|]. split; [|split; [|split]].
  - case_bool_decide as En; [by subst|].
    rewrite param_list_span_spec; [|by apply contains_char_bytes in Hpre|by apply join_depth].
    rewrite <-(str_app_assoc pre "("), <-Nat.add_succ_l, Epre, param_offsets_layout; done.
  - rewrite Epre, <-(str_app_assoc pre "("). apply layout_slices.
  - generalize (S (String.length pre)). induction ps as [|p ps IH]; intros s; cbn [layout]; constructor.
    + apply IH. by inversion Hps.
    + eapply Forall_impl; [apply layout_bound|]. intros [u v] H. cbn [fst snd] in *. lia.
  - eapply Forall_impl; [apply layout_bound|]. intros [u v] H. cbn [fst snd] in *. rewrite !str_length_app. simpl String.length. lia.
Qed.

(** ** An example *)

Module Sample.
Definition source : string := "class C { @A public String name(String name, String... rest) throws E; }".
Definition method : Node := root_node (
    node 24 "method_declaration" 10 70 [node 5 "modifiers" 10 19 [node 3 "marker_annotation" 10 12 [token 1 "@" 10
    11; field "name" (node 2 "identifier" 11 12 [])]; token 4 "public" 13 19]; field "type" (node 18
    "type_identifier" 20 26 []); field "name" (node 19 "identifier" 27 31 []); field "parameters" (node 17
    "formal_parameters" 31 60 [token 14 "(" 31 32; node 8 "formal_parameter" 32 43 [field "type" (node 6
    "type_identifier" 32 38 []); field "name" (node 7 "identifier" 39 43 [])]; token 15 "," 43 44; node 13
    "spread_parameter" 45 59 [node 9 "type_identifier" 45 51 []; token 10 "..." 51 54; node 12 "variable_declarator"
    55 59 [field "name" (node 11 "identifier" 55 59 [])]]; token 16 ")" 59 60]); node 22 "throws" 61 69 [token 20
    "throws" 61 67; node 21 "type_identifier" 68 69 []]; token 23 ";" 69 70]).
Definition label : string := "public String name(String name, String... rest) throws E".
Lemma highlights : signature_with_param_offsets method source = Some (label, [(19, 30); (32, 46)]).
Proof. by vm_compute. Qed.
Lemma highlights_exact_witness :
  ∃ pre post offsets, signature source method
      = Some (pre +:+ "(" +:+ str_join ", " (param_labels source method) +:+ ")" +:+ post)
    ∧ signature_with_param_offsets method source
      = Some (pre +:+ "(" +:+ str_join ", " (param_labels source method) +:+ ")" +:+ post,
              (λ se : nat * nat, (as_u32 (Z.of_nat se.1), as_u32 (Z.of_nat se.2))) <$> offsets)
    ∧ StronglySorted (λ a b : nat * nat, (a.2 < b.1)%nat) offsets.
Proof.
  destruct (highlights_exact source method) as (pre & post & offsets & Hs & _ & Ho & _ & Hsorted & _).
  - by left.
  - by vm_compute.
  - assert (E : param_labels source method = ["String name"; "String... rest"]) by by vm_compute.
    rewrite E. repeat constructor; by vm_compute.
  - exists pre, post, offsets. exact (conj Hs (conj Ho Hsorted)).
Defined.

(** The return type's annotation has the first parenthesis of the label. *)
Definition annotated_source : string := "class C { List<@Size(max=3) String> f(int a) { } }".
Definition annotated : Node := root_node (
    node 11 "method_declaration" 10 48 [field "type" (node 6 "generic_type" 10 35 [node 1 "type_identifier" 10 14
    []; node 5 "type_arguments" 14 35 [token 2 "<" 14 15; node 3 "annotated_type" 15 34 []; token 4 ">" 34 35]]);
    field "name" (node 92 "identifier" 36 37 []); field "parameters" (node 10 "formal_parameters" 37 44 [token 90
    "(" 37 38; node 9 "formal_parameter" 38 43 [field "type" (node 7 "integral_type" 38 41 []); field "name" (node 8
    "identifier" 42 43 [])]; token 91 ")" 43 44]); node 93 "block" 45 48 [token 94 "{" 45 46; token 95 "}" 47 48]]).
Lemma annotated_return_loses_highlight :
  signature annotated_source annotated = Some "List<@Size(max=3) String> f(int a)"
  ∧ param_list_span "List<@Size(max=3) String> f(int a)" = Some (10, 16)%nat
  ∧ signature_with_param_offsets annotated annotated_source = None.
Proof. by vm_compute. Qed.

(** An empty block comment before a declaration is shown as its documentation. *)
Definition commented_source : string := "class C { /**/ int x; }".
Definition commented : Tree :=
  node 1 "class_body" 8 24 [token 2 "{" 8 9; node 3 "block_comment" 10 14 []; node 4 "field_declaration" 15 21 []; token 5 "}" 22 23].
Lemma empty_comment_documented :
  ((λ n, javadoc id n commented_source) <$> last (named_children (root_node commented))) = Some (Some "/**/").
Proof. by vm_compute. Qed.
End Sample.

End Signatures.
