(* ===== verification/Dfs.v ===== *)
(** * Walks over a hierarchy

    The loops that follow the supertypes of a type share a shape: stop at a
    depth, stop at a type met before, look at the type itself, then at each of
    its supertypes in order.  This file has that shape once, and what it
    visits: every type the depth lets it reach, once, nearest first along
    each path. *)
From S2P Require Import Prelude.

Section Dfs.
Context {D K : Type} `{Countable K} (key : D → K) (succ : D → list D).

(** The types in the order of their visits; [fuel] is how much deeper the walk
    may go. *)
Fixpoint preorder (fuel : nat) (visited : gset K) (d : D) : list D * gset K :=
  match fuel with
  | O => ([], visited)
  | S fuel =>
      if decide (key d ∈ visited) then ([], visited)
      else let '(l, v) := fold_left (λ '(l, v) s, let '(l', v) := preorder fuel v s in (l ++ l', v))
                            (succ d) ([], {[key d]} ∪ visited) in
           (d :: l, v)
  end.

(** The first type at which [f] has an answer ends the walk. *)
Fixpoint walk_find {A} (f : D → option A) (fuel : nat) (visited : gset K) (d : D) : option A * gset K :=
  match fuel with
  | O => (None, visited)
  | S fuel =>
      if decide (key d ∈ visited) then (None, visited)
      else match f d with
           | Some a => (Some a, {[key d]} ∪ visited)
           | None =>
               fold_left (λ '(r, v) s, match r with Some _ => (r, v) | None => walk_find f fuel v s end)
                 (succ d) (None, {[key d]} ∪ visited)
           end
  end.

(** Every type changes [st]. *)
Fixpoint walk_all {A} (f : A → D → A) (fuel : nat) (st : A * gset K) (d : D) : A * gset K :=
  match fuel with
  | O => st
  | S fuel =>
      if decide (key d ∈ st.2) then st
      else fold_left (walk_all f fuel) (succ d) (f st.1 d, {[key d]} ∪ st.2)
  end.

Definition preorder_all (fuel : nat) (acc : list D * gset K) (l : list D) : list D * gset K :=
  fold_left (λ '(l, v) s, let '(l', v) := preorder fuel v s in (l ++ l', v)) l acc.
Lemma preorder_all_cons fuel acc v s l :
  preorder_all fuel (acc, v) (s :: l)
  = preorder_all fuel (acc ++ (preorder fuel v s).1, (preorder fuel v s).2) l.
Proof. unfold preorder_all. cbn [fold_left]. by destruct (preorder fuel v s). Qed.
Lemma preorder_all_acc fuel l : ∀ acc v,
  preorder_all fuel (acc, v) l = (acc ++ (preorder_all fuel ([], v) l).1, (preorder_all fuel ([], v) l).2).
Proof.
  induction l as [|s l IH]; intros acc v; [cbn; by rewrite app_nil_r|].
  rewrite !preorder_all_cons, (IH (acc ++ _)), (IH ([] ++ _)). cbn. by rewrite app_assoc.
Qed.
Lemma preorder_S fuel v d : preorder (S fuel) v d =
  if decide (key d ∈ v) then ([], v)
  else (d :: (preorder_all fuel ([], {[key d]} ∪ v) (succ d)).1, (preorder_all fuel ([], {[key d]} ∪ v) (succ d)).2).
Proof.
  cbn [preorder]. destruct (decide _); [done|]. fold (preorder_all fuel ([], {[key d]} ∪ v) (succ d)).
  by destruct (preorder_all _ _ _).
Qed.

(** ** The two walks follow the order *)

Lemma walk_find_preorder {A} (f : D → option A) fuel : ∀ v d,
  (walk_find f fuel v d).1 = find_map f (preorder fuel v d).1
  ∧ ((walk_find f fuel v d).1 = None → (walk_find f fuel v d).2 = (preorder fuel v d).2).
Proof.
  induction fuel as [|fuel IH]; intros v d; [done|]. rewrite preorder_S. cbn [walk_find].
  destruct (decide _); [done|]. cbn [fst snd find_map]. destruct (f d) as [a|]; [done|].
  generalize ({[key d]} ∪ v) as w. induction (succ d) as [|s l IHl]; intros w; [done|].
  rewrite preorder_all_cons, preorder_all_acc. cbn [fold_left fst snd]. rewrite app_nil_l, find_map_app.
  destruct (IH w s) as [E1 E2]. rewrite <-E1. destruct (walk_find f fuel w s) as [r w'] eqn:Ew. cbn [fst snd] in *.
  destruct r as [a|]; [|rewrite <-E2 by done; apply IHl].
  assert (E : ∀ l, fold_left (λ '(r, v) s, match r with Some _ => (r, v) | None => walk_find f fuel v s end) l (Some a, w')
    = (Some a, w')) by (clear; intros l; by induction l).
  by rewrite E.
Qed.
Lemma walk_all_preorder {A} (f : A → D → A) fuel : ∀ st v d,
  walk_all f fuel (st, v) d = (fold_left f (preorder fuel v d).1 st, (preorder fuel v d).2).
Proof.
  induction fuel as [|fuel IH]; intros st v d; [done|]. rewrite preorder_S. cbn [walk_all fst snd].
  destruct (decide _); [done|]. cbn [fst snd fold_left]. generalize (f st d) as a, ({[key d]} ∪ v) as w.
  induction (succ d) as [|s l IHl]; intros a w; [done|].
  rewrite preorder_all_cons, preorder_all_acc. cbn [fold_left fst snd]. rewrite app_nil_l, fold_left_app, IH. apply IHl.
Qed.

(** ** What is visited *)

Lemma preorder_visited fuel : ∀ v d x, x ∈ (preorder fuel v d).2 ↔ x ∈ v ∨ x ∈ key <$> (preorder fuel v d).1.
Proof.
  induction fuel as [|fuel IH]; intros v d x; [cbn; rewrite elem_of_nil; tauto|]. rewrite preorder_S.
  destruct (decide _); [cbn; rewrite elem_of_nil; tauto|]. cbn [fst snd]. rewrite fmap_cons, elem_of_cons.
  enough (E : ∀ w, x ∈ (preorder_all fuel ([], w) (succ d)).2 ↔ x ∈ w ∨ x ∈ key <$> (preorder_all fuel ([], w) (succ d)).1)
    by (rewrite E, elem_of_union, elem_of_singleton; tauto).
  induction (succ d) as [|s l IHl]; intros w; [cbn; rewrite elem_of_nil; tauto|].
  rewrite preorder_all_cons, preorder_all_acc. cbn [fst snd]. rewrite app_nil_l, fmap_app, elem_of_app, IHl, IH. tauto.
Qed.
Lemma preorder_NoDup fuel : ∀ v d, NoDup (key <$> (preorder fuel v d).1)
  ∧ ∀ x, x ∈ key <$> (preorder fuel v d).1 → x ∉ v.
Proof.
  induction fuel as [|fuel IH]; intros v d; [split; [constructor|by intros x Hx%elem_of_nil]|]. rewrite preorder_S.
  destruct (decide _) as [|Hd]; [split; [constructor|by intros x Hx%elem_of_nil]|]. cbn [fst snd].
  enough (E : ∀ w, NoDup (key <$> (preorder_all fuel ([], w) (succ d)).1)
    ∧ ∀ x, x ∈ key <$> (preorder_all fuel ([], w) (succ d)).1 → x ∉ w).
  { destruct (E ({[key d]} ∪ v)) as [E1 E2]. rewrite fmap_cons. split.
    - constructor; [|done]. intros Hx%E2. set_solver.
    - intros x [->|Hx]%elem_of_cons; [done|]. apply E2 in Hx. set_solver. }
  induction (succ d) as [|s l IHl]; intros w; [split; [constructor|by intros x Hx%elem_of_nil]|].
  rewrite preorder_all_cons, preorder_all_acc. cbn [fst snd]. rewrite app_nil_l, fmap_app.
  destruct (IH w s) as [H1 H2]. destruct (IHl (preorder fuel w s).2) as [H3 H4]. split.
  - apply NoDup_app. split; [done|]. split; [|done]. intros x Hx Hx'. apply H4 in Hx'. apply Hx'.
    apply preorder_visited. by right.
  - intros x [Hx|Hx]%elem_of_app; [by apply H2|]. apply H4 in Hx. intros Hw. apply Hx, preorder_visited. by left.
Qed.

(** Reached along the edges. *)
Definition reach : D → D → Prop := rtc (λ a b, b ∈ succ a).
Lemma preorder_reach fuel : ∀ v d x, x ∈ (preorder fuel v d).1 → reach d x.
Proof.
  induction fuel as [|fuel IH]; intros v d x; [by intros Hx%elem_of_nil|]. rewrite preorder_S.
  destruct (decide _); [by intros Hx%elem_of_nil|]. cbn [fst]. intros [->|Hx]%elem_of_cons; [reflexivity|].
  enough (E : ∀ l w, (∀ s, s ∈ l → s ∈ succ d) → x ∈ (preorder_all fuel ([], w) l).1 → reach d x) by (eapply E; [|done]; auto).
  clear Hx. induction l as [|s l IHl]; intros w Hl; [by intros Hx%elem_of_nil|].
  rewrite preorder_all_cons, preorder_all_acc. cbn [fst]. intros [Hx|Hx]%elem_of_app.
  - eapply rtc_l; [apply Hl; by left|]. by eapply IH.
  - eapply IHl; [|done]. intros t Ht. apply Hl. by right.
Qed.

(** ** Nothing is left out

    When the types that can be reached have at most [fuel] keys, the depth
    ends no path: a path has no key twice. *)
Context (root : D) (U : gset K).
Hypothesis keys_in : ∀ x, reach root x → key x ∈ U.
Hypothesis keys_inj : ∀ x y, reach root x → reach root y → key x = key y → x = y.

(** Every visited type outside the path [G] has its successors visited. *)
Definition closed_but (G V : gset K) : Prop :=
  ∀ x, reach root x → key x ∈ V → key x ∉ G → ∀ y, y ∈ succ x → key y ∈ V.

Lemma preorder_closed fuel : ∀ G V d, reach root d → G ⊆ V → G ⊆ U → (size U ≤ fuel + size G)%nat →
  closed_but G V →
  let V' := (preorder fuel V d).2 in V ⊆ V' ∧ key d ∈ V' ∧ closed_but G V'.
Proof.
  induction fuel as [|fuel IH]; intros G V d Hd HGV HGU Hs Hc; cbv zeta.
  { assert (E : G ≡ U) by (by apply set_subseteq_size_equiv). cbn.
    split; [done|]. split; [|done]. apply HGV, E. auto. }
  rewrite preorder_S. destruct (decide (key d ∈ V)) as [Hin|Hnin]; [done|]. cbn [snd].
  assert (HG' : (size U ≤ fuel + size ({[key d]} ∪ G))%nat).
  { rewrite size_union, size_singleton by set_solver. lia. }
  assert (HGU' : {[key d]} ∪ G ⊆ U) by (apply union_subseteq; split; [apply singleton_subseteq_l; auto|done]).
  enough (E : ∀ l W, (∀ s, s ∈ l → s ∈ succ d) → {[key d]} ∪ G ⊆ W → closed_but ({[key d]} ∪ G) W →
    let W' := (preorder_all fuel ([], W) l).2 in
    W ⊆ W' ∧ (∀ s, s ∈ l → key s ∈ W') ∧ closed_but ({[key d]} ∪ G) W').
  { destruct (E (succ d) ({[key d]} ∪ V)) as (E1 & E2 & E3); [done|set_solver| |].
    - intros x Hx Hk Hg y Hy. apply elem_of_union_r. apply (Hc x); [done|set_solver..|done].
    - split; [set_solver|]. split; [set_solver|]. intros x Hx Hk Hg y Hy.
      destruct (decide (key x = key d)) as [Ek|Ek].
      + apply keys_inj in Ek; [subst x|done..]. by apply E2.
      + apply (E3 x); [done..|set_solver|done]. }
  induction l as [|s l IHl]; intros W Hl HW HcW; cbv zeta.
  { cbn. split; [done|]. split; [|done]. by intros s Hs'%elem_of_nil. }
  rewrite preorder_all_cons, preorder_all_acc. cbn [fst snd].
  assert (Hrs : reach root s) by (eapply rtc_r; [done|]; apply Hl; by left).
  destruct (IH ({[key d]} ∪ G) W s Hrs HW HGU' HG' HcW) as (A1 & A2 & A3).
  destruct (IHl (preorder fuel W s).2) as (B1 & B2 & B3);
    [intros t Ht; apply Hl; by right|by etrans|done|].
  split; [by etrans|]. split; [|done]. intros t [->|Ht]%elem_of_cons; [by apply B1|by apply B2].
Qed.

Theorem preorder_complete fuel : (size U ≤ fuel)%nat →
  ∀ x, x ∈ (preorder fuel ∅ root).1 ↔ reach root x.
Proof.
  intros Hs x. split; [apply preorder_reach|]. intros Hx.
  destruct (preorder_closed fuel ∅ ∅ root) as (_ & Hr & Hc);
    [reflexivity|done|apply empty_subseteq|rewrite size_empty; lia|by intros y _ Hy%elem_of_empty|].
  assert (Hk : key x ∈ (preorder fuel ∅ root).2).
  { clear Hs. enough (reach root x ∧ key x ∈ (preorder fuel ∅ root).2) as [_ ?] by done.
    revert x Hx. apply (rtc_ind_r (λ x, reach root x ∧ key x ∈ (preorder fuel ∅ root).2)); [split; [reflexivity|done]|].
    intros x y Hx Hxy [_ IH]. split; [by eapply rtc_r|]. apply (Hc x Hx IH); [by apply not_elem_of_empty|done]. }
  apply preorder_visited in Hk as [Hk%elem_of_empty|Hk]; [done|]. apply list_elem_of_fmap in Hk as (y & Ey & Hy).
  rewrite (keys_inj x y); [done..|by eapply preorder_reach|done].
Qed.
End Dfs.
