(* ===== verification/SourceModel.v ===== *)
(** * Declarations of the open documents
    ([crates/syntax/src/imports.rs], [crates/syntax/src/model.rs])

    The imports of a document, the types it declares with their members, the
    table of all of them, and what a type name means at a place: a declaration
    or nothing. *)
From Stdlib Require Import Ascii.
From S2P Require Import Prelude RustStd SyntaxTree Dfs JTypes Symbols Signatures.
Import Symbols.Symbols(SymbolSource, class).
Import Signatures(modifiers_node, has_modifier).

Module SourceModel.

(** ** Imports *)

Fixpoint skip_char (c : ascii) (s : string) : string :=
  match s with
  | EmptyString => ""
  | String a rest => if Ascii.eqb a c then skip_char c rest else s
  end.
Definition trim_end_char (c : ascii) (s : string) : string := str_rev (skip_char c (str_rev s)).
Definition dotted_path (text keyword : string) : option string :=
  rest ← strip_prefix keyword (trim text);
  let path := without_white_space (trim_end_char ";" (trim rest)) in
  if bool_decide (path = "") then None else Some path.

Record Imports := mkImports { package : option string; single : gmap string string; wildcards : list string }.
Definition import_text (imports : Imports) (text : string) : Imports :=
  if starts_with "import static" (trim_start text) then imports
  else match dotted_path text "import" with
       | None => imports
       | Some path =>
           match strip_suffix ".*" path with
           | Some pkg => mkImports (package imports) (single imports) (wildcards imports ++ [pkg])
           | None => mkImports (package imports) (<[split_last "." path := path]> (single imports)) (wildcards imports)
           end
       end.
Definition parse_child (source : string) (imports : Imports) (child : Node) : Imports :=
  if bool_decide (kind child = "package_declaration") then
    mkImports (dotted_path (node_text child source) "package") (single imports) (wildcards imports)
  else if bool_decide (kind child = "import_declaration") then import_text imports (node_text child source)
  else imports.
Definition parse (tree : Tree) (source : string) : Imports :=
  fold_left (parse_child source) (named_children (root_node tree)) (mkImports None ∅ []).
Definition single_import (imports : Imports) (simple : string) : option string := single imports !! simple.
Definition has_wildcard (imports : Imports) (pkg : string) : bool := bool_decide (pkg ∈ wildcards imports).
Definition in_package (pkg : option string) (simple : string) : string :=
  match pkg with Some pkg => pkg +:+ "." +:+ simple | None => simple end.
Definition candidate_names (imports : Imports) (simple : string) : list string :=
  Signatures.opt_list (single imports !! simple) ++ in_package (package imports) simple
  :: ((λ w, w +:+ "." +:+ simple) <$> wildcards imports) ++ ["java.lang." +:+ simple].

(** ** Declarations *)

Record DeclSite := mkDeclSite { ds_doc : nat; ds_name_range : nat * nat; ds_full_range : nat * nat }.
Definition byte_range (n : Node) : nat * nat := (start_byte n, end_byte n).
Definition decl_site_of (doc : nat) (n : Node) : option DeclSite :=
  name ← child_by_field_name "name" n; Some (mkDeclSite doc (byte_range name) (byte_range n)).

Inductive TypeKind := Class_ | Interface | Enum | Record_ | Annotation.
#[export] Instance TypeKind_eq_dec : EqDecision TypeKind.
Proof. solve_decision. Defined.
Definition keyword (k : TypeKind) : string :=
  match k with Class_ => "class" | Interface => "interface" | Enum => "enum" | Record_ => "record" | Annotation => "@interface" end.
Definition from_kind (k : string) : option TypeKind :=
  if bool_decide (k = "class_declaration") then Some Class_
  else if bool_decide (k = "interface_declaration") then Some Interface
  else if bool_decide (k = "enum_declaration") then Some Enum
  else if bool_decide (k = "record_declaration") then Some Record_
  else if bool_decide (k = "annotation_type_declaration") then Some Annotation
  else None.
Definition body_kind (k : TypeKind) : string :=
  match k with
  | Class_ | Record_ => "class_body"
  | Interface => "interface_body"
  | Enum => "enum_body"
  | Annotation => "annotation_type_body"
  end.

Inductive MemberKind := Method | Field | EnumConstant | NestedType (k : TypeKind).
Record Member := mkMember {
  m_name : string; m_kind : MemberKind; m_node : Node; m_is_static : bool; m_source : string; m_doc : nat }.
Definition member_site (m : Member) : option DeclSite := decl_site_of (m_doc m) (m_node m).

Record TypeDecl := mkTypeDecl {
  td_name : string; td_kind : TypeKind; td_super_nodes : list Node; td_node : Node; td_source : string; td_doc : nat;
  td_binary_name : option string; td_type_id : TypeId }.

(** The names of the enclosing types, outermost first, and nothing for a
    declaration in a body. *)
Fixpoint enclosing_names (source : string) (ancs : list Node) (names : list string) : option (list string) :=
  match ancs with
  | [] => Some names
  | a :: ancs =>
      let k := kind a in
      if bool_decide (k = "program") then Some names
      else if bool_decide (k ∈ ["block"; "method_declaration"; "constructor_declaration"; "lambda_expression"]) then None
      else if bool_decide (k = "object_creation_expression")
           && existsb (λ c, bool_decide (kind c = "class_body")) (named_children a) then None
      else
        let name := match from_kind k with Some _ => child_by_field_name "name" a | None => None end in
        enclosing_names source ancs (match name with Some n => node_text n source :: names | None => names end)
  end.
Definition binary_identity (n : Node) (name source : string) (doc : nat) (package : option string) :
    option string * TypeId :=
  match enclosing_names source (ancestors n) [name] with
  | None => (None, TLocal (Z.of_nat doc) (Z.of_nat (node_id n)))
  | Some names =>
      let qualified := str_join "$" names in
      let binary := match package with
                    | Some p => if bool_decide (p = "") then qualified else p +:+ "." +:+ qualified
                    | None => qualified
                    end in
      (Some binary, TNamed binary)
  end.

Definition super_type_nodes (n : Node) : list Node :=
  flat_map (λ child,
      if bool_decide (kind child ∈ ["superclass"; "extends_interfaces"; "super_interfaces"]) then
        flat_map (λ ty, if bool_decide (kind ty = "type_list") then named_children ty else [ty]) (named_children child)
      else []) (named_children n).
Definition from_node (n : Node) (source : string) (doc : nat) (package : option string) : option TypeDecl :=
  k ← from_kind (kind n);
  name_node ← child_by_field_name "name" n;
  let name := node_text name_node source in
  let '(binary, id) := binary_identity n name source doc package in
  Some (mkTypeDecl name k (super_type_nodes n) n source doc binary id).
Definition decl_site (d : TypeDecl) : option DeclSite := decl_site_of (td_doc d) (td_node d).

(** ** Members *)

Definition named_member (source : string) (doc : nat) (k : MemberKind) (is_static : bool) (n : Node) : list Member :=
  match child_by_field_name "name" n with
  | Some name => [mkMember (node_text name source) k n is_static source doc]
  | None => []
  end.
Definition body_step (source : string) (doc : nat) (collect : Node → list Member) (body : Node) : list Member :=
  flat_map (λ child,
      let k := kind child in
      if bool_decide (k ∈ ["field_declaration"; "constant_declaration"]) then
        let is_static := bool_decide (k = "constant_declaration") || has_modifier child source "static" in
        flat_map (named_member source doc Field is_static)
          (List.filter (λ d, bool_decide (kind d = "variable_declarator")) (named_children child))
      else if bool_decide (k ∈ ["method_declaration"; "annotation_type_element_declaration"]) then
        named_member source doc Method (has_modifier child source "static") child
      else if bool_decide (k = "enum_constant") then named_member source doc EnumConstant true child
      else if bool_decide (k = "enum_body_declarations") then collect child
      else match from_kind k with
           | Some tk => named_member source doc (NestedType tk) (has_modifier child source "static") child
           | None => []
           end) (named_children body).
Definition collect_body_members (source : string) (doc : nat) : Node → list Member := descend [] (body_step source doc).
Definition body (d : TypeDecl) : option Node := child_of_kind (body_kind (td_kind d)) (td_node d).
Definition record_components (d : TypeDecl) : list Member :=
  match td_kind d, child_by_field_name "parameters" (td_node d) with
  | Record_, Some params =>
      flat_map (named_member (td_source d) (td_doc d) Field false)
        (List.filter (λ p, bool_decide (kind p = "formal_parameter")) (named_children params))
  | _, _ => []
  end.
Definition own_members (d : TypeDecl) : list Member :=
  record_components d
  ++ match body d with Some b => collect_body_members (td_source d) (td_doc d) b | None => [] end.
Definition constructors_step (collect : Node → list Node) (b : Node) : list Node :=
  flat_map (λ child,
      if bool_decide (kind child = "constructor_declaration") then [child]
      else if bool_decide (kind child = "enum_body_declarations") then collect child
      else []) (named_children b).
Definition collect_constructors : Node → list Node := descend [] constructors_step.
Definition constructors (d : TypeDecl) : list Node :=
  match body d with Some b => collect_constructors b | None => [] end.
Definition compact_constructor (d : TypeDecl) : option Node :=
  b ← body d; child_of_kind "compact_constructor_declaration" b.

(** ** Type references *)

Definition base_type_step (source : string) (rec : Node → option string) (ty : Node) : option string :=
  let k := kind ty in
  if bool_decide (k = "type_identifier") then Some (node_text ty source)
  else if bool_decide (k = "generic_type") then n ← head (named_children ty); rec n
  else if bool_decide (k = "scoped_type_identifier") then
    (λ n, node_text n source) <$> List.find (λ n, bool_decide (kind n = "type_identifier")) (rev (named_children ty))
  else if bool_decide (k = "array_type") then el ← child_by_field_name "element" ty; rec el
  else if bool_decide (k = "annotated_type") then find_map rec (named_children ty)
  else None.
Definition base_type_name (source : string) : Node → option string := descend None (base_type_step source).
Definition type_ref_simple_name (n : Node) (source : string) : option string :=
  if bool_decide (kind n = "identifier") then Some (node_text n source) else base_type_name source n.
Definition super_simple_names (d : TypeDecl) : list string := omap (base_type_name (td_source d)) (td_super_nodes d).

Definition MAX_RESOLVE_DEPTH : nat := 64.
Fixpoint flatten_rec (source : string) (fuel : nat) (out : list string) (n : Node) : list string :=
  match fuel with
  | O => out
  | S fuel =>
      if (MAX_RESOLVE_DEPTH <? length out)%nat then out
      else if bool_decide (kind n ∈ ["type_identifier"; "identifier"]) then out ++ [node_text n source]
      else fold_left (flatten_rec source fuel) (named_children n) out
  end.
Definition flatten_scoped (n : Node) (source : string) : list string := flatten_rec source (S MAX_RESOLVE_DEPTH) [] n.
Definition dotted_type_step (source : string) (rec : Node → option string) (ty : Node) : option string :=
  let k := kind ty in
  if bool_decide (k = "scoped_type_identifier") then
    let parts := flatten_scoped ty source in
    if (2 <=? length parts)%nat then Some (str_join "." parts) else None
  else if bool_decide (k = "generic_type") then n ← head (named_children ty); rec n
  else if bool_decide (k = "annotated_type") then find_map rec (named_children ty)
  else if bool_decide (k = "array_type") then el ← child_by_field_name "element" ty; rec el
  else None.
Definition dotted_type_name (source : string) : Node → option string := descend None (dotted_type_step source).

(** The last dots become [$], one by one, until [f] has an answer. *)
Fixpoint respell {A} (tries : nat) (f : string → option A) (candidate : string) : option A :=
  match tries with
  | O => None
  | S tries =>
      match f candidate with
      | Some a => Some a
      | None => '(outer, inner) ← rsplit_once "." candidate; respell tries f (outer +:+ "$" +:+ inner)
      end
  end.
Definition import_path_to_binary (path : string) (exists_ : string → bool) : option string :=
  if bool_decide (path = "") then None else respell 8 (λ c, if exists_ c then Some c else None) path.

(** ** The table *)

Record OpenDoc := mkOpenDoc { od_source : string; od_tree : Tree }.
Record TypeTable := mkTypeTable {
  decls : list TypeDecl;
  by_binary : gmap string (list nat);
  by_simple : gmap string (list nat);
  by_node_id : gmap (nat * nat) nat;
  doc_contexts : list Imports }.

(** [entry(key).or_default().push(i)] *)
Definition push_index (k : string) (i : nat) (m : gmap string (list nat)) : gmap string (list nat) :=
  <[k := default [] (m !! k) ++ [i]]> m.
Definition add_decl (d : TypeDecl) (t : TypeTable) : TypeTable :=
  let idx := length (decls t) in
  mkTypeTable (decls t ++ [d])
    (match td_binary_name d with Some b => push_index b idx (by_binary t) | None => by_binary t end)
    (push_index (td_name d) idx (by_simple t))
    (<[(td_doc d, node_id (td_node d)) := idx]> (by_node_id t))
    (doc_contexts t).
Definition scan_node (doc : OpenDoc) (i : nat) (pkg : option string) (t : TypeTable) (n : Node) : TypeTable :=
  match from_node n (od_source doc) i pkg with Some d => add_decl d t | None => t end.
Definition doc_package (t : TypeTable) (i : nat) : option string := ctx ← doc_contexts t !! i; package ctx.
Definition scan_doc (docs : list OpenDoc) (t : TypeTable) (i : nat) : TypeTable :=
  match docs !! i with
  | None => t
  | Some doc => walk_tree (scan_node doc i (doc_package t i)) t (od_tree doc)
  end.
Definition scan_order (docs : list OpenDoc) (current : nat) : list nat :=
  current :: List.filter (λ i, negb (i =? current)%nat) (seq 0 (length docs)).
Definition build (docs : list OpenDoc) (current : nat) : TypeTable :=
  fold_left (scan_doc docs) (scan_order docs current)
    (mkTypeTable [] ∅ ∅ ∅ ((λ doc, parse (od_tree doc) (od_source doc)) <$> docs)).

Section Lookups.
Context (t : TypeTable).
Definition get_named (binary : string) : option TypeDecl :=
  match by_binary t !! binary with Some [i] => decls t !! i | _ => None end.
Definition is_duplicate (binary : string) : bool :=
  match by_binary t !! binary with Some l => (1 <? length l)%nat | None => false end.
Definition candidates (simple : string) : list TypeDecl :=
  omap (λ i, decls t !! i) (default [] (by_simple t !! simple)).
Definition by_node (doc id : nat) : option TypeDecl := i ← by_node_id t !! (doc, id); decls t !! i.
Definition doc_context (doc : nat) : option Imports := doc_contexts t !! doc.
Definition declared (binary : string) : bool := bool_decide (is_Some (by_binary t !! binary)).

(** The types around a place, innermost first. *)
Fixpoint lexical (simple : string) (simply : bool) (doc : nat) (ancs : list Node) : option TypeDecl :=
  match ancs with
  | [] => None
  | a :: ancs =>
      let here :=
        if bool_decide (is_Some (from_kind (kind a))) then
          match by_node doc (node_id a) with
          | None => None
          | Some d =>
              if simply && bool_decide (td_name d = simple) then Some d
              else match td_binary_name d with
                   | None => None
                   | Some b =>
                       match get_named (b +:+ "$" +:+ simple) with
                       | Some m => if simply then Some m else None
                       | None => None
                       end
                   end
          end
        else None in
      match here with Some d => Some d | None => lexical simple simply doc ancs end
  end.
Definition on_demand (simple : string) (imports : Imports) : option TypeDecl :=
  match List.filter declared (((λ w, w +:+ "." +:+ simple) <$> wildcards imports) ++ ["java.lang." +:+ simple]) with
  | [first] => get_named first
  | _ => None
  end.
Definition resolve_type_name_at (anchor : Node) (simple : string) (dotted : option string) (doc : nat)
    (imports : Imports) : option TypeDecl :=
  match lexical simple (bool_decide (dotted = None)) doc (ancestors anchor) with
  | Some d => Some d
  | None =>
      match dotted with
      | Some dotted => respell 8 get_named dotted
      | None =>
          match single_import imports simple with
          | Some path => binary ← import_path_to_binary path declared; get_named binary
          | None =>
              let same_pkg := in_package (package imports) simple in
              if declared same_pkg then get_named same_pkg else on_demand simple imports
          end
      end
  end.
Definition resolve_type_name_node (type_node : Node) (source : string) (doc : nat) (imports : Imports) : option TypeDecl :=
  simple ← type_ref_simple_name type_node source;
  resolve_type_name_at type_node simple (dotted_type_name source type_node) doc imports.

(** Supertypes, through the imports of the document that names them. *)
Definition source_supers (d : TypeDecl) : list TypeDecl :=
  match doc_context (td_doc d) with
  | None => []
  | Some imports => omap (λ n, resolve_type_name_node n (td_source d) (td_doc d) imports) (td_super_nodes d)
  end.

Definition MAX_SUPER_DEPTH : nat := 64.
Definition decl_id (d : TypeDecl) : nat := node_id (td_node d).
Definition own_member (name : string) (d : TypeDecl) : option Member :=
  List.find (λ m, bool_decide (m_name m = name)) (own_members d).
Definition find_member (d : TypeDecl) (name : string) : option Member :=
  (walk_find decl_id source_supers (own_member name) (S MAX_SUPER_DEPTH) ∅ d).1.

Definition member_sig (m : Member) : string := default (m_name m) (Signatures.signature (m_source m) (m_node m)).
Definition collect_own (acc : list Member * gset string) (d : TypeDecl) : list Member * gset string :=
  fold_left (λ '(out, seen) m,
      if decide (member_sig m ∈ seen) then (out, seen) else (out ++ [m], {[member_sig m]} ∪ seen))
    (own_members d) acc.
Definition is_nested_type (m : Member) : bool := match m_kind m with NestedType _ => true | _ => false end.
Definition all_members (d : TypeDecl) (static_only : bool) : list Member :=
  let out := (walk_all decl_id source_supers collect_own (S MAX_SUPER_DEPTH) (([], ∅), ∅) d).1.1 in
  if static_only then List.filter (λ m, m_is_static m || is_nested_type m) out else out.

(** [resolve::resolve_simple_in_project]. *)
Definition resolve_simple_in_project (simple : string) (current : nat) (imports : Imports) : option TypeDecl :=
  match List.find (λ d, bool_decide (td_doc d = current)) (candidates simple) with
  | Some d => Some d
  | None =>
      List.find (λ d, match td_binary_name d with
                      | Some b => bool_decide (b ∈ candidate_names imports simple)
                      | None => false
                      end) (candidates simple)
  end.
End Lookups.

(** Types of the class path, by the names a document gives them. *)
Definition import_path_to_fqn (path : string) (symbols : SymbolSource) : option string :=
  import_path_to_binary path (λ b, bool_decide (is_Some (class symbols b))).
Definition resolve_simple_to_fqn (simple : string) (imports : Imports) (symbols : SymbolSource) : option string :=
  List.find (λ fqn, bool_decide (is_Some (class symbols fqn))) (candidate_names imports simple).

(** ** The table has the declarations *)

(** The positions of the elements with a property. *)
Definition positions {A} (P : A → bool) (l : list A) : list nat :=
  List.filter (λ i, match l !! i with Some x => P x | None => false end) (seq 0 (length l)).
Lemma positions_snoc {A} (P : A → bool) l x :
  positions P (l ++ [x]) = positions P l ++ if P x then [length l] else [].
Proof.
  unfold positions. rewrite length_app, seq_app, List.filter_app. f_equal.
  - apply filter_ext_in. intros i Hi%in_seq. by rewrite lookup_app_l by lia.
  - cbn. rewrite lookup_app_r by lia. rewrite Nat.sub_diag. cbn. by destruct (P x).
Qed.
Lemma omap_ext_elem {A B} (f g : A → option B) (l : list A) : (∀ x, x ∈ l → f x = g x) → omap f l = omap g l.
Proof.
  induction l as [|x l IH]; intros H; [done|]. cbn. rewrite (H x) by (by left).
  by rewrite (IH (λ y Hy, H y (proj2 (elem_of_cons _ _ _) (or_intror Hy)))).
Qed.
Lemma positions_lookup {A} (P : A → bool) l : omap (λ i, l !! i) (positions P l) = List.filter P l.
Proof.
  induction l as [|x l IH] using rev_ind; [done|]. rewrite positions_snoc, omap_app, List.filter_app. f_equal.
  - rewrite <-IH. apply omap_ext_elem. intros i Hi.
    unfold positions in Hi. rewrite list_elem_of_In, filter_In, in_seq in Hi. by rewrite lookup_app_l by lia.
  - cbn. destruct (P x) eqn:E; [|done]. cbn. by rewrite lookup_app_r, Nat.sub_diag by lia.
Qed.
Lemma positions_last {A} (P : A → bool) l : (i ← last (positions P l); l !! i) = last (List.filter P l).
Proof.
  induction l as [|x l IH] using rev_ind; [done|]. rewrite positions_snoc, List.filter_app. cbn [List.filter].
  destruct (P x).
  - rewrite !last_snoc. cbn. by rewrite lookup_app_r, Nat.sub_diag by lia.
  - rewrite !app_nil_r, <-IH. destruct (last (positions P l)) as [i|] eqn:E; [|done]. cbn.
    apply last_Some in E as (l' & E). assert (Hi : i ∈ positions P l) by (rewrite E; apply elem_of_app; right; by left).
    unfold positions in Hi. rewrite list_elem_of_In, filter_In, in_seq in Hi. by rewrite lookup_app_l by lia.
Qed.

Definition with_binary (b : string) (d : TypeDecl) : bool := bool_decide (td_binary_name d = Some b).
Definition with_name (simple : string) (d : TypeDecl) : bool := bool_decide (td_name d = simple).
Definition at_node (doc id : nat) (d : TypeDecl) : bool := bool_decide (td_doc d = doc) && bool_decide (decl_id d = id).
Definition some_list {A} (l : list A) : option (list A) := match l with [] => None | _ => Some l end.

(** The three indexes agree with the declarations. *)
Record indexed (t : TypeTable) : Prop := {
  ix_binary b : by_binary t !! b = some_list (positions (with_binary b) (decls t));
  ix_simple s : by_simple t !! s = some_list (positions (with_name s) (decls t));
  ix_node doc id : by_node_id t !! (doc, id) = last (positions (at_node doc id) (decls t)) }.

Lemma some_list_snoc {A} (l : list A) x : Some (default [] (some_list l) ++ [x]) = some_list (l ++ [x]).
Proof. by destruct l. Qed.
Lemma add_decl_indexed d t : indexed t → indexed (add_decl d t).
Proof.
  intros [Hb Hs Hn]. constructor; intros; unfold add_decl; cbn [by_binary by_simple by_node_id decls]; rewrite positions_snoc.
  - unfold with_binary at 2. destruct (td_binary_name d) as [b'|].
    + unfold push_index. destruct (decide (b' = b)) as [->|Hne].
      * rewrite lookup_insert_eq, bool_decide_eq_true_2, Hb by done. by rewrite some_list_snoc.
      * rewrite lookup_insert_ne, bool_decide_eq_false_2, app_nil_r by congruence. apply Hb.
    + rewrite bool_decide_eq_false_2, app_nil_r by done. apply Hb.
  - unfold push_index. unfold with_name at 2. destruct (decide (td_name d = s)) as [E|Hne].
    + subst s. rewrite lookup_insert_eq, bool_decide_eq_true_2, Hs by done. by rewrite some_list_snoc.
    + rewrite lookup_insert_ne, bool_decide_eq_false_2, app_nil_r by done. apply Hs.
  - unfold at_node at 2. fold (decl_id d). destruct (decide ((td_doc d, decl_id d) = (doc, id))) as [[= <- <-]|Hne].
    + rewrite lookup_insert_eq, !bool_decide_eq_true_2 by done. cbn. by rewrite last_snoc.
    + rewrite lookup_insert_ne by done. rewrite Hn.
      replace (bool_decide (td_doc d = doc) && bool_decide (decl_id d = id)) with false; [by rewrite app_nil_r|].
      symmetry. apply andb_false_iff. destruct (decide (td_doc d = doc)) as [<-|]; [right|left]; apply bool_decide_eq_false_2; congruence.
Qed.

(** What a document declares, in the order of the scan. *)
Definition doc_decls (docs : list OpenDoc) (i : nat) : list TypeDecl :=
  match docs !! i with
  | None => []
  | Some doc =>
      omap (λ n, from_node n (od_source doc) i (package (parse (od_tree doc) (od_source doc))))
        (visited (root_node (od_tree doc)))
  end.
Definition all_decls (docs : list OpenDoc) (current : nat) : list TypeDecl :=
  flat_map (doc_decls docs) (scan_order docs current).

Lemma scan_nodes doc i pkg ns : ∀ t, indexed t →
  let t' := fold_left (scan_node doc i pkg) ns t in
  indexed t' ∧ decls t' = decls t ++ omap (λ n, from_node n (od_source doc) i pkg) ns ∧ doc_contexts t' = doc_contexts t.
Proof.
  induction ns as [|n ns IH]; intros t Ht; cbn -[from_node]; [by rewrite app_nil_r|].
  assert (E : scan_node doc i pkg t n = match from_node n (od_source doc) i pkg with Some d => add_decl d t | None => t end) by done.
  rewrite E. destruct (from_node n (od_source doc) i pkg) as [d|].
  - destruct (IH (add_decl d t) (add_decl_indexed d t Ht)) as (A & B & C). split; [done|]. split; [|done].
    rewrite B. cbn. by rewrite <-app_assoc.
  - by apply IH.
Qed.
Lemma scan_docs docs l : ∀ t, indexed t → doc_contexts t = (λ doc, parse (od_tree doc) (od_source doc)) <$> docs →
  let t' := fold_left (scan_doc docs) l t in
  indexed t' ∧ decls t' = decls t ++ flat_map (doc_decls docs) l ∧ doc_contexts t' = doc_contexts t.
Proof.
  induction l as [|i l IH]; intros t Ht Hc; cbn -[scan_doc doc_decls]; [by rewrite app_nil_r|].
  assert (E : scan_doc docs t i = match docs !! i with
    | None => t | Some doc => walk_tree (scan_node doc i (doc_package t i)) t (od_tree doc) end) by done.
  rewrite E. unfold doc_decls at 1. destruct (docs !! i) as [doc|] eqn:Ed; [|by apply IH].
  assert (Ep : doc_package t i = package (parse (od_tree doc) (od_source doc))).
  { unfold doc_package. by rewrite Hc, list_lookup_fmap, Ed. }
  rewrite (proj2 (walk_tree_visited _ _ _)), Ep.
  destruct (scan_nodes doc i (package (parse (od_tree doc) (od_source doc))) (visited (root_node (od_tree doc))) t Ht) as (A & B & C).
  destruct (IH (fold_left (scan_node doc i (package (parse (od_tree doc) (od_source doc)))) (visited (root_node (od_tree doc))) t))
    as (A' & B' & C'); [done|congruence|]. split; [done|]. rewrite B', B, C', C. by rewrite app_assoc.
Qed.
Lemma build_spec docs current : let t := build docs current in
  indexed t ∧ decls t = all_decls docs current ∧ doc_contexts t = (λ doc, parse (od_tree doc) (od_source doc)) <$> docs.
Proof.
  cbv zeta. unfold build.
  destruct (scan_docs docs (scan_order docs current) (mkTypeTable [] ∅ ∅ ∅ ((λ doc, parse (od_tree doc) (od_source doc)) <$> docs)))
    as (A & B & C); [constructor; intros; apply lookup_empty|done|]. split; [done|]. by rewrite B, C.
Qed.

Section Indexed.
Context (t : TypeTable) (Ht : indexed t).
Lemma get_named_unique b : get_named t b = match List.filter (with_binary b) (decls t) with [d] => Some d | _ => None end.
Proof.
  unfold get_named. rewrite (ix_binary t Ht), <-positions_lookup.
  assert (H : Forall (λ i, is_Some (decls t !! i)) (positions (with_binary b) (decls t))).
  { apply Forall_forall. intros i Hi. unfold positions in Hi. rewrite list_elem_of_In, filter_In, in_seq in Hi.
    apply lookup_lt_is_Some. lia. }
  destruct (positions _ _) as [|i [|j l]]; cbn; [done| |].
  - apply Forall_cons in H as [[d Hd] _]. by rewrite Hd.
  - apply Forall_cons in H as [[d Hd] H]. apply Forall_cons in H as [[d' Hd'] _]. by rewrite Hd, Hd'.
Qed.
Lemma declared_spec b : declared t b = true ↔ ∃ d, d ∈ decls t ∧ td_binary_name d = Some b.
Proof.
  unfold declared. rewrite bool_decide_eq_true, (ix_binary t Ht).
  assert (E : ∀ d, d ∈ List.filter (with_binary b) (decls t) ↔ d ∈ decls t ∧ td_binary_name d = Some b).
  { intros d. unfold with_binary. by rewrite !list_elem_of_In, filter_In, bool_decide_eq_true. }
  rewrite <-positions_lookup in E. split.
  - intros [l Hl]. destruct (positions (with_binary b) (decls t)) as [|i l'] eqn:Ep; [done|].
    assert (Hi : i ∈ positions (with_binary b) (decls t)) by (rewrite Ep; by left).
    unfold positions in Hi. rewrite list_elem_of_In, filter_In in Hi. destruct Hi as [_ Hi].
    destruct (decls t !! i) as [d|] eqn:Ed; [|done]. exists d. split; [by eapply list_elem_of_lookup_2|].
    by apply bool_decide_eq_true in Hi.
  - intros (d & H). apply E in H. destruct (positions _ _); [by apply elem_of_nil in H|by eexists].
Qed.
Lemma candidates_spec s : candidates t s = List.filter (with_name s) (decls t).
Proof. unfold candidates. rewrite (ix_simple t Ht), <-positions_lookup. by destruct (positions _ _). Qed.
Lemma by_node_spec doc id : by_node t doc id = last (List.filter (at_node doc id) (decls t)).
Proof. unfold by_node. by rewrite (ix_node t Ht), positions_last. Qed.
Lemma is_duplicate_spec b : is_duplicate t b = (1 <? length (List.filter (with_binary b) (decls t)))%nat.
Proof.
  unfold is_duplicate. rewrite (ix_binary t Ht), <-positions_lookup.
  assert (H : Forall (λ i, is_Some (decls t !! i)) (positions (with_binary b) (decls t))).
  { apply Forall_forall. intros i Hi. unfold positions in Hi. rewrite list_elem_of_In, filter_In, in_seq in Hi.
    apply lookup_lt_is_Some. lia. }
  assert (E : length (omap (λ i, decls t !! i) (positions (with_binary b) (decls t))) = length (positions (with_binary b) (decls t))).
  { clear -H. induction H as [|i l [d Hd] _ IH]; [done|]. cbn. rewrite Hd. cbn. by rewrite IH. }
  rewrite E. by destruct (positions _ _).
Qed.
End Indexed.

Lemma body_step_descends source doc : descends (body_step source doc).
Proof.
  intros n g h Hg. unfold body_step. apply flat_map_ext_elem. intros c [Hc _]%named_child_is_child.
  do 3 (case_bool_decide; [done|]). case_bool_decide; [by apply Hg, child_smaller|done].
Qed.

Lemma constructors_step_descends : descends constructors_step.
Proof.
  intros n g h Hg. unfold constructors_step. apply flat_map_ext_elem. intros c [Hc _]%named_child_is_child.
  case_bool_decide; [done|]. case_bool_decide; [by apply Hg, child_smaller|done].
Qed.
Lemma find_map_ext_elem {A B} (f g : A → option B) l : (∀ x, x ∈ l → f x = g x) → find_map f l = find_map g l.
Proof.
  induction l as [|x l IH]; intros H; [done|]. cbn. rewrite (H x) by (by left). destruct (g x); [done|].
  apply IH. intros y Hy. apply H. by right.
Qed.
Lemma base_type_step_descends source : descends (base_type_step source).
Proof.
  intros n g h Hg. unfold base_type_step.
  assert (Hn : ∀ c, c ∈ named_children n → g c = h c) by (intros c [Hc _]%named_child_is_child; by apply Hg, child_smaller).
  case_bool_decide; [done|]. case_bool_decide.
  { destruct (named_children n) as [|c l]; [done|]. cbn. apply Hn. by left. }
  case_bool_decide; [done|]. case_bool_decide.
  { destruct (child_by_field_name "element" n) as [e|] eqn:E; [|done]. apply child_by_field_name_child in E as [E _]. by apply Hg, child_smaller. }
  case_bool_decide; [by apply find_map_ext_elem|done].
Qed.

(** Nodes of the trees alive have identities of their own. *)
Definition doc_ids (doc : OpenDoc) : list nat := node_id <$> visited (root_node (od_tree doc)).
Definition ids_apart (docs : list OpenDoc) : Prop := NoDup (flat_map doc_ids docs).

Lemma flat_map_apart {A B} (f : A → list B) l : NoDup (flat_map f l) → ∀ i j x y b,
  l !! i = Some x → l !! j = Some y → b ∈ f x → b ∈ f y → i = j ∧ NoDup (f x).
Proof.
  assert (Hin : ∀ k (j : nat) y b, k !! j = Some y → b ∈ f y → b ∈ flat_map f k).
  { intros k j y b Hj Hb. apply list_elem_of_In, in_flat_map. exists y. rewrite <-!list_elem_of_In.
    split; [by eapply list_elem_of_lookup_2|done]. }
  induction l as [|z l IH]; [done|]. cbn. intros (Hz & Hd & Hl)%NoDup_app i j x y b Hi Hj Hx Hy.
  destruct i as [|i], j as [|j]; cbn in Hi, Hj.
  - injection Hi as ->. by injection Hj as ->.
  - injection Hi as ->. by destruct (Hd b Hx); eapply Hin.
  - injection Hj as ->. by destruct (Hd b Hy); eapply Hin.
  - by destruct (IH Hl i j x y b Hi Hj Hx Hy) as [-> ?].
Qed.

Lemma doc_decls_spec docs i d : d ∈ doc_decls docs i ↔ ∃ doc n, docs !! i = Some doc
  ∧ within (root_node (od_tree doc)) n
  ∧ from_node n (od_source doc) i (package (parse (od_tree doc) (od_source doc))) = Some d.
Proof.
  unfold doc_decls. destruct (docs !! i) as [doc|]; [|split; [by intros Hd%elem_of_nil|by intros (? & ? & ? & _)]].
  rewrite list_elem_of_omap. setoid_rewrite visited_within. split; [intros (n & Hn & E); eauto|].
  intros (? & n & [= <-] & Hn & E). eauto.
Qed.
Lemma scan_order_spec docs current i : i ∈ scan_order docs current ↔ i = current ∨ (i < length docs)%nat.
Proof.
  unfold scan_order. rewrite elem_of_cons, (list_elem_of_In (List.filter _ _)), filter_In, in_seq.
  destruct (Nat.eqb_spec i current); cbn; intuition (auto with lia).
Qed.
Lemma all_decls_spec docs current d : d ∈ all_decls docs current ↔ ∃ i, d ∈ doc_decls docs i.
Proof.
  unfold all_decls. rewrite list_elem_of_In, in_flat_map. setoid_rewrite <-list_elem_of_In. setoid_rewrite scan_order_spec.
  split; [intros (i & _ & Hd); eauto|]. intros (i & Hd). exists i. split; [|done].
  apply doc_decls_spec in Hd as (doc & n & Hi & _). right. by eapply lookup_lt_Some.
Qed.
Lemma from_node_fields n source i pkg d : from_node n source i pkg = Some d → td_node d = n ∧ td_doc d = i ∧ td_source d = source.
Proof.
  unfold from_node. intros H. repeat (apply bind_Some in H as (? & _ & H)).
  destruct (binary_identity _ _ _ _ _). by injection H as <-.
Qed.
Lemma doc_decls_doc docs i d : d ∈ doc_decls docs i → td_doc d = i.
Proof. intros (doc & n & _ & _ & E)%doc_decls_spec. by apply from_node_fields in E as (_ & ? & _). Qed.

Lemma NoDup_fmap_inj {A B} (f : A → B) l x y : NoDup (f <$> l) → x ∈ l → y ∈ l → f x = f y → x = y.
Proof.
  induction l as [|z l IH]; [by intros _ Hx%elem_of_nil|]. rewrite fmap_cons. intros [Hz Hl]%NoDup_cons.
  intros [->|Hx]%elem_of_cons [->|Hy]%elem_of_cons E; [done|..|by apply IH].
  - destruct Hz. rewrite E. by apply list_elem_of_fmap_2.
  - destruct Hz. rewrite <-E. by apply list_elem_of_fmap_2.
Qed.
Lemma decl_id_inj docs current d d' : ids_apart docs → d ∈ all_decls docs current → d' ∈ all_decls docs current →
  decl_id d = decl_id d' → d = d'.
Proof.
  intros Hids (i & Hd)%all_decls_spec (j & Hd')%all_decls_spec E.
  apply doc_decls_spec in Hd as (doc & n & Hi & Hn & Ed), Hd' as (doc' & n' & Hj & Hn' & Ed').
  unfold decl_id in E. destruct (from_node_fields _ _ _ _ _ Ed) as (En & _), (from_node_fields _ _ _ _ _ Ed') as (En' & _).
  rewrite En, En' in E. apply visited_within in Hn, Hn'.
  destruct (flat_map_apart doc_ids docs Hids i j doc doc' (node_id n)) as [-> Hnd]; [done..| | |].
  - by apply list_elem_of_fmap_2.
  - rewrite E. by apply list_elem_of_fmap_2.
  - rewrite Hi in Hj. injection Hj as <-. assert (n = n') as <- by (by eapply NoDup_fmap_inj). congruence.
Qed.
Lemma omap_NoDup_by {A B C} (f : A → option B) (g : A → C) (h : B → C) l :
  NoDup (g <$> l) → (∀ x y, f x = Some y → h y = g x) → NoDup (h <$> omap f l).
Proof.
  intros Hl Hf. induction l as [|x l IH]; [constructor|]. rewrite fmap_cons in Hl. apply NoDup_cons in Hl as [Hx Hl].
  cbn. destruct (f x) as [y|] eqn:E; [|by apply IH]. rewrite fmap_cons. constructor; [|by apply IH].
  intros (y' & Ey & (x' & Hx' & E')%list_elem_of_omap)%list_elem_of_fmap. apply Hx.
  rewrite <-(Hf _ _ E), Ey, (Hf _ _ E'). by apply list_elem_of_fmap_2.
Qed.
Lemma doc_decls_NoDup docs i : ids_apart docs → NoDup (doc_decls docs i).
Proof.
  intros Hids. apply (NoDup_fmap_1 decl_id). unfold doc_decls. destruct (docs !! i) as [doc|] eqn:Ed; [|constructor].
  apply (omap_NoDup_by _ node_id).
  - assert (Hr : node_id (root_node (od_tree doc)) ∈ doc_ids doc).
    { apply list_elem_of_fmap_2, visited_within. constructor. }
    by apply (flat_map_apart doc_ids docs Hids i i doc doc _ Ed Ed Hr Hr).
  - intros n d H. unfold decl_id. by destruct (from_node_fields _ _ _ _ _ H) as (-> & _).
Qed.
Lemma all_decls_NoDup docs current : ids_apart docs → NoDup (all_decls docs current).
Proof.
  intros Hids. unfold all_decls.
  assert (Ho : NoDup (scan_order docs current)).
  { unfold scan_order. constructor.
    - rewrite list_elem_of_In, filter_In, negb_true_iff, Nat.eqb_neq. tauto.
    - apply NoDup_ListNoDup, List.NoDup_filter, seq_NoDup. }
  induction Ho as [|i l Hi _ IH]; [constructor|]. cbn [flat_map]. apply NoDup_app. split; [by apply doc_decls_NoDup|].
  split; [|done]. intros d Hd (j & Hj & Hd')%list_elem_of_In%in_flat_map. apply list_elem_of_In in Hj; apply list_elem_of_In in Hd'.
  apply doc_decls_doc in Hd, Hd'. by subst.
Qed.
Lemma at_node_spec doc id d : at_node doc id d = true ↔ td_doc d = doc ∧ decl_id d = id.
Proof. unfold at_node. by rewrite andb_true_iff, !bool_decide_eq_true. Qed.
Lemma by_node_exact docs current doc id d : ids_apart docs →
  by_node (build docs current) doc id = Some d ↔ d ∈ all_decls docs current ∧ td_doc d = doc ∧ decl_id d = id.
Proof.
  intros Hids. destruct (build_spec docs current) as (Ht & Ed & _). rewrite by_node_spec, Ed by done.
  assert (Hf : ∀ x, x ∈ List.filter (at_node doc id) (all_decls docs current) ↔ x ∈ all_decls docs current ∧ td_doc x = doc ∧ decl_id x = id).
  { intros x. by rewrite list_elem_of_In, filter_In, at_node_spec, <-list_elem_of_In. }
  rewrite <-Hf. split; [intros H; by apply last_Some_elem_of in H|]. intros Hd.
  destruct (last (List.filter _ _)) as [d'|] eqn:El.
  - apply last_Some_elem_of, Hf in El as (Hd' & _ & Eid). apply Hf in Hd as (Hd & _ & Eid'). f_equal.
    eapply decl_id_inj; [done..|congruence].
  - apply last_None in El. rewrite El in Hd. by apply elem_of_nil in Hd.
Qed.
Lemma unique_filter {A} (P : A → bool) l d :
  match List.filter P l with [x] => Some x | _ => None end = Some d ↔ List.filter P l = [d].
Proof. destruct (List.filter P l) as [|x [|y k]]; split; congruence. Qed.

Lemma get_named_exact docs current b d : ids_apart docs →
  get_named (build docs current) b = Some d ↔ d ∈ all_decls docs current ∧ td_binary_name d = Some b
    ∧ ∀ d', d' ∈ all_decls docs current → td_binary_name d' = Some b → d' = d.
Proof.
  intros Hids. destruct (build_spec docs current) as (Ht & Ed & _).
  pose proof (all_decls_NoDup docs current Hids) as Hnd. rewrite get_named_unique, unique_filter, Ed by done.
  assert (Hf : ∀ d, d ∈ List.filter (with_binary b) (all_decls docs current)
    ↔ d ∈ all_decls docs current ∧ td_binary_name d = Some b).
  { intros e. unfold with_binary. by rewrite !list_elem_of_In, filter_In, bool_decide_eq_true. }
  assert (Hnf : NoDup (List.filter (with_binary b) (all_decls docs current))).
  { apply NoDup_ListNoDup, List.NoDup_filter. by apply NoDup_ListNoDup. }
  split.
  - intros E. rewrite E in Hf. destruct (proj1 (Hf d)) as [? ?]; [by left|]. split; [done|]. split; [done|].
    intros d' H1 H2. by apply list_elem_of_singleton, Hf.
  - intros (H1 & H2 & H3). destruct (List.filter _ _) as [|x [|y k]].
    + by destruct (not_elem_of_nil d); apply Hf.
    + f_equal. destruct (proj1 (Hf x)) as [? ?]; [by left|]. by apply H3.
    + assert (x = d) by (apply H3; apply Hf; by left). assert (y = d) by (apply H3; apply Hf; right; by left).
      apply NoDup_cons in Hnf as [Hx _]. destruct Hx. subst. by left.
Qed.

(** the table of the open documents has every type they declare, anywhere
    in their trees, and nothing else; a binary name is answered with the only
    declaration that has it and with nothing when several do; candidates of a
    simple name come in scan order, those of the current document first; and a
    declaration node is answered with its own declaration. *)
Theorem table_exact docs current : ids_apart docs →
  let t := build docs current in
  (∀ d, d ∈ decls t ↔ ∃ i doc n, docs !! i = Some doc ∧ within (root_node (od_tree doc)) n
     ∧ from_node n (od_source doc) i (package (parse (od_tree doc) (od_source doc))) = Some d)
  ∧ (∀ b d, get_named t b = Some d ↔ d ∈ decls t ∧ td_binary_name d = Some b
       ∧ ∀ d', d' ∈ decls t → td_binary_name d' = Some b → d' = d)
  ∧ (∀ b, is_duplicate t b = true ↔ ∃ d d', d ≠ d' ∧ d ∈ decls t ∧ d' ∈ decls t
       ∧ td_binary_name d = Some b ∧ td_binary_name d' = Some b)
  ∧ (∃ own others, decls t = own ++ others ∧ Forall (λ d, td_doc d = current) own ∧ Forall (λ d, td_doc d ≠ current) others
       ∧ ∀ s, candidates t s = List.filter (with_name s) own ++ List.filter (with_name s) others)
  ∧ (∀ doc id d, by_node t doc id = Some d ↔ d ∈ decls t ∧ td_doc d = doc ∧ decl_id d = id).
Proof.
  intros Hids. cbv zeta. destruct (build_spec docs current) as (Ht & Ed & _).
  assert (Hnd : NoDup (decls (build docs current))) by (rewrite Ed; by apply all_decls_NoDup).
  assert (Hf : ∀ b d, d ∈ List.filter (with_binary b) (decls (build docs current))
    ↔ d ∈ decls (build docs current) ∧ td_binary_name d = Some b).
  { intros b d. unfold with_binary. by rewrite !list_elem_of_In, filter_In, bool_decide_eq_true. }
  assert (Hnf : ∀ b, NoDup (List.filter (with_binary b) (decls (build docs current)))).
  { intros b. apply NoDup_ListNoDup, List.NoDup_filter. by apply NoDup_ListNoDup. }
  split; [|split; [|split; [|split]]].
  - intros d. rewrite Ed, all_decls_spec. setoid_rewrite doc_decls_spec. done.
  - intros b d. rewrite Ed. by apply get_named_exact.
  - intros b. rewrite is_duplicate_spec, Nat.ltb_lt by done. specialize (Hf b). specialize (Hnf b). split.
    + intros Hl. destruct (List.filter _ _) as [|x [|y k]]; cbn in Hl; [lia..|]. exists x, y.
      apply NoDup_cons in Hnf as [Hx _]. destruct (proj1 (Hf x)) as [? ?]; [by left|].
      destruct (proj1 (Hf y)) as [? ?]; [right; by left|]. split; [|done]. intros ->. apply Hx. by left.
    + intros (d & d' & Hne & H1 & H2 & H3 & H4). assert (A : d ∈ List.filter (with_binary b) (decls (build docs current))) by by apply Hf.
      assert (B : d' ∈ List.filter (with_binary b) (decls (build docs current))) by by apply Hf.
      destruct (List.filter _ _) as [|x [|y k]]; cbn; [by apply elem_of_nil in A| |lia].
      apply list_elem_of_singleton in A, B. congruence.
  - exists (doc_decls docs current), (flat_map (doc_decls docs) (List.filter (λ i, negb (i =? current)%nat) (seq 0 (length docs)))).
    rewrite Ed. split; [done|]. split; [|split].
    + apply Forall_forall. intros d Hd. by eapply doc_decls_doc.
    + apply Forall_forall. intros d (i & Hi & Hd)%list_elem_of_In%in_flat_map. apply filter_In in Hi as [_ Hi].
      apply list_elem_of_In, doc_decls_doc in Hd. apply negb_true_iff, Nat.eqb_neq in Hi. by rewrite Hd.
    + intros s. rewrite candidates_spec, Ed by done. unfold all_decls, scan_order. cbn [flat_map]. apply List.filter_app.
  - intros doc id d. rewrite Ed. by apply by_node_exact.
Qed.

(** ** What a type name means *)

(** The spellings [respell] tries. *)
Fixpoint respellings (tries : nat) (candidate : string) : list string :=
  match tries with
  | O => []
  | S tries =>
      candidate :: match rsplit_once "." candidate with
                   | Some (outer, inner) => respellings tries (outer +:+ "$" +:+ inner)
                   | None => []
                   end
  end.
Lemma respell_find {A} (f : string → option A) tries : ∀ c, respell tries f c = find_map f (respellings tries c).
Proof.
  induction tries as [|tries IH]; intros c; [done|]. cbn. destruct (f c); [done|].
  destruct (rsplit_once "." c) as [[o i]|]; [apply IH|done].
Qed.

(** [spelled k path b]: the binary name [b] is the dotted name [path] with its
    last [k] dots read as steps into a type. *)
Inductive spelled : nat → string → string → Prop :=
| spelled_as c : spelled 0 c c
| spelled_in k outer inner b : contains_char "." inner = false →
    spelled k (outer +:+ "$" +:+ inner) b → spelled (S k) (outer +:+ "." +:+ inner) b.
Lemma spelled_inv k c b : spelled k c b → (k = 0%nat ∧ b = c)
  ∨ ∃ outer inner k', rsplit_once "." c = Some (outer, inner) ∧ k = S k' ∧ spelled k' (outer +:+ "$" +:+ inner) b.
Proof.
  destruct 1 as [|k o i b Hi Hs]; [by left|]. right. exists o, i, k. split; [|done].
  change (o +:+ "." +:+ i) with (o +:+ String "." i). by apply rsplit_once_app.
Qed.
Lemma respellings_spec tries : ∀ c b, b ∈ respellings tries c ↔ ∃ k, (k < tries)%nat ∧ spelled k c b.
Proof.
  induction tries as [|tries IH]; intros c b; cbn [respellings].
  { split; [by intros H%elem_of_nil|]. intros (k & ? & _). lia. }
  rewrite elem_of_cons. split.
  - intros [->|H]; [exists 0%nat; split; [lia|by constructor]|].
    destruct (rsplit_once "." c) as [[o i]|] eqn:E; [|by apply elem_of_nil in H].
    apply IH in H as (k & Hk & Hs). apply rsplit_once_Some in E as [-> Hi]. exists (S k). split; [lia|]. by apply spelled_in.
  - intros (k & Hk & [[_ ->]|(o & i & k' & -> & -> & Hs)]%spelled_inv); [by left|]. right. apply IH. exists k'. split; [lia|done].
Qed.

(** The rules of the language for a simple type name, over the declarations
    [ds] and their direct supertypes.  They say nothing of how the table is
    searched. *)
Section Language.
Context (ds : list TypeDecl) (supers : TypeDecl → list TypeDecl).
Definition named_type (b : string) (d : TypeDecl) : Prop := d ∈ ds ∧ td_binary_name d = Some b.
Definition type_at (doc : nat) (a : Node) (d : TypeDecl) : Prop :=
  from_kind (kind a) ≠ None ∧ d ∈ ds ∧ td_doc d = doc ∧ decl_id d = node_id a.
Definition named_path (path : string) (d : TypeDecl) : Prop := ∃ k b, spelled k path b ∧ named_type b d.
Definition is_public (d : TypeDecl) : bool := has_modifier (td_node d) (td_source d) "public".

(** A member type of [T]: one it declares, or one it inherits and does not hide. *)
Definition own_type (simple : string) (T d : TypeDecl) : Prop :=
  ∃ b, td_binary_name T = Some b ∧ named_type (b +:+ "$" +:+ simple) d.
Inductive member_type (simple : string) : TypeDecl → TypeDecl → Prop :=
| member_own T d : own_type simple T d → member_type simple T d
| member_inherited T S d : (∀ d', ¬ own_type simple T d') → S ∈ supers T →
    member_type simple S d → member_type simple T d.

Section At.
Context (anchor : Node) (simple : string) (doc : nat) (imports : Imports).
(** The scope of a member is the body of its type, not its header. *)
Definition in_body (a : Node) : Prop := ∃ b, child_by_field_name "body" a = Some b ∧ b ∈ anchor :: ancestors anchor.
Definition member_in_scope (a : Node) (d : TypeDecl) : Prop := ∃ T, type_at doc a T ∧ in_body a ∧ member_type simple T d.
Definition introduces (a : Node) (d : TypeDecl) : Prop :=
  member_in_scope a d ∨ (∀ d', ¬ member_in_scope a d') ∧ type_at doc a d ∧ td_name d = simple.

(** The innermost enclosing type that gives the name a meaning gives it the
    only one. *)
Inductive nearest : list Node → TypeDecl → Prop :=
| nearest_here a ancs d : introduces a d → (∀ d', introduces a d' → d' = d) → nearest (a :: ancs) d
| nearest_out a ancs d : (∀ d', ¬ introduces a d') → nearest ancs d → nearest (a :: ancs) d.
Definition enclosed : Prop := ∃ a d, a ∈ ancestors anchor ∧ introduces a d.

(** What the imports on demand offer: the public types of a package, and the
    member types of a type. *)
Definition on_demand_of (w : string) : Prop := w ∈ wildcards imports ∨ w = "java.lang".
Definition offered (d : TypeDecl) : Prop := ∃ w, on_demand_of w ∧
  (named_type (w +:+ "." +:+ simple) d ∧ is_public d = true ∨ ∃ T, named_path w T ∧ member_type simple T d).

Definition the (P : TypeDecl → Prop) (d : TypeDecl) : Prop := P d ∧ ∀ d', P d' → d' = d.
Definition in_own_package : TypeDecl → Prop := named_type (in_package (package imports) simple).
Inductive means (d : TypeDecl) : Prop :=
| means_enclosing : nearest (ancestors anchor) d → means d
| means_imported path : ¬ enclosed → single imports !! simple = Some path → the (named_path path) d → means d
| means_package : ¬ enclosed → single imports !! simple = None → the in_own_package d → means d
| means_on_demand : ¬ enclosed → single imports !! simple = None → (∀ d', ¬ in_own_package d') → the offered d → means d.

(** What the code does not look at: type variables, local classes, members
    that are inherited or named in a header, imports on demand from a type or
    written twice, types that are not public, and names of several meanings. *)
Definition declares_variable (source : string) (a : Node) : Prop := ∃ ps p n,
  ps ∈ named_children a ∧ kind ps = "type_parameters" ∧ p ∈ named_children ps ∧ n ∈ named_children p
  ∧ kind n = "type_identifier" ∧ node_text n source = simple.
Record plain (source : string) : Prop := {
  one_each b d d' : named_type b d → named_type b d' → d = d';
  no_variable a : a ∈ ancestors anchor → ¬ declares_variable source a;
  no_local d : d ∈ ds → td_doc d = doc → td_name d = simple → td_binary_name d ≠ None;
  members_own a T d : a ∈ ancestors anchor → type_at doc a T → member_type simple T d →
    own_type simple T d ∧ in_body a ∧ td_name T ≠ simple;
  path_plain path : single imports !! simple = Some path → path ≠ "" ∧ ∀ k k' b b' d d',
    spelled k path b → named_type b d → spelled k' path b' → named_type b' d' → (k < 8)%nat ∧ d = d';
  from_packages w d : on_demand_of w → ¬ named_path w d;
  offers_public w d : on_demand_of w → named_type (w +:+ "." +:+ simple) d → is_public d = true;
  written_once : NoDup (wildcards imports ++ ["java.lang"]) }.
End At.
End Language.

Lemma filter_single {A} (p : A → bool) l x : List.filter p l = [x] ↔
  ∃ pre post, l = pre ++ x :: post ∧ p x = true ∧ ∀ y, y ∈ pre ++ post → p y = false.
Proof.
  split.
  - induction l as [|z l IH]; [done|]. cbn. destruct (p z) eqn:Ez.
    + intros [= -> E]. exists [], l. split; [done|]. split; [done|]. cbn. clear IH Ez.
      induction l as [|w l IH]; [by intros y Hy%elem_of_nil|]. cbn in E. destruct (p w) eqn:Ew; [done|].
      intros y [->|Hy]%elem_of_cons; [done|]. by apply IH.
    + intros (pre & post & -> & Hx & Hp)%IH. exists (z :: pre), post. split; [done|]. split; [done|].
      intros y [->|Hy]%elem_of_cons; [done|]. by apply Hp.
  - intros (pre & post & -> & Hx & Hp). rewrite List.filter_app. cbn. rewrite Hx.
    assert (E : ∀ k, (∀ y, y ∈ k → p y = false) → List.filter p k = []).
    { clear. induction k as [|w k IH]; [done|]. intros H. cbn. rewrite (H w) by (by left). apply IH. intros y Hy. apply H. by right. }
    rewrite !E; [done|..]; intros y Hy; apply Hp, elem_of_app; auto.
Qed.
Lemma str_app_cancel_r (a b c : string) : a +:+ c = b +:+ c → a = b.
Proof.
  intros H%(f_equal as_bytes). rewrite !as_bytes_app in H. apply as_bytes_inj. by apply (inj (λ l, l ++ as_bytes c)) in H.
Qed.
(** The only element of a list without duplicates that satisfies [p]. *)
Lemma filter_the {A} (p : A → bool) l x : NoDup l →
  List.filter p l = [x] ↔ x ∈ l ∧ p x = true ∧ ∀ y, y ∈ l → p y = true → y = x.
Proof.
  intros Hnd. rewrite filter_single. split.
  - intros (pre & post & -> & Hx & Hp). split; [set_solver|]. split; [done|]. intros y Hy Hpy.
    apply elem_of_app in Hy as [Hy|[->|Hy]%elem_of_cons]; [|done|]; (rewrite (Hp y) in Hpy; [done|set_solver]).
  - intros (Hx & Hp & Hu). apply list_elem_of_split in Hx as (pre & post & ->). exists pre, post.
    split; [done|]. split; [done|]. intros y Hy. apply not_true_iff_false. intros Hpy.
    assert (E : y = x) by (apply Hu; [set_solver|done]). subst y.
    apply NoDup_app in Hnd as (_ & H1 & H2). apply NoDup_cons in H2 as [H2 _]. apply elem_of_app in Hy as [Hy|Hy]; [|done].
    apply (H1 x Hy). by left.
Qed.

Section Resolved.
Context (docs : list OpenDoc) (current : nat) (Hids : ids_apart docs).
Notation t := (build docs current).
Notation ds := (all_decls docs current).
Lemma declared_somewhere b : declared t b = true ↔ ∃ d, named_type ds b d.
Proof. destruct (build_spec docs current) as (Ht & Ed & _). by rewrite declared_spec, Ed. Qed.
Lemma type_at_by_node doc a d : type_at ds doc a d ↔ is_Some (from_kind (kind a)) ∧ by_node t doc (node_id a) = Some d.
Proof. rewrite by_node_exact by done. unfold type_at. by rewrite <-not_eq_None_Some. Qed.

Section Plain.
Context (anchor : Node) (simple : string) (doc : nat) (imports : Imports) (source : string).
Context (Hp : plain ds (source_supers t) anchor simple doc imports source).
Lemma get_named_plain b d : get_named t b = Some d ↔ named_type ds b d.
Proof.
  rewrite get_named_exact by done. split; [by intros (? & ? & _)|]. intros H. split; [apply H|]. split; [apply H|].
  intros d' H1 H2. by eapply (one_each _ _ _ _ _ _ _ Hp); [split|].
Qed.
Lemma get_named_none b : get_named t b = None ↔ ∀ d, ¬ named_type ds b d.
Proof.
  rewrite eq_None_not_Some. split; [intros H d Hd%get_named_plain; apply H; by eexists|].
  intros H [d Hd%get_named_plain]. by eapply H.
Qed.
Notation introduces := (introduces ds (source_supers t) anchor simple doc).
Lemma introduces_plain a d : a ∈ ancestors anchor → introduces a d ↔
  ∃ T, type_at ds doc a T ∧ (td_name T = simple ∧ d = T ∨ td_name T ≠ simple ∧ own_type ds simple T d).
Proof.
  intros Ha. pose proof (members_own _ _ _ _ _ _ _ Hp a) as Hm. split.
  - intros [(T & HT & _ & Hd)|(_ & HT & Hn)].
    + destruct (Hm T d Ha HT Hd) as (Ho & _ & Hn). exists T. split; [done|]. by right.
    + exists d. split; [done|]. by left.
  - intros (T & HT & [[Hn ->]|[Hn Ho]]).
    + right. split; [|done]. intros d' (T' & HT' & _ & Hd'). destruct (Hm T' d' Ha HT' Hd') as (_ & _ & Hn').
      destruct HT as (_ & H1 & H2 & H3), HT' as (_ & H1' & H2' & H3'). apply Hn'.
      assert (T' = T) as -> by (eapply decl_id_inj; [done..|congruence]). done.
    + left. exists T. split; [done|]. assert (Hd : member_type ds (source_supers t) simple T d) by by apply member_own.
      split; [|done]. by destruct (Hm T d Ha HT Hd) as (_ & Hb & _).
Qed.
Lemma lexical_level a ancs : a ∈ ancestors anchor →
  (∃ d, introduces a d ∧ (∀ d', introduces a d' → d' = d) ∧ lexical t simple true doc (a :: ancs) = Some d)
  ∨ (∀ d', ¬ introduces a d') ∧ lexical t simple true doc (a :: ancs) = lexical t simple true doc ancs.
Proof.
  intros Ha. cbn [lexical andb]. setoid_rewrite (introduces_plain a _ Ha). case_bool_decide as Hk.
  2: { right. split; [|done]. intros d' (T & [? _]%type_at_by_node & _). done. }
  destruct (by_node t doc (node_id a)) as [e|] eqn:Ee.
  2: { right. split; [|done]. intros d' (T & [_ ?]%type_at_by_node & _). congruence. }
  assert (He : type_at ds doc a e) by by apply type_at_by_node.
  assert (Hu : ∀ T, type_at ds doc a T → T = e) by (intros T [_ ?]%type_at_by_node; congruence).
  case_bool_decide as Hn.
  { left. exists e. split; [exists e; by auto|]. split; [|done]. intros d' (T & HT & [[_ ->]|[HT' _]]); [by apply Hu|].
    by rewrite (Hu T HT) in HT'. }
  destruct (td_binary_name e) as [b|] eqn:Eb.
  2: { right. split; [|done]. intros d' (T & HT & H). rewrite (Hu T HT) in H. destruct H as [[? _]|(_ & b & ? & _)]; congruence. }
  destruct (get_named t (b +:+ "$" +:+ simple)) as [m|] eqn:Em.
  - apply get_named_plain in Em. left. exists m. split; [exists e; split; [done|]; right; split; [done|]; by exists b|].
    split; [|done]. intros d' (T & HT & H). rewrite (Hu T HT) in H. destruct H as [[? _]|(_ & b' & Hb' & H)]; [done|].
    rewrite Eb in Hb'. injection Hb' as <-. by eapply (one_each _ _ _ _ _ _ _ Hp).
  - right. split; [|done]. intros d' (T & HT & H). rewrite (Hu T HT) in H. destruct H as [[? _]|(_ & b' & Hb' & H)]; [done|].
    rewrite Eb in Hb'. injection Hb' as <-. by eapply get_named_none in Em.
Qed.
Lemma lexical_nearest ancs : (∀ a, a ∈ ancs → a ∈ ancestors anchor) →
  match lexical t simple true doc ancs with
  | Some d => nearest ds (source_supers t) anchor simple doc ancs d
  | None => ∀ a d, a ∈ ancs → ¬ introduces a d
  end.
Proof.
  induction ancs as [|a ancs IH]; intros Hin; [by intros a d H%elem_of_nil|].
  destruct (lexical_level a ancs) as [(d & Hd & Hu & ->)|[Hno ->]]; [apply Hin; by left|by apply nearest_here|].
  assert (IH' := IH (λ x Hx, Hin x (list_elem_of_further _ _ _ Hx))). destruct (lexical _ _ _ _ _) as [d|]; [by apply nearest_out|].
  intros x d [->|Hx]%elem_of_cons; [apply Hno|by apply IH'].
Qed.
Lemma nearest_unique ancs d d' : nearest ds (source_supers t) anchor simple doc ancs d →
  nearest ds (source_supers t) anchor simple doc ancs d' → d' = d.
Proof.
  induction 1 as [a ancs d Hd Hu|a ancs d Hno _ IH]; inversion 1 as [? ? ? H1|? ? ? H1]; subst; auto.
  - by destruct (H1 d).
  - by destruct (Hno d').
Qed.
Lemma nearest_enclosed ancs d : nearest ds (source_supers t) anchor simple doc ancs d → ∃ a e, a ∈ ancs ∧ introduces a e.
Proof.
  induction 1 as [a ancs d Hd Hu|a ancs d Hno _ (x & e & Hx & He)]; [exists a, d; split; [by left|done]|].
  exists x, e. split; [by right|done].
Qed.

Lemma imported_plain path d : single imports !! simple = Some path →
  (b ← import_path_to_binary path (declared t); get_named t b) = Some d ↔ the (named_path ds path) d.
Proof.
  intros Es. destruct (path_plain _ _ _ _ _ _ _ Hp path Es) as [Hne Hone].
  unfold import_path_to_binary. rewrite bool_decide_eq_false_2, respell_find by done. split.
  - intros (b & (pre & c & post & Er & Eb & _)%find_map_Some & Hd%get_named_plain)%bind_Some.
    destruct (declared t c); [|done]. injection Eb as ->.
    assert (Hc : b ∈ respellings 8 path) by (rewrite Er; set_solver). apply respellings_spec in Hc as (k & _ & Hs).
    split; [by exists k, b|]. intros d' (k' & b' & Hs' & Hd'). symmetry. by eapply (Hone k k').
  - intros [(k & b & Hs & Hd) Hu]. destruct (Hone k k b b d d Hs Hd Hs Hd) as [Hk _].
    assert (Hb : b ∈ respellings 8 path) by (apply respellings_spec; by exists k).
    assert (Hdb : declared t b = true) by (apply declared_somewhere; by exists d).
    destruct (find_map (λ c, if declared t c then Some c else None) (respellings 8 path)) as [c|] eqn:Ef.
    + cbn. apply find_map_Some in Ef as (pre & c' & post & Er & Ec & _). destruct (declared t c') eqn:Edc; [|done]. injection Ec as ->.
      apply declared_somewhere in Edc as [e He]. apply get_named_plain.
      assert (Hc : c ∈ respellings 8 path) by (rewrite Er; set_solver). apply respellings_spec in Hc as (k' & _ & Hs').
      by destruct (Hone k k' b c d e Hs Hd Hs' He) as [_ ->].
    + rewrite find_map_None in Ef. specialize (Ef b Hb). cbv beta in Ef. by rewrite Hdb in Ef.
Qed.
Lemma on_demand_plain d : on_demand t simple imports = Some d ↔ the (offered ds (source_supers t) simple imports) d.
Proof.
  assert (Hof : ∀ e, offered ds (source_supers t) simple imports e ↔
    ∃ b, b ∈ ((λ w, w +:+ "." +:+ simple) <$> wildcards imports) ++ ["java.lang." +:+ simple] ∧ named_type ds b e).
  { intros e. split.
    - intros (w & Hw & [[He _]|(T & HT & _)]); [|by edestruct (from_packages _ _ _ _ _ _ _ Hp w T)].
      exists (w +:+ "." +:+ simple). split; [|done]. apply elem_of_app. destruct Hw as [Hw| ->]; [left|right; by left].
      by apply (list_elem_of_fmap_2 (λ w, w +:+ "." +:+ simple)).
    - intros (b & [(w & -> & Hw)%list_elem_of_fmap|Hb]%elem_of_app & He).
      + exists w. split; [by left|]. left. split; [done|]. by eapply (offers_public _ _ _ _ _ _ _ Hp w); [left|].
      + apply list_elem_of_singleton in Hb as ->. exists "java.lang". split; [by right|]. left. split; [done|].
        by eapply (offers_public _ _ _ _ _ _ _ Hp "java.lang"); [right|]. }
  assert (Hnd : NoDup (((λ w, w +:+ "." +:+ simple) <$> wildcards imports) ++ ["java.lang." +:+ simple])).
  { change ["java.lang." +:+ simple] with ((λ w, w +:+ "." +:+ simple) <$> ["java.lang"]).
    rewrite <-fmap_app. apply NoDup_fmap_2; [|apply (written_once _ _ _ _ _ _ _ Hp)]. intros w w' H. by eapply str_app_cancel_r. }
  unfold on_demand. split.
  - destruct (List.filter _ _) as [|b [|]] eqn:Ef; try done. intros Hd%get_named_plain.
    apply filter_the in Ef as (Hb & _ & Hu); [|done]. split; [apply Hof; by exists b|].
    intros d' (b' & Hb' & Hd')%Hof. assert (E : b' = b) by (apply Hu; [done|]; apply declared_somewhere; by exists d').
    subst b'. by eapply (one_each _ _ _ _ _ _ _ Hp).
  - intros [(b & Hb & Hd)%Hof Hu].
    assert (Ef : List.filter (declared t) (((λ w, w +:+ "." +:+ simple) <$> wildcards imports) ++ ["java.lang." +:+ simple]) = [b]).
    { apply filter_the; [done|]. split; [done|]. split; [apply declared_somewhere; by exists d|].
      intros c Hc (e & He)%declared_somewhere. assert (e = d) as -> by (apply Hu, Hof; by exists c).
      destruct Hd as [_ Hd], He as [_ He]. congruence. }
    rewrite Ef. by apply get_named_plain.
Qed.
End Plain.
End Resolved.


(** ** Members along the supertypes *)

Section Members.
Context (docs : list OpenDoc) (current : nat) (Hids : ids_apart docs).
Notation t := (build docs current).
Notation ds := (all_decls docs current).
Lemma get_named_in b d : get_named t b = Some d → d ∈ ds.
Proof.
  intros E%get_named_exact; [|done]. by destruct E.
Qed.
Lemma lexical_in simple simply doc ancs d : lexical t simple simply doc ancs = Some d → d ∈ ds.
Proof.
  induction ancs as [|a ancs IH]; [done|]. cbn [lexical]. case_bool_decide; [|done].
  destruct (by_node t doc (node_id a)) as [e|] eqn:Ee; [|done]. apply by_node_exact in Ee as [He _]; [|done].
  destruct (simply && _); [by intros [= <-]|]. destruct (td_binary_name e) as [b|]; [|done].
  destruct (get_named t _) as [m|] eqn:Em; [|done]. destruct simply; [|done]. intros [= <-]. by eapply get_named_in.
Qed.
Lemma resolved_in anchor simple dotted doc imports d :
  resolve_type_name_at t anchor simple dotted doc imports = Some d → d ∈ ds.
Proof.
  unfold resolve_type_name_at. destruct (lexical _ _ _ _ _) as [e|] eqn:El; [intros [= <-]; by eapply lexical_in|].
  destruct dotted as [dotted|].
  - rewrite respell_find. intros (pre & b & post & _ & H & _)%find_map_Some. by eapply get_named_in.
  - destruct (single_import imports simple); [intros (b & _ & H)%bind_Some; by eapply get_named_in|].
    destruct (declared _ _); [by apply get_named_in|]. unfold on_demand. destruct (List.filter _ _) as [|b [|]]; try done.
    by apply get_named_in.
Qed.
Lemma supers_in d s : s ∈ source_supers t d → s ∈ ds.
Proof.
  unfold source_supers. destruct (doc_context t (td_doc d)); [|by intros H%elem_of_nil].
  intros (n & _ & (simple & _ & H)%bind_Some)%list_elem_of_omap. by eapply resolved_in.
Qed.
Lemma reach_in d x : d ∈ ds → reach (source_supers t) d x → x ∈ ds.
Proof. intros Hd H. revert Hd. induction H as [|x y z Hxy _ IH]; [done|]. intros _. apply IH. by eapply supers_in. Qed.
End Members.

(** Each signature's first member. *)
Fixpoint first_of_each (seen : gset string) (ms : list Member) : list Member :=
  match ms with
  | [] => []
  | m :: ms => if decide (member_sig m ∈ seen) then first_of_each seen ms
               else m :: first_of_each ({[member_sig m]} ∪ seen) ms
  end.
Lemma collect_members ds : ∀ out seen, (fold_left collect_own ds (out, seen)).1 = out ++ first_of_each seen (flat_map own_members ds).
Proof.
  assert (H : ∀ ms out seen, ∃ seen', fold_left (λ '(out, seen) m,
      if decide (member_sig m ∈ seen) then (out, seen) else (out ++ [m], {[member_sig m]} ∪ seen)) ms (out, seen)
    = (out ++ first_of_each seen ms, seen') ∧ ∀ k, first_of_each seen (ms ++ k) = first_of_each seen ms ++ first_of_each seen' k).
  { induction ms as [|m ms IH]; intros out seen; cbn [fold_left first_of_each app]; [exists seen; by rewrite app_nil_r|].
    destruct (decide _) as [Hm|Hm]; [apply IH|]. destruct (IH (out ++ [m]) ({[member_sig m]} ∪ seen)) as (seen' & E & Ek).
    exists seen'. rewrite E, <-app_assoc. split; [done|]. intros k. by rewrite Ek. }
  induction ds as [|d ds IH]; intros out seen; cbn [fold_left flat_map first_of_each]; [by rewrite app_nil_r|].
  destruct (H (own_members d) out seen) as (seen' & E & Ek). unfold collect_own at 2. rewrite E, IH, Ek. by rewrite app_assoc.
Qed.
Lemma first_of_each_spec ms : ∀ seen, NoDup (member_sig <$> first_of_each seen ms)
  ∧ (∀ m, m ∈ first_of_each seen ms → m ∈ ms ∧ member_sig m ∉ seen)
  ∧ (∀ m, m ∈ ms → member_sig m ∈ seen ∨ ∃ m', m' ∈ first_of_each seen ms ∧ member_sig m' = member_sig m).
Proof.
  induction ms as [|m ms IH]; intros seen; cbn [first_of_each].
  { split; [constructor|]. by split; intros m Hm%elem_of_nil. }
  destruct (decide (member_sig m ∈ seen)) as [Hm|Hm].
  - destruct (IH seen) as (A & B & C). split; [done|]. split.
    + intros x [? ?]%B. split; [by right|done].
    + intros x [->|Hx]%elem_of_cons; [by left|auto].
  - destruct (IH ({[member_sig m]} ∪ seen)) as (A & B & C). split; [|split].
    + rewrite fmap_cons. constructor; [|done]. intros (x & Ex & Hx)%list_elem_of_fmap. apply B in Hx as [_ Hx]. set_solver.
    + intros x [->|Hx]%elem_of_cons; [split; [by left|done]|]. apply B in Hx as [? ?]. split; [by right|set_solver].
    + intros x [->|Hx]%elem_of_cons; [right; exists m; split; [by left|done]|].
      destruct (C x Hx) as [[E%elem_of_singleton|?]%elem_of_union|(y & Hy & Ey)]; [|by left|].
      * right. exists m. split; [by left|done].
      * right. exists y. split; [by right|done].
Qed.

(** C30: members are looked up along the supertypes, each type once, a type
    before the types it extends.  As long as at most 65 types can be reached
    the depth limit leaves none out, cycles included: a member is found
    exactly when some reachable type declares one, the first in that order,
    and the list of all members has exactly one of every signature that the
    reachable types declare, again the first. *)
Theorem members_exact docs current d (U : gset nat) : ids_apart docs → d ∈ decls (build docs current) →
  (∀ x, reach (source_supers (build docs current)) d x → decl_id x ∈ U) → (base.size U ≤ 65)%nat →
  let t := build docs current in
  ∃ order, head order = Some d ∧ NoDup order ∧ (∀ x, x ∈ order ↔ reach (source_supers t) d x)
    ∧ (∀ name, find_member t d name = find_map (own_member name) order)
    ∧ (∀ name, find_member t d name = None ↔ ∀ x m, reach (source_supers t) d x → m ∈ own_members x → m_name m ≠ name)
    ∧ all_members t d false = first_of_each ∅ (flat_map own_members order)
    ∧ NoDup (member_sig <$> all_members t d false)
    ∧ (∀ x m, reach (source_supers t) d x → m ∈ own_members x → ∃ m', m' ∈ all_members t d false ∧ member_sig m' = member_sig m).
Proof.
  intros Hids Hd HU Hs. cbv zeta. destruct (build_spec docs current) as (_ & Ed & _). rewrite Ed in Hd.
  assert (Hinj : ∀ x y, reach (source_supers (build docs current)) d x → reach (source_supers (build docs current)) d y →
    decl_id x = decl_id y → x = y).
  { intros x y Hx Hy. apply (decl_id_inj docs current); [done|by eapply reach_in..]. }
  pose proof (preorder_complete decl_id (source_supers (build docs current)) d U HU Hinj (S MAX_SUPER_DEPTH) Hs) as Ho.
  set (order := (preorder decl_id (source_supers (build docs current)) (S MAX_SUPER_DEPTH) ∅ d).1) in *.
  assert (Hf : ∀ name, find_member (build docs current) d name = find_map (own_member name) order)
    by (intros name; apply walk_find_preorder).
  assert (Ha : all_members (build docs current) d false = first_of_each ∅ (flat_map own_members order)).
  { unfold all_members. rewrite (walk_all_preorder decl_id (source_supers (build docs current)) collect_own).
    cbn [fst]. apply (collect_members order [] ∅). }
  destruct (first_of_each_spec (flat_map own_members order) ∅) as (F1 & F2 & F3).
  exists order. split; [|split; [|split; [|split; [|split; [|split; [|split]]]]]]; try done.
  - unfold order. rewrite preorder_S. by destruct (decide (_ ∈ ∅)) as [H%elem_of_empty|].
  - apply (NoDup_fmap_1 decl_id). apply preorder_NoDup.
  - intros name. rewrite Hf, find_map_None. unfold own_member. split.
    + intros H x m Hx Hm E. apply Ho in Hx. specialize (H x Hx).
      eapply find_none in H; [|by apply list_elem_of_In]. by apply bool_decide_eq_false in H.
    + intros H x Hx. destruct (List.find _ _) as [m|] eqn:E; [|done]. apply find_some in E as [Hm E].
      apply bool_decide_eq_true in E. apply list_elem_of_In in Hm. apply Ho in Hx. by destruct (H x m Hx Hm).
  - by rewrite Ha.
  - intros x m Hx Hm. rewrite Ha. destruct (F3 m) as [[]%elem_of_empty|?]; [|done].
    apply list_elem_of_In, in_flat_map. exists x. rewrite <-!list_elem_of_In. by rewrite Ho.
Qed.

(** ** Which document is current does not matter *)

Lemma all_decls_current docs c c' d : d ∈ all_decls docs c ↔ d ∈ all_decls docs c'.
Proof. by rewrite !all_decls_spec. Qed.
Lemma option_ext {A} (x y : option A) : (∀ a, x = Some a ↔ y = Some a) → x = y.
Proof.
  intros H. destruct x as [a|]; [symmetry; by apply H|]. destruct y as [b|]; [|done]. by apply H.
Qed.
Record same_lookups (t t' : TypeTable) : Prop := {
  same_named b : get_named t b = get_named t' b;
  same_declared b : declared t b = declared t' b;
  same_by_node doc id : by_node t doc id = by_node t' doc id;
  same_contexts : doc_contexts t = doc_contexts t' }.
Lemma build_same docs c c' : ids_apart docs → same_lookups (build docs c) (build docs c').
Proof.
  intros Hids. constructor.
  - intros b. apply option_ext. intros d. rewrite !get_named_exact by done. by setoid_rewrite (all_decls_current docs c c').
  - intros b. apply eq_true_iff_eq. rewrite !declared_somewhere. unfold named_type.
    by setoid_rewrite (all_decls_current docs c c').
  - intros doc id. apply option_ext. intros d. rewrite !by_node_exact by done. by rewrite (all_decls_current docs c c').
  - destruct (build_spec docs c) as (_ & _ & ->). by destruct (build_spec docs c') as (_ & _ & ->).
Qed.
Section Same.
Context (t t' : TypeTable) (Hs : same_lookups t t').
Lemma lexical_same simple simply doc ancs : lexical t simple simply doc ancs = lexical t' simple simply doc ancs.
Proof.
  induction ancs as [|a ancs IH]; [done|]. cbn [lexical]. rewrite (same_by_node _ _ Hs), IH.
  case_bool_decide; [|done]. destruct (by_node t' doc (node_id a)) as [d|]; [|done].
  destruct (td_binary_name d); [by rewrite (same_named _ _ Hs)|done].
Qed.
Lemma respell_ext {A} (f g : string → option A) n : (∀ b, f b = g b) → ∀ c, respell n f c = respell n g c.
Proof. intros H. induction n as [|n IH]; intros c; [done|]. cbn. rewrite H. destruct (g c); [done|]. by destruct (rsplit_once "." c) as [[]|]; [cbn; rewrite IH|]. Qed.
Lemma resolve_same anchor simple dotted doc imports :
  resolve_type_name_at t anchor simple dotted doc imports = resolve_type_name_at t' anchor simple dotted doc imports.
Proof.
  unfold resolve_type_name_at. rewrite lexical_same. destruct (lexical _ _ _ _ _); [done|]. destruct dotted.
  { apply respell_ext, Hs. }
  unfold single_import, import_path_to_binary, on_demand. destruct (single imports !! simple) as [path|].
  - case_bool_decide; [done|]. rewrite (respell_ext _ (λ c, if declared t' c then Some c else None)) by (intros; by rewrite (same_declared _ _ Hs)).
    destruct (respell _ _ path); [apply Hs|done].
  - rewrite (same_declared _ _ Hs), (same_named _ _ Hs). destruct (declared t' _); [done|].
    rewrite (filter_ext (declared t) (declared t')) by apply Hs. destruct (List.filter _ _) as [|b [|]]; [done|apply Hs|done].
Qed.
Lemma supers_same d : source_supers t d = source_supers t' d.
Proof.
  unfold source_supers, doc_context. rewrite (same_contexts _ _ Hs). destruct (doc_contexts t' !! td_doc d); [|done].
  apply omap_ext_elem. intros n _. unfold resolve_type_name_node. destruct (type_ref_simple_name n (td_source d)); [|done]. apply resolve_same.
Qed.
Lemma preorder_same fuel : ∀ v d, preorder decl_id (source_supers t) fuel v d = preorder decl_id (source_supers t') fuel v d.
Proof.
  induction fuel as [|fuel IH]; intros v d; [done|]. rewrite !preorder_S. destruct (decide _); [done|].
  rewrite supers_same. assert (E : ∀ l w, preorder_all decl_id (source_supers t) fuel ([], w) l = preorder_all decl_id (source_supers t') fuel ([], w) l).
  { induction l as [|s l IHl]; intros w; [done|]. rewrite !preorder_all_cons, preorder_all_acc, (preorder_all_acc _ (source_supers t')), IH, IHl. done. }
  by rewrite E.
Qed.
End Same.

(** which document is the current one orders candidates but decides
    nothing: every type name, qualified or not, resolves to the same
    declaration, and every member lookup and member list is the same. *)
Theorem current_irrelevant docs c c' : ids_apart docs →
  let t := build docs c in let t' := build docs c' in
  (∀ anchor simple dotted doc imports,
     resolve_type_name_at t anchor simple dotted doc imports = resolve_type_name_at t' anchor simple dotted doc imports)
  ∧ (∀ d, source_supers t d = source_supers t' d)
  ∧ (∀ d name, find_member t d name = find_member t' d name)
  ∧ (∀ d static_only, all_members t d static_only = all_members t' d static_only).
Proof.
  intros Hids. cbv zeta. pose proof (build_same docs c c' Hids) as Hs.
  split; [by apply resolve_same|]. split; [by apply supers_same|]. split.
  - intros d name. unfold find_member. rewrite !(proj1 (walk_find_preorder _ _ _ _ _ _)). by rewrite (preorder_same _ _ Hs).
  - intros d so. unfold all_members. rewrite !(walk_all_preorder decl_id). by rewrite (preorder_same _ _ Hs).
Qed.

(** ** Imports as they are written *)

(** Printable ASCII without white space and semicolons. *)
Definition graphic (s : string) : bool := forallb (λ b, in_range 33 126 b && negb (b =? 59)) (as_bytes s).
Lemma ws_graphic a : in_range 33 126 (byte_of_ascii a) = true →
  forallb (λ p, match p with String b _ => negb (Ascii.eqb b a) | _ => false end) white_space = true
  ∧ forallb (λ p, match p with String b _ => negb (Ascii.eqb b a) | _ => false end) (str_rev <$> white_space) = true.
Proof. destruct a as [[] [] [] [] [] [] [] []]; vm_compute; (done || discriminate). Qed.
Lemma trim_start_graphic a r : in_range 33 126 (byte_of_ascii a) = true → trim_start (String a r) = String a r.
Proof. intros Ha. apply strip_all_stop, strip_any_cons. by apply ws_graphic. Qed.
Lemma trim_end_graphic r z : in_range 33 126 (byte_of_ascii z) = true → trim_end (r +:+ String z "") = r +:+ String z "".
Proof.
  intros Hz. unfold trim_end. rewrite str_rev_app. cbn [str_rev String.append]. rewrite strip_all_stop.
  - cbn [str_rev]. by rewrite str_rev_involutive.
  - apply strip_any_cons. by apply ws_graphic.
Qed.
Lemma without_white_space_graphic s : graphic s = true → without_white_space s = s.
Proof.
  unfold without_white_space. generalize (le_n (S (String.length s))). generalize (S (String.length s)) at 2 3 as f. intros f.
  revert f. induction s as [|a s IH]; intros f Hf Hg; (destruct f as [|f]; [cbn in Hf; lia|]); [done|].
  cbn [concat_words]. unfold graphic in Hg. cbn [as_bytes forallb] in Hg. apply andb_true_iff in Hg as [[Ha _]%andb_true_iff Hg].
  rewrite strip_any_cons by (by apply ws_graphic). f_equal. apply IH; [cbn in Hf; lia|done].
Qed.
Lemma skip_char_rev r : graphic r = true → trim_end_char ";" (r +:+ ";") = r.
Proof.
  intros Hg. unfold trim_end_char. rewrite str_rev_app. cbn [str_rev String.append skip_char]. rewrite Ascii.eqb_refl.
  rewrite <-(str_rev_involutive r) at 2. f_equal.
  assert (Hr : graphic (str_rev r) = true).
  { unfold graphic in *. clear -Hg. induction r as [|a r IH]; [done|]. cbn in *. apply andb_true_iff in Hg as [Ha Hg].
    rewrite as_bytes_app, forallb_app, IH by done. cbn. by rewrite Ha. }
  destruct (str_rev r) as [|a q]; [done|]. cbn [skip_char]. destruct (Ascii.eqb_spec a ";") as [->|]; [|done].
  unfold graphic in Hr. by cbn in Hr.
Qed.

(** A prefix that ends before [c]. *)
Lemma starts_before c r k : contains_char c k = false → ∀ p, starts_with k p = false → starts_with k (p +:+ String c r) = false.
Proof.
  intros Hc p Hp. unfold starts_with in *. apply bool_decide_eq_false in Hp. apply bool_decide_eq_false. intros H. apply Hp. clear Hp.
  revert p H. induction k as [|a k IH]; intros p H; [by eexists|]. cbn [contains_char] in Hc. apply orb_false_iff in Hc as [Ha Hc].
  destruct p as [|b p]; cbn [String.append strip_prefix] in *.
  - rewrite Ascii.eqb_sym, Ha in H || rewrite Ha in H. by destruct H.
  - destruct (Ascii.eqb a b); [by apply IH|by destruct H].
Qed.

(** White space between the keyword and the path is one blank. *)
Lemma dotted_path_graphic (k : ascii) (kw p : string) : in_range 33 126 (byte_of_ascii k) = true → graphic p = true → p ≠ "" →
  dotted_path (String k kw +:+ " " +:+ p +:+ ";") (String k kw) = Some p.
Proof.
  intros Hk Hg Hne. unfold dotted_path, trim.
  replace (String k kw +:+ " " +:+ p +:+ ";") with ((String k kw +:+ " " +:+ p) +:+ String ";" "") by (by rewrite !str_app_assoc).
  assert (E : trim_start ((String k kw +:+ " " +:+ p) +:+ ";") = (String k kw +:+ " " +:+ p) +:+ ";") by (by apply trim_start_graphic).
  rewrite E. rewrite trim_end_graphic by done. rewrite !str_app_assoc, strip_prefix_app. cbn [mbind option_bind].
  assert (Es : trim_start (" " +:+ p +:+ ";") = p +:+ ";").
  { destruct p as [|a p]; [done|]. unfold graphic in Hg. cbn [as_bytes forallb] in Hg. apply andb_true_iff in Hg as [[Ha _]%andb_true_iff _].
    change (trim_start (" " +:+ String a p +:+ ";")) with (strip_all (String.length (String a p +:+ ";")) white_space (String a p +:+ ";")).
    apply strip_all_stop, strip_any_cons. by apply ws_graphic. }
  rewrite Es, trim_end_graphic, skip_char_rev, without_white_space_graphic by done. by rewrite bool_decide_eq_false_2.
Qed.

Inductive ImportDecl := ImportType (path : string) | ImportAll (pkg : string) | ImportStatic (path : string).
Definition render (d : ImportDecl) : string :=
  match d with
  | ImportType p => "import " +:+ p +:+ ";"
  | ImportAll p => "import " +:+ p +:+ ".*;"
  | ImportStatic p => "import static " +:+ p +:+ ";"
  end.
Definition plain_path (p : string) : bool := graphic p && negb (bool_decide (p = "")) && negb (starts_with "static" p).
Definition plain_import (d : ImportDecl) : bool :=
  match d with
  | ImportType p => plain_path p && negb (ends_with ".*" p)
  | ImportAll p => plain_path p
  | ImportStatic _ => true
  end.
Definition imported_type (d : ImportDecl) : option string := match d with ImportType p => Some p | _ => None end.
Definition imported_package (d : ImportDecl) : option string := match d with ImportAll p => Some p | _ => None end.

Lemma import_text_render d i : plain_import d = true →
  import_text i (render d) = match d with
    | ImportType p => mkImports (package i) (<[split_last "." p := p]> (single i)) (wildcards i)
    | ImportAll p => mkImports (package i) (single i) (wildcards i ++ [p])
    | ImportStatic _ => i
    end.
Proof.
  intros Hd. unfold import_text.
  assert (Hst : ∀ p c q, plain_path p = true → contains_char c "static" = false →
    starts_with "import static" (trim_start ("import " +:+ p +:+ String c q)) = false).
  { intros p c q Hp Hc. unfold plain_path in Hp. rewrite !andb_true_iff, !negb_true_iff in Hp. destruct Hp as [[_ Hne] Hs].
    assert (E : trim_start ("import " +:+ p +:+ String c q) = "import " +:+ p +:+ String c q) by (by apply trim_start_graphic).
    rewrite E. change (starts_with "static" (p +:+ String c q) = false). by apply starts_before. }
  destruct d as [p|p|p]; cbn [render plain_import] in *.
  - apply andb_true_iff in Hd as [Hp He]. rewrite Hst by done. unfold plain_path in Hp. rewrite !andb_true_iff in Hp. destruct Hp as [[Hg Hne] _].
    apply negb_true_iff, bool_decide_eq_false in Hne. apply negb_true_iff in He.
    change ("import " +:+ p +:+ ";") with (String "i" "mport" +:+ " " +:+ p +:+ ";"). rewrite dotted_path_graphic by done.
    unfold ends_with in He. apply bool_decide_eq_false in He. destruct (strip_suffix ".*" p); [by destruct He|done].
  - rewrite Hst by done. unfold plain_path in Hd. rewrite !andb_true_iff in Hd. destruct Hd as [[Hg Hne] _].
    change ("import " +:+ p +:+ ".*;") with (String "i" "mport" +:+ " " +:+ p +:+ (".*" +:+ ";")).
    rewrite <-(str_app_assoc p). rewrite dotted_path_graphic; [by rewrite strip_suffix_app|done| |by destruct p].
    unfold graphic. rewrite as_bytes_app, forallb_app. by apply andb_true_iff.
  - change ("import static " +:+ p +:+ ";") with (String "i" ("mport static " +:+ p +:+ ";")). by rewrite trim_start_graphic.
Qed.

Definition import_nodes (cs : list Node) : list Node := List.filter (λ c, bool_decide (kind c = "import_declaration")) cs.
Definition package_nodes (cs : list Node) : list Node := List.filter (λ c, bool_decide (kind c = "package_declaration")) cs.
Definition named_by (s : string) (p : string) : bool := bool_decide (split_last "." p = s).
Lemma last_cons_default {A} (x : A) l : last (x :: l) = Some (default x (last l)).
Proof. destruct l as [|y l]; [done|]. change (last (x :: y :: l)) with (last (y :: l)). destruct (last (y :: l)) eqn:E; [done|]. by apply last_None in E. Qed.
Lemma parse_children source cs : ∀ ds i, (λ n, node_text n source) <$> import_nodes cs = render <$> ds → forallb plain_import ds = true →
  let i' := fold_left (parse_child source) cs i in
  wildcards i' = wildcards i ++ omap imported_package ds
  ∧ (∀ s, single i' !! s = match last (List.filter (named_by s) (omap imported_type ds)) with Some p => Some p | None => single i !! s end)
  ∧ package i' = match last (package_nodes cs) with Some n => dotted_path (node_text n source) "package" | None => package i end.
Proof.
  induction cs as [|c cs IH]; intros ds i E Hd; cbv zeta.
  { destruct ds; [|done]. cbn. by rewrite app_nil_r. }
  cbn [fold_left]. unfold import_nodes, package_nodes in *. cbn [List.filter] in *. unfold parse_child at 2 4 6.
  destruct (decide (kind c = "package_declaration")) as [Hp|Hp].
  - rewrite (bool_decide_eq_true_2 _ Hp). rewrite bool_decide_eq_false_2 in E by congruence. destruct (IH ds (mkImports (dotted_path (node_text c source) "package") (single i) (wildcards i)) E Hd) as (A & B & C).
    split; [done|]. split; [done|]. rewrite C, last_cons_default. by destruct (last _).
  - rewrite (bool_decide_eq_false_2 _ Hp). destruct (decide (kind c = "import_declaration")) as [Hi|Hi];
      [rewrite (bool_decide_eq_true_2 _ Hi) in *|rewrite (bool_decide_eq_false_2 _ Hi) in *; by apply IH].
    destruct ds as [|d ds]; [done|]. cbn in E. injection E as Ec E.
    cbn [forallb] in Hd. apply andb_true_iff in Hd as [Hd1 Hd]. rewrite Ec, import_text_render by done.
    destruct (IH ds (match d with
      | ImportType p => mkImports (package i) (<[split_last "." p := p]> (single i)) (wildcards i)
      | ImportAll p => mkImports (package i) (single i) (wildcards i ++ [p])
      | ImportStatic _ => i
      end) E Hd) as (A & B & C). destruct d as [p|p|p]; cbn [package single wildcards omap list_omap imported_package imported_type] in *.
    + split; [done|]. split; [|done]. intros s. rewrite B. cbn [List.filter]. change (named_by s p) with (bool_decide (split_last "." p = s)). case_bool_decide as Hs.
      * rewrite last_cons_default. subst s. rewrite lookup_insert_eq. by destruct (last (List.filter (named_by _) _)).
      * by rewrite lookup_insert_ne by done.
    + split; [by rewrite A, <-app_assoc|done].
    + done.
Qed.

(** the imports of a document, written the usual way, are read back: every
    import on demand in order, and for each simple name the path of the last
    import of a type that ends in it; static imports bind no type.  Its package
    is the one it declares. *)
Theorem imports_exact tree source (ds : list ImportDecl) (pkg : option string) :
  (λ n, node_text n source) <$> import_nodes (named_children (root_node tree)) = render <$> ds →
  forallb plain_import ds = true →
  (λ n, node_text n source) <$> package_nodes (named_children (root_node tree))
    = match pkg with Some p => ["package " +:+ p +:+ ";"] | None => [] end →
  match pkg with Some p => graphic p = true ∧ p ≠ "" | None => True end →
  let i := parse tree source in
  package i = pkg ∧ wildcards i = omap imported_package ds
  ∧ ∀ s, single_import i s = last (List.filter (named_by s) (omap imported_type ds)).
Proof.
  intros E Hd Ep Hp. cbv zeta. unfold parse.
  destruct (parse_children source (named_children (root_node tree)) ds (mkImports None ∅ []) E Hd) as (A & B & C).
  split; [|split; [done|]].
  - rewrite C. destruct pkg as [p|].
    + destruct (package_nodes _) as [|n [|]]; [done| |done].
      apply (f_equal head) in Ep. injection Ep as Ep. cbn [last]. rewrite Ep. destruct Hp. by apply (dotted_path_graphic "p" "ackage" p).
    + by destruct (package_nodes _).
  - intros s. unfold single_import. rewrite B. cbn [single]. rewrite lookup_empty. by destruct (last (List.filter (named_by s) _)).
Qed.

(** ** Examples *)

Module Sample.
Definition doc_a : OpenDoc := mkOpenDoc "package p; import q.B; class A extends B { int x; class In { } }" (
    node 1 "program" 0 64 [node 2 "package_declaration" 0 10 [token 3 "package" 0 7; node 4 "identifier" 8 9 [];
    token 5 ";" 9 10]; node 6 "import_declaration" 11 22 [token 7 "import" 11 17; node 8 "scoped_identifier" 18 21
    []; token 9 ";" 21 22]; node 10 "class_declaration" 23 64 [token 11 "class" 23 28; field "name" (node 12
    "identifier" 29 30 []); field "superclass" (node 13 "superclass" 31 40 [token 14 "extends" 31 38; node 15
    "type_identifier" 39 40 []]); field "body" (node 16 "class_body" 41 64 [token 17 "{" 41 42; node 18
    "field_declaration" 43 49 [field "type" (node 19 "integral_type" 43 46 []); field "declarator" (node 20
    "variable_declarator" 47 48 [field "name" (node 21 "identifier" 47 48 [])]); token 22 ";" 48 49]; node 23
    "class_declaration" 50 62 [token 24 "class" 50 55; field "name" (node 25 "identifier" 56 58 []); field "body"
    (node 26 "class_body" 59 62 [token 27 "{" 59 60; token 28 "}" 61 62])]; token 29 "}" 63 64])]]).
Definition doc_b : OpenDoc := mkOpenDoc "package q; class B extends r.C { int y; int x; }" (
    node 30 "program" 0 48 [node 31 "package_declaration" 0 10 [token 32 "package" 0 7; node 33 "identifier" 8 9 [];
    token 34 ";" 9 10]; node 35 "class_declaration" 11 48 [token 36 "class" 11 16; field "name" (node 37
    "identifier" 17 18 []); field "superclass" (node 38 "superclass" 19 30 [token 39 "extends" 19 26; node 40
    "scoped_type_identifier" 27 30 [node 41 "type_identifier" 27 28 []; token 42 "." 28 29; node 43
    "type_identifier" 29 30 []]]); field "body" (node 44 "class_body" 31 48 [token 45 "{" 31 32; node 46
    "field_declaration" 33 39 [field "type" (node 47 "integral_type" 33 36 []); field "declarator" (node 48
    "variable_declarator" 37 38 [field "name" (node 49 "identifier" 37 38 [])]); token 50 ";" 38 39]; node 51
    "field_declaration" 40 46 [field "type" (node 52 "integral_type" 40 43 []); field "declarator" (node 53
    "variable_declarator" 44 45 [field "name" (node 54 "identifier" 44 45 [])]); token 55 ";" 45 46]; token 56 "}"
    47 48])]]).
Definition docs : list OpenDoc := [doc_a; doc_b].
Lemma docs_apart : ids_apart docs.
Proof. apply (bool_decide_eq_true_1 (NoDup _)). by vm_compute. Qed.
Notation table := (build docs 0).
Definition class_named (b : string) : TypeDecl :=
  default (mkTypeDecl "" Class_ [] (root_node (od_tree doc_a)) "" 0 None (TNamed "")) (get_named table b).

Lemma table_contents : td_binary_name <$> decls table = [Some "p.A"; Some "p.A$In"; Some "q.B"].
Proof. by vm_compute. Qed.
Lemma table_exact_witness : get_named table "q.B" = Some (class_named "q.B")
  ∧ class_named "q.B" ∈ decls table ∧ td_binary_name (class_named "q.B") = Some "q.B".
Proof.
  assert (E : get_named table "q.B" = Some (class_named "q.B")) by by vm_compute.
  split; [exact E|]. destruct (table_exact docs 0 docs_apart) as (_ & H & _). apply H in E as (H1 & H2 & _). exact (conj H1 H2).
Defined.
Definition super_of_a : Node := default (root_node (od_tree doc_a)) (head (td_super_nodes (class_named "p.A"))).
Definition imports_a : Imports := parse (od_tree doc_a) (od_source doc_a).
Lemma imports_exact_witness : package imports_a = Some "p" ∧ single_import imports_a "B" = Some "q.B".
Proof.
  destruct (imports_exact (od_tree doc_a) (od_source doc_a) [ImportType "q.B"] (Some "p")) as (H1 & _ & H3); [by vm_compute..|].
  split; [exact H1|]. transitivity (last (List.filter (named_by "B") (omap imported_type [ImportType "q.B"]))); [exact (H3 "B")|by vm_compute].
Defined.
(** The name of the superclass of [A]. *)
Lemma named_here b d : named_type (all_decls docs 0) b d → b ∈ ["p.A"; "p.A$In"; "q.B"].
Proof.
  intros [Hd Hb]. assert (H : Some b ∈ td_binary_name <$> all_decls docs 0) by (rewrite <-Hb; by apply list_elem_of_fmap_2).
  assert (E : td_binary_name <$> all_decls docs 0 = Some <$> ["p.A"; "p.A$In"; "q.B"]) by by vm_compute.
  rewrite E in H. apply list_elem_of_fmap in H as (? & [= ->] & H). done.
Qed.
Lemma no_member_B T d : ¬ member_type (all_decls docs 0) (source_supers table) "B" T d.
Proof.
  induction 1 as [T d (b & _ & H%named_here)|]; [|done]. rewrite !elem_of_cons, elem_of_nil in H. clear -H.
  destruct H as [H|[H|[H|[]]]]; repeat (destruct b as [|? b]; cbn in H; [discriminate H|]; first [discriminate H|injection H as _ H]).
Qed.
Lemma B_plain : plain (all_decls docs 0) (source_supers table) super_of_a "B" 0 imports_a (od_source doc_a).
Proof.
  constructor.
  - intros b d d' [Hd Hb] [Hd' Hb']. eapply (NoDup_fmap_inj td_binary_name); [|done..|congruence].
    apply (bool_decide_eq_true_1 (NoDup _)). by vm_compute.
  - assert (F : Forall (λ a, Forall (λ ps, kind ps ≠ "type_parameters") (named_children a)) (ancestors super_of_a)).
    { apply (bool_decide_eq_true_1 _). by vm_compute. }
    rewrite Forall_forall in F. intros a Ha (ps & p & n & Hps & Hk & _). specialize (F a Ha). rewrite Forall_forall in F.
    by apply (F ps).
  - assert (F : Forall (λ d, td_binary_name d ≠ None) (all_decls docs 0)).
    { apply (bool_decide_eq_true_1 _). by vm_compute. }
    rewrite Forall_forall in F. auto.
  - intros a T d _ _ []%no_member_B.
  - intros path E. assert (path = "q.B") as -> by (vm_compute in E; congruence). split; [done|].
    assert (H : ∀ k b d, spelled k "q.B" b → named_type (all_decls docs 0) b d → (k < 8)%nat ∧ d = class_named "q.B").
    { intros k b d Hs Hd. pose proof (named_here b d Hd) as Hb.
      apply spelled_inv in Hs as [[-> ->]|(o & i & k1 & E1 & -> & Hs)].
      - split; [lia|]. assert (Eq : get_named table "q.B" = Some (class_named "q.B")) by by vm_compute.
        apply get_named_exact in Eq as (_ & _ & Hu); [|exact docs_apart]. by apply Hu; apply Hd.
      - exfalso. vm_compute in E1. injection E1 as <- <-. apply spelled_inv in Hs as [[-> ->]|(o & i & k2 & E2 & _)]; [|done].
        rewrite !elem_of_cons, elem_of_nil in Hb. by destruct Hb as [?|[?|[?|[]]]]. }
    intros k k' b b' d d' H1 H2 H3 H4. destruct (H k b d H1 H2), (H k' b' d' H3 H4). split; congruence.
  - intros w d [H%elem_of_nil| ->]; [done|]. intros (k & b & Hs & Hb%named_here). rewrite !elem_of_cons, elem_of_nil in Hb.
    apply spelled_inv in Hs as [[_ ->]|(o & i & k1 & E1 & _ & Hs)]; [by destruct Hb as [?|[?|[?|[]]]]|].
    vm_compute in E1. injection E1 as <- <-.
    apply spelled_inv in Hs as [[_ ->]|(o & i & k2 & E2 & _)]; [by destruct Hb as [?|[?|[?|[]]]]|done].
  - intros w d [H%elem_of_nil| ->] Hd; [done|]. apply named_here in Hd. rewrite !elem_of_cons, elem_of_nil in Hd.
    by destruct Hd as [?|[?|[?|[]]]].
  - apply (bool_decide_eq_true_1 (NoDup _)). by vm_compute.
Qed.
Lemma current_irrelevant_witness : find_member (build docs 0) (class_named "p.A") "y" = find_member (build docs 1) (class_named "p.A") "y".
Proof. destruct (current_irrelevant docs 0 1 docs_apart) as (_ & _ & H & _). exact (H (class_named "p.A") "y"). Defined.

Definition reachable : list TypeDecl := [class_named "p.A"; class_named "q.B"].
Lemma reach_chain {D} (succ : D → list D) a b x : succ a = [b] → succ b = [] → reach succ a x → x ∈ [a; b].
Proof.
  intros Ha Hb Hr. assert (H : ∀ y, y ∈ [a; b] → reach succ y x → x ∈ [a; b]); [|by apply (H a); [left|]].
  clear Hr. intros y Hy Hr. induction Hr as [|y z x Hyz _ IH]; [done|]. apply IH.
  apply elem_of_cons in Hy as [->|Hy%list_elem_of_singleton].
  - rewrite Ha in Hyz. apply list_elem_of_singleton in Hyz as ->. right. by left.
  - subst y. rewrite Hb in Hyz. by apply elem_of_nil in Hyz.
Qed.
Lemma reachable_closed x : reach (source_supers table) (class_named "p.A") x → x ∈ reachable.
Proof.
  apply reach_chain; by vm_compute.
Qed.
Lemma p_A_declared : class_named "p.A" ∈ decls table.
Proof. apply (list_elem_of_lookup_2 _ 0). by vm_compute. Qed.
Definition reachable_set : gset nat := list_to_set (decl_id <$> reachable).
Lemma reachable_ids : base.size reachable_set = 2%nat.
Proof. by vm_compute. Qed.
(** [x] is found in [A], before [B]'s. *)
Lemma members_exact_witness :
  (m_name <$> all_members table (class_named "p.A") false = ["x"; "In"; "y"])
  ∧ NoDup (member_sig <$> all_members table (class_named "p.A") false).
Proof.
  split; [by vm_compute|].
  assert (Hu : ∀ x, reach (source_supers (build docs 0)) (class_named "p.A") x → decl_id x ∈ reachable_set).
  { intros x Hx%reachable_closed. by apply elem_of_list_to_set, list_elem_of_fmap_2. }
  assert (Hs : (base.size reachable_set ≤ 65)%nat) by (rewrite reachable_ids; lia).
  destruct (members_exact docs 0 (class_named "p.A") reachable_set docs_apart p_A_declared Hu Hs) as (order & _ & _ & _ & _ & _ & _ & H & _).
  exact H.
Defined.

(** The same import on demand, twice: the name has no meaning any more. *)
Definition doc_c : OpenDoc := mkOpenDoc "import q.*; import q.*; class D extends B { }" (
    node 57 "program" 0 45 [node 58 "import_declaration" 0 11 [token 59 "import" 0 6; node 60 "identifier" 7 8 [];
    token 61 "." 8 9; node 62 "asterisk" 9 10 []; token 63 ";" 10 11]; node 64 "import_declaration" 12 23 [token 65
    "import" 12 18; node 66 "identifier" 19 20 []; token 67 "." 20 21; node 68 "asterisk" 21 22 []; token 69 ";" 22
    23]; node 70 "class_declaration" 24 45 [token 71 "class" 24 29; field "name" (node 72 "identifier" 30 31 []);
    field "superclass" (node 73 "superclass" 32 41 [token 74 "extends" 32 39; node 75 "type_identifier" 40 41 []]);
    field "body" (node 76 "class_body" 42 45 [token 77 "{" 42 43; token 78 "}" 44 45])]]).
Lemma repeated_import_ambiguous :
  wildcards (parse (od_tree doc_c) (od_source doc_c)) = ["q"; "q"]
  ∧ is_Some (get_named (build [doc_b; doc_c] 0) "q.B")
  ∧ (source_supers (build [doc_b; doc_c] 0) <$> get_named (build [doc_b; doc_c] 0) "D") = Some [].
Proof. vm_compute. split; [done|]. split; [by eexists|done]. Qed.

(** [In] in the body of [U] is the member [U] inherits from [S]: the type of the
    package is found. *)
Definition doc_i : OpenDoc := mkOpenDoc "class In { } class S { class In { } } class U extends S { class V extends In { } }" (
    node 200 "program" 0 82 [node 201 "class_declaration" 0 12 [token 202 "class" 0 5; field "name" (node 203
    "identifier" 6 8 []); field "body" (node 204 "class_body" 9 12 [token 205 "{" 9 10; token 206 "}" 11 12])]; node
    207 "class_declaration" 13 37 [token 208 "class" 13 18; field "name" (node 209 "identifier" 19 20 []); field
    "body" (node 210 "class_body" 21 37 [token 211 "{" 21 22; node 212 "class_declaration" 23 35 [token 213 "class"
    23 28; field "name" (node 214 "identifier" 29 31 []); field "body" (node 215 "class_body" 32 35 [token 216 "{"
    32 33; token 217 "}" 34 35])]; token 218 "}" 36 37])]; node 219 "class_declaration" 38 82 [token 220 "class" 38
    43; field "name" (node 221 "identifier" 44 45 []); field "superclass" (node 222 "superclass" 46 55 [token 223
    "extends" 46 53; node 224 "type_identifier" 54 55 []]); field "body" (node 225 "class_body" 56 82 [token 226 "{"
    56 57; node 227 "class_declaration" 58 80 [token 228 "class" 58 63; field "name" (node 229 "identifier" 64 65
    []); field "superclass" (node 230 "superclass" 66 76 [token 231 "extends" 66 73; node 232 "type_identifier" 74
    76 []]); field "body" (node 233 "class_body" 77 80 [token 234 "{" 77 78; token 235 "}" 79 80])]; token 236 "}"
    81 82])]]).
Definition supers_of (docs : list OpenDoc) (b : string) : option (list (option string)) :=
  (λ d, td_binary_name <$> source_supers (build docs 0) d) <$> get_named (build docs 0) b.
Example inherited_member_missed : supers_of [doc_i] "U" = Some [Some "S"] ∧ supers_of [doc_i] "U$V" = Some [Some "In"].
Proof. by vm_compute. Qed.

(** The superclass that the header of [U] names is the type of the package: the
    member of [U] is found. *)
Definition doc_h : OpenDoc := mkOpenDoc "class In { } class U extends In { class In { } }" (
    node 237 "program" 0 48 [node 238 "class_declaration" 0 12 [token 239 "class" 0 5; field "name" (node 240
    "identifier" 6 8 []); field "body" (node 241 "class_body" 9 12 [token 242 "{" 9 10; token 243 "}" 11 12])]; node
    244 "class_declaration" 13 48 [token 245 "class" 13 18; field "name" (node 246 "identifier" 19 20 []); field
    "superclass" (node 247 "superclass" 21 31 [token 248 "extends" 21 28; node 249 "type_identifier" 29 31 []]);
    field "body" (node 250 "class_body" 32 48 [token 251 "{" 32 33; node 252 "class_declaration" 34 46 [token 253
    "class" 34 39; field "name" (node 254 "identifier" 40 42 []); field "body" (node 255 "class_body" 43 46 [token
    256 "{" 43 44; token 257 "}" 45 46])]; token 258 "}" 47 48])]]).
Example header_takes_member : supers_of [doc_h] "U" = Some [Some "U$In"].
Proof. by vm_compute. Qed.

(** A class in the body of an enum constant is given the binary name of a
    member of the enum. *)
Definition doc_e : OpenDoc := mkOpenDoc "enum E { K { class X { } }; class X { } }" (
    node 79 "program" 0 41 [node 80 "enum_declaration" 0 41 [token 81 "enum" 0 4; field "name" (node 82 "identifier"
    5 6 []); field "body" (node 83 "enum_body" 7 41 [token 84 "{" 7 8; node 85 "enum_constant" 9 26 [field "name"
    (node 86 "identifier" 9 10 []); field "body" (node 87 "class_body" 11 26 [token 88 "{" 11 12; node 89
    "class_declaration" 13 24 [token 90 "class" 13 18; field "name" (node 91 "identifier" 19 20 []); field "body"
    (node 92 "class_body" 21 24 [token 93 "{" 21 22; token 94 "}" 23 24])]; token 95 "}" 25 26])]; node 96
    "enum_body_declarations" 26 39 [token 97 ";" 26 27; node 98 "class_declaration" 28 39 [token 99 "class" 28 33;
    field "name" (node 100 "identifier" 34 35 []); field "body" (node 101 "class_body" 36 39 [token 102 "{" 36 37;
    token 103 "}" 38 39])]]; token 104 "}" 40 41])]]).
Lemma constant_body_named :
  td_binary_name <$> decls (build [doc_e] 0) = [Some "E"; Some "E$X"; Some "E$X"]
  ∧ get_named (build [doc_e] 0) "E$X" = None.
Proof. by vm_compute. Qed.

(** A package whose name begins with [static]: its import is skipped, and one
    with two blanks before [static] is not. *)
Definition doc_s : OpenDoc := mkOpenDoc "import statics.Foo; class G extends Foo { }" (
    node 105 "program" 0 43 [node 106 "import_declaration" 0 19 [token 107 "import" 0 6; node 108
    "scoped_identifier" 7 18 []; token 109 ";" 18 19]; node 110 "class_declaration" 20 43 [token 111 "class" 20 25;
    field "name" (node 112 "identifier" 26 27 []); field "superclass" (node 113 "superclass" 28 39 [token 114
    "extends" 28 35; node 115 "type_identifier" 36 39 []]); field "body" (node 116 "class_body" 40 43 [token 117 "{"
    40 41; token 118 "}" 42 43])]]).
Lemma static_prefix_skipped :
  single_import (parse (od_tree doc_s) (od_source doc_s)) "Foo" = None
  ∧ single (import_text (mkImports None ∅ []) "import  static p.C.m;") !! "m" = Some "staticp.C.m".
Proof. by vm_compute. Qed.
End Sample.

End SourceModel.
