(* ===== verification/TypeRefs.v ===== *)
(** * Declared types ([crates/syntax/src/typeref.rs])

    The type a piece of source declares: a type node with what its names mean,
    which is the caller's to say, becomes a structured type.  What cannot be
    trusted is [Unknown]. *)
From Stdlib Require Import Ascii.
From S2P Require Import Prelude RustStd SyntaxTree JTypes Signatures.
Import Signatures(has_modifier).

Module TypeRefs.

(** [matches(c).count()] *)
Fixpoint count_char (c : ascii) (s : string) : nat :=
  match s with
  | EmptyString => O
  | String a s => ((if Ascii.eqb a c then 1 else 0) + count_char c s)%nat
  end.
(** The dimensions that a [dimensions] node writes. *)
Definition dims_of (source : string) (d : Node) : nat := count_char "[" (node_text d source).
Fixpoint arrays (dims : nat) (t : TypeRef) : TypeRef := match dims with O => t | S dims => arrays dims (Array t) end.
Definition is_annotation (n : Node) : bool := bool_decide (kind n ∈ ["annotation"; "marker_annotation"]).
Definition first_child (p : Node → bool) (n : Node) : option Node := List.find p (named_children n).

(** The type variables in scope, innermost last. *)
Definition Vars : Type := list (string * TypeVariableId).
Definition find_var (vars : Vars) (name : string) : option TypeVariableId :=
  snd <$> List.find (λ nv, bool_decide (nv.1 = name)) (rev vars).

(** The type's variables and names. *)
Fixpoint ref_ok (V : TypeVariableId → Prop) (N : string → Prop) (t : TypeRef) : Prop :=
  match t with
  | Named (TNamed b) args => N b ∧ (fix all l := match l with [] => True | a :: l => ref_ok V N a ∧ all l end) args
  | Named (TLocal _ _) _ | Null => False
  | Array e => ref_ok V N e
  | TVariable v => V v
  | Wildcard u l => match u with Some u => ref_ok V N u | None => True end ∧ match l with Some l => ref_ok V N l | None => True end
  | Primitive _ | Void | Unknown => True
  end.
Lemma ref_ok_args V N args :
  (fix all l := match l with [] => True | a :: l => ref_ok V N a ∧ all l end) args ↔ Forall (ref_ok V N) args.
Proof. induction args as [|a args IH]; [by split|]. rewrite IH, Forall_cons. done. Qed.
Lemma ref_ok_mono (V W : TypeVariableId → Prop) N t : (∀ v, V v → W v) → ref_ok V N t → ref_ok W N t.
Proof.
  intros Hv. induction t as [| | |[b|] args IH|e IH|v|u l IHu IHl|] using TypeRef_nested_ind; cbn; try done.
  - intros [Hb Ha]. split; [done|]. apply ref_ok_args. apply ref_ok_args in Ha. rewrite Forall_forall in *. auto.
  - apply Hv.
  - destruct u, l; cbn in *; tauto.
Qed.
Lemma ref_ok_arrays V N dims t : ref_ok V N (arrays dims t) ↔ ref_ok V N t.
Proof. revert t. induction dims as [|d IH]; intros t; [done|]. cbn [arrays]. by rewrite IH. Qed.

Section Lower.
Context (source : string) (resolve_named : string → bool → option string).

Definition lower_step (vars : Vars) (rec : Node → TypeRef) (n : Node) : TypeRef :=
  if is_error n || is_missing n || has_error n then Unknown
  else
    let text := trim (node_text n source) in
    if bool_decide (text = "void") then Void
    else match prim_from_name text with
    | Some p => Primitive p
    | None =>
        let k := kind n in
        if bool_decide (k = "array_type") then
          let elem := match child_by_field_name "element" n with Some e => rec e | None => Unknown end in
          arrays (match child_by_field_name "dimensions" n with Some d => dims_of source d | None => 1 end) elem
        else if bool_decide (k = "annotated_type") then
          match first_child (λ c, negb (is_annotation c)) n with Some c => rec c | None => Unknown end
        else if bool_decide (k = "generic_type") then
          let base := first_child (λ c, negb (bool_decide (kind c = "type_arguments"))) n in
          let args := match first_child (λ c, bool_decide (kind c = "type_arguments")) n with
                      | Some ta => rec <$> List.filter (λ a, negb (is_annotation a)) (named_children ta)
                      | None => []
                      end in
          match rec <$> base with Some (Named id _) => Named id args | _ => Unknown end
        else if bool_decide (k = "wildcard") then
          let bound := rec <$> first_child (λ c, negb (is_annotation c || bool_decide (kind c = "super"))) n in
          if existsb (λ c, bool_decide (kind c = "super")) (named_children n) then Wildcard None bound else Wildcard bound None
        else if bool_decide (k ∈ ["type_identifier"; "scoped_type_identifier"]) then
          match (if bool_decide (k = "type_identifier") then find_var vars text else None) with
          | Some id => TVariable id
          | None =>
              match resolve_named text (bool_decide (k = "scoped_type_identifier")) with
              | Some b => named b
              | None => Unknown
              end
          end
        else Unknown
    end.
Definition lower_type_node (vars : Vars) : Node → TypeRef := descend Unknown (lower_step vars).

Definition type_parameter_name (tp : Node) : string :=
  match first_child (λ c, bool_decide (kind c = "type_identifier")) tp with Some n => node_text n source | None => "" end.
Fixpoint lower_parameter_list (owner : string) (names : Vars) (index : nat) (tps : list Node) : Vars * list TypeParameter :=
  match tps with
  | [] => (names, [])
  | tp :: tps =>
      let id := mkTypeVariableId owner index in
      let names := names ++ [(type_parameter_name tp, id)] in
      let bounds := match first_child (λ c, bool_decide (kind c = "type_bound")) tp with
                    | Some b => lower_type_node names <$> named_children b
                    | None => []
                    end in
      let '(names, params) := lower_parameter_list owner names (S index) tps in
      (names, mkTypeParameter id bounds :: params)
  end.
Definition lower_type_parameters (n : option Node) (owner : string) (outer_vars : Vars) : Vars * list TypeParameter :=
  match n with
  | None => (outer_vars, [])
  | Some n => lower_parameter_list owner outer_vars 0 (List.filter (λ c, bool_decide (kind c = "type_parameter")) (named_children n))
  end.

Definition access_of (decl : Node) (default_ : Access) : Access :=
  if has_modifier decl source "public" then Public
  else if has_modifier decl source "protected" then Protected
  else if has_modifier decl source "private" then Private
  else default_.

(** ** Types say only what their names mean *)

Lemma arrays_eq dims t : arrays dims t = Nat.iter dims Array t.
Proof. revert t. induction dims as [|d IH]; intros t; [done|]. cbn [arrays]. rewrite IH. by rewrite <-Nat.iter_succ_r. Qed.

Lemma lower_step_descends vars : descends (lower_step vars).
Proof.
  intros n g h Hg. unfold lower_step.
  assert (Hn : ∀ c, c ∈ named_children n → g c = h c) by (intros c [Hc _]%named_child_is_child; by apply Hg, child_smaller).
  assert (Hf : ∀ p c, first_child p n = Some c → g c = h c) by (intros p c [Hc _]%find_elem; by apply Hn).
  assert (Hm : ∀ p, g <$> first_child p n = h <$> first_child p n).
  { intros p. destruct (first_child p n) as [c|] eqn:E; [|done]. cbn. by rewrite (Hf _ _ E). }
  rewrite !Hm. destruct (_ || has_error n); [done|]. case_bool_decide; [done|]. destruct (prim_from_name _); [done|].
  case_bool_decide.
  { destruct (child_by_field_name "element" n) as [e|] eqn:E; [|done]. apply child_by_field_name_child in E as [E _].
    by rewrite (Hg e) by by apply child_smaller. }
  case_bool_decide; [destruct (first_child _ n) eqn:E; [by rewrite (Hf _ _ E)|done]|].
  case_bool_decide; [|done]. destruct (h <$> _) as [[]|]; try done. f_equal.
  destruct (first_child _ n) as [ta|] eqn:E; [|done]. apply find_elem in E as [[Hta _]%named_child_is_child _].
  apply map_ext_in. intros a [Ha _]%filter_In. apply list_elem_of_In, named_child_is_child in Ha as [Ha _].
  apply Hg. apply child_smaller in Ha, Hta. lia.
Qed.
Lemma lower_type_node_eq vars n : lower_type_node vars n = lower_step vars (lower_type_node vars) n.
Proof. apply descend_eq, lower_step_descends. Qed.

Definition answered (b : string) : Prop := ∃ name dotted, resolve_named name dotted = Some b.
Lemma find_var_in vars name id : find_var vars name = Some id → (name, id) ∈ vars.
Proof.
  unfold find_var. destruct (List.find _ _) as [[x v]|] eqn:E; [|done]. intros [= ->].
  apply find_some in E as [E Hx]. apply bool_decide_eq_true in Hx. cbn in Hx. subst x. by apply in_rev, list_elem_of_In in E.
Qed.
Lemma lower_ok vars n : ref_ok (λ v, v ∈ vars.*2) answered (lower_type_node vars n).
Proof.
  induction n as [n IH] using size_ind. rewrite lower_type_node_eq. unfold lower_step.
  assert (Hn : ∀ c, c ∈ named_children n → ref_ok (λ v, v ∈ vars.*2) answered (lower_type_node vars c))
    by (intros c [Hc _]%named_child_is_child; by apply IH, child_smaller).
  assert (Hf : ∀ p c, first_child p n = Some c → ref_ok (λ v, v ∈ vars.*2) answered (lower_type_node vars c))
    by (intros p c [Hc _]%find_elem; by apply Hn).
  destruct (_ || has_error n); [done|]. case_bool_decide; [done|]. destruct (prim_from_name _); [done|].
  case_bool_decide.
  { apply ref_ok_arrays. destruct (child_by_field_name "element" n) as [e|] eqn:E; [|done].
    apply child_by_field_name_child in E as [E _]. by apply IH, child_smaller. }
  case_bool_decide; [destruct (first_child _ n) eqn:E; [by eapply Hf|done]|].
  case_bool_decide.
  { destruct (first_child (λ c, negb _) n) as [base|] eqn:Eb; [|done]. apply Hf in Eb. cbn [fmap option_fmap option_map].
    destruct (lower_type_node vars base) as [| | |[b|] args| | | |]; try done. cbn [ref_ok] in Eb |- *. split; [apply Eb|].
    apply ref_ok_args, Forall_forall. intros t Ht.
    destruct (first_child _ n) as [ta|] eqn:E; [|by apply elem_of_nil in Ht]. apply find_elem in E as [[Hta _]%named_child_is_child _].
    apply list_elem_of_fmap in Ht as (a & -> & Ha). rewrite list_elem_of_In, filter_In, <-list_elem_of_In in Ha.
    destruct Ha as [[Ha _]%named_child_is_child _]. apply IH. apply child_smaller in Ha, Hta. lia. }
  case_bool_decide.
  { destruct (first_child _ n) as [b|] eqn:E; [apply Hf in E|]; destruct (existsb _ _); cbn; tauto. }
  case_bool_decide; [|done]. destruct (if bool_decide _ then _ else _) as [id|] eqn:Ev.
  - case_bool_decide; [|done]. apply find_var_in in Ev. cbn. by apply (list_elem_of_fmap_2 snd) in Ev.
  - destruct (resolve_named _ _) as [b|] eqn:Er; [|done]. cbn. split; [by eexists _, _|done].
Qed.

(** Parameters are numbered from zero, and each one's bounds may mention those
    up to it. *)
Lemma lower_parameter_list_spec owner tps : ∀ names index,
  let '(names', params) := lower_parameter_list owner names index tps in
  (∃ more, names' = names ++ more ∧ more.*2 = tp_id <$> params)
  ∧ (∀ i p, params !! i = Some p → tp_id p = mkTypeVariableId owner (index + i))
  ∧ Forall (λ p, Forall (ref_ok (λ v, v ∈ names'.*2) answered) (tp_bounds p)) params
  ∧ length params = length tps.
Proof.
  induction tps as [|tp tps IH]; intros names index; cbn [lower_parameter_list].
  { split; [exists []; by rewrite app_nil_r|]. by repeat split. }
  specialize (IH (names ++ [(type_parameter_name tp, mkTypeVariableId owner index)]) (S index)).
  destruct (lower_parameter_list _ _ _ tps) as [names' params]. destruct IH as ((more & -> & Em) & Hi & Hb & Hl).
  split; [|split; [|split]].
  - exists ((type_parameter_name tp, mkTypeVariableId owner index) :: more). rewrite <-app_assoc. split; [done|]. by cbn; rewrite Em.
  - intros [|i] p Hp; cbn in Hp; [injection Hp as <-; cbn; by rewrite Nat.add_0_r|]. rewrite (Hi _ _ Hp). f_equal. lia.
  - constructor; [|done]. cbn [tp_bounds]. destruct (first_child _ tp) as [b|]; [|constructor]. apply Forall_fmap, Forall_forall.
    intros t _. eapply ref_ok_mono, lower_ok. intros v. cbn beta. rewrite !fmap_app. intros Hv. apply elem_of_app. by left.
  - cbn. by rewrite Hl.
Qed.
End Lower.
End TypeRefs.
