(* ===== verification/Lombok.v ===== *)
(** * Generated members ([crates/syntax/src/lombok.rs])

    The accessors and builders that Lombok's annotations stand for, made up so
    that a class that uses them completes and resolves as the compiled one. *)
From Stdlib Require Import Ascii.
From S2P Require Import Prelude RustStd SyntaxTree JTypes Symbols Signatures SourceModel Outline.
Import Signatures(modifiers_node, has_modifier).
Import Symbols.Symbols(ExternalMember, mkExternalMember, ExternalClass, mkExternalClass, EMethod, EField, EConstructor).
Import SourceModel.

Module Lombok.

Record SyntheticMember := mkSynthetic {
  sm_name : string; sm_signature : string; sm_is_static : bool; sm_ret_display : option string; sm_ret_fqn : option string }.
Definition into_external (m : SyntheticMember) : ExternalMember :=
  mkExternalMember (sm_name m) EMethod (sm_signature m) None (sm_is_static m) (sm_ret_fqn m) (sm_ret_display m) None.

(** The root of the tree that [n] is in. *)
Definition root_of (n : Node) : Node := default n (last (ancestors n)).
Definition file_uses_lombok (n : Node) (source : string) : bool :=
  existsb (λ c,
      bool_decide (kind c = "import_declaration")
      && match dotted_path (node_text c source) "import" with
         | None => false
         | Some p =>
             let p := default p (strip_prefix "static" p) in
             bool_decide (p = "lombok") || starts_with "lombok." p
         end) (named_children (root_of n)).
Definition file_package (n : Node) (source : string) : option string :=
  c ← child_of_kind "package_declaration" (root_of n); dotted_path (node_text c source) "package".

(** The names of the type declarations among [ns], the outermost first. *)
Fixpoint type_names (source : string) (ns : list Node) (names : list string) : option (list string) :=
  match ns with
  | [] => Some names
  | n :: ns =>
      if bool_decide (is_Some (from_kind (kind n))) then
        name ← child_by_field_name "name" n; type_names source ns (node_text name source :: names)
      else type_names source ns names
  end.
Definition binary_fqn_of (class_node : Node) (source : string) : option string :=
  names ← type_names source (class_node :: ancestors class_node) [];
  let path := str_join "$" names in
  if bool_decide (path = "") then None
  else Some (match file_package class_node source with Some pkg => pkg +:+ "." +:+ path | None => path end).

Record Marks := mkMarks { getter : bool; setter : bool; data : bool; value : bool; builder : bool; with_ : bool }.
Definition no_marks : Marks := mkMarks false false false false false false.
Definition levels : list string := ["NONE"; "PRIVATE"; "PROTECTED"; "PACKAGE"; "MODULE"].
Definition suppressed (source : string) (annotation : Node) : bool :=
  match child_by_field_name "arguments" annotation with
  | Some args => existsb (λ lvl, contains_str lvl (node_text args source)) levels
  | None => false
  end.
Definition set_mark (simple : string) (m : Marks) : Marks :=
  if bool_decide (simple = "Getter") then mkMarks true (setter m) (data m) (value m) (builder m) (with_ m)
  else if bool_decide (simple = "Setter") then mkMarks (getter m) true (data m) (value m) (builder m) (with_ m)
  else if bool_decide (simple = "Data") then mkMarks (getter m) (setter m) true (value m) (builder m) (with_ m)
  else if bool_decide (simple = "Value") then mkMarks (getter m) (setter m) (data m) true (builder m) (with_ m)
  else if bool_decide (simple = "Builder") then mkMarks (getter m) (setter m) (data m) (value m) true (with_ m)
  else if bool_decide (simple ∈ ["With"; "Wither"]) then mkMarks (getter m) (setter m) (data m) (value m) (builder m) true
  else m.
Definition mark_step (source : string) (m : Marks) (child : Node) : Marks :=
  if bool_decide (kind child ∈ ["annotation"; "marker_annotation"]) then
    match child_by_field_name "name" child with
    | None => m
    | Some name => if suppressed source child then m else set_mark (split_last "." (node_text name source)) m
    end
  else m.
Definition marks_on (decl : Node) (source : string) : Marks :=
  match modifiers_node decl with
  | None => no_marks
  | Some mods => fold_left (mark_step source) (named_children mods) no_marks
  end.

Record FieldInfo := mkField { f_name : string; f_type_text : string; f_is_final : bool; f_marks : Marks }.
Definition is_instance_field (m : Member) : bool :=
  match m_kind m with Field => negb (m_is_static m) && bool_decide (kind (m_node m) = "variable_declarator") | _ => false end.
Definition field_info (source : string) (m : Member) : option FieldInfo :=
  decl ← parent (m_node m);
  ty ← child_by_field_name "type" decl;
  Some (mkField (m_name m) (node_text ty source) (has_modifier decl source "final") (marks_on decl source)).
Definition instance_fields (td : TypeDecl) : list FieldInfo :=
  omap (field_info (td_source td)) (List.filter is_instance_field (own_members td)).

Section Names.
(** [char::to_uppercase] outside ASCII. *)
Context (to_uppercase : string → string).
Definition upper (c : string) : string :=
  match c with
  | String a EmptyString => String (if Outline.is_lower (byte_of_ascii a) then ascii_of_byte (byte_of_ascii a - 32) else a) ""
  | _ => to_uppercase c
  end.
Definition capitalized (name : string) : string :=
  match chars name with [] => "" | first :: _ => upper first +:+ str_drop (String.length first) name end.
Definition getter_name (f : FieldInfo) : string :=
  if bool_decide (f_type_text f = "boolean") then
    if Outline.first_char Outline.is_upper (default "" (strip_prefix "is" (f_name f))) then f_name f
    else "is" +:+ capitalized (f_name f)
  else "get" +:+ capitalized (f_name f).

(** What one field asks for. *)
Definition want_getter (c : Marks) (f : FieldInfo) : bool := getter c || data c || value c || getter (f_marks f).
Definition want_setter (c : Marks) (f : FieldInfo) : bool :=
  (setter c || data c || setter (f_marks f)) && negb (f_is_final f) && negb (value c).
Definition want_wither (c : Marks) (f : FieldInfo) : bool := with_ c || with_ (f_marks f).
Definition getter_of (f : FieldInfo) : SyntheticMember :=
  mkSynthetic (getter_name f) (f_type_text f +:+ " " +:+ getter_name f +:+ "()") false (Some (f_type_text f)) None.
Definition setter_of (f : FieldInfo) : SyntheticMember :=
  let name := "set" +:+ capitalized (f_name f) in
  mkSynthetic name ("void " +:+ name +:+ "(" +:+ f_type_text f +:+ " " +:+ f_name f +:+ ")") false (Some "void") None.
Definition wither_of (td : TypeDecl) (f : FieldInfo) : SyntheticMember :=
  let name := "with" +:+ capitalized (f_name f) in
  mkSynthetic name (td_name td +:+ " " +:+ name +:+ "(" +:+ f_type_text f +:+ " " +:+ f_name f +:+ ")") false (Some (td_name td)) None.
Definition builder_simple (td : TypeDecl) : string := td_name td +:+ "Builder".
Definition builder_of (td : TypeDecl) (class_node : Node) (source : string) : SyntheticMember :=
  mkSynthetic "builder" (td_name td +:+ "." +:+ builder_simple td +:+ " builder()") true (Some (builder_simple td))
    ((λ f, f +:+ "$" +:+ builder_simple td) <$> binary_fqn_of class_node source).
Definition members_of_field (td : TypeDecl) (c : Marks) (f : FieldInfo) : list SyntheticMember :=
  (if want_getter c f then [getter_of f] else [])
  ++ (if want_setter c f then [setter_of f] else [])
  ++ (if want_wither c f then [wither_of td f] else []).
Definition is_method (m : Member) : bool := match m_kind m with Method => true | _ => false end.
Definition existing (td : TypeDecl) : list string := m_name <$> List.filter is_method (own_members td).
Definition synthesize (class_node : Node) (source : string) : list SyntheticMember :=
  match from_node class_node source 0 None with
  | None => []
  | Some td =>
      if bool_decide (td_kind td = Class_) then
        let c := marks_on class_node source in
        List.filter (λ m, negb (bool_decide (sm_name m ∈ existing td)))
          (flat_map (members_of_field td c) (instance_fields td)
           ++ if builder c then [builder_of td class_node source] else [])
      else []
  end.
End Names.

Definition builder_class (outer : TypeDecl) (source : string) : option ExternalClass :=
  if builder (marks_on (td_node outer) source) then
    outer_fqn ← binary_fqn_of (td_node outer) source;
    let builder_fqn := outer_fqn +:+ "$" +:+ td_name outer +:+ "Builder" in
    let simple := td_name outer +:+ "Builder" in
    let setters := (λ f, mkExternalMember (f_name f) EMethod
                           (simple +:+ " " +:+ f_name f +:+ "(" +:+ f_type_text f +:+ " " +:+ f_name f +:+ ")")
                           None false (Some builder_fqn) (Some simple) None) <$> instance_fields outer in
    Some (mkExternalClass ["java.lang.Object"] []
            (setters ++ [mkExternalMember "build" EMethod (td_name outer +:+ " build()") None false (Some outer_fqn)
                           (Some (td_name outer)) None]) None)
  else None.

(** ** Two ways to a binary name *)

(** Every type declaration around [n] has a name. *)
Definition all_named (n : Node) : Prop := ∀ a, a ∈ n :: ancestors n → is_Some (from_kind (kind a)) → is_Some (child_by_field_name "name" a).
Lemma names_agree source ancs : ∀ names names',
  (∀ a, a ∈ ancs → is_Some (from_kind (kind a)) → is_Some (child_by_field_name "name" a)) →
  (∀ pre a post, ancs = pre ++ a :: post → kind a = "program" → post = []) →
  enclosing_names source ancs names = Some names' → type_names source ancs names = Some names'.
Proof.
  induction ancs as [|a ancs IH]; intros names names' Hn Hp; [done|]. cbn [enclosing_names type_names].
  assert (Hn' : ∀ a, a ∈ ancs → is_Some (from_kind (kind a)) → is_Some (child_by_field_name "name" a)) by (intros x Hx; apply Hn; by right).
  assert (Hp' : ∀ pre a post, ancs = pre ++ a :: post → kind a = "program" → post = []).
  { intros pre x post E. apply (Hp (a :: pre) x post). by rewrite E. }
  case_bool_decide as Ek.
  { intros [= <-]. rewrite (Hp [] a ancs eq_refl Ek). cbn [type_names]. rewrite Ek.
    rewrite bool_decide_eq_false_2; [done|]. by intros [? ?]. }
  case_bool_decide; [done|]. destruct (bool_decide _ && _); [done|].
  case_bool_decide as Hk.
  - destruct (Hn a) as [name Ename]; [by left|done|]. rewrite Ename. destruct Hk as [k Hk]. rewrite Hk. cbn. by apply IH.
  - rewrite <-eq_None_not_Some in Hk. rewrite Hk. by apply IH.
Qed.

Lemma root_of_within r n : within r n → above r = [] → root_of n = r.
Proof.
  intros (path & E)%within_ancestors Hr. unfold root_of. assert (Ea : ancestors r = []) by (unfold ancestors; by rewrite Hr).
  rewrite Ea in E. destruct path as [|x path]; cbn in E; injection E as E1 E2; [by rewrite E2|]. by rewrite E2, last_snoc.
Qed.

(** [program] is the kind of the root only. *)
Definition rooted (doc : OpenDoc) : Prop := ∀ n, within (root_node (od_tree doc)) n → kind n = "program" → above n = [].
Definition rooted_check (doc : OpenDoc) : bool :=
  forallb (λ n, negb (bool_decide (kind n = "program")) || bool_decide (length (above n) = 0%nat)) (visited (root_node (od_tree doc))).
Lemma rooted_check_sound doc : rooted_check doc = true → rooted doc.
Proof.
  unfold rooted_check. rewrite forallb_forall. intros H n Hn Hk. apply visited_within, list_elem_of_In in Hn. specialize (H n Hn).
  rewrite bool_decide_eq_true_2 in H by done. by apply bool_decide_eq_true, length_zero_iff_nil in H.
Qed.
(** A parsed document: its type declarations have names and it has at most one
    package declaration. *)
Record parsed (doc : OpenDoc) : Prop := {
  parsed_root : rooted doc;
  parsed_names n : within (root_node (od_tree doc)) n → is_Some (from_kind (kind n)) →
    ∃ name, child_by_field_name "name" n = Some name ∧ node_text name (od_source doc) ≠ "";
  parsed_package : (length (package_nodes (named_children (root_node (od_tree doc)))) ≤ 1)%nat }.
Definition named_check (source : string) (n : Node) : bool :=
  match from_kind (kind n), child_by_field_name "name" n with
  | None, _ => true
  | Some _, Some name => negb (bool_decide (node_text name source = ""))
  | Some _, None => false
  end.
Definition parsed_check (doc : OpenDoc) : bool :=
  rooted_check doc && forallb (named_check (od_source doc)) (visited (root_node (od_tree doc)))
  && (length (package_nodes (named_children (root_node (od_tree doc)))) <=? 1)%nat.
Lemma parsed_check_sound doc : parsed_check doc = true → parsed doc.
Proof.
  intros [[H1 H2]%andb_true_iff H3%Nat.leb_le]%andb_true_iff. split; [by apply rooted_check_sound| |done].
  rewrite forallb_forall in H2. intros n Hn%visited_within%list_elem_of_In [k Hk]. specialize (H2 n Hn). unfold named_check in H2.
  rewrite Hk in H2. destruct (child_by_field_name "name" n) as [name|]; [|done]. apply negb_true_iff, bool_decide_eq_false in H2. by exists name.
Qed.

Lemma import_text_package i text : package (import_text i text) = package i.
Proof.
  unfold import_text. destruct (starts_with _ _); [done|]. destruct (dotted_path _ _); [|done]. by destruct (strip_suffix _ _).
Qed.
Lemma package_agrees doc n : parsed doc → within (root_node (od_tree doc)) n →
  file_package n (od_source doc) = package (parse (od_tree doc) (od_source doc)).
Proof.
  intros Hp Hn. unfold file_package, parse. rewrite (root_of_within _ _ Hn) by done.
  pose proof (parsed_package _ Hp) as Hl. unfold child_of_kind.
  set (cs := named_children (root_node (od_tree doc))) in *. clearbody cs.
  assert (Hno : ∀ cs i, package_nodes cs = [] → package (fold_left (parse_child (od_source doc)) cs i) = package i).
  { clear. induction cs as [|c cs IH]; intros i E; [done|]. unfold package_nodes in *. cbn [List.filter fold_left] in *.
    destruct (bool_decide (kind c = "package_declaration")) eqn:Ek; [done|]. rewrite IH by done. unfold parse_child. rewrite Ek.
    destruct (bool_decide (kind c = "import_declaration")); [|done]. apply import_text_package. }
  generalize (mkImports None ∅ []) (eq_refl : package (mkImports None ∅ []) = None). induction cs as [|c cs IH]; intros i Ei; [done|].
  unfold package_nodes in *. cbn [List.filter fold_left List.find] in *. unfold parse_child at 2.
  destruct (bool_decide (kind c = "package_declaration")) eqn:Ek.
  - cbn [length] in Hl. rewrite Hno by (apply length_zero_iff_nil; unfold package_nodes; lia). done.
  - apply IH; [done|]. destruct (bool_decide (kind c = "import_declaration")); [|done]. by rewrite import_text_package.
Qed.
Lemma enclosing_last source ancs : ∀ names names', enclosing_names source ancs names = Some names' → ∃ pre, names' = pre ++ names.
Proof.
  induction ancs as [|a ancs IH]; intros names names'; cbn [enclosing_names]; [intros [= <-]; by exists []|].
  case_bool_decide; [intros [= <-]; by exists []|]. case_bool_decide; [done|]. destruct (bool_decide _ && _); [done|].
  intros [pre ->]%IH. destruct (match from_kind (kind a) with Some _ => _ | None => _ end); [|by exists pre].
  exists (pre ++ [node_text n source]). by rewrite <-app_assoc.
Qed.
Lemma package_nonempty tree source : package (parse tree source) ≠ Some "".
Proof.
  unfold parse. assert (H : ∀ cs i, package i ≠ Some "" → package (fold_left (parse_child source) cs i) ≠ Some "").
  { induction cs as [|c cs IH]; intros i Hi; [done|]. cbn [fold_left]. apply IH. unfold parse_child. case_bool_decide.
    - cbn [package]. unfold dotted_path. destruct (strip_prefix _ _); [|done]. cbn. by case_bool_decide; [|congruence].
    - case_bool_decide; [|done]. by rewrite import_text_package. }
  by apply H.
Qed.
Lemma str_join_nonempty sep x l : x ≠ "" → str_join sep (l ++ [x]) ≠ "".
Proof.
  intros Hx. induction l as [|y l IH]; [done|]. cbn [app]. intros E.
  destruct (l ++ [x]) as [|z k] eqn:El; [by destruct l|]. apply IH.
  change (str_join sep (y :: z :: k)) with (y +:+ sep +:+ str_join sep (z :: k)) in E.
  apply (f_equal String.length) in E. rewrite !str_length_app in E. cbn [String.length] in E.
  destruct (str_join sep (z :: k)); [done|cbn [String.length] in E; lia].
Qed.

(** Both ways give a member type the same binary name. *)
Lemma binary_fqn_agrees doc i n d b : parsed doc → within (root_node (od_tree doc)) n →
  from_node n (od_source doc) i (package (parse (od_tree doc) (od_source doc))) = Some d → td_binary_name d = Some b →
  binary_fqn_of n (od_source doc) = Some b.
Proof.
  intros Hp Hn E Eb. unfold from_node in E. apply bind_Some in E as (k & Ek & E). apply bind_Some in E as (name & Ename & E).
  destruct (binary_identity _ _ _ _ _) as [bn id] eqn:Ei. injection E as <-. cbn in Eb. subst bn.
  unfold binary_identity in Ei. destruct (enclosing_names _ _ _) as [names|] eqn:En; [|done]. injection Ei as Ei _.
  unfold binary_fqn_of. cbn [type_names]. rewrite bool_decide_eq_true_2 by (by eexists). rewrite Ename. cbn [mbind option_bind].
  assert (Hw : ∀ a, a ∈ ancestors n → within (root_node (od_tree doc)) a).
  { intros a Ha. by apply (ancestor_within _ n). }
  rewrite (names_agree _ _ _ names); [|..|done].
  - assert (Hne : str_join "$" names ≠ "").
    { destruct (enclosing_last _ _ _ _ En) as [pre ->]. apply str_join_nonempty.
      destruct (parsed_names _ Hp n Hn) as (name' & E' & Hne); [by eexists|]. congruence. }
    cbn [mbind option_bind]. rewrite bool_decide_eq_false_2 by done. rewrite (package_agrees doc n Hp Hn). f_equal.
    rewrite <-Ei. destruct (package _) as [p|] eqn:Epkg; [|done]. rewrite bool_decide_eq_false_2; [done|].
    intros ->. by apply package_nonempty in Epkg.
  - intros a Ha Hk. destruct (parsed_names _ Hp a (Hw a Ha) Hk) as (x & -> & _). by eexists.
  - intros pre a post E Hk. assert (Ha : a ∈ ancestors n) by (rewrite E; apply elem_of_app; right; by left).
    pose proof (parsed_root _ Hp a (Hw a Ha) Hk) as Ea.
    apply ancestors_tail in E as ->. unfold ancestors. by rewrite Ea.
Qed.
End Lombok.
