(* ===== verification/SourceClass.v ===== *)
(** * Classes read from source ([crates/syntax/src/srcclass.rs])

    The class a closed project file declares, in the shape a class file gives,
    with the names in it resolved through the file's own imports, and the
    fingerprint of a document's declarations that decides whether other files
    need another look after an edit. *)
From Stdlib Require Import Ascii.
From S2P Require Import Prelude RustStd Order SyntaxTree JTypes Symbols Signatures SourceModel TypeRefs Lombok Outline.
Import Signatures(has_modifier, erased_signature, param_labels, opt_list).
Import Symbols.Symbols(ExternalMemberKind, ExternalMember, mkExternalMember, ExternalClass, mkExternalClass, EMethod, EField, EConstructor,
  em_name, em_kind, em_metadata, em_ret_fqn, em_ret_display, members, metadata).
Import SourceModel TypeRefs.

Module SourceClass.

Definition ends_body (n : Node) : bool := ends_with "_body" (kind n).
Definition signature_has_error (n : Node) : bool :=
  is_error n || is_missing n
  || existsb (λ c, negb (bool_decide (kind c ∈ ["block"; "constructor_body"])) && has_error c) (children n).
Definition body_has_unclassified_member (td : TypeDecl) : bool :=
  existsb is_error
    (flat_map (λ m, if bool_decide (kind m = "enum_body_declarations") then named_children m else [m])
      (flat_map named_children (List.filter ends_body (named_children (td_node td))))).

(** The member types in scope, by simple name, innermost first. *)
Definition body_types (source scope_binary : string) (n : Node) : list (string * string) :=
  omap (λ m,
      if bool_decide (is_Some (from_kind (kind m))) then
        name ← child_by_field_name "name" m;
        let simple := node_text name source in
        Some (simple, scope_binary +:+ "$" +:+ simple)
      else None)
    (flat_map named_children (List.filter ends_body (named_children n))).
Fixpoint nested_types_from (fuel : nat) (source scope_binary : string) (n : Node) : list (string * string) :=
  match fuel with
  | O => []
  | S fuel =>
      body_types source scope_binary n
      ++ match rsplit_once "$" scope_binary with
         | None => []
         | Some (outer, _) =>
             match p ← parent n; parent p with
             | Some g => if bool_decide (is_Some (from_kind (kind g))) then nested_types_from fuel source outer g else []
             | None => []
             end
         end
  end.
Definition nested_types_in_scope (decl : Node) (source binary_name : string) : list (string * string) :=
  nested_types_from (S (length (above decl))) source binary_name decl.

Section Reading.
(** [pick_fqn] is the first of the candidates that the project or its class
    path knows. *)
Context (source : string) (imports : Imports) (pick_fqn : list string → option string).

Definition resolve_ret_fqn (type_node : Node) : option string :=
  simple ← base_type_name source type_node; pick_fqn (candidate_names imports simple).
Definition resolve_named (nested_scope : list (string * string)) (name : string) (dotted : bool) : option string :=
  if dotted then
    match import_path_to_binary name (λ c, bool_decide (is_Some (pick_fqn [c]))) with
    | Some b => Some b
    | None =>
        '(head, rest) ← split_once "." name;
        outer ← pick_fqn (candidate_names imports head);
        pick_fqn [outer +:+ "$" +:+ replace_char "." "$" rest]
    end
  else match List.find (λ sb, bool_decide (sb.1 = name)) nested_scope with
       | Some (_, binary) => Some binary
       | None => pick_fqn (candidate_names imports name)
       end.

(** ** Members *)

Section Member.
Context (binary_name : string) (td_kind : TypeKind) (class_names : Vars) (named_by : string → bool → option string).
Definition lower (vars : Vars) (n : Node) : TypeRef := lower_type_node source named_by vars n.
Definition with_dimensions (n : Node) (t : TypeRef) : TypeRef :=
  match child_by_field_name "dimensions" n with Some d => arrays (dims_of source d) t | None => t end.

Definition lower_parameter (scope : Vars) (p : Node) : list TypeRef * bool :=
  if bool_decide (kind p = "formal_parameter") then
    match child_by_field_name "type" p with
    | None => ([], false)
    | Some ty => ([with_dimensions p (lower scope ty)], false)
    end
  else if bool_decide (kind p = "spread_parameter") then
    ([Array (match first_child (λ c, negb (bool_decide (kind c ∈ ["modifiers"; "variable_declarator"]))) p with
             | Some n => lower scope n
             | None => Unknown
             end)], true)
  else ([], false).
Definition lower_parameters (params_node : option Node) (scope : Vars) : list TypeRef * bool :=
  match params_node with
  | None => ([], false)
  | Some n =>
      (flat_map (λ p, (lower_parameter scope p).1) (named_children n),
       existsb (λ p, (lower_parameter scope p).2) (named_children n))
  end.

Definition field_type (n : Node) : option Node :=
  if bool_decide (kind n = "formal_parameter") then child_by_field_name "type" n
  else p ← parent n; child_by_field_name "type" p.
Definition modifiers_owner (n : Node) : Node :=
  if bool_decide (kind n = "variable_declarator") then default n (parent n) else n.
Definition externally_visible (n : Node) : bool :=
  bool_decide (kind n ∈ ["formal_parameter"; "enum_constant"]) || negb (has_modifier (modifiers_owner n) source "private").
Definition member_access (n : Node) : Access :=
  access_of source (modifiers_owner n) (if bool_decide (td_kind = Interface) then Public else Package).

(** A type parameter of a member belongs to the member, told apart by the text
    of its parameters. *)
Definition member_owner (marker : string) (params_node : option Node) : string :=
  binary_name +:+ "#" +:+ marker +:+ match params_node with Some p => node_text p source | None => "()" end.

Definition constant_member (n : Node) (is_static : bool) : option ExternalMember :=
  name_node ← child_by_field_name "name" n;
  let name := node_text name_node source in
  Some (mkExternalMember name EField name None is_static None None
    (Some (mkMemberMetadata (TNamed binary_name) Public is_static false None (named binary_name) [] false))).
Definition method_metadata (n : Node) (name : string) (is_static : bool) : MemberMetadata :=
  let params_node := child_by_field_name "parameters" n in
  let owner := member_owner name params_node in
  let '(names, type_parameters) :=
    lower_type_parameters source named_by (child_by_field_name "type_parameters" n) owner class_names in
  let '(parameters, is_varargs) := lower_parameters params_node names in
  mkMemberMetadata (TNamed binary_name) (member_access n) is_static
    (has_modifier n source "abstract"
     || (bool_decide (td_kind = Interface) && negb is_static && negb (has_modifier n source "private")
         && negb (has_modifier n source "default") && bool_decide (child_by_field_name "body" n = None)))
    (if signature_has_error n then None else Some parameters)
    (match child_by_field_name "type" n with Some ty => lower names ty | None => Unknown end)
    type_parameters is_varargs.
Definition field_metadata (n : Node) (is_static : bool) : MemberMetadata :=
  mkMemberMetadata (TNamed binary_name) (member_access n) is_static false None
    (with_dimensions n (match field_type n with Some ty => lower class_names ty | None => Unknown end)) [] false.
Definition member_from_node (m : Member) : option ExternalMember :=
  let n := m_node m in
  match m_kind m with
  | EnumConstant => constant_member n (m_is_static m)
  | NestedType _ => None
  | Method =>
      signature ← erased_signature source n;
      name_node ← child_by_field_name "name" n;
      let name := node_text name_node source in
      let ty := child_by_field_name "type" n in
      Some (mkExternalMember name EMethod signature None (m_is_static m) (ty ← ty; resolve_ret_fqn ty)
        ((λ ty, node_text ty source) <$> ty) (Some (method_metadata n name (m_is_static m))))
  | Field =>
      signature ← erased_signature source n;
      name_node ← child_by_field_name "name" n;
      let name := node_text name_node source in
      let ty := field_type n in
      Some (mkExternalMember name EField signature None (m_is_static m) (ty ← ty; resolve_ret_fqn ty)
        ((λ ty, node_text ty source) <$> ty) (Some (field_metadata n (m_is_static m))))
  end.

(** ** Constructors *)

Definition constructor_metadata (access : Access) (parameters : option (list TypeRef)) (tps : list TypeParameter)
    (is_varargs : bool) : MemberMetadata :=
  mkMemberMetadata (TNamed binary_name) access false false parameters Void tps is_varargs.
Definition constructor_member (name signature : string) (md : MemberMetadata) : ExternalMember :=
  mkExternalMember name EConstructor signature None false None None (Some md).
Definition constructor_member_from_node (n : Node) : option ExternalMember :=
  signature ← erased_signature source n;
  name_node ← child_by_field_name "name" n;
  let name := node_text name_node source in
  let params_node := child_by_field_name "parameters" n in
  let owner := member_owner "<init>" params_node in
  let '(names, type_parameters) :=
    lower_type_parameters source named_by (child_by_field_name "type_parameters" n) owner class_names in
  let '(parameters, is_varargs) := lower_parameters params_node names in
  Some (constructor_member name signature
    (constructor_metadata (access_of source n Package) (if signature_has_error n then None else Some parameters)
       type_parameters is_varargs)).
Definition default_constructor (td : TypeDecl) (class_access : Access) : ExternalMember :=
  constructor_member (td_name td) (td_name td +:+ "()") (constructor_metadata class_access (Some []) [] false).
Definition record_canonical_constructor (td : TypeDecl) (class_access : Access) : ExternalMember :=
  let '(parameters, is_varargs) := lower_parameters (child_by_field_name "parameters" (td_node td)) class_names in
  let access := match compact_constructor td with Some cc => access_of source cc class_access | None => class_access end in
  constructor_member (td_name td) (td_name td +:+ "(" +:+ str_join ", " (param_labels source (td_node td)) +:+ ")")
    (constructor_metadata access (Some parameters) [] is_varargs).
Definition constructor_members (td : TypeDecl) (class_access : Access) : list ExternalMember :=
  if bool_decide (SourceModel.td_kind td ∈ [Interface; Annotation]) then []
  else match constructors td with
       | [] => if bool_decide (SourceModel.td_kind td = Record_) then [record_canonical_constructor td class_access]
               else [default_constructor td class_access]
       | real => omap constructor_member_from_node real
       end.
End Member.

Definition enum_synthetic_members (simple_name : string) (own_fqn : option string) : list ExternalMember :=
  [mkExternalMember "values" EMethod (simple_name +:+ "[] values()") None true None (Some (simple_name +:+ "[]")) None;
   mkExternalMember "valueOf" EMethod (simple_name +:+ " valueOf(String)") None true own_fqn (Some simple_name) None].

Definition display_base_simple (display : string) : option string :=
  let base := trim (split_first "<" display) in
  if ends_with "[]" base then None
  else
    let simple := split_last "." base in
    if Outline.first_char Outline.is_upper simple then Some simple else None.

(** ** The class *)

Definition class_kind (k : TypeKind) : ClassKind :=
  match k with Class_ => KClass | Interface => KInterface | Enum => KEnum | Record_ => KRecord | Annotation => KAnnotation end.
Definition extends_nothing (n : Node) : bool :=
  bool_decide (child_by_field_name "superclass" n = None)
  && negb (existsb (λ s, match parent s with Some p => bool_decide (kind p = "superclass") | None => false end) (super_type_nodes n)).
Definition implicit_super (td : TypeDecl) (binary_name : string) : list TypeRef :=
  match td_kind td with
  | Enum => [named_with "java.lang.Enum" [named binary_name]]
  | Record_ => [named "java.lang.Record"]
  | Class_ => if extends_nothing (td_node td) then [named "java.lang.Object"] else []
  | _ => []
  end.
Definition external_supers (td : TypeDecl) : list string :=
  let supers := omap (λ s, pick_fqn (candidate_names imports s)) (super_simple_names td) in
  match td_kind td, supers with
  | Enum, _ => "java.lang.Enum" :: supers
  | _, [] => ["java.lang.Object"]
  | _, _ => supers
  end.
Definition header_broken (n : Node) : bool :=
  is_error n || existsb (λ c, negb (ends_body c) && has_error c) (named_children n).
Definition binary_of (td : TypeDecl) : string := default (td_name td) (td_binary_name td).
Definition in_scope (td : TypeDecl) : string → bool → option string :=
  resolve_named (nested_types_in_scope (td_node td) source (binary_of td)).
Definition class_parameters (td : TypeDecl) : Vars * list TypeParameter :=
  lower_type_parameters source (in_scope td) (child_by_field_name "type_parameters" (td_node td)) (binary_of td) [].
Definition class_supertypes (td : TypeDecl) : list TypeRef :=
  implicit_super td (binary_of td) ++ (lower (in_scope td) (class_parameters td).1 <$> super_type_nodes (td_node td)).
Definition class_access (td : TypeDecl) : Access := access_of source (td_node td) Package.
Definition class_metadata (td : TypeDecl) : ClassMetadata :=
  let binary_name := binary_of td in
  let enclosing := fst <$> rsplit_once "$" binary_name in
  let k := class_kind (td_kind td) in
  mkClassMetadata (TNamed binary_name) k (class_access td)
    (has_modifier (td_node td) source "abstract" || bool_decide (k ∈ [KInterface; KAnnotation]))
    (bool_decide (enclosing = None) || has_modifier (td_node td) source "static" || negb (bool_decide (k = KClass)))
    (TNamed <$> enclosing) (class_parameters td).2 (class_supertypes td)
    (negb (header_broken (td_node td)) && negb (existsb contains_unknown (class_supertypes td)))
    (forallb (λ c, negb (signature_has_error c)) (constructors td)
     && match compact_constructor td with Some c => negb (signature_has_error c) | None => true end
     && negb (body_has_unclassified_member td)).

Definition declared_members (td : TypeDecl) : list ExternalMember :=
  omap (member_from_node (binary_of td) (td_kind td) (class_parameters td).1 (in_scope td))
    (List.filter (λ m, externally_visible (m_node m)) (own_members td)).
Definition generated_member (m : ExternalMember) : ExternalMember :=
  match em_ret_fqn m with
  | Some _ => m
  | None =>
      mkExternalMember (em_name m) (em_kind m) (Symbols.Symbols.em_signature m) (Symbols.Symbols.em_template m)
        (Symbols.Symbols.em_is_static m)
        (d ← em_ret_display m; simple ← display_base_simple d; pick_fqn (candidate_names imports simple))
        (em_ret_display m) (em_metadata m)
  end.
Definition to_external_class (to_uppercase : string → string) (td : TypeDecl) : ExternalClass :=
  mkExternalClass (external_supers td) ((class_parameters td).1.*1)
    (declared_members td
     ++ constructor_members (binary_of td) (class_parameters td).1 (in_scope td) td (class_access td)
     ++ (if bool_decide (td_kind td = Enum)
         then enum_synthetic_members (td_name td) (pick_fqn (candidate_names imports (td_name td))) else [])
     ++ (if Lombok.file_uses_lombok (td_node td) source
         then (λ sm, generated_member (Lombok.into_external sm)) <$> Lombok.synthesize to_uppercase (td_node td) source else []))
    (Some (class_metadata td)).
End Reading.

(** ** A type of a document *)

Definition nested_type (source : string) (pkg : option string) (current : TypeDecl) (seg : string) : option TypeDecl :=
  m ← List.find (λ m, bool_decide (m_name m = seg) && is_nested_type m) (own_members current);
  from_node (m_node m) source 0 pkg.
Fixpoint nested_path (source : string) (pkg : option string) (current : TypeDecl) (segments : list string) : option TypeDecl :=
  match segments with
  | [] => Some current
  | seg :: segments => d ← nested_type source pkg current seg; nested_path source pkg d segments
  end.
Definition find_type_by_path (root : Node) (source type_path : string) (pkg : option string) : option TypeDecl :=
  match split_char "." type_path with
  | [] => None
  | first :: segments =>
      current ← find_map (λ n, match from_node n source 0 pkg with
                               | Some td => if bool_decide (td_name td = first) then Some td else None
                               | None => None
                               end) (named_children root);
      nested_path source pkg current segments
  end.
Definition class_from_doc (to_uppercase : string → string) (doc : OpenDoc) (type_path : string)
    (pick_fqn : list string → option string) : option ExternalClass :=
  let source := od_source doc in
  let root := root_node (od_tree doc) in
  let imports := parse (od_tree doc) source in
  match find_type_by_path root source type_path (package imports) with
  | Some td => Some (to_external_class source imports pick_fqn to_uppercase td)
  | None =>
      '(outer_path, last_) ← rsplit_once "." type_path;
      outer ← find_type_by_path root source outer_path (package imports);
      if negb (bool_decide (last_ = td_name outer +:+ "Builder")) || negb (Lombok.file_uses_lombok (td_node outer) source) then None
      else Lombok.builder_class outer source
  end.

(** ** The fingerprint *)

Section Fingerprint.
(** Hashing what [Debug] writes of a class, and hashing the sorted entries. *)
Definition Shape : Type := option ClassMetadata * list (string * ExternalMemberKind * option MemberMetadata).
Context (hash_shape : Shape → Z) (hash_entries : list (string * Z) → Z) (to_uppercase : string → string).

Definition shape (c : ExternalClass) : Shape :=
  (metadata c, (λ m, (em_name m, em_kind m, em_metadata m)) <$> members c).
Definition pick_first (candidates : list string) : option string := head candidates.
Definition entry_of (doc : OpenDoc) (n : Node) : list (string * Z) :=
  let imports := parse (od_tree doc) (od_source doc) in
  match from_node n (od_source doc) 0 (package imports) with
  | Some td =>
      match td_binary_name td with
      | Some binary => [(binary, hash_shape (shape (to_external_class (od_source doc) imports pick_first to_uppercase td)))]
      | None => []
      end
  | None => []
  end.
Definition entry_cmp (a b : string * Z) : comparison := String.compare a.1 b.1.
Definition declaration_fingerprint (doc : OpenDoc) : Z :=
  hash_entries (sort_by entry_cmp (walk_tree (λ entries n, entries ++ entry_of doc n) [] (od_tree doc))).
End Fingerprint.

(** ** Types in scope *)

Section Scoped.
Context (source : string) (imports : Imports) (pick_fqn : list string → option string).
Context (binary_name : string) (td_kind : TypeKind) (class_names : Vars) (named_by : string → bool → option string).

(** The class's variables, and those of [n] that the member declares. *)
Definition own_variable (owner : string) (n : nat) (v : TypeVariableId) : Prop :=
  v ∈ class_names.*2 ∨ tv_owner v = owner ∧ (tv_index v < n)%nat.
Definition well_scoped (md : MemberMetadata) : Prop := ∃ owner,
  let ok := ref_ok (own_variable owner (length (mm_type_parameters md))) (answered named_by) in
  (∀ i p, mm_type_parameters md !! i = Some p → tp_id p = mkTypeVariableId owner i)
  ∧ ok (mm_result md) ∧ (∀ ps, mm_parameters md = Some ps → Forall ok ps)
  ∧ Forall (λ p, Forall ok (tp_bounds p)) (mm_type_parameters md).

Lemma with_dimensions_ok V n t : ref_ok V (answered named_by) t → ref_ok V (answered named_by) (with_dimensions source n t).
Proof. unfold with_dimensions. destruct (child_by_field_name _ _); [|done]. by rewrite ref_ok_arrays. Qed.
Lemma lower_parameters_ok vars p : Forall (ref_ok (λ v, v ∈ vars.*2) (answered named_by)) (lower_parameters source named_by p vars).1.
Proof.
  destruct p as [p|]; [|constructor]. cbn [lower_parameters fst]. apply Forall_forall. intros t Ht.
  apply list_elem_of_In, in_flat_map in Ht as (c & _ & Ht). unfold lower_parameter in Ht. revert Ht. case_bool_decide.
  - destruct (child_by_field_name "type" c); [|done]. intros [<-|[]]. apply with_dimensions_ok, lower_ok.
  - case_bool_decide; [|done]. intros [<-|[]]. cbn. destruct (first_child _ c); [apply lower_ok|done].
Qed.
Lemma parameters_scoped tps owner : let '(names, params) := lower_type_parameters source named_by tps owner class_names in
  (∀ i p, params !! i = Some p → tp_id p = mkTypeVariableId owner i)
  ∧ (∀ v, v ∈ names.*2 → own_variable owner (length params) v)
  ∧ Forall (λ p, Forall (ref_ok (λ v, v ∈ names.*2) (answered named_by)) (tp_bounds p)) params.
Proof.
  unfold lower_type_parameters. destruct tps as [n|].
  2: { cbn. split_and!; [done|intros v Hv; by left|constructor]. }
  pose proof (lower_parameter_list_spec source named_by owner
    (List.filter (λ c, bool_decide (kind c = "type_parameter")) (named_children n)) class_names 0) as H.
  destruct (lower_parameter_list _ _ _ _ _ _) as [names params]. destruct H as ((more & -> & Em) & Hi & Hb & _).
  split; [done|]. split; [|done]. intros v. rewrite fmap_app, elem_of_app, Em. intros [Hv|Hv]; [by left|right].
  apply list_elem_of_fmap in Hv as (p & -> & Hp). apply list_elem_of_lookup in Hp as [i Hi']. rewrite (Hi _ _ Hi'). cbn.
  split; [done|]. by apply lookup_lt_Some in Hi'.
Qed.

(** C32: in the class read from source, the types of a member mention only the
    type variables of the class and the member's own, numbered in order, and
    only classes that name resolution answered for the file. *)
Theorem members_well_scoped m em md :
  member_from_node source imports pick_fqn binary_name td_kind class_names named_by m = Some em → em_metadata em = Some md →
  (m_kind m = EnumConstant → answered named_by binary_name) →
  well_scoped md.
Proof.
  unfold member_from_node. destruct (m_kind m) eqn:Ek.
  - intros H. do 2 apply bind_Some in H as (? & _ & H). injection H as <-. cbn [em_metadata]. intros [= <-] _.
    unfold method_metadata.
    pose proof (parameters_scoped (child_by_field_name "type_parameters" (m_node m))
      (member_owner source binary_name (node_text x0 source) (child_by_field_name "parameters" (m_node m)))) as H.
    destruct (lower_type_parameters _ _ _ _ _) as [names tps]. destruct H as (Hi & Hv & Hb).
    pose proof (lower_parameters_ok names (child_by_field_name "parameters" (m_node m))) as Hp.
    destruct (lower_parameters _ _ _ _) as [ps va]. cbn [fst] in Hp.
    exists (member_owner source binary_name (node_text x0 source) (child_by_field_name "parameters" (m_node m))).
    cbn [mm_type_parameters mm_result mm_parameters]. split; [done|]. split; [|split].
    + destruct (child_by_field_name "type" (m_node m)); [|done]. by eapply ref_ok_mono, lower_ok.
    + intros ps'. destruct (signature_has_error _); [done|]. intros [= <-]. eapply Forall_impl; [exact Hp|]. intros t. by apply ref_ok_mono.
    + eapply Forall_impl; [exact Hb|]. intros p H. eapply Forall_impl; [exact H|]. intros t. by apply ref_ok_mono.
  - intros H. do 2 apply bind_Some in H as (? & _ & H). injection H as <-. cbn [em_metadata]. intros [= <-] _.
    exists "". unfold field_metadata. cbn [mm_type_parameters mm_result mm_parameters]. split; [done|]. split; [|done].
    apply with_dimensions_ok. destruct (field_type (m_node m)); [|done].
    apply (ref_ok_mono (λ v, v ∈ class_names.*2)); [intros v Hv; by left|apply lower_ok].
  - intros (x & _ & H)%bind_Some. injection H as <-. cbn [em_metadata]. intros [= <-] Hb. exists "".
    cbn [mm_type_parameters mm_result mm_parameters]. split; [done|]. split; [|done]. cbn. split; [by apply Hb|done].
  - done.
Qed.
End Scoped.

(** a builder chain resolves from end to end.  For a class marked as
    having a builder, wherever it is nested, the static [builder()] is offered
    and returns the companion class, every instance field has a setter on the
    companion that returns the companion, [build()] returns the class itself,
    each under the class's own binary name, and the companion is what the
    document answers under that name. *)
Theorem builder_chain to_uppercase doc n d b path pick_fqn : Lombok.parsed doc → within (root_node (od_tree doc)) n →
  let source := od_source doc in let pkg := package (parse (od_tree doc) source) in
  from_node n source 0 pkg = Some d → td_binary_name d = Some b → td_kind d = Class_ →
  Lombok.builder (Lombok.marks_on n source) = true → "builder" ∉ Lombok.existing d → Lombok.file_uses_lombok n source = true →
  let companion_fqn := b +:+ "$" +:+ td_name d +:+ "Builder" in
  contains_char "." (td_name d) = false →
  find_type_by_path (root_node (od_tree doc)) source path pkg = Some d →
  find_type_by_path (root_node (od_tree doc)) source (path +:+ "." +:+ td_name d +:+ "Builder") pkg = None →
  ∃ companion, class_from_doc to_uppercase doc (path +:+ "." +:+ td_name d +:+ "Builder") pick_fqn = Some companion
  ∧ (∃ m, m ∈ Lombok.synthesize to_uppercase n source ∧ Lombok.sm_name m = "builder" ∧ Lombok.sm_is_static m = true
       ∧ Lombok.sm_ret_fqn m = Some companion_fqn)
  ∧ (∀ f, f ∈ Lombok.instance_fields d → ∃ m, m ∈ members companion ∧ em_name m = Lombok.f_name f ∧ em_ret_fqn m = Some companion_fqn)
  ∧ (∃ m, m ∈ members companion ∧ em_name m = "build" ∧ em_ret_fqn m = Some b).
Proof.
  cbv zeta. intros Hp Hn Hd Hb Hk Hm He Hu Hdot Hpath Hcomp.
  destruct (from_node_fields _ _ _ _ _ Hd) as (Etn & Edoc & Esrc).
  pose proof (Lombok.binary_fqn_agrees doc 0 n d b Hp Hn Hd Hb) as Efqn.
  destruct (Lombok.builder_class d (od_source doc)) as [companion|] eqn:Ec;
    [|unfold Lombok.builder_class in Ec; by rewrite Etn, Hm, Efqn in Ec].
  exists companion. split; [|split].
  - unfold class_from_doc. rewrite Hcomp.
    replace (path +:+ "." +:+ td_name d +:+ "Builder") with (path +:+ String "." (td_name d +:+ "Builder")) by done.
    rewrite rsplit_once_app by (by rewrite contains_char_app, Hdot). cbn [mbind option_bind]. rewrite Hpath. cbn [mbind option_bind].
    by rewrite bool_decide_eq_true_2, Etn, Hu by done.
  - exists (Lombok.builder_of d n (od_source doc)). split; [|split; [done|split; [done|]]].
    + assert (Ed' : ∃ d', from_node n (od_source doc) 0 None = Some d' ∧ td_kind d' = td_kind d ∧ td_name d' = td_name d ∧ own_members d' = own_members d).
      { revert Hd. unfold from_node. destruct (from_kind (kind n)) as [k|]; [|done]. cbn [mbind option_bind].
        destruct (child_by_field_name "name" n) as [nm|]; [|done]. cbn [mbind option_bind].
        destruct (binary_identity _ _ _ _ _) as [b1 i1], (binary_identity _ _ _ _ None) as [b2 i2]. intros [= <-].
        eexists. split; [done|]. done. }
      destruct Ed' as (d' & Ed' & Ek & En & Eo). unfold Lombok.synthesize. rewrite Ed', Ek, Hk, bool_decide_eq_true_2, Hm by done.
      apply list_elem_of_In, filter_In. split.
      * apply in_or_app. right. left. unfold Lombok.builder_of, Lombok.builder_simple. by rewrite En.
      * unfold Lombok.existing in *. rewrite Eo. cbn [Lombok.sm_name Lombok.builder_of]. by rewrite bool_decide_eq_false_2.
    + cbn [Lombok.builder_of Lombok.sm_ret_fqn]. by rewrite Efqn.
  - unfold Lombok.builder_class in Ec. rewrite Etn, Hm, Efqn in Ec. cbn [mbind option_bind] in Ec. injection Ec as <-.
    cbn [members]. split.
    + intros f Hf. eexists. split; [apply elem_of_app; left; by apply list_elem_of_fmap_2|done].
    + eexists. split; [apply elem_of_app; right; by left|done].
Qed.

(** ** Examples *)

Module Sample.
Definition doc_p : OpenDoc := mkOpenDoc "package demo; import lombok.*; @Builder class P<T> { String name; T same(T x) { return x; } }" (
    node 1 "program" 0 93 [node 2 "package_declaration" 0 13 [token 3 "package" 0 7; node 4 "identifier" 8 12 [];
    token 5 ";" 12 13]; node 6 "import_declaration" 14 30 [token 7 "import" 14 20; node 8 "identifier" 21 27 [];
    token 9 "." 27 28; node 10 "asterisk" 28 29 []; token 11 ";" 29 30]; node 12 "class_declaration" 31 93 [node 13
    "modifiers" 31 39 [node 14 "marker_annotation" 31 39 [token 15 "@" 31 32; field "name" (node 16 "identifier" 32
    39 [])]]; token 17 "class" 40 45; field "name" (node 18 "identifier" 46 47 []); field "type_parameters" (node 19
    "type_parameters" 47 50 [token 20 "<" 47 48; node 21 "type_parameter" 48 49 [node 22 "type_identifier" 48 49
    []]; token 23 ">" 49 50]); field "body" (node 24 "class_body" 51 93 [token 25 "{" 51 52; node 26
    "field_declaration" 53 65 [field "type" (node 27 "type_identifier" 53 59 []); field "declarator" (node 28
    "variable_declarator" 60 64 [field "name" (node 29 "identifier" 60 64 [])]); token 30 ";" 64 65]; node 31
    "method_declaration" 66 91 [field "type" (node 32 "type_identifier" 66 67 []); field "name" (node 33
    "identifier" 68 72 []); field "parameters" (node 34 "formal_parameters" 72 77 [token 35 "(" 72 73; node 36
    "formal_parameter" 73 76 [field "type" (node 37 "type_identifier" 73 74 []); field "name" (node 38 "identifier"
    75 76 [])]; token 39 ")" 76 77]); field "body" (node 40 "block" 78 91 [token 41 "{" 78 79; node 42
    "return_statement" 80 89 [token 43 "return" 80 86; node 44 "identifier" 87 88 []; token 45 ";" 88 89]; token 46
    "}" 90 91])]; token 47 "}" 92 93])]]).
Definition imports_p : Imports := parse (od_tree doc_p) (od_source doc_p).
Definition pick (candidates : list string) : option string := List.find (λ c, bool_decide (c ∈ ["java.lang.String"; "demo.P"])) candidates.
Definition class_p : TypeDecl :=
  default (mkTypeDecl "" Class_ [] (root_node (od_tree doc_p)) "" 0 None (TNamed ""))
    (find_type_by_path (root_node (od_tree doc_p)) (od_source doc_p) "P" (package imports_p)).
Definition method_p : Member := default (mkMember "" Method (root_node (od_tree doc_p)) false "" 0) (own_members class_p !! 1%nat).
Definition vars_p : Vars := (class_parameters (od_source doc_p) imports_p pick class_p).1.
Definition names_p : string → bool → option string := in_scope (od_source doc_p) imports_p pick class_p.
Definition metadata_p : MemberMetadata := method_metadata (od_source doc_p) "demo.P" Class_ vars_p names_p (m_node method_p) "same" false.

Lemma method_p_types : mm_result metadata_p = TVariable (mkTypeVariableId "demo.P" 0)
  ∧ mm_parameters metadata_p = Some [TVariable (mkTypeVariableId "demo.P" 0)].
Proof. by vm_compute. Qed.
Lemma members_well_scoped_witness : well_scoped vars_p names_p metadata_p.
Proof.
  refine (members_well_scoped (od_source doc_p) imports_p pick "demo.P" Class_ vars_p names_p method_p
    (default (mkExternalMember "" EField "" None false None None None)
      (member_from_node (od_source doc_p) imports_p pick "demo.P" Class_ vars_p names_p method_p)) metadata_p _ _ _).
  - by vm_compute.
  - by vm_compute.
  - intros H. by vm_compute in H.
Defined.
Lemma parsed_p : Lombok.parsed doc_p.
Proof. apply Lombok.parsed_check_sound. by vm_compute. Qed.
Lemma builder_chain_witness : ∃ companion, class_from_doc id doc_p "P.PBuilder" pick = Some companion
  ∧ ∃ m, m ∈ members companion ∧ em_name m = "build" ∧ em_ret_fqn m = Some "demo.P".
Proof.
  destruct (builder_chain id doc_p (td_node class_p) class_p "demo.P" "P" pick parsed_p) as (companion & H1 & _ & _ & H2).
  - apply visited_within. apply (list_elem_of_lookup_2 _ 1). by vm_compute.
  - by vm_compute.
  - by vm_compute.
  - by vm_compute.
  - by vm_compute.
  - vm_compute. set_solver.
  - by vm_compute.
  - by vm_compute.
  - by vm_compute.
  - by vm_compute.
  - exists companion. exact (conj H1 H2).
Defined.

(** What a class generates for its fields is not in its fingerprint: with the
    type of a private field the getter's type changes, and the fingerprint
    stays. *)
Definition doc_string : OpenDoc := mkOpenDoc "import lombok.*; @Data class D { private String a; }" (
    node 1 "program" 0 52 [node 2 "import_declaration" 0 16 [token 3 "import" 0 6; node 4 "identifier" 7 13 [];
    token 5 "." 13 14; node 6 "asterisk" 14 15 []; token 7 ";" 15 16]; node 8 "class_declaration" 17 52 [node 9
    "modifiers" 17 22 [node 10 "marker_annotation" 17 22 [token 11 "@" 17 18; field "name" (node 12 "identifier" 18
    22 [])]]; token 13 "class" 23 28; field "name" (node 14 "identifier" 29 30 []); field "body" (node 15
    "class_body" 31 52 [token 16 "{" 31 32; node 17 "field_declaration" 33 50 [node 18 "modifiers" 33 40 [token 19
    "private" 33 40]; field "type" (node 20 "type_identifier" 41 47 []); field "declarator" (node 21
    "variable_declarator" 48 49 [field "name" (node 22 "identifier" 48 49 [])]); token 23 ";" 49 50]; token 24 "}"
    51 52])]]).
Definition doc_int : OpenDoc := mkOpenDoc "import lombok.*; @Data class D { private int a; }" (
    node 1 "program" 0 49 [node 2 "import_declaration" 0 16 [token 3 "import" 0 6; node 4 "identifier" 7 13 [];
    token 5 "." 13 14; node 6 "asterisk" 14 15 []; token 7 ";" 15 16]; node 8 "class_declaration" 17 49 [node 9
    "modifiers" 17 22 [node 10 "marker_annotation" 17 22 [token 11 "@" 17 18; field "name" (node 12 "identifier" 18
    22 [])]]; token 13 "class" 23 28; field "name" (node 14 "identifier" 29 30 []); field "body" (node 15
    "class_body" 31 49 [token 16 "{" 31 32; node 17 "field_declaration" 33 47 [node 18 "modifiers" 33 40 [token 19
    "private" 33 40]; field "type" (node 20 "integral_type" 41 44 []); field "declarator" (node 21
    "variable_declarator" 45 46 [field "name" (node 22 "identifier" 45 46 [])]); token 23 ";" 46 47]; token 24 "}"
    48 49])]]).
Definition returned (doc : OpenDoc) : list (string * option string) :=
  match class_from_doc id doc "D" (λ _, None) with
  | Some c => (λ m, (em_name m, em_ret_display m)) <$> members c
  | None => []
  end.
Lemma fingerprint_misses_generated :
  (∀ hash_shape hash_entries, declaration_fingerprint hash_shape hash_entries id doc_string = declaration_fingerprint hash_shape hash_entries id doc_int)
  ∧ returned doc_string = [("D", None); ("getA", Some "String"); ("setA", Some "void")]
  ∧ returned doc_int = [("D", None); ("getA", Some "int"); ("setA", Some "void")].
Proof. split_and!; [intros; by vm_compute|by vm_compute..]. Qed.

(** Nor is what an import on demand makes of the types it declares. *)
Definition doc_plain : OpenDoc := mkOpenDoc "class U { List f; }" (
    node 1 "program" 0 19 [node 2 "class_declaration" 0 19 [token 3 "class" 0 5; field "name" (node 4 "identifier" 6
    7 []); field "body" (node 5 "class_body" 8 19 [token 6 "{" 8 9; node 7 "field_declaration" 10 17 [field "type"
    (node 8 "type_identifier" 10 14 []); field "declarator" (node 9 "variable_declarator" 15 16 [field "name" (node
    10 "identifier" 15 16 [])]); token 11 ";" 16 17]; token 12 "}" 18 19])]]).
Definition doc_imported : OpenDoc := mkOpenDoc "import java.util.*; class U { List f; }" (
    node 1 "program" 0 39 [node 2 "import_declaration" 0 19 [token 3 "import" 0 6; node 4 "scoped_identifier" 7 16
    [node 5 "identifier" 7 11 []; token 6 "." 11 12; node 7 "identifier" 12 16 []]; token 8 "." 16 17; node 9
    "asterisk" 17 18 []; token 10 ";" 18 19]; node 11 "class_declaration" 20 39 [token 12 "class" 20 25; field
    "name" (node 13 "identifier" 26 27 []); field "body" (node 14 "class_body" 28 39 [token 15 "{" 28 29; node 16
    "field_declaration" 30 37 [field "type" (node 17 "type_identifier" 30 34 []); field "declarator" (node 18
    "variable_declarator" 35 36 [field "name" (node 19 "identifier" 35 36 [])]); token 20 ";" 36 37]; token 21 "}"
    38 39])]]).
Definition types_of (doc : OpenDoc) : list (option TypeRef) :=
  match class_from_doc id doc "U" (λ candidates, List.find (λ c, bool_decide (c ∈ ["java.util.List"; "U"])) candidates) with
  | Some c => (λ m, mm_result <$> em_metadata m) <$> members c
  | None => []
  end.
Lemma fingerprint_misses_imports :
  (∀ hash_shape hash_entries, declaration_fingerprint hash_shape hash_entries id doc_plain = declaration_fingerprint hash_shape hash_entries id doc_imported)
  ∧ types_of doc_plain = [Some Unknown; Some Void] ∧ types_of doc_imported = [Some (named "java.util.List"); Some Void].
Proof. split_and!; [intros; by vm_compute|by vm_compute..]. Qed.

(** The member types of an enum stand one level deeper and are not in scope:
    the field's type is looked for beside the enum instead. *)
Definition doc_enum : OpenDoc := mkOpenDoc "package p; enum E { A; class In { } In f; }" (
    node 1 "program" 0 43 [node 2 "package_declaration" 0 10 [token 3 "package" 0 7; node 4 "identifier" 8 9 [];
    token 5 ";" 9 10]; node 6 "enum_declaration" 11 43 [token 7 "enum" 11 15; field "name" (node 8 "identifier" 16
    17 []); field "body" (node 9 "enum_body" 18 43 [token 10 "{" 18 19; node 11 "enum_constant" 20 21 [field "name"
    (node 12 "identifier" 20 21 [])]; node 13 "enum_body_declarations" 21 41 [token 14 ";" 21 22; node 15
    "class_declaration" 23 35 [token 16 "class" 23 28; field "name" (node 17 "identifier" 29 31 []); field "body"
    (node 18 "class_body" 32 35 [token 19 "{" 32 33; token 20 "}" 34 35])]; node 21 "field_declaration" 36 41 [field
    "type" (node 22 "type_identifier" 36 38 []); field "declarator" (node 23 "variable_declarator" 39 40 [field
    "name" (node 24 "identifier" 39 40 [])]); token 25 ";" 40 41]]; token 26 "}" 42 43])]]).
Lemma enum_types_unscoped :
  (∃ c, class_from_doc id doc_enum "E.In" (λ _, None) = Some c)
  ∧ ((λ c, (λ m, mm_result <$> em_metadata m) <$> List.filter (λ m, bool_decide (em_name m = "f")) (members c))
       <$> class_from_doc id doc_enum "E" (λ candidates, List.find (λ c, bool_decide (c ∈ ["p.E"; "p.E$In"; "p.In"])) candidates)) = Some [Some (named "p.In")].
Proof. split; [eexists; by vm_compute|by vm_compute]. Qed.
End Sample.
End SourceClass.
