(* ===== verification/BodyEdits.v ===== *)
(** * Edits that other files cannot see

    Two documents that differ only inside the bodies of methods, constructors
    and initialisers: whatever is read of one's declarations for the use of
    other files is read of the other's.  This is what an edit's fast path
    relies on when the fingerprint of the declarations is unchanged. *)
From S2P Require Import Prelude RustStd Order SyntaxTree JTypes Symbols Signatures SourceModel TypeRefs Lombok SourceClass.
Import Signatures(modifiers_node, has_modifier).
Import SourceModel TypeRefs SourceClass.

Module BodyEdits.

(** ** Lists and options that correspond *)

Section Corresponding.
Context {A B : Type} (R : A → B → Prop).
Lemma filter_corr (p : A → bool) (q : B → bool) l l' : Forall2 R l l' → (∀ x y, R x y → p x = q y) →
  Forall2 R (List.filter p l) (List.filter q l').
Proof. intros H Hp. induction H as [|x y l l' Hxy _ IH]; [constructor|]. cbn. rewrite (Hp _ _ Hxy). destruct (q y); [by constructor|done]. Qed.
Lemma find_corr (p : A → bool) (q : B → bool) l l' : Forall2 R l l' → (∀ x y, R x y → p x = q y) →
  option_Forall2 R (List.find p l) (List.find q l').
Proof. intros H Hp. induction H as [|x y l l' Hxy _ IH]; [constructor|]. cbn. rewrite (Hp _ _ Hxy). destruct (q y); [by constructor|done]. Qed.
Lemma find_map_corr {C} (f : A → option C) (g : B → option C) l l' : Forall2 R l l' → (∀ x y, R x y → f x = g y) →
  find_map f l = find_map g l'.
Proof. intros H Hp. induction H as [|x y l l' Hxy _ IH]; [done|]. cbn. rewrite (Hp _ _ Hxy). by destruct (g y). Qed.
Lemma head_corr l l' : Forall2 R l l' → option_Forall2 R (head l) (head l').
Proof. destruct 1; by constructor. Qed.
Lemma existsb_corr (p : A → bool) (q : B → bool) l l' : Forall2 R l l' → (∀ x y, R x y → p x = q y) → existsb p l = existsb q l'.
Proof. intros H Hp. induction H as [|x y l l' Hxy _ IH]; [done|]. cbn. by rewrite (Hp _ _ Hxy), IH. Qed.
Lemma forallb_corr (p : A → bool) (q : B → bool) l l' : Forall2 R l l' → (∀ x y, R x y → p x = q y) → forallb p l = forallb q l'.
Proof. intros H Hp. induction H as [|x y l l' Hxy _ IH]; [done|]. cbn. by rewrite (Hp _ _ Hxy), IH. Qed.
Lemma map_corr {C} (f : A → C) (g : B → C) l l' : Forall2 R l l' → (∀ x y, R x y → f x = g y) → f <$> l = g <$> l'.
Proof. intros H Hp. induction H as [|x y l l' Hxy _ IH]; [done|]. cbn. by rewrite (Hp _ _ Hxy), IH. Qed.
Lemma map_corr_in {C} (f : A → C) (g : B → C) l l' : Forall2 R l l' → (∀ x y, x ∈ l → R x y → f x = g y) → f <$> l = g <$> l'.
Proof.
  intros H. induction H as [|x y l l' Hxy _ IH]; intros Hp; [done|]. cbn. rewrite (Hp x y) by (done || by left).
  f_equal. apply IH. intros a b Ha. apply Hp. by right.
Qed.
Lemma omap_corr {C} (f : A → option C) (g : B → option C) l l' : Forall2 R l l' → (∀ x y, R x y → f x = g y) → omap f l = omap g l'.
Proof. intros H Hp. induction H as [|x y l l' Hxy _ IH]; [done|]. cbn. rewrite (Hp _ _ Hxy), IH. done. Qed.
Lemma flat_map_corr {C} (f : A → list C) (g : B → list C) l l' : Forall2 R l l' → (∀ x y, R x y → f x = g y) →
  flat_map f l = flat_map g l'.
Proof. intros H Hp. induction H as [|x y l l' Hxy _ IH]; [done|]. cbn. by rewrite (Hp _ _ Hxy), IH. Qed.
Lemma fold_corr {C} (f : C → A → C) (g : C → B → C) l l' c : Forall2 R l l' → (∀ c x y, R x y → f c x = g c y) →
  fold_left f l c = fold_left g l' c.
Proof. intros H Hp. revert c. induction H as [|x y l l' Hxy _ IH]; intros c; [done|]. cbn. by rewrite (Hp _ _ _ Hxy), IH. Qed.
Lemma option_corr {C} (f : A → C) (g : B → C) o o' : option_Forall2 R o o' → (∀ x y, R x y → f x = g y) → f <$> o = g <$> o'.
Proof. intros [x y H|] Hp; [|done]. cbn. by rewrite (Hp _ _ H). Qed.
Lemma rev_corr l l' : Forall2 R l l' → Forall2 R (rev l) (rev l').
Proof. induction 1; [constructor|]. cbn. apply Forall2_app; [done|]. by repeat constructor. Qed.
End Corresponding.
Lemma flat_map_Forall2 {A B C D} (R : A → B → Prop) (S : C → D → Prop) f g l l' : Forall2 R l l' →
  (∀ x y, R x y → Forall2 S (f x) (g y)) → Forall2 S (flat_map f l) (flat_map g l').
Proof. intros H Hp. induction H; cbn; [constructor|]. apply Forall2_app; auto. Qed.

Lemma Forall2_in {A B} (R : A → B → Prop) l l' : Forall2 R l l' → Forall2 (λ x y, R x y ∧ x ∈ l ∧ y ∈ l') l l'.
Proof.
  induction 1 as [|x y l l' H _ IH]; constructor; [split_and!; [done|by left..]|].
  eapply Forall2_impl; [exact IH|]. intros a b (? & ? & ?). split_and!; [done|by right..].
Qed.
Lemma flat_map_flat_map {A B C} (f : A → list B) (g : B → list C) l : flat_map g (flat_map f l) = flat_map (λ x, flat_map g (f x)) l.
Proof. induction l as [|x l IH]; [done|]. cbn. by rewrite flat_map_app, IH. Qed.

Definition forall2b {A B} (f : A → B → bool) : list A → list B → bool :=
  fix go l l' := match l, l' with
                 | [], [] => true
                 | x :: l, y :: l' => f x y && go l l'
                 | _, _ => false
                 end.
Lemma forall2b_Forall2 {A B} (f : A → B → bool) l l' : forall2b f l l' = true ↔ Forall2 (λ x y, f x y = true) l l'.
Proof.
  revert l'. induction l as [|x l IH]; intros [|y l']; cbn; [split; [by constructor|done]|split; [done|by inversion 1]..|].
  rewrite andb_true_iff, IH. split; [intros [? ?]; by constructor|inversion 1; done].
Qed.

Definition text (source : string) (t : Tree) : string := node_text (root_node t) source.
Definition same_head (i i' : Info) : bool :=
  bool_decide (i_kind i = i_kind i') && bool_decide (i_named i = i_named i') && bool_decide (i_field i = i_field i')
  && bool_decide (i_error i = i_error i') && bool_decide (i_missing i = i_missing i').

Definition type_kinds : list string :=
  ["class_declaration"; "interface_declaration"; "enum_declaration"; "record_declaration"; "annotation_type_declaration"].
Definition callable_kinds : list string := ["method_declaration"; "constructor_declaration"; "compact_constructor_declaration"].
(** The nodes around a body: their texts, and whether they have errors, may
    differ. *)
Definition around_kinds : list string :=
  ["program"; "class_body"; "interface_body"; "enum_body"; "annotation_type_body"; "enum_body_declarations"; "static_initializer"]
  ++ type_kinds ++ callable_kinds.
Definition body_kinds : list string := ["block"; "constructor_body"].

Section Alike.
Context (s s' : string).
(** The same text and the same structure, wherever it stands. *)
Fixpoint alike (t t' : Tree) : bool :=
  let 'Branch i cs := t in let 'Branch i' cs' := t' in
  same_head i i' && bool_decide (i_has_error i = i_has_error i') && bool_decide (text s t = text s' t')
  && forall2b alike cs cs'.
(** In a declaration's header nothing gains or loses an error. *)
Definition header_same (parent_kind : string) (i i' : Info) : bool :=
  if bool_decide (parent_kind ∈ type_kinds) then bool_decide (i_has_error i = i_has_error i') || ends_with "_body" (i_kind i)
  else if bool_decide (parent_kind ∈ callable_kinds) then
    bool_decide (i_has_error i = i_has_error i') || bool_decide (i_kind i ∈ body_kinds)
  else true.
(** The same but for what is inside bodies. *)
Fixpoint same (parent_kind : string) (t t' : Tree) : bool :=
  alike t t'
  || let 'Branch i cs := t in let 'Branch i' cs' := t' in
     same_head i i' && bool_decide (i_field i ∈ [None; Some "body"])
     && (bool_decide (i_kind i = "block")
         || bool_decide (i_kind i = "constructor_body") && bool_decide (parent_kind = "constructor_declaration")
         || bool_decide (i_kind i ∈ around_kinds)
            && forall2b (λ c c', same (i_kind i) c c' && header_same (i_kind i) (info c) (info c')) cs cs').
End Alike.

(** ** Places *)

Section Places.
Context (s s' : string).
Definition around (t t' : Tree) : Prop := ∃ p, same s s' p t t' = true.
Definition exact (n n' : Node) : Prop := alike s s' (here n) (here n') = true ∧ Forall2 around (above n) (above n').
Definition similar (n n' : Node) : Prop := around (here n) (here n') ∧ Forall2 around (above n) (above n').

Lemma alike_around t t' : alike s s' t t' = true → around t t'.
Proof. intros H. exists "". destruct t, t'. cbn [same]. by rewrite H. Qed.
Lemma exact_similar n n' : exact n n' → similar n n'.
Proof. intros [H1 H2]. split; [by apply alike_around|done]. Qed.

Lemma same_head_spec i i' : same_head i i' = true ↔ i_kind i = i_kind i' ∧ i_named i = i_named i' ∧ i_field i = i_field i'
  ∧ i_error i = i_error i' ∧ i_missing i = i_missing i'.
Proof. unfold same_head. rewrite !andb_true_iff, !bool_decide_eq_true. tauto. Qed.
Lemma around_head t t' : around t t' → same_head (info t) (info t') = true.
Proof.
  intros [p H]. destruct t as [i cs], t' as [i' cs']. cbn [same] in H. apply orb_true_iff in H as [H|H].
  - cbn [alike] in H. by rewrite !andb_true_iff in H; destruct H as [[[? _] _] _].
  - by rewrite !andb_true_iff in H; destruct H as [[? _] _].
Qed.
Lemma similar_head n n' : similar n n' → kind n = kind n' ∧ is_named n = is_named n' ∧ field_of n = field_of n'
  ∧ is_error n = is_error n' ∧ is_missing n = is_missing n'.
Proof. intros [H%around_head _]. by apply same_head_spec in H. Qed.
Lemma similar_kind n n' : similar n n' → kind n = kind n'.
Proof. intros H. by apply similar_head in H as [? _]. Qed.
Lemma exact_text n n' : exact n n' → node_text n s = node_text n' s' ∧ has_error n = has_error n'.
Proof.
  intros [H _]. unfold has_error. destruct n as [[i cs] up], n' as [[i' cs'] up']. cbn [here alike] in H.
  rewrite !andb_true_iff in H. destruct H as [[[_ He] Ht] _]. apply bool_decide_eq_true in He, Ht.
  unfold text in Ht. split; [exact Ht|exact He].
Qed.

(** Only bodies and what is around them differ. *)
Lemma similar_exact n n' : similar n n' →
  kind n ∉ around_kinds ++ body_kinds ∨ (∃ f, field_of n = Some f ∧ f ≠ "body") → exact n n'.
Proof.
  intros [[p H] Hup] Hk. split; [|done]. destruct n as [[i cs] up], n' as [[i' cs'] up']. cbn [here] in *. cbn [same] in H.
  apply orb_true_iff in H as [H|H]; [done|]. exfalso.
  rewrite !andb_true_iff, bool_decide_eq_true in H. destruct H as [[_ Hf] Hb]. destruct Hk as [Hk|(f & Hf' & Hne)].
  - apply Hk. change (kind {| here := Branch i cs; above := up |}) with (i_kind i). apply elem_of_app.
    rewrite !orb_true_iff, !andb_true_iff, !bool_decide_eq_true in Hb. destruct Hb as [[->|[-> _]]|[? _]]; [right..|by left].
    + by left.
    + right. by left.
  - change (field_of {| here := Branch i cs; above := up |}) with (i_field i) in Hf'. rewrite Hf' in Hf.
    apply elem_of_cons in Hf as [|Hf%list_elem_of_singleton]; congruence.
Qed.
Lemma children_exact n n' : exact n n' → Forall2 exact (children n) (children n').
Proof.
  intros [H Hup]. unfold children. apply Forall2_fmap.
  assert (Ha : Forall2 around (here n :: above n) (here n' :: above n')) by (constructor; [by apply alike_around|done]).
  destruct n as [[i cs] up], n' as [[i' cs'] up']. cbn [here above subtrees] in *. cbn [alike] in H.
  rewrite !andb_true_iff in H. destruct H as [_ H]. apply forall2b_Forall2 in H. eapply Forall2_impl; [exact H|]. intros c c' Hc. by split.
Qed.
Lemma children_similar n n' : similar n n' → kind n ∉ body_kinds → Forall2 similar (children n) (children n')
  ∧ Forall2 (λ c c', header_same (kind n) (info (here c)) (info (here c')) = true) (children n) (children n').
Proof.
  intros [[p H] Hup] Hk. destruct (alike s s' (here n) (here n')) eqn:Ea.
  { assert (He : Forall2 exact (children n) (children n')) by (by apply children_exact; split). split.
    - eapply Forall2_impl; [exact He|apply exact_similar].
    - eapply Forall2_impl; [exact He|]. intros c c' Hc. pose proof (exact_text _ _ Hc) as [_ Heq]. unfold has_error in Heq.
      unfold header_same. rewrite (bool_decide_eq_true_2 _ Heq). by repeat case_bool_decide. }
  assert (Ha : Forall2 around (here n :: above n) (here n' :: above n')) by (constructor; [by exists p|done]).
  unfold children. destruct n as [[i cs] up], n' as [[i' cs'] up']. cbn [here above subtrees] in *. cbn [same] in H.
  rewrite Ea, orb_false_l, !andb_true_iff, !orb_true_iff, !andb_true_iff, !bool_decide_eq_true in H. destruct H as [_ [[H|[H _]]|[_ H]]].
  - destruct Hk. change (i_kind i ∈ body_kinds). rewrite H. by left.
  - destruct Hk. change (i_kind i ∈ body_kinds). rewrite H. right. by left.
  - apply forall2b_Forall2 in H. split; apply Forall2_fmap; (eapply Forall2_impl; [exact H|]); intros c c' [Hc Hh]%andb_true_iff.
    + split; [by eexists|done].
    + done.
Qed.

Lemma named_similar n n' : similar n n' → kind n ∉ body_kinds → Forall2 similar (named_children n) (named_children n').
Proof. intros H Hk. apply filter_corr; [by apply children_similar|]. intros x y (_ & ? & _)%similar_head. done. Qed.
Lemma named_exact n n' : exact n n' → Forall2 exact (named_children n) (named_children n').
Proof. intros H. apply filter_corr; [by apply children_exact|]. intros x y (_ & ? & _)%exact_similar%similar_head. done. Qed.
Lemma field_similar n n' f : similar n n' → kind n ∉ body_kinds → option_Forall2 similar (child_by_field_name f n) (child_by_field_name f n').
Proof.
  intros H Hk. apply head_corr, filter_corr; [by apply children_similar|]. intros x y (_ & _ & E & _)%similar_head. by rewrite E.
Qed.
(** A child of some other field than the body is the same in both. *)
Lemma field_exact n n' f : similar n n' → kind n ∉ body_kinds → f ≠ "body" →
  option_Forall2 exact (child_by_field_name f n) (child_by_field_name f n').
Proof.
  intros H Hk Hf. pose proof (field_similar n n' f H Hk) as Hs.
  destruct (child_by_field_name f n) as [c|] eqn:E; [|by inversion Hs; constructor].
  inversion Hs as [? c' Hc|]; subst. constructor. apply similar_exact; [done|]. right. exists f. split; [|done].
  by apply child_by_field_name_child in E as [_ ?].
Qed.
Lemma exact_field n n' f : exact n n' → option_Forall2 exact (child_by_field_name f n) (child_by_field_name f n').
Proof.
  intros H. apply head_corr, filter_corr; [by apply children_exact|]. intros x y (_ & _ & E & _)%exact_similar%similar_head. by rewrite E.
Qed.
Lemma kind_similar n n' k : similar n n' → kind n ∉ body_kinds → option_Forall2 similar (child_of_kind k n) (child_of_kind k n').
Proof. intros H Hk. apply find_corr; [by apply named_similar|]. intros x y E%similar_kind. by rewrite E. Qed.
Lemma kind_exact n n' k : similar n n' → kind n ∉ body_kinds → k ∉ around_kinds ++ body_kinds →
  option_Forall2 exact (child_of_kind k n) (child_of_kind k n').
Proof.
  intros H Hk Hn. pose proof (kind_similar n n' k H Hk) as Hs.
  destruct (child_of_kind k n) as [c|] eqn:E; [|by inversion Hs; constructor].
  inversion Hs as [? c' Hc|]; subst. constructor. apply similar_exact; [done|]. left.
  apply child_of_kind_child in E as (_ & _ & ->). done.
Qed.
Lemma exact_kind n n' : exact n n' → kind n = kind n'.
Proof. intros H. by apply similar_kind, exact_similar. Qed.
Lemma exact_child_of_kind n n' k : exact n n' → option_Forall2 exact (child_of_kind k n) (child_of_kind k n').
Proof. intros H. apply find_corr; [by apply named_exact|]. intros x y E%exact_kind. by rewrite E. Qed.
Lemma first_child_exact n n' p q : exact n n' → (∀ x y, exact x y → p x = q y) → option_Forall2 exact (first_child p n) (first_child q n').
Proof. intros H Hp. apply find_corr; [by apply named_exact|done]. Qed.
Lemma ancestors_similar n n' : similar n n' → Forall2 similar (ancestors n) (ancestors n').
Proof.
  intros [_ H]. unfold ancestors. induction H as [|t t' up up' Ht Hup IH]; constructor; [by split|done].
Qed.
Lemma parent_similar n n' : similar n n' → option_Forall2 similar (parent n) (parent n').
Proof. intros [_ H]. unfold parent. destruct H; constructor. by split. Qed.
Lemma text_corr o o' : option_Forall2 exact o o' → Signatures.text_of s o = Signatures.text_of s' o'.
Proof. destruct 1 as [x y H|]; [|done]. by apply exact_text. Qed.

(** ** Types, modifiers, names *)

Lemma has_modifier_same n n' k : similar n n' → kind n ∉ body_kinds → has_modifier n s k = has_modifier n' s' k.
Proof.
  intros H Hk. unfold has_modifier, modifiers_node.
  destruct (kind_exact n n' "modifiers" H Hk) as [m m' Hm|]; [vm_compute; set_solver| |done].
  apply (existsb_corr exact); [by apply children_exact|]. intros x y [E _]%exact_text. by rewrite E.
Qed.
Lemma access_same n n' d : similar n n' → kind n ∉ body_kinds → access_of s n d = access_of s' n' d.
Proof. intros H Hk. unfold access_of. by rewrite !(has_modifier_same n n') by done. Qed.
Lemma lower_same named_by vars n n' : exact n n' → lower_type_node s named_by vars n = lower_type_node s' named_by vars n'.
Proof.
  revert n'. induction n as [n IH] using size_ind. intros n' H. rewrite !lower_type_node_eq. unfold lower_step.
  pose proof (exact_text _ _ H) as [Et Ehe]. pose proof (similar_head _ _ (exact_similar _ _ H)) as (Ek & _ & _ & Ee & Em).
  rewrite <-Et, <-Ek, <-Ee, <-Em, <-Ehe. destruct (_ || has_error n); [done|]. case_bool_decide; [done|].
  destruct (prim_from_name _); [done|].
  assert (Hch : ∀ o o', option_Forall2 exact o o' → (∀ c, o = Some c → (size c < size n)%nat) →
    lower_type_node s named_by vars <$> o = lower_type_node s' named_by vars <$> o').
  { intros o o' [c c' Hc|] Hsz; [|done]. cbn. by rewrite (IH c (Hsz c eq_refl) c' Hc). }
  assert (Hfc : ∀ p q, (∀ x y, exact x y → p x = q y) →
    lower_type_node s named_by vars <$> first_child p n = lower_type_node s' named_by vars <$> first_child q n').
  { intros p q Hpq. apply Hch; [by apply first_child_exact|]. intros c [[Hc _]%named_child_is_child _]%find_elem. by apply child_smaller. }
  assert (Hm : ∀ (o : option Node) g, match o with Some e => g e | None => Unknown end = default Unknown (g <$> o)) by by intros [].
  case_bool_decide.
  { rewrite !Hm, (Hch _ _ (exact_field n n' "element" H)).
    - destruct (exact_field n n' "dimensions" H) as [d d' Hd|]; [|done]. unfold dims_of. by rewrite (proj1 (exact_text _ _ Hd)).
    - intros c [Hc _]%child_by_field_name_child. by apply child_smaller. }
  case_bool_decide.
  { rewrite !Hm. f_equal. apply Hfc. intros x y E%exact_kind. unfold is_annotation. by rewrite E. }
  case_bool_decide.
  { rewrite (Hfc _ (λ c, negb (bool_decide (kind c = "type_arguments")))) by (intros x y E%exact_kind; by rewrite E).
    destruct (_ <$> _) as [[]|]; try done. f_equal.
    pose proof (first_child_exact n n' (λ c, bool_decide (kind c = "type_arguments")) (λ c, bool_decide (kind c = "type_arguments")) H) as Hta.
    destruct (first_child (λ c, bool_decide (kind c = "type_arguments")) n) as [ta|] eqn:Eta.
    - specialize (Hta (λ x y E, f_equal (λ k, bool_decide (k = "type_arguments")) (exact_kind x y E))).
      inversion Hta as [? ta' Hx Ea Eb|]; subst. apply find_elem in Eta as [[Hc _]%named_child_is_child _].
      apply (map_corr_in exact).
      + apply filter_corr; [by apply named_exact|]. intros x y E%exact_kind. unfold is_annotation. by rewrite E.
      + intros a a' Ha Hx'. rewrite list_elem_of_In, filter_In, <-list_elem_of_In in Ha. destruct Ha as [[Ha _]%named_child_is_child _].
        apply IH; [|done]. apply child_smaller in Ha, Hc. lia.
    - specialize (Hta (λ x y E, f_equal (λ k, bool_decide (k = "type_arguments")) (exact_kind x y E))). by inversion Hta. }
  case_bool_decide; [|done].
  rewrite (Hfc _ (λ c, negb (is_annotation c || bool_decide (kind c = "super")))) by (intros x y E%exact_kind; unfold is_annotation; by rewrite E).
  by rewrite (existsb_corr exact _ (λ c, bool_decide (kind c = "super")) _ (named_children n') (named_exact n n' H))
    by (intros x y E%exact_kind; by rewrite E).
Qed.
Lemma lower_parameter_list_same named_by owner tps tps' : Forall2 exact tps tps' → ∀ names index,
  lower_parameter_list s named_by owner names index tps = lower_parameter_list s' named_by owner names index tps'.
Proof.
  induction 1 as [|tp tp' tps tps' Ht _ IH]; intros names index; [done|]. cbn [lower_parameter_list].
  assert (En : type_parameter_name s tp = type_parameter_name s' tp').
  { unfold type_parameter_name. destruct (first_child_exact tp tp' (λ c, bool_decide (kind c = "type_identifier"))
      (λ c, bool_decide (kind c = "type_identifier")) Ht) as [x y Hx|]; [intros x y E%exact_kind; by rewrite E|by apply exact_text|done]. }
  rewrite En, IH. destruct (lower_parameter_list s' named_by owner _ _ tps'). do 3 f_equal.
  destruct (first_child_exact tp tp' (λ c, bool_decide (kind c = "type_bound"))
      (λ c, bool_decide (kind c = "type_bound")) Ht) as [x y Hx|]; [intros x y E%exact_kind; by rewrite E| |done].
  apply (map_corr exact); [by apply named_exact|]. intros. by apply lower_same.
Qed.
Lemma lower_type_parameters_same named_by owner vars o o' : option_Forall2 exact o o' →
  lower_type_parameters s named_by o owner vars = lower_type_parameters s' named_by o' owner vars.
Proof.
  destruct 1 as [n n' H|]; [|done]. apply lower_parameter_list_same, filter_corr; [by apply named_exact|].
  intros x y E%exact_kind. by rewrite E.
Qed.

(** ** Rendered parameters *)

Lemma name_text_same n n' : similar n n' → kind n ∉ body_kinds → Signatures.name_text s n = Signatures.name_text s' n'.
Proof. intros H Hk. by apply text_corr, field_exact. Qed.
Lemma type_text_same n n' : similar n n' → kind n ∉ body_kinds → Signatures.type_text s n = Signatures.type_text s' n'.
Proof.
  intros H Hk. unfold Signatures.type_text. apply (option_corr exact); [by apply field_exact|].
  intros x y Hx. by rewrite (proj1 (exact_text _ _ Hx)).
Qed.
Lemma exact_not_body n n' : exact n n' → kind n ∉ body_kinds → Signatures.name_text s n = Signatures.name_text s' n'.
Proof. intros H. by apply name_text_same, exact_similar. Qed.
Lemma param_signature_same n n' : exact n n' → Signatures.param_signature s n = Signatures.param_signature s' n'.
Proof.
  intros H. unfold Signatures.param_signature. rewrite <-(exact_kind _ _ H). case_bool_decide.
  - f_equal. f_equal; [|f_equal].
    + destruct (find_corr exact (λ c, negb (bool_decide (kind c ∈ ["modifiers"; "variable_declarator"])))
        (λ c, negb (bool_decide (kind c ∈ ["modifiers"; "variable_declarator"]))) _ _ (named_exact n n' H)) as [x y Hx|]; [|by rewrite (proj1 (exact_text _ _ Hx))|done].
      intros x y E%exact_kind. by rewrite E.
    + apply text_corr. unfold Outline.Outline.spread_param_name.
      destruct (exact_child_of_kind n n' "variable_declarator" H) as [x y Hx|]; [|constructor]. cbn. by apply exact_field.
  - f_equal. f_equal; [|f_equal].
    + f_equal. unfold Signatures.type_text. apply (option_corr exact); [by apply exact_field|].
      intros x y Hx. by rewrite (proj1 (exact_text _ _ Hx)).
    + by apply text_corr, exact_field.
Qed.
Lemma param_labels_same n n' : similar n n' → kind n ∉ body_kinds → Signatures.param_labels s n = Signatures.param_labels s' n'.
Proof.
  intros H Hk. unfold Signatures.param_labels. destruct (field_exact n n' "parameters" H Hk) as [p p' Hp|]; [done| |done].
  apply (map_corr exact); [|by apply param_signature_same]. apply filter_corr; [by apply named_exact|].
  intros x y E%exact_kind. by rewrite E.
Qed.
(** A declarator is read together with what it is declared in. *)
Lemma erased_signature_same n n' : similar n n' →
  kind n ∈ ["method_declaration"; "annotation_type_element_declaration"; "constructor_declaration"]
  ∨ kind n ∈ ["variable_declarator"; "formal_parameter"] ∧ exact n n' ∧ option_Forall2 exact (parent n) (parent n') →
  Signatures.erased_signature s n = Signatures.erased_signature s' n'.
Proof.
  intros H Hk. unfold Signatures.erased_signature. rewrite <-(similar_kind _ _ H).
  assert (Hb : kind n ∉ body_kinds).
  { intros Hb. apply list_elem_of_In in Hb. destruct Hb as [Hb|[Hb|[]]]; rewrite <-Hb in Hk; destruct Hk as [Hk|[Hk _]]; apply list_elem_of_In in Hk;
      cbn in Hk; decompose [or] Hk; done. }
  unfold Signatures.parameters. rewrite (name_text_same n n'), (type_text_same n n'), (param_labels_same n n') by done.
  destruct Hk as [Hk|(Hk & He & Hp)].
  - apply list_elem_of_In in Hk. destruct Hk as [<-|[<-|[<-|[]]]]; done.
  - apply list_elem_of_In in Hk. destruct Hk as [Hk|[Hk|[]]]; rewrite <-Hk.
    + cbn. do 2 f_equal. f_equal. destruct Hp as [p p' Hp|]; [|done]. cbn [mbind option_bind]. f_equal.
      unfold Signatures.type_text. apply (option_corr exact); [by apply exact_field|]. intros x y Hx. by rewrite (proj1 (exact_text _ _ Hx)).
    + unfold Signatures.signature. rewrite <-(similar_kind _ _ H), <-Hk. cbn. by rewrite (param_signature_same n n').
Qed.

(** ** Declarations and members *)

Lemma type_kind_not_body k : is_Some (from_kind k) → k ∉ body_kinds.
Proof. intros [x Hx] Hb. apply list_elem_of_In in Hb. by destruct Hb as [<-|[<-|[]]]. Qed.
Lemma super_type_nodes_same n n' : similar n n' → kind n ∉ body_kinds → Forall2 exact (super_type_nodes n) (super_type_nodes n').
Proof.
  intros H Hk. unfold super_type_nodes. apply (flat_map_Forall2 similar); [by apply named_similar|]. intros c c' Hc.
  rewrite <-(similar_kind _ _ Hc). case_bool_decide as Hs; [|constructor].
  assert (He : exact c c').
  { apply similar_exact; [done|left]. intros Hb. apply list_elem_of_In in Hs. destruct Hs as [Hs|[Hs|[Hs|[]]]]; rewrite <-Hs in Hb; vm_compute in Hb; set_solver. }
  apply (flat_map_Forall2 exact); [by apply named_exact|]. intros t t' Ht. rewrite <-(exact_kind _ _ Ht).
  case_bool_decide; [by apply named_exact|constructor; [done|constructor]].
Qed.
Lemma enclosing_names_same ancs ancs' : Forall2 similar ancs ancs' → ∀ names, enclosing_names s ancs names = enclosing_names s' ancs' names.
Proof.
  induction 1 as [|a a' ancs ancs' Ha _ IH]; intros names; [done|]. cbn [enclosing_names]. rewrite <-(similar_kind _ _ Ha).
  case_bool_decide; [done|]. case_bool_decide; [done|].
  assert (Eo : bool_decide (kind a = "object_creation_expression") && existsb (λ c, bool_decide (kind c = "class_body")) (named_children a)
    = bool_decide (kind a = "object_creation_expression") && existsb (λ c, bool_decide (kind c = "class_body")) (named_children a')).
  { case_bool_decide as Hk; [|done]. cbn [andb]. apply (existsb_corr similar).
    - apply named_similar; [done|]. rewrite Hk. vm_compute. set_solver.
    - intros x y E%similar_kind. by rewrite E. }
  rewrite Eo. clear Eo. destruct (bool_decide _ && existsb _ _); [done|]. rewrite IH. f_equal. destruct (from_kind (kind a)) eqn:Ek; [|done].
  destruct (field_exact a a' "name" Ha) as [x y Hx|]; [apply type_kind_not_body; by eexists|done|by rewrite (proj1 (exact_text _ _ Hx))|done].
Qed.
Lemma binary_identity_same n n' name doc pkg : similar n n' →
  (binary_identity n name s doc pkg).1 = (binary_identity n' name s' doc pkg).1.
Proof.
  intros H. unfold binary_identity. rewrite (enclosing_names_same _ _ (ancestors_similar _ _ H)).
  by destruct (enclosing_names _ _ _).
Qed.

Record decl_like (d d' : TypeDecl) : Prop := {
  dl_name : td_name d = td_name d'; dl_kind : td_kind d = td_kind d';
  dl_from : from_kind (kind (td_node d)) = Some (td_kind d);
  dl_supers : Forall2 exact (td_super_nodes d) (td_super_nodes d');
  dl_super_nodes : td_super_nodes d = super_type_nodes (td_node d) ∧ td_super_nodes d' = super_type_nodes (td_node d');
  dl_node : similar (td_node d) (td_node d');
  dl_source : td_source d = s ∧ td_source d' = s';
  dl_doc : td_doc d = td_doc d'; dl_binary : td_binary_name d = td_binary_name d' }.
Lemma decl_not_body d d' : decl_like d d' → kind (td_node d) ∉ body_kinds.
Proof. intros H. apply type_kind_not_body. rewrite (dl_from _ _ H). by eexists. Qed.
Lemma from_node_same n n' doc pkg : similar n n' → option_Forall2 decl_like (from_node n s doc pkg) (from_node n' s' doc pkg).
Proof.
  intros H. unfold from_node. rewrite <-(similar_kind _ _ H). destruct (from_kind (kind n)) as [k|] eqn:Ek; [|constructor].
  assert (Hb : kind n ∉ body_kinds) by (apply type_kind_not_body; by eexists). cbn [mbind option_bind].
  destruct (field_exact n n' "name" H Hb) as [x y Hx|]; [done| |constructor]. cbn [mbind option_bind].
  pose proof (binary_identity_same n n' (node_text x s) doc pkg H) as Hi. rewrite <-(proj1 (exact_text _ _ Hx)).
  destruct (binary_identity _ _ _ _ _) as [b i], (binary_identity n' _ _ _ _) as [b' i']. cbn in Hi. subst b'.
  constructor. constructor; try done. by apply super_type_nodes_same.
Qed.

Record member_like (m m' : Member) : Prop := {
  ml_name : m_name m = m_name m'; ml_kind : m_kind m = m_kind m'; ml_static : m_is_static m = m_is_static m';
  ml_node : similar (m_node m) (m_node m'); ml_not_body : kind (m_node m) ∉ body_kinds;
  ml_shape : match m_kind m with
             | Method => kind (m_node m) ∈ ["method_declaration"; "annotation_type_element_declaration"; "constructor_declaration"]
             | Field => kind (m_node m) ∈ ["variable_declarator"; "formal_parameter"] ∧ exact (m_node m) (m_node m')
                        ∧ option_Forall2 exact (parent (m_node m)) (parent (m_node m'))
             | EnumConstant => kind (m_node m) = "enum_constant"
             | NestedType _ => is_Some (from_kind (kind (m_node m)))
             end }.
Lemma named_member_same doc k st n n' : similar n n' → kind n ∉ body_kinds →
  match k with
  | Method => kind n ∈ ["method_declaration"; "annotation_type_element_declaration"; "constructor_declaration"]
  | Field => kind n ∈ ["variable_declarator"; "formal_parameter"] ∧ exact n n' ∧ option_Forall2 exact (parent n) (parent n')
  | EnumConstant => kind n = "enum_constant"
  | NestedType _ => is_Some (from_kind (kind n))
  end → Forall2 member_like (named_member s doc k st n) (named_member s' doc k st n').
Proof.
  intros H Hb Hs. unfold named_member. destruct (field_exact n n' "name" H Hb) as [x y Hx|]; [done| |constructor].
  constructor; [|constructor]. constructor; try done. cbn. by rewrite (proj1 (exact_text _ _ Hx)).
Qed.
Lemma not_body_among k ks : k ∈ ks → forallb (λ x, negb (bool_decide (x ∈ body_kinds))) ks = true → k ∉ body_kinds.
Proof. intros Hk H Hb. rewrite forallb_forall in H. apply list_elem_of_In in Hk. specialize (H k Hk). by rewrite bool_decide_eq_true_2 in H. Qed.
Lemma exact_children_parents n n' : exact n n' →
  Forall2 (λ c c', exact c c' ∧ option_Forall2 exact (parent c) (parent c')) (named_children n) (named_children n').
Proof.
  intros H. pose proof (named_exact n n' H) as Hc.
  assert (Hp : Forall (λ c, parent c = Some n) (named_children n)) by (apply Forall_forall; intros c [Hx _]%named_child_is_child; by apply parent_child).
  assert (Hp' : Forall (λ c, parent c = Some n') (named_children n')) by (apply Forall_forall; intros c [Hx _]%named_child_is_child; by apply parent_child).
  induction Hc as [|c c' l l' Hc _ IH]; constructor.
  - apply Forall_cons in Hp as [-> _], Hp' as [-> _]. split; [done|by constructor].
  - apply Forall_cons in Hp as [_ Hp], Hp' as [_ Hp']. by apply IH.
Qed.
Lemma collect_body_members_same doc n n' : similar n n' → kind n ∉ body_kinds →
  Forall2 member_like (collect_body_members s doc n) (collect_body_members s' doc n').
Proof.
  revert n'. induction n as [n IH] using size_ind. intros n' H Hb. unfold collect_body_members.
  rewrite !descend_eq by apply body_step_descends. unfold body_step at 1 3.
  assert (Hn : Forall2 (λ c c', similar c c' ∧ c ∈ named_children n) (named_children n) (named_children n')).
  { pose proof (named_similar n n' H Hb) as Hn. revert Hn. generalize (named_children n) as l, (named_children n') as l'. intros l l' Hn.
    enough (E : ∀ k, (∀ x, x ∈ l → x ∈ k) → Forall2 (λ c c', similar c c' ∧ c ∈ k) l l') by by apply E.
    intros k. induction Hn as [|x y l l' Hx _ IHn]; intros Hk; constructor; [split; [done|apply Hk; by left]|].
    apply IHn. intros z Hz. apply Hk. by right. }
  apply (flat_map_Forall2 _ _ _ _ _ _ Hn). intros c c' [Hc Hin]. rewrite <-(similar_kind _ _ Hc).
  assert (Hex : ∀ ks, kind c ∈ ks → forallb (λ x, negb (bool_decide (x ∈ around_kinds ++ body_kinds))) ks = true → exact c c').
  { intros ks Hk Hf. apply similar_exact; [done|left]. intros Hx. rewrite forallb_forall in Hf. apply list_elem_of_In in Hk.
    specialize (Hf _ Hk). by rewrite bool_decide_eq_true_2 in Hf. }
  case_bool_decide as Hk.
  { pose proof (Hex _ Hk eq_refl) as He.
    rewrite (has_modifier_same c c' "static") by (done || by apply (not_body_among _ _ Hk)).
    apply (flat_map_Forall2 (λ d d', (exact d d' ∧ option_Forall2 exact (parent d) (parent d')) ∧ kind d = "variable_declarator")).
    - pose proof (exact_children_parents c c' He) as Hp. induction Hp as [|d d' l l' [Hd Hp] _ IHp]; [constructor|]. cbn.
      rewrite <-(exact_kind _ _ Hd). case_bool_decide as Ed; [by constructor|done].
    - intros d d' [[Hd Hp] Ed]. apply named_member_same; [by apply exact_similar|rewrite Ed; vm_compute; set_solver|].
      split; [rewrite Ed; by left|done]. }
  case_bool_decide as Hk2.
  { pose proof (not_body_among _ _ Hk2 eq_refl) as Hcb. rewrite (has_modifier_same c c' "static") by done.
    apply named_member_same; [done|done|]. apply list_elem_of_In in Hk2. destruct Hk2 as [<-|[<-|[]]]; [by left|right; by left]. }
  case_bool_decide as Hk3.
  { apply named_member_same; [done|rewrite Hk3; vm_compute; set_solver|done]. }
  case_bool_decide as Hk4.
  { apply IH; [|done|rewrite Hk4; vm_compute; set_solver]. apply named_child_is_child in Hin as [Hin _]. by apply child_smaller. }
  destruct (from_kind (kind c)) as [tk|] eqn:Ek; [|constructor].
  assert (Hcb : kind c ∉ body_kinds) by (apply type_kind_not_body; by eexists).
  rewrite (has_modifier_same c c' "static") by done. apply named_member_same; [done|done|by eexists].
Qed.

Lemma own_members_same d d' : decl_like d d' → Forall2 member_like (own_members d) (own_members d').
Proof.
  intros H. pose proof (decl_not_body _ _ H) as Hb. pose proof (dl_node _ _ H) as Hn. unfold own_members. apply Forall2_app.
  - unfold record_components. rewrite <-(dl_kind _ _ H). destruct (td_kind d); try constructor.
    destruct (dl_source _ _ H) as [-> ->]. rewrite <-(dl_doc _ _ H).
    destruct (field_exact _ _ "parameters" Hn Hb) as [p p' Hp|]; [done| |constructor].
    apply (flat_map_Forall2 (λ c c', (exact c c' ∧ option_Forall2 exact (parent c) (parent c')) ∧ kind c = "formal_parameter")).
    + pose proof (exact_children_parents p p' Hp) as Hc. induction Hc as [|c c' l l' [Hx Hy] _ IH]; [constructor|]. cbn.
      rewrite <-(exact_kind _ _ Hx). case_bool_decide as Ek; [by constructor|done].
    + intros c c' [[Hx Hy] Ek]. apply named_member_same; [by apply exact_similar|rewrite Ek; vm_compute; set_solver|].
      split; [rewrite Ek; right; by left|done].
  - unfold body. rewrite <-(dl_kind _ _ H).
    pose proof (kind_similar _ _ (body_kind (td_kind d)) Hn Hb) as Hk.
    destruct (child_of_kind (body_kind (td_kind d)) (td_node d)) as [b|] eqn:Eb; inversion Hk as [? b' Hbb|]; subst; [|constructor].
    destruct (dl_source _ _ H) as [-> ->]. rewrite <-(dl_doc _ _ H). apply collect_body_members_same; [done|].
    apply child_of_kind_child in Eb as (_ & _ & ->). destruct (td_kind d); vm_compute; set_solver.
Qed.

(** A type declaration has no body of its own to differ in. *)
Lemma type_children n n' : similar n n' → is_Some (from_kind (kind n)) →
  Forall2 (λ c c', similar c c' ∧ (kind c ∈ body_kinds → ends_body c = true → exact c c')) (children n) (children n').
Proof.
  intros [[p H] Hup] Hk. pose proof (type_kind_not_body _ Hk) as Hb.
  assert (Ha : Forall2 around (here n :: above n) (here n' :: above n')) by (constructor; [by exists p|done]).
  destruct (alike s s' (here n) (here n')) eqn:Ea.
  { eapply Forall2_impl; [by apply children_exact; split|]. intros c c' Hc. split; [by apply exact_similar|done]. }
  unfold children. destruct n as [[i cs] up], n' as [[i' cs'] up']. cbn [here above subtrees] in *. cbn [same] in H.
  rewrite Ea, orb_false_l, !andb_true_iff, !orb_true_iff, !andb_true_iff, !bool_decide_eq_true in H. destruct H as [_ [[H|[H _]]|[_ H]]].
  - destruct Hb. change (i_kind i ∈ body_kinds). rewrite H. by left.
  - destruct Hb. change (i_kind i ∈ body_kinds). rewrite H. right. by left.
  - apply forall2b_Forall2 in H. apply Forall2_fmap. eapply Forall2_impl; [exact H|]. intros c c' [Hc _]%andb_true_iff.
    split; [split; [by eexists|done]|]. intros Hcb Hend. split; [|done]. cbn [here]. destruct c as [j js], c' as [j' js']. cbn [same] in Hc.
    apply orb_true_iff in Hc as [Hc|Hc]; [done|exfalso]. change (kind _) with (i_kind j) in Hcb. change (ends_body _) with (ends_with "_body" (i_kind j)) in Hend.
    rewrite !andb_true_iff, !orb_true_iff, !andb_true_iff, !bool_decide_eq_true in Hc. destruct Hc as [_ [[Hc|[_ Hc]]|[Hc _]]].
    + by rewrite Hc in Hend.
    + change (kind _) with (i_kind i) in Hk. rewrite Hc in Hk. by destruct Hk.
    + apply list_elem_of_In in Hcb. destruct Hcb as [Hx|[Hx|[]]]; rewrite <-Hx in Hc; vm_compute in Hc; set_solver.
Qed.

(** What stands in a header is as broken in both. *)
Lemma children_both n n' : similar n n' → kind n ∉ body_kinds →
  Forall2 (λ c c', similar c c' ∧ header_same (kind n) (info (here c)) (info (here c')) = true) (children n) (children n').
Proof.
  intros H Hk. destruct (children_similar n n' H Hk) as [H1 H2]. clear H Hk. revert H2. generalize (kind n) as k. intros k H2.
  induction H1 as [|c c' l l' Hc _ IH]; [constructor|]. inversion H2; subst. by constructor; [|apply IH].
Qed.
Lemma signature_has_error_same n n' : similar n n' → kind n ∈ callable_kinds ++ ["annotation_type_element_declaration"] →
  signature_has_error n = signature_has_error n'.
Proof.
  intros H Hk. pose proof (not_body_among _ _ Hk eq_refl) as Hb. pose proof (similar_head _ _ H) as (_ & _ & _ & Ee & Em).
  unfold signature_has_error. rewrite Ee, Em. f_equal. apply elem_of_app in Hk as [Hk|Hk%list_elem_of_singleton].
  - apply (existsb_corr _ _ _ _ _ (children_both n n' H Hb)). intros c c' [Hc Hh]. rewrite <-(similar_kind _ _ Hc).
    unfold header_same in Hh. rewrite bool_decide_eq_false_2, bool_decide_eq_true_2 in Hh; [|done|].
    + apply orb_true_iff in Hh as [Hh%bool_decide_eq_true|Hh%bool_decide_eq_true]; [|by rewrite bool_decide_eq_true_2].
      unfold has_error. by rewrite Hh.
    + intros Ht. apply list_elem_of_In in Hk. destruct Hk as [Hk|[Hk|[Hk|[]]]]; rewrite <-Hk in Ht; vm_compute in Ht; set_solver.
  - assert (He : exact n n') by (apply similar_exact; [done|left; rewrite Hk; vm_compute; set_solver]).
    apply (existsb_corr exact); [by apply children_exact|]. intros c c' Hc. rewrite (exact_kind _ _ Hc).
    by rewrite (proj2 (exact_text _ _ Hc)).
Qed.
Lemma type_kind_listed k : is_Some (from_kind k) → k ∈ type_kinds.
Proof.
  intros [x Hx]. unfold from_kind in Hx. repeat (case_bool_decide as E; [subst k; apply (bool_decide_eq_true_1 (_ ∈ _)); by vm_compute|clear E]). done.
Qed.
Lemma ends_body_same n n' : similar n n' → ends_body n = ends_body n'.
Proof. intros H. unfold ends_body. by rewrite (similar_kind _ _ H). Qed.
Lemma header_broken_same n n' : similar n n' → is_Some (from_kind (kind n)) → header_broken n = header_broken n'.
Proof.
  intros H Hk. pose proof (type_kind_not_body _ Hk) as Hb. pose proof (similar_head _ _ H) as (_ & _ & _ & Ee & _).
  unfold header_broken. rewrite Ee. f_equal. unfold named_children.
  apply (existsb_corr (λ c c', similar c c' ∧ header_same (kind n) (info (here c)) (info (here c')) = true)).
  - apply filter_corr; [by apply children_both|]. intros c c' [(_ & Hc & _)%similar_head _]. done.
  - intros c c' [Hc Hh]. rewrite (ends_body_same _ _ Hc). unfold header_same in Hh.
    rewrite bool_decide_eq_true_2 in Hh by (by apply type_kind_listed). apply orb_true_iff in Hh as [Hh%bool_decide_eq_true|Hh].
    + unfold has_error. by rewrite Hh.
    + rewrite <-(ends_body_same _ _ Hc). unfold ends_body, kind. by rewrite Hh.
Qed.
Lemma member_nodes_similar n n' : similar n n' → is_Some (from_kind (kind n)) →
  Forall2 similar (flat_map named_children (List.filter ends_body (named_children n)))
                  (flat_map named_children (List.filter ends_body (named_children n'))).
Proof.
  intros H Hk. pose proof (type_kind_not_body _ Hk) as Hb. apply (flat_map_Forall2 (λ c c', (similar c c' ∧ (kind c ∈ body_kinds → ends_body c = true → exact c c')) ∧ ends_body c = true)).
  - assert (Hn : Forall2 (λ c c', similar c c' ∧ (kind c ∈ body_kinds → ends_body c = true → exact c c')) (named_children n) (named_children n')).
    { apply filter_corr; [by apply type_children|]. by intros x y [(_ & ? & _)%similar_head _]. }
    induction Hn as [|x y l l' [Hx He] _ IH]; [constructor|]. cbn. rewrite <-(ends_body_same _ _ Hx).
    destruct (ends_body x) eqn:Ex; [constructor; [exact (conj (conj Hx (λ a _, He a eq_refl)) Ex)|exact IH]|exact IH].
  - intros x y [[Hx Hy] Hend]. destruct (decide (kind x ∈ body_kinds)) as [Hxb|]; [|by apply named_similar].
    eapply Forall2_impl; [by apply named_exact, Hy|apply exact_similar].
Qed.

Lemma unclassified_same d d' : decl_like d d' → body_has_unclassified_member d = body_has_unclassified_member d'.
Proof.
  intros H. unfold body_has_unclassified_member. apply (existsb_corr similar); [|by intros x y (_ & _ & _ & ? & _)%similar_head].
  assert (Hk : is_Some (from_kind (kind (td_node d)))) by (rewrite (dl_from _ _ H); by eexists).
  apply (flat_map_Forall2 similar); [apply member_nodes_similar; [by apply dl_node|done]|]. intros m m' Hm.
  rewrite <-(similar_kind _ _ Hm). case_bool_decide as E; [|by constructor; [|constructor]].
  apply named_similar; [done|]. rewrite E. vm_compute. set_solver.
Qed.
Lemma constructors_same d d' : decl_like d d' →
  Forall2 (λ c c', similar c c' ∧ kind c = "constructor_declaration") (constructors d) (constructors d').
Proof.
  intros H. pose proof (decl_not_body _ _ H) as Hb. unfold constructors, body. rewrite <-(dl_kind _ _ H).
  pose proof (kind_similar _ _ (body_kind (td_kind d)) (dl_node _ _ H) Hb) as Hk.
  destruct (child_of_kind (body_kind (td_kind d)) (td_node d)) as [b|] eqn:Eb; inversion Hk as [? b' Hbb|]; subst; [|constructor].
  assert (Hnb : kind b ∉ body_kinds) by (apply child_of_kind_child in Eb as (_ & _ & ->); destruct (td_kind d); vm_compute; set_solver).
  clear -Hbb Hnb. revert b' Hbb Hnb. induction b as [b IH] using size_ind. intros b' Hbb Hnb. unfold collect_constructors.
  rewrite !descend_eq by apply constructors_step_descends. unfold constructors_step at 1 3.
  apply (flat_map_Forall2 (λ c c', similar c c' ∧ (size c < size b)%nat)).
  - pose proof (named_similar b b' Hbb Hnb) as Hn.
    assert (Hsz : Forall (λ c, (size c < size b)%nat) (named_children b)) by (apply Forall_forall; intros c [Hc _]%named_child_is_child; by apply child_smaller).
    induction Hn; [constructor|]. apply Forall_cons in Hsz as [? ?]. constructor; auto.
  - intros c c' [Hc Hsz]. rewrite <-(similar_kind _ _ Hc). case_bool_decide; [by constructor; [|constructor]|].
    case_bool_decide as E; [|constructor]. apply IH; [done|done|]. rewrite E. vm_compute. set_solver.
Qed.
Lemma compact_constructor_same d d' : decl_like d d' →
  option_Forall2 (λ c c', similar c c' ∧ kind c = "compact_constructor_declaration") (compact_constructor d) (compact_constructor d').
Proof.
  intros H. pose proof (decl_not_body _ _ H) as Hb. unfold compact_constructor, body. rewrite <-(dl_kind _ _ H).
  pose proof (kind_similar _ _ (body_kind (td_kind d)) (dl_node _ _ H) Hb) as Hk.
  destruct (child_of_kind (body_kind (td_kind d)) (td_node d)) as [b|] eqn:Eb; inversion Hk as [? b' Hbb|]; subst; [|constructor].
  assert (Hnb : kind b ∉ body_kinds) by (apply child_of_kind_child in Eb as (_ & _ & ->); destruct (td_kind d); vm_compute; set_solver).
  cbn [mbind option_bind]. pose proof (kind_similar b b' "compact_constructor_declaration" Hbb Hnb) as Hc.
  destruct (child_of_kind _ b) as [c|] eqn:Ec; inversion Hc as [? c' Hcc|]; subst; constructor. split; [done|].
  by apply child_of_kind_child in Ec as (_ & _ & ->).
Qed.
Lemma body_types_same scope n n' : similar n n' → is_Some (from_kind (kind n)) → body_types s scope n = body_types s' scope n'.
Proof.
  intros H Hk. unfold body_types. apply (omap_corr similar); [by apply member_nodes_similar|]. intros m m' Hm.
  rewrite <-(similar_kind _ _ Hm). case_bool_decide as Hmk; [|done].
  destruct (field_exact m m' "name" Hm) as [x y Hx|]; [by apply type_kind_not_body|done| |done].
  cbn. by rewrite (proj1 (exact_text _ _ Hx)).
Qed.
Lemma nested_types_same fuel : ∀ scope n n', similar n n' → is_Some (from_kind (kind n)) →
  nested_types_from fuel s scope n = nested_types_from fuel s' scope n'.
Proof.
  induction fuel as [|fuel IH]; intros scope n n' H Hk; [done|]. cbn [nested_types_from]. rewrite (body_types_same _ n n') by done.
  f_equal. destruct (rsplit_once _ scope) as [[outer x]|]; [|done].
  destruct (parent_similar n n' H) as [p p' Hp|]; [|done]. cbn [mbind option_bind].
  destruct (parent_similar p p' Hp) as [g g' Hg|]; [|done]. rewrite <-(similar_kind _ _ Hg). case_bool_decide; [by apply IH|done].
Qed.

(** ** Members and constructors *)

Section Same.
Context (imports : Imports) (pick_fqn : list string → option string).
Lemma base_type_same n n' : exact n n' → base_type_name s n = base_type_name s' n'.
Proof.
  revert n'. induction n as [n IH] using size_ind. intros n' H.
  assert (Eq : ∀ source n, base_type_name source n = base_type_step source (base_type_name source) n)
    by (intros; apply descend_eq, base_type_step_descends).
  rewrite !Eq. unfold base_type_step. rewrite <-(exact_kind _ _ H).
  case_bool_decide; [by rewrite (proj1 (exact_text _ _ H))|].
  pose proof (named_exact _ _ H) as Hn.
  assert (Hsz : ∀ c, c ∈ named_children n → (size c < size n)%nat) by (intros c [Hc _]%named_child_is_child; by apply child_smaller).
  case_bool_decide.
  { destruct Hn as [|c c' l l' Hc _]; [done|]. cbn. apply IH; [apply Hsz; by left|done]. }
  case_bool_decide.
  { destruct (find_corr exact (λ n, bool_decide (kind n = "type_identifier")) (λ n, bool_decide (kind n = "type_identifier")) _ _ (rev_corr exact _ _ Hn)) as [x y Hx|];
      [intros x y E%exact_kind; by rewrite E|cbn; by rewrite (proj1 (exact_text _ _ Hx))|done]. }
  case_bool_decide.
  { destruct (child_by_field_name "element" n) as [e|] eqn:Ee; pose proof (exact_field n n' "element" H) as He; rewrite Ee in He;
      inversion He as [? e' Hee|]; subst; [|done]. cbn. apply IH; [|done]. apply child_by_field_name_child in Ee as [Ee _]. by apply child_smaller. }
  case_bool_decide; [|done].
  clear -IH Hn Hsz. induction Hn as [|c c' l l' Hc _ IHn]; [done|]. cbn [find_map]. rewrite (IH c (Hsz c ltac:(by left)) c' Hc).
  destruct (base_type_name s' c'); [done|]. apply IHn. intros x Hx. apply Hsz. by right.
Qed.
Lemma resolve_ret_same n n' : exact n n' → resolve_ret_fqn s imports pick_fqn n = resolve_ret_fqn s' imports pick_fqn n'.
Proof. intros H. unfold resolve_ret_fqn. by rewrite (base_type_same n n'). Qed.
Lemma with_dimensions_same n n' t : exact n n' → with_dimensions s n t = with_dimensions s' n' t.
Proof.
  intros H. unfold with_dimensions. destruct (exact_field n n' "dimensions" H) as [d d' Hd|]; [|done].
  unfold dims_of. by rewrite (proj1 (exact_text _ _ Hd)).
Qed.
Lemma lower_parameter_same named_by vars p p' : exact p p' → lower_parameter s named_by vars p = lower_parameter s' named_by vars p'.
Proof.
  intros H. unfold lower_parameter. rewrite <-(exact_kind _ _ H). case_bool_decide.
  - destruct (exact_field p p' "type" H) as [x y Hx|]; [|done]. unfold lower. by rewrite (lower_same _ _ x y Hx), (with_dimensions_same p p').
  - case_bool_decide; [|done]. do 3 f_equal.
    destruct (first_child_exact p p' (λ c, negb (bool_decide (kind c ∈ ["modifiers"; "variable_declarator"])))
      (λ c, negb (bool_decide (kind c ∈ ["modifiers"; "variable_declarator"]))) H) as [x y Hx|];
      [intros x y E%exact_kind; by rewrite E|by apply lower_same|done].
Qed.
Lemma lower_parameters_same named_by vars o o' : option_Forall2 exact o o' →
  lower_parameters s named_by o vars = lower_parameters s' named_by o' vars.
Proof.
  destruct 1 as [p p' Hp|]; [|done]. cbn [lower_parameters]. f_equal.
  - apply (flat_map_corr exact); [by apply named_exact|]. intros x y Hx. by rewrite (lower_parameter_same _ _ x y).
  - apply (existsb_corr exact); [by apply named_exact|]. intros x y Hx. by rewrite (lower_parameter_same _ _ x y).
Qed.

(** ** Whole members *)

Lemma field_type_same m m' : member_like m m' → m_kind m = Field →
  option_Forall2 exact (field_type (m_node m)) (field_type (m_node m')).
Proof.
  intros H Hk. pose proof (ml_shape _ _ H) as Hs. rewrite Hk in Hs. destruct Hs as (Hs & He & Hp).
  unfold field_type. rewrite <-(exact_kind _ _ He). case_bool_decide; [by apply exact_field|].
  destruct Hp as [p p' Hp|]; [|constructor]. by apply exact_field.
Qed.
(** The modifiers of a member are read alike, whatever it is. *)
Definition same_modifiers (n n' : Node) : Prop := ∀ k, has_modifier n s k = has_modifier n' s' k.
Lemma exact_modifiers n n' : exact n n' → same_modifiers n n'.
Proof.
  intros H k. unfold has_modifier, modifiers_node. destruct (exact_child_of_kind n n' "modifiers" H) as [m m' Hm|]; [|done].
  apply (existsb_corr exact); [by apply children_exact|]. intros x y [E _]%exact_text. by rewrite E.
Qed.
Lemma owner_modifiers m m' : member_like m m' → same_modifiers (modifiers_owner (m_node m)) (modifiers_owner (m_node m')).
Proof.
  intros H. pose proof (ml_node _ _ H) as Hn. unfold modifiers_owner. rewrite <-(similar_kind _ _ Hn).
  case_bool_decide as E; [|intros k; apply has_modifier_same; [done|by apply (ml_not_body _ _ H)]].
  pose proof (ml_shape _ _ H) as Hs. rewrite E in Hs. destruct (m_kind m).
  - apply list_elem_of_In in Hs. by repeat destruct Hs as [Hs|Hs].
  - destruct Hs as (_ & He & Hp). destruct Hp as [p p' Hp|]; by apply exact_modifiers.
  - done.
  - by destruct Hs.
Qed.
Lemma modifiers_access n n' d : same_modifiers n n' → access_of s n d = access_of s' n' d.
Proof. intros H. unfold access_of. by rewrite !H. Qed.
Lemma member_access_same k m m' : member_like m m' → member_access s k (m_node m) = member_access s' k (m_node m').
Proof. intros H. by apply modifiers_access, owner_modifiers. Qed.
Lemma externally_visible_same m m' : member_like m m' → externally_visible s (m_node m) = externally_visible s' (m_node m').
Proof.
  intros H. unfold externally_visible. by rewrite (owner_modifiers _ _ H), <-(similar_kind _ _ (ml_node _ _ H)).
Qed.
Lemma member_owner_same b marker o o' : option_Forall2 exact o o' → member_owner s b marker o = member_owner s' b marker o'.
Proof. intros [x y Hx|]; [|done]. unfold member_owner. by rewrite (proj1 (exact_text _ _ Hx)). Qed.
Lemma body_field_same n n' : similar n n' → kind n ∉ body_kinds →
  bool_decide (child_by_field_name "body" n = None) = bool_decide (child_by_field_name "body" n' = None).
Proof. intros H Hk. by destruct (field_similar n n' "body" H Hk). Qed.
Lemma display_same o o' : option_Forall2 exact o o' → (λ ty, node_text ty s) <$> o = (λ ty, node_text ty s') <$> o'.
Proof. intros H. apply (option_corr exact); [done|]. intros x y Hx. by apply exact_text. Qed.
Lemma ret_same o o' : option_Forall2 exact o o' →
  (ty ← o; resolve_ret_fqn s imports pick_fqn ty) = (ty ← o'; resolve_ret_fqn s' imports pick_fqn ty).
Proof. intros [x y Hx|]; [|done]. by apply resolve_ret_same. Qed.

Section Member.
Context (b : string) (k : TypeKind) (vars : Vars) (named_by : string → bool → option string).
Lemma method_metadata_same m m' name st : member_like m m' → m_kind m = Method →
  method_metadata s b k vars named_by (m_node m) name st = method_metadata s' b k vars named_by (m_node m') name st.
Proof.
  intros H Hm. pose proof (ml_node _ _ H) as Hn. pose proof (ml_not_body _ _ H) as Hb. pose proof (ml_shape _ _ H) as Hs. rewrite Hm in Hs.
  unfold method_metadata. pose proof (field_exact _ _ "parameters" Hn Hb ltac:(done)) as Hp.
  rewrite (member_owner_same b name _ _ Hp).
  rewrite (lower_type_parameters_same named_by _ vars _ _ (field_exact _ _ "type_parameters" Hn Hb ltac:(done))).
  destruct (lower_type_parameters s' _ _ _ _) as [names tps]. rewrite (lower_parameters_same named_by names _ _ Hp).
  destruct (lower_parameters s' _ _ _) as [ps va]. rewrite (member_access_same k m m' H), !(has_modifier_same _ _ _ Hn Hb), (body_field_same _ _ Hn Hb).
  rewrite (signature_has_error_same _ _ Hn).
  2: { apply list_elem_of_In in Hs. destruct Hs as [<-|[<-|[<-|[]]]]; apply (bool_decide_eq_true_1 (_ ∈ _)); by vm_compute. }
  f_equal. destruct (field_exact _ _ "type" Hn Hb ltac:(done)) as [x y Hx|]; [by apply lower_same|done].
Qed.
Lemma member_from_node_same m m' : member_like m m' →
  member_from_node s imports pick_fqn b k vars named_by m = member_from_node s' imports pick_fqn b k vars named_by m'.
Proof.
  intros H. pose proof (ml_node _ _ H) as Hn. pose proof (ml_not_body _ _ H) as Hb. pose proof (ml_shape _ _ H) as Hs.
  unfold member_from_node. rewrite <-(ml_kind _ _ H), <-(ml_static _ _ H).
  pose proof (field_exact _ _ "name" Hn Hb ltac:(done)) as Hname. destruct (m_kind m) eqn:Ek; [..|done].
  - rewrite (erased_signature_same _ _ Hn) by by left. destruct (Signatures.erased_signature s' _); [|done]. cbn [mbind option_bind].
    destruct Hname as [x y Hx|]; [|done]. cbn [mbind option_bind]. rewrite (proj1 (exact_text _ _ Hx)).
    pose proof (field_exact _ _ "type" Hn Hb ltac:(done)) as Ht.
    by rewrite (ret_same _ _ Ht), (display_same _ _ Ht), (method_metadata_same m m').
  - rewrite (erased_signature_same _ _ Hn) by by right. destruct (Signatures.erased_signature s' _); [|done]. cbn [mbind option_bind].
    destruct Hname as [x y Hx|]; [|done]. cbn [mbind option_bind]. rewrite (proj1 (exact_text _ _ Hx)).
    pose proof (field_type_same m m' H Ek) as Ht. rewrite (ret_same _ _ Ht), (display_same _ _ Ht). do 3 f_equal.
    unfold field_metadata. rewrite (member_access_same k m m' H). f_equal. destruct Hs as (_ & He & _).
    rewrite (with_dimensions_same _ _ _ He). f_equal. destruct Ht as [x' y' Hx'|]; [by apply lower_same|done].
  - unfold constant_member. destruct Hname as [x y Hx|]; [|done]. cbn [mbind option_bind]. by rewrite (proj1 (exact_text _ _ Hx)).
Qed.
Lemma constructor_from_node_same n n' : similar n n' → kind n = "constructor_declaration" →
  constructor_member_from_node s b vars named_by n = constructor_member_from_node s' b vars named_by n'.
Proof.
  intros Hn Hk. assert (Hb : kind n ∉ body_kinds) by (rewrite Hk; vm_compute; set_solver).
  unfold constructor_member_from_node. rewrite (erased_signature_same _ _ Hn).
  2: { left. rewrite Hk. apply (bool_decide_eq_true_1 (_ ∈ _)); by vm_compute. }
  destruct (Signatures.erased_signature s' _); [|done]. cbn [mbind option_bind].
  destruct (field_exact _ _ "name" Hn Hb ltac:(done)) as [x y Hx|]; [|done]. cbn [mbind option_bind]. rewrite (proj1 (exact_text _ _ Hx)).
  pose proof (field_exact _ _ "parameters" Hn Hb ltac:(done)) as Hp. rewrite (member_owner_same b "<init>" _ _ Hp).
  rewrite (lower_type_parameters_same named_by _ vars _ _ (field_exact _ _ "type_parameters" Hn Hb ltac:(done))).
  destruct (lower_type_parameters s' _ _ _ _) as [names tps]. rewrite (lower_parameters_same named_by names _ _ Hp).
  destruct (lower_parameters s' _ _ _) as [ps va]. rewrite (access_same _ _ _ Hn Hb), (signature_has_error_same _ _ Hn); [done|].
  rewrite Hk. apply (bool_decide_eq_true_1 (_ ∈ _)); by vm_compute.
Qed.
Lemma constructor_members_same d d' acc : decl_like d d' →
  constructor_members s b vars named_by d acc = constructor_members s' b vars named_by d' acc.
Proof.
  intros H. pose proof (dl_node _ _ H) as Hn. pose proof (decl_not_body _ _ H) as Hb.
  unfold constructor_members. rewrite <-(dl_kind _ _ H). case_bool_decide; [done|].
  destruct (constructors_same d d' H) as [|c c' l l' Hc Hl].
  - case_bool_decide; [|unfold default_constructor; by rewrite (dl_name _ _ H)]. f_equal. unfold record_canonical_constructor.
    rewrite (lower_parameters_same named_by vars _ _ (field_exact _ _ "parameters" Hn Hb ltac:(done))).
    destruct (lower_parameters s' _ _ _). rewrite (dl_name _ _ H), (param_labels_same _ _ Hn Hb).
    destruct (compact_constructor_same d d' H) as [x y [Hx Hxk]|]; [|done]. rewrite (access_same x y); [done|done|].
    rewrite Hxk. vm_compute. set_solver.
  - apply (omap_corr (λ c c', similar c c' ∧ kind c = "constructor_declaration")); [by constructor|].
    intros x y [Hx Hk]. by apply constructor_from_node_same.
Qed.
End Member.

(** ** Generated members *)

Section Generated.
Context (root root' : Node) (Hroot : similar root root') (Htop : above root = [] ∧ above root' = []) (Hprogram : kind root = "program").
Lemma root_not_body : kind root ∉ body_kinds.
Proof. rewrite Hprogram. vm_compute. set_solver. Qed.
Definition in_docs (n n' : Node) : Prop := similar n n' ∧ within root n ∧ within root' n'.
Lemma uses_lombok_same n n' : in_docs n n' → Lombok.file_uses_lombok n s = Lombok.file_uses_lombok n' s'.
Proof.
  intros (_ & Hn & Hn'). destruct Htop as [Ht Ht']. unfold Lombok.file_uses_lombok.
  rewrite (Lombok.root_of_within root n Hn Ht), (Lombok.root_of_within root' n' Hn' Ht').
  apply (existsb_corr similar); [apply named_similar; [done|by apply root_not_body]|]. intros c c' Hc. rewrite <-(similar_kind _ _ Hc).
  case_bool_decide as Hk; [|done]. cbn [andb]. assert (He : exact c c') by (apply similar_exact; [done|left; rewrite Hk; vm_compute; set_solver]).
  by rewrite (proj1 (exact_text _ _ He)).
Qed.
Lemma file_package_same n n' : in_docs n n' → Lombok.file_package n s = Lombok.file_package n' s'.
Proof.
  intros (_ & Hn & Hn'). destruct Htop as [Ht Ht']. unfold Lombok.file_package.
  rewrite (Lombok.root_of_within root n Hn Ht), (Lombok.root_of_within root' n' Hn' Ht').
  destruct (kind_exact root root' "package_declaration" Hroot root_not_body) as [x y Hx|]; [vm_compute; set_solver| |done].
  cbn [mbind option_bind]. by rewrite (proj1 (exact_text _ _ Hx)).
Qed.
Lemma type_names_same ns ns' : Forall2 similar ns ns' → ∀ names, Lombok.type_names s ns names = Lombok.type_names s' ns' names.
Proof.
  induction 1 as [|n n' ns ns' Hn _ IH]; intros names; [done|]. cbn [Lombok.type_names]. rewrite <-(similar_kind _ _ Hn).
  case_bool_decide as Hk; [|done]. destruct (field_exact n n' "name" Hn (type_kind_not_body _ Hk) ltac:(done)) as [x y Hx|]; [|done].
  cbn [mbind option_bind]. by rewrite (proj1 (exact_text _ _ Hx)).
Qed.
Lemma binary_fqn_same n n' : in_docs n n' → Lombok.binary_fqn_of n s = Lombok.binary_fqn_of n' s'.
Proof.
  intros H. pose proof H as (Hn & _). unfold Lombok.binary_fqn_of. rewrite (file_package_same n n' H).
  rewrite (type_names_same (n :: ancestors n) (n' :: ancestors n')); [done|]. constructor; [done|by apply ancestors_similar].
Qed.
Lemma marks_modifiers o o' : option_Forall2 exact o o' →
  match o with None => Lombok.no_marks | Some mods => fold_left (Lombok.mark_step s) (named_children mods) Lombok.no_marks end
  = match o' with None => Lombok.no_marks | Some mods => fold_left (Lombok.mark_step s') (named_children mods) Lombok.no_marks end.
Proof.
  intros [x y Hx|]; [|done]. apply (fold_corr exact); [by apply named_exact|]. intros c a a' Ha. unfold Lombok.mark_step.
  rewrite <-(exact_kind _ _ Ha). case_bool_decide; [|done]. destruct (exact_field a a' "name" Ha) as [m m' Hm|]; [|done].
  rewrite (proj1 (exact_text _ _ Hm)). unfold Lombok.suppressed.
  destruct (exact_field a a' "arguments" Ha) as [g g' Hg|]; [|done]. by rewrite (proj1 (exact_text _ _ Hg)).
Qed.
Lemma marks_same n n' : similar n n' → kind n ∉ body_kinds → Lombok.marks_on n s = Lombok.marks_on n' s'.
Proof. intros H Hk. apply marks_modifiers, kind_exact; [done|done|]. vm_compute. set_solver. Qed.
Lemma marks_exact n n' : exact n n' → Lombok.marks_on n s = Lombok.marks_on n' s'.
Proof. intros H. apply marks_modifiers. by apply exact_child_of_kind. Qed.
Lemma field_info_same m m' : member_like m m' → m_kind m = Field → Lombok.field_info s m = Lombok.field_info s' m'.
Proof.
  intros H Hk. pose proof (ml_shape _ _ H) as Hs. rewrite Hk in Hs. destruct Hs as (_ & _ & Hp). unfold Lombok.field_info.
  destruct Hp as [p p' Hp|]; [|done]. cbn [mbind option_bind]. destruct (exact_field p p' "type" Hp) as [x y Hx|]; [|done].
  cbn [mbind option_bind]. by rewrite (ml_name _ _ H), (proj1 (exact_text _ _ Hx)), (exact_modifiers p p' Hp), (marks_exact p p' Hp).
Qed.
Lemma instance_fields_same d d' : decl_like d d' → Lombok.instance_fields d = Lombok.instance_fields d'.
Proof.
  intros H. unfold Lombok.instance_fields. destruct (dl_source _ _ H) as [-> ->].
  apply (omap_corr (λ m m', member_like m m' ∧ m_kind m = Field)).
  - pose proof (own_members_same d d' H) as Hm. induction Hm as [|m m' l l' Hm _ IH]; [constructor|]. cbn [List.filter].
    assert (E : Lombok.is_instance_field m = Lombok.is_instance_field m').
    { unfold Lombok.is_instance_field. by rewrite <-(ml_kind _ _ Hm), <-(ml_static _ _ Hm), <-(similar_kind _ _ (ml_node _ _ Hm)). }
    rewrite <-E. destruct (Lombok.is_instance_field m) eqn:Ei; [|done]. constructor; [split; [done|]|done].
    unfold Lombok.is_instance_field in Ei. by destruct (m_kind m).
  - intros m m' [Hm Hk]. by apply field_info_same.
Qed.
Lemma existing_same d d' : decl_like d d' → Lombok.existing d = Lombok.existing d'.
Proof.
  intros H. unfold Lombok.existing. apply (map_corr member_like); [|by intros m m' ?; apply ml_name].
  apply filter_corr; [by apply own_members_same|]. intros m m' Hm. unfold Lombok.is_method. by rewrite (ml_kind _ _ Hm).
Qed.
Lemma synthesize_same to_uppercase n n' : in_docs n n' → Lombok.synthesize to_uppercase n s = Lombok.synthesize to_uppercase n' s'.
Proof.
  intros H. pose proof H as (Hn & _). unfold Lombok.synthesize. pose proof (from_node_same n n' 0 None Hn) as Hf.
  destruct (from_node n s 0 None) as [d|] eqn:E; inversion Hf as [? d' Hd|]; subst; [|done].
  rewrite <-(dl_kind _ _ Hd), (existing_same d d' Hd), (instance_fields_same d d' Hd). case_bool_decide; [|done].
  assert (Hb : kind n ∉ body_kinds) by (rewrite <-(proj1 (from_node_fields _ _ _ _ _ E)); by eapply decl_not_body).
  rewrite (marks_same n n' Hn Hb). f_equal. f_equal.
  - apply flat_map_ext. intros f. unfold Lombok.members_of_field, Lombok.wither_of. by rewrite (dl_name _ _ Hd).
  - unfold Lombok.builder_of, Lombok.builder_simple. by rewrite (dl_name _ _ Hd), (binary_fqn_same n n' H).
Qed.
Lemma builder_class_same d d' : decl_like d d' → within root (td_node d) → within root' (td_node d') →
  Lombok.builder_class d s = Lombok.builder_class d' s'.
Proof.
  intros H Hw Hw'. pose proof (dl_node _ _ H) as Hn. unfold Lombok.builder_class.
  rewrite (marks_same _ _ Hn (decl_not_body _ _ H)), (binary_fqn_same (td_node d) (td_node d')) by done.
  by rewrite (dl_name _ _ H), (instance_fields_same d d' H).
Qed.

(** ** Whole classes *)

Lemma binary_of_same d d' : decl_like d d' → binary_of d = binary_of d'.
Proof. intros H. unfold binary_of. by rewrite (dl_name _ _ H), (dl_binary _ _ H). Qed.
Lemma decl_type_kind d d' : decl_like d d' → is_Some (from_kind (kind (td_node d))).
Proof. intros H. rewrite (dl_from _ _ H). by eexists. Qed.
Lemma in_scope_same d d' : decl_like d d' → in_scope s imports pick_fqn d = in_scope s' imports pick_fqn d'.
Proof.
  intros H. unfold in_scope, nested_types_in_scope. rewrite (binary_of_same d d' H).
  rewrite (nested_types_same _ _ _ _ (dl_node _ _ H)) by (by eapply decl_type_kind).
  destruct (dl_node _ _ H) as [_ Hup]. by rewrite (Forall2_length _ _ _ Hup).
Qed.
Lemma class_parameters_same d d' : decl_like d d' → class_parameters s imports pick_fqn d = class_parameters s' imports pick_fqn d'.
Proof.
  intros H. unfold class_parameters. rewrite (in_scope_same d d' H), (binary_of_same d d' H). apply lower_type_parameters_same.
  apply field_exact; [by apply dl_node|by eapply decl_not_body|done].
Qed.
Lemma extends_nothing_same d d' : decl_like d d' → extends_nothing (td_node d) = extends_nothing (td_node d').
Proof.
  intros H. pose proof (dl_node _ _ H) as Hn. pose proof (decl_not_body _ _ H) as Hb. unfold extends_nothing. f_equal.
  - by destruct (field_exact _ _ "superclass" Hn Hb ltac:(done)).
  - f_equal. apply (existsb_corr exact); [by apply super_type_nodes_same|]. intros x y Hx.
    destruct (parent_similar x y (exact_similar _ _ Hx)) as [p q Hp|]; [|done]. by rewrite (similar_kind _ _ Hp).
Qed.
Lemma class_supertypes_same d d' : decl_like d d' → class_supertypes s imports pick_fqn d = class_supertypes s' imports pick_fqn d'.
Proof.
  intros H. unfold class_supertypes. rewrite (binary_of_same d d' H), (in_scope_same d d' H), (class_parameters_same d d' H). f_equal.
  - unfold implicit_super. rewrite <-(dl_kind _ _ H), (extends_nothing_same d d' H). done.
  - apply (map_corr exact); [|intros x y Hx; by apply lower_same]. apply super_type_nodes_same; [by apply dl_node|by eapply decl_not_body].
Qed.
Lemma external_supers_same d d' : decl_like d d' → external_supers imports pick_fqn d = external_supers imports pick_fqn d'.
Proof.
  intros H. unfold external_supers. rewrite <-(dl_kind _ _ H).
  assert (E : super_simple_names d = super_simple_names d').
  { unfold super_simple_names. destruct (dl_source _ _ H) as [-> ->]. apply (omap_corr exact); [by apply dl_supers|by apply base_type_same]. }
  by rewrite E.
Qed.
Lemma class_metadata_same d d' : decl_like d d' → class_metadata s imports pick_fqn d = class_metadata s' imports pick_fqn d'.
Proof.
  intros H. pose proof (dl_node _ _ H) as Hn. pose proof (decl_not_body _ _ H) as Hb. unfold class_metadata.
  rewrite (binary_of_same d d' H), <-(dl_kind _ _ H), (class_parameters_same d d' H), (class_supertypes_same d d' H).
  unfold class_access. rewrite (access_same _ _ _ Hn Hb), !(has_modifier_same _ _ _ Hn Hb), (header_broken_same _ _ Hn (decl_type_kind _ _ H)).
  rewrite (unclassified_same d d' H). f_equal. f_equal. f_equal.
  - apply (forallb_corr (λ c c', similar c c' ∧ kind c = "constructor_declaration")); [by apply constructors_same|].
    intros x y [Hx Hk]. rewrite (signature_has_error_same x y); [done|done|]. rewrite Hk. apply (bool_decide_eq_true_1 (_ ∈ _)); by vm_compute.
  - destruct (compact_constructor_same d d' H) as [x y [Hx Hk]|]; [|done]. rewrite (signature_has_error_same x y); [done|done|].
    rewrite Hk. apply (bool_decide_eq_true_1 (_ ∈ _)); by vm_compute.
Qed.
Lemma to_external_class_same to_uppercase d d' : decl_like d d' → within root (td_node d) → within root' (td_node d') →
  to_external_class s imports pick_fqn to_uppercase d = to_external_class s' imports pick_fqn to_uppercase d'.
Proof.
  intros H Hw Hw'. assert (Hi : in_docs (td_node d) (td_node d')) by (split; [by apply dl_node|done]). unfold to_external_class.
  rewrite (external_supers_same d d' H), (class_parameters_same d d' H), (class_metadata_same d d' H).
  rewrite (uses_lombok_same _ _ Hi), (synthesize_same to_uppercase _ _ Hi), <-(dl_kind _ _ H), (dl_name _ _ H).
  f_equal. f_equal; [|f_equal].
  - unfold declared_members. rewrite (binary_of_same d d' H), <-(dl_kind _ _ H), (class_parameters_same d d' H), (in_scope_same d d' H).
    apply (omap_corr member_like); [|intros m m' Hm; by apply member_from_node_same].
    apply filter_corr; [by apply own_members_same|]. intros m m' Hm. by apply externally_visible_same.
  - rewrite (binary_of_same d d' H), (in_scope_same d d' H). unfold class_access.
    rewrite (access_same _ _ _ (dl_node _ _ H) (decl_not_body _ _ H)). by apply constructor_members_same.
Qed.
End Generated.
End Same.
End Places.

(** ** Whole documents *)

(** A body edit: the document's tree is the same but for what is inside
    bodies. *)
Definition body_edit (doc doc' : OpenDoc) : bool :=
  bool_decide (kind (root_node (od_tree doc)) = "program") && same (od_source doc) (od_source doc') "" (od_tree doc) (od_tree doc').
(** Nothing declared in a body has a name for other files. *)
Definition local_kinds : list string := ["block"; "method_declaration"; "constructor_declaration"; "lambda_expression"].
Lemma enclosing_local source pre a post : kind a ∈ local_kinds → Forall (λ n, kind n ≠ "program") pre → ∀ names,
  enclosing_names source (pre ++ a :: post) names = None.
Proof.
  intros Ha Hp. induction Hp as [|x pre Hx _ IH]; intros names; cbn [app enclosing_names].
  - case_bool_decide as Hk; [rewrite Hk in Ha; vm_compute in Ha; exfalso; set_solver|]. by rewrite bool_decide_eq_true_2.
  - rewrite bool_decide_eq_false_2 by done. case_bool_decide; [done|]. destruct (bool_decide _ && _); [done|]. apply IH.
Qed.
Lemma local_not_program k : k ∈ local_kinds → k ≠ "program".
Proof. intros H ->. vm_compute in H. set_solver. Qed.
Lemma inside_local doc n c m d pkg : Lombok.rooted doc → within (root_node (od_tree doc)) n → kind n ∈ local_kinds → c ∈ children n → within c m →
  from_node m (od_source doc) 0 pkg = Some d → td_binary_name d = None.
Proof.
  intros Hr Hn Hk Hc Hm. unfold from_node. intros (k & _ & H)%bind_Some. apply bind_Some in H as (name & _ & H).
  destruct (binary_identity _ _ _ _ _) as [b i] eqn:E. injection H as <-. cbn. unfold binary_identity in E.
  destruct (within_ancestors c m Hm) as (path & Ep). rewrite (ancestors_child n c Hc) in Ep.
  assert (Hpre : ∃ pre, ancestors m = pre ++ n :: ancestors n).
  { destruct path as [|y path]; injection Ep as E1 E2; [by exists []|]. exists (path ++ [c]). by rewrite <-app_assoc. }
  destruct Hpre as [pre Hpre]. rewrite Hpre, enclosing_local in E; [by injection E as <- _|done|].
  apply Forall_forall. intros x Hx Hp. apply list_elem_of_split in Hx as (p1 & p2 & ->).
  rewrite <-app_assoc in Hpre. cbn [app] in Hpre.
  assert (Hin : within (root_node (od_tree doc)) x).
  { apply (ancestor_within _ m); [|done|].
    - apply (within_trans _ n); [done|]. by eapply within_child.
    - rewrite Hpre. apply elem_of_app. right. by left. }
  apply ancestors_tail in Hpre. unfold ancestors at 2 in Hpre. rewrite (Hr x Hin Hp) in Hpre. by destruct p2.
Qed.

Lemma own_members_within d m : m ∈ own_members d → within (td_node d) (m_node m).
Proof.
  assert (Hnm : ∀ source doc k st a n x, within a n → x ∈ named_member source doc k st n → within a (m_node x)).
  { intros source doc k st a n x Hn. unfold named_member. destruct (child_by_field_name _ _); [|by intros ?%elem_of_nil].
    by intros ->%list_elem_of_singleton. }
  assert (Hch : ∀ a n c, within a n → c ∈ named_children n → within a c).
  { intros a n c Hn [Hc _]%named_child_is_child. eapply within_trans; [done|]. eapply within_child; [done|constructor]. }
  unfold own_members. intros [H|H]%elem_of_app.
  - unfold record_components in H. destruct (td_kind d); try by apply elem_of_nil in H.
    destruct (child_by_field_name _ _) as [p|] eqn:E; [|by apply elem_of_nil in H]. apply child_by_field_name_child in E as [E _].
    apply list_elem_of_In, in_flat_map in H as (c & [Hc _]%filter_In & H). apply list_elem_of_In in H, Hc.
    eapply Hnm; [|done]. eapply Hch; [|done]. eapply within_child; [done|constructor].
  - unfold body in H. destruct (child_of_kind _ _) as [b|] eqn:E; [|by apply elem_of_nil in H]. apply child_of_kind_child in E as [E _].
    assert (Hb : within (td_node d) b) by (eapply within_child; [done|constructor]). clear E. revert Hb H.
    induction b as [b IH] using size_ind. intros Hb. unfold collect_body_members. rewrite descend_eq by apply body_step_descends.
    unfold body_step at 1. intros (c & Hc & H)%list_elem_of_In%in_flat_map. apply list_elem_of_In in H, Hc. pose proof (Hch _ _ _ Hb Hc) as Hw.
    revert H. case_bool_decide; [|case_bool_decide; [by apply Hnm|case_bool_decide; [by apply Hnm|case_bool_decide]]].
    + intros (x & [Hx _]%filter_In & H')%list_elem_of_In%in_flat_map. apply list_elem_of_In in H', Hx. eapply Hnm; [|done]. by eapply Hch.
    + apply IH; [|done]. apply named_child_is_child in Hc as [Hc _]. by apply child_smaller.
    + destruct (from_kind _); [by apply Hnm|by intros ?%elem_of_nil].
Qed.

Section Documents.
Context (doc doc' : OpenDoc) (Hedit : body_edit doc doc' = true) (Hr : Lombok.rooted doc) (Hr' : Lombok.rooted doc').
Notation s := (od_source doc).
Notation s' := (od_source doc').
Notation root := (root_node (od_tree doc)).
Notation root' := (root_node (od_tree doc')).
Lemma roots_similar : similar s s' root root'.
Proof. apply andb_true_iff in Hedit as [_ H]. split; [by eexists|constructor]. Qed.
Lemma root_program : kind root = "program".
Proof. apply andb_true_iff in Hedit as [H _]. by apply bool_decide_eq_true in H. Qed.
Lemma parse_same : parse (od_tree doc) s = parse (od_tree doc') s'.
Proof.
  unfold parse. apply (fold_corr (similar s s')); [apply named_similar; [apply roots_similar|rewrite root_program; vm_compute; set_solver]|].
  intros i c c' Hc. unfold parse_child. rewrite <-(similar_kind _ _ _ _ Hc).
  assert (Hx : ∀ k, kind c = k → k ∉ around_kinds ++ body_kinds → node_text c s = node_text c' s').
  { intros k <- Hk. apply (exact_text s s' c c'), similar_exact; [done|by left]. }
  case_bool_decide as E; [rewrite (Hx _ E); [done|vm_compute; set_solver]|].
  case_bool_decide as E'; [rewrite (Hx _ E'); [done|vm_compute; set_solver]|done].
Qed.
Lemma class_same pick_fqn to_uppercase d d' : decl_like s s' d d' → within root (td_node d) → within root' (td_node d') →
  to_external_class s (parse (od_tree doc) s) pick_fqn to_uppercase d = to_external_class s' (parse (od_tree doc') s') pick_fqn to_uppercase d'.
Proof.
  intros H Hw Hw'. rewrite parse_same. apply (to_external_class_same s s' _ pick_fqn root root' roots_similar); [done|apply root_program|done..].
Qed.

(** *** The fingerprint's entries *)

Section Entries.
Context (hash_shape : Shape → Z) (to_uppercase : string → string).
Notation entries := (entry_of hash_shape to_uppercase).
Lemma entry_same n n' : similar s s' n n' → within root n → within root' n' → entries doc n = entries doc' n'.
Proof.
  intros H Hw Hw'. unfold entry_of. rewrite <-parse_same.
  pose proof (from_node_same s s' n n' 0 (package (parse (od_tree doc) s)) H) as Hf.
  destruct (from_node n s _ _) as [d|] eqn:E; inversion Hf as [? d' Hd E1 E'|]; subst; [|done].
  rewrite <-(dl_binary _ _ _ _ Hd). destruct (td_binary_name d); [|done]. do 4 f_equal. rewrite parse_same at 2.
  apply class_same; [done|..].
  - by rewrite (proj1 (from_node_fields _ _ _ _ _ E)).
  - by rewrite (proj1 (from_node_fields _ _ _ _ _ (eq_sym E'))).
Qed.
Lemma entries_inside e n c : Lombok.rooted e → within (root_node (od_tree e)) n → kind n ∈ local_kinds → c ∈ children n →
  flat_map (entries e) (visited c) = [].
Proof.
  intros He Hn Hk Hc. rewrite (flat_map_ext_elem _ (λ _, [])); [by induction (visited c)|]. intros m Hm%visited_within.
  unfold entry_of. destruct (from_node _ _ _ _) as [d|] eqn:E; [|done]. by rewrite (inside_local e n c m d _ He Hn Hk Hc Hm E).
Qed.
Lemma entries_local e n : Lombok.rooted e → within (root_node (od_tree e)) n → kind n ∈ local_kinds →
  flat_map (entries e) (visited n) = [].
Proof.
  intros He Hn Hk. rewrite visited_eq. cbn [flat_map].
  assert (Hown : entries e n = []).
  { unfold entry_of, from_node. replace (from_kind (kind n)) with (@None TypeKind); [done|].
    apply list_elem_of_In in Hk. by destruct Hk as [<-|[<-|[<-|[<-|[]]]]]. }
  rewrite Hown. cbn [app]. assert (Hc : ∀ c, c ∈ rev (children n) → flat_map (entries e) (visited c) = []).
  { intros c Hc%list_elem_of_In%in_rev%list_elem_of_In. by eapply entries_inside. }
  clear Hown. induction (rev (children n)) as [|c cs IH]; [done|]. cbn [flat_map]. rewrite flat_map_app, (Hc c), IH by (by left || (intros; apply Hc; by right)).
  done.
Qed.

Definition parent_kind (n : Node) : string := match parent n with Some p => kind p | None => "" end.
Definition placed (n n' : Node) : Prop :=
  same s s' (parent_kind n) (here n) (here n') = true ∧ Forall2 (around s s') (above n) (above n').
Lemma entries_same n n' : placed n n' → within root n → within root' n' →
  flat_map (entries doc) (visited n) = flat_map (entries doc') (visited n').
Proof.
  revert n'. induction n as [n IH] using size_ind. intros n' [H Hup] Hw Hw'.
  assert (Hs : similar s s' n n') by (split; [by eexists|done]).
  assert (Hrec : Forall2 (λ c c', placed c c' ∧ c ∈ children n ∧ c' ∈ children n') (children n) (children n') →
    flat_map (entries doc) (visited n) = flat_map (entries doc') (visited n')).
  { intros Hc. rewrite !visited_eq. cbn [flat_map]. rewrite (entry_same n n' Hs Hw Hw'). f_equal.
    rewrite !flat_map_flat_map. apply (flat_map_corr _ _ _ _ _ (rev_corr _ _ _ Hc)). intros c c' (Hp & Hin & Hin').
    apply IH; [by apply child_smaller|done|..]; (eapply within_trans; [done|]; eapply within_child; [done|constructor]). }
  assert (Hlist : Forall2 (λ c c', same s s' (kind n) c c' = true) (subtrees (here n)) (subtrees (here n')) →
    flat_map (entries doc) (visited n) = flat_map (entries doc') (visited n')).
  { intros Hl. apply Hrec. apply Forall2_in. unfold children at 1 2. apply Forall2_fmap. eapply Forall2_impl; [exact Hl|].
    intros c c' Hc. split; [|by constructor; [apply Hs|]]. unfold parent_kind, parent. by destruct n. }
  destruct (alike s s' (here n) (here n')) eqn:Ea.
  { apply Hlist. destruct n as [[i cs] up], n' as [[i' cs'] up']. cbn [here subtrees alike] in *. apply andb_true_iff in Ea as [_ Ea].
    apply forall2b_Forall2 in Ea. eapply Forall2_impl; [exact Ea|]. intros c c' Hc. destruct c, c'. cbn [same]. by rewrite Hc. }
  assert (Hlocal : kind n ∈ local_kinds → flat_map (entries doc) (visited n) = flat_map (entries doc') (visited n')).
  { intros Hk. rewrite (entries_local doc n Hr Hw Hk), (entries_local doc' n' Hr' Hw'); [done|]. by rewrite <-(similar_kind _ _ _ _ Hs). }
  assert (Hbody : parent_kind n = "constructor_declaration" → flat_map (entries doc) (visited n) = flat_map (entries doc') (visited n')).
  { intros Hp. unfold parent_kind in Hp. pose proof (parent_similar _ _ n n' Hs) as Hpp.
    destruct (within_above root n Hw eq_refl) as [[Ea' _]|(p & Ep & Hwp & Hcp)]; [by unfold parent in Hp; rewrite Ea' in Hp|].
    rewrite Ep in Hp, Hpp. inversion Hpp as [E0 p' Hp' E1 Ep'|]; subst.
    destruct (within_above root' n' Hw' eq_refl) as [[Ea' _]|(q & Eq & Hwq & Hcq)]; [unfold parent in Ep'; by rewrite Ea' in Ep'|].
    rewrite Eq in Ep'. injection Ep' as <-. rewrite (entries_inside doc p n Hr Hwp) by (rewrite ?Hp; done || (by apply (bool_decide_eq_true_1 (_ ∈ _)))).
    symmetry. apply (entries_inside doc' p' n' Hr' Hwq); [|done]. rewrite <-(similar_kind _ _ _ _ Hp'), Hp.
    by apply (bool_decide_eq_true_1 (_ ∈ _)). }
  destruct n as [[i cs] up], n' as [[i' cs'] up']. cbn [here] in *. cbn [same] in H.
  rewrite Ea, orb_false_l, !andb_true_iff, !orb_true_iff, !andb_true_iff, !bool_decide_eq_true in H. destruct H as [_ [[H|[_ H]]|[_ H]]].
  - apply Hlocal. change (i_kind i ∈ local_kinds). rewrite H. by left.
  - by apply Hbody.
  - apply Hlist. apply forall2b_Forall2 in H. eapply Forall2_impl; [exact H|]. by intros c c' [Hc _]%andb_true_iff.
Qed.
End Entries.

Definition decls_like (d d' : TypeDecl) : Prop := decl_like s s' d d' ∧ within root (td_node d) ∧ within root' (td_node d').
Lemma from_node_like pkg n n' : similar s s' n n' → within root n → within root' n' →
  option_Forall2 decls_like (from_node n s 0 pkg) (from_node n' s' 0 pkg).
Proof.
  intros H Hw Hw'. pose proof (from_node_same s s' n n' 0 pkg H) as Hf.
  destruct (from_node n s 0 pkg) as [d|] eqn:E; inversion Hf as [? d' Hd E1 E'|]; subst; constructor. split; [done|].
  by rewrite (proj1 (from_node_fields _ _ _ _ _ E)), (proj1 (from_node_fields _ _ _ _ _ (eq_sym E'))).
Qed.
Lemma nested_type_same pkg d d' seg : decls_like d d' → option_Forall2 decls_like (nested_type s pkg d seg) (nested_type s' pkg d' seg).
Proof.
  intros (H & Hw & Hw'). unfold nested_type.
  destruct (find_corr (λ m m', member_like s s' m m' ∧ m ∈ own_members d ∧ m' ∈ own_members d')
    (λ m, bool_decide (m_name m = seg) && is_nested_type m) (λ m, bool_decide (m_name m = seg) && is_nested_type m)
    (own_members d) (own_members d')) as [m m' (Hm & Hin & Hin')|].
  - by apply Forall2_in, own_members_same.
  - intros m m' (Hm & _). unfold is_nested_type. by rewrite (ml_name _ _ _ _ Hm), (ml_kind _ _ _ _ Hm).
  - cbn [mbind option_bind]. apply own_members_within in Hin, Hin'. apply from_node_like; [by apply ml_node|by eapply within_trans..].
  - constructor.
Qed.
Lemma nested_path_same pkg segments : ∀ d d', decls_like d d' →
  option_Forall2 decls_like (nested_path s pkg d segments) (nested_path s' pkg d' segments).
Proof.
  induction segments as [|seg segments IH]; intros d d' H; cbn [nested_path]; [by constructor|].
  destruct (nested_type_same pkg d d' seg H) as [e e' He|]; [by apply IH|constructor].
Qed.
Lemma find_type_same pkg path : option_Forall2 decls_like (find_type_by_path root s path pkg) (find_type_by_path root' s' path pkg).
Proof.
  unfold find_type_by_path. destruct (split_char _ path) as [|first segments]; [constructor|].
  assert (Hn : Forall2 (λ n n', similar s s' n n' ∧ n ∈ named_children root ∧ n' ∈ named_children root') (named_children root) (named_children root')).
  { apply Forall2_in, named_similar; [apply roots_similar|]. rewrite root_program. vm_compute. set_solver. }
  assert (Hf : option_Forall2 decls_like
    (find_map (λ n, match from_node n s 0 pkg with Some td => if bool_decide (td_name td = first) then Some td else None | None => None end) (named_children root))
    (find_map (λ n, match from_node n s' 0 pkg with Some td => if bool_decide (td_name td = first) then Some td else None | None => None end) (named_children root'))).
  { induction Hn as [|n n' l l' (Hx & Hin & Hin') _ IH]; cbn [find_map]; [constructor|].
    apply named_child_is_child in Hin as [Hin _], Hin' as [Hin' _].
    assert (Hd : option_Forall2 decls_like (from_node n s 0 pkg) (from_node n' s' 0 pkg))
      by (apply from_node_like; [done|eapply within_child; [done|constructor]..]).
    destruct Hd as [d d' Hd|]; [|done]. rewrite <-(dl_name _ _ _ _ (proj1 Hd)). case_bool_decide; [by constructor|done]. }
  destruct Hf as [d d' Hd|]; [by apply nested_path_same|constructor].
Qed.
Lemma class_from_doc_same to_uppercase path pick_fqn :
  class_from_doc to_uppercase doc path pick_fqn = class_from_doc to_uppercase doc' path pick_fqn.
Proof.
  unfold class_from_doc. rewrite <-parse_same.
  destruct (find_type_same (package (parse (od_tree doc) s)) path) as [d d' (Hd & Hw & Hw')|].
  { f_equal. rewrite parse_same at 2. by apply class_same. }
  destruct (rsplit_once _ path) as [[outer_path last_]|]; [|done]. cbn [mbind option_bind].
  destruct (find_type_same (package (parse (od_tree doc) s)) outer_path) as [d d' (Hd & Hw & Hw')|]; [|done]. cbn [mbind option_bind].
  assert (Hi : in_docs s s' root root' (td_node d) (td_node d')) by (split; [by apply dl_node|done]).
  rewrite <-(dl_name _ _ _ _ Hd).
  rewrite <-(uses_lombok_same s s' root root' roots_similar (conj eq_refl eq_refl) root_program _ _ Hi).
  destruct (_ || _); [done|]. by apply (builder_class_same s s' root root' roots_similar (conj eq_refl eq_refl) root_program).
Qed.
End Documents.

(** C31: an edit inside the bodies of methods, constructors and initialisers
    is invisible to other files.  The document keeps its imports and its
    fingerprint, whatever the hash, and answers the same class under every
    path. *)
Theorem body_edits_invisible doc doc' : body_edit doc doc' = true → Lombok.rooted doc → Lombok.rooted doc' →
  parse (od_tree doc) (od_source doc) = parse (od_tree doc') (od_source doc')
  ∧ (∀ hash_shape hash_entries to_uppercase,
       declaration_fingerprint hash_shape hash_entries to_uppercase doc = declaration_fingerprint hash_shape hash_entries to_uppercase doc')
  ∧ ∀ to_uppercase path pick_fqn,
      class_from_doc to_uppercase doc path pick_fqn = class_from_doc to_uppercase doc' path pick_fqn.
Proof.
  intros He Hr Hr'. split; [by apply parse_same|]. split; [|intros; by apply class_from_doc_same].
  intros hash_shape hash_entries to_uppercase. unfold declaration_fingerprint. do 2 f_equal.
  rewrite !(proj2 (walk_tree_visited _ _ _)).
  assert (E : ∀ (f : Node → list (string * Z)) l acc, fold_left (λ entries n, entries ++ f n) l acc = acc ++ flat_map f l).
  { intros f l. induction l as [|x l IH]; intros acc; cbn; [by rewrite app_nil_r|]. by rewrite IH, app_assoc. }
  rewrite !E. f_equal. apply entries_same; [done..| |constructor|constructor]. split; [|constructor].
  by apply andb_true_iff in He as [_ ?].
Qed.

(** ** Examples *)

Module Sample.
Import SourceClass.Sample(doc_p).
Definition doc_edited : OpenDoc := mkOpenDoc "package demo; import lombok.*; @Builder class P<T> { String name; T same(T x) { class Q { } return null; } }" (
    node 1 "program" 0 108 [node 2 "package_declaration" 0 13 [token 3 "package" 0 7; node 4 "identifier" 8 12 [];
    token 5 ";" 12 13]; node 6 "import_declaration" 14 30 [token 7 "import" 14 20; node 8 "identifier" 21 27 [];
    token 9 "." 27 28; node 10 "asterisk" 28 29 []; token 11 ";" 29 30]; node 12 "class_declaration" 31 108 [node 13
    "modifiers" 31 39 [node 14 "marker_annotation" 31 39 [token 15 "@" 31 32; field "name" (node 16 "identifier" 32
    39 [])]]; token 17 "class" 40 45; field "name" (node 18 "identifier" 46 47 []); field "type_parameters" (node 19
    "type_parameters" 47 50 [token 20 "<" 47 48; node 21 "type_parameter" 48 49 [node 22 "type_identifier" 48 49
    []]; token 23 ">" 49 50]); field "body" (node 24 "class_body" 51 108 [token 25 "{" 51 52; node 26
    "field_declaration" 53 65 [field "type" (node 27 "type_identifier" 53 59 []); field "declarator" (node 28
    "variable_declarator" 60 64 [field "name" (node 29 "identifier" 60 64 [])]); token 30 ";" 64 65]; node 31
    "method_declaration" 66 106 [field "type" (node 32 "type_identifier" 66 67 []); field "name" (node 33
    "identifier" 68 72 []); field "parameters" (node 34 "formal_parameters" 72 77 [token 35 "(" 72 73; node 36
    "formal_parameter" 73 76 [field "type" (node 37 "type_identifier" 73 74 []); field "name" (node 38 "identifier"
    75 76 [])]; token 39 ")" 76 77]); field "body" (node 40 "block" 78 106 [token 41 "{" 78 79; node 42
    "class_declaration" 80 91 [token 43 "class" 80 85; field "name" (node 44 "identifier" 86 87 []); field "body"
    (node 45 "class_body" 88 91 [token 46 "{" 88 89; token 47 "}" 90 91])]; node 48 "return_statement" 92 104 [token
    49 "return" 92 98; node 50 "null_literal" 99 103 []; token 51 ";" 103 104]; token 52 "}" 105 106])]; token 53
    "}" 107 108])]]).

Lemma edited_body : body_edit doc_p doc_edited = true.
Proof. by vm_compute. Qed.
Lemma body_edits_invisible_witness :
  declaration_fingerprint (λ _, 7) (λ es, Z.of_nat (length es)) id doc_p = declaration_fingerprint (λ _, 7) (λ es, Z.of_nat (length es)) id doc_edited
  ∧ class_from_doc id doc_p "P.PBuilder" head = class_from_doc id doc_edited "P.PBuilder" head.
Proof.
  destruct (body_edits_invisible doc_p doc_edited) as (_ & H1 & H2).
  - by vm_compute.
  - apply Lombok.rooted_check_sound. by vm_compute.
  - apply Lombok.rooted_check_sound. by vm_compute.
  - split; [exact (H1 _ _ id)|exact (H2 id "P.PBuilder" head)].
Defined.
End Sample.
End BodyEdits.
