(* ===== verification/Structural.v ===== *)
(** * Structural checks ([crates/syntax/src/structural.rs])

    The diagnostics that need one document's tree only: the file's name and
    package, types, members and parameters declared twice, modifiers that
    repeat or exclude each other, and bodies that may not be there.  What has
    a syntax error in it is passed over. *)
From Stdlib Require Import Ascii.
From S2P Require Import Prelude RustStd Lsp LineIndex SyntaxTree Outline Signatures SourceModel.
Import LineIndex(LineIndex).
Import Outline(range, diagnostic, MAX_DIAGNOSTICS).
Import Signatures(modifiers_node, has_modifier).
Import SourceModel.

Module Structural.

(** [if !seen.insert(key) { report }] over a list; what has no key is skipped. *)
Section Repeats.
Context {A K D : Type} `{Countable K} (key : A → option K) (report : A → K → list D).
Fixpoint repeats (seen : gset K) (l : list A) : list D :=
  match l with
  | [] => []
  | x :: l =>
      match key x with
      | None => repeats seen l
      | Some k => if decide (k ∈ seen) then report x k ++ repeats seen l else repeats ({[k]} ∪ seen) l
      end
  end.
End Repeats.

Section Checks.
Context (source : string) (ix : LineIndex).

(** What a diagnostic points at and says. *)
Definition Finding : Type := Node * string.
Definition to_diagnostic (f : Finding) : Diagnostic := diagnostic (range ix f.1) f.2.
Definition at_name (n : Node) (message : string) : list Finding :=
  match child_by_field_name "name" n with Some name => [(name, message)] | None => [] end.

Fixpoint enclosing_in (ancs : list Node) : option (Node * TypeKind) :=
  match ancs with
  | [] => None
  | p :: ancs =>
      if bool_decide (kind p = "class_body")
         && match ancs with g :: _ => bool_decide (kind g = "object_creation_expression") | [] => false end
      then Some (p, Class_)
      else match from_kind (kind p) with Some k => Some (p, k) | None => enclosing_in ancs end
  end.
Definition enclosing_type (n : Node) : option (Node * TypeKind) := enclosing_in (ancestors n).

(** ** Modifiers *)

Definition modifier_key (tok : Node) : option string := if is_named tok then None else Some (kind tok).
Definition check_repeated_modifiers (decl : Node) : list Finding :=
  if has_error decl then []
  else match modifiers_node decl with
       | None => []
       | Some mods => repeats modifier_key (λ tok _, [(tok, "repeated modifier")]) ∅ (children mods)
       end.
Fixpoint position_of (k : string) (ks : list string) : option nat :=
  match ks with
  | [] => None
  | x :: ks => if bool_decide (x = k) then Some O else S <$> position_of k ks
  end.
Definition check_modifier_combo (a b : string) (decl : Node) : list Finding :=
  if has_error decl then []
  else match modifiers_node decl with
       | None => []
       | Some mods =>
           let keywords := kind <$> List.filter (λ c, negb (is_named c)) (children mods) in
           match position_of a keywords, position_of b keywords with
           | Some pa, Some pb =>
               let '(first, second) := if (pa <? pb)%nat then (a, b) else (b, a) in
               at_name decl ("illegal combination of modifiers: " +:+ first +:+ " and " +:+ second)
           | _, _ => []
           end
       end.

(** ** Bodies *)

Definition check_method_body_shape (method : Node) : list Finding :=
  if has_error method then []
  else match child_by_field_name "body" method, enclosing_type method with
       | Some body, Some (enclosing, k) =>
           if has_error enclosing then []
           else if bool_decide (k = Interface) then
             if has_modifier method source "default" || has_modifier method source "static" || has_modifier method source "private"
             then [] else [(body, "interface abstract methods cannot have body")]
           else if has_modifier method source "abstract" then at_name method "abstract methods cannot have a body" else []
       | _, _ => []
       end.

(** ** Members and parameters *)

Definition member_owner_keyword (k : TypeKind) : string :=
  match k with Class_ | Annotation => "class" | Interface => "interface" | Enum => "enum" | Record_ => "record" end.
Definition field_key (m : Member) : option string :=
  match m_kind m with
  | Field =>
      if bool_decide (kind (m_node m) = "variable_declarator")
         && negb (has_error (m_node m)) && match parent (m_node m) with Some p => negb (has_error p) | None => true end
         && bool_decide (is_Some (child_by_field_name "name" (m_node m)))
      then Some (m_name m) else None
  | _ => None
  end.
Definition plain_type (p : Node) : option string :=
  if bool_decide (kind p = "formal_parameter") then (λ ty, node_text ty source) <$> child_by_field_name "type" p else None.
Definition param_types_text (decl : Node) : option (list string) :=
  params ← child_by_field_name "parameters" decl;
  if has_error params then None else mapM plain_type (named_children params).
Definition method_key (m : Member) : option (string * list string) :=
  match m_kind m with
  | Method =>
      if bool_decide (kind (m_node m) = "method_declaration") && negb (has_error (m_node m)) then
        types ← param_types_text (m_node m); Some (m_name m, types)
      else None
  | _ => None
  end.
Definition check_duplicate_members (ty : Node) : list Finding :=
  match from_node ty source 0 None with
  | None => []
  | Some decl =>
      let owner := member_owner_keyword (td_kind decl) +:+ " " +:+ td_name decl in
      repeats field_key (λ m name, at_name (m_node m) ("variable " +:+ name +:+ " is already defined in " +:+ owner)) ∅ (own_members decl)
      ++ repeats method_key
           (λ m '(name, types), at_name (m_node m) ("method " +:+ name +:+ "(" +:+ str_join "," types +:+ ") is already defined in " +:+ owner))
           ∅ (own_members decl)
  end.
Definition param_key (p : Node) : option string :=
  if has_error p then None
  else if bool_decide (kind p ∈ ["formal_parameter"; "spread_parameter"]) then
    (λ name, node_text name source) <$> child_by_field_name "name" p
  else None.
Definition check_duplicate_params (owner_label : string) (decl : Node) : list Finding :=
  match child_by_field_name "parameters" decl with
  | None => []
  | Some params =>
      if has_error params then []
      else repeats param_key (λ p name, at_name p ("variable " +:+ name +:+ " is already defined in " +:+ owner_label)) ∅
             (named_children params)
  end.

(** ** The file *)

Definition filename_keyword (k : TypeKind) : string :=
  match k with Class_ | Record_ => "class" | Interface | Annotation => "interface" | Enum => "enum" end.
Definition misplaced (stem : string) (ty : Node) : list Finding :=
  if has_error ty then []
  else match from_kind (kind ty), child_by_field_name "name" ty with
       | Some k, Some name_node =>
           let name := node_text name_node source in
           if has_modifier ty source "public" && negb (bool_decide (name = stem)) then
             [(name_node, filename_keyword k +:+ " " +:+ name +:+ " is public, should be declared in a file named " +:+ name +:+ ".java")]
           else []
       | _, _ => []
       end.
Definition check_filename (top_level : list Node) (filename : option string) : list Finding :=
  match filename ≫= strip_suffix ".java" with None => [] | Some stem => flat_map (misplaced stem) top_level end.
Definition type_key (ty : Node) : option string :=
  if has_error ty then None else (λ name, node_text name source) <$> child_by_field_name "name" ty.
Definition check_duplicate_top_level (top_level : list Node) : list Finding :=
  repeats type_key (λ ty name, at_name ty ("duplicate class: " +:+ name)) ∅ top_level.
Definition package_path (decl : Node) : option string :=
  (λ c, node_text c source) <$> List.find (λ c, bool_decide (kind c ∈ ["identifier"; "scoped_identifier"])) (children decl).
Definition declares_a_type (root : Node) : bool := existsb (λ c, bool_decide (is_Some (from_kind (kind c)))) (named_children root).
Definition quote : string := String (ascii_of_nat 34) "".
Definition package_message (actual expected : string) : string :=
  "The declared package " +:+ quote +:+ actual +:+ quote +:+ " does not match the expected package " +:+ quote +:+ expected +:+ quote.
Definition check_package (root : Node) (expected : option string) : list Finding :=
  match expected with
  | None => []
  | Some expected =>
      match List.filter (λ c, bool_decide (kind c = "package_declaration")) (children root) with
      | [] =>
          if declares_a_type root && negb (bool_decide (expected = "")) && negb (has_error root) then
            [(default root (head (children root)), package_message "" expected)]
          else []
      | [decl] =>
          if has_error decl then []
          else match package_path decl with
               | None => []
               | Some actual => if bool_decide (actual = expected) then [] else [(decl, package_message actual expected)]
               end
      | _ => []
      end
  end.

(** ** One pass *)

Definition type_decl_kinds : list string :=
  ["class_declaration"; "interface_declaration"; "enum_declaration"; "record_declaration"; "annotation_type_declaration"].
Definition when {A} (b : bool) (l : list A) : list A := if b then l else [].
Definition check_node (n : Node) : list Finding :=
  let k := kind n in
  if bool_decide (k ∈ type_decl_kinds) then
    check_repeated_modifiers n
    ++ when (bool_decide (k = "class_declaration")) (check_modifier_combo "abstract" "final" n)
    ++ when (bool_decide (k ∈ ["class_declaration"; "interface_declaration"])) (check_modifier_combo "sealed" "non-sealed" n)
    ++ check_duplicate_members n
  else if bool_decide (k = "method_declaration") then
    check_repeated_modifiers n
    ++ check_modifier_combo "abstract" "final" n
    ++ check_modifier_combo "abstract" "private" n
    ++ check_method_body_shape n
    ++ when (negb (has_error n))
         match child_by_field_name "name" n with
         | Some name => check_duplicate_params ("method " +:+ node_text name source) n
         | None => []
         end
  else if bool_decide (k = "constructor_declaration") then
    check_repeated_modifiers n
    ++ when (negb (has_error n))
         match enclosing_type n with
         | Some (enclosing, _) =>
             when (negb (has_error enclosing))
               match child_by_field_name "name" enclosing with
               | Some name => check_duplicate_params ("constructor " +:+ node_text name source) n
               | None => []
               end
         | None => []
         end
  else if bool_decide (k ∈ ["field_declaration"; "constant_declaration"]) then check_repeated_modifiers n
  else [].
Fixpoint check_loop (fuel : nat) (out : list Finding) (stack : list Node) : option (list Finding) :=
  match stack with
  | [] => Some out
  | n :: stack =>
      match fuel with
      | O => None
      | S fuel =>
          if (MAX_DIAGNOSTICS <=? length out)%nat then Some out
          else check_loop fuel (out ++ check_node n) (rev (children n) ++ stack)
      end
  end.
Definition file_findings (root : Node) (filename expected_package : option string) : list Finding :=
  let top_level := List.filter (λ n, bool_decide (is_Some (from_kind (kind n)))) (named_children root) in
  check_filename top_level filename ++ check_duplicate_top_level top_level ++ check_package root expected_package.
Definition structural_diagnostics (t : Tree) (filename expected_package : option string) : list Diagnostic :=
  let root := root_node t in
  to_diagnostic <$> take MAX_DIAGNOSTICS
    (default [] (check_loop (tree_size t) (file_findings root filename expected_package) [root])).

(** ** What is a violation

    The rules of the language, over the tree: none is stated with the keys that
    the checks compare. *)

Definition earlier {A} (l : list A) (y x : A) : Prop := ∃ pre post, l = pre ++ x :: post ∧ y ∈ pre.
Definition keywords (decl : Node) : list string :=
  match modifiers_node decl with Some mods => kind <$> List.filter (λ c, negb (is_named c)) (children mods) | None => [] end.
(** Both are written, [a] before [b]. *)
Definition written_before (a b : string) (ks : list string) : Prop :=
  ∃ pre post, ks = pre ++ a :: post ∧ a ∉ pre ∧ b ∉ pre ∧ b ∈ post.
Definition excluded (k a b : string) : Prop :=
  k = "class_declaration" ∧ a = "abstract" ∧ b = "final"
  ∨ k ∈ ["class_declaration"; "interface_declaration"] ∧ a = "sealed" ∧ b = "non-sealed"
  ∨ k = "method_declaration" ∧ a = "abstract" ∧ b ∈ ["final"; "private"].
Definition modified_kinds : list string :=
  type_decl_kinds ++ ["method_declaration"; "constructor_declaration"; "field_declaration"; "constant_declaration"].
Definition sound (n : Node) : Prop := has_error n = false.
Definition named_as (n : Node) (name : string) : Prop :=
  ∃ name_node, child_by_field_name "name" n = Some name_node ∧ node_text name_node source = name.
(** A variable that a field declaration declares. *)
Definition variable (m : Member) (name : string) : Prop :=
  m_kind m = Field ∧ kind (m_node m) = "variable_declarator" ∧ sound (m_node m)
  ∧ (∀ p, parent (m_node m) = Some p → sound p) ∧ named_as (m_node m) name.
(** A formal parameter's type as it is written, and the dimensions behind the
    parameter's name. *)
Definition dimensions (p : Node) : nat :=
  match child_by_field_name "dimensions" p with
  | Some d => length (List.filter (λ c, bool_decide (kind c = "[")) (children d))
  | None => 0%nat
  end.
Definition formal (p : Node) (t : string * nat) : Prop :=
  kind p = "formal_parameter" ∧ (∃ ty, child_by_field_name "type" p = Some ty ∧ node_text ty source = t.1) ∧ t.2 = dimensions p.
Definition signature (m : Member) (name : string) (ts : list (string * nat)) : Prop :=
  m_kind m = Method ∧ kind (m_node m) = "method_declaration" ∧ sound (m_node m) ∧ named_as (m_node m) name
  ∧ ∃ params, child_by_field_name "parameters" (m_node m) = Some params ∧ sound params
    ∧ Forall2 formal (named_children params) ts.
Definition generic (m : Member) : Prop := is_Some (child_by_field_name "type_parameters" (m_node m)).
Definition parameter (p : Node) (name : string) : Prop :=
  kind p ∈ ["formal_parameter"; "spread_parameter"] ∧ sound p ∧ named_as p name.
(** The identifiers of a name, with dots between them. *)
Definition dotted_step (rec : Node → option string) (n : Node) : option string :=
  if bool_decide (kind n = "identifier") then Some (node_text n source)
  else if bool_decide (kind n = "scoped_identifier") then
    outer ← child_by_field_name "scope" n ≫= rec; inner ← child_by_field_name "name" n ≫= rec; Some (outer +:+ "." +:+ inner)
  else None.
Definition dotted : Node → option string := descend None dotted_step.
Definition package_name (decl : Node) : option Node :=
  head (List.filter (λ c, bool_decide (kind c ∈ ["identifier"; "scoped_identifier"])) (children decl)).
Definition callable_label (n : Node) (label : string) : Prop :=
  kind n = "method_declaration" ∧ (∃ name, child_by_field_name "name" n = Some name ∧ label = "method " +:+ node_text name source)
  ∨ kind n = "constructor_declaration" ∧ ∃ enclosing k name, enclosing_type n = Some (enclosing, k) ∧ sound enclosing
      ∧ child_by_field_name "name" enclosing = Some name ∧ label = "constructor " +:+ node_text name source.
Definition declares (root : Node) (ty : Node) : Prop := ty ∈ named_children root ∧ is_Some (from_kind (kind ty)).
Definition interface_body_allowed (n : Node) : Prop :=
  ∃ k, k ∈ ["default"; "static"; "private"] ∧ has_modifier n source k = true.
Definition method_message (name : string) (ts : list (string * nat)) (decl : TypeDecl) : string :=
  "method " +:+ name +:+ "(" +:+ str_join "," (fst <$> ts) +:+ ") is already defined in " +:+ member_owner_keyword (td_kind decl) +:+ " " +:+ td_name decl.

Inductive violation (root : Node) (filename expected_package : option string) : Node → string → Prop :=
| repeated_modifier decl mods first tok :
    within root decl → kind decl ∈ modified_kinds → sound decl → modifiers_node decl = Some mods →
    earlier (children mods) first tok → is_named first = false → is_named tok = false → kind first = kind tok →
    violation root filename expected_package tok "repeated modifier"
| excluded_modifiers decl name a b :
    within root decl → excluded (kind decl) a b ∨ excluded (kind decl) b a → sound decl →
    written_before a b (keywords decl) → child_by_field_name "name" decl = Some name →
    violation root filename expected_package name ("illegal combination of modifiers: " +:+ a +:+ " and " +:+ b)
| interface_body method body enclosing :
    within root method → kind method = "method_declaration" → sound method → child_by_field_name "body" method = Some body →
    enclosing_type method = Some (enclosing, Interface) → sound enclosing → ¬ interface_body_allowed method →
    violation root filename expected_package body "interface abstract methods cannot have body"
| abstract_body method body enclosing k name :
    within root method → kind method = "method_declaration" → sound method → child_by_field_name "body" method = Some body →
    enclosing_type method = Some (enclosing, k) → k ≠ Interface → sound enclosing → has_modifier method source "abstract" = true →
    child_by_field_name "name" method = Some name →
    violation root filename expected_package name "abstract methods cannot have a body"
| field_twice ty decl first m name_node name :
    within root ty → from_node ty source 0 None = Some decl → earlier (own_members decl) first m →
    variable first name → variable m name →
    child_by_field_name "name" (m_node m) = Some name_node →
    violation root filename expected_package name_node
      ("variable " +:+ name +:+ " is already defined in " +:+ member_owner_keyword (td_kind decl) +:+ " " +:+ td_name decl)
| method_twice ty decl first m name_node name ts :
    within root ty → from_node ty source 0 None = Some decl → earlier (own_members decl) first m →
    signature first name ts → signature m name ts → ¬ generic first → ¬ generic m →
    child_by_field_name "name" (m_node m) = Some name_node →
    violation root filename expected_package name_node (method_message name ts decl)
| parameter_twice callable label params first p name_node name :
    within root callable → sound callable → callable_label callable label →
    child_by_field_name "parameters" callable = Some params → sound params →
    earlier (named_children params) first p → parameter first name → parameter p name →
    child_by_field_name "name" p = Some name_node →
    violation root filename expected_package name_node ("variable " +:+ name +:+ " is already defined in " +:+ label)
| type_twice first ty name_node name :
    earlier (List.filter (λ n, bool_decide (is_Some (from_kind (kind n)))) (named_children root)) first ty →
    sound first → sound ty → named_as first name → named_as ty name → child_by_field_name "name" ty = Some name_node →
    violation root filename expected_package name_node ("duplicate class: " +:+ name)
| misplaced_type file stem ty k name_node :
    filename = Some file → strip_suffix ".java" file = Some stem → declares root ty → sound ty → from_kind (kind ty) = Some k →
    has_modifier ty source "public" = true → child_by_field_name "name" ty = Some name_node → node_text name_node source ≠ stem →
    violation root filename expected_package name_node
      (filename_keyword k +:+ " " +:+ node_text name_node source +:+ " is public, should be declared in a file named " +:+ node_text name_node source +:+ ".java")
| package_missing expected :
    expected_package = Some expected → expected ≠ "" → sound root → (∃ ty, declares root ty) →
    List.filter (λ c, bool_decide (kind c = "package_declaration")) (children root) = [] →
    violation root filename expected_package (default root (head (children root))) (package_message "" expected)
| package_wrong expected decl n actual :
    expected_package = Some expected →
    List.filter (λ c, bool_decide (kind c = "package_declaration")) (children root) = [decl] → sound decl →
    package_name decl = Some n → dotted n = Some actual → node_text n source = actual → actual ≠ expected →
    violation root filename expected_package decl (package_message actual expected).

(** What is reported on the spelling alone: a method whose parameters are told
    from an earlier one's by dimensions behind their names or by type
    parameters, and a package whose name is not written as its identifiers with
    dots between them. *)
Inductive by_spelling (root : Node) (expected_package : option string) : Node → string → Prop :=
| methods_apart ty decl first m name_node name ts us :
    within root ty → from_node ty source 0 None = Some decl → earlier (own_members decl) first m →
    signature first name ts → signature m name us → fst <$> ts = fst <$> us → ts ≠ us ∨ generic first ∨ generic m →
    child_by_field_name "name" (m_node m) = Some name_node →
    by_spelling root expected_package name_node (method_message name us decl)
| package_spaced expected decl n :
    expected_package = Some expected →
    List.filter (λ c, bool_decide (kind c = "package_declaration")) (children root) = [decl] → sound decl →
    package_name decl = Some n → dotted n ≠ Some (node_text n source) → node_text n source ≠ expected →
    by_spelling root expected_package decl (package_message (node_text n source) expected).

(** ** The keys *)

(** [x] has the key [k] and an element before it has it too. *)
Definition again {A K} (key : A → option K) (l : list A) (x : A) (k : K) : Prop :=
  ∃ pre post, l = pre ++ x :: post ∧ key x = Some k ∧ ∃ y, y ∈ pre ∧ key y = Some k.
Lemma again_earlier {A K} (key : A → option K) l x k :
  again key l x k ↔ ∃ y, earlier l y x ∧ key y = Some k ∧ key x = Some k.
Proof.
  split; [intros (pre & post & E & Hx & y & Hy & Ey); exists y|intros (y & (pre & post & E & Hy) & Ey & Ex)].
  - split; [by exists pre, post|done].
  - exists pre, post. split_and!; [done..|by exists y].
Qed.
Lemma earlier_elem {A} (l : list A) y x : earlier l y x → y ∈ l ∧ x ∈ l.
Proof. intros (pre & post & -> & Hy). split; apply elem_of_app; [by left|right; by left]. Qed.
Lemma modifier_key_spec tok k : modifier_key tok = Some k ↔ is_named tok = false ∧ kind tok = k.
Proof. unfold modifier_key. destruct (is_named tok); split; [done|by intros []|by intros [= <-]|by intros [_ <-]]. Qed.
Lemma named_member_spec doc k st n m : m ∈ named_member source doc k st n →
  ∃ nn, child_by_field_name "name" (m_node m) = Some nn ∧ m_name m = node_text nn source.
Proof.
  unfold named_member. destruct (child_by_field_name "name" n) as [nn|] eqn:E; [|by intros ?%elem_of_nil].
  intros ->%list_elem_of_singleton. by exists nn.
Qed.
Lemma flat_map_elem {A B} (f : A → list B) l b : b ∈ flat_map f l ↔ ∃ a, a ∈ l ∧ b ∈ f a.
Proof. rewrite list_elem_of_In, in_flat_map. by setoid_rewrite <-list_elem_of_In. Qed.
Lemma body_members_named doc b m : m ∈ collect_body_members source doc b →
  ∃ nn, child_by_field_name "name" (m_node m) = Some nn ∧ m_name m = node_text nn source.
Proof.
  induction b as [b IH] using node_ind. unfold collect_body_members. rewrite descend_eq by apply body_step_descends.
  unfold body_step at 1. intros (c & [Hc _]%named_child_is_child & H)%flat_map_elem.
  case_bool_decide; [by apply flat_map_elem in H as (x & _ & H%named_member_spec)|].
  case_bool_decide; [by apply named_member_spec in H|]. case_bool_decide; [by apply named_member_spec in H|].
  case_bool_decide; [by eapply IH|]. destruct (from_kind (kind c)); [by apply named_member_spec in H|by apply elem_of_nil in H].
Qed.
Lemma own_members_named ty decl m : from_node ty source 0 None = Some decl → m ∈ own_members decl →
  ∃ nn, child_by_field_name "name" (m_node m) = Some nn ∧ m_name m = node_text nn source.
Proof.
  intros (_ & _ & E)%from_node_fields. unfold own_members. rewrite E. intros [H|H]%elem_of_app.
  - unfold record_components in H. destruct (td_kind decl); try by apply elem_of_nil in H.
    destruct (child_by_field_name "parameters" (td_node decl)); [|by apply elem_of_nil in H].
    apply flat_map_elem in H as (x & _ & H). rewrite E in H. by apply named_member_spec in H.
  - destruct (body decl); [by eapply body_members_named|by apply elem_of_nil in H].
Qed.
Section Keys.
Context (m : Member) (Hm : ∃ nn, child_by_field_name "name" (m_node m) = Some nn ∧ m_name m = node_text nn source).
Lemma named_spec name : named_as (m_node m) name ↔ m_name m = name.
Proof.
  destruct Hm as (nn & En & E). rewrite E. split; [intros (x & Ex & <-); congruence|intros <-]. by exists nn.
Qed.
Lemma field_key_spec name : field_key m = Some name ↔ variable m name.
Proof.
  unfold field_key, variable, sound. rewrite named_spec. assert (Hn : bool_decide (is_Some (child_by_field_name "name" (m_node m))) = true).
  { apply bool_decide_eq_true. destruct Hm as (nn & -> & _). by eexists. }
  rewrite Hn, andb_true_r. destruct (m_kind m); try (split; [done|by intros (? & _)]).
  destruct (bool_decide (kind (m_node m) = "variable_declarator")) eqn:Ek.
  2:{ apply bool_decide_eq_false in Ek. split; [done|by intros (_ & ? & _)]. }
  apply bool_decide_eq_true in Ek. destruct (has_error (m_node m)); [split; [done|by intros (_ & _ & ? & _)]|].
  destruct (parent (m_node m)) as [p|]; cbn [andb negb].
  - destruct (has_error p) eqn:Ep; cbn [negb].
    + split; [done|]. intros (_ & _ & _ & H & _). by rewrite H in Ep.
    + split; [intros [= <-]; split_and!; [done..| |done]; intros q [= <-]; done|by intros (_ & _ & _ & _ & ->)].
  - split; [by intros [= <-]; split_and!|by intros (_ & _ & _ & _ & ->)].
Qed.
Lemma plain_type_spec ps types : mapM plain_type ps = Some types ↔ ∃ ts, Forall2 formal ps ts ∧ fst <$> ts = types.
Proof.
  assert (H1 : ∀ p s, plain_type p = Some s ↔ ∃ t, formal p t ∧ t.1 = s).
  { intros p s. unfold plain_type, formal. case_bool_decide as Ek.
    - rewrite fmap_Some. split; [intros (ty & E & ->); exists (node_text ty source, dimensions p); eauto 10|].
      intros ([s' d] & (_ & (ty & E & Et) & _) & <-). by exists ty.
    - split; [done|]. by intros (t & (? & _) & _). }
  rewrite mapM_Some. split.
  - induction 1 as [|p s ps types (t & Ht & <-)%H1 _ (ts & Hts & <-)]; [by exists []|]. exists (t :: ts). by split; [constructor|].
  - intros (ts & Hts & <-). induction Hts as [|p t ps ts Ht _ IH]; [constructor|]. cbn. constructor; [apply H1; by exists t|done].
Qed.
Lemma method_key_spec name types : method_key m = Some (name, types) ↔ ∃ ts, signature m name ts ∧ fst <$> ts = types.
Proof.
  unfold method_key, signature, sound. setoid_rewrite named_spec. destruct (m_kind m); try (split; [done|by intros (? & (? & _) & _)]).
  case_bool_decide as Ek; [|split; [done|by intros (? & (_ & ? & _) & _)]].
  destruct (has_error (m_node m)); cbn [negb andb]; [split; [done|by intros (? & (_ & _ & ? & _) & _)]|].
  unfold param_types_text. destruct (child_by_field_name "parameters" (m_node m)) as [ps|].
  2:{ split; [done|]. by intros (? & (_ & _ & _ & _ & ? & ? & _) & _). }
  cbn [mbind option_bind]. destruct (has_error ps) eqn:Eps.
  { split; [done|]. intros (? & (_ & _ & _ & _ & ? & [= <-] & ? & _) & _). congruence. }
  split.
  - intros (ty & (ts & Hts & <-)%plain_type_spec & [= <- <-])%bind_Some. exists ts. split; [|done]. split_and!; [done..|]. by exists ps.
  - intros (ts & (_ & _ & _ & <- & q & [= <-] & _ & Hts) & <-). rewrite (proj2 (plain_type_spec _ (fst <$> ts))) by (by exists ts). done.
Qed.
End Keys.
Lemma param_key_spec p name : param_key p = Some name ↔ parameter p name.
Proof.
  unfold param_key, parameter, sound, named_as. destruct (has_error p); [split; [done|by intros (_ & ? & _)]|].
  case_bool_decide; [|split; [done|by intros (? & _)]]. rewrite fmap_Some. split.
  - intros (nn & E & ->). eauto 10.
  - intros (_ & _ & nn & E & <-). eauto.
Qed.
Lemma type_key_spec ty name : type_key ty = Some name ↔ sound ty ∧ named_as ty name.
Proof.
  unfold type_key, sound, named_as. destruct (has_error ty); [split; [done|by intros [? _]]|]. rewrite fmap_Some. split.
  - intros (nn & E & ->). eauto.
  - intros (_ & nn & E & <-). eauto.
Qed.
Lemma package_path_spec decl : package_path decl = (λ c, node_text c source) <$> package_name decl.
Proof. unfold package_path, package_name. f_equal. induction (children decl) as [|c cs IH]; [done|]. cbn. by destruct (bool_decide _). Qed.

Lemma repeats_spec {A K D} `{Countable K} (key : A → option K) (report : A → K → list D) d l : ∀ seen,
  d ∈ repeats key report seen l ↔
  ∃ pre x post k, l = pre ++ x :: post ∧ key x = Some k ∧ (k ∈ seen ∨ ∃ y, y ∈ pre ∧ key y = Some k) ∧ d ∈ report x k.
Proof.
  induction l as [|x l IH]; intros seen; cbn [repeats].
  { split; [by intros ?%elem_of_nil|]. by intros ([|] & ? & ? & ? & ? & _). }
  assert (Hcons : ∀ k', key x = k' → (∀ k, k' = Some k → k ∈ seen) →
    (d ∈ repeats key report seen l ↔ ∃ pre y post k, x :: l = pre ++ y :: post ∧ pre ≠ [] ∧ key y = Some k
       ∧ (k ∈ seen ∨ ∃ z, z ∈ pre ∧ key z = Some k) ∧ d ∈ report y k)).
  { intros k' Ek Hs. rewrite IH. split.
    - intros (pre & y & post & k & -> & Hk & Hor & Hd). exists (x :: pre), y, post, k. split_and!; [done|done|done| |done].
      destruct Hor as [?|(z & Hz & Ez)]; [by left|right]. exists z. split; [by right|done].
    - intros (pre & y & post & k & E & Hne & Hk & Hor & Hd). destruct pre as [|x' pre]; [done|]. injection E as <- ->.
      exists pre, y, post, k. split_and!; [done|done| |done]. destruct Hor as [?|(z & Hz & Ez)]; [by left|].
      apply elem_of_cons in Hz as [->|Hz]; [|right; by exists z]. left. apply Hs. congruence. }
  destruct (key x) as [kx|] eqn:Ek.
  2:{ rewrite (Hcons None) by done. split.
    - intros (pre & y & post & k & ? & _ & ? & ? & ?). by exists pre, y, post, k.
    - intros (pre & y & post & k & E & Hk & Hor & Hd). exists pre, y, post, k. split_and!; try done.
      intros ->. injection E as -> ->. congruence. }
  destruct (decide (kx ∈ seen)) as [Hin|Hout].
  - rewrite elem_of_app, (Hcons (Some kx)) by (done || congruence). split.
    + intros [Hd|(pre & y & post & k & ? & _ & ? & ? & ?)]; [|by exists pre, y, post, k].
      exists [], x, l, kx. split_and!; [done|done|by left|done].
    + intros (pre & y & post & k & E & Hk & Hor & Hd). destruct pre as [|x' pre].
      * injection E as -> ->. left. congruence.
      * right. by exists (x' :: pre), y, post, k.
  - rewrite IH. split.
    + intros (pre & y & post & k & -> & Hk & Hor & Hd). exists (x :: pre), y, post, k. split_and!; [done|done| |done].
      destruct Hor as [[->%elem_of_singleton|?]%elem_of_union|(z & Hz & Ez)].
      * right. exists x. split; [by left|done].
      * by left.
      * right. exists z. split; [by right|done].
    + intros (pre & y & post & k & E & Hk & Hor & Hd). destruct pre as [|x' pre].
      * injection E as -> ->. destruct Hor as [?|(z & Hz%elem_of_nil & _)]; [congruence|done].
      * injection E as <- ->. exists pre, y, post, k. split_and!; [done|done| |done]. rewrite elem_of_union, elem_of_singleton.
        destruct Hor as [?|(z & Hz & Ez)]; [by left; right|]. apply elem_of_cons in Hz as [->|Hz]; [left; left; congruence|].
        right. by exists z.
Qed.
Lemma repeats_again {A K D} `{Countable K} (key : A → option K) (report : A → K → list D) d l :
  d ∈ repeats key report ∅ l ↔ ∃ x k, again key l x k ∧ d ∈ report x k.
Proof.
  rewrite repeats_spec. split.
  - intros (pre & x & post & k & -> & Hk & [?%elem_of_empty|Hy] & Hd); [done|]. exists x, k. split; [by exists pre, post|done].
  - intros (x & k & (pre & post & -> & Hk & Hy) & Hd). exists pre, x, post, k. by split_and!; [| |right|].
Qed.

Lemma position_of_Some k ks i : position_of k ks = Some i ↔ ∃ pre post, ks = pre ++ k :: post ∧ k ∉ pre ∧ length pre = i.
Proof.
  revert i. induction ks as [|x ks IH]; intros i; cbn [position_of].
  { split; [done|]. by intros ([|] & ? & ? & _). }
  case_bool_decide as E.
  - subst x. split.
    + intros [= <-]. exists [], ks. split_and!; [done|by intros ?%elem_of_nil|done].
    + intros ([|y pre] & post & Ep & Hn & <-); [done|]. injection Ep as <- _. destruct Hn. by left.
  - split.
    + intros (j & (pre & post & -> & Hn & <-)%IH & ->)%fmap_Some. exists (x :: pre), post. split_and!; [done| |done].
      by intros [?|?]%elem_of_cons.
    + intros ([|y pre] & post & Ep & Hn & <-); [by injection Ep as -> _|]. injection Ep as <- ->.
      apply fmap_Some. exists (length pre). split; [|done]. apply IH. exists pre, post. split_and!; [done| |done].
      intros ?. apply Hn. by right.
Qed.
Lemma positions_ordered a b ks pa pb : a ≠ b → position_of a ks = Some pa → position_of b ks = Some pb →
  (pa < pb)%nat ↔ written_before a b ks.
Proof.
  intros Hab (pre & post & E & Hna & <-)%position_of_Some (pre' & post' & E' & Hnb & <-)%position_of_Some. split.
  - intros Hlt. exists pre, post. split_and!; [done|done|..].
    + intros Hb. apply Hnb. rewrite E in E'. apply (f_equal (take (length pre'))) in E'. rewrite take_app_length in E'.
      rewrite <-E', take_app_ge by lia. apply elem_of_app. by left.
    + rewrite E in E'. assert (Hb : b ∈ pre ++ a :: post) by (rewrite E'; apply elem_of_app; right; by left).
      apply elem_of_app in Hb as [Hb|[Hb|Hb]%elem_of_cons]; [|by subst|done]. exfalso. apply Hnb.
      apply (f_equal (take (length pre'))) in E'. rewrite take_app_length in E'. rewrite <-E', take_app_ge by lia. apply elem_of_app. by left.
  - intros (p & q & Ep & Ha & Hb & _). rewrite E in Ep.
    assert (pre = p).
    { clear -Ep Ha Hna. revert p Ep Ha. induction pre as [|x pre IH]; intros [|y p] Ep Ha; cbn in Ep; [done|..].
      - injection Ep as -> _. destruct Ha. by left.
      - injection Ep as -> _. destruct Hna. by left.
      - injection Ep as -> Ep. f_equal. apply IH; [|done|]; intros ?; [apply Hna|apply Ha]; by right. }
    subst p. destruct (Nat.lt_ge_cases (length pre) (length pre')) as [|Hge]; [done|exfalso].
    rewrite E in E'. destruct (decide (length pre' = length pre)) as [El|].
    + apply app_inj_1 in E' as [-> E']; [|done]. by injection E' as ->.
    + apply Hb. apply (f_equal (λ l, l !! length pre')) in E'. rewrite lookup_app_l in E' by lia.
      rewrite list_lookup_middle in E' by done. by eapply list_elem_of_lookup_2.
Qed.
Lemma position_of_elem k ks : is_Some (position_of k ks) ↔ k ∈ ks.
Proof.
  split.
  - intros [i (pre & post & -> & _)%position_of_Some]. apply elem_of_app. right. by left.
  - induction ks as [|x ks IH]; [by intros ?%elem_of_nil|]. cbn [position_of]. case_bool_decide; [by eexists|].
    intros [->|[i ->]%IH]%elem_of_cons; [done|]. by eexists.
Qed.
Lemma written_before_positions a b ks : a ≠ b → written_before a b ks ↔
  ∃ pa pb, position_of a ks = Some pa ∧ position_of b ks = Some pb ∧ (pa < pb)%nat.
Proof.
  intros Hab. split.
  - intros H. destruct (position_of_elem a ks) as [_ [pa Ha]].
    { destruct H as (pre & post & -> & _). apply elem_of_app. right. by left. }
    destruct (position_of_elem b ks) as [_ [pb Hb]].
    { destruct H as (pre & post & -> & _ & _ & ?). apply elem_of_app. right. by right. }
    exists pa, pb. split_and!; [done|done|]. by eapply positions_ordered.
  - intros (pa & pb & Ha & Hb & ?). by eapply positions_ordered.
Qed.

Lemma at_name_elem n message f : f ∈ at_name n message ↔ ∃ name, child_by_field_name "name" n = Some name ∧ f = (name, message).
Proof.
  unfold at_name. destruct (child_by_field_name "name" n) as [name|]; [rewrite list_elem_of_singleton|].
  - split; [intros ->; by eexists|]. by intros (? & [= <-] & ->).
  - split; [by intros ?%elem_of_nil|]. by intros (? & ? & _).
Qed.
Lemma when_elem {A} b (l : list A) x : x ∈ when b l ↔ b = true ∧ x ∈ l.
Proof. destruct b; cbn; [tauto|]. split; [by intros ?%elem_of_nil|]. by intros [? _]. Qed.

Lemma repeated_modifiers_elem decl f : f ∈ check_repeated_modifiers decl ↔
  ∃ mods tok k, sound decl ∧ modifiers_node decl = Some mods ∧ again modifier_key (children mods) tok k ∧ f = (tok, "repeated modifier").
Proof.
  unfold check_repeated_modifiers, sound. destruct (has_error decl).
  { split; [by intros ?%elem_of_nil|]. by intros (? & ? & ? & ? & _). }
  destruct (modifiers_node decl) as [mods|].
  2:{ split; [by intros ?%elem_of_nil|]. by intros (? & ? & ? & _ & ? & _). }
  rewrite repeats_again. setoid_rewrite list_elem_of_singleton. split.
  - intros (tok & k & Ha & ->). by exists mods, tok, k.
  - intros (m & tok & k & _ & [= <-] & Ha & ->). by exists tok, k.
Qed.
Lemma modifier_combo_elem a b decl f : a ≠ b → f ∈ check_modifier_combo a b decl ↔
  ∃ x y name, (x, y) ∈ [(a, b); (b, a)] ∧ sound decl ∧ written_before x y (keywords decl) ∧ child_by_field_name "name" decl = Some name
    ∧ f = (name, "illegal combination of modifiers: " +:+ x +:+ " and " +:+ y).
Proof.
  intros Hab. unfold check_modifier_combo, sound, keywords. destruct (has_error decl).
  { split; [by intros ?%elem_of_nil|]. by intros (? & ? & ? & _ & ? & _). }
  destruct (modifiers_node decl) as [mods|].
  2:{ split; [by intros ?%elem_of_nil|]. by intros (? & ? & ? & _ & _ & ([|] & ? & ? & _) & _). }
  set (ks := kind <$> _). clearbody ks. split.
  - destruct (position_of a ks) as [pa|] eqn:Ea, (position_of b ks) as [pb|] eqn:Eb; try by intros ?%elem_of_nil.
    destruct (Nat.ltb_spec pa pb) as [Hlt|Hge]; intros (name & Hn & ->)%at_name_elem.
    + exists a, b, name. split_and!; [by left|done| |done|done]. by eapply positions_ordered.
    + exists b, a, name. split_and!; [right; by left|done| |done|done]. eapply positions_ordered; [done..|].
      destruct (decide (pa = pb)) as [->|]; [exfalso|lia].
      apply position_of_Some in Ea as (p1 & q1 & E1 & _ & L1), Eb as (p2 & q2 & E2 & _ & L2). rewrite E1 in E2.
      apply app_inj_1 in E2 as [_ E2]; [|lia]. by injection E2.
  - intros (x & y & name & Hxy & _ & Hw & Hn & ->). apply elem_of_cons in Hxy as [[= -> ->]|[= -> ->]%list_elem_of_singleton].
    + apply written_before_positions in Hw as (pa & pb & -> & -> & Hlt%Nat.ltb_lt); [|done]. rewrite Hlt. apply at_name_elem. by exists name.
    + apply written_before_positions in Hw as (pb & pa & -> & -> & Hlt); [|done]. rewrite (proj2 (Nat.ltb_ge pa pb)) by lia.
      apply at_name_elem. by exists name.
Qed.

Lemma body_shape_elem method f : f ∈ check_method_body_shape method ↔
  sound method ∧ ∃ body enclosing k, child_by_field_name "body" method = Some body ∧ enclosing_type method = Some (enclosing, k) ∧ sound enclosing
    ∧ (k = Interface ∧ ¬ interface_body_allowed method ∧ f = (body, "interface abstract methods cannot have body")
       ∨ k ≠ Interface ∧ has_modifier method source "abstract" = true
         ∧ ∃ name, child_by_field_name "name" method = Some name ∧ f = (name, "abstract methods cannot have a body")).
Proof.
  unfold check_method_body_shape, sound.
  assert (Ha : interface_body_allowed method ↔
    has_modifier method source "default" || has_modifier method source "static" || has_modifier method source "private" = true).
  { unfold interface_body_allowed. rewrite !orb_true_iff. setoid_rewrite elem_of_cons. setoid_rewrite elem_of_cons.
    setoid_rewrite list_elem_of_singleton. split; [intros (k & [-> | [-> | ->]] & H); tauto|]. intros [[H|H]|H]; eauto. }
  destruct (has_error method); [split; [by intros ?%elem_of_nil|by intros [? _]]|].
  destruct (child_by_field_name "body" method) as [body|].
  2:{ split; [by intros ?%elem_of_nil|]. by intros (_ & ? & ? & ? & ? & _). }
  destruct (enclosing_type method) as [[enclosing k]|].
  2:{ split; [by intros ?%elem_of_nil|]. by intros (_ & ? & ? & ? & _ & ? & _). }
  destruct (has_error enclosing) eqn:He.
  { split; [by intros ?%elem_of_nil|]. intros (_ & ? & ? & ? & _ & [= <- <-] & ? & _). congruence. }
  split.
  - intros H. split; [done|]. exists body, enclosing, k. split_and!; [done..|]. revert H. case_bool_decide as Ek.
    + destruct (_ || _) eqn:Eb; [by intros ?%elem_of_nil|]. intros ->%list_elem_of_singleton. left. split_and!; [done| |done].
      intros H%Ha. done.
    + destruct (has_modifier method source "abstract"); [|by intros ?%elem_of_nil]. intros (name & Hn & ->)%at_name_elem.
      right. split_and!; [done|done|]. by exists name.
  - intros (_ & b & e & k' & [= <-] & [= <- <-] & _ & Hor). destruct Hor as [(-> & Hn & ->)|(Hk & -> & name & Hn & ->)].
    + rewrite bool_decide_eq_true_2 by done. destruct (_ || _) eqn:Eb; [by destruct Hn; apply Ha|]. by left.
    + rewrite bool_decide_eq_false_2 by done. apply at_name_elem. by exists name.
Qed.
Lemma duplicate_members_elem ty f : f ∈ check_duplicate_members ty ↔ ∃ decl, from_node ty source 0 None = Some decl ∧
  let owner := member_owner_keyword (td_kind decl) +:+ " " +:+ td_name decl in
  ((∃ m name name_node, again field_key (own_members decl) m name ∧ child_by_field_name "name" (m_node m) = Some name_node
      ∧ f = (name_node, "variable " +:+ name +:+ " is already defined in " +:+ owner))
   ∨ ∃ m name types name_node, again method_key (own_members decl) m (name, types) ∧ child_by_field_name "name" (m_node m) = Some name_node
      ∧ f = (name_node, "method " +:+ name +:+ "(" +:+ str_join "," types +:+ ") is already defined in " +:+ owner)).
Proof.
  unfold check_duplicate_members. destruct (from_node ty source 0 None) as [decl|].
  2:{ split; [by intros ?%elem_of_nil|]. by intros (? & ? & _). }
  cbv zeta. rewrite elem_of_app, !repeats_again. setoid_rewrite at_name_elem. split.
  - intros H. exists decl. split; [done|]. destruct H as [(m & name & Ha & nn & Hn & ->)|(m & [name types] & Ha & H)]; [left; eauto 10|].
    apply at_name_elem in H as (nn & Hn & ->). right. eauto 10.
  - intros (d & [= <-] & [(m & name & nn & Ha & Hn & ->)|(m & name & types & nn & Ha & Hn & ->)]); [left; eauto 10|].
    right. exists m, (name, types). split; [done|]. apply at_name_elem. eauto.
Qed.
Lemma duplicate_params_elem label decl f : f ∈ check_duplicate_params label decl ↔
  ∃ params p name_node name, child_by_field_name "parameters" decl = Some params ∧ sound params
    ∧ again param_key (named_children params) p name ∧ child_by_field_name "name" p = Some name_node
    ∧ f = (name_node, "variable " +:+ name +:+ " is already defined in " +:+ label).
Proof.
  unfold check_duplicate_params, sound. destruct (child_by_field_name "parameters" decl) as [params|].
  2:{ split; [by intros ?%elem_of_nil|]. by intros (? & ? & ? & ? & ? & _). }
  destruct (has_error params) eqn:He.
  { split; [by intros ?%elem_of_nil|]. intros (? & ? & ? & ? & [= <-] & ? & _). congruence. }
  rewrite repeats_again. setoid_rewrite at_name_elem. split.
  - intros (p & name & Ha & nn & Hn & ->). eauto 10.
  - intros (ps & p & nn & name & [= <-] & _ & Ha & Hn & ->). eauto 10.
Qed.
Lemma filename_elem top filename f : f ∈ check_filename top filename ↔ ∃ file stem ty k name_node,
  filename = Some file ∧ strip_suffix ".java" file = Some stem ∧ ty ∈ top ∧ sound ty ∧ from_kind (kind ty) = Some k
  ∧ has_modifier ty source "public" = true ∧ child_by_field_name "name" ty = Some name_node ∧ node_text name_node source ≠ stem
  ∧ f = (name_node, filename_keyword k +:+ " " +:+ node_text name_node source +:+ " is public, should be declared in a file named "
           +:+ node_text name_node source +:+ ".java").
Proof.
  unfold check_filename. destruct filename as [file|]; [|split; [by intros ?%elem_of_nil|by intros (? & ? & ? & ? & ? & ? & _)]].
  cbn [mbind option_bind]. destruct (strip_suffix ".java" file) as [stem|] eqn:Es.
  2:{ split; [by intros ?%elem_of_nil|]. intros (? & ? & ? & ? & ? & [= <-] & ? & _). congruence. }
  rewrite list_elem_of_In, in_flat_map. setoid_rewrite <-list_elem_of_In. unfold misplaced, sound. split.
  - intros (ty & Hty & Hf). destruct (has_error ty) eqn:He; [by apply elem_of_nil in Hf|].
    destruct (from_kind (kind ty)) as [k|] eqn:Ek; [|by apply elem_of_nil in Hf].
    destruct (child_by_field_name "name" ty) as [nn|] eqn:En; [|by apply elem_of_nil in Hf].
    destruct (has_modifier ty source "public") eqn:Ep; [|by apply elem_of_nil in Hf]. cbn [andb] in Hf. revert Hf. case_bool_decide; [by intros ?%elem_of_nil|].
    intros ->%list_elem_of_singleton. by exists file, stem, ty, k, nn.
  - intros (fi & st & ty & k & nn & [= <-] & Es' & Hty & He & Hk & Hp & Hn & Hne & ->). rewrite Es in Es'. injection Es' as <-.
    exists ty. split; [done|]. rewrite He, Hk, Hn, Hp, bool_decide_eq_false_2 by done. by left.
Qed.
Lemma package_elem root expected_package f : f ∈ check_package root expected_package ↔ ∃ expected, expected_package = Some expected ∧
  let decls := List.filter (λ c, bool_decide (kind c = "package_declaration")) (children root) in
  (decls = [] ∧ expected ≠ "" ∧ sound root ∧ (∃ ty, declares root ty) ∧ f = (default root (head (children root)), package_message "" expected)
   ∨ ∃ decl actual, decls = [decl] ∧ sound decl ∧ package_path decl = Some actual ∧ actual ≠ expected
       ∧ f = (decl, package_message actual expected)).
Proof.
  unfold check_package, sound. destruct expected_package as [expected|]; [|split; [by intros ?%elem_of_nil|by intros (? & ? & _)]].
  assert (Hd : declares_a_type root = true ↔ ∃ ty, declares root ty).
  { unfold declares_a_type, declares. rewrite existsb_exists. setoid_rewrite <-list_elem_of_In. by setoid_rewrite bool_decide_eq_true. }
  cbv zeta. destruct (List.filter _ (children root)) as [|decl [|]].
  - split.
    + destruct (declares_a_type root && _ && _) eqn:E; [|by intros ?%elem_of_nil]. intros ->%list_elem_of_singleton.
      apply andb_true_iff in E as [[E1 E2%negb_true_iff%bool_decide_eq_false]%andb_true_iff E3%negb_true_iff].
      exists expected. split; [done|]. left. split_and!; [done|done|done|by apply Hd|done].
    + intros (e & [= <-] & [(_ & Hne & Hs & Ht%Hd & ->)|(? & ? & ? & _)]); [|done]. rewrite Ht, Hs, bool_decide_eq_false_2 by done. by left.
  - split.
    + destruct (has_error decl) eqn:He; [by intros ?%elem_of_nil|]. destruct (package_path decl) as [actual|] eqn:Ep; [|by intros ?%elem_of_nil].
      case_bool_decide; [by intros ?%elem_of_nil|]. intros ->%list_elem_of_singleton. exists expected. split; [done|]. right.
      by exists decl, actual.
    + intros (e & [= <-] & [(? & _)|(d & a & [= <-] & -> & -> & Hne & ->)]); [done|]. rewrite bool_decide_eq_false_2 by done. by left.
  - split; [by intros ?%elem_of_nil|]. by intros (e & _ & [(? & _)|(? & ? & ? & _)]).
Qed.

(** ** Every violation and nothing else *)

Section Found.
Context (root : Node) (filename expected_package : option string).
Notation violates n message := (violation root filename expected_package n message ∨ by_spelling root expected_package n message).
Lemma file_findings_elem f : f ∈ file_findings root filename expected_package → violates f.1 f.2.
Proof.
  unfold file_findings. intros [H|[H|H]%elem_of_app]%elem_of_app.
  - apply filename_elem in H as (file & stem & ty & k & nn & -> & Es & Hty & He & Hk & Hp & Hn & Hne & ->).
    apply list_elem_of_In, filter_In in Hty as [Hty%list_elem_of_In Htk%bool_decide_eq_true]. left. by eapply misplaced_type.
  - apply repeats_again in H as (ty & name & (first & Hf & [? ?]%type_key_spec & [? ?]%type_key_spec)%again_earlier & (nn & Hn & ->)%at_name_elem).
    left. by eapply type_twice.
  - apply package_elem in H as (e & -> & [(Hf & Hne & Hs & Hd & ->)|(decl & actual & Hf & Hs & Hp & Hne & ->)]); [left; by eapply package_missing|].
    rewrite package_path_spec in Hp. apply fmap_Some in Hp as (n & Hn & ->).
    destruct (decide (dotted n = Some (node_text n source))); [left; by eapply package_wrong|right; by eapply package_spaced].
Qed.
Lemma type_kinds_checked k : k ∈ type_decl_kinds ↔ is_Some (from_kind k).
Proof.
  split.
  - intros H. apply list_elem_of_In in H. by repeat destruct H as [<-|H].
  - intros [x Hx]. unfold from_kind in Hx. repeat (case_bool_decide as E; [subst k; apply (bool_decide_eq_true_1 (_ ∈ _)); by vm_compute|clear E]). done.
Qed.
Lemma members_sound n f : within root n → f ∈ check_duplicate_members n → violates f.1 f.2.
Proof.
  intros Hw (decl & Hd & [(m & name & nn & (first & He & H1 & H2)%again_earlier & Hn & ->)
                         |(m & name & types & nn & (first & He & H1 & H2)%again_earlier & Hn & ->)])%duplicate_members_elem;
    destruct (earlier_elem _ _ _ He) as [Hf Hm]; pose proof (own_members_named _ _ _ Hd Hf) as Nf;
    pose proof (own_members_named _ _ _ Hd Hm) as Nm.
  - apply field_key_spec in H1, H2; [|done..]. left. by eapply field_twice.
  - apply method_key_spec in H1 as (ts & H1 & Et), H2 as (us & H2 & <-); [|done..].
    change (violates nn (method_message name us decl)).
    destruct (decide (ts ≠ us ∨ is_Some (child_by_field_name "type_parameters" (m_node first)) ∨ is_Some (child_by_field_name "type_parameters" (m_node m)))) as [Hn'|Hn']; [right; by eapply methods_apart|left].
    assert (ts = us) as -> by (destruct (decide (ts = us)); tauto). eapply method_twice; [done..| | |done]; unfold generic; tauto.
Qed.
Lemma check_node_sound n f : within root n → f ∈ check_node n → violates f.1 f.2.
Proof.
  intros Hw. unfold check_node.
  assert (Hrep : kind n ∈ modified_kinds → f ∈ check_repeated_modifiers n → violates f.1 f.2).
  { intros Hk (mods & tok & k & Hs & Hm & (first & He & [? ?]%modifier_key_spec & [? ?]%modifier_key_spec)%again_earlier & ->)%repeated_modifiers_elem.
    left. eapply repeated_modifier; [done..|]; cbn [fst]; congruence. }
  assert (Hcombo : ∀ a b, a ≠ b → excluded (kind n) a b → f ∈ check_modifier_combo a b n → violates f.1 f.2).
  { intros a b Hab Hx H. apply modifier_combo_elem in H as (x & y & name & Hxy & Hs & Hb & Hn & ->); [|done].
    left. eapply excluded_modifiers; [done| |done..]. by apply elem_of_cons in Hxy as [[= -> ->]|[= -> ->]%list_elem_of_singleton]; [left|right]. }
  assert (Hparams : ∀ label, sound n → callable_label n label → f ∈ check_duplicate_params label n → violates f.1 f.2).
  { intros label Hs Hl (ps & p & nn & name & Hp & Hsp & (first & He & ?%param_key_spec & ?%param_key_spec)%again_earlier & Hn & ->)%duplicate_params_elem.
    left. by eapply parameter_twice. }
  case_bool_decide as Hk.
  { rewrite !elem_of_app, !when_elem, !bool_decide_eq_true. intros [H|[[Hc H]|[[Hc H]|H]]].
    - apply Hrep; [|done]. unfold modified_kinds. apply elem_of_app. by left.
    - apply (Hcombo "abstract" "final"); [done|by left|done].
    - apply (Hcombo "sealed" "non-sealed"); [done|right; by left|done].
    - by eapply members_sound. }
  case_bool_decide as Hm.
  { rewrite !elem_of_app, when_elem, negb_true_iff. intros [H|[H|[H|[H|[Hs H]]]]].
    - apply Hrep; [|done]. rewrite Hm. apply (bool_decide_eq_true_1 (_ ∈ _)). by vm_compute.
    - apply (Hcombo "abstract" "final"); [done|right; right|done]. split_and!; [done|done|by left].
    - apply (Hcombo "abstract" "private"); [done|right; right|done]. split_and!; [done|done|right; by left].
    - apply body_shape_elem in H as (Hs & body & e & k & Hb & He & Hse & [(-> & Hn & ->)|(Hk' & Ha & name & Hn & ->)]); left; [by eapply interface_body|by eapply abstract_body].
    - destruct (child_by_field_name "name" n) as [name|] eqn:En; [|by apply elem_of_nil in H]. eapply Hparams; [done| |done]. left. eauto. }
  case_bool_decide as Hc.
  { rewrite !elem_of_app, when_elem, negb_true_iff. intros [H|[Hs H]].
    - apply Hrep; [|done]. rewrite Hc. apply (bool_decide_eq_true_1 (_ ∈ _)). by vm_compute.
    - destruct (enclosing_type n) as [[e k]|] eqn:Ee; [|by apply elem_of_nil in H]. apply when_elem in H as [Hse%negb_true_iff H].
      destruct (child_by_field_name "name" e) as [name|] eqn:En; [|by apply elem_of_nil in H]. eapply Hparams; [done| |done]. right. eauto 10. }
  case_bool_decide as Hf; [|by intros ?%elem_of_nil]. apply Hrep. unfold modified_kinds. apply elem_of_app. right.
  apply list_elem_of_In in Hf. destruct Hf as [<-|[<-|[]]]; apply (bool_decide_eq_true_1 (_ ∈ _)); by vm_compute.
Qed.

(** Where each violation is found. *)
Lemma callable_found n label f : sound n → callable_label n label → f ∈ check_duplicate_params label n → f ∈ check_node n.
Proof.
  intros Hs [(Hk & name & Hn & ->)|(Hk & e & k & name & He & Hse & Hn & ->)] H; unfold check_node; rewrite Hk.
  - change (bool_decide ("method_declaration" ∈ type_decl_kinds)) with false. change (bool_decide ("method_declaration" = "method_declaration")) with true.
    cbv iota. rewrite Hs, Hn, !elem_of_app. cbn [negb when]. tauto.
  - change (bool_decide ("constructor_declaration" ∈ type_decl_kinds)) with false. change (bool_decide ("constructor_declaration" = "method_declaration")) with false.
    change (bool_decide ("constructor_declaration" = "constructor_declaration")) with true. cbv iota. rewrite Hs, He, Hse, Hn, !elem_of_app. cbn [negb when]. tauto.
Qed.
Lemma repeated_found n f : kind n ∈ modified_kinds → f ∈ check_repeated_modifiers n → f ∈ check_node n.
Proof.
  intros Hk H. unfold check_node. case_bool_decide as H1; [apply elem_of_app; by left|].
  case_bool_decide as H2; [apply elem_of_app; by left|]. case_bool_decide as H3; [apply elem_of_app; by left|].
  rewrite bool_decide_eq_true_2; [done|]. unfold modified_kinds in Hk. apply elem_of_app in Hk as [?|Hk]; [done|].
  apply elem_of_cons in Hk as [?|Hk]; [done|]. apply elem_of_cons in Hk as [?|Hk]; [done|exact Hk].
Qed.
Lemma combo_found n a b f : excluded (kind n) a b → f ∈ check_modifier_combo a b n → f ∈ check_node n.
Proof.
  intros Hx H. unfold check_node. destruct Hx as [(Hk & -> & ->)|[(Hk & -> & ->)|(Hk & -> & Hb)]].
  - rewrite Hk. rewrite bool_decide_eq_true_2 by (apply (bool_decide_eq_true_1 (_ ∈ _)); by vm_compute). rewrite !elem_of_app, !when_elem. tauto.
  - rewrite bool_decide_eq_true_2.
    + rewrite !elem_of_app, !when_elem, !bool_decide_eq_true. tauto.
    + apply list_elem_of_In in Hk. destruct Hk as [<-|[<-|[]]]; apply (bool_decide_eq_true_1 (_ ∈ _)); by vm_compute.
  - rewrite Hk. change (bool_decide ("method_declaration" ∈ type_decl_kinds)) with false. change (bool_decide ("method_declaration" = "method_declaration")) with true.
    cbv iota. rewrite !elem_of_app. apply elem_of_cons in Hb as [->| ->%list_elem_of_singleton]; tauto.
Qed.
Lemma method_found n f : kind n = "method_declaration" → f ∈ check_method_body_shape n → f ∈ check_node n.
Proof.
  intros Hk H. unfold check_node. rewrite Hk. change (bool_decide ("method_declaration" ∈ type_decl_kinds)) with false.
  change (bool_decide ("method_declaration" = "method_declaration")) with true. cbv iota. rewrite !elem_of_app. tauto.
Qed.
Lemma members_found n decl f : from_node n source 0 None = Some decl → f ∈ check_duplicate_members n → f ∈ check_node n.
Proof.
  intros Hd H. unfold check_node. rewrite bool_decide_eq_true_2; [rewrite !elem_of_app; tauto|]. apply type_kinds_checked.
  unfold from_node in Hd. apply bind_Some in Hd as (k & -> & _). by eexists.
Qed.
Definition all_findings : list Finding := file_findings root filename expected_package ++ flat_map check_node (visited root).
Lemma combo_swap a b n f : a ≠ b → f ∈ check_modifier_combo a b n ↔ f ∈ check_modifier_combo b a n.
Proof.
  intros Hab. rewrite !modifier_combo_elem by done. split; intros (x & y & name & Hxy & H); exists x, y, name;
    (split; [apply elem_of_cons in Hxy as [->| ->%list_elem_of_singleton]; [right; by left|by left]|done]).
Qed.
Lemma excluded_apart k a b : excluded k a b → a ≠ b.
Proof. intros [(_ & -> & ->)|[(_ & -> & ->)|(_ & -> & Hb)]]; [done..|]. by intros <-; apply list_elem_of_In in Hb; repeat destruct Hb as [Hb|Hb]. Qed.
Lemma methods_found ty decl first m nn name ts us : within root ty → from_node ty source 0 None = Some decl →
  earlier (own_members decl) first m → signature first name ts → signature m name us → fst <$> ts = fst <$> us →
  child_by_field_name "name" (m_node m) = Some nn → (nn, method_message name us decl) ∈ check_node ty.
Proof.
  intros Hw Hd He H1 H2 E Hn. eapply members_found; [done|]. apply duplicate_members_elem. exists decl. split; [done|]. right.
  exists m, name, (fst <$> us), nn. split; [|done]. destruct (earlier_elem _ _ _ He) as [Hf Hm]. apply again_earlier. exists first.
  split; [done|]. split; (apply method_key_spec; [by eapply own_members_named|]); [by exists ts|by exists us].
Qed.
Lemma package_found expected decl n : expected_package = Some expected →
  List.filter (λ c, bool_decide (kind c = "package_declaration")) (children root) = [decl] → sound decl →
  package_name decl = Some n → node_text n source ≠ expected →
  (decl, package_message (node_text n source) expected) ∈ check_package root expected_package.
Proof.
  intros E Hf Hs Hp Hne. apply package_elem. exists expected. split; [done|]. right. exists decl, (node_text n source).
  by rewrite package_path_spec, Hp.
Qed.
Lemma violation_found n message : violates n message → (n, message) ∈ all_findings.
Proof.
  assert (Hnode : ∀ m f, within root m → f ∈ check_node m → f ∈ all_findings).
  { intros m f Hm Hf. unfold all_findings. apply elem_of_app. right. apply list_elem_of_In, in_flat_map. exists m.
    by rewrite <-!list_elem_of_In, visited_within. }
  assert (Hfile : ∀ f, f ∈ file_findings root filename expected_package → f ∈ all_findings) by (intros f Hf; apply elem_of_app; by left).
  assert (Hpackage : ∀ f, f ∈ check_package root expected_package → f ∈ all_findings).
  { intros f Hf. apply Hfile. unfold file_findings. rewrite !elem_of_app. by right; right. }
  intros [H|[ty decl first m nn name ts us Hw Hd He H1 H2 Et _ Hn|expected decl x E Hf Hs Hp _ Hne]].
  2:{ apply (Hnode ty); [done|]. by eapply methods_found. }
  2:{ apply Hpackage. by apply package_found. }
  destruct H as [decl mods first tok Hw Hk Hs Hm He H1 H2 Ek|decl name a b Hw Hx Hs Hb Hn|method body e Hw Hk Hs Hb He Hse Hn|
    method body e k name Hw Hk Hs Hb He Hni Hse Ha Hn|ty decl first m nn name Hw Hd He H1 H2 Hn|ty decl first m nn name ts Hw Hd He H1 H2 _ _ Hn|
    callable label ps first p nn name Hw Hs Hl Hp Hsp He H1 H2 Hn|first ty nn name He S1 S2 N1 N2 Hn|file stem ty k nn E1 E2 [Hd1 Hd2] Hs Hk Hp Hn Hne|
    expected E Hne Hs Hd Hf|expected decl x actual E Hf Hs Hp _ <- Hne].
  - apply (Hnode decl); [done|]. apply repeated_found; [done|]. apply repeated_modifiers_elem. exists mods, tok, (kind tok).
    split_and!; [done..| |done]. apply again_earlier. exists first. by rewrite !modifier_key_spec.
  - apply (Hnode decl); [done|]. destruct Hx as [Hx|Hx]; (pose proof (excluded_apart _ _ _ Hx) as Hne).
    + apply (combo_found decl a b); [done|]. apply modifier_combo_elem; [done|]. exists a, b, name. split; [by left|done].
    + apply (combo_found decl b a); [done|]. apply modifier_combo_elem; [done|]. exists a, b, name. split; [right; by left|done].
  - apply (Hnode method); [done|]. apply method_found; [done|]. apply body_shape_elem. split; [done|]. exists body, e, Interface. split_and!; [done..|].
    by left.
  - apply (Hnode method); [done|]. apply method_found; [done|]. apply body_shape_elem. split; [done|]. exists body, e, k. split_and!; [done..|].
    right. eauto.
  - apply (Hnode ty); [done|]. eapply members_found; [done|]. apply duplicate_members_elem. exists decl. split; [done|]. left.
    exists m, name, nn. split; [|done]. destruct (earlier_elem _ _ _ He). apply again_earlier. exists first. split; [done|].
    by split; (apply field_key_spec; [by eapply own_members_named|]).
  - apply (Hnode ty); [done|]. by eapply methods_found.
  - apply (Hnode callable); [done|]. eapply callable_found; [done..|]. apply duplicate_params_elem.
    exists ps, p, nn, name. split_and!; [done..| |done|done]. apply again_earlier. exists first. by rewrite !param_key_spec.
  - apply Hfile. unfold file_findings. rewrite !elem_of_app. right. left. apply repeats_again. exists ty, name.
    split; [|apply at_name_elem; eauto]. apply again_earlier. exists first. by rewrite !type_key_spec.
  - apply Hfile. unfold file_findings. rewrite !elem_of_app. left. apply filename_elem. exists file, stem, ty, k, nn. split_and!; try done.
    apply list_elem_of_In, filter_In. rewrite <-list_elem_of_In, bool_decide_eq_true. done.
  - apply Hpackage, package_elem. exists expected. split; [done|]. by left.
  - apply Hpackage. by apply package_found.
Qed.

Lemma check_loop_all fuel : ∀ out stack, (list_sum (size <$> stack) ≤ fuel)%nat →
  ∃ r, check_loop fuel out stack = Some r
    ∧ take MAX_DIAGNOSTICS r = take MAX_DIAGNOSTICS (out ++ flat_map check_node (flat_map visited stack)).
Proof.
  induction fuel as [|fuel IH]; intros out [|n stack] Hf; cbn [check_loop].
  1,3: exists out; by rewrite app_nil_r.
  - exfalso. unfold size, list_sum in Hf. simpl in Hf. destruct (here n). simpl in Hf. lia.
  - destruct (Nat.leb_spec MAX_DIAGNOSTICS (length out)).
    { exists out. split; [done|]. by rewrite take_app_le by lia. }
    destruct (IH (out ++ check_node n) (rev (children n) ++ stack)) as (r & -> & Er).
    + rewrite fmap_cons in Hf. change (size n + list_sum (size <$> stack) ≤ S fuel)%nat in Hf.
      rewrite fmap_app, list_sum_app. change (size <$> rev (children n)) with (map size (rev (children n))).
      rewrite List.map_rev, list_sum_rev. pose proof (size_children n). change (map size (children n)) with (size <$> children n). lia.
    + exists r. split; [done|]. rewrite Er. cbn [flat_map]. rewrite (visited_eq n). cbn [app flat_map].
      by rewrite flat_map_app, <-!app_assoc.
Qed.
End Found.

End Checks.

(** ** Examples *)

Module Sample.
Definition messages (doc : OpenDoc) (expected_package : option string) : list string :=
  Lsp.d_message <$> structural_diagnostics (od_source doc) (LineIndex.new (od_source doc) LineIndex.Utf16Units) (od_tree doc) None expected_package.

(** The dimensions behind a parameter's name are not part of the text that is
    compared: two overloads are taken for one method. *)
Definition doc_overloads : OpenDoc := mkOpenDoc "class A { void m(int a) { } void m(int a[]) { } }" (
    node 1 "program" 0 49 [node 2 "class_declaration" 0 49 [token 3 "class" 0 5; field "name" (node 4 "identifier" 6
    7 []); field "body" (node 5 "class_body" 8 49 [token 6 "{" 8 9; node 7 "method_declaration" 10 27 [field "type"
    (node 8 "void_type" 10 14 []); field "name" (node 9 "identifier" 15 16 []); field "parameters" (node 10
    "formal_parameters" 16 23 [token 11 "(" 16 17; node 12 "formal_parameter" 17 22 [field "type" (node 13
    "integral_type" 17 20 []); field "name" (node 14 "identifier" 21 22 [])]; token 15 ")" 22 23]); field "body"
    (node 16 "block" 24 27 [token 17 "{" 24 25; token 18 "}" 26 27])]; node 19 "method_declaration" 28 47 [field
    "type" (node 20 "void_type" 28 32 []); field "name" (node 21 "identifier" 33 34 []); field "parameters" (node 22
    "formal_parameters" 34 43 [token 23 "(" 34 35; node 24 "formal_parameter" 35 42 [field "type" (node 25
    "integral_type" 35 38 []); field "name" (node 26 "identifier" 39 40 []); field "dimensions" (node 27
    "dimensions" 40 42 [token 28 "[" 40 41; token 29 "]" 41 42])]; token 30 ")" 42 43]); field "body" (node 31
    "block" 44 47 [token 32 "{" 44 45; token 33 "}" 46 47])]; token 34 "}" 48 49])]]).
Example overloads_rejected : messages doc_overloads None = ["method m(int) is already defined in class A"].
Proof. by vm_compute. Qed.

(** Blanks inside a package's name count as part of it. *)
Definition doc_spaced : OpenDoc := mkOpenDoc "package a . b; class A { }" (
    node 1 "program" 0 26 [node 2 "package_declaration" 0 14 [token 3 "package" 0 7; node 4 "scoped_identifier" 8 13
    [field "scope" (node 5 "identifier" 8 9 []); token 6 "." 10 11; field "name" (node 7 "identifier" 12 13
    [])]; token 8 ";" 13 14]; node 9 "class_declaration" 15 26 [token 10 "class" 15 20; field "name" (node 11 "identifier" 21 22 []); field "body"
    (node 12 "class_body" 23 26 [token 13 "{" 23 24; token 14 "}" 25 26])]]).
Example spaced_package_rejected : messages doc_spaced (Some "a.b") = [package_message "a . b" "a.b"].
Proof. by vm_compute. Qed.

(** Type parameters of one name and different bounds: two overloads are taken
    for one method. *)
Definition doc_generic : OpenDoc := mkOpenDoc "class A { <T extends B> void m(T a) { } <T extends C> void m(T a) { } }" (
    node 1 "program" 0 71 [node 2 "class_declaration" 0 71 [token 3 "class" 0 5; field "name" (node 4 "identifier" 6
    7 []); field "body" (node 5 "class_body" 8 71 [token 6 "{" 8 9; node 7 "method_declaration" 10 39 [field
    "type_parameters" (node 8 "type_parameters" 10 23 [token 9 "<" 10 11; node 10 "type_parameter" 11 22 [node 11
    "type_identifier" 11 12 []; node 12 "type_bound" 13 22 [token 13 "extends" 13 20; node 14 "type_identifier" 21
    22 []]]; token 15 ">" 22 23]); field "type" (node 16 "void_type" 24 28 []); field "name" (node 17 "identifier"
    29 30 []); field "parameters" (node 18 "formal_parameters" 30 35 [token 19 "(" 30 31; node 20 "formal_parameter"
    31 34 [field "type" (node 21 "type_identifier" 31 32 []); field "name" (node 22 "identifier" 33 34 [])]; token
    23 ")" 34 35]); field "body" (node 24 "block" 36 39 [token 25 "{" 36 37; token 26 "}" 38 39])]; node 27
    "method_declaration" 40 69 [field "type_parameters" (node 28 "type_parameters" 40 53 [token 29 "<" 40 41; node
    30 "type_parameter" 41 52 [node 31 "type_identifier" 41 42 []; node 32 "type_bound" 43 52 [token 33 "extends" 43
    50; node 34 "type_identifier" 51 52 []]]; token 35 ">" 52 53]); field "type" (node 36 "void_type" 54 58 []);
    field "name" (node 37 "identifier" 59 60 []); field "parameters" (node 38 "formal_parameters" 60 65 [token 39
    "(" 60 61; node 40 "formal_parameter" 61 64 [field "type" (node 41 "type_identifier" 61 62 []); field "name"
    (node 42 "identifier" 63 64 [])]; token 43 ")" 64 65]); field "body" (node 44 "block" 66 69 [token 45 "{" 66 67;
    token 46 "}" 68 69])]; token 47 "}" 70 71])]]).
Example generic_overloads_rejected : messages doc_generic None = ["method m(T) is already defined in class A"].
Proof. by vm_compute. Qed.

(** The name of a parameter of variable arity is in a declarator: it is never
    compared. *)
Definition doc_varargs : OpenDoc := mkOpenDoc "class A { void m(int a, int... a) { } }" (
    node 1 "program" 0 39 [node 2 "class_declaration" 0 39 [token 3 "class" 0 5; field "name" (node 4 "identifier" 6
    7 []); field "body" (node 5 "class_body" 8 39 [token 6 "{" 8 9; node 7 "method_declaration" 10 37 [field "type"
    (node 8 "void_type" 10 14 []); field "name" (node 9 "identifier" 15 16 []); field "parameters" (node 10
    "formal_parameters" 16 33 [token 11 "(" 16 17; node 12 "formal_parameter" 17 22 [field "type" (node 13
    "integral_type" 17 20 []); field "name" (node 14 "identifier" 21 22 [])]; token 15 "," 22 23; node 16
    "spread_parameter" 24 32 [node 17 "integral_type" 24 27 []; token 18 "..." 27 30; node 19 "variable_declarator"
    31 32 [field "name" (node 20 "identifier" 31 32 [])]]; token 21 ")" 32 33]); field "body" (node 22 "block" 34 37
    [token 23 "{" 34 35; token 24 "}" 36 37])]; token 25 "}" 38 39])]]).
Example varargs_repeat_missed : messages doc_varargs None = [].
Proof. by vm_compute. Qed.
End Sample.
End Structural.
