(* ===== verification/Members.v ===== *)
(** * Types of places and what they have ([crates/syntax/src/resolve.rs])

    A declared type means a declaration of an open document or a class the
    symbol source knows; the class facts the assignability engine asks for;
    and all the names a type has, its own and those it inherits, with whether
    that is certain to be all. *)
From Stdlib Require Import Ascii.
From S2P Require Import Prelude RustStd SyntaxTree JTypes Symbols Signatures SourceModel TypeRefs Lombok SourceClass Dfs.
From S2P Require Subtyping.
Import Symbols.Symbols(SymbolSource, mkSource, mkExternalClass, class, ExternalMember, mkExternalMember, ExternalClass, EMethod, EField, EConstructor,
  em_name, em_kind, members, metadata, supers).
Import SourceModel TypeRefs.

Module Members.

Inductive ResolvedType :=
| InProject (decl : TypeDecl) (args : list TypeRef)
| External (fqn : string) (args : list TypeRef)
| RPrimitive (p : PrimitiveType)
| RVoid
| RNull
| RArray (element : TypeRef).
Definition type_ref (ty : ResolvedType) : TypeRef :=
  match ty with
  | InProject decl args => Named (td_type_id decl) args
  | External fqn args => Named (TNamed fqn) args
  | RPrimitive p => Primitive p
  | RVoid => Void
  | RNull => Null
  | RArray element => Array element
  end.

(** The last segment of a binary name. *)
Definition simple_of (b : string) : string := split_last "$" (split_last "." b).
Fixpoint render_type_ref (t : TypeRef) : string :=
  match t with
  | Primitive p => prim_name p
  | Void => "void"
  | Null => "null"
  | Named id args =>
      let simple := match id with TNamed b => simple_of b | TLocal _ _ => "?" end in
      match args with
      | [] => simple
      | _ => simple +:+ "<" +:+ str_join ", " (render_type_ref <$> args) +:+ ">"
      end
  | Array e => render_type_ref e +:+ "[]"
  | Wildcard (Some u) _ => "? extends " +:+ render_type_ref u
  | Wildcard None (Some l) => "? super " +:+ render_type_ref l
  | Wildcard None None | TVariable _ | Unknown => "?"
  end.

(** What resolution needs: the document, its place among the open ones, and
    its imports. *)
Record Ctx := mkCtx { ctx_doc : OpenDoc; current : nat; ctx_imports : Imports }.

Section Resolve.
Context (docs : list OpenDoc) (t : TypeTable) (symbols : SymbolSource).

Definition for_document (doc : nat) : option Ctx :=
  imports ← doc_context t doc; d ← docs !! doc; Some (mkCtx d doc imports).
Definition known (fqn : string) : bool := bool_decide (is_Some (class symbols fqn)).
Definition from_type_ref (ty : TypeRef) : option ResolvedType :=
  match ty with
  | Primitive p => Some (RPrimitive p)
  | Void => Some RVoid
  | Null => Some RNull
  | Array e => Some (RArray e)
  | Named (TNamed b) args =>
      match get_named t b with
      | Some d => Some (InProject d args)
      | None => if is_duplicate t b then None else if known b then Some (External b args) else None
      end
  | Named (TLocal document declaration) args =>
      (λ d, InProject d args) <$> by_node t (Z.to_nat document) (Z.to_nat declaration)
  | TVariable _ | Wildcard _ _ | Unknown => None
  end.

(** ** Declared types *)

Definition named_resolver (ctx : Ctx) (type_node : Node) (name : string) (dotted : bool) : option string :=
  let simple := if dotted then split_last "." name else name in
  match resolve_type_name_at t type_node simple (if dotted then Some name else None) (current ctx) (ctx_imports ctx) with
  | Some td => td_binary_name td
  | None =>
      if dotted then if known name then Some name else None
      else resolve_simple_to_fqn simple (ctx_imports ctx) symbols
  end.
Definition is_type_decl (k : string) : bool :=
  bool_decide (k ∈ ["class_declaration"; "interface_declaration"; "enum_declaration"; "record_declaration"; "annotation_type_declaration"]).
Definition enclosing_type_node (n : Node) : option Node := List.find (λ n, is_type_decl (kind n)) (n :: ancestors n).
Definition enclosing_typedecl (n : Node) (doc : nat) : option TypeDecl := ty ← enclosing_type_node n; by_node t doc (node_id ty).
Definition declares_variables (n : Node) : bool :=
  bool_decide (is_Some (from_kind (kind n))) || bool_decide (kind n ∈ ["method_declaration"; "constructor_declaration"]).
(** The owner of the type variables a declaration has. *)
Definition level_owner (ctx : Ctx) (level : Node) : option string :=
  if bool_decide (is_Some (from_kind (kind level))) then td ← by_node t (current ctx) (node_id level); td_binary_name td
  else
    owner ← enclosing_typedecl level (current ctx);
    binary ← td_binary_name owner;
    name_node ← child_by_field_name "name" level;
    let name := node_text name_node (od_source (ctx_doc ctx)) in
    Some (binary +:+ "#" +:+ name +:+ match child_by_field_name "parameters" level with
                                     | Some p => node_text p (od_source (ctx_doc ctx))
                                     | None => "()"
                                     end).
Definition level_variables (ctx : Ctx) (type_node level : Node) : Vars :=
  match level_owner ctx level with
  | None => []
  | Some owner =>
      (lower_type_parameters (od_source (ctx_doc ctx)) (named_resolver ctx type_node)
         (child_by_field_name "type_parameters" level) owner []).1
  end.
Definition vars_in_scope (ctx : Ctx) (type_node : Node) : Vars :=
  flat_map (level_variables ctx type_node) (rev (List.filter declares_variables (ancestors type_node))).
Definition resolve_type_node (ctx : Ctx) (source : string) (type_node : Node) : option ResolvedType :=
  from_type_ref (lower_type_node source (named_resolver ctx type_node) (vars_in_scope ctx type_node) type_node).

(** ** Class facts *)

Section Facts.
Context (to_uppercase : string → string).
Definition pick_known (candidates : list string) : option string :=
  List.find (λ c, bool_decide (is_Some (get_named t c)) || known c) candidates.
Record ClassFacts := mkFacts { facts_meta : ClassMetadata; facts_members : list ExternalMember }.
Definition facts_of (c : ExternalClass) : option ClassFacts := (λ md, mkFacts md (members c)) <$> metadata c.
Definition object_facts (id : TypeId) : ClassFacts :=
  mkFacts (mkClassMetadata id KClass Public false true None [] [] true false) [].
Definition class_facts (id : TypeId) : option ClassFacts :=
  match (match id with
         | TNamed b => if is_duplicate t b then None else Some (get_named t b)
         | TLocal document declaration => Some (by_node t (Z.to_nat document) (Z.to_nat declaration))
         end) with
  | None => None
  | Some (Some d) =>
      dctx ← for_document (td_doc d);
      facts_of (SourceClass.to_external_class (td_source d) (ctx_imports dctx) pick_known to_uppercase d)
  | Some None =>
      match id with
      | TLocal _ _ => None
      | TNamed b =>
          match class symbols b with
          | None => if bool_decide (b = "java.lang.Object") then Some (object_facts id) else None
          | Some ext => facts_of ext
          end
      end
  end.
(** The interface of the assignability engine. *)
#[export] Instance project_classes : Subtyping.Subtyping.Classes :=
  {| Subtyping.Subtyping.facts id := facts_meta <$> class_facts id; Subtyping.Subtyping.in_table b := bool_decide (is_Some (get_named t b)) |}.
End Facts.

(** ** The names a type has *)

Definition array_members (display : string) : list ExternalMember :=
  [mkExternalMember "length" EField "int length" None false None (Some "int") None;
   mkExternalMember "clone" EMethod (display +:+ " clone()") None false None (Some display) None].
(** A type's own names, and the types it inherits from; [None] is a supertype
    that is not known. *)
Definition not_constructor (m : ExternalMember) : bool := match em_kind m with EConstructor => false | _ => true end.
Definition own_names (ty : ResolvedType) : list string :=
  match ty with
  | InProject d _ =>
      (m_name <$> own_members d)
      ++ if bool_decide (td_kind d = Enum) then em_name <$> SourceClass.enum_synthetic_members (td_name d) (td_binary_name d) else []
  | External fqn _ => match class symbols fqn with Some c => em_name <$> List.filter not_constructor (members c) | None => [] end
  | RArray element => em_name <$> array_members (render_type_ref element +:+ "[]")
  | RPrimitive _ | RVoid | RNull => []
  end.
Definition inherits_from (ty : ResolvedType) : list (option ResolvedType) :=
  match ty with
  | InProject d _ =>
      match for_document (td_doc d) with
      | Some dctx => resolve_type_node dctx (td_source d) <$> td_super_nodes d
      | None => match td_super_nodes d with [] => [] | _ => [None] end
      end
      ++ if bool_decide (td_kind d = Enum) then [Some (External "java.lang.Enum" [])] else []
  | External fqn _ => match class symbols fqn with Some c => (λ s, Some (External s [])) <$> supers c | None => [None] end
  | RPrimitive _ | RVoid | RNull | RArray _ => []
  end.
(** Which types are met only once. *)
Definition visit_key (ty : ResolvedType) : option (nat + string) :=
  match ty with
  | InProject d _ => Some (inl (decl_id d))
  | External fqn _ => Some (inr fqn)
  | RPrimitive _ | RVoid | RNull | RArray _ => None
  end.
(** The names, whether they are all, and the types met. *)
Record Walk := mkWalk { names : gset string; complete : bool; met : gset (nat + string) }.
Definition incomplete (w : Walk) : Walk := mkWalk (names w) false (met w).
Fixpoint diag_walk (fuel : nat) (w : Walk) (ty : ResolvedType) : Walk :=
  match fuel with
  | O => incomplete w
  | S fuel =>
      if match visit_key ty with Some k => bool_decide (k ∈ met w) | None => false end then w
      else
        fold_left (λ w s, match s with Some s => diag_walk fuel w s | None => incomplete w end) (inherits_from ty)
          (mkWalk (list_to_set (own_names ty) ∪ names w) (complete w)
             (match visit_key ty with Some k => {[k]} ∪ met w | None => met w end))
  end.
Definition is_reference (ty : ResolvedType) : bool :=
  match ty with InProject _ _ | External _ _ | RArray _ => true | RPrimitive _ | RVoid | RNull => false end.
Definition member_names (ty : ResolvedType) : gset string * bool :=
  let w := diag_walk (S MAX_RESOLVE_DEPTH) (mkWalk ∅ true ∅) ty in
  if is_reference ty then
    match class symbols "java.lang.Object" with
    | Some object => (list_to_set (em_name <$> members object) ∪ names w, complete w)
    | None => (names w, false)
    end
  else (names w, complete w).

(** ** Certain names are all of them *)

Definition inherits (x y : ResolvedType) : Prop := Some y ∈ inherits_from x.
Definition declared_here (ty : ResolvedType) : Prop := match ty with InProject d _ => d ∈ decls t | _ => True end.
(** Types that are met once are the same type. *)
Definition keys_apart : Prop := ∀ x y k, declared_here x → declared_here y → visit_key x = Some k → visit_key y = Some k →
  own_names x = own_names y ∧ inherits_from x = inherits_from y.

Lemma get_named_decl b d : get_named t b = Some d → d ∈ decls t.
Proof. unfold get_named. destruct (by_binary t !! b) as [[|i []]|]; try done. apply list_elem_of_lookup_2. Qed.
Lemma by_node_decl doc id d : by_node t doc id = Some d → d ∈ decls t.
Proof. unfold by_node. intros (i & _ & H)%bind_Some. by apply list_elem_of_lookup_2 in H. Qed.
Lemma from_type_ref_declared ty r : from_type_ref ty = Some r → declared_here r.
Proof.
  destruct ty as [| | |[b|doc id] args| | | |]; cbn [from_type_ref]; try (intros [= <-]; done); try done.
  - destruct (get_named t b) as [d|] eqn:E; [intros [= <-]; by apply get_named_decl in E|].
    destruct (is_duplicate t b); [done|]. destruct (known b); [by intros [= <-]|done].
  - intros (d & E & ->)%fmap_Some. by apply by_node_decl in E.
Qed.
Lemma inherits_declared x y : inherits x y → declared_here y.
Proof.
  unfold inherits. destruct x as [d args|fqn args| | | |]; cbn [inherits_from]; try by intros ?%elem_of_nil.
  - intros [H|H]%elem_of_app.
    + destruct (for_document (td_doc d)).
      * apply list_elem_of_fmap in H as (n & H & _). by eapply from_type_ref_declared.
      * destruct (td_super_nodes d); [by apply elem_of_nil in H|]. by apply list_elem_of_singleton in H.
    + revert H. case_bool_decide; [|by intros ?%elem_of_nil]. by intros [= ->]%list_elem_of_singleton.
  - destruct (class symbols fqn).
    + by intros (s & [= ->] & _)%list_elem_of_fmap.
    + by intros ?%list_elem_of_singleton.
Qed.

Definition has_names (ty : ResolvedType) (w : Walk) : Prop := ∀ name, name ∈ own_names ty → name ∈ names w.
Definition done_in (w : Walk) (ty : ResolvedType) : Prop :=
  match visit_key ty with Some k => k ∈ met w | None => has_names ty w end.
Definition all_done (w : Walk) (ty : ResolvedType) : Prop :=
  has_names ty w ∧ ∀ s, s ∈ inherits_from ty → ∃ y, s = Some y ∧ done_in w y.
Definition closed_but (G : gset (nat + string)) (w : Walk) : Prop :=
  ∀ x k, declared_here x → visit_key x = Some k → k ∈ met w → k ∉ G → all_done w x.
Definition grows (w w' : Walk) : Prop := names w ⊆ names w' ∧ met w ⊆ met w' ∧ (complete w' = true → complete w = true).
#[local] Instance grows_preorder : PreOrder grows.
Proof. split; [by intros w; split_and!|]. intros a b c (H1 & H2 & H3) (H4 & H5 & H6). split_and!; [set_solver..|auto]. Qed.
Lemma done_grows w w' ty : grows w w' → done_in w ty → done_in w' ty.
Proof. intros (Hn & Hm & _). unfold done_in, has_names. destruct (visit_key ty); [set_solver|]. set_solver. Qed.
Lemma all_done_grows w w' ty : grows w w' → all_done w ty → all_done w' ty.
Proof.
  intros Hg [Hn Hs]. split; [intros name H; apply Hg, Hn, H|]. intros s (y & -> & Hy)%Hs. exists y. split; [done|]. by eapply done_grows.
Qed.
Lemma incomplete_grows w : grows w (incomplete w).
Proof. by split_and!. Qed.

Definition walk_supers (fuel : nat) (w : Walk) (l : list (option ResolvedType)) : Walk :=
  fold_left (λ w s, match s with Some s => diag_walk fuel w s | None => incomplete w end) l w.
Definition enter (w : Walk) (ty : ResolvedType) : Walk :=
  mkWalk (list_to_set (own_names ty) ∪ names w) (complete w) (match visit_key ty with Some k => {[k]} ∪ met w | None => met w end).
Lemma enter_grows w ty : grows w (enter w ty).
Proof. unfold enter. split_and!; cbn; [set_solver|destruct (visit_key ty); set_solver|done]. Qed.
Lemma diag_walk_S fuel w ty : diag_walk (S fuel) w ty =
  if match visit_key ty with Some k => bool_decide (k ∈ met w) | None => false end then w
  else walk_supers fuel (enter w ty) (inherits_from ty).
Proof. done. Qed.

Lemma diag_walk_grows fuel : ∀ w ty, grows w (diag_walk fuel w ty).
Proof.
  induction fuel as [|fuel IH]; intros w ty; [apply incomplete_grows|]. rewrite diag_walk_S. destruct (match visit_key ty with Some _ => _ | None => _ end); [done|].
  transitivity (enter w ty); [apply enter_grows|]. generalize (enter w ty) as v. unfold walk_supers.
  induction (inherits_from ty) as [|[s|] l IHl]; intros v; cbn [fold_left]; [done|..].
  - transitivity (diag_walk fuel v s); [apply IH|apply IHl].
  - transitivity (incomplete v); [apply incomplete_grows|apply IHl].
Qed.
Lemma walk_supers_grows fuel l : ∀ w, grows w (walk_supers fuel w l).
Proof.
  unfold walk_supers. induction l as [|[s|] l IHl]; intros w; cbn [fold_left]; [done|..].
  - transitivity (diag_walk fuel w s); [apply diag_walk_grows|apply IHl].
  - transitivity (incomplete w); [apply incomplete_grows|apply IHl].
Qed.

Section Closed.
Hypothesis Hkeys : keys_apart.
Lemma diag_walk_closed fuel : ∀ G w ty, declared_here ty → closed_but G w → complete (diag_walk fuel w ty) = true →
  done_in (diag_walk fuel w ty) ty ∧ closed_but G (diag_walk fuel w ty).
Proof.
  induction fuel as [|fuel IH]; intros G w ty Hd Hc Hcomp; [done|]. rewrite diag_walk_S in *.
  destruct (match visit_key ty with Some k => bool_decide (k ∈ met w) | None => false end) eqn:Em.
  { split; [|done]. unfold done_in. destruct (visit_key ty); [by apply bool_decide_eq_true in Em|done]. }
  assert (Hl : ∀ l G v, (∀ s, Some s ∈ l → declared_here s) → closed_but G v → complete (walk_supers fuel v l) = true →
    (∀ s, s ∈ l → ∃ y, s = Some y ∧ done_in (walk_supers fuel v l) y) ∧ closed_but G (walk_supers fuel v l)).
  { clear -IH. induction l as [|s l IHl]; intros G v Hs Hc Hcomp; [split; [by intros ? ?%elem_of_nil|done]|].
    unfold walk_supers in *. cbn [fold_left] in *. destruct s as [s|].
    - pose proof (walk_supers_grows fuel l (diag_walk fuel v s)) as Hg. unfold walk_supers in Hg.
      destruct (IH G v s) as [Hdone Hc']; [apply Hs; by left|done|by apply Hg|].
      destruct (IHl G (diag_walk fuel v s)) as [Hrest Hc'']; [intros x Hx; apply Hs; by right|done|done|]. split; [|done].
      intros x [->|Hx]%elem_of_cons; [|by apply Hrest]. exists s. split; [done|]. by eapply done_grows.
    - pose proof (walk_supers_grows fuel l (incomplete v)) as (_ & _ & Hg). unfold walk_supers in Hg. by specialize (Hg Hcomp). }
  destruct (Hl (inherits_from ty) (match visit_key ty with Some k => {[k]} ∪ G | None => G end) (enter w ty)) as [Hs Hc'].
  { intros s Hs. by apply (inherits_declared ty). }
  { intros x k Hx Hk Hin Hnot. assert (k ∈ met w ∧ k ∉ G) as [Hin' Hnot'] by (unfold enter in Hin; cbn in Hin; destruct (visit_key ty); set_solver).
    eapply all_done_grows; [apply enter_grows|by eapply Hc]. }
  { done. }
  assert (Hnames : has_names ty (walk_supers fuel (enter w ty) (inherits_from ty))).
  { intros name Hn. apply (walk_supers_grows fuel (inherits_from ty) (enter w ty)). unfold enter. cbn. set_solver. }
  split.
  - unfold done_in. destruct (visit_key ty) as [k|] eqn:Ek; [|done]. apply (walk_supers_grows fuel (inherits_from ty) (enter w ty)).
    unfold enter. cbn. rewrite Ek. set_solver.
  - intros x k Hx Hk Hin Hnot. destruct (visit_key ty) as [k'|] eqn:Ek; [|by apply (Hc' x k)].
    destruct (decide (k = k')) as [->|Hne]; [|apply (Hc' x k); set_solver].
    destruct (Hkeys x ty k' Hx Hd Hk Ek) as [E1 E2]. split; [|by rewrite E2]. intros name. rewrite E1. apply Hnames.
Qed.

Lemma complete_names ty ns : declared_here ty → is_reference ty = true → member_names ty = (ns, true) →
  ∀ x, rtc inherits ty x → None ∉ inherits_from x ∧ ∀ name, name ∈ own_names x → name ∈ ns.
Proof.
  intros Hd Hr E. unfold member_names in E. rewrite Hr in E. set (w := diag_walk _ _ _) in E.
  assert (complete w = true ∧ ∀ name, name ∈ names w → name ∈ ns) as [Hc Hn].
  { destruct (class symbols "java.lang.Object"); injection E as <- ?; [|done]. split; [done|set_solver]. }
  destruct (diag_walk_closed (S MAX_RESOLVE_DEPTH) ∅ (mkWalk ∅ true ∅) ty) as [Hdone Hclosed]; [done|by intros ? ? ? ? ?%elem_of_empty|done|].
  fold w in Hdone, Hclosed.
  assert (Hall : ∀ x, rtc inherits ty x → declared_here x ∧ all_done w x).
  { assert (Hstep : ∀ x, declared_here x → done_in w x → all_done w x).
    { intros x Hx Hdx. unfold done_in in Hdx. destruct (visit_key x) as [k|] eqn:Ek; [apply (Hclosed x k Hx Ek Hdx); by apply not_elem_of_empty|].
      split; [done|]. destruct x; try done; cbn; by intros ? ?%elem_of_nil. }
    intros x Hx. revert Hd Hdone. clear -Hx Hstep. clearbody w. induction Hx as [x|x y z Hxy _ IH]; intros Hd Hdone; [split; [done|by apply Hstep]|].
    pose proof (Hstep x Hd Hdone) as [_ Hs]. destruct (Hs _ Hxy) as (y' & [= <-] & Hy). apply IH; [by eapply inherits_declared|done]. }
  intros x Hx. destruct (Hall x Hx) as (_ & Hnx & Hsx). split; [|intros name Hin; by apply Hn, Hnx].
  intros H. by destruct (Hsx _ H) as (? & ? & _).
Qed.
Lemma object_names ty ns : is_reference ty = true → member_names ty = (ns, true) →
  ∃ object, class symbols "java.lang.Object" = Some object ∧ ∀ m, m ∈ members object → em_name m ∈ ns.
Proof.
  intros Hr E. unfold member_names in E. rewrite Hr in E. destruct (class symbols "java.lang.Object") as [object|]; [|done].
  exists object. split; [done|]. injection E as <- _. intros m Hm. apply elem_of_union. left. apply elem_of_list_to_set. by apply list_elem_of_fmap_2.
Qed.
End Closed.
End Resolve.

Lemma build_keys_apart docs c symbols : ids_apart docs → keys_apart docs (build docs c) symbols.
Proof.
  intros Hi x y k Hx Hy Ex Ey. destruct x as [d args|fqn args| | | |], y as [d' args'|fqn' args'| | | |]; cbn in Ex, Ey; try done; try congruence.
  - assert (d = d') as <-; [|done]. destruct (build_spec docs c) as (_ & Ed & _). cbn [declared_here] in Hx, Hy. rewrite Ed in Hx, Hy.
    eapply decl_id_inj; [done..|]. congruence.
  - assert (fqn = fqn') as <- by congruence. done.
Qed.

(** C34: when the names of a type are said to be all, they are.  No supertype
    anywhere above it is unknown, and every declared member of every type it inherits
    from, whether in an open document or on the class path, and of
    [java.lang.Object] is among them. *)
Theorem names_complete docs c symbols ty ns : ids_apart docs → declared_here (build docs c) ty → is_reference ty = true →
  member_names docs (build docs c) symbols ty = (ns, true) →
  (∀ x, rtc (inherits docs (build docs c) symbols) ty x →
     None ∉ inherits_from docs (build docs c) symbols x ∧ ∀ name, name ∈ own_names symbols x → name ∈ ns)
  ∧ ∃ object, class symbols "java.lang.Object" = Some object ∧ ∀ m, m ∈ members object → em_name m ∈ ns.
Proof.
  intros Hi Hd Hr E. split; [|by eapply object_names]. by apply complete_names; [apply build_keys_apart|..].
Qed.

(** ** Examples *)

Module Sample.
Definition object : ExternalClass :=
  mkExternalClass [] [] [mkExternalMember "toString" EMethod "String toString()" None false None (Some "String") None] None.
Definition jdk : SymbolSource :=
  mkSource (λ fqn, if bool_decide (fqn = "java.lang.Object") then Some object else None) (λ _ _, Some ([], false)) (λ _, ([], [])) (λ _ _, None) (λ _, []).
Definition doc_ab : OpenDoc := mkOpenDoc "class A extends B { int x; } class B { int y; }" (
    node 1 "program" 0 47 [node 2 "class_declaration" 0 28 [token 3 "class" 0 5; field "name" (node 4 "identifier" 6
    7 []); field "superclass" (node 5 "superclass" 8 17 [token 6 "extends" 8 15; node 7 "type_identifier" 16 17
    []]); field "body" (node 8 "class_body" 18 28 [token 9 "{" 18 19; node 10 "field_declaration" 20 26 [field
    "type" (node 11 "integral_type" 20 23 []); field "declarator" (node 12 "variable_declarator" 24 25 [field "name"
    (node 13 "identifier" 24 25 [])]); token 14 ";" 25 26]; token 15 "}" 27 28])]; node 16 "class_declaration" 29 47
    [token 17 "class" 29 34; field "name" (node 18 "identifier" 35 36 []); field "body" (node 19 "class_body" 37 47
    [token 20 "{" 37 38; node 21 "field_declaration" 39 45 [field "type" (node 22 "integral_type" 39 42 []); field
    "declarator" (node 23 "variable_declarator" 43 44 [field "name" (node 24 "identifier" 43 44 [])]); token 25 ";"
    44 45]; token 26 "}" 46 47])]]).
Notation table := (build [doc_ab] 0).
Definition decl_named (b : string) : TypeDecl :=
  default (mkTypeDecl "" Class_ [] (root_node (od_tree doc_ab)) "" 0 None (TNamed "")) (get_named table b).
Definition type_a : ResolvedType := InProject (decl_named "A") [].
Definition type_b : ResolvedType := InProject (decl_named "B") [].
Definition names_a : gset string := (member_names [doc_ab] table jdk type_a).1.
Lemma names_complete_witness : "y" ∈ names_a ∧ ∃ c, class jdk "java.lang.Object" = Some c ∧ ∀ m, m ∈ members c → em_name m ∈ names_a.
Proof.
  destruct (names_complete [doc_ab] 0 jdk type_a names_a) as [H1 H2].
  - apply (bool_decide_eq_true_1 (NoDup _)). by vm_compute.
  - apply (list_elem_of_lookup_2 _ 1). by vm_compute.
  - done.
  - by vm_compute.
  - split; [|exact H2]. apply (H1 type_b).
    + apply rtc_once. unfold inherits. apply (list_elem_of_lookup_2 _ 0). by vm_compute.
    + apply (bool_decide_eq_true_1 (_ ∈ _)). by vm_compute.
Defined.

(** The names leave out what Lombok generates for an open class, although they
    are said to be all: a call of the getter is reported as unresolved. *)
Definition type_d : ResolvedType :=
  InProject (default (decl_named "A") (get_named (build [SourceClass.Sample.doc_string] 0) "D")) [].
Lemma generated_members_missing :
  (let '(ns, all) := member_names [SourceClass.Sample.doc_string] (build [SourceClass.Sample.doc_string] 0) jdk type_d in
   all && negb (bool_decide ("getA" ∈ ns))) = true
  ∧ "getA" ∈ Lombok.Lombok.sm_name <$> match type_d with InProject d _ => Lombok.Lombok.synthesize id (td_node d) (td_source d) | _ => [] end.
Proof. split; [by vm_compute|]. apply (bool_decide_eq_true_1 (_ ∈ _)). by vm_compute. Qed.
End Sample.
End Members.
