(* ===== verification/Bindings.v ===== *)
(** * Names of variables ([crates/syntax/src/resolve.rs], [crates/syntax/src/diagnostics.rs])

    The variables that are visible at a place, innermost first, and the check
    that reports a name nothing declares. *)
From Stdlib Require Import Ascii.
From S2P Require Import Prelude RustStd Lsp LineIndex SyntaxTree JTypes Symbols Outline Signatures SourceModel Members.
Import LineIndex(LineIndex).
Import Outline(range, diagnostic).
Import Symbols.Symbols(SymbolSource, class).
Import Outline(spread_param_name).
Import SourceModel Members.

Module Bindings.

Inductive BindingKind := Local | Param | ForVar | FieldVar.
Record Binding := mkBinding {
  b_name : string; b_kind : BindingKind; b_type_node : option Node; b_decl_node : Node; b_source : string; b_doc : nat }.
Definition binding_name_node (decl_node : Node) : option Node :=
  if bool_decide (kind decl_node = "identifier") then Some decl_node
  else if bool_decide (kind decl_node = "spread_parameter") then spread_param_name decl_node
  else child_by_field_name "name" decl_node.
Definition binding_site (b : Binding) : option DeclSite :=
  name ← binding_name_node (b_decl_node b);
  Some (mkDeclSite (b_doc b) (byte_range name) (byte_range (b_decl_node b))).

(** The named nodes below a node in the order of a stack of them. *)
Definition named_visited : Node → list Node := descend [] (λ visited n, n :: flat_map visited (rev (named_children n))).

Section Scopes.
Context (source : string) (doc : nat).

Definition push_locals (decl : Node) : list Binding :=
  let ty := child_by_field_name "type" decl in
  flat_map (λ d,
      if bool_decide (kind d = "variable_declarator") then
        match child_by_field_name "name" d with
        | Some name => [mkBinding (node_text name source) Local ty d source doc]
        | None => []
        end
      else []) (named_children decl).
Definition pattern_binding_parts (n : Node) : option (Node * option Node) :=
  name ← List.find (λ c, bool_decide (kind c = "identifier")) (named_children n);
  Some (name, List.find (λ c, negb (bool_decide (kind c = "identifier"))) (named_children n)).
Definition pattern_binding (n : Node) : list Binding :=
  match pattern_binding_parts n with
  | Some (name, type_node) => [mkBinding (node_text name source) Local type_node n source doc]
  | None => []
  end.
Definition push_pattern_bindings (rule : Node) : list Binding :=
  flat_map (λ n, if bool_decide (kind n ∈ ["type_pattern"; "record_pattern_component"]) then pattern_binding n else [])
    (flat_map named_visited (rev (List.filter (λ c, bool_decide (kind c = "switch_label")) (named_children rule)))).
Definition push_instanceof_bindings (cond : Node) : list Binding :=
  flat_map (λ n,
      if bool_decide (kind n = "instanceof_expression") then
        match child_by_field_name "name" n with
        | Some name => [mkBinding (node_text name source) Local (child_by_field_name "right" n) n source doc]
        | None => []
        end
      else if bool_decide (kind n = "record_pattern_component") then pattern_binding n
      else []) (named_visited cond).
Definition formal_binding (p : Node) : list Binding :=
  if bool_decide (kind p = "formal_parameter") then
    match child_by_field_name "name" p with
    | Some name => [mkBinding (node_text name source) Param (child_by_field_name "type" p) p source doc]
    | None => []
    end
  else if bool_decide (kind p = "spread_parameter") then
    match spread_param_name p with
    | Some name =>
        [mkBinding (node_text name source) Param
           (List.find (λ c, negb (bool_decide (kind c ∈ ["modifiers"; "variable_declarator"]))) (named_children p)) p source doc]
    | None => []
    end
  else [].
Definition bare_binding (p : Node) : Binding := mkBinding (node_text p source) Param None p source doc.
Definition push_params (n : Node) : list Binding :=
  match child_by_field_name "parameters" n with
  | None => []
  | Some params =>
      let k := kind params in
      if bool_decide (k = "formal_parameters") then flat_map formal_binding (named_children params)
      else if bool_decide (k = "inferred_parameters") then
        bare_binding <$> List.filter (λ p, bool_decide (kind p = "identifier")) (named_children params)
      else if bool_decide (k = "identifier") then [bare_binding params]
      else []
  end.

Definition block_kinds : list string := ["block"; "constructor_body"; "switch_block"].
Definition condition_kinds : list string := ["if_statement"; "while_statement"; "do_statement"; "ternary_expression"].
Definition callable_kinds : list string :=
  ["method_declaration"; "constructor_declaration"; "compact_constructor_declaration"; "lambda_expression"].
(** What one node around the place adds. *)
Definition scope_bindings (cursor : nat) (n : Node) : list Binding :=
  let k := kind n in
  if bool_decide (k ∈ block_kinds) then
    flat_map push_locals
      (List.filter (λ c, (start_byte c <? cursor)%nat && bool_decide (kind c = "local_variable_declaration")) (named_children n))
  else if bool_decide (k = "for_statement") then
    match child_by_field_name "init" n with
    | Some init => if bool_decide (kind init = "local_variable_declaration") then push_locals init else []
    | None => []
    end
  else if bool_decide (k = "enhanced_for_statement") then
    match child_by_field_name "name" n with
    | Some name => [mkBinding (node_text name source) ForVar (child_by_field_name "type" n) n source doc]
    | None => []
    end
  else if bool_decide (k = "switch_rule") then push_pattern_bindings n
  else if bool_decide (k ∈ condition_kinds) then
    match child_by_field_name "condition" n with Some cond => push_instanceof_bindings cond | None => [] end
  else if bool_decide (k ∈ callable_kinds) then push_params n
  else [].
End Scopes.

Definition field_type_node (declarator : Node) : option Node :=
  if bool_decide (kind declarator = "formal_parameter") then child_by_field_name "type" declarator
  else p ← parent declarator; child_by_field_name "type" p.
Definition is_variable (m : Member) : bool := match m_kind m with Field | EnumConstant => true | _ => false end.
Definition push_fields (t : TypeTable) (td : TypeDecl) : list Binding :=
  (λ m, mkBinding (m_name m) FieldVar (field_type_node (m_node m)) (m_node m) (m_source m) (m_doc m))
    <$> List.filter is_variable (all_members t td false).

Section Lookup.
(** [Tree::named_descendant_for_byte_range]. *)
Context (descendant : Tree → nat → nat → option Node).
Definition node_at (tree : Tree) (byte : nat) : Node :=
  let root := root_node tree in
  let byte := Nat.min byte (end_byte root) in
  default root (descendant tree byte byte).
Definition collect_bindings (tree : Tree) (source : string) (cursor : nat) (t : TypeTable) (include_fields : bool) (doc : nat) :
    list Binding :=
  let n := node_at tree cursor in
  flat_map (scope_bindings source doc cursor) (n :: ancestors n)
  ++ if include_fields then
       match enclosing_typedecl t n doc with Some td => push_fields t td | None => [] end
     else [].
Definition lookup_binding (tree : Tree) (source : string) (byte : nat) (name : string) (t : TypeTable) (doc : nat) : option Binding :=
  List.find (λ b, bool_decide (b_name b = name)) (collect_bindings tree source byte t true doc).

(** ** Names that nothing declares *)

Record StaticImports := mkStaticImports { static_names : gset string; wildcard : bool }.
Definition static_import (source : string) (s : StaticImports) (child : Node) : StaticImports :=
  if bool_decide (kind child = "import_declaration") then
    match path ← dotted_path (node_text child source) "import"; strip_prefix "static" path with
    | None => s
    | Some path =>
        if ends_with ".*" path then mkStaticImports (static_names s) true
        else mkStaticImports ({[split_last "." path]} ∪ static_names s) (wildcard s)
    end
  else s.
Definition parse_static (root : Node) (source : string) : StaticImports :=
  fold_left (static_import source) (named_children root) (mkStaticImports ∅ false).
Definition may_bind (s : StaticImports) (name : string) : bool := wildcard s || bool_decide (name ∈ static_names s).

Definition in_field (f : string) (p id : Node) : bool :=
  match child_by_field_name f p with Some n => same_node n id | None => false end.
Definition value_kinds : list string :=
  ["argument_list"; "binary_expression"; "unary_expression"; "update_expression"; "parenthesized_expression"; "array_initializer";
   "array_access"; "assignment_expression"; "ternary_expression"; "return_statement"; "throw_statement"; "yield_statement"].
Definition is_variable_only_position (id : Node) : bool :=
  match parent id with
  | None => false
  | Some p =>
      let k := kind p in
      if bool_decide (k ∈ value_kinds) then true
      else if bool_decide (k ∈ ["variable_declarator"; "enhanced_for_statement"; "cast_expression"]) then in_field "value" p id
      else if bool_decide (k = "instanceof_expression") then in_field "left" p id
      else if bool_decide (k = "lambda_expression") then in_field "body" p id
      else false
  end.
Definition catch_param_name (source : string) (clause : Node) : option string :=
  parameter ← List.find (λ c, bool_decide (kind c = "catch_formal_parameter")) (named_children clause);
  match child_by_field_name "name" parameter with
  | Some name => Some (node_text name source)
  | None => (λ n, node_text n source) <$> List.find (λ c, bool_decide (kind c = "identifier")) (rev (named_children parameter))
  end.
Definition resources (n : Node) : list Node :=
  List.filter (λ c, bool_decide (kind c = "resource"))
    (flat_map named_children (List.filter (λ c, bool_decide (kind c = "resource_specification")) (named_children n))).
Definition binds_resource (source name : string) (n : Node) : bool :=
  existsb (λ r, match child_by_field_name "name" r with Some nm => bool_decide (node_text nm source = name) | None => false end)
    (resources n).
Definition anonymous_body (n : Node) : bool :=
  bool_decide (kind n = "object_creation_expression") && existsb (λ c, bool_decide (kind c = "class_body")) (named_children n).
(** The types around a place, unless the way out passes what keeps the check
    silent. *)
Fixpoint enclosing_types (source name : string) (ancs : list Node) : option (list Node) :=
  match ancs with
  | [] => Some []
  | p :: ancs =>
      if bool_decide (kind p = "catch_clause") && bool_decide (catch_param_name source p = Some name)
         || bool_decide (kind p = "try_with_resources_statement") && binds_resource source name p
         || anonymous_body p
      then None
      else
        rest ← enclosing_types source name ancs;
        Some (if bool_decide (is_Some (from_kind (kind p))) then p :: rest else rest)
  end.

Section Check.
Context (docs : list OpenDoc) (t : TypeTable) (symbols : SymbolSource) (ctx : Ctx) (ix : LineIndex).
Definition CANNOT_FIND_SYMBOL_CODE : string := "jvl.cannotFindSymbol".
Definition coded_diagnostic (r : Range) (code message : string) : Diagnostic :=
  mkDiagnostic r (Some ERROR) (Some (Code code)) (Some "java-vsix-lite") message.
(** A type that may have the name, as far as is known. *)
Definition may_have (name : string) (type_node : Node) : bool :=
  match by_node t (current ctx) (node_id type_node) with
  | None => true
  | Some td => let '(names, complete) := member_names docs t symbols (InProject td []) in negb complete || bool_decide (name ∈ names)
  end.
Definition check_unresolved_identifier (static : StaticImports) (id : Node) : list Diagnostic :=
  let source := od_source (ctx_doc ctx) in
  let name := node_text id source in
  if negb (is_variable_only_position id) then []
  else if bool_decide (name = "_") || may_bind static name then []
  else if bool_decide (is_Some (lookup_binding (od_tree (ctx_doc ctx)) source (start_byte id) name t (current ctx))) then []
  else match enclosing_types source name (ancestors id) with
       | None | Some [] => []
       | Some tys =>
           if existsb (may_have name) tys then []
           else [coded_diagnostic (range ix id) CANNOT_FIND_SYMBOL_CODE ("cannot find symbol: variable '" +:+ name +:+ "'")]
       end.
End Check.
End Lookup.

(** ** What is declared *)

Section Declared.
Context (source : string).
Definition names (n : Node) (name : string) : Prop := ∃ nm, child_by_field_name "name" n = Some nm ∧ node_text nm source = name.
Inductive named_within (n : Node) : Node → Prop :=
| named_here : named_within n n
| named_below c m : c ∈ named_children n → named_within c m → named_within n m.
Definition pattern_names (n : Node) (name : string) : Prop :=
  ∃ nm, List.find (λ c, bool_decide (kind c = "identifier")) (named_children n) = Some nm ∧ node_text nm source = name.

(** A place in the part of [a] that the field [f] names. *)
Definition in_part (f : string) (a id : Node) : Prop := a ∈ ancestors id ∧ ∃ b, child_by_field_name f a = Some b ∧ b ∈ id :: ancestors id.
Definition operator (n : Node) (o : string) : Prop := ∃ c, c ∈ children n ∧ is_named c = false ∧ kind c = o.
Definition operand (f : string) (n c : Node) : Prop := child_by_field_name f n = Some c ∧ c ∈ named_children n.

(** The pattern variables that an expression introduces when it is true, and
    when it is false. *)
Inductive introduces (name : string) : bool → Node → Prop :=
| introduces_type n : kind n = "instanceof_expression" → names n name → introduces name true n
| introduces_record n p q : kind n = "instanceof_expression" → p ∈ named_children n → kind p = "record_pattern" →
    named_within p q → kind q = "record_pattern_component" → pattern_names q name → introduces name true n
| introduces_paren b n c : kind n = "parenthesized_expression" → c ∈ named_children n → introduces name b c → introduces name b n
| introduces_not b n c : kind n = "unary_expression" → operator n "!" → operand "operand" n c →
    introduces name b c → introduces name (negb b) n
| introduces_and n f c : kind n = "binary_expression" → operator n "&&" → f ∈ ["left"; "right"] → operand f n c →
    introduces name true c → introduces name true n
| introduces_or n f c : kind n = "binary_expression" → operator n "||" → f ∈ ["left"; "right"] → operand f n c →
    introduces name false c → introduces name false n.
(** The parts of a statement or an expression in which they are in scope. *)
Inductive tested (name : string) (a id : Node) : Prop :=
| tested_true cond : kind a ∈ ["if_statement"; "ternary_expression"] → operand "condition" a cond → introduces name true cond →
    in_part "consequence" a id → tested name a id
| tested_false cond : kind a ∈ ["if_statement"; "ternary_expression"] → operand "condition" a cond → introduces name false cond →
    in_part "alternative" a id → tested name a id
| tested_loop cond : kind a = "while_statement" → operand "condition" a cond → introduces name true cond →
    in_part "body" a id → tested name a id.
Definition right_of (name : string) (a id : Node) : Prop :=
  kind a = "binary_expression" ∧ in_part "right" a id
  ∧ ∃ l b, operand "left" a l ∧ operator a (if b : bool then "&&" else "||") ∧ introduces name b l.
(** A statement that does not complete. *)
Inductive leaves : Node → Prop :=
| leaves_jump n : kind n ∈ ["return_statement"; "throw_statement"; "break_statement"; "continue_statement"] → leaves n
| leaves_block n s : kind n = "block" → s ∈ named_children n → leaves s → leaves n.
Definition declared_before (c id : Node) (name : string) : Prop :=
  kind c = "local_variable_declaration" ∧ (start_byte c < start_byte id)%nat
  ∧ ∃ d, d ∈ named_children c ∧ kind d = "variable_declarator" ∧ names d name.
Definition labelled (a id : Node) (name : string) : Prop :=
  a ∈ ancestors id ∧ ∃ label n, label ∈ named_children a ∧ kind label = "switch_label" ∧ named_within label n
    ∧ (start_byte n < start_byte id)%nat ∧ kind n ∈ ["type_pattern"; "record_pattern_component"] ∧ pattern_names n name.

(** A variable of [name] is in scope at [id], by the rules of the language for
    each declaration.  The flag says whether the check looks for it there: it
    does not look at the groups of statements of a [switch], nor for a pattern
    variable past the statement that tests it, in the condition of a [for], or
    beside its test in an expression that is no condition. *)
Inductive in_scope (id : Node) (name : string) : bool → Prop :=
| local_variable a c : a ∈ ancestors id → kind a ∈ ["block"; "constructor_body"] → c ∈ named_children a →
    declared_before c id name → in_scope id name true
| for_variable a init : a ∈ ancestors id → kind a = "for_statement" → child_by_field_name "init" a = Some init →
    declared_before init id name → in_scope id name true
| each_variable a : kind a = "enhanced_for_statement" → in_part "body" a id → names a name → in_scope id name true
| parameter a params p : kind a ∈ ["method_declaration"; "constructor_declaration"; "lambda_expression"] → in_part "body" a id →
    child_by_field_name "parameters" a = Some params → kind params = "formal_parameters" → p ∈ named_children params →
    kind p = "formal_parameter" → names p name → in_scope id name true
| variable_arity a params p d : kind a ∈ ["method_declaration"; "constructor_declaration"; "lambda_expression"] → in_part "body" a id →
    child_by_field_name "parameters" a = Some params → kind params = "formal_parameters" → p ∈ named_children params →
    kind p = "spread_parameter" → child_of_kind "variable_declarator" p = Some d → names d name → in_scope id name true
| inferred_parameter a params p : kind a = "lambda_expression" → in_part "body" a id →
    child_by_field_name "parameters" a = Some params → kind params = "inferred_parameters" → p ∈ named_children params →
    kind p = "identifier" → node_text p source = name → in_scope id name true
| bare_parameter a p : kind a = "lambda_expression" → in_part "body" a id →
    child_by_field_name "parameters" a = Some p → kind p = "identifier" → node_text p source = name → in_scope id name true
| tested_variable a : tested name a id → in_scope id name true
| operand_in_condition a w cond : right_of name a id → w ∈ ancestors id →
    kind w ∈ ["if_statement"; "while_statement"; "do_statement"; "ternary_expression"] →
    child_by_field_name "condition" w = Some cond → named_within cond a → in_scope id name true
| rule_variable a : kind a = "switch_rule" → labelled a id name → in_scope id name true
| operand_variable a : right_of name a id → in_scope id name false
| for_tested a cond f : kind a = "for_statement" → operand "condition" a cond → introduces name true cond →
    f ∈ ["update"; "body"] → in_part f a id → in_scope id name false
| group_variable a c : a ∈ ancestors id → kind a = "switch_block_statement_group" → c ∈ named_children a →
    declared_before c id name → in_scope id name false
| group_labelled a : kind a = "switch_block_statement_group" → labelled a id name → in_scope id name false
| past_statement a s cond body : a ∈ ancestors id → s ∈ named_children a → (end_byte s ≤ start_byte id)%nat →
    kind s = "if_statement" → operand "condition" s cond → introduces name false cond →
    child_by_field_name "consequence" s = Some body → leaves body → child_by_field_name "alternative" s = None → in_scope id name false.

(** The parameter of a catch clause, and the resources of a statement. *)
Inductive guarded (id : Node) (name : string) : Prop :=
| caught a p : kind a = "catch_clause" → in_part "body" a id → child_of_kind "catch_formal_parameter" a = Some p → names p name → guarded id name
| resource a rs r : kind a = "try_with_resources_statement" → a ∈ ancestors id → rs ∈ named_children a →
    kind rs = "resource_specification" → r ∈ named_children rs → kind r = "resource" → names r name →
    in_part "body" a id ∨ (rs ∈ ancestors id ∧ end_byte r ≤ start_byte id)%nat → guarded id name.

Lemma named_within_trans n m k : named_within n m → named_within m k → named_within n k.
Proof. induction 1; [done|]. intros. eapply named_below; eauto. Qed.
(** What introduces a variable is an [instanceof] or a part of its pattern. *)
Lemma introduces_within name b n : introduces name b n → ∃ m, named_within n m
  ∧ (kind m = "instanceof_expression" ∧ names m name ∨ kind m = "record_pattern_component" ∧ pattern_names m name).
Proof.
  induction 1 as [n Hk Hn|n p q Hk Hp _ Hw Hq Hn|b n c _ Hc _ (m & Hw & Hm)|b n c _ _ [_ Hc] _ (m & Hw & Hm)
    |n f c _ _ _ [_ Hc] _ (m & Hw & Hm)|n f c _ _ _ [_ Hc] _ (m & Hw & Hm)].
  - exists n. split; [constructor|]. by left.
  - exists q. split; [by eapply named_below|]. by right.
  - exists m. split; [by eapply named_below|done].
  - exists m. split; [by eapply named_below|done].
  - exists m. split; [by eapply named_below|done].
  - exists m. split; [by eapply named_below|done].
Qed.

Lemma named_visited_elem n m : m ∈ named_visited n ↔ named_within n m.
Proof.
  assert (Eq : ∀ n, named_visited n = n :: flat_map named_visited (rev (named_children n))).
  { intros k. unfold named_visited at 1. rewrite descend_eq; [done|]. intros j g h Hg. f_equal. apply flat_map_ext_elem. intros c Hc.
    apply Hg, child_smaller. rewrite elem_of_rev in Hc. by apply named_child_is_child in Hc as [? _]. }
  split.
  - revert m. induction n as [n IH] using size_ind. intros m. rewrite Eq. intros [->|Hm]%elem_of_cons; [constructor|].
    apply list_elem_of_In, in_flat_map in Hm as (c & Hc & Hm). apply list_elem_of_In in Hc, Hm. rewrite elem_of_rev in Hc.
    eapply named_below; [done|]. apply IH; [|done]. apply child_smaller. by apply named_child_is_child in Hc as [? _].
  - induction 1 as [n|n c m Hc _ IH]; rewrite Eq; [left|right]. apply list_elem_of_In, in_flat_map. exists c.
    rewrite <-!list_elem_of_In, elem_of_rev. done.
Qed.

(** Each of them is among the bindings of its scope. *)
Definition bound (name : string) (bs : list Binding) : Prop := ∃ b, b ∈ bs ∧ b_name b = name.
Lemma bound_flat_map {A} name (f : A → list Binding) l x : x ∈ l → bound name (f x) → bound name (flat_map f l).
Proof. intros Hx (b & Hb & E). exists b. split; [|done]. apply list_elem_of_In, in_flat_map. exists x. by rewrite <-!list_elem_of_In. Qed.
Lemma bound_one name b : b_name b = name → bound name [b].
Proof. intros E. exists b. split; [by left|done]. Qed.
Lemma locals_bound doc decl d name : d ∈ named_children decl → kind d = "variable_declarator" → names d name →
  bound name (push_locals source doc decl).
Proof.
  intros Hd Hk (nm & Hn & <-). apply (bound_flat_map _ _ _ d Hd). rewrite bool_decide_eq_true_2, Hn by done. by apply bound_one.
Qed.
Lemma pattern_bound doc n name : pattern_names n name → bound name (pattern_binding source doc n).
Proof. intros (nm & Hn & <-). unfold pattern_binding, pattern_binding_parts. rewrite Hn. by apply bound_one. Qed.
Lemma callable_bindings doc cursor a : kind a ∈ ["method_declaration"; "constructor_declaration"; "lambda_expression"] →
  scope_bindings source doc cursor a = push_params source doc a.
Proof. intros Ha. unfold scope_bindings. apply list_elem_of_In in Ha. by destruct Ha as [<-|[<-|[<-|[]]]]. Qed.
Lemma formal_bound doc a params p name : child_by_field_name "parameters" a = Some params → kind params = "formal_parameters" →
  p ∈ named_children params → bound name (formal_binding source doc p) → bound name (push_params source doc a).
Proof. intros Hp Hk Hin Hb. unfold push_params. rewrite Hp, bool_decide_eq_true_2 by done. by apply (bound_flat_map _ _ _ p Hin). Qed.
Lemma condition_bound doc cursor a cond m name :
  kind a ∈ ["if_statement"; "while_statement"; "do_statement"; "ternary_expression"] →
  child_by_field_name "condition" a = Some cond → named_within cond m →
  kind m = "instanceof_expression" ∧ names m name ∨ kind m = "record_pattern_component" ∧ pattern_names m name →
  bound name (scope_bindings source doc cursor a).
Proof.
  intros Ha Hc Hw%named_visited_elem Hm.
  assert (E : scope_bindings source doc cursor a = push_instanceof_bindings source doc cond).
  { unfold scope_bindings. rewrite Hc. apply list_elem_of_In in Ha. by destruct Ha as [<-|[<-|[<-|[<-|[]]]]]. }
  rewrite E. apply (bound_flat_map _ _ _ m Hw). destruct Hm as [[Hk (nm & Hn & Et)]|[Hk Hp]].
  - rewrite bool_decide_eq_true_2, Hn by done. by apply bound_one.
  - rewrite Hk. change (bool_decide ("record_pattern_component" = "instanceof_expression")) with false.
    change (bool_decide ("record_pattern_component" = "record_pattern_component")) with true. cbv iota. by apply pattern_bound.
Qed.
Lemma tested_bound doc cursor name a id : tested name a id → a ∈ ancestors id ∧ bound name (scope_bindings source doc cursor a).
Proof.
  intros [cond Hk [Hc _] (m & Hw & Hm)%introduces_within [Ha _]|cond Hk [Hc _] (m & Hw & Hm)%introduces_within [Ha _]
    |cond Hk [Hc _] (m & Hw & Hm)%introduces_within [Ha _]]; (split; [done|]); (eapply condition_bound; [|done..]).
  1,2: apply list_elem_of_In in Hk; destruct Hk as [<-|[<-|[]]]; apply (bool_decide_eq_true_1 (_ ∈ _)); by vm_compute.
  rewrite Hk. apply (bool_decide_eq_true_1 (_ ∈ _)). by vm_compute.
Qed.
Lemma labelled_bound doc cursor a id name : kind a = "switch_rule" → labelled a id name → bound name (scope_bindings source doc cursor a).
Proof.
  intros Hk (_ & label & n & Hl & Hlk & Hw & _ & Hn & Hp). unfold scope_bindings. rewrite Hk.
  change (bool_decide ("switch_rule" ∈ block_kinds)) with false.
  change (bool_decide ("switch_rule" = "for_statement")) with false. change (bool_decide ("switch_rule" = "enhanced_for_statement")) with false.
  change (bool_decide ("switch_rule" = "switch_rule")) with true. cbv iota. unfold push_pattern_bindings. eapply (bound_flat_map _ _ _ n).
  - apply list_elem_of_In, in_flat_map. exists label. rewrite <-!list_elem_of_In, elem_of_rev, named_visited_elem. split; [|done].
    apply list_elem_of_In, filter_In. rewrite <-list_elem_of_In. by rewrite bool_decide_eq_true_2.
  - rewrite bool_decide_eq_true_2 by done. by apply pattern_bound.
Qed.
Lemma scope_bound doc cursor id name : in_scope id name true → start_byte id = cursor →
  ∃ a, a ∈ id :: ancestors id ∧ bound name (scope_bindings source doc cursor a).
Proof.
  intros H <-. inversion H as [a c Ha Hk Hc (Hck & Hlt & d & Hd & Hdk & Hn)|a init Ha Hk Hi (Hik & _ & d & Hd & Hdk & Hn)|a Hk [Ha _] (nm & Hn & Et)
    |a ps p Hk [Ha _] Hp Hpk Hin Hkp (nm & Hn & Et)|a ps p d Hk [Ha _] Hp Hpk Hin Hkp Hd (nm & Hn & Et)|a ps p Hk [Ha _] Hp Hpk Hin Hkp Et
    |a p Hk [Ha _] Hp Hpk Et|a Ht|a w cond (_ & _ & l & b & [_ Hl] & _ & Hi) Hw Hk Hc Hcw|a Hk Hl| | | | |].
  - exists a. split; [by right|]. unfold scope_bindings. rewrite bool_decide_eq_true_2.
    2:{ apply list_elem_of_In in Hk. destruct Hk as [<-|[<-|[]]]; apply (bool_decide_eq_true_1 (_ ∈ _)); by vm_compute. }
    eapply bound_flat_map; [|by eapply locals_bound].
    apply list_elem_of_In, filter_In. rewrite <-list_elem_of_In. split; [done|]. rewrite bool_decide_eq_true_2, andb_true_r by done. by apply Nat.ltb_lt.
  - exists a. split; [by right|]. unfold scope_bindings. rewrite Hk. change (bool_decide ("for_statement" ∈ block_kinds)) with false.
    change (bool_decide ("for_statement" = "for_statement")) with true. cbv iota. rewrite Hi, bool_decide_eq_true_2 by done. by eapply locals_bound.
  - exists a. split; [by right|]. unfold scope_bindings. rewrite Hk. change (bool_decide ("enhanced_for_statement" ∈ block_kinds)) with false.
    change (bool_decide ("enhanced_for_statement" = "for_statement")) with false. change (bool_decide ("enhanced_for_statement" = "enhanced_for_statement")) with true.
    cbv iota. rewrite Hn. by apply bound_one.
  - exists a. split; [by right|]. rewrite callable_bindings by done. eapply formal_bound; [done..|].
    unfold formal_binding. rewrite bool_decide_eq_true_2, Hn by done. by apply bound_one.
  - exists a. split; [by right|]. rewrite callable_bindings by done. eapply formal_bound; [done..|].
    unfold formal_binding, spread_param_name. rewrite Hkp. change (bool_decide ("spread_parameter" = "formal_parameter")) with false.
    change (bool_decide ("spread_parameter" = "spread_parameter")) with true. cbv iota. rewrite Hd. cbn [mbind option_bind]. rewrite Hn. by apply bound_one.
  - exists a. split; [by right|]. rewrite callable_bindings by (rewrite Hk; by apply (bool_decide_eq_true_1 (_ ∈ _))).
    unfold push_params. rewrite Hp, Hpk. change (bool_decide ("inferred_parameters" = "formal_parameters")) with false.
    change (bool_decide ("inferred_parameters" = "inferred_parameters")) with true. cbv iota. exists (bare_binding source doc p). split; [|done].
    apply list_elem_of_fmap_2, list_elem_of_In, filter_In. rewrite <-list_elem_of_In. by rewrite bool_decide_eq_true_2.
  - exists a. split; [by right|]. rewrite callable_bindings by (rewrite Hk; by apply (bool_decide_eq_true_1 (_ ∈ _))).
    unfold push_params. rewrite Hp, Hpk. change (bool_decide ("identifier" = "formal_parameters")) with false.
    change (bool_decide ("identifier" = "inferred_parameters")) with false. change (bool_decide ("identifier" = "identifier")) with true. cbv iota.
    by apply bound_one.
  - destruct (tested_bound doc (start_byte id) _ _ _ Ht). exists a. split; [by right|done].
  - exists w. split; [by right|]. apply introduces_within in Hi as (m & Hm & Hor). eapply condition_bound; [done..| |done].
    eapply named_within_trans; [done|]. by eapply named_below.
  - exists a. split; [right; by destruct Hl|]. by eapply labelled_bound.
Qed.
End Declared.

Lemma enclosing_types_all source name ancs tys : enclosing_types source name ancs = Some tys →
  (∀ a, a ∈ ancs → is_Some (from_kind (kind a)) → a ∈ tys)
  ∧ ∀ a, a ∈ ancs → (kind a = "catch_clause" → catch_param_name source a ≠ Some name)
      ∧ (kind a = "try_with_resources_statement" → binds_resource source name a = false).
Proof.
  revert tys. induction ancs as [|p ancs IH]; intros tys; cbn [enclosing_types].
  { intros _. split; by intros a ?%elem_of_nil. }
  destruct (_ || _ || _) eqn:E; [done|]. intros (rest & Hr & [= <-])%bind_Some. destruct (IH rest Hr) as [H1 H2].
  apply orb_false_iff in E as [[E1 E2]%orb_false_iff _]. split.
  - intros a [->|Ha]%elem_of_cons Hk; [rewrite bool_decide_eq_true_2 by done; by left|].
    destruct (bool_decide (is_Some _)); [right|]; by apply H1.
  - intros a [->|Ha]%elem_of_cons; [|by apply H2]. split; intros Hk.
    + rewrite bool_decide_eq_true_2 in E1 by done. by apply bool_decide_eq_false in E1.
    + by rewrite bool_decide_eq_true_2 in E2 by done.
Qed.
Lemma binds_resource_spec source name a rs r : rs ∈ named_children a → kind rs = "resource_specification" →
  r ∈ named_children rs → kind r = "resource" → names source r name → binds_resource source name a = true.
Proof.
  intros Hrs Hk Hr Hkr (nm & Hn & Et). unfold binds_resource, resources. apply existsb_exists. exists r.
  rewrite Hn, filter_In, in_flat_map, !bool_decide_eq_true. split; [|done]. split; [|done]. exists rs.
  rewrite filter_In, bool_decide_eq_true, <-!list_elem_of_In. done.
Qed.
Lemma catch_names source a p name : child_of_kind "catch_formal_parameter" a = Some p → names source p name →
  catch_param_name source a = Some name.
Proof. intros Hp (nm & Hn & Et). unfold catch_param_name. unfold child_of_kind in Hp. rewrite Hp. cbn. by rewrite Hn, Et. Qed.

(** [name] is a member of a type around [id], or may be one: it is among the
    own names of a type above it, or a type above it is not known. *)
Definition maybe_member docs t symbols (doc : nat) (id : Node) (name : string) : Prop :=
  ∃ ty td x, ty ∈ ancestors id ∧ is_Some (from_kind (kind ty)) ∧ by_node t doc (node_id ty) = Some td
    ∧ rtc (inherits docs t symbols) (InProject td []) x ∧ (name ∈ own_names symbols x ∨ None ∈ inherits_from docs t symbols x).

(** C35: a name is not reported as undeclared when a declaration of it is in
    scope where the check looks for it: a local variable of a block before the
    use, a variable of a loop, a parameter of any form, a pattern variable that
    a condition or the label of a rule introduces, an exception or a resource,
    something imported statically, or a member of any type around, own or
    inherited; nor when a supertype of one of these types is not known. *)
Theorem declared_never_flagged descendant docs c symbols ctx ix static id : ids_apart docs →
  node_at descendant (od_tree (ctx_doc ctx)) (start_byte id) = id →
  let source := od_source (ctx_doc ctx) in
  let name := node_text id source in
  in_scope source id name true ∨ guarded source id name ∨ may_bind static name = true
    ∨ maybe_member docs (build docs c) symbols (current ctx) id name →
  check_unresolved_identifier descendant docs (build docs c) symbols ctx ix static id = [].
Proof.
  intros Hids Hat source name Hdecl. unfold check_unresolved_identifier. fold source. fold name.
  destruct (negb _); [done|]. destruct (bool_decide (name = "_") || may_bind static name) eqn:Em; [done|].
  apply orb_false_iff in Em as [_ Em]. case_bool_decide as Hl; [done|].
  destruct (enclosing_types source name (ancestors id)) as [tys|] eqn:Et; [|done].
  destruct (enclosing_types_all _ _ _ _ Et) as [Htys Hother].
  destruct (existsb _ tys) eqn:Eh; [by destruct tys|]. destruct tys as [|ty0 tys0] eqn:Etys; [done|]. exfalso. rewrite <-Etys in *. clear Etys ty0 tys0.
  destruct Hdecl as [Hs|[Hg|[Hm|(ty & td & x & Hty & Hk & Hn & Hx & Hor)]]].
  - apply Hl. destruct (scope_bound source (current ctx) (start_byte id) id name Hs eq_refl) as (a & Ha & b & Hb & Eb).
    unfold lookup_binding. destruct (List.find _ _) eqn:Ef; [by eexists|].
    assert (Hin : b ∈ collect_bindings descendant (od_tree (ctx_doc ctx)) source (start_byte id) (build docs c) true (current ctx)).
    { unfold collect_bindings. rewrite Hat. apply elem_of_app. left. apply list_elem_of_In, in_flat_map. exists a. by rewrite <-!list_elem_of_In. }
    apply list_elem_of_In in Hin. pose proof (find_none _ _ Ef b Hin) as Hno. cbv beta in Hno. by rewrite bool_decide_eq_true_2 in Hno.
  - destruct Hg as [a p Hk [Ha _] Hp Hnm|a rs r Hk Ha Hrs Hrk Hr Hkr Hnm _]; destruct (Hother a Ha) as [H1 H2].
    + by apply H1, (catch_names source a p).
    + specialize (H2 Hk). by rewrite (binds_resource_spec source name a rs r) in H2.
  - congruence.
  - assert (Hmay : may_have docs (build docs c) symbols ctx name ty = false).
    { apply not_true_is_false. intros Ht. assert (existsb (may_have docs (build docs c) symbols ctx name) tys = true); [|congruence].
      apply existsb_exists. exists ty. split; [|done]. by apply list_elem_of_In, Htys. }
    unfold may_have in Hmay. rewrite Hn in Hmay. destruct (member_names _ _ _ _) as [ns all] eqn:En.
    apply orb_false_iff in Hmay as [->%negb_false_iff Hns%bool_decide_eq_false].
    destruct (complete_names docs (build docs c) symbols (build_keys_apart docs c symbols Hids) (InProject td []) ns) with (x := x) as [Hu Hin]; [|done..|].
    + by apply by_node_decl in Hn.
    + destruct Hor as [Ho|Ho]; [by apply Hns, Hin|done].
Qed.

(** ** Examples *)

Module Sample.
(** The innermost named node at an offset. *)
Definition descendant (t : Tree) (byte _ : nat) : option Node :=
  Some (descend (root_node t) (λ rec n,
      match List.find (λ c, (start_byte c <=? byte)%nat && (byte <? end_byte c)%nat) (named_children n) with
      | Some c => rec c
      | None => n
      end) (root_node t)).
Definition place (doc : OpenDoc) (byte : nat) : Node := node_at descendant (od_tree doc) byte.
Definition context (doc : OpenDoc) : Ctx := mkCtx doc 0 (parse (od_tree doc) (od_source doc)).
Definition index_of (doc : OpenDoc) : LineIndex := LineIndex.new (od_source doc) LineIndex.Utf16Units.
Definition no_static : StaticImports := mkStaticImports ∅ false.
Definition reported (doc : OpenDoc) (byte : nat) : list string :=
  Lsp.d_message <$> check_unresolved_identifier descendant [doc] (build [doc] 0) Members.Sample.jdk (context doc) (index_of doc) no_static (place doc byte).

Definition doc_param : OpenDoc := mkOpenDoc "class C { int m(int a) { return a; } }" (
    node 1 "program" 0 38 [node 2 "class_declaration" 0 38 [token 3 "class" 0 5; field "name" (node 4 "identifier" 6
    7 []); field "body" (node 5 "class_body" 8 38 [token 6 "{" 8 9; node 7 "method_declaration" 10 36 [field "type"
    (node 8 "integral_type" 10 13 []); field "name" (node 9 "identifier" 14 15 []); field "parameters" (node 10
    "formal_parameters" 15 22 [token 11 "(" 15 16; node 12 "formal_parameter" 16 21 [field "type" (node 13
    "integral_type" 16 19 []); field "name" (node 14 "identifier" 20 21 [])]; token 15 ")" 21 22]); field "body"
    (node 16 "block" 23 36 [token 17 "{" 23 24; node 18 "return_statement" 25 34 [token 19 "return" 25 31; node 20
    "identifier" 32 33 []; token 21 ";" 33 34]; token 22 "}" 35 36])]; token 23 "}" 37 38])]]).
Definition use_of_a : Node := place doc_param 32.
Definition method_of_a : Node := default use_of_a (ancestors use_of_a !! 2%nat).
Definition params_of_a : Node := default use_of_a (child_by_field_name "parameters" method_of_a).
Lemma declared_never_flagged_witness :
  check_unresolved_identifier descendant [doc_param] (build [doc_param] 0) Members.Sample.jdk (context doc_param) (index_of doc_param) no_static use_of_a = [].
Proof.
  apply (declared_never_flagged descendant [doc_param] 0 Members.Sample.jdk (context doc_param) (index_of doc_param) no_static use_of_a).
  - apply (bool_decide_eq_true_1 (NoDup _)). by vm_compute.
  - by vm_compute.
  - left. apply (parameter _ _ _ method_of_a params_of_a (default use_of_a (head (named_children params_of_a)))).
    + apply (bool_decide_eq_true_1 (_ ∈ _)). by vm_compute.
    + split; [apply (list_elem_of_lookup_2 _ 2); by vm_compute|]. exists (default use_of_a (ancestors use_of_a !! 1%nat)).
      split; [by vm_compute|]. right. apply (list_elem_of_lookup_2 _ 1). by vm_compute.
    + by vm_compute.
    + by vm_compute.
    + apply (list_elem_of_lookup_2 _ 0). by vm_compute.
    + by vm_compute.
    + eexists. split; by vm_compute.
Defined.

(** Declarations where the check does not look, in programs that compile: a
    local variable of a group of statements in a [switch]; *)
Definition above_of (n : Node) (k : nat) : Node := default n (ancestors n !! k).
Definition child_at (n : Node) (k : nat) : Node := default n (named_children n !! k).
Lemma above_in n k : (k < length (ancestors n))%nat → above_of n k ∈ ancestors n.
Proof. intros [x E]%lookup_lt_is_Some. unfold above_of. rewrite E. by eapply list_elem_of_lookup_2. Qed.
Lemma child_in n k : (k < length (named_children n))%nat → child_at n k ∈ named_children n.
Proof. intros [x E]%lookup_lt_is_Some. unfold child_at. rewrite E. by eapply list_elem_of_lookup_2. Qed.
Ltac there := first [apply above_in|apply child_in]; apply Nat.ltb_lt; by vm_compute.
Definition doc_switch : OpenDoc := mkOpenDoc "class C { int m(int k) { switch (k) { case 1: int x = 1; return x; } return 0; } }" (
    node 1 "program" 0 82 [node 2 "class_declaration" 0 82 [token 3 "class" 0 5; field "name" (node 4 "identifier" 6
    7 []); field "body" (node 5 "class_body" 8 82 [token 6 "{" 8 9; node 7 "method_declaration" 10 80 [field "type"
    (node 8 "integral_type" 10 13 []); field "name" (node 9 "identifier" 14 15 []); field "parameters" (node 10
    "formal_parameters" 15 22 [token 11 "(" 15 16; node 12 "formal_parameter" 16 21 [field "type" (node 13
    "integral_type" 16 19 []); field "name" (node 14 "identifier" 20 21 [])]; token 15 ")" 21 22]); field "body"
    (node 16 "block" 23 80 [token 17 "{" 23 24; node 18 "switch_expression" 25 68 [token 19 "switch" 25 31; field
    "condition" (node 20 "parenthesized_expression" 32 35 [token 21 "(" 32 33; node 22 "identifier" 33 34 []; token
    23 ")" 34 35]); field "body" (node 24 "switch_block" 36 68 [token 25 "{" 36 37; node 26
    "switch_block_statement_group" 38 66 [node 27 "switch_label" 38 44 [token 28 "case" 38 42; node 29
    "decimal_integer_literal" 43 44 []]; token 30 ":" 44 45; node 31 "local_variable_declaration" 46 56 [field
    "type" (node 32 "integral_type" 46 49 []); field "declarator" (node 33 "variable_declarator" 50 55 [field "name"
    (node 34 "identifier" 50 51 []); token 35 "=" 52 53; field "value" (node 36 "decimal_integer_literal" 54 55
    [])]); token 37 ";" 55 56]; node 38 "return_statement" 57 66 [token 39 "return" 57 63; node 40 "identifier" 64
    65 []; token 41 ";" 65 66]]; token 42 "}" 67 68])]; node 43 "return_statement" 69 78 [token 44 "return" 69 75;
    node 45 "decimal_integer_literal" 76 77 []; token 46 ";" 77 78]; token 47 "}" 79 80])]; token 48 "}" 81 82])]]).
Example switch_local_flagged : in_scope (od_source doc_switch) (place doc_switch 64) "x" false
  ∧ reported doc_switch 64 = ["cannot find symbol: variable 'x'"].
Proof.
  split; [|by vm_compute]. set (id := place doc_switch 64). apply (group_variable _ _ _ (above_of id 1) (child_at (above_of id 1) 1));
    [there|by vm_compute|there|]. split; [by vm_compute|]. split; [apply Nat.ltb_lt; by vm_compute|].
  exists (child_at (child_at (above_of id 1) 1) 1). split; [there|]. split; [by vm_compute|]. eexists. split; by vm_compute.
Qed.
(** a pattern variable after the statement that leaves when it does not match; *)
Definition doc_negated : OpenDoc := mkOpenDoc "class C { int m(Object o) { if (!(o instanceof Integer i)) return 0; return i; } }" (
    node 1 "program" 0 82 [node 2 "class_declaration" 0 82 [token 3 "class" 0 5; field "name" (node 4 "identifier" 6
    7 []); field "body" (node 5 "class_body" 8 82 [token 6 "{" 8 9; node 7 "method_declaration" 10 80 [field "type"
    (node 8 "integral_type" 10 13 []); field "name" (node 9 "identifier" 14 15 []); field "parameters" (node 10
    "formal_parameters" 15 25 [token 11 "(" 15 16; node 12 "formal_parameter" 16 24 [field "type" (node 13
    "type_identifier" 16 22 []); field "name" (node 14 "identifier" 23 24 [])]; token 15 ")" 24 25]); field "body"
    (node 16 "block" 26 80 [token 17 "{" 26 27; node 18 "if_statement" 28 68 [token 19 "if" 28 30; field "condition"
    (node 20 "parenthesized_expression" 31 58 [token 21 "(" 31 32; node 22 "unary_expression" 32 57 [token 23 "!" 32
    33; field "operand" (node 24 "parenthesized_expression" 33 57 [token 25 "(" 33 34; node 26
    "instanceof_expression" 34 56 [field "left" (node 27 "identifier" 34 35 []); token 28 "instanceof" 36 46; field
    "right" (node 29 "type_identifier" 47 54 []); field "name" (node 30 "identifier" 55 56 [])]; token 31 ")" 56
    57])]; token 32 ")" 57 58]); field "consequence" (node 33 "return_statement" 59 68 [token 34 "return" 59 65;
    node 35 "decimal_integer_literal" 66 67 []; token 36 ";" 67 68])]; node 37 "return_statement" 69 78 [token 38
    "return" 69 75; node 39 "identifier" 76 77 []; token 40 ";" 77 78]; token 41 "}" 79 80])]; token 42 "}" 81
    82])]]).
Example negated_pattern_flagged : in_scope (od_source doc_negated) (place doc_negated 76) "i" false
  ∧ reported doc_negated 76 = ["cannot find symbol: variable 'i'"].
Proof.
  split; [|by vm_compute]. set (id := place doc_negated 76). set (s := child_at (above_of id 1) 0). set (c := child_at s 0).
  apply (past_statement _ _ _ (above_of id 1) s c (child_at s 1)).
  - there.
  - there.
  - apply Nat.leb_le. by vm_compute.
  - by vm_compute.
  - split; [by vm_compute|there].
  - apply (introduces_paren _ _ _ _ (child_at c 0)); [by vm_compute|there|].
    apply (introduces_not _ _ true _ (child_at (child_at c 0) 0)); [by vm_compute| |split; [by vm_compute|there]|].
    + eexists. split; [apply (list_elem_of_lookup_2 _ 0); by vm_compute|]. split; by vm_compute.
    + apply (introduces_paren _ _ _ _ (child_at (child_at (child_at c 0) 0) 0)); [by vm_compute|there|].
      apply introduces_type; [by vm_compute|]. eexists. split; by vm_compute.
  - by vm_compute.
  - apply leaves_jump. apply (bool_decide_eq_true_1 (_ ∈ _)). by vm_compute.
  - by vm_compute.
Qed.
(** and one in the condition of an expression. *)
Definition doc_conjunction : OpenDoc := mkOpenDoc "class C { boolean m(Object o) { return o instanceof Integer i && i > 0; } }" (
    node 1 "program" 0 75 [node 2 "class_declaration" 0 75 [token 3 "class" 0 5; field "name" (node 4 "identifier" 6
    7 []); field "body" (node 5 "class_body" 8 75 [token 6 "{" 8 9; node 7 "method_declaration" 10 73 [field "type"
    (node 8 "boolean_type" 10 17 []); field "name" (node 9 "identifier" 18 19 []); field "parameters" (node 10
    "formal_parameters" 19 29 [token 11 "(" 19 20; node 12 "formal_parameter" 20 28 [field "type" (node 13
    "type_identifier" 20 26 []); field "name" (node 14 "identifier" 27 28 [])]; token 15 ")" 28 29]); field "body"
    (node 16 "block" 30 73 [token 17 "{" 30 31; node 18 "return_statement" 32 71 [token 19 "return" 32 38; node 20
    "binary_expression" 39 70 [field "left" (node 21 "instanceof_expression" 39 61 [field "left" (node 22
    "identifier" 39 40 []); token 23 "instanceof" 41 51; field "right" (node 24 "type_identifier" 52 59 []); field
    "name" (node 25 "identifier" 60 61 [])]); token 26 "&&" 62 64; field "right" (node 27 "binary_expression" 65 70
    [field "left" (node 28 "identifier" 65 66 []); token 29 ">" 67 68; field "right" (node 30
    "decimal_integer_literal" 69 70 [])])]; token 31 ";" 70 71]; token 32 "}" 72 73])]; token 33 "}" 74 75])]]).
Example conjunction_flagged : in_scope (od_source doc_conjunction) (place doc_conjunction 65) "i" false
  ∧ reported doc_conjunction 65 = ["cannot find symbol: variable 'i'"].
Proof.
  split; [|by vm_compute]. set (id := place doc_conjunction 65). set (a := above_of id 1).
  apply (operand_variable _ _ _ a). split; [by vm_compute|]. split.
  - split; [there|]. exists (above_of id 0). split; [by vm_compute|]. right. there.
  - exists (child_at a 0), true. split; [split; [by vm_compute|there]|]. split.
    + eexists. split; [apply (list_elem_of_lookup_2 _ 1); by vm_compute|]. split; by vm_compute.
    + apply introduces_type; [by vm_compute|]. eexists. split; by vm_compute.
Qed.

(** A field of a class declared in a method hides the method's variable, but
    fields come last among the bindings. *)
Definition doc_shadowed : OpenDoc := mkOpenDoc "class C { void m() { int x = 1; class D { String x; Object n() { return x; } } } }" (
    node 1 "program" 0 82 [node 2 "class_declaration" 0 82 [token 3 "class" 0 5; field "name" (node 4 "identifier" 6
    7 []); field "body" (node 5 "class_body" 8 82 [token 6 "{" 8 9; node 7 "method_declaration" 10 80 [field "type"
    (node 8 "void_type" 10 14 []); field "name" (node 9 "identifier" 15 16 []); field "parameters" (node 10
    "formal_parameters" 16 18 [token 11 "(" 16 17; token 12 ")" 17 18]); field "body" (node 13 "block" 19 80 [token
    14 "{" 19 20; node 15 "local_variable_declaration" 21 31 [field "type" (node 16 "integral_type" 21 24 []); field
    "declarator" (node 17 "variable_declarator" 25 30 [field "name" (node 18 "identifier" 25 26 []); token 19 "=" 27
    28; field "value" (node 20 "decimal_integer_literal" 29 30 [])]); token 21 ";" 30 31]; node 22
    "class_declaration" 32 78 [token 23 "class" 32 37; field "name" (node 24 "identifier" 38 39 []); field "body"
    (node 25 "class_body" 40 78 [token 26 "{" 40 41; node 27 "field_declaration" 42 51 [field "type" (node 28
    "type_identifier" 42 48 []); field "declarator" (node 29 "variable_declarator" 49 50 [field "name" (node 30
    "identifier" 49 50 [])]); token 31 ";" 50 51]; node 32 "method_declaration" 52 76 [field "type" (node 33
    "type_identifier" 52 58 []); field "name" (node 34 "identifier" 59 60 []); field "parameters" (node 35
    "formal_parameters" 60 62 [token 36 "(" 60 61; token 37 ")" 61 62]); field "body" (node 38 "block" 63 76 [token
    39 "{" 63 64; node 40 "return_statement" 65 74 [token 41 "return" 65 71; node 42 "identifier" 72 73 []; token 43
    ";" 73 74]; token 44 "}" 75 76])]; token 45 "}" 77 78])]; token 46 "}" 79 80])]; token 47 "}" 81 82])]]).
Example hidden_local_found :
  b_kind <$> lookup_binding descendant (od_tree doc_shadowed) (od_source doc_shadowed) 72 "x" (build [doc_shadowed] 0) 0 = Some Local.
Proof. by vm_compute. Qed.
End Sample.
End Bindings.
