(* ===== verification/Hygiene.v ===== *)
(** * Unreachable and unused code ([crates/syntax/src/diagnostics.rs])

    The checks that need one document's tree only: statements no execution
    reaches, and local variables, parameters and private members whose names
    occur nowhere else.  What is reached is said by an execution relation over
    statements that decides no condition, so it covers every run of a program. *)
From Stdlib Require Import Ascii.
From S2P Require Import Prelude RustStd Lsp LineIndex SyntaxTree Outline Signatures SourceModel Bindings.
Import LineIndex(LineIndex).
Import Outline(range, MAX_DIAGNOSTICS).
Import Signatures(modifiers_node, has_modifier).
Import Bindings(coded_diagnostic).

Module Hygiene.

(** ** Completing normally *)

Definition jump_kinds : list string := ["return_statement"; "throw_statement"; "break_statement"; "continue_statement"].
Definition body_kinds : list string := ["block"; "constructor_body"].
Definition try_kinds : list string := ["try_statement"; "try_with_resources_statement"].
Definition is_comment (n : Node) : bool := bool_decide (kind n ∈ ["line_comment"; "block_comment"]).
Definition statements (block : Node) : list Node := List.filter (λ c, negb (is_comment c)) (named_children block).
Definition catch_body (c : Node) : option Node :=
  if bool_decide (kind c = "catch_clause") then child_by_field_name "body" c else None.
Definition finally_body (c : Node) : option Node :=
  if bool_decide (kind c = "finally_clause") then child_of_kind "block" c else None.
Definition block_step (can : Node → bool) (block : Node) : bool := forallb can (statements block).
Definition try_step (can : Node → bool) (statement : Node) : bool :=
  match child_by_field_name "body" statement with
  | None => true
  | Some body =>
      let '(body_or_catch, finally_can_complete) :=
        fold_left (λ '(body_or_catch, finally_can_complete) child,
            (body_or_catch || match catch_body child with Some b => block_step can b | None => false end,
             match finally_body child with Some b => block_step can b | None => finally_can_complete end))
          (named_children statement) (block_step can body, true) in
      body_or_catch && finally_can_complete
  end.
Definition can_step (can : Node → bool) (statement : Node) : bool :=
  let k := kind statement in
  if bool_decide (k ∈ jump_kinds) then false
  else if bool_decide (k ∈ body_kinds) then block_step can statement
  else if bool_decide (k ∈ try_kinds) then try_step can statement
  else true.
Definition can_complete_normally : Node → bool := descend true can_step.
Definition block_can_complete_normally : Node → bool := block_step can_complete_normally.
Definition try_can_complete_normally : Node → bool := try_step can_complete_normally.

Definition UNREACHABLE_CODE : string := "jvl.unreachable".
Fixpoint unreachable_from (terminated : bool) (ss : list Node) : option Node :=
  match ss with
  | [] => None
  | s :: ss => if terminated then Some s else unreachable_from (negb (can_complete_normally s)) ss
  end.
Definition check_unreachable (ix : LineIndex) (block : Node) : list Diagnostic :=
  if has_error block then []
  else match unreachable_from false (statements block) with
       | Some s => [coded_diagnostic (range ix s) UNREACHABLE_CODE "unreachable statement"]
       | None => []
       end.

(** ** Names that occur nowhere else *)

Inductive DiagnosticTag := UNNECESSARY.
(** A diagnostic and its tags. *)
Record Hint := mkHint { hint_diagnostic : Diagnostic; tags : list DiagnosticTag }.
Definition UNUSED_CODE : string := "jvl.unused".
(** The code and source of [coded_diagnostic], as a warning that fades. *)
Definition unused_diagnostic (r : Range) (message : string) : Hint :=
  let d := coded_diagnostic r UNUSED_CODE message in
  mkHint (mkDiagnostic (d_range d) (Some WARNING) (d_code d) (d_source d) (d_message d)) [UNNECESSARY].

(** Nodes from a stack, until one is found. *)
Fixpoint any_visited (p : Node → bool) (fuel : nat) (stack : list Node) : option bool :=
  match stack with
  | [] => Some false
  | n :: stack =>
      match fuel with
      | O => None
      | S fuel => if p n then Some true else any_visited p fuel (rev (children n) ++ stack)
      end
  end.

Section Unused.
Context (source : string).

Definition count_identifier (counts : gmap string nat) (n : Node) : gmap string nat :=
  if bool_decide (kind n = "identifier") then
    let name := node_text n source in <[name := S (default 0%nat (counts !! name))]> counts
  else counts.
Definition identifier_counts (t : Tree) : gmap string nat := walk_tree count_identifier ∅ t.
Definition is_use (name_node : Node) (name : string) (n : Node) : bool :=
  bool_decide (kind n = "identifier") && negb (same_node n name_node) && bool_decide (node_text n source = name).
Definition name_used (scope name_node : Node) (name : string) : bool :=
  default false (any_visited (is_use name_node name) (size scope) [scope]).
Definition owner_kinds : list string := ["method_declaration"; "constructor_declaration"; "static_initializer"; "class_body"].
Fixpoint scope_above (n : Node) (ancs : list Node) : option Node :=
  match ancs with
  | [] => None
  | p :: ancs =>
      if bool_decide (kind p ∈ owner_kinds) then if bool_decide (kind n ∈ body_kinds) then Some n else None
      else scope_above p ancs
  end.
Definition local_scope (declaration : Node) : option Node := scope_above declaration (ancestors declaration).
Definition annotation_kinds : list string := ["annotation"; "marker_annotation"].
Definition has_annotation (declaration : Node) : bool :=
  match modifiers_node declaration with
  | Some modifiers => existsb (λ m, bool_decide (kind m ∈ annotation_kinds)) (children modifiers)
  | None => false
  end.
Definition is_override (m : Node) : bool :=
  bool_decide (kind m ∈ annotation_kinds)
  && match child_by_field_name "name" m with Some name => bool_decide (split_last "." (node_text name source) = "Override") | None => false end.
Definition has_override (declaration : Node) : bool :=
  match modifiers_node declaration with Some modifiers => existsb is_override (children modifiers) | None => false end.

(** What is reported: a name and the message. *)
Definition Finding : Type := Node * string.
Definition to_hint (ix : LineIndex) (f : Finding) : Hint := unused_diagnostic (range ix f.1) f.2.
(** [for item in items { if out.len() >= MAX_DIAGNOSTICS { return } .. }] *)
Fixpoint until_full (count : nat) (check : Node → option Finding) (items : list Node) : list Finding :=
  match items with
  | [] => []
  | item :: items =>
      if (MAX_DIAGNOSTICS <=? count)%nat then []
      else match check item with
           | Some f => f :: until_full (S count) check items
           | None => until_full count check items
           end
  end.
(** The name an item declares, when it is dead. *)
Definition dead_name (what : string) (dead : Node → string → bool) (item : Node) : option Finding :=
  name_node ← child_by_field_name "name" item;
  let name := node_text name_node source in
  if dead name_node name then Some (name_node, "unused " +:+ what +:+ " '" +:+ name +:+ "'") else None.

Definition check_unused_locals (count : nat) (declaration : Node) : list Finding :=
  match local_scope declaration with
  | None => []
  | Some scope =>
      if has_error scope then []
      else until_full count (dead_name "local variable" (λ nm name, negb (name_used scope nm name)))
             (children_by_field_name "declarator" declaration)
  end.
Definition counted_once (counts : gmap string nat) (name : string) : bool := (default 0 (counts !! name) =? 1)%nat.
Definition check_unused_private_fields (count : nat) (root : Node) (counts : gmap string nat) (field : Node) : list Finding :=
  if has_error root then []
  else if negb (has_modifier field source "private") || has_annotation field then []
  else until_full count
         (dead_name "private field" (λ _ name, negb (bool_decide (name = "serialVersionUID")) && counted_once counts name))
         (children_by_field_name "declarator" field).
Definition check_unused_parameters (count : nat) (callable : Node) : list Finding :=
  match child_by_field_name "body" callable, child_by_field_name "parameters" callable with
  | Some body, Some parameters =>
      if has_error body || has_error parameters then []
      else until_full count
             (λ p, if bool_decide (kind p = "formal_parameter")
                   then dead_name "parameter" (λ nm name, negb (name_used body nm name)) p else None)
             (named_children parameters)
  | _, _ => []
  end.
Definition check_unused_method (count : nat) (root : Node) (counts : gmap string nat) (method : Node) : list Finding :=
  match child_by_field_name "name" method with
  | None => []
  | Some name_node =>
      let name := node_text name_node source in
      let is_private := has_modifier method source "private" in
      let out := if is_private && negb (has_annotation method) && negb (has_error root) && counted_once counts name
                 then [(name_node, "unused private method '" +:+ name +:+ "'")] else [] in
      if (is_private || has_modifier method source "static") && negb (has_override method) && negb (bool_decide (name = "main"))
      then out ++ check_unused_parameters (count + length out) method else out
  end.
(** The calls the pass over the tree makes for a node. *)
Definition unused_at (count : nat) (root : Node) (counts : gmap string nat) (n : Node) : list Finding :=
  let k := kind n in
  if bool_decide (k = "local_variable_declaration") then check_unused_locals count n
  else if bool_decide (k = "field_declaration") then check_unused_private_fields count root counts n
  else if bool_decide (k = "method_declaration") then check_unused_method count root counts n
  else if bool_decide (k = "constructor_declaration") then check_unused_parameters count n
  else [].
End Unused.

(** ** Executing

    Where the execution of a statement goes is left open except where its
    form decides it: a jump does not complete, a block runs its statements in
    turn, a [try] runs its body, which may throw before its first statement,
    then a handler perhaps, then its [finally].  Any other construct may run
    what it is made of in any order and any number of times, and end either
    way.  The trace lists what has been entered. *)
Inductive outcome := Normal | Abrupt.
Definition plain (n : Node) : Prop :=
  kind n ∉ jump_kinds ∧ kind n ∉ body_kinds ∧ (kind n ∈ try_kinds → child_by_field_name "body" n = None).
Definition finally_block (n : Node) : option Node := last (omap finally_body (named_children n)).
Definition finally_statements (n : Node) : list Node := match finally_block n with Some b => statements b | None => [] end.

Definition after (finally o : outcome) : outcome := match finally with Normal => o | Abrupt => Abrupt end.

Inductive exec : Node → outcome → list Node → Prop :=
| exec_jump n l tr :
    kind n ∈ jump_kinds → l ⊆ children n → runs l tr → exec n Abrupt (n :: tr)
| exec_block n o tr :
    kind n ∈ body_kinds → execs (statements n) o tr → exec n o (n :: tr)
| exec_try n body l trl o trb o' tr :
    kind n ∈ try_kinds → child_by_field_name "body" n = Some body →
    l ⊆ children n → Forall (λ c, kind c = "resource_specification") l → runs l trl →
    execs (statements body) o trb → finishes n o trb o' tr → exec n o' (n :: trl ++ tr)
| exec_try_throws n body l trl o' tr :
    kind n ∈ try_kinds → child_by_field_name "body" n = Some body →
    l ⊆ children n → Forall (λ c, kind c = "resource_specification") l → runs l trl →
    finishes n Abrupt [] o' tr → exec n o' (n :: trl ++ tr)
| exec_other n l o tr :
    plain n → l ⊆ children n → runs l tr → exec n o (n :: tr)
(** A [try] whose body has ended. *)
with finishes : Node → outcome → list Node → outcome → list Node → Prop :=
| finish_through n o trb o' trf :
    execs (finally_statements n) o' trf → finishes n o trb (after o' o) (trb ++ trf)
| finish_caught n trb c body o trc o' trf :
    c ∈ named_children n → catch_body c = Some body → execs (statements body) o trc →
    execs (finally_statements n) o' trf →
    finishes n Abrupt trb (after o' o) (trb ++ trc ++ trf)
(** Statements in turn. *)
with execs : list Node → outcome → list Node → Prop :=
| execs_end : execs [] Normal []
| execs_next c cs tr o tr' : exec c Normal tr → execs cs o tr' → execs (c :: cs) o (tr ++ tr')
| execs_stop c cs tr : exec c Abrupt tr → execs (c :: cs) Abrupt tr
(** Parts, one after the other. *)
with runs : list Node → list Node → Prop :=
| runs_end : runs [] []
| runs_next c cs o tr tr' : exec c o tr → runs cs tr' → runs (c :: cs) (tr ++ tr').
Scheme exec_mut := Minimality for exec Sort Prop
  with finishes_mut := Minimality for finishes Sort Prop
  with execs_mut := Minimality for execs Sort Prop
  with runs_mut := Minimality for runs Sort Prop.
Combined Scheme exec_all from exec_mut, finishes_mut, execs_mut, runs_mut.

Definition reachable (n x : Node) : Prop := ∃ o tr, exec n o tr ∧ x ∈ tr.

(** ** What the analysis computes *)

Lemma forallb_ext_elem {A} (f g : A → bool) l : (∀ x, x ∈ l → f x = g x) → forallb f l = forallb g l.
Proof. induction l as [|x l IH]; intros H; [done|]. cbn. rewrite H, IH by set_solver. done. Qed.
Lemma existsb_ext_elem {A} (f g : A → bool) l : (∀ x, x ∈ l → f x = g x) → existsb f l = existsb g l.
Proof. induction l as [|x l IH]; intros H; [done|]. cbn. rewrite H, IH by set_solver. done. Qed.

Lemma statement_child n s : s ∈ statements n → s ∈ children n.
Proof.
  unfold statements. rewrite list_elem_of_In, List.filter_In, <-list_elem_of_In. by intros [[H _]%named_child_is_child _].
Qed.
Lemma catch_body_child c b : catch_body c = Some b → b ∈ children c.
Proof. unfold catch_body. case_bool_decide; [|done]. by intros [Hc _]%child_by_field_name_child. Qed.
Lemma finally_body_child c b : finally_body c = Some b → b ∈ children c.
Proof. unfold finally_body. case_bool_decide; [|done]. by intros [Hc _]%child_of_kind_child. Qed.

Lemma try_fold can l : ∀ b f,
  fold_left (λ '(body_or_catch, finally_can_complete) child,
      (body_or_catch || match catch_body child with Some b => block_step can b | None => false end,
       match finally_body child with Some b => block_step can b | None => finally_can_complete end)) l (b, f)
  = (b || existsb (λ c, match catch_body c with Some b => block_step can b | None => false end) l,
     match last (omap finally_body l) with Some b => block_step can b | None => f end).
Proof.
  induction l as [|c l IH]; intros b f; cbn [fold_left existsb omap list_omap]; [by rewrite orb_false_r|].
  rewrite IH, orb_assoc. f_equal. destruct (finally_body c) as [x|]; [|done]. rewrite last_cons. by destruct (last _).
Qed.
Lemma try_step_eq can n : try_step can n = match child_by_field_name "body" n with
  | None => true
  | Some body =>
      (block_step can body || existsb (λ c, match catch_body c with Some b => block_step can b | None => false end) (named_children n))
      && forallb can (finally_statements n)
  end.
Proof.
  unfold try_step. destruct (child_by_field_name "body" n) as [body|]; [|done]. rewrite try_fold.
  unfold finally_statements, finally_block. by destruct (last _).
Qed.

(** What is two steps below. *)
Lemma finally_statement_smaller n s : s ∈ finally_statements n → (size s < size n)%nat.
Proof.
  unfold finally_statements, finally_block. destruct (last _) as [b|] eqn:E; [|by intros H%elem_of_nil].
  intros Hs%statement_child%child_smaller. apply last_Some in E as [pre E].
  assert (Hb : b ∈ omap finally_body (named_children n)) by (rewrite E; set_solver).
  apply list_elem_of_omap in Hb as (c & Hc & Hb). apply named_child_is_child in Hc as [Hc%child_smaller _].
  apply finally_body_child, child_smaller in Hb. lia.
Qed.
Lemma can_step_descends : descends can_step.
Proof.
  intros n g h Hg. unfold can_step. destruct (bool_decide _); [done|].
  assert (Hb : ∀ b, (size b ≤ size n)%nat → block_step g b = block_step h b).
  { intros b Hb. unfold block_step. apply forallb_ext_elem. intros s Hs%statement_child%child_smaller. apply Hg. lia. }
  destruct (bool_decide _); [by apply Hb|]. destruct (bool_decide _); [|done]. rewrite !try_step_eq.
  destruct (child_by_field_name "body" n) as [body|] eqn:E; [|done].
  apply child_by_field_name_child in E as [Hc%child_smaller _]. rewrite (Hb body) by lia. f_equal; [f_equal|].
  - apply existsb_ext_elem. intros c [Hcc%child_smaller _]%named_child_is_child. destruct (catch_body c) as [b|] eqn:Eb; [|done].
    apply catch_body_child, child_smaller in Eb. apply Hb. lia.
  - apply forallb_ext_elem. intros s Hs%finally_statement_smaller. by apply Hg.
Qed.
Lemma can_eq n : can_complete_normally n = can_step can_complete_normally n.
Proof. by apply descend_eq, can_step_descends. Qed.
Lemma apart (A B : list string) k : bool_decide (Forall (λ a, a ∉ B) A) = true → k ∈ A → k ∉ B.
Proof. intros H%bool_decide_eq_true. rewrite Forall_forall in H. apply H. Qed.
Lemma body_no_jump k : k ∈ body_kinds → k ∉ jump_kinds.
Proof. by apply apart. Qed.
Lemma try_no_jump k : k ∈ try_kinds → k ∉ jump_kinds.
Proof. by apply apart. Qed.
Lemma try_no_body k : k ∈ try_kinds → k ∉ body_kinds.
Proof. by apply apart. Qed.
Lemma can_jump n : kind n ∈ jump_kinds → can_complete_normally n = false.
Proof. intros H. rewrite can_eq. unfold can_step. by rewrite bool_decide_eq_true_2. Qed.
Lemma can_body n : kind n ∈ body_kinds → can_complete_normally n = block_can_complete_normally n.
Proof.
  intros H. rewrite can_eq. unfold can_step.
  rewrite bool_decide_eq_false_2 by (by apply body_no_jump). by rewrite bool_decide_eq_true_2.
Qed.
Lemma can_try n body : kind n ∈ try_kinds → child_by_field_name "body" n = Some body →
  can_complete_normally n =
    (block_can_complete_normally body
     || existsb (λ c, match catch_body c with Some b => block_can_complete_normally b | None => false end) (named_children n))
    && forallb can_complete_normally (finally_statements n).
Proof.
  intros H E. rewrite can_eq. unfold can_step. rewrite bool_decide_eq_false_2 by (by apply try_no_jump).
  rewrite bool_decide_eq_false_2 by (by apply try_no_body). rewrite bool_decide_eq_true_2 by done. by rewrite try_step_eq, E.
Qed.
Lemma can_plain n : plain n → can_complete_normally n = true.
Proof.
  intros (Hj & Hb & Ht). rewrite can_eq. unfold can_step. rewrite !bool_decide_eq_false_2 by done.
  case_bool_decide; [|done]. by rewrite try_step_eq, Ht.
Qed.
(** The four forms. *)
Lemma forms n : kind n ∈ jump_kinds ∨ kind n ∈ body_kinds
  ∨ (∃ body, kind n ∈ try_kinds ∧ child_by_field_name "body" n = Some body) ∨ plain n.
Proof.
  destruct (decide (kind n ∈ jump_kinds)) as [|Hj]; [by left|]. destruct (decide (kind n ∈ body_kinds)) as [|Hb]; [by right; left|].
  do 2 right. destruct (decide (kind n ∈ try_kinds)) as [Ht|Ht].
  - destruct (child_by_field_name "body" n) as [body|] eqn:E; [left; by exists body|by right].
  - right. by split_and!.
Qed.

(** ** It agrees with execution *)

Lemma normal_can :
  (∀ n o tr, exec n o tr → o = Normal → can_complete_normally n = true)
  ∧ (∀ n o trb o' tr, finishes n o trb o' tr → o' = Normal → forallb can_complete_normally (finally_statements n) = true
       ∧ (o = Normal ∨ existsb (λ c, match catch_body c with Some b => block_can_complete_normally b | None => false end) (named_children n) = true))
  ∧ (∀ l o tr, execs l o tr → o = Normal → forallb can_complete_normally l = true)
  ∧ (∀ l tr, runs l tr → True).
Proof.
  apply exec_all; try done.
  - intros n o tr Hk _ IH ->. rewrite can_body by done. by apply IH.
  - intros n body l trl o trb o' tr Hk Hb _ _ _ _ _ IHb _ IH ->. rewrite (can_try _ _ Hk Hb).
    destruct (IH eq_refl) as [-> [-> | ->]]; [|by rewrite orb_true_r]. unfold block_can_complete_normally at 1, block_step. by rewrite IHb.
  - intros n body l trl o' tr Hk Hb _ _ _ _ _ IH ->. rewrite (can_try _ _ Hk Hb).
    destruct (IH eq_refl) as [-> [[=] | ->]]. by rewrite orb_true_r.
  - intros n l o tr Hp _ _ _ _. by apply can_plain.
  - intros n o trb o' trf _ IH Ho. destruct o'; [|done]. split; [by apply IH|by left].
  - intros n trb c body o trc o' trf Hc Eb _ IHb _ IH Ho. destruct o'; [|done]. split; [by apply IH|right].
    apply existsb_exists. exists c. split; [by apply list_elem_of_In|]. rewrite Eb. by apply IHb.
  - intros c cs tr o tr' _ IHc _ IH ->. cbn. by rewrite IHc, IH.
Qed.
Lemma statements_execute l : (∀ s, s ∈ l → can_complete_normally s = true → ∃ tr, exec s Normal tr) →
  forallb can_complete_normally l = true → ∃ tr, execs l Normal tr.
Proof.
  induction l as [|c l IH]; intros He; [exists []; constructor|]. intros [Hc Hl]%andb_true_iff.
  destruct (He c) as [tr Htr]; [by left|done|]. destruct IH as [tr' Htr']; [set_solver|done|]. exists (tr ++ tr'). by econstructor.
Qed.
Lemma can_normal n : can_complete_normally n = true → ∃ tr, exec n Normal tr.
Proof.
  induction n as [n IH] using size_ind. intros Hcan.
  assert (Hb : ∀ b, (size b ≤ size n)%nat → block_can_complete_normally b = true → ∃ tr, execs (statements b) Normal tr).
  { intros b Hb. apply statements_execute. intros s Hs%statement_child%child_smaller. apply IH. lia. }
  destruct (forms n) as [Hj|[Hk|[(body & Hk & Eb)|Hp]]].
  - by rewrite can_jump in Hcan.
  - rewrite can_body in Hcan by done. destruct (Hb n) as [tr Htr]; [lia|done|]. exists (n :: tr). by constructor.
  - rewrite (can_try _ _ Hk Eb) in Hcan. apply andb_true_iff in Hcan as [Hcan Hf].
    destruct (statements_execute (finally_statements n)) as [trf Htrf]; [|done|].
    { intros s Hs%finally_statement_smaller. by apply IH. }
    apply orb_true_iff in Hcan as [Hcan|(c & Hc & Hcan)%existsb_exists].
    + apply child_by_field_name_child in Eb as Hbc. destruct Hbc as [Hbc%child_smaller _].
      destruct (Hb body) as [trb Htrb]; [lia|done|]. exists (n :: [] ++ trb ++ trf).
      eapply (exec_try n body []); [done..|apply list_subseteq_nil|by constructor|constructor|done|]. by apply (finish_through n Normal trb Normal).
    + apply list_elem_of_In in Hc. destruct (catch_body c) as [b|] eqn:Ec; [|done].
      pose proof (catch_body_child _ _ Ec) as Hbc%child_smaller. pose proof Hc as [Hcc%child_smaller _]%named_child_is_child.
      destruct (Hb b) as [trc Htrc]; [lia|done|]. exists (n :: [] ++ [] ++ trc ++ trf).
      eapply (exec_try_throws n body []); [done..|apply list_subseteq_nil|by constructor|constructor|]. by eapply (finish_caught n [] c b Normal trc Normal).
  - exists (n :: []). eapply (exec_other n []); [done|apply list_subseteq_nil|constructor].
Qed.
(** Every statement can be begun. *)
Lemma statements_begin l : (∀ s, s ∈ l → ∃ o tr, exec s o tr) → ∃ o tr, execs l o tr.
Proof.
  induction l as [|c l IH]; intros He; [exists Normal, []; constructor|].
  destruct (He c) as ([|] & tr & Htr); [by left| |by exists Abrupt, tr; constructor].
  destruct IH as (o & tr' & Htr'); [set_solver|]. exists o, (tr ++ tr'). by econstructor.
Qed.
Lemma begins n : ∃ o tr, exec n o (n :: tr).
Proof.
  induction n as [n IH] using size_ind.
  assert (Hb : ∀ l, (∀ s, s ∈ l → (size s < size n)%nat) → ∃ o tr, execs l o tr).
  { intros l Hl. apply statements_begin. intros s Hs. destruct (IH s) as (o & tr & H); [by apply Hl|by exists o, (s :: tr)]. }
  destruct (forms n) as [Hj|[Hk|[(body & Hk & Eb)|Hp]]].
  - exists Abrupt, []. eapply (exec_jump n []); [done|apply list_subseteq_nil|constructor].
  - destruct (Hb (statements n)) as (o & tr & H); [by intros s Hs%statement_child%child_smaller|]. exists o, tr. by constructor.
  - destruct (Hb (finally_statements n)) as (o & tr & H); [apply finally_statement_smaller|].
    exists (after o Abrupt), tr. eapply (exec_try_throws n body [] []); [done..|apply list_subseteq_nil|by constructor|constructor|].
    by apply (finish_through n Abrupt [] o).
  - exists Normal, []. eapply (exec_other n []); [done|apply list_subseteq_nil|constructor].
Qed.

Lemma exec_enters n o tr : exec n o tr → n ∈ tr.
Proof. by destruct 1; left. Qed.

(** An execution stays in what it executes. *)
Definition inside (n : Node) (tr : list Node) : Prop := ∀ m, m ∈ tr → within n m.
Definition inside_some (l tr : list Node) : Prop := ∀ m, m ∈ tr → ∃ x, x ∈ l ∧ within x m.
Lemma inside_below n l tr m : inside_some l tr → (∀ x, x ∈ l → within n x) → m ∈ tr → within n m.
Proof. intros Ht Hl (x & Hx & Hm)%Ht. eapply within_trans; [by apply Hl|done]. Qed.
Lemma children_within n x : x ∈ children n → within n x.
Proof. intros H. eapply within_child; [done|constructor]. Qed.
Lemma statements_within n b x : within n b → x ∈ statements b → within n x.
Proof. intros Hb Hx. eapply within_trans; [done|]. by apply children_within, statement_child. Qed.
Lemma handler_within n c b : c ∈ named_children n → catch_body c = Some b → within n b.
Proof.
  intros [Hc _]%named_child_is_child Hb%catch_body_child. eapply within_child; [done|by apply children_within].
Qed.
Lemma finally_within n x : x ∈ finally_statements n → ∃ b, within n b ∧ x ∈ statements b ∧ finally_statements n = statements b.
Proof.
  unfold finally_statements, finally_block. destruct (last _) as [b|] eqn:E; [|by intros H%elem_of_nil]. intros Hx. exists b.
  split; [|by split]. apply last_Some in E as [pre E].
  assert (Hb : b ∈ omap finally_body (named_children n)) by (rewrite E; set_solver).
  apply list_elem_of_omap in Hb as (c & [Hc _]%named_child_is_child & Hb%finally_body_child).
  eapply within_child; [done|by apply children_within].
Qed.
Lemma exec_inside :
  (∀ n o tr, exec n o tr → inside n tr) ∧ (∀ n o trb o' tr, finishes n o trb o' tr → inside n trb → inside n tr)
  ∧ (∀ l o tr, execs l o tr → inside_some l tr) ∧ (∀ l tr, runs l tr → inside_some l tr).
Proof.
  apply exec_all.
  - intros n l tr _ Hl _ IHl m [->|Hm]%elem_of_cons; [constructor|]. apply (inside_below _ _ _ _ IHl); [|done]. intros x Hx. by apply children_within, Hl.
  - intros n o tr _ _ IH m [->|Hm]%elem_of_cons; [constructor|]. apply (inside_below _ _ _ _ IH); [|done].
    intros x Hx. eapply statements_within; [constructor|done].
  - intros n body l trl o trb o' tr _ [Hb%children_within _]%child_by_field_name_child Hl _ _ IHl _ IHb _ IH m
      [->|[Hm|Hm]%elem_of_app]%elem_of_cons; [constructor| |].
    + apply (inside_below _ _ _ _ IHl); [|done]. intros x Hx. by apply children_within, Hl.
    + apply IH; [|done]. intros k Hk. apply (inside_below _ _ _ _ IHb); [|done]. intros x. by apply statements_within.
  - intros n body l trl o' tr _ _ Hl _ _ IHl _ IH m [->|[Hm|Hm]%elem_of_app]%elem_of_cons; [constructor| |].
    + apply (inside_below _ _ _ _ IHl); [|done]. intros x Hx. by apply children_within, Hl.
    + apply IH; [|done]. by intros x H%elem_of_nil.
  - intros n l o tr _ Hl _ IHl m [->|Hm]%elem_of_cons; [constructor|]. apply (inside_below _ _ _ _ IHl); [|done]. intros x Hx. by apply children_within, Hl.
  - intros n o trb o' trf _ IH Hb m [Hm|Hm]%elem_of_app; [by apply Hb|]. apply (inside_below _ _ _ _ IH); [|done].
    intros x (b & Hw & Hx & _)%finally_within. by eapply statements_within.
  - intros n trb c body o trc o' trf Hc Eb _ IHc _ IH Hb m [Hm|[Hm|Hm]%elem_of_app]%elem_of_app; [by apply Hb| |].
    + apply (inside_below _ _ _ _ IHc); [|done]. intros x. apply statements_within. by eapply handler_within.
    + apply (inside_below _ _ _ _ IH); [|done]. intros x (b & Hw & Hx & _)%finally_within. by eapply statements_within.
  - by intros m H%elem_of_nil.
  - intros c cs tr o tr' _ IHc _ IH m [Hm|Hm]%elem_of_app.
    + exists c. split; [by left|by apply IHc].
    + destruct (IH m Hm) as (x & Hx & H). exists x. split; [by right|done].
  - intros c cs tr _ IHc m Hm. exists c. split; [by left|by apply IHc].
  - by intros m H%elem_of_nil.
  - intros c cs o tr tr' _ IHc _ IH m [Hm|Hm]%elem_of_app.
    + exists c. split; [by left|by apply IHc].
    + destruct (IH m Hm) as (x & Hx & H). exists x. split; [by right|done].
Qed.

(** A statement of a block is entered through the block only. *)
Section Through.
Context (b s : Node) (Hk : kind b = "block") (Hs : s ∈ children b).
Definition through : Prop := ∃ o tr, execs (statements b) o tr ∧ s ∈ tr.
Lemma child_of_block n : s ∈ children n → n = b.
Proof. intros Hn%parent_child. apply parent_child in Hs. congruence. Qed.
Lemma part_of_block n l : l ⊆ children n → kind n ∉ body_kinds → s ∉ l.
Proof. intros Hl Hn Hin. apply Hn. rewrite (child_of_block n) by (by apply Hl). rewrite Hk. by left. Qed.
Lemma statement_of_block n o tr : execs (statements n) o tr → s ∈ tr → s ∈ statements n ∨ through → through.
Proof. intros He Hin [H|H]; [|done]. exists o, tr. by rewrite <-(child_of_block n) by (by apply statement_child). Qed.
Lemma finally_of_block n o tr : execs (finally_statements n) o tr → s ∈ tr → s ∈ finally_statements n ∨ through → through.
Proof.
  intros He Hin [H|H]; [|done]. destruct (finally_within _ _ H) as (c & _ & Hc & E). rewrite E in He. eapply statement_of_block; eauto.
Qed.
Lemma exec_through :
  (∀ n o tr, exec n o tr → s ∈ tr → s = n ∨ through)
  ∧ (∀ n o trb o' tr, finishes n o trb o' tr → s ∈ tr → s ∈ trb ∨ through)
  ∧ (∀ l o tr, execs l o tr → s ∈ tr → s ∈ l ∨ through)
  ∧ (∀ l tr, runs l tr → s ∈ tr → s ∈ l ∨ through).
Proof.
  apply exec_all.
  - intros n l tr Hj Hl _ IH [->|Hm]%elem_of_cons; [by left|right]. destruct (IH Hm) as [H|H]; [|done].
    exfalso. eapply (part_of_block n l); [done| |done]. intros Hb. by eapply body_no_jump.
  - intros n o tr _ He IH [->|Hm]%elem_of_cons; [by left|right]. eapply statement_of_block; eauto.
  - intros n body l trl o trb o' tr Ht _ Hl _ _ IHl He IHb _ IH [->|[Hm|Hm]%elem_of_app]%elem_of_cons; [by left|right..].
    + destruct (IHl Hm) as [H|H]; [|done]. exfalso. eapply (part_of_block n l); [done|by apply try_no_body|done].
    + destruct (IH Hm) as [H|H]; [|done]. eapply statement_of_block; eauto.
  - intros n body l trl o' tr Ht _ Hl _ _ IHl _ IH [->|[Hm|Hm]%elem_of_app]%elem_of_cons; [by left|right..].
    + destruct (IHl Hm) as [H|H]; [|done]. exfalso. eapply (part_of_block n l); [done|by apply try_no_body|done].
    + by destruct (IH Hm) as [H%elem_of_nil|H].
  - intros n l o tr (_ & Hb & _) Hl _ IH [->|Hm]%elem_of_cons; [by left|right]. destruct (IH Hm) as [H|H]; [|done].
    exfalso. by eapply (part_of_block n l).
  - intros n o trb o' trf He IH [Hm|Hm]%elem_of_app; [by left|right]. eapply finally_of_block; eauto.
  - intros n trb c body o trc o' trf _ _ Hc IHc He IH [Hm|[Hm|Hm]%elem_of_app]%elem_of_app; [by left|right..].
    + eapply statement_of_block; eauto.
    + eapply finally_of_block; eauto.
  - by intros H%elem_of_nil.
  - intros c cs tr o tr' _ IHc _ IH [Hm|Hm]%elem_of_app.
    + destruct (IHc Hm) as [->|H]; [left; by left|by right].
    + destruct (IH Hm) as [H|H]; [left; by right|by right].
  - intros c cs tr _ IHc Hm. destruct (IHc Hm) as [->|H]; [left; by left|by right].
  - by intros H%elem_of_nil.
  - intros c cs o tr tr' _ IHc _ IH [Hm|Hm]%elem_of_app.
    + destruct (IHc Hm) as [->|H]; [left; by left|by right].
    + destruct (IH Hm) as [H|H]; [left; by right|by right].
Qed.
End Through.

(** Nothing comes after a statement that does not complete. *)
Lemma execs_stops pre t post o tr : execs (pre ++ t :: post) o tr → can_complete_normally t = false → inside_some (pre ++ [t]) tr.
Proof.
  intros He Ht. revert tr He. induction pre as [|x pre IH]; intros tr He; cbn [app] in *.
  - inversion He as [|c cs tr1 o' tr2 Hc _|c cs tr1 Hc]; subst; [by rewrite (proj1 normal_can _ _ _ Hc) in Ht|].
    intros m Hm. exists t. split; [by left|by eapply (proj1 exec_inside)].
  - inversion He as [|c cs tr1 o' tr2 Hc Hcs|c cs tr1 Hc]; subst; intros m Hm.
    + apply elem_of_app in Hm as [Hm|Hm]; [exists x; split; [by left|by eapply (proj1 exec_inside)]|].
      destruct (IH _ Hcs m Hm) as (y & Hy & H). exists y. split; [by right|done].
    + exists x. split; [by left|by eapply (proj1 exec_inside)].
Qed.
Lemma execs_reach pre t post : forallb can_complete_normally pre = true →
  ∃ o tr, execs (pre ++ t :: post) o tr ∧ ∀ x, x ∈ pre ++ [t] → x ∈ tr.
Proof.
  induction pre as [|c pre IH]; cbn [app forallb].
  - intros _. destruct (begins t) as ([|] & tr & Ht); [|exists Abrupt, (t :: tr); split; [by constructor|set_solver]].
    destruct (statements_begin post) as (o & tr' & Hp); [intros s _; destruct (begins s) as (o & tr' & H); by exists o, (s :: tr')|].
    exists o, ((t :: tr) ++ tr'). split; [by econstructor|set_solver].
  - intros [Hc Hp]%andb_true_iff. destruct (IH Hp) as (o & tr & Ht & Hin). destruct (can_normal c Hc) as [trc Htrc].
    exists o, (trc ++ tr). split; [by econstructor|].
    pose proof (exec_enters _ _ _ Htrc). set_solver.
Qed.
Lemma execs_entered l tr : execs l Normal tr → ∀ x, x ∈ l → x ∈ tr.
Proof.
  revert tr. induction l as [|c l IH]; intros tr H x Hx; [by apply elem_of_nil in Hx|].
  inversion H as [|c' cs tr1 o' tr2 Hc Hcs|]; subst. apply elem_of_app.
  apply elem_of_cons in Hx as [->|Hx]; [left; by eapply exec_enters|right; by apply (IH _ Hcs)].
Qed.
Lemma within_parent n m : within n m → m = n ∨ ∃ p, within n p ∧ m ∈ children p.
Proof.
  induction 1 as [n|n c m Hc Hw IH]; [by left|right]. destruct IH as [->|(p & Hp & H)]; [exists n; split; [constructor|done]|].
  exists p. split; [by eapply within_child|done].
Qed.
Lemma within_size n m : within n m → (size m ≤ size n)%nat.
Proof. induction 1 as [n|n c m Hc _ IH]; [done|]. apply child_smaller in Hc. lia. Qed.
Lemma sibling_apart b x s : x ∈ children b → s ∈ children b → within x s → s = x.
Proof.
  intros Hx Hs Hw. destruct (within_parent _ _ Hw) as [H|(p & Hp%within_size & Hsp)]; [done|exfalso].
  apply parent_child in Hs, Hsp. assert (p = b) as -> by congruence. apply child_smaller in Hx. lia.
Qed.

(** ** The check *)

Lemma unreachable_first ss : ∀ terminated, terminated = false →
  match unreachable_from terminated ss with
  | None => ∃ pre, forallb can_complete_normally pre = true ∧ (ss = pre ∨ ∃ t, ss = pre ++ [t])
  | Some s => ∃ pre t post, ss = pre ++ t :: s :: post ∧ forallb can_complete_normally pre = true ∧ can_complete_normally t = false
  end.
Proof.
  induction ss as [|t ss IH]; intros terminated ->; cbn [unreachable_from]; [exists []; split; [done|by left]|].
  destruct (can_complete_normally t) eqn:Et; cbn [negb].
  - specialize (IH false eq_refl). destruct (unreachable_from false ss) as [s|].
    + destruct IH as (pre & u & post & -> & Hp & Hu). exists (t :: pre), u, post. cbn. by rewrite Et.
    + destruct IH as (pre & Hp & [-> |(u & ->)]); exists (t :: pre); cbn; rewrite Et; (split; [done|]); [by left|right; by exists u].
  - destruct ss as [|s ss]; cbn; [exists []; split; [done|right; by exists t]|]. by exists [], t, ss.
Qed.

Definition ids_unique (t : Tree) : Prop := NoDup (node_id <$> visited (root_node t)).
Lemma visited_here n : n ∈ visited n.
Proof. apply visited_within. constructor. Qed.
Lemma flat_visited_NoDup l : NoDup (flat_map visited l) → NoDup l.
Proof.
  induction l as [|x l IH]; [constructor|]. cbn [flat_map]. intros (_ & Hd & Hl)%NoDup_app. constructor; [|by apply IH].
  intros Hx. apply (Hd x (visited_here x)). apply list_elem_of_In, in_flat_map. exists x. rewrite <-!list_elem_of_In. by split; [|apply visited_here].
Qed.
Lemma visited_unique n m : within n m → NoDup (visited n) → NoDup (visited m).
Proof.
  induction 1 as [n|n c m Hc _ IH]; [done|]. rewrite visited_eq. intros [_ H]%NoDup_cons. apply IH.
  assert (Hr : c ∈ rev (children n)) by (by rewrite list_elem_of_In, <-in_rev, <-list_elem_of_In).
  apply list_elem_of_split in Hr as (l1 & l2 & E). rewrite E, flat_map_app in H. cbn [flat_map] in H.
  apply NoDup_app in H as (_ & _ & H). by apply NoDup_app in H as (H & _ & _).
Qed.
Lemma statements_unique t b : ids_unique t → within (root_node t) b → NoDup (statements b).
Proof.
  intros H Hw. apply NoDup_fmap_1, (visited_unique _ _ Hw) in H. rewrite visited_eq in H. apply NoDup_cons in H as [_ H].
  apply flat_visited_NoDup in H. unfold statements, named_children. apply NoDup_ListNoDup.
  do 2 apply List.NoDup_filter. apply NoDup_ListNoDup in H. by apply List.NoDup_rev in H; rewrite rev_involutive in H.
Qed.

(** C36: in a block without syntax errors the first statement no execution
    reaches is reported, and no other.  What comes before it can be reached; it
    and all that follow are reached by no execution of the block or of anything
    around it, whatever conditions, exceptions, handlers and loops do.  When
    nothing is reported, every statement of the block can be reached. *)
Theorem unreachable_exact ix t block : ids_unique t → within (root_node t) block → kind block = "block" → has_error block = false →
  (check_unreachable ix block = [] ∧ ∀ s, s ∈ statements block → reachable block s)
  ∨ ∃ pre s post, statements block = pre ++ s :: post
      ∧ check_unreachable ix block = [coded_diagnostic (range ix s) UNREACHABLE_CODE "unreachable statement"]
      ∧ (∀ x, x ∈ pre → reachable block x)
      ∧ ∀ x n, x ∈ s :: post → within n block → ¬ reachable n x.
Proof.
  intros Hids Hw Hk He. unfold check_unreachable. rewrite He. pose proof (statements_unique _ _ Hids Hw) as Hnd.
  assert (Hb : ∀ o tr x, execs (statements block) o tr → x ∈ tr → reachable block x).
  { intros o tr x H Hx. exists o, (block :: tr). split; [apply exec_block; [rewrite Hk; by left|done]|by right]. }
  pose proof (unreachable_first (statements block) false eq_refl) as Hf. destruct (unreachable_from _ _) as [s|].
  - right. destruct Hf as (pre & u & post & E & Hp & Hu). exists (pre ++ [u]), s, post. split_and!.
    + by rewrite E, <-app_assoc.
    + done.
    + intros x Hx. destruct (execs_reach pre u (s :: post) Hp) as (o & tr & Htr & Hin). rewrite <-E in Htr. eauto.
    + intros x n Hx Hn (o & tr & Hexec & Hxt). assert (Hxs : x ∈ statements block) by (rewrite E; set_solver).
      apply statement_child in Hxs as Hxc.
      destruct (proj1 (exec_through block x Hk Hxc) _ _ _ Hexec Hxt) as [->|(o' & tr' & Htr & Hxt')].
      { apply within_size in Hn. apply child_smaller in Hxc. lia. }
      rewrite E in Htr. destruct (execs_stops _ _ _ _ _ Htr Hu x Hxt') as (y & Hy & Hyx).
      assert (x = y) as <-. { eapply (sibling_apart block); [|done..]. apply statement_child. rewrite E. set_solver. }
      rewrite E in Hnd. change (u :: s :: post) with ([u] ++ s :: post) in Hnd. rewrite app_assoc in Hnd.
      by apply NoDup_app in Hnd as (_ & Hd & _); apply (Hd x).
  - left. split; [done|]. intros s Hs. destruct Hf as (pre & Hp & [E|(u & E)]).
    + destruct (statements_execute pre) as [tr Htr]; [intros; by apply can_normal|done|].
      rewrite E in Hs. pose proof (execs_entered _ _ Htr s Hs). rewrite <-E in Htr. eauto.
    + destruct (execs_reach pre u [] Hp) as (o & tr & Htr & Hin). rewrite <-E in Htr, Hin. eauto.
Qed.

(** ** Dead names *)

Section Dead.
Context (source : string).
(** The name occurs under [scope] at another place than [nm]. *)
Definition elsewhere (scope nm : Node) : Prop :=
  ∃ m, within scope m ∧ kind m = "identifier" ∧ node_id m ≠ node_id nm ∧ node_text m source = node_text nm source.
Definition named_by (item nm : Node) : Prop := child_by_field_name "name" item = Some nm.
Definition parameter_of (callable body p : Node) : Prop :=
  child_by_field_name "body" callable = Some body ∧ ∃ parameters, child_by_field_name "parameters" callable = Some parameters
    ∧ has_error body = false ∧ has_error parameters = false ∧ p ∈ named_children parameters ∧ kind p = "formal_parameter".
(** No override, and none can be: the parameters are not another method's. *)
Definition own_parameters (n : Node) : Prop :=
  kind n = "constructor_declaration"
  ∨ kind n = "method_declaration" ∧ (has_modifier n source "private" = true ∨ has_modifier n source "static" = true)
    ∧ has_override source n = false ∧ ∃ nm, named_by n nm ∧ node_text nm source ≠ "main".

Inductive dead (root n : Node) : Node → string → Prop :=
| dead_local scope d nm :
    kind n = "local_variable_declaration" → local_scope n = Some scope → has_error scope = false →
    d ∈ children_by_field_name "declarator" n → named_by d nm → ¬ elsewhere scope nm →
    dead root n nm ("unused local variable '" +:+ node_text nm source +:+ "'")
| dead_field d nm :
    kind n = "field_declaration" → has_error root = false → has_modifier n source "private" = true → has_annotation n = false →
    d ∈ children_by_field_name "declarator" n → named_by d nm → node_text nm source ≠ "serialVersionUID" → ¬ elsewhere root nm →
    dead root n nm ("unused private field '" +:+ node_text nm source +:+ "'")
| dead_method nm :
    kind n = "method_declaration" → has_error root = false → has_modifier n source "private" = true → has_annotation n = false →
    named_by n nm → ¬ elsewhere root nm →
    dead root n nm ("unused private method '" +:+ node_text nm source +:+ "'")
| dead_parameter body p nm :
    own_parameters n → parameter_of n body p → named_by p nm → ¬ elsewhere body nm →
    dead root n nm ("unused parameter '" +:+ node_text nm source +:+ "'").

Lemma any_visited_spec p : ∀ fuel stack, (list_sum (size <$> stack) ≤ fuel)%nat →
  any_visited p fuel stack = Some (existsb p (flat_map visited stack)).
Proof.
  induction fuel as [|fuel IH]; intros [|n stack] Hf; try done.
  - unfold size in Hf. cbn in Hf. destruct (here n). cbn in Hf. lia.
  - cbn [any_visited flat_map]. rewrite existsb_app, visited_eq. cbn [existsb]. destruct (p n); [done|]. cbn [orb].
    rewrite IH; [by rewrite flat_map_app, existsb_app|].
    rewrite fmap_cons in Hf. change (size n + list_sum (size <$> stack) ≤ Datatypes.S fuel)%nat in Hf.
    rewrite fmap_app, list_sum_app. change (size <$> rev (children n)) with (map size (rev (children n))).
    rewrite List.map_rev, list_sum_rev. pose proof (size_children n). change (map size (children n)) with (size <$> children n). lia.
Qed.
Lemma name_used_spec scope nm : name_used source scope nm (node_text nm source) = true ↔ elsewhere scope nm.
Proof.
  assert (E : name_used source scope nm (node_text nm source) = existsb (is_use source nm (node_text nm source)) (visited scope)).
  { unfold name_used. rewrite any_visited_spec by (cbn; lia). cbn [flat_map]. by rewrite app_nil_r. }
  rewrite E, existsb_exists. unfold is_use, same_node. split.
  - intros (m & Hm%list_elem_of_In%visited_within & H). rewrite !andb_true_iff, negb_true_iff in H.
    destruct H as [[H1%bool_decide_eq_true H2%bool_decide_eq_false] H3%bool_decide_eq_true]. by exists m.
  - intros (m & Hm & H1 & H2 & H3). exists m. rewrite <-list_elem_of_In, visited_within. split; [done|].
    rewrite bool_decide_eq_true_2, bool_decide_eq_false_2 by done. by rewrite bool_decide_eq_true_2.
Qed.

Lemma counts_fold l name : ∀ counts,
  default 0%nat (fold_left (count_identifier source) l counts !! name)
  = (length (List.filter (λ n, bool_decide (kind n = "identifier") && bool_decide (node_text n source = name)) l)
     + default 0%nat (counts !! name))%nat.
Proof.
  induction l as [|n l IH]; intros counts; [done|]. cbn [fold_left List.filter]. rewrite IH. unfold count_identifier.
  case_bool_decide as Hk; [|done]. cbn [andb]. case_bool_decide as He.
  - rewrite He, lookup_insert_eq. cbn. lia.
  - by rewrite lookup_insert_ne.
Qed.
Lemma counted_once_spec t nm : ids_unique t → within (root_node t) nm → kind nm = "identifier" →
  counted_once (identifier_counts source t) (node_text nm source) = true ↔ ¬ elsewhere (root_node t) nm.
Proof.
  intros Hids Hw Hk. unfold counted_once, identifier_counts. destruct (walk_tree_visited (count_identifier source) ∅ t) as [_ ->].
  rewrite counts_fold, lookup_empty, Nat.add_0_r, Nat.eqb_eq.
  set (occurs := List.filter _ _). assert (Ho : ∀ m, m ∈ occurs ↔ within (root_node t) m ∧ kind m = "identifier" ∧ node_text m source = node_text nm source).
  { intros m. subst occurs. rewrite list_elem_of_In, List.filter_In, <-list_elem_of_In, visited_within, andb_true_iff, !bool_decide_eq_true. done. }
  assert (Hnm : nm ∈ occurs) by (by apply Ho). assert (Hnd : NoDup occurs).
  { apply NoDup_ListNoDup, List.NoDup_filter, NoDup_ListNoDup. by apply NoDup_fmap_1 in Hids. }
  split.
  - intros Hl (m & Hm & Hmk & Hne & Ht). assert (Hmo : m ∈ occurs) by (by apply Ho). clearbody occurs.
    destruct occurs as [|x [|y r]]; try done. apply list_elem_of_singleton in Hnm, Hmo. congruence.
  - intros Hne. assert (Hall : ∀ m, m ∈ occurs → m = nm).
    { intros m (Hm & Hmk & Ht)%Ho. destruct (decide (node_id m = node_id nm)) as [E|E].
      - eapply (SourceModel.NoDup_fmap_inj node_id); [exact Hids|by apply visited_within..|done].
      - destruct Hne. by exists m. }
    clearbody occurs. destruct occurs as [|x [|y r]]; [by apply elem_of_nil in Hnm|done|].
    apply NoDup_cons in Hnd as [Hx _]. rewrite (Hall x), <-(Hall y) in Hx by set_solver. destruct Hx. by left.
Qed.

Lemma until_full_take count check items : until_full count check items = take (MAX_DIAGNOSTICS - count) (omap check items).
Proof.
  revert count. induction items as [|i items IH]; intros count; [by destruct (MAX_DIAGNOSTICS - count)%nat|].
  cbn [until_full omap list_omap]. destruct (Nat.leb_spec MAX_DIAGNOSTICS count) as [H|H].
  - by replace (MAX_DIAGNOSTICS - count)%nat with 0%nat by lia.
  - destruct (check i) as [f|]; rewrite IH; [|done].
    by replace (MAX_DIAGNOSTICS - count)%nat with (S (MAX_DIAGNOSTICS - S count)) by lia.
Qed.
Lemma until_full_found count check items f : f ∈ until_full count check items → ∃ i, i ∈ items ∧ check i = Some f.
Proof.
  rewrite until_full_take. intros (k & Hk & _)%elem_of_take. apply list_elem_of_lookup_2, list_elem_of_omap in Hk. done.
Qed.
Lemma until_full_all count check items i f : (count + length (until_full count check items) < MAX_DIAGNOSTICS)%nat →
  i ∈ items → check i = Some f → f ∈ until_full count check items.
Proof.
  rewrite until_full_take, length_take. intros Hl Hi Hf. rewrite take_ge by lia. apply list_elem_of_omap. by exists i.
Qed.
Lemma dead_name_Some what p item nm m : dead_name source what p item = Some (nm, m) ↔
  named_by item nm ∧ p nm (node_text nm source) = true ∧ m = "unused " +:+ what +:+ " '" +:+ node_text nm source +:+ "'".
Proof.
  unfold dead_name, named_by. destruct (child_by_field_name "name" item) as [x|]; cbn; [|by split; [|intros []]].
  destruct (p x (node_text x source)) eqn:E; split.
  - by intros [= <- <-].
  - by intros ([= ->] & _ & ->).
  - done.
  - intros ([= ->] & H & _). congruence.
Qed.
Lemma unused_name scope nm : negb (name_used source scope nm (node_text nm source)) = true ↔ ¬ elsewhere scope nm.
Proof. rewrite negb_true_iff, <-name_used_spec. by destruct (name_used _ _ _ _). Qed.

Lemma parameters_found count n f : f ∈ check_unused_parameters source count n →
  ∃ body p nm, parameter_of n body p ∧ named_by p nm ∧ ¬ elsewhere body nm ∧ f = (nm, "unused parameter '" +:+ node_text nm source +:+ "'").
Proof.
  unfold check_unused_parameters, parameter_of. destruct (child_by_field_name "body" n) as [body|]; [|by intros H%elem_of_nil].
  destruct (child_by_field_name "parameters" n) as [ps|]; [|by intros H%elem_of_nil].
  destruct (has_error body || has_error ps) eqn:E; [by intros H%elem_of_nil|]. apply orb_false_iff in E as [E1 E2].
  intros (p & Hp & Hf)%until_full_found. case_bool_decide as Hk; [|done]. destruct f as [nm m].
  apply dead_name_Some in Hf as (Hn & Hd%unused_name & ->). exists body, p, nm. split_and!; [done| |done..]. by exists ps.
Qed.
Lemma parameters_all count n body p nm : (count + length (check_unused_parameters source count n) < MAX_DIAGNOSTICS)%nat →
  parameter_of n body p → named_by p nm → ¬ elsewhere body nm →
  (nm, "unused parameter '" +:+ node_text nm source +:+ "'") ∈ check_unused_parameters source count n.
Proof.
  unfold check_unused_parameters. intros Hl (Hb & ps & Hps & E1 & E2 & Hp & Hk) Hn Hd. rewrite Hb, Hps, E1, E2 in *. cbn [orb] in *.
  eapply until_full_all; [done..|]. rewrite bool_decide_eq_true_2 by done. apply dead_name_Some. split_and!; [done| |done]. by apply unused_name.
Qed.
Definition members_named (t : Tree) : Prop := ∀ n item nm, within (root_node t) n →
  kind n = "method_declaration" ∧ item = n ∨ kind n = "field_declaration" ∧ item ∈ children_by_field_name "declarator" n →
  named_by item nm → kind nm = "identifier".
Lemma named_within_item n item nm : within n item → named_by item nm → within n nm.
Proof. intros Hw [H _]%child_by_field_name_child. eapply within_trans; [done|by apply children_within]. Qed.
Lemma declarator_within n item : item ∈ children_by_field_name "declarator" n → within n item.
Proof. intros [H _]%field_child_is_child. by apply children_within. Qed.

Lemma locals_exact count root n f : kind n = "local_variable_declaration" →
  let found := check_unused_locals source count n in
  (f ∈ found → dead root n f.1 f.2) ∧ ((count + length found < MAX_DIAGNOSTICS)%nat → dead root n f.1 f.2 → f ∈ found).
Proof.
  intros Hk found. destruct f as [nm m]. subst found. unfold check_unused_locals. cbn [fst snd]. split.
  - destruct (local_scope n) as [scope|] eqn:Es; [|by intros H%elem_of_nil]. destruct (has_error scope) eqn:Ee; [by intros H%elem_of_nil|].
    intros (d & Hd & (Hn & Hu%unused_name & ->)%dead_name_Some)%until_full_found. by eapply dead_local.
  - intros Hl Hd. destruct Hd as [scope d nm _ Es Ee Hd Hn Hu| | |body p nm [Hc|[Hc _]]]; try congruence.
    rewrite Es, Ee in *. eapply until_full_all; [done..|]. apply dead_name_Some. split_and!; [done| |done]. by apply unused_name.
Qed.

Section Root.
Context (t : Tree) (Hids : ids_unique t) (Hnames : members_named t).
Lemma fields_exact count n f : within (root_node t) n → kind n = "field_declaration" →
  let found := check_unused_private_fields source count (root_node t) (identifier_counts source t) n in
  (f ∈ found → dead (root_node t) n f.1 f.2) ∧ ((count + length found < MAX_DIAGNOSTICS)%nat → dead (root_node t) n f.1 f.2 → f ∈ found).
Proof.
  intros Hw Hk found. destruct f as [nm m]. subst found. unfold check_unused_private_fields. cbn [fst snd].
  assert (Hc : ∀ d nm, d ∈ children_by_field_name "declarator" n → named_by d nm →
    counted_once (identifier_counts source t) (node_text nm source) = true ↔ ¬ elsewhere (root_node t) nm).
  { intros d x Hd Hx. apply counted_once_spec; [done| |by apply (Hnames n d); [|right|]].
    eapply within_trans; [done|]. eapply named_within_item; [by apply declarator_within|done]. }
  split.
  - destruct (has_error _) eqn:Ee; [by intros H%elem_of_nil|]. destruct (has_modifier _ _ _) eqn:Em; cbn [negb orb]; [|by intros H%elem_of_nil].
    destruct (has_annotation n) eqn:Ea; [by intros H%elem_of_nil|].
    intros (d & Hd & (Hn & [H1%negb_true_iff%bool_decide_eq_false Hu]%andb_true_iff & ->)%dead_name_Some)%until_full_found.
    eapply dead_field; [done..|]. by eapply Hc.
  - intros Hl Hd. destruct Hd as [|d nm _ Ee Em Ea Hd Hn Hs Hu| |body p nm [Hc'|[Hc' _]]]; try congruence.
    rewrite Ee, Em, Ea in *. cbn [negb orb] in *. eapply until_full_all; [done..|]. apply dead_name_Some. split_and!; [done| |done].
    rewrite andb_true_iff, negb_true_iff, bool_decide_eq_false. split; [done|]. by eapply Hc.
Qed.
Lemma methods_exact count n f : within (root_node t) n → kind n = "method_declaration" →
  let found := check_unused_method source count (root_node t) (identifier_counts source t) n in
  (f ∈ found → dead (root_node t) n f.1 f.2) ∧ ((count + length found < MAX_DIAGNOSTICS)%nat → dead (root_node t) n f.1 f.2 → f ∈ found).
Proof.
  intros Hw Hk found. subst found. unfold check_unused_method.
  destruct (child_by_field_name "name" n) as [nm|] eqn:En.
  2:{ split; [by intros H%elem_of_nil|]. intros _ Hd.
      destruct Hd as [| |nm _ _ _ _ Hn|body p nm [Hc|(_ & _ & _ & nm' & Hn & _)]]; unfold named_by in *; congruence. }
  assert (Hc : counted_once (identifier_counts source t) (node_text nm source) = true ↔ ¬ elsewhere (root_node t) nm).
  { apply counted_once_spec; [done| |by apply (Hnames n n); [|left|]]. eapply within_trans; [done|].
    by eapply (named_within_item n n); [constructor|]. }
  set (private := has_modifier n source "private"). set (out := if private && negb (has_annotation n) && negb (has_error (root_node t)) && _ then [(nm, _)] else []).
  assert (Hout : ∀ f, f ∈ out ↔ f = (nm, "unused private method '" +:+ node_text nm source +:+ "'")
    ∧ private = true ∧ has_annotation n = false ∧ has_error (root_node t) = false ∧ ¬ elsewhere (root_node t) nm).
  { intros g. subst out. rewrite <-Hc. destruct private, (has_annotation n), (has_error _), (counted_once _ _); cbn; set_solver. }
  assert (Hm : f ∈ out → dead (root_node t) n f.1 f.2).
  { intros (-> & H1 & H2 & H3 & H4)%Hout. by apply dead_method. }
  assert (Hown : (private || has_modifier n source "static") && negb (has_override source n) && negb (bool_decide (node_text nm source = "main")) = true
    ↔ own_parameters n).
  { unfold own_parameters, named_by. rewrite !andb_true_iff, orb_true_iff, !negb_true_iff, bool_decide_eq_false. fold private. rewrite En. split.
    - intros [[H1 H2] H3]. right. split_and!; [done..|by exists nm].
    - intros [H|(_ & H1 & H2 & nm' & [= <-] & H3)]; [congruence|done]. }
  assert (Hd : dead (root_node t) n f.1 f.2 → f ∈ out ∨ own_parameters n ∧ ∃ body p, parameter_of n body p ∧ named_by p f.1
    ∧ ¬ elsewhere body f.1 ∧ f = (f.1, "unused parameter '" +:+ node_text f.1 source +:+ "'")).
  { destruct f as [x m]. cbn [fst snd]. intros H. destruct H as [| |x H1 H2 H3 H4 Hn H5|body p x Ho Hp Hn Hu]; [congruence..| |].
    - left. unfold named_by in Hn. assert (x = nm) as -> by congruence. by apply Hout.
    - right. split; [done|]. by exists body, p. }
  clearbody out. destruct (_ && _) eqn:E.
  - pose proof (proj1 Hown eq_refl) as Ho. split.
    + intros [H|(body & p & x & Hp & Hn & Hu & ->)%parameters_found]%elem_of_app; [by apply Hm|]. by eapply dead_parameter.
    + rewrite length_app. intros Hl [H|(_ & body & p & Hp & Hn & Hu & ->)]%Hd; apply elem_of_app; [by left|right].
      eapply parameters_all; [by rewrite Nat.add_assoc in Hl|done..].
  - split; [done|]. intros _ [H|[H%Hown _]]%Hd; done.
Qed.
End Root.

(** C37: what is reported as unused at a declaration is dead, and below the cap
    all that is dead is reported: a local variable, a parameter no other method
    shares, or a private member whose name is the only occurrence of that name
    where it could be used. *)
Theorem unused_exact t count n : ids_unique t → members_named t → within (root_node t) n →
  let found := unused_at source count (root_node t) (identifier_counts source t) n in
  (∀ f, f ∈ found → dead (root_node t) n f.1 f.2)
  ∧ ((count + length found < MAX_DIAGNOSTICS)%nat → ∀ f, dead (root_node t) n f.1 f.2 → f ∈ found).
Proof.
  intros Hids Hnames Hw found.
  assert (H : ∀ f, (f ∈ found → dead (root_node t) n f.1 f.2)
    ∧ ((count + length found < MAX_DIAGNOSTICS)%nat → dead (root_node t) n f.1 f.2 → f ∈ found)).
  { intros f. subst found. unfold unused_at. case_bool_decide as H1; [by apply locals_exact|].
    case_bool_decide as H2; [by apply fields_exact|]. case_bool_decide as H3; [by apply methods_exact|].
    case_bool_decide as H4.
    - destruct f as [x m]. split.
      + intros (body & p & y & Hp & Hn & Hu & [= -> ->])%parameters_found. eapply dead_parameter; [by left|done..].
      + intros Hl Hd. cbn [fst snd] in Hd. destruct Hd as [| | |body p y Ho Hp Hn Hu]; [congruence..|]. by eapply parameters_all.
    - split; [by intros H%elem_of_nil|]. intros _ Hd. destruct Hd as [| | |body p y [Ho|[Ho _]]]; congruence. }
  split; [apply H|]. intros Hl f. by apply H.
Qed.
End Dead.

(** ** Examples *)

Module Sample.
Import SourceModel(OpenDoc, mkOpenDoc, od_source, od_tree).
Definition root (doc : OpenDoc) : Node := root_node (od_tree doc).
Definition place (doc : OpenDoc) (id : nat) : Node :=
  default (root doc) (List.find (λ n, bool_decide (node_id n = id)) (visited (root doc))).
Lemma place_within doc id : within (root doc) (place doc id).
Proof.
  unfold place. destruct (List.find _ _) as [n|] eqn:E; [|constructor]. by apply find_elem in E as [E%visited_within _].
Qed.
Definition members_named_check (t : Tree) : bool :=
  forallb (λ n, forallb (λ item, match child_by_field_name "name" item with Some nm => bool_decide (kind nm = "identifier") | None => true end)
      (if bool_decide (kind n = "method_declaration") then [n]
       else if bool_decide (kind n = "field_declaration") then children_by_field_name "declarator" n else []))
    (visited (root_node t)).
Lemma members_named_sound t : members_named_check t = true → members_named t.
Proof.
  unfold members_named_check. rewrite forallb_forall. intros H n item nm Hw%visited_within%list_elem_of_In Hi Hn. apply H in Hw.
  rewrite forallb_forall in Hw. specialize (Hw item). unfold named_by in Hn. rewrite Hn in Hw.
  apply (bool_decide_eq_true_1 (kind nm = "identifier")), Hw. apply list_elem_of_In. destruct Hi as [[Hk ->]|[Hk Hi]].
  - rewrite bool_decide_eq_true_2 by done. by left.
  - rewrite bool_decide_eq_false_2 by congruence. by rewrite bool_decide_eq_true_2.
Qed.
(** What is reported at each node. *)
Definition unused_in (doc : OpenDoc) : list string :=
  flat_map (λ n, snd <$> unused_at (od_source doc) 0 (root doc) (identifier_counts (od_source doc) (od_tree doc)) n) (visited (root doc)).

Definition doc_finally : OpenDoc := mkOpenDoc "class C { void m() { try { return; } finally { f(); } g(); } }" (
    node 1 "program" 0 62 [node 2 "class_declaration" 0 62 [token 3 "class" 0 5; field "name" (node 4 "identifier" 6
    7 []); field "body" (node 5 "class_body" 8 62 [token 6 "{" 8 9; node 7 "method_declaration" 10 60 [field "type"
    (node 8 "void_type" 10 14 []); field "name" (node 9 "identifier" 15 16 []); field "parameters" (node 10
    "formal_parameters" 16 18 [token 11 "(" 16 17; token 12 ")" 17 18]); field "body" (node 13 "block" 19 60 [token
    14 "{" 19 20; node 15 "try_statement" 21 53 [token 16 "try" 21 24; field "body" (node 17 "block" 25 36 [token 18
    "{" 25 26; node 19 "return_statement" 27 34 [token 20 "return" 27 33; token 21 ";" 33 34]; token 22 "}" 35 36]);
    node 23 "finally_clause" 37 53 [token 24 "finally" 37 44; node 25 "block" 45 53 [token 26 "{" 45 46; node 27
    "expression_statement" 47 51 [node 28 "method_invocation" 47 50 [field "name" (node 29 "identifier" 47 48 []);
    field "arguments" (node 30 "argument_list" 48 50 [token 31 "(" 48 49; token 32 ")" 49 50])]; token 33 ";" 50
    51]; token 34 "}" 52 53]]]; node 35 "expression_statement" 54 58 [node 36 "method_invocation" 54 57 [field
    "name" (node 37 "identifier" 54 55 []); field "arguments" (node 38 "argument_list" 55 57 [token 39 "(" 55 56;
    token 40 ")" 56 57])]; token 41 ";" 57 58]; token 42 "}" 59 60])]; token 43 "}" 61 62])]]).
Definition body_of_m : Node := place doc_finally 13.
Lemma unreachable_exact_witness : ∃ s, s ∈ statements body_of_m ∧ ¬ reachable body_of_m s.
Proof.
  destruct (unreachable_exact (LineIndex.new (od_source doc_finally) LineIndex.Utf16Units) (od_tree doc_finally) body_of_m)
    as [[E _]|(pre & s & post & E & _ & _ & Hs)].
  - apply (bool_decide_eq_true_1 (NoDup _)). by vm_compute.
  - apply place_within.
  - by vm_compute.
  - by vm_compute.
  - exfalso. by vm_compute in E.
  - exists s. split; [rewrite E; set_solver|]. apply (Hs s body_of_m); [by left|constructor].
Defined.

Definition doc_unused : OpenDoc := mkOpenDoc "class C { int m(int p) { int x = p; return p; } }" (
    node 1 "program" 0 49 [node 2 "class_declaration" 0 49 [token 3 "class" 0 5; field "name" (node 4 "identifier" 6
    7 []); field "body" (node 5 "class_body" 8 49 [token 6 "{" 8 9; node 7 "method_declaration" 10 47 [field "type"
    (node 8 "integral_type" 10 13 []); field "name" (node 9 "identifier" 14 15 []); field "parameters" (node 10
    "formal_parameters" 15 22 [token 11 "(" 15 16; node 12 "formal_parameter" 16 21 [field "type" (node 13
    "integral_type" 16 19 []); field "name" (node 14 "identifier" 20 21 [])]; token 15 ")" 21 22]); field "body"
    (node 16 "block" 23 47 [token 17 "{" 23 24; node 18 "local_variable_declaration" 25 35 [field "type" (node 19
    "integral_type" 25 28 []); field "declarator" (node 20 "variable_declarator" 29 34 [field "name" (node 21
    "identifier" 29 30 []); token 22 "=" 31 32; field "value" (node 23 "identifier" 33 34 [])]); token 24 ";" 34
    35]; node 25 "return_statement" 36 45 [token 26 "return" 36 42; node 27 "identifier" 43 44 []; token 28 ";" 44
    45]; token 29 "}" 46 47])]; token 30 "}" 48 49])]]).
Definition declaration_of_x : Node := place doc_unused 18.
Definition found_x : list Finding :=
  unused_at (od_source doc_unused) 0 (root doc_unused) (identifier_counts (od_source doc_unused) (od_tree doc_unused)) declaration_of_x.
Lemma unused_exact_witness : ∃ f, f ∈ found_x ∧ dead (od_source doc_unused) (root doc_unused) declaration_of_x f.1 f.2.
Proof.
  destruct found_x as [|f l] eqn:E; [by vm_compute in E|]. exists f. split; [by left|].
  refine (proj1 (unused_exact (od_source doc_unused) (od_tree doc_unused) 0 declaration_of_x _ _ _) f _).
  - apply (bool_decide_eq_true_1 (NoDup _)). by vm_compute.
  - apply members_named_sound. by vm_compute.
  - apply place_within.
  - fold (root doc_unused). fold found_x. rewrite E. by left.
Defined.

(** Lombok's annotations stand on the class: its generated accessors use the
    field. *)
Definition doc_data : OpenDoc := mkOpenDoc "@Data class C { private int a; }" (
    node 1 "program" 0 32 [node 2 "class_declaration" 0 32 [node 3 "modifiers" 0 5 [node 4 "marker_annotation" 0 5
    [token 5 "@" 0 1; field "name" (node 6 "identifier" 1 5 [])]]; token 7 "class" 6 11; field "name" (node 8
    "identifier" 12 13 []); field "body" (node 9 "class_body" 14 32 [token 10 "{" 14 15; node 11 "field_declaration"
    16 30 [node 12 "modifiers" 16 23 [token 13 "private" 16 23]; field "type" (node 14 "integral_type" 24 27 []);
    field "declarator" (node 15 "variable_declarator" 28 29 [field "name" (node 16 "identifier" 28 29 [])]); token
    17 ";" 29 30]; token 18 "}" 31 32])]]).
Lemma accessed_field_unused : unused_in doc_data = ["unused private field 'a'"].
Proof. by vm_compute. Qed.

(** The methods serialization calls, beside [serialVersionUID]. *)
Definition doc_read_object : OpenDoc := mkOpenDoc "class C { private void readObject(S in) { } }" (
    node 1 "program" 0 45 [node 2 "class_declaration" 0 45 [token 3 "class" 0 5; field "name" (node 4 "identifier" 6
    7 []); field "body" (node 5 "class_body" 8 45 [token 6 "{" 8 9; node 7 "method_declaration" 10 43 [node 8
    "modifiers" 10 17 [token 9 "private" 10 17]; field "type" (node 10 "void_type" 18 22 []); field "name" (node 11
    "identifier" 23 33 []); field "parameters" (node 12 "formal_parameters" 33 39 [token 13 "(" 33 34; node 14
    "formal_parameter" 34 38 [field "type" (node 15 "type_identifier" 34 35 []); field "name" (node 16 "identifier"
    36 38 [])]; token 17 ")" 38 39]); field "body" (node 18 "block" 40 43 [token 19 "{" 40 41; token 20 "}" 42
    43])]; token 21 "}" 44 45])]]).
Lemma serialization_method_unused : unused_in doc_read_object = ["unused private method 'readObject'"; "unused parameter 'in'"].
Proof. by vm_compute. Qed.

(** An unnamed variable, which says that it is not used. *)
Definition doc_unnamed : OpenDoc := mkOpenDoc "class C { void m() { int _ = f(); } }" (
    node 1 "program" 0 37 [node 2 "class_declaration" 0 37 [token 3 "class" 0 5; field "name" (node 4 "identifier" 6
    7 []); field "body" (node 5 "class_body" 8 37 [token 6 "{" 8 9; node 7 "method_declaration" 10 35 [field "type"
    (node 8 "void_type" 10 14 []); field "name" (node 9 "identifier" 15 16 []); field "parameters" (node 10
    "formal_parameters" 16 18 [token 11 "(" 16 17; token 12 ")" 17 18]); field "body" (node 13 "block" 19 35 [token
    14 "{" 19 20; node 15 "local_variable_declaration" 21 33 [field "type" (node 16 "integral_type" 21 24 []); field
    "declarator" (node 17 "variable_declarator" 25 32 [field "name" (node 18 "underscore_pattern" 25 26 []); token
    19 "=" 27 28; field "value" (node 20 "method_invocation" 29 32 [field "name" (node 21 "identifier" 29 30 []);
    field "arguments" (node 22 "argument_list" 30 32 [token 23 "(" 30 31; token 24 ")" 31 32])])]); token 25 ";" 32
    33]; token 26 "}" 34 35])]; token 27 "}" 36 37])]]).
Lemma unnamed_variable_unused : unused_in doc_unnamed = ["unused local variable '_'"].
Proof. by vm_compute. Qed.
End Sample.
End Hygiene.
