(* ===== verification/Overload.v ===== *)
(** * Choosing an overload ([crates/syntax/src/call.rs])

    The methods a call may mean, the function type of an interface, when a
    lambda expression fits it, the three phases in which the candidates are
    tried, and which applicable one is the most specific.

    What this needs of the rest of the analysis is the class [Project]: facts of
    classes, the meaning of a declared type, whether the call a lambda consists
    of returns nothing, and whether a method reference is proved to fit a type.
    The walks over a hierarchy and the assignability engine run on [fuel]; the
    outer [None] of a result is a walk that ran out of it. *)
From Stdlib Require Import Ascii.
From S2P Require Import Prelude RustStd Order SyntaxTree JTypes Subtyping Symbols SourceModel Members.
From S2P Require Hygiene.
Import Subtyping.
Import Symbols.Symbols(ExternalMember, mkExternalMember, EMethod, em_name, em_kind, em_is_static, em_metadata, em_signature, em_ret_display).
Import SourceModel(trim_end_char, skip_char).
Import Members(ClassFacts, mkFacts, facts_meta, facts_members).

Module Overload.

Class Project := {
  class_facts : TypeId → option ClassFacts;
  object_on_classpath : bool;
  declared_in_project : string → bool;
  declared_type : Node → option TypeRef;
  returns_nothing : Node → bool;
  reference_resolves : Node → TypeRef → bool;
}.
#[export] Instance project_facts `{Project} : Classes :=
  {| facts id := facts_meta <$> class_facts id; in_table := declared_in_project |}.

Record Candidate := mkCandidate {
  c_meta : MemberMetadata; c_env : TypeEnv; c_inferred : list TypeVariableId;
  c_result_display : option string; c_declared_signature : option string }.
Inductive Argument := Value (t : TypeRef) | Lambda (n : Node) | MethodReference (n : Node).
Inductive Phase := Strict | Loose | Varargs.
#[export] Instance Phase_eq_dec : EqDecision Phase.
Proof. solve_decision. Defined.
(** A candidate and where it is, by which candidates are told apart. *)
Definition Placed : Type := nat * Candidate.
Inductive Selection := Selected (c : Placed) (phase : Phase) | NoApplicable (count : nat) | Ambiguous | UnknownCall.
Record FunctionDescriptor := mkDescriptor { fd_parameters : list TypeRef; fd_result : TypeRef }.
Inductive BodyShape := VoidOnly | ValueOnly | Either | UnknownShape.

(** ** Types *)

Fixpoint erase_to_object (t : TypeRef) : TypeRef :=
  match t with
  | TVariable _ => OBJECT
  | Named id args => Named id (map erase_to_object args)
  | Array e => Array (erase_to_object e)
  | other => other
  end.
Fixpoint ground_target_type (t : TypeRef) : TypeRef :=
  match t with
  | Named id args => Named id (map ground_target_type args)
  | Array e => Array (ground_target_type e)
  | Wildcard _ (Some lower) => ground_target_type lower
  | Wildcard (Some upper) None => ground_target_type upper
  | Wildcard None None => OBJECT
  | other => other
  end.
Definition type_environment (parameters : list TypeParameter) (args : list TypeRef) : option TypeEnv :=
  if (length parameters =? length args)%nat then Some (zip (tp_id <$> parameters) args)
  else if negb (bool_decide (args = [])) then None
  else Some ((λ p, (tp_id p, match tp_bounds p with b :: _ => erase b | [] => OBJECT end)) <$> parameters).
Definition is_object_method (name : string) (parameters : list TypeRef) : bool :=
  match parameters with
  | [] => bool_decide (name ∈ ["hashCode"; "toString"])
  | [p] => bool_decide (name = "equals") && bool_decide (p = OBJECT)
  | _ => false
  end.

(** ** Going up a hierarchy

    [while let Some((ty, depth)) = stack.pop()]: a type is met once, and the
    last supertype comes first.  The inner [None] is the walk given up. *)
Section Sweep.
Context {S : Type} (visit : S → TypeRef → option (S * list TypeRef)).
Fixpoint sweep (fuel : nat) (visited : list TypeRef) (st : S) (stack : list (TypeRef * nat)) : option (option S) :=
  match stack with
  | [] => Some (Some st)
  | (ty, depth) :: stack =>
      match fuel with
      | O => None
      | Datatypes.S fuel =>
          if (64 <? depth)%nat || bool_decide (ty ∈ visited) then sweep fuel visited st stack
          else match visit st ty with
               | None => Some None
               | Some (st, supers) => sweep fuel (ty :: visited) st (rev ((λ s, (s, Datatypes.S depth)) <$> supers) ++ stack)
               end
      end
  end.
End Sweep.

Section SweepSpec.
Context {S : Type} (visit : S → TypeRef → option (S * list TypeRef)).
(** The walk ends, however the hierarchy goes on. *)
Definition ends (stack : list (TypeRef * nat)) : Prop :=
  ∀ visited st, ∃ n r, ∀ m, (n ≤ m)%nat → sweep visit m visited st stack = Some r.
Lemma sweep_ends_below k : ∀ ty depth rest, (65 ≤ depth + k)%nat → ends rest → ends ((ty, depth) :: rest).
Proof.
  induction k as [|k IH]; intros ty depth rest Hk Hrest visited st.
  - destruct (Hrest visited st) as (n & r & Hn). exists (Datatypes.S n), r. intros [|m] Hm; [lia|]. cbn [sweep].
    destruct (Nat.ltb_spec 64 depth); [|lia]. apply Hn. lia.
  - destruct ((64 <? depth)%nat || bool_decide (ty ∈ visited)) eqn:Es.
    { destruct (Hrest visited st) as (n & r & Hn). exists (Datatypes.S n), r. intros [|m] Hm; [lia|]. cbn [sweep]. rewrite Es. apply Hn. lia. }
    destruct (visit st ty) as [[st' sups]|] eqn:Ev.
    2:{ exists 1%nat, None. intros [|m] Hm; [lia|]. cbn [sweep]. by rewrite Es, Ev. }
    assert (Hs : ends (rev ((λ s, (s, Datatypes.S depth)) <$> sups) ++ rest)).
    { rewrite <-(rev_involutive sups). generalize (rev sups). intros l.
      change ((λ s, (s, Datatypes.S depth)) <$> rev l) with (map (λ s, (s, Datatypes.S depth)) (rev l)). rewrite List.map_rev, rev_involutive.
      induction l as [|s l IHl]; [done|]. cbn. apply IH; [lia|done]. }
    destruct (Hs (ty :: visited) st') as (n & r & Hn). exists (Datatypes.S n), r. intros [|m] Hm; [lia|]. cbn [sweep]. rewrite Es, Ev.
    apply Hn. lia.
Qed.
Lemma sweep_ends ty : ends [(ty, 0%nat)].
Proof. apply (sweep_ends_below 65); [lia|]. intros visited st. exists 0%nat, (Some st). intros [|m] _; done. Qed.

(** What the walk meets when no chain is longer than the walk goes. *)
Context (supers : TypeRef → list TypeRef) (Done : S → TypeRef → Prop) (grows : S → S → Prop) `{!PreOrder grows}.
Hypothesis visit_supers : ∀ st ty st' sups, visit st ty = Some (st', sups) → sups = supers ty.
Hypothesis visit_grows : ∀ st ty st' sups, visit st ty = Some (st', sups) → grows st st'.
Hypothesis visit_done : ∀ st ty st' sups, visit st ty = Some (st', sups) → Done st' ty.
Hypothesis done_grows : ∀ st st' ty, grows st st' → Done st ty → Done st' ty.
Inductive chain : nat → TypeRef → TypeRef → Prop :=
| chain_here ty : chain 0 ty ty
| chain_up n ty s x : s ∈ supers ty → chain n s x → chain (Datatypes.S n) ty x.
Definition short (td : TypeRef * nat) : Prop := ∀ n x, chain n td.1 x → (td.2 + n ≤ 64)%nat.
Lemma sweep_meets fuel : ∀ visited st stack st',
  sweep visit fuel visited st stack = Some (Some st') → Forall short stack →
  (∀ v, v ∈ visited → Done st v ∧ ∀ s, s ∈ supers v → s ∈ visited ∨ s ∈ stack.*1) →
  grows st st' ∧ ∃ met, visited ⊆ met ∧ stack.*1 ⊆ met ∧ ∀ v, v ∈ met → Done st' v ∧ supers v ⊆ met.
Proof.
  induction fuel as [|fuel IH]; intros visited st [|[ty depth] stack] st'; cbn [sweep]; try done.
  1,2: intros [= <-] _ Hi; split; [done|]; exists visited; split_and!; [done|by intros x Hx%elem_of_nil|]; intros v Hv;
    destruct (Hi v Hv) as [Hd Hs]; (split; [done|]); intros s Hin; destruct (Hs s Hin) as [|Hx%elem_of_nil]; done.
  intros E [Hshort Hstack]%Forall_cons Hi. assert (Hd : (64 <? depth)%nat = false).
  { apply Nat.ltb_ge. pose proof (Hshort 0%nat ty (chain_here ty)). cbn in *. lia. }
  rewrite Hd in E. cbn [orb] in E. case_bool_decide as Hv.
  - destruct (IH _ _ _ _ E Hstack) as (Hg & met & H1 & H2 & H3).
    { intros v Hin. destruct (Hi v Hin) as [Hdv Hs]. split; [done|]. intros s Hsin. destruct (Hs s Hsin) as [|Hx]; [by left|].
      rewrite fmap_cons in Hx. apply elem_of_cons in Hx as [->|Hx]; [by left|by right]. }
    split; [done|]. exists met. split_and!; [done| |done]. rewrite fmap_cons. intros x [->|Hx]%elem_of_cons; [by apply H1|by apply H2].
  - destruct (visit st ty) as [[st1 sups]|] eqn:Ev; [|done]. pose proof (visit_supers _ _ _ _ Ev) as ->.
    destruct (IH _ _ _ _ E) as (Hg & met & H1 & H2 & H3).
    + apply Forall_app. split; [|done]. apply Forall_forall. intros [s d] Hin. apply list_elem_of_In, in_rev, list_elem_of_In in Hin.
      apply list_elem_of_fmap in Hin as (s' & [= -> ->] & Hin). intros n x Hc. cbn in *.
      pose proof (Hshort _ _ (chain_up _ _ _ _ Hin Hc)) as Hlen. cbn in Hlen. lia.
    + assert (Hsup : ∀ s, s ∈ supers ty → s ∈ (rev ((λ s, (s, Datatypes.S depth)) <$> supers ty) ++ stack).*1).
      { intros s Hs. rewrite fmap_app. apply elem_of_app. left. apply list_elem_of_fmap. exists (s, Datatypes.S depth). split; [done|].
        rewrite list_elem_of_In, <-in_rev, <-list_elem_of_In. apply list_elem_of_fmap. by exists s. }
      intros v [->|Hin]%elem_of_cons.
      * split; [by eapply visit_done|]. intros s Hs. right. by apply Hsup.
      * destruct (Hi v Hin) as [Hdv Hs]. split; [eapply done_grows; [by eapply visit_grows|done]|]. intros s Hsin.
        destruct (Hs s Hsin) as [|Hx]; [left; by right|]. rewrite fmap_cons in Hx. apply elem_of_cons in Hx as [->|Hx]; [left; by left|].
        right. rewrite fmap_app. apply elem_of_app. by right.
    + split; [etrans; [by eapply visit_grows|done]|]. exists met. split_and!; [| |done].
      * intros x Hx. apply H1. by right.
      * rewrite fmap_cons. intros x [->|Hx]%elem_of_cons; [apply H1; by left|]. apply H2. rewrite fmap_app. apply elem_of_app. by right.
Qed.
Lemma sweep_all fuel ty st st' : sweep visit fuel [] st [(ty, 0%nat)] = Some (Some st') → (∀ n x, chain n ty x → (n ≤ 64)%nat) →
  ∀ n x, chain n ty x → Done st' x.
Proof.
  intros E Hshort. destruct (sweep_meets _ _ _ _ _ E) as (_ & met & _ & H2 & H3).
  { apply Forall_singleton. intros n x Hc. by apply (Hshort n x). }
  { by intros v Hv%elem_of_nil. }
  assert (Hty : ty ∈ met) by (apply H2; by left). intros n x Hc. clear -Hc Hty H3.
  induction Hc as [ty|n ty s x Hs _ IH]; [by apply H3|]. apply IH. by apply (H3 ty).
Qed.
Lemma sweep_keeps (P : S → Prop) (Q : TypeRef → Prop) : (∀ ty s, Q ty → s ∈ supers ty → Q s) →
  (∀ st ty st' sups, Q ty → P st → visit st ty = Some (st', sups) → P st') →
  ∀ fuel visited st stack st', sweep visit fuel visited st stack = Some (Some st') → (∀ ty, ty ∈ stack.*1 → Q ty) → P st → P st'.
Proof.
  intros HQ HP. induction fuel as [|fuel IH]; intros visited st [|[ty depth] stack] st'; cbn [sweep]; try done; try (by intros [= <-]).
  intros E Hq Hp. destruct (_ || _); [apply IH in E; [done| |done]; intros x Hx; apply Hq; by right|].
  destruct (visit st ty) as [[st1 sups]|] eqn:Ev; [|done]. pose proof (visit_supers _ _ _ _ Ev) as ->.
  apply IH in E; [done| |eapply HP; [|done..]; apply Hq; by left].
  intros x Hx. rewrite fmap_app in Hx. apply elem_of_app in Hx as [Hx|Hx]; [|apply Hq; by right].
  apply list_elem_of_fmap in Hx as (sd & -> & Hsd). apply list_elem_of_In, in_rev, list_elem_of_In in Hsd.
  apply list_elem_of_fmap in Hsd as (s & -> & Hs). eapply HQ; [apply Hq; by left|done].
Qed.
End SweepSpec.

(** ** Lambda bodies *)

Section Bodies.
Context (source : string).
Definition not_comment (n : Node) : bool := negb (bool_decide (kind n ∈ ["line_comment"; "block_comment"])).
Record Returns := mkReturns { has_value : bool; has_bare : bool }.
Definition return_child (acc : Returns * list Node) (child : Node) : Returns * list Node :=
  let '(r, pushed) := acc in
  if bool_decide (kind child ∈ ["lambda_expression"; "class_body"]) then acc
  else if bool_decide (kind child = "return_statement") then
    (if existsb not_comment (named_children child) then mkReturns true (has_bare r) else mkReturns (has_value r) true, pushed)
  else (r, pushed ++ [child]).
Fixpoint collect_lambda_returns (fuel : nat) (r : Returns) (stack : list Node) : Returns :=
  match stack, fuel with
  | [], _ | _, O => r
  | n :: stack, S fuel =>
      let '(r, pushed) := fold_left return_child (named_children n) (r, []) in
      collect_lambda_returns fuel r (rev pushed ++ stack)
  end.
Definition is_unconditional_loop (statement : Node) : bool :=
  match child_by_field_name "condition" statement with
  | None => bool_decide (kind statement = "for_statement")
  | Some condition =>
      bool_decide (trim (trim_end_char ")" (skip_char "(" (trim (node_text condition source)))) = "true")
  end.
Definition completes_step (completes : Node → bool) (block : Node) : bool :=
  forallb (λ s,
      let k := kind s in
      if bool_decide (k ∈ ["return_statement"; "throw_statement"]) then false
      else if bool_decide (k = "block") then completes s
      else if bool_decide (k ∈ ["while_statement"; "for_statement"]) then negb (is_unconditional_loop s)
      else true)
    (List.filter not_comment (named_children block)).
Definition lambda_block_completes_normally : Node → bool := descend true completes_step.
Definition lambda_parameters (lambda : Node) : list Node :=
  match child_by_field_name "parameters" lambda with
  | None => []
  | Some parameters =>
      let k := kind parameters in
      if bool_decide (k = "identifier") then [parameters]
      else if bool_decide (k = "inferred_parameters") then
        List.filter (λ n, bool_decide (kind n = "identifier")) (named_children parameters)
      else if bool_decide (k = "formal_parameters") then
        List.filter (λ n, bool_decide (kind n ∈ ["formal_parameter"; "spread_parameter"])) (named_children parameters)
      else []
  end.
Definition compute_lambda_body_shape `{Project} (lambda : Node) : BodyShape :=
  match child_by_field_name "body" lambda with
  | None => UnknownShape
  | Some body =>
      let k := kind body in
      if negb (bool_decide (k = "block")) then
        if bool_decide (k = "method_invocation") then if returns_nothing body then VoidOnly else Either
        else if bool_decide (k ∈ ["object_creation_expression"; "assignment_expression"; "update_expression"]) then Either
        else ValueOnly
      else
        match collect_lambda_returns (size body) (mkReturns false false) [body] with
        | mkReturns true true => UnknownShape
        | mkReturns true false => ValueOnly
        | mkReturns false true => VoidOnly
        | mkReturns false false => if lambda_block_completes_normally body then VoidOnly else Either
        end
  end.
End Bodies.

Section Calls.
Context `{Project} (fuel : nat) (source : string).

(** ** The methods a call may mean *)

Definition erased_key (env : TypeEnv) (ps : list TypeRef) : list TypeRef :=
  (λ p, erase_to_object (erase (substitute p env))) <$> ps.
(** The candidates so far and the signatures they have. *)
Definition Candidates : Type := list Candidate * list (list TypeRef).
Fixpoint add_candidates (name : string) (static_only : bool) (env : TypeEnv) (st : Candidates) (ms : list ExternalMember) : option Candidates :=
  match ms with
  | [] => Some st
  | m :: ms =>
      if negb (bool_decide (em_name m = name)) || negb (match em_kind m with EMethod => true | _ => false end)
      then add_candidates name static_only env st ms
      else
        meta ← em_metadata m;
        if static_only && negb (mm_is_static meta) then add_candidates name static_only env st ms
        else
          ps ← mm_parameters meta;
          let key := erased_key env ps in
          let '(out, seen) := st in
          add_candidates name static_only env
            (if bool_decide (key ∈ seen) then st
             else (out ++ [mkCandidate meta env [] (em_ret_display m) (Some (em_signature m))], key :: seen)) ms
  end.
Definition visit_candidates (name : string) (static_only : bool) (st : Candidates) (ty : TypeRef) : option (Candidates * list TypeRef) :=
  match ty with
  | Named id args =>
      facts ← class_facts id;
      let meta := facts_meta facts in
      if negb (cm_hierarchy_complete meta) then None
      else
        let env := class_env meta args in
        st ← add_candidates name static_only env st (facts_members facts);
        if bool_decide (st.1 = []) && bool_decide (as_named id = Some "java.lang.Object")
           && bool_decide (facts_members facts = []) && negb object_on_classpath then None
        else Some (st, (λ s, substitute s env) <$> cm_supertypes meta)
  | _ => None
  end.
Definition method_candidates (recv : TypeRef) (name : string) (static_only : bool) : option (option (list Candidate)) :=
  match sweep (visit_candidates name static_only) fuel [] ([], []) [(recv, 0%nat)] with
  | Some (Some st) => Some (Some st.1)
  | Some None => Some None
  | None => None
  end.

(** ** Function types *)

Definition Methods : Type := list FunctionDescriptor * list (string * list TypeRef).
Fixpoint add_methods (env : TypeEnv) (st : Methods) (ms : list ExternalMember) : option Methods :=
  match ms with
  | [] => Some st
  | m :: ms =>
      if negb (match em_kind m with EMethod => true | _ => false end) || em_is_static m then add_methods env st ms
      else
        meta ← em_metadata m;
        if bool_decide (mm_access meta = Private) then add_methods env st ms
        else
          ps ← mm_parameters meta;
          let parameters := (λ p, ground_target_type (substitute p env)) <$> ps in
          if is_object_method (em_name m) parameters then add_methods env st ms
          else
            let key := (em_name m, (λ p, erase_to_object (erase p)) <$> parameters) in
            let '(found, seen) := st in
            if bool_decide (key ∈ seen) then add_methods env st ms
            else if negb (mm_is_abstract meta) then add_methods env (found, key :: seen) ms
            else if negb (match mm_type_parameters meta with [] => true | _ => false end) then None
            else add_methods env
                   (found ++ [mkDescriptor parameters (ground_target_type (substitute (mm_result meta) env))], key :: seen) ms
  end.
Definition visit_methods (st : Methods) (ty : TypeRef) : option (Methods * list TypeRef) :=
  match ty with
  | Named id args =>
      facts ← class_facts id;
      let meta := facts_meta facts in
      if negb (cm_hierarchy_complete meta) then None
      else
        env ← type_environment (cm_type_parameters meta) args;
        st ← add_methods env st (facts_members facts);
        Some (st, (λ s, substitute s env) <$> cm_supertypes meta)
  | _ => None
  end.
Definition functional_descriptor (target : TypeRef) : option (option FunctionDescriptor) :=
  match ground_target_type target with
  | Named id args =>
      match class_facts id with
      | None => Some None
      | Some facts =>
          if negb (bool_decide (cm_kind (facts_meta facts) = KInterface)) then Some None
          else
            match sweep visit_methods fuel [] ([], []) [(Named id args, 0%nat)] with
            | Some st => Some (match st with Some ([d], _) => Some d | _ => None end)
            | None => None
            end
      end
  | _ => Some None
  end.

(** ** When an argument fits *)

(** Both ways. *)
Definition same_type (declared target : TypeRef) : option (option bool) :=
  if bool_decide (declared = target) then Some (Some true)
  else
    to ← assignable_refs fuel declared target;
    from ← assignable_refs fuel target declared;
    all_proved Some false [to; from].
(** The parameters whose types are written. *)
Definition declared_parameters (lambda : Node) (ps : list TypeRef) : list (TypeRef * TypeRef) :=
  omap (λ '(p, target),
      type_node ← child_by_field_name "type" p;
      if bool_decide (node_text type_node source = "var") then None
      else declared ← declared_type type_node; Some (declared, target))
    (zip (lambda_parameters lambda) ps).
Definition is_void (t : TypeRef) : bool := match t with Void => true | _ => false end.
Definition shape_fits (shape : BodyShape) (result : TypeRef) : bool :=
  match shape with
  | UnknownShape | Either => true
  | VoidOnly => is_void result
  | ValueOnly => negb (is_void result)
  end.
Definition lambda_compatible (lambda : Node) (target : TypeRef) : option (option bool) :=
  d ← functional_descriptor target;
  match d with
  | None => Some None
  | Some d =>
      if negb (length (lambda_parameters lambda) =? length (fd_parameters d))%nat then Some (Some false)
      else if negb (shape_fits (compute_lambda_body_shape source lambda) (fd_result d)) then Some (Some false)
      else
        checks ← mapM (λ '(a, b), same_type a b) (declared_parameters lambda (fd_parameters d));
        all_proved Some false checks
  end.

(** Invocation contexts narrow no constants, and box nothing in the strict
    phase. *)
Definition convertible (phase : Phase) (arg param : TypeRef) : option (option bool) :=
  match arg, param with
  | Primitive a, Primitive p => Some (Some (bool_decide (a = p) || widens_to a p))
  | Primitive _, _ | _, Primitive _ =>
      if bool_decide (phase = Strict) then Some (Some false) else assignable_refs fuel arg param
  | _, _ => assignable_refs fuel arg param
  end.
Definition argument_compatible (phase : Phase) (pa : TypeRef * Argument) : option (option bool) :=
  match pa.2 with
  | Value v => convertible phase v pa.1
  | Lambda l => lambda_compatible l pa.1
  | MethodReference m => Some (if reference_resolves m pa.1 then Some true else None)
  end.
Definition parameters (c : Candidate) : option (list TypeRef) :=
  match mm_parameters (c_meta c) with
  | Some ps => Some ((λ p, substitute p (c_env c)) <$> ps)
  | None => None
  end.
Definition arity_excluded (c : Candidate) (n : nat) : bool :=
  match mm_parameters (c_meta c) with
  | Some p => if mm_is_varargs (c_meta c) then (n + 1 <? length p)%nat else negb (length p =? n)%nat
  | None => false
  end.
(** A method of variable arity has a last parameter: without one the source
    stops with a panic, here [None]. *)
Definition applicable_in (args : list Argument) (phase : Phase) (c : Candidate) : option (option bool) :=
  match parameters c with
  | None => Some None
  | Some params =>
      if existsb contains_unknown params then Some (if arity_excluded c (length args) then Some false else None)
      else match phase with
           | Strict | Loose =>
               if negb (length params =? length args)%nat then Some (Some false)
               else all_proved (argument_compatible phase) false (zip params args)
           | Varargs =>
               if negb (mm_is_varargs (c_meta c)) || (length args + 1 <? length params)%nat then Some (Some false)
               else match last params with
                    | None => None
                    | Some (Array element) =>
                        let fixed := take (length params - 1) params in
                        checks ← mapM (argument_compatible Loose) (zip fixed args);
                        more ← mapM (λ a, argument_compatible Loose (element, a)) (drop (length fixed) args);
                        all_proved Some false (checks ++ more)
                    | Some _ => Some None
                    end
           end
  end.

(** ** The most specific one *)

Definition own_parameters (c : Candidate) : list TypeRef := default [] (parameters c).
Definition dominates (m1 m2 : Candidate) : option (option bool) :=
  all_proved (λ '(a, b), assignable_refs fuel a b) false (zip (own_parameters m1) (own_parameters m2)).
(** The inner [None]: two arities, and nothing is decided. *)
Fixpoint dominates_all (m1 : Placed) (set : list Placed) : option (option bool) :=
  match set with
  | [] => Some (Some true)
  | m2 :: set =>
      if bool_decide (m1.1 = m2.1) then dominates_all m1 set
      else if negb (length (own_parameters m1.2) =? length (own_parameters m2.2))%nat then Some None
      else
        r ← dominates m1.2 m2.2;
        if bool_decide (r = Some true) then dominates_all m1 set else Some (Some false)
  end.
Fixpoint winner_among (set ms : list Placed) (best : option Placed) : option (option Placed) :=
  match ms with
  | [] => Some best
  | m1 :: ms =>
      r ← dominates_all m1 set;
      match r with
      | None => Some None
      | Some false => winner_among set ms best
      | Some true => match best with Some _ => Some None | None => winner_among set ms (Some m1) end
      end
  end.
Definition subtyping_winner (set : list Placed) : option (option Placed) := winner_among set set None.

Definition result_is_void (index : nat) (c : Candidate) : option (option bool) :=
  match mm_parameters (c_meta c) ≫= (λ ps, ps !! index) with
  | None => Some None
  | Some p =>
      d ← functional_descriptor (substitute p (c_env c));
      Some (match d with Some d => Some (is_void (fd_result d)) | None => None end)
  end.
Definition has_result (r : bool) (cr : Placed * option bool) : bool := bool_decide (cr.2 = Some r).
Definition narrow_at (index : nat) (kept : list Placed) : option (list Placed) :=
  voids ← mapM (λ c, r ← result_is_void index c.2; Some (c, r)) kept;
  let value_returning := fst <$> List.filter (has_result false) voids in
  let void_returning := length (List.filter (has_result true) voids) in
  Some (if negb (bool_decide (length value_returning = 0%nat)) && (length value_returning + void_returning =? length kept)%nat
        then value_returning else kept).
(** Lambdas whose body may have a value. *)
Definition may_have_value (l : Node) : bool :=
  match compute_lambda_body_shape source l with Either | ValueOnly => true | VoidOnly | UnknownShape => false end.
Fixpoint narrow_by_lambda_result (index : nat) (args : list Argument) (kept : list Placed) : option (list Placed) :=
  match args with
  | [] => Some kept
  | Lambda l :: args =>
      kept ← if may_have_value l then narrow_at index kept else Some kept;
      narrow_by_lambda_result (S index) args kept
  | _ :: args => narrow_by_lambda_result (S index) args kept
  end.

Definition arity (c : Placed) : nat := match mm_parameters (c_meta c.2) with Some p => length p | None => 0%nat end.
Definition takes_variable (index : nat) (c : Placed) : bool :=
  match mm_parameters (c_meta c.2) ≫= (λ ps, ps !! index) with
  | Some (TVariable v) => bool_decide (v ∈ c_inferred c.2)
  | _ => false
  end.
Definition narrow_by_variable (kept : list Placed) (index : nat) : list Placed :=
  let generic := List.filter (takes_variable index) kept in
  if negb (bool_decide (length generic = 0%nat)) && (length generic <? length kept)%nat then generic else kept.
Definition narrow_by_inference_variables (applicable : list Placed) : list Placed :=
  match applicable with
  | [] => []
  | c0 :: _ =>
      if existsb (λ c, negb (arity c =? arity c0)%nat) applicable then applicable
      else fold_left narrow_by_variable (seq 0 (arity c0)) applicable
  end.

Definition one_or_winner (l : list Placed) : option (option Placed) :=
  match l with [c] => Some (Some c) | _ => subtyping_winner l end.
Definition most_specific (applicable : list Placed) (args : list Argument) : option (option Placed) :=
  match applicable with
  | [c] => Some (Some c)
  | _ =>
      best ← subtyping_winner applicable;
      match best with
      | Some best => Some (Some best)
      | None =>
          narrowed ← narrow_by_lambda_result 0 args applicable;
          if (length narrowed <? length applicable)%nat then one_or_winner narrowed
          else
            let by_variable := narrow_by_inference_variables applicable in
            if (length by_variable <? length applicable)%nat then one_or_winner by_variable else Some None
      end
  end.

(** ** The phases *)

Definition is_applicable (cr : Placed * option bool) : bool := bool_decide (cr.2 = Some true).
Definition is_unknown (cr : Placed * option bool) : bool := bool_decide (cr.2 = None).
Fixpoint select_in (phases : list Phase) (candidates : list Placed) (args : list Argument) : option Selection :=
  match phases with
  | [] => Some (NoApplicable (length candidates))
  | phase :: phases =>
      tried ← mapM (λ c, r ← applicable_in args phase c.2; Some (c, r)) candidates;
      if existsb is_unknown tried then Some UnknownCall
      else match fst <$> List.filter is_applicable tried with
           | [] => select_in phases candidates args
           | applicable =>
               best ← most_specific applicable args;
               Some (match best with Some c => Selected c phase | None => Ambiguous end)
           end
  end.
Definition select_placed (candidates : list Placed) (args : list Argument) : option Selection :=
  match candidates with [] => Some UnknownCall | _ => select_in [Strict; Loose; Varargs] candidates args end.
Definition select_candidate (candidates : list Candidate) (args : list Argument) : option Selection :=
  select_placed (imap pair candidates) args.

(** ** What the answers mean *)

(** The rules of JLS 15.12.2, over answers about one argument and one parameter
    type: that the assignability engine proves or refutes a conversion, and
    what is found of a lambda or a method reference. *)
Definition Proved (a e : TypeRef) : Prop := assignable_refs fuel a e = Some (Some true).
Definition Refuted (a e : TypeRef) : Prop := assignable_refs fuel a e = Some (Some false).

(** Invocation contexts (JLS 5.3): between primitive types identity and
    widening; between a primitive and a reference type nothing in the strict
    phase. *)
Definition Accepts (phase : Phase) (param : TypeRef) (a : Argument) : Prop :=
  match a with
  | Value v =>
      match v, param with
      | Primitive x, Primitive y => x = y ∨ widens_to x y = true
      | Primitive _, _ | _, Primitive _ => phase ≠ Strict ∧ Proved v param
      | _, _ => Proved v param
      end
  | Lambda l => lambda_compatible l param = Some (Some true)
  | MethodReference m => reference_resolves m param = true
  end.
Definition Rejects (phase : Phase) (param : TypeRef) (a : Argument) : Prop :=
  match a with
  | Value v =>
      match v, param with
      | Primitive x, Primitive y => ¬ (x = y ∨ widens_to x y = true)
      | Primitive _, _ | _, Primitive _ => phase = Strict ∨ Refuted v param
      | _, _ => Refuted v param
      end
  | Lambda l => lambda_compatible l param = Some (Some false)
  | MethodReference m => False
  end.

(** JLS 15.12.2.2 to 15.12.2.4: an applicable method, and one that is not, by
    its arity or by an argument. *)
Definition Accepted (args : list Argument) (phase : Phase) (c : Candidate) : Prop :=
  ∃ params, parameters c = Some params ∧ existsb contains_unknown params = false ∧
    match phase with
    | Strict | Loose => Forall2 (Accepts phase) params args
    | Varargs =>
        mm_is_varargs (c_meta c) = true ∧ ∃ fixed element, params = fixed ++ [Array element] ∧ (length fixed ≤ length args)%nat
          ∧ Forall2 (Accepts Loose) fixed (take (length fixed) args) ∧ Forall (Accepts Loose element) (drop (length fixed) args)
    end.
Definition wrong_arity (n k : nat) (variable : bool) : Prop :=
  if variable then (k + 1 < n)%nat else k ≠ n.
Definition Rejected (args : list Argument) (phase : Phase) (c : Candidate) : Prop :=
  ∃ params, parameters c = Some params ∧
    (wrong_arity (length params) (length args) (mm_is_varargs (c_meta c))
     ∨ existsb contains_unknown params = false ∧
       match phase with
       | Strict | Loose => length params ≠ length args ∨ ∃ i p a, params !! i = Some p ∧ args !! i = Some a ∧ Rejects phase p a
       | Varargs =>
           mm_is_varargs (c_meta c) = false ∨ ∃ fixed element, params = fixed ++ [Array element] ∧
             ((∃ i p a, fixed !! i = Some p ∧ args !! i = Some a ∧ Rejects Loose p a)
              ∨ ∃ a, a ∈ drop (length fixed) args ∧ Rejects Loose element a)
       end).

Lemma compatible_yes phase p a : argument_compatible phase (p, a) = Some (Some true) → Accepts phase p a.
Proof.
  destruct a as [v|l|m]; cbn [argument_compatible Accepts fst snd]; [|done|by destruct (reference_resolves m p)].
  unfold Proved. destruct v, p; cbn [convertible]; try done; try (by case_bool_decide).
  intros [= Hw]. apply orb_true_iff in Hw as [Hw%bool_decide_eq_true|Hw]; auto.
Qed.
Lemma compatible_no phase p a : argument_compatible phase (p, a) = Some (Some false) → Rejects phase p a.
Proof.
  destruct a as [v|l|m]; cbn [argument_compatible Rejects fst snd]; [|done|by destruct (reference_resolves m p)].
  unfold Refuted. destruct v, p; cbn [convertible]; try done; try (case_bool_decide; [by left|by right]).
  intros [= Hw]. apply orb_false_iff in Hw as [Hw%bool_decide_eq_false Hw']. intros [?|?]; [done|congruence].
Qed.
(** No argument is both. *)
Lemma accepts_not_rejects phase p a : Accepts phase p a → Rejects phase p a → False.
Proof.
  destruct a as [v|l|m]; cbn [Accepts Rejects]; [|congruence|done]. unfold Proved, Refuted.
  destruct v, p; try congruence; naive_solver congruence.
Qed.

Lemma all_proved_some_true {A} (f : A → option (option bool)) l rs : mapM f l = Some rs → all_proved Some false rs = Some (Some true) →
  ∀ x, x ∈ l → f x = Some (Some true).
Proof.
  intros Hm%mapM_Some_1 [_ Ht]%all_proved_true x Hx. apply list_elem_of_lookup in Hx as [i Hi].
  destruct (Forall2_lookup_l _ _ _ _ _ Hm Hi) as (r & Hr & Hf). apply list_elem_of_lookup_2, Ht in Hr. congruence.
Qed.
Lemma all_proved_some_false {A} (f : A → option (option bool)) l rs : mapM f l = Some rs → all_proved Some false rs = Some (Some false) →
  ∃ x, x ∈ l ∧ f x = Some (Some false).
Proof.
  intros Hm%mapM_Some_1 (r & Hr & [= ->])%all_proved_false. apply list_elem_of_lookup in Hr as [i Hi].
  destruct (Forall2_lookup_r _ _ _ _ _ Hm Hi) as (x & Hx & Hf). exists x. by split; [eapply list_elem_of_lookup_2|].
Qed.

Lemma all_proved_intro {A} (f : A → option (option bool)) l : (∀ x, x ∈ l → f x = Some (Some true)) →
  all_proved f false l = Some (Some true).
Proof.
  induction l as [|x l IH]; intros Hl; cbn [all_proved]; [done|]. rewrite Hl by by left. cbn. apply IH. intros y Hy. apply Hl. by right.
Qed.
Lemma mapM_elem_of_r {A B} (f : A → option B) l k y : mapM f l = Some k → y ∈ k → ∃ x, x ∈ l ∧ f x = Some y.
Proof.
  intros Hm%mapM_Some_1 [i Hi]%list_elem_of_lookup. destruct (Forall2_lookup_r _ _ _ _ _ Hm Hi) as (x & Hx & Hf).
  exists x. split; [by eapply list_elem_of_lookup_2|done].
Qed.
Lemma forall2_zip {A B} (P : A → B → Prop) l k : length l = length k → (∀ x y, (x, y) ∈ zip l k → P x y) → Forall2 P l k.
Proof.
  revert k. induction l as [|x l IH]; intros [|y k] Hl Hz; try done. constructor; [apply Hz; by left|].
  apply IH; [by injection Hl|]. intros a b Hab. apply Hz. by right.
Qed.
Lemma forall2_zip_elem {A B} (P : A → B → Prop) l k x y : Forall2 P l k → (x, y) ∈ zip l k → P x y.
Proof. induction 1 as [|a b l k Hp _ IH]; [by intros Hx%elem_of_nil|]. intros [[= -> ->]|Hx]%elem_of_cons; auto. Qed.
Lemma zip_take_r {A B} (l : list A) (k : list B) : zip l k = zip l (take (length l) k).
Proof. revert k. induction l as [|x l IH]; intros [|y k]; cbn; [done..|]. by rewrite <-IH. Qed.

Lemma arity_excluded_wrong args phase c : arity_excluded c (length args) = true → Rejected args phase c.
Proof.
  unfold arity_excluded, Rejected, parameters. destruct (mm_parameters (c_meta c)) as [ps|]; [|done].
  intros He. eexists. split; [done|]. left. rewrite length_fmap. unfold wrong_arity. destruct (mm_is_varargs (c_meta c)).
  - by apply Nat.ltb_lt.
  - apply negb_true_iff, Nat.eqb_neq in He. lia.
Qed.
Lemma zip_lookup {A B} (l : list A) (k : list B) x y : (x, y) ∈ zip l k → ∃ i, l !! i = Some x ∧ k !! i = Some y.
Proof.
  intros Hin. apply list_elem_of_lookup in Hin as [i Hi]. exists i.
  apply lookup_zip_with_Some in Hi as (x' & y' & [= <- <-] & ? & ?). done.
Qed.
Lemma applicable_yes args phase c : applicable_in args phase c = Some (Some true) → Accepted args phase c.
Proof.
  unfold applicable_in, Accepted. destruct (parameters c) as [params|]; [|done].
  destruct (existsb _ _) eqn:Eu; [by destruct (arity_excluded _ _)|].
  assert (Hfix : ∀ phase, (if negb (length params =? length args)%nat then Some (Some false)
      else all_proved (argument_compatible phase) false (zip params args)) = Some (Some true) → Forall2 (Accepts phase) params args).
  { intros q. destruct (Nat.eqb_spec (length params) (length args)) as [El|]; cbn; [|done]. intros [_ Ha]%all_proved_true.
    apply forall2_zip; [done|]. intros x y Hxy. apply compatible_yes. by apply Ha. }
  intros E. exists params. split; [done|]. split; [done|]. destruct phase; [by apply Hfix..|].
  destruct (mm_is_varargs _); cbn [negb orb] in E; [|done]. destruct (Nat.ltb_spec (length args + 1) (length params)) as [|Hl]; [done|].
  split; [done|]. destruct (last params) as [[| | | |element| | |]|] eqn:El; try done. apply last_Some in El as [fixed ->].
  rewrite length_app in *. cbn [length] in *. rewrite Nat.add_sub, take_app_length in E. exists fixed, element.
  destruct (mapM (argument_compatible Loose) _) as [checks|] eqn:E1; [|done]. destruct (mapM _ (drop _ _)) as [more|] eqn:E2; [|done].
  cbn in E. apply all_proved_true in E as [_ E].
  assert (all_proved Some false checks = Some (Some true) ∧ all_proved Some false more = Some (Some true)) as [Ec Em].
  { split; apply all_proved_intro; intros r Hr; apply E, elem_of_app; auto. }
  split_and!; [done|lia|..].
  - apply forall2_zip; [rewrite length_take; lia|]. intros x y Hxy. apply compatible_yes. rewrite <-zip_take_r in Hxy.
    by apply (all_proved_some_true _ _ _ E1 Ec).
  - apply Forall_forall. intros a Ha. apply compatible_yes. by apply (all_proved_some_true _ _ _ E2 Em).
Qed.
Lemma applicable_no args phase c : applicable_in args phase c = Some (Some false) → Rejected args phase c.
Proof.
  unfold applicable_in. destruct (parameters c) as [params|] eqn:Ep; [|done].
  destruct (existsb _ _) eqn:Eu; [destruct (arity_excluded c _) eqn:Ea; [intros _; by apply arity_excluded_wrong|done]|].
  assert (Hfix : ∀ phase, (if negb (length params =? length args)%nat then Some (Some false)
      else all_proved (argument_compatible phase) false (zip params args)) = Some (Some false) →
      length params ≠ length args ∨ ∃ i p a, params !! i = Some p ∧ args !! i = Some a ∧ Rejects phase p a).
  { intros q. destruct (Nat.eqb_spec (length params) (length args)) as [El|Hne]; cbn; [|by left].
    intros ([x y] & (i & Hx & Hy)%zip_lookup & Hf)%all_proved_false. apply compatible_no in Hf. right. by exists i, x, y. }
  intros E. exists params. split; [done|]. destruct phase; [right; split; [done|by apply Hfix]..|].
  destruct (mm_is_varargs _) eqn:Ev; cbn [negb orb] in E; [|right; split; [done|by left]].
  destruct (Nat.ltb_spec (length args + 1) (length params)) as [Hl|Hl]; [by left|].
  right. split; [done|]. right. destruct (last params) as [[| | | |element| | |]|] eqn:El; try done. apply last_Some in El as [fixed ->].
  rewrite length_app in E. cbn [length] in E. rewrite Nat.add_sub, take_app_length in E. exists fixed, element. split; [done|].
  destruct (mapM (argument_compatible Loose) _) as [checks|] eqn:E1; [|done]. destruct (mapM _ (drop _ _)) as [more|] eqn:E2; [|done].
  cbn in E. apply all_proved_false in E as (r & [Hr|Hr]%elem_of_app & [= ->]).
  - destruct (mapM_elem_of_r _ _ _ _ E1 Hr) as ([x y] & (i & Hx & Hy)%zip_lookup & Hf). apply compatible_no in Hf. left. by exists i, x, y.
  - destruct (mapM_elem_of_r _ _ _ _ E2 Hr) as (y & Hy & Hf). apply compatible_no in Hf. right. by exists y.
Qed.
(** A candidate is not both. *)
Lemma accepted_not_rejected args phase c : Accepted args phase c → Rejected args phase c → False.
Proof.
  intros (params & Ep & Hu & Ha) (params' & Ep' & Hr). assert (params' = params) as -> by congruence.
  assert (Hw : ¬ wrong_arity (length params) (length args) (mm_is_varargs (c_meta c))).
  { unfold wrong_arity. destruct phase; [apply Forall2_length in Ha; destruct (mm_is_varargs _); lia..|].
    destruct Ha as (-> & fixed & element & -> & Hl & _). rewrite length_app. cbn. lia. }
  destruct Hr as [Hr|[_ Hr]]; [done|].
  assert (Hf : ∀ q ps xs, Forall2 (Accepts q) ps xs → ¬ ∃ i p a, ps !! i = Some p ∧ xs !! i = Some a ∧ Rejects q p a).
  { intros q ps xs Hf (i & p & a & Hp & Hx & Hj). eapply accepts_not_rejects; [by eapply Forall2_lookup_lr|done]. }
  destruct phase.
  1, 2: destruct Hr as [Hr|Hr]; [by apply Forall2_length in Ha|by eapply Hf].
  destruct Ha as (Hv & fixed & element & -> & Hl & Hfix & Hrest).
  destruct Hr as [Hr|(fixed' & element' & [-> [= ->]]%app_inj_tail & Hr)]; [congruence|].
  destruct Hr as [(i & p & a & Hp & Hx & Hj)|(a & Hin & Hj)].
  - eapply Hf; [exact Hfix|]. exists i, p, a. split_and!; [done| |done]. rewrite lookup_take_lt; [done|]. by eapply lookup_lt_Some.
  - rewrite Forall_forall in Hrest. eapply accepts_not_rejects; [by apply Hrest|done].
Qed.

(** ** The winner *)

(** [w] has the arity of [m], and each of its parameter types is proved a
    subtype of the other's. *)
Definition MoreSpecific (w m : Placed) : Prop := Forall2 Proved (own_parameters w.2) (own_parameters m.2).
Definition Dominant (set : list Placed) (w : Placed) : Prop := ∀ m, m ∈ set → m.1 ≠ w.1 → MoreSpecific w m.
(** More specific than every other candidate, and the only one that is. *)
Definition sole_winner (set : list Placed) (w : Placed) : Prop :=
  w ∈ set ∧ Dominant set w ∧ ∀ m, m ∈ set → m.1 ≠ w.1 → ¬ Dominant set m.

Lemma dominates_spec w m : length (own_parameters w.2) = length (own_parameters m.2) →
  dominates w.2 m.2 = Some (Some true) ↔ MoreSpecific w m.
Proof.
  intros El. unfold dominates, MoreSpecific, Proved. split.
  - intros [_ Ha]%all_proved_true. apply forall2_zip; [done|]. intros a b Hab. by apply (Ha (a, b)).
  - intros HF. apply all_proved_intro. intros [a b] Hab. by apply (forall2_zip_elem _ _ _ _ _ HF Hab).
Qed.

Lemma dominates_all_spec w set : ∀ r, dominates_all w set = Some r →
  match r with
  | Some true => Dominant set w
  | Some false => ¬ Dominant set w
  | None => ∃ m, m ∈ set ∧ length (own_parameters w.2) ≠ length (own_parameters m.2)
  end.
Proof.
  induction set as [|m set IH]; intros r; cbn [dominates_all]; [by intros [= <-] m Hm%elem_of_nil|].
  case_bool_decide as Hi.
  - intros E%IH. destruct r as [[]|].
    + intros m' [->|Hm]%elem_of_cons; [congruence|by apply E].
    + intros Hd. apply E. intros m' Hm. apply Hd. by right.
    + destruct E as (m' & Hm & Hl). exists m'. by split; [right|].
  - destruct (Nat.eqb_spec (length (own_parameters w.2)) (length (own_parameters m.2))) as [El|Hne]; cbn [negb].
    2:{ intros [= <-]. exists m. by split; [left|]. }
    destruct (dominates w.2 m.2) as [d|] eqn:Ed; [|done]. cbn [mbind option_bind]. case_bool_decide as Ht.
    + subst d. intros E%IH. destruct r as [[]|].
      * intros m' [->|Hm]%elem_of_cons; [intros _; by apply dominates_spec|by apply E].
      * intros Hd. apply E. intros m' Hm. apply Hd. by right.
      * destruct E as (m' & Hm & Hl). exists m'. by split; [right|].
    + intros [= <-] Hd. assert (MoreSpecific w m) as Hd' by (apply Hd; [by left|congruence]).
      apply dominates_spec in Hd'; [|done]. congruence.
Qed.
Lemma winner_among_spec set ms : ∀ best r, winner_among set ms best = Some r →
  match r with
  | Some w => best = Some w ∧ (∀ m, m ∈ ms → ¬ Dominant set m)
      ∨ best = None ∧ ∃ pre post, ms = pre ++ w :: post ∧ Dominant set w ∧ ∀ m, m ∈ pre ++ post → ¬ Dominant set m
  | None => best = None ∧ (∀ m, m ∈ ms → ¬ Dominant set m)
      ∨ (∃ m m', m ∈ ms ∧ m' ∈ set ∧ length (own_parameters m.2) ≠ length (own_parameters m'.2))
      ∨ (∃ m, best ≠ None ∧ m ∈ ms ∧ Dominant set m)
      ∨ ∃ pre m mid m' post, ms = pre ++ m :: mid ++ m' :: post ∧ Dominant set m ∧ Dominant set m'
  end.
Proof.
  induction ms as [|m ms IH]; intros best r; cbn [winner_among].
  - intros [= ->]. destruct r; left; (split; [done|]); by intros m Hm%elem_of_nil.
  - destruct (dominates_all m set) as [d|] eqn:Ed; [|done]. apply dominates_all_spec in Ed. cbn [mbind option_bind]. destruct d as [[]|].
    + destruct best as [b|]; [intros [= <-]; right; right; left; exists m; split_and!; [done|by left|done]|].
      intros E%IH. destruct r as [w|].
      * destruct E as [[[= ->] Hn]|[[=] _]]. right. split; [done|]. by exists [], ms.
      * destruct E as [[[=] _]|[(x & x' & Hx & E)|[(x & _ & Hx & E)|(pre & x & mid & x' & post & -> & E)]]].
        -- right. left. exists x, x'. split; [by right|done].
        -- do 3 right. apply list_elem_of_split in Hx as (l1 & l2 & ->). by exists [], m, l1, x, l2.
        -- do 3 right. by exists (m :: pre), x, mid, x', post.
    + intros E%IH. destruct r as [w|].
      * destruct E as [[-> Hn]|(-> & pre & post & -> & Hw & Hn)]; [left|right]; (split; [done|]).
        -- intros x [->|Hx]%elem_of_cons; [done|by apply Hn].
        -- exists (m :: pre), post. split_and!; [done..|]. intros x [->|Hx]%elem_of_cons; [done|by apply Hn].
      * destruct E as [[-> Hn]|[(x & x' & Hx & E)|[(x & Hb & Hx & E)|(pre & x & mid & x' & post & -> & E)]]].
        -- left. split; [done|]. intros x [->|Hx]%elem_of_cons; [done|by apply Hn].
        -- right. left. exists x, x'. split; [by right|done].
        -- do 2 right. left. exists x. split_and!; [done|by right|done].
        -- do 3 right. by exists (m :: pre), x, mid, x', post.
    + intros [= <-]. right. left. destruct Ed as (m' & Hm & Hl). exists m, m'. split; [by left|done].
Qed.
Lemma placed_inj (set : list Placed) a b : NoDup (fst <$> set) → a ∈ set → b ∈ set → a.1 = b.1 → a = b.
Proof. apply SourceModel.NoDup_fmap_inj. Qed.
Lemma winner_spec set r : NoDup (fst <$> set) → subtyping_winner set = Some r → ∀ w, r = Some w ↔ sole_winner set w.
Proof.
  intros Hnd E%winner_among_spec w. split.
  - intros ->. destruct E as [[[=] _]|(_ & pre & post & -> & Hw & Hn)]. split_and!; [set_solver|done|].
    intros m Hm Hne. apply Hn. set_solver.
  - intros (Hw & Hd & Hn). destruct r as [w'|].
    + f_equal. destruct E as [[[=] _]|(_ & pre & post & E & Hw' & _)]. subst set. destruct (decide (w'.1 = w.1)) as [Ei|Hne].
      * eapply placed_inj; [done|set_solver..|done].
      * exfalso. apply (Hn w'); [set_solver|done..].
    + exfalso. assert (Hlen : ∀ m, m ∈ set → length (own_parameters m.2) = length (own_parameters w.2)).
      { intros m Hm. destruct (decide (m.1 = w.1)) as [Ei|Hne]; [by rewrite (placed_inj set m w)|]. symmetry. by apply (Forall2_length _ _ _ (Hd m Hm Hne)). }
      destruct E as [[_ Hno]|[(m & m' & Hm & Hm' & Hl)|[(m & Hb & _)|(pre & m & mid & m' & post & E & H1 & H2)]]].
      * by apply (Hno w).
      * apply Hl. by rewrite (Hlen m), (Hlen m').
      * done.
      * assert (m.1 ≠ m'.1).
        { subst set. rewrite fmap_app, fmap_cons, fmap_app, fmap_cons in Hnd. apply NoDup_app in Hnd as (_ & _ & [Hx _]%NoDup_cons).
          intros Heq. apply Hx. rewrite Heq. apply elem_of_app. right. by left. }
        assert (Hm : m ∈ set) by (subst set; apply elem_of_app; right; by left).
        assert (Hm' : m' ∈ set) by (subst set; apply elem_of_app; right; right; apply elem_of_app; right; by left).
        destruct (decide (m.1 = w.1)) as [Ei|Hne]; [apply (Hn m')|apply (Hn m)]; congruence || done.
Qed.
Lemma sole_winner_ext set set' w : (∀ m, m ∈ set ↔ m ∈ set') → sole_winner set w ↔ sole_winner set' w.
Proof. intros E. unfold sole_winner, Dominant. by setoid_rewrite E. Qed.
Lemma winner_order set set' r r' : set ≡ₚ set' → NoDup (fst <$> set) → subtyping_winner set = Some r → subtyping_winner set' = Some r' → r = r'.
Proof.
  intros Hp Hnd E E'. assert (Hnd' : NoDup (fst <$> set')) by (by rewrite <-Hp).
  pose proof (winner_spec set r Hnd E) as Hr. pose proof (winner_spec set' r' Hnd' E') as Hr'.
  assert (Hx : ∀ m, m ∈ set ↔ m ∈ set') by (intros m; by rewrite Hp).
  destruct r as [w|]; [symmetry; apply Hr', (sole_winner_ext _ _ _ Hx), Hr; done|].
  destruct r' as [w'|]; [|done]. apply Hr, (sole_winner_ext _ _ _ Hx), Hr'. done.
Qed.

(** ** The order of the candidates does not matter *)

Lemma filter_order {A} (p : A → bool) l k : l ≡ₚ k → List.filter p l ≡ₚ List.filter p k.
Proof. by intros ->. Qed.
Lemma mapM_tagged {A B} (f : A → option B) (d : B) l : ∀ k,
  mapM (λ c, r ← f c; Some (c, r)) l = Some k → k = (λ c, (c, default d (f c))) <$> l.
Proof.
  induction l as [|c l IH]; intros k; cbn; [by intros [= <-]|]. destruct (f c) as [r|]; cbn; [|done].
  destruct (mapM _ l) as [k'|] eqn:E; cbn; [|done]. intros [= <-]. by rewrite (IH k').
Qed.
Lemma filter_tagged {A B} (g : A → B) (p : A * B → bool) l :
  fst <$> List.filter p ((λ c, (c, g c)) <$> l) = List.filter (λ c, p (c, g c)) l.
Proof. induction l as [|c l IH]; [done|]. cbn. destruct (p _); cbn; by rewrite IH. Qed.
Lemma length_filter_tagged {A B} (g : A → B) (p : A * B → bool) l :
  length (List.filter p ((λ c, (c, g c)) <$> l)) = length (List.filter (λ c, p (c, g c)) l).
Proof. by rewrite <-filter_tagged, length_fmap. Qed.
Lemma existsb_order {A} (p : A → bool) l k : l ≡ₚ k → existsb p l = existsb p k.
Proof.
  intros H'. apply Bool.eq_iff_eq_true. rewrite !existsb_exists.
  split; intros (x & Hx%list_elem_of_In & Hp); exists x; (split; [apply list_elem_of_In|done]); [by rewrite <-H'|by rewrite H'].
Qed.

Definition voids (index : nat) (c : Placed) : option bool := default None (result_is_void index c.2).
Lemma narrow_at_eq index kept out : narrow_at index kept = Some out →
  let value := List.filter (λ c, has_result false (c, voids index c)) kept in
  let void := List.filter (λ c, has_result true (c, voids index c)) kept in
  out = if negb (bool_decide (length value = 0%nat)) && (length value + length void =? length kept)%nat then value else kept.
Proof.
  unfold narrow_at. destruct (mapM _ kept) as [vs|] eqn:E; [|done]. cbn [mbind option_bind].
  apply (mapM_tagged _ None) in E. subst vs. intros [= <-]. by rewrite filter_tagged, length_filter_tagged.
Qed.
Lemma narrow_at_order index kept kept' out out' : kept ≡ₚ kept' →
  narrow_at index kept = Some out → narrow_at index kept' = Some out' → out ≡ₚ out'.
Proof.
  intros Hp ->%narrow_at_eq ->%narrow_at_eq. cbn zeta.
  rewrite (Permutation_length (filter_order (λ c, has_result false (c, voids index c)) _ _ Hp)),
    (Permutation_length (filter_order (λ c, has_result true (c, voids index c)) _ _ Hp)), (Permutation_length Hp).
  destruct (_ && _); [by apply filter_order|done].
Qed.
Lemma narrow_lambda_order args : ∀ index kept kept' out out', kept ≡ₚ kept' →
  narrow_by_lambda_result index args kept = Some out → narrow_by_lambda_result index args kept' = Some out' → out ≡ₚ out'.
Proof.
  induction args as [|[v|l|m] args IH]; intros index kept kept' out out' Hp; cbn [narrow_by_lambda_result].
  - by intros [= <-] [= <-].
  - by apply IH.
  - destruct (may_have_value l); cbn [mbind option_bind]; [|by apply IH].
    destruct (narrow_at index kept) as [k|] eqn:E; [|done]. destruct (narrow_at index kept') as [k'|] eqn:E'; [|done].
    cbn [mbind option_bind]. apply IH. by eapply narrow_at_order.
  - by apply IH.
Qed.
Lemma narrow_variable_order kept kept' index : kept ≡ₚ kept' → narrow_by_variable kept index ≡ₚ narrow_by_variable kept' index.
Proof.
  intros Hp. unfold narrow_by_variable. rewrite (Permutation_length (filter_order (takes_variable index) _ _ Hp)), (Permutation_length Hp).
  destruct (_ && _); [by apply filter_order|done].
Qed.
Lemma narrow_inference_order l l' : l ≡ₚ l' → narrow_by_inference_variables l ≡ₚ narrow_by_inference_variables l'.
Proof.
  intros Hp. destruct l as [|c l]; [by apply Permutation_nil_l in Hp as ->|].
  destruct l' as [|c' l']; [by apply Permutation_nil_r in Hp|]. unfold narrow_by_inference_variables.
  destruct (existsb _ (c :: l)) eqn:E.
  - assert (existsb (λ x, negb (arity x =? arity c')%nat) (c' :: l') = true) as ->; [|done].
    apply existsb_exists in E as (x & Hx & Hne). apply existsb_exists.
    destruct (decide (arity x = arity c')) as [Ex|Ex].
    + exists c. split; [apply list_elem_of_In; rewrite <-Hp; by left|]. rewrite <-Ex. apply negb_true_iff, Nat.eqb_neq.
      apply negb_true_iff, Nat.eqb_neq in Hne. congruence.
    + exists x. split; [apply list_elem_of_In; rewrite <-Hp; by apply list_elem_of_In|]. by apply negb_true_iff, Nat.eqb_neq.
  - assert (Hall : ∀ x, x ∈ c :: l → arity x = arity c).
    { intros x Hx. destruct (Nat.eqb_spec (arity x) (arity c)) as [|Hne]; [done|]. rewrite <-not_true_iff_false, existsb_exists in E.
      destruct E. exists x. split; [by apply list_elem_of_In|]. by apply negb_true_iff, Nat.eqb_neq. }
    assert (Ec : arity c' = arity c) by (apply Hall; rewrite Hp; by left).
    rewrite (existsb_order _ _ _ (symmetry Hp)), Ec, E. generalize (seq 0 (arity c)). intros idx. revert Hp.
    generalize (c :: l), (c' :: l'). induction idx as [|i idx IH]; intros k k' Hp; cbn; [done|]. apply IH. by apply narrow_variable_order.
Qed.

Lemma filter_part {A} (p : A → bool) l : List.filter p l `sublist_of` l.
Proof. induction l as [|x l IH]; cbn; [constructor|]. destruct (p x); by constructor. Qed.
Lemma part_NoDup (l k : list Placed) : l `sublist_of` k → NoDup (fst <$> k) → NoDup (fst <$> l).
Proof. intros Hs Hk. eapply sublist_NoDup; [exact Hk|by apply fmap_sublist]. Qed.
Lemma narrow_at_part index kept out : narrow_at index kept = Some out → out `sublist_of` kept.
Proof. intros ->%narrow_at_eq. cbn zeta. destruct (_ && _); [apply filter_part|done]. Qed.
Lemma narrow_lambda_part args : ∀ index kept out, narrow_by_lambda_result index args kept = Some out → out `sublist_of` kept.
Proof.
  induction args as [|[v|l|m] args IH]; intros index kept out; cbn [narrow_by_lambda_result]; [by intros [= <-]|apply IH| |apply IH].
  destruct (may_have_value l); cbn [mbind option_bind]; [|apply IH].
  destruct (narrow_at index kept) as [k|] eqn:E; [|done]. cbn [mbind option_bind]. intros Hk%IH. etrans; [done|by eapply narrow_at_part].
Qed.
Lemma narrow_variable_part kept index : narrow_by_variable kept index `sublist_of` kept.
Proof. unfold narrow_by_variable. destruct (_ && _); [apply filter_part|done]. Qed.
Lemma narrow_inference_part l : narrow_by_inference_variables l `sublist_of` l.
Proof.
  destruct l as [|c l]; [done|]. unfold narrow_by_inference_variables. destruct (existsb _ _); [done|].
  generalize (seq 0 (arity c)). intros idx. generalize (c :: l). induction idx as [|i idx IH]; intros k; cbn; [done|].
  etrans; [apply IH|apply narrow_variable_part].
Qed.
Lemma one_or_winner_order l l' r r' : l ≡ₚ l' → NoDup (fst <$> l) → one_or_winner l = Some r → one_or_winner l' = Some r' → r = r'.
Proof.
  intros Hp Hnd. destruct l as [|a [|b l]].
  - apply Permutation_nil_l in Hp as ->. cbn. congruence.
  - apply Permutation_singleton_l in Hp as ->. cbn. congruence.
  - pose proof (Permutation_length Hp) as Hl. destruct l' as [|a' [|b' l']]; try done. by apply winner_order.
Qed.
Lemma most_specific_cases l args r : most_specific l args = Some r → (∃ c, l = [c] ∧ r = Some c) ∨
  length l ≠ 1%nat ∧ ∃ best, subtyping_winner l = Some best ∧
    match best with
    | Some b => r = Some b
    | None => ∃ narrowed, narrow_by_lambda_result 0 args l = Some narrowed ∧
        if (length narrowed <? length l)%nat then one_or_winner narrowed = Some r
        else if (length (narrow_by_inference_variables l) <? length l)%nat then one_or_winner (narrow_by_inference_variables l) = Some r
        else r = None
    end.
Proof.
  intros E. unfold most_specific in E. assert (H' : (∃ c, l = [c]) ∨ length l ≠ 1%nat).
  { destruct l as [|a [|b l]]; [by right|left; by exists a|by right]. }
  destruct H' as [[c ->]|Hl]; [left; exists c; split; [done|congruence]|right]. split; [done|].
  assert (E' : (best ← subtyping_winner l;
    match best with
    | Some best => Some (Some best)
    | None =>
        narrowed ← narrow_by_lambda_result 0 args l;
        if (length narrowed <? length l)%nat then one_or_winner narrowed
        else
          let by_variable := narrow_by_inference_variables l in
          if (length by_variable <? length l)%nat then one_or_winner by_variable else Some None
    end) = Some r) by (by destruct l as [|a [|b l]]). clear E. rename E' into E.
  destruct (subtyping_winner l) as [best|]; [|done]. exists best. split; [done|]. cbn [mbind option_bind] in E.
  destruct best as [b|]; [congruence|]. destruct (narrow_by_lambda_result 0 args l) as [narrowed|]; [|done]. exists narrowed. split; [done|].
  cbn [mbind option_bind] in E. destruct (_ <? _)%nat; [done|]. cbn zeta in E. destruct (_ <? _)%nat; [done|congruence].
Qed.
Lemma most_specific_order l l' args r r' : l ≡ₚ l' → NoDup (fst <$> l) →
  most_specific l args = Some r → most_specific l' args = Some r' → r = r'.
Proof.
  intros Hp Hnd E E'.
  apply most_specific_cases in E, E'. pose proof (Permutation_length Hp) as Hlen.
  destruct E as [(c & -> & ->)|(Hl & best & Eb & E)], E' as [(c' & -> & ->)|(Hl' & best' & Eb' & E')].
  - apply Permutation_singleton_l in Hp. congruence.
  - by destruct Hl'.
  - by destruct Hl.
  - assert (best = best') as <- by (by eapply (winner_order l l')). destruct best as [b|]; [congruence|].
    destruct E as (n & En & E), E' as (n' & En' & E'). pose proof (narrow_lambda_order args 0 _ _ _ _ Hp En En') as Hn.
    rewrite <-(Permutation_length Hn), <-Hlen in E'. destruct (_ <? _)%nat.
    + eapply (one_or_winner_order n n'); [done| |done..]. eapply part_NoDup; [by eapply narrow_lambda_part|done].
    + pose proof (narrow_inference_order _ _ Hp) as Hv. rewrite <-(Permutation_length Hv) in E'. destruct (_ <? _)%nat; [|congruence].
      eapply one_or_winner_order; [exact Hv| |done..]. eapply part_NoDup; [apply narrow_inference_part|done].
Qed.
Definition tagged (args : list Argument) (phase : Phase) (l : list Placed) : list (Placed * option bool) :=
  (λ c, (c, default None (applicable_in args phase c.2))) <$> l.
Lemma select_in_eq phase phases l args s : select_in (phase :: phases) l args = Some s →
  mapM (λ c, r ← applicable_in args phase c.2; Some (c, r)) l = Some (tagged args phase l)
  ∧ if existsb is_unknown (tagged args phase l) then s = UnknownCall
    else match fst <$> List.filter is_applicable (tagged args phase l) with
         | [] => select_in phases l args = Some s
         | applicable => ∃ best, most_specific applicable args = Some best
             ∧ s = match best with Some c => Selected c phase | None => Ambiguous end
         end.
Proof.
  cbn [select_in]. destruct (mapM _ l) as [tried|] eqn:Em; [|done]. cbn [mbind option_bind].
  pose proof (mapM_tagged _ None _ _ Em) as ->. intros E. split; [done|]. fold (tagged args phase l) in E.
  destruct (existsb _ _); [congruence|]. destruct (fst <$> _) as [|a r]; [done|]. destruct (most_specific _ _) as [best|]; [|done].
  exists best. split; [done|]. cbn in E. congruence.
Qed.

(** Two orders that are both answered are answered alike. *)
Lemma choice_order candidates candidates' args s s' : candidates ≡ₚ candidates' → NoDup (fst <$> candidates) →
  select_placed candidates args = Some s → select_placed candidates' args = Some s' → s = s'.
Proof.
  intros Hp Hnd. unfold select_placed. destruct candidates as [|c0 l0]; [apply Permutation_nil_l in Hp; subst candidates'; congruence|].
  destruct candidates' as [|c0' l0']; [by apply Permutation_nil_r in Hp|]. revert Hp Hnd.
  generalize (c0 :: l0), (c0' :: l0'), [Strict; Loose; Varargs]. intros l l' phases Hp Hnd.
  induction phases as [|phase phases IH]; [cbn; intros [= <-] [= <-]; by rewrite (Permutation_length Hp)|].
  intros [_ E]%select_in_eq [_ E']%select_in_eq.
  assert (Ht : tagged args phase l ≡ₚ tagged args phase l') by (by apply fmap_Permutation).
  rewrite <-(existsb_order is_unknown _ _ Ht) in E'. destruct (existsb _ _); [congruence|].
  assert (Ha : (fst <$> List.filter is_applicable (tagged args phase l)) ≡ₚ (fst <$> List.filter is_applicable (tagged args phase l')))
    by (by apply fmap_Permutation, filter_order).
  assert (Hn : NoDup (fst <$> (fst <$> List.filter is_applicable (tagged args phase l)))).
  { eapply part_NoDup; [|exact Hnd]. unfold tagged. rewrite filter_tagged. apply filter_part. }
  destruct (fst <$> List.filter _ (tagged args phase l)) as [|a r] eqn:Eq, (fst <$> List.filter _ (tagged args phase l')) as [|a' r'].
  - by apply IH.
  - by apply Permutation_nil_l in Ha.
  - by apply Permutation_nil_r in Ha.
  - destruct E as (b & Eb & ->), E' as (b' & Eb' & ->). assert (b = b') as <- by (eapply most_specific_order; [exact Ha|rewrite <-Eq; exact Hn|exact Eb|exact Eb']). done.
Qed.

(** Every question about a candidate, and about two of them, is answered: the
    engine's recursion ends. *)
Definition answered (args : list Argument) (candidates : list Placed) : Prop :=
  (∀ phase c, c ∈ candidates → is_Some (applicable_in args phase c.2))
  ∧ (∀ c c', c ∈ candidates → c' ∈ candidates → is_Some (dominates c.2 c'.2))
  ∧ ∀ i c, c ∈ candidates → is_Some (result_is_void i c.2).
Lemma answered_part args (l k : list Placed) : l `sublist_of` k → answered args k → answered args l.
Proof.
  intros Hp (H1 & H2 & H3). assert (Hin : ∀ c, c ∈ l → c ∈ k) by (intros c Hc; by eapply elem_of_sublist).
  split_and!; intros; [apply H1|apply H2|apply H3]; auto.
Qed.
Lemma mapM_answers {A B} (f : A → option B) l : (∀ x, x ∈ l → is_Some (f x)) → is_Some (mapM f l).
Proof. intros Hl. apply mapM_is_Some_2, Forall_forall. done. Qed.
Lemma tagged_answers {B} (f : Placed → option B) (l : list Placed) : (∀ x, x ∈ l → is_Some (f x)) →
  is_Some (mapM (λ c, r ← f c; Some (c, r)) l).
Proof. intros Hl. apply mapM_answers. intros x Hx. destruct (Hl x Hx) as [r ->]. by eexists. Qed.
Lemma dominates_all_answers args (set : list Placed) m : answered args set → m ∈ set →
  ∀ l, (∀ x, x ∈ l → x ∈ set) → is_Some (dominates_all m l).
Proof.
  intros (_ & Hd & _) Hm l. induction l as [|x l IH]; intros Hl; cbn [dominates_all]; [by eexists|].
  assert (is_Some (dominates_all m l)) as Hrest by (apply IH; intros y Hy; apply Hl; by right).
  case_bool_decide; [done|]. destruct (negb _); [by eexists|].
  destruct (Hd m x Hm ltac:(apply Hl; by left)) as [r ->]. cbn. by case_bool_decide; [|eexists].
Qed.
Lemma winner_answers args (set : list Placed) : answered args set → is_Some (subtyping_winner set).
Proof.
  intros Ha. unfold subtyping_winner. generalize (@None Placed).
  assert (Hsub : ∀ x, x ∈ set → x ∈ set) by done. revert Hsub. generalize set at 1 4.
  intros ms. induction ms as [|m ms IH]; intros Hms best; cbn [winner_among]; [by eexists|].
  destruct (dominates_all_answers args set m Ha ltac:(apply Hms; by left) set ltac:(done)) as [[[]|] ->]; cbn;
    try (by eexists); [destruct best; [by eexists|]|]; apply IH; intros x Hx; apply Hms; by right.
Qed.
Lemma narrow_lambda_answers args (l : list Placed) : answered args l →
  ∀ rest index kept, kept `sublist_of` l → is_Some (narrow_by_lambda_result index rest kept).
Proof.
  intros (_ & _ & Hv) rest. induction rest as [|[v|x|x] rest IH]; intros index kept Hk; cbn [narrow_by_lambda_result];
    [by eexists|by apply IH| |by apply IH].
  destruct (may_have_value x); cbn [mbind option_bind]; [|by apply IH].
  destruct (narrow_at index kept) as [k|] eqn:E.
  { cbn. apply IH. etrans; [by eapply narrow_at_part|done]. }
  exfalso. unfold narrow_at in E. destruct (tagged_answers (λ c, result_is_void index c.2) kept) as [vs Evs].
  { intros y Hy. apply Hv. by eapply elem_of_sublist. }
  destruct (mapM _ kept) as [vs'|] eqn:Em; [done|]. done.
Qed.
Lemma one_or_winner_answers args (l : list Placed) : answered args l → is_Some (one_or_winner l).
Proof. destruct l as [|a [|b l]]; [by eexists|by eexists|apply winner_answers]. Qed.
Lemma most_specific_answers args (l : list Placed) : answered args l → is_Some (most_specific l args).
Proof.
  intros Ha. assert (Hmany : is_Some (
      best ← subtyping_winner l;
      match best with
      | Some best => Some (Some best)
      | None =>
          narrowed ← narrow_by_lambda_result 0 args l;
          if (length narrowed <? length l)%nat then one_or_winner narrowed
          else
            let by_variable := narrow_by_inference_variables l in
            if (length by_variable <? length l)%nat then one_or_winner by_variable else Some None
      end)).
  { destruct (winner_answers args l Ha) as [best ->]. cbn. destruct best; [by eexists|].
    destruct (narrow_lambda_answers args l Ha args 0%nat l) as [n En]; [done|]. rewrite En. cbn.
    match goal with |- is_Some (if ?b then _ else _) => destruct b end;
      [eapply one_or_winner_answers, answered_part; [by eapply narrow_lambda_part|done]|].
    match goal with |- is_Some (if ?b then _ else _) => destruct b end;
      [eapply one_or_winner_answers, answered_part; [apply narrow_inference_part|done]|by eexists]. }
  destruct l as [|a [|b l]]; [exact Hmany|by eexists|exact Hmany].
Qed.
Lemma select_answers args (l : list Placed) : answered args l → is_Some (select_placed l args).
Proof.
  intros Ha. unfold select_placed. destruct l as [|c l]; [by eexists|]. generalize dependent (c :: l). clear c l. intros l Ha.
  generalize [Strict; Loose; Varargs]. intros phases. induction phases as [|phase phases IH]; cbn [select_in]; [by eexists|].
  destruct (tagged_answers (λ c, applicable_in args phase c.2) l) as [tried Et]; [intros x Hx; by apply Ha|].
  destruct (mapM _ l) as [tried'|] eqn:Em; [|done]. cbn [mbind option_bind]. destruct (existsb _ _); [by eexists|].
  clear tried Et. rename tried' into tried, Em into Et. apply (mapM_tagged _ None) in Et. subst tried. rewrite filter_tagged.
  set (found := List.filter _ l). assert (answered args found) as Hf by (eapply answered_part; [apply filter_part|done]).
  destruct found as [|a found]; [done|]. destruct (most_specific_answers args _ Hf) as [best ->]. by eexists.
Qed.

(** C39: which method a call means does not depend on the order in which the
    candidates were found.  When the questions about each candidate and about
    each two of them are answered, both orders have an answer and it is the
    same.  Without an answer the order does matter, since not every question
    is asked: [order_overflows]. *)
Theorem choice_order_irrelevant candidates candidates' args : candidates ≡ₚ candidates' → NoDup (fst <$> candidates) →
  answered args candidates →
  ∃ s, select_placed candidates args = Some s ∧ select_placed candidates' args = Some s.
Proof.
  intros Hp Hnd Ha. destruct (select_answers args candidates Ha) as [s Es].
  assert (answered args candidates') as Ha'.
  { destruct Ha as (H1 & H2 & H3). split_and!; intros *; rewrite <-?Hp; auto. }
  destruct (select_answers args candidates' Ha') as [s' Es']. exists s. split; [done|].
  by rewrite (choice_order candidates candidates' args s s' Hp Hnd Es Es').
Qed.

(** ** What a choice shows *)

(** [m] gives way to [w] though neither is more specific by its types: at a
    lambda that may have a value, [m] would throw it away, or [w] leaves open
    what [m] fixes. *)
Definition gives_way (args : list Argument) (w m : Placed) : Prop :=
  (∃ i l, args !! i = Some (Lambda l) ∧ may_have_value l = true
     ∧ result_is_void i m.2 = Some (Some true) ∧ result_is_void i w.2 = Some (Some false))
  ∨ ∃ i, takes_variable i m = false ∧ takes_variable i w = true.
Definition preferred (args : list Argument) (applicable : list Placed) (w : Placed) : Prop :=
  w ∈ applicable ∧ ∀ m, m ∈ applicable → m = w ∨ MoreSpecific w m ∨ gives_way args w m.

Lemma filter_both {A} (p q : A → bool) l : (∀ x, p x = true → q x = true → False) →
  (length (List.filter p l) + length (List.filter q l) ≤ length l)%nat
  ∧ ((length (List.filter p l) + length (List.filter q l) = length l)%nat → ∀ x, x ∈ l → p x = true ∨ q x = true).
Proof.
  intros Hd. induction l as [|x l [IH1 IH2]]; cbn; [split; [lia|intros _ x Hx; by apply elem_of_nil in Hx]|].
  destruct (p x) eqn:Ep, (q x) eqn:Eq; cbn; [by destruct (Hd x)|..]; (split; [lia|]); intros El y [->|Hy]%elem_of_cons;
    first [by auto|lia|apply IH2; [lia|done]].
Qed.
Lemma filter_elem {A} (p : A → bool) l x : x ∈ List.filter p l ↔ x ∈ l ∧ p x = true.
Proof. by rewrite !list_elem_of_In, List.filter_In. Qed.
Lemma voids_some i (c : Placed) b : voids i c = Some b → result_is_void i c.2 = Some (Some b).
Proof. unfold voids. by destruct (result_is_void i c.2) as [[]|]; cbn; intros [= ->]. Qed.
Lemma narrow_at_reason index kept out : narrow_at index kept = Some out → ∀ m, m ∈ kept → m ∈ out ∨
  (result_is_void index m.2 = Some (Some true) ∧ ∀ w, w ∈ out → result_is_void index w.2 = Some (Some false)).
Proof.
  intros ->%narrow_at_eq m Hm. cbn zeta. set (value := List.filter (λ c, has_result false _) kept). set (void := List.filter _ kept).
  destruct (negb _ && _) eqn:E; [|by left]. apply andb_true_iff in E as [_ E%Nat.eqb_eq].
  assert (Hd : ∀ x, has_result false (x, voids index x) = true → has_result true (x, voids index x) = true → False).
  { intros x Hx%bool_decide_eq_true Hy%bool_decide_eq_true. cbn in *. congruence. }
  destruct (proj2 (filter_both _ _ kept Hd) E m Hm) as [Hv|Hv]; [left; by apply filter_elem|right].
  apply bool_decide_eq_true, voids_some in Hv. split; [done|]. intros w [_ Hw%bool_decide_eq_true%voids_some]%filter_elem. done.
Qed.
Lemma narrow_lambda_reason args : ∀ index kept out, narrow_by_lambda_result index args kept = Some out → ∀ m, m ∈ kept → m ∈ out ∨
  ∃ i l, args !! i = Some (Lambda l) ∧ may_have_value l = true ∧ result_is_void (index + i) m.2 = Some (Some true)
    ∧ ∀ w, w ∈ out → result_is_void (index + i) w.2 = Some (Some false).
Proof.
  assert (Hskip : ∀ a args index kept out m, (∀ index kept out, narrow_by_lambda_result index args kept = Some out → ∀ m, m ∈ kept → m ∈ out ∨
      ∃ i l, args !! i = Some (Lambda l) ∧ may_have_value l = true ∧ result_is_void (index + i) m.2 = Some (Some true)
        ∧ ∀ w, w ∈ out → result_is_void (index + i) w.2 = Some (Some false)) →
    narrow_by_lambda_result (S index) args kept = Some out → m ∈ kept → m ∈ out ∨
      ∃ i l, (a :: args) !! i = Some (Lambda l) ∧ may_have_value l = true ∧ result_is_void (index + i) m.2 = Some (Some true)
        ∧ ∀ w, w ∈ out → result_is_void (index + i) w.2 = Some (Some false)).
  { intros a args' index kept out m IH E Hm. destruct (IH _ _ _ E m Hm) as [Ho|(i & l & Hi & Hl & Hv & Hw)]; [by left|right].
    exists (S i), l. rewrite Nat.add_succ_comm in Hv. split_and!; [done..|]. intros w. rewrite Nat.add_succ_r. apply Hw. }
  induction args as [|[v|l|r] args IH]; intros index kept out; cbn [narrow_by_lambda_result].
  - intros [= <-] m Hm. by left.
  - intros E m Hm. by eapply Hskip.
  - destruct (may_have_value l) eqn:El; cbn [mbind option_bind]; [|intros E m Hm; by eapply Hskip].
    destruct (narrow_at index kept) as [k|] eqn:E; [|done]. cbn [mbind option_bind]. intros Hk m Hm.
    destruct (narrow_at_reason _ _ _ E m Hm) as [Hin|[Hv Hw]]; [by eapply Hskip|]. right. exists 0%nat, l. rewrite Nat.add_0_r.
    split_and!; [done..|]. intros w Hwo. apply Hw. apply narrow_lambda_part in Hk. by eapply elem_of_sublist.
  - intros E m Hm. by eapply Hskip.
Qed.
Lemma narrow_inference_reason l m : m ∈ l → m ∈ narrow_by_inference_variables l ∨
  ∃ i, takes_variable i m = false ∧ ∀ w, w ∈ narrow_by_inference_variables l → takes_variable i w = true.
Proof.
  destruct l as [|c l]; [by left|]. unfold narrow_by_inference_variables. destruct (existsb _ _); [by left|].
  generalize (seq 0 (arity c)). intros idx. generalize (c :: l). induction idx as [|i idx IH]; intros k Hm; cbn [fold_left]; [by left|].
  assert (H' : m ∈ narrow_by_variable k i ∨ takes_variable i m = false ∧ ∀ w, w ∈ narrow_by_variable k i → takes_variable i w = true).
  { unfold narrow_by_variable. destruct (_ && _); [|by left]. destruct (takes_variable i m) eqn:Et; [left; by apply filter_elem|right].
    split; [done|]. intros w [_ Hw]%filter_elem. done. }
  destruct H' as [Hin|[Hf Hw]]; [by apply IH|]. right. exists i. split; [done|]. intros w Hin. apply Hw.
  assert (Hp : ∀ k, fold_left narrow_by_variable idx k `sublist_of` k).
  { clear. induction idx as [|i idx IH]; intros k; cbn; [done|]. etrans; [apply IH|apply narrow_variable_part]. }
  eapply elem_of_sublist; [exact Hin|apply Hp].
Qed.
Lemma winner_preferred l w : NoDup (fst <$> l) → subtyping_winner l = Some (Some w) → w ∈ l ∧ ∀ m, m ∈ l → m = w ∨ MoreSpecific w m.
Proof.
  intros Hnd E. destruct (proj1 (winner_spec l _ Hnd E w) eq_refl) as (Hw & Hd & _). split; [done|]. intros m Hm.
  destruct (decide (m.1 = w.1)) as [Ei|Hne]; [left; by eapply placed_inj|right]. by apply Hd.
Qed.
Lemma one_or_winner_preferred l w : NoDup (fst <$> l) → one_or_winner l = Some (Some w) → w ∈ l ∧ ∀ m, m ∈ l → m = w ∨ MoreSpecific w m.
Proof.
  destruct l as [|a [|b l]]; [done| |apply winner_preferred]. intros _ [= ->]. split; [by left|].
  intros m Hm%list_elem_of_singleton. by left.
Qed.
Lemma most_specific_preferred l args w : NoDup (fst <$> l) → most_specific l args = Some (Some w) → preferred args l w.
Proof.
  intros Hnd [(c & -> & [= ->])|(_ & best & Ew & E)]%most_specific_cases.
  { split; [by left|]. intros m Hm%list_elem_of_singleton. by left. }
  destruct best as [x|].
  - injection E as <-. destruct (winner_preferred _ _ Hnd Ew) as [Hw Hm]. split; [done|]. intros m Hin. destruct (Hm m Hin); auto.
  - destruct E as (narrowed & En & E). destruct (_ <? _)%nat; [|destruct (_ <? _)%nat; [|done]].
    + pose proof (narrow_lambda_part _ _ _ _ En) as Hp. destruct (one_or_winner_preferred _ _ (part_NoDup _ _ Hp Hnd) E) as [Hw Hm].
      split; [by eapply elem_of_sublist|]. intros m Hin.
      destruct (narrow_lambda_reason _ _ _ _ En m Hin) as [Hk|(i & k & Hi & Hl & Hv & Ho)]; [destruct (Hm m Hk); auto|].
      do 2 right. left. exists i, k. split_and!; [done..|]. by apply Ho.
    + pose proof (narrow_inference_part l) as Hp. destruct (one_or_winner_preferred _ _ (part_NoDup _ _ Hp Hnd) E) as [Hw Hm].
      split; [by eapply elem_of_sublist|]. intros m Hin.
      destruct (narrow_inference_reason _ _ Hin) as [Hk|(i & Hf & Ho)]; [destruct (Hm m Hk); auto|].
      do 2 right. right. exists i. split; [done|]. by apply Ho.
Qed.

(** An answer about a candidate says exactly which it is. *)
Lemma all_proved_not_false {A} (f : A → option (option bool)) l : ∀ u r, all_proved f u l = Some r → r ≠ Some false →
  ∀ x, x ∈ l → f x ≠ Some (Some false).
Proof.
  induction l as [|y l IH]; intros u r; cbn [all_proved]; [by intros _ _ x Hx%elem_of_nil|].
  destruct (f y) as [[[]|]|] eqn:Ey; cbn; try done; intros E Hr x [->|Hx]%elem_of_cons; try congruence; by eapply IH.
Qed.
Lemma compatible_rejects phase p a : Rejects phase p a → argument_compatible phase (p, a) = Some (Some false).
Proof.
  destruct a as [v|l|m]; cbn [argument_compatible Rejects fst snd]; [|done..]. unfold Refuted.
  destruct v, p; cbn [convertible]; try done; try (intros [->|Hx]; [done|by case_bool_decide]).
  intros Hn. do 2 f_equal. apply orb_false_iff. split; [apply bool_decide_eq_false|apply not_true_iff_false]; naive_solver.
Qed.
Lemma compatible_accepts phase p a : Accepts phase p a → argument_compatible phase (p, a) = Some (Some true).
Proof.
  destruct a as [v|l|m]; cbn [argument_compatible Accepts fst snd]; [|done|by intros ->]. unfold Proved.
  destruct v, p; cbn [convertible]; try done; try (intros [Hs Hx]; by rewrite bool_decide_eq_false_2).
  intros [->|Hw]; [by rewrite bool_decide_eq_true_2|]. by rewrite Hw, orb_true_r.
Qed.
Lemma accepted_answer args phase c r : applicable_in args phase c = Some r → Accepted args phase c → r = Some true.
Proof.
  intros E (params & Ep & Hu & Ha). unfold applicable_in in E. rewrite Ep, Hu in E.
  assert (Hall : ∀ q ps xs, Forall2 (Accepts q) ps xs → ∀ x, x ∈ zip ps xs → argument_compatible q x = Some (Some true)).
  { intros q ps xs Hf [x y] Hxy. apply compatible_accepts. by eapply forall2_zip_elem. }
  destruct phase.
  1, 2: rewrite (Forall2_length _ _ _ Ha), Nat.eqb_refl in E; cbn [negb] in E;
        rewrite (all_proved_intro _ _ (Hall _ _ _ Ha)) in E; congruence.
  destruct Ha as (Hv & fixed & element & -> & Hl & Hf & Hrest). rewrite Hv, last_snoc in E. cbn [negb orb] in E.
  rewrite length_app in E. cbn [length] in E. destruct (Nat.ltb_spec (length args + 1) (length fixed + 1)); [lia|].
  rewrite Nat.add_sub, take_app_length in E.
  destruct (mapM (argument_compatible Loose) _) as [checks|] eqn:E1; [|done]. destruct (mapM _ (drop _ _)) as [more|] eqn:E2; [|done].
  cbn in E. rewrite (all_proved_intro Some) in E; [congruence|]. intros y [Hy|Hy]%elem_of_app; f_equal.
  - destruct (mapM_elem_of_r _ _ _ _ E1 Hy) as (x & Hx & Ex). rewrite zip_take_r in Hx. rewrite (Hall _ _ _ Hf x Hx) in Ex. congruence.
  - destruct (mapM_elem_of_r _ _ _ _ E2 Hy) as (x & Hx & Ex). rewrite Forall_forall in Hrest.
    rewrite (compatible_accepts _ _ _ (Hrest x Hx)) in Ex. congruence.
Qed.
Lemma elem_of_zip_lookup {A B} (l : list A) (k : list B) i x y : l !! i = Some x → k !! i = Some y → (x, y) ∈ zip l k.
Proof. intros Hx Hy. apply (list_elem_of_lookup_2 _ i). apply lookup_zip_with_Some. eauto. Qed.
Lemma rejected_answer args phase c r : applicable_in args phase c = Some r → Rejected args phase c → r = Some false.
Proof.
  intros E (params & Ep & Hr). unfold applicable_in in E. rewrite Ep in E.
  assert (Hlen : ∃ ps, mm_parameters (c_meta c) = Some ps ∧ length ps = length params).
  { unfold parameters in Ep. destruct (mm_parameters _) as [ps|]; [|done]. injection Ep as <-. exists ps. by rewrite length_fmap. }
  destruct Hlen as (ps & Eps & Hps).
  assert (Hwrong : wrong_arity (length params) (length args) (mm_is_varargs (c_meta c)) → r = Some false).
  { intros Hw. unfold wrong_arity in Hw. destruct (existsb contains_unknown params).
    - unfold arity_excluded in E. rewrite Eps, Hps in E. destruct (mm_is_varargs _).
      + apply Nat.ltb_lt in Hw. rewrite Hw in E. congruence.
      + destruct (Nat.eqb_spec (length params) (length args)); [lia|]. cbn in E. congruence.
    - destruct phase.
      1, 2: destruct (Nat.eqb_spec (length params) (length args)) as [El|]; cbn in E; [|congruence];
        destruct (mm_is_varargs _); lia.
      destruct (mm_is_varargs _); cbn [negb orb] in E; [|congruence]. apply Nat.ltb_lt in Hw. rewrite Hw in E. congruence. }
  destruct Hr as [Hr|[Hu Hr]]; [by apply Hwrong|]. rewrite Hu in E.
  assert (Hno : ∀ {A} (f : A → option (option bool)) l x, all_proved f false l = Some r → x ∈ l → f x = Some (Some false) → r = Some false).
  { intros A f l x E' Hx Ex. destruct (decide (r = Some false)) as [|Hne]; [done|]. by destruct (all_proved_not_false _ _ _ _ E' Hne x Hx). }
  destruct phase.
  1, 2: destruct (Nat.eqb_spec (length params) (length args)) as [El|]; cbn [negb] in E; [|congruence];
        destruct Hr as [Hr|(i & p & a & Hp & Hx & Hj)]; [done|];
        eapply Hno; [exact E|by eapply elem_of_zip_lookup|by apply compatible_rejects].
  destruct (mm_is_varargs _) eqn:Ev; cbn [negb orb] in E; [|congruence].
  destruct (Nat.ltb_spec (length args + 1) (length params)) as [Hl|Hl]; [congruence|].
  destruct Hr as [Hr|(fixed & element & -> & Hr)]; [done|]. rewrite last_snoc, length_app in E. cbn [length] in E.
  rewrite Nat.add_sub, take_app_length in E.
  destruct (mapM (argument_compatible Loose) _) as [checks|] eqn:E1; [|done]. destruct (mapM _ (drop _ _)) as [more|] eqn:E2; [|done].
  cbn in E. destruct Hr as [(i & p & a & Hp & Hx & Hj)|(a & Ha & Hj)].
  - apply compatible_rejects in Hj. apply mapM_Some_1 in E1.
    assert (zip fixed args !! i = Some (p, a)) as Hz by (apply lookup_zip_with_Some; eauto).
    destruct (Forall2_lookup_l _ _ _ _ _ E1 Hz) as (y & Hy & Ey). rewrite Hj in Ey. injection Ey as <-.
    eapply (Hno _ Some); [exact E|apply elem_of_app; left; by eapply list_elem_of_lookup_2|done].
  - apply compatible_rejects in Hj. apply mapM_Some_1 in E2. apply list_elem_of_lookup in Ha as [i Hi].
    destruct (Forall2_lookup_l _ _ _ _ _ E2 Hi) as (y & Hy & Ey). cbn in Ey. rewrite Hj in Ey. injection Ey as <-.
    eapply (Hno _ Some); [exact E|apply elem_of_app; right; by eapply list_elem_of_lookup_2|done].
Qed.

Lemma tagged_elem args phase l c r : mapM (λ c, r ← applicable_in args phase c.2; Some (c, r)) l = Some (tagged args phase l) →
  (c, r) ∈ tagged args phase l → c ∈ l ∧ applicable_in args phase c.2 = Some r.
Proof.
  intros Hm%mapM_Some_1 Hc. apply list_elem_of_lookup in Hc as [i Hi]. destruct (Forall2_lookup_r _ _ _ _ _ Hm Hi) as (x & Hx & E).
  destruct (applicable_in args phase x.2) as [r'|] eqn:Ea; [|done]. cbn in E. injection E as <- <-. split; [by eapply list_elem_of_lookup_2|done].
Qed.
Lemma phase_decided args phase l : mapM (λ c, r ← applicable_in args phase c.2; Some (c, r)) l = Some (tagged args phase l) →
  ∀ c, c ∈ l → ∃ r, applicable_in args phase c.2 = Some r ∧ (c, r) ∈ tagged args phase l.
Proof.
  intros Hm c Hc. assert (Ht : (c, default None (applicable_in args phase c.2)) ∈ tagged args phase l).
  { unfold tagged. apply list_elem_of_fmap. by exists c. }
  destruct (tagged_elem _ _ _ _ _ Hm Ht) as [_ Ea]. eexists. split; [exact Ea|exact Ht].
Qed.

(** What the two further rules leave of the applicable candidates, when they
    leave less: those a lambda argument that may have a value prefers, or else
    those that leave open what others fix. *)
Definition after_rules (args : list Argument) (applicable kept : list Placed) : Prop :=
  ∃ by_lambda, narrow_by_lambda_result 0 args applicable = Some by_lambda ∧
    if (length by_lambda <? length applicable)%nat then kept = by_lambda
    else kept = narrow_by_inference_variables applicable ∧ (length kept < length applicable)%nat.
(** The one that is more specific than all others, if there is one, and else
    the one that is so among those left. *)
Definition chosen (args : list Argument) (applicable : list Placed) (w : Placed) : Prop :=
  sole_winner applicable w
  ∨ (∀ x, ¬ sole_winner applicable x) ∧ ∃ kept, after_rules args applicable kept ∧ sole_winner kept w.

Lemma sole_winner_alone c w : sole_winner [c] w ↔ w = c.
Proof.
  split; [by intros (?%list_elem_of_singleton & _)|]. intros ->. split_and!; [by left|..]; intros m Hm%list_elem_of_singleton Hne; congruence.
Qed.
Lemma one_or_winner_spec (l : list Placed) r : NoDup (fst <$> l) → one_or_winner l = Some r → ∀ w, r = Some w ↔ sole_winner l w.
Proof.
  destruct l as [|a [|b l]]; [apply winner_spec| |apply winner_spec]. intros _ [= <-] w. rewrite sole_winner_alone. naive_solver.
Qed.
Lemma most_specific_exact (l : list Placed) args r : NoDup (fst <$> l) → most_specific l args = Some r → ∀ w, r = Some w ↔ chosen args l w.
Proof.
  intros Hnd E w. apply most_specific_cases in E as [(c & -> & ->)|(Hl & best & Eb & E)]; unfold chosen.
  { rewrite sole_winner_alone. split; [intros [= ->]; by left|]. intros [->|[Hn _]]; [done|].
    destruct (Hn c). by apply sole_winner_alone. }
  pose proof (winner_spec l best Hnd Eb) as Hb. destruct best as [b|].
  { subst r. rewrite Hb. split; [by left|]. intros [?|[Hn _]]; [done|]. destruct (Hn b). by apply Hb. }
  assert (Hno : ∀ x, ¬ sole_winner l x) by (intros x Hx; by apply Hb in Hx).
  destruct E as (narrowed & En & E).
  assert (Hkept : ∀ kept : list Placed, kept `sublist_of` l → one_or_winner kept = Some r → after_rules args l kept →
    (∀ kept', after_rules args l kept' → kept' = kept) → r = Some w ↔ sole_winner l w ∨ (∀ x, ¬ sole_winner l x) ∧ ∃ kept, after_rules args l kept ∧ sole_winner kept w).
  { intros kept Hp Eo Hk Hu. rewrite (one_or_winner_spec kept r (part_NoDup _ _ Hp Hnd) Eo w). split.
    - intros Hw. right. split; [done|]. by exists kept.
    - intros [Hw|(_ & kept' & Hk' & Hw)]; [by destruct (Hno w)|]. by rewrite <-(Hu _ Hk'). }
  destruct (length narrowed <? length l)%nat eqn:E1.
  - apply (Hkept narrowed); [by eapply narrow_lambda_part|done| |].
    + exists narrowed. by rewrite E1.
    + intros kept' (n' & En' & Hk). rewrite En in En'. injection En' as <-. by rewrite E1 in Hk.
  - destruct (length (narrow_by_inference_variables l) <? length l)%nat eqn:E2.
    + apply Nat.ltb_lt in E2. apply (Hkept (narrow_by_inference_variables l)); [apply narrow_inference_part|done| |].
      * exists narrowed. by rewrite E1.
      * intros kept' (n' & En' & Hk). rewrite En in En'. injection En' as <-. rewrite E1 in Hk. by destruct Hk.
    + subst r. split; [done|]. intros [Hw|(_ & kept & (n' & En' & Hk) & _)]; [by destruct (Hno w)|].
      rewrite En in En'. injection En' as <-. rewrite E1 in Hk. destruct Hk as [-> Hlt]. apply Nat.ltb_nlt in E2. lia.
Qed.

(** The candidates applicable in a phase, in which each one is or is not, when
    none was in an earlier phase. *)
Definition reached (candidates : list Placed) (args : list Argument) (phases : list Phase) (phase : Phase) : Prop :=
  ∃ pre post, phases = pre ++ phase :: post ∧ ∀ q c, q ∈ pre → c ∈ candidates → Rejected args q c.2.
Definition decided (candidates : list Placed) (args : list Argument) (phase : Phase) (applicable : list Placed) : Prop :=
  applicable `sublist_of` candidates ∧ ∀ c, c ∈ candidates →
    c ∈ applicable ∧ Accepted args phase c.2 ∨ c ∉ applicable ∧ Rejected args phase c.2.
Definition shown (candidates : list Placed) (args : list Argument) (phases : list Phase) (s : Selection) : Prop :=
  match s with
  | Selected w phase =>
      ∃ applicable, reached candidates args phases phase ∧ decided candidates args phase applicable
        ∧ chosen args applicable w ∧ preferred args applicable w
  | NoApplicable n => n = length candidates ∧ ∀ q c, q ∈ phases → c ∈ candidates → Rejected args q c.2
  | Ambiguous =>
      ∃ phase applicable, reached candidates args phases phase ∧ decided candidates args phase applicable
        ∧ applicable ≠ [] ∧ ∀ w, ¬ chosen args applicable w
  | UnknownCall =>
      ∃ phase c, reached candidates args phases phase ∧ c ∈ candidates ∧ ¬ Accepted args phase c.2 ∧ ¬ Rejected args phase c.2
  end.
Lemma reached_later candidates args phases phase q : (∀ c, c ∈ candidates → Rejected args phase c.2) →
  reached candidates args phases q → reached candidates args (phase :: phases) q.
Proof.
  intros Hno (pre & post & -> & Hq). exists (phase :: pre), post. split; [done|].
  intros x c [->|Hin]%elem_of_cons; [apply Hno|by apply Hq].
Qed.
Lemma reached_first candidates args phases phase : reached candidates args (phase :: phases) phase.
Proof. exists [], phases. split; [done|]. by intros q c Hq%elem_of_nil. Qed.
Lemma shown_later candidates args phases phase s : (∀ c, c ∈ candidates → Rejected args phase c.2) →
  shown candidates args phases s → shown candidates args (phase :: phases) s.
Proof.
  intros Hno. destruct s as [w p|n| |]; cbn.
  - intros (ap & Hr & H'). exists ap. by split; [apply reached_later|].
  - intros [-> Hq]. split; [done|]. intros q c [->|Hin]%elem_of_cons; [apply Hno|by apply Hq].
  - intros (p & ap & Hr & H'). exists p, ap. by split; [apply reached_later|].
  - intros (p & c & Hr & H'). exists p, c. by split; [apply reached_later|].
Qed.
Lemma positions_apart {A} (l : list A) : NoDup (fst <$> imap pair l).
Proof.
  assert (E : fst <$> imap pair l = seq 0 (length l)).
  { apply list_eq. intros i. rewrite list_lookup_fmap, list_lookup_imap. destruct (decide (i < length l)%nat) as [Hi|Hi].
    - destruct (lookup_lt_is_Some_2 l i Hi) as [x ->]. by rewrite lookup_seq_lt.
    - rewrite lookup_ge_None_2 by lia. by rewrite lookup_seq_ge by lia. }
  rewrite E. apply NoDup_seq.
Qed.
Lemma select_shown args candidates phases s : NoDup (fst <$> candidates) →
  select_in phases candidates args = Some s → shown candidates args phases s.
Proof.
  intros Hnd. revert s. induction phases as [|phase phases IH]; intros s.
  { intros [= <-]. split; [done|]. by intros q c Hq%elem_of_nil. }
  intros [Hm E]%select_in_eq. pose proof (phase_decided _ _ _ Hm) as Hdec. destruct (existsb is_unknown _) eqn:Eu.
  { subst s. apply existsb_exists in Eu as ([c r] & Hin%list_elem_of_In & Hr%bool_decide_eq_true). cbn in Hr. subst r.
    destruct (tagged_elem _ _ _ _ _ Hm Hin) as [Hc Ea]. exists phase, c. split; [apply reached_first|]. split; [done|].
    split; intros Hx; [apply (accepted_answer _ _ _ _ Ea) in Hx|apply (rejected_answer _ _ _ _ Ea) in Hx]; done. }
  set (found := fst <$> List.filter is_applicable (tagged args phase candidates)) in *.
  assert (Hfound : decided candidates args phase found).
  { split; [unfold found, tagged; rewrite filter_tagged; apply filter_part|]. intros c Hc.
    destruct (Hdec c Hc) as (r & Ea & Ht).
    assert (Hin : c ∈ found ↔ r = Some true).
    { unfold found. rewrite list_elem_of_fmap. split.
      - intros ([c' r'] & -> & [Hin Hr%bool_decide_eq_true]%filter_elem). cbn in *. apply (tagged_elem _ _ _ _ _ Hm) in Hin as [_ Hin]. congruence.
      - intros ->. exists (c, Some true). split; [done|]. by apply filter_elem. }
    destruct r as [[]|].
    - left. split; [by apply Hin|by apply applicable_yes].
    - right. split; [by rewrite Hin|by apply applicable_no].
    - exfalso. apply not_true_iff_false in Eu. apply Eu, existsb_exists. exists (c, None). by rewrite <-list_elem_of_In. }
  assert (Hndf : NoDup (fst <$> found)) by (by eapply part_NoDup; [apply Hfound|]).
  clearbody found. destruct found as [|a found].
  - apply shown_later; [|by apply IH]. intros c Hc. destruct (proj2 Hfound c Hc) as [[Hx _]|[_ Hr]]; [by apply elem_of_nil in Hx|done].
  - destruct E as (best & Eb & ->). pose proof (most_specific_exact _ _ _ Hndf Eb) as Hbest. destruct best as [w|].
    + exists (a :: found). split_and!; [apply reached_first|done|by apply Hbest|by apply most_specific_preferred].
    + exists phase, (a :: found). split_and!; [apply reached_first|done|done|]. intros w Hw. by apply Hbest in Hw.
Qed.


(** ** All the methods of a name *)

Section Found.
Context (name : string) (static_only : bool).
Definition supers_of (ty : TypeRef) : list TypeRef :=
  match ty with
  | Named id args =>
      match class_facts id with
      | Some f => (λ s, substitute s (class_env (facts_meta f) args)) <$> cm_supertypes (facts_meta f)
      | None => []
      end
  | _ => []
  end.
Definition matching (m : ExternalMember) (meta : MemberMetadata) : Prop :=
  em_name m = name ∧ em_kind m = EMethod ∧ em_metadata m = Some meta ∧ (static_only = true → mm_is_static meta = true).
Definition candidate_of (env : TypeEnv) (m : ExternalMember) (meta : MemberMetadata) : Candidate :=
  mkCandidate meta env [] (em_ret_display m) (Some (em_signature m)).
(** A method of the name that a use of a class declares, as a candidate. *)
Definition overload (ty : TypeRef) (c : Candidate) : Prop :=
  ∃ id args f m meta, ty = Named id args ∧ class_facts id = Some f ∧ m ∈ facts_members f ∧ matching m meta
    ∧ c = candidate_of (class_env (facts_meta f) args) m meta.
(** What tells overloads apart: the erased parameter types. *)
Definition candidate_key (c : Candidate) : option (list TypeRef) := erased_key (c_env c) <$> mm_parameters (c_meta c).

Definition cand_ok (st : Candidates) : Prop :=
  NoDup (candidate_key <$> st.1) ∧ ∀ k, Some k ∈ candidate_key <$> st.1 ↔ k ∈ st.2.
Lemma add_candidates_spec env ms : ∀ st st', add_candidates name static_only env st ms = Some st' →
  st.2 ⊆ st'.2
  ∧ (∀ m meta, m ∈ ms → matching m meta → ∃ k, candidate_key (candidate_of env m meta) = Some k ∧ k ∈ st'.2)
  ∧ (∀ c, c ∈ st'.1 → c ∈ st.1 ∨ ∃ m meta, m ∈ ms ∧ matching m meta ∧ c = candidate_of env m meta)
  ∧ (cand_ok st → cand_ok st').
Proof.
  induction ms as [|m ms IH]; intros st st'; cbn [add_candidates].
  { intros [= <-]. split_and!; [done| |by left|done]. by intros m meta Hm%elem_of_nil. }
  assert (Hskip : ∀ st', (∀ meta, ¬ matching m meta) → add_candidates name static_only env st ms = Some st' →
    st.2 ⊆ st'.2 ∧ (∀ x meta, x ∈ m :: ms → matching x meta → ∃ k, candidate_key (candidate_of env x meta) = Some k ∧ k ∈ st'.2)
    ∧ (∀ c, c ∈ st'.1 → c ∈ st.1 ∨ ∃ x meta, x ∈ m :: ms ∧ matching x meta ∧ c = candidate_of env x meta) ∧ (cand_ok st → cand_ok st')).
  { intros st1 Hno (H1 & H2 & H3 & H4)%IH. split_and!; [done| | |done].
    - intros x meta [->|Hx]%elem_of_cons Hm; [by destruct (Hno meta)|by apply H2].
    - intros c [|(x & meta & Hx & Hc)]%H3; [by left|right]. exists x, meta. split; [by right|done]. }
  destruct (bool_decide (em_name m = name)) eqn:En; cbn [negb orb]; [apply bool_decide_eq_true in En|].
  2:{ apply Hskip. intros meta [Hn _]. by rewrite Hn, bool_decide_eq_true_2 in En. }
  destruct (em_kind m) eqn:Ek; cbn [negb]; try (apply Hskip; intros meta (_ & Hk & _); congruence).
  destruct (em_metadata m) as [meta|] eqn:Em; [|done]. cbn [mbind option_bind].
  destruct (static_only && negb (mm_is_static meta)) eqn:Es.
  { apply Hskip. intros meta' (_ & _ & Hm & Hs). rewrite Em in Hm. injection Hm as <-.
    apply andb_true_iff in Es as [E1 E2]. by rewrite (Hs E1) in E2. }
  destruct (mm_parameters meta) as [ps|] eqn:Ep; [|done]. cbn [mbind option_bind]. destruct st as [out seen].
  assert (Hm : ∀ meta', matching m meta' ↔ meta' = meta).
  { intros meta'. unfold matching. rewrite En, Ek, Em. split; [by intros (_ & _ & [= ->] & _)|]. intros ->. split_and!; [done..|].
    intros ->. by destruct (mm_is_static meta). }
  assert (Hkey : candidate_key (candidate_of env m meta) = Some (erased_key env ps)) by (unfold candidate_key; cbn; by rewrite Ep).
  fold (candidate_of env m meta). case_bool_decide as Hseen; intros (H1 & H2 & H3 & H4)%IH; cbn [fst snd] in *.
  - split_and!; [done| | |done].
    + intros x meta' [->|Hx]%elem_of_cons Hmx; [apply Hm in Hmx as ->; exists (erased_key env ps); split; [done|by apply H1]|by apply H2].
    + intros c [|(x & meta' & Hx & Hc)]%H3; [by left|right]. exists x, meta'. split; [by right|done].
  - split_and!.
    + intros k Hk. apply H1. by right.
    + intros x meta' [->|Hx]%elem_of_cons Hmx; [apply Hm in Hmx as ->; exists (erased_key env ps); split; [done|apply H1; by left]|by apply H2].
    + intros c [[Hc|Hc%list_elem_of_singleton]%elem_of_app|(x & meta' & Hx & Hc)]%H3; [by left|right; exists m, meta|right; exists x, meta'].
      * split_and!; [by left|by apply Hm|done].
      * split; [by right|done].
    + intros [Hnd Hk]. apply H4. unfold cand_ok. cbn [fst snd]. rewrite fmap_app. cbn. rewrite Hkey. split.
      * apply NoDup_app. split_and!; [done| |apply NoDup_singleton]. intros k Hin ->%list_elem_of_singleton. by apply Hseen, Hk.
      * intros k. rewrite elem_of_app, list_elem_of_singleton, elem_of_cons, Hk. naive_solver.
Qed.

Definition all_known (ty : TypeRef) : Prop :=
  ∃ id args f, ty = Named id args ∧ class_facts id = Some f ∧ cm_hierarchy_complete (facts_meta f) = true.
Lemma visit_candidates_spec st ty st' sups : visit_candidates name static_only st ty = Some (st', sups) →
  sups = supers_of ty ∧ st.2 ⊆ st'.2 ∧ all_known ty
  ∧ (∀ c, overload ty c → ∃ k, candidate_key c = Some k ∧ k ∈ st'.2)
  ∧ (∀ c, c ∈ st'.1 → c ∈ st.1 ∨ overload ty c) ∧ (cand_ok st → cand_ok st').
Proof.
  unfold visit_candidates, supers_of. destruct ty as [| | |id args| | | |]; try done.
  destruct (class_facts id) as [f|] eqn:Ef; [|done]. cbn [mbind option_bind].
  destruct (cm_hierarchy_complete (facts_meta f)) eqn:Ec; cbn [negb]; [|done].
  destruct (add_candidates _ _ _ _ _) as [st1|] eqn:Ea; [|done]. cbn [mbind option_bind]. destruct (_ && _); [done|].
  intros [= <- <-]. destruct (add_candidates_spec _ _ _ _ Ea) as (H1 & H2 & H3 & H4). split_and!; [done|done|by exists id, args, f| | |done].
  - intros c (id' & args' & f' & m & meta & [= <- <-] & Ef' & Hm & Hmm & ->). rewrite Ef in Ef'. injection Ef' as <-. by apply H2.
  - intros c [|(m & meta & Hm & Hmm & Hc)]%H3; [by left|right]. by exists id, args, f, m, meta.
Qed.
Lemma found_exact recv cs : method_candidates recv name static_only = Some (Some cs) →
  (∀ n x, chain supers_of n recv x → (n ≤ 64)%nat) →
  (∀ n x, chain supers_of n recv x → all_known x ∧ ∀ c, overload x c → ∃ c', c' ∈ cs ∧ candidate_key c' = candidate_key c)
  ∧ (∀ c, c ∈ cs → ∃ n x, chain supers_of n recv x ∧ overload x c)
  ∧ NoDup (candidate_key <$> cs).
Proof.
  unfold method_candidates. destruct (sweep _ _ _ _ _) as [[st|]|] eqn:E; try done. intros [= <-] Hshort.
  assert (Hkeep : (∀ c, c ∈ st.1 → ∃ n x, chain supers_of n recv x ∧ overload x c) ∧ cand_ok st).
  { assert (Hv : ∀ st ty st' sups, visit_candidates name static_only st ty = Some (st', sups) → sups = supers_of ty)
      by (by intros ????(-> & _)%visit_candidates_spec).
    apply (sweep_keeps (visit_candidates name static_only) supers_of Hv
      (λ st, (∀ c, c ∈ st.1 → ∃ n x, chain supers_of n recv x ∧ overload x c) ∧ cand_ok st)
      (λ ty, ∃ n, chain supers_of n recv ty)) in E; [done|..].
    - intros ty s [n Hc] Hs. exists (S n). clear -Hc Hs. induction Hc as [ty|n ty u x Hu _ IH]; [by eapply chain_up; [|constructor]|].
      eapply chain_up; [done|by apply IH].
    - intros st0 ty st1 sups [n Hc] [H1 H2] (_ & _ & _ & _ & H3 & H4)%visit_candidates_spec. split; [|by apply H4].
      intros c [Hin|Ho]%H3; [by apply H1|by exists n, ty].
    - intros ty ->%list_elem_of_singleton. exists 0%nat. constructor.
    - split; [by intros c Hc%elem_of_nil|]. split; [constructor|]. intros k. cbn. by rewrite !elem_of_nil. }
  destruct Hkeep as (Hfrom & Hnd & Hkeys). split_and!; [|done|done].
  assert (Hdone : ∀ n x, chain supers_of n recv x →
    all_known x ∧ ∀ c, overload x c → ∃ k, candidate_key c = Some k ∧ k ∈ st.2).
  { refine (sweep_all (visit_candidates name static_only) supers_of
      (λ st x, all_known x ∧ ∀ c, overload x c → ∃ k, candidate_key c = Some k ∧ k ∈ st.2) (λ st st', st.2 ⊆ st'.2) _ _ _ _ _ _ _ _ E Hshort).
    - split; [by intros x k|intros x y z H1 H2 k Hk; by apply H2, H1].
    - intros ????(-> & _)%visit_candidates_spec. done.
    - intros ????(_ & Hs & _)%visit_candidates_spec. done.
    - intros ????(_ & _ & Hk & Ho & _)%visit_candidates_spec. done.
    - intros st0 st1 ty Hs [Hk Ho]. split; [done|]. intros c (k & Hck & Hin)%Ho. exists k. split; [done|by apply Hs]. }
  intros n x Hc. destruct (Hdone n x Hc) as [Hk Ho]. split; [done|]. intros c (k & Hck & Hin)%Ho.
  apply Hkeys, list_elem_of_fmap in Hin as (c' & E' & Hin). exists c'. split; [done|congruence].
Qed.
End Found.
End Calls.

(** ** What the project promises *)

(** The classes of the open documents and the class path, and declared types as
    they are read in a document. *)
Definition project (docs : list SourceModel.OpenDoc) (table : SourceModel.TypeTable) (symbols : Symbols.Symbols.SymbolSource)
    (to_uppercase : string → string) (ctx : Members.Ctx) (nothing : Node → bool) (resolves : Node → TypeRef → bool) : Project :=
  {| class_facts := Members.class_facts docs table symbols to_uppercase;
     object_on_classpath := bool_decide (is_Some (Symbols.Symbols.class symbols "java.lang.Object"));
     declared_in_project b := bool_decide (is_Some (SourceModel.get_named table b));
     declared_type n := Members.type_ref <$> Members.resolve_type_node table symbols ctx (SourceModel.od_source (Members.ctx_doc ctx)) n;
     returns_nothing := nothing;
     reference_resolves := resolves |}.

(** The candidates of a call are all the methods of its name that the
    receiver's type has or inherits.  The walk for them always ends.  Unless a
    chain of supertypes is longer than sixty-four, an answer is complete: every
    type above the receiver is known, every method of the name there is among
    the candidates or one with the same erased parameters is, each candidate is
    such a method, and no two have the same erased parameters. *)
Theorem candidates_exact `{Project} recv name static_only :
  (∃ fuel r, ∀ more, method_candidates (fuel + more) recv name static_only = Some r)
  ∧ ∀ fuel cs, method_candidates fuel recv name static_only = Some (Some cs) →
      (∀ n x, chain supers_of n recv x → (n ≤ 64)%nat) →
      (∀ n x, chain supers_of n recv x →
         all_known x ∧ ∀ c, overload name static_only x c → ∃ c', c' ∈ cs ∧ candidate_key c' = candidate_key c)
      ∧ (∀ c, c ∈ cs → ∃ n x, chain supers_of n recv x ∧ overload name static_only x c)
      ∧ NoDup (candidate_key <$> cs).
Proof.
  split; [|intros fuel cs; by apply found_exact].
  destruct (sweep_ends (visit_candidates name static_only) recv [] ([], [])) as (n & r & Hn).
  exists n, (fst <$> r). intros more. unfold method_candidates. rewrite Hn by lia. by destruct r as [[]|].
Qed.

(** ** Examples *)

Module Sample.
Definition method (cls name : string) (abstract : bool) (ps : list TypeRef) (result : TypeRef) : ExternalMember :=
  mkExternalMember name EMethod name None false None None
    (Some (mkMemberMetadata (TNamed cls) Public false abstract (Some ps) result [] false)).
Definition a_class (name : string) (k : ClassKind) (vars : list string) (sups : list TypeRef) (ms : list ExternalMember) : ClassFacts :=
  mkFacts (mkClassMetadata (TNamed name) k Public false true None
    (imap (λ i _, mkTypeParameter (mkTypeVariableId name i) []) vars) sups true true) ms.
Definition STRING : TypeRef := named "java.lang.String".
Definition NUMBER : TypeRef := named "java.lang.Number".
Definition var (owner : string) : TypeRef := TVariable (mkTypeVariableId owner 0).
(** [class B extends A implements I], where [I] declares [Object m()] and [A]
    the covariant [String m()]; two function types. *)
Definition classes : list ClassFacts :=
  [a_class "java.lang.Object" KClass [] [] []; a_class "java.lang.String" KClass [] [OBJECT] []; a_class "java.lang.Number" KClass [] [OBJECT] [];
   a_class "I" KInterface [] [OBJECT] [method "I" "m" true [] OBJECT]; a_class "A" KClass [] [OBJECT] [method "A" "m" false [] STRING];
   a_class "B" KClass [] [named "A"; named "I"] []; a_class "List" KInterface ["E"] [OBJECT] [];
   a_class "Callable" KInterface ["V"] [] [method "Callable" "call" true [] (var "Callable")];
   a_class "Consumer" KInterface ["T"] [] [method "Consumer" "accept" true [var "Consumer"] Void]].
Definition numbers : TypeRef := Named (TNamed "List") [Wildcard (Some NUMBER) None].
#[export] Instance sample : Project :=
  {| class_facts id := List.find (λ f, bool_decide (cm_id (facts_meta f) = id)) classes;
     object_on_classpath := true; declared_in_project _ := false; declared_type _ := Some numbers;
     returns_nothing _ := false; reference_resolves _ _ := false |}.

Definition candidate (ps : list TypeRef) : Candidate :=
  mkCandidate (mkMemberMetadata (TNamed "A") Public false false (Some ps) Void [] false) [] [] None None.
Definition two : list Candidate := [candidate [OBJECT]; candidate [STRING]].
Lemma choice_order_irrelevant_witness : ∃ s, select_placed 9 "" (imap pair two) [Value STRING] = Some s
  ∧ select_placed 9 "" (rev (imap pair two)) [Value STRING] = Some s.
Proof.
  apply (choice_order_irrelevant 9 "" (imap pair two) (rev (imap pair two)) [Value STRING]);
    [apply Permutation_rev|apply positions_apart|]. split_and!.
  - intros phase c Hc. change (c ∈ [(0%nat, candidate [OBJECT]); (1%nat, candidate [STRING])]) in Hc.
    apply elem_of_cons in Hc as [->|Hc%list_elem_of_singleton]; [|subst c]; destruct phase; by eexists.
  - intros c c' Hc Hc'. change (c ∈ [(0%nat, candidate [OBJECT]); (1%nat, candidate [STRING])]) in Hc.
    change (c' ∈ [(0%nat, candidate [OBJECT]); (1%nat, candidate [STRING])]) in Hc'.
    apply elem_of_cons in Hc as [->|Hc%list_elem_of_singleton]; apply elem_of_cons in Hc' as [->|Hc'%list_elem_of_singleton];
      subst; by eexists.
  - intros i c Hc. change (c ∈ [(0%nat, candidate [OBJECT]); (1%nat, candidate [STRING])]) in Hc.
    apply elem_of_cons in Hc as [->|Hc%list_elem_of_singleton]; [|subst c]; destruct i as [|i]; by eexists.
Defined.

(** [f(Gone1)] and [f(Gone2)], of which nothing is known, and the call
    [f(null)]: that neither is proved more specific is reported as the error
    that neither is. *)
Example unproved_preference_ambiguous :
  select_candidate 9 "" [candidate [named "Gone1"]; candidate [named "Gone2"]] [Value Null] = Some Ambiguous
  ∧ assignable_refs 9 (named "Gone1") (named "Gone2") = Some None.
Proof. by vm_compute. Qed.

(** [class C implements N<N<? super C>>], which is legal, and the call
    [f(null)] of [f(C)], [f(M)] and [f(N<? super C>)]: in that order the call
    is ambiguous, but with the last two swapped the first question asked is
    one whose recursion does not end. *)
Definition expansive : Project :=
  {| class_facts id := (λ m, mkFacts m []) <$> @facts expansive_classes id;
     object_on_classpath := true; declared_in_project _ := true; declared_type _ := None;
     returns_nothing _ := false; reference_resolves _ _ := false |}.
Definition super_c : TypeRef := named_with "N" [Wildcard None (Some (named "C"))].
Lemma super_c_overflows fuel : @assignable_refs (@project_facts expansive) fuel (named "C") super_c = None.
Proof.
  induction fuel as [|f IH]; [done|]. cbn [assignable_refs]. unfold super_c, named, named_with in *. cbn [assignable_step].
  set (r := @assignable_refs (@project_facts expansive) f) in *. clearbody r.
  assert (E : @is_subtype (@project_facts expansive) r (S MAX_SUBTYPE_DEPTH) (TNamed "N") [Wildcard None (Some (Named (TNamed "C") []))] [] (Named (TNamed "C") [])
    = match r (Named (TNamed "C") []) (Named (TNamed "N") [Wildcard None (Some (Named (TNamed "C") []))]) with
      | Some (Some true) => Some (Some true) | Some (Some false) => Some (Some false) | Some None => Some None | None => None end).
  { vm_compute. by destruct (r _ _) as [[[]|]|]. }
  by rewrite E, IH.
Qed.
Example order_overflows :
  @select_candidate expansive 9 "" [candidate [named "C"]; candidate [named "M"]; candidate [super_c]] [Value Null]
    = Some Ambiguous
  ∧ ∀ fuel, @select_candidate expansive fuel "" [candidate [named "C"]; candidate [super_c]; candidate [named "M"]] [Value Null]
    = None.
Proof.
  split; [by vm_compute|]. intros fuel.
  assert (E : @assignable_refs (@project_facts expansive) fuel (named "C") super_c = None) by apply super_c_overflows.
  destruct fuel as [|f]; [by vm_compute|].
  set (l := imap pair [candidate [named "C"]; candidate [super_c]; candidate [named "M"]]).
  assert (Hsel : @select_candidate expansive (S f) "" [candidate [named "C"]; candidate [super_c]; candidate [named "M"]] [Value Null]
    = best ← @most_specific expansive (S f) "" l [Value Null];
      Some (match best with Some c => Selected c Strict | None => Ambiguous end)) by reflexivity.
  rewrite Hsel.
  assert (Hwin : @subtyping_winner expansive (S f) l =
    r ← r ← r ← @assignable_refs (@project_facts expansive) (S f) (named "C") super_c;
        match r with
        | Some false => Some (Some false)
        | Some true => Some (Some true)
        | None => Some None
        end;
      if bool_decide (r = Some true) then @dominates_all expansive (S f) (0%nat, candidate [named "C"]) [(2%nat, candidate [named "M"])]
      else Some (Some false);
    match r with
    | None => Some None
    | Some false => @winner_among expansive (S f) l [(1%nat, candidate [super_c]); (2%nat, candidate [named "M"])] None
    | Some true => @winner_among expansive (S f) l [(1%nat, candidate [super_c]); (2%nat, candidate [named "M"])] (Some (0%nat, candidate [named "C"]))
    end) by reflexivity.
  change (@most_specific expansive (S f) "" l [Value Null]) with
    (best ← @subtyping_winner expansive (S f) l;
      match best with
      | Some best => Some (Some best)
      | None =>
          narrowed ← @narrow_by_lambda_result expansive (S f) "" 0 [Value Null] l;
          if (length narrowed <? length l)%nat then @one_or_winner expansive (S f) narrowed
          else
            let by_variable := narrow_by_inference_variables l in
            if (length by_variable <? length l)%nat then @one_or_winner expansive (S f) by_variable else Some None
      end).
  by rewrite Hwin, E.
Qed.

Definition type_b : TypeRef := named "B".
Lemma heights : ∀ n x, chain supers_of n type_b x → (n ≤ 64)%nat.
Proof.
  assert (H0 : ∀ n x, chain supers_of n OBJECT x → (n ≤ 0)%nat) by
    (intros n x Hc; inversion Hc as [|? ? s ? Hs]; subst; [lia|]; change (supers_of OBJECT) with (@nil TypeRef) in Hs; by apply elem_of_nil in Hs).
  assert (H1 : ∀ b n x, supers_of (named b) = [OBJECT] → chain supers_of n (named b) x → (n ≤ 1)%nat).
  { intros b n x Hb Hc. inversion Hc as [|? ? s ? Hs Hc']; subst; [lia|]. rewrite Hb in Hs. apply list_elem_of_singleton in Hs as ->.
    apply H0 in Hc'. lia. }
  intros n x Hc. inversion Hc as [|? ? s ? Hs Hc']; subst; [lia|].
  change (supers_of type_b) with [named "A"; named "I"] in Hs.
  apply elem_of_cons in Hs as [->|Hs%list_elem_of_singleton]; [|subst s]; apply H1 in Hc'; [lia|done|lia|done].
Qed.
Lemma candidates_exact_witness : ∃ cs, method_candidates 9 type_b "m" false = Some (Some cs)
  ∧ ∀ n x, chain supers_of n type_b x → ∀ c, overload "m" false x c → ∃ c', c' ∈ cs ∧ candidate_key c' = candidate_key c.
Proof.
  destruct (method_candidates 9 type_b "m" false) as [[cs|]|] eqn:E; [|by vm_compute in E..]. exists cs. split; [done|].
  intros n x Hc. apply (proj1 (proj2 (candidates_exact type_b "m" false) 9%nat cs E heights) n x Hc).
Defined.

(** The interface is met before the superclass and its method stands for both:
    a call [b.m()] is given the type [Object]. *)
Lemma covariant_result_lost :
  (∃ c, method_candidates 9 type_b "m" false = Some (Some [c]) ∧ mm_result (c_meta c) = OBJECT)
  ∧ supers_of type_b = [named "A"; named "I"].
Proof. split; [eexists; split; by vm_compute|by vm_compute]. Qed.

(** A lambda with the very parameter type the function type has: wildcards
    inside type arguments are lost from the latter. *)
Definition wildcard_source : string := "(List<? extends Number> l) -> { }".
Definition wildcard_lambda : Node := root_node (
    node 1 "lambda_expression" 0 33 [field "parameters" (node 2 "formal_parameters" 0 26 [token 3 "(" 0 1; node 4
    "formal_parameter" 1 25 [field "type" (node 5 "generic_type" 1 23 [node 6 "type_identifier" 1 5 []; node 7
    "type_arguments" 5 23 [token 8 "<" 5 6; node 9 "wildcard" 6 22 [token 10 "?" 6 7; token 11 "extends" 8 15; node
    12 "type_identifier" 16 22 []]; token 13 ">" 22 23]]); field "name" (node 14 "identifier" 24 25 [])]; token 15
    ")" 25 26]); token 16 "->" 27 29; field "body" (node 17 "block" 30 33 [token 18 "{" 30 31; token 19 "}" 32 33])]).
Lemma nested_wildcard_rejected :
  lambda_compatible 9 wildcard_source wildcard_lambda (Named (TNamed "Consumer") [numbers]) = Some (Some false).
Proof. by vm_compute. Qed.

(** A body that always throws fits a function with a result, but only some such
    bodies are recognized. *)
Definition throwing_source : string := "() -> { try { throw e; } finally { } }".
Definition throwing_lambda : Node := root_node (
    node 1 "lambda_expression" 0 38 [field "parameters" (node 2 "formal_parameters" 0 2 [token 3 "(" 0 1; token 4
    ")" 1 2]); token 5 "->" 3 5; field "body" (node 6 "block" 6 38 [token 7 "{" 6 7; node 8 "try_statement" 8 36
    [token 9 "try" 8 11; field "body" (node 10 "block" 12 24 [token 11 "{" 12 13; node 12 "throw_statement" 14 22
    [token 13 "throw" 14 19; node 14 "identifier" 20 21 []; token 15 ";" 21 22]; token 16 "}" 23 24]); node 17
    "finally_clause" 25 36 [token 18 "finally" 25 32; node 19 "block" 33 36 [token 20 "{" 33 34; token 21 "}" 35
    36]]]; token 22 "}" 37 38])]).
Definition throwing_body : Node := default throwing_lambda (child_by_field_name "body" throwing_lambda).
Lemma throwing_body_rejected :
  select_candidate 9 throwing_source [candidate [Named (TNamed "Callable") [STRING]]] [Lambda throwing_lambda] = Some (NoApplicable 1)
  ∧ ∀ o tr, Hygiene.Hygiene.exec throwing_body o tr → o ≠ Hygiene.Hygiene.Normal.
Proof.
  split; [by vm_compute|]. intros o tr He ->. apply (proj1 Hygiene.Hygiene.normal_can) in He; [|done]. by vm_compute in He.
Qed.
End Sample.
End Overload.
