(* ===== verification/TextEdits.v ===== *)
(** * Text edits

    The edits an answer carries ([ls_types::TextEdit]) and what an editor
    does with them: every range is of the text before any edit, the edits
    take effect in document order, and those of one place in the order of
    the answer. *)
From Stdlib Require Import Sorting.Sorted.
From S2P Require Import Prelude RustStd Utf8 Lsp LineIndex.
Import LineIndex(LineIndex, PositionEncoding, position, new, denotes, slice, slice_app).

Record TextEdit := mkTextEdit { te_range : Range; te_new_text : string }.

(** An edit in byte offsets: from, to, and the text instead. *)
Definition Cut : Type := nat * nat * string.
Definition cut_start (c : Cut) : nat := c.1.1.
Definition cut_end (c : Cut) : nat := c.1.2.
Definition cut_text (c : Cut) : string := c.2.
(** The edit the code makes of two offsets. *)
Definition edit_at (ix : LineIndex) (c : Cut) : TextEdit :=
  mkTextEdit (mkRange (position ix (cut_start c)) (position ix (cut_end c))) (cut_text c).

Fixpoint insert_cut (c : Cut) (l : list Cut) : list Cut :=
  match l with
  | [] => [c]
  | d :: l => if (cut_start c <=? cut_start d)%nat then c :: d :: l else d :: insert_cut c l
  end.
Definition in_order (cuts : list Cut) : list Cut := foldr insert_cut [] cuts.
(** The text from an offset on, with cuts in it. *)
Fixpoint splice (t : string) (from : nat) (cuts : list Cut) : string :=
  match cuts with
  | [] => str_drop from t
  | (lo, hi, new_text) :: cuts => slice t from lo +:+ new_text +:+ splice t hi cuts
  end.
Fixpoint apart (len from : nat) (cuts : list Cut) : Prop :=
  match cuts with
  | [] => (from ≤ len)%nat
  | (lo, hi, _) :: cuts => (from ≤ lo ∧ lo ≤ hi)%nat ∧ apart len hi cuts
  end.

Definition denotes_cut (e : PositionEncoding) (t : string) (d : TextEdit) (c : Cut) : Prop :=
  denotes e t (r_start (te_range d)) (cut_start c) ∧ denotes e t (r_end (te_range d)) (cut_end c) ∧ te_new_text d = cut_text c.
Definition client_applies (e : PositionEncoding) (t : string) (edits : list TextEdit) (t' : string) : Prop :=
  ∃ cuts, Forall2 (denotes_cut e t) edits cuts ∧ apart (String.length t) 0 (in_order cuts) ∧ t' = splice t 0 (in_order cuts).

(** ** The edits of the code *)

Lemma client_applies_unique e t edits t1 t2 : client_applies e t edits t1 → client_applies e t edits t2 → t1 = t2.
Proof.
  intros (c1 & H1 & _ & ->) (c2 & H2 & _ & ->). do 2 f_equal. revert c2 H2.
  induction H1 as [|d [[a b] s] ds cs (Ha & Hb & Hs) _ IH]; intros c2 H2; [by inversion H2|].
  inversion H2 as [|? [[a' b'] s'] ? cs' (Ha' & Hb' & Hs')]; subst. f_equal; [|by apply IH].
  cbn in *. f_equal; [f_equal|congruence].
  - by rewrite <-(LineIndex.denotes_offset _ _ _ _ Ha), <-(LineIndex.denotes_offset _ _ _ _ Ha').
  - by rewrite <-(LineIndex.denotes_offset _ _ _ _ Hb), <-(LineIndex.denotes_offset _ _ _ _ Hb').
Qed.

Lemma apart_sorted len cuts : ∀ from, apart len from cuts → in_order cuts = cuts.
Proof.
  induction cuts as [|[[lo hi] s] cuts IH]; intros from; [done|]. cbn [apart]. intros [Hf Ha].
  unfold in_order in *. cbn [foldr]. rewrite (IH hi Ha). destruct cuts as [|[[lo' hi'] s'] cuts]; [done|].
  cbn [apart] in Ha. cbn [insert_cut]. unfold cut_start. cbn. destruct (Nat.leb_spec lo lo'); [done|lia].
Qed.

Definition on_boundaries (t : string) (c : Cut) : Prop :=
  is_char_boundary (cut_start c) t = true ∧ is_char_boundary (cut_end c) t = true.
Lemma position_denotes e t b : is_str t → str_len t < 2 ^ 32 → is_char_boundary b t = true →
  denotes e t (position (new t e) b) b.
Proof.
  intros Ht Hl Hb. destruct (LineIndex.denotes_total e t b Ht Hb) as [p Hp].
  by rewrite (LineIndex.denotes_position e t p b Hp Hl).
Qed.
Lemma edits_apply e t cuts : is_str t → str_len t < 2 ^ 32 → Forall (on_boundaries t) cuts → apart (String.length t) 0 cuts →
  client_applies e t (edit_at (new t e) <$> cuts) (splice t 0 cuts).
Proof.
  intros Ht Hl Hb Ha. exists cuts. rewrite (apart_sorted _ _ _ Ha). split; [|done].
  clear Ha. induction Hb as [|c cuts [Hs He] _ IH]; [constructor|]. constructor; [|done].
  split_and!; [by apply position_denotes..|done].
Qed.

(** ** Reading a splice *)

Lemma slice_zero t n : slice t 0 n = str_take n t.
Proof. unfold slice. f_equal. lia. Qed.
(** A text cut at growing boundaries. *)
Lemma str_drop_drop n m : ∀ s, str_drop n (str_drop m s) = str_drop (m + n) s.
Proof. induction m as [|m IH]; intros [|x s]; try done; [by destruct n|]. apply IH. Qed.
Lemma str_take_plus n m : ∀ s, str_take (n + m) s = str_take n s +:+ str_take m (str_drop n s).
Proof. induction n as [|n IH]; intros [|x s]; try done; [by destruct m|]. cbn. by rewrite IH. Qed.
Lemma slice_step t a b c : (a ≤ b ≤ c)%nat → slice t a b +:+ slice t b c = slice t a c.
Proof.
  intros H. unfold slice. replace (c - a)%nat with ((b - a) + (c - b))%nat by lia. rewrite str_take_plus, str_drop_drop.
  by replace (a + (b - a))%nat with b by lia.
Qed.
Lemma slice_rest t a b : (a ≤ b)%nat → slice t a b +:+ str_drop b t = str_drop a t.
Proof.
  intros H. unfold slice. rewrite <-(str_take_drop (b - a) (str_drop a t)) at 2. f_equal. rewrite str_drop_drop.
  by replace (a + (b - a))%nat with b by lia.
Qed.
Lemma slice_slice t a b n : (a ≤ b)%nat → slice t a (b + n) = slice t a b +:+ str_take n (str_drop b t).
Proof. intros H. rewrite <-(slice_step t a b (b + n)) by lia. f_equal. unfold slice. f_equal. lia. Qed.
Lemma str_take_len n : ∀ s, (n ≤ String.length s)%nat → String.length (str_take n s) = n.
Proof. induction n as [|n IH]; intros [|x s]; cbn; try done; [lia|]. intros. rewrite IH; lia. Qed.
Lemma str_drop_len n : ∀ s, String.length (str_drop n s) = (String.length s - n)%nat.
Proof. induction n as [|n IH]; intros [|x s]; try done. apply IH. Qed.
Lemma str_drop_within n : ∀ x y, (n ≤ String.length x)%nat → str_drop n (x +:+ y) = str_drop n x +:+ y.
Proof. induction n as [|n IH]; intros [|c x] y H; try done; cbn in H; [lia|]. apply IH. lia. Qed.
Lemma str_app_inj a b c d : String.length a = String.length c → a +:+ b = c +:+ d → a = c ∧ b = d.
Proof.
  revert c. induction a as [|x a IH]; intros [|y c]; try done. intros [= H] [= -> E]. by destruct (IH c H E) as [-> ->].
Qed.

Lemma apart_cuts len cuts : ∀ from, (from ≤ len)%nat → (∀ c, c ∈ cuts → (from ≤ cut_start c ≤ cut_end c)%nat ∧ (cut_end c ≤ len)%nat) →
  StronglySorted (λ c d, (cut_end c ≤ cut_start d)%nat) cuts → apart len from cuts.
Proof.
  induction cuts as [|[[lo hi] s] cuts IH]; intros from Hf Hc Hs; [done|]. inversion Hs as [|? ? Hs' Hall]; subst. cbn [apart].
  destruct (Hc (lo, hi, s)) as [H1 H2]; [by left|]. cbn in *. split; [lia|]. apply IH; [lia| |done].
  intros c Hin. destruct (Hc c) as [H3 H4]; [by right|]. rewrite Forall_forall in Hall. specialize (Hall c Hin). cbn in *. lia.
Qed.

(** ** Blanks *)

Lemma strip_any_some ps p s : p ∈ ps → is_Some (strip_prefix p s) → is_Some (strip_any ps s).
Proof.
  intros Hp [r Hr]. induction ps as [|q ps IH]; [by apply elem_of_nil in Hp|]. cbn. destruct (strip_prefix q s) eqn:E; [by eexists|].
  apply elem_of_cons in Hp as [->|Hp]; [congruence|auto].
Qed.
Lemma strip_any_from ps s r : strip_any ps s = Some r → ∃ p, p ∈ ps ∧ s = p +:+ r.
Proof.
  induction ps as [|q ps IH]; [done|]. cbn. destruct (strip_prefix q s) eqn:E.
  - intros [= ->]. exists q. split; [by left|by apply strip_prefix_Some].
  - intros (p & Hp & ->)%IH. exists p. split; [by right|done].
Qed.
Lemma strip_all_from f ps : ∀ s, ∃ l, Forall (.∈ ps) l ∧ s = str_concat l +:+ strip_all f ps s.
Proof.
  induction f as [|f IH]; intros s; cbn [strip_all]; [by exists []|]. destruct (strip_any ps s) as [r|] eqn:E; [|by exists []].
  destruct (strip_any_from _ _ _ E) as (p & Hp & ->). destruct (IH r) as (l & Hl & El). exists (p :: l). split; [by constructor|].
  change (str_concat (p :: l)) with (p +:+ str_concat l). by rewrite str_app_assoc, <-El.
Qed.
Lemma str_concat_app l k : str_concat (l ++ k) = str_concat l +:+ str_concat k.
Proof. induction l as [|x l IH]; [done|]. change (x +:+ str_concat (l ++ k) = (x +:+ str_concat l) +:+ str_concat k). by rewrite IH, str_app_assoc. Qed.
Lemma str_rev_concat l : str_rev (str_concat l) = str_concat (rev (str_rev <$> l)).
Proof.
  induction l as [|x l IH]; [done|]. change (str_rev (x +:+ str_concat l) = str_concat (rev (str_rev <$> l) ++ [str_rev x])).
  rewrite str_rev_app, IH, str_concat_app. change (str_concat [str_rev x]) with (str_rev x +:+ ""). by rewrite str_app_nil_r.
Qed.
Lemma blank_text s : trim s = "" → ∃ l, Forall (.∈ white_space) l ∧ s = str_concat l.
Proof.
  unfold trim, trim_end, trim_start. destruct (strip_all_from (String.length s) white_space s) as (l1 & H1 & E1).
  set (x := strip_all _ white_space s) in *. destruct (strip_all_from (String.length x) (str_rev <$> white_space) (str_rev x)) as (l2 & H2 & E2).
  intros E. apply (f_equal str_rev) in E. rewrite str_rev_involutive in E. change (str_rev "") with "" in E. rewrite E, str_app_nil_r in E2.
  apply (f_equal str_rev) in E2. rewrite str_rev_involutive, str_rev_concat in E2.
  exists (l1 ++ rev (str_rev <$> l2)). split; [|by rewrite str_concat_app, <-E2].
  apply Forall_app. split; [done|]. apply Forall_forall. intros y Hy. rewrite elem_of_rev in Hy. apply list_elem_of_fmap in Hy as (z & -> & Hz).
  rewrite Forall_forall in H2. specialize (H2 z Hz). apply (list_elem_of_fmap str_rev white_space) in H2 as (w & -> & Hw). by rewrite str_rev_involutive.
Qed.
Lemma white_space_char c : c ∈ white_space → is_char c.
Proof.
  assert (H : forallb (λ c, negb (bool_decide (c = "")) && match utf8_first (as_bytes c) with U8Valid n => (n =? String.length c)%nat | _ => false end)
    white_space = true) by by vm_compute.
  intros Hc%list_elem_of_In. rewrite forallb_forall in H. specialize (H c Hc). apply andb_true_iff in H as [H1 H2]. split.
  - intros ->. done.
  - destruct (utf8_first (as_bytes c)); [|done]. apply Nat.eqb_eq in H2. by subst.
Qed.
Lemma inside_char c t k : is_char c → (0 < k < String.length c)%nat → is_char_boundary k (c +:+ t) = false.
Proof.
  intros Hc Hk. unfold is_char_boundary. rewrite (bool_decide_eq_false_2 (k = 0)%nat), (bool_decide_eq_false_2 (k = _)) by (rewrite ?str_length_app; lia).
  rewrite (utf8_first_cont _ (String.length c)) by (lia || by apply utf8_first_char). by rewrite andb_false_r.
Qed.
(** What follows a boundary inside a run of blanks, or the line feed after
    it, begins with a blank. *)
Lemma blank_run l tail k : Forall (.∈ white_space) l → is_str (str_concat l +:+ newline +:+ tail) → (k ≤ String.length (str_concat l))%nat →
  is_char_boundary k (str_concat l +:+ newline +:+ tail) = true → starts_with_white_space (str_drop k (str_concat l +:+ newline +:+ tail)) = true.
Proof.
  assert (W : ∀ c r, c ∈ white_space → starts_with_white_space (c +:+ r) = true).
  { intros c r Hc. apply bool_decide_eq_true. eapply strip_any_some; [done|]. rewrite strip_prefix_app. by eexists. }
  intros Hl. revert k. induction Hl as [|c l Hc Hl IH]; intros k Hs Hk Hb.
  - assert (k = 0)%nat as -> by (cbn in Hk; lia). apply (W newline). apply (bool_decide_eq_true_1 (newline ∈ white_space)). by vm_compute.
  - change (str_concat (c :: l)) with (c +:+ str_concat l) in *. rewrite str_app_assoc in *. pose proof (white_space_char c Hc) as Hch.
    destruct (decide (k = 0)%nat) as [->|Hk0]; [by apply W|]. destruct (decide (k < String.length c)%nat) as [Hlt|Hge].
    { by rewrite inside_char in Hb by (done || lia). }
    apply is_str_char in Hs; [|done]. replace k with (String.length c + (k - String.length c))%nat in Hb |- * by lia.
    rewrite boundary_shift in Hb by done. rewrite <-str_drop_drop, str_drop_length. apply IH; [done| |done].
    rewrite str_length_app in Hk. lia.
Qed.
Lemma split_once_join c s a b : split_once c s = Some (a, b) → s = a +:+ String c b.
Proof.
  revert a b. induction s as [|d s IH]; intros a b; [done|]. cbn. destruct (Ascii.eqb d c) eqn:E.
  - apply Ascii.eqb_eq in E as ->. by intros [= <- <-].
  - destruct (split_once c s) as [[a' b']|]; [|done]. intros [= <- <-]. cbn. by rewrite (IH a' b').
Qed.
