(* ===== verification/Refactor.v ===== *)
(** * Refactorings and generated code ([crates/syntax/src/generate.rs])

    Extracting a variable, a constant or a method, inlining a variable, and
    generating accessors, constructors, [equals], [hashCode] and [toString]:
    the edits each action offers, and when it declines. *)
From Stdlib Require Import Ascii Sorting.Sorted.
From stdpp Require Import sorting.
From S2P Require Import Prelude RustStd Utf8 Lsp LineIndex SyntaxTree Outline Signatures SourceModel Bindings TextEdits.
Import LineIndex(LineIndex, PositionEncoding, position, offset, slice, last_line_start).
Import Outline(is_upper, is_lower, first_char).
Import Signatures(has_modifier).
Import SourceModel.
Import Bindings(in_field).

Module Refactor.

Record ActionSketch := mkActionSketch { as_title : string; as_kind : string; as_edits : list TextEdit; is_preferred : bool }.
Definition KIND_REFACTOR_EXTRACT : string := "refactor.extract".
Definition KIND_REFACTOR_INLINE : string := "refactor.inline".
Definition KIND_SOURCE_GENERATE : string := "source.generate".

(** An action is not offered, or the search for one panics. *)
Inductive Refusal := Declined | Panicked.
Notation Tried := (Result Refusal).
Definition offer {A} (o : option A) : Tried A := ok_or o Declined.
Definition decline_if (b : bool) : Tried unit := if b then Err Declined else Ok tt.

(** ** Words and names *)

Definition is_ident (b : Z) : bool := is_ascii_alphanumeric b || (b =? 95) || (b =? 36).
(** [while let Some(rel) = hay[from..].find(word)]; a slice that does not
    begin at a character panics. *)
Fixpoint word_from (hay word : string) (fuel from : nat) : Tried bool :=
  match fuel with
  | O => Ok false
  | S fuel =>
      if is_char_boundary from hay then
        match str_find word (str_drop from hay) with
        | None => Ok false
        | Some rel =>
            let at_ := (from + rel)%nat in
            let before_ok := bool_decide (at_ = O) || negb (is_ident (byte_at (as_bytes hay) (at_ - 1))) in
            let after := (at_ + String.length word)%nat in
            let after_ok := (String.length hay <=? after)%nat || negb (is_ident (byte_at (as_bytes hay) after)) in
            if before_ok && after_ok then Ok true else word_from hay word fuel (S at_)
        end
      else Err Panicked
  end.
Definition contains_word (hay word : string) : Tried bool :=
  if bool_decide (word = "") then Ok false else word_from hay word (S (String.length hay)) 0.

Fixpoint unique_from (base scope_text : string) (n : Z) (tries : nat) : Tried string :=
  match tries with
  | O => Ok base
  | S tries =>
      let candidate := base +:+ pretty n in
      taken ← contains_word scope_text candidate;
      if taken : bool then unique_from base scope_text (n + 1) tries else Ok candidate
  end.
Definition unique_in (base scope_text : string) : Tried string :=
  taken ← contains_word scope_text base;
  if taken : bool then unique_from base scope_text 2 98 else Ok base.

(** The words of the language ([completion.rs]). *)
Definition KEYWORDS : list string :=
  ["abstract"; "assert"; "boolean"; "break"; "byte"; "case"; "catch"; "char"; "class"; "continue"; "default"; "do"; "double";
   "else"; "enum"; "extends"; "final"; "finally"; "float"; "for"; "if"; "implements"; "import"; "instanceof"; "int"; "interface";
   "long"; "native"; "new"; "package"; "private"; "protected"; "public"; "return"; "short"; "static"; "strictfp"; "super";
   "switch"; "synchronized"; "this"; "throw"; "throws"; "transient"; "try"; "void"; "volatile"; "while"; "var"; "yield";
   "record"; "sealed"; "permits"; "true"; "false"; "null"].

Section Case.
(** [char::to_lowercase] and [char::to_uppercase] outside ASCII. *)
Context (to_lowercase to_uppercase : string → string).
Definition lower (c : string) : string :=
  match c with
  | String a EmptyString => String (ascii_lower a) ""
  | _ => to_lowercase c
  end.
Definition upper (c : string) : string :=
  match c with
  | String a EmptyString => String (if is_lower (byte_of_ascii a) then ascii_of_byte (byte_of_ascii a - 32) else a) ""
  | _ => to_uppercase c
  end.
Definition decapitalized (name : string) : string :=
  match chars name with [] => "" | first :: rest => lower first +:+ str_concat rest end.
Definition capitalized (name : string) : string :=
  match chars name with [] => "" | first :: rest => upper first +:+ str_concat rest end.
End Case.

(** ** Places in the text *)

(** [source.get(start..end)] *)
Definition get_text (source : string) (s e : nat) : option string :=
  if (s <=? e)%nat && (e <=? String.length source)%nat && is_char_boundary s source && is_char_boundary e source
  then Some (slice source s e) else None.
(** The selection without the white space around it. *)
Definition trimmed (source : string) (s e : nat) : option (nat * nat) :=
  if (e <=? s)%nat then None
  else
    text ← get_text source s e;
    let lead := (String.length text - String.length (trim_start text))%nat in
    let trail := (String.length text - String.length (trim_end text))%nat in
    let s := (s + lead)%nat in
    let e := (e - trail)%nat in
    if (e <=? s)%nat then None else Some (s, e).

Definition is_blank (a : ascii) : bool := bool_decide (byte_of_ascii a = 32) || bool_decide (byte_of_ascii a = 9).
Fixpoint all_ascii (p : ascii → bool) (s : string) : bool :=
  match s with EmptyString => true | String a s => p a && all_ascii p s end.
Definition line_indent (source : string) (at_ : nat) : option string :=
  let prefix := slice source (last_line_start (str_take at_ source)) at_ in
  if all_ascii is_blank prefix then Some prefix else None.
Definition line_indent_lenient (source : string) (at_ : nat) : string := default "" (line_indent source at_).

(** [walk_subtree]: a node and the named nodes below it, parents first. *)
Definition subtree : Node → list Node := descend [] (λ subtree n, n :: flat_map subtree (named_children n)).

Definition body_kinds : list string := ["block"; "constructor_body"].
Definition callable_kinds : list string := ["method_declaration"; "constructor_declaration"].
(** The child of the innermost body on the way out. *)
Fixpoint statement_above (current : Node) (ancs : list Node) : option Node :=
  match ancs with
  | [] => None
  | parent :: ancs => if bool_decide (kind parent ∈ body_kinds) then Some current else statement_above parent ancs
  end.
Fixpoint callable_above (ancs : list Node) : option Node :=
  match ancs with
  | [] => None
  | parent :: ancs =>
      if bool_decide (kind parent ∈ callable_kinds) then Some parent
      else if bool_decide (kind parent ∈ ["lambda_expression"; "class_body"]) then None
      else callable_above ancs
  end.
Definition enclosing_callable (n : Node) : option Node := callable_above (ancestors n).
Fixpoint scope_above (current : Node) (ancs : list Node) : option Node :=
  match ancs with
  | [] => None
  | parent :: ancs =>
      if bool_decide (kind parent ∈ ["method_declaration"; "constructor_declaration"; "static_initializer"; "class_body"]) then
        if bool_decide (kind current ∈ body_kinds) then Some current else None
      else scope_above parent ancs
  end.
Definition local_scope (declaration : Node) : option Node := scope_above declaration (ancestors declaration).
Definition enclosing_class (n : Node) : option Node :=
  List.find (λ a, bool_decide (kind a = "class_declaration")) (n :: ancestors n).

Definition is_variable_use (id : Node) : bool :=
  match parent id with
  | None => true
  | Some p =>
      let k := kind p in
      if bool_decide (k = "method_invocation") then negb (in_field "name" p id)
      else if bool_decide (k = "field_access") then negb (in_field "field" p id)
      else if bool_decide (k ∈ ["variable_declarator"; "formal_parameter"; "catch_formal_parameter"; "enhanced_for_statement"; "resource"])
      then negb (in_field "name" p id)
      else true
  end.

Section Source.
Context (source : string).

Definition is_name (name : string) (n : Node) : bool :=
  bool_decide (kind n = "identifier") && bool_decide (node_text n source = name).
Definition writes (name : string) (n : Node) : bool :=
  if bool_decide (kind n = "assignment_expression") then
    match child_by_field_name "left" n with Some l => is_name name l | None => false end
  else if bool_decide (kind n = "update_expression") then existsb (is_name name) (named_children n)
  else false.
Definition writes_name (n : Node) (name : string) : bool := existsb (writes name) (subtree n).
Definition is_read (name : string) (from : nat) (n : Node) : bool :=
  is_name name n && (from <=? start_byte n)%nat && is_variable_use n.
Definition reads_name_after (n : Node) (name : string) (from : nat) : bool := existsb (is_read name from) (subtree n).

Definition enclosing_statement (n : Node) : option (Node * string) :=
  current ← statement_above n (ancestors n);
  indent ← line_indent source (start_byte current);
  Some (current, indent).
Definition enclosing_body_text (n : Node) : option string :=
  m ← List.find (λ a, bool_decide (kind a ∈ callable_kinds)) (ancestors n);
  Some (node_text m source).

(** ** Names for what is extracted *)

Section Naming.
Context (to_lowercase : string → string).
Definition peeled (n : string) : string :=
  match (match strip_prefix "get" n with Some r => Some r | None => strip_prefix "is" n end) with
  | Some r => if first_char is_upper r then r else n
  | None => n
  end.
Definition base_name (n : Node) : string :=
  if bool_decide (kind n = "method_invocation") then
    match child_by_field_name "name" n with
    | Some name => decapitalized to_lowercase (peeled (node_text name source))
    | None => "value"
    end
  else if bool_decide (kind n = "object_creation_expression") then
    match (t ← child_by_field_name "type" n; base_type_name source t) with
    | Some name => decapitalized to_lowercase name
    | None => "value"
    end
  else "value".
Definition variable_name (n : Node) : string :=
  let base := base_name n in
  if bool_decide (base = "") || bool_decide (base ∈ KEYWORDS) then "value" else base.
End Naming.

(** [trim_matches] and [trim_end_matches] of one character. *)
Definition DOUBLE_QUOTE : ascii := ascii_of_N 34.
Definition trim_quotes (s : string) : string := trim_end_char DOUBLE_QUOTE (skip_char DOUBLE_QUOTE s).
Definition ascii_upper (a : ascii) : ascii :=
  if is_lower (byte_of_ascii a) then ascii_of_byte (byte_of_ascii a - 32) else a.
(** The name so far, and whether it ends where no underscore may follow. *)
Definition constant_step (acc : string * bool) (c : string) : string * bool :=
  let '(name, last_us) := acc in
  match c with
  | String a EmptyString =>
      if is_ascii_alphanumeric (byte_of_ascii a) then (name +:+ String (ascii_upper a) "", false)
      else if last_us then acc else (name +:+ "_", true)
  | _ => if last_us then acc else (name +:+ "_", true)
  end.
Definition constant_name (n : Node) : string :=
  if bool_decide (kind n = "string_literal") then
    let text := trim_quotes (node_text n source) in
    let name := trim_end_char "_" (fold_left constant_step (firstn 24 (chars text)) ("", true)).1 in
    if negb (bool_decide (name = "")) && first_char is_ascii_alphabetic name then name else "CONSTANT"
  else "CONSTANT".
Definition literal_type (k text : string) : option string :=
  if bool_decide (k = "string_literal") then Some "String"
  else if bool_decide (k = "character_literal") then Some "char"
  else if bool_decide (k = "decimal_floating_point_literal") then
    Some (if ends_with "f" text || ends_with "F" text then "float" else "double")
  else if bool_decide (k ∈ ["decimal_integer_literal"; "hex_integer_literal"; "octal_integer_literal"; "binary_integer_literal"]) then
    Some (if ends_with "l" text || ends_with "L" text then "long" else "int")
  else if bool_decide (k ∈ ["true"; "false"]) then Some "boolean"
  else None.

(** ** Where members go *)

Definition class_body (td : TypeDecl) : option Node := child_of_kind "class_body" (td_node td).
Definition member_indent (td : TypeDecl) (body : Node) : string :=
  default (line_indent_lenient source (start_byte (td_node td)) +:+ "    ")
    (m ← head (named_children body); line_indent source (start_byte m)).
Definition member_insertion (td : TypeDecl) : option (nat * string * string) :=
  body ← class_body td;
  if (1 <=? end_byte body)%nat
  then Some ((end_byte body - 1)%nat, member_indent td body, line_indent_lenient source (start_byte (td_node td)))
  else None.
Definition member_insertion_at_top (td : TypeDecl) : option (nat * string * (string * string)) :=
  body ← class_body td; Some (S (start_byte body), member_indent td body, (newline, newline)).

(** ** Locals that a selection sees *)

Record VisibleLocal := mkVisibleLocal { vl_name : string; vl_type_text : string }.
Definition push_binding (decl : Node) : list VisibleLocal :=
  match child_by_field_name "name" decl, child_by_field_name "type" decl with
  | Some name, Some ty => [mkVisibleLocal (node_text name source) (node_text ty source)]
  | _, _ => []
  end.
Definition declared_locals (statement : Node) : list VisibleLocal :=
  flat_map (λ declarator,
      match child_by_field_name "name" declarator, child_by_field_name "type" statement with
      | Some name, Some ty => [mkVisibleLocal (node_text name source) (node_text ty source)]
      | _, _ => []
      end) (children_by_field_name "declarator" statement).
Definition catch_binding (child : Node) : list VisibleLocal :=
  match child_by_field_name "name" child, child_of_kind "catch_type" child with
  | Some name, Some ty => [mkVisibleLocal (node_text name source) (node_text ty source)]
  | _, _ => []
  end.
Definition is_kind (k : string) (n : Node) : bool := bool_decide (kind n = k).
(** What one node between the selection and its callable declares. *)
Definition chain_locals (sel_start : nat) (ancestor : Node) : list VisibleLocal :=
  let k := kind ancestor in
  if bool_decide (k ∈ body_kinds) then
    flat_map declared_locals
      (List.filter (λ s, is_kind "local_variable_declaration" s && (end_byte s <=? sel_start)%nat) (named_children ancestor))
  else if bool_decide (k = "enhanced_for_statement") then push_binding ancestor
  else if bool_decide (k = "for_statement") then
    match child_by_field_name "init" ancestor with
    | Some init => if is_kind "local_variable_declaration" init then declared_locals init else []
    | None => []
    end
  else if bool_decide (k = "catch_clause") then
    flat_map catch_binding (List.filter (is_kind "catch_formal_parameter") (named_children ancestor))
  else if bool_decide (k = "try_with_resources_statement") then
    flat_map (λ c, flat_map push_binding (List.filter (is_kind "resource") (named_children c)))
      (List.filter (is_kind "resource_specification") (named_children ancestor))
  else [].
Fixpoint until_node (stop : Node) (ns : list Node) : list Node :=
  match ns with
  | [] => []
  | n :: ns => if same_node n stop then [] else n :: until_node stop ns
  end.
Definition visible_locals (callable sel_block : Node) (sel_start : nat) : list VisibleLocal :=
  match child_by_field_name "parameters" callable with
  | Some parameters => flat_map push_binding (List.filter (is_kind "formal_parameter") (named_children parameters))
  | None => []
  end
  ++ flat_map (chain_locals sel_start) (rev (until_node callable (sel_block :: ancestors sel_block))).

(** Inputs of a selection, and whether one has no type to write. *)
Definition innermost (visible : list VisibleLocal) (name : string) : option VisibleLocal :=
  List.find (λ l, bool_decide (vl_name l = name)) (rev visible).
Definition add_input (visible : list VisibleLocal) (acc : list VisibleLocal * bool) (n : Node) : list VisibleLocal * bool :=
  if is_kind "identifier" n && is_variable_use n then
    let name := node_text n source in
    match innermost visible name with
    | Some l =>
        (if existsb (λ i, bool_decide (vl_name i = name)) acc.1 then acc.1 else acc.1 ++ [l],
         acc.2 || bool_decide (vl_type_text l = "var"))
    | None => acc
    end
  else acc.
Definition inputs_of (visible : list VisibleLocal) (statements : list Node) : list VisibleLocal * bool :=
  fold_left (add_input visible) (flat_map subtree statements) ([], false).
Definition outputs_of (body : Node) (sel_end : nat) (statements : list Node) : list VisibleLocal :=
  List.filter (λ o, reads_name_after body (vl_name o) sel_end)
    (flat_map declared_locals (List.filter (is_kind "local_variable_declaration") statements)).
Definition returned_by_reference (body : Node) (sel_end : nat) (statements : list Node) (input : VisibleLocal) : bool :=
  existsb (λ s, writes_name s (vl_name input)) statements && reads_name_after body (vl_name input) sel_end.
Definition NON_EXTRACTABLE_STATEMENTS : list string :=
  ["return_statement"; "break_statement"; "continue_statement"; "yield_statement"; "labeled_statement";
   "explicit_constructor_invocation"].
Definition stays (statement : Node) : bool :=
  existsb (λ n, bool_decide (kind n ∈ NON_EXTRACTABLE_STATEMENTS)) (subtree statement).

(** ** The text of an extracted method *)

Definition body_line (body_indent stmt_indent : string) (i : nat) (line : string) : string :=
  if bool_decide (i = O) then body_indent +:+ line
  else if bool_decide (trim line = "") then ""
  else body_indent +:+ default line (strip_prefix stmt_indent line).
Definition body_lines (body_indent stmt_indent selection_text : string) (output : option VisibleLocal) : list string :=
  imap (body_line body_indent stmt_indent) (str_lines selection_text)
  ++ match output with Some out => [body_indent +:+ "return " +:+ vl_name out +:+ ";"] | None => [] end.
Definition call_text (name args : string) (output : option VisibleLocal) : string :=
  match output with
  | Some out => vl_type_text out +:+ " " +:+ vl_name out +:+ " = " +:+ name +:+ "(" +:+ args +:+ ");"
  | None => name +:+ "(" +:+ args +:+ ");"
  end.
Definition method_text (method_indent name : string) (is_static : bool) (output : option VisibleLocal) (inputs : list VisibleLocal)
    (throws : string) (lines : list string) : string :=
  newline +:+ newline +:+ method_indent +:+ "private " +:+ (if is_static then "static " else "")
  +:+ match output with Some out => vl_type_text out | None => "void" end +:+ " " +:+ name +:+ "("
  +:+ str_join ", " ((λ l, vl_type_text l +:+ " " +:+ vl_name l) <$> inputs) +:+ ")" +:+ throws +:+ " {" +:+ newline
  +:+ str_join newline lines +:+ newline +:+ method_indent +:+ "}".
Definition throws_text (callable : Node) : string :=
  match child_of_kind "throws" callable with Some t => " " +:+ node_text t source | None => "" end.

(** ** Generated members *)

Record GenField := mkGenField { gf_name : string; gf_type_text : string }.
Definition gen_field (td : TypeDecl) (m : Member) : option GenField :=
  p ← parent (m_node m); ty ← child_by_field_name "type" p; Some (mkGenField (m_name m) (node_text ty (td_source td))).
Definition gen_fields (td : TypeDecl) : list GenField :=
  omap (gen_field td)
    (List.filter (λ m, match m_kind m with Field => true | _ => false end && negb (m_is_static m)
        && is_kind "variable_declarator" (m_node m)) (own_members td)).
Definition PRIMITIVES : list string := ["int"; "long"; "short"; "byte"; "char"; "boolean"; "float"; "double"].
Section Members.
Context (to_uppercase : string → string) (indent : string).
Definition getter_name (f : GenField) : string :=
  (if bool_decide (gf_type_text f = "boolean") then "is" else "get") +:+ capitalized to_uppercase (gf_name f).
Definition setter_name (f : GenField) : string := "set" +:+ capitalized to_uppercase (gf_name f).
Definition getter_text (f : GenField) : string :=
  indent +:+ "public " +:+ gf_type_text f +:+ " " +:+ getter_name f +:+ "() {" +:+ newline
  +:+ indent +:+ "    return " +:+ gf_name f +:+ ";" +:+ newline +:+ indent +:+ "}" +:+ newline +:+ newline.
Definition setter_text (f : GenField) : string :=
  indent +:+ "public void " +:+ setter_name f +:+ "(" +:+ gf_type_text f +:+ " " +:+ gf_name f +:+ ") {" +:+ newline
  +:+ indent +:+ "    this." +:+ gf_name f +:+ " = " +:+ gf_name f +:+ ";" +:+ newline +:+ indent +:+ "}" +:+ newline +:+ newline.
Definition add_accessors (existing : list string) (lines : string) (f : GenField) : string :=
  let lines := if bool_decide (getter_name f ∈ existing) then lines else lines +:+ getter_text f in
  if bool_decide (setter_name f ∈ existing) then lines else lines +:+ setter_text f.
Definition constructor_text (name : string) (fields : list GenField) : string :=
  indent +:+ "public " +:+ name +:+ "(" +:+ str_join ", " ((λ f, gf_type_text f +:+ " " +:+ gf_name f) <$> fields) +:+ ") {" +:+ newline
  +:+ str_join "" ((λ f, indent +:+ "    this." +:+ gf_name f +:+ " = " +:+ gf_name f +:+ ";" +:+ newline) <$> fields)
  +:+ indent +:+ "}" +:+ newline +:+ newline.
Definition comparison (f : GenField) : string :=
  if bool_decide (gf_type_text f ∈ PRIMITIVES) then "this." +:+ gf_name f +:+ " == other." +:+ gf_name f
  else "java.util.Objects.equals(this." +:+ gf_name f +:+ ", other." +:+ gf_name f +:+ ")".
Definition line (text : string) : string := indent +:+ text +:+ newline.
Definition equals_text (name : string) (fields : list GenField) : string :=
  line "@Override" +:+ line "public boolean equals(Object o) {" +:+ line "    if (this == o) {" +:+ line "        return true;"
  +:+ line "    }" +:+ line ("    if (!(o instanceof " +:+ name +:+ ")) {") +:+ line "        return false;" +:+ line "    }"
  +:+ line ("    " +:+ name +:+ " other = (" +:+ name +:+ ") o;")
  +:+ line ("    return " +:+ str_join (newline +:+ "            && ") (comparison <$> fields) +:+ ";")
  +:+ line "}" +:+ newline +:+ line "@Override" +:+ line "public int hashCode() {"
  +:+ line ("    return java.util.Objects.hash(" +:+ str_join ", " (gf_name <$> fields) +:+ ");") +:+ line "}" +:+ newline.
Definition part (i : nat) (f : GenField) : string :=
  (if bool_decide (i = O) then quote else quote +:+ ", ") +:+ gf_name f +:+ "=" +:+ quote +:+ " + " +:+ gf_name f.
Definition to_string_text (name : string) (fields : list GenField) : string :=
  line "@Override" +:+ line "public String toString() {"
  +:+ line ("    return " +:+ quote +:+ name +:+ "{" +:+ quote +:+ " + " +:+ str_join " + " (imap part fields) +:+ " + " +:+ quote +:+ "}" +:+ quote +:+ ";")
  +:+ line "}" +:+ newline.
End Members.
End Source.

(** ** The actions *)

Section Actions.
Context (to_lowercase to_uppercase : string → string).
(** [Tree::named_descendant_for_byte_range]. *)
Context (descendant : Tree → nat → nat → option Node).
Context (doc : OpenDoc) (ix : LineIndex).
Let source := od_source doc.

Definition selected_node (s e : nat) : option Node :=
  '(s, e) ← trimmed source s e;
  n ← descendant (od_tree doc) s (e - 1);
  if bool_decide (start_byte n = s) && bool_decide (end_byte n = e) then Some n else None.
Definition selected_statements (s e : nat) : option (list Node) :=
  '(s, e) ← trimmed source s e;
  cover ← descendant (od_tree doc) s (e - 1);
  if bool_decide (kind cover ∈ body_kinds) then
    let statements := List.filter (λ c, (s <? end_byte c)%nat && (start_byte c <? e)%nat) (named_children cover) in
    if match head statements with Some first => bool_decide (start_byte first = s) | None => false end
       && match last statements with Some l => bool_decide (end_byte l = e) | None => false end
       && forallb (λ c, (s <=? start_byte c)%nat && (end_byte c <=? e)%nat) statements
    then Some statements else None
  else
    statement ← statement_above cover (ancestors cover);
    if bool_decide (start_byte statement = s) && bool_decide (end_byte statement = e) then Some [statement] else None.

Definition EXTRACTABLE : list string :=
  ["binary_expression"; "method_invocation"; "object_creation_expression"; "field_access"; "array_access"; "cast_expression";
   "ternary_expression"; "unary_expression"; "instanceof_expression"; "string_literal"; "decimal_integer_literal";
   "hex_integer_literal"; "octal_integer_literal"; "binary_integer_literal"; "decimal_floating_point_literal";
   "character_literal"].
Definition extract_variable (s e : nat) : Tried ActionSketch :=
  n ← offer (selected_node s e);
  _ ← decline_if (negb (bool_decide (kind n ∈ EXTRACTABLE)));
  '(statement, indent) ← offer (enclosing_statement source n);
  scope ← offer (enclosing_body_text source n);
  name ← unique_in (variable_name source to_lowercase n) scope;
  let expr_text := node_text n source in
  let decl_at := start_byte statement in
  Ok (mkActionSketch ("Extract to local variable '" +:+ name +:+ "'") KIND_REFACTOR_EXTRACT
        [edit_at ix (decl_at, decl_at, "var " +:+ name +:+ " = " +:+ expr_text +:+ ";" +:+ newline +:+ indent);
         edit_at ix (start_byte n, end_byte n, name)] false).

Definition extract_constant (s e : nat) : Tried ActionSketch :=
  n ← offer (selected_node s e);
  let lit_text := node_text n source in
  ty ← offer (literal_type (kind n) lit_text);
  class ← offer (enclosing_class n);
  td ← offer (from_node class source 0 None);
  '(insert_at, indent, (before, after)) ← offer (member_insertion_at_top source td);
  name ← unique_in (constant_name source n) (node_text class source);
  Ok (mkActionSketch ("Extract to constant '" +:+ name +:+ "'") KIND_REFACTOR_EXTRACT
        [edit_at ix (insert_at, insert_at,
           before +:+ indent +:+ "private static final " +:+ ty +:+ " " +:+ name +:+ " = " +:+ lit_text +:+ ";" +:+ after);
         edit_at ix (start_byte n, end_byte n, name)] false).

Definition extract_method (s e : nat) : Tried ActionSketch :=
  statements ← offer (selected_statements s e);
  first ← offer (head statements);
  last_ ← offer (last statements);
  let sel_start := start_byte first in
  let sel_end := end_byte last_ in
  sel_block ← offer (parent first);
  callable ← offer (enclosing_callable sel_block);
  body ← offer (child_by_field_name "body" callable);
  _ ← decline_if (existsb has_error statements);
  _ ← decline_if (existsb stays statements || bool_decide (is_Some (child_by_field_name "type_parameters" callable)));
  stmt_indent ← offer (line_indent source sel_start);
  let visible := visible_locals source callable sel_block sel_start in
  let '(inputs, unresolved_var) := inputs_of source visible statements in
  _ ← decline_if unresolved_var;
  _ ← decline_if (existsb (returned_by_reference source body sel_end statements) inputs);
  let outputs := outputs_of source body sel_end statements in
  _ ← decline_if ((1 <? length outputs)%nat || existsb (λ o, bool_decide (vl_type_text o = "var")) outputs);
  let output := head outputs in
  class ← offer (enclosing_class callable);
  name ← unique_in "extracted" (node_text class source);
  let call := call_text name (str_join ", " (vl_name <$> inputs)) output in
  let method_indent := line_indent_lenient source (start_byte callable) in
  selection_text ← offer (get_text source sel_start sel_end);
  let lines := body_lines (method_indent +:+ "    ") stmt_indent selection_text output in
  let method := method_text method_indent name (has_modifier callable source "static") output inputs (throws_text source callable) lines in
  Ok (mkActionSketch ("Extract to method '" +:+ name +:+ "'") KIND_REFACTOR_EXTRACT
        [edit_at ix (sel_start, sel_end, call); edit_at ix (end_byte callable, end_byte callable, method)] false).

Definition PARENTHESIZE_ON_INLINE : list string :=
  ["binary_expression"; "ternary_expression"; "cast_expression"; "instanceof_expression"; "assignment_expression";
   "lambda_expression"].
Definition replacement_text (value : Node) : string :=
  if bool_decide (kind value ∈ PARENTHESIZE_ON_INLINE) then "(" +:+ node_text value source +:+ ")" else node_text value source.
(** The declaration, with its line when nothing else is on it. *)
Definition deletion (declaration : Node) : nat * nat :=
  let del_start := start_byte declaration in
  let del_end := end_byte declaration in
  match line_indent source del_start, split_once LineIndex.LF (str_drop del_end source) with
  | Some indent, Some (rest, _) =>
      if bool_decide (trim rest = "") then ((del_start - String.length indent)%nat, (del_end + String.length rest + 1)%nat)
      else (del_start, del_end)
  | _, _ => (del_start, del_end)
  end.
Definition effectful (value : Node) : bool :=
  existsb (λ n, bool_decide (kind n ∈ ["method_invocation"; "object_creation_expression"])) (subtree value).
Definition usages_of (scope declaration : Node) (name : string) : list Node :=
  List.filter (is_read source name (end_byte declaration)) (subtree scope).
Definition inline_variable (s e : nat) : Tried ActionSketch :=
  let probe_end := if (s <? e)%nat then (e - 1)%nat else s in
  n ← offer (descendant (od_tree doc) s probe_end);
  _ ← decline_if (negb (is_kind "identifier" n));
  declarator ← offer (parent n);
  _ ← decline_if (negb (is_kind "variable_declarator" declarator) || negb (in_field "name" declarator n));
  value ← offer (child_by_field_name "value" declarator);
  declaration ← offer (parent declarator);
  _ ← decline_if (negb (is_kind "local_variable_declaration" declaration));
  _ ← decline_if (negb (bool_decide (length (List.filter (is_kind "variable_declarator") (named_children declaration)) = 1%nat)));
  scope ← offer (local_scope declaration);
  _ ← decline_if (has_error scope || existsb (is_kind "class_body") (subtree scope));
  let name := node_text n source in
  _ ← decline_if (writes_name source scope name);
  let usages := usages_of scope declaration name in
  _ ← decline_if (bool_decide (usages = []));
  _ ← decline_if ((1 <? length usages)%nat && effectful value);
  let '(del_start, del_end) := deletion declaration in
  Ok (mkActionSketch ("Inline variable '" +:+ name +:+ "'") KIND_REFACTOR_INLINE
        (edit_at ix (del_start, del_end, "")
           :: ((λ u, edit_at ix (start_byte u, end_byte u, replacement_text value)) <$> usages)) false).

Definition insert_members (insert_at : nat) (class_indent body : string) : list TextEdit :=
  [edit_at ix (insert_at, insert_at, newline +:+ body +:+ class_indent)].
Definition generate_actions (at_ : nat) : list ActionSketch :=
  match (n ← descendant (od_tree doc) at_ at_; class ← enclosing_class n; from_node class source 0 None) with
  | None => []
  | Some td =>
      if negb (bool_decide (td_kind td = Class_)) then []
      else
        match member_insertion source td with
        | None => []
        | Some (insert_at, indent, class_indent) =>
            let fields := gen_fields td in
            match fields with
            | [] => []
            | _ =>
                let existing := m_name <$> List.filter (λ m, match m_kind m with Method => true | _ => false end) (own_members td) in
                let action title body := mkActionSketch title KIND_SOURCE_GENERATE (insert_members insert_at class_indent body) false in
                let accessor_lines := fold_left (add_accessors to_uppercase indent existing) fields "" in
                (if bool_decide (accessor_lines = "") then [] else [action "Generate getters and setters" accessor_lines])
                ++ (if bool_decide (constructors td = []) then [action "Generate constructor" (constructor_text indent (td_name td) fields)] else [])
                ++ (if negb (bool_decide ("equals" ∈ existing)) && negb (bool_decide ("hashCode" ∈ existing))
                    then [action "Generate equals() and hashCode()" (equals_text indent (td_name td) fields)] else [])
                ++ (if negb (bool_decide ("toString" ∈ existing))
                    then [action "Generate toString()" (to_string_text indent (td_name td) fields)] else [])
            end
        end
  end.

(** What an attempt adds to the list: a panic ends it all. *)
Definition push_offer (out : list ActionSketch) (t : Tried ActionSketch) : Tried (list ActionSketch) :=
  match t with Ok a => Ok (out ++ [a]) | Err Declined => Ok out | Err Panicked => Err Panicked end.
Definition refactor_actions (r : Range) : Tried (list ActionSketch) :=
  let s := offset ix (r_start r) in
  let e := offset ix (r_end r) in
  out ← push_offer [] (extract_variable s e);
  out ← push_offer out (extract_constant s e);
  out ← push_offer out (extract_method s e);
  out ← push_offer out (inline_variable s e);
  Ok (out ++ generate_actions s).
End Actions.

(** ** Words *)

Definition before_word (a : string) : Prop := a = "" ∨ ∃ a' c, a = a' +:+ String c "" ∧ is_ident (byte_of_ascii c) = false.
Definition after_word (b : string) : Prop := b = "" ∨ ∃ c b', b = String c b' ∧ is_ident (byte_of_ascii c) = false.
(** A word of a text: nothing that continues a name stands next to it. *)
Definition occurs (hay word : string) : Prop := ∃ a b, hay = a +:+ word +:+ b ∧ before_word a ∧ after_word b.

Lemma str_find_spec p s : match str_find p s with
  | Some k => (∃ x y, s = x +:+ p +:+ y ∧ String.length x = k) ∧ ∀ x y, s = x +:+ p +:+ y → (k ≤ String.length x)%nat
  | None => ∀ x y, s ≠ x +:+ p +:+ y
  end.
Proof.
  induction s as [|c s IH]; cbn [str_find]; destruct (starts_with p _) eqn:E.
  - apply starts_with_spec in E as [r E]. split; [exists "", r; done|]. intros. lia.
  - intros x y H. destruct x; [|done]. assert (starts_with p "" = true); [|congruence]. apply starts_with_spec. by exists y.
  - apply starts_with_spec in E as [r E]. split; [exists "", r; done|]. intros. lia.
  - assert (N : ∀ x y, String c s = x +:+ p +:+ y → ∃ x', x = String c x' ∧ s = x' +:+ p +:+ y).
    { intros [|d x] y H; [|injection H as <- H; eauto].
      assert (starts_with p (String c s) = true); [|congruence]. apply starts_with_spec. by exists y. }
    destruct (str_find p s) as [k|]; cbn.
    + destruct IH as [(x & y & -> & <-) IH]. split; [by exists (String c x), y|].
      intros x' y' (x'' & -> & H)%N. cbn. specialize (IH _ _ H). lia.
    + intros x y (x' & -> & H)%N. by apply (IH x' y).
Qed.
Lemma str_last a : a = "" ∨ ∃ a' c, a = a' +:+ String c "".
Proof. induction a as [|x a [->|(a' & c & ->)]]; [by left|right; by exists "", x|right; by exists (String x a'), c]. Qed.
Lemma byte_before a r : (bool_decide (String.length a = O) || negb (is_ident (byte_at (as_bytes (a +:+ r)) (String.length a - 1)))) = true ↔ before_word a.
Proof.
  rewrite orb_true_iff, bool_decide_eq_true, negb_true_iff. unfold before_word. rewrite as_bytes_app.
  destruct (str_last a) as [->|(a' & c & ->)]; [cbn; tauto|]. rewrite str_length_app. cbn [String.length].
  rewrite byte_at_app_l by (rewrite length_as_bytes, str_length_app; cbn; lia). rewrite as_bytes_app.
  replace (String.length a' + 1 - 1)%nat with (length (as_bytes a') + 0)%nat by (rewrite length_as_bytes; lia).
  rewrite byte_at_app_r. split.
  - intros [H|H]; [lia|]. right. by exists a', c.
  - intros [H|(a'' & c' & H & Hc)]; [apply (f_equal String.length) in H; rewrite str_length_app in H; cbn in H; lia|].
    right. apply (f_equal str_rev) in H. rewrite !str_rev_app in H. by injection H as <- _.
Qed.
Lemma byte_after a r : ((String.length (a +:+ r) <=? String.length a)%nat || negb (is_ident (byte_at (as_bytes (a +:+ r)) (String.length a)))) = true ↔ after_word r.
Proof.
  rewrite orb_true_iff, Nat.leb_le, negb_true_iff, str_length_app, as_bytes_app. unfold after_word.
  replace (byte_at _ (String.length a)) with (byte_at (as_bytes r) 0).
  2:{ rewrite <-(byte_at_app_r (as_bytes a)), length_as_bytes. f_equal. lia. }
  destruct r as [|c r]; [split; [by left|cbn; lia]|]. change (byte_at (as_bytes (String c r)) 0) with (byte_of_ascii c). cbn.
  split; [intros [H|H]; [lia|right; eauto]|]. intros [?|(c' & r' & [= -> ->] & H)]; [done|by right].
Qed.

(** What the loop finds from an offset on. *)
Lemma word_from_spec hay word : word ≠ "" → ∀ fuel from b, (String.length hay < from + fuel)%nat → word_from hay word fuel from = Ok b →
  b = true ↔ ∃ x y, hay = x +:+ word +:+ y ∧ (from ≤ String.length x)%nat ∧ before_word x ∧ after_word y.
Proof.
  intros Hw. induction fuel as [|fuel IH]; intros from b Hf; cbn [word_from].
  { intros [= <-]. split; [done|]. intros (x & y & -> & Hx & _). rewrite str_length_app in Hf. lia. }
  destruct (is_char_boundary from hay) eqn:Eb; [|done].
  assert (Hl : (from ≤ String.length hay)%nat).
  { unfold is_char_boundary in Eb. rewrite !orb_true_iff, !bool_decide_eq_true, andb_true_iff, Nat.ltb_lt in Eb. lia. }
  pose proof (str_find_spec word (str_drop from hay)) as F.
  assert (Hcut : ∀ x y, hay = x +:+ word +:+ y → (from ≤ String.length x)%nat → str_drop from hay = str_drop from x +:+ word +:+ y).
  { intros x y -> H. by apply str_drop_within. }
  destruct (str_find word (str_drop from hay)) as [rel|].
  2:{ intros [= <-]. split; [done|]. intros (x & y & E & Hx & _). exfalso. by apply (F _ _ (Hcut _ _ E Hx)). }
  destruct F as [(x0 & y0 & E0 & <-) Fmin].
  set (A := str_take from hay +:+ x0).
  assert (EA : String.length A = (from + String.length x0)%nat) by (subst A; rewrite str_length_app, str_take_len; lia).
  assert (Eh : hay = A +:+ word +:+ y0) by (subst A; by rewrite str_app_assoc, <-E0, str_take_drop).
  cbv zeta. rewrite <-EA. replace (String.length A + String.length word)%nat with (String.length (A +:+ word)) by apply str_length_app.
  pose proof (byte_before A (word +:+ y0)) as Hb. pose proof (byte_after (A +:+ word) y0) as Ha. rewrite str_app_assoc in Ha.
  rewrite <-Eh in Hb, Ha. destruct (_ && _) eqn:Eba.
  - intros [= <-]. split; [|done]. intros _. apply andb_true_iff in Eba as [B1 B2]. exists A, y0.
    split_and!; [done|lia|by apply Hb|by apply Ha].
  - intros Hr. apply IH in Hr; [|lia]. rewrite Hr. split; intros (x & y & E & Hx & Hbx & Hay); exists x, y; split_and!; try done; [lia|].
    pose proof (Fmin _ _ (Hcut _ _ E Hx)) as Hm. rewrite str_drop_len in Hm.
    destruct (decide (String.length x = String.length A)) as [El|]; [|lia]. exfalso.
    rewrite E in Eh. destruct (str_app_inj _ _ _ _ El Eh) as [-> Ey]. destruct (str_app_inj word y word y0 eq_refl Ey) as [_ ->].
    apply andb_false_iff in Eba as [Eba|Eba]; [apply Hb in Hbx|apply Ha in Hay]; congruence.
Qed.
Lemma contains_word_spec hay word b : word ≠ "" → contains_word hay word = Ok b → b = true ↔ occurs hay word.
Proof.
  intros Hw. unfold contains_word. rewrite bool_decide_eq_false_2 by done. intros H.
  rewrite (word_from_spec hay word Hw (S (String.length hay)) 0%nat b ltac:(lia) H). unfold occurs. split; intros (x & y & ?); exists x, y; [tauto|].
  split_and!; [tauto|lia|tauto|tauto].
Qed.

(** A word that begins with an ASCII character is always found or not. *)
Lemma after_ascii_boundary s n : is_str s → (n < String.length s)%nat → byte_at (as_bytes s) n < 128 → is_char_boundary (S n) s = true.
Proof.
  intros Hs. revert n. induction Hs as [|c t Hc Ht IH] using str_ind; intros n Hn Hb; [cbn in Hn; lia|].
  rewrite str_length_app in Hn. destruct (decide (n < String.length c)%nat) as [Hlt|Hge].
  - destruct (utf8_first_ascii (as_bytes (c +:+ t)) (String.length c) n) as [-> El]; [by apply utf8_first_char|done|done|].
    replace 1%nat with (String.length c + 0)%nat by lia. rewrite boundary_shift by done. apply boundary_ends.
  - replace (S n) with (String.length c + S (n - String.length c))%nat by lia. rewrite boundary_shift by done. apply IH; [lia|].
    rewrite as_bytes_app in Hb. replace n with (length (as_bytes c) + (n - String.length c))%nat in Hb by (rewrite length_as_bytes; lia).
    by rewrite byte_at_app_r in Hb.
Qed.
Definition ascii_start (word : string) : Prop := ∃ c r, word = String c r ∧ byte_of_ascii c < 128.
Lemma contains_word_runs hay word : is_str hay → ascii_start word → ∃ b, contains_word hay word = Ok b.
Proof.
  intros Hh (c & r & -> & Hc). unfold contains_word. rewrite bool_decide_eq_false_2 by done.
  assert (H : ∀ fuel from, is_char_boundary from hay = true → ∃ b, word_from hay (String c r) fuel from = Ok b).
  2:{ apply H, boundary_ends. }
  induction fuel as [|fuel IH]; intros from Hb; cbn [word_from]; [by eexists|]. rewrite Hb.
  pose proof (str_find_spec (String c r) (str_drop from hay)) as F. destruct (str_find _ _) as [rel|]; [|by eexists].
  destruct F as [(x & y & E & <-) _]. cbv zeta. destruct (_ && _); [by eexists|]. apply IH.
  assert (Eh : hay = (str_take from hay +:+ x) +:+ String c (r +:+ y)) by (rewrite str_app_assoc; cbn in E; by rewrite <-E, str_take_drop).
  assert (Hl : (from ≤ String.length hay)%nat).
  { unfold is_char_boundary in Hb. rewrite !orb_true_iff, !bool_decide_eq_true, andb_true_iff, Nat.ltb_lt in Hb. lia. }
  assert (El : String.length (str_take from hay +:+ x) = (from + String.length x)%nat) by (rewrite str_length_app, str_take_len; lia).
  rewrite <-El. generalize dependent (str_take from hay +:+ x). intros A -> _. apply after_ascii_boundary; [done|rewrite str_length_app; cbn; lia|].
  rewrite as_bytes_app, <-(length_as_bytes A). replace (length (as_bytes A)) with (length (as_bytes A) + 0)%nat by lia.
  by rewrite byte_at_app_r.
Qed.

(** The names tried after the first. *)
Definition spellings (base : string) : list string := base :: ((λ n, base +:+ pretty n) <$> seqZ 2 98).
Lemma app_nonempty a b : a ≠ "" → a +:+ b ≠ "".
Proof. by destruct a. Qed.
Lemma unique_from_spec base text tries : base ≠ "" → ∀ (n : Z) name, unique_from base text n tries = Ok name →
  (∃ k : Z, name = base +:+ pretty k ∧ ¬ occurs text name) ∨ name = base ∧ ∀ k : Z, k ∈ seqZ n (Z.of_nat tries) → occurs text (base +:+ pretty k).
Proof.
  intros Hb. induction tries as [|tries IH]; intros n name; cbn [unique_from].
  { intros [= <-]. right. split; [done|]. intros k Hk%elem_of_seqZ. lia. }
  intros (taken & Ht & H)%res_bind_ok. pose proof (contains_word_spec text _ taken (app_nonempty _ (pretty n) Hb) Ht) as Hs. destruct taken.
  - destruct (IH _ _ H) as [?|[-> Hk]]; [by left|]. right. split; [done|]. intros k Hin%elem_of_seqZ.
    destruct (decide (k = n)) as [->|]; [by apply Hs|]. apply Hk, elem_of_seqZ. lia.
  - injection H as <-. left. exists n. split; [done|]. intros Ho. by apply Hs in Ho.
Qed.
(** The name is new where it is looked for, or every spelling is taken. *)
Lemma unique_in_spec base text name : base ≠ "" → unique_in base text = Ok name →
  ¬ occurs text name ∨ ∀ s, s ∈ spellings base → occurs text s.
Proof.
  intros Hb H. unfold unique_in in H. apply res_bind_ok in H as (taken & Ht & H).
  pose proof (contains_word_spec text _ taken Hb Ht) as Hs. destruct taken.
  - destruct (unique_from_spec _ _ _ Hb _ _ H) as [(k & _ & Hk)|[-> Hk]]; [by left|]. right.
    intros s [->|(k & -> & Hin)%list_elem_of_fmap]%elem_of_cons; [by apply Hs|by apply Hk].
  - injection H as <-. left. intros Ho. by apply Hs in Ho.
Qed.

(** ** Places *)

Lemma fits_text source n : is_str source → fits_at source n →
  node_text n source = slice source (start_byte n) (end_byte n).
Proof.
  intros Hs F. unfold node_text.
  destruct (boundary_cut source (end_byte n) Hs (fits_end _ _ F)) as (a & b & E & El & Ha & _).
  pose proof (fits_span _ _ F). assert (Hbs : is_char_boundary (start_byte n) a = true).
  { pose proof (fits_start _ _ F) as B. unfold is_char_boundary in *. rewrite !orb_true_iff, !bool_decide_eq_true, andb_true_iff in *.
    destruct (decide (start_byte n = end_byte n)) as [->|]; [by left; right|]. rewrite E, str_length_app, as_bytes_app in B.
    destruct B as [[?|?]|[_ B]]; [by left; left|lia|]. right. rewrite Nat.ltb_lt. split; [lia|].
    by rewrite byte_at_app_l in B by (rewrite length_as_bytes; lia). }
  destruct (boundary_cut a (start_byte n) Ha Hbs) as (c & d & -> & Ec & Hc & Hd).
  assert (Ed : slice source (start_byte n) (end_byte n) = d).
  { rewrite E, <-El, <-Ec, str_length_app, str_app_assoc. apply LineIndex.slice_app. }
  rewrite Ed. by rewrite Hd.
Qed.
Lemma ancestor_holds r n a : within r n → above r = [] → a ∈ ancestors n → within a n.
Proof.
  intros Hn Hr. remember (length (above n)) as k eqn:Ek. revert n Ek Hn. induction k as [|k IH]; intros n Ek Hn.
  - unfold ancestors. destruct (above n); [|done]. by intros H%elem_of_nil.
  - destruct (within_above r n Hn Hr) as [[Ea ->]|(p & Hp & Hwp & Hc)]; [by rewrite Ea in Ek|].
    assert (Hpn : within p n) by (eapply within_child; [done|constructor]).
    rewrite (ancestors_child p n Hc). intros [->|Ha]%elem_of_cons; [done|]. eapply within_trans; [|done].
    apply IH; [|done|done]. unfold parent in Hp. destruct (above n); [done|]. injection Hp as <-. by injection Ek.
Qed.
Lemma statement_above_spec c s : statement_above c (ancestors c) = Some s →
  (s = c ∨ s ∈ ancestors c) ∧ ∃ p, parent s = Some p ∧ kind p ∈ body_kinds.
Proof.
  destruct c as [t up]. unfold ancestors. cbn [above]. revert t. induction up as [|u up IH]; intros t; [done|].
  cbn [ancestors_from statement_above]. case_bool_decide as Hk.
  - intros [= <-]. split; [by left|]. by exists (mkNode u up).
  - intros H. destruct (IH u H) as [[->|Hin] Hp]; (split; [right|done]); [by left|by right].
Qed.
(** The block is the nearest one around. *)
Lemma statement_above_nearest c s block : statement_above c (ancestors c) = Some s → parent s = Some block →
  ∃ pre post, ancestors c = pre ++ block :: post ∧ (∀ x, x ∈ pre → kind x ∉ body_kinds) ∧ s = default c (last pre).
Proof.
  destruct c as [t up]. unfold ancestors. cbn [above]. revert t. induction up as [|u up IH]; intros t; [done|].
  cbn [ancestors_from statement_above]. case_bool_decide as Hk.
  - intros [= <-] [= <-]. exists [], (ancestors_from up). split; [done|]. split; [by intros x ?%elem_of_nil|done].
  - intros H Hp. destruct (IH u H Hp) as (pre & post & E & Hno & ->). cbn [above] in E. exists (mkNode u up :: pre), post.
    split; [by rewrite E|]. split; [by intros x [->|Hx]%elem_of_cons; [|apply Hno]|]. by rewrite last_cons_default.
Qed.
Lemma callable_above_spec ancs c : callable_above ancs = Some c → c ∈ ancs ∧ kind c ∈ callable_kinds.
Proof.
  induction ancs as [|a ancs IH]; [done|]. cbn. case_bool_decide; [intros [= <-]; by split; [left|]|]. case_bool_decide; [done|].
  intros [? ?]%IH. by split; [right|].
Qed.
Lemma subtree_eq n : subtree n = n :: flat_map subtree (named_children n).
Proof.
  unfold subtree at 1. rewrite descend_eq; [done|]. intros m g h Hg. f_equal. apply flat_map_ext_elem. intros c Hc.
  apply Hg, child_smaller, named_child_is_child, Hc.
Qed.
Lemma subtree_within n m : m ∈ subtree n → within n m.
Proof.
  revert m. induction n as [n IH] using node_ind. intros m. rewrite subtree_eq. intros [->|Hm]%elem_of_cons; [constructor|].
  apply list_elem_of_In, in_flat_map in Hm as (c & Hc & Hm). rewrite <-list_elem_of_In in Hc, Hm.
  apply named_child_is_child in Hc as [Hc _]. eapply within_child; [done|]. by apply IH.
Qed.

(** *** Inputs *)

Section Inputs.
Context (source : string) (visible : list VisibleLocal).
Definition uses (n : Node) (l : VisibleLocal) : Prop :=
  kind n = "identifier" ∧ is_variable_use n = true ∧ innermost visible (node_text n source) = Some l.
Definition inputs_ok (inputs : list VisibleLocal) : Prop :=
  NoDup (vl_name <$> inputs) ∧ ∀ l, l ∈ inputs → innermost visible (vl_name l) = Some l.
Lemma innermost_spec name l : innermost visible name = Some l → l ∈ visible ∧ vl_name l = name.
Proof. intros [H E%bool_decide_eq_true]%find_elem. by rewrite elem_of_rev in H. Qed.
Lemma add_input_spec n ins b : inputs_ok ins → let acc := add_input source visible (ins, b) n in
  inputs_ok acc.1 ∧ (∀ l, l ∈ acc.1 ↔ l ∈ ins ∨ uses n l) ∧ (acc.2 = false ↔ b = false ∧ ∀ l, uses n l → vl_type_text l ≠ "var").
Proof.
  intros [Hd Hi]. unfold add_input, is_kind, uses.
  destruct (bool_decide (kind n = "identifier") && is_variable_use n) eqn:E.
  2:{ apply andb_false_iff in E. split_and!; [done|..]; cbn.
      - intros l. split; [by left|]. intros [?|(Hk & Hu & _)]; [done|]. rewrite Hu, Hk in E. by destruct E.
      - split; [|naive_solver]. intros ->. split; [done|]. intros l (Hk & Hu & _). rewrite Hu, Hk in E. by destruct E. }
  apply andb_true_iff in E as [Hk%bool_decide_eq_true Hu]. destruct (innermost visible (node_text n source)) as [l0|] eqn:El.
  2:{ split_and!; [done|..]; cbn; naive_solver. }
  destruct (innermost_spec _ _ El) as [_ Hn]. cbn. rewrite orb_false_iff, bool_decide_eq_false.
  assert (Hl : ∀ l, kind n = "identifier" ∧ is_variable_use n = true ∧ Some l0 = Some l ↔ l = l0) by naive_solver.
  setoid_rewrite Hl. destruct (existsb _ ins) eqn:Ex.
  - apply existsb_exists in Ex as (i & Hin & Ei%bool_decide_eq_true). rewrite <-list_elem_of_In in Hin.
    assert (i = l0) as -> by (pose proof (Hi i Hin) as Hi'; rewrite Ei, El in Hi'; congruence).
    split_and!; [done|naive_solver|naive_solver].
  - split_and!; [split|intros l; rewrite elem_of_app, elem_of_cons, elem_of_nil; naive_solver|naive_solver].
    + rewrite fmap_app. apply NoDup_app. split_and!; [done| |apply NoDup_singleton].
      intros x (i & -> & Hin)%list_elem_of_fmap. cbn. rewrite elem_of_cons, elem_of_nil. intros [Heq|[]].
      assert (existsb (λ i, bool_decide (vl_name i = node_text n source)) ins = true); [|congruence]. apply existsb_exists. exists i.
      rewrite <-list_elem_of_In. split; [done|]. apply bool_decide_eq_true. congruence.
    + intros l [?|[->|Hx%elem_of_nil]%elem_of_cons]%elem_of_app; [by apply Hi| |done]. by rewrite Hn.
Qed.
Lemma inputs_spec statements : let r := inputs_of source visible statements in
  inputs_ok r.1 ∧ (∀ l, l ∈ r.1 ↔ ∃ n, n ∈ flat_map subtree statements ∧ uses n l)
  ∧ (r.2 = false → ∀ l, l ∈ r.1 → vl_type_text l ≠ "var").
Proof.
  unfold inputs_of. generalize (flat_map subtree statements) as ns. intros ns.
  assert (H : ∀ ins b, inputs_ok ins → let r := fold_left (add_input source visible) ns (ins, b) in
    inputs_ok r.1 ∧ (∀ l, l ∈ r.1 ↔ l ∈ ins ∨ ∃ n, n ∈ ns ∧ uses n l)
    ∧ (r.2 = false → b = false ∧ ∀ l n, n ∈ ns → uses n l → vl_type_text l ≠ "var")).
  { induction ns as [|n ns IH]; intros ins b Hok; cbn [fold_left].
    - split_and!; [done|..]; cbn; [setoid_rewrite elem_of_nil; naive_solver|]. intros ->. split; [done|]. by intros l n Hx%elem_of_nil.
    - destruct (add_input_spec n ins b Hok) as (H1 & H2 & H3). destruct (add_input source visible (ins, b) n) as [ins' b']. cbn in *.
      destruct (IH ins' b' H1) as (H4 & H5 & H6). split_and!; [done|..].
      + intros l. rewrite H5, H2. setoid_rewrite elem_of_cons. naive_solver.
      + intros Hr. destruct (H6 Hr) as [Hb Hrest]. destruct (proj1 H3 Hb) as [-> Hn]. split; [done|].
        intros l m [->|Hm]%elem_of_cons; [by apply Hn|by apply Hrest]. }
  destruct (H [] false) as (H1 & H2 & H3); [split; [constructor|by intros l Hx%elem_of_nil]|]. split_and!; [done|..].
  - intros l. rewrite H2. rewrite elem_of_nil. naive_solver.
  - intros Hr l Hl. apply H2 in Hl as [Hx%elem_of_nil|(n & Hn & Hu)]; [done|]. by eapply (proj2 (H3 Hr)).
Qed.
End Inputs.

(** *** What may become a method *)

Record extraction (source : string) (visible : list VisibleLocal) (body : Node) (sel_end : nat) (statements : list Node)
    (inputs : list VisibleLocal) (output : option VisibleLocal) : Prop := {
  ex_clean s : s ∈ statements → has_error s = false;
  ex_stays n : n ∈ flat_map subtree statements → kind n ∉ NON_EXTRACTABLE_STATEMENTS;
  (** Exactly the variables the statements use are passed, each once. *)
  ex_inputs l : l ∈ inputs ↔ ∃ n, n ∈ flat_map subtree statements ∧ uses source visible n l;
  ex_once : NoDup (vl_name <$> inputs);
  ex_typed l : l ∈ inputs ∨ output = Some l → vl_type_text l ≠ "var";
  (** None is written and read later. *)
  ex_by_value l s : l ∈ inputs → s ∈ statements → writes_name source s (vl_name l) = true →
    reads_name_after source body (vl_name l) sel_end = false;
  (** A variable they declare and that is read later is what they return. *)
  ex_result s l : s ∈ statements → kind s = "local_variable_declaration" → l ∈ declared_locals source s →
    reads_name_after source body (vl_name l) sel_end = true → output = Some l;
}.
Lemma short_list {A} (l : list A) : (1 <? length l)%nat = false → ∀ x, x ∈ l → head l = Some x.
Proof.
  destruct l as [|y [|z l]]; cbn; [by intros _ x Hx%elem_of_nil|intros _ x [->|Hx%elem_of_nil]%elem_of_cons; done|done].
Qed.
Lemma existsb_false {A} (f : A → bool) l : existsb f l = false → ∀ x, x ∈ l → f x = false.
Proof.
  intros H x Hx. destruct (f x) eqn:E; [|done]. rewrite <-H. symmetry. apply existsb_exists. exists x. by rewrite <-list_elem_of_In.
Qed.
Lemma outputs_spec source body sel_end statements l : l ∈ outputs_of source body sel_end statements ↔
  (∃ s, s ∈ statements ∧ kind s = "local_variable_declaration" ∧ l ∈ declared_locals source s)
  ∧ reads_name_after source body (vl_name l) sel_end = true.
Proof.
  unfold outputs_of. rewrite list_elem_of_In, List.filter_In, in_flat_map. setoid_rewrite List.filter_In.
  unfold is_kind. setoid_rewrite bool_decide_eq_true. setoid_rewrite <-list_elem_of_In. naive_solver.
Qed.
Lemma extraction_sound source visible body sel_end statements inputs flag : inputs_of source visible statements = (inputs, flag) →
  existsb has_error statements = false → existsb stays statements = false → flag = false →
  existsb (returned_by_reference source body sel_end statements) inputs = false →
  (let outputs := outputs_of source body sel_end statements in
   (1 <? length outputs)%nat || existsb (λ o, bool_decide (vl_type_text o = "var")) outputs = false) →
  extraction source visible body sel_end statements inputs (head (outputs_of source body sel_end statements)).
Proof.
  intros Ei He Hst -> Href [Hlen Hvar]%orb_false_iff. destruct (inputs_spec source visible statements) as ([Hd _] & Hin & Hty).
  rewrite Ei in Hd, Hin, Hty. cbn in *. split; [by apply existsb_false| |done|done|..].
  - intros n (s & Hs & Hn)%list_elem_of_In%in_flat_map Hk. rewrite <-list_elem_of_In in Hs, Hn.
    pose proof (existsb_false _ _ Hst s Hs) as H. pose proof (existsb_false _ _ H n Hn) as H'. by rewrite bool_decide_eq_false in H'.
  - intros l [Hl|Hl]; [by apply Hty|]. pose proof (existsb_false _ _ Hvar l) as H. rewrite bool_decide_eq_false in H. apply H.
    destruct (outputs_of _ _ _ _); [done|]. injection Hl as ->. by left.
  - intros l s Hl Hs Hw. pose proof (existsb_false _ _ Href l Hl) as H. unfold returned_by_reference in H.
    apply andb_false_iff in H as [H|H]; [|done]. by rewrite (existsb_false _ _ H s Hs) in Hw.
  - intros s l Hs Hk Hl Hr. apply short_list; [done|]. apply outputs_spec. eauto.
Qed.

(** *** The order of a walk *)

Definition below (n : Node) : list Node := flat_map subtree (named_children n).
Definition comes_before (a b : Node) : Prop := b ∈ below a ∨ (end_byte a ≤ start_byte b)%nat.
Lemma sorted_filter {A} (R : relation A) (p : A → bool) l : StronglySorted R l → StronglySorted R (List.filter p l).
Proof.
  induction 1 as [|x l Hl IH Hx]; [constructor|]. cbn. destruct (p x); [|done]. constructor; [done|].
  rewrite Forall_forall in Hx |- *. intros y Hy%list_elem_of_In. apply Hx. apply List.filter_In in Hy as [Hy _]. by apply list_elem_of_In.
Qed.
Lemma children_sorted source n : fits_at source n → StronglySorted (λ c d, (end_byte c ≤ start_byte d)%nat) (children n).
Proof.
  intros F. pose proof (fits_order _ _ F) as Ho. induction (children n) as [|c cs IH]; constructor.
  - apply IH. intros i j x y Hij Hi Hj. by apply (Ho (S i) (S j)); [lia|..].
  - apply Forall_forall. intros d Hd. apply list_elem_of_lookup in Hd as [j Hj]. by apply (Ho 0%nat (S j)); [lia|..].
Qed.
Lemma subtree_sorted source n : fits source n → StronglySorted comes_before (subtree n).
Proof.
  induction n as [n IH] using node_ind. intros F. rewrite subtree_eq. constructor.
  2:{ apply Forall_forall. intros b Hb. by left. }
  assert (Hs : StronglySorted (λ c d, (end_byte c ≤ start_byte d)%nat) (named_children n))
    by (apply sorted_filter, (children_sorted source), fits_here, F).
  assert (Hin : ∀ c, c ∈ named_children n → c ∈ children n) by (intros c Hc; by apply named_child_is_child in Hc as [? _]).
  induction (named_children n) as [|c cs IHc]; [constructor|]. inversion Hs as [|? ? Hs' Hc]; subst. cbn [flat_map].
  assert (Fc : ∀ d, d ∈ c :: cs → fits source d) by (intros d Hd; eapply fits_child; [done|by apply Hin]).
  apply StronglySorted_app_2.
  - intros a b Ha Hb. right. apply list_elem_of_In, in_flat_map in Hb as (d & Hd & Hb). rewrite <-list_elem_of_In in Hd, Hb.
    rewrite Forall_forall in Hc. pose proof (Hc d Hd).
    pose proof (within_span source c a (Fc c ltac:(by left)) (subtree_within _ _ Ha)).
    pose proof (within_span source d b (Fc d ltac:(by right)) (subtree_within _ _ Hb)). lia.
  - apply IH; [apply Hin; by left|apply Fc; by left].
  - apply IHc; [done|]. intros d Hd. apply Hin. by right.
Qed.
(** Nothing is missing where there is no error. *)
Lemma nothing_missing source n m : fits source n → has_error n || is_missing n = false → within n m → is_missing m = false.
Proof.
  intros F E H. induction H as [n|n c m Hc _ IH]; [by apply orb_false_iff in E as [_ ?]|]. apply IH; [by eapply fits_child|].
  apply not_true_is_false. intros Ht. pose proof (fits_error _ _ (fits_here _ _ F)) as [_ Hx]. rewrite Hx in E; [done|]. right. right. eauto.
Qed.

(** *** What is generated for a class *)

Section Generated.
Context (to_uppercase : string → string) (td : TypeDecl) (indent : string).
Definition method_names : list string := m_name <$> List.filter (λ m, match m_kind m with Method => true | _ => false end) (own_members td).
Definition missing_accessors (f : GenField) : list string :=
  (if bool_decide (getter_name to_uppercase f ∈ method_names) then [] else [getter_text to_uppercase indent f])
  ++ (if bool_decide (setter_name to_uppercase f ∈ method_names) then [] else [setter_text to_uppercase indent f]).
(** The members an action writes: none of a name the class has a method of,
    and a constructor only where there is none. *)
Inductive written : string → string → Prop :=
| written_accessors : (∃ f, f ∈ gen_fields td ∧ (getter_name to_uppercase f ∉ method_names ∨ setter_name to_uppercase f ∉ method_names)) →
    written "Generate getters and setters" (str_concat (flat_map missing_accessors (gen_fields td)))
| written_constructor : constructors td = [] →
    written "Generate constructor" (constructor_text indent (td_name td) (gen_fields td))
| written_equals : "equals" ∉ method_names → "hashCode" ∉ method_names →
    written "Generate equals() and hashCode()" (equals_text indent (td_name td) (gen_fields td))
| written_to_string : "toString" ∉ method_names →
    written "Generate toString()" (to_string_text indent (td_name td) (gen_fields td)).

Lemma accessor_lines_spec fields acc :
  fold_left (add_accessors to_uppercase indent method_names) fields acc = acc +:+ str_concat (flat_map missing_accessors fields).
Proof.
  revert acc. induction fields as [|f fields IH]; intros acc; cbn [fold_left flat_map]; [by rewrite str_app_nil_r|].
  rewrite IH, str_concat_app. rewrite <-str_app_assoc. f_equal. unfold add_accessors, missing_accessors.
  repeat case_bool_decide; cbn [str_concat foldr app]; by rewrite ?str_app_nil_r, ?str_app_assoc.
Qed.
Lemma accessor_lines_empty : str_concat (flat_map missing_accessors (gen_fields td)) = "" ↔
  ¬ ∃ f, f ∈ gen_fields td ∧ (getter_name to_uppercase f ∉ method_names ∨ setter_name to_uppercase f ∉ method_names).
Proof.
  induction (gen_fields td) as [|f fields IH]; cbn [flat_map].
  { split; [|done]. intros _ (f & Hf%elem_of_nil & _). done. }
  rewrite str_concat_app. assert (N : ∀ a b : string, a +:+ b = "" ↔ a = "" ∧ b = "") by (intros [|? ?] b; cbn; naive_solver).
  assert (G : ∀ x : string, indent +:+ "public " +:+ x ≠ "") by (intros x; rewrite N; intros [_ Hx]; done).
  assert (M : str_concat (missing_accessors f) = "" ↔ getter_name to_uppercase f ∈ method_names ∧ setter_name to_uppercase f ∈ method_names).
  { unfold missing_accessors. repeat case_bool_decide; cbn [str_concat foldr app]; rewrite ?N.
    - done.
    - split; [intros [Hx _]; by apply G in Hx|tauto].
    - split; [intros [Hx _]; by apply G in Hx|tauto].
    - split; [intros [Hx _]; by apply G in Hx|tauto]. }
  rewrite N, M, IH. setoid_rewrite elem_of_cons. split.
  - intros [[H1 H2] H] (g & [->|Hg] & Hor); [tauto|]. apply H. eauto.
  - intros H. split; [|intros (g & Hg & Hor); eauto].
    split; [destruct (decide (getter_name to_uppercase f ∈ method_names))|destruct (decide (setter_name to_uppercase f ∈ method_names))];
      try done; exfalso; apply H; eauto.
Qed.
Lemma accessor_lines_some : str_concat (flat_map missing_accessors (gen_fields td)) ≠ "" →
  ∃ f, f ∈ gen_fields td ∧ (getter_name to_uppercase f ∉ method_names ∨ setter_name to_uppercase f ∉ method_names).
Proof.
  rewrite accessor_lines_empty. rewrite <-Exists_exists. intros H.
  by destruct (decide (Exists (λ f, getter_name to_uppercase f ∉ method_names ∨ setter_name to_uppercase f ∉ method_names) (gen_fields td))).
Qed.
End Generated.

Section Facts.
Context (descendant : Tree → nat → nat → option Node) (doc : OpenDoc) (enc : PositionEncoding).
Let source := od_source doc.
Let root := root_node (od_tree doc).
Let ix := LineIndex.new source enc.

(** A document and the tree a parser made of it. *)
Record parsed : Prop := {
  parsed_str : is_str source;
  parsed_small : str_len source < 2 ^ 32;
  parsed_fits : fits source root;
  parsed_descendant s e n : descendant (od_tree doc) s e = Some n → within root n;
}.
Hypothesis Hdoc : parsed.

Lemma parsed_at n : within root n → fits_at source n.
Proof. apply (parsed_fits Hdoc). Qed.
Lemma parsed_text n : within root n → node_text n source = slice source (start_byte n) (end_byte n).
Proof. intros H. apply fits_text; [apply Hdoc|by apply parsed_at]. Qed.
Lemma place_boundaries n s : within root n → on_boundaries source (start_byte n, end_byte n, s).
Proof. intros H. destruct (parsed_at n H). done. Qed.

Lemma selected_node_spec s e n : selected_node descendant doc s e = Some n →
  within root n ∧ trimmed source s e = Some (start_byte n, end_byte n).
Proof.
  unfold selected_node. intros ([s' e'] & Et & (m & Em & H)%bind_Some)%bind_Some.
  destruct (bool_decide _ && bool_decide _) eqn:Eb; [|done]. injection H as ->.
  apply andb_true_iff in Eb as [<-%bool_decide_eq_true <-%bool_decide_eq_true]. split; [|done]. by eapply (parsed_descendant Hdoc).
Qed.
Lemma base_name_empty to_lowercase n : variable_name source to_lowercase n ≠ "".
Proof. unfold variable_name. case_bool_decide as E; [done|]. cbn [orb]. by case_bool_decide. Qed.
Lemma offered {A B} (o : option A) (f : A → Tried B) b : (offer o ≫= f) = Ok b → ∃ a, o = Some a ∧ f a = Ok b.
Proof. destruct o; [by eexists|done]. Qed.
Lemma not_declined {B} (c : bool) (f : unit → Tried B) b : (decline_if c ≫= f) = Ok b → c = false ∧ f tt = Ok b.
Proof. by destruct c. Qed.

(** Two cuts, an insertion before a replacement. *)
Lemma insert_replace at_ lo hi s1 s2 : (at_ ≤ lo ≤ hi)%nat → (hi ≤ String.length source)%nat →
  is_char_boundary at_ source = true → is_char_boundary lo source = true → is_char_boundary hi source = true →
  client_applies enc source [edit_at ix (at_, at_, s1); edit_at ix (lo, hi, s2)]
    (slice source 0 at_ +:+ s1 +:+ slice source at_ lo +:+ s2 +:+ str_drop hi source).
Proof.
  intros H Hh B1 B2 B3. apply (edits_apply enc source [(at_, at_, s1); (lo, hi, s2)]); [apply Hdoc..| |cbn; lia].
  by repeat constructor.
Qed.

(** C40: When extracting a variable is offered, the selection, less the white
    space around it, is an expression, and the edits change the text in two
    places: before the statement of the nearest block around the expression a
    declaration of a new variable with the expression's text is put on a line
    of its own, with the statement's indentation, and the variable's name is
    put in the place of the expression.  No word of the enclosing method is the
    name, or every spelling of it is one.  It says what becomes of the text,
    not that it means the same ([parameter_left_behind],
    [condition_hoisted]). *)
Theorem extract_variable_exact to_lowercase s e a : extract_variable to_lowercase descendant doc ix s e = Ok a →
  ∃ n statement block callable indent name pre post,
    trimmed source s e = Some (start_byte n, end_byte n) ∧ kind n ∈ EXTRACTABLE
    ∧ ancestors n = pre ++ block :: post ∧ (∀ x, x ∈ pre → kind x ∉ body_kinds) ∧ kind block ∈ body_kinds
    ∧ statement = default n (last pre) ∧ line_indent source (start_byte statement) = Some indent
    ∧ callable ∈ ancestors n ∧ kind callable ∈ callable_kinds
    ∧ let around declaration expression :=
        slice source 0 (start_byte statement) +:+ declaration +:+ slice source (start_byte statement) (start_byte n)
        +:+ expression +:+ str_drop (end_byte n) source in
      source = around "" (node_text n source)
      ∧ client_applies enc source (as_edits a)
          (around ("var " +:+ name +:+ " = " +:+ node_text n source +:+ ";" +:+ newline +:+ indent) name)
      ∧ (¬ occurs (node_text callable source) name
         ∨ ∀ x, x ∈ spellings (variable_name source to_lowercase n) → occurs (node_text callable source) x).
Proof.
  unfold extract_variable. fold source. intros (n & Hn & H)%offered. apply not_declined in H as [Hx H].
  apply offered in H as ([st indent] & Hst & H). apply offered in H as (scope & Hscope & H). apply res_bind_ok in H as (name & Hname & H).
  apply negb_false_iff, bool_decide_eq_true in Hx. apply bind_Some in Hscope as (m & [Hm Hmk%bool_decide_eq_true]%find_elem & [= <-]).
  injection H as <-. destruct (selected_node_spec _ _ _ Hn) as [Hw Ht].
  unfold enclosing_statement in Hst. apply bind_Some in Hst as (cur & Hcur & (ind & Hind & [= -> ->])%bind_Some).
  destruct (statement_above_spec _ _ Hcur) as (Hs & block & Hp & Hk).
  assert (Hsn : within st n) by (destruct Hs as [->|Hs]; [constructor|by eapply ancestor_holds]).
  assert (Hws : within root st) by (destruct Hs as [->|Hs]; [done|by eapply ancestor_within]).
  pose proof (parsed_at n Hw) as Fn. pose proof (parsed_at st Hws) as Fs.
  destruct (within_span source st n (fits_within _ _ _ (parsed_fits Hdoc) Hws) Hsn) as [Hlo _].
  pose proof (fits_span _ _ Fn). pose proof (fits_span _ _ Fs).
  destruct (statement_above_nearest _ _ _ Hcur Hp) as (pre & post & Epre & Hno & Est).
  exists n, st, block, m, indent, name, pre, post. split_and!; try done; cbv zeta.
  - rewrite (parsed_text n Hw). cbn [String.append]. rewrite (slice_rest source (start_byte n)), slice_rest by lia. by rewrite slice_zero, str_take_drop.
  - apply insert_replace; [lia|lia|apply Fs|apply Fn|apply Fn].
  - apply unique_in_spec; [apply base_name_empty|done].
Qed.

Lemma replace_insert lo hi at_ s1 s2 : (lo ≤ hi ≤ at_)%nat → (at_ ≤ String.length source)%nat →
  is_char_boundary lo source = true → is_char_boundary hi source = true → is_char_boundary at_ source = true →
  client_applies enc source [edit_at ix (lo, hi, s1); edit_at ix (at_, at_, s2)]
    (slice source 0 lo +:+ s1 +:+ slice source hi at_ +:+ s2 +:+ str_drop at_ source).
Proof.
  intros H Hh B1 B2 B3. apply (edits_apply enc source [(lo, hi, s1); (at_, at_, s2)]); [apply Hdoc..| |cbn; lia].
  by repeat constructor.
Qed.
Lemma head_elem {A} (l : list A) x : head l = Some x → x ∈ l.
Proof. destruct l; [done|]. intros [= ->]. by left. Qed.
Lemma selected_statements_spec s e ss first last_ : selected_statements descendant doc s e = Some ss →
  head ss = Some first → last ss = Some last_ →
  trimmed source s e = Some (start_byte first, end_byte last_)
  ∧ ∃ block, kind block ∈ body_kinds ∧ ∀ x, x ∈ ss → within root x ∧ parent x = Some block
      ∧ (start_byte first ≤ start_byte x ∧ end_byte x ≤ end_byte last_)%nat.
Proof.
  unfold selected_statements. intros ([s' e'] & Et & (cover & Hc & H)%bind_Some)%bind_Some Hf Hl. fold source in Et. rewrite Et.
  pose proof (parsed_descendant Hdoc _ _ _ Hc) as Hw. case_bool_decide as Hk.
  - destruct (_ && _) eqn:E in H; [|done]. injection H as E'. rewrite E', Hf, Hl in E.
    rewrite !andb_true_iff, !bool_decide_eq_true in E. destruct E as [[Es Ee] Hall]. split; [congruence|].
    exists cover. split; [done|]. intros x Hx. rewrite forallb_forall in Hall. specialize (Hall x).
    rewrite <-list_elem_of_In, andb_true_iff, !Nat.leb_le in Hall. specialize (Hall Hx).
    rewrite <-E', list_elem_of_In, List.filter_In, <-list_elem_of_In in Hx. destruct Hx as [[Hx _]%named_child_is_child _].
    split_and!; [eapply within_trans; [done|]; eapply within_child; [done|constructor]|by apply parent_child|lia|lia].
  - apply bind_Some in H as (st & Hst & H). destruct (bool_decide _ && bool_decide _) eqn:E; [|done]. injection H as <-.
    injection Hf as <-. injection Hl as <-. apply andb_true_iff in E as [<-%bool_decide_eq_true <-%bool_decide_eq_true]. split; [done|].
    destruct (statement_above_spec _ _ Hst) as (Hs & block & Hp & Hkb). exists block. split; [done|].
    intros x [->|Hx%elem_of_nil]%elem_of_cons; [|done]. split_and!; [|done|lia|lia].
    destruct Hs as [->|Hs]; [done|by eapply ancestor_within].
Qed.
Lemma trimmed_lt s e s' e' : trimmed source s e = Some (s', e') → (s' < e')%nat.
Proof.
  unfold trimmed. destruct (e <=? s)%nat; [done|]. intros (text & _ & H)%bind_Some.
  destruct (Nat.leb_spec (e - (String.length text - String.length (trim_end text))) (s + (String.length text - String.length (trim_start text)))); [done|].
  injection H as <- <-. lia.
Qed.
Lemma parent_within x p : within root x → parent x = Some p → within root p ∧ x ∈ children p.
Proof.
  intros Hx Hp. destruct (within_above root x Hx eq_refl) as [[Ha _]|(q & Hq & Hw & Hc)].
  - unfold parent in Hp. by rewrite Ha in Hp.
  - rewrite Hp in Hq. by injection Hq as <-.
Qed.

(** When extracting a method is offered, the edits replace exactly the
    selected statements by a call and put the method after the enclosing one.
    No statement jumps out of the selection, exactly the variables that the
    code finds visible and the statements use are passed, none that they write
    is read further on in the text of the body, a local that is read there is
    what the method returns, and the method's name is new in the class or every
    spelling is taken. *)
Theorem extract_method_sound s e a : extract_method descendant doc ix s e = Ok a →
  ∃ statements first last_ block callable body class inputs output name stmt_indent,
    selected_statements descendant doc s e = Some statements ∧ head statements = Some first ∧ last statements = Some last_
    ∧ trimmed source s e = Some (start_byte first, end_byte last_)
    ∧ (∀ x, x ∈ statements → parent x = Some block) ∧ enclosing_callable block = Some callable
    ∧ child_by_field_name "body" callable = Some body ∧ child_by_field_name "type_parameters" callable = None
    ∧ extraction source (visible_locals source callable block (start_byte first)) body (end_byte last_) statements inputs output
    ∧ enclosing_class callable = Some class
    ∧ (¬ occurs (node_text class source) name ∨ ∀ x, x ∈ spellings "extracted" → occurs (node_text class source) x)
    ∧ line_indent source (start_byte first) = Some stmt_indent
    ∧ let around selection method :=
        slice source 0 (start_byte first) +:+ selection +:+ slice source (end_byte last_) (end_byte callable)
        +:+ method +:+ str_drop (end_byte callable) source in
      let selection := slice source (start_byte first) (end_byte last_) in
      let indent := line_indent_lenient source (start_byte callable) in
      source = around selection ""
      ∧ client_applies enc source (as_edits a)
          (around (call_text name (str_join ", " (vl_name <$> inputs)) output)
             (method_text indent name (has_modifier callable source "static") output inputs (throws_text source callable)
                (body_lines (indent +:+ "    ") stmt_indent selection output))).
Proof.
  unfold extract_method. fold source. intros (ss & Hss & H)%offered. apply offered in H as (first & Hf & H).
  apply offered in H as (last_ & Hl & H). apply offered in H as (block & Hb & H). apply offered in H as (callable & Hc & H).
  apply offered in H as (body & Hbody & H). apply not_declined in H as [He H]. apply not_declined in H as [[Hst Htp]%orb_false_iff H].
  apply offered in H as (stmt_indent & Hi & H).
  destruct (inputs_of source (visible_locals source callable block (start_byte first)) ss) as [inputs flag] eqn:Ein.
  apply not_declined in H as [Hflag H]. apply not_declined in H as [Href H]. apply not_declined in H as [Hout H].
  apply offered in H as (class & Hclass & H). apply res_bind_ok in H as (name & Hname & H). apply offered in H as (sel & Hsel & H).
  injection H as <-. destruct (selected_statements_spec _ _ _ _ _ Hss Hf Hl) as (Ht & block' & Hkb & Hall).
  destruct (Hall first (head_elem _ _ Hf)) as (Hwf & Hpf & _). rewrite Hb in Hpf. injection Hpf as <-.
  destruct (Hall last_) as (Hwl & Hpl & _); [by apply last_Some_elem_of|].
  destruct (parent_within _ _ Hwl Hpl) as [Hwb Hcl]. destruct (callable_above_spec _ _ Hc) as [Hca _].
  pose proof (ancestor_within _ _ _ Hwb eq_refl Hca) as Hwc. pose proof (ancestor_holds _ _ _ Hwb eq_refl Hca) as Hcb.
  destruct (within_span source callable last_ (fits_within _ _ _ (parsed_fits Hdoc) Hwc)) as [_ Hend].
  { eapply within_trans; [done|]. eapply within_child; [done|constructor]. }
  pose proof (trimmed_lt _ _ _ _ Ht). pose proof (parsed_at _ Hwf) as Ff. pose proof (parsed_at _ Hwl) as Fl. pose proof (parsed_at _ Hwc) as Fc.
  pose proof (fits_span _ _ Fc).
  unfold get_text in Hsel. destruct (_ && _ && _ && _) in Hsel; [|done]. injection Hsel as <-.
  apply bool_decide_eq_false in Htp. rewrite <-eq_None_not_Some in Htp.
  exists ss, first, last_, block, callable, body, class, inputs, (head (outputs_of source body (end_byte last_) ss)), name, stmt_indent.
  split_and!; try done; cbv zeta.
  - intros x Hx. by destruct (Hall x Hx) as (_ & ? & _).
  - by eapply extraction_sound.
  - by apply unique_in_spec.
  - cbn [String.append]. rewrite (slice_rest source (end_byte last_)), (slice_rest source (start_byte first)), slice_rest by lia. done.
  - apply replace_insert; [lia|lia|apply Ff|apply Fl|apply Fc].
Qed.

(** Identifiers and what recovery inserts are tokens, and a token does not
    begin with white space. *)
Record tokens : Prop := {
  token_leaf m : within root m → kind m = "identifier" ∨ is_missing m = true → children m = [];
  token_start m : within root m → kind m = "identifier" → is_missing m = false →
    starts_with_white_space (str_drop (start_byte m) source) = false;
}.

Lemma line_start_boundary n indent : within root n → line_indent source (start_byte n) = Some indent →
  let ls := last_line_start (str_take (start_byte n) source) in
  (ls ≤ start_byte n)%nat ∧ is_char_boundary ls source = true ∧ indent = slice source ls (start_byte n)
  ∧ all_ascii is_blank indent = true ∧ String.length indent = (start_byte n - ls)%nat.
Proof.
  intros Hw H ls. unfold line_indent in H. fold ls in H. destruct (all_ascii is_blank _) eqn:Eb; [|done]. injection H as <-.
  pose proof (fits_span _ _ (parsed_at n Hw)) as Hsp.
  assert (Hls : (ls ≤ start_byte n)%nat ∧ is_char_boundary ls source = true).
  { subst ls. unfold last_line_start. pose proof (str_take_len (start_byte n) source ltac:(lia)) as Hl.
    destruct (rsplit_once _ _) as [[h l]|] eqn:E; [|split; [lia|apply boundary_ends]].
    apply rsplit_once_Some in E as [E _]. rewrite E, str_length_app in Hl. cbn in Hl. split; [lia|].
    apply after_ascii_boundary; [apply Hdoc|lia|]. rewrite <-(str_take_drop (start_byte n) source), E, str_app_assoc, as_bytes_app.
    replace (String.length h) with (length (as_bytes h) + 0)%nat by (rewrite length_as_bytes; lia). rewrite byte_at_app_r. done. }
  split_and!; [apply Hls|apply Hls|done|done|]. unfold slice. rewrite str_take_len; [done|]. rewrite str_drop_len. lia.
Qed.
(** What goes with a declaration: blanks. *)
Lemma deletion_spec d lo hi : within root d → deletion doc d = (lo, hi) →
  (lo ≤ start_byte d)%nat ∧ (end_byte d ≤ hi ≤ String.length source)%nat ∧ is_char_boundary lo source = true ∧ is_char_boundary hi source = true
  ∧ all_ascii is_blank (slice source lo (start_byte d)) = true
  ∧ ∀ k, (end_byte d ≤ k < hi)%nat → is_char_boundary k source = true → starts_with_white_space (str_drop k source) = true.
Proof.
  intros Hw Hd. pose proof (parsed_at d Hw) as F. pose proof (fits_span _ _ F) as Hsp.
  assert (Plain : (start_byte d, end_byte d) = (lo, hi) → (lo ≤ start_byte d)%nat ∧ (end_byte d ≤ hi ≤ String.length source)%nat
    ∧ is_char_boundary lo source = true ∧ is_char_boundary hi source = true ∧ all_ascii is_blank (slice source lo (start_byte d)) = true
    ∧ ∀ k, (end_byte d ≤ k < hi)%nat → is_char_boundary k source = true → starts_with_white_space (str_drop k source) = true).
  { intros [= <- <-]. split_and!; try (intros; lia); [apply F|apply F|]. unfold slice. by rewrite Nat.sub_diag. }
  unfold deletion in Hd. fold source in Hd. destruct (line_indent source (start_byte d)) as [indent|] eqn:Ei; [|by apply Plain].
  destruct (split_once _ _) as [[rest tail]|] eqn:Es; [|by apply Plain]. case_bool_decide as Er; [|by apply Plain]. clear Plain.
  destruct (line_start_boundary d indent Hw Ei) as (H1 & H2 & -> & H4 & H5). injection Hd as <- <-. rewrite H5.
  set (ls := last_line_start _) in *. replace (start_byte d - (start_byte d - ls))%nat with ls by lia.
  assert (Et : str_drop (end_byte d) source = rest +:+ newline +:+ tail) by (rewrite (split_once_join _ _ _ _ Es); done).
  assert (El : (end_byte d + String.length rest + 1 ≤ String.length source)%nat).
  { pose proof (str_drop_len (end_byte d) source) as L. rewrite Et, !str_length_app in L. cbn in L. lia. }
  destruct (boundary_cut source (end_byte d) (parsed_str Hdoc) (fits_end _ _ F)) as (a & b & Eab & Ea & Ha & Hb).
  assert (b = rest +:+ newline +:+ tail) as -> by (rewrite <-Et, Eab, <-Ea; by rewrite str_drop_length).
  destruct (blank_text rest Er) as (l & Hl & ->).
  assert (Hx : ∀ k, (end_byte d ≤ k)%nat → str_drop k source = str_drop (k - end_byte d) (str_concat l +:+ newline +:+ tail)
     ∧ (is_char_boundary k source = true → is_char_boundary (k - end_byte d) (str_concat l +:+ newline +:+ tail) = true)).
  { intros k Hk. split; [rewrite <-Et, str_drop_drop; f_equal; lia|]. rewrite Eab, <-Ea. intros Bk.
    replace k with (String.length a + (k - String.length a))%nat in Bk by lia. by rewrite LineIndex.boundary_app_shift in Bk. }
  split_and!; try done; [lia| |].
  - replace (end_byte d + String.length (str_concat l) + 1)%nat with (S (end_byte d + String.length (str_concat l))) by lia.
    apply after_ascii_boundary; [apply Hdoc|lia|]. rewrite Eab, <-Ea, <-str_length_app, <-str_app_assoc, as_bytes_app.
    replace (String.length (a +:+ _)) with (length (as_bytes (a +:+ str_concat l)) + 0)%nat by (rewrite length_as_bytes; lia). by rewrite byte_at_app_r.
  - intros k Hk Bk. destruct (Hx k ltac:(lia)) as [-> Hb']. apply blank_run; [done|done|lia|by apply Hb'].
Qed.

Lemma usages_spec scope declaration name u : u ∈ usages_of doc scope declaration name ↔
  u ∈ subtree scope ∧ kind u = "identifier" ∧ node_text u source = name ∧ (end_byte declaration ≤ start_byte u)%nat ∧ is_variable_use u = true.
Proof.
  unfold usages_of. fold source. rewrite (list_elem_of_In _ u), List.filter_In, (list_elem_of_In (subtree scope) u).
  unfold is_read, is_name. rewrite !andb_true_iff, !bool_decide_eq_true, Nat.leb_le. tauto.
Qed.
Lemma scope_above_spec c s : scope_above c (ancestors c) = Some s → (s = c ∨ s ∈ ancestors c) ∧ kind s ∈ body_kinds.
Proof.
  destruct c as [t up]. unfold ancestors. cbn [above]. revert t. induction up as [|u up IH]; intros t; [done|].
  cbn [ancestors_from scope_above]. case_bool_decide as Hk.
  - case_bool_decide; [|done]. intros [= <-]. split; [by left|done].
  - intros H. destruct (IH u H) as [[->|Hin] Hp]; (split; [right|done]); [by left|by right].
Qed.
(** The uses of a name in a scope without errors, as places to cut. *)
Lemma usage_cuts scope declaration name text lo hi : tokens → within root scope → within root declaration →
  deletion doc declaration = (lo, hi) → has_error scope || is_missing scope = false →
  let cuts := (λ u, (start_byte u, end_byte u, text)) <$> usages_of doc scope declaration name in
  Forall (on_boundaries source) cuts ∧ apart (String.length source) hi cuts.
Proof.
  intros Htok Hw Hwd Hdel Herr cuts. destruct (deletion_spec _ _ _ Hwd Hdel) as (H1 & H2 & H3 & H4 & _ & H6).
  pose proof (fits_within _ _ _ (parsed_fits Hdoc) Hw) as Fs.
  assert (Hroot : ∀ u, u ∈ usages_of doc scope declaration name → within root u).
  { intros u [Hu _]%usages_spec. apply (within_trans _ scope); [done|by apply subtree_within]. }
  assert (Hstart : ∀ u, u ∈ usages_of doc scope declaration name → (hi ≤ start_byte u ≤ end_byte u ∧ end_byte u ≤ String.length source)%nat).
  { intros u Hu. pose proof (Hroot u Hu) as Hwu. pose proof (parsed_at u Hwu) as Fu. pose proof (fits_span _ _ Fu).
    apply usages_spec in Hu as (Hsub & Hk & _ & Hafter & _). split_and!; [|lia|lia].
    destruct (decide (start_byte u < hi)%nat) as [Hlt|]; [|lia]. exfalso.
    pose proof (token_start Htok u Hwu Hk (nothing_missing _ _ _ Fs Herr (subtree_within _ _ Hsub))) as Hn.
    rewrite H6 in Hn; [done|lia|apply Fu]. }
  split.
  - apply Forall_forall. intros c (u & -> & Hu)%list_elem_of_fmap. by apply place_boundaries, Hroot.
  - apply apart_cuts; [lia|..].
    + intros c (u & -> & Hu)%list_elem_of_fmap. by apply Hstart.
    + pose proof (sorted_filter _ (is_read source name (end_byte declaration)) _ (subtree_sorted source scope Fs)) as Hs.
      fold (usages_of doc scope declaration name) in Hs. subst cuts. clear Hstart.
      assert (Hleaf : ∀ u, u ∈ usages_of doc scope declaration name → below u = []).
      { intros u Hu. pose proof (Hroot u Hu) as Hwu. apply usages_spec in Hu as (_ & Hk & _). unfold below, named_children.
        by rewrite (token_leaf Htok u Hwu (or_introl Hk)). }
      clear Hroot. unfold usages_of in *. fold source in Hs. fold source. fold source in Hleaf.
      induction Hs as [|u us Hs IH Hu]; [constructor|]. rewrite fmap_cons. constructor.
      * apply IH. intros v Hv. apply Hleaf. by right.
      * apply Forall_forall. intros c (v & -> & Hv)%list_elem_of_fmap. rewrite Forall_forall in Hu. cbn.
        destruct (Hu v Hv) as [Hb|Hb]; [|done]. rewrite Hleaf in Hb by (by left). by apply elem_of_nil in Hb.
Qed.

(** Inlining a variable removes its declaration, with blanks around it, and
    puts the initializer in the place of every use after it; nothing in the
    scope writes the variable, and an initializer with a call is not
    repeated. *)
Theorem inline_variable_exact s e a : tokens → inline_variable descendant doc ix s e = Ok a →
  ∃ n declarator declaration value scope lo hi,
    kind n = "identifier" ∧ parent n = Some declarator ∧ kind declarator = "variable_declarator"
    ∧ child_by_field_name "value" declarator = Some value ∧ parent declarator = Some declaration
    ∧ kind declaration = "local_variable_declaration" ∧ local_scope declaration = Some scope
    ∧ has_error scope = false ∧ (∀ m, m ∈ subtree scope → kind m ≠ "class_body" ∧ writes source (node_text n source) m = false)
    ∧ let usages := usages_of doc scope declaration (node_text n source) in
      usages ≠ []
      ∧ (∀ u, u ∈ usages ↔ u ∈ subtree scope ∧ kind u = "identifier" ∧ node_text u source = node_text n source
           ∧ (end_byte declaration ≤ start_byte u)%nat ∧ is_variable_use u = true)
      ∧ ((1 < length usages)%nat → ∀ m, m ∈ subtree value → kind m ∉ ["method_invocation"; "object_creation_expression"])
      ∧ (lo ≤ start_byte declaration)%nat ∧ (end_byte declaration ≤ hi)%nat
      ∧ all_ascii is_blank (slice source lo (start_byte declaration)) = true
      ∧ (∀ k, (end_byte declaration ≤ k < hi)%nat → is_char_boundary k source = true → starts_with_white_space (str_drop k source) = true)
      ∧ let cuts := (lo, hi, "") :: ((λ u, (start_byte u, end_byte u, replacement_text doc value)) <$> usages) in
        apart (String.length source) 0 cuts ∧ client_applies enc source (as_edits a) (splice source 0 cuts).
Proof.
  intros Htok. unfold inline_variable. fold source. intros (n & Hn & H)%offered. apply not_declined in H as [Hk H].
  apply offered in H as (declarator & Hp & H). apply not_declined in H as [[Hkd _]%orb_false_iff H].
  apply offered in H as (value & Hv & H). apply offered in H as (declaration & Hpd & H). apply not_declined in H as [Hkl H].
  apply not_declined in H as [_ H]. apply offered in H as (scope & Hscope & H). apply not_declined in H as [[Herr Hcls]%orb_false_iff H].
  apply not_declined in H as [Hwr H]. apply not_declined in H as [Hne H]. apply not_declined in H as [Heff H].
  destruct (deletion doc declaration) as [lo hi] eqn:Hdel. injection H as <-.
  apply negb_false_iff, bool_decide_eq_true in Hk, Hkd, Hkl. apply bool_decide_eq_false in Hne.
  pose proof (parsed_descendant Hdoc _ _ _ Hn) as Hwn. destruct (parent_within _ _ Hwn Hp) as [Hwp _].
  destruct (parent_within _ _ Hwp Hpd) as [Hwd _]. destruct (scope_above_spec _ _ Hscope) as [Hsd Hks].
  assert (Hws : within root scope) by (destruct Hsd as [->|?]; [done|by eapply ancestor_within]).
  assert (Hms : is_missing scope = false).
  { apply not_true_is_false. intros Hm. pose proof (token_leaf Htok scope Hws (or_intror Hm)) as Hc.
    destruct Hsd as [->|Hsd]; [rewrite Hkl in Hks; unfold body_kinds in Hks; set_solver|].
    pose proof (ancestor_holds _ _ _ Hwd eq_refl Hsd) as Hin. inversion Hin as [|c m Hcm _ E]; subst; [rewrite Hkl in Hks; unfold body_kinds in Hks; set_solver|].
    by rewrite Hc in Hcm; apply elem_of_nil in Hcm. }
  destruct (deletion_spec _ _ _ Hwd Hdel) as (H1 & H2 & H3 & H4 & H5 & H6).
  destruct (usage_cuts scope declaration (node_text n source) (replacement_text doc value) lo hi) as [Hbs Hap]; [done..|by rewrite Herr, Hms|].
  pose proof (fits_span _ _ (parsed_at _ Hwd)).
  exists n, declarator, declaration, value, scope, lo, hi. split_and!; try done; try apply usages_spec; try apply H2; cbv zeta.
  - intros m Hm. split; [|by apply (existsb_false _ _ Hwr)]. pose proof (existsb_false _ _ Hcls m Hm) as Hx.
    by apply bool_decide_eq_false in Hx.
  - intros Hlen m Hm. apply andb_false_iff in Heff as [Heff|Heff]; [apply Nat.ltb_ge in Heff; lia|].
    pose proof (existsb_false _ _ Heff m Hm) as Hx. by apply bool_decide_eq_false in Hx.
  - cbn [apart]. split; [lia|done].
  - pose proof (edits_apply enc source ((lo, hi, "") :: ((λ u, (start_byte u, end_byte u, replacement_text doc value)) <$> usages_of doc scope declaration (node_text n source)))
      (parsed_str Hdoc) (parsed_small Hdoc)) as Happ. rewrite fmap_cons, <-list_fmap_compose in Happ. apply Happ.
    + by constructor.
    + cbn [apart]. split; [lia|done].
Qed.

(** A class body that its closing brace ends. *)
Definition closed (body : Node) : Prop := (1 ≤ end_byte body)%nat ∧ ∃ rest, str_drop (end_byte body - 1) source = "}" +:+ rest.
Lemma closed_boundary body : within root body → closed body → is_char_boundary (end_byte body - 1) source = true.
Proof.
  intros Hw [H1 [rest Hr]]. pose proof (fits_span _ _ (parsed_at _ Hw)). unfold is_char_boundary.
  assert (Nat.ltb (end_byte body - 1) (String.length source) = true) as -> by (apply Nat.ltb_lt; lia).
  rewrite <-(str_take_drop (end_byte body - 1) source), as_bytes_app, Hr.
  replace (byte_at _ (end_byte body - 1)) with (byte_at (as_bytes ("}" +:+ rest)) 0); [by rewrite !orb_true_r|].
  rewrite <-(byte_at_app_r (as_bytes (str_take (end_byte body - 1) source))). f_equal. rewrite length_as_bytes, str_take_len by lia. lia.
Qed.

(** What is generated, before the closing brace, is exactly what the class
    has not. *)
Theorem generate_actions_exact to_uppercase at_ n class td body : descendant (od_tree doc) at_ at_ = Some n → enclosing_class n = Some class →
  from_node class source 0 None = Some td → td_kind td = Class_ → class_body td = Some body → gen_fields td ≠ [] → closed body →
  let indent := member_indent source td body in
  let class_indent := line_indent_lenient source (start_byte class) in
  let around members := slice source 0 (end_byte body - 1) +:+ newline +:+ members +:+ class_indent +:+ str_drop (end_byte body - 1) source in
  ∀ title t',
    (∃ a, a ∈ generate_actions to_uppercase descendant doc ix at_ ∧ as_title a = title ∧ client_applies enc source (as_edits a) t')
    ↔ ∃ members, written to_uppercase td indent title members ∧ t' = around members.
Proof.
  intros Hn Hc Ht Hk Hb Hf Hcl indent class_indent around title t'.
  pose proof (parsed_descendant Hdoc _ _ _ Hn) as Hwn. destruct (from_node_fields _ _ _ _ _ Ht) as (Hnode & _ & _).
  assert (Hwc : within root class).
  { apply find_elem in Hc as [[->|Hc]%elem_of_cons _]; [done|]. by eapply ancestor_within. }
  assert (Hwb : within root body).
  { unfold class_body in Hb. rewrite Hnode in Hb. apply child_of_kind_child in Hb as [Hb _]. eapply within_trans; [done|].
    eapply within_child; [done|constructor]. }
  pose proof (fits_span _ _ (parsed_at _ Hwb)) as Hsp.
  assert (Happ : ∀ members, client_applies enc source (insert_members ix (end_byte body - 1) class_indent members) (around members)).
  { intros members. pose proof (edits_apply enc source [((end_byte body - 1)%nat, (end_byte body - 1)%nat, newline +:+ members +:+ class_indent)]
      (parsed_str Hdoc) (parsed_small Hdoc)) as Ha. cbn [splice] in Ha. rewrite !str_app_assoc in Ha. apply Ha.
    - repeat constructor; by apply closed_boundary.
    - cbn. lia. }
  assert (Eq : generate_actions to_uppercase descendant doc ix at_ =
    let action title members := mkActionSketch title KIND_SOURCE_GENERATE (insert_members ix (end_byte body - 1) class_indent members) false in
    let lines := str_concat (flat_map (missing_accessors to_uppercase td indent) (gen_fields td)) in
    (if negb (bool_decide (lines = "")) then [action "Generate getters and setters" lines] else [])
    ++ (if bool_decide (constructors td = []) then [action "Generate constructor" (constructor_text indent (td_name td) (gen_fields td))] else [])
    ++ (if negb (bool_decide ("equals" ∈ method_names td)) && negb (bool_decide ("hashCode" ∈ method_names td))
        then [action "Generate equals() and hashCode()" (equals_text indent (td_name td) (gen_fields td))] else [])
    ++ (if negb (bool_decide ("toString" ∈ method_names td))
        then [action "Generate toString()" (to_string_text indent (td_name td) (gen_fields td))] else [])).
  { unfold generate_actions. fold source. rewrite Hn. cbn [mbind option_bind]. rewrite Hc. cbn [mbind option_bind]. rewrite Ht, Hk.
    rewrite bool_decide_eq_true_2 by done. cbn [negb]. unfold member_insertion. rewrite Hb. cbn [mbind option_bind].
    destruct Hcl as [Hone _]. destruct (Nat.leb_spec 1 (end_byte body)); [|lia]. rewrite Hnode.
    destruct (gen_fields td) as [|f0 fs0] eqn:Eg; [done|]. rewrite <-Eg. fold (method_names td). fold indent. fold class_indent.
    rewrite (accessor_lines_spec to_uppercase td indent (gen_fields td) ""). cbn [String.append]. destruct (bool_decide (str_concat _ = "")); done. }
  rewrite Eq. cbv zeta. clear Eq. set (act := λ title members, mkActionSketch title KIND_SOURCE_GENERATE
    (insert_members ix (end_byte body - 1) class_indent members) false).
  assert (In : ∀ (b : bool) ti members, (∃ a, a ∈ (if b then [act ti members] else []) ∧ as_title a = title ∧ client_applies enc source (as_edits a) t')
    ↔ b = true ∧ title = ti ∧ t' = around members).
  { intros [|] ti members; [|split; [by intros (a & Ha%elem_of_nil & _)|by intros [? _]]]. split.
    - intros (a & [->|Ha%elem_of_nil]%elem_of_cons & <- & Hc'); [|done]. split_and!; [done..|]. eapply client_applies_unique; [exact Hc'|apply Happ].
    - intros (_ & -> & ->). exists (act ti members). split_and!; [by left|done|apply Happ]. }
  setoid_rewrite elem_of_app. setoid_rewrite elem_of_app. setoid_rewrite elem_of_app. split.
  - intros (a & Ha & Hti & Hc'). destruct Ha as [Ha|[Ha|[Ha|Ha]]].
    all: epose proof (proj1 (In _ _ _) (ex_intro (λ a, a ∈ _ ∧ as_title a = title ∧ client_applies enc source (as_edits a) t') a (conj Ha (conj Hti Hc')))) as W; destruct W as (Hb' & -> & ->); eexists; (split; [|done]).
    + by apply written_accessors, (accessor_lines_some to_uppercase td indent); apply negb_true_iff, bool_decide_eq_false in Hb'.
    + apply written_constructor. by apply bool_decide_eq_true in Hb'.
    + apply andb_true_iff in Hb' as [H1%negb_true_iff%bool_decide_eq_false H2%negb_true_iff%bool_decide_eq_false]. by apply written_equals.
    + by apply negb_true_iff, bool_decide_eq_false in Hb'; apply written_to_string.
  - intros (members & Hm & ->). destruct Hm as [Hm|Hm|H1 H2|Hm].
    + eexists (act _ _). split_and!; [left|done|apply Happ]. rewrite bool_decide_eq_false_2; [by left|]. rewrite accessor_lines_empty. tauto.
    + eexists (act _ _). split_and!; [right; left|done|apply Happ]. rewrite bool_decide_eq_true_2 by done. by left.
    + eexists (act _ _). split_and!; [right; right; left|done|apply Happ]. rewrite !bool_decide_eq_false_2 by done. by left.
    + eexists (act _ _). split_and!; [right; right; right|done|apply Happ]. rewrite bool_decide_eq_false_2 by done. by left.
Qed.

(** A constant goes before the other members, and the literal becomes its
    name. *)
Definition opened (body : Node) : Prop := ∃ rest, str_drop (start_byte body) source = "{" +:+ rest.
Theorem extract_constant_exact s e a : extract_constant descendant doc ix s e = Ok a →
  ∃ n ty class td body name,
    trimmed source s e = Some (start_byte n, end_byte n) ∧ literal_type (kind n) (node_text n source) = Some ty
    ∧ enclosing_class n = Some class ∧ from_node class source 0 None = Some td ∧ class_body td = Some body
    ∧ (¬ occurs (node_text class source) name ∨ ∀ x, x ∈ spellings (constant_name source n) → occurs (node_text class source) x)
    ∧ (opened body → (start_byte body < start_byte n)%nat →
       let top := S (start_byte body) in
       let around declaration expression :=
         slice source 0 top +:+ declaration +:+ slice source top (start_byte n) +:+ expression +:+ str_drop (end_byte n) source in
       source = around "" (node_text n source)
       ∧ client_applies enc source (as_edits a)
           (around (newline +:+ member_indent source td body +:+ "private static final " +:+ ty +:+ " " +:+ name +:+ " = "
              +:+ node_text n source +:+ ";" +:+ newline) name)).
Proof.
  unfold extract_constant. fold source. intros (n & Hn & H)%offered. apply offered in H as (ty & Hty & H).
  apply offered in H as (class & Hc & H). apply offered in H as (td & Htd & H). apply offered in H as ([[at_ indent] [before after]] & Hat & H).
  apply res_bind_ok in H as (name & Hname & H). injection H as <-. destruct (selected_node_spec _ _ _ Hn) as [Hw Ht].
  unfold member_insertion_at_top in Hat. apply bind_Some in Hat as (body & Hb & [= <- <- <- <-]).
  exists n, ty, class, td, body, name. split_and!; try done.
  - apply unique_in_spec; [|done]. unfold constant_name. case_bool_decide; [|done]. case_bool_decide; [done|]. by destruct (first_char _ _).
  - intros [rest Hr] Hlt. cbv zeta. pose proof (parsed_at n Hw) as Fn. pose proof (fits_span _ _ Fn). split.
    + rewrite (parsed_text n Hw). cbn [String.append]. rewrite (slice_rest source (start_byte n)), slice_rest by lia. by rewrite slice_zero, str_take_drop.
    + apply insert_replace; [lia|lia| |apply Fn|apply Fn]. apply after_ascii_boundary; [apply Hdoc|lia|].
      rewrite <-(str_take_drop (start_byte body) source), as_bytes_app, Hr.
      replace (byte_at _ (start_byte body)) with (byte_at (as_bytes ("{" +:+ rest)) 0); [done|].
      rewrite <-(byte_at_app_r (as_bytes (str_take (start_byte body) source))). f_equal. rewrite length_as_bytes, str_take_len by lia. lia.
Qed.

(** ** What can panic *)

Lemma node_text_str n : is_str (node_text n source).
Proof. unfold node_text. by destruct (utf8_valid (as_bytes (slice source (start_byte n) (end_byte n)))) eqn:E. Qed.
Lemma unique_in_runs base text : is_str text → ascii_start base → ∃ name, unique_in base text = Ok name.
Proof.
  intros Ht Hb. assert (Hn : ∀ k : Z, ascii_start (base +:+ pretty k)) by (destruct Hb as (c & r & -> & Hc); intros k; by exists c, (r +:+ pretty k)).
  unfold unique_in. destruct (contains_word_runs text base Ht Hb) as [b ->]. cbn [mbind Result_bind]. destruct b; [|by eexists].
  generalize 2%Z, 98%nat. intros k tries. revert k. induction tries as [|tries IH]; intros k; cbn [unique_from]; [by eexists|].
  destruct (contains_word_runs text _ Ht (Hn k)) as [b ->]. cbn [mbind Result_bind]. destruct b; [apply IH|by eexists].
Qed.
Lemma bind_panic {A B} (m : Tried A) (f : A → Tried B) : (m ≫= f) = Err Panicked → m = Err Panicked ∨ ∃ a, m = Ok a ∧ f a = Err Panicked.
Proof. destruct m; cbn; eauto. intros [= ->]. by left. Qed.
Lemma offer_panic {A B} (o : option A) (f : A → Tried B) : (offer o ≫= f) = Err Panicked → ∃ a, o = Some a ∧ f a = Err Panicked.
Proof. destruct o; cbn; [eauto|done]. Qed.
Lemma decline_panic {B} (c : bool) (f : unit → Tried B) : (decline_if c ≫= f) = Err Panicked → f tt = Err Panicked.
Proof. by destruct c. Qed.
Ltac no_panic H :=
  repeat first [apply offer_panic in H as (? & _ & H) | apply decline_panic in H].
Lemma constant_name_ascii n : ascii_start (constant_name source n).
Proof.
  unfold constant_name. case_bool_decide; [|by eexists _, _]. destruct (negb _ && _) eqn:E; [|by eexists _, _].
  apply andb_true_iff in E as [_ E]. unfold first_char in E. destruct (trim_end_char "_" _) as [|c r]; [done|]. exists c, r. split; [done|].
  cbn in E. unfold is_ascii_alphabetic, in_range in E. lia.
Qed.
Lemma constant_runs s e : extract_constant descendant doc ix s e ≠ Err Panicked.
Proof.
  intros H. unfold extract_constant in H. do 4 (apply offer_panic in H as (? & _ & H)).
  apply offer_panic in H as ([[at_ indent] [before after]] & _ & H). fold source in H.
  edestruct unique_in_runs as [name Hn]; [|apply constant_name_ascii|rewrite Hn in H; done]. apply node_text_str.
Qed.
Lemma method_runs s e : extract_method descendant doc ix s e ≠ Err Panicked.
Proof.
  intros H. unfold extract_method in H. no_panic H. destruct (inputs_of _ _ _) as [inputs flag]. no_panic H. fold source in H.
  edestruct (unique_in_runs "extracted") as [name Hn]; [|by eexists _, _|rewrite Hn in H; cbn in H; no_panic H; done]. apply node_text_str.
Qed.
Lemma inline_runs s e : inline_variable descendant doc ix s e ≠ Err Panicked.
Proof. intros H. unfold inline_variable in H. no_panic H. by destruct (deletion _ _). Qed.
(** The search for actions panics only over the name of a variable to
    extract, and only when that begins outside ASCII. *)
Lemma actions_run to_lowercase to_uppercase r : (∀ n, ascii_start (variable_name source to_lowercase n)) →
  ∃ actions, refactor_actions to_lowercase to_uppercase descendant doc ix r = Ok actions.
Proof.
  intros Hv. assert (V : ∀ s e, extract_variable to_lowercase descendant doc ix s e ≠ Err Panicked).
  { intros s e H. unfold extract_variable in H. no_panic H. destruct x0 as [st indent].
    apply offer_panic in H as (scope & Hs & H). fold source in H.
    destruct (unique_in_runs (variable_name source to_lowercase x) scope) as [name Hn]; [|apply Hv|by rewrite Hn in H].
    unfold enclosing_body_text in Hs. apply bind_Some in Hs as (m & _ & [= <-]). apply node_text_str. }
  assert (P : ∀ out t, t ≠ Err Panicked → ∃ out', push_offer out t = Ok out') by (intros out [a|[]] Ht; [by eexists|by eexists|done]).
  unfold refactor_actions. destruct (P [] _ (V (offset ix (r_start r)) (offset ix (r_end r)))) as [o1 ->]. cbn.
  destruct (P o1 _ (constant_runs (offset ix (r_start r)) (offset ix (r_end r)))) as [o2 ->]. cbn.
  destruct (P o2 _ (method_runs (offset ix (r_start r)) (offset ix (r_end r)))) as [o3 ->]. cbn.
  destruct (P o3 _ (inline_runs (offset ix (r_start r)) (offset ix (r_end r)))) as [o4 ->]. by eexists.
Qed.
End Facts.

(** ** Examples *)

Module Sample.
(** The innermost named node that holds an offset and the one after it. *)
Definition narrower (s e : nat) (rec : Node → Node) (n : Node) : Node :=
  match List.find (λ c, (start_byte c <=? s)%nat && (e <? end_byte c)%nat) (named_children n) with
  | Some c => rec c
  | None => n
  end.
Definition covering (t : Tree) (s e : nat) : option Node := Some (descend (root_node t) (narrower s e) (root_node t)).
Lemma covering_within t s e n : covering t s e = Some n → within (root_node t) n.
Proof.
  unfold covering. intros [= <-]. unfold descend. generalize (size (root_node t)) as k.
  assert (H : ∀ k m, within (root_node t) m → within (root_node t) (descend_fuel (root_node t) (narrower s e) k m)).
  2:{ intros k. apply H. constructor. }
  induction k as [|k IH]; intros m Hm; [constructor|]. cbn [descend_fuel]. unfold narrower at 1.
  destruct (List.find _ _) as [c|] eqn:E; [|done]. apply IH. apply find_elem in E as [[Hc _]%named_child_is_child _].
  eapply within_trans; [done|]. eapply within_child; [done|constructor].
Qed.
Definition lower_case (c : string) : string := if bool_decide (c = "É") then "é" else c.
Definition ix_of (doc : OpenDoc) : LineIndex := LineIndex.new (od_source doc) LineIndex.Utf16Units.
(** The place of a text, and the document after the edits of an answer. *)
Definition text_at (doc : OpenDoc) (text : string) : nat := default 0%nat (str_find text (od_source doc)).
Definition applied (doc : OpenDoc) (t : Tried ActionSketch) : option string :=
  match t with
  | Ok a => Some (splice (od_source doc) 0 (in_order ((λ d, (offset (ix_of doc) (r_start (te_range d)), offset (ix_of doc) (r_end (te_range d)), te_new_text d)) <$> as_edits a)))
  | Err _ => None
  end.
Definition on_text {A} (action : OpenDoc → LineIndex → nat → nat → A) (doc : OpenDoc) (text : string) : A :=
  action doc (ix_of doc) (text_at doc text) (text_at doc text + String.length text)%nat.
Definition variable : OpenDoc → string → Tried ActionSketch := on_text (extract_variable lower_case covering).
Definition constant : OpenDoc → string → Tried ActionSketch := on_text (extract_constant covering).
Definition method : OpenDoc → string → Tried ActionSketch := on_text (extract_method covering).
Definition inline (doc : OpenDoc) (text : string) : Tried ActionSketch :=
  inline_variable covering doc (ix_of doc) (text_at doc text) (text_at doc text).

Definition doc_main : OpenDoc := mkOpenDoc ("class C {" +:+ newline +:+ "  int a;" +:+ newline +:+ "  int m(int p) {" +:+ newline +:+ "    int x = p + 1;" +:+ newline +:+ "    h(x);" +:+ newline +:+ "    return x;" +:+ newline +:+ "  }" +:+ newline +:+ "}" +:+ newline) (
    node 1 "program" 0 84 [node 2 "class_declaration" 0 84 [token 3 "class" 0 5; field "name" (node 4 "identifier" 6
    7 []); field "body" (node 5 "class_body" 8 84 [token 6 "{" 8 9; node 7 "field_declaration" 12 18 [field "type"
    (node 8 "integral_type" 12 15 []); field "declarator" (node 9 "variable_declarator" 16 17 [field "name" (node 10
    "identifier" 16 17 [])]); token 11 ";" 17 18]; node 12 "method_declaration" 21 82 [field "type" (node 13
    "integral_type" 21 24 []); field "name" (node 14 "identifier" 25 26 []); field "parameters" (node 15
    "formal_parameters" 26 33 [token 16 "(" 26 27; node 17 "formal_parameter" 27 32 [field "type" (node 18
    "integral_type" 27 30 []); field "name" (node 19 "identifier" 31 32 [])]; token 20 ")" 32 33]); field "body"
    (node 21 "block" 34 82 [token 22 "{" 34 35; node 23 "local_variable_declaration" 40 54 [field "type" (node 24
    "integral_type" 40 43 []); field "declarator" (node 25 "variable_declarator" 44 53 [field "name" (node 26
    "identifier" 44 45 []); token 27 "=" 46 47; field "value" (node 28 "binary_expression" 48 53 [field "left" (node
    29 "identifier" 48 49 []); token 30 "+" 50 51; field "right" (node 31 "decimal_integer_literal" 52 53 [])])]);
    token 32 ";" 53 54]; node 33 "expression_statement" 59 64 [node 34 "method_invocation" 59 63 [field "name" (node
    35 "identifier" 59 60 []); field "arguments" (node 36 "argument_list" 60 63 [token 37 "(" 60 61; node 38
    "identifier" 61 62 []; token 39 ")" 62 63])]; token 40 ";" 63 64]; node 41 "return_statement" 69 78 [token 42
    "return" 69 75; node 43 "identifier" 76 77 []; token 44 ";" 77 78]; token 45 "}" 81 82])]; token 46 "}" 83
    84])]]).

Lemma parsed_main : parsed covering doc_main.
Proof.
  split; [by vm_compute|by vm_compute|apply fits_visited; by vm_compute|apply covering_within].
Qed.
Lemma tokens_main : tokens doc_main.
Proof.
  assert (H : forallb (λ m, negb (bool_decide (kind m = "identifier") || is_missing m) || bool_decide (children m = []))
    (visited (root_node (od_tree doc_main))) = true) by by vm_compute.
  assert (H' : forallb (λ m, negb (bool_decide (kind m = "identifier")) || negb (starts_with_white_space (str_drop (start_byte m) (od_source doc_main))))
    (visited (root_node (od_tree doc_main))) = true) by by vm_compute.
  rewrite forallb_forall in H, H'. split.
  - intros m Hm Hor. specialize (H m (proj1 (list_elem_of_In _ _) (proj2 (visited_within _ _) Hm))). apply orb_true_iff in H as [H|H].
    + apply negb_true_iff, orb_false_iff in H as [H1%bool_decide_eq_false H2]. destruct Hor; congruence.
    + by apply bool_decide_eq_true in H.
  - intros m Hm Hk _. specialize (H' m (proj1 (list_elem_of_In _ _) (proj2 (visited_within _ _) Hm))). rewrite bool_decide_eq_true_2 in H' by done.
    by apply negb_true_iff in H'.
Qed.
Lemma extract_variable_exact_witness : ∃ a t, extract_variable lower_case covering doc_main (LineIndex.new (od_source doc_main) LineIndex.Utf16Units) 48 53 = Ok a ∧ client_applies LineIndex.Utf16Units (od_source doc_main) (as_edits a) t.
Proof.
  assert (Hok : is_ok (extract_variable lower_case covering doc_main (LineIndex.new (od_source doc_main) LineIndex.Utf16Units) 48 53) = true) by by vm_compute.
  destruct (extract_variable lower_case covering doc_main (LineIndex.new (od_source doc_main) LineIndex.Utf16Units) 48 53) as [a|] eqn:E; [|done]. clear Hok. exists a.
  destruct (extract_variable_exact covering doc_main LineIndex.Utf16Units parsed_main lower_case _ _ a E) as (n & st & b & m & i & nm & p & q & _ & _ & _ & _ & _ & _ & _ & _ & _ & _ & H & _). eexists. by split.
Defined.
Lemma extract_method_sound_witness : ∃ a t, extract_method covering doc_main (LineIndex.new (od_source doc_main) LineIndex.Utf16Units) 40 54 = Ok a ∧ client_applies LineIndex.Utf16Units (od_source doc_main) (as_edits a) t.
Proof.
  assert (Hok : is_ok (extract_method covering doc_main (LineIndex.new (od_source doc_main) LineIndex.Utf16Units) 40 54) = true) by by vm_compute.
  destruct (extract_method covering doc_main (LineIndex.new (od_source doc_main) LineIndex.Utf16Units) 40 54) as [a|] eqn:E; [|done]. clear Hok. exists a.
  destruct (extract_method_sound covering doc_main LineIndex.Utf16Units parsed_main _ _ a E) as (ss & f & l & b & c & bd & cl & ins & out & nm & si & _ & _ & _ & _ & _ & _ & _ & _ & _ & _ & _ & _ & _ & H). eexists. by split.
Defined.
Lemma inline_variable_exact_witness : ∃ a t, inline_variable covering doc_main (LineIndex.new (od_source doc_main) LineIndex.Utf16Units) 44 44 = Ok a ∧ client_applies LineIndex.Utf16Units (od_source doc_main) (as_edits a) t.
Proof.
  assert (Hok : is_ok (inline_variable covering doc_main (LineIndex.new (od_source doc_main) LineIndex.Utf16Units) 44 44) = true) by by vm_compute.
  destruct (inline_variable covering doc_main (LineIndex.new (od_source doc_main) LineIndex.Utf16Units) 44 44) as [a|] eqn:E; [|done]. clear Hok. exists a.
  destruct (inline_variable_exact covering doc_main LineIndex.Utf16Units parsed_main _ _ a tokens_main E) as (n & d & dn & v & sc & lo & hi & _ & _ & _ & _ & _ & _ & _ & _ & _ & _ & _ & _ & _ & _ & _ & _ & _ & H). eexists. by split.
Defined.
Example variable_extracted : applied doc_main (variable doc_main "p + 1") =
  Some ("class C {" +:+ newline +:+ "  int a;" +:+ newline +:+ "  int m(int p) {" +:+ newline +:+ "    var value = p + 1;" +:+ newline +:+ "    int x = value;" +:+ newline +:+ "    h(x);" +:+ newline +:+ "    return x;" +:+ newline +:+ "  }" +:+ newline +:+ "}" +:+ newline).
Proof. by vm_compute. Qed.
Example constant_extracted : applied doc_main (constant doc_main "1") =
  Some ("class C {" +:+ newline +:+ "  private static final int CONSTANT = 1;" +:+ newline +:+ newline +:+ "  int a;" +:+ newline +:+ "  int m(int p) {" +:+ newline +:+ "    int x = p + CONSTANT;" +:+ newline +:+ "    h(x);" +:+ newline +:+ "    return x;" +:+ newline +:+ "  }" +:+ newline +:+ "}" +:+ newline).
Proof. by vm_compute. Qed.
Example method_extracted : applied doc_main (method doc_main "int x = p + 1;") =
  Some ("class C {" +:+ newline +:+ "  int a;" +:+ newline +:+ "  int m(int p) {" +:+ newline +:+ "    int x = extracted(p);" +:+ newline +:+ "    h(x);" +:+ newline +:+ "    return x;" +:+ newline +:+ "  }" +:+ newline +:+ newline +:+ "  private int extracted(int p) {" +:+ newline +:+ "      int x = p + 1;" +:+ newline +:+ "      return x;" +:+ newline +:+ "  }" +:+ newline +:+ "}" +:+ newline).
Proof. by vm_compute. Qed.
Example variable_inlined : applied doc_main (inline doc_main "x =") =
  Some ("class C {" +:+ newline +:+ "  int a;" +:+ newline +:+ "  int m(int p) {" +:+ newline +:+ "    h((p + 1));" +:+ newline +:+ "    return (p + 1);" +:+ newline +:+ "  }" +:+ newline +:+ "}" +:+ newline).
Proof. by vm_compute. Qed.

(** Another block declares a variable of the same name, whose uses are
    replaced too. *)
Definition doc_twins : OpenDoc := mkOpenDoc ("class C { void m() { if (c) { int x = 1; h(x); } else { int x = 2; h(x); } } }") (
    node 1 "program" 0 78 [node 2 "class_declaration" 0 78 [token 3 "class" 0 5; field "name" (node 4 "identifier" 6
    7 []); field "body" (node 5 "class_body" 8 78 [token 6 "{" 8 9; node 7 "method_declaration" 10 76 [field "type"
    (node 8 "void_type" 10 14 []); field "name" (node 9 "identifier" 15 16 []); field "parameters" (node 10
    "formal_parameters" 16 18 [token 11 "(" 16 17; token 12 ")" 17 18]); field "body" (node 13 "block" 19 76 [token
    14 "{" 19 20; node 15 "if_statement" 21 74 [token 16 "if" 21 23; field "condition" (node 17
    "parenthesized_expression" 24 27 [token 18 "(" 24 25; node 19 "identifier" 25 26 []; token 20 ")" 26 27]); field
    "consequence" (node 21 "block" 28 48 [token 22 "{" 28 29; node 23 "local_variable_declaration" 30 40 [field
    "type" (node 24 "integral_type" 30 33 []); field "declarator" (node 25 "variable_declarator" 34 39 [field "name"
    (node 26 "identifier" 34 35 []); token 27 "=" 36 37; field "value" (node 28 "decimal_integer_literal" 38 39
    [])]); token 29 ";" 39 40]; node 30 "expression_statement" 41 46 [node 31 "method_invocation" 41 45 [field
    "name" (node 32 "identifier" 41 42 []); field "arguments" (node 33 "argument_list" 42 45 [token 34 "(" 42 43;
    node 35 "identifier" 43 44 []; token 36 ")" 44 45])]; token 37 ";" 45 46]; token 38 "}" 47 48]); token 39 "else"
    49 53; field "alternative" (node 40 "block" 54 74 [token 41 "{" 54 55; node 42 "local_variable_declaration" 56
    66 [field "type" (node 43 "integral_type" 56 59 []); field "declarator" (node 44 "variable_declarator" 60 65
    [field "name" (node 45 "identifier" 60 61 []); token 46 "=" 62 63; field "value" (node 47
    "decimal_integer_literal" 64 65 [])]); token 48 ";" 65 66]; node 49 "expression_statement" 67 72 [node 50
    "method_invocation" 67 71 [field "name" (node 51 "identifier" 67 68 []); field "arguments" (node 52
    "argument_list" 68 71 [token 53 "(" 68 69; node 54 "identifier" 69 70 []; token 55 ")" 70 71])]; token 56 ";" 71
    72]; token 57 "}" 73 74])]; token 58 "}" 75 76])]; token 59 "}" 77 78])]]).
Lemma other_block_inlined : applied doc_twins (inline doc_twins "x = 1") =
  Some ("class C { void m() { if (c) {  h(1); } else { int x = 2; h(1); } } }").
Proof. by vm_compute. Qed.

(** What the initializer reads has changed by the time of the use. *)
Definition doc_changed : OpenDoc := mkOpenDoc ("class C { void m(int p) { int x = p; p = 2; h(x); } }") (
    node 1 "program" 0 53 [node 2 "class_declaration" 0 53 [token 3 "class" 0 5; field "name" (node 4 "identifier" 6
    7 []); field "body" (node 5 "class_body" 8 53 [token 6 "{" 8 9; node 7 "method_declaration" 10 51 [field "type"
    (node 8 "void_type" 10 14 []); field "name" (node 9 "identifier" 15 16 []); field "parameters" (node 10
    "formal_parameters" 16 23 [token 11 "(" 16 17; node 12 "formal_parameter" 17 22 [field "type" (node 13
    "integral_type" 17 20 []); field "name" (node 14 "identifier" 21 22 [])]; token 15 ")" 22 23]); field "body"
    (node 16 "block" 24 51 [token 17 "{" 24 25; node 18 "local_variable_declaration" 26 36 [field "type" (node 19
    "integral_type" 26 29 []); field "declarator" (node 20 "variable_declarator" 30 35 [field "name" (node 21
    "identifier" 30 31 []); token 22 "=" 32 33; field "value" (node 23 "identifier" 34 35 [])]); token 24 ";" 35
    36]; node 25 "expression_statement" 37 43 [node 26 "assignment_expression" 37 42 [field "left" (node 27
    "identifier" 37 38 []); token 28 "=" 39 40; field "right" (node 29 "decimal_integer_literal" 41 42 [])]; token
    30 ";" 42 43]; node 31 "expression_statement" 44 49 [node 32 "method_invocation" 44 48 [field "name" (node 33
    "identifier" 44 45 []); field "arguments" (node 34 "argument_list" 45 48 [token 35 "(" 45 46; node 36
    "identifier" 46 47 []; token 37 ")" 47 48])]; token 38 ";" 48 49]; token 39 "}" 50 51])]; token 40 "}" 52 53])]]).
Lemma changed_value_inlined : applied doc_changed (inline doc_changed "x =") =
  Some ("class C { void m(int p) {  p = 2; h(p); } }").
Proof. by vm_compute. Qed.

(** The declaration of a loop header takes its semicolon with it. *)
Definition doc_header : OpenDoc := mkOpenDoc ("class C { void m() { for (int n = 1; c; ) { h(n); } } }") (
    node 1 "program" 0 55 [node 2 "class_declaration" 0 55 [token 3 "class" 0 5; field "name" (node 4 "identifier" 6
    7 []); field "body" (node 5 "class_body" 8 55 [token 6 "{" 8 9; node 7 "method_declaration" 10 53 [field "type"
    (node 8 "void_type" 10 14 []); field "name" (node 9 "identifier" 15 16 []); field "parameters" (node 10
    "formal_parameters" 16 18 [token 11 "(" 16 17; token 12 ")" 17 18]); field "body" (node 13 "block" 19 53 [token
    14 "{" 19 20; node 15 "for_statement" 21 51 [token 16 "for" 21 24; token 17 "(" 25 26; field "init" (node 18
    "local_variable_declaration" 26 36 [field "type" (node 19 "integral_type" 26 29 []); field "declarator" (node 20
    "variable_declarator" 30 35 [field "name" (node 21 "identifier" 30 31 []); token 22 "=" 32 33; field "value"
    (node 23 "decimal_integer_literal" 34 35 [])]); token 24 ";" 35 36]); field "condition" (node 25 "identifier" 37
    38 []); token 26 ";" 38 39; token 27 ")" 40 41; field "body" (node 28 "block" 42 51 [token 29 "{" 42 43; node 30
    "expression_statement" 44 49 [node 31 "method_invocation" 44 48 [field "name" (node 32 "identifier" 44 45 []);
    field "arguments" (node 33 "argument_list" 45 48 [token 34 "(" 45 46; node 35 "identifier" 46 47 []; token 36
    ")" 47 48])]; token 37 ";" 48 49]; token 38 "}" 50 51])]; token 39 "}" 52 53])]; token 40 "}" 54 55])]]).
Lemma header_broken : applied doc_header (inline doc_header "n = 1") =
  Some ("class C { void m() { for ( c; ) { h(1); } } }").
Proof. by vm_compute. Qed.

(** The expression leaves the lambda whose parameter it reads. *)
Definition doc_lambda : OpenDoc := mkOpenDoc ("class C { void m() {" +:+ newline +:+ "    r(y -> y + 1);" +:+ newline +:+ "  } }") (
    node 1 "program" 0 45 [node 2 "class_declaration" 0 45 [token 3 "class" 0 5; field "name" (node 4 "identifier" 6
    7 []); field "body" (node 5 "class_body" 8 45 [token 6 "{" 8 9; node 7 "method_declaration" 10 43 [field "type"
    (node 8 "void_type" 10 14 []); field "name" (node 9 "identifier" 15 16 []); field "parameters" (node 10
    "formal_parameters" 16 18 [token 11 "(" 16 17; token 12 ")" 17 18]); field "body" (node 13 "block" 19 43 [token
    14 "{" 19 20; node 15 "expression_statement" 25 39 [node 16 "method_invocation" 25 38 [field "name" (node 17
    "identifier" 25 26 []); field "arguments" (node 18 "argument_list" 26 38 [token 19 "(" 26 27; node 20
    "lambda_expression" 27 37 [field "parameters" (node 21 "identifier" 27 28 []); token 22 "->" 29 31; field "body"
    (node 23 "binary_expression" 32 37 [field "left" (node 24 "identifier" 32 33 []); token 25 "+" 34 35; field
    "right" (node 26 "decimal_integer_literal" 36 37 [])])]; token 27 ")" 37 38])]; token 28 ";" 38 39]; token 29
    "}" 42 43])]; token 30 "}" 44 45])]]).
Lemma parameter_left_behind : applied doc_lambda (variable doc_lambda "y + 1") =
  Some ("class C { void m() {" +:+ newline +:+ "    var value = y + 1;" +:+ newline +:+ "    r(y -> value);" +:+ newline +:+ "  } }").
Proof. by vm_compute. Qed.

(** The condition of a loop is computed once, before it. *)
Definition doc_condition : OpenDoc := mkOpenDoc ("class C { void m(int i) {" +:+ newline +:+ "    while (i < 9) i++;" +:+ newline +:+ "  } }") (
    node 1 "program" 0 54 [node 2 "class_declaration" 0 54 [token 3 "class" 0 5; field "name" (node 4 "identifier" 6
    7 []); field "body" (node 5 "class_body" 8 54 [token 6 "{" 8 9; node 7 "method_declaration" 10 52 [field "type"
    (node 8 "void_type" 10 14 []); field "name" (node 9 "identifier" 15 16 []); field "parameters" (node 10
    "formal_parameters" 16 23 [token 11 "(" 16 17; node 12 "formal_parameter" 17 22 [field "type" (node 13
    "integral_type" 17 20 []); field "name" (node 14 "identifier" 21 22 [])]; token 15 ")" 22 23]); field "body"
    (node 16 "block" 24 52 [token 17 "{" 24 25; node 18 "while_statement" 30 48 [token 19 "while" 30 35; field
    "condition" (node 20 "parenthesized_expression" 36 43 [token 21 "(" 36 37; node 22 "binary_expression" 37 42
    [field "left" (node 23 "identifier" 37 38 []); field "operator" (token 24 "<" 39 40); field "right" (node 25
    "decimal_integer_literal" 41 42 [])]; token 26 ")" 42 43]); field "body" (node 27 "expression_statement" 44 48
    [node 28 "update_expression" 44 47 [node 29 "identifier" 44 45 []; token 30 "++" 45 47]; token 31 ";" 47 48])];
    token 32 "}" 51 52])]; token 33 "}" 53 54])]]).
Example condition_hoisted : applied doc_condition (variable doc_condition "i < 9") =
  Some ("class C { void m(int i) {" +:+ newline +:+ "    var value = i < 9;" +:+ newline +:+ "    while (value) i++;" +:+ newline +:+ "  } }").
Proof. by vm_compute. Qed.

(** What is written is read in the next round of the loop. *)
Definition doc_loop : OpenDoc := mkOpenDoc ("class C { void m() { int x = 1; while (c) { h(x);" +:+ newline +:+ "    x = x + 1;" +:+ newline +:+ "  } } }") (
    node 1 "program" 0 72 [node 2 "class_declaration" 0 72 [token 3 "class" 0 5; field "name" (node 4 "identifier" 6
    7 []); field "body" (node 5 "class_body" 8 72 [token 6 "{" 8 9; node 7 "method_declaration" 10 70 [field "type"
    (node 8 "void_type" 10 14 []); field "name" (node 9 "identifier" 15 16 []); field "parameters" (node 10
    "formal_parameters" 16 18 [token 11 "(" 16 17; token 12 ")" 17 18]); field "body" (node 13 "block" 19 70 [token
    14 "{" 19 20; node 15 "local_variable_declaration" 21 31 [field "type" (node 16 "integral_type" 21 24 []); field
    "declarator" (node 17 "variable_declarator" 25 30 [field "name" (node 18 "identifier" 25 26 []); token 19 "=" 27
    28; field "value" (node 20 "decimal_integer_literal" 29 30 [])]); token 21 ";" 30 31]; node 22 "while_statement"
    32 68 [token 23 "while" 32 37; field "condition" (node 24 "parenthesized_expression" 38 41 [token 25 "(" 38 39;
    node 26 "identifier" 39 40 []; token 27 ")" 40 41]); field "body" (node 28 "block" 42 68 [token 29 "{" 42 43;
    node 30 "expression_statement" 44 49 [node 31 "method_invocation" 44 48 [field "name" (node 32 "identifier" 44
    45 []); field "arguments" (node 33 "argument_list" 45 48 [token 34 "(" 45 46; node 35 "identifier" 46 47 [];
    token 36 ")" 47 48])]; token 37 ";" 48 49]; node 38 "expression_statement" 54 64 [node 39
    "assignment_expression" 54 63 [field "left" (node 40 "identifier" 54 55 []); token 41 "=" 56 57; field "right"
    (node 42 "binary_expression" 58 63 [field "left" (node 43 "identifier" 58 59 []); token 44 "+" 60 61; field
    "right" (node 45 "decimal_integer_literal" 62 63 [])])]; token 46 ";" 63 64]; token 47 "}" 67 68])]; token 48
    "}" 69 70])]; token 49 "}" 71 72])]]).
Lemma loop_write_lost : applied doc_loop (method doc_loop "x = x + 1;") =
  Some ("class C { void m() { int x = 1; while (c) { h(x);" +:+ newline +:+ "    extracted(x);" +:+ newline +:+ "  } }" +:+ newline +:+ newline +:+ "private void extracted(int x) {" +:+ newline +:+ "    x = x + 1;" +:+ newline +:+ "} }").
Proof. by vm_compute. Qed.

(** A parameter of variable arity is not seen and not passed. *)
Definition doc_varargs : OpenDoc := mkOpenDoc ("class C { void m(int... xs) {" +:+ newline +:+ "    h(xs);" +:+ newline +:+ "  } }") (
    node 1 "program" 0 46 [node 2 "class_declaration" 0 46 [token 3 "class" 0 5; field "name" (node 4 "identifier" 6
    7 []); field "body" (node 5 "class_body" 8 46 [token 6 "{" 8 9; node 7 "method_declaration" 10 44 [field "type"
    (node 8 "void_type" 10 14 []); field "name" (node 9 "identifier" 15 16 []); field "parameters" (node 10
    "formal_parameters" 16 27 [token 11 "(" 16 17; node 12 "spread_parameter" 17 26 [node 13 "integral_type" 17 20
    []; token 14 "..." 20 23; node 15 "variable_declarator" 24 26 [field "name" (node 16 "identifier" 24 26 [])]];
    token 17 ")" 26 27]); field "body" (node 18 "block" 28 44 [token 19 "{" 28 29; node 20 "expression_statement" 34
    40 [node 21 "method_invocation" 34 39 [field "name" (node 22 "identifier" 34 35 []); field "arguments" (node 23
    "argument_list" 35 39 [token 24 "(" 35 36; node 25 "identifier" 36 38 []; token 26 ")" 38 39])]; token 27 ";" 39
    40]; token 28 "}" 43 44])]; token 29 "}" 45 46])]]).
Lemma varargs_not_passed : applied doc_varargs (method doc_varargs "h(xs);") =
  Some ("class C { void m(int... xs) {" +:+ newline +:+ "    extracted();" +:+ newline +:+ "  }" +:+ newline +:+ newline +:+ "private void extracted() {" +:+ newline +:+ "    h(xs);" +:+ newline +:+ "} }").
Proof. by vm_compute. Qed.

(** Dimensions after the name are not part of the type. *)
Definition doc_array : OpenDoc := mkOpenDoc ("class C { void m() { int a[] = f();" +:+ newline +:+ "    h(a);" +:+ newline +:+ "  } }") (
    node 1 "program" 0 51 [node 2 "class_declaration" 0 51 [token 3 "class" 0 5; field "name" (node 4 "identifier" 6
    7 []); field "body" (node 5 "class_body" 8 51 [token 6 "{" 8 9; node 7 "method_declaration" 10 49 [field "type"
    (node 8 "void_type" 10 14 []); field "name" (node 9 "identifier" 15 16 []); field "parameters" (node 10
    "formal_parameters" 16 18 [token 11 "(" 16 17; token 12 ")" 17 18]); field "body" (node 13 "block" 19 49 [token
    14 "{" 19 20; node 15 "local_variable_declaration" 21 35 [field "type" (node 16 "integral_type" 21 24 []); field
    "declarator" (node 17 "variable_declarator" 25 34 [field "name" (node 18 "identifier" 25 26 []); field
    "dimensions" (node 19 "dimensions" 26 28 [token 20 "[" 26 27; token 21 "]" 27 28]); token 22 "=" 29 30; field
    "value" (node 23 "method_invocation" 31 34 [field "name" (node 24 "identifier" 31 32 []); field "arguments"
    (node 25 "argument_list" 32 34 [token 26 "(" 32 33; token 27 ")" 33 34])])]); token 28 ";" 34 35]; node 29
    "expression_statement" 40 45 [node 30 "method_invocation" 40 44 [field "name" (node 31 "identifier" 40 41 []);
    field "arguments" (node 32 "argument_list" 41 44 [token 33 "(" 41 42; node 34 "identifier" 42 43 []; token 35
    ")" 43 44])]; token 36 ";" 44 45]; token 37 "}" 48 49])]; token 38 "}" 50 51])]]).
Lemma dimensions_dropped : applied doc_array (method doc_array "h(a);") =
  Some ("class C { void m() { int a[] = f();" +:+ newline +:+ "    extracted(a);" +:+ newline +:+ "  }" +:+ newline +:+ newline +:+ "private void extracted(int a) {" +:+ newline +:+ "    h(a);" +:+ newline +:+ "} }").
Proof. by vm_compute. Qed.

(** The search for the name goes on inside its first character. *)
Definition doc_accent : OpenDoc := mkOpenDoc ("class C { void m() {" +:+ newline +:+ "    xété(new Été());" +:+ newline +:+ "  } }") (
    node 1 "program" 0 51 [node 2 "class_declaration" 0 51 [token 3 "class" 0 5; field "name" (node 4 "identifier" 6
    7 []); field "body" (node 5 "class_body" 8 51 [token 6 "{" 8 9; node 7 "method_declaration" 10 49 [field "type"
    (node 8 "void_type" 10 14 []); field "name" (node 9 "identifier" 15 16 []); field "parameters" (node 10
    "formal_parameters" 16 18 [token 11 "(" 16 17; token 12 ")" 17 18]); field "body" (node 13 "block" 19 49 [token
    14 "{" 19 20; node 15 "expression_statement" 25 45 [node 16 "method_invocation" 25 44 [field "name" (node 17
    "identifier" 25 31 []); field "arguments" (node 18 "argument_list" 31 44 [token 19 "(" 31 32; node 20
    "object_creation_expression" 32 43 [token 21 "new" 32 35; field "type" (node 22 "type_identifier" 36 41 []);
    field "arguments" (node 23 "argument_list" 41 43 [token 24 "(" 41 42; token 25 ")" 42 43])]; token 26 ")" 43
    44])]; token 27 ";" 44 45]; token 28 "}" 48 49])]; token 29 "}" 50 51])]]).
Lemma accented_name_panics : variable doc_accent "new Été()" = Err Panicked.
Proof. by vm_compute. Qed.

(** A field that is assigned once. *)
Definition doc_final : OpenDoc := mkOpenDoc ("class C { final int a; }") (
    node 1 "program" 0 24 [node 2 "class_declaration" 0 24 [token 3 "class" 0 5; field "name" (node 4 "identifier" 6
    7 []); field "body" (node 5 "class_body" 8 24 [token 6 "{" 8 9; node 7 "field_declaration" 10 22 [node 8
    "modifiers" 10 15 [token 9 "final" 10 15]; field "type" (node 10 "integral_type" 16 19 []); field "declarator"
    (node 11 "variable_declarator" 20 21 [field "name" (node 12 "identifier" 20 21 [])]); token 13 ";" 21 22]; token
    14 "}" 23 24])]]).
Lemma final_field_set : existsb (λ a, bool_decide (as_title a = "Generate getters and setters")
    && contains_str "this.a = a;" (str_concat (te_new_text <$> as_edits a)))
  (generate_actions lower_case covering doc_final (ix_of doc_final) 10) = true.
Proof. by vm_compute. Qed.
End Sample.
End Refactor.
